(* ===== verification/_CoqProject ===== *)
-Q . S2P
Prelude.v
World.v
Paths.v
StoreUtil.v
Strconv.v
IdTools.v
TruncIndex.v
LockFile.v
LockProgress.v
FsWriters.v
TempDir.v
IdSet.v
StringId.v
Codec.v
Json.v
Registry.v
StoreLock.v
StoreDisk.v
ContainerStore.v
ContainerFacts.v
ImageStore.v
ImageFacts.v
GraphDriver.v
LayerData.v
LayerStore.v
LayerDemo.v
LayerFacts.v
LayerLoad.v
Store.v
StoreOps.v
StoreDemo.v
StoreFacts.v
UsernsFacts.v
GoRegexp.v
DockerReference.v
ReferenceFacts.v
ReferenceGrammar.v
ConfigFile.v
ConfigFileFacts.v
SysRegistries.v
SysRegistriesFacts.v
AliasFacts.v
ShortNames.v
ShortNamesFacts.v
GoJson.v
Signatures.v
ManifestList.v
ManifestListFacts.v
Sigstore.v
Policy.v
PolicyDemo.v
SignatureFacts.v
PolicyFacts.v
PolicyConfig.v
PolicyConfigFacts.v
SecretsBase.v
FileDriver.v
PassDriver.v
ShellDriver.v
Secrets.v
SecretsFacts.v
SecretsTheorems.v
Capabilities.v
Ipam.v
IpamFacts.v
BlobInfoCache.v
BlobInfoCacheFacts.v
ImageManifest.v
ImageManifestFacts.v
