(* ===== verification/Prelude.v ===== *)
(** * Verification of the container libraries

    The subject is the Go code that Podman, Buildah, CRI-O and Skopeo share:
    [src/storage], which keeps images, layers and containers on disk; of
    [src/image] the part that decides what a name stands for and whether the
    image may be used: the names of images, the registries and mirrors they are
    pulled from, the choice of a platform, signatures and the signature policy;
    and of [src/common] what a container gets from its host: secrets,
    capabilities and addresses.  This development models them as executable
    functions and proves what makes them correct.

    ** The program

    A store keeps records in memory and in JSON files of a directory.  There
    are three kinds: containers ([containers.go]), images ([images.go]) and
    layers ([layers.go]).  Every one of them
    - indexes its records by identifier, by name and by unique prefix (and
      images and layers by digests, layers by mount point);
    - is used by many processes: a lock file ([pkg/lockfile]) is held around
      every operation, it carries a token of the last write, and a process
      that finds a foreign token reloads the files;
    - replaces its files atomically ([pkg/ioutils]) and recovers from what a
      killed process left: records marked incomplete, temporary directories
      under their own lock files ([internal/tempdir],
      [internal/staging_lockfile]).
    The layer store also calls a graph driver ([drivers]), which has the
    contents of layers, and shares the table of mounts with other processes
    under a second lock file.  The store object ([store.go]) puts them
    together: it has one layer store, image store and container store to write
    and others to read, takes their locks in a fixed order, and is the only
    place that knows that a layer is the parent of another, the top of an
    image or the file system of a container.

    What is to be pulled is a name.  A short name is an alias, or is looked for
    in several registries ([pkg/shortnames]); the configuration
    ([pkg/sysregistriesv2], read from many files by [storage/pkg/configfile])
    says which registry and which mirrors a name is pulled from, and keeps the
    aliases in a file under a lock file.  What is found there may be a list of
    manifests, from which the instance for the platform is chosen
    ([internal/manifest], [internal/pkg/platform]).  The manifest of an image
    lists its layers; when they are compressed or encrypted on the way it is
    rewritten ([image/manifest]), and a cache says which blobs are known in other
    places and forms, so that they need not be copied ([pkg/blobinfocache]).

    Before an image is copied or run, a policy is asked about it.  The name of
    the image is parsed and brought to a normal form ([docker/reference]), and
    gives the scopes in which the policy is looked up
    ([docker/policyconfiguration], [docker/docker_transport.go]).  The policy is
    a JSON file that is decoded strictly ([signature/policy_config*.go]); each
    of the requirements it has for the image must be met
    ([signature/policy_eval*.go]): by a signature in the simple format, made
    with OpenPGP ([signature/simple.go], [mechanism*.go]), or in the sigstore
    format, with a key, a Fulcio certificate or a PKI, and possibly an entry of
    the Rekor log ([signature/internal], [fulcio_cert.go], [pki_cert.go]).  The
    identity in the signature must match the name
    ([policy_reference_match.go]), and the digest the manifest that the image
    keeps ([internal/image/unparsed.go], [internal/manifest]).

    A container is then started with what its host grants.  Secrets
    ([common/pkg/secrets]) have records in a JSON file under a lock file, and
    their data is kept by a driver: in another file, encrypted by gpg, or by
    commands of the user.  Capabilities ([common/pkg/capabilities]) are the
    default ones with those added and dropped.  Addresses
    ([common/libnetwork/netavark/ipam.go]) come out of the subnets of a network,
    and a database says which container has which.

    ** Effects

    [M S A] is the monad of code with state [S]: it returns a value, returns
    an error, or stops ([crash]: a panic, a killed process, a lock that the
    goroutine waits for while holding it, or fuel that ran out).  [wp] is the
    calculus of all outcomes at once; [kept], [stays] and the like are frames
    built from it.  [World] is the operating system: files, directories, the
    clock, random bytes, and the list [w_faults] of the outcomes of the coming
    system calls.  That list is arbitrary in the theorems, so they speak about
    every pattern of failing calls, short writes and kills.

    ** Files and the code they model
    - [Prelude], [World], [Paths], [Strconv]: the monad, the operating system,
      paths, and the parts of Go's standard library the code calls.
    - [StoreUtil]: helpers of [store.go], [utils.go] and [pkg/stringutils].
    - [StringId], [TruncIndex], [IdTools], [IdSet]: [pkg/stringid],
      [pkg/truncindex], [pkg/idtools], and [idset.go] with the allocation of
      user namespaces of [userns.go].
    - [LockFile]: [pkg/lockfile] with [internal/rawfilelock], as one goroutine
      runs it, and as a transition system of goroutines and processes, with
      [Lock], [RLock], [TryLock] and [Unlock] as its steps; [LockProgress]:
      the same with the goroutines that are blocked on the in-process mutex,
      and that nobody waits forever there.
    - [FsWriters]: [pkg/ioutils/fswriters.go].  [TempDir]:
      [internal/tempdir] and [internal/staging_lockfile].
    - [Registry], [StoreLock], [StoreDisk]: what the three stores have in
      common; the index with its heap of shared records, the locking methods
      over any [load], the steps of reading and writing files.
    - [ContainerStore], [ContainerFacts]: [containers.go], its theorems.
    - [ImageStore], [ImageFacts]: [images.go], its theorems.
    - [GraphDriver], [LayerData], [LayerStore], [LayerDemo], [LayerFacts],
      [LayerLoad]: the interface of [drivers/driver.go], the records and the
      methods of [layers.go], instances to run them, the theorems about the
      operations and about the files.
    - [Store], [StoreOps], [StoreDemo], [StoreFacts]: the store object of
      [store.go] with its construction and locks, its operations, instances
      and checks to run them, the theorems about references.  The stores and
      drivers it owns are on a heap and a pointer is a position there.
    - [UsernsFacts]: the sizes of automatic user namespaces of [userns.go],
      which [StoreOps] models.
    - [GoRegexp]: regular expressions as terms, the matcher of Go's [regexp]
      for anchored expressions and their declarative semantics.
    - [DockerReference], [ReferenceFacts], [ReferenceGrammar]:
      [docker/reference], [docker/policyconfiguration] and the references of
      [docker/docker_transport.go]; the theorems about them; a grammar of
      references of its own, and that the parser accepts exactly it.
    - [ConfigFile], [ConfigFileFacts]: [storage/pkg/configfile]; the iterator
      over files is a function of the body of the loop.
    - [SysRegistries], [SysRegistriesFacts], [AliasFacts]:
      [pkg/sysregistriesv2] with the cache of the process and the file of
      aliases; the theorems about registries and about aliases.
    - [ShortNames], [ShortNamesFacts]: [pkg/shortnames].
    - [ManifestList], [ManifestListFacts]: [internal/pkg/platform] and the lists
      of [internal/manifest].
    - [BlobInfoCache], [BlobInfoCacheFacts]: the cache of
      [pkg/blobinfocache/memory] with the priorities of [internal/prioritize].
    - [ImageManifest], [ImageManifestFacts]: [image/manifest], the three formats
      of manifests of single images.
    - [GoJson]: JSON values, decoding as [encoding/json] does it, base64 and
      hexadecimal, and the strict decoders of [signature/internal/json.go].
    - [Signatures], [Sigstore], [SignatureFacts]: [internal/signature], the
      digests of [internal/manifest], simple signing and the OpenPGP mechanism;
      the sigstore format; the theorems about them.
    - [Policy], [PolicyDemo], [PolicyFacts]: [signature/policy_types.go],
      [policy_eval*.go], [policy_reference_match.go] and the unparsed image;
      instances to run them; the theorems.
    - [PolicyConfig], [PolicyConfigFacts]: [signature/policy_config.go] and
      [policy_config_sigstore.go]; the theorems.
    - [SecretsBase], [FileDriver], [PassDriver], [ShellDriver], [Secrets],
      [SecretsFacts], [SecretsTheorems]: [common/pkg/secrets]; its records, its
      three drivers, the manager with its database and lock file; what the
      operations do, step by step, and the theorems.
    - [Capabilities]: [common/pkg/capabilities], with its theorem.
    - [Ipam], [IpamFacts]: [common/libnetwork/netavark/ipam.go] with the
      arithmetic of addresses and the checks of subnets it relies on; the
      theorems.
    - [Codec], [Json]: a codec that satisfies the laws of [encoding/json] the
      theorems need, so that they are not vacuous.

    Definitions have the names of the code; [x_] or [X_] where the name is
    taken, a prefix as in [l_Metadata] where records share a field name.  A
    part of a long function has a name of its own.

    ** Interfaces

    Code that is not part of the library is a class, with a second class of
    laws: the patricia trie ([PatriciaTrie]), interval sets ([IntervalSet]),
    JSON ([ContainerJSON], [ImageJSON], [LayerJSON]), digests ([Digests]), the
    order of iteration over a map ([MapRange]) and of a sort ([SortCreated]),
    the driver ([GraphDriver]) and its construction ([Drivers]), SELinux labels
    ([Selinux], [Labels]), tar and compression streams ([Streams]), the users of
    the host ([Host]).  On the side of images: case mapping beyond ASCII
    ([Unicode]), the JSON tokenizer ([JSON], [SigstoreJSON]), the decoders of
    manifests and their old signatures ([ImageSpec], [Libtrust]), the OpenPGP
    library ([OpenPGP], [OpenPGPLaw]) below a mechanism ([SigningMechanism], an
    interface of the code with the OpenPGP mechanism as an instance), keys,
    certificates and hashes ([Crypto]), where an image comes from
    ([ImageSource]) and the table of transports ([TransportRegistry]); the
    environment of the process ([Environment], [Users], [Runtime]), the TOML and
    JSON forms of configurations, lists and manifests ([TOML], [ListJSON],
    [ManifestJSON]), sorting without a fixed order of equal elements
    ([SortFunc], [SortFuncSpec]), and the prompt
    on a terminal ([Terminal]).  On the side of the host: the commands that
    drivers of secrets run ([Commands]), the JSON form of their files
    ([SecretsJSON], [SecretsJSONLaw]), the capabilities of the kernel
    ([Kernel]), the buckets of the database of addresses ([Bolt], [BoltLaw])
    and the texts of addresses ([NetText]).  Each has an instance, on which the witnesses
    run.

    ** What is shown
    - Invariants: no sequence of operations, of loads and of failures makes an
      index disagree with the records ([containers_invariant],
      [images_invariant], [layers_invariant]); the files that are loaded may be
      any in which no single record has a name twice (for images: no two
      records have one identifier).  What the code does with other files is
      shown by [repeated_name_lost].
    - References: with the three stores locked, [sound] says that no layer,
      image or container names a missing layer, that the layer of a container
      is nobody else's, and that only containers of an image are on its mapped
      layers.  The deletions keep it ([DeleteLayer_keeps_references],
      [DeleteImage_keeps_references], [DeleteContainer_keeps_references]): what
      is refused, what goes, and which one reference can dangle when a step
      fails half way: that of the container that is being deleted, or an entry
      among the mapped layers of an image.  The last clause of [sound] is up to
      the callers: [DeleteImage_orphans_child]
      and [PutLayer_on_container_layer] show what happens without it.
    - Behaviour: what create, delete and rename do to the set of records,
      success or not ([create_spec], [image_create_spec], [layer_create_spec],
      [Delete_removes], [layer_delete_spec], [updateNames_spec], ...); the
      digests and their index ([recomputeDigests_spec], [ByDigest_spec]).
    - Persistence: what is saved is what is loaded
      ([save_load_roundtrip], [image_save_load_roundtrip],
      [layer_save_load_roundtrip]); atomic writes
      refine a one-step replacement ([AtomicWriteFile_refines]); staged
      deletion and its recovery ([StageDeletion_atomic],
      [RecoverStaleDirs_spec]).
    - Locks: mutual exclusion over all interleavings ([lock_exclusion]), no
      lost modification ([RecordWrite_ModifiedSince]), and the locking methods
      of the stores never wait for themselves nor leave a lock behind.  Whoever
      waits gets the lock once the others let go, on every schedule
      ([lock_progress]).
    - Identifiers: maps are bijective, allocation finds exactly the free ones,
      prefixes are resolved only if they are unique ([Get_unique_prefix]).
    - Names: the parser accepts exactly the grammar of names, tags and valid
      digests ([Parse_grammar]), a normal form is stable and determines the name
      ([ParseNormalizedNamed_normal]), the text of a reference means the
      reference, with two exceptions ([docker_reference_roundtrip],
      [StringWithinTransport_other_registry], [StringWithinTransport_refused]),
      and the scopes of a policy are all the
      names that contain it, the most specific first
      ([DockerReferenceNamespaces_spec], [requirementsForImageRef_specific]).
    - Signatures: what is signed is read back ([payload_roundtrip],
      [Blob_roundtrip]); the identity reported for a signature belongs to a
      key that was imported ([openpgp_identity]).
    - Policy: an image that is allowed has for every requirement the evidence
      it asks for ([IsRunningImageAllowed_sound], [IsRunningImageAllowed_digest],
      [GetSignaturesWithAcceptedAuthor_sound], [matchesDockerReference_sound]),
      a destroyed context allows nothing ([PolicyContext_life]).  A policy that was read is
      consistent ([DefaultPolicy_consistent]), so the evaluation never
      meets the inconsistencies it checks for ([prepareTrustRoot_consistent],
      [signedBy_keys_load]).
    - Configuration: which files are read and in which order ([Read_files],
      [read_slices_spec]); the cache only holds
      consistent configurations ([getConfig_consistent]).
    - Registries: the longest prefix decides ([findRegistry_longest]); what is
      pulled from a mirror has the digest and the tag that were asked for
      ([PullSources_keep_reference]), and only a bad location can prevent it
      ([PullSources_error]).  So do the candidates for a short name
      ([Resolve_candidates]), of which there is one in enforcing mode; aliases
      that are added are resolved ([AddShortNameAlias_resolves]), those that are
      removed are gone ([RemoveShortNameAlias_spec]).
    - Lists of manifests: the best instance is chosen ([chooseInstance_best]),
      both formats agree ([s_ChooseInstance_equiv]), conversion keeps the
      entries ([schema2_roundtrip]), and what edits do ([UpdateInstances_spec],
      [EditInstances_add]).
    - Manifests and blobs: what an update of the layers changes and what it does
      to the MIME types ([UpdateLayerInfos_layers], [UpdateLayerInfos_twice],
      [encryption_roundtrip]); the chain of histories of the oldest format
      ([Schema1FromManifest_chain]); blobs are only offered in place of others
      if that was recorded ([CandidateLocations2_recorded]), the best ones first
      ([CandidateLocations2_best], [RecordKnownLocation_first]).
    - Secrets: the three maps of the database agree in memory and on disk
      ([secrets_invariant]), and what is stored is found ([Store_LookupSecretData]).
    - Capabilities: exactly those that the rules grant
      ([MergeCapabilities_spec], [MergeCapabilities_all]).
    - Addresses: the search ends and fails only if all are in use
      ([getFreeIPFromBucket_spec]); none is taken from another container
      ([allocIPs_owners]).
    - Errors the code makes: theorems that exhibit them on a concrete input.

    ** Fuel and bounds

    Loops that end only when the random source or another party cooperates
    have fuel: drawing an unused identifier ([unusedID], [GenerateRandomID]),
    unmounting until the count is zero ([unmount_all]), opening a lock
    ([openLock_terminates] shows that none is needed beyond the script of
    failures).  The theorems hold for every fuel; running out is the outcome
    [Crash NoFuel], which they treat as the process stopping there, and
    [generateID_terminates] says how much is enough.  The walk of [deleteImage]
    along the parents needs as many rounds as there are layers, whatever they
    are linked to ([remove_chain_wp]).  The loops over the parts of a name run
    at most as often as the name is long, and that is enough
    ([DockerReferenceNamespaces_spec]); a repetition in a regular expression is
    tried at most as often as the text is long ([FindStringSubmatch_spec] says
    that no match is lost).  The search for an address needs at most twice the
    size of the range and six more rounds ([getFreeIPFromBucket_spec]); for an
    identifier of a secret one round is enough if it is new
    ([Store_LookupSecretData]).  Bounds of the code are
    kept: 10000 names for temporary files, 1000 retries of a staging lock,
    three clean-ups by a reader of the layer store.  Machine integers wrap
    where the code computes with them ([int64]).

    ** Not modelled

    Of [store.go]: finding the store of a configuration ([GetStore]), streams of
    layer contents ([Diff], [Changes], [DifferTarget]), the lookup of additional
    layers, and the server for split streams.  The graph drivers themselves
    (mounts, quotas, extended attributes); [pkg/archive] and [pkg/chunked] (tar
    and zstd streams), and with them [layerStore.Diff], [Changes],
    [ParentOwners] and the getters of single files.  Of [image]: the registry
    protocol, the transports and the copy pipeline; of its signatures, how they
    are made, and the gpgme and sequoia mechanisms; texts that are only shown to
    the user.  Of [common]: the configuration of Podman, networks
    beyond the addresses of containers, the pull and build helpers, and the
    daemons it talks to.  File modes and
    ownership are not part of [World]; the text around an error is dropped and
    only the error it wraps is kept.  How [json.Marshal] prints a value: what is
    marshalled is a JSON value or goes through a codec with laws.  A requirement
    of a policy that refuses an image returns a result and an error in Go; here
    a refusal is the error, so a refusal without an error has no counterpart.
    Other operating systems than Linux.

    ** Next

    The creation of layers, images and containers as theorems about references,
    the locks of the store object, the effects of a kill on the driver's
    layers; the look-aside storage of signatures ([docker/registries_d.go]),
    and the consistency check of [check.go]. *)

From Stdlib Require Export Ascii ZArith.
From stdpp Require Export prelude strings gmap list.


(** ** Outcomes of Go code

    A Go function returns a value, returns an error,
    or stops the process.  [error] keeps the sentinel an error wraps (the only
    part the code branches on); the text that [fmt.Errorf] adds around it is
    not modelled. *)

Inductive oserr :=
  | ENOENT
  | EEXIST
  | ENOSPC
  | EIO
  | EROFS.

Inductive error :=
  | ErrContainerUnknown
  | ErrImageUnknown
  | ErrLayerUnknown
  | ErrDigestUnknown
  | ErrSizeUnknown
  | ErrDuplicateID
  | ErrDuplicateName
  | ErrDuplicateImageNames
  | ErrDuplicateLayerNames
  | ErrInvalidBigDataName
  | ErrInvalidMappings
  | ErrNoAvailableIDs
  | ErrStoreIsReadOnly
  | ErrLayerNotMounted
  | ErrEmptyPrefix
  | ErrIllegalChar
  | ErrAmbiguousPrefix
  | ErrNotExist
  | ErrInvalidNameOperation
  | ErrInconsistent
  | ErrNotSupported
  | ErrMCSAlreadyExists
  | ErrNotALayer
  | ErrNotAnImage
  | ErrNotAContainer
  | ErrNotAnID
  | ErrParentIsContainer
  | ErrLayerHasChildren
  | ErrLayerUsedByImage
  | ErrLayerUsedByContainer
  | ErrImageUsedByContainer
  | ErrPolicyRequirement (msg : string)   (* a rejection by a signature policy *)
  | ErrInvalidSignature (msg : string)
  | ErrJSONFormat (msg : string)
  | ErrOS (e : oserr)
  | ErrOther (msg : string).

#[global] Instance oserr_eq_dec : EqDecision oserr.
Proof. solve_decision. Defined.

#[global] Instance error_eq_dec : EqDecision error.
Proof. solve_decision. Defined.

(** Why a run stopped without returning: a Go [panic], a lock requested by
    the goroutine that already holds it, a loop over an exhausted stream
    of random identifiers, or the end of the process (a signal, a power
    failure).  Deferred clean-up does not run then. *)
Inductive crash := Panic (msg : string) | Deadlock | NoFuel | Killed.

#[global] Instance crash_eq_dec : EqDecision crash.
Proof. solve_decision. Defined.

Inductive outcome (A : Type) :=
  | Ret (a : A)
  | Err (e : error)
  | Crash (c : crash).

Arguments Ret {A} a.
Arguments Err {A} e.
Arguments Crash {A} c.

#[global] Instance outcome_eq_dec `{EqDecision A} : EqDecision (outcome A).
Proof. solve_decision. Defined.

#[global] Instance outcome_ret : MRet outcome := @Ret.
#[global] Instance outcome_bind : MBind outcome := λ A B f o,
  match o with Ret a => f a | Err e => Err e | Crash c => Crash c end.

#[global] Instance outcome_fmap : FMap outcome := λ A B f o,
  match o with Ret a => Ret (f a) | Err e => Err e | Crash c => Crash c end.

Definition is_ret {A} (o : outcome A) : Prop := ∃ a, o = Ret a.
Definition is_crash {A} (o : outcome A) : Prop := ∃ c, o = Crash c.

(** ** The state monad of Go methods

    [M S A]: a method whose receiver and surroundings are [S].  Unlike an
    exception monad that rolls back, an error keeps every write made before
    it, as Go does. *)

Definition M (S A : Type) : Type := S → S * outcome A.

Section Monad.
Context {S : Type}.

#[global] Instance M_ret : MRet (M S) := λ A a s, (s, Ret a).

#[global] Instance M_bind : MBind (M S) := λ A B f m s,
  match m s with
  | (s', Ret a) => f a s'
  | (s', Err e) => (s', Err e)
  | (s', Crash c) => (s', Crash c)
  end.

#[global] Instance M_fmap : FMap (M S) := λ A B f m s,
  match m s with
  | (s', Ret a) => (s', Ret (f a))
  | (s', Err e) => (s', Err e)
  | (s', Crash c) => (s', Crash c)
  end.

Definition fail {A} (e : error) : M S A := λ s, (s, Err e).
Definition stop {A} (c : crash) : M S A := λ s, (s, Crash c).
Definition gets {A} (f : S → A) : M S A := λ s, (s, Ret (f s)).
Definition modify (f : S → S) : M S unit := λ s, (f s, Ret tt).

(** [x, err := m()]: the error becomes a value the caller inspects. *)
Definition try {A} (m : M S A) : M S (A + error) := λ s,
  match m s with
  | (s', Ret a) => (s', Ret (inl a))
  | (s', Err e) => (s', Ret (inr e))
  | (s', Crash c) => (s', Crash c)
  end.

(** [defer]red clean-up that runs only when the body returned an error. *)
Definition on_error {A} (m : M S A) (cleanup : M S unit) : M S A := λ s,
  match m s with
  | (s', Err e) =>
      match cleanup s' with
      | (s'', Crash c) => (s'', Crash c)
      | (s'', _) => (s'', Err e)
      end
  | r => r
  end.

(** An unconditional [defer]. *)
Definition finally {A} (m : M S A) (cleanup : M S unit) : M S A := λ s,
  match m s with
  | (s', Crash c) => (s', Crash c)
  | (s', o) =>
      match cleanup s' with
      | (s'', Crash c) => (s'', Crash c)
      | (s'', _) => (s'', o)
      end
  end.

(** [for _, x := range l { body x }], leaving the loop on the first error. *)
Fixpoint forM {X} (l : list X) (body : X → M S unit) : M S unit :=
  match l with
  | [] => mret tt
  | x :: l => body x ≫= λ _, forM l body
  end.

(** The same with an accumulator. *)
Fixpoint foldM {A X} (body : A → X → M S A) (a : A) (l : list X) : M S A :=
  match l with
  | [] => mret a
  | x :: l => body a x ≫= λ a, foldM body a l
  end.

Definition guardM (b : bool) (e : error) : M S unit :=
  if b then mret tt else fail e.
End Monad.

(** Running a method of a component of the state. *)
Definition zoom {S T A} (get : S → T) (set : T → S → S) (m : M T A) : M S A :=
  λ s, let '(t, o) := m (get s) in (set t s, o).

(** ** Weakest preconditions

    [wp m Φ s]: running [m] from [s] ends in an outcome and a state that
    satisfy [Φ].  Every method of the model is total, so [wp] is a statement
    about the run itself and never holds because a run is missing. *)

Definition wp {S A} (m : M S A) (Φ : outcome A → S → Prop) (s : S) : Prop :=
  Φ (snd (m s)) (fst (m s)).

(** Postconditions by kind of outcome; a crash is excluded. *)
Definition post {S A} (Q : A → S → Prop) (E : error → S → Prop)
    (o : outcome A) (s : S) : Prop :=
  match o with Ret a => Q a s | Err e => E e s | Crash _ => False end.

(** Postconditions that only look at the final state. *)
Definition always {S A} (I : S → Prop) (_ : outcome A) (s : S) : Prop := I s.

Section WP.
Context {S : Type}.
Implicit Types (s : S).

Lemma wp_mono {A} (m : M S A) (Φ Ψ : outcome A → S → Prop) s :
  wp m Φ s → (∀ o s', Φ o s' → Ψ o s') → wp m Ψ s.
Proof. unfold wp. eauto. Qed.

Lemma wp_and {A} (m : M S A) (Φ Ψ : outcome A → S → Prop) s :
  wp m Φ s → wp m Ψ s → wp m (λ o s', Φ o s' ∧ Ψ o s') s.
Proof. done. Qed.

Lemma wp_ret {A} (a : A) Φ s : Φ (Ret a) s → wp (mret a) Φ s.
Proof. done. Qed.

Lemma wp_fail {A} e (Φ : outcome A → S → Prop) s : Φ (Err e) s → wp (fail e) Φ s.
Proof. done. Qed.

Lemma wp_stop {A} c (Φ : outcome A → S → Prop) s : Φ (Crash c) s → wp (stop c) Φ s.
Proof. done. Qed.

Lemma wp_gets {A} (f : S → A) Φ s : Φ (Ret (f s)) s → wp (gets f) Φ s.
Proof. done. Qed.

Lemma wp_modify (f : S → S) Φ s : Φ (Ret tt) (f s) → wp (modify f) Φ s.
Proof. done. Qed.

Lemma wp_bind {A B} (m : M S A) (f : A → M S B) Φ s :
  wp m (λ o s', match o with
                | Ret a => wp (f a) Φ s'
                | Err e => Φ (Err e) s'
                | Crash c => Φ (Crash c) s'
                end) s →
  wp (m ≫= f) Φ s.
Proof. unfold wp, mbind, M_bind. by destruct (m s) as [s' [a|e|c]]. Qed.

Lemma wp_fmap {A B} (m : M S A) (f : A → B) Φ s :
  wp m (λ o s', match o with
                | Ret a => Φ (Ret (f a)) s'
                | Err e => Φ (Err e) s'
                | Crash c => Φ (Crash c) s'
                end) s →
  wp (f <$> m) Φ s.
Proof. unfold wp, fmap, M_fmap. by destruct (m s) as [s' [a|e|c]]. Qed.

Lemma wp_try {A} (m : M S A) Φ s :
  wp m (λ o s', match o with
                | Ret a => Φ (Ret (inl a)) s'
                | Err e => Φ (Ret (inr e)) s'
                | Crash c => Φ (Crash c) s'
                end) s →
  wp (try m) Φ s.
Proof. unfold wp, try. by destruct (m s) as [s' [a|e|c]]. Qed.

Lemma wp_on_error {A} (m : M S A) cl Φ s :
  wp m (λ o s', match o with
                | Err e => wp cl (λ o' s'', match o' with
                                            | Crash c => Φ (Crash c) s''
                                            | _ => Φ (Err e) s''
                                            end) s'
                | o => Φ o s'
                end) s →
  wp (on_error m cl) Φ s.
Proof.
  unfold wp, on_error. destruct (m s) as [s' [a|e|c]]; simpl; try done.
  by destruct (cl s') as [s'' [[]|e'|c]].
Qed.

Lemma wp_finally {A} (m : M S A) cl Φ s :
  wp m (λ o s', match o with
                | Crash c => Φ (Crash c) s'
                | o => wp cl (λ o' s'', match o' with
                                        | Crash c => Φ (Crash c) s''
                                        | _ => Φ o s''
                                        end) s'
                end) s →
  wp (finally m cl) Φ s.
Proof.
  unfold wp, finally. destruct (m s) as [s' [a|e|c]]; simpl; try done;
    by destruct (cl s') as [s'' [[]|e'|c]].
Qed.

(** The invariant rule for [range] loops. *)
Lemma wp_forM {X} (I : list X → S → Prop) (l : list X) (body : X → M S unit)
    (Φ : outcome unit → S → Prop) s :
  I l s →
  (∀ x l' s', I (x :: l') s' →
     wp (body x) (λ o s'', match o with
                           | Ret _ => I l' s''
                           | Err e => Φ (Err e) s''
                           | Crash c => Φ (Crash c) s''
                           end) s') →
  (∀ s', I [] s' → Φ (Ret tt) s') →
  wp (forM l body) Φ s.
Proof.
  intros HI Hstep Hend. revert s HI.
  induction l as [|x l IH]; intros s HI; simpl; [by apply Hend|].
  apply wp_bind. eapply wp_mono; [by apply Hstep|].
  intros [[]|e|c] s'; simpl; auto.
Qed.

Lemma wp_foldM {A X} (I : A → list X → S → Prop) (body : A → X → M S A) (a : A) (l : list X)
    (Φ : outcome A → S → Prop) s :
  I a l s →
  (∀ a x l' s', I a (x :: l') s' →
     wp (body a x) (λ o s'', match o with
                             | Ret a' => I a' l' s''
                             | Err e => Φ (Err e) s''
                             | Crash c => Φ (Crash c) s''
                             end) s') →
  (∀ a s', I a [] s' → Φ (Ret a) s') →
  wp (foldM body a l) Φ s.
Proof.
  intros HI Hstep Hend. revert a s HI.
  induction l as [|x l IH]; intros a s HI; simpl; [by apply Hend|].
  apply wp_bind. eapply wp_mono; [by apply Hstep|].
  intros [a'|e|c] s'; simpl; auto.
Qed.

Lemma wp_zoom {T A} (get : S → T) (set : T → S → S) (m : M T A) Φ s :
  wp m (λ o t, Φ o (set t s)) (get s) → wp (zoom get set m) Φ s.
Proof. unfold wp, zoom. by destruct (m (get s)). Qed.

Lemma run_wp {A} (m : M S A) (Φ : outcome A → S → Prop) s : wp m Φ s → let '(s', o) := m s in Φ o s'.
Proof. unfold wp. by destruct (m s). Qed.

Lemma wp_run {A} (m : M S A) Φ s s' o : m s = (s', o) → wp m Φ s → Φ o s'.
Proof. unfold wp. by intros ->. Qed.
End WP.

(** A sequence returns when both parts do. *)
Lemma run_bind_ret {S A B} (m : M S A) (f : A → M S B) s s' b :
  (m ≫= f) s = (s', Ret b) → ∃ s1 a, m s = (s1, Ret a) ∧ f a s1 = (s', Ret b).
Proof. unfold mbind, M_bind. destruct (m s) as [s1 [a|e|c]]; [by eauto|done|done]. Qed.

Lemma run_try {S A B} (m : M S A) (f : A + error → M S B) s :
  (try m ≫= f) s = match m s with
                   | (s', Ret a) => f (inl a) s'
                   | (s', Err e) => f (inr e) s'
                   | (s', Crash c) => (s', Crash c)
                   end.
Proof. unfold mbind, M_bind, try. by destruct (m s) as [s' [a|e|c]]. Qed.

(** ** Relations that every run respects

    [moves P m]: however [m] ends, the state it started from and the state it
    ends in are related by [P].  With [P] a preorder this composes; invariants
    ([λ s s', I s → I s']) and frame conditions are special cases. *)

Definition moves {S A} (P : relation S) (m : M S A) : Prop := ∀ s, P s (fst (m s)).

Section Moves.
Context {S : Type} (P : relation S) `{!PreOrder P}.

Lemma moves_ret {A} (a : A) : moves P (mret a).
Proof. intros s. simpl. reflexivity. Qed.
Lemma moves_fail {A} e : moves P (fail (A := A) e).
Proof. intros s. simpl. reflexivity. Qed.
Lemma moves_stop {A} c : moves P (stop (A := A) c).
Proof. intros s. simpl. reflexivity. Qed.
Lemma moves_gets {A} (f : S → A) : moves P (gets f).
Proof. intros s. simpl. reflexivity. Qed.
Lemma moves_modify f : (∀ s, P s (f s)) → moves P (modify f).
Proof. intros Hf s. apply Hf. Qed.

Lemma moves_bind {A B} (m : M S A) (f : A → M S B) :
  moves P m → (∀ a, moves P (f a)) → moves P (m ≫= f).
Proof.
  intros Hm Hf s. specialize (Hm s). unfold mbind, M_bind.
  destruct (m s) as [s' [a|e|c]]; [|done|done]. etrans; [done|apply Hf].
Qed.

Lemma moves_try {A} (m : M S A) : moves P m → moves P (try m).
Proof. intros Hm s. specialize (Hm s). unfold try. by destruct (m s) as [s' [a|e|c]]. Qed.

Lemma moves_on_error {A} (m : M S A) cl : moves P m → moves P cl → moves P (on_error m cl).
Proof.
  intros Hm Hc s. specialize (Hm s). unfold on_error.
  destruct (m s) as [s' [a|e|c]]; try done. specialize (Hc s').
  destruct (cl s') as [s'' [[]|e'|c]]; by etrans.
Qed.

Lemma moves_finally {A} (m : M S A) cl : moves P m → moves P cl → moves P (finally m cl).
Proof.
  intros Hm Hc s. specialize (Hm s). unfold finally.
  destruct (m s) as [s' [a|e|c]]; try done; specialize (Hc s');
    destruct (cl s') as [s'' [[]|e'|c]]; by etrans.
Qed.

Lemma moves_forM {X} (l : list X) body : (∀ x, moves P (body x)) → moves P (forM l body).
Proof. intros Hb. induction l as [|x l IH]; simpl; [apply moves_ret|]. by apply moves_bind. Qed.

Lemma moves_foldM {A X} (body : A → X → M S A) a l :
  (∀ a x, moves P (body a x)) → moves P (foldM body a l).
Proof.
  intros Hb. revert a. induction l as [|x l IH]; intros a; simpl; [apply moves_ret|].
  by apply moves_bind.
Qed.
End Moves.

Lemma wp_moves {S A} (P : relation S) (m : M S A) Φ s :
  moves P m → (∀ o s', P s s' → Φ o s') → wp m Φ s.
Proof. intros Hm HΦ. unfold wp. apply HΦ, Hm. Qed.

(** Walk through a method: one goal is left for each step that is not generic. *)
Ltac moves_step :=
  lazymatch goal with
  | |- moves _ (_ ≫= _) => apply moves_bind; [apply _| |intros ?]
  | |- moves _ (mret _) => apply moves_ret; apply _
  | |- moves _ (fail _) => apply moves_fail; apply _
  | |- moves _ (stop _) => apply moves_stop; apply _
  | |- moves _ (gets _) => apply moves_gets; apply _
  | |- moves _ (try _) => apply moves_try
  | |- moves _ (on_error _ _) => apply moves_on_error; [apply _| |]
  | |- moves _ (finally _ _) => apply moves_finally; [apply _| |]
  | |- moves _ (forM _ _) => apply moves_forM; [apply _|intros ?]
  | |- moves _ (foldM _ _ _) => apply moves_foldM; [apply _|intros ? ?]
  | |- moves _ (if ?b then _ else _) => destruct b
  | |- moves _ (match ?x with _ => _ end) => destruct x
  | |- moves _ (let _ := _ in _) => cbv zeta
  end.
Ltac moves_steps := repeat (moves_step; try solve [eauto with moves]).

(** [calm m]: [m] never waits for a lock of its own goroutine. *)
Definition calm {S A} (m : M S A) : Prop := ∀ s, snd (m s) ≠ Crash Deadlock.

Section Calm.
Context {S : Type}.

Lemma calm_ret {A} (a : A) : calm (S := S) (mret a).
Proof. by intros s. Qed.
Lemma calm_fail {A} e : calm (S := S) (fail (A := A) e).
Proof. by intros s. Qed.
Lemma calm_stop {A} c : c ≠ Deadlock → calm (S := S) (stop (A := A) c).
Proof. intros Hc s [= ->]. done. Qed.
Lemma calm_gets {A} (f : S → A) : calm (gets f).
Proof. by intros s. Qed.
Lemma calm_modify (f : S → S) : calm (modify f).
Proof. by intros s. Qed.
Lemma calm_bind {A B} (m : M S A) (f : A → M S B) : calm m → (∀ a, calm (f a)) → calm (m ≫= f).
Proof.
  intros Hm Hf s. specialize (Hm s). unfold mbind, M_bind.
  destruct (m s) as [s' [a|e|c]]; [apply Hf|done|]. simpl in *. intros [= ->]. done.
Qed.
Lemma calm_try {A} (m : M S A) : calm m → calm (try m).
Proof.
  intros Hm s. specialize (Hm s). unfold try. destruct (m s) as [s' [a|e|c]]; try done.
  simpl in *. intros [= ->]. done.
Qed.
Lemma calm_forM {X} (l : list X) (body : X → M S unit) : (∀ x, calm (body x)) → calm (forM l body).
Proof. intros Hb. induction l as [|x l IH]; simpl; [apply calm_ret|]. by apply calm_bind. Qed.
Lemma calm_foldM {A X} (body : A → X → M S A) a l : (∀ a x, calm (body a x)) → calm (foldM body a l).
Proof.
  intros Hb. revert a. induction l as [|x l IH]; intros a; simpl; [apply calm_ret|]. by apply calm_bind.
Qed.
Lemma calm_zoom {T A} (get : S → T) (set : T → S → S) (m : M T A) : calm m → calm (zoom get set m).
Proof. intros Hm s. specialize (Hm (get s)). unfold zoom. by destruct (m (get s)). Qed.
End Calm.

Ltac calm_step :=
  lazymatch goal with
  | |- calm (_ ≫= _) => apply calm_bind; [|intros ?]
  | |- calm (mret _) => apply calm_ret
  | |- calm (fail _) => apply calm_fail
  | |- calm (stop _) => apply calm_stop; discriminate
  | |- calm (gets _) => apply calm_gets
  | |- calm (modify _) => apply calm_modify
  | |- calm (try _) => apply calm_try
  | |- calm (forM _ _) => apply calm_forM; intros ?
  | |- calm (foldM _ _ _) => apply calm_foldM; intros ? ?
  | |- calm (zoom _ _ _) => apply calm_zoom
  | |- calm (if ?b then _ else _) => destruct b
  | |- calm (match ?x with _ => _ end) => destruct x
  | |- calm (let _ := _ in _) => cbv zeta
  end.
Ltac calm_steps := repeat (calm_step; try solve [eauto with calm]); try solve [eauto with calm].

Create HintDb calm.
Create HintDb moves.
Create HintDb wp.
Create HintDb store.
#[export] Hint Resolve wp_ret wp_fail wp_stop wp_gets wp_modify : wp.

(** One symbolic step of a method. *)
Ltac wp_step :=
  lazymatch goal with
  | |- wp (_ ≫= _) _ _ => apply wp_bind
  | |- wp (_ <$> _) _ _ => apply wp_fmap
  | |- wp (mret _) _ _ => apply wp_ret
  | |- wp (fail _) _ _ => apply wp_fail
  | |- wp (stop _) _ _ => apply wp_stop
  | |- wp (gets _) _ _ => apply wp_gets
  | |- wp (modify _) _ _ => apply wp_modify
  | |- wp (try _) _ _ => apply wp_try
  | |- wp (on_error _ _) _ _ => apply wp_on_error
  | |- wp (finally _ _) _ _ => apply wp_finally
  | |- wp (zoom _ _ _) _ _ => apply wp_zoom
  | |- wp (if ?b then _ else _) _ _ => destruct b eqn:?
  | |- wp (match ?x with _ => _ end) _ _ => destruct x eqn:?
  end.
Ltac wp_steps := repeat (wp_step; simpl).

(** ** Strings *)

Lemma string_app_cons c s t : String c s +:+ t = String c (s +:+ t).
Proof. done. Qed.

Lemma string_length_app s t : String.length (s +:+ t) = String.length s + String.length t.
Proof. induction s as [|c s IH]; [done|]. rewrite string_app_cons. simpl. by rewrite IH. Qed.

Lemma substring_app s t : String.substring 0 (String.length s) (s +:+ t) = s.
Proof.
  induction s as [|c s IH]; [by destruct t|]. rewrite string_app_cons. simpl. by rewrite IH.
Qed.

Lemma string_app_assoc s t u : (s +:+ t) +:+ u = s +:+ (t +:+ u).
Proof. induction s as [|c s IH]; [done|]. by rewrite !string_app_cons, IH. Qed.

Lemma string_app_nil_r s : s +:+ EmptyString = s.
Proof. induction s as [|c s IH]; [done|]. by rewrite string_app_cons, IH. Qed.

Lemma substring_all s : String.substring 0 (String.length s) s = s.
Proof. rewrite <- (string_app_nil_r s) at 2. apply substring_app. Qed.

Lemma substring_skip s t n : String.substring (String.length s) n (s +:+ t) = String.substring 0 n t.
Proof. induction s as [|c s IH]; [done|]. rewrite string_app_cons. simpl. exact IH. Qed.

Lemma string_app_inj_length s s' t t' :
  String.length s = String.length s' → s +:+ t = s' +:+ t' → s = s' ∧ t = t'.
Proof.
  revert s'. induction s as [|c s IH]; intros [|c' s'] Hl H; simpl in Hl; try done.
  rewrite !string_app_cons in H. injection H as -> H. injection Hl as Hl.
  destruct (IH s' Hl H) as [-> ->]. done.
Qed.
