(* ===== verification/World.v ===== *)
(** * The operating system as the storage library sees it

    Files, directories, the clock, the source of random bytes and the outcome
    of every system call, with the standard-library functions of [os],
    [path/filepath] and [time] that the modelled code calls. *)

From stdpp Require Export pretty.
From S2P Require Import Prelude.

Local Open Scope string_scope.

(** ** path/filepath (Unix) *)

Definition slash : ascii := "/"%char.

Fixpoint split_slash (s : string) : list string :=
  match s with
  | EmptyString => [""]
  | String c s' =>
      let r := split_slash s' in
      if Ascii.eqb c slash then "" :: r
      else match r with
           | x :: r' => String c x :: r'
           | [] => [String c ""]
           end
  end.

Definition rooted (s : string) : bool := String.prefix "/" s.

(** One path element against the reversed list of elements kept so far. *)
Definition clean_step (root : bool) (acc : list string) (e : string) : list string :=
  if decide (e = "" ∨ e = ".") then acc
  else if decide (e = "..") then
    match acc with
    | x :: acc' => if decide (x = "..") then ".." :: acc else acc'
    | [] => if root then [] else [".."]
    end
  else e :: acc.

Definition filepath_Clean (p : string) : string :=
  let root := rooted p in
  let elems := rev (foldl (clean_step root) [] (split_slash p)) in
  let body := String.concat "/" elems in
  if root then "/" +:+ body
  else if decide (elems = []) then "." else body.

Fixpoint filepath_Join (elems : list string) : string :=
  match elems with
  | [] => ""
  | e :: rest => if decide (e = "") then filepath_Join rest
                 else filepath_Clean (String.concat "/" elems)
  end.

(** The part of the path up to its last slash, cleaned. *)
Definition filepath_Dir (p : string) : string :=
  match rev (split_slash p) with
  | [] => "."
  | _ :: front =>
      match front with
      | [] => "."
      | _ => filepath_Clean (String.concat "/" (rev ("" :: front)))
      end
  end.

(** ** The file system and the other inputs of a process *)

(** What a system call does: succeed, fail without an effect, transfer only
    some of the bytes (reads and writes), or not happen because the process is
    killed just before it. *)
Inductive fault := NoFault | FailWith (e : oserr) | Short (n : nat) | Kill.

(** What the kernel keeps about files besides their contents, and the locks
    on the files that protect temporary directories. *)
Record Meta := mkMeta {
  m_mtimes : gmap string Z;          (* modification times of data files *)
  m_stamps : list Z;                 (* times that coming writes get *)
  m_synced : gset string;            (* files whose contents were flushed *)
  m_staging : gset string;           (* stagingLockFiles of this process *)
  m_foreign : gset string            (* the same of all other processes *)
}.

Definition noMeta : Meta := mkMeta ∅ [] ∅ ∅ ∅.

Definition set_mtimes (x : gmap string Z) (m : Meta) : Meta :=
  mkMeta x (m_stamps m) (m_synced m) (m_staging m) (m_foreign m).
Definition set_stamps (x : list Z) (m : Meta) : Meta :=
  mkMeta (m_mtimes m) x (m_synced m) (m_staging m) (m_foreign m).
Definition set_synced (x : gset string) (m : Meta) : Meta :=
  mkMeta (m_mtimes m) (m_stamps m) x (m_staging m) (m_foreign m).
Definition set_staging (x : gset string) (m : Meta) : Meta :=
  mkMeta (m_mtimes m) (m_stamps m) (m_synced m) x (m_foreign m).

Record World := mkWorld {
  w_files : gmap string string;      (* path, contents *)
  w_dirs : gset string;
  w_faults : list fault;             (* outcome of the coming system calls *)
  w_rand : nat → ascii;              (* the bytes of the random source *)
  w_randpos : nat;                   (* how many of them were read *)
  w_clock : list Z;                  (* coming readings of the clock, in ns *)
  w_pid : Z;
  w_lwcounter : Z;                   (* lastWriterIDCounter of pkg/lockfile *)
  w_meta : Meta
}.

Definition set_files (f : gmap string string) (w : World) : World :=
  mkWorld f (w_dirs w) (w_faults w) (w_rand w) (w_randpos w) (w_clock w) (w_pid w) (w_lwcounter w) (w_meta w).
Definition set_dirs (d : gset string) (w : World) : World :=
  mkWorld (w_files w) d (w_faults w) (w_rand w) (w_randpos w) (w_clock w) (w_pid w) (w_lwcounter w) (w_meta w).
Definition set_faults (l : list fault) (w : World) : World :=
  mkWorld (w_files w) (w_dirs w) l (w_rand w) (w_randpos w) (w_clock w) (w_pid w) (w_lwcounter w) (w_meta w).
Definition set_randpos (n : nat) (w : World) : World :=
  mkWorld (w_files w) (w_dirs w) (w_faults w) (w_rand w) n (w_clock w) (w_pid w) (w_lwcounter w) (w_meta w).
Definition set_clock (l : list Z) (w : World) : World :=
  mkWorld (w_files w) (w_dirs w) (w_faults w) (w_rand w) (w_randpos w) l (w_pid w) (w_lwcounter w) (w_meta w).
Definition set_lwcounter (c : Z) (w : World) : World :=
  mkWorld (w_files w) (w_dirs w) (w_faults w) (w_rand w) (w_randpos w) (w_clock w) (w_pid w) c (w_meta w).
Definition set_meta (m : Meta) (w : World) : World :=
  mkWorld (w_files w) (w_dirs w) (w_faults w) (w_rand w) (w_randpos w) (w_clock w) (w_pid w) (w_lwcounter w) m.

(** The outcome of the next system call; past the end of the script, calls
    succeed. *)
Definition pop_fault : M World fault := λ w,
  match w_faults w with
  | [] => (w, Ret NoFault)
  | Kill :: l => (set_faults l w, Crash Killed)
  | f :: l => (set_faults l w, Ret f)
  end.

(** A system call that either fails without an effect or runs [m]. *)
Definition syscall {A} (m : M World A) : M World A :=
  f ← pop_fault;
  match f with FailWith e => fail (ErrOS e) | _ => m end.

Definition os_ReadFile (p : string) : M World string :=
  syscall (f ← gets w_files;
           match f !! p with Some d => mret d | None => fail (ErrOS ENOENT) end).

Definition os_IsNotExist (e : error) : bool := bool_decide (e = ErrOS ENOENT).

(** A path and all its ancestors. *)
Fixpoint ancestors_from (pre : string) (elems : list string) : list string :=
  match elems with
  | [] => []
  | e :: es => let p := (if decide (pre = "") then e else pre +:+ "/" +:+ e) in
               p :: ancestors_from p es
  end.

Definition ancestors (p : string) : list string :=
  match split_slash p with
  | "" :: es => (λ x, "/" +:+ x) <$> ancestors_from "" es
  | es => ancestors_from "" es
  end.

Definition os_MkdirAll (p : string) : M World unit :=
  syscall (modify (λ w, set_dirs ({[p]} ∪ list_to_set (ancestors p) ∪ w_dirs w) w)).

(** [p] itself or something below it. *)
Definition under (p q : string) : bool :=
  bool_decide (q = p) || String.prefix (p +:+ "/") q.

(** [os.RemoveAll] unlinks one entry after the other, goes on after a failed
    unlink, and reports the first failure; an entry that is gone already is no
    failure. *)
Fixpoint unlink_files (l : list string) (err : option error) : M World (option error) :=
  match l with
  | [] => mret err
  | q :: l =>
      f ← pop_fault;
      match f with
      | FailWith e =>
          if decide (e = ENOENT)
          then _ ← modify (λ w, set_files (delete q (w_files w)) w); unlink_files l err
          else unlink_files l (match err with None => Some (ErrOS e) | _ => err end)
      | _ => _ ← modify (λ w, set_files (delete q (w_files w)) w); unlink_files l err
      end
  end.

Definition os_RemoveAll (p : string) : M World unit :=
  files ← gets (λ w, filter (λ q, under p q = true) (elements (dom (w_files w))));
  err ← unlink_files files None;
  match err with
  | Some e => fail e
  | None =>
      f ← pop_fault;
      let gone := modify (λ w, set_dirs (filter (λ q, under p q = false) (w_dirs w)) w) in
      match f with
      | FailWith e => if decide (e = ENOENT) then gone else fail (ErrOS e)
      | _ => gone
      end
  end.

(** [system.EnsureRemoveAll] tries again when [os.RemoveAll] fails, after
    undoing mounts below [dir].  The modelled file system reports neither [EBUSY]
    nor [EPERM], for which it would try more often. *)
Definition EnsureRemoveAll (dir : string) : M World unit :=
  r ← try (os_RemoveAll dir);
  match r with inl _ => mret tt | inr _ => os_RemoveAll dir end.

(** Names of the entries of a directory; the flag tells directories apart. *)
Definition base_under (dir p : string) : option string :=
  if String.prefix (dir +:+ "/") p
  then let b := String.substring (String.length dir + 1)
                  (String.length p - (String.length dir + 1)) p in
       if decide (length (split_slash b) = 1 ∧ b ≠ "") then Some b else None
  else None.

Definition dir_entries (dir : string) (w : World) : list (string * bool) :=
  (((λ b, (b, true)) <$> omap (base_under dir) (elements (w_dirs w))) ++
   ((λ b, (b, false)) <$> omap (base_under dir) (elements (dom (w_files w)))))%list.

(** A directory is there if it is listed in [w_dirs] or has entries. *)
Definition os_ReadDir (dir : string) : M World (list (string * bool)) :=
  syscall (ds ← gets w_dirs;
           entries ← gets (dir_entries dir);
           if decide (dir ∈ ds ∨ entries ≠ []) then mret entries else fail (ErrOS ENOENT)).

(** The file [p] has new contents; flushed to the disk or not. *)
Definition put_file (synced : bool) (p data : string) (w : World) : World :=
  let m := w_meta w in
  set_meta (set_synced (if synced then {[p]} ∪ m_synced m else m_synced m ∖ {[p]})
              (set_stamps (tl (m_stamps m)) (set_mtimes (<[p := hd 0%Z (m_stamps m)]> (m_mtimes m)) m)))
    (set_files (<[p := data]> (w_files w)) w).

(** [ioutils.AtomicWriteFile] as one step: the whole file is replaced or
    nothing is.  [FsWriters] has its code and shows that it does this. *)
Definition AtomicWriteFile (p data : string) : M World unit :=
  syscall (modify (put_file true p data)).

(** The same with the option [NoSync]; it also yields [ModTime]. *)
Definition AtomicWriteFileWithOpts (noSync : bool) (p data : string) : M World Z :=
  syscall (_ ← modify (put_file (negb noSync) p data);
           gets (λ w, default 0%Z (m_mtimes (w_meta w) !! p))).

(** [os.Stat] of a file, for its modification time. *)
Definition os_Stat (p : string) : M World Z :=
  syscall (f ← gets w_files;
           t ← gets (λ w, default 0%Z (m_mtimes (w_meta w) !! p));
           match f !! p with Some _ => mret t | None => fail (ErrOS ENOENT) end).

(** [os.WriteFile] creates or truncates the file and writes to it. *)
Definition os_WriteFile (p data : string) : M World unit :=
  f ← pop_fault;
  match f with
  | NoFault => modify (put_file false p data)
  | FailWith e => fail (ErrOS e)
  | Short n => _ ← modify (put_file false p (String.substring 0 n data)); fail (ErrOS ENOSPC)
  | Kill => stop Killed
  end.

(** [os.Remove] of a file or of an empty directory. *)
Definition os_Remove (p : string) : M World unit :=
  syscall (
    w ← gets id;
    if decide (is_Some (w_files w !! p)) then modify (λ w, set_files (delete p (w_files w)) w)
    else if decide (p ∈ w_dirs w) then
      if decide (filter (λ q, under p q = true ∧ q ≠ p) (w_dirs w) = ∅ ∧
                 filter (λ q, under p q = true) (dom (w_files w)) = ∅)
      then modify (λ w, set_dirs (w_dirs w ∖ {[p]}) w)
      else fail (ErrOS EEXIST)
    else fail (ErrOS ENOENT)).

(** What a path below [src] becomes when [src] is renamed to [dst]. *)
Definition reroot (src dst q : string) : string :=
  if under src q
  then dst +:+ String.substring (String.length src) (String.length q - String.length src) q
  else q.

Definition move_file (src dst data : string) (w : World) : World :=
  let m := w_meta w in
  set_meta (set_synced (if decide (src ∈ m_synced m) then {[dst]} ∪ m_synced m ∖ {[src]}
                        else m_synced m ∖ {[dst]})
              (set_mtimes (<[dst := default 0%Z (m_mtimes m !! src)]> (delete src (m_mtimes m))) m))
    (set_files (<[dst := data]> (delete src (w_files w))) w).

Definition move_dir (src dst : string) (w : World) : World :=
  let m := w_meta w in
  set_meta (set_synced (set_map (reroot src dst) (m_synced m))
              (set_mtimes (list_to_map (prod_map (reroot src dst) id <$> map_to_list (m_mtimes m))) m))
    (set_files (list_to_map (prod_map (reroot src dst) id <$> map_to_list (w_files w)))
       (set_dirs (set_map (reroot src dst) (w_dirs w)) w)).

(** [os.Rename]: a file replaces a file; a directory needs a free or empty
    place. *)
Definition os_Rename (src dst : string) : M World unit :=
  syscall (
    w ← gets id;
    match w_files w !! src with
    | Some data => if decide (dst ∈ w_dirs w) then fail (ErrOS EEXIST) else modify (move_file src dst data)
    | None =>
        if decide (src ∈ w_dirs w) then
          if decide (filter (λ q, under dst q = true ∧ q ≠ dst) (w_dirs w) = ∅ ∧
                     filter (λ q, under dst q = true) (dom (w_files w)) = ∅)
          then modify (move_dir src dst)
          else fail (ErrOS EEXIST)
        else fail (ErrOS ENOENT)
    end).

Definition time_Now : M World Z := λ w,
  match w_clock w with
  | [] => (w, Ret 0%Z)
  | t :: l => (set_clock l w, Ret t)
  end.

(** [n] bytes of the random source, starting at position [pos]. *)
Fixpoint rand_bytes (r : nat → ascii) (pos n : nat) : string :=
  match n with
  | 0 => ""
  | S n => String (r pos) (rand_bytes r (S pos) n)
  end.

Definition rand_read (n : nat) : M World string := λ w,
  (set_randpos (w_randpos w + n) w, Ret (rand_bytes (w_rand w) (w_randpos w) n)).

(** [nextRandom] of package [os]: a random 32-bit number in decimal. *)
Fixpoint be_value (s : string) : N :=
  match s with
  | EmptyString => 0
  | String c s' => N_of_ascii c * 256 ^ N.of_nat (String.length s') + be_value s'
  end.

Definition nextRandom : M World string := s ← rand_read 4; mret (pretty (be_value s)).

(** [os.CreateTemp]: names are tried until one is free, 10000 times. *)
Fixpoint create_temp (tries : nat) (prefix : string) : M World string :=
  match tries with
  | 0 => fail (ErrOS EEXIST)
  | S tries =>
      r ← nextRandom;
      let name := prefix +:+ r in
      res ← try (syscall (w ← gets id;
                          if decide (is_Some (w_files w !! name) ∨ name ∈ w_dirs w) then fail (ErrOS EEXIST)
                          else if decide (filepath_Dir name ∈ w_dirs w) then modify (put_file false name "")
                          else fail (ErrOS ENOENT)));
      match res with
      | inl _ => mret name
      | inr e => if decide (e = ErrOS EEXIST) then create_temp tries prefix else fail e
      end
  end.

Definition os_CreateTemp (dir pattern : string) : M World string :=
  create_temp (Z.to_nat 10000) (dir +:+ "/" +:+ pattern).

(** [filepath.Base]: the last element, without trailing slashes. *)
Fixpoint first_nonempty (l : list string) : string :=
  match l with
  | [] => "/"
  | b :: l => if decide (b = "") then first_nonempty l else b
  end.

Definition filepath_Base (p : string) : string :=
  if decide (p = "") then "." else first_nonempty (rev (split_slash p)).

Lemma length_rand_bytes r pos n : String.length (rand_bytes r pos n) = n.
Proof. revert pos. induction n as [|n IH]; intros pos; simpl; [done|]. by rewrite IH. Qed.

(** ** What the system calls leave alone *)

(** A property of the part of the world that no system call of the model
    changes as a side effect: the files. *)
Lemma wp_pop_fault (Φ : outcome fault → World → Prop) w :
  (∀ f l, Φ (Ret f) (set_faults l w)) → (∀ l, Φ (Crash Killed) (set_faults l w)) → wp pop_fault Φ w.
Proof.
  intros HΦ Hk. unfold wp, pop_fault. destruct (w_faults w) as [|[] l] eqn:E; simpl; try apply HΦ; [|apply Hk].
  specialize (HΦ NoFault []). destruct w. simpl in *. by subst.
Qed.

(** Without scripted faults every call succeeds. *)
Lemma wp_syscall_strict {A} (m : M World A) Φ w :
  (∀ e l, w_faults w ≠ [] → Φ (Err (ErrOS e)) (set_faults l w)) →
  (∀ l, w_faults w ≠ [] → Φ (Crash Killed) (set_faults l w)) →
  (∀ l, (w_faults w = [] → l = []) → wp m Φ (set_faults l w)) →
  wp (syscall m) Φ w.
Proof.
  intros Hf Hk Hm. unfold syscall, wp, mbind, M_bind, pop_fault. destruct (w_faults w) as [|f l] eqn:E.
  - specialize (Hm [] (λ _, eq_refl)). destruct w. simpl in *. by subst.
  - destruct f; simpl; [apply (Hm l); done|by apply Hf|apply (Hm l); done|by apply Hk].
Qed.

Lemma wp_syscall {A} (m : M World A) Φ w :
  (∀ e l, Φ (Err (ErrOS e)) (set_faults l w)) →
  (∀ l, Φ (Crash Killed) (set_faults l w)) →
  (∀ l, wp m Φ (set_faults l w)) →
  wp (syscall m) Φ w.
Proof. intros Hf Hk Hm. apply wp_syscall_strict; auto. Qed.

Lemma syscall_ok {A} (m : M World A) w : w_faults w = [] → syscall m w = m w.
Proof. intros Hw. unfold syscall, pop_fault, mbind, M_bind. by rewrite Hw. Qed.

(** *** System calls do not wait for locks *)

Lemma calm_pop_fault : calm pop_fault.
Proof. intros w. unfold pop_fault. by destruct (w_faults w) as [|[]]. Qed.
#[export] Hint Resolve calm_pop_fault : calm.

Lemma calm_syscall {A} (m : M World A) : calm m → calm (syscall m).
Proof. intros Hm. unfold syscall. calm_steps. Qed.

Lemma calm_ReadFile p : calm (os_ReadFile p).
Proof. apply calm_syscall. calm_steps. Qed.
Lemma calm_MkdirAll p : calm (os_MkdirAll p).
Proof. apply calm_syscall. calm_steps. Qed.
Lemma calm_ReadDir p : calm (os_ReadDir p).
Proof. apply calm_syscall. calm_steps. Qed.
Lemma calm_AtomicWriteFile p d : calm (AtomicWriteFile p d).
Proof. apply calm_syscall. calm_steps. Qed.
Lemma calm_AtomicWriteFileWithOpts b p d : calm (AtomicWriteFileWithOpts b p d).
Proof. apply calm_syscall. calm_steps. Qed.
Lemma calm_Stat p : calm (os_Stat p).
Proof. apply calm_syscall. calm_steps. Qed.
Lemma calm_WriteFile p d : calm (os_WriteFile p d).
Proof. unfold os_WriteFile. calm_steps. Qed.
Lemma calm_Remove p : calm (os_Remove p).
Proof. apply calm_syscall. calm_steps. Qed.
Lemma calm_Rename p q : calm (os_Rename p q).
Proof. apply calm_syscall. calm_steps. Qed.
Lemma calm_unlink_files l err : calm (unlink_files l err).
Proof. revert err. induction l as [|q l IH]; intros err; simpl; calm_steps. Qed.
#[export] Hint Resolve calm_unlink_files : calm.
Lemma calm_RemoveAll p : calm (os_RemoveAll p).
Proof. unfold os_RemoveAll. calm_steps. Qed.
Lemma calm_EnsureRemoveAll p : calm (EnsureRemoveAll p).
Proof. pose proof (calm_RemoveAll p). unfold EnsureRemoveAll. calm_steps. Qed.
Lemma calm_time_Now : calm time_Now.
Proof. intros w. unfold time_Now. by destruct (w_clock w). Qed.
Lemma calm_rand_read n : calm (rand_read n).
Proof. by intros w. Qed.
#[export] Hint Resolve calm_ReadFile calm_MkdirAll calm_ReadDir calm_AtomicWriteFile calm_RemoveAll calm_EnsureRemoveAll
  calm_time_Now calm_rand_read calm_AtomicWriteFileWithOpts calm_Stat calm_WriteFile calm_Remove calm_Rename : calm.
