(* ===== verification/Paths.v ===== *)
(** * Absolute paths as lists of elements

    [filepath_Clean], [filepath_Join], [filepath_Dir], [filepath_Base] and
    [under] on the paths the stores use: absolute, clean, below the root. *)

From S2P Require Import Prelude World.

Local Open Scope string_scope.

(** ** Path elements *)

Fixpoint has_slash (s : string) : bool :=
  match s with EmptyString => false | String c s' => Ascii.eqb c slash || has_slash s' end.

Definition plain (e : string) : bool :=
  negb (has_slash e) && bool_decide (e ≠ "") && bool_decide (e ≠ ".") && bool_decide (e ≠ "..").

Definition abs_path (l : list string) : string := "/" +:+ String.concat "/" l.

Definition plains (l : list string) : Prop := Forall (λ e, plain e = true) l.

Lemma plain_spec e : plain e = true ↔ has_slash e = false ∧ e ≠ "" ∧ e ≠ "." ∧ e ≠ "..".
Proof.
  unfold plain. rewrite !andb_true_iff, !bool_decide_eq_true, negb_true_iff. tauto.
Qed.

Lemma has_slash_app s t : has_slash (s +:+ t) = has_slash s || has_slash t.
Proof. induction s as [|c s IH]; [done|]. rewrite string_app_cons. simpl. by rewrite IH, orb_assoc. Qed.

Lemma split_slash_plain e : has_slash e = false → split_slash e = [e].
Proof.
  induction e as [|c e IH]; [done|]. simpl. rewrite orb_false_iff. intros [Hc He].
  by rewrite Hc, IH.
Qed.

Lemma split_slash_app e s : has_slash e = false → split_slash (e +:+ "/" +:+ s) = e :: split_slash s.
Proof.
  induction e as [|c e IH]; [done|]. rewrite string_app_cons. simpl. rewrite orb_false_iff. intros [Hc He].
  by rewrite Hc, IH.
Qed.

Lemma concat_cons e l : l ≠ [] → String.concat "/" (e :: l) = e +:+ "/" +:+ String.concat "/" l.
Proof. by destruct l. Qed.

Lemma split_concat l : plains l → l ≠ [] → split_slash (String.concat "/" l) = l.
Proof.
  induction l as [|e l IH]; [done|]. intros [He Hl]%Forall_cons _.
  apply plain_spec in He as (He & _). destruct (decide (l = [])) as [->|Hne].
  - simpl. by apply split_slash_plain.
  - rewrite concat_cons by done. rewrite split_slash_app by done. by rewrite IH.
Qed.

Lemma concat_app l l' :
  l ≠ [] → l' ≠ [] → String.concat "/" (l ++ l') = String.concat "/" l +:+ "/" +:+ String.concat "/" l'.
Proof.
  intros Hl Hl'. induction l as [|e l IH]; [done|]. destruct (decide (l = [])) as [->|Hne].
  - cbn [app]. by rewrite concat_cons.
  - cbn [app]. rewrite concat_cons by (by destruct l). rewrite IH, (concat_cons e l) by done.
    by rewrite !string_app_assoc.
Qed.

Lemma abs_path_app l l' : l ≠ [] → l' ≠ [] → abs_path (l ++ l') = abs_path l +:+ "/" +:+ String.concat "/" l'.
Proof. intros. unfold abs_path. rewrite concat_app by done. by rewrite !string_app_assoc. Qed.

(** ** The functions of path/filepath *)

Lemma clean_plains l acc : plains l → foldl (clean_step true) acc l = (rev l ++ acc)%list.
Proof.
  revert acc. induction l as [|e l IH]; intros acc; [done|]. intros [He Hl]%Forall_cons. simpl.
  apply plain_spec in He as (_ & H1 & H2 & H3). unfold clean_step at 2.
  rewrite decide_False by tauto. rewrite decide_False by done. rewrite IH by done. by rewrite <- app_assoc.
Qed.

Lemma clean_empty acc : clean_step true acc "" = acc.
Proof. unfold clean_step. by rewrite decide_True by (by left). Qed.

Lemma split_slash_root s : split_slash ("/" +:+ s) = "" :: split_slash s.
Proof. done. Qed.

Lemma split_abs_path l : plains l → l ≠ [] → split_slash (abs_path l) = "" :: l.
Proof. intros Hl Hne. unfold abs_path. by rewrite split_slash_root, split_concat. Qed.

Lemma rooted_abs_path l : rooted (abs_path l) = true.
Proof. unfold abs_path, rooted. by destruct (String.concat "/" l). Qed.

Lemma Clean_abs_path l : plains l → l ≠ [] → filepath_Clean (abs_path l) = abs_path l.
Proof.
  intros Hl Hne. unfold filepath_Clean. rewrite rooted_abs_path, split_abs_path by done. simpl.
  rewrite clean_plains, app_nil_r, rev_involutive by done. done.
Qed.

Lemma Join_abs_path l e :
  plains l → l ≠ [] → plain e = true → filepath_Join [abs_path l; e] = abs_path (l ++ [e]).
Proof.
  intros Hl Hne He. unfold filepath_Join. rewrite decide_False by (by unfold abs_path; destruct (String.concat "/" l)).
  change (String.concat "/" [abs_path l; e]) with (abs_path l +:+ "/" +:+ e).
  change e with (String.concat "/" [e]) at 1. rewrite <- abs_path_app by done.
  apply Clean_abs_path; [|by destruct l]. apply Forall_app. split; [done|]. by apply Forall_singleton.
Qed.

Lemma Base_abs_path l e : plains (l ++ [e]) → filepath_Base (abs_path (l ++ [e])) = e.
Proof.
  intros Hl. unfold filepath_Base. rewrite decide_False by (by unfold abs_path; destruct (String.concat "/" (l ++ [e]))).
  rewrite split_abs_path by (done || by destruct l). simpl. rewrite rev_app_distr. simpl.
  apply Forall_app in Hl as [_ [He _]%Forall_cons]. apply plain_spec in He as (_ & He & _).
  by rewrite decide_False.
Qed.

Lemma split_concat_app l s :
  plains l → l ≠ [] → split_slash (String.concat "/" l +:+ "/" +:+ s) = (l ++ split_slash s)%list.
Proof.
  induction l as [|e l IH]; [done|]. intros [He Hl]%Forall_cons _.
  apply plain_spec in He as (He & _). destruct (decide (l = [])) as [->|Hne].
  - simpl. by rewrite split_slash_app.
  - rewrite concat_cons by done. rewrite !string_app_assoc, split_slash_app by done. by rewrite IH.
Qed.

Lemma Clean_trailing l : plains l → l ≠ [] → filepath_Clean (abs_path l +:+ "/") = abs_path l.
Proof.
  intros Hl Hne. unfold filepath_Clean, abs_path. rewrite string_app_assoc.
  assert (rooted ("/" +:+ String.concat "/" l +:+ "/") = true) as ->
    by (unfold rooted; by destruct (String.concat "/" l +:+ "/")).
  rewrite split_slash_root.
  change (String.concat "/" l +:+ "/") with (String.concat "/" l +:+ "/" +:+ "").
  rewrite split_concat_app by done. cbv zeta. cbn [foldl]. rewrite clean_empty, foldl_app. rewrite (clean_plains l), app_nil_r by done.
  cbn [split_slash foldl]. rewrite clean_empty. by rewrite rev_involutive.
Qed.

Lemma Dir_abs_path l e : plains (l ++ [e]) → l ≠ [] → filepath_Dir (abs_path (l ++ [e])) = abs_path l.
Proof.
  intros Hl Hne. unfold filepath_Dir. rewrite split_abs_path by (done || by destruct l).
  cbn [rev]. rewrite rev_app_distr. simpl. apply Forall_app in Hl as [Hl _].
  destruct (rev l ++ [""])%list as [|x f] eqn:E; [by destruct (rev l)|].
  rewrite <- E, rev_app_distr, rev_involutive. cbn [rev app].
  rewrite <- (Clean_trailing l Hl Hne). f_equal. rewrite concat_cons by (by destruct l).
  rewrite concat_app by done. unfold abs_path. by rewrite !string_app_assoc.
Qed.

(** ** Paths below a path *)

Lemma abs_path_inj l l' : plains l → plains l' → l ≠ [] → l' ≠ [] → abs_path l = abs_path l' → l = l'.
Proof.
  intros Hl Hl' Hn Hn' E. apply (f_equal split_slash) in E. rewrite !split_abs_path in E by done. by injection E.
Qed.

Lemma prefix_app p s : String.prefix p s = true ↔ ∃ t, s = p +:+ t.
Proof.
  revert s. induction p as [|c p IH]; intros s; simpl.
  - split; [by exists s|by destruct s].
  - destruct s as [|d s]; simpl.
    + split; [done|]. intros [t E]. discriminate E.
    + destruct (ascii_dec c d) as [->|Hne].
      * rewrite IH. split; intros [t E].
        -- exists t. by rewrite E, string_app_cons.
        -- exists t. rewrite string_app_cons in E. by injection E.
      * split; [done|]. intros [t E]. rewrite string_app_cons in E. congruence.
Qed.

Lemma under_abs_path l l' :
  plains l → plains l' → l ≠ [] → l' ≠ [] → under (abs_path l) (abs_path l') = true ↔ l `prefix_of` l'.
Proof.
  intros Hl Hl' Hn Hn'. unfold under. rewrite orb_true_iff, bool_decide_eq_true, prefix_app. split.
  - intros [E|[t E]].
    + apply abs_path_inj in E; [by subst|done..].
    + apply (f_equal split_slash) in E. rewrite split_abs_path in E by done.
      unfold abs_path in E. rewrite !string_app_assoc in E.
      rewrite split_slash_root in E.
      rewrite split_concat_app in E by done. injection E as ->. by exists (split_slash t).
  - intros [k ->]. destruct (decide (k = [])) as [->|Hk]; [left; by rewrite app_nil_r|].
    right. exists (String.concat "/" k). rewrite abs_path_app by done. by rewrite string_app_assoc.
Qed.

Lemma under_trans p q r : under p q = true → under q r = true → under p r = true.
Proof.
  unfold under. rewrite !orb_true_iff, !bool_decide_eq_true, !prefix_app.
  intros [->|[t ->]] [->|[t' ->]]; [by left|right..]; [by eauto|by eauto|].
  exists (t +:+ "/" +:+ t'). by rewrite !string_app_assoc.
Qed.

Lemma under_refl p : under p p = true.
Proof. unfold under. by rewrite bool_decide_eq_true_2. Qed.

(** Two paths above the same path are one above the other. *)
Lemma under_comparable p q r : under p r = true → under q r = true → under p q = true ∨ under q p = true.
Proof.
  unfold under. rewrite !orb_true_iff, !bool_decide_eq_true, !prefix_app.
  intros [->|[t ->]]; [tauto|]. intros [<-|[t' E]]; [by left; right; eauto|].
  assert (∀ p q t t', p +:+ t = q +:+ t' → (∃ u, q = p +:+ u ∧ t = u +:+ t') ∨ (∃ u, p = q +:+ u ∧ t' = u +:+ t)) as Hs.
  { clear. induction p as [|c p IH]; intros q t t' E; [left; by exists q|].
    destruct q as [|d q]; [right; by exists (String c p)|]. rewrite !string_app_cons in E. injection E as -> E.
    destruct (IH q t t' E) as [(u & -> & ->)|(u & -> & ->)]; [left|right]; by exists u. }
  rewrite !string_app_assoc in E. apply Hs in E as [(u & -> & E)|(u & -> & E)].
  - left. destruct u as [|c u]; [left; by rewrite string_app_nil_r|]. rewrite string_app_cons in E.
    injection E as <- E. right. exists u. by rewrite string_app_assoc.
  - right. destruct u as [|c u]; [left; by rewrite string_app_nil_r|]. rewrite string_app_cons in E.
    injection E as <- E. right. exists u. by rewrite string_app_assoc.
Qed.
