(* ===== verification/StoreUtil.v ===== *)
(** * Helpers shared by the three stores

    Models the helper functions of [storage/store.go] and [storage/utils.go]
    (name lists, copies of slices and maps, file names of big-data items) and
    of [storage/pkg/stringutils].

    A Go slice is a list; [nil] and the empty slice are the same list, which
    the modelled code never tells apart.  A Go map that the code compares
    with [nil] is an [option (gmap _ _)]: reading a nil map finds nothing,
    writing to it panics. *)

From S2P Require Import Prelude World.

Local Open Scope string_scope.

(** ** Nil-able maps *)

Section GoMap.
Context {V : Type}.

Definition gomap := option (gmap string V).

Definition gomap_get (m : gomap) (k : string) : option V := m ≫= (λ m, m !! k).

Definition gomap_len (m : gomap) : nat := from_option size 0 m.

(** [m[k] = v] *)
Definition gomap_set {S} (m : gomap) (k : string) (v : V) : M S gomap :=
  match m with
  | None => stop (Panic "assignment to entry in nil map")
  | Some m => mret (Some (<[k := v]> m))
  end.

(** [delete(m, k)], a no-op on a nil map *)
Definition gomap_delete (m : gomap) (k : string) : gomap := delete k <$> m.

(** [if m == nil { m = make(...) }] *)
Definition gomap_ensure (m : gomap) : gomap :=
  match m with None => Some ∅ | _ => m end.

Definition copyMapPreferringNil (m : gomap) : gomap :=
  if decide (gomap_len m = 0) then None else m.

Definition newMapFrom (m : gomap) : gomap :=
  if decide (gomap_len m = 0) then Some ∅ else m.
End GoMap.
Arguments gomap V : clear implicits.

Definition copySlicePreferringNil {A} (l : list A) : list A :=
  match l with [] => [] | _ => l end.

(** The order in which a [range] statement visits a map, which Go leaves
    open. *)
Class MapRange := range_map : ∀ {V : Type}, gmap string V → list (string * V).
Class MapRangeSpec `{MapRange} :=
  range_map_perm : ∀ {V : Type} (m : gmap string V), range_map m ≡ₚ map_to_list m.

#[export] Instance map_to_list_range : MapRange := λ V m, map_to_list m.
#[export] Instance map_to_list_range_spec : MapRangeSpec.
Proof. intros V m. reflexivity. Qed.

(** [digest.Canonical.FromBytes] and [Digest.Validate] of the package
    [go-digest]. *)
Class Digests := {
  FromBytes : string → string;
  ValidateDigest : string → option error
}.

(** ** Name lists *)

Fixpoint dedupe_from (seen : gset string) (names : list string) : list string :=
  match names with
  | [] => []
  | n :: names => if decide (n ∈ seen) then dedupe_from seen names
                  else n :: dedupe_from ({[n]} ∪ seen) names
  end.

Definition dedupeStrings (names : list string) : list string := dedupe_from ∅ names.

(** [digest.Digest] is a string type. *)
Definition dedupeDigests (digests : list string) : list string := dedupe_from ∅ digests.

Definition stringSliceWithoutValue (slice : list string) (value : string) : list string :=
  filter (λ v, v ≠ value) slice.

Inductive updateNameOperation :=
  | setNames
  | addNames
  | removeNames
  | otherNameOperation (n : Z).

Definition applyNameOperation (oldNames opParameters : list string)
    (op : updateNameOperation) : list string + error :=
  match op with
  | setNames => inl (dedupeStrings opParameters)
  | removeNames => inl (dedupeStrings (filter (λ n, n ∉ opParameters) oldNames))
  | addNames => inl (dedupeStrings (opParameters ++ oldNames)%list)
  | otherNameOperation _ => inr ErrInvalidNameOperation
  end.

(** [strings.EqualFold] on ASCII text. *)
Definition lower (c : ascii) : ascii :=
  let n := nat_of_ascii c in
  if Nat.leb 65 n && Nat.leb n 90 then ascii_of_nat (n + 32) else c.

Fixpoint EqualFold (s t : string) : bool :=
  match s, t with
  | "", "" => true
  | String a s, String b t => Ascii.eqb (lower a) (lower b) && EqualFold s t
  | _, _ => false
  end.

(** [stringutils.RemoveFromSlice] *)
Definition RemoveFromSlice (slice : list string) (s : string) : list string :=
  filter (λ ss, EqualFold s ss = false) slice.

(** ** File names of big-data items *)

Definition byteN (c : ascii) : nat := nat_of_ascii c.
Definition in_range (lo hi n : nat) : bool := Nat.leb lo n && Nat.leb n hi.
Definition cont (c : ascii) : bool := in_range 128 191 (byteN c).

(** Size in bytes of the first rune of a string, as [utf8.DecodeRune] counts
    it: an invalid sequence counts as one byte. *)
Definition rune_size (s : string) : nat :=
  match s with
  | "" => 0
  | String b0 s1 =>
      let n := byteN b0 in
      match s1 with
      | "" => 1
      | String b1 s2 =>
          if in_range 194 223 n then (if cont b1 then 2 else 1)
          else
            let ok1 :=
              if Nat.eqb n 224 then in_range 160 191 (byteN b1)
              else if Nat.eqb n 237 then in_range 128 159 (byteN b1)
              else if Nat.eqb n 240 then in_range 144 191 (byteN b1)
              else if Nat.eqb n 244 then in_range 128 143 (byteN b1)
              else cont b1 in
            if in_range 224 239 n then
              match s2 with
              | String b2 _ => if ok1 && cont b2 then 3 else 1
              | "" => 1
              end
            else if in_range 240 244 n then
              match s2 with
              | String b2 (String b3 _) => if ok1 && cont b2 && cont b3 then 4 else 1
              | _ => 1
              end
            else 1
      end
  end.

Fixpoint string_drop (n : nat) (s : string) : string :=
  match n, s with
  | 0, _ => s
  | S _, "" => ""
  | S n, String _ s => string_drop n s
  end.

(** ['.'], ['0'..'9'], ['a'..'z'] *)
Definition plain_char (c : ascii) : bool :=
  let n := byteN c in Nat.eqb n 46 || in_range 48 57 n || in_range 97 122 n.

(** What the reader holds when the scanning loop ends: the loop consumes the
    rune at which it breaks. *)
Fixpoint scan_plain (s : string) : string :=
  match s with
  | "" => ""
  | String c s' => if plain_char c then scan_plain s' else string_drop (rune_size s) s
  end.

(** [base64.StdEncoding.EncodeToString] *)
Definition b64_char (n : Z) : ascii :=
  ascii_of_nat (Z.to_nat
    (if n <? 26 then 65 + n
     else if n <? 52 then 71 + n
     else if n <? 62 then n - 4
     else if n =? 62 then 43 else 47)%Z).

Definition byteZ (c : ascii) : Z := Z.of_nat (nat_of_ascii c).

Fixpoint base64 (s : string) : string :=
  match s with
  | "" => ""
  | String a "" =>
      let v := (byteZ a * 65536)%Z in
      String (b64_char (v / 262144)) (String (b64_char (v / 4096 mod 64)) "==")
  | String a (String b "") =>
      let v := (byteZ a * 65536 + byteZ b * 256)%Z in
      String (b64_char (v / 262144)) (String (b64_char (v / 4096 mod 64))
        (String (b64_char (v / 64 mod 64)) "="))
  | String a (String b (String c rest)) =>
      let v := (byteZ a * 65536 + byteZ b * 256 + byteZ c)%Z in
      String (b64_char (v / 262144)) (String (b64_char (v / 4096 mod 64))
        (String (b64_char (v / 64 mod 64)) (String (b64_char (v mod 64)) (base64 rest))))
  end.

Definition makeBigDataBaseName (key : string) : string :=
  if decide (scan_plain key = "") then key else "=" +:+ base64 key.

(** ** Name lists: lemmas *)

Lemma elem_of_dedupe_from seen l n : n ∈ dedupe_from seen l ↔ n ∈ l ∧ n ∉ seen.
Proof.
  revert seen; induction l as [|x l IH]; intros seen; simpl; [set_solver|].
  case_decide; [rewrite IH; set_solver|].
  rewrite elem_of_cons, IH, elem_of_cons. destruct (decide (n = x)); set_solver.
Qed.

Lemma NoDup_dedupe_from seen l : NoDup (dedupe_from seen l).
Proof.
  revert seen; induction l as [|x l IH]; intros seen; simpl; [constructor|].
  case_decide; [done|]. constructor; [|done]. rewrite elem_of_dedupe_from. set_solver.
Qed.

Lemma dedupe_from_id seen l : NoDup l → (∀ n, n ∈ l → n ∉ seen) → dedupe_from seen l = l.
Proof.
  intros Hl. revert seen. induction Hl as [|x l Hx Hl IH]; intros seen Hs; simpl; [done|].
  rewrite decide_False by set_solver. f_equal. apply IH. set_solver.
Qed.

Lemma dedupe_from_twice seen seen' l :
  dedupe_from seen (dedupe_from seen' l) = dedupe_from (seen ∪ seen') l.
Proof.
  revert seen seen'. induction l as [|n l IH]; intros seen seen'; [done|]. simpl.
  destruct (decide (n ∈ seen')) as [Hn'|Hn'].
  { by rewrite IH, decide_True by set_solver. }
  simpl. destruct (decide (n ∈ seen)) as [Hn|Hn]; rewrite IH.
  - rewrite decide_True by set_solver. f_equal. set_solver.
  - rewrite decide_False by set_solver. do 2 f_equal. set_solver.
Qed.

Lemma dedupe_from_app_twice seen l l' :
  dedupe_from seen (l ++ dedupe_from ∅ l') = dedupe_from seen (l ++ l').
Proof.
  revert seen. induction l as [|n l IH]; intros seen; simpl.
  - rewrite dedupe_from_twice. f_equal. set_solver.
  - by rewrite !IH.
Qed.

Lemma elem_of_dedupeStrings l n : n ∈ dedupeStrings l ↔ n ∈ l.
Proof. unfold dedupeStrings. rewrite elem_of_dedupe_from. set_solver. Qed.

Lemma NoDup_dedupeStrings l : NoDup (dedupeStrings l).
Proof. apply NoDup_dedupe_from. Qed.

Lemma dedupeStrings_id l : NoDup l → dedupeStrings l = l.
Proof. intros. apply dedupe_from_id; set_solver. Qed.

Lemma elem_of_without l v n : n ∈ stringSliceWithoutValue l v ↔ n ∈ l ∧ n ≠ v.
Proof. unfold stringSliceWithoutValue. rewrite list_elem_of_filter. tauto. Qed.

Lemma NoDup_without l v : NoDup l → NoDup (stringSliceWithoutValue l v).
Proof. apply NoDup_filter. Qed.

Lemma without_id l v : v ∉ l → stringSliceWithoutValue l v = l.
Proof.
  unfold stringSliceWithoutValue. induction l as [|x l IH]; intros Hv; [done|].
  rewrite filter_cons_True by set_solver. f_equal. set_solver.
Qed.

Lemma applyNameOperation_NoDup old params op names :
  applyNameOperation old params op = inl names → NoDup names.
Proof. destruct op; simpl; intros [= <-]; apply NoDup_dedupeStrings. Qed.

#[export] Hint Resolve NoDup_dedupeStrings NoDup_without applyNameOperation_NoDup : store.

Lemma copySlicePreferringNil_id {A} (l : list A) : copySlicePreferringNil l = l.
Proof. by destruct l. Qed.

Lemma gomap_get_copy {V} (m : gomap V) k : gomap_get (copyMapPreferringNil m) k = gomap_get m k.
Proof.
  unfold copyMapPreferringNil, gomap_get, gomap_len. case_decide as H; [|done].
  destruct m as [m|]; [|done]. simpl in *. apply map_size_empty_iff in H. by subst.
Qed.

Lemma gomap_get_ensure {V} (m : gomap V) k : gomap_get (gomap_ensure m) k = gomap_get m k.
Proof. by destruct m. Qed.

Lemma gomap_get_new {V} (m : gomap V) k : gomap_get (newMapFrom m) k = gomap_get m k.
Proof.
  unfold newMapFrom, gomap_get, gomap_len. case_decide as H; [|done].
  destruct m as [m|]; [|done]. simpl in *. apply map_size_empty_iff in H. by subst.
Qed.

Lemma newMapFrom_Some {V} (m : gomap V) : ∃ m', newMapFrom m = Some m'.
Proof.
  unfold newMapFrom, gomap_len. case_decide; [eauto|]. destruct m; [eauto|done].
Qed.

(** ** Big-data names: lemmas *)

(** Inverse of the base64 alphabet; the padding sign decodes to 64. *)
Definition b64_value (c : ascii) : Z :=
  let n := byteZ c in
  (if n =? 61 then 64
   else if n =? 43 then 62
   else if n =? 47 then 63
   else if n <? 58 then n + 4
   else if n <? 91 then n - 65
   else n - 71)%Z.

Lemma b64_value_char n : (0 ≤ n < 64)%Z → b64_value (b64_char n) = n.
Proof.
  intros Hn.
  assert (Forall (λ n, b64_value (b64_char n) = n) (seqZ 0 64)) as H.
  { eapply (bool_decide_unpack _). vm_compute. done. }
  rewrite Forall_forall in H. apply H, elem_of_seqZ. lia.
Qed.

Lemma byteZ_range c : (0 ≤ byteZ c < 256)%Z.
Proof. unfold byteZ. pose proof (nat_ascii_bounded c). lia. Qed.

Lemma byteZ_inj a b : byteZ a = byteZ b → a = b.
Proof.
  unfold byteZ. intros H%Nat2Z.inj.
  by rewrite <- (ascii_nat_embedding a), <- (ascii_nat_embedding b), H.
Qed.

(** Each base64 digit is a six-bit number and the four digits of a group
    determine the 24 bits they encode. *)
Lemma b64_char_inj m n :
  (0 ≤ m < 64)%Z → (0 ≤ n < 64)%Z → b64_char m = b64_char n → m = n.
Proof. intros Hm Hn H. by rewrite <- (b64_value_char m Hm), <- (b64_value_char n Hn), H. Qed.

Lemma b64_char_not_pad m : (0 ≤ m < 64)%Z → b64_char m ≠ "="%char.
Proof. intros Hm H. pose proof (b64_value_char m Hm) as E. rewrite H in E. vm_compute in E. lia. Qed.

Ltac b64_digits :=
  repeat match goal with
  | H : b64_char _ = b64_char _ |- _ =>
      apply b64_char_inj in H; [|Z.to_euclidean_division_equations; lia..]
  | H : b64_char _ = "="%char |- _ =>
      exfalso; revert H; apply b64_char_not_pad; Z.to_euclidean_division_equations; lia
  | H : "="%char = b64_char _ |- _ => symmetry in H
  end.

Lemma b64_group v w :
  (0 ≤ v < 16777216)%Z → (0 ≤ w < 16777216)%Z →
  (v / 262144 = w / 262144)%Z → (v / 4096 mod 64 = w / 4096 mod 64)%Z →
  (v / 64 mod 64 = w / 64 mod 64)%Z → (v mod 64 = w mod 64)%Z → v = w.
Proof. intros. Z.to_euclidean_division_equations; lia. Qed.

(** Induction on strings three bytes at a time, as base64 consumes them. *)
Lemma string_triple_ind (P : string → Prop) :
  P "" → (∀ a, P (String a "")) → (∀ a b, P (String a (String b ""))) →
  (∀ a b c s, P s → P (String a (String b (String c s)))) → ∀ s, P s.
Proof.
  intros H0 H1 H2 H3. fix IH 1.
  intros [|a [|b [|c s]]]; [done|apply H1|apply H2|apply H3, IH].
Qed.

Lemma base64_inj s t : base64 s = base64 t → s = t.
Proof.
  revert t. induction s as [|a|a b|a b c s IH] using string_triple_ind;
    intros [|a' [|b' [|c' t]]] H; try done; cbn [base64] in H; injection H; clear H; intros;
    pose proof (byteZ_range a); pose proof (byteZ_range a');
    try pose proof (byteZ_range b); try pose proof (byteZ_range b');
    try pose proof (byteZ_range c); try pose proof (byteZ_range c');
    b64_digits.
  - assert (a = a') as ->; [|done]. apply byteZ_inj. Z.to_euclidean_division_equations; lia.
  - assert (a = a') as ->; [apply byteZ_inj; Z.to_euclidean_division_equations; lia|].
    assert (b = b') as ->; [|done]. apply byteZ_inj. Z.to_euclidean_division_equations; lia.
  - assert (byteZ a * 65536 + byteZ b * 256 + byteZ c =
            byteZ a' * 65536 + byteZ b' * 256 + byteZ c')%Z by (apply b64_group; lia).
    rewrite (IH t) by done.
    by rewrite (byteZ_inj a a'), (byteZ_inj b b'), (byteZ_inj c c') by lia.
Qed.

(** A key kept as it is never looks like an encoded one. *)
Lemma scan_plain_eq s : scan_plain (String "=" s) = s.
Proof. simpl. by destruct s as [|b [|c [|d s]]]. Qed.

Lemma base64_nonempty a s : base64 (String a s) ≠ "".
Proof. by destruct s as [|b [|c s]]. Qed.

Lemma makeBigDataBaseName_raw_encoded k k' :
  scan_plain k = "" → scan_plain k' ≠ "" → k ≠ "=" +:+ base64 k'.
Proof.
  intros Hk Hk' ->. change (scan_plain (String "=" (base64 k')) = "") in Hk. rewrite scan_plain_eq in Hk.
  destruct k' as [|a s]; [done|]. by apply base64_nonempty in Hk.
Qed.

(** Different keys of big data items are stored under different file
    names: [makeBigDataBaseName] is injective, although some keys are used as
    they are and others encoded. *)
Theorem makeBigDataBaseName_inj k k' :
  makeBigDataBaseName k = makeBigDataBaseName k' → k = k'.
Proof.
  unfold makeBigDataBaseName. intros H. do 2 case_decide.
  - done.
  - by apply makeBigDataBaseName_raw_encoded in H.
  - symmetry in H. by apply makeBigDataBaseName_raw_encoded in H.
  - rewrite !string_app_cons in H. injection H as H. by apply base64_inj.
Qed.

Lemma makeBigDataBaseName_inj_witness :
  makeBigDataBaseName "manifest" = makeBigDataBaseName "manifest" ∧
  makeBigDataBaseName "sha256:0" = "=c2hhMjU2OjA=" ∧ "manifest" = "manifest".
Proof. split; [done|]. split; [by vm_compute|]. by apply (makeBigDataBaseName_inj "manifest" "manifest"). Defined.

(** Two keys whose file name has a slash: the loop has consumed the last
    character when it stops there, and the encoding itself uses slashes. *)
Lemma makeBigDataBaseName_slash :
  makeBigDataBaseName "x/" = "x/" ∧ makeBigDataBaseName "???" = "=Pz8/".
Proof. by split; vm_compute. Qed.
