(* ===== verification/Strconv.v ===== *)
(** * strconv, strings and Go integers

    The standard-library functions on numbers and separated text that the
    modelled code calls. *)

From S2P Require Import Prelude.

Local Open Scope string_scope.

(** ** Machine integers *)

(** The result of an [int] (64-bit) operation. *)
Definition int64 (z : Z) : Z := ((z + 2 ^ 63) mod 2 ^ 64 - 2 ^ 63)%Z.

Definition in_int64 (z : Z) : Prop := (- 2 ^ 63 ≤ z < 2 ^ 63)%Z.

Lemma int64_id z : in_int64 z → int64 z = z.
Proof. unfold in_int64, int64. intros. rewrite Z.mod_small; lia. Qed.

(** ** strings.Split *)

Fixpoint split_on (sep : ascii) (s : string) : list string :=
  match s with
  | EmptyString => [""]
  | String c s' =>
      let r := split_on sep s' in
      if Ascii.eqb c sep then "" :: r
      else match r with
           | x :: r' => String c x :: r'
           | [] => [String c ""]
           end
  end.

Fixpoint contains_char (c : ascii) (s : string) : bool :=
  match s with
  | "" => false
  | String d s => Ascii.eqb d c || contains_char c s
  end.

Lemma split_on_none sep s : contains_char sep s = false → split_on sep s = [s].
Proof.
  induction s as [|c s IH]; simpl; [done|]. intros [Hc Hs]%orb_false_iff.
  by rewrite Hc, IH.
Qed.

Lemma split_on_sep sep s t :
  contains_char sep s = false →
  split_on sep (s +:+ String sep t) = s :: split_on sep t.
Proof.
  induction s as [|c s IH]; intros Hs.
  - change (split_on sep (String sep t) = "" :: split_on sep t). simpl.
    by rewrite Ascii.eqb_refl.
  - simpl in Hs. apply orb_false_iff in Hs as [Hc Hs].
    rewrite string_app_cons. simpl. by rewrite Hc, IH.
Qed.

(** ** Unsigned numbers in a base up to ten *)

Definition digit_char (d : Z) : ascii := ascii_of_nat (48 + Z.to_nat d).

Definition digit_val (base : Z) (c : ascii) : option Z :=
  let n := (Z.of_nat (nat_of_ascii c) - 48)%Z in
  if decide (0 ≤ n < base)%Z then Some n else None.

Fixpoint format_from (fuel : nat) (base n : Z) (acc : string) : string :=
  match fuel with
  | 0 => acc
  | S fuel =>
      let acc := String (digit_char (n mod base)) acc in
      if decide (n < base)%Z then acc else format_from fuel base (n / base) acc
  end.

(** A number has at most as many digits as it has bits. *)
Definition format_uint (base n : Z) : string :=
  format_from (S (Z.to_nat (Z.log2 n))) base n "".

Fixpoint parse_from (base : Z) (s : string) (acc : Z) : option Z :=
  match s with
  | "" => Some acc
  | String c s => match digit_val base c with
                  | Some d => parse_from base s (acc * base + d)%Z
                  | None => None
                  end
  end.

(** [strconv.ParseUint(s, base, bits)] *)
Definition ParseUint (base bits : Z) (s : string) : option Z :=
  if decide (s = "") then None
  else match parse_from base s 0 with
       | Some n => if decide (n < 2 ^ bits)%Z then Some n else None
       | None => None
       end.

(** [strconv.Atoi]: a sign is allowed. *)
Definition Atoi (s : string) : option Z :=
  let '(neg, digits) :=
    match s with
    | String c s' => if Ascii.eqb c "-"%char then (true, s')
                     else if Ascii.eqb c "+"%char then (false, s') else (false, s)
    | "" => (false, "")
    end in
  if decide (digits = "") then None
  else match parse_from 10 digits 0 with
       | Some n => let n := if (neg : bool) then (- n)%Z else n in
                   if decide (- 2 ^ 63 ≤ n < 2 ^ 63)%Z then Some n else None
       | None => None
       end.

(** [fmt.Sprintf] with the %d verb *)
Definition format_int (n : Z) : string :=
  if decide (n < 0)%Z then "-" +:+ format_uint 10 (- n) else format_uint 10 n.

Lemma digit_val_char base d :
  (0 ≤ d < base)%Z → (base ≤ 10)%Z → digit_val base (digit_char d) = Some d.
Proof.
  intros Hd Hb. unfold digit_val, digit_char. rewrite nat_ascii_embedding by lia.
  rewrite decide_True by lia. f_equal. lia.
Qed.

Lemma parse_format_from fuel base n acc :
  (2 ≤ base ≤ 10)%Z → (0 ≤ n < base ^ Z.of_nat fuel)%Z →
  parse_from base (format_from fuel base n acc) 0 = parse_from base acc n.
Proof.
  intros Hb. revert n acc. induction fuel as [|fuel IH]; intros n acc Hn.
  { change (Z.of_nat 0) with 0%Z in Hn. rewrite Z.pow_0_r in Hn. by replace n with 0%Z by lia. }
  rewrite Nat2Z.inj_succ, Z.pow_succ_r in Hn by lia. cbn [format_from].
  pose proof (Z.mod_pos_bound n base).
  case_decide as Hlt.
  - cbn [parse_from]. rewrite digit_val_char by lia. by rewrite Z.mod_small, Z.mul_0_l, Z.add_0_l by lia.
  - rewrite IH by (split; [apply Z.div_pos; lia|apply Z.div_lt_upper_bound; lia]).
    cbn [parse_from]. rewrite digit_val_char by lia. f_equal.
    rewrite (Z.div_mod n base) at 3 by lia. lia.
Qed.

Lemma format_bound base n :
  (2 ≤ base)%Z → (0 ≤ n)%Z → (n < base ^ Z.of_nat (S (Z.to_nat (Z.log2 n))))%Z.
Proof.
  intros Hb Hn. pose proof (Z.log2_nonneg n).
  rewrite Nat2Z.inj_succ, Z2Nat.id by lia.
  apply Z.lt_le_trans with (2 ^ Z.succ (Z.log2 n))%Z.
  - destruct (decide (n = 0)%Z) as [->|]; [done|]. apply Z.log2_spec. lia.
  - apply Z.pow_le_mono_l. lia.
Qed.

Lemma format_from_nonempty fuel base n acc : format_from (S fuel) base n acc ≠ "".
Proof.
  revert n acc. induction fuel as [|fuel IH]; intros n acc; [cbn; by case_decide|].
  change (format_from (S (S fuel)) base n acc) with
    (let acc := String (digit_char (n mod base)) acc in
     if decide (n < base)%Z then acc else format_from (S fuel) base (n / base) acc).
  cbv zeta. case_decide; [done|apply IH].
Qed.

Lemma parse_format base n :
  (2 ≤ base ≤ 10)%Z → (0 ≤ n)%Z → parse_from base (format_uint base n) 0 = Some n.
Proof.
  intros. unfold format_uint. rewrite parse_format_from; [done|lia|].
  pose proof (format_bound base n). lia.
Qed.

Lemma ParseUint_format base bits n :
  (2 ≤ base ≤ 10)%Z → (0 ≤ n < 2 ^ bits)%Z → ParseUint base bits (format_uint base n) = Some n.
Proof.
  intros Hb Hn. unfold ParseUint.
  rewrite decide_False by apply format_from_nonempty.
  rewrite parse_format by lia. by rewrite decide_True by lia.
Qed.
