(* ===== verification/IdTools.v ===== *)
(** * storage/pkg/idtools: mapping user and group identifiers

    [idtools.go] (translation through ID maps, maps from subordinate ranges,
    the [user.containers.override_stat] attribute) and [parser.go].  [int] is
    64 bits wide and every sum wraps as Go's does. *)

From S2P Require Import Prelude Strconv.
From stdpp Require Import sorting.

Local Open Scope string_scope.

Record IDMap := mkIDMap { ContainerID : Z; HostID : Z; Size : Z }.

#[global] Instance IDMap_eq_dec : EqDecision IDMap.
Proof. solve_decision. Defined.

(** A slice of maps whose [nil] value means "no mapping". *)
Notation IDMaps := (option (list IDMap)).

(** ** Translation *)

Fixpoint search_host (hostID : Z) (idMap : list IDMap) : Z + error :=
  match idMap with
  | [] => inr (ErrOther "host ID cannot be mapped to a container ID")
  | m :: idMap =>
      if decide (HostID m ≤ hostID ≤ int64 (int64 (HostID m + Size m) - 1))%Z
      then inl (int64 (ContainerID m + int64 (hostID - HostID m)))
      else search_host hostID idMap
  end.

Definition RawToContainer (hostID : Z) (idMap : IDMaps) : Z + error :=
  match idMap with None => inl hostID | Some l => search_host hostID l end.

Fixpoint search_container (contID : Z) (idMap : list IDMap) : Z + error :=
  match idMap with
  | [] => inr (ErrOther "container ID cannot be mapped to a host ID")
  | m :: idMap =>
      if decide (ContainerID m ≤ contID ≤ int64 (int64 (ContainerID m + Size m) - 1))%Z
      then inl (int64 (HostID m + int64 (contID - ContainerID m)))
      else search_container contID idMap
  end.

Definition RawToHost (contID : Z) (idMap : IDMaps) : Z + error :=
  match idMap with None => inl contID | Some l => search_container contID l end.

(** The host identifier of root: a single map of size one stands for it
    whatever its container side is. *)
Definition root_of (idMap : IDMaps) : Z + error :=
  match idMap with
  | Some [m] => if decide (Size m = 1)%Z then inl (HostID m) else RawToHost 0 idMap
  | _ => RawToHost 0 idMap
  end.

Definition GetRootUIDGID (uidMap gidMap : IDMaps) : (Z * Z) + error :=
  match root_of uidMap with
  | inr e => inr e
  | inl uid => match root_of gidMap with
               | inr e => inr e
               | inl gid => inl (uid, gid)
               end
  end.

Record IDPair := mkIDPair { UID : Z; GID : Z }.

Record IDMappings := mkIDMappings { uids : IDMaps; gids : IDMaps }.

Definition NewIDMappingsFromMaps := mkIDMappings.

(** The error is ignored; on error both results are -1. *)
Definition RootPair (i : IDMappings) : IDPair :=
  match GetRootUIDGID (uids i) (gids i) with
  | inl (u, g) => mkIDPair u g
  | inr _ => mkIDPair (-1) (-1)
  end.

Definition ToHost (i : IDMappings) (pair : IDPair) : IDPair + error :=
  match RawToHost (UID pair) (uids i) with
  | inr e => inr e
  | inl u => match RawToHost (GID pair) (gids i) with
             | inr e => inr e
             | inl g => inl (mkIDPair u g)
             end
  end.

(** [overflowUID] and [overflowGID] are what [/proc/sys/kernel] reports. *)
Definition ToHostOverflow (overflowUID overflowGID : Z) (i : IDMappings) (pair : IDPair) : IDPair :=
  let target := RootPair i in
  mkIDPair
    (if decide (UID pair = UID target) then UID target
     else match RawToHost (UID pair) (uids i) with inl u => u | inr _ => overflowUID end)
    (if decide (GID pair = GID target) then GID target
     else match RawToHost (GID pair) (gids i) with inl g => g | inr _ => overflowGID end).

Definition ToContainer (i : IDMappings) (pair : IDPair) : (Z * Z) + error :=
  match RawToContainer (UID pair) (uids i) with
  | inr e => inr e
  | inl u => match RawToContainer (GID pair) (gids i) with
             | inr e => inr e
             | inl g => inl (u, g)
             end
  end.

Definition Empty (i : IDMappings) : bool :=
  bool_decide (default [] (uids i) = [] ∧ default [] (gids i) = []).

(** ** Maps from subordinate ranges *)

Record subIDRange := mkRange { Start : Z; Length : Z }.

(** Ranges sorted by start: [slices.SortFunc] promises a sorted permutation
    and nothing about equal elements. *)
Definition compareRanges (a b : subIDRange) : Prop := (Start a ≤ Start b)%Z.

#[global] Instance compareRanges_dec a b : Decision (compareRanges a b).
Proof. unfold compareRanges. apply _. Defined.

Class SortFunc := {
  sort_ranges : list subIDRange → list subIDRange;
  sort_ranges_perm l : sort_ranges l ≡ₚ l;
  sort_ranges_sorted l : Sorted compareRanges (sort_ranges l)
}.

#[export, refine] Instance merge_sort_ranges : SortFunc :=
  {| sort_ranges := merge_sort compareRanges |}.
Proof.
  - intros l. apply merge_sort_Permutation.
  - intros l. apply Sorted_merge_sort. intros a b. unfold compareRanges. lia.
Defined.

Fixpoint assign_ranges (containerID : Z) (l : list subIDRange) : list IDMap :=
  match l with
  | [] => []
  | r :: l => mkIDMap containerID (Start r) (Length r) ::
              assign_ranges (int64 (containerID + Length r)) l
  end.

Definition createIDMap `{SortFunc} (subidRanges : list subIDRange) : list IDMap :=
  assign_ranges 0 (sort_ranges subidRanges).

(** ** parser.go *)

Definition parseTriple (c h s : string) : option IDMap :=
  match ParseUint 10 32 c, ParseUint 10 32 h, ParseUint 10 32 s with
  | Some c, Some h, Some s => Some (mkIDMap c h s)
  | _, _, _ => None
  end.

Fixpoint parse_triples (idSpec : list string) : option (list IDMap) :=
  match idSpec with
  | [] => Some []
  | c :: h :: s :: rest =>
      match parseTriple c h s, parse_triples rest with
      | Some m, Some l => Some (m :: l)
      | _, _ => None
      end
  | _ => None
  end.

Fixpoint ParseIDMap (mapSpec : list string) : list IDMap + error :=
  match mapSpec with
  | [] => inl []
  | spec :: rest =>
      if decide (spec = "") then ParseIDMap rest
      else
        let idSpec := split_on ":" spec in
        if decide (length idSpec mod 3 ≠ 0) then inr (ErrOther "setting is malformed")
        else match parse_triples idSpec with
             | None => inr (ErrOther "setting is malformed")
             | Some l => match ParseIDMap rest with
                         | inl l' => inl (l ++ l')%list
                         | inr e => inr e
                         end
             end
  end.

(** ** Translation: lemmas *)

(** An entry whose ranges lie in the non-negative 63-bit integers. *)
Definition entry_ok (m : IDMap) : Prop :=
  (0 ≤ ContainerID m ∧ 0 ≤ HostID m ∧ 0 ≤ Size m ∧
   ContainerID m + Size m < 2 ^ 63 ∧ HostID m + Size m < 2 ^ 63)%Z.

Definition in_host (m : IDMap) (h : Z) : Prop := (HostID m ≤ h < HostID m + Size m)%Z.
Definition in_container (m : IDMap) (c : Z) : Prop :=
  (ContainerID m ≤ c < ContainerID m + Size m)%Z.

(** Two entries that share an identifier are the same entry. *)
Definition host_disjoint (l : list IDMap) : Prop :=
  ∀ m m' h, m ∈ l → m' ∈ l → in_host m h → in_host m' h → m = m'.
Definition container_disjoint (l : list IDMap) : Prop :=
  ∀ m m' c, m ∈ l → m' ∈ l → in_container m c → in_container m' c → m = m'.

(** Without overflow the guards of the two searches are range membership. *)
Lemma host_guard m h :
  entry_ok m → (HostID m ≤ h ≤ int64 (int64 (HostID m + Size m) - 1))%Z ↔ in_host m h.
Proof.
  unfold entry_ok, in_host. intros. rewrite !int64_id; unfold in_int64 in *; rewrite ?int64_id;
    unfold in_int64; lia.
Qed.

Lemma container_guard m c :
  entry_ok m →
  (ContainerID m ≤ c ≤ int64 (int64 (ContainerID m + Size m) - 1))%Z ↔ in_container m c.
Proof.
  unfold entry_ok, in_container. intros. rewrite !int64_id; unfold in_int64 in *; rewrite ?int64_id;
    unfold in_int64; lia.
Qed.

Lemma host_offset m h :
  entry_ok m → in_host m h →
  int64 (ContainerID m + int64 (h - HostID m)) = (ContainerID m + (h - HostID m))%Z.
Proof.
  unfold entry_ok, in_host. intros. rewrite !int64_id; unfold in_int64; rewrite ?int64_id;
    unfold in_int64; lia.
Qed.

Lemma container_offset m c :
  entry_ok m → in_container m c →
  int64 (HostID m + int64 (c - ContainerID m)) = (HostID m + (c - ContainerID m))%Z.
Proof.
  unfold entry_ok, in_container. intros. rewrite !int64_id; unfold in_int64; rewrite ?int64_id;
    unfold in_int64; lia.
Qed.

Lemma search_host_inl l h c :
  Forall entry_ok l → search_host h l = inl c →
  ∃ m, m ∈ l ∧ in_host m h ∧ c = (ContainerID m + (h - HostID m))%Z.
Proof.
  induction 1 as [|m l Hm Hl IH]; simpl; [done|].
  case_decide as Hg;
    [|intros (m' & ? & ?)%IH; exists m'; split; [by right|done]].
  apply host_guard in Hg; [|done]. rewrite host_offset by done. intros [= <-].
  exists m. split; [left|done].
Qed.

Lemma search_container_inl l h c :
  Forall entry_ok l → search_container c l = inl h →
  ∃ m, m ∈ l ∧ in_container m c ∧ h = (HostID m + (c - ContainerID m))%Z.
Proof.
  induction 1 as [|m l Hm Hl IH]; simpl; [done|].
  case_decide as Hg;
    [|intros (m' & ? & ?)%IH; exists m'; split; [by right|done]].
  apply container_guard in Hg; [|done]. rewrite container_offset by done. intros [= <-].
  exists m. split; [left|done].
Qed.

Lemma search_host_found l m h :
  Forall entry_ok l → host_disjoint l → m ∈ l → in_host m h →
  search_host h l = inl (ContainerID m + (h - HostID m))%Z.
Proof.
  intros Hok Hd Hm Hin.
  assert (∀ m', m' ∈ l → in_host m' h → m' = m) as Hu by (intros; by eapply Hd).
  clear Hd. induction Hok as [|x l Hx Hl IH]; [by apply elem_of_nil in Hm|].
  simpl. case_decide as Hg.
  - apply host_guard in Hg; [|done]. assert (x = m) as -> by (apply Hu; [left|done]).
    by rewrite host_offset.
  - apply IH; [|intros; apply Hu; [by right|done]].
    apply elem_of_cons in Hm as [->|]; [|done]. by destruct Hg; apply host_guard.
Qed.

Lemma search_container_found l m c :
  Forall entry_ok l → container_disjoint l → m ∈ l → in_container m c →
  search_container c l = inl (HostID m + (c - ContainerID m))%Z.
Proof.
  intros Hok Hd Hm Hin.
  assert (∀ m', m' ∈ l → in_container m' c → m' = m) as Hu by (intros; by eapply Hd).
  clear Hd. induction Hok as [|x l Hx Hl IH]; [by apply elem_of_nil in Hm|].
  simpl. case_decide as Hg.
  - apply container_guard in Hg; [|done]. assert (x = m) as -> by (apply Hu; [left|done]).
    by rewrite container_offset.
  - apply IH; [|intros; apply Hu; [by right|done]].
    apply elem_of_cons in Hm as [->|]; [|done]. by destruct Hg; apply container_guard.
Qed.

(** ** Ranges: lemmas *)

Definition sum_lengths (l : list subIDRange) : Z := foldr (λ r n, (Length r + n)%Z) 0%Z l.

Definition range_ok (r : subIDRange) : Prop :=
  (0 ≤ Start r ∧ 0 ≤ Length r ∧ Start r + Length r < 2 ^ 63)%Z.

Definition ranges_disjoint (l : list subIDRange) : Prop :=
  ∀ i j r r' h, l !! i = Some r → l !! j = Some r' →
    (Start r ≤ h < Start r + Length r)%Z → (Start r' ≤ h < Start r' + Length r')%Z → i = j.

Lemma sum_lengths_perm l l' : l ≡ₚ l' → sum_lengths l = sum_lengths l'.
Proof. induction 1; simpl; lia. Qed.

Lemma sum_lengths_nonneg l : Forall range_ok l → (0 ≤ sum_lengths l)%Z.
Proof. induction 1 as [|r l (? & ? & ?)]; simpl; lia. Qed.

(** The entries get consecutive container ranges, in the order of the list. *)
Lemma assign_ranges_ok base l :
  (0 ≤ base)%Z → Forall range_ok l → (base + sum_lengths l < 2 ^ 63)%Z →
  Forall (λ m, entry_ok m ∧ (base ≤ ContainerID m)%Z) (assign_ranges base l).
Proof.
  intros Hb Hl. revert base Hb.
  induction Hl as [|r l Hr Hl IH]; intros base Hb Hs; simpl in *; constructor.
  - unfold entry_ok, range_ok in *. pose proof (sum_lengths_nonneg l Hl). simpl. lia.
  - pose proof (sum_lengths_nonneg l Hl). unfold range_ok in Hr.
    rewrite int64_id by (unfold in_int64; lia).
    eapply Forall_impl; [apply IH; lia|]. intros m [? ?]. split; [done|lia].
Qed.

Lemma assign_ranges_container base l :
  (0 ≤ base)%Z → Forall range_ok l → (base + sum_lengths l < 2 ^ 63)%Z →
  container_disjoint (assign_ranges base l).
Proof.
  intros Hb Hl. revert base Hb.
  induction Hl as [|r l Hr Hl IH]; intros base Hb Hs; simpl in *; [by intros ??? ?%elem_of_nil|].
  pose proof (sum_lengths_nonneg l Hl). unfold range_ok in Hr.
  rewrite int64_id by (unfold in_int64; lia).
  assert (Forall (λ m, entry_ok m ∧ (base + Length r ≤ ContainerID m)%Z)
            (assign_ranges (base + Length r) l)) as Hok by (apply assign_ranges_ok; (done || lia)).
  rewrite Forall_forall in Hok. unfold container_disjoint, in_container.
  intros m m' c [->|Hm]%elem_of_cons [->|Hm']%elem_of_cons ? ?; simpl in *; [done|..].
  - destruct (Hok m' Hm'). lia.
  - destruct (Hok m Hm). lia.
  - by eapply (IH (base + Length r)%Z); [lia|lia|..].
Qed.

Lemma assign_ranges_lookup base l i m :
  assign_ranges base l !! i = Some m →
  ∃ r, l !! i = Some r ∧ HostID m = Start r ∧ Size m = Length r.
Proof.
  revert base i. induction l as [|r l IH]; intros base [|i]; simpl; try done; [|apply IH].
  intros [= <-]. eauto.
Qed.

Lemma assign_ranges_cover base l c :
  (0 ≤ base)%Z → Forall range_ok l → (base + sum_lengths l < 2 ^ 63)%Z →
  (base ≤ c < base + sum_lengths l)%Z → ∃ m, m ∈ assign_ranges base l ∧ in_container m c.
Proof.
  intros Hb Hl. revert base Hb.
  induction Hl as [|r l Hr Hl IH]; intros base Hb Hs Hc; simpl in *; [lia|].
  pose proof (sum_lengths_nonneg l Hl). unfold range_ok in Hr.
  rewrite int64_id by (unfold in_int64; lia).
  destruct (decide (c < base + Length r)%Z).
  - eexists. split; [left|]. unfold in_container. simpl. lia.
  - destruct (IH (base + Length r)%Z) as (m & ? & ?); [lia..|]. exists m. split; [by right|done].
Qed.

Lemma ranges_disjoint_perm l l' : l ≡ₚ l' → ranges_disjoint l → ranges_disjoint l'.
Proof.
  intros Hp. symmetry in Hp. apply Permutation_inj in Hp as (_ & f & Hinj & Hf).
  intros Hd i j r r' h Hi Hj Hr Hr'.
  rewrite Hf in Hi, Hj. apply Hinj. by eapply Hd.
Qed.

Lemma assign_ranges_host base l :
  ranges_disjoint l → host_disjoint (assign_ranges base l).
Proof.
  intros Hd m m' h [i Hi]%list_elem_of_lookup [j Hj]%list_elem_of_lookup Hm Hm'.
  destruct (assign_ranges_lookup _ _ _ _ Hi) as (r & Hr & E1 & E2).
  destruct (assign_ranges_lookup _ _ _ _ Hj) as (r' & Hr' & E1' & E2').
  unfold in_host in *. rewrite E1, E2, E1', E2' in *.
  assert (i = j) by by eapply Hd. congruence.
Qed.

(** ** Properties *)

(** Translation through a list of mappings is a partial bijection: with
    entries in range and no identifier in two entries, a host identifier maps
    to a container identifier exactly when that one maps back to it. *)
Theorem idmap_bijection l h c :
  Forall entry_ok l → host_disjoint l → container_disjoint l →
  RawToContainer h (Some l) = inl c ↔ RawToHost c (Some l) = inl h.
Proof.
  intros Hok Hh Hc. simpl. split; intros H.
  - apply search_host_inl in H as (m & Hm & Hin & ->); [|done].
    rewrite (search_container_found l m); [f_equal; lia|done..|].
    unfold in_host, in_container in *. lia.
  - apply search_container_inl in H as (m & Hm & Hin & ->); [|done].
    rewrite (search_host_found l m); [f_equal; lia|done..|].
    unfold in_host, in_container in *. lia.
Qed.

Lemma idmap_bijection_witness :
  RawToContainer 100005 (Some [mkIDMap 0 1000 1; mkIDMap 1 100000 65536]) = inl 6%Z ↔
  RawToHost 6 (Some [mkIDMap 0 1000 1; mkIDMap 1 100000 65536]) = inl 100005%Z.
Proof.
  apply idmap_bijection.
  - repeat constructor; vm_compute; congruence.
  - unfold host_disjoint, in_host. intros m m' h Hm Hm'.
    apply elem_of_cons in Hm as [->|Hm]; apply elem_of_cons in Hm' as [->|Hm']; try done;
      try apply list_elem_of_singleton in Hm as ->; try apply list_elem_of_singleton in Hm' as ->;
      simpl; intros; (done || lia).
  - unfold container_disjoint, in_container. intros m m' h Hm Hm'.
    apply elem_of_cons in Hm as [->|Hm]; apply elem_of_cons in Hm' as [->|Hm']; try done;
      try apply list_elem_of_singleton in Hm as ->; try apply list_elem_of_singleton in Hm' as ->;
      simpl; intros; (done || lia).
Defined.

(** [createIDMap] gives every subordinate range its place: with disjoint
    ranges, each container identifier below the total length maps to a host
    identifier inside one of the ranges, which maps back to it. *)
Theorem createIDMap_covers `{SortFunc} rs c :
  Forall range_ok rs → ranges_disjoint rs → (sum_lengths rs < 2 ^ 63)%Z →
  (0 ≤ c < sum_lengths rs)%Z →
  ∃ h r, RawToHost c (Some (createIDMap rs)) = inl h ∧
         RawToContainer h (Some (createIDMap rs)) = inl c ∧
         r ∈ rs ∧ (Start r ≤ h < Start r + Length r)%Z.
Proof.
  intros Hok Hd Hs Hc. unfold createIDMap.
  pose proof (sort_ranges_perm rs) as Hp. set (l := sort_ranges rs) in *.
  assert (Forall range_ok l) as Hok' by by rewrite Hp.
  assert (ranges_disjoint l) as Hd' by (by eapply ranges_disjoint_perm; [symmetry|]).
  rewrite <- (sum_lengths_perm _ _ Hp) in Hs, Hc.
  destruct (assign_ranges_cover 0 l c) as (m & Hm & Hin); [done..|].
  assert (Forall entry_ok (assign_ranges 0 l)) as Hent.
  { eapply Forall_impl; [by apply assign_ranges_ok|]. by intros ? [? _]. }
  destruct (proj1 (list_elem_of_lookup _ _) Hm) as [i Hi].
  destruct (assign_ranges_lookup _ _ _ _ Hi) as (r & Hr & E1 & E2).
  exists (HostID m + (c - ContainerID m))%Z, r.
  unfold in_container in Hin. split_and!.
  - simpl. by apply search_container_found; [|apply assign_ranges_container|..].
  - simpl. rewrite (search_host_found _ m); [f_equal; lia|done|by apply assign_ranges_host|done|].
    unfold in_host. lia.
  - rewrite <- Hp. by eapply list_elem_of_lookup_2.
  - lia.
  - lia.
Qed.

Lemma createIDMap_covers_witness :
  ∃ h r, RawToHost 70000 (Some (createIDMap [mkRange 500000 10; mkRange 100000 65536;
                                             mkRange 300000 65536])) = inl h ∧
         RawToContainer h (Some (createIDMap [mkRange 500000 10; mkRange 100000 65536;
                                              mkRange 300000 65536])) = inl 70000%Z ∧
         r ∈ [mkRange 500000 10; mkRange 100000 65536; mkRange 300000 65536] ∧
         (Start r ≤ h < Start r + Length r)%Z.
Proof.
  apply createIDMap_covers.
  - repeat constructor; vm_compute; congruence.
  - intros i j r r' h Hi Hj.
    destruct i as [|[|[|i]]], j as [|[|[|j]]]; simplify_eq/=; try lia.
  - vm_compute. congruence.
  - vm_compute. split; congruence.
Defined.
