(* ===== verification/TruncIndex.v ===== *)
(** * storage/pkg/truncindex: look-up of identifiers by unique prefix

    The patricia trie that holds the identifiers is a third-party package: it
    enters as the class [PatriciaTrie] of its operations, with the class
    [PatriciaTrieSpec] of their documented behaviour.  [trie_gset] is one
    implementation, used to run the model. *)

From S2P Require Import Prelude World.

Local Open Scope string_scope.

Class PatriciaTrie (T : Type) := {
  NewTrie : T;
  Insert : T → string → T * bool;          (* false: the key was there *)
  DeleteKey : T → string → T * bool;       (* false: the key was not there *)
  SubtreeKeys : T → string → list string   (* in the order VisitSubtree uses *)
}.

Class PatriciaTrieSpec (T : Type) `{PatriciaTrie T} := {
  trie_keys : T → gset string;
  trie_new_keys : trie_keys NewTrie = ∅;
  trie_insert t k :
    trie_keys (fst (Insert t k)) = {[k]} ∪ trie_keys t ∧
    snd (Insert t k) = bool_decide (k ∉ trie_keys t);
  trie_delete t k :
    trie_keys (fst (DeleteKey t k)) = trie_keys t ∖ {[k]} ∧
    snd (DeleteKey t k) = bool_decide (k ∈ trie_keys t);
  trie_subtree_NoDup t p : NoDup (SubtreeKeys t p);
  trie_subtree t p k : k ∈ SubtreeKeys t p ↔ k ∈ trie_keys t ∧ String.prefix p k = true
}.

(** The trie as the finite set of its keys. *)
#[export] Instance trie_gset : PatriciaTrie (gset string) := {|
  NewTrie := ∅;
  Insert t k := ({[k]} ∪ t, bool_decide (k ∉ t));
  DeleteKey t k := (t ∖ {[k]}, bool_decide (k ∈ t));
  SubtreeKeys t p := filter (λ k, String.prefix p k = true) (elements t)
|}.

#[export, refine] Instance trie_gset_spec : PatriciaTrieSpec (gset string) := {|
  trie_keys t := t
|}.
Proof.
  - done.
  - done.
  - done.
  - intros t p. apply NoDup_filter, NoDup_elements.
  - intros t p k. simpl. rewrite list_elem_of_filter, elem_of_elements. tauto.
Defined.

Module TruncIndex.
Section TruncIndex.
Context {T : Type} `{PatriciaTrie T}.

Record TruncIndex := mkTruncIndex { trie : T; ids : gset string }.

Fixpoint contains_space (s : string) : bool :=
  match s with
  | "" => false
  | String c s => Ascii.eqb c " "%char || contains_space s
  end.

Definition addID (idx : TruncIndex) (id : string) : TruncIndex * option error :=
  if contains_space id then (idx, Some ErrIllegalChar)
  else if decide (id = "") then (idx, Some ErrEmptyPrefix)
  else if decide (id ∈ ids idx) then (idx, Some (ErrOther "id already exists"))
  else
    let '(t, inserted) := Insert (trie idx) id in
    (mkTruncIndex t ({[id]} ∪ ids idx),
     if inserted then None else Some (ErrOther "failed to insert id")).

Definition NewTruncIndex (l : list string) : TruncIndex :=
  foldl (λ idx id, fst (addID idx id)) (mkTruncIndex NewTrie ∅) l.

Definition Add := addID.

Definition Delete (idx : TruncIndex) (id : string) : TruncIndex * option error :=
  if decide (id ∉ ids idx ∨ id = "") then (idx, Some (ErrOther "no such id"))
  else
    let '(t, deleted) := DeleteKey (trie idx) id in
    (mkTruncIndex t (ids idx ∖ {[id]}),
     if deleted then None else Some (ErrOther "no such id")).

(** [subTreeVisitFunc] over the visited keys, with the captured [id]. *)
Fixpoint visit (keys : list string) (id : string) : string + error :=
  match keys with
  | [] => inl id
  | k :: keys => if decide (id ≠ "") then inr ErrAmbiguousPrefix else visit keys k
  end.

Definition Get (idx : TruncIndex) (s : string) : string + error :=
  if decide (s = "") then inr ErrEmptyPrefix
  else match visit (SubtreeKeys (trie idx) s) "" with
       | inr e => inr e
       | inl id => if decide (id ≠ "") then inl id else inr ErrNotExist
       end.

Definition Iterate {S} (idx : TruncIndex) (handler : string → M S unit) : M S unit :=
  forM (SubtreeKeys (trie idx) "") handler.

(** The identifiers the index accepts. *)
Definition valid (id : string) : Prop := id ≠ "" ∧ contains_space id = false.

Context `{!PatriciaTrieSpec T}.

(** The trie and the set hold the same identifiers, all of them valid. *)
Definition wf (idx : TruncIndex) : Prop :=
  trie_keys (trie idx) = ids idx ∧ ∀ id, id ∈ ids idx → valid id.

Lemma wf_new : wf (mkTruncIndex NewTrie ∅).
Proof. split; simpl; [by rewrite trie_new_keys|by intros id ?%elem_of_empty]. Qed.

Lemma addID_spec idx id :
  wf idx →
  wf (fst (addID idx id)) ∧
  ids (fst (addID idx id)) =
    (if decide (valid id) then {[id]} ∪ ids idx else ids idx).
Proof.
  unfold addID, valid. intros [Hk Hv].
  destruct (contains_space id) eqn:Hs; [split; [done|]; rewrite decide_False by naive_solver; done|].
  case_decide; [split; [done|]; rewrite decide_False by naive_solver; done|].
  rewrite (decide_True (P := id ≠ "" ∧ false = false)) by done.
  case_decide as Hin.
  { split; [done|]. simpl. symmetry. by apply subseteq_union_1_L, singleton_subseteq_l. }
  destruct (trie_insert (trie idx) id) as [Hins _].
  destruct (Insert (trie idx) id) as [t b]. simpl in *.
  split; [split; simpl; [by rewrite Hins, Hk|]|done].
  intros id' [->%elem_of_singleton|?]%elem_of_union; [done|by apply Hv].
Qed.

Lemma Delete_spec idx id :
  wf idx →
  wf (fst (Delete idx id)) ∧ ids (fst (Delete idx id)) = ids idx ∖ {[id]}.
Proof.
  unfold Delete. intros [Hk Hv]. case_decide as Hd.
  - split; [done|]. simpl. assert (id ∉ ids idx).
    2: { symmetry. apply difference_disjoint_L. set_solver. }
    destruct Hd as [?| ->]; [done|]. intros [? _]%Hv. done.
  - destruct (trie_delete (trie idx) id) as [Hdel _].
    destruct (DeleteKey (trie idx) id) as [t b]. simpl in *.
    split; [split; simpl; [by rewrite Hdel, Hk|]|done].
    intros id' [? _]%elem_of_difference. by apply Hv.
Qed.

Lemma addIDs_spec l idx :
  wf idx →
  let idx' := foldl (λ idx id, fst (addID idx id)) idx l in
  wf idx' ∧ ∀ id, id ∈ ids idx' ↔ id ∈ ids idx ∨ (id ∈ l ∧ valid id).
Proof.
  revert idx. induction l as [|x l IH]; intros idx Hwf; simpl.
  { split; [done|]. intros id. rewrite elem_of_nil. tauto. }
  destruct (addID_spec idx x Hwf) as [Hwf' Heq].
  destruct (IH (fst (addID idx x)) Hwf') as [? Hl]. split; [done|].
  intros id. rewrite Hl, Heq, elem_of_cons.
  case_decide; [rewrite elem_of_union, elem_of_singleton|]; naive_solver.
Qed.

Lemma NewTruncIndex_spec l :
  wf (NewTruncIndex l) ∧ ∀ id, id ∈ ids (NewTruncIndex l) ↔ id ∈ l ∧ valid id.
Proof.
  destruct (addIDs_spec l _ wf_new) as [? Hl]. split; [done|].
  intros id. unfold NewTruncIndex. rewrite Hl. simpl. rewrite elem_of_empty. tauto.
Qed.

(** What [Get] visits, given that no stored identifier is empty. *)
Lemma visit_one keys r :
  (∀ k, k ∈ keys → k ≠ "") → r ≠ "" → visit keys "" = inl r ↔ keys = [r].
Proof.
  intros Hk Hr. destruct keys as [|k [|k' keys]]; simpl.
  - naive_solver.
  - naive_solver.
  - rewrite (decide_True (P := k ≠ "")) by (apply Hk; set_solver). naive_solver.
Qed.

(** [Get] finds [id] exactly when it is the only stored identifier with the
    prefix [s]. *)
Lemma Get_inl idx s id :
  wf idx →
  Get idx s = inl id ↔
    s ≠ "" ∧ id ∈ ids idx ∧ String.prefix s id = true ∧
    ∀ id', id' ∈ ids idx → String.prefix s id' = true → id' = id.
Proof.
  intros [Hk Hv]. unfold Get.
  assert (∀ k, k ∈ SubtreeKeys (trie idx) s ↔ k ∈ ids idx ∧ String.prefix s k = true) as Hsub
    by (intros k; by rewrite trie_subtree, Hk).
  pose proof (trie_subtree_NoDup (trie idx) s) as Hnd.
  case_decide as Hs; [naive_solver|].
  trans (id ≠ "" ∧ visit (SubtreeKeys (trie idx) s) "" = inl id).
  { destruct (visit _ _) as [r|e]; [case_decide|]; naive_solver. }
  split.
  - intros [Hid Hvis]. apply visit_one in Hvis; [|by intros k [[? _]%Hv _]%Hsub|done].
    rewrite Hvis in Hsub. setoid_rewrite list_elem_of_singleton in Hsub.
    split; [done|]. split_and!; [by apply Hsub..|]. intros id' ? ?. by apply Hsub.
  - intros (_ & Hin & Hp & Huniq). split; [by apply Hv in Hin as [? _]|].
    apply visit_one; [by intros k [[? _]%Hv _]%Hsub|by apply Hv in Hin as [? _]|].
    apply Permutation_singleton_r, NoDup_Permutation; [done|apply NoDup_singleton|].
    intros k. rewrite Hsub, list_elem_of_singleton. naive_solver.
Qed.

(** The two ways to find nothing. *)
Lemma Get_inr idx s :
  wf idx → s ≠ "" →
  (Get idx s = inr ErrNotExist ↔ ∀ id, id ∈ ids idx → String.prefix s id = false) ∧
  (Get idx s = inr ErrAmbiguousPrefix ↔
     ∃ id id', id ≠ id' ∧ id ∈ ids idx ∧ id' ∈ ids idx ∧
       String.prefix s id = true ∧ String.prefix s id' = true).
Proof.
  intros [Hk Hv] Hs. unfold Get. rewrite decide_False by done.
  assert (∀ k, k ∈ SubtreeKeys (trie idx) s ↔ k ∈ ids idx ∧ String.prefix s k = true) as Hsub
    by (intros k; by rewrite trie_subtree, Hk).
  pose proof (trie_subtree_NoDup (trie idx) s) as Hnd.
  destruct (SubtreeKeys (trie idx) s) as [|k [|k' keys]]; simpl.
  - split; [split; [|done]|split; [done|]].
    + intros _ id Hid. destruct (String.prefix s id) eqn:E; [|done].
      by pose proof (proj2 (Hsub id) (conj Hid E)) as ?%elem_of_nil.
    + intros (id & _ & _ & Hid & _ & E & _).
      by pose proof (proj2 (Hsub id) (conj Hid E)) as ?%elem_of_nil.
  - destruct (proj1 (Hsub k) ltac:(left)) as [Hin E]. destruct (Hv k Hin) as [Hne _].
    rewrite decide_True by done. split; (split; [done|]).
    + intros Hno. by rewrite (Hno k Hin) in E.
    + intros (id & id' & Hd & Hid & Hid' & E1 & E2). destruct Hd.
      pose proof (proj2 (Hsub id) (conj Hid E1)) as ->%list_elem_of_singleton.
      by pose proof (proj2 (Hsub id') (conj Hid' E2)) as ->%list_elem_of_singleton.
  - destruct (proj1 (Hsub k) ltac:(left)) as [Hin E]. destruct (Hv k Hin) as [Hne _].
    destruct (proj1 (Hsub k') ltac:(right; left)) as [Hin' E'].
    rewrite decide_True by done. split; split; try done.
    + intros Hno. by rewrite (Hno k Hin) in E.
    + intros _. exists k, k'. split_and!; try done. intros ->.
      apply NoDup_cons in Hnd as [Hnd _]. apply Hnd. left.
Qed.

(** C40: Look-up by unique prefix, with every outcome: in an index built from a
    list of identifiers, where the empty one and those with a space are left
    out, a non-empty prefix gives the one stored identifier it is a prefix of,
    [ErrNotExist] when there is none, and [ErrAmbiguousPrefix] when there are
    two; the empty prefix gives [ErrEmptyPrefix]. *)
Theorem Get_unique_prefix l s :
  let idx := NewTruncIndex l in
  let matches id := id ∈ l ∧ valid id ∧ String.prefix s id = true in
  if decide (s = "") then Get idx s = inr ErrEmptyPrefix
  else
    (∀ id, Get idx s = inl id ↔ matches id ∧ ∀ id', matches id' → id' = id) ∧
    (Get idx s = inr ErrNotExist ↔ ∀ id, ¬ matches id) ∧
    (Get idx s = inr ErrAmbiguousPrefix ↔ ∃ id id', id ≠ id' ∧ matches id ∧ matches id').
Proof.
  destruct (NewTruncIndex_spec l) as [Hwf Hids]. simpl. case_decide as Hs; [by subst|].
  destruct (Get_inr _ s Hwf Hs) as [H1 H2]. split_and!.
  - intros id. rewrite Get_inl by done. setoid_rewrite Hids. naive_solver.
  - rewrite H1. setoid_rewrite Hids. split.
    + intros Hno id (? & ? & E). rewrite Hno in E by done. done.
    + intros Hno id [? ?]. apply not_true_is_false. intros E. by eapply Hno.
  - rewrite H2. setoid_rewrite Hids. naive_solver.
Qed.
End TruncIndex.
Arguments TruncIndex : clear implicits.

Lemma Get_unique_prefix_witness :
  let idx := NewTruncIndex (T := gset string) ["abc"; "abd"; "xyz"] in
  Get idx "x" = inl "xyz" ∧ Get idx "ab" = inr ErrAmbiguousPrefix ∧
  (Get idx "q" = inr ErrNotExist ↔
   ∀ id, ¬ (id ∈ ["abc"; "abd"; "xyz"] ∧ valid id ∧ String.prefix "q" id = true)).
Proof.
  split; [by vm_compute|]. split; [by vm_compute|].
  exact (proj1 (proj2 (Get_unique_prefix (T := gset string) ["abc"; "abd"; "xyz"] "q"))).
Defined.
End TruncIndex.
