(* ===== verification/LockFile.v ===== *)
(** * storage/pkg/lockfile: the inter-process lock and its last-write token

    [LastWrite] ([lastwrite.go]), the methods of [LockFile] ([lockfile.go],
    [lockfile_unix.go]) as one goroutine runs them, and, below, the same
    object shared by goroutines and processes as a transition system.

    Locking operations wait until the lock is free.  Run by a single
    goroutine, waiting for a lock it holds itself never ends: [Deadlock]. *)

From S2P Require Import Prelude World.

Local Open Scope string_scope.

(** ** LastWrite *)

Record LastWrite := mkLastWrite { state : option string }.   (* None: nil *)

#[global] Instance LastWrite_eq_dec : EqDecision LastWrite.
Proof. solve_decision. Defined.

Definition lastWriterIDSize : nat := 64.

(** [binary.LittleEndian.PutUintN]: [n] bytes of [z]. *)
Fixpoint le_bytes (n : nat) (z : Z) : string :=
  match n with
  | 0 => ""
  | S n => String (ascii_of_nat (Z.to_nat (z mod 256))) (le_bytes n (z / 256))
  end.

Definition uint64 (z : Z) : Z := (z mod 2 ^ 64)%Z.
Definition uint32 (z : Z) : Z := (z mod 2 ^ 32)%Z.

Definition newLastWrite : M World LastWrite :=
  pid ← gets w_pid;
  tm ← time_Now;
  _ ← modify (λ w, set_lwcounter (uint64 (w_lwcounter w + 1)) w);
  counter ← gets w_lwcounter;
  r ← rand_read (lastWriterIDSize - 20);
  mret (mkLastWrite (Some
    (le_bytes 8 (uint64 tm) +:+ le_bytes 8 counter +:+ le_bytes 4 (uint32 pid) +:+ r))).

Definition serialize {S} (lw : LastWrite) : M S string :=
  match state lw with
  | None => stop (Panic "LastWrite.serialize on an uninitialized object")
  | Some b => mret b
  end.

Definition equals {S} (lw other : LastWrite) : M S bool :=
  match state lw with
  | None => stop (Panic "LastWrite.equals on an uninitialized object")
  | Some a =>
      match state other with
      | None => stop (Panic "LastWrite.equals with an uninitialized counterparty")
      | Some b => mret (bool_decide (a = b))
      end
  end.

Definition newLastWriteFromData (serialized : string) : LastWrite :=
  mkLastWrite (Some serialized).

(** ** rawfilelock *)

Inductive LockType := ReadLock | WriteLock.

#[global] Instance LockType_eq_dec : EqDecision LockType.
Proof. solve_decision. Defined.

(** [openHandle] with [O_CREATE]: fails when the directory is missing. *)
Definition OpenLock (path : string) : M World unit :=
  syscall (
    d ← gets w_dirs;
    if decide (filepath_Dir path ∈ d)
    then modify (λ w, match w_files w !! path with
                      | Some _ => w
                      | None => set_files (<[path := ""]> (w_files w)) w
                      end)
    else fail (ErrOS ENOENT)).

(** [lockHandle] without [nonblocking] repeats the call until it succeeds; the
    flag tells whether the process was killed before. *)
Fixpoint lockHandle_retry (l : list fault) : list fault * bool :=
  match l with
  | FailWith _ :: l => lockHandle_retry l
  | Kill :: l => (l, true)
  | _ :: l => (l, false)
  | [] => ([], false)
  end.

Definition LockFileHandle : M World unit := λ w,
  let '(l, killed) := lockHandle_retry (w_faults w) in
  (set_faults l w, if killed then Crash Killed else Ret tt).

Definition TryLockFileHandle : M World unit := syscall (mret tt).

(** ** LockFile *)

(** A [sync.RWMutex]. *)
Inductive rwmutex := MFree | MReaders (n : nat) | MWriter.

#[global] Instance rwmutex_eq_dec : EqDecision rwmutex.
Proof. solve_decision. Defined.

Definition mutex_RLock (m : rwmutex) : option rwmutex :=
  match m with MFree => Some (MReaders 1) | MReaders n => Some (MReaders (S n)) | MWriter => None end.
Definition mutex_Lock (m : rwmutex) : option rwmutex :=
  match m with MFree => Some MWriter | _ => None end.
Definition mutex_RUnlock (m : rwmutex) : option rwmutex :=
  match m with
  | MReaders (S (S n)) => Some (MReaders (S n))
  | MReaders 1 => Some MFree
  | _ => None
  end.
Definition mutex_Unlock (m : rwmutex) : option rwmutex :=
  match m with MWriter => Some MFree | _ => None end.

Record LockFile := mkLockFile {
  file : string;
  ro : bool;
  rwMutex : rwmutex;
  counter : Z;
  lw : LastWrite;
  lockType : LockType;
  locked : bool
}.

Definition set_rwMutex (m : rwmutex) (l : LockFile) : LockFile :=
  mkLockFile (file l) (ro l) m (counter l) (lw l) (lockType l) (locked l).
Definition set_counter (c : Z) (l : LockFile) : LockFile :=
  mkLockFile (file l) (ro l) (rwMutex l) c (lw l) (lockType l) (locked l).
Definition set_lw (x : LastWrite) (l : LockFile) : LockFile :=
  mkLockFile (file l) (ro l) (rwMutex l) (counter l) x (lockType l) (locked l).
Definition set_lock (t : LockType) (b : bool) (l : LockFile) : LockFile :=
  mkLockFile (file l) (ro l) (rwMutex l) (counter l) (lw l) t b.

(** A lock file and the world its methods run in. *)
Notation LF := (World * LockFile)%type.

Definition onWorld {A} (m : M World A) : M LF A :=
  zoom fst (λ w s, (w, snd s)) m.
Definition getL {A} (f : LockFile → A) : M LF A := gets (λ s, f (snd s)).
Definition modL (f : LockFile → LockFile) : M LF unit := modify (λ s, (fst s, f (snd s))).

(** [openLock]: create the directory and try again while it is missing.  Each
    round that finds it missing again used up an injected failure, so one
    round per pending system call is enough. *)
Fixpoint openLock_from (fuel : nat) (path : string) : M World unit :=
  match fuel with
  | 0 => stop NoFuel
  | S fuel =>
      r ← try (OpenLock path);
      match r with
      | inl _ => mret tt
      | inr e =>
          if os_IsNotExist e
          then _ ← os_MkdirAll (filepath_Dir path); openLock_from fuel path
          else fail e
      end
  end.

Definition openLock (path : string) : M World unit :=
  λ w, openLock_from (S (S (length (w_faults w)))) path w.

(** [lock], first part: wait for the in-process mutex. *)
Definition lock_begin (lType : LockType) : M LF unit :=
  m ← getL rwMutex;
  match (match lType with ReadLock => mutex_RLock m | WriteLock => mutex_Lock m end) with
  | None => stop Deadlock
  | Some m' => modL (set_rwMutex m')
  end.

(** [lock], second part, under [stateMutex]: the first holder opens the file
    and waits for the file lock. *)
Definition lock_finish (lType : LockType) : M LF unit :=
  c ← getL counter;
  _ ← (if decide (c = 0)%Z then
         f ← getL file;
         r ← try (onWorld (openLock f));
         match r with
         | inr _ => stop (Panic "opening the lock file")
         | inl _ =>
             _ ← onWorld LockFileHandle;
             modL (set_lock lType true)
         end
       else mret tt);
  modL (λ l, set_counter (counter l + 1)%Z l).

Definition lock (lType : LockType) : M LF unit :=
  _ ← lock_begin lType; lock_finish lType.

Definition Lock : M LF unit :=
  r ← getL ro;
  if (r : bool) then stop (Panic "can't take write lock on read-only lock file") else lock WriteLock.

Definition RLock : M LF unit := lock ReadLock.

(** [tryLock] gives up instead of waiting; its clean-up releases the mutex. *)
Definition tryLock (lType : LockType) : M LF unit :=
  m ← getL rwMutex;
  match (match lType with ReadLock => mutex_RLock m | WriteLock => mutex_Lock m end) with
  | None => fail (ErrOther "resource temporarily unavailable")
  | Some m' =>
      _ ← modL (set_rwMutex m');
      c ← getL counter;
      _ ← (if decide (c = 0)%Z then
             f ← getL file;
             r ← try (onWorld (openLock f));
             match r with
             | inr e => modL (set_rwMutex m) ≫= λ _, fail (A := unit) e
             | inl _ =>
                 r ← try (onWorld TryLockFileHandle);
                 match r with
                 | inr e => modL (set_rwMutex m) ≫= λ _, fail (A := unit) e
                 | inl _ => modL (set_lock lType true)
                 end
             end
           else mret tt);
      modL (λ l, set_counter (counter l + 1)%Z l)
  end.

Definition TryLock : M LF unit :=
  r ← getL ro;
  if (r : bool) then stop (Panic "can't take write lock on read-only lock file") else tryLock WriteLock.

Definition TryRLock : M LF unit := tryLock ReadLock.

Definition Unlock : M LF unit :=
  lk ← getL locked;
  if negb lk then stop (Panic "calling Unlock on unlocked lock")
  else
    _ ← modL (λ l, set_counter (counter l - 1)%Z l);
    c ← getL counter;
    if decide (c < 0)%Z then stop (Panic "unlocked too often")
    else
      _ ← (if decide (c = 0)%Z then modL (λ l, set_lock (lockType l) false l) else mret tt);
      t ← getL lockType;
      m ← getL rwMutex;
      match (match t with ReadLock => mutex_RUnlock m | WriteLock => mutex_Unlock m end) with
      | None => stop (Panic "sync: unlock of unlocked RWMutex")
      | Some m' => modL (set_rwMutex m')
      end.

Definition AssertLocked : M LF unit :=
  lk ← getL locked;
  if (lk : bool) then mret tt else stop (Panic "internal error: lock is not held by the expected owner").

Definition AssertLockedForWriting : M LF unit :=
  _ ← AssertLocked;
  t ← getL lockType;
  match t with
  | ReadLock => stop (Panic "internal error: lock is not held for writing")
  | WriteLock => mret tt
  end.

Definition IsReadWrite (l : LockFile) : bool := negb (ro l).

(** [unix.Pread(fd, 64 bytes, 0)] *)
Definition GetLastWrite : M LF LastWrite :=
  _ ← AssertLocked;
  p ← getL file;
  f ← onWorld pop_fault;
  match f with
  | FailWith e => fail (ErrOS e)
  | _ =>
      files ← gets (λ s, w_files (fst s));
      let contents := String.substring 0 lastWriterIDSize (default "" (files !! p)) in
      let n := match f with Short n => n | _ => String.length contents end in
      mret (newLastWriteFromData (String.substring 0 n contents))
  end.

(** The file after [unix.Pwrite(fd, data, 0)]. *)
Definition overwrite (old data : string) : string :=
  data +:+ String.substring (String.length data) (String.length old) old.

Definition RecordWrite : M LF LastWrite :=
  _ ← AssertLockedForWriting;
  lw ← onWorld newLastWrite;
  lockContents ← serialize lw;
  p ← getL file;
  f ← onWorld pop_fault;
  match f with
  | FailWith e => fail (ErrOS e)
  | _ =>
      let n := match f with Short n => Nat.min n (String.length lockContents)
               | _ => String.length lockContents end in
      _ ← onWorld (modify (λ w,
            set_files (<[p := overwrite (default "" (w_files w !! p))
                                        (String.substring 0 n lockContents)]> (w_files w)) w));
      if decide (n = String.length lockContents) then mret lw else fail (ErrOS ENOSPC)
  end.

Definition ModifiedSince (previous : LastWrite) : M LF (LastWrite * bool) :=
  _ ← AssertLocked;
  currentLW ← GetLastWrite;
  e ← equals previous currentLW;
  mret (currentLW, negb e).

(** Deprecated [Modified] and [Touch], which keep the token in the object. *)
Definition Modified : M LF bool :=
  lk ← getL locked;
  if negb lk then stop (Panic "attempted to check last-writer in lockfile without locking it first")
  else
    oldLW ← getL lw;
    r ← ModifiedSince oldLW;
    _ ← modL (set_lw (fst r));
    mret (snd r).

Definition Touch : M LF unit :=
  x ← RecordWrite;
  lk ← getL locked;
  t ← getL lockType;
  if negb lk || bool_decide (t = ReadLock)
  then stop (Panic "attempted to update last-writer in lockfile without the write lock")
  else modL (set_lw x).

(** ** GetLockFile: one object per path and process *)

Definition createLockFileForPath (path : string) (ro : bool) : M World LockFile :=
  _ ← openLock path;
  lw ← newLastWrite;
  mret (mkLockFile path ro MFree 0 lw (if ro then ReadLock else WriteLock) false).

(** The process-wide table [lockFiles]; [path] is absolute. *)
Notation LockTable := (World * gmap string LockFile)%type.

Definition getLockfile (path : string) (ro : bool) : M LockTable LockFile :=
  let cleanPath := filepath_Clean path in
  t ← gets snd;
  match t !! cleanPath with
  | Some l =>
      if ro && IsReadWrite l then fail (ErrOther "not a read-only lock")
      else if negb ro && negb (IsReadWrite l) then fail (ErrOther "not a read-write lock")
      else mret l
  | None =>
      l ← zoom fst (λ w s, (w, snd s)) (createLockFileForPath cleanPath ro);
      _ ← modify (λ s, (fst s, <[cleanPath := l]> (snd s)));
      mret l
  end.

Definition GetLockFile (path : string) : M LockTable LockFile := getLockfile path false.
Definition GetROLockFile (path : string) : M LockTable LockFile := getLockfile path true.

(** ** Tokens *)

Lemma length_le_bytes n z : String.length (le_bytes n z) = n.
Proof. revert z. induction n as [|n IH]; intros z; simpl; [done|]. by rewrite IH. Qed.

Lemma le_bytes_inj n z z' :
  (0 ≤ z < 256 ^ Z.of_nat n)%Z → (0 ≤ z' < 256 ^ Z.of_nat n)%Z →
  le_bytes n z = le_bytes n z' → z = z'.
Proof.
  revert z z'. induction n as [|n IH]; intros z z' Hz Hz' H.
  { simpl in *. lia. }
  rewrite Nat2Z.inj_succ, Z.pow_succ_r in Hz, Hz' by lia.
  cbn [le_bytes] in H. injection H as Hd Hr.
  apply IH in Hr; [|Z.to_euclidean_division_equations; lia..].
  pose proof (Z.mod_pos_bound z 256). pose proof (Z.mod_pos_bound z' 256).
  apply (f_equal nat_of_ascii) in Hd. rewrite !nat_ascii_embedding in Hd by lia.
  assert (z mod 256 = z' mod 256)%Z by lia.
  rewrite (Z.div_mod z 256), (Z.div_mod z' 256) by lia. lia.
Qed.

(** The token a call of [newLastWrite] makes from the world it runs in. *)
Definition token_of (w : World) : string :=
  le_bytes 8 (uint64 (match w_clock w with [] => 0 | t :: _ => t end)) +:+
  (le_bytes 8 (uint64 (w_lwcounter w + 1)) +:+
   (le_bytes 4 (uint32 (w_pid w)) +:+
    rand_bytes (w_rand w) (w_randpos w) 44)).

Definition after_token (w : World) : World :=
  set_randpos (w_randpos w + 44)
    (set_lwcounter (uint64 (w_lwcounter w + 1)) (set_clock (tail (w_clock w)) w)).

Lemma newLastWrite_run w :
  newLastWrite w = (after_token w, Ret (mkLastWrite (Some (token_of w)))).
Proof.
  destruct w as [f d fl r pos [|t cl] pid c mt]; reflexivity.
Qed.

Lemma length_token w : String.length (token_of w) = lastWriterIDSize.
Proof.
  unfold token_of. by rewrite !string_length_app, !length_le_bytes, length_rand_bytes.
Qed.

Lemma token_counter_inj w w' :
  token_of w = token_of w' → uint64 (w_lwcounter w + 1) = uint64 (w_lwcounter w' + 1).
Proof.
  unfold token_of. intros [_ H]%string_app_inj_length; [|by rewrite !length_le_bytes].
  apply string_app_inj_length in H as [H _]; [|by rewrite !length_le_bytes].
  apply le_bytes_inj in H; [done|..]; apply (Z.mod_pos_bound _ (2 ^ 64)); done.
Qed.

Lemma overwrite_prefix old data :
  String.length data = lastWriterIDSize →
  String.substring 0 lastWriterIDSize (overwrite old data) = data.
Proof. intros <-. apply substring_app. Qed.

(** ** openLock terminates *)

Lemma OpenLock_run path w :
  let '(w', o) := OpenLock path w in
  (length (w_faults w') ≤ length (w_faults w))%nat ∧ w_dirs w' = w_dirs w ∧
  match o with
  | Ret _ => True
  | Err e => e = ErrOS ENOENT → filepath_Dir path ∈ w_dirs w →
             (length (w_faults w') < length (w_faults w))%nat
  | Crash c => c = Killed ∧ Kill ∈ w_faults w
  end ∧ (Kill ∈ w_faults w' → Kill ∈ w_faults w).
Proof.
  unfold OpenLock, syscall, pop_fault, mbind, M_bind, gets, modify, fail.
  destruct w as [fs d fl r pos cl pid c mt]; simpl.
  destruct fl as [|[|e|n|] fl]; simpl; rewrite ?elem_of_cons; repeat case_decide; simpl;
    try (destruct (fs !! path); simpl); split_and!; try (lia || done || tauto); intros; try (lia || done || tauto); (congruence || (rewrite ?elem_of_cons in *; tauto)).
Qed.

Lemma os_MkdirAll_run p w :
  let '(w', o) := os_MkdirAll p w in
  (length (w_faults w') ≤ length (w_faults w))%nat ∧ w_dirs w ⊆ w_dirs w' ∧
  match o with
  | Ret _ => p ∈ w_dirs w'
  | Err _ => True
  | Crash c => c = Killed ∧ Kill ∈ w_faults w
  end ∧ (Kill ∈ w_faults w' → Kill ∈ w_faults w).
Proof.
  unfold os_MkdirAll, syscall, pop_fault, mbind, M_bind, modify, fail.
  destruct w as [fs d fl r pos cl pid c mt]; simpl.
  destruct fl as [|[|e|n|] fl]; simpl; rewrite ?elem_of_cons; split_and!; (lia || set_solver || naive_solver).
Qed.

(** Rounds [openLock] may still need: one per system call whose outcome is
    still scripted, one more to create a missing directory. *)
Definition open_rounds (path : string) (w : World) : nat :=
  length (w_faults w) + (if decide (filepath_Dir path ∈ w_dirs w) then 0 else 1).

(** A run that only stops early if the process is killed. *)
Definition only_killed {A} (w : World) (o : outcome A) : Prop :=
  match o with Crash c => c = Killed ∧ Kill ∈ w_faults w | _ => True end.

Lemma openLock_from_terminates fuel path w :
  (open_rounds path w < fuel)%nat → only_killed w (snd (openLock_from fuel path w)).
Proof.
  revert w. induction fuel as [|fuel IH]; intros w Hf; [lia|].
  unfold open_rounds in *. cbn [openLock_from]. unfold try, mbind, M_bind.
  pose proof (OpenLock_run path w) as HO.
  destruct (OpenLock path w) as [w1 [[]|e|c']]; destruct HO as (Hl & Hd & He & Hk); simpl; [done| |done].
  unfold os_IsNotExist. case_bool_decide as Hne; [|done]. subst e.
  pose proof (os_MkdirAll_run (filepath_Dir path) w1) as HM.
  destruct (os_MkdirAll _ w1) as [w2 [[]|e|c']]; destruct HM as (Hl2 & Hd2 & He2 & Hk2); simpl;
    [|done|naive_solver].
  assert (only_killed w2 (snd (openLock_from fuel path w2))) as Hok.
  { apply IH. rewrite decide_True by done.
    specialize (He eq_refl). case_decide; [specialize (He ltac:(done))|]; lia. }
  unfold only_killed in *. destruct (snd (openLock_from fuel path w2)); naive_solver.
Qed.

Lemma openLock_only_killed path w : only_killed w (snd (openLock path w)).
Proof.
  apply openLock_from_terminates. unfold open_rounds. case_decide; lia.
Qed.

Lemma openLock_no_deadlock path w : snd (openLock path w) ≠ Crash Deadlock.
Proof. pose proof (openLock_only_killed path w) as Hk. intros E. rewrite E in Hk. by destruct Hk. Qed.

(** ** Runs without failures *)

(** Nothing but the lock file at [p] may appear. *)
Definition only_file (p : string) (w w' : World) : Prop :=
  w_faults w' = [] ∧ ∀ q, q ≠ p → w_files w' !! q = w_files w !! q.

Lemma openLock_ok p w : w_faults w = [] → ∃ w', openLock p w = (w', Ret tt) ∧ only_file p w w'.
Proof.
  intros Hw.
  assert (∀ n w, w_faults w = [] → filepath_Dir p ∈ w_dirs w → ∃ w', openLock_from (S n) p w = (w', Ret tt) ∧ only_file p w w') as Hopen.
  { intros n w0 Hw0 Hd. cbn [openLock_from]. rewrite run_try. unfold OpenLock. rewrite syscall_ok by done.
    unfold gets, modify, mbind, M_bind. rewrite decide_True by done. eexists. split; [done|].
    destruct (w_files w0 !! p); [by split|]. split; [done|]. intros q Hq. simpl. by apply lookup_insert_ne. }
  unfold openLock. rewrite Hw. simpl length. destruct (decide (filepath_Dir p ∈ w_dirs w)) as [Hd|Hd]; [by apply Hopen|].
  set (w1 := set_dirs ({[filepath_Dir p]} ∪ list_to_set (ancestors (filepath_Dir p)) ∪ w_dirs w) w).
  destruct (Hopen 0 w1) as (w' & E & Ho); [done|simpl; set_solver|]. exists w'. split; [|done].
  change 2 with (S 1). remember 1 as k. cbn [openLock_from]. rewrite run_try. unfold OpenLock at 1. rewrite syscall_ok by done.
  unfold gets, mbind at 1, M_bind at 1. rewrite decide_False by done. change (os_IsNotExist (ErrOS ENOENT)) with true.
  unfold mbind, M_bind, os_MkdirAll. simpl. rewrite syscall_ok by done. by subst k.
Qed.

(** The state of a lock file. *)
Definition lf_is (m : rwmutex) (c : Z) (b : bool) (t : option LockType) (l : LockFile) : Prop :=
  rwMutex l = m ∧ counter l = c ∧ locked l = b ∧ from_option (λ t, lockType l = t) True t.

Definition held_by (t : LockType) : rwmutex := match t with ReadLock => MReaders 1 | WriteLock => MWriter end.

Lemma lock_ok t w l :
  w_faults w = [] → lf_is MFree 0 false None l →
  ∃ w' l', lock t (w, l) = ((w', l'), Ret tt) ∧ only_file (file l) w w' ∧ lf_is (held_by t) 1 true (Some t) l' ∧ file l' = file l ∧ ro l' = ro l.
Proof.
  intros Hw (Hm & Hc & Hl & _). destruct (openLock_ok (file l) w Hw) as (w' & Eo & Hw' & Hf).
  exists w', (set_counter 1 (set_lock t true (set_rwMutex (held_by t) l))). split; [|by split_and!].
  unfold lock, lock_begin, lock_finish, getL, gets, modL, modify, onWorld, zoom, try, LockFileHandle, mbind, M_bind.
  simpl. rewrite Hm. destruct t; simpl; rewrite Hc; simpl; rewrite Eo; simpl; rewrite Hw'; simpl; rewrite Hc; simpl; repeat f_equal;
    destruct w'; simpl in *; by subst.
Qed.

Lemma RLock_ok w l :
  w_faults w = [] → lf_is MFree 0 false None l →
  ∃ w' l', RLock (w, l) = ((w', l'), Ret tt) ∧ only_file (file l) w w' ∧ lf_is (MReaders 1) 1 true (Some ReadLock) l' ∧ file l' = file l.
Proof. intros Hw Hl. destruct (lock_ok ReadLock w l Hw Hl) as (w' & l' & ? & ? & ? & ? & ?). by exists w', l'. Qed.

(** ** Goroutines and processes

    Every process has one [LockFile] for the path, shared by its goroutines.
    [p_wait] lists the goroutines that passed the in-process mutex and are
    about to run, or blocked in, the second part of [lock].  A goroutine that
    waits for the in-process mutex has not taken a step yet; which requests
    wait there is recorded where progress is proved, in LockProgress.v. *)

Record proc := mkProc { p_lock : LockFile; p_wait : list LockType }.

Record sys := mkSys { s_world : World; s_procs : nat → proc }.

Definition upd (f : nat → proc) (p : nat) (x : proc) : nat → proc :=
  λ q, if decide (q = p) then x else f q.

(** The kernel grants the file lock when no other process holds a
    conflicting one. *)
Definition granted (s : sys) (p : nat) (t : LockType) : Prop :=
  ∀ q, q ≠ p → locked (p_lock (s_procs s q)) = true →
       t = ReadLock ∧ lockType (p_lock (s_procs s q)) = ReadLock.

Inductive step : sys → sys → Prop :=
  | step_begin s p t w' l' :
      lock_begin t (s_world s, p_lock (s_procs s p)) = ((w', l'), Ret tt) →
      step s (mkSys w' (upd (s_procs s) p (mkProc l' (t :: p_wait (s_procs s p)))))
  | step_finish s p t pre suf w' l' :
      p_wait (s_procs s p) = (pre ++ t :: suf)%list →
      (counter (p_lock (s_procs s p)) = 0%Z → granted s p t) →
      lock_finish t (s_world s, p_lock (s_procs s p)) = ((w', l'), Ret tt) →
      step s (mkSys w' (upd (s_procs s) p (mkProc l' (pre ++ suf)%list)))
  | step_unlock s p w' l' :
      (0 < counter (p_lock (s_procs s p)))%Z →
      Unlock (s_world s, p_lock (s_procs s p)) = ((w', l'), Ret tt) →
      step s (mkSys w' (upd (s_procs s) p (mkProc l' (p_wait (s_procs s p)))))
  | step_try s p t w' l' :
      (counter (p_lock (s_procs s p)) = 0%Z → granted s p t) →
      tryLock t (s_world s, p_lock (s_procs s p)) = ((w', l'), Ret tt) →
      step s (mkSys w' (upd (s_procs s) p (mkProc l' (p_wait (s_procs s p)))))
  | step_try_refused s p t e w' l' :
      tryLock t (s_world s, p_lock (s_procs s p)) = ((w', l'), Err e) →
      step s (mkSys w' (upd (s_procs s) p (mkProc l' (p_wait (s_procs s p))))).

Definition initial (s : sys) : Prop :=
  ∀ p, p_wait (s_procs s p) = [] ∧ rwMutex (p_lock (s_procs s p)) = MFree ∧
       counter (p_lock (s_procs s p)) = 0%Z ∧ locked (p_lock (s_procs s p)) = false.

Definition reachable (s : sys) : Prop := ∃ s0, initial s0 ∧ rtc step s0 s.

(** The mutex, the counter and the lock state of one process agree. *)
Definition wf_proc (x : proc) : Prop :=
  let l := p_lock x in
  match rwMutex l with
  | MFree => counter l = 0%Z ∧ locked l = false ∧ p_wait x = []
  | MReaders n =>
      (0 < n)%nat ∧ Z.of_nat n = (counter l + Z.of_nat (length (p_wait x)))%Z ∧
      (0 ≤ counter l)%Z ∧ Forall (eq ReadLock) (p_wait x) ∧
      (locked l = true ↔ (0 < counter l)%Z) ∧ (locked l = true → lockType l = ReadLock)
  | MWriter =>
      (p_wait x = [WriteLock] ∧ counter l = 0%Z ∧ locked l = false) ∨
      (p_wait x = [] ∧ counter l = 1%Z ∧ locked l = true ∧ lockType l = WriteLock)
  end.

(** No two processes hold conflicting file locks. *)
Definition exclusive (s : sys) : Prop :=
  ∀ p q, p ≠ q → locked (p_lock (s_procs s p)) = true →
         locked (p_lock (s_procs s q)) = true →
         lockType (p_lock (s_procs s p)) = ReadLock.

Definition sys_inv (s : sys) : Prop := (∀ p, wf_proc (s_procs s p)) ∧ exclusive s.

Lemma lock_begin_run t w l w' l' :
  lock_begin t (w, l) = ((w', l'), Ret tt) →
  ∃ m', (match t with ReadLock => mutex_RLock (rwMutex l) | WriteLock => mutex_Lock (rwMutex l) end)
        = Some m' ∧ w' = w ∧ l' = set_rwMutex m' l.
Proof.
  unfold lock_begin, mbind, M_bind, getL, gets, modL, modify. simpl.
  destruct (match t with ReadLock => _ | WriteLock => _ end) as [m'|]; naive_solver.
Qed.

Lemma lock_finish_run t w l w' l' :
  lock_finish t (w, l) = ((w', l'), Ret tt) →
  l' = set_counter (counter l + 1)%Z (if decide (counter l = 0)%Z then set_lock t true l else l).
Proof.
  unfold lock_finish, mbind, M_bind, getL, gets, modL, modify, try, onWorld, zoom, LockFileHandle.
  simpl. case_decide; simpl; [|naive_solver].
  destruct (openLock (file l) w) as [w1 [[]|e|c]]; simpl; [|naive_solver..].
  destruct (lockHandle_retry _) as [fl []]; naive_solver.
Qed.

(** [tryLock] takes both parts at once, or leaves the object as it was. *)
Lemma tryLock_run t w l w' l' o :
  tryLock t (w, l) = ((w', l'), o) →
  match o with
  | Ret _ =>
      ∃ m', (match t with ReadLock => mutex_RLock (rwMutex l) | WriteLock => mutex_Lock (rwMutex l) end) = Some m' ∧
        l' = set_counter (counter l + 1)%Z (if decide (counter l = 0)%Z then set_lock t true (set_rwMutex m' l) else set_rwMutex m' l)
  | Err _ => l' = l
  | Crash _ => True
  end.
Proof.
  unfold tryLock, mbind, M_bind, getL, gets, modL, modify, try, onWorld, zoom, fail. simpl.
  destruct (match t with ReadLock => _ | WriteLock => _ end) as [m'|]; [|by intros [= _ <- <-]].
  simpl. case_decide; simpl; [|intros [= _ <- <-]; by eauto].
  assert (∀ x, set_rwMutex (rwMutex l) (set_rwMutex x l) = l) as Hid by (intros x; by destruct l).
  destruct (openLock (file l) w) as [w1 [[]|e|c]]; simpl; [|intros [= _ <- <-]; apply Hid|by intros [= _ _ <-]].
  destruct (TryLockFileHandle w1) as [w2 [[]|e|c]]; simpl; [intros [= _ <- <-]; by eauto|intros [= _ <- <-]; apply Hid|by intros [= _ _ <-]].
Qed.

(** [Unlock], by the state it finds. *)
Lemma Unlock_run w l :
  locked l = true → (1 ≤ counter l)%Z →
  Unlock (w, l) =
    let l1 := set_counter (counter l - 1)%Z l in
    let l2 := if decide (counter l = 1)%Z then set_lock (lockType l) false l1 else l1 in
    match (match lockType l with ReadLock => mutex_RUnlock (rwMutex l)
                               | WriteLock => mutex_Unlock (rwMutex l) end) with
    | None => ((w, l2), Crash (Panic "sync: unlock of unlocked RWMutex"))
    | Some m' => ((w, set_rwMutex m' l2), Ret tt)
    end.
Proof.
  intros Hl Hc. unfold Unlock, mbind, M_bind, getL, gets, modL, modify. simpl. rewrite Hl. simpl.
  rewrite decide_False by lia.
  destruct (decide (counter l = 1)%Z); [rewrite decide_True by lia|rewrite decide_False by lia];
    simpl; by destruct (lockType l), (rwMutex l) as [|[|[|]]|].
Qed.

Lemma wf_begin t m' l wait :
  wf_proc (mkProc l wait) →
  (match t with ReadLock => mutex_RLock (rwMutex l) | WriteLock => mutex_Lock (rwMutex l) end)
    = Some m' →
  wf_proc (mkProc (set_rwMutex m' l) (t :: wait)).
Proof.
  unfold wf_proc; simpl. destruct t, (rwMutex l) as [|n|]; simpl; intros Hwf [= <-].
  - destruct Hwf as (-> & -> & ->). simpl. split_and!; (lia || done || (split; (done || lia)) || eauto).
  - destruct Hwf as (? & ? & ? & ? & ? & ?). split_and!; (lia || done || eauto).
  - destruct Hwf as (-> & -> & ->). auto.
Qed.

Lemma wf_finish t l pre suf :
  wf_proc (mkProc l (pre ++ t :: suf)%list) →
  wf_proc (mkProc (set_counter (counter l + 1)%Z
                     (if decide (counter l = 0)%Z then set_lock t true l else l)) (pre ++ suf)%list).
Proof.
  unfold wf_proc; simpl.
  destruct (rwMutex l) as [|n|] eqn:Hm; simpl.
  - intros (_ & _ & H). by destruct pre.
  - intros (? & Hn & ? & Hf & Hl & Ht). rewrite length_app in Hn. simpl in Hn.
    rewrite Forall_app, Forall_cons in Hf. destruct Hf as (? & <- & ?).
    case_decide; simpl; rewrite Hm; simpl; rewrite length_app, Forall_app; split_and!;
      try (lia || done); split; try (lia || done). intros. apply Hl. lia.
  - intros [(H & E & _)|(H & _)]; [|by destruct pre].
    destruct pre as [|x pre]; simpl in H; [|destruct pre; discriminate H].
    injection H as -> ->. rewrite decide_True by done. simpl. rewrite Hm, E. auto.
Qed.

Lemma wf_unlock w l wait :
  wf_proc (mkProc l wait) → (0 < counter l)%Z →
  ∃ l', Unlock (w, l) = ((w, l'), Ret tt) ∧ wf_proc (mkProc l' wait) ∧
        (locked l' = true → locked l = true ∧ lockType l' = lockType l).
Proof.
  unfold wf_proc; simpl. intros Hwf Hc.
  assert (locked l = true) as Hlk by (destruct (rwMutex l); naive_solver lia).
  rewrite Unlock_run by (done || lia). simpl.
  destruct (rwMutex l) as [|n|] eqn:Hm.
  - naive_solver lia.
  - destruct Hwf as (? & ? & ? & ? & ? & Ht). rewrite (Ht Hlk).
    assert (∃ m', mutex_RUnlock (MReaders n) = Some m' ∧
                  m' = (if decide (n = 1) then MFree else MReaders (n - 1))) as (m' & -> & ->).
    { destruct n as [|[|n]]; [lia|by eexists|]. by eexists. }
    eexists. split; [done|]. simpl. split.
    + destruct (decide (n = 1)%nat) as [->|].
      * assert (counter l = 1%Z ∧ wait = []) as [E ->] by (destruct wait; simpl in *; lia || (split; [lia|done])).
        rewrite decide_True by done. simpl. rewrite E. done.
      * simpl. destruct (decide (counter l = 1)%Z) as [E|E]; simpl;
          split_and!; try (lia || done); split; intros; (lia || done).
    + case_decide; simpl; [done|]. by rewrite Ht.
  - destruct Hwf as [(_ & ? & _)|(-> & E & _ & ->)]; [lia|].
    rewrite decide_True by done. simpl. eexists. split; [done|]. simpl. rewrite E. done.
Qed.

(** Changing one process keeps the invariant when its new state is
    consistent and compatible with the other processes. *)
Lemma sys_inv_upd s p x w :
  sys_inv s → wf_proc x →
  (∀ q, q ≠ p → locked (p_lock x) = true → locked (p_lock (s_procs s q)) = true →
        lockType (p_lock x) = ReadLock ∧ lockType (p_lock (s_procs s q)) = ReadLock) →
  sys_inv (mkSys w (upd (s_procs s) p x)).
Proof.
  intros [Hwf Hex] Hx Hq. split; simpl.
  - intros q. unfold upd. by case_decide.
  - intros q q' Hne. simpl. unfold upd.
    destruct (decide (q = p)) as [->|], (decide (q' = p)) as [->|]; intros H1 H2.
    + done.
    + by apply (Hq q').
    + by apply (Hq q).
    + by apply (Hex q q').
Qed.

Lemma exclusive_both s p q :
  exclusive s → q ≠ p → locked (p_lock (s_procs s p)) = true →
  locked (p_lock (s_procs s q)) = true →
  lockType (p_lock (s_procs s p)) = ReadLock ∧ lockType (p_lock (s_procs s q)) = ReadLock.
Proof. intros Hex Hne H1 H2. split; [by apply (Hex p q)|by apply (Hex q p)]. Qed.

Lemma step_inv s s' : sys_inv s → step s s' → sys_inv s'.
Proof.
  intros Hinv Hstep. pose proof Hinv as [Hwf Hex].
  destruct Hstep as [s p t w' l' Hb|s p t pre suf w' l' Hw Hg Hf|s p w' l' Hc Hu|s p t w' l' Hg Ht|s p t e w' l' Ht].
  - apply lock_begin_run in Hb as (m' & Hm & -> & ->). apply sys_inv_upd; [done|..].
    + specialize (Hwf p). destruct (s_procs s p). by apply wf_begin.
    + simpl. intros q Hne H1 H2. by apply exclusive_both.
  - apply lock_finish_run in Hf as ->. apply sys_inv_upd; [done|..].
    + specialize (Hwf p). destruct (s_procs s p) as [l wait]. simpl in *. subst.
      by apply wf_finish.
    + simpl. intros q Hne. case_decide as E; simpl; intros H1 H2; [by apply (Hg E q)|].
      by apply exclusive_both.
  - pose proof (Hwf p) as Hp. pose proof (exclusive_both s p) as Hb.
    destruct (s_procs s p) as [l wait]. simpl in *.
    destruct (wf_unlock (s_world s) l wait Hp Hc) as (l'' & HU & Hwf' & Hl).
    rewrite HU in Hu. simplify_eq. apply sys_inv_upd; [done|done|]. simpl.
    intros q Hne H1 H2. destruct (Hl H1) as [H3 ->]. by apply Hb.
  - apply tryLock_run in Ht as (m' & Hm & ->). apply sys_inv_upd; [done|..].
    + specialize (Hwf p). destruct (s_procs s p) as [l wait]. by apply (wf_finish t (set_rwMutex m' l) []), wf_begin.
    + simpl. intros q Hne. case_decide as E; simpl; intros H1 H2; [by apply (Hg E q)|]. by apply exclusive_both.
  - apply tryLock_run in Ht as ->. apply sys_inv_upd; [done|..].
    + specialize (Hwf p). by destruct (s_procs s p).
    + simpl. intros q Hne H1 H2. by apply exclusive_both.
Qed.

Lemma initial_inv s : initial s → sys_inv s.
Proof.
  intros Hi. split.
  - intros p. destruct (Hi p) as (Hw & Hm & Hc & Hl). unfold wf_proc. by rewrite Hm.
  - intros p q _ H. destruct (Hi p) as (_ & _ & _ & Hl). congruence.
Qed.

Lemma reachable_inv s : reachable s → sys_inv s.
Proof.
  intros (s0 & Hi & Hr). apply initial_inv in Hi.
  induction Hr as [|s s1 s2 Hs _ IH]; [done|]. apply IH. by eapply step_inv.
Qed.

(** ** Last writes *)

Lemma RecordWrite_ret w l w' l' x :
  RecordWrite (w, l) = ((w', l'), Ret x) →
  l' = l ∧ x = mkLastWrite (Some (token_of w)) ∧
  ∃ old, w_files w' !! file l = Some (overwrite old (token_of w)).
Proof.
  unfold RecordWrite, AssertLockedForWriting, AssertLocked, serialize, getL, gets, onWorld, zoom,
    modify, mbind, M_bind, mret, M_ret, stop, fail.
  simpl. destruct (locked l); [|done]. simpl. destruct (lockType l); [done|]. simpl.
  rewrite newLastWrite_run. generalize (token_of w) as tok. intros tok. simpl.
  assert (∀ k, k = String.length tok → String.substring 0 k tok = tok) as Hs
    by (intros k ->; apply substring_all).
  unfold pop_fault. destruct (w_faults (after_token w)) as [|[|e|n|] fl]; simpl; try done;
    (case_decide as E; [rewrite (Hs _ E)|done]); intros [= <- <- <-];
    (split; [done|]; split; [done|]); eexists; simpl; apply lookup_insert_eq.
Qed.

Lemma GetLastWrite_overwrite w l old data :
  locked l = true → w_faults w = [] → String.length data = lastWriterIDSize →
  w_files w !! file l = Some (overwrite old data) →
  GetLastWrite (w, l) = ((w, l), Ret (mkLastWrite (Some data))).
Proof.
  intros Hl Hw Hd Hf.
  unfold GetLastWrite, AssertLocked, getL, gets, onWorld, zoom, pop_fault, mbind, M_bind, mret, M_ret.
  pose proof (overwrite_prefix old data Hd) as Hp. revert Hp. generalize lastWriterIDSize as k.
  intros k Hp. simpl. rewrite Hl. simpl. rewrite Hw. simpl. rewrite Hf.
  change (default "" (Some ?x)) with x. rewrite Hp, substring_all. by destruct w.
Qed.

(** A write recorded by one holder of the lock is what every later holder
    sees: after a successful [RecordWrite] that returned [x], as long as the
    lock file is not written again, [ModifiedSince prev] through any [LockFile]
    of the same path returns [x] and reports a modification exactly when [prev]
    is not [x]; and [x] differs from every token of the process whose counter is
    different. *)
Theorem RecordWrite_ModifiedSince w l w' l' x :
  RecordWrite (w, l) = ((w', l'), Ret x) →
  (∀ w2 l2 prev b,
     file l2 = file l → locked l2 = true → w_faults w2 = [] →
     w_files w2 !! file l = w_files w' !! file l → state prev = Some b →
     snd (ModifiedSince prev (w2, l2)) = Ret (x, bool_decide (prev ≠ x))) ∧
  (∀ w0, uint64 (w_lwcounter w0 + 1) ≠ uint64 (w_lwcounter w + 1) →
         x ≠ mkLastWrite (Some (token_of w0))).
Proof.
  intros (-> & -> & old & Hw')%RecordWrite_ret. split.
  - intros w2 l2 [prev] b Hf Hl Hfl Hw2 [= ->]. rewrite Hw', <- Hf in Hw2.
    unfold ModifiedSince, AssertLocked, getL, gets, mbind, M_bind, mret, M_ret. simpl. rewrite Hl. simpl.
    rewrite (GetLastWrite_overwrite w2 l2 old (token_of w)) by (done || apply length_token).
    simpl. rewrite <- bool_decide_not. do 3 f_equal. apply bool_decide_ext. naive_solver.
  - intros w0 Hne Heq. apply (f_equal state) in Heq. cbn [state] in Heq.
    assert (token_of w = token_of w0) as Ht%token_counter_inj; [|congruence].
    revert Heq. generalize (token_of w), (token_of w0). congruence.
Qed.

(** A world for examples: an empty store directory, calls that succeed. *)
Definition demo_world : World :=
  mkWorld ∅ {["/s"]} [] (λ n, ascii_of_nat (Nat.modulo n 256)) 0 [1%Z; 2%Z; 3%Z] 42 0 noMeta.

Definition demo_lock : LockFile :=
  mkLockFile "/s/x.lock" false MWriter 1 (mkLastWrite None) WriteLock true.

Lemma RecordWrite_ModifiedSince_witness :
  ∃ s x, RecordWrite (demo_world, demo_lock) = (s, Ret x) ∧
    snd (ModifiedSince x s) = Ret (x, false) ∧
    snd (ModifiedSince (mkLastWrite (Some "")) s) = Ret (x, true).
Proof.
  destruct (RecordWrite (demo_world, demo_lock)) as [[w' l'] o] eqn:E.
  assert (∃ x, o = Ret x) as [x ->] by (vm_compute in E; injection E; intros; subst; eauto).
  exists (w', l'), x. split; [done|].
  assert (l' = demo_lock) as -> by (by apply RecordWrite_ret in E as [? _]).
  assert (w_faults w' = []) as Hf by (apply (f_equal (λ r, w_faults (fst (fst r)))) in E; done).
  assert (x = mkLastWrite (Some (token_of demo_world))) as Hx by (by apply RecordWrite_ret in E as (_ & ? & _)).
  destruct (RecordWrite_ModifiedSince demo_world demo_lock w' demo_lock x E) as [Hmod _].
  split.
  - rewrite (Hmod w' demo_lock x (token_of demo_world)); try done; [|by rewrite Hx].
    by rewrite bool_decide_eq_false_2 by tauto.
  - rewrite (Hmod w' demo_lock _ ""); try done. rewrite bool_decide_eq_true_2; [done|].
    rewrite Hx. intros [=].
Defined.

(** ** Exclusion *)

(** C8: The lock excludes: in every state that the calls of [Lock], [RLock],
    [TryLock] and [Unlock] by any goroutines of any processes on one lock file
    lead to, in any interleaving, a process that holds the file lock for
    writing is the only one that holds it, and has a single holder inside;
    processes that hold it together hold it for reading; and the [Unlock] of a
    holder returns without a panic. *)
Theorem lock_exclusion s p :
  reachable s →
  let l := p_lock (s_procs s p) in
  (locked l = true → lockType l = WriteLock →
     counter l = 1%Z ∧ rwMutex l = MWriter ∧ ∀ q, q ≠ p → locked (p_lock (s_procs s q)) = false) ∧
  (∀ q, q ≠ p → locked l = true → locked (p_lock (s_procs s q)) = true →
     lockType l = ReadLock ∧ lockType (p_lock (s_procs s q)) = ReadLock) ∧
  ((0 < counter l)%Z → locked l = true ∧ ∃ l', Unlock (s_world s, l) = ((s_world s, l'), Ret tt)).
Proof.
  intros [Hwf Hex]%reachable_inv l. subst l.
  pose proof (λ q, exclusive_both s p q Hex) as Hboth.
  specialize (Hwf p). split_and!.
  - intros Hl Ht. unfold wf_proc in Hwf. destruct (rwMutex _) as [|n|] eqn:Hm.
    + destruct Hwf as (_ & ? & _). congruence.
    + destruct Hwf as (_ & _ & _ & _ & _ & Hro). rewrite Hro in Ht by done. discriminate Ht.
    + split; [destruct Hwf as [(_ & _ & ?)|(_ & ? & _)]; congruence|]. split; [done|]. intros q Hq.
      destruct (locked (p_lock (s_procs s q))) eqn:E; [|done]. destruct (Hboth q Hq Hl E). congruence.
  - done.
  - intros Hc. destruct (s_procs s p) as [l wait]. simpl in *. split.
    + unfold wf_proc in Hwf. simpl in Hwf. destruct (rwMutex l); naive_solver lia.
    + destruct (wf_unlock (s_world s) l wait Hwf Hc) as (l' & ? & _). eauto.
Qed.

(** A process that took the lock for writing. *)
Lemma lock_exclusion_witness :
  ∃ s, reachable s ∧ locked (p_lock (s_procs s 0)) = true ∧
       lockType (p_lock (s_procs s 0)) = WriteLock ∧ locked (p_lock (s_procs s 1)) = false.
Proof.
  pose (l0 := mkLockFile "/s/x.lock" false MFree 0 (mkLastWrite None) WriteLock false).
  pose (s0 := mkSys demo_world (λ _, mkProc l0 [])).
  pose (l1 := set_rwMutex MWriter l0).
  pose (s1 := mkSys demo_world (upd (s_procs s0) 0 (mkProc l1 [WriteLock]))).
  destruct (lock_finish WriteLock (demo_world, l1)) as [[w2 l2] o] eqn:E.
  assert (o = Ret tt) as -> by (vm_compute in E; by injection E).
  pose (s2 := mkSys w2 (upd (s_procs s1) 0 (mkProc l2 []))).
  assert (reachable s2) as Hr.
  { exists s0. split; [by intros p|]. eapply rtc_l; [by apply (step_begin s0 0 WriteLock)|].
    eapply rtc_once. apply (step_finish s1 0 WriteLock [] []); [done| |done].
    intros _ q Hq Hl. simpl in Hl. unfold upd in Hl. by rewrite decide_False in Hl. }
  pose proof (lock_finish_run _ _ _ _ _ E) as Hl2.
  exists s2. destruct (lock_exclusion s2 0 Hr) as [Hw _]. simpl in Hw |- *. rewrite Hl2 in *.
  split; [done|]. split; [done|]. split; [done|]. by apply (proj2 (proj2 (Hw eq_refl eq_refl)) 1).
Defined.

(** [openLock] always returns: whatever system calls fail, its loop over
    a missing directory ends after at most one round per failing call, unless
    the process is killed. *)
Theorem openLock_terminates path w : only_killed w (snd (openLock path w)).
Proof. apply openLock_only_killed. Qed.
