(* ===== verification/LockProgress.v ===== *)
(** * Nobody waits forever for a lock file

    The goroutines and processes of [LockFile] once no new request is made:
    every schedule of what is left, releases and acquisitions, comes to an end,
    and then nobody waits any more. *)

From S2P Require Import Prelude World LockFile.

Local Open Scope string_scope.

Section Progress.
(** The processes that use the file have numbers below [n]. *)
Context (n : nat).

(** The processes of [LockFile] with, for each of them, the goroutines whose
    [lock] is blocked on the in-process [rwMutex]. *)
Record jam := mkJam { j_sys : sys; j_pend : nat → list LockType }.

Definition updP (f : nat → list LockType) (p : nat) (x : list LockType) : nat → list LockType :=
  λ q, if decide (q = p) then x else f q.

(** A step of a goroutine that is blocked on the mutex, waits for the file lock
    or holds it. *)
Inductive drain : jam → jam → Prop :=
  | drain_begin s pend p t pre suf w' l' :
      pend p = (pre ++ t :: suf)%list →
      lock_begin t (s_world s, p_lock (s_procs s p)) = ((w', l'), Ret tt) →
      drain (mkJam s pend)
            (mkJam (mkSys w' (upd (s_procs s) p (mkProc l' (t :: p_wait (s_procs s p))))) (updP pend p (pre ++ suf)%list))
  | drain_finish s pend p t pre suf w' l' :
      p_wait (s_procs s p) = (pre ++ t :: suf)%list →
      (counter (p_lock (s_procs s p)) = 0%Z → granted s p t) →
      lock_finish t (s_world s, p_lock (s_procs s p)) = ((w', l'), Ret tt) →
      drain (mkJam s pend) (mkJam (mkSys w' (upd (s_procs s) p (mkProc l' (pre ++ suf)%list))) pend)
  | drain_unlock s pend p w' l' :
      (0 < counter (p_lock (s_procs s p)))%Z →
      Unlock (s_world s, p_lock (s_procs s p)) = ((w', l'), Ret tt) →
      drain (mkJam s pend) (mkJam (mkSys w' (upd (s_procs s) p (mkProc l' (p_wait (s_procs s p))))) pend).

Lemma drain_step j j' : drain j j' → step (j_sys j) (j_sys j').
Proof. destruct 1; by econstructor. Qed.

(** Every schedule of these steps gets to a state with [P], and none gets stuck
    before. *)
Inductive eventually (P : jam → Prop) (j : jam) : Prop :=
  | ev_now : P j → eventually P j
  | ev_later : (∃ j', drain j j') → (∀ j', drain j j' → eventually P j') → eventually P j.

(** Nobody holds the lock, waits for it or for the mutex. *)
Definition idle (j : jam) (p : nat) : Prop :=
  j_pend j p = [] ∧ p_wait (s_procs (j_sys j) p) = [] ∧ counter (p_lock (s_procs (j_sys j) p)) = 0%Z ∧
  locked (p_lock (s_procs (j_sys j) p)) = false ∧ rwMutex (p_lock (s_procs (j_sys j) p)) = MFree.

(** The states at hand: no system call fails, other processes are idle. *)
Record settled (j : jam) : Prop := {
  st_inv : sys_inv (j_sys j);
  st_faults : w_faults (s_world (j_sys j)) = [];
  st_others : ∀ p, (n ≤ p)%nat → idle j p
}.

(** What is left to be done: a goroutine that is blocked on the mutex has three
    steps to go, one that waits for the file lock two. *)
Definition load (x : proc) (pend : list LockType) : nat :=
  3 * length pend + 2 * length (p_wait x) + Z.to_nat (counter (p_lock x)).
Definition total (j : jam) : nat := sum_list_with (λ p, load (s_procs (j_sys j) p) (j_pend j p)) (seq 0 n).

Lemma wf_counter x : wf_proc x → (0 ≤ counter (p_lock x))%Z ∧ (locked (p_lock x) = true ↔ (0 < counter (p_lock x))%Z).
Proof.
  unfold wf_proc. destruct (rwMutex _) as [|k|].
  - intros (-> & -> & _). split; [lia|]. split; [done|lia].
  - by intros (_ & _ & ? & _ & ? & _).
  - intros [(_ & -> & ->)|(_ & -> & -> & _)]; (split; [lia|]; split; (done || lia)).
Qed.

(** A process in which nobody waits and nobody holds the lock has released the
    mutex. *)
Lemma wf_released x : wf_proc x → p_wait x = [] → counter (p_lock x) = 0%Z → locked (p_lock x) = false ∧ rwMutex (p_lock x) = MFree.
Proof.
  intros Hx Hw Hc. split.
  - destruct (wf_counter _ Hx) as [_ Hl]. destruct (locked _); [|done]. assert (true = true) as ?%Hl by done. lia.
  - unfold wf_proc in Hx. rewrite Hw, Hc in Hx. destruct (rwMutex _) as [|k|]; [done| |].
    + destruct Hx as (? & Hk & _). simpl in Hk. lia.
    + by destruct Hx as [(? & _)|(_ & ? & _)].
Qed.

Lemma load_idle j p : wf_proc (s_procs (j_sys j) p) → load (s_procs (j_sys j) p) (j_pend j p) = 0 → idle j p.
Proof.
  intros Hx. destruct (wf_counter _ Hx) as [Hc _]. unfold load, idle. destruct (j_pend j p); simpl; [|lia].
  destruct (p_wait _) eqn:E; simpl; [|lia]. intros Hz. assert (counter (p_lock (s_procs (j_sys j) p)) = 0%Z) as E0 by lia.
  by destruct (wf_released _ Hx E E0).
Qed.

(** Only the process that makes a step has less to do. *)
Lemma sum_change (l : list nat) (f g : nat → nat) p :
  NoDup l → (∀ q, q ≠ p → f q = g q) →
  sum_list_with f l + (if decide (p ∈ l) then g p else 0) = sum_list_with g l + (if decide (p ∈ l) then f p else 0).
Proof.
  intros Hnd Hfg. induction Hnd as [|q l Hq Hnd IH]; simpl; [done|]. destruct (decide (q = p)) as [->|Hne].
  - rewrite !(decide_True (P := p ∈ p :: l)) by left. rewrite !decide_False in IH by done. lia.
  - rewrite (Hfg q Hne). assert (p ∈ q :: l ↔ p ∈ l) as Heq by (rewrite elem_of_cons; naive_solver).
    destruct (decide (p ∈ l)); [rewrite !decide_True by (by apply Heq)|rewrite !decide_False by (by rewrite Heq)]; lia.
Qed.

Lemma total_change j j' p :
  (p < n)%nat → (∀ q, q ≠ p → s_procs (j_sys j') q = s_procs (j_sys j) q ∧ j_pend j' q = j_pend j q) →
  total j' + load (s_procs (j_sys j) p) (j_pend j p) = total j + load (s_procs (j_sys j') p) (j_pend j' p).
Proof.
  intros Hp Hq. pose proof (sum_change (seq 0 n) (λ q, load (s_procs (j_sys j') q) (j_pend j' q))
    (λ q, load (s_procs (j_sys j) q) (j_pend j q)) p (NoDup_seq 0 n)) as E.
  rewrite !decide_True in E by (apply elem_of_seq; lia). apply E. intros q Hne. by destruct (Hq q Hne) as [-> ->].
Qed.

Lemma finish_faults t w l w' l' : w_faults w = [] → lock_finish t (w, l) = ((w', l'), Ret tt) → w_faults w' = [].
Proof.
  intros Hw. unfold lock_finish, getL, gets, modL, modify, onWorld, zoom, try, LockFileHandle, mbind, M_bind. simpl. case_decide; simpl; [|by intros [= <-]].
  destruct (openLock_ok (file l) w Hw) as (w1 & -> & Hw1 & _). simpl. rewrite Hw1. simpl. by intros [= <- _].
Qed.

Lemma finish_runs t w l : w_faults w = [] → ∃ w' l', lock_finish t (w, l) = ((w', l'), Ret tt).
Proof.
  intros Hw. unfold lock_finish, getL, gets, modL, modify, onWorld, zoom, try, LockFileHandle, mbind, M_bind. simpl. case_decide; simpl; [|by eauto].
  destruct (openLock_ok (file l) w Hw) as (w1 & -> & Hw1 & _). simpl. rewrite Hw1. simpl. by eauto.
Qed.

(** A free mutex lets any request begin. *)
Lemma begin_runs t w l : rwMutex l = MFree → ∃ l', lock_begin t (w, l) = ((w, l'), Ret tt).
Proof.
  intros Hm. unfold lock_begin, getL, gets, modL, modify, mbind, M_bind. simpl. rewrite Hm. destruct t; simpl; by eauto.
Qed.

(** The process that makes a step is not idle. *)
Lemma settled_busy j p : settled j → ¬ idle j p → (p < n)%nat.
Proof. intros [_ _ Ho] Hq. destruct (decide (p < n)%nat); [done|]. destruct Hq. apply Ho. lia. Qed.

(** One step of process [p], which is not idle before. *)
Lemma settled_next j j' p :
  settled j → ¬ idle j p → sys_inv (j_sys j') → w_faults (s_world (j_sys j')) = [] →
  (∀ q, q ≠ p → s_procs (j_sys j') q = s_procs (j_sys j) q ∧ j_pend j' q = j_pend j q) →
  (load (s_procs (j_sys j') p) (j_pend j' p) < load (s_procs (j_sys j) p) (j_pend j p))%nat →
  settled j' ∧ (total j' < total j)%nat.
Proof.
  intros Hs Hb Hi Hw Hq Hlt. pose proof (settled_busy j p Hs Hb) as Hp. split; [|pose proof (total_change j j' p Hp Hq); lia].
  split; [done..|]. intros q Hn. destruct (Hq q) as [E1 E2]; [lia|]. unfold idle. rewrite E1, E2. by apply (st_others _ Hs).
Qed.

Lemma drain_settled j j' : settled j → drain j j' → settled j' ∧ (total j' < total j)%nat.
Proof.
  intros Hs Hd. pose proof (step_inv _ _ (st_inv _ Hs) (drain_step _ _ Hd)) as Hi. pose proof (st_inv _ Hs) as [Hwf _].
  destruct Hd as [s pend p t pre suf w' l' Hp Hb|s pend p t pre suf w' l' Hw Hg Hf|s pend p w' l' Hc Hu]; simpl in *;
    (apply (settled_next _ _ p); [done| |done| | |]; simpl;
      [unfold idle; simpl; intros (E1 & E2 & E3 & _)| |by intros q Hq; unfold upd, updP; rewrite ?decide_False|
       unfold upd, updP, load; rewrite ?decide_True by done; simpl]).
  - rewrite Hp in E1. by destruct pre.
  - apply lock_begin_run in Hb as (m' & _ & -> & _). apply Hs.
  - apply lock_begin_run in Hb as (m' & _ & _ & ->). rewrite Hp, !length_app. simpl. lia.
  - rewrite Hw in E2. by destruct pre.
  - eapply finish_faults; [apply Hs|done].
  - apply lock_finish_run in Hf. destruct (wf_counter _ (Hwf p)) as [Hc0 _]. rewrite Hw, !length_app. simpl.
    assert (counter l' = counter (p_lock (s_procs s p)) + 1)%Z as -> by (rewrite Hf; done). lia.
  - lia.
  - pose proof (Hwf p) as Hx. destruct (s_procs s p) as [l wait]. simpl in *.
    destruct (wf_unlock (s_world s) l wait Hx Hc) as (l0 & Eu & _). rewrite Eu in Hu. simplify_eq. apply Hs.
  - destruct (wf_counter _ (Hwf p)) as [_ Hl]. assert (locked (p_lock (s_procs s p)) = true) as Hlk by (by apply Hl).
    rewrite Unlock_run in Hu by (done || lia). simpl in Hu.
    assert (counter l' = counter (p_lock (s_procs s p)) - 1)%Z as -> by (repeat case_match; simplify_eq; done). lia.
Qed.

(** Whoever is not done yet can go on, or somebody else can. *)
Lemma drain_progress j p : settled j → ¬ idle j p → ∃ j', drain j j'.
Proof.
  intros Hs Hq. pose proof (st_inv _ Hs) as [Hwf _]. destruct j as [s pend]. simpl in *.
  destruct (decide (Exists (λ q, (0 < counter (p_lock (s_procs s q)))%Z) (seq 0 n))) as [[q [_ Hc]]%Exists_exists|Hno].
  { pose proof (Hwf q) as Hwq. destruct (s_procs s q) as [l wait] eqn:Ex. destruct (wf_unlock (s_world s) l wait Hwq Hc) as (l' & Eu & _).
    eexists. apply (drain_unlock s pend q (s_world s) l'); by rewrite Ex. }
  assert (∀ q, counter (p_lock (s_procs s q)) = 0%Z) as Hzero.
  { intros q. destruct (wf_counter _ (Hwf q)) as [Hc _]. destruct (decide (counter (p_lock (s_procs s q)) = 0%Z)); [done|]. destruct Hno.
    apply Exists_exists. exists q. split; [|lia]. apply elem_of_seq. enough (q < n)%nat by lia.
    apply (settled_busy (mkJam s pend)); [done|]. by intros (_ & _ & E & _). }
  destruct (p_wait (s_procs s p)) as [|t suf] eqn:Ew.
  - destruct (wf_released _ (Hwf p) Ew (Hzero p)) as [Hl Hm]. destruct (pend p) as [|t suf] eqn:Ep; [by destruct Hq|].
    destruct (begin_runs t (s_world s) _ Hm) as (l' & Eb). eexists. by apply (drain_begin s pend p t [] suf (s_world s) l').
  - destruct (finish_runs t (s_world s) (p_lock (s_procs s p)) (st_faults _ Hs)) as (w' & l' & Ef).
    eexists. apply (drain_finish s pend p t [] suf w' l'); [done| |done]. intros _ q _.
    destruct (wf_counter _ (Hwf q)) as [_ Hl]. rewrite Hl, (Hzero q). lia.
Qed.

(** C9: Whatever the goroutines and processes have done, where finitely many
    processes hold the lock file, wait for it, or have further requests blocked
    on their in-process mutexes: once no new request is made and as long as no
    system call fails, every schedule of the blocked, the waiting and the holding
    goroutines ends and none gets stuck, and at its end no request is blocked on a
    mutex or waits for the file lock, nobody holds it and every in-process mutex
    is free. *)
Theorem lock_progress s pend :
  reachable s → w_faults (s_world s) = [] →
  (∀ p, (n ≤ p)%nat → idle (mkJam s pend) p) →
  eventually (λ j, ∀ p, j_pend j p = [] ∧ p_wait (s_procs (j_sys j) p) = [] ∧
                        locked (p_lock (s_procs (j_sys j) p)) = false ∧ rwMutex (p_lock (s_procs (j_sys j) p)) = MFree) (mkJam s pend).
Proof.
  intros Hr Hf Ho. assert (settled (mkJam s pend)) as Hs by (split; [by apply reachable_inv|done..]). clear Hr Hf Ho.
  revert Hs. generalize (mkJam s pend) as j. intros j Hs.
  remember (total j) as k eqn:Ek. revert j Hs Ek. induction (lt_wf k) as [k _ IH]. intros j Hs ->.
  destruct (decide (Exists (λ p, load (s_procs (j_sys j) p) (j_pend j p) ≠ 0) (seq 0 n))) as [[p [_ Hp]]%Exists_exists|Hno].
  - apply ev_later.
    + apply (drain_progress j p Hs). intros (E1 & E2 & E3 & _). apply Hp. unfold load. by rewrite E1, E2, E3.
    + intros j' Hd. destruct (drain_settled _ _ Hs Hd) as [Hs' Hlt]. by eapply IH.
  - apply ev_now. intros p. assert (idle j p) as (? & ? & _ & ? & ?); [|done]. destruct (decide (n ≤ p)%nat); [by apply Hs|].
    apply load_idle; [apply Hs|]. destruct (decide (load (s_procs (j_sys j) p) (j_pend j p) = 0)); [done|]. destruct Hno. apply Exists_exists. exists p.
    split; [apply elem_of_seq; lia|done].
Qed.
End Progress.

(** One process waits for the lock that another one holds; in the first one
    another goroutine is blocked on the mutex. *)
Lemma lock_progress_witness :
  ∃ s, p_wait (s_procs s 1) = [WriteLock] ∧ locked (p_lock (s_procs s 0)) = true ∧
    eventually (λ j, ∀ p, j_pend j p = [] ∧ p_wait (s_procs (j_sys j) p) = [] ∧
                          locked (p_lock (s_procs (j_sys j) p)) = false ∧ rwMutex (p_lock (s_procs (j_sys j) p)) = MFree)
      (mkJam s (λ p, if decide (p = 1) then [ReadLock] else [])).
Proof.
  pose (l0 := mkLockFile "/s/x.lock" false MFree 0 (mkLastWrite None) WriteLock false).
  pose (s0 := mkSys demo_world (λ _, mkProc l0 [])).
  pose (l1 := set_rwMutex MWriter l0).
  pose (s1 := mkSys demo_world (upd (s_procs s0) 0 (mkProc l1 [WriteLock]))).
  destruct (lock_finish WriteLock (demo_world, l1)) as [[w2 l2] o] eqn:E.
  assert (o = Ret tt) as -> by (vm_compute in E; by injection E).
  pose (s2 := mkSys w2 (upd (s_procs s1) 0 (mkProc l2 []))).
  pose (s3 := mkSys w2 (upd (s_procs s2) 1 (mkProc l1 [WriteLock]))).
  assert (reachable s3) as Hr.
  { exists s0. split; [by intros p|]. eapply rtc_l; [by apply (step_begin s0 0 WriteLock)|].
    eapply rtc_l; [|eapply rtc_once; by apply (step_begin s2 1 WriteLock)]. apply (step_finish s1 0 WriteLock [] []); [done| |done].
    intros _ q Hq Hl. simpl in Hl. unfold upd in Hl. by rewrite decide_False in Hl. }
  pose proof (lock_finish_run _ _ _ _ _ E) as Hl2. pose proof (finish_faults _ demo_world _ _ _ eq_refl E) as Hf.
  exists s3. split; [done|]. split; [simpl; by rewrite Hl2|]. apply (lock_progress 2 s3 _ Hr Hf).
  intros p Hp. unfold idle. simpl. unfold upd. rewrite !decide_False by lia. done.
Defined.
