(* ===== verification/FsWriters.v ===== *)
(** * storage/pkg/ioutils/fswriters.go: atomic replacement of a file

    The writer behind [AtomicWriteFile], as on Linux ([fswriters_linux.go]):
    the data go to a temporary file, which is flushed and renamed.  The other
    components use the one-step [World.AtomicWriteFileWithOpts]; the theorems
    here justify that.  File modes are not modelled. *)

From S2P Require Import Prelude World LockFile.

Local Open Scope string_scope.

Record AtomicFileWriterOptions := mkWriterOptions { NoSync : bool; ExplicitCommit : bool }.

(** The fields that change; [f] is the name of the open temporary file. *)
Record atomicFileWriter := mkWriter {
  f : string;
  fn : string;
  writeErr : option error;
  noSync : bool;
  modTime : Z;
  closed : bool;
  explicitCommit : bool
}.

Definition set_writeErr (e : option error) (w : atomicFileWriter) : atomicFileWriter :=
  mkWriter (f w) (fn w) e (noSync w) (modTime w) (closed w) (explicitCommit w).
Definition set_modTime (t : Z) (w : atomicFileWriter) : atomicFileWriter :=
  mkWriter (f w) (fn w) (writeErr w) (noSync w) t (closed w) (explicitCommit w).
Definition set_closed (b : bool) (w : atomicFileWriter) : atomicFileWriter :=
  mkWriter (f w) (fn w) (writeErr w) (noSync w) (modTime w) b (explicitCommit w).

(** ** os.File *)

(** [os.File.Write]: the number of bytes written, with an error if some
    are missing. *)
Definition file_Write (p dt : string) : M World (nat * option error) :=
  x ← pop_fault;
  match x with
  | NoFault =>
      _ ← modify (λ w, put_file false p (default "" (w_files w !! p) +:+ dt) w);
      mret (String.length dt, None)
  | FailWith e => mret (0, Some (ErrOS e))
  | Short n =>
      _ ← modify (λ w, put_file false p (default "" (w_files w !! p) +:+ String.substring 0 n dt) w);
      mret (Nat.min n (String.length dt), Some (ErrOS ENOSPC))
  | Kill => stop Killed
  end.

(** [unix.Fdatasync], [os.File.Stat], [Chmod] and [Close]. *)
Definition file_Fdatasync (p : string) : M World unit :=
  syscall (modify (λ w, set_meta (set_synced ({[p]} ∪ m_synced (w_meta w)) (w_meta w)) w)).
Definition file_ModTime (p : string) : M World Z :=
  syscall (gets (λ w, default 0%Z (m_mtimes (w_meta w) !! p))).
Definition file_Chmod (p : string) : M World unit := syscall (mret tt).
Definition file_Close (p : string) : M World unit := syscall (mret tt).

Section Writer.
(** The current directory, and the package variable [defaultWriterOptions]. *)
Context (cwd : string) (defaultWriterOptions : AtomicFileWriterOptions).

Definition filepath_Abs (p : string) : M World string :=
  if rooted p then mret (filepath_Clean p) else syscall (mret (filepath_Join [cwd; p])).

Definition newAtomicFileWriter (filename : string) (opts : option AtomicFileWriterOptions)
    : M World atomicFileWriter :=
  f ← os_CreateTemp (filepath_Dir filename) (".tmp-" +:+ filepath_Base filename);
  let opts := default defaultWriterOptions opts in
  abspath ← filepath_Abs filename;
  mret (mkWriter f abspath None (NoSync opts) 0 false (ExplicitCommit opts)).

Notation St := (World * atomicFileWriter)%type.

Definition io {A} (m : string → M World A) : M St A := λ s,
  let '(w, o) := m (f (snd s)) (fst s) in ((w, snd s), o).
Definition upd_writer (g : atomicFileWriter → atomicFileWriter) : M St unit :=
  modify (λ s, (fst s, g (snd s))).
Definition field {A} (g : atomicFileWriter → A) : M St A := gets (λ s, g (snd s)).

(** The error of a call as a value. *)
Definition err_of {S} (m : M S unit) : M S (option error) :=
  r ← try m; mret (match r with inl _ => None | inr e => Some e end).

Definition Write (dt : string) : M St (nat * option error) :=
  r ← io (λ p, file_Write p dt);
  match r with
  | (n, None) => mret (n, None)
  | (n, Some err) => _ ← upd_writer (set_writeErr (Some err)); mret (n, Some err)
  end.

Definition closeTempFile : M St unit :=
  c ← field closed;
  if (c : bool) then mret tt else _ ← upd_writer (set_closed true); io file_Close.

Definition postDataWrittenSync : M St unit :=
  n ← field noSync;
  if (n : bool) then mret tt else io file_Fdatasync.

Definition preRenameSync : M St unit := mret tt.

Definition commitState : M St unit :=
  _ ← postDataWrittenSync;
  t ← io file_ModTime;
  _ ← upd_writer (set_modTime t);
  _ ← io file_Chmod;
  _ ← preRenameSync;
  _ ← closeTempFile;
  e ← field writeErr;
  match e with
  | None => dst ← field fn; io (λ p, os_Rename p dst)
  | Some _ => mret tt
  end.

Definition complete (commit : bool) : M St unit :=
  c ← field closed;
  if (c : bool) then mret tt
  else
    retErr ← err_of (if commit then commitState else mret tt);
    err ← err_of closeTempFile;
    we ← field writeErr;
    _ ← (match retErr, we with
         | None, None => mret None
         | _, _ => err_of (io os_Remove)
         end);
    match (match retErr with None => err | _ => retErr end) with
    | Some e => fail e
    | None => mret tt
    end.

Definition Close : M St unit := e ← field explicitCommit; complete (negb e).

Definition Commit : M St unit := complete true.

(** Running methods of a new writer. *)
Definition with_writer {A} (wr : atomicFileWriter) (m : M St A) : M World A := λ w,
  let '(s, o) := m (w, wr) in (fst s, o).

Definition write_and_close (data : string) : M St Z :=
  r ← Write data;
  err ← (match r with
         | (n, None) => if decide (n < String.length data)
                        then _ ← upd_writer (set_writeErr (Some (ErrOther "short write")));
                             mret (Some (ErrOther "short write"))
                        else mret None
         | (_, e) => mret e
         end);
  err1 ← err_of Close;
  match (match err with None => err1 | _ => err end) with
  | Some e => fail e
  | None => field modTime
  end.

(** The result is [opts.ModTime] after the call. *)
Definition AtomicWriteFileWithOpts (filename data : string) (opts : option AtomicFileWriterOptions)
    : M World Z :=
  wr ← newAtomicFileWriter filename opts;
  with_writer wr (write_and_close data).

Definition AtomicWriteFile (filename data : string) : M World unit :=
  _ ← AtomicWriteFileWithOpts filename data None; mret tt.

(** ** AtomicWriteSet *)

Record AtomicWriteSet := mkWriteSet { root : string }.

Definition os_MkdirTemp (dir pattern : string) : M World string :=
  r ← nextRandom;
  let name := dir +:+ "/" +:+ pattern +:+ r in
  syscall (_ ← modify (λ w, set_dirs ({[name]} ∪ w_dirs w) w); mret name).

Definition NewAtomicWriteSet (tmpDir : string) : M World AtomicWriteSet :=
  td ← os_MkdirTemp tmpDir "write-set-"; mret (mkWriteSet td).

(** [syncFileCloser.Close]: the test of [NoSync] is the wrong way round. *)
Definition syncFileCloser_Close (p : string) : M World unit :=
  if negb (NoSync defaultWriterOptions) then file_Close p
  else
    err ← err_of (file_Fdatasync p);
    err1 ← err_of (file_Close p);
    match (match err with None => err1 | _ => err end) with Some e => fail e | None => mret tt end.

(** [FileWriter] with [O_WRONLY|O_CREATE|O_TRUNC]; the open file's name. *)
Definition FileWriter (ws : AtomicWriteSet) (name : string) : M World string :=
  let p := filepath_Join [root ws; name] in
  syscall (_ ← modify (put_file false p ""); mret p).

Definition WriteFile (ws : AtomicWriteSet) (filename data : string) : M World unit :=
  p ← FileWriter ws filename;
  r ← file_Write p data;
  let err := match r with
             | (n, None) => if decide (n < String.length data) then Some (ErrOther "short write") else None
             | (_, e) => e
             end in
  err1 ← err_of (syncFileCloser_Close p);
  match (match err with None => err1 | _ => err end) with Some e => fail e | None => mret tt end.

Definition Cancel (ws : AtomicWriteSet) : M World unit := os_RemoveAll (root ws).

Definition CommitSet (ws : AtomicWriteSet) (target : string) : M World unit := os_Rename (root ws) target.
End Writer.
(** ** Creating the temporary file *)

(** Only the file [tmp], which was not there, may differ. *)
Definition only_new (tmp : string) (w w' : World) : Prop :=
  w_files w !! tmp = None ∧ w_dirs w' = w_dirs w ∧ ∀ q, q ≠ tmp → w_files w' !! q = w_files w !! q.

Lemma only_new_same w w' :
  w_files w' = w_files w → w_dirs w' = w_dirs w → ∃ tmp, only_new tmp w w'.
Proof.
  intros Hf Hd. exists (fresh (dom (w_files w))). split; [|by rewrite Hf].
  apply not_elem_of_dom, is_fresh.
Qed.

Lemma only_new_trans tmp w1 w2 w3 :
  only_new tmp w1 w2 → w_dirs w3 = w_dirs w2 → (∀ q, q ≠ tmp → w_files w3 !! q = w_files w2 !! q) →
  only_new tmp w1 w3.
Proof. intros (Hn & Hd & Hf) Hd' Hf'. split; [done|]. split; [congruence|]. intros q Hq. by rewrite Hf', Hf. Qed.

Lemma create_temp_wp tries prefix w :
  wp (create_temp tries prefix) (λ o w',
    match o with
    | Ret name => w_files w !! name = None ∧ w_files w' = <[name := ""]> (w_files w) ∧ w_dirs w' = w_dirs w
    | Err _ => w_files w' = w_files w ∧ w_dirs w' = w_dirs w
    | Crash c => w_files w' = w_files w ∧ w_dirs w' = w_dirs w ∧ c = Killed
    end) w.
Proof.
  revert w. induction tries as [|tries IH]; intros w; cbn [create_temp]; [by apply wp_fail|].
  wp_step. unfold nextRandom, rand_read. wp_step. unfold wp at 1. cbv beta. cbn [fst snd]. wp_step.
  set (w1 := set_randpos _ w). set (name := prefix +:+ _).
  wp_step. wp_step. apply wp_syscall; [intros e l|done|intros l].
  { cbv beta iota. case_decide; [|by wp_step]. by apply (IH (set_faults l w1)). }
  wp_step. wp_step. simpl. case_decide as Hex.
  { wp_step. rewrite decide_True by done. apply (IH (set_faults l w1)). }
  case_decide as Hd; wp_step.
  - wp_step. simpl. split; [|done]. destruct (w_files w !! name) eqn:E; [|done]. destruct Hex. left. by eexists.
  - rewrite decide_False by done. by wp_step.
Qed.

(** ** The writer *)

Section WriterFacts.
Context (w0 : World) (tmp : string).
Notation St := (World * atomicFileWriter)%type.
Implicit Types (s : St).

(** The temporary file holds [d]; nothing else differs from [w0]. *)
Definition holds (d : string) (s : St) : Prop :=
  only_new tmp w0 (fst s) ∧ f (snd s) = tmp ∧ w_files (fst s) !! tmp = Some d.

Lemma holds_meta d m l s wr :
  holds d s → f wr = tmp → holds d (set_meta m (set_faults l (fst s)), wr).
Proof. by intros ((? & ? & ?) & ? & ?). Qed.

Lemma holds_faults d l s : holds d s → holds d (set_faults l (fst s), snd s).
Proof. done. Qed.

Lemma holds_put d b d' l s wr :
  holds d s → f wr = tmp → holds d' (put_file b tmp d' (set_faults l (fst s)), wr).
Proof.
  intros ((Hn & Hd & Hf) & Hw & Ht) Hwr. split; [|split; [done|by apply lookup_insert_eq]].
  split; [done|]. split; [done|]. intros q Hq. simpl. rewrite lookup_insert_ne by done. by apply Hf.
Qed.

Lemma wp_io {A} (m : string → M World A) (Φ : outcome A → St → Prop) s :
  wp (m (f (snd s))) (λ o w, Φ o (w, snd s)) (fst s) → wp (io m) Φ s.
Proof. unfold wp, io. by destruct (m _ _). Qed.

Lemma Write_wp data s :
  holds "" s → writeErr (snd s) = None →
  wp (Write data) (λ o s', ∃ d, holds d s' ∧ fn (snd s') = fn (snd s) ∧ noSync (snd s') = noSync (snd s) ∧
    closed (snd s') = closed (snd s) ∧ explicitCommit (snd s') = explicitCommit (snd s) ∧
    match o with
    | Ret (n, None) => n = String.length data ∧ d = data ∧ writeErr (snd s') = None
    | Ret (_, Some _) => writeErr (snd s') ≠ None
    | Err _ => False
    | Crash c => c = Killed
    end) s.
Proof.
  intros Hh Hwe. pose proof Hh as (_ & Hf & Ht). unfold Write, upd_writer. wp_step. apply wp_io. unfold file_Write. wp_step.
  apply wp_pop_fault; [|intros l; exists ""; split; [by apply holds_faults|done]].
  intros [|e|n|] l; cbv beta iota.
  - wp_step. wp_step. wp_step. simpl. wp_step. exists data. rewrite Hf, Ht. simpl.
    split; [by eapply holds_put|done].
  - wp_step. simpl. wp_step. wp_step. simpl. wp_step. exists "". split; [by apply holds_faults|done].
  - wp_step. wp_step. wp_step. simpl. wp_step. wp_step. simpl. wp_step. eexists. rewrite Hf, Ht. simpl.
    split; [by eapply holds_put|done].
  - wp_step. exists "". split; [by apply holds_faults|done].
Qed.

(** A system call that changes nothing. *)
Definition quiet {A} (w : World) (o : outcome A) (w' : World) : Prop :=
  (∃ l, w' = set_faults l w) ∧ match o with Crash c => c = Killed | _ => True end.

Lemma quiet_syscall {A} (a : World → A) w : wp (syscall (gets a)) (quiet w) w.
Proof. unfold quiet. apply wp_syscall; eauto. intros l. apply wp_gets. eauto. Qed.

Lemma quiet_syscall_ret {A} (a : A) w : wp (syscall (mret a)) (quiet w) w.
Proof. apply (quiet_syscall (λ _, a)). Qed.

Lemma closeTempFile_wp s :
  wp closeTempFile (λ o s', ∃ l, fst s' = set_faults l (fst s) ∧
    snd s' = (if closed (snd s) then snd s else set_closed true (snd s)) ∧
    match o with Ret _ => True | Err _ => closed (snd s) = false | Crash c => closed (snd s) = false ∧ c = Killed end) s.
Proof.
  unfold closeTempFile, field, upd_writer. wp_step. wp_step. simpl. destruct (closed (snd s)) eqn:Ec.
  - wp_step. exists (w_faults (fst s)). split; [by destruct (fst s)|]. done.
  - wp_step. wp_step. simpl. apply wp_io. eapply wp_mono; [apply quiet_syscall_ret|].
    intros o w' [[l ->] Ho]. exists l. by destruct o.
Qed.
(** The file [dst] has become [d]; the temporary file is gone. *)
Definition published (d : string) (s0 s : St) : Prop :=
  let dst := fn (snd s0) in
  w_files (fst s) = <[dst := d]> (delete tmp (w_files (fst s0))) ∧ w_dirs (fst s) = w_dirs (fst s0) ∧
  m_mtimes (w_meta (fst s)) !! dst = Some (modTime (snd s)) ∧
  (noSync (snd s0) = false → dst ∈ m_synced (w_meta (fst s))).

Lemma rename_wp d s :
  holds d s →
  wp (dst ← field fn; io (λ p, os_Rename p dst)) (λ o s',
    match o with
    | Ret _ => ∃ l, s' = (move_file tmp (fn (snd s)) d (set_faults l (fst s)), snd s)
    | Err _ => ∃ l, s' = (set_faults l (fst s), snd s)
    | Crash c => c = Killed ∧ ∃ l, s' = (set_faults l (fst s), snd s)
    end) s.
Proof.
  intros (_ & Hf & Ht). unfold field. wp_step. wp_step. apply wp_io. rewrite Hf. unfold os_Rename.
  apply wp_syscall; [by eauto|by eauto|]. intros l. wp_step. wp_step. simpl. rewrite Ht.
  case_decide; wp_step; eauto.
Qed.

Lemma sync_wp d s :
  holds d s →
  wp postDataWrittenSync (λ o s', holds d s' ∧ snd s' = snd s ∧ w_files (fst s') = w_files (fst s) ∧
    match o with
    | Ret _ => noSync (snd s) = false → tmp ∈ m_synced (w_meta (fst s'))
    | Err _ => True
    | Crash c => c = Killed
    end) s.
Proof.
  intros Hh. unfold postDataWrittenSync, field. wp_step. wp_step. simpl.
  destruct (noSync (snd s)) eqn:En; [by wp_step|].
  apply wp_io. unfold file_Fdatasync. apply wp_syscall; [done|done|]. intros l. wp_step. split; [|split; [done|]].
  - apply holds_meta; [done|]. apply Hh.
  - split; [done|]. intros _. simpl. destruct Hh as (_ & -> & _). set_solver.
Qed.

Lemma commitState_wp d s :
  holds d s → closed (snd s) = false →
  wp commitState (λ o s', match o with
    | Ret _ => closed (snd s') = true ∧ writeErr (snd s') = writeErr (snd s) ∧
               (match writeErr (snd s) with None => published d s s' | Some _ => holds d s' end)
    | Err _ => holds d s' ∧ writeErr (snd s') = writeErr (snd s)
    | Crash c => holds d s' ∧ c = Killed
    end) s.
Proof.
  intros Hh Hc. unfold commitState. wp_step. eapply wp_mono; [by apply sync_wp|].
  intros [[]|e|c] [w1 wr1] (Hh1 & E1 & Ef1 & Hs1); simpl in E1; subst wr1; [|done|done].
  wp_step. apply wp_io. unfold file_ModTime. apply wp_syscall; [done|done|]. intros l1. wp_step.
  unfold upd_writer. wp_step. wp_step. wp_step. apply wp_io. unfold file_Chmod.
  apply wp_syscall; [done|done|]. intros l2. wp_step. unfold preRenameSync. wp_step. wp_step. wp_step.
  cbn [fst snd] in *. pose proof Hh1 as (_ & Hf & _). cbn [snd] in Hf. rewrite Hf.
  eapply wp_mono; [apply closeTempFile_wp|].
  simpl. rewrite Hc. intros o [w3 wr3] (l3 & Ew & Ewr & Ho). simpl in Ew, Ewr. subst w3 wr3.
  destruct o as [[]|e|c]; [|done|by destruct Ho].
  wp_step. unfold field at 1. wp_step. simpl.
  destruct (writeErr (snd s)) eqn:Ewe; [by wp_step|].
  eapply wp_mono; [by apply (rename_wp d)|]. intros [[]|e|c] s4; simpl.
  - intros [l ->]. split; [done|]. split; [done|]. split; [simpl; by rewrite Ef1|]. simpl in *. split_and!.
    + destruct Hh as ((_ & Ed & _) & _), Hh1 as ((_ & Ed1 & _) & _). simpl in *. congruence.
    + apply lookup_insert_eq.
    + intros En. rewrite decide_True by auto. set_solver.
  - by intros [l ->].
  - by intros [-> [l ->]].
Qed.

Lemma published_faults d l s0 s : published d s0 s → published d s0 (set_faults l (fst s), snd s).
Proof. done. Qed.

Lemma wp_err_of (m : M St unit) (Φ : outcome (option error) → St → Prop) s :
  wp m (λ o s', match o with
                | Ret _ => Φ (Ret None) s'
                | Err e => Φ (Ret (Some e)) s'
                | Crash c => Φ (Crash c) s'
                end) s → wp (err_of m) Φ s.
Proof.
  intros HΦ. unfold err_of. wp_step. wp_step. eapply wp_mono; [exact HΦ|].
  intros [[]|e|c] s' Hs; simpl; [by wp_step|by wp_step|done].
Qed.

Lemma remove_wp d s :
  holds d s →
  wp (err_of (io os_Remove)) (λ o s', only_new tmp w0 (fst s') ∧ snd s' = snd s ∧
    match o with Ret _ => True | Err _ => False | Crash c => c = Killed end) s.
Proof.
  intros ((Hn & Hd & Hq) & Hf & Ht). apply wp_err_of, wp_io. rewrite Hf. unfold os_Remove.
  apply wp_syscall; [done|done|]. intros l. wp_step. wp_step. simpl. rewrite decide_True by (by eexists).
  wp_step. split; [|done]. split; [done|]. split; [done|]. intros q Hne. simpl.
  rewrite lookup_delete_ne by done. by apply Hq.
Qed.

Lemma complete_wp d s :
  holds d s → closed (snd s) = false →
  wp (complete true) (λ o s', match o with
    | Ret _ => match writeErr (snd s) with None => published d s s' | Some _ => only_new tmp w0 (fst s') end
    | Err _ => only_new tmp w0 (fst s')
    | Crash c => only_new tmp w0 (fst s') ∧ c = Killed
    end) s.
Proof.
  intros Hh Hc. unfold complete, field. wp_step. wp_step. rewrite Hc. wp_step. apply wp_err_of.
  eapply wp_mono; [by apply (commitState_wp d)|].
  intros [[]|e|c] s1; [| |intros [[? _] ?]; done].
  - intros (Hc1 & Hwe & Hs1). wp_step. apply wp_err_of. eapply wp_mono; [apply closeTempFile_wp|].
    rewrite Hc1. intros o [w2 wr2] (l & Ew & Ewr & Ho). simpl in Ew, Ewr. subst w2 wr2.
    destruct o as [[]|e|c]; [|done|by destruct Ho].
    wp_step. wp_step. wp_step. simpl. rewrite Hwe. destruct (writeErr (snd s)) as [e|] eqn:Ewe.
    + eapply wp_mono; [by apply (remove_wp d), holds_faults|].
      intros [r|e'|c] s3 (Ho3 & _ & Hk); [by wp_step|done|done].
    + wp_step. by wp_step.
  - intros (Hh1 & Hwe). wp_step. apply wp_err_of. eapply wp_mono; [apply closeTempFile_wp|].
    intros o [w2 wr2] (l & Ew & Ewr & Ho). simpl in Ew, Ewr. subst w2.
    assert (holds d (set_faults l (fst s1), wr2)) as Hh2.
    { destruct Hh1 as (? & ? & ?). subst wr2. split; [done|]. split; [|done]. simpl. by destruct (closed (snd s1)). }
    destruct o as [[]|e'|c]; [| |destruct Ho as [_ ->]; split; [apply Hh2|done]];
      (wp_step; wp_step; wp_step; eapply wp_mono; [by apply (remove_wp d)|];
       intros [r'|e''|c] s3 (Ho3 & _ & Hk); [by wp_step|done|done]).
Qed.

End WriterFacts.

(** ** Refinement of the one-step operation *)

Definition same_kind {A B} (o : outcome A) (o' : outcome B) : Prop :=
  match o, o' with
  | Ret _, Ret _ | Err _, Err _ => True
  | Crash c, Crash c' => c = c'
  | _, _ => False
  end.

Lemma write_and_close_wp w0 tmp data s :
  holds w0 tmp "" s → writeErr (snd s) = None → closed (snd s) = false → explicitCommit (snd s) = false →
  wp (write_and_close data) (λ o s', match o with
    | Ret t => w_files (fst s') = <[fn (snd s) := data]> (w_files w0) ∧ w_dirs (fst s') = w_dirs w0 ∧
               m_mtimes (w_meta (fst s')) !! fn (snd s) = Some t ∧
               (noSync (snd s) = false → fn (snd s) ∈ m_synced (w_meta (fst s')))
    | Err _ => only_new tmp w0 (fst s')
    | Crash c => only_new tmp w0 (fst s') ∧ c = Killed
    end) s.
Proof.
  intros Hh Hwe Hc Hec. unfold write_and_close. wp_step. eapply wp_mono; [by apply (Write_wp w0 tmp)|].
  intros o s1 (d & Hh1 & Efn & Ens & Ecl & Eec & Ho).
  assert (∀ r : option error, writeErr (snd s1) = None ∧ d = data ∧ r = None ∨ writeErr (snd s1) ≠ None ∧ r ≠ None →
    wp (err1 ← err_of Close; match (match r with None => err1 | _ => r end) with Some e => fail e | None => field modTime end)
      (λ o s', match o with
        | Ret t => w_files (fst s') = <[fn (snd s) := data]> (w_files w0) ∧ w_dirs (fst s') = w_dirs w0 ∧
                   m_mtimes (w_meta (fst s')) !! fn (snd s) = Some t ∧
                   (noSync (snd s) = false → fn (snd s) ∈ m_synced (w_meta (fst s')))
        | Err _ => only_new tmp w0 (fst s')
        | Crash c => only_new tmp w0 (fst s') ∧ c = Killed
        end) s1) as Hclose.
  { intros r Hr. wp_step. apply wp_err_of. unfold Close, field. wp_step. wp_step. rewrite Eec, Hec. simpl.
    eapply wp_mono; [apply (complete_wp w0 tmp d); [done|congruence]|].
    intros [[]|e|c] s2; [| |done].
    - destruct Hr as [(Hw1 & -> & ->)|[Hw1 Hr]].
      + rewrite Hw1. intros (Hf & Hd & Hm & Hs). wp_step. rewrite Efn, Ens in *.
        destruct Hh1 as ((Hn & Hdir & Hq) & Hft & Ht).
        split; [|split; [congruence|done]]. rewrite Hf. f_equal. apply map_eq. intros q.
        destruct (decide (q = tmp)) as [->|Hne]; [by rewrite lookup_delete_eq|].
        rewrite lookup_delete_ne by done. by apply Hq.
      + destruct (writeErr (snd s1)); [|done]. intros Hn. destruct r; [by wp_step|done].
    - intros Hn. destruct r; by wp_step. }
  destruct o as [[n [e|]]|e|c]; [| |done|].
  - wp_step. wp_step. apply (Hclose (Some e)). by right.
  - destruct Ho as (-> & -> & Hw1). wp_step. rewrite decide_False by lia. wp_step. apply (Hclose None). by left.
  - split; [apply Hh1|done].
Qed.

(** C36: For an absolute file name and without [ExplicitCommit],
    [AtomicWriteFileWithOpts] does what the one-step operation does: for
    every script of failures, interruptions and short writes there is one fault
    of a single step with the same kind of outcome and the same files, except
    that a run that does not succeed, with an error or killed, may leave one
    temporary file whose name was free.  So a file that exists is never lost,
    truncated or half-written and no other file changes; on success no temporary
    file stays, the reported time is the one of the file and, unless [NoSync] is
    set, the data were flushed before the file got its name. *)
Theorem AtomicWriteFile_refines cwd dflt filename data opts w :
  rooted filename = true → ExplicitCommit (default dflt opts) = false →
  let fn := filepath_Clean filename in
  let '(w', o) := AtomicWriteFileWithOpts cwd dflt filename data opts w in
  ∃ x tmp, let '(w1, o1) := World.AtomicWriteFileWithOpts (NoSync (default dflt opts)) fn data (set_faults [x] w) in
    same_kind o o1 ∧ w_dirs w' = w_dirs w1 ∧ w_files w !! tmp = None ∧
    (∀ q, q ≠ tmp → w_files w' !! q = w_files w1 !! q) ∧
    match o with
    | Ret t => w_files w' = w_files w1 ∧ m_mtimes (w_meta w') !! fn = Some t ∧
               (NoSync (default dflt opts) = false → fn ∈ m_synced (w_meta w'))
    | _ => True
    end.
Proof.
  intros Hroot Hec. apply run_wp. unfold AtomicWriteFileWithOpts, newAtomicFileWriter, filepath_Abs, os_CreateTemp.
  rewrite Hroot. set (fn := filepath_Clean filename).
  assert (∀ (o : outcome Z) w', (match o with Ret _ => False | Err _ => True | Crash c => c = Killed end) →
    (∃ tmp, only_new tmp w w') →
    ∃ x tmp, let '(w1, o1) := World.AtomicWriteFileWithOpts (NoSync (default dflt opts)) fn data (set_faults [x] w) in
    same_kind o o1 ∧ w_dirs w' = w_dirs w1 ∧ w_files w !! tmp = None ∧
    (∀ q, q ≠ tmp → w_files w' !! q = w_files w1 !! q) ∧
    match o with
    | Ret t => w_files w' = w_files w1 ∧ m_mtimes (w_meta w') !! fn = Some t ∧
               (NoSync (default dflt opts) = false → fn ∈ m_synced (w_meta w'))
    | _ => True
    end) as Hfail.
  { intros o w' Ho (tmp & Hn & Hd & Hq). destruct o as [t|e|c]; [done| |].
    - by exists (FailWith EIO), tmp.
    - subst c. by exists Kill, tmp. }
  wp_step. wp_step. eapply wp_mono; [apply create_temp_wp|].
  intros [tmp|e|c] w1; [|intros [? ?]; apply Hfail; [done|by apply only_new_same]|].
  2: { intros (? & ? & ->). apply Hfail; [done|by apply only_new_same]. }
  intros (Hn & Hf & Hd). wp_step. wp_step. wp_step. unfold wp, with_writer.
  pose proof (write_and_close_wp w tmp data (w1, mkWriter tmp fn None (NoSync (default dflt opts)) 0 false
    (ExplicitCommit (default dflt opts)))) as Hw. unfold wp in Hw.
  destruct (write_and_close data _) as [[w2 wr2] o]. simpl in *.
  assert (holds w tmp "" (w1, mkWriter tmp fn None (NoSync (default dflt opts)) 0 false
    (ExplicitCommit (default dflt opts)))) as Hh.
  { split; [|split; [done|simpl; rewrite Hf; apply lookup_insert_eq]]. split; [done|]. split; [done|].
    intros q Hq. simpl. by rewrite Hf, lookup_insert_ne. }
  specialize (Hw Hh eq_refl eq_refl Hec).
  destruct o as [t|e|c].
  - destruct Hw as (Hf2 & Hd2 & Hm & Hs). exists NoFault, tmp. simpl. rewrite Hf2. by split_and!.
  - apply Hfail; [done|]. by exists tmp.
  - apply Hfail; [apply Hw|]. exists tmp. apply Hw.
Qed.

Definition default_options : AtomicFileWriterOptions := mkWriterOptions false false.

(** An existing file, a write that is cut short, and the same write again. *)
Definition demo_file : World :=
  set_files {["/s/x" := "old"]} (set_faults [NoFault; Short 2] demo_world).

Lemma AtomicWriteFile_refines_witness :
  let '(w', o) := AtomicWriteFileWithOpts "/" default_options "/s/x" "new" None demo_file in
  o = Err (ErrOS ENOSPC) ∧ w_files w' = {["/s/x" := "old"]} ∧
  ∃ x tmp, let '(w1, o1) := World.AtomicWriteFileWithOpts false "/s/x" "new" (set_faults [x] demo_file) in
    same_kind o o1 ∧ w_dirs w' = w_dirs w1 ∧ w_files demo_file !! tmp = None ∧
    (∀ q, q ≠ tmp → w_files w' !! q = w_files w1 !! q).
Proof.
  pose proof (AtomicWriteFile_refines "/" default_options "/s/x" "new" None demo_file eq_refl eq_refl) as Hr.
  assert (fst (AtomicWriteFileWithOpts "/" default_options "/s/x" "new" None demo_file) =
          fst (AtomicWriteFileWithOpts "/" default_options "/s/x" "new" None demo_file)) as _ by reflexivity.
  assert (snd (AtomicWriteFileWithOpts "/" default_options "/s/x" "new" None demo_file) = Err (ErrOS ENOSPC)) as Ho
    by (vm_compute; reflexivity).
  assert (w_files (fst (AtomicWriteFileWithOpts "/" default_options "/s/x" "new" None demo_file)) = {["/s/x" := "old"]}) as Hf
    by (vm_compute; reflexivity).
  destruct (AtomicWriteFileWithOpts "/" default_options "/s/x" "new" None demo_file) as [w' o].
  cbn [fst snd] in Ho, Hf. split; [exact Ho|]. split; [exact Hf|].
  destruct Hr as (x & tmp & Hr). exists x, tmp.
  change (filepath_Clean "/s/x") with "/s/x" in Hr.
  destruct (World.AtomicWriteFileWithOpts _ _ _ _) as [w1 o1]. destruct Hr as (H1 & H2 & H3 & H4 & _).
  exact (conj H1 (conj H2 (conj H3 H4))).
Defined.

Lemma syscall_ret {A} (m : M World A) w w' a :
  syscall m w = (w', Ret a) → ∃ l, m (set_faults l w) = (w', Ret a).
Proof.
  unfold syscall, mbind, M_bind, pop_fault. destruct w as [fs d [|[] l] r ps cl pid c mt]; simpl; intros Hm; try done;
    eexists; exact Hm.
Qed.

Lemma err_of_none {S} (m : M S unit) t t' : err_of m t = (t', Ret None) → m t = (t', Ret tt).
Proof. unfold err_of, try, mbind, M_bind, mret, M_ret. destruct (m t) as [? [[]| |]]; naive_solver. Qed.

(** [AtomicWriteSet.WriteFile] flushes the file exactly when the options
    say [NoSync]: with the default options the data of a file it has written
    successfully are never flushed, contrary to its contract. *)
Theorem WriteSet_sync_inverted dflt ws filename data w w' :
  WriteFile dflt ws filename data w = (w', Ret tt) →
  filepath_Join [root ws; filename] ∈ m_synced (w_meta w') ↔ NoSync dflt = true.
Proof.
  set (p := filepath_Join [root ws; filename]). intros Hrun. unfold WriteFile, FileWriter in Hrun. fold p in Hrun.
  apply run_bind_ret in Hrun as (w1 & p' & Ho & Hrun).
  assert (p' = p) as ->.
  { by apply syscall_ret in Ho as [l [= _ ->]]. }
  apply run_bind_ret in Hrun as (w2 & [n e] & Hw & Hrun).
  destruct e as [e|]; [apply run_bind_ret in Hrun as (? & ? & _ & ?); done|].
  assert (p ∉ m_synced (w_meta w2)) as Hns.
  { unfold file_Write, mbind, M_bind, modify, mret, M_ret in Hw. destruct (pop_fault w1) as [w1' [[]| |]]; try done;
      injection Hw as <- <-; set_solver. }
  clear Ho Hw. destruct (decide (n < _)); [apply run_bind_ret in Hrun as (? & ? & _ & ?); done|].
  apply run_bind_ret in Hrun as (w3 & [e|] & Hc & Hrun); [done|]. injection Hrun as ->.
  apply err_of_none in Hc. unfold syncFileCloser_Close in Hc. destruct (NoSync dflt); simpl in Hc.
  - apply run_bind_ret in Hc as (w4 & e4 & H4 & Hc). apply run_bind_ret in Hc as (w5 & e5 & H5 & Hc).
    destruct e4; [done|]. destruct e5; [done|]. injection Hc as ->.
    apply err_of_none, syscall_ret in H4 as [l4 [= <-]]. apply err_of_none, syscall_ret in H5 as [l5 [= <-]].
    simpl. set_solver.
  - apply syscall_ret in Hc as [l5 [= <-]]. simpl. naive_solver.
Qed.

Lemma WriteSet_sync_inverted_witness :
  snd (WriteFile default_options (mkWriteSet "/s/set") "x" "data" demo_world) = Ret tt ∧
  ("/s/set/x" ∈ m_synced (w_meta (fst (WriteFile default_options (mkWriteSet "/s/set") "x" "data" demo_world)))
   ↔ NoSync default_options = true).
Proof.
  split; [vm_compute; reflexivity|].
  apply (WriteSet_sync_inverted default_options (mkWriteSet "/s/set") "x" "data" demo_world).
  vm_compute. reflexivity.
Defined.
