(* ===== verification/TempDir.v ===== *)
(** * storage/internal/tempdir and storage/internal/staging_lockfile

    Deletion in two steps: what is to be removed is renamed into a temporary
    directory, which is emptied later, or by the next process if this one dies.
    A lock file beside each temporary directory tells whether it is in use:
    [m_staging] holds the locks of this process, [m_foreign] those of others. *)

From S2P Require Import Prelude World Paths LockFile.

Local Open Scope string_scope.

(** ** staging_lockfile *)

Definition maxRetries : Z := 1000.

Definition mod_staging (g : gset string → gset string) : M World unit :=
  modify (λ w, set_meta (set_staging (g (m_staging (w_meta w))) (w_meta w)) w).

(** The key of the lock in [stagingLockFiles]; [path] is absolute. *)
Definition tryAcquireLockForFile (path : string) : M World string :=
  let cleanPath := filepath_Clean path in
  mine ← gets (λ w, m_staging (w_meta w));
  if decide (cleanPath ∈ mine) then fail (ErrOther "lock is used already with other thread")
  else
    _ ← OpenLock cleanPath;
    others ← gets (λ w, m_foreign (w_meta w));
    _ ← (if decide (cleanPath ∈ others) then fail (ErrOther "resource temporarily unavailable")
         else TryLockFileHandle);
    _ ← mod_staging (λ l, {[cleanPath]} ∪ l);
    mret cleanPath.

Definition UnlockAndDelete (file : string) : M World unit :=
  if decide (file = "") then stop (Panic "calling Unlock on unlocked lock")
  else
    r ← try (os_Remove file);
    _ ← mod_staging (λ l, l ∖ {[file]});
    match r with
    | inr err => if os_IsNotExist err then mret tt else fail err
    | inl _ => mret tt
    end.

(** [retries] are left after this attempt. *)
Fixpoint create_and_lock (retries : nat) (dir pattern : string) : M World (string * string) :=
  path ← os_CreateTemp dir pattern;
  r ← try (tryAcquireLockForFile path);
  match r with
  | inl l => mret (l, filepath_Base path)
  | inr err =>
      match retries with
      | S retries => create_and_lock retries dir pattern
      | 0 => fail err
      end
  end.

Definition CreateAndLock (dir pattern : string) : M World (string * string) :=
  create_and_lock (Z.to_nat maxRetries) dir pattern.

Definition TryLockPath (path : string) : M World string := tryAcquireLockForFile path.

(** ** tempdir *)

Definition tempDirPrefix := "temp-dir-".
Definition tempdirLockPrefix := "lock-".

(** [strings.CutPrefix] *)
Definition CutPrefix (s prefix : string) : option string :=
  if String.prefix prefix s
  then Some (String.substring (String.length prefix) (String.length s - String.length prefix) s)
  else None.

Record TempDir := mkTempDir {
  RootDir : string;
  tempDirPath : string;
  tempDirLock : option string;      (* None: nil *)
  tempDirLockPath : string;
  td_counter : Z
}.

Definition listPotentialStaleDirs (rootDir : string) : M World (list string) :=
  r ← try (os_ReadDir rootDir);
  match r with
  | inr err => if os_IsNotExist err then mret [] else fail err
  | inl dirContent =>
      let ids := omap (λ entry : string * bool,
                   match CutPrefix (fst entry) tempDirPrefix with
                   | Some id => Some id
                   | None => CutPrefix (fst entry) tempdirLockPrefix
                   end) dirContent in
      mret (elements (list_to_set (C := gset string) ids))
  end.

(** A stale directory, with its lock held.  The errors are joined, so only
    whether there was one matters. *)
Definition recover_locked (path lock : string) (err : option error) : M World (option error) :=
  r1 ← try (EnsureRemoveAll path);
  r2 ← try (UnlockAndDelete lock);
  mret (match err, r1, r2 with
        | None, inr e, _ => Some e
        | None, inl _, inr e => Some e
        | _, _, _ => err
        end).

Definition recover_one (rootDir : string) (err : option error) (id : string) : M World (option error) :=
  let lockPath := filepath_Join [rootDir; tempdirLockPrefix +:+ id] in
  let path := filepath_Join [rootDir; tempDirPrefix +:+ id] in
  r ← try (TryLockPath lockPath);
  match r with
  | inr _ => mret err
  | inl instanceLock => recover_locked path instanceLock err
  end.

Definition RecoverStaleDirs (rootDir : string) : M World unit :=
  potentialStaleDirs ← listPotentialStaleDirs rootDir;
  err ← foldM (recover_one rootDir) None potentialStaleDirs;
  match err with Some e => fail e | None => mret tt end.

Definition NewTempDir (rootDir : string) : M World TempDir :=
  _ ← os_MkdirAll rootDir;
  l ← CreateAndLock rootDir tempdirLockPrefix;
  let '(lock, tempDirLockFileName) := l in
  let id := default tempDirLockFileName (CutPrefix tempDirLockFileName tempdirLockPrefix) in
  let actualTempDirPath := filepath_Join [rootDir; tempDirPrefix +:+ id] in
  _ ← os_MkdirAll actualTempDirPath;
  mret (mkTempDir rootDir actualTempDirPath (Some lock) (filepath_Join [rootDir; tempDirLockFileName]) 0).

Notation TD := (World * TempDir)%type.

Definition onDisk {A} (m : M World A) : M TD A := zoom fst (λ w s, (w, snd s)) m.

Definition next_counter : M TD Z :=
  c ← gets (λ s, td_counter (snd s));
  _ ← modify (λ s : TD, let td := snd s in
        (fst s, mkTempDir (RootDir td) (tempDirPath td) (tempDirLock td) (tempDirLockPath td)
                  (uint64 (td_counter td + 1))));
  mret c.

Definition active : M TD unit :=
  l ← gets (λ s : TD, tempDirLock (snd s));
  match l with
  | None => fail (ErrOther "temp dir instance not initialized or already cleaned up")
  | Some _ => mret tt
  end.

(** The path of the [StagedAddition]. *)
Definition StageAddition : M TD string :=
  _ ← active;
  c ← next_counter;
  d ← gets (λ s : TD, tempDirPath (snd s));
  mret (filepath_Join [d; pretty c +:+ "-addition"]).

Definition StageDeletion (path : string) : M TD unit :=
  _ ← active;
  c ← next_counter;
  d ← gets (λ s : TD, tempDirPath (snd s));
  onDisk (os_Rename path (filepath_Join [d; pretty c +:+ "-" +:+ filepath_Base path])).

Definition Commit (staged destination : string) : M World unit := os_Rename staged destination.

Definition Cleanup : M TD unit :=
  l ← gets (λ s : TD, tempDirLock (snd s));
  match l with
  | None => mret tt
  | Some lock =>
      d ← gets (λ s : TD, tempDirPath (snd s));
      _ ← onDisk (EnsureRemoveAll d);
      _ ← modify (λ s : TD, (fst s, mkTempDir (RootDir (snd s)) "" None "" (td_counter (snd s))));
      onDisk (UnlockAndDelete lock)
  end.

(** [CleanupTemporaryDirectories] runs all functions, and joins their errors. *)
Definition CleanupTemporaryDirectories {S} (cleanFuncs : list (option (M S unit))) : M S unit :=
  err ← foldM (λ err f,
    match f with
    | None => mret err
    | Some cleanupFunc =>
        r ← try cleanupFunc;
        mret (match err, r with None, inr e => Some e | _, _ => err end)
    end) None cleanFuncs;
  match err with Some e => fail e | None => mret tt end.

(** ** What recovery leaves alone *)

(** The locks on temporary directories, of all processes. *)
Definition held (w : World) : gset string := m_staging (w_meta w) ∪ m_foreign (w_meta w).

(** The paths [K] are untouched; the locks [L] stay held. *)
Record spares (K : string → Prop) (L : gset string) (w w' : World) : Prop := mkSpares {
  sp_files q : K q → w_files w' !! q = w_files w !! q;
  sp_dirs q : K q → q ∈ w_dirs w' ↔ q ∈ w_dirs w;
  sp_held l : l ∈ L → l ∈ held w → l ∈ held w'
}.

#[global] Instance spares_preorder K L : PreOrder (spares K L).
Proof.
  split; [by split|]. intros w1 w2 w3 [F1 D1 H1] [F2 D2 H2]. split; [..|by auto].
  - intros q Hq. by rewrite F2, F1.
  - intros q Hq. by rewrite D2, D1.
Qed.

Section Spares.
Context (K : string → Prop) (L : gset string).

Lemma spares_pop : moves (spares K L) pop_fault.
Proof. intros w. unfold pop_fault. by destruct (w_faults w) as [|[] l]. Qed.
Hint Resolve spares_pop : moves.

Lemma spares_syscall {A} (m : M World A) : moves (spares K L) m → moves (spares K L) (syscall m).
Proof. intros Hm. unfold syscall. moves_steps. Qed.

Lemma spares_unlink l err : (∀ q, q ∈ l → ¬ K q) → moves (spares K L) (unlink_files l err).
Proof.
  revert err. induction l as [|p l IH]; intros err Hl; cbn [unlink_files]; [moves_steps|].
  assert (moves (spares K L) (modify (λ w, set_files (delete p (w_files w)) w))) as Hd.
  { intros w. split; [|done..]. intros q Hq. simpl. apply lookup_delete_ne. intros <-. apply (Hl p); [left|done]. }
  moves_steps; try apply IH; set_solver.
Qed.

Lemma spares_RemoveAll p : (∀ q, K q → under p q = false) → moves (spares K L) (os_RemoveAll p).
Proof.
  intros Hp w. unfold os_RemoveAll, gets at 1, mbind at 1, M_bind at 1. revert w.
  assert (moves (spares K L) (modify (λ w, set_dirs (filter (λ q, under p q = false) (w_dirs w)) w))) as Hd.
  { intros w. split; [done| |done..]. intros q Hq. simpl. rewrite elem_of_filter. specialize (Hp q Hq). tauto. }
  intros w. set (files := filter _ _).
  assert (moves (spares K L) (unlink_files files None)) as Hu.
  { apply spares_unlink. intros q [Hq _]%list_elem_of_filter HK. rewrite Hp in Hq; done. }
  clearbody files. revert w.
  change (moves (spares K L) (err ← unlink_files files None;
    match err with
    | Some e => fail e
    | None => f ← pop_fault; match f with
              | FailWith e => if decide (e = ENOENT) then modify (λ w, set_dirs (filter (λ q, under p q = false) (w_dirs w)) w) else fail (ErrOS e)
              | _ => modify (λ w, set_dirs (filter (λ q, under p q = false) (w_dirs w)) w) end
    end)).
  moves_steps.
Qed.

Lemma spares_EnsureRemoveAll p : (∀ q, K q → under p q = false) → moves (spares K L) (EnsureRemoveAll p).
Proof. intros Hp. pose proof (spares_RemoveAll p Hp). unfold EnsureRemoveAll. moves_steps. Qed.

Lemma spares_Remove p : ¬ K p → moves (spares K L) (os_Remove p).
Proof.
  intros Hp. apply spares_syscall. apply moves_bind; [apply _|moves_steps|]. intros w1.
  assert (∀ q, K q → q ≠ p) as Hne by (intros q Hq ->; done).
  repeat case_decide; try moves_steps; intros w; split; try done; intros q Hq; simpl.
  - apply lookup_delete_ne. intros <-. by apply (Hne p).
  - specialize (Hne q Hq). set_solver.
Qed.

Lemma spares_UnlockAndDelete p : ¬ K p → p ∉ L → moves (spares K L) (UnlockAndDelete p).
Proof.
  intros Hp HL. pose proof (spares_Remove p Hp). unfold UnlockAndDelete, mod_staging. moves_steps.
  all: intros w; split; try done; unfold held; simpl; set_solver.
Qed.

Lemma spares_OpenLock p : ¬ K p → moves (spares K L) (OpenLock p).
Proof.
  intros Hp. apply spares_syscall. apply moves_bind; [apply _|moves_steps|]. intros d.
  case_decide; [|moves_steps]. intros w. simpl. destruct (w_files w !! p) eqn:E; [done|].
  split; try done. intros q Hq. simpl. apply lookup_insert_ne. intros <-. done.
Qed.

Lemma spares_tryAcquire p : ¬ K (filepath_Clean p) → moves (spares K L) (tryAcquireLockForFile p).
Proof.
  intros Hp. pose proof (spares_OpenLock _ Hp). unfold tryAcquireLockForFile, mod_staging, TryLockFileHandle.
  pose proof (spares_syscall (mret tt)). moves_steps.
  - apply spares_syscall. moves_steps.
  - intros w. split; try done. unfold held. simpl. set_solver.
Qed.
End Spares.

Lemma tryAcquire_key p w :
  match snd (tryAcquireLockForFile p w) with Ret l => l = filepath_Clean p | _ => True end.
Proof.
  destruct (tryAcquireLockForFile p w) as [w' [l|e|c]] eqn:E; [|done|done]. simpl.
  unfold tryAcquireLockForFile in E. apply run_bind_ret in E as (? & ? & _ & E). case_decide; [done|].
  do 4 apply run_bind_ret in E as (? & ? & _ & E). by injection E as _ <-.
Qed.

(** A lock that is held is not acquired. *)
Lemma OpenLock_foreign p w : m_foreign (w_meta (fst (OpenLock p w))) = m_foreign (w_meta w).
Proof.
  unfold OpenLock, syscall, mbind, M_bind, pop_fault, gets, modify, fail. destruct (w_faults w) as [|[] l]; simpl; try done;
    case_decide; simpl; try done; by destruct (w_files w !! _).
Qed.

Lemma tryAcquire_held p w :
  filepath_Clean p ∈ held w → ¬ is_ret (snd (tryAcquireLockForFile p w)).
Proof.
  intros Hh [l E]. destruct (tryAcquireLockForFile p w) as [w' o] eqn:Hrun. simpl in E. subst o.
  unfold tryAcquireLockForFile in Hrun. apply run_bind_ret in Hrun as (w0 & mine & [= <- <-] & Hrun).
  case_decide as Hm; [done|]. apply run_bind_ret in Hrun as (w1 & [] & Hop & Hrun).
  apply run_bind_ret in Hrun as (w2 & others & [= <- <-] & Hrun). apply run_bind_ret in Hrun as (w3 & [] & Htry & _).
  pose proof (OpenLock_foreign (filepath_Clean p) w) as Hf. rewrite Hop in Hf. simpl in Hf.
  rewrite decide_True in Htry; [done|]. rewrite Hf. unfold held in Hh. set_solver.
Qed.

Section Recover.
Context (r : list string) (Hr : plains r) (Hne : r ≠ []).

Definition dir_of (id : string) : string := abs_path (r ++ [tempDirPrefix +:+ id]).
Definition lock_of (id : string) : string := abs_path (r ++ [tempdirLockPrefix +:+ id]).

(** Identifiers as directory entries can have them. *)
Definition entry_id (id : string) : Prop := has_slash id = false.

Lemma plain_dir id : entry_id id → plain (tempDirPrefix +:+ id) = true.
Proof.
  intros Hid. apply plain_spec. rewrite has_slash_app, Hid. split; [done|]. unfold tempDirPrefix. done.
Qed.
Lemma plain_lock id : entry_id id → plain (tempdirLockPrefix +:+ id) = true.
Proof.
  intros Hid. apply plain_spec. rewrite has_slash_app, Hid. split; [done|]. unfold tempdirLockPrefix. done.
Qed.

Lemma plains_snoc e : plain e = true → plains (r ++ [e]).
Proof. intros He. apply Forall_app. split; [done|]. by apply Forall_singleton. Qed.

Lemma Join_dir id : entry_id id → filepath_Join [abs_path r; tempDirPrefix +:+ id] = dir_of id.
Proof. intros Hid. apply Join_abs_path; [done|done|by apply plain_dir]. Qed.
Lemma Join_lock id : entry_id id → filepath_Join [abs_path r; tempdirLockPrefix +:+ id] = lock_of id.
Proof. intros Hid. apply Join_abs_path; [done|done|by apply plain_lock]. Qed.
Lemma Clean_lock id : entry_id id → filepath_Clean (lock_of id) = lock_of id.
Proof. intros Hid. apply Clean_abs_path; [by apply plains_snoc, plain_lock|by destruct r]. Qed.

(** Sibling paths are not below each other. *)
Lemma sibling_under e e' q :
  plain e = true → plain e' = true → under (abs_path (r ++ [e])) q = true → under (abs_path (r ++ [e'])) q = true → e = e'.
Proof.
  intros He He' H1 H2. destruct (under_comparable _ _ _ H1 H2) as [Hu|Hu];
    (apply under_abs_path in Hu; [|by apply plains_snoc|by apply plains_snoc|by destruct r|by destruct r]);
    apply prefix_length_eq in Hu; rewrite ?length_app; try done; by apply app_inj_2 in Hu as [_ [= ->]].
Qed.

Lemma dir_under_inj id id' q :
  entry_id id → entry_id id' → under (dir_of id) q = true → under (dir_of id') q = true → id = id'.
Proof.
  intros Hi Hi' H1 H2. pose proof (sibling_under _ _ _ (plain_dir id Hi) (plain_dir id' Hi') H1 H2) as E.
  by apply string_app_inj_length in E as [_ ->].
Qed.

Lemma lock_not_under_dir id id' : entry_id id → entry_id id' → under (dir_of id) (lock_of id') = false.
Proof.
  intros Hi Hi'. apply not_true_is_false. intros H1.
  pose proof (sibling_under _ _ _ (plain_dir id Hi) (plain_lock id' Hi') H1 (under_refl _)) as E. done.
Qed.

Lemma lock_of_inj id id' : entry_id id → entry_id id' → lock_of id = lock_of id' → id = id'.
Proof.
  intros Hi Hi' E.
  pose proof (sibling_under _ _ (lock_of id) (plain_lock id Hi) (plain_lock id' Hi') (under_refl _)) as E'.
  fold (lock_of id') in E'. rewrite E in E' at 1. specialize (E' (under_refl _)).
  by apply string_app_inj_length in E' as [_ ->].
Qed.

(** Relative to a directory in use. *)
Definition guarded (id : string) (w w' : World) : Prop :=
  lock_of id ∈ held w → spares (λ q, under (dir_of id) q = true) {[lock_of id]} w w'.

#[global] Instance guarded_preorder id : PreOrder (guarded id).
Proof.
  split; [by intros w _|]. intros w1 w2 w3 H12 H23 Hh. specialize (H12 Hh). etrans; [exact H12|].
  apply H23. apply (sp_held _ _ _ _ H12); set_solver.
Qed.

Lemma recover_one_guarded id id' err :
  entry_id id → entry_id id' → moves (guarded id) (recover_one (abs_path r) err id').
Proof.
  intros Hi Hi' w Hh. unfold recover_one. rewrite Join_dir, Join_lock by done.
  set (K := λ q, under (dir_of id) q = true).
  assert (¬ K (filepath_Clean (lock_of id'))) as HK.
  { unfold K. by rewrite Clean_lock, lock_not_under_dir. }
  destruct (decide (id' = id)) as [->|Hdiff].
  - pose proof (spares_tryAcquire K {[lock_of id]} _ HK w) as Hs.
    pose proof (tryAcquire_held (lock_of id) w) as Hn. rewrite Clean_lock in Hn by done. specialize (Hn Hh).
    unfold TryLockPath. rewrite run_try. destruct (tryAcquireLockForFile (lock_of id) w) as [w1 [l|e|c]]; simpl in *;
      [by destruct Hn; eexists|done|done].
  - assert (moves (spares K {[lock_of id]}) (recover_locked (dir_of id') (lock_of id') err)) as Hrest.
    { assert (moves (spares K {[lock_of id]}) (EnsureRemoveAll (dir_of id'))).
      { apply spares_EnsureRemoveAll. intros q Hq. apply not_true_is_false. intros Hq'.
        by destruct Hdiff; eapply dir_under_inj. }
      assert (moves (spares K {[lock_of id]}) (UnlockAndDelete (lock_of id'))).
      { apply spares_UnlockAndDelete; [rewrite Clean_lock in HK by done; exact HK|].
        intros E%elem_of_singleton. by destruct Hdiff; eapply lock_of_inj. }
      unfold recover_locked. moves_steps. }
    pose proof (spares_tryAcquire K {[lock_of id]} _ HK w) as Hs.
    pose proof (tryAcquire_key (lock_of id') w) as Hk. rewrite Clean_lock in Hk by done.
    unfold TryLockPath. rewrite run_try.
    destruct (tryAcquireLockForFile (lock_of id') w) as [w1 [l|e|c]]; [|exact Hs|exact Hs].
    cbn [fst snd] in Hs, Hk. subst l. etrans; [exact Hs|]. exact (Hrest w1).
Qed.

Lemma recover_list_guarded id err ids :
  entry_id id → Forall entry_id ids → moves (guarded id) (foldM (recover_one (abs_path r)) err ids).
Proof.
  intros Hi Hids. revert err. induction Hids as [|id' ids Hi' _ IH]; intros err; simpl; [moves_steps|].
  apply moves_bind; [apply _|by apply recover_one_guarded|]. done.
Qed.

(** *** The entries of a directory *)

Lemma CutPrefix_spec s p id : CutPrefix s p = Some id → s = p +:+ id.
Proof.
  unfold CutPrefix. destruct (String.prefix p s) eqn:E; [|done]. apply prefix_app in E as [t ->]. intros [= <-].
  f_equal. rewrite string_length_app, Nat.add_comm, Nat.add_sub. by rewrite substring_skip, substring_all.
Qed.
End Recover.

(** *** The entries of a directory *)

Lemma split_slash_nonempty s : split_slash s ≠ [].
Proof. destruct s as [|c s]; [done|]. simpl. destruct (Ascii.eqb c slash); [done|]. by destruct (split_slash s). Qed.

Lemma split_slash_length s : length (split_slash s) = 1 → has_slash s = false.
Proof.
  induction s as [|c s IH]; [done|]. simpl. destruct (Ascii.eqb c slash); simpl.
  - intros [= E%nil_length_inv]. by destruct (split_slash_nonempty s).
  - intros E. apply IH. pose proof (split_slash_nonempty s). by destruct (split_slash s).
Qed.

Lemma base_under_plain dir p b : base_under dir p = Some b → has_slash b = false.
Proof. unfold base_under. destruct (String.prefix _ _); [|done]. case_decide as Hd; [|done]. intros [= <-]. by apply split_slash_length, Hd. Qed.

Lemma base_under_child dir b : has_slash b = false → b ≠ "" → base_under dir (dir +:+ "/" +:+ b) = Some b.
Proof.
  intros Hb Hne. unfold base_under.
  assert (String.prefix (dir +:+ "/") (dir +:+ "/" +:+ b) = true) as ->.
  { apply prefix_app. exists b. by rewrite string_app_assoc. }
  rewrite <- string_app_assoc.
  assert (String.length dir + 1 = String.length (dir +:+ "/")) as -> by (rewrite string_length_app; done).
  assert (String.length ((dir +:+ "/") +:+ b) - String.length (dir +:+ "/") = String.length b) as ->
    by (rewrite (string_length_app (dir +:+ "/") b); lia).
  rewrite substring_skip, substring_all. rewrite decide_True; [done|]. by rewrite split_slash_plain.
Qed.

Lemma CutPrefix_app p id : CutPrefix (p +:+ id) p = Some id.
Proof.
  unfold CutPrefix. assert (String.prefix p (p +:+ id) = true) as -> by (apply prefix_app; by exists id).
  by rewrite string_length_app, Nat.add_comm, Nat.add_sub, substring_skip, substring_all.
Qed.

Lemma list_ids_wp r w :
  plains r → r ≠ [] →
  wp (listPotentialStaleDirs (abs_path r)) (λ o w', (∃ l, w' = set_faults l w ∧ (w_faults w = [] → l = [])) ∧
    match o with
    | Ret ids => Forall entry_id ids ∧ NoDup ids ∧
        (w_faults w = [] → ∀ id, entry_id id → dir_of r id ∈ w_dirs w ∨ is_Some (w_files w !! lock_of r id) → id ∈ ids)
    | Err _ => w_faults w ≠ []
    | Crash _ => w_faults w ≠ []
    end) w.
Proof.
  intros Hr Hne. unfold listPotentialStaleDirs. wp_step. wp_step. apply wp_syscall_strict.
  { intros e l Hf. cbv beta iota. destruct (os_IsNotExist _); wp_step; (split; [by exists l|]); [|done].
    split; [constructor|]. split; [constructor|done]. }
  { intros l Hf. by split; [exists l|]. }
  intros l Hl. set (w1 := set_faults l w). wp_step. wp_step. wp_step. wp_step.
  set (found := elements (list_to_set (C := gset string) (omap (λ entry : string * bool,
                   match CutPrefix (fst entry) tempDirPrefix with
                   | Some id => Some id
                   | None => CutPrefix (fst entry) tempdirLockPrefix
                   end) (dir_entries (abs_path r) w1)))).
  enough (Forall entry_id found ∧ NoDup found ∧
    (w_faults w = [] → ∀ id, entry_id id → dir_of r id ∈ w_dirs w ∨ is_Some (w_files w !! lock_of r id) → id ∈ found)) as Hfound.
  { destruct (decide (_ ∨ _)) as [Hdir|Hdir]; wp_step; [wp_step; split; [by eauto|done]|]. wp_step; [|done]. wp_step. split; [by eauto|].
    assert (found = []) as E; [|by rewrite E in Hfound]. unfold found.
    by destruct (decide (dir_entries (abs_path r) w1 = [])) as [->|]; [|tauto]. }
  assert (∀ e, e ∈ dir_entries (abs_path r) w1 → has_slash (fst e) = false) as Hplain.
  { intros e He. apply elem_of_app in He as [(b & -> & Hb)%list_elem_of_fmap|(b & -> & Hb)%list_elem_of_fmap];
      apply list_elem_of_omap in Hb as (p & _ & Hb); by eapply base_under_plain. }
  split_and!.
  - apply Forall_forall. intros id Hid. apply elem_of_elements, elem_of_list_to_set, list_elem_of_omap in Hid as (e & He & Hs).
    apply Hplain in He. unfold entry_id.
    destruct (CutPrefix (fst e) tempDirPrefix) eqn:E; [injection Hs as ->; rename E into Hs|];
      apply CutPrefix_spec in Hs; rewrite Hs, has_slash_app in He; by apply orb_false_iff in He as [_ ?].
  - apply NoDup_elements.
  - intros _ id Hid Hin. apply elem_of_elements, elem_of_list_to_set, list_elem_of_omap.
    assert (∀ e, abs_path (r ++ [e]) = abs_path r +:+ "/" +:+ e) as Ha by (intros e; by rewrite abs_path_app).
    destruct Hin as [Hin|[d Hin]].
    + exists (tempDirPrefix +:+ id, true). split; [|simpl fst; by rewrite CutPrefix_app].
      apply elem_of_app. left. apply list_elem_of_fmap. eexists. split; [done|].
      apply list_elem_of_omap. exists (dir_of r id). split; [by apply elem_of_elements|].
      unfold dir_of. rewrite Ha. apply base_under_child; [|done]. by rewrite has_slash_app, Hid.
    + exists (tempdirLockPrefix +:+ id, false). split; [|simpl fst; rewrite CutPrefix_app; done].
      apply elem_of_app. right. apply list_elem_of_fmap. eexists. split; [done|].
      apply list_elem_of_omap. exists (lock_of r id). split; [apply elem_of_elements, elem_of_dom; by exists d|].
      unfold lock_of. rewrite Ha. apply base_under_child; [|done]. by rewrite has_slash_app, Hid.
Qed.

(** ** Recovery is complete *)

Lemma unlink_files_ok l w :
  w_faults w = [] → unlink_files l None w = (set_files (foldl (λ m q, delete q m) (w_files w) l) w, Ret None).
Proof.
  revert w. induction l as [|q l IH]; intros w Hf; cbn [unlink_files foldl]; [by destruct w|].
  unfold mbind, M_bind, pop_fault. rewrite Hf. simpl. rewrite IH by done. done.
Qed.

Lemma foldl_delete_lookup {A} (l : list string) (m : gmap string A) q :
  foldl (λ m q, delete q m) m l !! q = if decide (q ∈ l) then None else m !! q.
Proof.
  revert m. induction l as [|p l IH]; intros m; cbn [foldl]; [by rewrite decide_False by apply not_elem_of_nil|].
  rewrite IH. destruct (decide (q ∈ l)) as [Hl|Hl]; [rewrite decide_True by (by right); done|].
  destruct (decide (q = p)) as [->|Hne].
  - rewrite decide_True by (by left). apply lookup_delete_eq.
  - rewrite decide_False by (by rewrite elem_of_cons; tauto). by apply lookup_delete_ne.
Qed.

(** The world without what is under [p]. *)
Definition removed (p : string) (w w' : World) : Prop :=
  w_faults w' = [] ∧ w_meta w' = w_meta w ∧
  (∀ q, w_files w' !! q = if under p q then None else w_files w !! q) ∧
  (∀ q, q ∈ w_dirs w' ↔ q ∈ w_dirs w ∧ under p q = false).

Lemma EnsureRemoveAll_ok p w :
  w_faults w = [] → ∃ w', EnsureRemoveAll p w = (w', Ret tt) ∧ removed p w w'.
Proof.
  intros Hf. unfold EnsureRemoveAll. rewrite run_try. unfold os_RemoveAll.
  unfold mbind at 1, M_bind at 1, gets at 1. unfold mbind at 1, M_bind at 1. rewrite unlink_files_ok by done.
  unfold mbind at 1, M_bind at 1, pop_fault. simpl. rewrite Hf. eexists. split; [done|].
  split; [done|]. split; [done|]. simpl. split.
  - intros q. rewrite foldl_delete_lookup. destruct (under p q) eqn:E.
    + case_decide as Hin; [done|]. destruct (w_files w !! q) as [d|] eqn:Eq; [|done]. destruct Hin.
      apply list_elem_of_filter. split; [done|]. apply elem_of_elements, elem_of_dom. by exists d.
    + rewrite decide_False; [done|]. intros [Hu _]%list_elem_of_filter. congruence.
  - intros q. rewrite elem_of_filter. tauto.
Qed.

Lemma tryAcquire_ok p w :
  filepath_Clean p = p → w_faults w = [] → filepath_Dir p ∈ w_dirs w → p ∉ held w →
  ∃ d, tryAcquireLockForFile p w =
    (set_meta (set_staging ({[p]} ∪ m_staging (w_meta w)) (w_meta w)) (set_files (<[p := d]> (w_files w)) w), Ret p).
Proof.
  intros Hc Hf Hd Hh. unfold held in Hh. rewrite not_elem_of_union in Hh. destruct Hh as [Hs Ho].
  unfold tryAcquireLockForFile, mod_staging, TryLockFileHandle, OpenLock, syscall, pop_fault, gets, modify, mbind, M_bind,
    mret, M_ret. rewrite Hc. cbv zeta. rewrite decide_False by done. rewrite Hf. rewrite decide_True by done.
  destruct w as [fs dd fl rd ps cl pid c mt]. simpl in *. subst fl.
  destruct (fs !! p) as [d|] eqn:E; simpl; rewrite decide_False by done; simpl.
  - exists d. by rewrite insert_id.
  - by exists "".
Qed.

Lemma UnlockAndDelete_ok p d w :
  p ≠ "" → w_faults w = [] → w_files w !! p = Some d →
  UnlockAndDelete p w =
    (set_meta (set_staging (m_staging (w_meta w) ∖ {[p]}) (w_meta w)) (set_files (delete p (w_files w)) w), Ret tt).
Proof.
  intros Hp Hf Hd. unfold UnlockAndDelete. rewrite decide_False by done. rewrite run_try.
  unfold os_Remove, syscall, pop_fault, gets, modify, mbind, M_bind. rewrite Hf. cbn. rewrite decide_True by (by exists d).
  done.
Qed.

Section Complete.
Context (r : list string) (Hr : plains r) (Hne : r ≠ []).

(** Nothing is left of a temporary directory. *)
Definition gone (id : string) (w : World) : Prop :=
  (∀ q, under (dir_of r id) q = true → w_files w !! q = None ∧ q ∉ w_dirs w) ∧ w_files w !! lock_of r id = None.

Lemma root_not_under id : entry_id id → under (dir_of r id) (abs_path r) = false.
Proof.
  intros Hid. apply not_true_is_false. intros Hu. apply under_abs_path in Hu; try done.
  - apply prefix_length in Hu. rewrite length_app in Hu. simpl in Hu. lia.
  - by apply plains_snoc, plain_dir.
  - by destruct r.
Qed.

Lemma lock_of_nonempty id : lock_of r id ≠ "".
Proof. unfold lock_of, abs_path. by destruct (String.concat "/" _). Qed.

Lemma recover_one_free id err w :
  entry_id id → w_faults w = [] → abs_path r ∈ w_dirs w → lock_of r id ∉ held w →
  ∃ w', recover_one (abs_path r) err id w = (w', Ret err) ∧ w_faults w' = [] ∧ held w' = held w ∧ gone id w' ∧
    spares (λ q, under (dir_of r id) q = false ∧ q ≠ lock_of r id) ∅ w w'.
Proof.
  intros Hid Hf Hroot Hheld. unfold recover_one. rewrite Join_dir, Join_lock by done.
  unfold TryLockPath. rewrite run_try.
  destruct (tryAcquire_ok (lock_of r id) w) as [d ->]; [by apply Clean_lock|done| |done|].
  { unfold lock_of. rewrite Dir_abs_path; [done|by apply plains_snoc, plain_lock|done]. }
  set (w1 := set_meta _ _). unfold recover_locked. rewrite run_try.
  destruct (EnsureRemoveAll_ok (dir_of r id) w1) as (w2 & -> & Hf2 & Hm2 & Hfi2 & Hd2); [done|]. rewrite run_try.
  assert (w_files w2 !! lock_of r id = Some d) as Hl2.
  { rewrite Hfi2, lock_not_under_dir by done. apply lookup_insert_eq. }
  rewrite (UnlockAndDelete_ok _ d) by (done || apply lock_of_nonempty).
  eexists. split; [by destruct err|]. split; [done|]. split; [|split; [split|split]].
  - unfold held in *. simpl. rewrite Hm2. simpl. set_solver.
  - intros q Hq. simpl. split.
    + apply lookup_delete_None. right. rewrite Hfi2. by rewrite Hq.
    + intros Hin. apply Hd2 in Hin as [_ Hin]. congruence.
  - apply lookup_delete_eq.
  - intros q [Hq Hql]. simpl. rewrite lookup_delete_ne by done. rewrite Hfi2, Hq. simpl. by apply lookup_insert_ne.
  - intros q [Hq Hql]. simpl. rewrite Hd2, Hq. simpl. tauto.
  - set_solver.
Qed.
Lemma recover_one_held id err w :
  entry_id id → w_faults w = [] → lock_of r id ∈ held w →
  ∃ w', recover_one (abs_path r) err id w = (w', Ret err) ∧ w_faults w' = [] ∧ held w' = held w ∧
    spares (λ q, q ≠ lock_of r id) ∅ w w'.
Proof.
  intros Hid Hf Hheld. unfold recover_one. rewrite Join_dir, Join_lock by done. unfold TryLockPath. rewrite run_try.
  unfold tryAcquireLockForFile, mod_staging, OpenLock, syscall, pop_fault, gets, modify, mbind, M_bind, mret, M_ret, fail.
  rewrite Clean_lock by done. cbv zeta.
  destruct (decide (lock_of r id ∈ m_staging (w_meta w))) as [Hs|Hs].
  { exists w. repeat (split; [done|]). done. }
  rewrite Hf. destruct (decide (filepath_Dir (lock_of r id) ∈ w_dirs w)); [|exists w; repeat (split; [done|]); done].
  assert (lock_of r id ∈ m_foreign (w_meta w)) as Ho by (unfold held in Hheld; set_solver).
  destruct (w_files w !! lock_of r id) as [d|] eqn:E; simpl; rewrite decide_True by done.
  - exists w. repeat (split; [done|]). done.
  - eexists. split; [done|]. split; [done|]. split; [done|]. split; [|done|done].
    intros q Hq. simpl. by apply lookup_insert_ne.
Qed.

Lemma gone_spares K id w w' :
  (∀ q, under (dir_of r id) q = true ∨ q = lock_of r id → K q) → spares K ∅ w w' → gone id w → gone id w'.
Proof.
  intros HK [Hf Hd _] [Hg Hl]. split.
  - intros q Hq. rewrite Hf, Hd by auto. by apply Hg.
  - rewrite Hf by auto. done.
Qed.

Lemma recover_list_ok ids err w :
  Forall entry_id ids → NoDup ids → w_faults w = [] → abs_path r ∈ w_dirs w →
  ∃ w', foldM (recover_one (abs_path r)) err ids w = (w', Ret err) ∧
    (∀ id, id ∈ ids → lock_of r id ∉ held w → gone id w') ∧
    (∀ id, entry_id id → id ∉ ids → gone id w → gone id w').
Proof.
  intros Hids Hnd. revert w. induction Hids as [|id ids Hid Hids IH]; intros w Hf Hroot.
  { exists w. split; [done|]. split; [|done]. by intros id ?%elem_of_nil. }
  apply NoDup_cons in Hnd as [Hnin Hnd]. cbn [foldM]. unfold mbind, M_bind.
  assert (∀ id', entry_id id' → id' ≠ id → ∀ q, under (dir_of r id') q = true ∨ q = lock_of r id' →
    under (dir_of r id) q = false ∧ q ≠ lock_of r id) as Hother.
  { intros id' Hid' Hdiff q Hq. split.
    - apply not_true_is_false. intros Hu. destruct Hq as [Hq| ->].
      + apply Hdiff. by eapply (dir_under_inj r Hr Hne).
      + by rewrite (lock_not_under_dir r Hr Hne) in Hu.
    - intros ->. destruct Hq as [Hq|Hq]; [by rewrite (lock_not_under_dir r Hr Hne) in Hq|].
      apply Hdiff. by apply (lock_of_inj r Hr Hne). }
  assert (∃ w1, recover_one (abs_path r) err id w = (w1, Ret err) ∧ w_faults w1 = [] ∧ held w1 = held w ∧
    (lock_of r id ∉ held w → gone id w1) ∧
    spares (λ q, under (dir_of r id) q = false ∧ q ≠ lock_of r id) ∅ w w1) as (w1 & -> & Hf1 & Hh1 & Hg1 & Hs1).
  { destruct (decide (lock_of r id ∈ held w)) as [Hh|Hh].
    - destruct (recover_one_held id err w Hid Hf Hh) as (w1 & ? & ? & ? & [F D S]).
      exists w1. split_and!; try done. split; [intros q []; auto..|set_solver].
    - destruct (recover_one_free id err w Hid Hf Hroot Hh) as (w1 & ? & ? & ? & ? & ?). exists w1. by split_and!. }
  destruct (IH Hnd w1 Hf1) as (w2 & -> & Hg2 & Hk2).
  { apply (sp_dirs _ _ _ _ Hs1); [|done]. split; [by apply root_not_under|].
    intros E. apply abs_path_inj in E; [|done|by apply plains_snoc, plain_lock|done|by destruct r].
    apply (f_equal length) in E. rewrite length_app in E. simpl in E. lia. }
  exists w2. split; [done|]. split.
  - intros id' [->|Hin]%elem_of_cons Hfree; [|apply Hg2; [done|by rewrite Hh1]]. by apply Hk2; auto.
  - intros id' Hid' [Hdiff Hin]%not_elem_of_cons Hg. apply Hk2; [done..|]. eapply gone_spares; [|exact Hs1|exact Hg].
    by apply Hother.
Qed.

End Complete.

(** Recovery removes exactly what nobody uses: whatever fails, and even if
    the process is killed, a temporary directory whose lock is held, by this or
    another process, keeps all its files and its lock; and if nothing fails, no
    directory or lock file of a temporary directory without a holder is left. *)
Theorem RecoverStaleDirs_spec r w :
  plains r → r ≠ [] →
  let '(w', o) := RecoverStaleDirs (abs_path r) w in
  (∀ id, entry_id id → lock_of r id ∈ held w →
     spares (λ q, under (dir_of r id) q = true) {[lock_of r id]} w w') ∧
  (w_faults w = [] → abs_path r ∈ w_dirs w →
     o = Ret tt ∧
     ∀ id, entry_id id → lock_of r id ∉ held w →
           dir_of r id ∈ w_dirs w ∨ is_Some (w_files w !! lock_of r id) → gone r id w').
Proof.
  intros Hr Hne. unfold RecoverStaleDirs, mbind, M_bind.
  pose proof (list_ids_wp r w Hr Hne) as Hl. unfold wp in Hl.
  destruct (listPotentialStaleDirs (abs_path r) w) as [w1 [ids|e|c]]; simpl in Hl.
  - destruct Hl as ((l & -> & Hl) & Hids & Hnd & Hall).
    assert (∀ id, entry_id id → lock_of r id ∈ held w → spares (λ q, under (dir_of r id) q = true) {[lock_of r id]} w
      (fst (foldM (recover_one (abs_path r)) None ids (set_faults l w)))) as Hsafe.
    { intros id Hid Hh.
      destruct (recover_list_guarded r Hr Hne id None ids Hid Hids (set_faults l w) Hh) as [F D S]. by split. }
    assert (w_faults w = [] → abs_path r ∈ w_dirs w → ∃ w', foldM (recover_one (abs_path r)) None ids (set_faults l w) = (w', Ret None) ∧
      ∀ id, entry_id id → lock_of r id ∉ held w → dir_of r id ∈ w_dirs w ∨ is_Some (w_files w !! lock_of r id) → gone r id w') as Hok.
    { intros Hf Hroot. destruct (recover_list_ok r Hr Hne ids None (set_faults l w)) as (w' & -> & Hg & _); [done|done|by apply Hl|done|].
      exists w'. split; [done|]. intros id Hid Hfree Hin. apply Hg; [|done]. by apply Hall. }
    destruct (foldM _ None ids _) as [w2 [[e|]|e|c]]; simpl in *; (split; [exact Hsafe|]); intros Hf Hroot;
      destruct (Hok Hf Hroot) as (w' & E & Hg); try done. by injection E as <-.
  - destruct Hl as [(l & -> & _) Hf]. split; [done|]. done.
  - destruct Hl as [(l & -> & _) Hf]. split; [done|]. done.
Qed.

(** A store directory with a temporary directory in use and a stale one. *)
Definition demo_stale : World :=
  set_meta (mkMeta ∅ [] ∅ ∅ {["/s/tmp/lock-1"]})
    (set_dirs {["/s"; "/s/tmp"; "/s/tmp/temp-dir-1"; "/s/tmp/temp-dir-2"]}
       (set_files {["/s/tmp/lock-1" := ""; "/s/tmp/temp-dir-1/0-a" := "x"; "/s/tmp/lock-2" := ""; "/s/tmp/temp-dir-2/0-b" := "y"]}
          demo_world)).

Lemma RecoverStaleDirs_spec_witness :
  let '(w', o) := RecoverStaleDirs "/s/tmp" demo_stale in
  o = Ret tt ∧ w_files w' = {["/s/tmp/lock-1" := ""; "/s/tmp/temp-dir-1/0-a" := "x"]} ∧ gone ["s"; "tmp"] "2" w'.
Proof.
  assert (plains ["s"; "tmp"]) as Hp by (repeat constructor).
  pose proof (RecoverStaleDirs_spec ["s"; "tmp"] demo_stale Hp ltac:(done)) as Hs.
  change (abs_path ["s"; "tmp"]) with "/s/tmp" in Hs.
  assert (w_files (fst (RecoverStaleDirs "/s/tmp" demo_stale)) =
          {["/s/tmp/lock-1" := ""; "/s/tmp/temp-dir-1/0-a" := "x"]}) as Hf by (vm_compute; reflexivity).
  destruct (RecoverStaleDirs "/s/tmp" demo_stale) as [w' o]. cbn [fst] in Hf.
  destruct Hs as [_ Hs]. destruct Hs as [-> Hg]; [done|apply (bool_decide_unpack _); vm_compute; exact I|].
  split; [done|]. split; [exact Hf|]. apply Hg; [done|apply (bool_decide_unpack _); vm_compute; exact I|].
  left. apply (bool_decide_unpack _). vm_compute. exact I.
Defined.

(** ** Staging a deletion *)

Lemma reroot_under src dst q : under src q = true → under dst (reroot src dst q) = true.
Proof.
  intros Hu. unfold reroot. rewrite Hu. unfold under in *. rewrite orb_true_iff, bool_decide_eq_true, prefix_app in *.
  destruct Hu as [->|[t ->]].
  - left. rewrite Nat.sub_diag. replace (String.substring (String.length src) 0 src) with ""; [by rewrite string_app_nil_r|].
    clear. induction src as [|c s IH]; [done|]. simpl. by rewrite <- IH.
  - right. rewrite string_app_assoc, substring_skip, string_length_app, Nat.add_comm, Nat.add_sub.
    exists t. by rewrite substring_all, string_app_assoc.
Qed.

(** Keys of a renamed tree. *)
Lemma move_lookup {A} src dst (m : gmap string A) q :
  under dst q = false →
  (list_to_map (prod_map (reroot src dst) id <$> map_to_list m) : gmap string A) !! q =
    if under src q then None else m !! q.
Proof.
  intros Hq.
  assert (∀ k, q = reroot src dst k → under src k = false ∧ k = q) as Hk.
  { intros k E. destruct (under src k) eqn:Eu.
    - by rewrite E, reroot_under in Hq.
    - unfold reroot in E. by rewrite Eu in E. }
  destruct (under src q) eqn:Eu; [|destruct (m !! q) as [a|] eqn:Em].
  - apply not_elem_of_list_to_map_1. intros ([k a] & E & Hin)%list_elem_of_fmap.
    apply list_elem_of_fmap in Hin as ([k' a'] & [= -> ->] & _). simpl in E. destruct (Hk k' E) as [? ->]. congruence.
  - apply elem_of_list_to_map_1'.
    + intros a' ([k b] & [= E ->] & Hin)%list_elem_of_fmap. destruct (Hk k E) as [_ ->].
      apply elem_of_map_to_list in Hin. simpl. congruence.
    + apply list_elem_of_fmap. exists (q, a). split; [simpl; unfold reroot; by rewrite Eu|by apply elem_of_map_to_list].
  - apply not_elem_of_list_to_map_1. intros ([k a] & E & Hin)%list_elem_of_fmap.
    apply list_elem_of_fmap in Hin as ([k' a'] & [= -> ->] & Hin). simpl in E. apply elem_of_map_to_list in Hin.
    destruct (Hk k' E) as [_ ->]. congruence.
Qed.

Lemma move_dirs src dst (d : gset string) q :
  under dst q = false → q ∈ set_map (D := gset string) (reroot src dst) d ↔ q ∈ d ∧ under src q = false.
Proof.
  intros Hq. rewrite elem_of_map. split.
  - intros (k & -> & Hk). destruct (under src k) eqn:Eu; [by rewrite reroot_under in Hq|].
    unfold reroot. by rewrite Eu.
  - intros [Hin Hu]. exists q. split; [|done]. unfold reroot. by rewrite Hu.
Qed.

(** A path that is a file has nothing below it. *)
Definition leaf_ok (p : string) (w : World) : Prop :=
  is_Some (w_files w !! p) →
  p ∉ w_dirs w ∧ ∀ q, under p q = true → q ≠ p → w_files w !! q = None ∧ q ∉ w_dirs w.

Lemma Rename_wp src dst w :
  under src dst = false → leaf_ok src w →
  wp (os_Rename src dst) (λ o w', match o with
    | Ret _ => ∀ q, under dst q = false →
        w_files w' !! q = (if under src q then None else w_files w !! q) ∧ (q ∈ w_dirs w' ↔ q ∈ w_dirs w ∧ under src q = false)
    | _ => w_files w' = w_files w ∧ w_dirs w' = w_dirs w
    end) w.
Proof.
  intros Hsd Hleaf. unfold os_Rename. apply wp_syscall; [done|done|]. intros l. wp_step. wp_step. simpl.
  destruct (w_files w !! src) as [d|] eqn:Es.
  - case_decide as Hd; [by wp_step|]. wp_step. intros q Hq. simpl.
    destruct Hleaf as [Hsrc Hleaf]; [by eexists|].
    assert (q ≠ dst) as Hqd by (intros ->; by rewrite under_refl in Hq).
    rewrite lookup_insert_ne by done. destruct (under src q) eqn:Eu.
    + destruct (decide (q = src)) as [->|Hne]; [rewrite lookup_delete_eq; naive_solver|].
      rewrite lookup_delete_ne by done. destruct (Hleaf q Eu Hne) as [? ?]. naive_solver.
    + rewrite lookup_delete_ne by (intros <-; by rewrite under_refl in Eu). naive_solver.
  - case_decide as Hs; [|by wp_step]. case_decide as Hfree; wp_step; [|done].
    intros q Hq. simpl. rewrite move_lookup, move_dirs by done. done.
Qed.

(** Staging a deletion is atomic: when [StageDeletion] returns, nothing is
    left at the path, and nothing else has changed outside the place the tree
    went to; when it fails or the process is killed, nothing has changed at all.
    It only works while the lock of the temporary directory is held. *)
Theorem StageDeletion_atomic path w td :
  let dst := filepath_Join [tempDirPath td; pretty (td_counter td) +:+ "-" +:+ filepath_Base path] in
  under path dst = false → leaf_ok path w →
  let '((w', td'), o) := StageDeletion path (w, td) in
  match o with
  | Ret _ => tempDirLock td ≠ None ∧ td_counter td' = uint64 (td_counter td + 1) ∧
      ∀ q, under dst q = false →
        w_files w' !! q = (if under path q then None else w_files w !! q) ∧ (q ∈ w_dirs w' ↔ q ∈ w_dirs w ∧ under path q = false)
  | _ => w_files w' = w_files w ∧ w_dirs w' = w_dirs w
  end.
Proof.
  intros dst Hu Hl.
  assert (wp (StageDeletion path) (λ o s', match o with
  | Ret _ => tempDirLock td ≠ None ∧ td_counter (snd s') = uint64 (td_counter td + 1) ∧
      ∀ q, under dst q = false →
        w_files (fst s') !! q = (if under path q then None else w_files w !! q) ∧
        (q ∈ w_dirs (fst s') ↔ q ∈ w_dirs w ∧ under path q = false)
  | _ => w_files (fst s') = w_files w ∧ w_dirs (fst s') = w_dirs w
  end) (w, td)) as Hwp.
  { unfold StageDeletion, active, next_counter, onDisk. wp_step. wp_step. wp_step. simpl.
    destruct (tempDirLock td) eqn:El; [|by wp_step]. wp_step. wp_step. wp_step. wp_step. wp_step. wp_step. wp_step. simpl.
    wp_step. wp_step. wp_step. simpl. eapply wp_mono; [by apply Rename_wp|].
    intros [[]|e|c] w' Hr; simpl in *; [split; [discriminate|]; split; [reflexivity|]; exact Hr|exact Hr..]. }
  unfold wp in Hwp. by destruct (StageDeletion path (w, td)) as [[w' td'] [[]|e|c]].
Qed.

(** A layer directory that is moved away. *)
Definition demo_layer : World :=
  set_dirs {["/s"; "/s/l"; "/s/tmp"; "/s/tmp/temp-dir-1"]} (set_files {["/s/l/f" := "x"; "/s/k" := "y"]} demo_world).

Lemma StageDeletion_atomic_witness :
  let td := mkTempDir "/s/tmp" "/s/tmp/temp-dir-1" (Some "/s/tmp/lock-1") "/s/tmp/lock-1" 0 in
  w_files (fst (fst (StageDeletion "/s/l" (demo_layer, td)))) =
    {["/s/tmp/temp-dir-1/0-l/f" := "x"; "/s/k" := "y"]} ∧
  (let '((w', td'), o) := StageDeletion "/s/l" (demo_layer, td) in
   match o with
   | Ret _ => tempDirLock td ≠ None ∧ td_counter td' = 1%Z ∧
       ∀ q, under "/s/tmp/temp-dir-1/0-l" q = false →
         w_files w' !! q = (if under "/s/l" q then None else w_files demo_layer !! q) ∧
         (q ∈ w_dirs w' ↔ q ∈ w_dirs demo_layer ∧ under "/s/l" q = false)
   | _ => w_files w' = w_files demo_layer ∧ w_dirs w' = w_dirs demo_layer
   end).
Proof.
  split; [vm_compute; reflexivity|].
  apply (StageDeletion_atomic "/s/l" demo_layer (mkTempDir "/s/tmp" "/s/tmp/temp-dir-1" (Some "/s/tmp/lock-1") "/s/tmp/lock-1" 0)).
  - vm_compute. reflexivity.
  - intros [d E]. vm_compute in E. discriminate E.
Defined.
