(* ===== verification/IdSet.v ===== *)
(** * storage/idset.go and the allocation of user namespaces

    Sets of identifiers as ordered intervals, the check for overlapping
    mappings, and [getAutoUserNSIDMappings] of [storage/userns.go].

    The set of intervals itself is the third-party package [intervalset]: the
    class [IntervalSet] has the operations the code calls, [IntervalSetSpec]
    what their documentation promises for intervals without overflow;
    [list_set] is an implementation. *)

From S2P Require Import Prelude Strconv IdTools.

Local Open Scope Z_scope.

(** ** interval *)

Record interval := mkInterval { start : Z; end_ : Z }.

#[global] Instance interval_eq_dec : EqDecision interval.
Proof. solve_decision. Defined.

Definition length_ (i : interval) : Z := Z.max 0 (int64 (end_ i - start i)).

Definition Intersect (i j : interval) : interval :=
  mkInterval (Z.max (start i) (start j)) (Z.min (end_ i) (end_ j)).

Definition IsZero (i : interval) : bool := bool_decide (length_ i ≤ 0).

Definition Before (i j : interval) : bool :=
  negb (IsZero i) && negb (IsZero j) && bool_decide (end_ i < start j).

Definition Bisect (i j : interval) : interval * interval :=
  if IsZero j then (i, mkInterval 0 0)
  else (mkInterval (start i) (Z.min (end_ i) (start j)),
        mkInterval (Z.max (start i) (end_ j)) (end_ i)).

Definition Adjoin (i j : interval) : interval :=
  if negb (IsZero i) && negb (IsZero j) &&
     (bool_decide (end_ i = start j) || bool_decide (end_ j = start i))
  then mkInterval (Z.min (start i) (start j)) (Z.max (end_ i) (end_ j))
  else mkInterval 0 0.

Definition Encompass (i j : interval) : interval :=
  if IsZero i then j
  else if IsZero j then i
  else mkInterval (Z.min (start i) (start j)) (Z.max (end_ i) (end_ j)).

(** ** The interval sets of the third-party package *)

Class IntervalSet (IS : Type) := {
  EmptySet : IS;
  AddInterval : IS → interval → IS;            (* s.Add(NewSet([]Interval{i})) *)
  Union : IS → IS → IS;
  Sub : IS → IS → IS;
  NewImmutableSet : list interval → option IS; (* None: panic, not sorted *)
  Intervals : IS → list interval;              (* in the order of iteration *)
  IntervalsBetween : IS → interval → list interval
}.

(** Membership, and the intervals on which the methods above do not overflow. *)
Definition in_iv (i : interval) (x : Z) : Prop := start i ≤ x < end_ i.
Definition iv_ok (i : interval) : Prop :=
  - 2 ^ 62 < start i < 2 ^ 62 ∧ - 2 ^ 62 < end_ i < 2 ^ 62.

Definition ivs_mem (l : list interval) (x : Z) : Prop := Exists (λ i, in_iv i x) l.

(** Non-empty intervals, each strictly before the next. *)
Inductive ivs_sorted : list interval → Prop :=
  | ivs_sorted_nil : ivs_sorted []
  | ivs_sorted_one i : start i < end_ i → ivs_sorted [i]
  | ivs_sorted_cons i j l :
      start i < end_ i → end_ i < start j → ivs_sorted (j :: l) → ivs_sorted (i :: j :: l).

(** The sets of [IS] are those that the operations make when [NewImmutableSet] is
    called, as the code does, with intervals that are not empty, in order and
    apart: of a single empty interval, [NewImmutableSet] makes a set that lists
    it. *)
Class IntervalSetSpec (IS : Type) `{IntervalSet IS} := {
  set_sorted s : ivs_sorted (Intervals s);
  empty_mem x : ¬ ivs_mem (Intervals EmptySet) x;
  add_mem s i x : iv_ok i → ivs_mem (Intervals (AddInterval s i)) x ↔ ivs_mem (Intervals s) x ∨ in_iv i x;
  union_mem s t x : ivs_mem (Intervals (Union s t)) x ↔ ivs_mem (Intervals s) x ∨ ivs_mem (Intervals t) x;
  sub_mem s t x : ivs_mem (Intervals (Sub s t)) x ↔ ivs_mem (Intervals s) x ∧ ¬ ivs_mem (Intervals t) x;
  new_sorted l : ivs_sorted l → ∃ s, NewImmutableSet l = Some s ∧ Intervals s = l;
  between_mem s i : iv_ok i →
    IntervalsBetween s i = [] ↔ ∀ x, in_iv i x → ¬ ivs_mem (Intervals s) x
}.

(** ** idSet; [nil] is [None] *)

Section IdSet.
Context {IS : Type} `{IntervalSet IS}.

Definition idSet := option IS.

Definition newIDSet (intervals : list interval) : idSet :=
  Some (foldl AddInterval EmptySet intervals).

Definition getHostIDs (idMaps : list IDMap) : idSet :=
  newIDSet ((λ m, mkInterval (HostID m) (int64 (HostID m + Size m))) <$> idMaps).

Definition getContainerIDs (idMaps : list IDMap) : idSet :=
  newIDSet ((λ m, mkInterval (ContainerID m) (int64 (ContainerID m + Size m))) <$> idMaps).

Definition subtract (s t : idSet) : idSet :=
  match s, t with
  | Some s', Some t' => Some (Sub s' t')
  | _, _ => s
  end.

Definition union_ (s t : idSet) : idSet :=
  match s, t with
  | None, _ => t
  | _, None => s
  | Some s', Some t' => Some (Union s' t')
  end.

(** What the iterator yields, up to the final nil. *)
Definition iterator (s : idSet) : list interval :=
  match s with None => [] | Some s' => Intervals s' end.

Definition size_ (s : idSet) : Z :=
  foldl (λ n i, int64 (n + length_ i)) 0 (iterator s).

(** The loop of [findAvailable]: intervals taken, identifiers still missing. *)
Fixpoint take_ids (n : Z) (l : list interval) : list interval * Z :=
  match l with
  | [] => ([], n)
  | i :: l =>
      if decide (0 < n) then
        let i := mkInterval (start i) (Z.min (end_ i) (int64 (start i + n))) in
        let '(r, n) := take_ids (int64 (n - length_ i)) l in (i :: r, n)
      else ([], n)
  end.

Definition findAvailable (s : idSet) (n : Z) : outcome idSet :=
  let '(intervals, n) := take_ids n (iterator s) in
  if decide (0 < n) then Err ErrNoAvailableIDs
  else match NewImmutableSet intervals with
       | Some r => Ret (Some r)
       | None => Crash (Panic "intervals are not sorted")
       end.

(** The loop of [zip].  Every round uses up an interval of one side, so the
    number of intervals bounds the rounds. *)
Fixpoint zip_from (fuel : nat) (hs cs : list interval) : list IDMap :=
  match fuel with
  | O => []
  | S fuel =>
      match hs, cs with
      | h :: hs', c :: cs' =>
          let n := Z.min (length_ h) (length_ c) in
          let out := if decide (0 < n) then [mkIDMap (start c) (start h) n] else [] in
          let h := if decide (0 < n) then mkInterval (int64 (start h + n)) (end_ h) else h in
          let c := if decide (0 < n) then mkInterval (int64 (start c + n)) (end_ c) else c in
          (out ++ zip_from fuel (if IsZero h then hs' else h :: hs')
                                (if IsZero c then cs' else c :: cs'))%list
      | _, _ => []
      end
  end.

Definition zip_ (s container : idSet) : list IDMap :=
  zip_from (length (iterator s) + length (iterator container))
    (iterator s) (iterator container).

(** ** hasOverlappingRanges *)

(** One mapping against the container and host intervals seen so far; the
    flag says whether it conflicts. *)
Definition overlap_step (st : IS * IS * list IDMap) (m : IDMap) : IS * IS * list IDMap :=
  let '(containerIntervals, hostIntervals, conflicts) := st in
  let c := mkInterval (ContainerID m) (int64 (ContainerID m + Size m)) in
  let h := mkInterval (HostID m) (int64 (HostID m + Size m)) in
  let overlapsC := bool_decide (IntervalsBetween containerIntervals c ≠ []) in
  let overlapsH := bool_decide (IntervalsBetween hostIntervals h ≠ []) in
  (AddInterval containerIntervals c, AddInterval hostIntervals h,
   if overlapsC || overlapsH then (conflicts ++ [m])%list else conflicts).

Definition hasOverlappingRanges (mappings : list IDMap) : option error :=
  let '(_, _, conflicts) := foldl overlap_step (EmptySet, EmptySet, []) mappings in
  if decide (conflicts = []) then None else Some ErrInvalidMappings.

(** ** getAutoUserNSIDMappings *)

Definition getAutoUserNSIDMappings (size : Z) (availableUIDs availableGIDs : idSet)
    (usedUIDMappings usedGIDMappings additionalUIDMappings additionalGIDMappings : list IDMap)
    : outcome (list IDMap * list IDMap) :=
  let usedUIDs := getHostIDs (usedUIDMappings ++ additionalUIDMappings) in
  let usedGIDs := getHostIDs (usedGIDMappings ++ additionalGIDMappings) in
  let targetIDs := newIDSet [mkInterval 0 size] in
  let requestedContainerUIDs := subtract targetIDs (getContainerIDs additionalUIDMappings) in
  let requestedContainerGIDs := subtract targetIDs (getContainerIDs additionalGIDMappings) in
  availableUIDs ← findAvailable (subtract availableUIDs usedUIDs) (size_ requestedContainerUIDs);
  availableGIDs ← findAvailable (subtract availableGIDs usedGIDs) (size_ requestedContainerGIDs);
  Ret (zip_ availableUIDs requestedContainerUIDs ++ additionalUIDMappings,
       zip_ availableGIDs requestedContainerGIDs ++ additionalGIDMappings)%list.
End IdSet.
Arguments idSet : clear implicits.

(** ** Sorted lists of intervals *)

Definition ivs_size (l : list interval) : Z := foldr (λ i n, end_ i - start i + n) 0 l.

(** Identifiers the kernel can use are far below this bound. *)
Definition id_limit : Z := 2 ^ 61.
Definition ids_bounded (l : list interval) : Prop := ∀ x, ivs_mem l x → 0 ≤ x < id_limit.

Lemma ivs_mem_cons i l x : ivs_mem (i :: l) x ↔ in_iv i x ∨ ivs_mem l x.
Proof. unfold ivs_mem. apply Exists_cons. Qed.

Lemma ivs_mem_nil x : ¬ ivs_mem [] x.
Proof. unfold ivs_mem. inversion 1. Qed.

Lemma ivs_sorted_tail i l : ivs_sorted (i :: l) → ivs_sorted l.
Proof. inversion 1; subst; [constructor|done]. Qed.

Lemma ivs_sorted_head i l : ivs_sorted (i :: l) → start i < end_ i.
Proof. by inversion 1. Qed.

(** Everything after the first interval lies strictly behind it. *)
Lemma ivs_sorted_after i l x : ivs_sorted (i :: l) → ivs_mem l x → end_ i < x.
Proof.
  revert i. induction l as [|j l IH]; intros i Hs Hx; [by apply ivs_mem_nil in Hx|].
  inversion Hs as [| |? ? ? Hi Hij Hjl]; subst.
  apply ivs_mem_cons in Hx as [[? ?]|Hx]; [lia|].
  pose proof (IH j Hjl Hx). apply ivs_sorted_head in Hjl. lia.
Qed.

Lemma ivs_bounded_cons i l :
  ivs_sorted (i :: l) → ids_bounded (i :: l) →
  0 ≤ start i ∧ end_ i ≤ id_limit ∧ ids_bounded l.
Proof.
  intros Hs Hb. pose proof (ivs_sorted_head _ _ Hs) as Hi.
  assert (in_iv i (start i) ∧ in_iv i (end_ i - 1)) as [H1 H2] by (unfold in_iv; lia).
  pose proof (Hb _ (proj2 (ivs_mem_cons _ l _) (or_introl H1))).
  pose proof (Hb _ (proj2 (ivs_mem_cons _ l _) (or_introl H2))).
  split_and!; [lia|lia|]. intros x Hx. apply Hb, ivs_mem_cons. by right.
Qed.

Lemma length_ok i : 0 ≤ start i → start i < end_ i → end_ i ≤ id_limit →
  length_ i = end_ i - start i.
Proof.
  unfold length_, id_limit. intros. rewrite int64_id by (unfold in_int64; lia). lia.
Qed.

Lemma IsZero_spec a e : 0 ≤ a → a ≤ e → e ≤ id_limit → IsZero (mkInterval a e) = bool_decide (a = e).
Proof.
  unfold IsZero, length_, id_limit. simpl. intros.
  rewrite int64_id by (unfold in_int64; lia). apply bool_decide_ext. lia.
Qed.

Lemma ivs_size_cons i l : ivs_size (i :: l) = end_ i - start i + ivs_size l.
Proof. done. Qed.

(** Disjoint intervals below a bound have no more elements than the bound. *)
Lemma ivs_size_bound i l :
  ivs_sorted (i :: l) → ids_bounded (i :: l) → 0 ≤ ivs_size l ∧ ivs_size (i :: l) ≤ id_limit - start i.
Proof.
  revert i. induction l as [|j l IH]; intros i Hs Hb.
  - destruct (ivs_bounded_cons _ _ Hs Hb) as (? & ? & ?). rewrite ivs_size_cons. simpl. lia.
  - destruct (ivs_bounded_cons _ _ Hs Hb) as (? & ? & Hb').
    pose proof (ivs_sorted_tail _ _ Hs) as Hs'. destruct (IH j Hs' Hb') as [? ?].
    pose proof (ivs_sorted_head _ _ Hs'). inversion Hs; subst.
    rewrite !ivs_size_cons in *. lia.
Qed.

Lemma ivs_size_range l : ivs_sorted l → ids_bounded l → 0 ≤ ivs_size l ≤ id_limit.
Proof.
  destruct l as [|i l]; intros Hs Hb; [simpl; unfold id_limit; lia|].
  destruct (ivs_size_bound i l Hs Hb). destruct (ivs_bounded_cons _ _ Hs Hb) as (? & ? & ?).
  pose proof (ivs_sorted_head _ _ Hs). rewrite ivs_size_cons in *. lia.
Qed.

Lemma size_fold l acc :
  ivs_sorted l → ids_bounded l → 0 ≤ acc → acc + ivs_size l < 2 ^ 63 →
  foldl (λ n i, int64 (n + length_ i)) acc l = acc + ivs_size l.
Proof.
  revert acc. induction l as [|i l IH]; intros acc Hs Hb Ha Hlt; simpl; [lia|].
  destruct (ivs_bounded_cons _ _ Hs Hb) as (? & ? & Hb').
  pose proof (ivs_sorted_head _ _ Hs). pose proof (ivs_sorted_tail _ _ Hs) as Hs'.
  pose proof (ivs_size_range l Hs' Hb'). rewrite ivs_size_cons in Hlt.
  rewrite length_ok by done. rewrite int64_id by (unfold in_int64; lia).
  rewrite IH by (done || lia). lia.
Qed.

(** What is left of a list when its first interval is used up to [a]. *)
Definition advance (a : Z) (i : interval) (l : list interval) : list interval :=
  if decide (a = end_ i) then l else mkInterval a (end_ i) :: l.

Lemma advance_sorted a i l :
  ivs_sorted (i :: l) → start i ≤ a ≤ end_ i → ivs_sorted (advance a i l).
Proof.
  intros Hs Ha. unfold advance. case_decide; [by eapply ivs_sorted_tail|].
  inversion Hs; subst; constructor; simpl; (lia || done).
Qed.

Lemma advance_mem a i l x :
  ivs_sorted (i :: l) → start i ≤ a ≤ end_ i →
  ivs_mem (advance a i l) x ↔ ivs_mem (i :: l) x ∧ a ≤ x.
Proof.
  intros Hs Ha. pose proof (ivs_sorted_after i l x Hs) as Haf.
  unfold advance. case_decide as E.
  - rewrite ivs_mem_cons. unfold in_iv. split.
    + intros Hx. pose proof (Haf Hx). split; [by right|lia].
    + intros [[?|?] ?]; [lia|done].
  - rewrite !ivs_mem_cons. unfold in_iv. simpl. split.
    + intros [?|Hx]; [split; [left|]; lia|]. pose proof (Haf Hx). split; [by right|lia].
    + intros [[?|?] ?]; [left; lia|by right].
Qed.

Lemma advance_size a i l : ivs_size (advance a i l) = ivs_size (i :: l) - (a - start i).
Proof. unfold advance. rewrite ivs_size_cons. case_decide; [|rewrite ivs_size_cons; simpl]; lia. Qed.

Lemma advance_length a i l : (length (advance a i l) ≤ S (length l))%nat.
Proof. unfold advance. case_decide; simpl; lia. Qed.

(** ** findAvailable and zip on sorted lists *)

(** [take_ids n] takes the first [n] identifiers, or all there are. *)
Lemma take_ids_spec n l r n' :
  ivs_sorted l → ids_bounded l → 0 ≤ n ≤ id_limit → take_ids n l = (r, n') →
  ivs_sorted r ∧ (∀ x, ivs_mem r x → ivs_mem l x) ∧
  ivs_size r = Z.min n (ivs_size l) ∧ n' = n - ivs_size r ∧
  (r = [] ∨ start <$> head r = start <$> head l).
Proof.
  revert n r n'. induction l as [|i l IH]; intros n r n' Hs Hb Hn H; simpl in H.
  { injection H as <- <-. simpl. split_and!; [constructor|done|lia|lia|by left]. }
  destruct (ivs_bounded_cons _ _ Hs Hb) as (? & ? & Hb').
  pose proof (ivs_sorted_head _ _ Hs). pose proof (ivs_sorted_tail _ _ Hs) as Hs'.
  pose proof (ivs_size_range l Hs' Hb'). rewrite ivs_size_cons.
  case_decide as Hpos.
  2: { injection H as <- <-. simpl. split_and!; [constructor|by intros ? ?%ivs_mem_nil|lia|lia|by left]. }
  unfold id_limit in *. rewrite (int64_id (start i + n)) in H by (unfold in_int64; lia).
  assert (∃ e, e = Z.min (end_ i) (start i + n)) as [e He] by eauto. rewrite <- He in H.
  rewrite length_ok in H by (unfold id_limit; simpl; lia). cbn [start end_] in H.
  rewrite int64_id in H by (unfold in_int64; lia).
  destruct (take_ids (n - (e - start i)) l) as [r1 n1] eqn:E. injection H as <- <-.
  destruct (IH (n - (e - start i)) r1 n1 Hs' Hb') as (Hr & Hm & Hsz & -> & Hh); [lia|done|].
  rewrite ivs_size_cons. simpl. split_and!.
  - destruct r1 as [|j r1]; [constructor; simpl; lia|].
    destruct l as [|k l]; [by destruct Hh|]. destruct Hh as [|Hh]; [done|]. simpl in Hh.
    injection Hh as Hjk. inversion Hs; subst. constructor; simpl; [lia|lia|done].
  - intros x. rewrite !ivs_mem_cons. unfold in_iv. simpl. intros [?|?]; [left; lia|right; auto].
  - lia.
  - lia.
  - by right.
Qed.

(** One round of [zip_from] on non-empty lists. *)
Lemma zip_from_step fuel h hs c cs :
  ivs_sorted (h :: hs) → ids_bounded (h :: hs) → ivs_sorted (c :: cs) → ids_bounded (c :: cs) →
  ∃ n, n = Z.min (end_ h - start h) (end_ c - start c) ∧
  zip_from (S fuel) (h :: hs) (c :: cs) =
    mkIDMap (start c) (start h) n ::
    zip_from fuel (advance (start h + n) h hs) (advance (start c + n) c cs).
Proof.
  intros Hsh Hbh Hsc Hbc. eexists. split; [done|].
  destruct (ivs_bounded_cons _ _ Hsh Hbh) as (? & ? & _).
  destruct (ivs_bounded_cons _ _ Hsc Hbc) as (? & ? & _).
  pose proof (ivs_sorted_head _ _ Hsh). pose proof (ivs_sorted_head _ _ Hsc).
  cbn [zip_from]. rewrite !length_ok by done.
  assert (∃ n, n = Z.min (end_ h - start h) (end_ c - start c)) as [n Hn] by eauto.
  rewrite <- Hn. rewrite !(decide_True (P := 0 < n)) by lia.
  unfold id_limit in *. rewrite !int64_id by (unfold in_int64; lia).
  rewrite !IsZero_spec by (unfold id_limit; lia). unfold advance.
  do 2 case_bool_decide; do 2 case_decide; done.
Qed.

(** What the pairing of two sorted lists of intervals gives. *)
Record zipped (hs cs : list interval) (out : list IDMap) : Prop := {
  zipped_ok : Forall entry_ok out;
  zipped_host m h : m ∈ out → in_host m h → ivs_mem hs h;
  zipped_container m c : m ∈ out → in_container m c → ivs_mem cs c;
  zipped_host_disjoint : host_disjoint out;
  zipped_container_disjoint : container_disjoint out;
  zipped_cover c : ivs_size cs ≤ ivs_size hs → ivs_mem cs c → ∃ m, m ∈ out ∧ in_container m c
}.

Lemma zipped_nil hs cs :
  ivs_sorted hs → ids_bounded hs → ivs_sorted cs → ids_bounded cs → hs = [] ∨ cs = [] → zipped hs cs [].
Proof.
  intros Hsh Hbh Hsc Hbc Hnil. split; try (by intros ? ? ?%elem_of_nil); try (by intros ? ? ? ?%elem_of_nil).
  - constructor.
  - intros c Hle Hc. destruct Hnil as [->| ->]; [|by apply ivs_mem_nil in Hc].
    destruct cs as [|i cs]; [by apply ivs_mem_nil in Hc|].
    destruct (ivs_size_bound i cs Hsc Hbc). pose proof (ivs_sorted_head _ _ Hsc).
    rewrite ivs_size_cons in Hle. simpl in Hle. lia.
Qed.

Lemma zipped_cons h hs c cs n out :
  ivs_sorted (h :: hs) → ids_bounded (h :: hs) → ivs_sorted (c :: cs) → ids_bounded (c :: cs) →
  0 < n ≤ end_ h - start h → n ≤ end_ c - start c →
  zipped (advance (start h + n) h hs) (advance (start c + n) c cs) out →
  zipped (h :: hs) (c :: cs) (mkIDMap (start c) (start h) n :: out).
Proof.
  intros Hsh Hbh Hsc Hbc Hn Hn' [Hok Hh Hc Hdh Hdc Hcov].
  destruct (ivs_bounded_cons _ _ Hsh Hbh) as (? & ? & _).
  destruct (ivs_bounded_cons _ _ Hsc Hbc) as (? & ? & _). unfold id_limit in *.
  assert (∀ m x, m ∈ out → in_host m x → ivs_mem (h :: hs) x ∧ start h + n ≤ x) as Hh'.
  { intros m x Hm Hx. apply (advance_mem (start h + n)); [done|lia|by eapply Hh]. }
  assert (∀ m x, m ∈ out → in_container m x → ivs_mem (c :: cs) x ∧ start c + n ≤ x) as Hc'.
  { intros m x Hm Hx. apply (advance_mem (start c + n)); [done|lia|by eapply Hc]. }
  split.
  - constructor; [unfold entry_ok; simpl; lia|done].
  - intros m x [->|Hm]%elem_of_cons; [|by intros [? _]%(Hh' m x Hm)].
    unfold in_host. simpl. intros. apply ivs_mem_cons. left. unfold in_iv. lia.
  - intros m x [->|Hm]%elem_of_cons; [|by intros [? _]%(Hc' m x Hm)].
    unfold in_container. simpl. intros. apply ivs_mem_cons. left. unfold in_iv. lia.
  - intros m m' x [->|Hm]%elem_of_cons [->|Hm']%elem_of_cons Hx Hx'; [done|..|by eapply Hdh].
    + apply (Hh' m' x Hm') in Hx' as [_ ?]. unfold in_host in Hx. simpl in Hx. lia.
    + apply (Hh' m x Hm) in Hx as [_ ?]. unfold in_host in Hx'. simpl in Hx'. lia.
  - intros m m' x [->|Hm]%elem_of_cons [->|Hm']%elem_of_cons Hx Hx'; [done|..|by eapply Hdc].
    + apply (Hc' m' x Hm') in Hx' as [_ ?]. unfold in_container in Hx. simpl in Hx. lia.
    + apply (Hc' m x Hm) in Hx as [_ ?]. unfold in_container in Hx'. simpl in Hx'. lia.
  - intros x Hle Hx. destruct (decide (x < start c + n)).
    + eexists. split; [left|]. unfold in_container. simpl.
      apply ivs_mem_cons in Hx as [[? ?]|Hx]; [lia|].
      pose proof (ivs_sorted_after _ _ _ Hsc Hx). lia.
    + destruct (Hcov x) as (m & ? & ?); [rewrite !advance_size; lia| |].
      * apply advance_mem; [done|lia|]. split; [done|lia].
      * exists m. split; [by right|done].
Qed.

Lemma advance_bounded a i l :
  ivs_sorted (i :: l) → start i ≤ a ≤ end_ i → ids_bounded (i :: l) → ids_bounded (advance a i l).
Proof. intros Hs Ha Hb x Hx. apply Hb. by apply advance_mem in Hx as [? _]. Qed.

Lemma zip_from_zipped fuel hs cs :
  ivs_sorted hs → ids_bounded hs → ivs_sorted cs → ids_bounded cs →
  (length hs + length cs ≤ fuel)%nat → zipped hs cs (zip_from fuel hs cs).
Proof.
  revert hs cs. induction fuel as [|fuel IH]; intros hs cs Hsh Hbh Hsc Hbc Hf.
  { destruct hs, cs; simpl in Hf; try lia. apply zipped_nil; auto. }
  destruct hs as [|h hs]; [apply zipped_nil; auto|].
  destruct cs as [|c cs]; [apply zipped_nil; auto|].
  destruct (zip_from_step fuel h hs c cs) as (n & Hn & ->); [done..|].
  pose proof (ivs_sorted_head _ _ Hsh). pose proof (ivs_sorted_head _ _ Hsc).
  apply zipped_cons; [done..|lia|lia|].
  apply IH; [apply advance_sorted|apply advance_bounded|apply advance_sorted|apply advance_bounded|];
    try (done || lia).
  simpl in Hf. unfold advance. do 2 case_decide; simpl; lia.
Qed.

(** ** Sets *)

(** An entry whose identifiers stay below the bound. *)
Definition small_map (m : IDMap) : Prop :=
  0 ≤ ContainerID m ∧ 0 ≤ HostID m ∧ 0 ≤ Size m ∧
  ContainerID m + Size m ≤ id_limit ∧ HostID m + Size m ≤ id_limit.

Section IdSetFacts.
Context {IS : Type} `{IntervalSetSpec IS}.
Implicit Types (s t : idSet IS).

Definition smem s (x : Z) : Prop := ivs_mem (iterator s) x.

Lemma iterator_sorted s : ivs_sorted (iterator s).
Proof. destruct s; [apply set_sorted|constructor]. Qed.

Lemma fold_add_mem l (s : IS) x :
  Forall iv_ok l →
  ivs_mem (Intervals (foldl AddInterval s l)) x ↔
    ivs_mem (Intervals s) x ∨ ∃ i, i ∈ l ∧ in_iv i x.
Proof.
  intros Hl. revert s. induction Hl as [|i l Hi Hl IH]; intros s; simpl.
  { split; [by left|]. intros [?|(i & ?%elem_of_nil & _)]; done. }
  rewrite IH, add_mem by done. split.
  - intros [[?|?]|(j & ? & ?)]; [by left|right|right].
    + exists i. split; [left|done].
    + exists j. split; [by right|done].
  - intros [?|(j & [->|?]%elem_of_cons & ?)]; eauto.
Qed.

Lemma newIDSet_mem l x : Forall iv_ok l → smem (newIDSet l) x ↔ ∃ i, i ∈ l ∧ in_iv i x.
Proof.
  intros Hl. unfold smem. simpl. rewrite fold_add_mem by done.
  split; [intros [?%empty_mem|?]; done|by right].
Qed.

Lemma getHostIDs_mem l x :
  Forall small_map l → smem (getHostIDs l) x ↔ ∃ m, m ∈ l ∧ in_host m x.
Proof.
  intros Hl. unfold getHostIDs. rewrite newIDSet_mem.
  - split.
    + intros (i & (m & -> & Hm)%list_elem_of_fmap & Hx). exists m. split; [done|].
      rewrite Forall_forall in Hl. destruct (Hl m Hm) as (? & ? & ? & ? & ?).
      unfold in_iv, in_host, id_limit in *. simpl in *.
      rewrite int64_id in Hx by (unfold in_int64; lia). done.
    + intros (m & Hm & Hx). eexists. split; [apply list_elem_of_fmap; by exists m|].
      rewrite Forall_forall in Hl. destruct (Hl m Hm) as (? & ? & ? & ? & ?).
      unfold in_iv, in_host, id_limit in *. simpl.
      rewrite int64_id by (unfold in_int64; lia). done.
  - apply Forall_fmap. eapply Forall_impl; [done|]. intros m (? & ? & ? & ? & ?).
    unfold iv_ok, id_limit in *. simpl. rewrite int64_id by (unfold in_int64; lia). lia.
Qed.

Lemma getContainerIDs_mem l x :
  Forall small_map l → smem (getContainerIDs l) x ↔ ∃ m, m ∈ l ∧ in_container m x.
Proof.
  intros Hl. unfold getContainerIDs. rewrite newIDSet_mem.
  - split.
    + intros (i & (m & -> & Hm)%list_elem_of_fmap & Hx). exists m. split; [done|].
      rewrite Forall_forall in Hl. destruct (Hl m Hm) as (? & ? & ? & ? & ?).
      unfold in_iv, in_container, id_limit in *. simpl in *.
      rewrite int64_id in Hx by (unfold in_int64; lia). done.
    + intros (m & Hm & Hx). eexists. split; [apply list_elem_of_fmap; by exists m|].
      rewrite Forall_forall in Hl. destruct (Hl m Hm) as (? & ? & ? & ? & ?).
      unfold in_iv, in_container, id_limit in *. simpl.
      rewrite int64_id by (unfold in_int64; lia). done.
  - apply Forall_fmap. eapply Forall_impl; [done|]. intros m (? & ? & ? & ? & ?).
    unfold iv_ok, id_limit in *. simpl. rewrite int64_id by (unfold in_int64; lia). lia.
Qed.

Lemma subtract_mem s t x : smem (subtract s t) x ↔ smem s x ∧ ¬ smem t x.
Proof.
  unfold smem. pose proof (ivs_mem_nil x). destruct s as [s|], t as [t|]; simpl; [apply sub_mem|tauto..].
Qed.

Lemma size_spec s : ids_bounded (iterator s) → size_ s = ivs_size (iterator s).
Proof.
  intros Hb. unfold size_. pose proof (ivs_size_range _ (iterator_sorted s) Hb).
  unfold id_limit in *. rewrite size_fold; [lia|apply iterator_sorted|done|lia|lia].
Qed.

(** [findAvailable] succeeds exactly when there are enough identifiers, and
    takes that many of them. *)
Lemma findAvailable_spec s n :
  ids_bounded (iterator s) → 0 ≤ n ≤ id_limit →
  if decide (n ≤ ivs_size (iterator s))
  then ∃ r, findAvailable s n = Ret r ∧ (∀ x, smem r x → smem s x) ∧ ivs_size (iterator r) = n
  else findAvailable s n = Err ErrNoAvailableIDs.
Proof.
  intros Hb Hn. unfold findAvailable.
  destruct (take_ids n (iterator s)) as [r n'] eqn:E.
  destruct (take_ids_spec _ _ _ _ (iterator_sorted s) Hb Hn E) as (Hr & Hm & Hsz & -> & _).
  case_decide; [|by rewrite decide_True by lia].
  rewrite decide_False by lia. destruct (new_sorted r Hr) as (r' & -> & Hr').
  exists (Some r'). unfold smem. simpl. rewrite Hr'. split_and!; [done|done|lia].
Qed.

Lemma zip_zipped s t :
  ids_bounded (iterator s) → ids_bounded (iterator t) →
  zipped (iterator s) (iterator t) (zip_ s t).
Proof. intros. by apply zip_from_zipped; [apply iterator_sorted| |apply iterator_sorted| |]. Qed.
End IdSetFacts.

(** ** An implementation of the interval sets: sorted lists *)

Module ListSet.

Fixpoint sortedb (l : list interval) : bool :=
  match l with
  | [] => true
  | i :: l' =>
      bool_decide (start i < end_ i) &&
      match l' with [] => true | j :: _ => bool_decide (end_ i < start j) end && sortedb l'
  end.

Lemma sortedb_spec l : sortedb l = true ↔ ivs_sorted l.
Proof.
  induction l as [|i l IH]; simpl; [split; [constructor|done]|].
  rewrite !andb_true_iff, bool_decide_eq_true, IH. destruct l as [|j l].
  - split; [intros [[? _] _]; by constructor|inversion 1; by repeat constructor].
  - rewrite bool_decide_eq_true. split; [intros [[? ?] ?]; by constructor|by inversion 1].
Qed.

(** Insertion of a non-empty interval, merging what it touches. *)
Fixpoint ins (i : interval) (l : list interval) : list interval :=
  match l with
  | [] => [i]
  | j :: l' =>
      if decide (end_ i < start j) then i :: l
      else if decide (end_ j < start i) then j :: ins i l'
      else ins (mkInterval (Z.min (start i) (start j)) (Z.max (end_ i) (end_ j))) l'
  end.

Definition add (l : list interval) (i : interval) : list interval :=
  if decide (start i < end_ i) then ins i l else l.

(** What is left of the intervals of [l] without those of [j]. *)
Fixpoint sub1 (l : list interval) (j : interval) : list interval :=
  match l with
  | [] => []
  | i :: l' =>
      let a := mkInterval (start i) (Z.min (end_ i) (start j)) in
      let b := mkInterval (Z.max (start i) (end_ j)) (end_ i) in
      (if decide (start a < end_ a) then [a] else []) ++
      (if decide (start b < end_ b) then [b] else []) ++ sub1 l' j
  end%list.

(** A sorted list whose elements all lie behind [a]. *)
Definition behind (a : Z) (l : list interval) : Prop :=
  ivs_sorted l ∧ match l with [] => True | j :: _ => a < start j end.

Lemma behind_cons a i l : a < start i → start i < end_ i → behind (end_ i) l → behind a (i :: l).
Proof. intros ? ? [? ?]. split; [|done]. destruct l; by constructor. Qed.

Lemma behind_inv a i l : behind a (i :: l) → a < start i ∧ start i < end_ i ∧ behind (end_ i) l.
Proof. intros [Hs ?]. inversion Hs; subst; split_and!; try done; split; try done; constructor. Qed.

Lemma behind_weaken a b l : behind a l → b ≤ a → behind b l.
Proof. intros [? Hl] ?. split; [done|]. destruct l; [done|lia]. Qed.

Lemma sorted_behind l : ivs_sorted l → ∃ a, behind a l.
Proof. destruct l as [|i l]; [by exists 0|]. exists (start i - 1). split; [done|lia]. Qed.

Lemma ins_behind a i l : a < start i → start i < end_ i → behind a l → behind a (ins i l).
Proof.
  revert a i. induction l as [|j l IH]; intros a i Hai Hi Hl; simpl.
  { apply behind_cons; [done|done|]. split; [constructor|done]. }
  destruct (behind_inv _ _ _ Hl) as (? & ? & Hl'). repeat case_decide.
  - apply behind_cons; [done|done|]. by apply behind_cons.
  - apply behind_cons; [done|done|]. by apply IH.
  - apply IH; simpl; [lia|lia|]. eapply behind_weaken; [done|lia].
Qed.

Lemma ins_mem i l x :
  ivs_sorted l → start i < end_ i → ivs_mem (ins i l) x ↔ ivs_mem l x ∨ in_iv i x.
Proof.
  revert i. induction l as [|j l IH]; intros i Hs Hi; simpl.
  { rewrite ivs_mem_cons. pose proof (ivs_mem_nil x). tauto. }
  pose proof (ivs_sorted_tail _ _ Hs) as Hs'. pose proof (ivs_sorted_head _ _ Hs). repeat case_decide.
  - rewrite !ivs_mem_cons. tauto.
  - rewrite !ivs_mem_cons, IH by done. tauto.
  - rewrite IH by (simpl; (done || lia)). rewrite ivs_mem_cons. unfold in_iv. simpl.
    split; [|intros [[?|?]|?]; try tauto; right; lia]. intros [?|?]; [tauto|].
    destruct (decide (start i ≤ x < end_ i)); [tauto|]. left. left. lia.
Qed.

Lemma add_sorted l i : ivs_sorted l → ivs_sorted (add l i).
Proof.
  intros Hs. unfold add. case_decide; [|done].
  destruct (sorted_behind l Hs) as [a Ha].
  destruct (ins_behind (Z.min a (start i - 1)) i l) as [? _]; [lia|done| |done].
  eapply behind_weaken; [done|lia].
Qed.

Lemma sub1_behind a l j : start j < end_ j → behind a l → behind a (sub1 l j).
Proof.
  intros Hj. revert a. induction l as [|i l IH]; intros a Hl; [done|].
  destruct (behind_inv _ _ _ Hl) as (? & ? & Hl'%IH). cbn [sub1 start end_].
  repeat case_decide; simpl; repeat (apply behind_cons; simpl; [lia|lia|]);
    (eapply behind_weaken; [done|lia]).
Qed.

Lemma sub1_mem l j x : start j < end_ j → ivs_mem (sub1 l j) x ↔ ivs_mem l x ∧ ¬ in_iv j x.
Proof.
  intros Hj. induction l as [|i l IH].
  { simpl. pose proof (ivs_mem_nil x). tauto. }
  assert (in_iv i x ∧ ¬ in_iv j x ↔
    in_iv (mkInterval (start i) (Z.min (end_ i) (start j))) x ∨
    in_iv (mkInterval (Z.max (start i) (end_ j)) (end_ i)) x) as Hsplit by (unfold in_iv; simpl; lia).
  assert (∀ k r, ivs_mem ((if decide (start k < end_ k) then [k] else []) ++ r)%list x ↔
    in_iv k x ∨ ivs_mem r x) as Happ.
  { intros k r. case_decide; simpl; [apply ivs_mem_cons|]. unfold in_iv. split; [tauto|].
    intros [?|?]; [lia|done]. }
  rewrite ivs_mem_cons. cbn [sub1]. rewrite !Happ, IH. tauto.
Qed.

Lemma sub_fold_sorted l t : ivs_sorted l → ivs_sorted t → ivs_sorted (foldl sub1 l t).
Proof.
  revert l. induction t as [|j t IH]; intros l Hl Ht; simpl; [done|].
  apply IH; [|by eapply ivs_sorted_tail]. destruct (sorted_behind l Hl) as [a Ha].
  by destruct (sub1_behind a l j (ivs_sorted_head _ _ Ht) Ha).
Qed.

Lemma sub_fold_mem l t x :
  ivs_sorted t → ivs_mem (foldl sub1 l t) x ↔ ivs_mem l x ∧ ¬ ivs_mem t x.
Proof.
  revert l. induction t as [|j t IH]; intros l Ht; simpl.
  { pose proof (ivs_mem_nil x). tauto. }
  rewrite IH by (by eapply ivs_sorted_tail).
  rewrite sub1_mem by (by eapply ivs_sorted_head). rewrite ivs_mem_cons. tauto.
Qed.

Lemma add_fold_sorted l t : ivs_sorted l → ivs_sorted (foldl add l t).
Proof. revert l. induction t; simpl; eauto using add_sorted. Qed.

Lemma add_mem l i x : ivs_sorted l → ivs_mem (add l i) x ↔ ivs_mem l x ∨ in_iv i x.
Proof.
  intros Hl. unfold add. case_decide; [by apply ins_mem|]. unfold in_iv. split; [tauto|].
  intros [?|?]; [done|lia].
Qed.

Lemma add_fold_mem l t x :
  ivs_sorted l → ivs_mem (foldl add l t) x ↔ ivs_mem l x ∨ ivs_mem t x.
Proof.
  revert l. induction t as [|j t IH]; intros l Hl; simpl.
  { pose proof (ivs_mem_nil x). tauto. }
  rewrite IH by (by apply add_sorted). rewrite add_mem by done. rewrite ivs_mem_cons. tauto.
Qed.

Definition between (l : list interval) (i : interval) : list interval :=
  filter (λ j, start j < end_ j) (Intersect i <$> l).

Lemma between_mem l i :
  between l i = [] ↔ ∀ x, in_iv i x → ¬ ivs_mem l x.
Proof.
  unfold between. split.
  - intros Hn x Hi Hx. unfold ivs_mem in Hx. apply Exists_exists in Hx as (j & Hj & Hx).
    unfold in_iv in *.
    assert (Intersect i j ∈ filter (λ j, start j < end_ j) (Intersect i <$> l)) as Hin.
    { apply list_elem_of_filter. split; [simpl; lia|]. apply list_elem_of_fmap. eauto. }
    rewrite Hn in Hin. by apply elem_of_nil in Hin.
  - intros Hno. destruct (filter _ _) as [|k r] eqn:E; [done|exfalso].
    assert (k ∈ filter (λ j, start j < end_ j) (Intersect i <$> l)) as Hk by (rewrite E; left).
    apply list_elem_of_filter in Hk as [Hk (j & -> & Hj)%list_elem_of_fmap].
    apply (Hno (start (Intersect i j))); [unfold in_iv; simpl in *; lia|].
    unfold ivs_mem. apply Exists_exists. exists j. split; [done|]. unfold in_iv. simpl in *. lia.
Qed.

Definition list_set := { l : list interval | ivs_sorted l }.

Definition mk (l : list interval) : option list_set :=
  match sortedb l as b return sortedb l = b → option list_set with
  | true => λ H, Some (l ↾ proj1 (sortedb_spec l) H)
  | false => λ _, None
  end eq_refl.

Lemma mk_sorted l : ivs_sorted l → ∃ s, mk l = Some s ∧ `s = l.
Proof.
  intros Hl%sortedb_spec. unfold mk. generalize (proj1 (sortedb_spec l)).
  rewrite Hl. intros p. by eexists.
Qed.

#[global] Instance list_set_ops : IntervalSet list_set := {
  EmptySet := [] ↾ ivs_sorted_nil;
  AddInterval s i := add (`s) i ↾ add_sorted _ i (proj2_sig s);
  Union s t := foldl add (`s) (`t) ↾ add_fold_sorted _ _ (proj2_sig s);
  Sub s t := foldl sub1 (`s) (`t) ↾ sub_fold_sorted _ _ (proj2_sig s) (proj2_sig t);
  NewImmutableSet := mk;
  Intervals s := `s;
  IntervalsBetween s i := between (`s) i
}.

#[global] Instance list_set_spec : IntervalSetSpec list_set.
Proof.
  split; simpl.
  - intros s. apply (proj2_sig s).
  - apply ivs_mem_nil.
  - intros s i x _. apply add_mem, (proj2_sig s).
  - intros s t x. apply add_fold_mem, (proj2_sig s).
  - intros s t x. apply sub_fold_mem, (proj2_sig t).
  - apply mk_sorted.
  - intros s i _. apply between_mem.
Qed.

End ListSet.

(** ** Overlapping mappings *)

(** Two mappings that share neither a container nor a host identifier. *)
Definition maps_apart (m m' : IDMap) : Prop :=
  ∀ x, ¬ (in_container m x ∧ in_container m' x) ∧ ¬ (in_host m x ∧ in_host m' x).

(** The container and the host interval of a mapping. *)
Definition civ (m : IDMap) : interval := mkInterval (ContainerID m) (int64 (ContainerID m + Size m)).
Definition hiv (m : IDMap) : interval := mkInterval (HostID m) (int64 (HostID m + Size m)).

Lemma small_civ m : small_map m → iv_ok (civ m) ∧ ∀ x, in_iv (civ m) x ↔ in_container m x.
Proof.
  intros (? & ? & ? & ? & ?). unfold iv_ok, in_iv, in_container, civ, id_limit in *. simpl.
  rewrite !int64_id by (unfold in_int64; lia). split; [lia|done].
Qed.

Lemma small_hiv m : small_map m → iv_ok (hiv m) ∧ ∀ x, in_iv (hiv m) x ↔ in_host m x.
Proof.
  intros (? & ? & ? & ? & ?). unfold iv_ok, in_iv, in_host, hiv, id_limit in *. simpl.
  rewrite !int64_id by (unfold in_int64; lia). split; [lia|done].
Qed.

Section Overlap.
Context {IS : Type} `{IntervalSetSpec IS}.
Implicit Types (c h : IS).

(** A mapping that shares no identifier with the intervals seen so far. *)
Definition clear_of c h (m : IDMap) : Prop :=
  ∀ x, ¬ (in_container m x ∧ ivs_mem (Intervals c) x) ∧ ¬ (in_host m x ∧ ivs_mem (Intervals h) x).

Lemma overlap_step_clear c h conf m :
  small_map m →
  ∃ c' h' conf', overlap_step (c, h, conf) m = (c', h', conf') ∧
    (conf' = [] ↔ conf = [] ∧ clear_of c h m) ∧
    (∀ m', clear_of c' h' m' ↔ clear_of c h m' ∧ maps_apart m m').
Proof.
  intros Hm. destruct (small_civ m Hm) as [Hc Hc'], (small_hiv m Hm) as [Hh Hh'].
  unfold overlap_step. fold (civ m) (hiv m). do 3 eexists. split; [done|]. split.
  - assert (clear_of c h m ↔ IntervalsBetween c (civ m) = [] ∧ IntervalsBetween h (hiv m) = []) as ->.
    { rewrite !between_mem by done. unfold clear_of. setoid_rewrite Hc'. setoid_rewrite Hh'.
      split; [intros Hx; split; intros x ? ?; destruct (Hx x); tauto|].
      intros [H1 H2] x. split; intros [? ?]; [by eapply H1|by eapply H2]. }
    do 2 case_bool_decide; simpl; (split; [intros E|intros (-> & ? & ?)]); try done;
      try (by apply app_nil in E as [_ ?]); tauto.
  - intros m'. unfold clear_of, maps_apart. setoid_rewrite add_mem; [|done..].
    setoid_rewrite Hc'. setoid_rewrite Hh'. split.
    + intros Hx. split; intros x; destruct (Hx x); tauto.
    + intros [H1 H2] x. destruct (H1 x), (H2 x). tauto.
Qed.

Lemma overlap_fold l c h conf :
  Forall small_map l →
  (foldl overlap_step (c, h, conf) l).2 = [] ↔
    conf = [] ∧ Forall (clear_of c h) l ∧ ForallOrdPairs maps_apart l.
Proof.
  intros Hl. revert c h conf. induction Hl as [|m l Hm Hl IH]; intros c h conf; cbn [foldl].
  { split; [by repeat constructor|by intros [? _]]. }
  destruct (overlap_step_clear c h conf m Hm) as (c' & h' & conf' & -> & Hconf & Hcl).
  assert (Forall (clear_of c' h') l ↔ Forall (clear_of c h) l ∧ Forall (maps_apart m) l) as Hcl'.
  { rewrite <- Forall_and. split; intros Hf; (eapply Forall_impl; [exact Hf|]); intros m'; apply Hcl. }
  rewrite IH, Hconf, Hcl', Forall_cons. split.
  - intros ([? ?] & [? ?] & ?). split_and!; [done..|]. by constructor.
  - intros (? & [? ?] & Hp). inversion Hp; subst. tauto.
Qed.
End Overlap.

(** [hasOverlappingRanges] accepts a list of mappings exactly when no two
    of its entries share a container or a host identifier. *)
Theorem hasOverlappingRanges_spec `{IntervalSetSpec IS} (l : list IDMap) :
  Forall small_map l →
  hasOverlappingRanges (IS := IS) l = None ↔
  ∀ i j m m', (i < j)%nat → l !! i = Some m → l !! j = Some m' → maps_apart m m'.
Proof.
  intros Hl. unfold hasOverlappingRanges.
  pose proof (overlap_fold l (EmptySet (IS := IS)) EmptySet [] Hl) as Hf.
  destruct (foldl _ _ l) as [[c h] conf]. simpl in Hf.
  assert (Forall (clear_of (EmptySet (IS := IS)) EmptySet) l) as Hcl.
  { apply Forall_forall. intros m _ x. pose proof (empty_mem (IS := IS) x). tauto. }
  trans (ForallOrdPairs maps_apart l); [case_decide; split; (done || tauto)|].
  clear. induction l as [|m l IH]; [split; [done|constructor]|]. split.
  - inversion 1 as [|? ? Hm Hp]; subst. intros [|i] [|j] m1 m2 Hij; simpl; try lia.
    + intros [= <-] Hj%list_elem_of_lookup_2. rewrite Forall_forall in Hm. by apply Hm.
    + apply IH; [done|lia].
  - intros Hp. constructor.
    + apply Forall_forall. intros m' [j Hj]%list_elem_of_lookup.
      apply (Hp 0%nat (S j)); [lia|done|done].
    + apply IH. intros i j m1 m2 ?. apply (Hp (S i) (S j)). lia.
Qed.

Lemma hasOverlappingRanges_spec_witness :
  hasOverlappingRanges (IS := ListSet.list_set) [mkIDMap 0 1000 10; mkIDMap 10 2000 5] = None ∧
  ∀ i j m m', (i < j)%nat → [mkIDMap 0 1000 10; mkIDMap 10 2000 5] !! i = Some m →
    [mkIDMap 0 1000 10; mkIDMap 10 2000 5] !! j = Some m' → maps_apart m m'.
Proof.
  split; [by vm_compute|].
  apply (hasOverlappingRanges_spec (IS := ListSet.list_set)); [|by vm_compute].
  repeat constructor; unfold id_limit; simpl; lia.
Defined.

(** ** Allocation of a user namespace *)

Section Allocation.
Context {IS : Type} `{IntervalSetSpec IS}.
Implicit Types (avail : idSet IS) (used additional out : list IDMap).

(** Host identifiers nobody uses, and container identifiers to be mapped. *)
Definition free_ids avail used additional : idSet IS :=
  subtract avail (getHostIDs (used ++ additional)).
Definition requested_ids (size : Z) additional : idSet IS :=
  subtract (newIDSet [mkInterval 0 size]) (getContainerIDs additional).

Definition enough_ids size avail used additional : Prop :=
  ivs_size (iterator (requested_ids size additional)) ≤
  ivs_size (iterator (free_ids avail used additional)).

#[global] Instance enough_ids_dec size avail used additional :
  Decision (enough_ids size avail used additional).
Proof. unfold enough_ids. apply _. Defined.

(** What an allocation promises: entries of its own in front of the requested
    ones, that map every container identifier below [size], only to
    available host identifiers that no other mapping has. *)
Record allocated size avail used additional (auto : list IDMap) out : Prop := {
  alloc_out : out = (auto ++ additional)%list;
  alloc_entries : Forall entry_ok auto;
  alloc_total c : 0 ≤ c < size → ∃ m, m ∈ out ∧ in_container m c;
  alloc_host m h : m ∈ auto → in_host m h →
    smem avail h ∧ ∀ m', m' ∈ (used ++ additional)%list → ¬ in_host m' h;
  alloc_container m c : m ∈ auto → in_container m c →
    0 ≤ c < size ∧ ∀ m', m' ∈ additional → ¬ in_container m' c;
  alloc_host_disjoint : host_disjoint additional → host_disjoint out;
  alloc_container_disjoint : container_disjoint additional → container_disjoint out
}.

Definition allocation_ok size avail used additional out : Prop :=
  ∃ auto, allocated size avail used additional auto out.

#[local] Instance in_container_dec m c : Decision (in_container m c).
Proof. unfold in_container. apply _. Defined.

Lemma requested_mem size additional x :
  0 ≤ size ≤ id_limit → Forall small_map additional →
  smem (requested_ids size additional) x ↔
    0 ≤ x < size ∧ ∀ m, m ∈ additional → ¬ in_container m x.
Proof.
  intros Hsize Ha. unfold requested_ids. rewrite subtract_mem.
  rewrite getContainerIDs_mem by done. rewrite newIDSet_mem.
  2: { repeat constructor; unfold id_limit in *; simpl; lia. }
  split.
  - intros [(i & ->%list_elem_of_singleton & ?) Hn]. split; [done|]. intros m Hm Hx. apply Hn. eauto.
  - intros [? Hn]. split; [eexists; split; [by apply list_elem_of_singleton|done]|].
    intros (m & Hm & Hx). by eapply Hn.
Qed.

Lemma free_mem avail used additional x :
  Forall small_map (used ++ additional) →
  smem (free_ids avail used additional) x ↔
    smem avail x ∧ ∀ m, m ∈ (used ++ additional)%list → ¬ in_host m x.
Proof.
  intros Ha. unfold free_ids. rewrite subtract_mem.
  rewrite getHostIDs_mem by done. split; intros [? Hn]; (split; [done|]).
  - intros m Hm Hx. apply Hn. eauto.
  - intros (m & Hm & Hx). by eapply Hn.
Qed.

Lemma disjoint_app_host l l' :
  host_disjoint l → host_disjoint l' →
  (∀ m m' x, m ∈ l → m' ∈ l' → in_host m x → ¬ in_host m' x) → host_disjoint (l ++ l').
Proof.
  intros H1 H2 Hx m m' x [Hm|Hm]%elem_of_app [Hm'|Hm']%elem_of_app Hi Hi';
    [by eapply H1|exfalso; by eapply (Hx m m')|exfalso; by eapply (Hx m' m)|by eapply H2].
Qed.

Lemma disjoint_app_container l l' :
  container_disjoint l → container_disjoint l' →
  (∀ m m' x, m ∈ l → m' ∈ l' → in_container m x → ¬ in_container m' x) →
  container_disjoint (l ++ l').
Proof.
  intros H1 H2 Hx m m' x [Hm|Hm]%elem_of_app [Hm'|Hm']%elem_of_app Hi Hi';
    [by eapply H1|exfalso; by eapply (Hx m m')|exfalso; by eapply (Hx m' m)|by eapply H2].
Qed.

(** One of the two halves (users or groups) of the allocation. *)
Lemma allocation_side size avail used additional :
  0 ≤ size ≤ id_limit → ids_bounded (iterator avail) →
  Forall small_map used → Forall small_map additional →
  let req := requested_ids size additional in
  let found := findAvailable (free_ids avail used additional) (size_ req) in
  if decide (enough_ids size avail used additional)
  then ∃ r, found = Ret r ∧ allocation_ok size avail used additional (zip_ r req ++ additional)
  else found = Err ErrNoAvailableIDs.
Proof.
  intros Hsize Hav Hu Ha req found. subst found.
  assert (Forall small_map (used ++ additional)) as Hua by (by apply Forall_app).
  assert (∀ x, smem req x ↔ _) as Hreq by (intros x; by apply requested_mem).
  assert (∀ x, smem (free_ids avail used additional) x ↔ _) as Hfree by (intros x; by apply free_mem).
  assert (ids_bounded (iterator req)) as Hrb by (intros x [? _]%Hreq; lia).
  assert (ids_bounded (iterator (free_ids avail used additional))) as Hfb.
  { intros x [? _]%Hfree. by apply Hav. }
  pose proof (ivs_size_range _ (iterator_sorted req) Hrb).
  rewrite size_spec by done.
  pose proof (findAvailable_spec _ (ivs_size (iterator req)) Hfb ltac:(done)) as Hfind.
  destruct (decide (enough_ids _ _ _ _)) as [Hle|Hgt].
  2: by rewrite decide_False in Hfind.
  unfold enough_ids in Hle. fold req in Hle.
  rewrite decide_True in Hfind by done. destruct Hfind as (r & -> & Hr & Hrs).
  exists r. split; [done|].
  assert (ids_bounded (iterator r)) as Hrbd by (intros x Hx; by apply Hfb, Hr).
  destruct (zip_zipped r req Hrbd Hrb) as [Hok Hh Hc Hhd Hcd Hcov].
  assert (∀ m h, m ∈ zip_ r req → in_host m h →
    smem avail h ∧ ∀ m', m' ∈ (used ++ additional)%list → ¬ in_host m' h) as Hhost.
  { intros m h Hm Hx. by apply Hfree, Hr, (Hh m). }
  assert (∀ m c, m ∈ zip_ r req → in_container m c →
    0 ≤ c < size ∧ ∀ m', m' ∈ additional → ¬ in_container m' c) as Hcont.
  { intros m c Hm Hx. by apply Hreq, (Hc m). }
  exists (zip_ r req). split; [done|done| |done|done| |].
  - intros c Hc'. destruct (decide (Exists (λ m, in_container m c) additional)) as [He|He].
    + apply Exists_exists in He as (m & ? & ?). exists m. split; [apply elem_of_app; by right|done].
    + destruct (Hcov c) as (m & ? & ?); [lia| |].
      * apply Hreq. split; [done|]. intros m Hm Hx. apply He, Exists_exists. eauto.
      * exists m. split; [apply elem_of_app; by left|done].
  - intros Hd. apply disjoint_app_host; [done..|]. intros m m' x Hm Hm' Hx.
    apply (Hhost m x Hm Hx). apply elem_of_app. by right.
  - intros Hd. apply disjoint_app_container; [done..|]. intros m m' x Hm Hm' Hx.
    by apply (Hcont m x Hm Hx).
Qed.
End Allocation.

(** C38: For a size, for host identifiers and for mappings that are not negative
    and do not exceed 2^61, [getAutoUserNSIDMappings] succeeds exactly when there are
    enough free user and group identifiers; both mappings then cover every
    container identifier below [size], and what it adds to the mappings that the
    caller asked for uses only available host identifiers that are in no other
    mapping; there is no overlap unless the mappings asked for have one.
    Otherwise it returns [ErrNoAvailableIDs]; it never panics. *)
Theorem getAutoUserNSIDMappings_spec `{IntervalSetSpec IS} size (availU availG : idSet IS)
    usedU usedG addU addG :
  0 ≤ size ≤ id_limit →
  ids_bounded (iterator availU) → ids_bounded (iterator availG) →
  Forall small_map (usedU ++ addU) → Forall small_map (usedG ++ addG) →
  let result := getAutoUserNSIDMappings size availU availG usedU usedG addU addG in
  if decide (enough_ids size availU usedU addU ∧ enough_ids size availG usedG addG)
  then ∃ uidMap gidMap, result = Ret (uidMap, gidMap) ∧
         allocation_ok size availU usedU addU uidMap ∧ allocation_ok size availG usedG addG gidMap
  else result = Err ErrNoAvailableIDs.
Proof.
  intros Hsize HavU HavG [HuU HaU]%Forall_app [HuG HaG]%Forall_app result. subst result.
  pose proof (allocation_side size availU usedU addU Hsize HavU HuU HaU) as HU.
  pose proof (allocation_side size availG usedG addG Hsize HavG HuG HaG) as HG.
  unfold getAutoUserNSIDMappings, free_ids, requested_ids in *. simpl in HU, HG.
  destruct (decide (enough_ids size availU usedU addU)) as [EU|EU].
  2: { rewrite decide_False by tauto. simpl. by rewrite HU. }
  destruct HU as (r & Hr & HokU). simpl. rewrite Hr. simpl.
  destruct (decide (enough_ids size availG usedG addG)) as [EG|EG].
  2: { rewrite decide_False by tauto. by rewrite HG. }
  destruct HG as (r' & Hr' & HokG). rewrite Hr'. simpl.
  rewrite decide_True by done. by do 2 eexists.
Qed.

(** Ten identifiers from 100000, of which three are in use, for six container
    identifiers of which number 2 is mapped explicitly. *)
Lemma getAutoUserNSIDMappings_spec_witness :
  let avail := newIDSet (IS := ListSet.list_set) [mkInterval 100000 100010] in
  let used := [mkIDMap 0 100002 3] in
  let add := [mkIDMap 2 1000 1] in
  getAutoUserNSIDMappings 6 avail avail used used add add =
    Ret ([mkIDMap 0 100000 2; mkIDMap 3 100005 3; mkIDMap 2 1000 1],
         [mkIDMap 0 100000 2; mkIDMap 3 100005 3; mkIDMap 2 1000 1]) ∧
  ∃ u g, getAutoUserNSIDMappings 6 avail avail used used add add = Ret (u, g) ∧
    allocation_ok 6 avail used add u ∧ allocation_ok 6 avail used add g.
Proof.
  intros avail used add. split; [by vm_compute|].
  pose proof (getAutoUserNSIDMappings_spec 6 avail avail used used add add) as Hspec.
  cbv zeta in Hspec. rewrite decide_True in Hspec by (by vm_compute). apply Hspec.
  - by vm_compute.
  - intros x [[? ?]|?%ivs_mem_nil]%ivs_mem_cons; [|done]. simpl in *. unfold id_limit. lia.
  - intros x [[? ?]|?%ivs_mem_nil]%ivs_mem_cons; [|done]. simpl in *. unfold id_limit. lia.
  - repeat constructor; unfold id_limit; simpl; lia.
  - repeat constructor; unfold id_limit; simpl; lia.
Defined.
