(* ===== verification/StringId.v ===== *)
(** * storage/pkg/stringid: random identifiers

    [generateID] repeats until the first twelve characters are not a number,
    so it only ends when the random source yields a suitable value: the loop
    has fuel, and [generateID_ret] says how much is enough. *)

From S2P Require Import Prelude World Strconv.

Local Open Scope string_scope.

Definition shortLen : nat := 12.

Definition hex_char (c : ascii) : bool :=
  let n := nat_of_ascii c in
  (Nat.leb 48 n && Nat.leb n 57) || (Nat.leb 97 n && Nat.leb n 102).

Fixpoint all_hex (s : string) : bool :=
  match s with "" => true | String c s => hex_char c && all_hex s end.

(** The regular expressions [^[a-f0-9]{12}$] and [^[a-f0-9]{64}$]. *)
Definition IsShortID (id : string) : bool := Nat.eqb (String.length id) 12 && all_hex id.

Definition ValidateID (id : string) : option error :=
  if Nat.eqb (String.length id) 64 && all_hex id then None else Some (ErrOther "image ID is invalid").

(** What follows the first colon, or the whole identifier. *)
Fixpoint after_colon (s : string) : option string :=
  match s with
  | "" => None
  | String c s => if Ascii.eqb c ":" then Some s else after_colon s
  end.

Definition TruncateID (id : string) : string :=
  let id := default id (after_colon id) in
  if decide (shortLen < String.length id)%nat then String.substring 0 shortLen id else id.

(** [hex.EncodeToString] *)
Definition hex_digit (n : nat) : ascii :=
  ascii_of_nat (if decide (n < 10)%nat then 48 + n else 87 + n)%nat.

Fixpoint hex_encode (s : string) : string :=
  match s with
  | "" => ""
  | String c s =>
      let n := nat_of_ascii c in
      String (hex_digit (Nat.div n 16)) (String (hex_digit (Nat.modulo n 16)) (hex_encode s))
  end.

(** [strconv.ParseInt(TruncateID(id), 10, 64)] succeeds. *)
Definition numeric (id : string) : bool :=
  match Atoi (TruncateID id) with Some _ => true | None => false end.

Fixpoint generateID (fuel : nat) : M World string :=
  match fuel with
  | 0 => stop NoFuel
  | S fuel =>
      b ← rand_read 32;
      let id := hex_encode b in
      if numeric id then generateID fuel else mret id
  end.

Definition GenerateRandomID := generateID.

(** ** Facts *)

Lemma hex_digit_ok n : (n < 16)%nat → hex_char (hex_digit n) = true.
Proof. intros Hn. do 16 (destruct n as [|n]; [done|]). lia. Qed.

Lemma hex_encode_ok s :
  String.length (hex_encode s) = 2 * String.length s ∧ all_hex (hex_encode s) = true.
Proof.
  induction s as [|c s [IHl IHh]]; [done|]. cbn [hex_encode String.length all_hex].
  assert (nat_of_ascii c < 256)%nat by apply nat_ascii_bounded.
  rewrite !hex_digit_ok; [split; [lia|done]| |].
  - apply Nat.mod_upper_bound. lia.
  - apply Nat.Div0.div_lt_upper_bound. lia.
Qed.

(** The identifier the [i]-th round of the loop draws. *)
Definition draw (w : World) (i : nat) : string :=
  hex_encode (rand_bytes (w_rand w) (w_randpos w + 32 * i) 32).

Lemma draw_valid w i : ValidateID (draw w i) = None.
Proof.
  unfold ValidateID, draw. destruct (hex_encode_ok (rand_bytes (w_rand w) (w_randpos w + 32 * i) 32)) as [-> ->].
  by rewrite length_rand_bytes.
Qed.

Lemma draw_zero w : draw w 0 = hex_encode (rand_bytes (w_rand w) (w_randpos w) 32).
Proof. unfold draw. by replace (w_randpos w + 32 * 0) with (w_randpos w) by lia. Qed.

Lemma draw_succ w i : draw (set_randpos (w_randpos w + 32) w) i = draw w (S i).
Proof.
  unfold draw. replace (w_randpos w + 32 * S i) with (w_randpos w + 32 + 32 * i) by lia. done.
Qed.

(** The loop returns the first draw that is not numeric. *)
Lemma generateID_ret fuel w i :
  (i < fuel)%nat → numeric (draw w i) = false → (∀ j, (j < i)%nat → numeric (draw w j) = true) →
  generateID fuel w = (set_randpos (w_randpos w + 32 * S i) w, Ret (draw w i)).
Proof.
  revert w i. induction fuel as [|fuel IH]; intros w i Hi Hn Hj; [lia|].
  cbn [generateID]. unfold mbind, M_bind, rand_read.
  rewrite <- draw_zero.
  destruct i as [|i].
  - by rewrite Hn.
  - rewrite (Hj 0%nat) by lia. rewrite (IH _ i); [|lia| |].
    + rewrite draw_succ. f_equal. unfold set_randpos. cbn [w_randpos]. f_equal. lia.
    + by rewrite draw_succ.
    + intros j ?. rewrite draw_succ. apply Hj. lia.
Qed.

Lemma generateID_valid fuel w w' id :
  generateID fuel w = (w', Ret id) → ValidateID id = None ∧ numeric id = false.
Proof.
  revert w. induction fuel as [|fuel IH]; intros w; [done|]. cbn [generateID].
  unfold mbind, M_bind, rand_read.
  rewrite <- draw_zero.
  destruct (numeric (draw w 0)) eqn:E; [apply IH|]. intros [= _ <-]. split; [apply draw_valid|done].
Qed.

(** [GenerateRandomID] returns as soon as the random source yields a value
    whose short form is not a number, whatever came before; what it returns is
    that value, a valid identifier of 64 hexadecimal digits. *)
Theorem generateID_terminates fuel w i :
  (i < fuel)%nat → numeric (draw w i) = false →
  ∃ w' j, (j ≤ i)%nat ∧ GenerateRandomID fuel w = (w', Ret (draw w j)) ∧
          ValidateID (draw w j) = None ∧ numeric (draw w j) = false.
Proof.
  intros Hi Hn.
  assert (∃ j, (j ≤ i)%nat ∧ numeric (draw w j) = false ∧ ∀ k, (k < j)%nat → numeric (draw w k) = true)
    as (j & Hj & Hnj & Hlt).
  { clear Hi. induction i as [i IH] using lt_wf_ind.
    destruct (decide (Exists (λ k, numeric (draw w k) = false) (seq 0 i))) as [He|Hno].
    - apply Exists_exists in He as (k & [_ Hk]%elem_of_seq & Hkn).
      destruct (IH k Hk Hkn) as (j & ? & ?). exists j. split; [lia|done].
    - exists i. split; [lia|]. split; [done|]. intros k Hk. apply not_false_iff_true.
      intros E. apply Hno, Exists_exists. exists k. split; [apply elem_of_seq; lia|done]. }
  exists (set_randpos (w_randpos w + 32 * S j) w), j. split; [done|]. split; [apply generateID_ret; (lia || done)|].
  split; [apply draw_valid|done].
Qed.

Lemma generateID_terminates_witness :
  let w := mkWorld ∅ ∅ [] (λ n, if Nat.ltb n 32 then zero else ascii_of_nat 171) 0 [] 1 0 noMeta in
  numeric (draw w 0) = true ∧ numeric (draw w 1) = false ∧
  ∃ w' j, (j ≤ 1)%nat ∧ GenerateRandomID 2 w = (w', Ret (draw w j)) ∧
          ValidateID (draw w j) = None ∧ numeric (draw w j) = false.
Proof. split; [by vm_compute|]. split; [by vm_compute|]. apply (generateID_terminates 2 _ 1); [lia|by vm_compute]. Defined.
