(* ===== verification/Codec.v ===== *)
(** * A text codec for records

    The stores write their records with [encoding/json], which enters the
    model as a pair of functions with a round-trip law.  This file builds a
    codec that satisfies such a law, so that the models can be run: values
    become a list of tokens, tokens a string. *)

From S2P Require Import Prelude.

Local Open Scope string_scope.

(** ** Tokens to text and back *)

Fixpoint esc (t : string) (rest : string) : string :=
  match t with
  | "" => String "." rest
  | String c t => String "c" (String c (esc t rest))
  end.

Fixpoint unesc (cur : string → string) (s : string) : option (list string) :=
  match s with
  | "" => Some []
  | String k s =>
      if Ascii.eqb k "." then (cons (cur "")) <$> unesc id s
      else match s with
           | "" => None
           | String c s => unesc (λ t, cur (String c t)) s
           end
  end.

Definition text (l : list string) : string := foldr esc "" l.

Lemma unesc_esc t rest cur :
  unesc cur (esc t rest) = (cons (cur t)) <$> unesc id rest.
Proof. revert cur. induction t as [|c t IH]; intros cur; simpl; [done|]. by rewrite IH. Qed.

Lemma unesc_text l : unesc id (text l) = Some l.
Proof. induction l as [|t l IH]; [done|]. simpl. by rewrite unesc_esc, IH. Qed.

(** ** Values to tokens and back *)

Class Codec (A : Type) := {
  enc : A → list string;
  dec : list string → option (A * list string)
}.

Class CodecLaw (A : Type) `{Codec A} :=
  dec_enc : ∀ (a : A) rest, dec (enc a ++ rest)%list = Some (a, rest).

#[global] Instance string_codec : Codec string := {
  enc s := [s];
  dec l := match l with s :: l => Some (s, l) | [] => None end
}.
#[global] Instance string_codec_law : CodecLaw string.
Proof. done. Qed.

#[global] Instance bool_codec : Codec bool := {
  enc b := [if (b : bool) then "t" else "f"];
  dec l := match l with
           | s :: l => if decide (s = "t") then Some (true, l) else Some (false, l)
           | [] => None
           end
}.
#[global] Instance bool_codec_law : CodecLaw bool.
Proof. by intros []. Qed.

Fixpoint bits (p : positive) : string :=
  match p with
  | xH => ""
  | xO p => String "0" (bits p)
  | xI p => String "1" (bits p)
  end.
Fixpoint unbits (s : string) : positive :=
  match s with
  | "" => xH
  | String c s => if Ascii.eqb c "1" then xI (unbits s) else xO (unbits s)
  end.
Lemma unbits_bits p : unbits (bits p) = p.
Proof. induction p as [p IH|p IH|]; simpl; by rewrite ?IH. Qed.

#[global] Instance Z_codec : Codec Z := {
  enc z := match z with
           | Z0 => ["0"; ""] | Zpos p => ["+"; bits p] | Zneg p => ["-"; bits p]
           end;
  dec l := match l with
           | s :: t :: l =>
               Some (if decide (s = "0") then Z0
                     else if decide (s = "+") then Zpos (unbits t) else Zneg (unbits t), l)
           | _ => None
           end
}.
#[global] Instance Z_codec_law : CodecLaw Z.
Proof. intros [|p|p] rest; simpl; by rewrite ?unbits_bits. Qed.

Section Combinators.
Context {A B : Type} `{CodecLaw A} `{CodecLaw B}.

#[global] Instance prod_codec : Codec (A * B) := {
  enc p := (enc (fst p) ++ enc (snd p))%list;
  dec l := match dec l with
           | Some (a, l) => match dec l with Some (b, l) => Some ((a, b), l) | None => None end
           | None => None
           end
}.
#[global] Instance prod_codec_law : CodecLaw (A * B).
Proof. intros [a b] rest. simpl. by rewrite <- app_assoc, !dec_enc. Qed.

#[global] Instance sum_codec : Codec (A + B) := {
  enc x := match x with inl a => "l" :: enc a | inr b => "r" :: enc b end;
  dec l := match l with
           | s :: l =>
               if decide (s = "l") then (λ '(a, l), (inl a, l)) <$> dec l
               else (λ '(b, l), (inr b, l)) <$> dec l
           | [] => None
           end
}.
#[global] Instance sum_codec_law : CodecLaw (A + B).
Proof. intros [a|b] rest; simpl; by rewrite dec_enc. Qed.

#[global] Instance option_codec : Codec (option A) := {
  enc x := match x with Some a => "s" :: enc a | None => ["n"] end;
  dec l := match l with
           | s :: l => if decide (s = "s") then (λ '(a, l), (Some a, l)) <$> dec l else Some (None, l)
           | [] => None
           end
}.
#[global] Instance option_codec_law : CodecLaw (option A).
Proof. intros [a|] rest; simpl; [by rewrite dec_enc|done]. Qed.

(** Lists: every element is announced; the tokens bound the rounds. *)
Fixpoint dec_list (fuel : nat) (l : list string) : option (list A * list string) :=
  match fuel with
  | 0 => None
  | S fuel =>
      match l with
      | s :: l =>
          if decide (s = "e") then Some ([], l)
          else match dec l with
               | Some (a, l) => (λ '(r, l), (a :: r, l)) <$> dec_list fuel l
               | None => None
               end
      | [] => None
      end
  end.

Definition enc_list (l : list A) : list string :=
  (concat ((λ a, "m" :: enc a) <$> l) ++ ["e"])%list.

#[global] Instance list_codec : Codec (list A) := {
  enc := enc_list;
  dec l := dec_list (S (length l)) l
}.

Lemma dec_list_enc l fuel rest :
  (length l < fuel)%nat → dec_list fuel (enc_list l ++ rest) = Some (l, rest).
Proof.
  revert fuel. induction l as [|a l IH]; intros [|fuel] Hf; simpl in Hf; try lia; [done|].
  assert (enc_list (a :: l) ++ rest = "m" :: enc a ++ (enc_list l ++ rest))%list as ->.
  { unfold enc_list. rewrite fmap_cons. cbn [concat]. by rewrite <- !app_assoc. }
  cbn [dec_list]. rewrite decide_False by done. rewrite dec_enc.
  by rewrite IH by lia.
Qed.

#[global] Instance list_codec_law : CodecLaw (list A).
Proof.
  intros l rest. apply dec_list_enc. rewrite length_app. change (enc l) with (enc_list l).
  cut (length l ≤ length (enc_list l))%nat; [lia|]. unfold enc_list. rewrite length_app.
  induction l as [|a l IH]; [simpl; lia|]. rewrite fmap_cons. cbn [concat app length].
  rewrite length_app. cbn [length] in *. lia.
Qed.
End Combinators.

#[global] Instance gmap_codec `{Codec V} : Codec (gmap string V) := {
  enc m := enc (A := list (string * V)) (map_to_list m);
  dec l := match dec (A := list (string * V)) l with
           | Some (r, l) => Some (list_to_map (M := gmap string V) r, l)
           | None => None
           end
}.
#[global] Instance gmap_codec_law `{CodecLaw V} : CodecLaw (gmap string V).
Proof.
  intros m rest. cbn [enc dec gmap_codec]. rewrite dec_enc. by rewrite list_to_map_to_list.
Qed.

(** Types in bijection with a type that has a codec. *)
Definition codec_via {A B} `{Codec B} (f : A → B) (g : B → A) : Codec A := {|
  enc a := enc (f a);
  dec l := (λ '(b, l), (g b, l)) <$> dec l
|}.
Lemma codec_via_law {A B} `{CodecLaw B} (f : A → B) (g : B → A) :
  (∀ a, g (f a) = a) → @CodecLaw A (codec_via f g).
Proof. intros Hgf a rest. simpl. rewrite dec_enc. simpl. by rewrite Hgf. Qed.

(** ** Lists of records as text *)

Definition marshal {A} `{Codec A} (l : list A) : string := text ("J" :: enc l).

Definition unmarshal {A} `{Codec A} (s : string) : option (list A) :=
  match unesc id s with
  | Some (_ :: tokens) => fst <$> dec tokens
  | _ => None
  end.

Lemma unmarshal_marshal {A} `{CodecLaw A} (l : list A) : unmarshal (marshal l) = Some l.
Proof.
  unfold unmarshal, marshal. rewrite unesc_text.
  pose proof (dec_enc l []) as E. rewrite app_nil_r in E. by rewrite E.
Qed.

Lemma marshal_nonempty {A} `{Codec A} (l : list A) : marshal l ≠ "".
Proof. done. Qed.
