(* ===== verification/Json.v ===== *)
(** * What the stores put into JSON

    Values of type [any] in the [Flags] of a record, what JSON makes of them,
    and the text it can carry.  A codec for such values, for the concrete
    instances of the JSON interfaces. *)

From S2P Require Import Prelude StoreUtil Strconv StringId Codec.

Local Open Scope string_scope.

(** Values of [Flags map[string]any]: what the code stores, and what JSON
    gives back. *)
Inductive any :=
  | AString (s : string)
  | ABool (b : bool)
  | AStrings (l : list string)             (* []string *)
  | AList (l : list (string + string))     (* []any: strings, or other JSON text *)
  | AOther (json : string).

#[global] Instance any_eq_dec : EqDecision any.
Proof. solve_decision. Defined.

(** A list of strings inside [any] comes back as a list of [any]. *)
Definition json_any (a : any) : any :=
  match a with AStrings l => AList (inl <$> l) | _ => a end.

(** Text that JSON can carry: Go replaces bytes that are not UTF-8. *)
Fixpoint utf8_from (fuel : nat) (s : string) : bool :=
  match fuel, s with
  | _, "" => true
  | 0, _ => false
  | S fuel, String c _ =>
      (Nat.ltb (byteN c) 128 || Nat.ltb 1 (rune_size s)) && utf8_from fuel (string_drop (rune_size s) s)
  end.
Definition utf8 (s : string) : bool := utf8_from (String.length s) s.

Definition json_safe_any (a : any) : bool :=
  match a with
  | AString s => utf8 s
  | ABool _ => true
  | AStrings l => forallb utf8 l
  | AList l => forallb (λ e, match e with inl s => utf8 s | inr s => utf8 s end) l
  | AOther s => utf8 s
  end.

Definition gomap_all {V} (f : string → V → bool) (m : gomap V) : bool :=
  forallb (λ kv, f (fst kv) (snd kv)) (map_to_list (default ∅ m)).

Definition any_sum (a : any) : (string + bool) + (list string + (list (string + string) + string)) :=
  match a with
  | AString s => inl (inl s)
  | ABool b => inl (inr b)
  | AStrings l => inr (inl l)
  | AList l => inr (inr (inl l))
  | AOther s => inr (inr (inr s))
  end.
Definition sum_any (x : (string + bool) + (list string + (list (string + string) + string))) : any :=
  match x with
  | inl (inl s) => AString s
  | inl (inr b) => ABool b
  | inr (inl l) => AStrings l
  | inr (inr (inl l)) => AList l
  | inr (inr (inr s)) => AOther s
  end.
#[global] Instance any_codec : Codec any := codec_via any_sum sum_any.
#[global] Instance any_codec_law : CodecLaw any.
Proof. apply codec_via_law. by intros []. Qed.
