(* ===== verification/Registry.v ===== *)
(** * The in-memory index the stores share

    [containers.go], [images.go] and [layers.go] keep the same structure: a
    slice of pointers to records, maps from identifiers and from names to the
    same pointers, and the index for look-up by prefix.  Records are mutable
    and shared between the slice and the maps, so they live in a heap here and
    the maps hold their addresses.

    The pure operations below are the in-memory parts of the methods; the
    stores call them between their system calls.  [reg_wf] is the invariant
    that ties the maps to the records. *)

From S2P Require Import Prelude World StoreUtil TruncIndex.

Local Open Scope string_scope.

(** Records with an identifier and a list of names. *)
Class Named (R : Type) := {
  rid : R → string;
  rnames : R → list string;
  with_names : list string → R → R
}.

Class NamedLaws (R : Type) `{Named R} := {
  rid_with_names l x : rid (with_names l x) = rid x;
  rnames_with_names l x : rnames (with_names l x) = l;
  with_names_rnames x : with_names (rnames x) x = x;
  with_names_twice l l' x : with_names l (with_names l' x) = with_names l x
}.

(** ** The name table *)

Section Names.
Context {R : Type} `{Named R}.

Notation names := (gmap string positive).
Notation heap := (gmap positive R).

(** [removeName] *)
Definition remove_name (q : positive) (n : string) (h : heap) : heap :=
  alter (λ x, with_names (stringSliceWithoutValue (rnames x) n) x) q h.

(** One round of the loop that gives the names of a list to the record at
    [p]: a holder of the name loses it.  [hook] is what the store does to the
    record itself in the same round. *)
Definition steal (hook : string → R → R) (p : positive) (t : names * heap) (n : string)
    : names * heap :=
  let '(bn, h) := t in
  (<[n := p]> bn,
   alter (hook n) p (match bn !! n with Some q => remove_name q n h | None => h end)).

Definition drop_names (l : list string) (bn : names) : names := foldl (λ bn n, delete n bn) bn l.
Definition put_names (p : positive) (l : list string) (bn : names) : names :=
  foldl (λ bn n, <[n := p]> bn) bn l.

(** The table is exactly the names of the records at [ps]. *)
Definition names_inv (ps : list positive) (bn : names) (h : heap) : Prop :=
  ∀ n q, bn !! n = Some q ↔ q ∈ ps ∧ ∃ x, h !! q = Some x ∧ n ∈ rnames x.

(** The same while the names of [p] are being replaced: [p] has those of
    [done], whatever its record says. *)
Definition names_mid (p : positive) (done : list string) (ps : list positive)
    (bn : names) (h : heap) : Prop :=
  ∀ n q, bn !! n = Some q ↔
    (q = p ∧ n ∈ done) ∨ (q ∈ ps ∧ q ≠ p ∧ ∃ x, h !! q = Some x ∧ n ∈ rnames x).

Lemma drop_names_lookup l bn n :
  drop_names l bn !! n = if decide (n ∈ l) then None else bn !! n.
Proof.
  unfold drop_names. revert bn. induction l as [|m l IH]; intros bn; simpl.
  { done. }
  rewrite IH. destruct (decide (n = m)) as [->|Hne].
  - rewrite (decide_True (P := m ∈ m :: l)) by left. case_decide; [done|]. apply lookup_delete_eq.
  - rewrite lookup_delete_ne by done. do 2 case_decide; try done; exfalso; set_solver.
Qed.

Lemma put_names_lookup p l bn n :
  put_names p l bn !! n = if decide (n ∈ l) then Some p else bn !! n.
Proof.
  unfold put_names. revert bn. induction l as [|m l IH]; intros bn; simpl.
  { done. }
  rewrite IH. destruct (decide (n = m)) as [->|Hne].
  - rewrite (decide_True (P := m ∈ m :: l)) by left. case_decide; [done|]. apply lookup_insert_eq.
  - rewrite lookup_insert_ne by done. do 2 case_decide; try done; exfalso; set_solver.
Qed.

Context `{!NamedLaws R}.

Lemma remove_name_lookup q n h q' :
  remove_name q n h !! q' =
    if decide (q' = q)
    then (λ x, with_names (stringSliceWithoutValue (rnames x) n) x) <$> h !! q'
    else h !! q'.
Proof.
  unfold remove_name. case_decide as E; [subst; apply lookup_alter_eq|].
  by rewrite lookup_alter_ne.
Qed.

(** Taking away the names of the record at [p] leaves the others. *)
Lemma names_mid_start p x ps bn h :
  names_inv ps bn h → p ∈ ps → h !! p = Some x →
  names_mid p [] ps (drop_names (rnames x) bn) h.
Proof.
  intros Hinv Hp Hx n q. rewrite drop_names_lookup. case_decide as Hn.
  - split; [done|]. intros [[_ ?%elem_of_nil]|(Hq & Hne & y & Hy & Hny)]; [done|exfalso].
    pose proof (proj2 (Hinv n q) (conj Hq (ex_intro _ y (conj Hy Hny)))).
    pose proof (proj2 (Hinv n p) (conj Hp (ex_intro _ x (conj Hx Hn)))). congruence.
  - rewrite (Hinv n q). split.
    + intros [Hq (y & Hy & Hny)]. right. split; [done|]. split; [|eauto]. intros ->. congruence.
    + intros [[_ ?%elem_of_nil]|(? & _ & ?)]; [done|]. done.
Qed.

Lemma names_mid_fresh p ps bn h : names_inv ps bn h → p ∉ ps → names_mid p [] ps bn h.
Proof.
  intros Hinv Hp n q. rewrite (Hinv n q). split.
  - intros [Hq ?]. right. split; [done|]. split; [|done]. by intros ->.
  - intros [[_ ?%elem_of_nil]|(? & _ & ?)]; done.
Qed.

(** What a list of [steal]s does to the record of another holder: it loses
    exactly the names of the list. *)
Definition strip (l : list string) (x : R) : R :=
  with_names (filter (λ n, n ∉ l) (rnames x)) x.

Lemma strip_nil x : strip [] x = x.
Proof.
  unfold strip. assert (filter (λ n, n ∉ []) (rnames x) = rnames x) as ->.
  { induction (rnames x) as [|n l IH]; [done|]. rewrite filter_cons_True by (by intros ?%elem_of_nil).
    by f_equal. }
  apply with_names_rnames.
Qed.

Lemma strip_id l x : (∀ n, n ∈ rnames x → n ∉ l) → strip l x = x.
Proof.
  intros Hl. unfold strip. assert (filter (λ n, n ∉ l) (rnames x) = rnames x) as ->.
  { induction (rnames x) as [|n r IH]; [done|]. rewrite filter_cons_True by (apply Hl; left).
    f_equal. apply IH. intros m Hm. apply Hl. by right. }
  apply with_names_rnames.
Qed.

Lemma strip_one n l x :
  strip l (with_names (stringSliceWithoutValue (rnames x) n) x) = strip (n :: l) x.
Proof.
  unfold strip, stringSliceWithoutValue. rewrite rnames_with_names, with_names_twice. f_equal.
  induction (rnames x) as [|m r IH]; [done|]. rewrite !filter_cons.
  destruct (decide (m ≠ n)) as [Hne|Heq].
  - rewrite filter_cons, IH. do 2 case_decide; try done; exfalso.
    + rewrite elem_of_cons in *. naive_solver.
    + rewrite elem_of_cons in *. naive_solver.
  - rewrite IH. rewrite decide_False; [done|]. intros Hm. apply Hm.
    rewrite elem_of_cons. left. by apply dec_stable.
Qed.

Lemma strip_app l l' x : strip l (strip l' x) = strip (l' ++ l) x.
Proof.
  unfold strip. rewrite rnames_with_names, with_names_twice, list_filter_filter. f_equal.
  apply list_filter_iff. intros n. rewrite elem_of_app. tauto.
Qed.

Lemma rnames_strip l x n : n ∈ rnames (strip l x) ↔ n ∈ rnames x ∧ n ∉ l.
Proof. unfold strip. rewrite rnames_with_names, list_elem_of_filter. tauto. Qed.

Lemma rid_strip l x : rid (strip l x) = rid x.
Proof. apply rid_with_names. Qed.

Section Steal.
Context (hook : string → R → R) (p : positive) (ps : list positive).

Lemma steal_mid done bn h n :
  names_mid p done ps bn h →
  let '(bn', h') := steal hook p (bn, h) n in
  names_mid p (n :: done) ps bn' h' ∧
  (∀ q, q ∈ ps → q ≠ p → h' !! q = strip [n] <$> h !! q).
Proof.
  intros Hmid. simpl.
  assert (∀ q, q ∈ ps → q ≠ p →
    alter (hook n) p (match bn !! n with Some q0 => remove_name q0 n h | None => h end) !! q
    = strip [n] <$> h !! q) as Hh.
  { intros q Hq Hne. rewrite lookup_alter_ne by done.
    assert (∀ y, h !! q = Some y → n ∈ rnames y → bn !! n = Some q) as Hbn.
    { intros y Hy Hn. apply Hmid. right. eauto. }
    destruct (h !! q) as [y|] eqn:Ey.
    2: { destruct (bn !! n) as [q0|]; [|by rewrite Ey].
         rewrite remove_name_lookup, Ey. by case_decide. }
    assert (n ∉ rnames y → strip [n] y = y) as Hid.
    { intros Hn. apply strip_id. intros m Hm ->%list_elem_of_singleton. done. }
    simpl. destruct (bn !! n) as [q0|] eqn:E0.
    - rewrite remove_name_lookup, Ey. case_decide as Eq; simpl; f_equal.
      + rewrite <- (strip_nil (with_names _ y)). by rewrite strip_one.
      + symmetry. apply Hid. intros Hn. specialize (Hbn y eq_refl Hn). congruence.
    - rewrite Ey. f_equal. symmetry. apply Hid. intros Hn. specialize (Hbn y eq_refl Hn). done. }
  split; [|done]. intros m q. destruct (decide (m = n)) as [->|Hmn].
  - rewrite lookup_insert_eq. split.
    + intros [= <-]. left. split; [done|left].
    + intros [[-> _]|(Hq & Hne & y & Hy & Hny)]; [done|exfalso].
      rewrite Hh in Hy by done. destruct (h !! q); simplify_eq/=.
      apply rnames_strip in Hny as [_ Hny]. apply Hny. by apply list_elem_of_singleton.
  - rewrite lookup_insert_ne by done. rewrite (Hmid m q), elem_of_cons. split.
    + intros [?|(Hq & Hne & y & Hy & Hny)]; [tauto|]. right. split; [done|]. split; [done|].
      exists (strip [n] y). rewrite Hh, Hy by done. split; [done|].
      apply rnames_strip. split; [done|]. by intros ?%list_elem_of_singleton.
    + intros [?|(Hq & Hne & y & Hy & Hny)]; [naive_solver|]. right. split; [done|]. split; [done|].
      rewrite Hh in Hy by done. destruct (h !! q) as [z|]; simplify_eq/=.
      exists z. split; [done|]. by apply rnames_strip in Hny as [? _].
Qed.

Lemma steals_mid l done bn h :
  names_mid p done ps bn h →
  let '(bn', h') := foldl (steal hook p) (bn, h) l in
  (∃ done', (∀ n, n ∈ done' ↔ n ∈ done ∨ n ∈ l) ∧ names_mid p done' ps bn' h') ∧
  (∀ q, q ∈ ps → q ≠ p → h' !! q = strip l <$> h !! q).
Proof.
  revert done bn h. induction l as [|n l IH]; intros done bn h Hmid; simpl.
  { split.
    - exists done. split; [|done]. intros n. rewrite elem_of_nil. tauto.
    - intros q _ _. destruct (h !! q); simpl; [by rewrite strip_nil|done]. }
  pose proof (steal_mid done bn h n Hmid) as Hs. simpl in Hs. destruct Hs as [Hmid' Hh].
  specialize (IH _ _ _ Hmid'). destruct (foldl _ _ l) as [bn' h'].
  destruct IH as [(done' & Hd & Hm) Hh']. split.
  - exists done'. split; [|done]. intros m. rewrite Hd, !elem_of_cons. tauto.
  - intros q Hq Hne. rewrite Hh', Hh by done. destruct (h !! q) as [x|]; [|done].
    simpl. f_equal. unfold strip at 2. rewrite <- strip_one. f_equal. f_equal.
    unfold stringSliceWithoutValue. apply list_filter_iff. intros m.
    rewrite list_elem_of_singleton. done.
Qed.

(** Addresses outside the table, among them that of a new record whose
    names are all different, are left alone. *)
Lemma steals_frame l dn bn h q :
  names_mid p dn ps bn h → (∀ n x, hook n x = x) → q ∉ ps →
  (∀ n, n ∈ l → n ∉ dn) → NoDup l →
  (foldl (steal hook p) (bn, h) l).2 !! q = h !! q.
Proof.
  intros Hmid Hhook Hq. revert dn bn h Hmid.
  induction l as [|n l IH]; intros dn bn h Hmid Hd Hnd; [done|].
  apply NoDup_cons in Hnd as [Hn Hnd].
  pose proof (steal_mid dn bn h n Hmid) as Hs. cbn [foldl]. simpl in Hs |- *.
  destruct Hs as [Hmid' _]. rewrite (IH (n :: dn) _ _ Hmid'); [| |done].
  - assert (∀ h : heap, alter (hook n) p h !! q = h !! q) as ->.
    { intros h0. destruct (decide (p = q)) as [->|Hne]; [|by rewrite lookup_alter_ne].
      rewrite lookup_alter_eq. destruct (h0 !! q); simpl; by rewrite ?Hhook. }
    destruct (bn !! n) as [q0|] eqn:E; [|done]. rewrite remove_name_lookup.
    rewrite decide_False; [done|]. intros ->.
    apply Hmid in E as [[_ Hdn]|(? & _ & _)]; [|done]. by apply (Hd n); [left|].
  - intros m Hm [->|Hm']%elem_of_cons; [done|]. by apply (Hd m); [right|].
Qed.
End Steal.

(** The names of a record enter the table when a store is loaded. *)
Definition index_one (p : positive) (t : names * heap) : names * heap :=
  match t.2 !! p with
  | Some x => foldl (steal (λ _ x, x) p) t (rnames x)
  | None => t
  end.

Lemma index_one_inv p x ps bn h :
  names_inv ps bn h → p ∉ ps → h !! p = Some x → NoDup (rnames x) →
  let '(bn', h') := index_one p (bn, h) in
  names_inv (ps ++ [p]) bn' h' ∧
  (∀ q, q ∉ ps → h' !! q = h !! q) ∧
  (∀ q, q ∈ ps → h' !! q = strip (rnames x) <$> h !! q).
Proof.
  intros Hinv Hp Hx Hnd. unfold index_one. simpl. rewrite Hx.
  pose proof (names_mid_fresh p ps bn h Hinv Hp) as Hmid.
  pose proof (steals_mid (λ _ x, x) p ps (rnames x) _ _ _ Hmid) as Hst.
  pose proof (λ q Hq, steals_frame (λ _ x, x) p ps (rnames x) [] bn h q Hmid
                (λ _ _, eq_refl) Hq (λ n _, not_elem_of_nil n) Hnd) as Hfr.
  destruct (foldl _ _ _) as [bn' h']. destruct Hst as [(done & Hd & Hmid') Hoth]. simpl in Hfr.
  assert (∀ q, q ∈ ps → q ≠ p) as Hne by (by intros q Hq ->).
  split; [|split; [done|]; intros q Hq; apply Hoth; auto].
  intros n q. rewrite (Hmid' n q), Hd, elem_of_nil, elem_of_app, list_elem_of_singleton. split.
  - intros [[-> [[]|?]]|(? & ? & ?)]; [|by split; [left|]].
    split; [by right|]. exists x. by rewrite Hfr.
  - intros [[Hq| ->] Hy]; [right; by auto|]. left. destruct Hy as (y & Hy & ?).
    rewrite Hfr, Hx in Hy by done. simplify_eq. auto.
Qed.
End Names.

(** ** The registry *)

Section Registry.
Context {T : Type} `{PatriciaTrieSpec T} {R : Type} `{NamedLaws R}.

Record registry := mkReg {
  objs : list positive;                       (* the slice, in order *)
  idindex : TruncIndex.TruncIndex T;
  byid : gmap string positive;
  byname : gmap string positive;
  heap : gmap positive R;
  nextp : positive                            (* next unused address *)
}.

Definition reg_empty : registry :=
  mkReg [] (TruncIndex.mkTruncIndex NewTrie ∅) ∅ ∅ ∅ 1.

(** [&R{...}]: a new record nobody else knows. *)
Definition reg_alloc (x : R) (r : registry) : positive * registry :=
  (nextp r, mkReg (objs r) (idindex r) (byid r) (byname r) (<[nextp r := x]> (heap r)) (Pos.succ (nextp r))).

(** Assignment to fields other than the identifier and the names. *)
Definition reg_update (f : R → R) (p : positive) (r : registry) : registry :=
  mkReg (objs r) (idindex r) (byid r) (byname r) (alter f p (heap r)) (nextp r).

(** The record at [p] enters the slice and the maps. *)
Definition reg_add (p : positive) (id : string) (names : list string) (r : registry) : registry :=
  mkReg (objs r ++ [p]) (fst (TruncIndex.Add (idindex r) id)) (<[id := p]> (byid r))
    (put_names p names (byname r)) (heap r) (nextp r).

(** It leaves them again. *)
Definition reg_del (id : string) (names : list string) (r : registry) : registry :=
  mkReg (filter (λ q, rid <$> heap r !! q ≠ Some id) (objs r))
    (fst (TruncIndex.Delete (idindex r) id)) (delete id (byid r))
    (drop_names names (byname r)) (heap r) (nextp r).

(** [updateNames] after the new names are known. *)
Definition reg_rename (hook : string → R → R) (p : positive) (oldNames names : list string)
    (r : registry) : registry :=
  let '(bn, h) := foldl (steal hook p) (drop_names oldNames (byname r), heap r) names in
  mkReg (objs r) (idindex r) (byid r) bn (alter (with_names names) p h) (nextp r).

(** [lookup]: by identifier, by name, by what else the store indexes, by a
    unique prefix of the identifier. *)
Definition reg_lookup (extra : string → option positive) (id : string) (r : registry)
    : option positive :=
  match byid r !! id with
  | Some p => Some p
  | None =>
      match byname r !! id with
      | Some p => Some p
      | None =>
          match extra id with
          | Some p => Some p
          | None =>
              match TruncIndex.Get (idindex r) id with
              | inl longid => byid r !! longid
              | inr _ => None
              end
          end
      end
  end.

(** The records by identifier: what the registry means. *)
Definition reg_abs (r : registry) : gmap string R := omap (λ p, heap r !! p) (byid r).

(** The records in order. *)
Definition reg_values (r : registry) : list R := omap (λ p, heap r !! p) (objs r).

Record reg_wf (r : registry) : Prop := {
  wf_nodup : NoDup (objs r);
  wf_heap p : p ∈ objs r → is_Some (heap r !! p);
  wf_next p : is_Some (heap r !! p) → (p < nextp r)%positive;
  wf_byid i p : byid r !! i = Some p ↔ p ∈ objs r ∧ rid <$> heap r !! p = Some i;
  wf_byname : names_inv (objs r) (byname r) (heap r);
  wf_index : TruncIndex.wf (idindex r);
  wf_ids i : i ∈ TruncIndex.ids (idindex r) ↔ is_Some (byid r !! i) ∧ TruncIndex.valid i
}.

Implicit Types (r : registry) (p q : positive) (x : R).

Lemma reg_wf_empty : reg_wf reg_empty.
Proof.
  split; simpl.
  - constructor.
  - by intros p ?%elem_of_nil.
  - intros p [x Hx]. by rewrite lookup_empty in Hx.
  - intros i p. rewrite lookup_empty. split; [done|by intros [?%elem_of_nil _]].
  - intros n q. rewrite lookup_empty. split; [done|by intros [?%elem_of_nil _]].
  - apply TruncIndex.wf_new.
  - intros i. rewrite lookup_empty, elem_of_empty. split; [done|by intros [[? ?] _]].
Qed.

Lemma wf_deref r i p :
  reg_wf r → byid r !! i = Some p → ∃ x, heap r !! p = Some x ∧ rid x = i ∧ p ∈ objs r.
Proof.
  intros Hwf [Hp Hi]%(wf_byid _ Hwf). destruct (heap r !! p) as [x|]; [|done].
  injection Hi as Hi. eauto.
Qed.

Lemma wf_same_id r p q x y :
  reg_wf r → p ∈ objs r → q ∈ objs r → heap r !! p = Some x → heap r !! q = Some y →
  rid x = rid y → p = q.
Proof.
  intros Hwf Hp Hq Hx Hy Heq.
  assert (byid r !! rid x = Some p) as E1 by (apply (wf_byid _ Hwf); by rewrite Hx).
  assert (byid r !! rid x = Some q) as E2 by (apply (wf_byid _ Hwf); rewrite Hy, Heq; done).
  congruence.
Qed.

(** [lookup] only finds records of the slice. *)
Lemma reg_lookup_objs r extra id p :
  reg_wf r → (∀ i q, extra i = Some q → q ∈ objs r) →
  reg_lookup extra id r = Some p → p ∈ objs r ∧ ∃ x, heap r !! p = Some x.
Proof.
  intros Hwf Hextra Hl. assert (p ∈ objs r) as Hp.
  { unfold reg_lookup in Hl. destruct (byid r !! id) as [q|] eqn:E1.
    { simplify_eq. by apply (wf_byid _ Hwf) in E1 as [? _]. }
    destruct (byname r !! id) as [q|] eqn:E2.
    { simplify_eq. by apply (wf_byname _ Hwf) in E2 as [? _]. }
    destruct (extra id) as [q|] eqn:E3; [simplify_eq; eauto|].
    destruct (TruncIndex.Get _ _); [|done]. by apply (wf_byid _ Hwf) in Hl as [? _]. }
  split; [done|]. by apply (wf_heap _ Hwf).
Qed.

Lemma reg_abs_lookup r i x :
  reg_wf r → reg_abs r !! i = Some x ↔ ∃ p, p ∈ objs r ∧ heap r !! p = Some x ∧ rid x = i.
Proof.
  intros Hwf. unfold reg_abs. rewrite lookup_omap, bind_Some. split.
  - intros (p & Hp & Hx). destruct (wf_deref r i p Hwf Hp) as (y & Hy & Hi & ?). simplify_eq. eauto.
  - intros (p & Hp & Hx & Hi). exists p. split; [|done]. apply (wf_byid _ Hwf). rewrite Hx. simpl. by rewrite Hi.
Qed.

Lemma reg_values_elem r x : x ∈ reg_values r ↔ ∃ p, p ∈ objs r ∧ heap r !! p = Some x.
Proof. unfold reg_values. rewrite list_elem_of_omap. done. Qed.

Lemma reg_abs_values r i x :
  reg_wf r → reg_abs r !! i = Some x ↔ x ∈ reg_values r ∧ rid x = i.
Proof.
  intros Hwf. rewrite reg_abs_lookup, reg_values_elem by done. naive_solver.
Qed.

Lemma reg_values_ids r : reg_wf r → NoDup (rid <$> reg_values r).
Proof.
  intros Hwf. unfold reg_values. pose proof (wf_nodup _ Hwf) as Hnd.
  assert (∀ p, p ∈ objs r → p ∈ objs r) as Hin by done. revert Hin Hnd.
  generalize (objs r) at 1 3 4. induction l as [|p l IH]; intros Hin Hnd; [constructor|].
  apply NoDup_cons in Hnd as [Hp Hnd]. simpl.
  assert (NoDup (rid <$> omap (λ p, heap r !! p) l)) as IH' by (apply IH; [|done]; intros q Hq; apply Hin; by right).
  destruct (heap r !! p) as [x|] eqn:Ex; [|done]. rewrite fmap_cons. constructor; [|done].
  intros (y & Hxy & (q & Hq & Hy)%list_elem_of_omap)%list_elem_of_fmap. apply Hp.
  rewrite (wf_same_id r p q x y Hwf); [done|apply Hin; left|apply Hin; by right|done..].
Qed.

Lemma reg_values_names r x y n :
  reg_wf r → x ∈ reg_values r → y ∈ reg_values r → n ∈ rnames x → n ∈ rnames y → x = y.
Proof.
  intros Hwf (p & Hp & Hx)%reg_values_elem (q & Hq & Hy)%reg_values_elem Hnx Hny.
  assert (byname r !! n = Some p) as E1 by (apply (wf_byname _ Hwf); eauto).
  assert (byname r !! n = Some q) as E2 by (apply (wf_byname _ Hwf); eauto).
  congruence.
Qed.

(** *** Each operation keeps the invariant *)

Lemma reg_alloc_fresh r : reg_wf r → nextp r ∉ objs r ∧ heap r !! nextp r = None.
Proof.
  intros Hwf. assert (heap r !! nextp r = None) as Hn.
  { apply eq_None_not_Some. intros Hs%(wf_next _ Hwf). lia. }
  split; [|done]. intros Hp%(wf_heap _ Hwf). by rewrite Hn in Hp; destruct Hp.
Qed.

Lemma reg_alloc_wf r x : reg_wf r → reg_wf (snd (reg_alloc x r)).
Proof.
  intros Hwf. destruct (reg_alloc_fresh r Hwf) as [Hp Hn].
  assert (∀ q, q ∈ objs r → <[nextp r := x]> (heap r) !! q = heap r !! q) as Hh.
  { intros q Hq. apply lookup_insert_ne. by intros <-. }
  split; simpl; try apply Hwf.
  - intros q Hq. rewrite Hh by done. by apply (wf_heap _ Hwf).
  - intros q. destruct (decide (q = nextp r)) as [->|Hne]; [lia|].
    rewrite lookup_insert_ne by done. intros Hs%(wf_next _ Hwf). lia.
  - intros i q. rewrite (wf_byid _ Hwf). split; intros [Hq ?]; (split; [done|]);
      [by rewrite Hh|by rewrite Hh in *].
  - intros n q. rewrite (wf_byname _ Hwf n q). split; intros [Hq ?]; (split; [done|]);
      [by rewrite Hh|by rewrite Hh in *].
Qed.

Lemma reg_alloc_abs r x : reg_wf r → reg_abs (snd (reg_alloc x r)) = reg_abs r.
Proof.
  intros Hwf. destruct (reg_alloc_fresh r Hwf) as [Hp Hn]. unfold reg_abs. simpl.
  apply map_eq. intros i. rewrite !lookup_omap. destruct (byid r !! i) as [p|] eqn:Hi; [|done].
  simpl. apply lookup_insert_ne. intros <-. by apply (wf_byid _ Hwf) in Hi as [? _].
Qed.

Lemma reg_update_wf f p r :
  (∀ x, rid (f x) = rid x) → (∀ x, rnames (f x) = rnames x) → reg_wf r → reg_wf (reg_update f p r).
Proof.
  intros Hid Hnm Hwf.
  assert (∀ q, alter f p (heap r) !! q = (if decide (q = p) then f else id) <$> heap r !! q) as Hh.
  { intros q. case_decide as E; [subst; apply lookup_alter_eq|].
    rewrite lookup_alter_ne by done. by destruct (heap r !! q). }
  split; simpl; try apply Hwf.
  - intros q Hq. rewrite Hh. apply fmap_is_Some. by apply (wf_heap _ Hwf).
  - intros q. rewrite Hh, fmap_is_Some. apply (wf_next _ Hwf).
  - intros i q. rewrite (wf_byid _ Hwf), Hh.
    destruct (heap r !! q) as [x|]; [|done]. simpl. case_decide; simpl; by rewrite ?Hid.
  - intros n q. rewrite (wf_byname _ Hwf n q), Hh.
    destruct (heap r !! q) as [x|]; simpl.
    + apply and_iff_compat_l. split; intros (y & [= <-] & Hy); eexists; (split; [done|]);
        case_decide; simpl in *; by rewrite ?Hnm in *.
    + split; by intros [? (? & ? & ?)].
Qed.

Lemma reg_update_abs f p x r :
  (∀ x, rid (f x) = rid x) → reg_wf r → p ∈ objs r → heap r !! p = Some x →
  reg_abs (reg_update f p r) = <[rid x := f x]> (reg_abs r).
Proof.
  intros Hid Hwf Hp Hx. apply map_eq. intros i. unfold reg_abs. simpl. rewrite lookup_omap.
  assert (byid r !! rid x = Some p) as Ep by (apply (wf_byid _ Hwf); by rewrite Hx).
  destruct (decide (i = rid x)) as [->|Hne].
  - rewrite Ep. simpl. by rewrite lookup_alter_eq, Hx, lookup_insert_eq.
  - rewrite lookup_insert_ne by done. rewrite lookup_omap.
    destruct (byid r !! i) as [q|] eqn:Eq; [|done]. simpl.
    apply lookup_alter_ne. intros <-. destruct (wf_deref _ _ _ Hwf Eq) as (y & ? & ? & _). congruence.
Qed.

Lemma reg_add_wf p x r :
  reg_wf r → p ∉ objs r → heap r !! p = Some x → byid r !! rid x = None →
  (∀ n, n ∈ rnames x → byname r !! n = None) → reg_wf (reg_add p (rid x) (rnames x) r).
Proof.
  intros Hwf Hp Hx Hid Hnm.
  destruct (TruncIndex.addID_spec (idindex r) (rid x) (wf_index _ Hwf)) as [Hidx Hids].
  split; simpl.
  - apply NoDup_app. split; [apply Hwf|]. split; [|apply NoDup_singleton].
    intros q Hq ->%list_elem_of_singleton. done.
  - intros q [Hq| ->%list_elem_of_singleton]%elem_of_app; [by apply (wf_heap _ Hwf)|eauto].
  - apply Hwf.
  - intros i q. rewrite elem_of_app, list_elem_of_singleton.
    destruct (decide (i = rid x)) as [->|Hne].
    + rewrite lookup_insert_eq. split; [intros [= <-]; rewrite Hx; auto|].
      intros [[Hq| ->] Hi]; [|done].
      pose proof (proj2 (wf_byid _ Hwf _ _) (conj Hq Hi)). congruence.
    + rewrite lookup_insert_ne, (wf_byid _ Hwf) by done. split; [tauto|].
      intros [[Hq| ->] Hi]; [done|]. rewrite Hx in Hi. simplify_eq/=.
  - intros n q. rewrite put_names_lookup, elem_of_app, list_elem_of_singleton. destruct (decide (n ∈ rnames x)) as [Hn|Hn].
    + split; [intros E; simplify_eq; eauto|]. intros [[Hq| ->] Hy]; [|done].
      pose proof (proj2 (wf_byname _ Hwf _ _) (conj Hq Hy)) as E. rewrite Hnm in E; done.
    + rewrite (wf_byname _ Hwf n q). split; [tauto|].
      intros [[Hq| ->] Hy]; [done|]. destruct Hy as (y & ? & ?). by simplify_eq.
  - done.
  - intros i. unfold TruncIndex.Add. rewrite Hids. destruct (decide (i = rid x)) as [->|Hne].
    + rewrite lookup_insert_eq. case_decide.
      * split; [by eauto|]. intros _. apply elem_of_union. left. by apply elem_of_singleton.
      * rewrite (wf_ids _ Hwf). naive_solver.
    + rewrite lookup_insert_ne by done. rewrite <- (wf_ids _ Hwf).
      case_decide; [|done]. rewrite elem_of_union, elem_of_singleton. naive_solver.
Qed.

Lemma reg_add_abs p x r :
  heap r !! p = Some x → reg_abs (reg_add p (rid x) (rnames x) r) = <[rid x := x]> (reg_abs r).
Proof.
  intros Hx. unfold reg_abs. simpl. by rewrite (omap_insert_Some _ _ _ _ x).
Qed.

(** The slice without the records that have the identifier of the one at [p]
    is the slice without [p]. *)
Lemma reg_del_objs p x r q :
  reg_wf r → p ∈ objs r → heap r !! p = Some x →
  q ∈ objs (reg_del (rid x) (rnames x) r) ↔ q ∈ objs r ∧ q ≠ p.
Proof.
  intros Hwf Hp Hx. simpl. rewrite list_elem_of_filter. split.
  - intros [Hne Hq]. split; [done|]. intros ->. by rewrite Hx in Hne.
  - intros [Hq Hne]. split; [|done]. intros Hi.
    destruct (heap r !! q) as [y|] eqn:Hy; [|done]. injection Hi as Hi.
    apply Hne. by apply (wf_same_id r q p y x).
Qed.

Lemma reg_del_wf p x r :
  reg_wf r → p ∈ objs r → heap r !! p = Some x → reg_wf (reg_del (rid x) (rnames x) r).
Proof.
  intros Hwf Hp Hx. pose proof (λ q, reg_del_objs p x r q Hwf Hp Hx) as Ho.
  assert (byid r !! rid x = Some p) as Ep by (apply (wf_byid _ Hwf); by rewrite Hx).
  destruct (TruncIndex.Delete_spec (idindex r) (rid x) (wf_index _ Hwf)) as [Hidx Hids].
  split.
  - apply NoDup_filter, Hwf.
  - intros q [Hq _]%Ho. by apply (wf_heap _ Hwf).
  - apply Hwf.
  - intros i q. rewrite Ho. simpl. destruct (decide (i = rid x)) as [->|Hne].
    + rewrite lookup_delete_eq. split; [done|]. intros [[Hq Hne] Hi].
      pose proof (proj2 (wf_byid _ Hwf _ _) (conj Hq Hi)). congruence.
    + rewrite lookup_delete_ne, (wf_byid _ Hwf) by done. split; [|tauto].
      intros [Hq Hi]. split; [split; [done|]|done]. intros ->. rewrite Hx in Hi. simplify_eq/=.
  - intros n q. rewrite Ho. simpl.
    rewrite (names_mid_start p x _ _ _ (wf_byname _ Hwf) Hp Hx n q). split; [|tauto].
    intros [[_ ?%elem_of_nil]|?]; [done|tauto].
  - done.
  - intros i. simpl. rewrite Hids, elem_of_difference, elem_of_singleton, (wf_ids _ Hwf).
    destruct (decide (i = rid x)) as [->|Hne].
    + rewrite lookup_delete_eq. split; [tauto|]. by intros [[? ?] _].
    + rewrite lookup_delete_ne by done. tauto.
Qed.

Lemma reg_del_abs id names r : reg_abs (reg_del id names r) = delete id (reg_abs r).
Proof. unfold reg_abs. simpl. by rewrite omap_delete. Qed.

(** Renaming: the record at [p] has the new names (and what [hook] did), every
    other record loses those of them it had. *)
Lemma reg_rename_heap hook p x names r :
  reg_wf r → p ∈ objs r → heap r !! p = Some x →
  (∀ n y, with_names names (hook n y) = hook n (with_names names y)) →
  let r' := reg_rename hook p (rnames x) names r in
  objs r' = objs r ∧ byid r' = byid r ∧ idindex r' = idindex r ∧ nextp r' = nextp r ∧
  dom (heap r') = dom (heap r) ∧
  heap r' !! p = Some (foldl (λ y n, hook n y) (with_names names x) names) ∧
  (∀ q, q ∈ objs r → q ≠ p → heap r' !! q = strip names <$> heap r !! q).
Proof.
  intros Hwf Hp Hx Hhook. unfold reg_rename.
  pose proof (names_mid_start p x _ _ _ (wf_byname _ Hwf) Hp Hx) as Hmid.
  pose proof (steals_mid hook p (objs r) names _ _ _ Hmid) as Hst.
  assert (∀ l bn h y, with_names names <$> h !! p = Some (with_names names y) →
    with_names names <$> (foldl (steal hook p) (bn, h) l).2 !! p
      = Some (foldl (λ y n, hook n y) (with_names names y) l)) as Hself.
  { induction l as [|n l IH]; intros bn h y Hy; [done|].
    cbn [foldl steal]. rewrite (IH _ _ (hook n y)); [by rewrite Hhook|].
    rewrite lookup_alter_eq. destruct (h !! p) as [z|] eqn:Ez; [|done]. injection Hy as Hy.
    assert (∃ z', (match bn !! n with Some q => remove_name q n h | None => h end) !! p = Some z' ∧
                  with_names names z' = with_names names y) as (z' & -> & Hz').
    { destruct (bn !! n) as [q|]; [|eauto]. rewrite remove_name_lookup, Ez.
      case_decide; simpl; eexists; (split; [done|]); [by rewrite with_names_twice|done]. }
    simpl. by rewrite !Hhook, Hz'. }
  assert (∀ l bn h, dom (foldl (steal hook p) (bn, h) l).2 = dom h) as Hdom.
  { induction l as [|n l IH]; intros bn h; [done|]. cbn [foldl steal].
    rewrite IH, dom_alter_L. destruct (bn !! n); [|done]. apply dom_alter_L. }
  specialize (Hself names (drop_names (rnames x) (byname r)) (heap r) x).
  rewrite Hx in Hself. specialize (Hself eq_refl).
  specialize (Hdom names (drop_names (rnames x) (byname r)) (heap r)).
  destruct (foldl _ _ names) as [bn h]. destruct Hst as [_ Hst]. simpl in *.
  split_and!; try done.
  - by rewrite dom_alter_L.
  - by rewrite lookup_alter_eq.
  - intros q Hq Hne. rewrite lookup_alter_ne by done. by apply Hst.
Qed.

Lemma foldl_hook_names (hook : string → R → R) names l x :
  (∀ n y, with_names names (hook n y) = hook n (with_names names y)) →
  (∀ n y, rid (hook n y) = rid y) →
  foldl (λ y n, hook n y) (with_names names x) l = with_names names (foldl (λ y n, hook n y) x l) ∧
  rid (foldl (λ y n, hook n y) x l) = rid x.
Proof.
  intros Hhook Hid. revert x. induction l as [|n l IH]; intros x; simpl; [done|].
  rewrite <- Hhook. destruct (IH (hook n x)) as [-> ->]. by rewrite Hid.
Qed.

Lemma reg_rename_wf hook p x names r :
  reg_wf r → p ∈ objs r → heap r !! p = Some x →
  (∀ n y, with_names names (hook n y) = hook n (with_names names y)) →
  (∀ n y, rid (hook n y) = rid y) →
  reg_wf (reg_rename hook p (rnames x) names r).
Proof.
  intros Hwf Hp Hx Hhook Hrid.
  destruct (reg_rename_heap hook p x names r Hwf Hp Hx Hhook) as (Ho & Hi & Hix & Hn & Hd & Hself & Hoth).
  destruct (foldl_hook_names hook names names x Hhook Hrid) as [Hf1 Hf2]. rewrite Hf1 in Hself.
  pose proof (names_mid_start p x _ _ _ (wf_byname _ Hwf) Hp Hx) as Hmid.
  pose proof (steals_mid hook p (objs r) names _ _ _ Hmid) as Hst.
  assert (∀ q, q ∈ objs r → rid <$> heap (reg_rename hook p (rnames x) names r) !! q = rid <$> heap r !! q)
    as Hids.
  { intros q Hq. destruct (decide (q = p)) as [->|Hne].
    - rewrite Hself, Hx. simpl. by rewrite rid_with_names, Hf2.
    - rewrite Hoth by done. destruct (heap r !! q); [|done]. simpl. by rewrite rid_strip. }
  split; rewrite ?Ho, ?Hi, ?Hix, ?Hn; try apply Hwf.
  - intros q Hq. apply elem_of_dom. rewrite Hd. by apply elem_of_dom, (wf_heap _ Hwf).
  - intros q. rewrite <- elem_of_dom, Hd, elem_of_dom. apply (wf_next _ Hwf).
  - intros i q. rewrite (wf_byid _ Hwf). split; intros [Hq ?]; (split; [done|]);
      [by rewrite Hids|by rewrite Hids in *].
  - intros n q. unfold reg_rename in Hself |- *. destruct (foldl _ _ names) as [bn h].
    destruct Hst as [(done' & Hd' & Hmid') _]. simpl in *. rewrite (Hmid' n q), Hd'. split.
    + intros [[-> [?%elem_of_nil|Hnn]]|(Hq & Hne & y & ? & ?)]; [done| |].
      * split; [done|]. eexists. split; [done|]. by rewrite rnames_with_names.
      * split; [done|]. exists y. by rewrite lookup_alter_ne.
    + intros [Hq (y & Hy & Hny)]. destruct (decide (q = p)) as [->|Hne].
      * left. split; [done|]. right. rewrite Hself in Hy. injection Hy as <-.
        by rewrite rnames_with_names in Hny.
      * right. rewrite lookup_alter_ne in Hy by done. eauto.
Qed.

Lemma reg_rename_abs hook p x names r :
  reg_wf r → p ∈ objs r → heap r !! p = Some x →
  (∀ n y, with_names names (hook n y) = hook n (with_names names y)) →
  reg_abs (reg_rename hook p (rnames x) names r) =
    <[rid x := foldl (λ y n, hook n y) (with_names names x) names]> (strip names <$> reg_abs r).
Proof.
  intros Hwf Hp Hx Hhook.
  destruct (reg_rename_heap hook p x names r Hwf Hp Hx Hhook) as (Ho & Hi & _ & _ & _ & Hself & Hoth).
  assert (byid r !! rid x = Some p) as Ep by (apply (wf_byid _ Hwf); by rewrite Hx).
  apply map_eq. intros i. unfold reg_abs. rewrite Hi, lookup_omap.
  destruct (decide (i = rid x)) as [->|Hne].
  - by rewrite Ep, lookup_insert_eq.
  - rewrite lookup_insert_ne, lookup_fmap, lookup_omap by done.
    destruct (byid r !! i) as [q|] eqn:Eq; [|done]. simpl.
    destruct (wf_deref _ _ _ Hwf Eq) as (y & Hy & Hyi & Hq).
    apply Hoth; [done|]. intros ->. congruence.
Qed.

(** ** Records from files

    While a store is loaded its records are read into new addresses: the
    pointers [cs] lead to the records [vs], and [ids] finds them. *)
Record fetched (cs : list positive) (ids : gmap string positive) (vs : list R) r : Prop := {
  ft_next p : is_Some (heap r !! p) → (p < nextp r)%positive;
  ft_nodup : NoDup cs;
  ft_values : Forall2 (λ p x, heap r !! p = Some x) cs vs;
  ft_ids i p : ids !! i = Some p ↔ p ∈ cs ∧ rid <$> heap r !! p = Some i
}.

Lemma fetched_nil r : (∀ p, is_Some (heap r !! p) → (p < nextp r)%positive) → fetched [] ∅ [] r.
Proof.
  intros Hn. split; [done|constructor|constructor|]. intros i p. rewrite lookup_empty, elem_of_nil. naive_solver.
Qed.

Lemma fetched_value cs ids vs r p : fetched cs ids vs r → p ∈ cs → ∃ x, heap r !! p = Some x ∧ x ∈ vs.
Proof.
  intros Hl [k Hk]%list_elem_of_lookup.
  destruct (Forall2_lookup_l _ _ _ _ _ (ft_values _ _ _ _ Hl) Hk) as (x & Hx & Hh).
  exists x. split; [done|]. by eapply list_elem_of_lookup_2.
Qed.

Lemma fetched_pointer cs ids vs r x : fetched cs ids vs r → x ∈ vs → ∃ p, heap r !! p = Some x ∧ p ∈ cs.
Proof.
  intros Hl [k Hk]%list_elem_of_lookup.
  destruct (Forall2_lookup_r _ _ _ _ _ (ft_values _ _ _ _ Hl) Hk) as (p & Hp & Hh).
  exists p. split; [done|]. by eapply list_elem_of_lookup_2.
Qed.

Lemma fetched_id cs ids vs r i : fetched cs ids vs r → is_Some (ids !! i) ↔ i ∈ rid <$> vs.
Proof.
  intros Hl. rewrite list_elem_of_fmap. split.
  - intros [p [Hp Hi]%(ft_ids _ _ _ _ Hl)]. destruct (fetched_value _ _ _ _ _ Hl Hp) as (x & Hx & Hv).
    exists x. split; [|done]. rewrite Hx in Hi. by injection Hi.
  - intros (x & -> & Hx). destruct (fetched_pointer _ _ _ _ _ Hl Hx) as (p & Hp & Hin).
    exists p. apply (ft_ids _ _ _ _ Hl). by rewrite Hp.
Qed.

Lemma fetched_new cs ids vs r x :
  fetched cs ids vs r → rid x ∉ rid <$> vs →
  fetched (cs ++ [nextp r]) (<[rid x := nextp r]> ids) (vs ++ [x]) (snd (reg_alloc x r)).
Proof.
  intros Hl Hid.
  assert (heap r !! nextp r = None) as Hfn.
  { apply eq_None_not_Some. intros Hp%(ft_next _ _ _ _ Hl). lia. }
  assert (nextp r ∉ cs) as Hnc.
  { intros Hp. destruct (fetched_value _ _ _ _ _ Hl Hp) as (y & Hy & _). congruence. }
  assert (∀ p, p ∈ cs → <[nextp r := x]> (heap r) !! p = heap r !! p) as Hh.
  { intros p Hp. apply lookup_insert_ne. by intros <-. }
  split; simpl.
  - intros p. destruct (decide (p = nextp r)) as [->|Hne]; [lia|]. rewrite lookup_insert_ne by done.
    intros Hp%(ft_next _ _ _ _ Hl). lia.
  - apply NoDup_app. split; [apply Hl|]. split; [|apply NoDup_singleton]. by intros p Hp ->%list_elem_of_singleton.
  - apply Forall2_app; [|constructor; [apply lookup_insert_eq|constructor]].
    apply Forall2_same_length_lookup_2; [by eapply Forall2_length, Hl|]. intros k p y Hk Hy.
    rewrite Hh by (by eapply list_elem_of_lookup_2).
    exact (Forall2_lookup_lr _ _ _ _ _ _ (ft_values _ _ _ _ Hl) Hk Hy).
  - intros i p. rewrite elem_of_app, list_elem_of_singleton. destruct (decide (i = rid x)) as [->|Hne].
    + rewrite lookup_insert_eq. split.
      * intros [= <-]. rewrite lookup_insert_eq. auto.
      * intros [[Hp| ->] Hi]; [|done]. rewrite Hh in Hi by done. exfalso. apply Hid.
        apply (fetched_id _ _ _ _ _ Hl). exists p. by apply (ft_ids _ _ _ _ Hl).
    + rewrite lookup_insert_ne by done. rewrite (ft_ids _ _ _ _ Hl). split.
      * intros [Hp Hi]. rewrite Hh by done. auto.
      * intros [[Hp| ->] Hi]; [by rewrite Hh in Hi|]. rewrite lookup_insert_eq in Hi. naive_solver.
Qed.

Lemma fetched_omap cs ids vs r : fetched cs ids vs r → omap (λ p, heap r !! p) cs = vs.
Proof.
  intros Hl. pose proof (ft_values _ _ _ _ Hl) as Hv. clear Hl.
  induction Hv as [|p x cs vs Hp _ IH]; [done|]. simpl. rewrite Hp. f_equal. exact IH.
Qed.

Lemma fetched_ids_nodup cs ids vs r : fetched cs ids vs r → NoDup (rid <$> vs).
Proof.
  intros Hl. apply NoDup_alt. intros i j y Hi Hj. rewrite list_lookup_fmap in Hi, Hj.
  destruct (vs !! i) as [x|] eqn:Ex; [|done]. destruct (vs !! j) as [x'|] eqn:Ex'; [|done]. simpl in *.
  destruct (Forall2_lookup_r _ _ _ _ _ (ft_values _ _ _ _ Hl) Ex) as (p & Hp & Hx).
  destruct (Forall2_lookup_r _ _ _ _ _ (ft_values _ _ _ _ Hl) Ex') as (q & Hq & Hx').
  assert (ids !! y = Some p) as E1.
  { apply (ft_ids _ _ _ _ Hl). rewrite Hx. split; [by eapply list_elem_of_lookup_2|done]. }
  assert (ids !! y = Some q) as E2.
  { apply (ft_ids _ _ _ _ Hl). rewrite Hx'. split; [by eapply list_elem_of_lookup_2|done]. }
  assert (p = q) as -> by congruence. by eapply NoDup_lookup; [apply (ft_nodup _ _ _ _ Hl)|..].
Qed.

(** The registry that is made of them when the names are sorted out. *)
Lemma fetched_wf cs ids vs r bn h :
  fetched cs ids vs r → (∀ p, rid <$> h !! p = rid <$> heap r !! p) → names_inv cs bn h →
  reg_wf (mkReg cs (TruncIndex.NewTruncIndex (rid <$> vs)) ids bn h (nextp r)).
Proof.
  intros Hl Hid Hn.
  assert (∀ p, is_Some (h !! p) ↔ is_Some (heap r !! p)) as Hdom.
  { intros p. rewrite <- !(fmap_is_Some rid). by rewrite Hid. }
  split; simpl.
  - apply Hl.
  - intros p Hp. apply Hdom. destruct (fetched_value _ _ _ _ _ Hl Hp) as (x & -> & _). eauto.
  - intros p Hp%Hdom. by apply (ft_next _ _ _ _ Hl).
  - intros i p. rewrite Hid. apply (ft_ids _ _ _ _ Hl).
  - done.
  - apply TruncIndex.NewTruncIndex_spec.
  - intros i. destruct (TruncIndex.NewTruncIndex_spec (rid <$> vs)) as [_ ->].
    apply and_iff_compat_r. symmetry. by apply (fetched_id _ _ _ _ _ Hl).
Qed.
End Registry.
Arguments registry : clear implicits.
#[export] Hint Resolve reg_wf_empty reg_alloc_wf : store.
