(* ===== verification/StoreLock.v ===== *)
(** * How a store is locked and kept fresh

    [containers.go], [images.go] and (with two lock files) [layers.go] have
    the same methods [startWriting], [startReading], [reloadIfChanged], ...;
    they are defined here once, over the [load] method of the store.

    [C] is what a store knows from its construction (paths), [Mem] what it
    keeps in memory under [inProcessLock]. *)

From S2P Require Import Prelude World LockFile.

Local Open Scope string_scope.

Record rstore (C Mem : Type) := mkStore {
  lockfile : LockFile;
  conf : C;
  inProcessLock : rwmutex;
  lastWrite : LastWrite;
  mem : Mem
}.
Arguments mkStore {C Mem}.
Arguments lockfile {C Mem}.
Arguments conf {C Mem}.
Arguments inProcessLock {C Mem}.
Arguments lastWrite {C Mem}.
Arguments mem {C Mem}.

Section Store.
Context {C Mem : Type}.
Notation store := (rstore C Mem).
Notation St := (World * rstore C Mem)%type.

Definition set_lockfile (l : LockFile) (r : store) : store :=
  mkStore l (conf r) (inProcessLock r) (lastWrite r) (mem r).
Definition set_inProcessLock (m : rwmutex) (r : store) : store :=
  mkStore (lockfile r) (conf r) m (lastWrite r) (mem r).
Definition set_lastWrite (x : LastWrite) (r : store) : store :=
  mkStore (lockfile r) (conf r) (inProcessLock r) x (mem r).
Definition set_mem (m : Mem) (r : store) : store :=
  mkStore (lockfile r) (conf r) (inProcessLock r) (lastWrite r) m.

(** Code of the world, of the lock file, of the memory. *)
Definition inWorld {A} (m : M World A) : M St A := zoom fst (λ w s, (w, snd s)) m.
Definition onLock {A} (m : M LF A) : M St A :=
  zoom (λ s, (fst s, lockfile (snd s))) (λ t s, (fst t, set_lockfile (snd t) (snd s))) m.
Definition getR {A} (f : store → A) : M St A := gets (λ s, f (snd s)).
Definition getMem {A} (f : Mem → A) : M St A := gets (λ s, f (mem (snd s))).
Definition modMem (f : Mem → Mem) : M St unit := modify (λ s, (fst s, set_mem (f (mem (snd s))) (snd s))).

(** Operations of [inProcessLock]; see [LockFile] about [Deadlock]. *)
Definition on_mutex (f : rwmutex → option rwmutex) (c : crash) : M St unit :=
  m ← getR inProcessLock;
  match f m with
  | None => stop c
  | Some m' => modify (λ s, (fst s, set_inProcessLock m' (snd s)))
  end.
Definition ip_Lock : M St unit := on_mutex mutex_Lock Deadlock.
Definition ip_RLock : M St unit := on_mutex mutex_RLock Deadlock.
Definition ip_Unlock : M St unit := on_mutex mutex_Unlock (Panic "sync: unlock of unlocked RWMutex").
Definition ip_RUnlock : M St unit := on_mutex mutex_RUnlock (Panic "sync: RUnlock of unlocked RWMutex").

(** ** The methods *)

(** [load]: the flag says whether a retry with the write lock could help. *)
Context (load : bool → M St (bool * option error)).

Definition modified : M St (LastWrite * bool) :=
  lw ← getR lastWrite; onLock (ModifiedSince lw).

Definition reloadIfChanged (lockedForWriting : bool) : M St (bool * option error) :=
  r ← try modified;
  match r with
  | inr err => mret (false, Some err)
  | inl (lw, false) => mret (false, None)
  | inl (lw, true) =>
      res ← load lockedForWriting;
      match res with
      | (tryLockedForWriting, Some err) => mret (tryLockedForWriting, Some err)
      | (_, None) =>
          _ ← modify (λ s, (fst s, set_lastWrite lw (snd s)));
          mret (false, None)
      end
  end.

Definition startWritingWithReload (canReload : bool) : M St unit :=
  _ ← onLock Lock;
  _ ← ip_Lock;
  on_error
    (if canReload then
       res ← reloadIfChanged true;
       match res with (_, Some err) => fail err | (_, None) => mret tt end
     else mret tt)
    (_ ← ip_Unlock; onLock Unlock).

Definition startWriting : M St unit := startWritingWithReload true.

Definition stopWriting : M St unit := _ ← ip_Unlock; onLock Unlock.

Definition stopReading : M St unit := _ ← ip_RUnlock; onLock Unlock.

(** [inProcessLocked(func() ...reloadIfChanged(...))] *)
Definition lockedReload (lockedForWriting : bool) : M St (bool * option error) :=
  _ ← ip_Lock; finally (reloadIfChanged lockedForWriting) ip_Unlock.

(** Call the clean-up function and return the error. *)
Definition bail {A} (unlockFn : M St unit) (err : error) : M St A := _ ← unlockFn; fail err.

(** The part of [startReading] that reloads, with the lock file held for
    reading and [inProcessLock] released. *)
Definition reloadForReading : M St unit :=
  res ← lockedReload false;
  match res with
  | (_, None) => mret tt
  | (false, Some err) => bail (onLock Unlock) err
  | (true, Some _) =>
      _ ← onLock Unlock;
      _ ← onLock Lock;
      res ← lockedReload true;
      match res with
      | (_, Some err) => bail (onLock Unlock) err
      | (_, None) =>
          _ ← onLock Unlock;
          _ ← onLock RLock;
          res ← lockedReload false;
          match res with
          | (_, Some err) => bail (onLock Unlock) err
          | (_, None) => mret tt
          end
      end
  end.

Definition startReadingWithReload (canReload : bool) : M St unit :=
  _ ← onLock RLock;
  _ ← ip_RLock;
  if canReload then
    r ← try modified;
    match r with
    | inr err => bail stopReading err
    | inl (_, false) => mret tt
    | inl (_, true) =>
        _ ← ip_RUnlock;
        _ ← reloadForReading;
        ip_RLock
    end
  else mret tt.

Definition startReading : M St unit := startReadingWithReload true.

(** ** Lock discipline *)

(** The store is not locked; locked for writing; for reading. *)
Definition unlocked (r : store) : Prop :=
  lf_is MFree 0 false None (lockfile r) ∧ inProcessLock r = MFree.
Definition writing (r : store) : Prop :=
  lf_is MWriter 1 true (Some WriteLock) (lockfile r) ∧ inProcessLock r = MWriter.
Definition reading (r : store) : Prop :=
  lf_is (MReaders 1) 1 true (Some ReadLock) (lockfile r) ∧ inProcessLock r = MReaders 1.

(** Methods that leave the locks and the configuration as they are and do
    not wait for them. *)
Definition same_lock (r r' : store) : Prop :=
  lockfile r' = lockfile r ∧ conf r' = conf r ∧ inProcessLock r' = inProcessLock r.

Definition lock_neutral {A} (m : M St A) : Prop :=
  ∀ s, wp m (λ o s', same_lock (snd s) (snd s') ∧ o ≠ Crash Deadlock) s.

(** Postconditions by outcome, where a crash may be anything but waiting for
    one's own lock. *)
Definition postc {A} (Q : A → St → Prop) (E : error → St → Prop) (o : outcome A) (s : St) : Prop :=
  match o with Ret a => Q a s | Err e => E e s | Crash c => c ≠ Deadlock end.

Lemma wp_on_mutex f c Φ s :
  (match f (inProcessLock (snd s)) with
   | Some m' => Φ (Ret tt) (fst s, set_inProcessLock m' (snd s))
   | None => Φ (Crash c) s
   end) → wp (on_mutex f c) Φ s.
Proof. unfold on_mutex, getR. intros HΦ. apply wp_bind, wp_gets. simpl in *. by destruct (f _). Qed.

Lemma lock_wp t (Φ : outcome unit → LF → Prop) w l :
  lf_is MFree 0 false None l →
  (∀ w', Φ (Ret tt) (w', set_counter 1 (set_lock t true
           (set_rwMutex (match t with ReadLock => MReaders 1 | WriteLock => MWriter end) l)))) →
  (∀ w' l' c, c ≠ Deadlock → Φ (Crash c) (w', l')) →
  wp (lock t) Φ (w, l).
Proof.
  intros (Hm & Hc & Hl & _) Hret Hcr. unfold lock, wp, lock_begin, lock_finish, getL, gets, modL, modify, onWorld,
    zoom, try, LockFileHandle, mbind, M_bind. simpl. rewrite Hm.
  pose proof (openLock_only_killed (file l) w) as Hnc.
  destruct t; simpl; rewrite Hc; simpl; destruct (openLock (file l) w) as [w1 [[]|e|c]]; simpl;
    try (by apply Hcr); try (destruct Hnc as [-> _]; by apply Hcr);
    destruct (lockHandle_retry (w_faults w1)) as [fl []]; simpl; try (by apply Hcr); rewrite Hc; apply Hret.
Qed.

Lemma Lock_wp (Φ : outcome unit → LF → Prop) w l :
  lf_is MFree 0 false None l →
  (∀ w' l', lf_is MWriter 1 true (Some WriteLock) l' → Φ (Ret tt) (w', l')) →
  (∀ w' l' c, c ≠ Deadlock → Φ (Crash c) (w', l')) →
  wp Lock Φ (w, l).
Proof.
  intros Hl Hret Hcr. unfold Lock, getL. apply wp_bind, wp_gets. destruct (ro _).
  - apply wp_stop. by apply Hcr.
  - apply lock_wp; [done| |done]. intros w'. apply Hret. done.
Qed.

Lemma RLock_wp (Φ : outcome unit → LF → Prop) w l :
  lf_is MFree 0 false None l →
  (∀ w' l', lf_is (MReaders 1) 1 true (Some ReadLock) l' → Φ (Ret tt) (w', l')) →
  (∀ w' l' c, c ≠ Deadlock → Φ (Crash c) (w', l')) →
  wp RLock Φ (w, l).
Proof. intros Hl Hret Hcr. apply lock_wp; [done| |done]. intros w'. apply Hret. done. Qed.

Lemma Unlock_wp t (Φ : outcome unit → LF → Prop) w l :
  lf_is (match t with ReadLock => MReaders 1 | WriteLock => MWriter end) 1 true (Some t) l →
  (∀ l', lf_is MFree 0 false None l' → Φ (Ret tt) (w, l')) →
  wp Unlock Φ (w, l).
Proof.
  intros (Hm & Hc & Hl & Ht) Hret. simpl in Ht. unfold wp. rewrite Unlock_run by (done || lia).
  rewrite Ht, Hm, Hc. destruct t; simpl; apply Hret; done.
Qed.

Lemma wp_onLock {A} (m : M LF A) (Φ : outcome A → St → Prop) s :
  wp m (λ o t, Φ o (fst t, set_lockfile (snd t) (snd s))) (fst s, lockfile (snd s)) → wp (onLock m) Φ s.
Proof. intros HΦ. unfold onLock. apply wp_zoom. exact HΦ. Qed.

Lemma lock_neutral_GetLastWrite : lock_neutral (onLock GetLastWrite).
Proof.
  intros [w r]. apply wp_onLock. unfold GetLastWrite, AssertLocked, getL, onWorld. wp_step. wp_step. wp_step.
  simpl. destruct (locked _); [|by apply wp_stop]. wp_step. wp_step. wp_step. wp_step. wp_step.
  apply wp_pop_fault; [|done]. intros f l. simpl. destruct f; wp_steps; done.
Qed.

Lemma lock_neutral_modified : lock_neutral modified.
Proof.
  intros [w r]. unfold modified, getR. wp_step. wp_step. apply wp_onLock.
  unfold ModifiedSince, AssertLocked, getL. wp_step. wp_step. wp_step. simpl.
  destruct (locked _) eqn:E; [|by apply wp_stop]. wp_step. wp_step.
  pose proof (lock_neutral_GetLastWrite (w, r)) as HG. unfold onLock in HG.
  unfold wp, zoom in HG. simpl in HG. unfold wp at 1.
  destruct (GetLastWrite (w, lockfile r)) as [[w' l'] o]. simpl in *.
  destruct HG as [(Hl & _ & _) Hd]. simpl in Hl. subst l'.
  destruct o as [x|e|c]; simpl; [|done|by destruct c].
  unfold equals. destruct (state _); [|wp_steps; done]. destruct (state x); wp_steps; done.
Qed.

(** The same for a method that returns its error as part of its result. *)
Definition lock_neutral' {A} (m : M St A) : Prop :=
  ∀ s, wp m (postc (λ _ s', same_lock (snd s) (snd s')) (λ _ _, False)) s.

Lemma same_lock_refl r : same_lock r r.
Proof. done. Qed.

Lemma same_lock_trans r1 r2 r3 : same_lock r1 r2 → same_lock r2 r3 → same_lock r1 r3.
Proof. unfold same_lock. intuition congruence. Qed.

Context (load_neutral : ∀ b, lock_neutral' (load b)).

Lemma lock_neutral_reload b : lock_neutral' (reloadIfChanged b).
Proof.
  intros s. unfold reloadIfChanged. wp_step. wp_step.
  eapply wp_mono; [apply lock_neutral_modified|].
  intros [[lw m]|e|c] s1 [Hs Hd]; [|done|by simpl; intros ->].
  destruct m; [|done]. wp_step. eapply wp_mono; [apply load_neutral|].
  intros [[try_ [e|]]|e|c] s2 Hs2; simpl in *; try done; by eapply same_lock_trans.
Qed.

(** *** startWriting and stopWriting *)

Lemma same_lock_writing r r' : same_lock r r' → writing r → writing r'.
Proof. intros (E1 & _ & E2) [? ?]. split; congruence. Qed.

Lemma same_lock_reading r r' : same_lock r r' → reading r → reading r'.
Proof. intros (E1 & _ & E2) [? ?]. split; congruence. Qed.

Lemma stopWriting_wp w r :
  writing r → wp stopWriting (λ o s, o = Ret tt ∧ unlocked (snd s) ∧ mem (snd s) = mem r ∧ fst s = w) (w, r).
Proof.
  intros [Hl Hip]. unfold stopWriting, ip_Unlock. wp_step. apply wp_on_mutex. simpl. rewrite Hip. simpl.
  apply wp_onLock. apply (Unlock_wp WriteLock); [done|]. done.
Qed.

Lemma stopReading_wp w r :
  reading r → wp stopReading (λ o s, o = Ret tt ∧ unlocked (snd s) ∧ mem (snd s) = mem r ∧ fst s = w) (w, r).
Proof.
  intros [Hl Hip]. unfold stopReading, ip_RUnlock. wp_step. apply wp_on_mutex. simpl. rewrite Hip. simpl.
  apply wp_onLock. apply (Unlock_wp ReadLock); [done|]. done.
Qed.

Lemma startWriting_wp b w r :
  unlocked r →
  wp (startWritingWithReload b)
     (postc (λ _ s, writing (snd s)) (λ _ s, unlocked (snd s))) (w, r).
Proof.
  intros [Hl Hip]. unfold startWritingWithReload, ip_Lock. wp_step. apply wp_onLock.
  apply Lock_wp; [done| |done]. intros w1 l1 Hl1. simpl. wp_step. apply wp_on_mutex. simpl. rewrite Hip. simpl.
  wp_step. set (s2 := (w1, _)).
  assert (writing (snd s2)) as Hw by done. clearbody s2.
  assert (∀ (s3 : St) (e : error), writing (snd s3) → wp (_ ← ip_Unlock; onLock Unlock)
    (λ o s4, match o with
             | Crash c => postc (λ (_ : unit) s, writing (snd s)) (λ _ s, unlocked (snd s)) (Crash c) s4
             | _ => postc (λ (_ : unit) s, writing (snd s)) (λ _ s, unlocked (snd s)) (Err e) s4
             end) s3) as Hcl.
  { intros [w3 r3] e Hw3. eapply wp_mono; [by apply stopWriting_wp|].
    intros o s4 (-> & ? & _). done. }
  destruct b; [|by wp_steps]. wp_step. eapply wp_mono; [apply lock_neutral_reload|].
  intros [[tr [e|]]|e|c] s3 Hs; simpl; try done; eapply same_lock_writing in Hs; try done.
  by apply (Hcl s3 e).
Qed.

(** *** startReading *)

Lemma lockedReload_wp b w r :
  inProcessLock r = MFree →
  wp (lockedReload b) (postc (λ _ s, same_lock r (snd s)) (λ _ _, False)) (w, r).
Proof.
  intros Hip. unfold lockedReload, ip_Lock. wp_step. apply wp_on_mutex. simpl. rewrite Hip. simpl.
  wp_step. eapply wp_mono; [apply lock_neutral_reload|].
  intros [a|e|c] [w3 r3]; simpl; [|done|done]. intros (E1 & E2 & E3). simpl in *.
  unfold ip_Unlock; apply wp_on_mutex; simpl; rewrite E3; simpl; split; simpl; auto.
Qed.

(** The lock file is held for reading, [inProcessLock] is free. *)
Definition half_reading (r : store) : Prop :=
  lf_is (MReaders 1) 1 true (Some ReadLock) (lockfile r) ∧ inProcessLock r = MFree.

Lemma bail_wp {A} t w r e (Q : A → St → Prop) :
  lf_is (match t with ReadLock => MReaders 1 | WriteLock => MWriter end) 1 true (Some t) (lockfile r) →
  inProcessLock r = MFree →
  wp (bail (A := A) (onLock Unlock) e) (postc Q (λ _ s, unlocked (snd s))) (w, r).
Proof.
  intros Hl Hip. unfold bail. wp_step. apply wp_onLock. apply (Unlock_wp t); [done|].
  intros l' Hl'. simpl. by wp_step.
Qed.

Lemma reloadForReading_wp w r :
  half_reading r →
  wp reloadForReading (postc (λ _ s, half_reading (snd s)) (λ _ s, unlocked (snd s))) (w, r).
Proof.
  intros [Hl Hip]. unfold reloadForReading. wp_step. eapply wp_mono; [by apply lockedReload_wp|].
  intros [[tr [err|]]|e|c] [w1 r1]; try done; intros (E1 & _ & E3); simpl in *.
  2: { destruct tr; apply wp_ret; split; simpl; congruence. }
  destruct tr; [|apply (bail_wp ReadLock); congruence].
  wp_step. apply wp_onLock, (Unlock_wp ReadLock); [simpl; congruence|]. intros l2 Hl2. simpl.
  wp_step. apply wp_onLock, Lock_wp; [done| |done]. intros w3 l3 Hl3. simpl.
  wp_step. eapply wp_mono; [apply lockedReload_wp; simpl; congruence|].
  intros [[tr [err2|]]|e|c] [w4 r4]; try done; intros (F1 & _ & F3); simpl in *.
  { apply (bail_wp WriteLock); simpl; congruence. }
  wp_step. apply wp_onLock, (Unlock_wp WriteLock); [simpl; congruence|]. intros l5 Hl5. simpl.
  wp_step. apply wp_onLock, RLock_wp; [done| |done]. intros w6 l6 Hl6. simpl.
  wp_step. eapply wp_mono; [apply lockedReload_wp; simpl; congruence|].
  intros [[tr' [err3|]]|e|c] [w7 r7]; try done; intros (G1 & _ & G3); simpl in *.
  - apply (bail_wp ReadLock); simpl; congruence.
  - apply wp_ret. split; simpl; congruence.
Qed.

Lemma startReading_wp b w r :
  unlocked r →
  wp (startReadingWithReload b)
     (postc (λ _ s, reading (snd s)) (λ _ s, unlocked (snd s))) (w, r).
Proof.
  intros [Hl Hip]. unfold startReadingWithReload, ip_RLock. wp_step. apply wp_onLock.
  apply RLock_wp; [done| |done]. intros w1 l1 Hl1. simpl. wp_step. apply wp_on_mutex. simpl. rewrite Hip. simpl.
  destruct b; [|by wp_step]. wp_step. wp_step. eapply wp_mono; [apply lock_neutral_modified|].
  intros [[lw [|]]|e|c] [w2 r2] [(E1 & _ & E3) Hd]; simpl in *.
  - wp_step. unfold ip_RUnlock. apply wp_on_mutex. simpl. rewrite E3. simpl. wp_step.
    eapply wp_mono; [apply reloadForReading_wp; split; simpl; congruence|].
    intros [[]|e|c] [w3 r3]; simpl; [|done|done]. intros [? G2]. simpl in *.
    apply wp_on_mutex. simpl. rewrite G2. simpl. by split.
  - apply wp_ret. split; simpl; congruence.
  - unfold bail. wp_step. eapply wp_mono; [apply stopReading_wp; split; simpl; congruence|].
    intros o s (-> & ? & _). by wp_step.
  - by intros ->.
Qed.

(** ** Frames *)

(** Nothing but the world, the lock file and the last write changes. *)
Definition same_mem (s s' : St) : Prop :=
  mem (snd s') = mem (snd s) ∧ conf (snd s') = conf (snd s) ∧
  inProcessLock (snd s') = inProcessLock (snd s).

#[global] Instance same_mem_preorder : PreOrder same_mem.
Proof. split; [by intros s|]. unfold same_mem. intros s1 s2 s3 (-> & -> & ->) (-> & -> & ->). done. Qed.

(** The memory keeps [I]. *)
Definition mem_inv (I : Mem → Prop) (s s' : St) : Prop := I (mem (snd s)) → I (mem (snd s')).

#[global] Instance mem_inv_preorder I : PreOrder (mem_inv I).
Proof. split; unfold mem_inv; [by intros s|]. auto. Qed.

Lemma moves_weaken {A} I (m : M St A) : moves same_mem m → moves (mem_inv I) m.
Proof. intros Hm s. destruct (Hm s) as [E _]. unfold mem_inv. by rewrite E. Qed.

Lemma same_mem_inWorld {A} (m : M World A) : moves same_mem (inWorld m).
Proof. intros [w r]. unfold inWorld, zoom. simpl. by destruct (m w). Qed.

Lemma same_mem_onLock {A} (m : M LF A) : moves same_mem (onLock m).
Proof. intros [w r]. unfold onLock, zoom. simpl. by destruct (m (w, lockfile r)). Qed.

Lemma same_mem_lastWrite x : moves same_mem (modify (λ s : St, (fst s, set_lastWrite x (snd s)))).
Proof. by intros [w r]. Qed.

Lemma mem_inv_modMem (I : Mem → Prop) f : (∀ m, I m → I (f m)) → moves (mem_inv I) (modMem f).
Proof. intros Hf [w r] Hr. by apply Hf. Qed.

Lemma mem_inv_inWorld {A} I (m : M World A) : moves (mem_inv I) (inWorld m).
Proof. apply moves_weaken, same_mem_inWorld. Qed.
Lemma mem_inv_onLock {A} I (m : M LF A) : moves (mem_inv I) (onLock m).
Proof. apply moves_weaken, same_mem_onLock. Qed.
Lemma mem_inv_lastWrite I x : moves (mem_inv I) (modify (λ s : St, (fst s, set_lastWrite x (snd s)))).
Proof. apply moves_weaken, same_mem_lastWrite. Qed.

(** *** Methods that leave the locks alone *)

Definition same_lock' (s s' : St) : Prop := same_lock (snd s) (snd s').

#[global] Instance same_lock_preorder : PreOrder same_lock'.
Proof. split; [by intros s|]. intros s1 s2 s3. apply same_lock_trans. Qed.

Lemma calm_neutral {A} (m : M St A) : calm m → moves same_lock' m → lock_neutral m.
Proof. intros Hc Hm s. split; [apply Hm|apply Hc]. Qed.

Lemma same_lock_inWorld {A} (m : M World A) : moves same_lock' (inWorld m).
Proof. intros [w r]. unfold inWorld, zoom. simpl. by destruct (m w). Qed.

Lemma same_lock_lastWrite x : moves same_lock' (modify (λ s : St, (fst s, set_lastWrite x (snd s)))).
Proof. by intros [w r]. Qed.

Lemma same_lock_modMem f : moves same_lock' (modMem f).
Proof. by intros [w r]. Qed.

(** Methods of the lock file that only look at it. *)
Lemma same_lock_onLock {A} (m : M LF A) :
  (∀ t, snd (fst (m t)) = snd t) → moves same_lock' (onLock m).
Proof.
  intros Hm [w r]. specialize (Hm (w, lockfile r)). unfold onLock, zoom. simpl in *.
  by destruct (m (w, lockfile r)) as [[w' l'] o].
Qed.

Lemma same_lock_AssertLockedForWriting : moves same_lock' (onLock AssertLockedForWriting).
Proof.
  apply same_lock_onLock. intros [w l]. unfold AssertLockedForWriting, AssertLocked, getL, gets, mbind, M_bind.
  simpl. destruct (locked l); [|done]. simpl. by destruct (lockType l).
Qed.

Lemma onWorld_snd {A} (m : M World A) t : snd (fst (onWorld m t)) = snd t.
Proof. destruct t as [w l]. unfold onWorld, zoom. simpl. by destruct (m w). Qed.

Definition same_lf (t t' : LF) : Prop := snd t' = snd t.
#[local] Instance same_lf_preorder : PreOrder same_lf.
Proof. split; unfold same_lf; [done|]. intros ? ? ? E1 E2. by rewrite E2. Qed.

Lemma same_lf_onWorld {A} (m : M World A) : moves same_lf (onWorld m).
Proof. intros t. apply onWorld_snd. Qed.
#[local] Hint Resolve same_lf_onWorld : moves.

Lemma same_lf_RecordWrite : moves same_lf RecordWrite.
Proof.
  unfold RecordWrite, AssertLockedForWriting, AssertLocked, serialize, getL. moves_steps.
Qed.

Lemma same_lf_GetLastWrite : moves same_lf GetLastWrite.
Proof. unfold GetLastWrite, AssertLocked, getL. moves_steps. Qed.

Lemma same_lock_RecordWrite : moves same_lock' (onLock RecordWrite).
Proof. apply same_lock_onLock, same_lf_RecordWrite. Qed.

Lemma calm_newLastWrite : calm newLastWrite.
Proof. intros w. by rewrite newLastWrite_run. Qed.
#[local] Hint Resolve calm_newLastWrite : calm.

Lemma calm_AssertLockedForWriting : calm AssertLockedForWriting.
Proof. unfold AssertLockedForWriting, AssertLocked, getL. calm_steps. Qed.
Lemma calm_RecordWrite : calm RecordWrite.
Proof. unfold RecordWrite, AssertLockedForWriting, AssertLocked, serialize, getL, onWorld. calm_steps. Qed.

Lemma calm_inWorld {A} (m : M World A) : calm m → calm (inWorld m).
Proof. apply calm_zoom. Qed.
Lemma calm_onLock {A} (m : M LF A) : calm m → calm (onLock m).
Proof. apply calm_zoom. Qed.
End Store.

#[export] Hint Resolve same_mem_inWorld same_mem_onLock same_mem_lastWrite
  mem_inv_inWorld mem_inv_onLock mem_inv_lastWrite
  same_lock_inWorld same_lock_lastWrite same_lock_modMem same_lock_AssertLockedForWriting
  same_lock_RecordWrite : moves.
#[export] Hint Resolve calm_inWorld calm_onLock calm_AssertLockedForWriting calm_RecordWrite : calm.
