(* ===== verification/StoreDisk.v ===== *)
(** * How a store reads and writes its files

    Steps that the stores share: reading a JSON file that may be missing,
    recording a write before the file changes, and the frames of these steps
    (what they leave alone). *)

From S2P Require Import Prelude World StoreUtil LockFile StoreLock.

Local Open Scope string_scope.

(** ** Maps, lists and outcomes *)

Lemma foldl_same {A B} (a : A) (l : list B) : foldl (λ y _, y) a l = a.
Proof. by induction l. Qed.

Lemma not_ret_err {A} e : ¬ is_ret (Err (A := A) e).
Proof. by intros [? ?]. Qed.
Lemma not_ret_crash {A} c : ¬ is_ret (Crash (A := A) c).
Proof. by intros [? ?]. Qed.

Lemma newMapFrom_default {V} (m : gomap V) : newMapFrom m = Some (default ∅ m).
Proof.
  unfold newMapFrom, gomap_len. destruct m as [m|]; simpl; [|done].
  case_decide as E; [|done]. apply map_size_empty_iff in E. by subst.
Qed.

Lemma mapM_id_Some {A} (l : list A) : mapM id (Some <$> l) = Some l.
Proof. induction l as [|c l IH]; [done|]. rewrite fmap_cons. cbn [mapM id mbind option_bind]. by rewrite IH. Qed.

Lemma mapM_id_None {A} (l : list (option A)) : None ∈ l → mapM id l = None.
Proof.
  induction l as [|[c|] l IH]; [by intros ?%elem_of_nil| |done].
  intros [?|Hn]%elem_of_cons; [done|]. cbn [mapM id mbind option_bind]. by rewrite IH.
Qed.

Lemma gomap_ensure_default {V} (m : gomap V) : gomap_ensure m = Some (default ∅ m).
Proof. by destruct m. Qed.

Lemma NoDup_fmap_filter {A B} (f : A → B) (P : A → Prop) `{∀ c, Decision (P c)} (l : list A) :
  NoDup (f <$> l) → NoDup (f <$> filter P l).
Proof.
  induction l as [|c l IH]; [done|]. rewrite fmap_cons. intros [Hc Hnd]%NoDup_cons.
  rewrite filter_cons. case_decide; [|by apply IH]. rewrite fmap_cons. constructor; [|by apply IH].
  intros (d & E & [_ Hd]%list_elem_of_filter)%list_elem_of_fmap. apply Hc. rewrite E.
  apply list_elem_of_fmap. by exists d.
Qed.

(** ** Steps on the disk *)

Section Disk.
Context {C Mem : Type}.
Notation St := (World * rstore C Mem)%type.
Implicit Types (s : St).

(** The contents of a file, empty when it is missing. *)
Definition read_or_empty (rpath : string) : M St string :=
  r ← try (inWorld (os_ReadFile rpath));
  match r with
  | inl data => mret data
  | inr err => if os_IsNotExist err then mret "" else fail err
  end.

Lemma wp_gomap_set {V} (m : gmap string V) k v Φ s :
  Φ (Ret (Some (<[k := v]> m))) s → wp (gomap_set (Some m) k v) Φ s.
Proof. done. Qed.

(** Reading changes neither files nor configuration. *)
Definition reads (s s' : St) : Prop :=
  w_files (fst s') = w_files (fst s) ∧ conf (snd s') = conf (snd s) ∧
  (w_faults (fst s) = [] → w_faults (fst s') = []).

Lemma reads_refl s : reads s s.
Proof. done. Qed.
Lemma reads_trans s1 s2 s3 : reads s1 s2 → reads s2 s3 → reads s1 s3.
Proof. unfold reads. intros (-> & -> & ?) (-> & -> & ?). auto. Qed.

Lemma read_or_empty_wp rpath s :
  wp (read_or_empty rpath) (λ o s', reads s s' ∧ mem (snd s') = mem (snd s) ∧
    match o with
    | Ret data => default "" (w_files (fst s) !! rpath) = data ∨ w_faults (fst s) ≠ [] ∧ data = ""
    | Err _ => w_faults (fst s) ≠ []
    | Crash c => c = Killed ∧ w_faults (fst s) ≠ []
    end) s.
Proof.
  destruct s as [w r]. unfold read_or_empty, inWorld. wp_step. wp_step. wp_step. simpl.
  assert (∀ w', w_files w' = w_files w → (w_faults w = [] → w_faults w' = []) → reads (w, r) (w', r)) as Hr by done.
  unfold os_ReadFile, syscall. wp_step. unfold wp at 1, pop_fault.
  destruct (w_faults w) as [|f l] eqn:Ef; simpl.
  - wp_step. wp_step. destruct (w_files w !! rpath) as [d|] eqn:Ed; simpl; repeat (wp_step; simpl);
      (split; [apply Hr; simpl; congruence|]; split; [done|]; by left).
  - destruct f as [|e|n|]; simpl.
    + wp_step. wp_step. simpl. destruct (w_files w !! rpath) as [d|] eqn:Ed; simpl; repeat (wp_step; simpl);
        (split; [apply Hr; simpl; congruence|]; split; [done|]; by left).
    + wp_step. simpl. destruct (os_IsNotExist _); wp_step;
        (split; [apply Hr; simpl; congruence|]; split; [done|]); [by right|done].
    + wp_step. wp_step. simpl. destruct (w_files w !! rpath) as [d|] eqn:Ed; simpl; repeat (wp_step; simpl);
        (split; [apply Hr; simpl; congruence|]; split; [done|]; by left).
    + split; [apply Hr; simpl; congruence|]. done.
Qed.

(** Only the files of [paths] change. *)
Definition touches (paths : list string) (s s' : St) : Prop :=
  ∀ q, q ∉ paths → w_files (fst s') !! q = w_files (fst s) !! q.

#[global] Instance touches_preorder paths : PreOrder (touches paths).
Proof. split; unfold touches; [done|]. intros s1 s2 s3 E1 E2 q Hq. by rewrite E2, E1. Qed.

Lemma touches_inWorld {A} paths (m : M World A) :
  (∀ w q, q ∉ paths → w_files (fst (m w)) !! q = w_files w !! q) → moves (touches paths) (inWorld m).
Proof. intros Hm [w r] q Hq. specialize (Hm w q Hq). unfold inWorld, zoom. simpl. by destruct (m w). Qed.

Lemma syscall_files {A} (m : M World A) w q :
  (∀ w, w_files w !! q = w_files (fst (m w)) !! q) → w_files (fst (syscall m w)) !! q = w_files w !! q.
Proof.
  intros Hm. unfold syscall, mbind, M_bind, pop_fault. destruct (w_faults w) as [|[|e|n|] l]; simpl;
    rewrite <- ?Hm; done.
Qed.

Lemma touches_MkdirAll paths d : moves (touches paths) (inWorld (os_MkdirAll d)).
Proof. apply touches_inWorld. intros w q _. by apply syscall_files. Qed.

Lemma touches_AtomicWriteFile path d : moves (touches [path]) (inWorld (AtomicWriteFile path d)).
Proof.
  apply touches_inWorld. intros w q Hq. apply syscall_files. intros w'. simpl.
  symmetry. apply lookup_insert_ne. intros <-. apply Hq. by apply list_elem_of_singleton.
Qed.

Lemma touches_AtomicWriteFileWithOpts b path d : moves (touches [path]) (inWorld (AtomicWriteFileWithOpts b path d)).
Proof.
  apply touches_inWorld. intros w q Hq. apply syscall_files. intros w'. simpl.
  symmetry. apply lookup_insert_ne. intros <-. apply Hq. by apply list_elem_of_singleton.
Qed.

Lemma AtomicWriteFileWithOpts_ret b path d (s s' : St) t :
  inWorld (AtomicWriteFileWithOpts b path d) s = (s', Ret t) → w_files (fst s') !! path = Some d.
Proof.
  destruct s as [w r]. unfold inWorld, zoom, AtomicWriteFileWithOpts, syscall, mbind, M_bind, pop_fault. simpl.
  destruct (w_faults w) as [|[|e|n|] l]; simpl; intros [= <- _]; apply lookup_insert_eq.
Qed.

Lemma AtomicWriteFile_ret path d (s s' : St) :
  inWorld (AtomicWriteFile path d) s = (s', Ret tt) → w_files (fst s') !! path = Some d.
Proof.
  destruct s as [w r]. unfold inWorld, zoom, AtomicWriteFile, syscall, mbind, M_bind, pop_fault. simpl.
  destruct (w_faults w) as [|[|e|n|] l]; simpl; intros [= <-]; apply lookup_insert_eq.
Qed.

Lemma RecordWrite_files w l q :
  q ≠ file l → w_files (fst (fst (RecordWrite (w, l)))) !! q = w_files w !! q.
Proof.
  intros Hq. unfold RecordWrite, AssertLockedForWriting, AssertLocked, serialize, getL, gets, onWorld, zoom,
    modify, mbind, M_bind, mret, M_ret, stop, fail.
  simpl. destruct (locked l); [|done]. simpl. destruct (lockType l); [done|]. simpl.
  rewrite newLastWrite_run. generalize (token_of w) as tok. intros tok. simpl.
  unfold pop_fault. destruct (w_faults (after_token w)) as [|[|e|n|] fl]; simpl; try done;
    (case_decide; simpl; by rewrite lookup_insert_ne).
Qed.

Lemma save_start_ret s s' :
  (_ ← onLock AssertLockedForWriting; lw ← onLock RecordWrite;
   modify (λ s : St, (fst s, set_lastWrite lw (snd s)))) s = (s', Ret tt) →
  same_mem s s' ∧ touches [file (lockfile (snd s))] s s' ∧ lockfile (snd s') = lockfile (snd s).
Proof.
  intros Hrun. unfold mbind, M_bind in Hrun.
  assert (fst (onLock AssertLockedForWriting s) = s) as E0.
  { destruct s as [w [l c ip lw m]]. unfold onLock, zoom, AssertLockedForWriting, AssertLocked, getL, gets, mbind, M_bind.
    simpl. destruct (locked l) eqn:El; [|done]. simpl. by destruct (lockType l). }
  destruct (onLock AssertLockedForWriting s) as [s0 [[]|e|k]]; [|done|done]. simpl in E0. subst s0.
  pose proof (same_mem_onLock RecordWrite s) as E1.
  pose proof (same_lock_RecordWrite s) as E2.
  assert (touches [file (lockfile (snd s))] s (fst (onLock RecordWrite s))) as E3.
  { intros q Hq. destruct s as [w r]. unfold onLock, zoom. simpl.
    pose proof (RecordWrite_files w (lockfile r) q) as Hf. destruct (RecordWrite (w, lockfile r)) as [[w' l'] o].
    apply Hf. intros ->. apply Hq. by apply list_elem_of_singleton. }
  destruct (onLock RecordWrite s) as [s1 [lw|e|k]]; [|done|done]. injection Hrun as <-.
  destruct E2 as (E2 & _). split; [done|]. split; [done|]. done.
Qed.
End Disk.
