(* ===== verification/ContainerStore.v ===== *)
(** * storage/containers.go: the store of containers

    [containerStore] with all its methods.  The records are in the [registry]
    of [Registry]; the locking methods are those of [StoreLock] over [load].
    Its two JSON files, for stable and for volatile containers, are written
    by [save] through a codec (the Go package [encoding/json], class
    [ContainerJSON]). *)

From S2P Require Import Prelude World StoreUtil Strconv StringId Codec Json IdTools IdSet TruncIndex LockFile StoreLock StoreDisk Registry.

Local Open Scope string_scope.

Module Containers.

(** ** Data *)

Record Container := mkContainer {
  ID : string;
  Names : list string;
  ImageID : string;
  LayerID : string;
  c_Metadata : string;
  c_BigDataNames : list string;
  BigDataSizes : gomap Z;
  BigDataDigests : gomap string;
  Created : Z;
  UIDMap : list IDMap;
  GIDMap : list IDMap;
  Flags : gomap any;
  volatileStore : bool
}.

#[global] Instance Container_eq_dec : EqDecision Container.
Proof. solve_decision. Defined.

Definition set_Names (l : list string) (c : Container) : Container :=
  mkContainer (ID c) l (ImageID c) (LayerID c) (c_Metadata c) (c_BigDataNames c) (BigDataSizes c)
    (BigDataDigests c) (Created c) (UIDMap c) (GIDMap c) (Flags c) (volatileStore c).
Definition set_Metadata (m : string) (c : Container) : Container :=
  mkContainer (ID c) (Names c) (ImageID c) (LayerID c) m (c_BigDataNames c) (BigDataSizes c)
    (BigDataDigests c) (Created c) (UIDMap c) (GIDMap c) (Flags c) (volatileStore c).
Definition set_BigData (names : list string) (sizes : gomap Z) (digests : gomap string)
    (c : Container) : Container :=
  mkContainer (ID c) (Names c) (ImageID c) (LayerID c) (c_Metadata c) names sizes
    digests (Created c) (UIDMap c) (GIDMap c) (Flags c) (volatileStore c).
Definition set_Flags (f : gomap any) (c : Container) : Container :=
  mkContainer (ID c) (Names c) (ImageID c) (LayerID c) (c_Metadata c) (c_BigDataNames c) (BigDataSizes c)
    (BigDataDigests c) (Created c) (UIDMap c) (GIDMap c) f (volatileStore c).
Definition set_volatileStore (b : bool) (c : Container) : Container :=
  mkContainer (ID c) (Names c) (ImageID c) (LayerID c) (c_Metadata c) (c_BigDataNames c) (BigDataSizes c)
    (BigDataDigests c) (Created c) (UIDMap c) (GIDMap c) (Flags c) b.

#[global] Instance Container_named : Named Container := {
  rid := ID; rnames := Names; with_names := set_Names
}.
#[global] Instance Container_named_laws : NamedLaws Container.
Proof. split; by intros; destruct x. Qed.

Record ContainerBigDataOption := mkBigDataOption { Key : string; Data : string }.

Record ContainerOptions := mkContainerOptions {
  o_UIDMap : list IDMap;
  o_GIDMap : list IDMap;
  o_Flags : gomap any;
  o_MountOpts : option (list string);      (* None: nil *)
  o_Volatile : bool;
  o_Metadata : string;
  o_BigData : list ContainerBigDataOption
}.

Definition noOptions : ContainerOptions := mkContainerOptions [] [] None None false "" [].

(** ** Functions of a container *)

Definition mountLabelFlag := "MountLabel".
Definition processLabelFlag := "ProcessLabel".
Definition mountOptsFlag := "MountOpts".
Definition volatileFlag := "Volatile".

Definition copyContainer (c : Container) : Container :=
  mkContainer (ID c) (copySlicePreferringNil (Names c)) (ImageID c) (LayerID c) (c_Metadata c)
    (copySlicePreferringNil (c_BigDataNames c)) (copyMapPreferringNil (BigDataSizes c))
    (copyMapPreferringNil (BigDataDigests c)) (Created c) (copySlicePreferringNil (UIDMap c))
    (copySlicePreferringNil (GIDMap c)) (copyMapPreferringNil (Flags c)) (volatileStore c).

Definition string_flag (c : Container) (flag : string) : string :=
  match gomap_get (Flags c) flag with Some (AString label) => label | _ => "" end.

Definition MountLabel (c : Container) : string := string_flag c mountLabelFlag.

Definition ProcessLabel (c : Container) : string := string_flag c processLabelFlag.

Definition MountOpts (c : Container) : list string :=
  match gomap_get (Flags c) mountOptsFlag with
  | Some (AStrings value) => value
  | Some (AList value) => omap (λ v, match v with inl flag => Some flag | inr _ => None end) value
  | _ => []
  end.

(** ** Locations: bit sets *)

Definition stableContainerLocation : Z := 1.
Definition volatileContainerLocation : Z := 2.

Definition containerLocationFromIndex (index : Z) : Z := Z.shiftl 1 index.

Definition containerLocation (c : Container) : Z :=
  if volatileStore c then volatileContainerLocation else stableContainerLocation.

(** ** encoding/json *)

Class ContainerJSON := {
  Marshal : list Container → option string;               (* None: error *)
  Unmarshal : string → option (list (option Container))   (* None elements: null *)
}.

(** What is left of a record after it was written and read back: fields
    without a JSON name are lost, empty maps are omitted, and values of
    [Flags] are what [json_any] says. *)
Definition json_container (c : Container) : Container :=
  mkContainer (ID c) (Names c) (ImageID c) (LayerID c) (c_Metadata c) (c_BigDataNames c)
    (copyMapPreferringNil (BigDataSizes c)) (copyMapPreferringNil (BigDataDigests c)) (Created c)
    (UIDMap c) (GIDMap c) (copyMapPreferringNil (option_map (fmap json_any) (Flags c))) false.

Definition json_safe (c : Container) : bool :=
  utf8 (ID c) && forallb utf8 (Names c) && utf8 (ImageID c) && utf8 (LayerID c) && utf8 (c_Metadata c) &&
  forallb utf8 (c_BigDataNames c) && gomap_all (λ k _, utf8 k) (BigDataSizes c) &&
  gomap_all (λ k v, utf8 k && utf8 v) (BigDataDigests c) &&
  gomap_all (λ k v, utf8 k && json_safe_any v) (Flags c).

Class ContainerJSONSpec `{ContainerJSON} := {
  json_nonempty l d : Marshal l = Some d → d ≠ "";
  json_roundtrip l d : Forall (λ c, json_safe c = true) l → Marshal l = Some d →
    Unmarshal d = Some (Some ∘ json_container <$> l)
}.

(** ** The store *)

Record containerConf := mkConf { dir : string; jsonPath : list string }.

Section ContainerStore.
Context {T : Type} `{PatriciaTrie T} {IS : Type} `{IntervalSet IS}.
Context `{ContainerJSON} `{Digests} `{MapRange}.
(** Rounds allowed to the search for an unused random identifier. *)
Context (fuel : nat).

Record containerMem := mkMem {
  reg : registry T Container;
  bylayer : gmap string positive
}.

Definition containerStore := rstore containerConf containerMem.
Notation St := (World * rstore containerConf containerMem)%type.

Definition modReg (f : registry T Container → registry T Container) : M St unit :=
  modMem (λ m, mkMem (f (reg m)) (bylayer m)).

(** Reading and changing the record behind a pointer. *)
Definition deref (p : positive) : M St Container :=
  h ← getMem (λ m, heap (reg m));
  match h !! p with
  | Some c => mret c
  | None => stop (Panic "invalid memory address or nil pointer dereference")
  end.
Definition assign (p : positive) (f : Container → Container) : M St unit := modReg (reg_update f p).
Definition new (c : Container) : M St positive :=
  p ← getMem (λ m, fst (reg_alloc c (reg m)));
  _ ← modReg (λ r, snd (reg_alloc c r));
  mret p.

Definition Containers : M St (list Container) :=
  getMem (λ m, copyContainer <$> reg_values (reg m)).

(** One entry of the directory; [err] is the first error so far. *)
Definition gc_entry (err : option error) (entry : string * bool) : M St (option error) :=
  let '(id, isDir) := entry in
  if negb isDir || bool_decide (ValidateID id ≠ None) then mret err
  else
    ids ← getMem (λ m, byid (reg m));
    match ids !! id with
    | Some _ => mret err
    | None =>
        d ← getR (λ r, dir (conf r));
        r ← try (inWorld (os_RemoveAll (filepath_Join [d; id])));
        mret (match r, err with inr e, None => Some e | _, _ => err end)
    end.

Definition GarbageCollect : M St unit :=
  d ← getR (λ r, dir (conf r));
  entries ← inWorld (os_ReadDir d);
  err ← foldM gc_entry None entries;
  match err with Some e => fail e | None => mret tt end.

Definition datadir (c : containerConf) (id : string) : string := filepath_Join [dir c; id].

Definition datapath (c : containerConf) (id key : string) : string :=
  filepath_Join [datadir c id; makeBigDataBaseName key].

(** The files with their location. *)
Definition locations (c : containerConf) : list (Z * string) :=
  zip (containerLocationFromIndex <$> [0; 1]%Z) (jsonPath c).

Definition save (saveLocations : Z) : M St unit :=
  _ ← onLock AssertLockedForWriting;
  lw ← onLock RecordWrite;
  _ ← modify (λ s, (fst s, set_lastWrite lw (snd s)));
  c ← getR conf;
  forM (locations c) (λ '(location, rpath),
    if decide (Z.land location saveLocations = 0)%Z then mret tt
    else
      _ ← inWorld (os_MkdirAll (filepath_Dir rpath));
      containers ← getMem (λ m, reg_values (reg m));
      let subsetContainers := filter (λ c, containerLocation c = location) containers in
      match Marshal subsetContainers with
      | None => fail (ErrOther "json: unsupported value")
      | Some jdata =>
          _ ← inWorld (AtomicWriteFileWithOpts (bool_decide (location = volatileContainerLocation)) rpath jdata);
          mret tt
      end).

Definition saveFor (modifiedContainer : Container) : M St unit :=
  save (containerLocation modifiedContainer).

(** *** load *)

(** One record of a file: the pointers read so far and the map [ids]. *)
Definition load_record (location : Z) (acc : list positive * gmap string positive)
    (oc : option Container) : M St (list positive * gmap string positive) :=
  let '(containers, ids) := acc in
  match oc with
  | None => stop (Panic "invalid memory address or nil pointer dereference")
  | Some container =>
      match ids !! ID container with
      | Some _ => mret acc
      | None =>
          let container := if decide (location = volatileContainerLocation)
                           then set_volatileStore true container else container in
          p ← new container;
          mret (containers ++ [p], <[ID container := p]> ids)%list
      end
  end.

Definition load_location (acc : list positive * gmap string positive) (file : Z * string)
    : M St (list positive * gmap string positive) :=
  let '(location, rpath) := file in
  data ← read_or_empty rpath;
  if decide (data = "") then mret acc
  else match Unmarshal data with
       | None => fail (ErrOther "loading JSON")
       | Some locationContainers => foldM (load_record location) acc locationContainers
       end.

(** The loop over the records: [layers], [names] with the heap, whether a
    name had two holders, and the locations to be saved again. *)
Record indexing := mkIndexing {
  x_layers : gmap string positive;
  x_names : gmap string positive;
  x_heap : gmap positive Container;
  x_conflict : bool;
  x_locations : Z
}.

Definition load_name (p : positive) (location : Z) (x : indexing) (name : string) : indexing :=
  let t := steal (λ _ c, c) p (x_names x, x_heap x) name in
  match x_names x !! name with
  | Some conflict => mkIndexing (x_layers x) (fst t) (snd t) true (Z.lor (x_locations x) location)
  | None => mkIndexing (x_layers x) (fst t) (snd t) (x_conflict x) (x_locations x)
  end.

Definition load_index (x : indexing) (p : positive) : indexing :=
  match x_heap x !! p with
  | None => x
  | Some container =>
      foldl (load_name p (containerLocation container))
        (mkIndexing (<[LayerID container := p]> (x_layers x)) (x_names x) (x_heap x)
           (x_conflict x) (x_locations x))
        (Names container)
  end.

Definition load_body (lockedForWriting : bool) : M St (bool * option error) :=
  c ← getR conf;
  acc ← foldM load_location ([], ∅) (locations c);
  let '(containers, ids) := acc in
  h ← getMem (λ m, heap (reg m));
  n ← getMem (λ m, nextp (reg m));
  let x := foldl load_index (mkIndexing ∅ ∅ h false 0) containers in
  let idlist := omap (λ p, ID <$> h !! p) containers in
  _ ← modMem (λ _, mkMem (mkReg containers (TruncIndex.NewTruncIndex idlist) ids (x_names x) (x_heap x) n)
                     (x_layers x));
  if x_conflict x then
    if negb lockedForWriting then mret (true, Some ErrInconsistent)
    else _ ← save (x_locations x); mret (false, None)
  else mret (false, None).

(** Every other error is returned with the flag [false]. *)
Definition load (lockedForWriting : bool) : M St (bool * option error) :=
  r ← try (load_body lockedForWriting);
  match r with inl res => mret res | inr err => mret (false, Some err) end.

Definition startWritingWithReload := StoreLock.startWritingWithReload load.
Definition startWriting := StoreLock.startWriting load.
Definition stopWriting : M St unit := StoreLock.stopWriting.
Definition startReading := StoreLock.startReading load.
Definition stopReading : M St unit := StoreLock.stopReading.
Definition modified : M St (LastWrite * bool) := StoreLock.modified.
Definition reloadIfChanged := StoreLock.reloadIfChanged load.

(** *** newContainerStore *)

(** The object before it is locked and loaded. *)
Definition emptyStore (lock : LockFile) (c : containerConf) : containerStore :=
  mkStore lock c MFree (mkLastWrite None) (mkMem reg_empty ∅).

(** Lock, read the last write, load.  The error return of [GetLastWrite]
    precedes the deferred [stopWriting]. *)
Definition openStore : M St unit :=
  _ ← startWritingWithReload false;
  lw ← onLock GetLastWrite;
  _ ← modify (λ s, (fst s, set_lastWrite lw (snd s)));
  finally
    (res ← load true;
     match res with (_, Some err) => fail err | (_, None) => mret tt end)
    stopWriting.

(** Running it on a new object; the process-wide table of lock files keeps
    the lock object that the store uses. *)
Definition openNew (lock : LockFile) (c : containerConf) : M LockTable containerStore := λ s,
  let '((w, r), o) := openStore (fst s, emptyStore lock c) in
  ((w, <[file lock := lockfile r]> (snd s)), (λ _, r) <$> o).

Definition newContainerStore (d runDir : string) (transient : bool) : M LockTable containerStore :=
  _ ← zoom fst (λ w s, (w, snd s)) (os_MkdirAll d);
  volatileDir ← (if transient
                 then _ ← zoom fst (λ w s, (w, snd s)) (os_MkdirAll runDir); mret runDir
                 else mret d);
  lock ← GetLockFile (filepath_Join [volatileDir; "containers.lock"]);
  openNew lock (mkConf d [filepath_Join [d; "containers.json"];
                          filepath_Join [volatileDir; "volatile-containers.json"]]).

(** *** Look-up *)

Definition find (m : containerMem) (id : string) : option positive :=
  reg_lookup (λ id, bylayer m !! id) id (reg m).

(** [lookup], for methods that give up when it fails. *)
Definition lookup (id : string) : M St positive :=
  r ← getMem (λ m, find m id);
  match r with Some p => mret p | None => fail ErrContainerUnknown end.

Definition ClearFlag (id flag : string) : M St unit :=
  p ← lookup id;
  _ ← assign p (λ c, set_Flags (gomap_delete (Flags c) flag) c);
  c ← deref p; saveFor c.

Definition SetFlag (id flag : string) (value : any) : M St unit :=
  p ← lookup id;
  c ← deref p;
  flags ← gomap_set (gomap_ensure (Flags c)) flag value;
  _ ← assign p (set_Flags flags);
  c ← deref p; saveFor c.

Definition Metadata (id : string) : M St string :=
  p ← lookup id; c ← deref p; mret (c_Metadata c).

Definition SetMetadata (id metadata : string) : M St unit :=
  p ← lookup id;
  _ ← assign p (set_Metadata metadata);
  c ← deref p; saveFor c.

Definition updateNames (id : string) (names : list string) (op : updateNameOperation) : M St unit :=
  p ← lookup id;
  container ← deref p;
  let oldNames := Names container in
  match applyNameOperation oldNames names op with
  | inr err => fail err
  | inl names =>
      _ ← modReg (reg_rename (λ _ c, c) p oldNames names);
      c ← deref p; saveFor c
  end.

Definition Delete (id : string) : M St unit :=
  p ← lookup id;
  container ← deref p;
  let id := ID container in
  _ ← modMem (λ m, mkMem (reg_del id (Names container) (reg m))
                     (delete (LayerID container) (bylayer m)));
  _ ← saveFor container;
  c ← getR conf;
  inWorld (os_RemoveAll (datadir c id)).

Definition Get (id : string) : M St Container :=
  p ← lookup id; c ← deref p; mret (copyContainer c).

Definition Lookup (name : string) : M St string :=
  p ← lookup name; c ← deref p; mret (ID c).

Definition Exists_ (id : string) : M St bool :=
  r ← getMem (λ m, find m id); mret (bool_decide (is_Some r)).

(** *** Big data *)

Definition BigData (id key : string) : M St string :=
  if decide (key = "") then fail ErrInvalidBigDataName
  else
    p ← lookup id;
    c ← deref p;
    cf ← getR conf;
    inWorld (os_ReadFile (datapath cf (ID c) key)).

Definition BigDataNames (id : string) : M St (list string) :=
  p ← lookup id; c ← deref p; mret (copySlicePreferringNil (c_BigDataNames c)).

Definition SetBigData (id key data : string) : M St unit :=
  if decide (key = "") then fail ErrInvalidBigDataName
  else
    p ← lookup id;
    c ← deref p;
    cf ← getR conf;
    _ ← inWorld (os_MkdirAll (datadir cf (ID c)));
    _ ← inWorld (AtomicWriteFile (datapath cf (ID c) key) data);
    let sizes := gomap_ensure (BigDataSizes c) in
    let oldSize := gomap_get sizes key in
    let newSize := Z.of_nat (String.length data) in
    sizes ← gomap_set sizes key newSize;
    let digests := gomap_ensure (BigDataDigests c) in
    let oldDigest := gomap_get digests key in
    let newDigest := FromBytes data in
    digests ← gomap_set digests key newDigest;
    let changed := bool_decide (oldSize ≠ Some newSize) || bool_decide (oldDigest ≠ Some newDigest) in
    let known := bool_decide (key ∈ c_BigDataNames c) in
    let names := if known then c_BigDataNames c else (c_BigDataNames c ++ [key])%list in
    _ ← assign p (set_BigData names sizes digests);
    if changed || negb known then c ← deref p; saveFor c else mret tt.

(** The common part of [BigDataSize] and [BigDataDigest]: [get] reads the
    map, and a missing entry is computed by storing the item again. *)
Definition bigDataValue {V} (get : Container → gomap V) (unknown : error) (id key : string) : M St V :=
  if decide (key = "") then fail ErrInvalidBigDataName
  else
    p ← lookup id;
    c ← deref p;
    match gomap_get (get c) key with
    | Some v => mret v
    | None =>
        r ← try (BigData id key);
        match r with
        | inr _ => fail unknown
        | inl data =>
            _ ← SetBigData id key data;
            p ← lookup id;
            c ← deref p;
            match gomap_get (get c) key with Some v => mret v | None => fail unknown end
        end
    end.

Definition BigDataSize (id key : string) : M St Z := bigDataValue BigDataSizes ErrSizeUnknown id key.

Definition BigDataDigest (id key : string) : M St string :=
  bigDataValue BigDataDigests ErrDigestUnknown id key.

(** *** create *)

(** The loop that draws random identifiers until one is not in use. *)
Fixpoint unusedID (rounds : nat) : M St string :=
  match rounds with
  | 0 => stop NoFuel
  | S rounds =>
      id ← inWorld (GenerateRandomID fuel);
      ids ← getMem (λ m, byid (reg m));
      match ids !! id with Some _ => unusedID rounds | None => mret id end
  end.

Definition newContainer (id : string) (names : list string) (image layer : string)
    (options : ContainerOptions) (now : Z) : M St Container :=
  flags ← (match o_MountOpts options with
           | Some opts => gomap_set (newMapFrom (o_Flags options)) mountOptsFlag (AStrings opts)
           | None => mret (newMapFrom (o_Flags options))
           end);
  flags ← (if o_Volatile options then gomap_set flags volatileFlag (ABool true) else mret flags);
  mret (mkContainer id names image layer (o_Metadata options) [] (Some ∅) (Some ∅) now
          (copySlicePreferringNil (o_UIDMap options)) (copySlicePreferringNil (o_GIDMap options))
          flags (o_Volatile options)).

Definition create (id : string) (names : list string) (image layer : string)
    (options : option ContainerOptions) : M St Container :=
  let options := default noOptions options in
  id ← (if decide (id = "") then unusedID fuel else mret id);
  ids ← getMem (λ m, byid (reg m));
  if decide (is_Some (ids !! id)) then fail ErrDuplicateID
  else
    let names := dedupeStrings names in
    byn ← getMem (λ m, byname (reg m));
    if decide (Exists (λ n, is_Some (byn !! n)) names) then fail ErrDuplicateName
    else
      match hasOverlappingRanges (IS := IS) (o_UIDMap options),
            hasOverlappingRanges (IS := IS) (o_GIDMap options) with
      | Some err, _ => fail err
      | None, Some err => fail err
      | None, None =>
          now ← inWorld time_Now;
          container ← newContainer id names image layer options now;
          p ← new container;
          _ ← modMem (λ m, mkMem (reg_add p id names (reg m)) (<[layer := p]> (bylayer m)));
          on_error
            (_ ← saveFor container;
             _ ← forM (o_BigData options) (λ item, SetBigData id (Key item) (Data item));
             c ← deref p;
             mret (copyContainer c))
            (Delete id)
      end.

Definition Wipe : M St unit :=
  ids ← getMem (λ m, fst <$> range_map (byid (reg m)));
  forM ids Delete.

(** Every method that a holder of the write lock can call. *)
Inductive op :=
  | OpCreate (id : string) (names : list string) (image layer : string) (options : option ContainerOptions)
  | OpUpdateNames (id : string) (names : list string) (o : updateNameOperation)
  | OpDelete (id : string)
  | OpWipe
  | OpSetMetadata (id metadata : string)
  | OpSetFlag (id flag : string) (value : any)
  | OpClearFlag (id flag : string)
  | OpSetBigData (id key data : string)
  | OpBigDataSize (id key : string)
  | OpBigDataDigest (id key : string)
  | OpGarbageCollect
  | OpSave (locations : Z).

Definition run_op (o : op) : M St unit :=
  match o with
  | OpCreate id names image layer options => _ ← create id names image layer options; mret tt
  | OpUpdateNames id names o => updateNames id names o
  | OpDelete id => Delete id
  | OpWipe => Wipe
  | OpSetMetadata id metadata => SetMetadata id metadata
  | OpSetFlag id flag value => SetFlag id flag value
  | OpClearFlag id flag => ClearFlag id flag
  | OpSetBigData id key data => SetBigData id key data
  | OpBigDataSize id key => _ ← BigDataSize id key; mret tt
  | OpBigDataDigest id key => _ ← BigDataDigest id key; mret tt
  | OpGarbageCollect => GarbageCollect
  | OpSave l => save l
  end.
End ContainerStore.
Arguments containerMem : clear implicits.
Arguments containerStore : clear implicits.

End Containers.
