(* ===== verification/ContainerFacts.v ===== *)
(** * Correctness of the store of containers

    A codec that satisfies [ContainerJSONSpec], the invariant [mem_wf] of the
    memory of a [containerStore], specifications of its methods, and the
    theorems about them. *)

From S2P Require Import Prelude World StoreUtil Strconv StringId Codec Json IdTools IdSet TruncIndex LockFile StoreLock StoreDisk Registry ContainerStore.
Import Containers.

Local Open Scope string_scope.

Module ContainerFacts.

(** ** A codec for containers *)

#[local] Instance idmap_codec : Codec IDMap :=
  codec_via (λ m, (ContainerID m, (HostID m, Size m))) (λ '(c, (h, s)), mkIDMap c h s).
#[local] Instance idmap_codec_law : CodecLaw IDMap.
Proof. apply codec_via_law. by intros []. Qed.

#[local] Instance container_codec : Codec Container :=
  codec_via
    (λ c, ((ID c, Names c, ImageID c, LayerID c, c_Metadata c, c_BigDataNames c),
           (BigDataSizes c : option (gmap string Z)),
           (BigDataDigests c : option (gmap string string)),
           (Created c, UIDMap c, GIDMap c), (Flags c : option (gmap string any)), volatileStore c))
    (λ '((i, n, im, la, me, bn), bs, bd, (cr, u, g), f, v), mkContainer i n im la me bn bs bd cr u g f v).
#[local] Instance container_codec_law : CodecLaw Container.
Proof. apply codec_via_law. by intros []. Qed.

#[global] Instance container_json : ContainerJSON := {
  Marshal l := Some (marshal (json_container <$> l));
  Unmarshal s := option_map (fmap Some) (unmarshal (A := Container) s)
}.
#[global] Instance container_json_spec : ContainerJSONSpec.
Proof.
  split; simpl.
  - intros l d [= <-]. apply marshal_nonempty.
  - intros l d _ [= <-]. rewrite unmarshal_marshal. simpl. by rewrite <- list_fmap_compose.
Qed.

(** ** The invariant *)

Section Invariant.
Context {T : Type} `{PatriciaTrieSpec T} {IS : Type} `{IntervalSet IS}.
Context `{ContainerJSON} `{Digests} `{MapRange}.
Context (fuel : nat).
Notation St := (World * rstore containerConf (containerMem T))%type.
Implicit Types (s : St) (m : containerMem T).

(** The registry is consistent, [bylayer] only leads to containers with that
    layer, and no container has a name twice. *)
Record mem_wf m : Prop := {
  mem_reg : reg_wf (reg m);
  mem_layer l p : bylayer m !! l = Some p → p ∈ objs (reg m) ∧ LayerID <$> heap (reg m) !! p = Some l;
  mem_nodup p c : p ∈ objs (reg m) → heap (reg m) !! p = Some c → NoDup (Names c)
}.

Definition abs m : gmap string Container := reg_abs (reg m).

Lemma mem_wf_empty : mem_wf (mkMem reg_empty ∅).
Proof.
  split; [apply reg_wf_empty| |by intros p c ?%elem_of_nil].
  intros l p Hl. simpl in Hl. by rewrite lookup_empty in Hl.
Qed.

Lemma find_some m id p :
  mem_wf m → find m id = Some p → p ∈ objs (reg m) ∧ ∃ c, heap (reg m) !! p = Some c.
Proof.
  intros Hwf. apply reg_lookup_objs; [apply Hwf|]. intros i q Hq. by apply (mem_layer _ Hwf) in Hq as [? _].
Qed.

(** An identifier in use is found before everything else. *)
Lemma find_id m id p : byid (reg m) !! id = Some p → find m id = Some p.
Proof. unfold find, reg_lookup. by intros ->. Qed.

Lemma mem_alloc_wf c m : mem_wf m → mem_wf (mkMem (snd (reg_alloc c (reg m))) (bylayer m)).
Proof.
  intros Hwf. destruct (reg_alloc_fresh (reg m) (mem_reg _ Hwf)) as [Hf _].
  assert (∀ p, p ∈ objs (reg m) → <[nextp (reg m) := c]> (heap (reg m)) !! p = heap (reg m) !! p) as Hh.
  { intros p Hp. apply lookup_insert_ne. by intros <-. }
  split; [apply reg_alloc_wf, Hwf|..]; simpl.
  - intros l p Hl. destruct (mem_layer _ Hwf l p Hl) as [Hp E]. split; [done|]. by rewrite Hh.
  - intros p d Hp. rewrite Hh by done. by apply (mem_nodup _ Hwf).
Qed.

Lemma mem_update_wf f p m :
  (∀ c, ID (f c) = ID c) → (∀ c, Names (f c) = Names c) → (∀ c, LayerID (f c) = LayerID c) →
  mem_wf m → mem_wf (mkMem (reg_update f p (reg m)) (bylayer m)).
Proof.
  intros Hi Hn Hl Hwf. split; [apply reg_update_wf; [done..|apply Hwf]|..]; simpl.
  - intros l q Hq. destruct (mem_layer _ Hwf l q Hq) as [Ho E]. split; [done|].
    destruct (decide (q = p)) as [->|Hne]; [|by rewrite lookup_alter_ne].
    rewrite lookup_alter_eq, <- E. destruct (heap (reg m) !! p); simpl; by rewrite ?Hl.
  - intros q d Hq. destruct (decide (q = p)) as [->|Hne]; [|rewrite lookup_alter_ne by done; by apply (mem_nodup _ Hwf)].
    rewrite lookup_alter_eq. destruct (heap (reg m) !! p) as [c|] eqn:Ec; [|done].
    intros [= <-]. rewrite Hn. by apply (mem_nodup _ Hwf p).
Qed.

Lemma mem_add_wf p c m :
  mem_wf m → p ∉ objs (reg m) → heap (reg m) !! p = Some c → byid (reg m) !! ID c = None →
  (∀ n, n ∈ Names c → byname (reg m) !! n = None) → NoDup (Names c) →
  mem_wf (mkMem (reg_add p (ID c) (Names c) (reg m)) (<[LayerID c := p]> (bylayer m))).
Proof.
  intros Hwf Hp Hc Hid Hnm Hnd. split; [exact (reg_add_wf p c (reg m) (mem_reg _ Hwf) Hp Hc Hid Hnm)|..].
  - intros l q. simpl. rewrite elem_of_app, list_elem_of_singleton. destruct (decide (l = LayerID c)) as [->|Hne].
    + rewrite lookup_insert_eq. intros [= <-]. by rewrite Hc; auto.
    + rewrite lookup_insert_ne by done. intros [? ?]%(mem_layer _ Hwf). auto.
  - intros q d [Hq| ->%list_elem_of_singleton]%elem_of_app; [by apply (mem_nodup _ Hwf)|].
    simpl. rewrite Hc. by intros [= <-].
Qed.

Lemma mem_del_wf p c m :
  mem_wf m → p ∈ objs (reg m) → heap (reg m) !! p = Some c →
  mem_wf (mkMem (reg_del (ID c) (Names c) (reg m)) (delete (LayerID c) (bylayer m))).
Proof.
  intros Hwf Hp Hc. split; [exact (reg_del_wf p c (reg m) (mem_reg _ Hwf) Hp Hc)|..]; cycle 1.
  { intros q d [Hq _]%(reg_del_objs p c (reg m) q (mem_reg _ Hwf) Hp Hc). by apply (mem_nodup _ Hwf). }
  intros l q Hq. simpl in Hq. apply lookup_delete_Some in Hq as [Hne Hq].
  destruct (mem_layer _ Hwf l q Hq) as [Ho E]. split; [|done].
  apply (reg_del_objs p c (reg m) q (mem_reg _ Hwf) Hp Hc). split; [done|]. intros ->. rewrite Hc in E. naive_solver.
Qed.

Lemma mem_rename_wf p c names m :
  mem_wf m → p ∈ objs (reg m) → heap (reg m) !! p = Some c → NoDup names →
  mem_wf (mkMem (reg_rename (λ _ c, c) p (Names c) names (reg m)) (bylayer m)).
Proof.
  intros Hwf Hp Hc Hnd.
  destruct (reg_rename_heap (λ _ c, c) p c names (reg m) (mem_reg _ Hwf) Hp Hc) as (Eo & _ & _ & _ & _ & Es & Eq);
    [done|]. change (rnames c) with (Names c) in *. rewrite foldl_same in Es.
  split; [by apply (reg_rename_wf (λ _ c, c) p c names (reg m) (mem_reg _ Hwf) Hp Hc)|..];
    cbn [reg bylayer].
  - intros l q Hq. destruct (mem_layer _ Hwf l q Hq) as [Ho E]. rewrite Eo. split; [done|].
    destruct (decide (q = p)) as [->|Hne].
    + rewrite Es. rewrite Hc in E. by rewrite <- E.
    + rewrite Eq by done. rewrite <- E. by destruct (heap (reg m) !! q).
  - intros q d. rewrite Eo. intros Hq. destruct (decide (q = p)) as [->|Hne].
    + rewrite Es. by intros [= <-].
    + rewrite Eq by done. destruct (heap (reg m) !! q) as [y|] eqn:Ey; [|done]. intros [= <-].
      apply NoDup_filter. by apply (mem_nodup _ Hwf q).
Qed.

(** *** Steps of the methods *)

Lemma same_mem_save l : moves same_mem (save (T := T) l).
Proof.
  unfold save, getR, getMem. moves_steps.
Qed.

Lemma same_mem_saveFor c : moves same_mem (saveFor (T := T) c).
Proof. apply same_mem_save. Qed.

Lemma wp_lookup id Φ s :
  (∀ p, find (mem (snd s)) id = Some p → Φ (Ret p) s) →
  (find (mem (snd s)) id = None → Φ (Err ErrContainerUnknown) s) →
  wp (lookup id) Φ s.
Proof.
  intros Hs Hn. unfold lookup, getMem. wp_step. wp_step. destruct (find _ _) eqn:E; wp_step; auto.
Qed.

Lemma wp_deref p c Φ s :
  heap (reg (mem (snd s))) !! p = Some c → Φ (Ret c) s → wp (deref p) Φ s.
Proof. intros Hc HΦ. unfold deref, getMem. wp_step. wp_step. rewrite Hc. by wp_step. Qed.

Lemma wp_new c Φ s :
  Φ (Ret (nextp (reg (mem (snd s)))))
    (fst s, set_mem (mkMem (snd (reg_alloc c (reg (mem (snd s))))) (bylayer (mem (snd s)))) (snd s)) →
  wp (new c) Φ s.
Proof. intros HΦ. unfold new, getMem, modReg, modMem. by wp_steps. Qed.

(** After the record at [p] was changed: look at it again and save. *)
Lemma wp_deref_save p Φ s c :
  heap (reg (mem (snd s))) !! p = Some c →
  (∀ o s', same_mem s s' → Φ o s') →
  wp (c ← deref p; saveFor c) Φ s.
Proof. intros Hc HΦ. wp_step. eapply wp_deref; [done|]. eapply wp_moves; [apply same_mem_saveFor|done]. Qed.

(** Replacing the record at [p] by [f] of it, then saving. *)
Definition updates (p : positive) (c : Container) (f : Container → Container) (s : St) (s' : St) : Prop :=
  mem (snd s') = mkMem (reg_update f p (reg (mem (snd s)))) (bylayer (mem (snd s))) ∧
  conf (snd s') = conf (snd s).

Lemma wp_assign_save p c f Φ s :
  heap (reg (mem (snd s))) !! p = Some c →
  (∀ o s', updates p c f s s' → Φ o s') →
  wp (_ ← assign p f; c ← deref p; saveFor c) Φ s.
Proof.
  intros Hc HΦ. unfold assign, modReg, modMem. wp_step. wp_step.
  eapply wp_deref_save; [simpl; rewrite lookup_alter_eq, Hc; done|].
  intros o s' (Hm & Hcf & _). apply HΦ. split; [by rewrite Hm|by rewrite Hcf].
Qed.

(** *** Specifications *)

(** A method that finds a container by [id] and replaces its record by [f]
    of it, or fails without changing the memory. *)
Definition modifies (id : string) (f : Container → Container) (s : St) (s' : St) : Prop :=
  mem_wf (mem (snd s')) ∧ byid (reg (mem (snd s'))) = byid (reg (mem (snd s))) ∧
  match find (mem (snd s)) id with
  | Some p => ∃ c, heap (reg (mem (snd s))) !! p = Some c ∧
                   abs (mem (snd s')) = <[ID c := f c]> (abs (mem (snd s)))
  | None => mem (snd s') = mem (snd s)
  end.

Lemma updates_modifies id p c f s s' :
  (∀ c, ID (f c) = ID c) → (∀ c, Names (f c) = Names c) → (∀ c, LayerID (f c) = LayerID c) →
  mem_wf (mem (snd s)) → find (mem (snd s)) id = Some p → heap (reg (mem (snd s))) !! p = Some c →
  updates p c f s s' → modifies id f s s'.
Proof.
  intros Hi Hn Hl Hwf Hp Hc [Hm _]. unfold modifies. rewrite Hp, Hm. split; [by apply mem_update_wf|].
  split; [done|]. exists c. split; [done|]. unfold abs. simpl.
  destruct (find_some _ _ _ Hwf Hp) as [Ho _].
  exact (reg_update_abs f p c (reg (mem (snd s))) Hi (mem_reg _ Hwf) Ho Hc).
Qed.

Lemma SetMetadata_wp id metadata s :
  mem_wf (mem (snd s)) → wp (SetMetadata id metadata) (λ _, modifies id (set_Metadata metadata) s) s.
Proof.
  intros Hwf. unfold SetMetadata. wp_step. apply wp_lookup.
  - intros p Hp. destruct (find_some _ _ _ Hwf Hp) as [_ [c Hc]].
    eapply wp_assign_save; [done|]. intros o s'. by apply updates_modifies.
  - intros Hn. unfold modifies. by rewrite Hn.
Qed.

Lemma ClearFlag_wp id flag s :
  mem_wf (mem (snd s)) →
  wp (ClearFlag id flag) (λ _, modifies id (λ c, set_Flags (gomap_delete (Flags c) flag) c) s) s.
Proof.
  intros Hwf. unfold ClearFlag. wp_step. apply wp_lookup.
  - intros p Hp. destruct (find_some _ _ _ Hwf Hp) as [_ [c Hc]].
    eapply wp_assign_save; [done|]. intros o s'. by apply updates_modifies.
  - intros Hn. unfold modifies. by rewrite Hn.
Qed.

(** Only what the functions do to the record at [p] matters. *)
Lemma updates_ext p c f g s s' :
  heap (reg (mem (snd s))) !! p = Some c → f c = g c → updates p c f s s' → updates p c g s s'.
Proof.
  intros Hc Hfg [Hm Hcf]. split; [|done]. rewrite Hm. f_equal. unfold reg_update. f_equal.
  apply map_eq. intros q. destruct (decide (q = p)) as [->|].
  - rewrite !lookup_alter_eq, Hc. simpl. by rewrite Hfg.
  - by rewrite !lookup_alter_ne.
Qed.

Definition add_flag (flag : string) (value : any) (c : Container) : Container :=
  set_Flags (Some (<[flag := value]> (default ∅ (Flags c)))) c.

Lemma SetFlag_wp id flag value s :
  mem_wf (mem (snd s)) → wp (SetFlag id flag value) (λ _, modifies id (add_flag flag value) s) s.
Proof.
  intros Hwf. unfold SetFlag. wp_step. apply wp_lookup.
  - intros p Hp. destruct (find_some _ _ _ Hwf Hp) as [_ [c Hc]].
    wp_step. eapply wp_deref; [done|]. wp_step.
    assert (gomap_set (S := St) (gomap_ensure (Flags c)) flag value s = (s, Ret (Flags (add_flag flag value c))))
      as E by (by destruct (Flags c) as [fl|] eqn:Ef; unfold add_flag; simpl; rewrite ?Ef).
    unfold wp at 1. rewrite E. cbn [fst snd].
    eapply wp_assign_save; [done|]. intros o s' Hu.
    apply (updates_modifies id p c); try done. eapply updates_ext; [exact Hc| |exact Hu]. done.
  - intros Hn. unfold modifies. by rewrite Hn.
Qed.

(** The record after a big-data item was stored. *)
Definition add_big_data (key data : string) (c : Container) : Container :=
  set_BigData (if bool_decide (key ∈ c_BigDataNames c) then c_BigDataNames c else (c_BigDataNames c ++ [key])%list)
    (Some (<[key := Z.of_nat (String.length data)]> (default ∅ (BigDataSizes c))))
    (Some (<[key := FromBytes data]> (default ∅ (BigDataDigests c)))) c.

(** Nothing happened to the memory, or the item was recorded. *)
Definition stores (id key data : string) (s s' : St) : Prop :=
  (mem_wf (mem (snd s')) ∧ mem (snd s') = mem (snd s)) ∨ modifies id (add_big_data key data) s s'.

Definition big_data_post (id key data : string) (s : St) (o : outcome unit) (s' : St) : Prop :=
  stores id key data s s' ∧ conf (snd s') = conf (snd s) ∧
  (is_ret o → modifies id (add_big_data key data) s s' ∧
     ∃ p c, find (mem (snd s)) id = Some p ∧ heap (reg (mem (snd s))) !! p = Some c ∧
            updates p c (add_big_data key data) s s').

Lemma big_data_post_same id key data s s' o :
  mem_wf (mem (snd s)) → same_mem s s' → ¬ is_ret o → big_data_post id key data s o s'.
Proof. intros Hwf (Em & Ec & _) Ho. split; [left; by rewrite Em|]. by split. Qed.

Lemma SetBigData_wp id key data s :
  mem_wf (mem (snd s)) → wp (SetBigData id key data) (big_data_post id key data s) s.
Proof.
  intros Hwf. unfold SetBigData.
  pose proof (λ s' o, big_data_post_same id key data s s' o Hwf) as Hfail.
  pose proof (@not_ret_err unit) as Hne. pose proof (@not_ret_crash unit) as Hnc.
  destruct (decide (key = "")) as [_|Hk]; [wp_step; by apply Hfail|].
  wp_step. apply wp_lookup; [|intros _; by apply Hfail].
  intros p Hp. destruct (find_some _ _ _ Hwf Hp) as [_ [c Hc]].
  wp_step. eapply wp_deref; [done|]. unfold getR. wp_step. wp_step.
  wp_step. eapply wp_moves; [apply same_mem_inWorld|]. intros o1 s1 E1.
  destruct o1 as [[]|e|cr]; [|by apply Hfail..].
  wp_step. eapply wp_moves; [apply same_mem_inWorld|]. intros o2 s2 E2.
  assert (same_mem s s2) as E by (by etrans).
  destruct o2 as [[]|e|cr]; [|by apply Hfail..].
  rewrite !gomap_ensure_default. wp_step. apply wp_gomap_set. wp_step. apply wp_gomap_set.
  clear Hfail E1 E2. destruct E as (Em & Ec & _).
  assert (∀ (o : outcome unit) s', updates p c (add_big_data key data) s s' → big_data_post id key data s o s') as Hmod.
  { intros o s' Hu. assert (modifies id (add_big_data key data) s s') as Hm by (by apply (updates_modifies id p c)).
    split; [by right|]. split; [apply Hu|]. intros _. split; [done|]. by exists p, c. }
  assert (∀ o s', updates p c (set_BigData (if bool_decide (key ∈ c_BigDataNames c) then c_BigDataNames c else (c_BigDataNames c ++ [key])%list)
    (Some (<[key := Z.of_nat (String.length data)]> (default ∅ (BigDataSizes c))))
    (Some (<[key := FromBytes data]> (default ∅ (BigDataDigests c))))) s2 s' → big_data_post id key data s o s') as Hup.
  { intros o s' [Hm Hcf]. apply Hmod. rewrite Em in Hm. rewrite Ec in Hcf.
    eapply updates_ext; [exact Hc| |split; [exact Hm|exact Hcf]]. done. }
  rewrite <- Em in Hc. destruct (_ || _).
  - eapply wp_assign_save; [done|]. intros o s'. apply Hup.
  - unfold assign, modReg, modMem. wp_step. wp_step. apply wp_ret. apply Hup. done.
Qed.

Lemma Delete_wp id s :
  mem_wf (mem (snd s)) →
  wp (Delete id) (λ o s',
    mem_wf (mem (snd s')) ∧
    match find (mem (snd s)) id with
    | Some p => ∃ c, heap (reg (mem (snd s))) !! p = Some c ∧
                     abs (mem (snd s')) = delete (ID c) (abs (mem (snd s)))
    | None => o = Err ErrContainerUnknown ∧ s' = s
    end) s.
Proof.
  intros Hwf. unfold Delete. wp_step. apply wp_lookup; [|intros Hn; by rewrite Hn].
  intros p Hp. rewrite Hp. destruct (find_some _ _ _ Hwf Hp) as [Ho [c Hc]].
  wp_step. eapply wp_deref; [done|]. unfold modMem, getR. wp_step. wp_step.
  set (s1 := (fst s, _)).
  assert (∀ (o : outcome unit) s', same_mem s1 s' → mem_wf (mem (snd s')) ∧
    ∃ c, heap (reg (mem (snd s))) !! p = Some c ∧
         abs (mem (snd s')) = delete (ID c) (abs (mem (snd s)))) as Hend.
  { intros o s' (Em & _). rewrite Em. split; [by apply (mem_del_wf p c)|].
    exists c. split; [done|]. apply (reg_del_abs (ID c)). }
  wp_step. eapply wp_moves; [apply same_mem_saveFor|]. intros [[]|e|cr] s2 E2; [|by apply (Hend (Err e))|by apply (Hend (Err ErrNotExist))].
  wp_step. wp_step. eapply wp_moves; [apply same_mem_inWorld|]. intros o s3 E3.
  apply (Hend o). by etrans.
Qed.

Lemma Delete_bylayer_wp id p c s :
  find (mem (snd s)) id = Some p → heap (reg (mem (snd s))) !! p = Some c →
  wp (Delete id) (λ _ s', bylayer (mem (snd s')) = delete (LayerID c) (bylayer (mem (snd s)))) s.
Proof.
  intros Hp Hc. unfold Delete. wp_step. apply wp_lookup; [|intros Hn; congruence].
  intros q Hq. rewrite Hp in Hq. injection Hq as <-. wp_step. eapply wp_deref; [done|]. unfold modMem, getR. wp_step. wp_step.
  set (s1 := (fst s, _)).
  assert (∀ s', same_mem s1 s' → bylayer (mem (snd s')) = delete (LayerID c) (bylayer (mem (snd s)))) as Hend.
  { intros s' (Em & _). by rewrite Em. }
  wp_step. eapply wp_moves; [apply same_mem_saveFor|]. intros [[]|e|cr] s2 E2; [|by apply Hend..].
  wp_step. wp_step. eapply wp_moves; [apply same_mem_inWorld|]. intros o s3 E3. apply Hend. by etrans.
Qed.

Lemma updateNames_wp id names op s :
  mem_wf (mem (snd s)) →
  wp (updateNames id names op) (λ o s',
    mem_wf (mem (snd s')) ∧
    match find (mem (snd s)) id with
    | None => o = Err ErrContainerUnknown ∧ s' = s
    | Some p => ∃ c, heap (reg (mem (snd s))) !! p = Some c ∧
        match applyNameOperation (Names c) names op with
        | inr e => o = Err e ∧ s' = s
        | inl names' =>
            abs (mem (snd s')) = <[ID c := set_Names names' c]> (strip names' <$> abs (mem (snd s)))
        end
    end) s.
Proof.
  intros Hwf. unfold updateNames. wp_step. apply wp_lookup; [|intros Hn; by rewrite Hn].
  intros p Hp. rewrite Hp. destruct (find_some _ _ _ Hwf Hp) as [Ho [c Hc]].
  wp_step. eapply wp_deref; [done|]. cbv zeta.
  destruct (applyNameOperation (Names c) names op) as [names'|e] eqn:Eop.
  2: { wp_step. split; [done|]. exists c. by rewrite Eop. }
  unfold modReg, modMem. wp_step. wp_step.
  destruct (reg_rename_heap (λ _ c, c) p c names' _ (mem_reg _ Hwf) Ho Hc) as (_ & _ & _ & _ & _ & Es & _); [done|].
  eapply wp_deref_save; [exact Es|]. intros o s' (Em & _). rewrite Em. simpl.
  split; [apply mem_rename_wf; try done; by eapply applyNameOperation_NoDup|]. exists c. rewrite Eop. split; [done|].
  unfold abs. simpl.
  etrans; [by apply (reg_rename_abs (λ _ c, c) p c names' _ (mem_reg _ Hwf) Ho Hc)|].
  by rewrite foldl_same.
Qed.

(** The state of the other containers while the one with [id] is worked on. *)
Definition only_at (id : string) (s s' : St) : Prop :=
  mem_wf (mem (snd s)) → is_Some (abs (mem (snd s)) !! id) →
  mem_wf (mem (snd s')) ∧ is_Some (abs (mem (snd s')) !! id) ∧
  delete id (abs (mem (snd s'))) = delete id (abs (mem (snd s))).

#[local] Instance only_at_preorder id : PreOrder (only_at id).
Proof.
  split; unfold only_at; [by intros s|]. intros s1 s2 s3 H12 H23 Hwf Hs.
  destruct (H12 Hwf Hs) as (Hwf2 & Hs2 & E2). destruct (H23 Hwf2 Hs2) as (? & ? & E3).
  split_and!; [done..|]. by rewrite E3, E2.
Qed.

Lemma same_mem_only_at {A} id (m : M St A) : moves same_mem m → moves (only_at id) m.
Proof. intros Hm s Hwf Hs. destruct (Hm s) as [-> _]. done. Qed.

(** An identifier in use leads to the container that has it. *)
Lemma abs_find m id c :
  mem_wf m → abs m !! id = Some c →
  ∃ p, find m id = Some p ∧ p ∈ objs (reg m) ∧ heap (reg m) !! p = Some c ∧ ID c = id.
Proof.
  intros Hwf (p & Hp & Hc & Hi)%(reg_abs_lookup _ _ _ (mem_reg _ Hwf)).
  exists p. split_and!; try done. apply find_id, (wf_byid _ (mem_reg _ Hwf)).
  split; [done|]. rewrite Hc. simpl. by f_equal.
Qed.

Lemma modifies_only_at id f s s' :
  (∀ c, ID (f c) = ID c) → mem_wf (mem (snd s)) → is_Some (abs (mem (snd s)) !! id) →
  modifies id f s s' →
  mem_wf (mem (snd s')) ∧ is_Some (abs (mem (snd s')) !! id) ∧
  delete id (abs (mem (snd s'))) = delete id (abs (mem (snd s))).
Proof.
  intros Hf Hwf [c Hs] (Hwf' & _ & Hm). destruct (abs_find _ _ _ Hwf Hs) as (p & Hp & _ & Hc & <-).
  rewrite Hp in Hm. destruct Hm as (c' & Hc' & ->). rewrite Hc in Hc'. injection Hc' as <-.
  split; [done|]. rewrite lookup_insert_eq. split; [by eexists|]. apply delete_insert_eq.
Qed.

Lemma SetBigData_only_at id key data : moves (only_at id) (SetBigData id key data).
Proof.
  intros s Hwf Hs. destruct (SetBigData_wp id key data s Hwf) as ([[Hwf' ->]|Hm] & _); [done|].
  by apply (modifies_only_at id (add_big_data key data) s).
Qed.

(** *** create *)

Definition create_flags (o : ContainerOptions) : gmap string any :=
  let f := default ∅ (o_Flags o) in
  let f := match o_MountOpts o with Some opts => <[mountOptsFlag := AStrings opts]> f | None => f end in
  if o_Volatile o then <[volatileFlag := ABool true]> f else f.

(** The record of a new container, and with its big data. *)
Definition created (id : string) (names : list string) (image layer : string)
    (o : ContainerOptions) (now : Z) : Container :=
  mkContainer id (dedupeStrings names) image layer (o_Metadata o) [] (Some ∅) (Some ∅) now
    (o_UIDMap o) (o_GIDMap o) (Some (create_flags o)) (o_Volatile o).

Definition with_items (items : list ContainerBigDataOption) (c : Container) : Container :=
  foldl (λ c item, add_big_data (Key item) (Data item) c) c items.

Lemma wp_newContainer id names image layer o now Φ s :
  Φ (Ret (created id names image layer o now)) s →
  wp (newContainer (T := T) id (dedupeStrings names) image layer o now) Φ s.
Proof.
  intros HΦ. unfold newContainer. rewrite newMapFrom_default, !copySlicePreferringNil_id.
  unfold created, create_flags in HΦ. destruct (o_MountOpts o), (o_Volatile o); exact HΦ.
Qed.

Lemma same_mem_unusedID rounds : moves same_mem (unusedID (T := T) fuel rounds).
Proof. induction rounds as [|n IH]; simpl; unfold getMem; moves_steps. Qed.

Lemma ID_with_items items c : ID (with_items items c) = ID c.
Proof. unfold with_items. revert c. induction items as [|i items IH]; intros c; [done|]. simpl. by rewrite IH. Qed.

(** Storing the items of a container that was just added. *)
Lemma store_items_wp id items c abs0 s :
  mem_wf (mem (snd s)) → ID c = id → abs0 !! id = None → abs (mem (snd s)) = <[id := c]> abs0 →
  wp (forM items (λ item, SetBigData id (Key item) (Data item)))
     (λ o s', mem_wf (mem (snd s')) ∧ is_Some (abs (mem (snd s')) !! id) ∧
              delete id (abs (mem (snd s'))) = abs0 ∧ byid (reg (mem (snd s'))) = byid (reg (mem (snd s))) ∧
              (is_ret o → abs (mem (snd s')) = <[id := with_items items c]> abs0)) s.
Proof.
  intros Hwf Hid H0n Habs.
  eapply (wp_forM (λ rest s', mem_wf (mem (snd s')) ∧
     byid (reg (mem (snd s'))) = byid (reg (mem (snd s))) ∧ ∃ dn, items = (dn ++ rest)%list ∧
     abs (mem (snd s')) = <[id := with_items dn c]> abs0)).
  - split; [done|]. split; [done|]. by exists [].
  - intros item rest s1 (Hwf1 & Hb1 & dn & -> & E1).
    eapply wp_mono; [by apply SetBigData_wp|]. intros o s2 (Hst & _ & Hret).
    assert (is_Some (abs (mem (snd s1)) !! id)) as Hs1 by (rewrite E1, lookup_insert_eq; eauto).
    assert (mem_wf (mem (snd s2)) ∧ is_Some (abs (mem (snd s2)) !! id) ∧
            delete id (abs (mem (snd s2))) = abs0 ∧
            byid (reg (mem (snd s2))) = byid (reg (mem (snd s)))) as (? & ? & ? & ?).
    { assert (delete id (abs (mem (snd s1))) = abs0) as Ed
        by (rewrite E1, delete_insert_eq; by apply delete_id).
      destruct Hst as [[Hwf2 Em]|Hm]; [rewrite Em; by split_and!|].
      destruct (modifies_only_at id (add_big_data (Key item) (Data item)) s1 s2) as (? & ? & Hd); [done..|].
      destruct Hm as (_ & Hb & _). split_and!; [done..|by rewrite Hd|by rewrite Hb]. }
    destruct o as [[]|e|cr]; [|split_and!; try done; by intros [? ?]..].
    split; [done|]. split; [done|]. exists (dn ++ [item])%list. split; [by rewrite <- app_assoc|].
    destruct (Hret (ex_intro _ tt eq_refl)) as [(_ & _ & Hm) _].
    assert (abs (mem (snd s1)) !! id = Some (with_items dn c)) as El by (by rewrite E1, lookup_insert_eq).
    destruct (abs_find _ _ _ Hwf1 El) as (p & Hp & _ & Hc & Hi). rewrite Hp in Hm.
    destruct Hm as (c' & Hc' & ->). rewrite Hc in Hc'. injection Hc' as <-.
    rewrite Hi, E1, insert_insert_eq. f_equal. unfold with_items. by rewrite foldl_app.
  - intros s1 (Hwf1 & Hb1 & dn & -> & E1). rewrite app_nil_r, E1, lookup_insert_eq, delete_insert_eq.
    split_and!; [done|by eexists|by apply delete_id|done|done].
Qed.

(** What [create] promises. *)
Definition create_post (id : string) (names : list string) (image layer : string)
    (options : option ContainerOptions) (s : St) (o : outcome Container) (s' : St) : Prop :=
  mem_wf (mem (snd s')) ∧
  match o with
  | Ret c => ∃ id' now,
      let opts := default noOptions options in
      let c' := with_items (o_BigData opts) (created id' names image layer opts now) in
      (id ≠ "" → id' = id) ∧ abs (mem (snd s)) !! id' = None ∧
      (∀ n, n ∈ names → byname (reg (mem (snd s))) !! n = None) ∧
      hasOverlappingRanges (IS := IS) (o_UIDMap opts) = None ∧
      hasOverlappingRanges (IS := IS) (o_GIDMap opts) = None ∧
      abs (mem (snd s')) = <[id' := c']> (abs (mem (snd s))) ∧ c = copyContainer c'
  | Err _ => abs (mem (snd s')) = abs (mem (snd s))
  | Crash _ => True
  end.

(** The part of [create] that follows the insertion of the record. *)
Lemma create_finish_wp id items p c abs0 s (Φ : outcome Container → St → Prop) :
  mem_wf (mem (snd s)) → ID c = id → heap (reg (mem (snd s))) !! p = Some c → p ∈ objs (reg (mem (snd s))) →
  abs0 !! id = None → abs (mem (snd s)) = <[id := c]> abs0 →
  (∀ s', mem_wf (mem (snd s')) → abs (mem (snd s')) = <[id := with_items items c]> abs0 →
         Φ (Ret (copyContainer (with_items items c))) s') →
  (∀ e s', mem_wf (mem (snd s')) → abs (mem (snd s')) = abs0 → Φ (Err e) s') →
  (∀ k s', mem_wf (mem (snd s')) → Φ (Crash k) s') →
  wp (on_error
        (_ ← saveFor c;
         _ ← forM items (λ item, SetBigData id (Key item) (Data item));
         c ← deref p; mret (copyContainer c)) (Delete id)) Φ s.
Proof.
  intros Hwf Hid Hc Ho Hn0 Habs Hret Herr Hcr.
  assert (∀ e s1, mem_wf (mem (snd s1)) → is_Some (abs (mem (snd s1)) !! id) →
    delete id (abs (mem (snd s1))) = abs0 →
    wp (Delete id) (λ o s2, match o with Crash k => Φ (Crash k) s2 | _ => Φ (Err e) s2 end) s1) as Hdel.
  { intros e s1 Hwf1 [c1 Hs1] Hd. eapply wp_mono; [by apply Delete_wp|].
    destruct (abs_find _ _ _ Hwf1 Hs1) as (q & Hq & _ & Hq1 & Hq2). rewrite Hq.
    intros o s2 (Hwf2 & c2 & Hc2 & E2). rewrite Hq1 in Hc2. injection Hc2 as <-. rewrite Hq2, Hd in E2.
    destruct o; auto. }
  wp_step. wp_step. eapply wp_moves; [apply same_mem_saveFor|]. intros o1 s1 (Em & _).
  assert (abs (mem (snd s1)) = <[id := c]> abs0) as Habs1 by (by rewrite Em).
  assert (mem_wf (mem (snd s1))) as Hwf1 by (by rewrite Em).
  destruct o1 as [[]|e|k]; [| |by apply Hcr].
  2: { apply Hdel; [done|rewrite Habs1, lookup_insert_eq; eauto|].
       rewrite Habs1, delete_insert_eq. by apply delete_id. }
  wp_step. eapply wp_mono; [by apply (store_items_wp id items c abs0)|].
  intros o2 s2 (Hwf2 & Hs2 & Hd2 & Hb2 & Hr2). destruct o2 as [[]|e|k]; [|by apply Hdel|by apply Hcr].
  specialize (Hr2 (ex_intro _ tt eq_refl)).
  assert (heap (reg (mem (snd s2))) !! p = Some (with_items items c)) as El.
  { assert (byid (reg (mem (snd s2))) !! id = Some p) as Eb.
    { rewrite Hb2, Em. apply (wf_byid _ (mem_reg _ Hwf)). rewrite Hc. simpl. by rewrite Hid. }
    assert (abs (mem (snd s2)) !! id = Some (with_items items c)) as Ea by (by rewrite Hr2, lookup_insert_eq).
    unfold abs, reg_abs in Ea. by rewrite lookup_omap, Eb in Ea. }
  wp_step. eapply wp_deref; [done|]. wp_step. by apply Hret.
Qed.

Lemma create_wp id names image layer options s :
  mem_wf (mem (snd s)) →
  wp (create (IS := IS) fuel id names image layer options)
     (create_post id names image layer options s) s.
Proof.
  intros Hwf. unfold create, getMem. wp_step.
  assert (∀ (Ψ : outcome string → St → Prop),
    (∀ id' s1, same_mem s s1 → (id ≠ "" → id' = id) → Ψ (Ret id') s1) →
    (∀ e s1, same_mem s s1 → Ψ (Err e) s1) → (∀ k s1, same_mem s s1 → Ψ (Crash k) s1) →
    wp (if decide (id = "") then unusedID fuel fuel else mret id) Ψ s) as Hidw.
  { intros Ψ Hr He Hk. case_decide; [|by wp_step; apply Hr].
    eapply wp_moves; [apply same_mem_unusedID|]. intros [] s1 E; auto. by apply Hr. }
  apply Hidw; clear Hidw.
  2: { intros e s1 (Em & _). unfold create_post. by rewrite Em. }
  2: { intros k s1 (Em & _). unfold create_post. by rewrite Em. }
  intros id' s1 (Em1 & _) Hid'. wp_step. wp_step. cbv beta. rewrite Em1.
  set (m := mem (snd s)) in *. set (opts := default noOptions options).
  assert (∀ (e : error) (s2 : St), mem (snd s2) = m → create_post id names image layer options s (Err e) s2) as Hfail.
  { intros e s2 E. unfold create_post. fold m. by rewrite E. }
  destruct (decide (is_Some (byid (reg m) !! id'))) as [|Hnew]; [wp_step; by apply Hfail|].
  wp_step. wp_step. cbv beta. rewrite Em1.
  destruct (decide (Exists _ _)) as [|Hnames]; [wp_step; by apply Hfail|].
  destruct (hasOverlappingRanges (o_UIDMap opts)) eqn:EU; [wp_step; by apply Hfail|].
  destruct (hasOverlappingRanges (o_GIDMap opts)) eqn:EG; [wp_step; by apply Hfail|].
  wp_step. eapply wp_moves; [apply same_mem_inWorld|]. intros [now|e|k] s2 (Em2 & _).
  2: { apply Hfail. congruence. }
  2: { unfold create_post. by rewrite Em2, Em1. }
  wp_step. apply wp_newContainer. wp_step. apply wp_new. rewrite Em2, Em1. unfold modMem. wp_step. wp_step.
  set (c := created id' names image layer opts now).
  apply eq_None_not_Some in Hnew.
  destruct (reg_alloc_fresh (reg m) (mem_reg _ Hwf)) as [Hf Hfn].
  assert (heap (snd (reg_alloc c (reg m))) !! nextp (reg m) = Some c) as Hc by apply lookup_insert_eq.
  assert (∀ n, n ∈ names → byname (reg m) !! n = None) as Hnm.
  { intros n Hn. apply eq_None_not_Some. intros Hs. apply Hnames, Exists_exists. exists n.
    split; [by apply elem_of_dedupeStrings|done]. }
  assert (abs m !! id' = None) as Hn0 by (unfold abs, reg_abs; by rewrite lookup_omap, Hnew).
  eapply (create_finish_wp id' (o_BigData opts) (nextp (reg m)) c (abs m)); try done; simpl.
  - apply (mem_add_wf (nextp (reg m)) c (mkMem (snd (reg_alloc c (reg m))) (bylayer m)));
      [by apply mem_alloc_wf|done..| |apply NoDup_dedupeStrings].
    intros n Hn. apply Hnm. by apply elem_of_dedupeStrings.
  - apply elem_of_app. right. by apply list_elem_of_singleton.
  - unfold abs. etrans; [exact (reg_add_abs (nextp (reg m)) c _ Hc)|]. f_equal. by apply reg_alloc_abs, Hwf.
  - intros s' Hwf' Habs'. split; [done|]. exists id', now. by split_and!.
Qed.

(** *** Every method keeps the invariant *)

Notation kept := (moves (mem_inv mem_wf)).

Lemma kept_lookup id : kept (lookup (T := T) id).
Proof. unfold lookup, getMem. moves_steps. Qed.
Lemma kept_deref p : kept (deref (T := T) p).
Proof. unfold deref, getMem. moves_steps. Qed.
Lemma kept_save l : kept (save (T := T) l).
Proof. apply moves_weaken, same_mem_save. Qed.
Lemma kept_Delete id : kept (Delete (T := T) id).
Proof. intros s Hwf. by destruct (Delete_wp id s Hwf). Qed.
Lemma kept_SetBigData id key data : kept (SetBigData (T := T) id key data).
Proof. intros s Hwf. by destruct (SetBigData_wp id key data s Hwf) as ([[? _]|[? _]] & _). Qed.
#[local] Hint Resolve kept_lookup kept_deref kept_save kept_Delete kept_SetBigData : moves.

Lemma kept_bigDataValue {V} (get : Container → gomap V) e id key :
  kept (bigDataValue (T := T) get e id key).
Proof. unfold bigDataValue, BigData, getR. moves_steps. Qed.

Lemma kept_GarbageCollect : kept (GarbageCollect (T := T)).
Proof. unfold GarbageCollect, gc_entry, getR, getMem. moves_steps. Qed.

Lemma kept_run_op o : kept (run_op (T := T) (IS := IS) fuel o).
Proof.
  destruct o as [id names image layer options|id names o|id| |id md|id flag v|id flag|id key data
                |id key|id key| |l]; simpl.
  - apply moves_bind; [apply _|intros s Hwf|intros ?; moves_step].
    by destruct (create_wp id names image layer options s Hwf).
  - intros s Hwf. by destruct (updateNames_wp id names o s Hwf).
  - apply kept_Delete.
  - unfold Wipe, getMem. moves_steps.
  - intros s Hwf. by destruct (SetMetadata_wp id md s Hwf).
  - intros s Hwf. by destruct (SetFlag_wp id flag v s Hwf).
  - intros s Hwf. by destruct (ClearFlag_wp id flag s Hwf).
  - apply kept_SetBigData.
  - apply moves_bind; [apply _|apply kept_bigDataValue|intros ?; moves_step].
  - apply moves_bind; [apply _|apply kept_bigDataValue|intros ?; moves_step].
  - apply kept_GarbageCollect.
  - apply kept_save.
Qed.

(** *** load *)

Definition mark (location : Z) (c : Container) : Container :=
  if decide (location = volatileContainerLocation) then set_volatileStore true c else c.

(** The records read so far and one more: the first one with an identifier
    wins. *)
Definition add_record (location : Z) (vs : list Container) (c : Container) : list Container :=
  if decide (ID c ∈ ID <$> vs) then vs else (vs ++ [mark location c])%list.

(** The records read so far. *)
Definition loaded (cs : list positive) (ids : gmap string positive) (vs : list Container) m : Prop :=
  mem_wf m ∧ fetched cs ids vs (reg m).

Lemma ID_mark location c : ID (mark location c) = ID c.
Proof. unfold mark. by case_decide. Qed.

Lemma loaded_nil m : mem_wf m → loaded [] ∅ [] m.
Proof. intros Hwf. split; [done|]. apply fetched_nil, Hwf. Qed.

Lemma loaded_value cs ids vs m p :
  loaded cs ids vs m → p ∈ cs → ∃ c, heap (reg m) !! p = Some c ∧ c ∈ vs.
Proof. intros [_ Hf]. by apply (fetched_value cs ids). Qed.

Lemma loaded_id cs ids vs m i :
  loaded cs ids vs m → is_Some (ids !! i) ↔ i ∈ ID <$> vs.
Proof. intros [_ Hf]. exact (fetched_id cs ids vs (reg m) i Hf). Qed.

Lemma loaded_byid cs ids vs m i p :
  loaded cs ids vs m → ids !! i = Some p ↔ p ∈ cs ∧ ID <$> heap (reg m) !! p = Some i.
Proof. intros [_ Hf]. exact (ft_ids _ _ _ _ Hf i p). Qed.

Lemma loaded_new cs ids vs m c :
  loaded cs ids vs m → ID c ∉ ID <$> vs →
  loaded (cs ++ [nextp (reg m)]) (<[ID c := nextp (reg m)]> ids) (vs ++ [c])
    (mkMem (snd (reg_alloc c (reg m))) (bylayer m)).
Proof. intros [Hwf Hf] Hid. split; [by apply mem_alloc_wf|]. exact (fetched_new cs ids vs (reg m) c Hf Hid). Qed.

(** What the file at [rpath] holds; a missing or empty file holds nothing. *)
Definition file_records (files : gmap string string) (rpath : string) : option (list (option Container)) :=
  let data := default "" (files !! rpath) in
  if decide (data = "") then Some [] else Unmarshal data.

Lemma load_record_wp location cs ids vs oc s :
  loaded cs ids vs (mem (snd s)) →
  wp (load_record location (cs, ids) oc) (λ o s', reads s s' ∧
    match o with
    | Ret (cs', ids') => ∃ c, oc = Some c ∧ loaded cs' ids' (add_record location vs c) (mem (snd s'))
    | Err _ => False
    | Crash _ => oc = None ∧ mem_wf (mem (snd s'))
    end) s.
Proof.
  intros Hl. unfold load_record. destruct oc as [c|]; [|wp_step; split; [apply reads_refl|by split; [|apply Hl]]].
  pose proof (loaded_id _ _ _ _ (ID c) Hl) as Hid. unfold add_record.
  destruct (ids !! ID c) as [p|] eqn:Ei.
  { wp_step. split; [apply reads_refl|]. exists c. split; [done|].
    rewrite decide_True; [done|]. apply Hid. eauto. }
  fold (mark location c). cbv zeta. wp_step. apply wp_new. wp_step.
  assert (ID c ∉ ID <$> vs) as Hno by (rewrite <- Hid; by intros [? ?]).
  split; [by destruct s|]. exists c. split; [done|]. rewrite decide_False by done.
  apply loaded_new; [done|]. by rewrite ID_mark.
Qed.

Lemma load_location_wp location rpath cs ids vs s :
  loaded cs ids vs (mem (snd s)) →
  wp (load_location (cs, ids) (location, rpath)) (λ o s', reads s s' ∧
    match o with
    | Ret (cs', ids') => ∃ l, (file_records (w_files (fst s)) rpath = Some (Some <$> l) ∨
                               w_faults (fst s) ≠ [] ∧ l = []) ∧
                              loaded cs' ids' (foldl (add_record location) vs l) (mem (snd s'))
    | Err _ => mem_wf (mem (snd s')) ∧
               (w_faults (fst s) ≠ [] ∨ file_records (w_files (fst s)) rpath = None)
    | Crash _ => mem_wf (mem (snd s')) ∧
                 (w_faults (fst s) ≠ [] ∨ ∃ l, file_records (w_files (fst s)) rpath = Some l ∧ None ∈ l)
    end) s.
Proof.
  intros Hl. unfold load_location. wp_step. eapply wp_mono; [apply read_or_empty_wp|].
  intros [data|e|k] s1 (Hr & Em & Hd); [|rewrite Em; split; [done|]; split; [apply Hl|left; naive_solver]..].
  rewrite <- Em in Hl. unfold file_records. case_decide as E.
  { wp_step. split; [done|]. exists []. split; [|done]. subst data.
    destruct Hd as [->|[? _]]; [by left|by right]. }
  destruct Hd as [Hd|[_ ?]]; [|done]. rewrite Hd. rewrite decide_False by done.
  destruct (Unmarshal data) as [l|] eqn:Eu; [|wp_step; split; [done|]; split; [apply Hl|by right]].
  eapply (wp_foldM (λ acc rest s', reads s s' ∧ ∃ dn, l = ((Some <$> dn) ++ rest)%list ∧
     loaded (fst acc) (snd acc) (foldl (add_record location) vs dn) (mem (snd s')))).
  - split; [done|]. by exists [].
  - intros [cs1 ids1] oc rest s2 (Hr2 & dn & -> & Hl2). simpl in Hl2.
    eapply wp_mono; [by apply load_record_wp|].
    intros [[cs2 ids2]|e|k] s3 (Hr3 & Ho); [|done|].
    + destruct Ho as (c & -> & Hl3). split; [by eapply reads_trans|].
      exists (dn ++ [c])%list. rewrite fmap_app, <- app_assoc. split; [done|]. simpl. by rewrite foldl_app.
    + destruct Ho as [-> Hwf3]. split; [by eapply reads_trans|]. split; [done|].
      right. eexists. split; [done|]. apply elem_of_app. right. left.
  - intros [cs1 ids1] s2 (Hr2 & dn & -> & Hl2). split; [done|]. exists dn.
    rewrite app_nil_r in *. split; [by left|done].
Qed.

(** The records of a list of files, in the order in which [load] keeps them. *)
Fixpoint disk_values (files : gmap string string) (vs : list Container) (fs : list (Z * string))
    : option (list Container) :=
  match fs with
  | [] => Some vs
  | (location, rpath) :: fs =>
      match file_records files rpath ≫= mapM id with
      | Some l => disk_values files (foldl (add_record location) vs l) fs
      | None => None
      end
  end.

(** Every record of the files satisfies [P]. *)
Definition disk_all (P : Container → Prop) (files : gmap string string) (fs : list (Z * string)) : Prop :=
  ∀ location rpath l c, (location, rpath) ∈ fs → file_records files rpath = Some l → Some c ∈ l → P c.

Lemma add_records_all P location l vs :
  (∀ c, P c → P (mark location c)) → Forall P vs → Forall P l → Forall P (foldl (add_record location) vs l).
Proof.
  intros Hm Hvs Hl. revert vs Hvs. induction Hl as [|c l Hc Hl IH]; intros vs Hvs; [done|]. simpl.
  apply IH. unfold add_record. case_decide; [done|]. apply Forall_app. split; [done|].
  constructor; [by apply Hm|constructor].
Qed.

Lemma load_files_wp (P : Container → Prop) fs s :
  mem_wf (mem (snd s)) → (∀ location c, P c → P (mark location c)) → disk_all P (w_files (fst s)) fs →
  wp (foldM load_location ([], ∅) fs) (λ o s', reads s s' ∧
    match o with
    | Ret (cs, ids) => ∃ vs, loaded cs ids vs (mem (snd s')) ∧ Forall P vs ∧
        (w_faults (fst s) = [] → disk_values (w_files (fst s)) [] fs = Some vs)
    | _ => mem_wf (mem (snd s')) ∧ (w_faults (fst s) = [] → disk_values (w_files (fst s)) [] fs = None)
    end) s.
Proof.
  intros Hwf HP Hdisk. set (files := w_files (fst s)) in *.
  eapply (wp_foldM (λ acc rest s', reads s s' ∧ (∃ pre, fs = (pre ++ rest)%list) ∧
    ∃ vs, loaded (fst acc) (snd acc) vs (mem (snd s')) ∧ Forall P vs ∧
          (w_faults (fst s) = [] → disk_values files [] fs = disk_values files vs rest))).
  - split; [done|]. split; [by exists []|]. exists []. split; [by apply loaded_nil|]. by split.
  - intros [cs ids] [location rpath] rest s1 (Hr & [pre Hpre] & vs & Hl & Hvs & Heq). simpl in Hl.
    assert (w_files (fst s1) = files) as Ef by apply Hr.
    assert ((location, rpath) ∈ fs) as Hin by (rewrite Hpre; apply elem_of_app; right; left).
    eapply wp_mono; [by apply load_location_wp|]. rewrite Ef.
    assert (w_faults (fst s) = [] → w_faults (fst s1) = []) as Hfl by apply Hr.
    intros [[cs1 ids1]|e|k] s2 (Hr2 & Ho).
    + destruct Ho as (l & Hfile & Hl2). split; [by eapply reads_trans|].
      split; [exists (pre ++ [(location, rpath)])%list; by rewrite <- app_assoc|].
      eexists. split; [done|]. split.
      * apply add_records_all; [by apply HP|done|]. apply Forall_forall. intros c Hc.
        destruct Hfile as [Hfile|[_ ->]]; [|by apply elem_of_nil in Hc].
        eapply Hdisk; [done|done|]. apply list_elem_of_fmap. by exists c.
      * intros Hnf. rewrite Heq by done. simpl.
        destruct Hfile as [->|[? _]]; [|by specialize (Hfl Hnf)]. simpl. by rewrite mapM_id_Some.
    + destruct Ho as [Hwf2 Hor]. split; [by eapply reads_trans|]. split; [done|]. intros Hnf.
      rewrite Heq by done. simpl. destruct Hor as [?| ->]; [by specialize (Hfl Hnf)|done].
    + destruct Ho as (Hwf2 & Hor). split; [by eapply reads_trans|]. split; [done|].
      intros Hnf. destruct Hor as [?|(l & Hfile & Hnone)]; [by specialize (Hfl Hnf)|].
      rewrite Heq by done. simpl. rewrite Hfile. simpl. by rewrite mapM_id_None.
  - intros [cs ids] s1 (Hr & _ & vs & Hl & Hvs & Heq). split; [done|]. exists vs. by split_and!.
Qed.

(** *** The loop that builds the index *)

Lemma load_name_tables p location l x :
  let x' := foldl (load_name p location) x l in
  (x_names x', x_heap x') = foldl (steal (λ _ c, c) p) (x_names x, x_heap x) l ∧
  x_layers x' = x_layers x.
Proof.
  revert x. induction l as [|n l IH]; intros x; [done|]. cbn [foldl].
  destruct (IH (load_name p location x n)) as [-> ->].
  unfold load_name. destruct (x_names x !! n) eqn:E; simpl; by rewrite E.
Qed.

Lemma load_index_tables x p :
  (x_names (load_index x p), x_heap (load_index x p)) = index_one p (x_names x, x_heap x).
Proof.
  unfold load_index, index_one. simpl. destruct (x_heap x !! p) as [c|]; [|done].
  apply (load_name_tables p (containerLocation c) (Names c) (mkIndexing _ _ _ _ _)).
Qed.

Lemma load_index_layers x p c :
  x_heap x !! p = Some c → x_layers (load_index x p) = <[LayerID c := p]> (x_layers x).
Proof.
  intros Hc. unfold load_index. rewrite Hc.
  by destruct (load_name_tables p (containerLocation c) (Names c)
    (mkIndexing (<[LayerID c := p]> (x_layers x)) (x_names x) (x_heap x) (x_conflict x) (x_locations x))) as [_ ->].
Qed.

(** The state of the loop after the records at [ps]. *)
Record indexed (h : gmap positive Container) (ps : list positive) (x : indexing) : Prop := {
  ix_names : names_inv ps (x_names x) (x_heap x);
  ix_other q : q ∉ ps → x_heap x !! q = h !! q;
  ix_strip q : q ∈ ps → ∃ l, x_heap x !! q = strip l <$> h !! q;
  ix_layers l q : x_layers x !! l = Some q → q ∈ ps ∧ LayerID <$> h !! q = Some l
}.

Lemma indexed_step h ps x p c :
  indexed h ps x → p ∉ ps → h !! p = Some c → NoDup (Names c) → indexed h (ps ++ [p]) (load_index x p).
Proof.
  intros Hx Hp Hc Hnd.
  assert (x_heap x !! p = Some c) as Hxc by (by rewrite (ix_other _ _ _ Hx)).
  pose proof (index_one_inv p c ps (x_names x) (x_heap x) (ix_names _ _ _ Hx) Hp Hxc Hnd) as Hi.
  rewrite <- load_index_tables in Hi. destruct Hi as (Hn & Ho & Hs).
  split; [done|..].
  - intros q [Hq Hne]%not_elem_of_app. rewrite Ho by done. by apply (ix_other _ _ _ Hx).
  - intros q [Hq| ->%list_elem_of_singleton]%elem_of_app.
    + rewrite Hs by done. destruct (ix_strip _ _ _ Hx q Hq) as [l ->].
      destruct (h !! q) as [y|]; [|by exists []].
      exists (l ++ rnames c)%list. exact (f_equal Some (strip_app (rnames c) l y)).
    + exists []. rewrite Ho, Hxc, Hc by done. exact (f_equal Some (eq_sym (strip_nil c))).
  - intros l q. rewrite (load_index_layers x p c) by done. rewrite elem_of_app, list_elem_of_singleton.
    destruct (decide (l = LayerID c)) as [->|Hne].
    + rewrite lookup_insert_eq. intros [= <-]. rewrite Hc. auto.
    + rewrite lookup_insert_ne by done. intros [? ?]%(ix_layers _ _ _ Hx). auto.
Qed.

Lemma indexed_all h cs ps x :
  indexed h ps x → NoDup (ps ++ cs) →
  (∀ p, p ∈ cs → ∃ c, h !! p = Some c ∧ NoDup (Names c)) →
  indexed h (ps ++ cs) (foldl load_index x cs).
Proof.
  revert ps x. induction cs as [|p cs IH]; intros ps x Hx Hnd Hcs; [by rewrite app_nil_r|].
  destruct (Hcs p) as (c & Hc & Hn); [left|].
  change (ps ++ p :: cs)%list with (ps ++ [p] ++ cs)%list in *. rewrite app_assoc in *. simpl. apply IH.
  - apply (indexed_step h ps x p c); try done. apply NoDup_app in Hnd as (Hnd & _ & _).
    apply NoDup_app in Hnd as (_ & Hd & _). intros Hp. apply (Hd p Hp). by apply list_elem_of_singleton.
  - done.
  - intros q Hq. apply Hcs. by right.
Qed.

(** The memory that [load] builds. *)
Definition loaded_mem (cs : list positive) (ids : gmap string positive) m : containerMem T :=
  let x := foldl load_index (mkIndexing ∅ ∅ (heap (reg m)) false 0) cs in
  mkMem (mkReg cs (TruncIndex.NewTruncIndex (omap (λ p, ID <$> heap (reg m) !! p) cs)) ids
           (x_names x) (x_heap x) (nextp (reg m))) (x_layers x).

Lemma loaded_indexed cs ids vs m :
  loaded cs ids vs m → Forall (λ c, NoDup (Names c)) vs →
  indexed (heap (reg m)) cs (foldl load_index (mkIndexing ∅ ∅ (heap (reg m)) false 0) cs).
Proof.
  intros Hl Hnd. apply (indexed_all _ cs []).
  - split; simpl.
    + intros n q. rewrite lookup_empty, elem_of_nil. naive_solver.
    + done.
    + by intros q ?%elem_of_nil.
    + intros l q. by rewrite lookup_empty.
  - apply Hl.
  - intros p Hp. destruct (loaded_value _ _ _ _ _ Hl Hp) as (c & Hc & Hv). exists c.
    split; [done|]. rewrite Forall_forall in Hnd. by apply Hnd.
Qed.

Lemma loaded_idlist cs ids vs m : loaded cs ids vs m → omap (λ p, ID <$> heap (reg m) !! p) cs = rid <$> vs.
Proof.
  intros [_ Hf]. rewrite <- (fetched_omap _ _ _ _ Hf). clear Hf.
  induction cs as [|p cs IH]; [done|]. simpl. destruct (heap (reg m) !! p); simpl; [f_equal|]; exact IH.
Qed.

Lemma loaded_mem_wf cs ids vs m :
  loaded cs ids vs m → Forall (λ c, NoDup (Names c)) vs → mem_wf (loaded_mem cs ids m).
Proof.
  intros Hl Hnd. pose proof (loaded_indexed _ _ _ _ Hl Hnd) as Hx. unfold loaded_mem. cbv zeta. rewrite (loaded_idlist _ _ _ _ Hl).
  set (x := foldl load_index _ cs) in *.
  assert (∀ q, x_heap x !! q = heap (reg m) !! q ∨ ∃ l, x_heap x !! q = strip l <$> heap (reg m) !! q) as Hh.
  { intros q. destruct (decide (q ∈ cs)); [right; by apply (ix_strip _ _ _ Hx)|left; by apply (ix_other _ _ _ Hx)]. }
  split; cbn [reg bylayer].
  - apply (fetched_wf cs ids vs (reg m) (x_names x) (x_heap x)); [apply Hl| |apply Hx].
    intros q. destruct (Hh q) as [->|[l ->]]; [done|]. by destruct (heap (reg m) !! q).
  - simpl. intros l p [Hp E]%(ix_layers _ _ _ Hx). split; [done|].
    destruct (Hh p) as [->|[k ->]]; [done|]. by destruct (heap (reg m) !! p).
  - simpl. intros p c Hp Hc. destruct (loaded_value _ _ _ _ _ Hl Hp) as (d & Hd & Hv).
    rewrite Forall_forall in Hnd. specialize (Hnd d Hv).
    destruct (Hh p) as [E|[l E]]; rewrite E, Hd in Hc; injection Hc as <-; [done|by apply NoDup_filter].
Qed.

(** *** load as a whole *)

Lemma calm_save l : calm (save (T := T) l).
Proof. unfold save, getR, getMem. calm_steps. Qed.
Lemma same_lock_save l : moves same_lock' (save (T := T) l).
Proof. unfold save, getR, getMem. moves_steps. Qed.
#[local] Hint Resolve calm_save same_lock_save : calm moves.

Lemma load_neutral b : lock_neutral' (load (T := T) b).
Proof.
  assert (lock_neutral (load_body (T := T) b)) as Hb.
  { unfold load_body, load_location, read_or_empty, load_record, new, modReg, getR, getMem, modMem.
    apply calm_neutral; [calm_steps|moves_steps; apply moves_modify; by intros []]. }
  intros s. unfold load. wp_step. wp_step. eapply wp_mono; [apply Hb|].
  intros [res|e|k] s' [Hs Hd]; [by wp_step|by wp_step|]. simpl. by intros ->.
Qed.

(** The JSON files have no record with a name twice. *)
Definition disk_ok (s : St) : Prop :=
  disk_all (λ c, NoDup (Names c)) (w_files (fst s)) (locations (conf (snd s))).

Lemma load_wp b s :
  mem_wf (mem (snd s)) → disk_ok s → wp (load b) (λ _ s', mem_wf (mem (snd s'))) s.
Proof.
  intros Hwf Hdisk. unfold load, load_body, getR, getMem. wp_step. wp_step. wp_step. wp_step. wp_step.
  eapply wp_mono.
  { apply (load_files_wp (λ c, NoDup (Names c))); [done| |exact Hdisk].
    intros location c. unfold mark. by case_decide. }
  intros [[cs ids]|e|k] s1 (_ & Ho); [|by destruct Ho..].
  destruct Ho as (vs & Hl & Hnd & _). wp_step. wp_step. wp_step. wp_step. unfold modMem. wp_step. wp_step.
  fold (loaded_mem cs ids (mem (snd s1))). pose proof (loaded_mem_wf _ _ _ _ Hl Hnd) as Hwf1.
  destruct (x_conflict _); [|by repeat wp_step].
  destruct b; simpl; [|by repeat wp_step].
  wp_step. eapply wp_moves; [apply same_mem_save|]. intros [[]|e|k] s2 (Em & _); repeat wp_step; simpl;
    rewrite Em; done.
Qed.

(** *** Files without conflicts *)

Lemma load_names_clean p location l x :
  NoDup l → (∀ n, n ∈ l → x_names x !! n = None) →
  let x' := foldl (load_name p location) x l in
  x_heap x' = x_heap x ∧ x_conflict x' = x_conflict x.
Proof.
  intros Hnd. revert x. induction Hnd as [|n l Hn Hnd IH]; intros x Hx; [done|]. cbn [foldl].
  assert (x_names x !! n = None) as Hxn by (apply Hx; left).
  assert (load_name p location x n = mkIndexing (x_layers x) (<[n := p]> (x_names x)) (x_heap x) (x_conflict x) (x_locations x)) as ->.
  { unfold load_name. simpl. rewrite Hxn. simpl. f_equal. apply map_eq. intros q.
    destruct (decide (q = p)) as [->|Hne]; [rewrite lookup_alter_eq|by rewrite lookup_alter_ne].
    by destruct (x_heap x !! p). }
  refine (IH (mkIndexing (x_layers x) (<[n := p]> (x_names x)) (x_heap x) (x_conflict x) (x_locations x)) _).
  simpl. intros n' Hn'. rewrite lookup_insert_ne; [apply Hx; by right|]. by intros <-.
Qed.

(** The names of different records are different. *)
Definition names_apart (h : gmap positive Container) (ps : list positive) : Prop :=
  ∀ p q c d n, p ∈ ps → q ∈ ps → p ≠ q → h !! p = Some c → h !! q = Some d → n ∈ Names c → n ∉ Names d.

Lemma load_index_clean h cs ps x :
  indexed h ps x → x_heap x = h → x_conflict x = false → NoDup (ps ++ cs) →
  (∀ p, p ∈ cs → ∃ c, h !! p = Some c ∧ NoDup (Names c)) → names_apart h (ps ++ cs) →
  x_heap (foldl load_index x cs) = h ∧ x_conflict (foldl load_index x cs) = false.
Proof.
  revert ps x. induction cs as [|p cs IH]; intros ps x Hx Hh Hcf Hnd Hcs Hap; [done|].
  destruct (Hcs p) as (c & Hc & Hn); [left|]. cbn [foldl].
  change (ps ++ p :: cs)%list with (ps ++ [p] ++ cs)%list in *. rewrite app_assoc in *.
  assert (p ∉ ps) as Hp.
  { apply NoDup_app in Hnd as (Hnd & _ & _). apply NoDup_app in Hnd as (_ & Hd & _).
    intros Hp. apply (Hd p Hp). by apply list_elem_of_singleton. }
  assert (x_heap (load_index x p) = h ∧ x_conflict (load_index x p) = false) as [E1 E2].
  { unfold load_index. rewrite Hh, Hc. rewrite Hcf.
    apply (load_names_clean p (containerLocation c) (Names c) (mkIndexing _ _ _ _ _) Hn). simpl.
    intros n Hnc. apply eq_None_not_Some. intros [q Hq]. apply (ix_names _ _ _ Hx) in Hq as (Hq & d & Hd & Hnd').
    rewrite Hh in Hd. eapply (Hap p q c d n); try done.
    - apply elem_of_app. left. apply elem_of_app. right. by apply list_elem_of_singleton.
    - apply elem_of_app. left. apply elem_of_app. by left.
    - by intros ->. }
  eapply IH; [by apply (indexed_step h ps x p c)|done..| |done].
  intros q Hq. apply Hcs. by right.
Qed.

Lemma loaded_clean cs ids vs m :
  loaded cs ids vs m → Forall (λ c, NoDup (Names c)) vs →
  (∀ c d n, c ∈ vs → d ∈ vs → ID c ≠ ID d → n ∈ Names c → n ∉ Names d) →
  x_conflict (foldl load_index (mkIndexing ∅ ∅ (heap (reg m)) false 0) cs) = false ∧
  ∀ i c, abs (loaded_mem cs ids m) !! i = Some c ↔ c ∈ vs ∧ ID c = i.
Proof.
  intros Hl Hnd Hap. set (h := heap (reg m)).
  destruct (load_index_clean h cs [] (mkIndexing ∅ ∅ h false 0)) as [Eh Ec]; try done.
  - split; simpl; [|done|by intros q ?%elem_of_nil|intros l q; by rewrite lookup_empty].
    intros n q. rewrite lookup_empty, elem_of_nil. naive_solver.
  - apply Hl.
  - intros p Hp. destruct (loaded_value _ _ _ _ _ Hl Hp) as (c & Hc & Hv). exists c.
    split; [done|]. rewrite Forall_forall in Hnd. by apply Hnd.
  - intros p q c d n Hp Hq Hne Hc Hd. apply Hap.
    + destruct (loaded_value _ _ _ _ _ Hl Hp) as (c' & Hc' & ?). unfold h in Hc. congruence.
    + destruct (loaded_value _ _ _ _ _ Hl Hq) as (d' & Hd' & ?). unfold h in Hd. congruence.
    + intros Hid. apply Hne.
      assert (ids !! ID c = Some p) as E1 by (apply (loaded_byid _ _ _ _ _ _ Hl); unfold h in Hc; by rewrite Hc).
      assert (ids !! ID c = Some q) as E2 by (apply (loaded_byid _ _ _ _ _ _ Hl); unfold h in Hd; by rewrite Hd, Hid).
      congruence.
  - split; [done|]. intros i c. etrans; [apply reg_abs_lookup, (mem_reg _ (loaded_mem_wf _ _ _ _ Hl Hnd))|].
    unfold loaded_mem. simpl. fold h. rewrite Eh. split.
    + intros (p & Hp & Hc & Hi). split; [|done]. destruct (loaded_value _ _ _ _ _ Hl Hp) as (c' & Hc' & ?).
      unfold h in Hc. congruence.
    + intros [[k Hk]%list_elem_of_lookup Hi].
      destruct (Forall2_lookup_r _ _ _ _ _ (ft_values _ _ _ _ (proj2 Hl)) Hk) as (p & Hp & Hh).
      exists p. split; [by eapply list_elem_of_lookup_2|]. done.
Qed.

(** *** Files in step with the memory *)

Definition in_location (location : Z) m : list Container :=
  filter (λ c, containerLocation c = location) (reg_values (reg m)).

(** The file of a location holds the containers of that location. *)
Definition synced (s : St) (location : Z) (rpath : string) : Prop :=
  ∃ d, Marshal (in_location location (mem (snd s))) = Some d ∧ w_files (fst s) !! rpath = Some d.

(** The paths of a store: the two files and the lock file are different. *)
Definition paths_ok (r : rstore containerConf (containerMem T)) (p0 p1 : string) : Prop :=
  jsonPath (conf r) = [p0; p1] ∧ p0 ≠ p1 ∧ file (lockfile r) ≠ p0 ∧ file (lockfile r) ≠ p1.

(** One round of the loop of [save]. *)
Definition save_location (saveLocations location : Z) (rpath : string) : M St unit :=
  if decide (Z.land location saveLocations = 0)%Z then mret tt
  else
    _ ← inWorld (os_MkdirAll (filepath_Dir rpath));
    containers ← getMem (λ m, reg_values (reg m));
    let subsetContainers := filter (λ c, containerLocation c = location) containers in
    match Marshal subsetContainers with
    | None => fail (ErrOther "json: unsupported value")
    | Some jdata =>
        _ ← inWorld (AtomicWriteFileWithOpts (bool_decide (location = volatileContainerLocation)) rpath jdata);
        mret tt
    end.

Lemma save_location_ret l location rpath s s' :
  save_location l location rpath s = (s', Ret tt) →
  same_mem s s' ∧ touches [rpath] s s' ∧
  (Z.land location l ≠ 0 → synced s' location rpath)%Z.
Proof.
  intros Hrun. unfold save_location in Hrun. case_decide as Hz.
  { injection Hrun as <-. done. }
  unfold mbind, M_bind, getMem, gets in Hrun.
  pose proof (same_mem_inWorld (os_MkdirAll (filepath_Dir rpath)) s) as E1.
  pose proof (touches_MkdirAll [rpath] (filepath_Dir rpath) s) as E2.
  destruct (inWorld (os_MkdirAll _) s) as [s1 [[]|e|k]]; [|done|done]. simpl in E1, E2.
  destruct (Marshal _) as [d|] eqn:Ed; [|done].
  set (b := bool_decide _) in Hrun.
  pose proof (same_mem_inWorld (AtomicWriteFileWithOpts b rpath d) s1) as E3.
  pose proof (touches_AtomicWriteFileWithOpts b rpath d s1) as E4.
  pose proof (AtomicWriteFileWithOpts_ret b rpath d s1) as E5.
  destruct (inWorld (AtomicWriteFileWithOpts b rpath d) s1) as [s2 [t|e|k]]; [|done|done].
  injection Hrun as <-. specialize (E5 _ _ eq_refl). simpl in E3, E4.
  split; [by etrans|]. split; [by etrans|]. intros _. exists d. split; [|done].
  destruct E3 as (-> & _). exact Ed.
Qed.

(** A successful [save] of both locations. *)
Lemma save_ret p0 p1 l s s' :
  paths_ok (snd s) p0 p1 → save l s = (s', Ret tt) →
  same_mem s s' ∧ touches [file (lockfile (snd s)); p0; p1] s s' ∧
  (Z.land 1 l ≠ 0 → synced s' 1 p0)%Z ∧ (Z.land 2 l ≠ 0 → synced s' 2 p1)%Z ∧
  (Z.land 1 l = 0 → w_files (fst s') !! p0 = w_files (fst s) !! p0)%Z ∧
  (Z.land 2 l = 0 → w_files (fst s') !! p1 = w_files (fst s) !! p1)%Z.
Proof.
  intros (Hp & Hne & Hl0 & Hl1) Hrun. unfold save in Hrun.
  apply run_bind_ret in Hrun as (sa & [] & Ha & Hrun). apply run_bind_ret in Hrun as (sb & lw & Hb & Hrun).
  apply run_bind_ret in Hrun as (sc & [] & Hc & Hrun). apply run_bind_ret in Hrun as (sd & cf & Hd & Hrun).
  injection Hd as <- <-.
  assert (same_mem s sc ∧ touches [file (lockfile (snd s))] s sc ∧ lockfile (snd sc) = lockfile (snd s))
    as (Em & Et & El).
  { apply save_start_ret. unfold mbind, M_bind. by rewrite Ha, Hb. }
  assert (locations (conf (snd sc)) = [(1, p0); (2, p1)]%Z) as Eloc.
  { destruct Em as (_ & -> & _). unfold locations. by rewrite Hp. }
  rewrite Eloc in Hrun. cbn [forM] in Hrun.
  apply run_bind_ret in Hrun as (s1 & [] & H1' & Hrun). apply run_bind_ret in Hrun as (s2 & [] & H2' & Hrun).
  injection Hrun as <-.
  destruct (save_location_ret l 1 p0 sc s1 H1') as (Em1 & Et1 & Hs1).
  destruct (save_location_ret l 2 p1 s1 s2 H2') as (Em2 & Et2 & Hs2).
  split; [by etrans; [done|etrans]|]. split_and!.
  - intros q Hq. rewrite Et2, Et1, Et; [done|..]; intros ->%list_elem_of_singleton; apply Hq; set_solver.
  - intros (d & Hd & Hf)%Hs1. exists d. destruct Em2 as (-> & _). split; [done|].
    rewrite Et2; [done|]. by intros ?%list_elem_of_singleton.
  - done.
  - intros Hz. rewrite Et2 by (by intros ?%list_elem_of_singleton).
    unfold save_location in H1'. rewrite decide_True in H1' by done. injection H1' as <-.
    apply Et. by intros ?%list_elem_of_singleton.
  - intros Hz. unfold save_location in H2'. rewrite decide_True in H2' by done. injection H2' as <-.
    rewrite Et1 by (intros ?%list_elem_of_singleton; by subst).
    apply Et. by intros ?%list_elem_of_singleton.
Qed.

(** A record after it was saved and loaded again. *)
Definition reloaded (c : Container) : Container := set_volatileStore (volatileStore c) (json_container c).

Lemma mark_json location c :
  location = 1%Z ∨ location = 2%Z → containerLocation c = location → mark location (json_container c) = reloaded c.
Proof.
  unfold containerLocation, mark, reloaded, stableContainerLocation, volatileContainerLocation.
  by intros [-> | ->]; destruct (volatileStore c).
Qed.

Lemma add_records_fresh location l vs :
  NoDup (ID <$> l) → (∀ c, c ∈ l → ID c ∉ ID <$> vs) →
  foldl (add_record location) vs l = (vs ++ (mark location <$> l))%list.
Proof.
  revert vs. induction l as [|c l IH]; intros vs Hnd Hvs; [by rewrite app_nil_r|].
  rewrite fmap_cons in Hnd. apply NoDup_cons in Hnd as [Hc Hnd]. cbn [foldl]. unfold add_record at 2.
  rewrite decide_False by (apply Hvs; left). rewrite IH; [by rewrite fmap_cons, <- app_assoc|done|].
  intros d Hd. rewrite fmap_app, elem_of_app. intros [Hd'|Hd'].
  - apply (Hvs d); [by right|done].
  - apply list_elem_of_fmap in Hd' as (c' & E & ->%list_elem_of_singleton). rewrite ID_mark in E.
    apply Hc. rewrite <- E. apply list_elem_of_fmap. by exists d.
Qed.

Context `{!ContainerJSONSpec}.

Lemma file_records_marshal files rpath l d :
  Forall (λ c, json_safe c = true) l → Marshal l = Some d → files !! rpath = Some d →
  file_records files rpath ≫= mapM id = Some (json_container <$> l).
Proof.
  intros Hs Hm Hf. unfold file_records. rewrite Hf. cbn [default from_option].
  rewrite decide_False by (by apply json_nonempty in Hm).
  rewrite (json_roundtrip l d) by done. simpl. rewrite list_fmap_compose. apply mapM_id_Some.
Qed.

Lemma in_location_elem location m c :
  c ∈ in_location location m ↔ c ∈ reg_values (reg m) ∧ containerLocation c = location.
Proof. unfold in_location. rewrite list_elem_of_filter. tauto. Qed.

Lemma ID_json (l : list Container) : ID <$> (json_container <$> l) = ID <$> l.
Proof. rewrite <- list_fmap_compose. by apply list_fmap_ext. Qed.

(** What is read from files in step with [m]. *)
Lemma synced_disk_values s p0 p1 :
  mem_wf (mem (snd s)) → Forall (λ c, json_safe c = true) (reg_values (reg (mem (snd s)))) →
  synced s 1 p0 → synced s 2 p1 →
  disk_values (w_files (fst s)) [] [(1, p0); (2, p1)]%Z =
    Some ((reloaded <$> in_location 1 (mem (snd s))) ++ (reloaded <$> in_location 2 (mem (snd s))))%list.
Proof.
  intros Hwf Hsafe (d0 & Hd0 & Hf0) (d1 & Hd1 & Hf1). set (m := mem (snd s)) in *.
  pose proof (reg_values_ids (reg m) (mem_reg _ Hwf)) as Hids.
  assert (∀ loc, NoDup (ID <$> in_location loc m)) as Hnd by (intros loc; by apply NoDup_fmap_filter).
  assert (∀ loc, Forall (λ c, json_safe c = true) (in_location loc m)) as Hs.
  { intros loc. apply Forall_forall. intros c [Hc _]%in_location_elem. rewrite Forall_forall in Hsafe. by apply Hsafe. }
  cbn [disk_values]. rewrite (file_records_marshal _ _ (in_location 1 m) d0) by done.
  rewrite add_records_fresh; [|by rewrite ID_json|by intros ? ? ?%elem_of_nil].
  rewrite (file_records_marshal _ _ (in_location 2 m) d1) by done.
  rewrite add_records_fresh; [|by rewrite ID_json|].
  - rewrite <- !list_fmap_compose. do 2 f_equal; apply list_fmap_ext; intros k c Hk; simpl;
      (apply mark_json; [tauto|]); apply list_elem_of_lookup_2, in_location_elem in Hk; apply Hk.
  - intros c (c1 & -> & [Hv1 Hl1]%in_location_elem)%list_elem_of_fmap. simpl.
    rewrite list_elem_of_fmap. intros (c2 & E & (c3 & -> & (c4 & -> & [Hv4 Hl4]%in_location_elem)%list_elem_of_fmap)%list_elem_of_fmap).
    rewrite ID_mark in E. simpl in E.
    assert (c1 = c4) as ->; [|congruence].
    assert (abs m !! ID c4 = Some c1) as E1 by (by apply (reg_abs_values (reg m) _ _ (mem_reg _ Hwf))).
    assert (abs m !! ID c4 = Some c4) as E4 by (by apply (reg_abs_values (reg m) _ _ (mem_reg _ Hwf))).
    congruence.
Qed.

(** Loading files in step with [m] gives the records of [m]. *)
Lemma load_synced_wp s p0 p1 b s2 :
  mem_wf (mem (snd s)) → Forall (λ c, json_safe c = true) (reg_values (reg (mem (snd s)))) →
  jsonPath (conf (snd s)) = [p0; p1] → synced s 1 p0 → synced s 2 p1 →
  mem_wf (mem (snd s2)) → conf (snd s2) = conf (snd s) →
  w_files (fst s2) = w_files (fst s) → w_faults (fst s2) = [] →
  wp (load b) (λ o s', o = Ret (false, None) ∧ mem_wf (mem (snd s')) ∧
                       abs (mem (snd s')) = reloaded <$> abs (mem (snd s))) s2.
Proof.
  intros Hwf Hsafe Hp Hs0 Hs1 Hwf2 Hcf Hfiles Hnf. set (m := mem (snd s)) in *.
  pose proof (synced_disk_values s p0 p1 Hwf Hsafe Hs0 Hs1) as Hdv. fold m in Hdv.
  assert (locations (conf (snd s2)) = [(1, p0); (2, p1)]%Z) as Eloc by (rewrite Hcf; unfold locations; by rewrite Hp).
  set (vs := (_ ++ _)%list) in Hdv.
  assert (∀ c, c ∈ vs ↔ ∃ d, d ∈ reg_values (reg m) ∧ c = reloaded d) as Hvs.
  { intros c. unfold vs. rewrite elem_of_app, !list_elem_of_fmap. setoid_rewrite in_location_elem. split.
    - intros [(d & -> & [? _])|(d & -> & [? _])]; eauto.
    - intros (d & Hd & ->). unfold containerLocation, stableContainerLocation, volatileContainerLocation.
      destruct (volatileStore d) eqn:Ev; [right|left]; exists d; by rewrite Ev. }
  unfold load, load_body, getR, getMem. wp_step. wp_step. wp_step. wp_step. wp_step. rewrite Eloc.
  eapply wp_mono; [by apply (load_files_wp (λ _, True))|]. rewrite Hfiles.
  intros o s3 (Hr & Ho).
  destruct o as [[cs ids]|e|k]; [|destruct Ho as [_ Ho]; specialize (Ho Hnf); congruence..].
  destruct Ho as (vs' & Hl & _ & Hvs'). specialize (Hvs' Hnf). rewrite Hdv in Hvs'. injection Hvs' as <-.
  assert (Forall (λ c, NoDup (Names c)) vs) as Hnd.
  { apply Forall_forall. intros c (d & (p & Hpo & Hd)%reg_values_elem & ->)%Hvs. exact (mem_nodup _ Hwf p d Hpo Hd). }
  destruct (loaded_clean _ _ _ _ Hl Hnd) as [Hcl Habs].
  { intros c d n (c' & Hc' & ->)%Hvs (d' & Hd' & ->)%Hvs Hne Hnc Hnd'. apply Hne. simpl in *.
    by rewrite (reg_values_names (reg m) c' d' n (mem_reg _ Hwf)). }
  wp_step. wp_step. wp_step. wp_step. unfold modMem. wp_step. wp_step. rewrite Hcl. wp_step. wp_step.
  fold (loaded_mem cs ids (mem (snd s3))). split; [done|].
  split; [by apply (loaded_mem_wf cs ids vs)|].
  apply map_eq. intros i. apply option_eq. intros c. cbn [snd mem set_mem].
  etrans; [apply Habs|]. rewrite lookup_fmap_Some, Hvs. split.
  - intros [(d & Hd & ->) Hi]. exists d. split; [done|]. by apply (reg_abs_values (reg m) _ _ (mem_reg _ Hwf)).
  - intros (d & <- & [Hd Hi]%(reg_abs_values (reg m) _ _ (mem_reg _ Hwf))). by eauto.
Qed.
End Invariant.

(** ** Theorems *)

Section Theorems.
Context {T : Type} `{PatriciaTrieSpec T} {IS : Type} `{IntervalSet IS}.
Context `{ContainerJSONSpec} `{Digests} `{MapRange}.
Context (fuel : nat).
Notation St := (World * rstore containerConf (containerMem T))%type.
Implicit Types (s : St).

(** Running a sequence of methods, each from where the one before ended. *)
Definition exec (ops : list op) (s : St) : St :=
  foldl (λ s o, fst (run_op (T := T) (IS := IS) fuel o s)) s ops.

(** The states that the use of the store from [s] leads to: its methods, in any
    order, each with whatever result; loading the files, provided that none of
    their records has a name twice; and in between changes of everything but
    the index, by locking and by other processes. *)
Inductive reached (s : St) : St → Prop :=
  | reached_start : reached s s
  | reached_op o s' : reached s s' → reached s (fst (run_op (T := T) (IS := IS) fuel o s'))
  | reached_load b s' : reached s s' → disk_ok s' → reached s (fst (load b s'))
  | reached_outside s' s'' : reached s s' → mem (snd s'') = mem (snd s') → reached s s''.

Lemma reached_exec ops s s' : reached s s' → reached s (exec ops s').
Proof. unfold exec. revert s'. induction ops as [|o ops IH]; intros s' Hr; [done|]. simpl. by apply IH, reached_op. Qed.

(** C1: The index of the container store stays consistent: after any sequence
    of its methods and of loads of files in which no single record has a name
    twice, with any changes of the files and the locks in between, whatever
    system calls fail and however each call ends, every identifier and every
    name leads to exactly the container that has it, no name has two holders,
    [bylayer] only leads to containers with that layer, and the prefix index
    holds exactly the valid identifiers. *)
Theorem containers_invariant s s' :
  mem_wf (mem (snd s)) → reached s s' → mem_wf (mem (snd s')).
Proof.
  intros Hwf. induction 1 as [|o s' _ IH|b s' _ IH Hd|s' s'' _ IH E]; [done|by apply kept_run_op|by apply load_wp|by rewrite E].
Qed.

(** [create] adds exactly the container it describes, with its big data,
    or changes nothing: if it returns, the identifier and the names were free
    and the mappings do not overlap, and the store has one more record, whose
    copy is returned; if it fails at any point, also after it had added the
    record, the store has the records it had before. *)
Theorem create_spec id names image layer options s :
  mem_wf (mem (snd s)) →
  let '(s', o) := create (IS := IS) fuel id names image layer options s in
  create_post (IS := IS) id names image layer options s o s'.
Proof.
  intros Hwf. pose proof (create_wp (IS := IS) fuel id names image layer options s Hwf) as Hc.
  unfold wp in Hc. by destruct (create _ _ _ _ _ _ s).
Qed.

(** [create] refuses an identifier or a name that is in use, and leaves
    the store and the disk as they are. *)
Theorem create_rejects id names image layer options s :
  mem_wf (mem (snd s)) → id ≠ "" →
  is_Some (abs (mem (snd s)) !! id) ∨ (∃ n, n ∈ names ∧ is_Some (byname (reg (mem (snd s))) !! n)) →
  create (IS := IS) fuel id names image layer options s =
    (s, Err (if decide (is_Some (abs (mem (snd s)) !! id)) then ErrDuplicateID else ErrDuplicateName)).
Proof.
  intros Hwf Hid Huse. unfold create. rewrite decide_False by done.
  unfold getMem, gets, mret, M_ret, mbind, M_bind, fail.
  assert (is_Some (byid (reg (mem (snd s))) !! id) ↔ is_Some (abs (mem (snd s)) !! id)) as Hiff.
  { unfold abs, reg_abs. rewrite lookup_omap. split.
    - intros [p Hp]. destruct (wf_deref _ _ _ (mem_reg _ Hwf) Hp) as (c & Hc & _). rewrite Hp. simpl. eauto.
    - destruct (byid _ !! id); [eauto|]. by intros [? ?]. }
  destruct (decide (is_Some (byid _ !! id))) as [Hs|Hs].
  - by rewrite decide_True by (by apply Hiff).
  - rewrite decide_True; [|apply Exists_exists].
    + rewrite decide_False by (by rewrite <- Hiff). done.
    + destruct Huse as [?%Hiff|(n & Hn & Hb)]; [done|]. exists n. split; [by apply elem_of_dedupeStrings|done].
Qed.

(** [Delete] of a container that is found removes it, and only it, from
    memory, whether or not the files can be updated; of one that is not found
    it returns [ErrContainerUnknown] and changes nothing. *)
Theorem Delete_removes id s :
  mem_wf (mem (snd s)) →
  let '(s', o) := Delete id s in
  match find (mem (snd s)) id with
  | Some p => ∃ c, heap (reg (mem (snd s))) !! p = Some c ∧
                   abs (mem (snd s')) = delete (ID c) (abs (mem (snd s)))
  | None => o = Err ErrContainerUnknown ∧ s' = s
  end.
Proof.
  intros Hwf. pose proof (Delete_wp id s Hwf) as Hd. unfold wp in Hd.
  destruct (Delete id s). by destruct Hd.
Qed.

Lemma abs_find_id m i c :
  mem_wf m → abs m !! i = Some c →
  ∃ p, find m i = Some p ∧ heap (reg m) !! p = Some c ∧
       ∀ n, n ∈ Names c → abs m !! n = None → find m n = Some p.
Proof.
  intros Hwf Hc. destruct (abs_find m i c Hwf Hc) as (p & Hp & Ho & Hh & _). exists p. split; [done|].
  split; [done|]. intros n Hn Hnone. unfold find, reg_lookup.
  assert (byid (reg m) !! n = None) as ->.
  { unfold abs, reg_abs in Hnone. rewrite lookup_omap in Hnone.
    destruct (byid (reg m) !! n) as [q|] eqn:Eq; [|done].
    destruct (wf_deref _ _ _ (mem_reg _ Hwf) Eq) as (d & Hd & _). simpl in Hnone. congruence. }
  assert (byname (reg m) !! n = Some p) as ->; [|done].
  apply (wf_byname _ (mem_reg _ Hwf)). eauto.
Qed.

(** [updateNames] gives the container exactly the names the operation
    asks for and takes them from whoever had them; no other record changes, and
    afterwards each of these names leads to the container (unless it is an
    identifier itself). *)
Theorem updateNames_spec id names op s p c names' :
  mem_wf (mem (snd s)) → find (mem (snd s)) id = Some p → heap (reg (mem (snd s))) !! p = Some c →
  applyNameOperation (Names c) names op = inl names' →
  let m' := mem (snd (fst (updateNames id names op s))) in
  abs m' = <[ID c := set_Names names' c]> (strip names' <$> abs (mem (snd s))) ∧
  ∀ n, n ∈ names' → abs (mem (snd s)) !! n = None → find m' n = find m' (ID c).
Proof.
  intros Hwf Hp Hc Hop m'. destruct (updateNames_wp id names op s Hwf) as [Hwf' Hm]. rewrite Hp in Hm.
  destruct Hm as (c' & Hc' & Hm). rewrite Hc in Hc'. injection Hc' as <-. rewrite Hop in Hm. fold m' in Hwf', Hm.
  split; [done|]. intros n Hn Hnone.
  destruct (abs_find_id m' (ID c) (set_Names names' c) Hwf') as (q & -> & _ & Hq).
  { by rewrite Hm, lookup_insert_eq. }
  apply Hq; [done|]. rewrite Hm. destruct (decide (n = ID c)) as [->|Hne].
  - exfalso. destruct (find_some _ _ _ Hwf Hp) as [Ho _].
    assert (abs (mem (snd s)) !! ID c = Some c) as E; [|congruence].
    apply (reg_abs_lookup _ _ _ (mem_reg _ Hwf)). by exists p.
  - by rewrite lookup_insert_ne, lookup_fmap, Hnone.
Qed.

(** How an attempt to lock the store may end: with its locks in the state
    [taken], from which [release] frees them, or with nothing held. *)
Definition settled (taken : rstore containerConf (containerMem T) → Prop) (release : M St unit)
    (run : St * outcome unit) : Prop :=
  let '((_, r'), o) := run in
  match o with
  | Ret _ => taken r' ∧ ∀ w', ∃ r'', release (w', r') = ((w', r''), Ret tt) ∧ unlocked r''
  | Err _ => unlocked r'
  | Crash k => k ≠ Deadlock
  end.

(** Locking the store: from an unlocked store, [startWriting] and
    [startReading] end with both locks held in the right mode, or with an error
    and both locks released; they never wait for a lock of their own, and
    [stopWriting] and [stopReading] release what they took. *)
Theorem containers_lock_discipline w (r : rstore containerConf (containerMem T)) :
  unlocked r →
  settled writing stopWriting (startWriting (w, r)) ∧ settled reading stopReading (startReading (w, r)).
Proof.
  intros Hu. split.
  - pose proof (startWriting_wp load load_neutral true w r Hu) as Hw. unfold wp in Hw.
    unfold startWriting, StoreLock.startWriting.
    destruct (StoreLock.startWritingWithReload load true (w, r)) as [[w1 r1] [[]|e|k]]; try exact Hw.
    split; [exact Hw|]. intros w'. pose proof (stopWriting_wp w' r1 Hw) as Hs. unfold wp in Hs.
    unfold stopWriting. destruct (StoreLock.stopWriting (w', r1)) as [[w2 r2] o]. simpl in Hs.
    destruct Hs as (-> & ? & _ & ->). eauto.
  - pose proof (startReading_wp load load_neutral true w r Hu) as Hw. unfold wp in Hw.
    unfold startReading, StoreLock.startReading.
    destruct (StoreLock.startReadingWithReload load true (w, r)) as [[w1 r1] [[]|e|k]]; try exact Hw.
    split; [exact Hw|]. intros w'. pose proof (stopReading_wp w' r1 Hw) as Hs. unfold wp in Hs.
    unfold stopReading. destruct (StoreLock.stopReading (w', r1)) as [[w2 r2] o]. simpl in Hs.
    destruct Hs as (-> & ? & _ & ->). eauto.
Qed.

(** [load] builds a consistent index from whatever the files hold, also
    when several containers claim a name, as long as no single record has a
    name twice; an error or a crash leaves the index consistent too. *)
Theorem load_establishes_invariant b s :
  mem_wf (mem (snd s)) → disk_ok s → mem_wf (mem (snd (fst (load b s)))).
Proof. intros Hwf Hd. exact (load_wp b s Hwf Hd). Qed.

(** Saving and loading: after a successful [save] of both locations, any
    store on the same files that loads them, for reading or writing, gets
    exactly the containers that were saved, each in the location it was in;
    a record only loses what JSON does not keep. *)
Theorem save_load_roundtrip s s1 p0 p1 b (s2 : St) :
  mem_wf (mem (snd s)) → paths_ok (snd s) p0 p1 →
  Forall (λ c, json_safe c = true) (reg_values (reg (mem (snd s)))) →
  save (Z.lor stableContainerLocation volatileContainerLocation) s = (s1, Ret tt) →
  mem_wf (mem (snd s2)) → conf (snd s2) = conf (snd s) →
  w_files (fst s2) = w_files (fst s1) → w_faults (fst s2) = [] →
  let '(s', o) := load b s2 in
  o = Ret (false, None) ∧ abs (mem (snd s')) = reloaded <$> abs (mem (snd s)).
Proof.
  intros Hwf Hp Hsafe Hsave Hwf2 Hcf Hf Hnf.
  destruct (save_ret p0 p1 _ s s1 Hp Hsave) as ((Em & Ec & _) & _ & Hs0 & Hs1 & _).
  rewrite <- Em in Hwf, Hsafe |- *. rewrite <- Ec in Hcf. destruct Hp as (Hp & _). rewrite <- Ec in Hp.
  pose proof (load_synced_wp s1 p0 p1 b s2 Hwf Hsafe Hp (Hs0 ltac:(done)) (Hs1 ltac:(done)) Hwf2 Hcf Hf Hnf) as Hl.
  unfold wp in Hl. destruct (load b s2) as [s' o]. destruct Hl as (? & _ & ?). by split.
Qed.

(** Look-up: a container is found by its identifier, by each of its names
    that is not an identifier, and by any prefix that no identifier, name or
    layer equals and that no other valid identifier has. *)
Theorem find_spec (m : containerMem T) i c :
  mem_wf m → abs m !! i = Some c →
  ∃ p, heap (reg m) !! p = Some c ∧ find m i = Some p ∧
    (∀ n, n ∈ Names c → abs m !! n = None → find m n = Some p) ∧
    (∀ q, q ≠ "" → String.prefix q i = true → TruncIndex.valid i →
          abs m !! q = None → byname (reg m) !! q = None → bylayer m !! q = None →
          (∀ j, is_Some (abs m !! j) → TruncIndex.valid j → String.prefix q j = true → j = i) →
          find m q = Some p).
Proof.
  intros Hwf Hc. destruct (abs_find_id m i c Hwf Hc) as (p & Hp & Hh & Hn). exists p.
  split; [done|]. split; [done|]. split; [done|]. intros q Hs Hpre Hv H1' H2' H3' Huniq.
  pose proof (mem_reg _ Hwf) as Hr.
  assert (∀ j, is_Some (byid (reg m) !! j) ↔ is_Some (abs m !! j)) as Hiff.
  { intros j. unfold abs, reg_abs. rewrite lookup_omap. split.
    - intros [q' Hq]. destruct (wf_deref _ _ _ Hr Hq) as (d & Hd & _). rewrite Hq. simpl. eauto.
    - destruct (byid _ !! j); [eauto|]. by intros [? ?]. }
  assert (byid (reg m) !! q = None) as E1.
  { apply eq_None_not_Some. rewrite Hiff, H1'. by intros [? ?]. }
  assert (byid (reg m) !! i = Some p) as Ei.
  { destruct (proj2 (Hiff i) ltac:(eauto)) as [q' Hq]. apply find_id in Hq as Hq'. congruence. }
  unfold find, reg_lookup. rewrite E1, H2', H3'.
  assert (TruncIndex.Get (idindex (reg m)) q = inl i) as ->; [|done].
  apply TruncIndex.Get_inl; [apply Hr|]. split; [done|]. rewrite (wf_ids _ Hr). split; [eauto|].
  split; [done|]. intros j [Hj Hvj]%(wf_ids _ Hr) Hpj. apply Huniq; [by apply Hiff|done|done].
Qed.

Lemma deref_ret p s s1 c : deref p s = (s1, Ret c) → s1 = s ∧ heap (reg (mem (snd s))) !! p = Some c.
Proof.
  unfold deref, getMem, gets, mbind, M_bind. destruct (heap _ !! p) as [c'|]; [|done]. by intros [= <- <-].
Qed.

Lemma lookup_ret id s s1 p : lookup id s = (s1, Ret p) → s1 = s ∧ find (mem (snd s)) id = Some p.
Proof.
  unfold lookup, getMem, gets, mbind, M_bind. destruct (find _ id) as [q|]; [|done]. by intros [= <- <-].
Qed.

Lemma SetBigData_file id key data s s' p c p0 p1 :
  paths_ok (snd s) p0 p1 → find (mem (snd s)) id = Some p → heap (reg (mem (snd s))) !! p = Some c →
  datapath (conf (snd s)) (ID c) key ∉ [file (lockfile (snd s)); p0; p1] →
  SetBigData id key data s = (s', Ret tt) →
  key ≠ "" ∧ w_files (fst s') !! datapath (conf (snd s)) (ID c) key = Some data.
Proof.
  intros Hp Hf Hc Hpath Hrun. unfold SetBigData in Hrun. destruct (decide (key = "")) as [|Hk]; [done|].
  split; [done|].
  apply run_bind_ret in Hrun as (sa & p' & [-> Ha]%lookup_ret & Hrun).
  rewrite Hf in Ha. injection Ha as <-.
  apply run_bind_ret in Hrun as (sb & c' & [-> Hb]%deref_ret & Hrun).
  rewrite Hc in Hb. injection Hb as <-.
  apply run_bind_ret in Hrun as (sc & cf & Hcf & Hrun). injection Hcf as <- <-.
  apply run_bind_ret in Hrun as (s1 & [] & H1' & Hrun). apply run_bind_ret in Hrun as (s2 & [] & H2' & Hrun).
  pose proof (AtomicWriteFile_ret _ _ _ _ H2') as Hfile.
  pose proof (same_lock_inWorld (os_MkdirAll (datadir (conf (snd s)) (ID c))) s) as L1. rewrite H1' in L1.
  pose proof (same_lock_inWorld (AtomicWriteFile (datapath (conf (snd s)) (ID c) key) data) s1) as L2.
  rewrite H2' in L2. pose proof (same_lock_trans _ _ _ L1 L2) as (El & Ec & _). simpl in El, Ec.
  cbv zeta in Hrun. rewrite !gomap_ensure_default in Hrun. cbn [gomap_set] in Hrun.
  apply run_bind_ret in Hrun as (s3 & sizes & H3' & Hrun). cbv [gomap_set mret M_ret] in H3'. injection H3' as <- <-.
  apply run_bind_ret in Hrun as (s4 & digests & H4' & Hrun). cbv [gomap_set mret M_ret] in H4'. injection H4' as <- <-.
  apply run_bind_ret in Hrun as (s5 & [] & H5' & Hrun). injection H5' as <-.
  destruct (_ || _); [|by injection Hrun as <-].
  apply run_bind_ret in Hrun as (s6 & c6 & [-> _]%deref_ret & Hrun).
  apply (save_ret p0 p1) in Hrun as (_ & Ht & _).
  - rewrite Ht; [exact Hfile|]. simpl. by rewrite El.
  - destruct Hp as (? & ? & ? & ?). unfold paths_ok. simpl. rewrite El, Ec. done.
Qed.

(** A big-data item that was stored is what is read back: after
    [SetBigData] returned, [BigData] gives the data, [BigDataSize] its length
    and [BigDataDigest] its digest, as long as the item's file is not one of
    the store's own files. *)
Theorem bigdata_roundtrip id key data s s' p c p0 p1 :
  mem_wf (mem (snd s)) → paths_ok (snd s) p0 p1 →
  find (mem (snd s)) id = Some p → heap (reg (mem (snd s))) !! p = Some c →
  datapath (conf (snd s)) (ID c) key ∉ [file (lockfile (snd s)); p0; p1] →
  SetBigData id key data s = (s', Ret tt) → w_faults (fst s') = [] →
  BigData id key s' = (s', Ret data) ∧
  BigDataSize id key s' = (s', Ret (Z.of_nat (String.length data))) ∧
  BigDataDigest id key s' = (s', Ret (FromBytes data)).
Proof.
  intros Hwf Hp Hf Hc Hpath Hrun Hnf.
  destruct (SetBigData_file id key data s s' p c p0 p1 Hp Hf Hc Hpath Hrun) as [Hk Hfile].
  pose proof (SetBigData_wp id key data s Hwf) as Hwp. unfold wp in Hwp. rewrite Hrun in Hwp.
  destruct Hwp as (_ & Ecf & Hu). destruct (Hu (ex_intro _ tt eq_refl)) as (_ & p' & c' & Hf' & Hc' & Em & _).
  rewrite Hf in Hf'. injection Hf' as <-. rewrite Hc in Hc'. injection Hc' as <-. simpl in Em, Ecf.
  assert (find (mem (snd s')) id = Some p) as Ef by (rewrite Em; exact Hf).
  assert (heap (reg (mem (snd s'))) !! p = Some (add_big_data key data c)) as Eh.
  { rewrite Em. simpl. by rewrite lookup_alter_eq, Hc. }
  assert (lookup id s' = (s', Ret p)) as Hl.
  { unfold lookup, getMem, gets, mbind, M_bind. by rewrite Ef. }
  assert (deref p s' = (s', Ret (add_big_data key data c))) as Hd.
  { unfold deref, getMem, gets, mbind, M_bind. by rewrite Eh. }
  assert (∀ V (get : Container → gomap V) e v, gomap_get (get (add_big_data key data c)) key = Some v →
    bigDataValue get e id key s' = (s', Ret v)) as Hval.
  { intros V get e v Hv. unfold bigDataValue. rewrite decide_False by done. unfold mbind, M_bind.
    rewrite Hl, Hd, Hv. done. }
  split_and!.
  - unfold BigData. rewrite decide_False by done. unfold mbind, M_bind. rewrite Hl, Hd.
    unfold getR, gets, inWorld, zoom, os_ReadFile, syscall, pop_fault, mbind, M_bind.
    rewrite Ecf. simpl. rewrite Hnf. simpl. rewrite Hfile. simpl. by destruct s'.
  - apply Hval. apply lookup_insert_eq.
  - apply Hval. apply lookup_insert_eq.
Qed.
End Theorems.

(** ** Runs of the model *)

(** A digest function and an empty store, locked for writing, in the
    directory [/s]. *)
#[local] Instance demo_digests : Digests := {
  FromBytes d := "sha256:" +:+ hex_encode d; ValidateDigest d := None
}.

Notation demo_st := (World * rstore containerConf (containerMem (gset string)))%type.
Notation create' := (create (T := gset string) (IS := ListSet.list_set) 8).

Definition demo_conf : containerConf := mkConf "/s" ["/s/containers.json"; "/s/volatile-containers.json"].

Definition demo_empty : demo_st :=
  (demo_world, mkStore (mkLockFile "/s/containers.lock" false MWriter 1 (mkLastWrite None) WriteLock true)
                 demo_conf MWriter (mkLastWrite (Some "")) (mkMem reg_empty ∅)).

Definition volatile_options : ContainerOptions := mkContainerOptions [] [] None None true "" [].

Notation exec' := (exec (T := gset string) (IS := ListSet.list_set) 8).

(** A stable container [a1] named [x] and a volatile one, [b2], named [y]. *)
Definition demo_ops : list op :=
  [OpCreate "a1" ["x"; "x"] "img" "layer-a" None;
   OpCreate "b2" ["y"] "img" "layer-b" (Some volatile_options)].

Definition demo_two : demo_st := exec' demo_ops demo_empty.

Lemma demo_empty_wf : mem_wf (mem (snd demo_empty)).
Proof. apply mem_wf_empty. Qed.

Lemma demo_two_wf : mem_wf (mem (snd demo_two)).
Proof. unfold demo_two, exec, demo_ops. cbn [foldl]. apply kept_run_op, kept_run_op, demo_empty_wf. Qed.

Lemma create_spec_witness :
  snd (create' "c3" ["z"] "img" "layer-c" None demo_two) =
    Ret (mkContainer "c3" ["z"] "img" "layer-c" "" [] None None 0 [] [] None false) ∧
  (let '(s', o) := create' "c3" ["z"] "img" "layer-c" None demo_two in
   create_post (IS := ListSet.list_set) "c3" ["z"] "img" "layer-c" None demo_two o s').
Proof. split; [by vm_compute|]. apply create_spec, demo_two_wf. Defined.

Lemma create_rejects_witness :
  create' "c3" ["y"] "img" "layer-c" None demo_two = (demo_two, Err ErrDuplicateName).
Proof.
  etrans; [apply create_rejects; [apply demo_two_wf|done|]|].
  - right. exists "y". split; [left|by vm_compute; eexists].
  - f_equal.
Defined.

Lemma Delete_removes_witness :
  let '(s', o) := Delete "y" demo_two in
  match find (mem (snd demo_two)) "y" with
  | Some p => ∃ c, heap (reg (mem (snd demo_two))) !! p = Some c ∧
                   abs (mem (snd s')) = delete (ID c) (abs (mem (snd demo_two)))
  | None => o = Err ErrContainerUnknown ∧ s' = demo_two
  end.
Proof. apply Delete_removes, demo_two_wf. Defined.

Lemma updateNames_spec_witness :
  ∃ p c, find (mem (snd demo_two)) "a1" = Some p ∧ heap (reg (mem (snd demo_two))) !! p = Some c ∧
    let m' := mem (snd (fst (updateNames "a1" ["y"] addNames demo_two))) in
    abs m' = <[ID c := set_Names ["y"; "x"] c]> (strip ["y"; "x"] <$> abs (mem (snd demo_two))) ∧
    ∀ n, n ∈ ["y"; "x"] → abs (mem (snd demo_two)) !! n = None → find m' n = find m' (ID c).
Proof.
  exists 1%positive. eexists. split; [by vm_compute|]. split; [by vm_compute|].
  apply (updateNames_spec "a1" ["y"] addNames demo_two 1); [apply demo_two_wf|by vm_compute..].
Defined.

Definition demo_unlocked : rstore containerConf (containerMem (gset string)) :=
  mkStore (mkLockFile "/s/containers.lock" false MFree 0 (mkLastWrite None) WriteLock false)
    demo_conf MFree (mkLastWrite (Some "")) (mkMem reg_empty ∅).

Lemma containers_lock_discipline_witness :
  (let '((_, r'), o) := startWriting (demo_world, demo_unlocked) in o = Ret tt ∧ writing r') ∧
  (let '((_, r'), o) := startReading (demo_world, demo_unlocked) in o = Ret tt ∧ reading r').
Proof.
  destruct (containers_lock_discipline demo_world demo_unlocked) as [Hw Hr]; [done|].
  assert (snd (startWriting (demo_world, demo_unlocked)) = Ret tt) as E1 by (by vm_compute).
  assert (snd (startReading (demo_world, demo_unlocked)) = Ret tt) as E2 by (by vm_compute).
  destruct (startWriting _) as [[w1 r1] o1]. destruct (startReading _) as [[w2 r2] o2].
  simpl in E1, E2. subst o1 o2. destruct Hw as [Hw _], Hr as [Hr _]. done.
Defined.

(** A decidable form of [disk_ok]. *)
Definition disk_okb (s : demo_st) : bool :=
  forallb (λ '(_, rpath), match file_records (w_files (fst s)) rpath with
                          | Some l => forallb (λ oc, match oc with Some c => bool_decide (NoDup (Names c)) | None => true end) l
                          | None => true
                          end) (locations (conf (snd s))).

Lemma disk_okb_ok s : disk_okb s = true → disk_ok s.
Proof.
  unfold disk_okb, disk_ok, disk_all. rewrite forallb_forall. intros Hb location rpath l c Hin Hl Hc.
  specialize (Hb (location, rpath) (proj1 (list_elem_of_In _ _) Hin)). simpl in Hb. rewrite Hl, forallb_forall in Hb.
  specialize (Hb (Some c) (proj1 (list_elem_of_In _ _) Hc)). simpl in Hb. by apply bool_decide_eq_true in Hb.
Qed.

(** Two containers, of which one loses its name and the other is deleted, and
    then the files as they are loaded again. *)
Lemma containers_invariant_witness :
  let s := exec' (demo_ops ++ [OpUpdateNames "a1" ["y"] addNames; OpDelete "b2"]) demo_empty in
  disk_ok s ∧ abs (mem (snd (fst (load true s)))) !! "a1" ≠ None ∧ mem_wf (mem (snd (fst (load true s)))).
Proof.
  intros s. assert (disk_ok s) as Hd by (apply disk_okb_ok; by vm_compute). split; [done|]. split; [by vm_compute|].
  apply (containers_invariant (IS := ListSet.list_set) 8 demo_empty); [apply demo_empty_wf|].
  apply reached_load; [apply reached_exec, reached_start|done].
Defined.

Lemma load_establishes_invariant_witness :
  disk_ok demo_two ∧ mem_wf (mem (snd (fst (load true demo_two)))).
Proof.
  assert (disk_ok demo_two) as Hd by (apply disk_okb_ok; by vm_compute).
  split; [done|]. apply load_establishes_invariant; [apply demo_two_wf|done].
Defined.

Lemma demo_two_paths : paths_ok (snd demo_two) "/s/containers.json" "/s/volatile-containers.json".
Proof. by vm_compute. Qed.
Lemma demo_two_safe : Forall (λ c, json_safe c = true) (reg_values (reg (mem (snd demo_two)))).
Proof. apply (bool_decide_unpack _). by vm_compute. Qed.
Lemma demo_two_conf : conf (snd demo_empty) = conf (snd demo_two).
Proof. by vm_compute. Qed.

(** The end of a run whose outcome and remaining script were evaluated. *)
Lemma run_end {A} (m : M demo_st A) s (a : A) :
  snd (m s) = Ret a → w_faults (fst (fst (m s))) = [] →
  ∃ s', m s = (s', Ret a) ∧ w_faults (fst s') = [].
Proof. destruct (m s) as [s' o]. simpl. intros -> ?. eauto. Qed.

Lemma save_load_roundtrip_witness :
  ∃ s1, save 3 demo_two = (s1, Ret tt) ∧
    let '(s', o) := load false (fst s1, snd demo_empty) in
    o = Ret (false, None) ∧ abs (mem (snd s')) = reloaded <$> abs (mem (snd demo_two)).
Proof.
  destruct (run_end (save 3) demo_two tt) as (s1 & E & Hnf); [by vm_compute..|].
  exists s1. split; [exact E|].
  exact (save_load_roundtrip demo_two s1 _ _ false (fst s1, snd demo_empty) demo_two_wf demo_two_paths
           demo_two_safe E demo_empty_wf demo_two_conf eq_refl Hnf).
Defined.

Lemma find_spec_witness :
  ∃ c p, abs (mem (snd demo_two)) !! "b2" = Some c ∧ find (mem (snd demo_two)) "b2" = Some p ∧
         find (mem (snd demo_two)) "y" = Some p.
Proof.
  assert (∃ c, abs (mem (snd demo_two)) !! "b2" = Some c ∧ Names c = ["y"]) as (c & Hc & Hn)
    by (eexists; split; by vm_compute).
  destruct (find_spec (mem (snd demo_two)) "b2" c demo_two_wf Hc) as (p & _ & Hp & Hy & _).
  exists c, p. split; [done|]. split; [done|]. apply Hy; [rewrite Hn; left|by vm_compute].
Defined.

Lemma demo_two_x :
  find (mem (snd demo_two)) "x" = Some 1%positive ∧
  ∃ c, heap (reg (mem (snd demo_two))) !! 1%positive = Some c ∧
    datapath (conf (snd demo_two)) (ID c) "config" ∉
      [file (lockfile (snd demo_two)); "/s/containers.json"; "/s/volatile-containers.json"].
Proof. split; [by vm_compute|]. eexists. split; [by vm_compute|]. apply (bool_decide_unpack _). by vm_compute. Qed.

Lemma bigdata_roundtrip_witness :
  ∃ s', SetBigData "x" "config" "hello" demo_two = (s', Ret tt) ∧
    BigData "x" "config" s' = (s', Ret "hello") ∧ BigDataSize "x" "config" s' = (s', Ret 5%Z) ∧
    BigDataDigest "x" "config" s' = (s', Ret "sha256:68656c6c6f").
Proof.
  destruct demo_two_x as (Hf & c & Hc & Hp).
  destruct (run_end (SetBigData "x" "config" "hello") demo_two tt) as (s' & E & Hnf); [by vm_compute..|].
  exists s'. split; [exact E|].
  exact (bigdata_roundtrip "x" "config" "hello" demo_two s' 1 c _ _ demo_two_wf demo_two_paths Hf Hc Hp E Hnf).
Defined.

(** ** Names that cross the two files *)

(** What [Lookup] answers. *)
Definition looked_up (name : string) (s : demo_st) : outcome string := snd (Lookup name s).

(** A volatile container [v] named [n] and a stable one, [s], without names. *)
Definition demo_volatile_named : demo_st :=
  exec' [OpCreate "v" ["n"] "img" "layer-v" (Some volatile_options); OpCreate "s" [] "img" "layer-s" None] demo_empty.

(** A stable container [s] named [n] and a volatile one, [v], without names. *)
Definition demo_stable_named : demo_st :=
  exec' [OpCreate "s" ["n"] "img" "layer-s" None; OpCreate "v" [] "img" "layer-v" (Some volatile_options)] demo_empty.

(** A name that moves from a volatile to a stable container does not stay
    there: [updateNames] only writes the file of the container that got the name,
    so the other file still gives it to the old holder, and a store that loads
    both files finds the name there again. *)
Theorem updateNames_undone_by_reload :
  let '(s1, o1) := updateNames "s" ["n"] addNames demo_volatile_named in
  let '(s2, o2) := load true (fst s1, snd demo_empty) in
  o1 = Ret tt ∧ looked_up "n" s1 = Ret "s" ∧ o2 = Ret (false, None) ∧ looked_up "n" s2 = Ret "v".
Proof. by vm_compute. Qed.

(** When [load] resolves a conflict between the two files it saves the
    file of the container that keeps the name, not of the one that loses it: the
    conflict is still on disk, and the next reader finds it again. *)
Theorem load_conflict_not_resolved :
  let '(s1, o1) := updateNames "v" ["n"] addNames demo_stable_named in
  let '(s2, o2) := load true (fst s1, snd demo_empty) in
  let '(_, o3) := load false (fst s2, snd demo_empty) in
  o1 = Ret tt ∧ o2 = Ret (false, None) ∧ o3 = Ret (true, Some ErrInconsistent).
Proof. by vm_compute. Qed.

(** A process without lock files yet, in which reading the last-write token
    of a new store fails. *)
Definition demo_token_fault : LockTable :=
  (set_faults [NoFault; NoFault; NoFault; NoFault; FailWith EIO] demo_world, ∅).

(** [newContainerStore] returns with the lock held when it cannot read the
    last write: the next attempt in the same process waits for ever. *)
Theorem newContainerStore_keeps_lock :
  let '(t1, o1) := newContainerStore (T := gset string) "/s" "/r" false demo_token_fault in
  let '(_, o2) := newContainerStore (T := gset string) "/s" "/r" false t1 in
  o1 = Err (ErrOS EIO) ∧ locked <$> snd t1 !! "/s/containers.lock" = Some true ∧ o2 = Crash Deadlock.
Proof. by vm_compute. Qed.

End ContainerFacts.
