(* ===== verification/ImageStore.v ===== *)
(** * storage/images.go: the store of images

    [imageStore] with all its methods.  As for containers, the records are in
    a [registry] and the locking methods are those of [StoreLock] over [load];
    images are also indexed by the digests of their manifests, and a store can
    be read-only. *)

From S2P Require Import Prelude World StoreUtil Strconv StringId Codec Json TruncIndex LockFile StoreLock StoreDisk Registry.

Local Open Scope string_scope.

Module Images.

(** ** Data *)

Definition ImageDigestManifestBigDataNamePrefix := "manifest".

Record Image := mkImage {
  ID : string;
  Digest : string;
  i_Digests : list string;
  Names : list string;
  NamesHistory : list string;
  TopLayer : string;
  MappedTopLayers : list string;
  i_Metadata : string;
  i_BigDataNames : list string;
  BigDataSizes : gomap Z;
  BigDataDigests : gomap string;
  Created : Z;
  ReadOnly : bool;
  Flags : gomap any
}.

#[global] Instance Image_eq_dec : EqDecision Image.
Proof. solve_decision. Defined.

Definition set_Digests (d : string) (l : list string) (i : Image) : Image :=
  mkImage (ID i) d l (Names i) (NamesHistory i) (TopLayer i) (MappedTopLayers i) (i_Metadata i)
    (i_BigDataNames i) (BigDataSizes i) (BigDataDigests i) (Created i) (ReadOnly i) (Flags i).
Definition set_Names (l : list string) (i : Image) : Image :=
  mkImage (ID i) (Digest i) (i_Digests i) l (NamesHistory i) (TopLayer i) (MappedTopLayers i) (i_Metadata i)
    (i_BigDataNames i) (BigDataSizes i) (BigDataDigests i) (Created i) (ReadOnly i) (Flags i).
Definition set_NamesHistory (l : list string) (i : Image) : Image :=
  mkImage (ID i) (Digest i) (i_Digests i) (Names i) l (TopLayer i) (MappedTopLayers i) (i_Metadata i)
    (i_BigDataNames i) (BigDataSizes i) (BigDataDigests i) (Created i) (ReadOnly i) (Flags i).
Definition set_MappedTopLayers (l : list string) (i : Image) : Image :=
  mkImage (ID i) (Digest i) (i_Digests i) (Names i) (NamesHistory i) (TopLayer i) l (i_Metadata i)
    (i_BigDataNames i) (BigDataSizes i) (BigDataDigests i) (Created i) (ReadOnly i) (Flags i).
Definition set_Metadata (m : string) (i : Image) : Image :=
  mkImage (ID i) (Digest i) (i_Digests i) (Names i) (NamesHistory i) (TopLayer i) (MappedTopLayers i) m
    (i_BigDataNames i) (BigDataSizes i) (BigDataDigests i) (Created i) (ReadOnly i) (Flags i).
Definition set_BigData (names : list string) (sizes : gomap Z) (digests : gomap string) (i : Image) : Image :=
  mkImage (ID i) (Digest i) (i_Digests i) (Names i) (NamesHistory i) (TopLayer i) (MappedTopLayers i) (i_Metadata i)
    names sizes digests (Created i) (ReadOnly i) (Flags i).
Definition set_ReadOnly (b : bool) (i : Image) : Image :=
  mkImage (ID i) (Digest i) (i_Digests i) (Names i) (NamesHistory i) (TopLayer i) (MappedTopLayers i) (i_Metadata i)
    (i_BigDataNames i) (BigDataSizes i) (BigDataDigests i) (Created i) b (Flags i).
Definition set_Flags (f : gomap any) (i : Image) : Image :=
  mkImage (ID i) (Digest i) (i_Digests i) (Names i) (NamesHistory i) (TopLayer i) (MappedTopLayers i) (i_Metadata i)
    (i_BigDataNames i) (BigDataSizes i) (BigDataDigests i) (Created i) (ReadOnly i) f.

#[global] Instance Image_named : Named Image := {
  rid := ID; rnames := Names; with_names := set_Names
}.
#[global] Instance Image_named_laws : NamedLaws Image.
Proof. split; by intros; destruct x. Qed.

Record ImageBigDataOption := mkBigDataOption { Key : string; Data : string; o_itemDigest : string }.

(** The zero value of [time.Time], year 1, in nanoseconds of Unix time. *)
Definition zeroTime : Z := -62135596800000000000.

Record ImageOptions := mkImageOptions {
  CreationDate : Z;
  o_Digest : string;
  o_Digests : list string;
  o_Metadata : string;
  o_BigData : list ImageBigDataOption;
  o_NamesHistory : list string;
  o_Flags : gomap any
}.

(** [ImageOptions{}] *)
Definition noOptions : ImageOptions := mkImageOptions zeroTime "" [] "" [] [] None.

(** ** Functions of an image *)

Definition copyImage (i : Image) : Image :=
  mkImage (ID i) (Digest i) (copySlicePreferringNil (i_Digests i)) (copySlicePreferringNil (Names i))
    (copySlicePreferringNil (NamesHistory i)) (TopLayer i) (copySlicePreferringNil (MappedTopLayers i))
    (i_Metadata i) (copySlicePreferringNil (i_BigDataNames i)) (copyMapPreferringNil (BigDataSizes i))
    (copyMapPreferringNil (BigDataDigests i)) (Created i) (ReadOnly i) (copyMapPreferringNil (Flags i)).

Definition copyImageSlice (slice : list Image) : list Image :=
  match slice with [] => [] | _ => copyImage <$> slice end.

Definition bigDataNameIsManifest (name : string) : bool :=
  String.prefix ImageDigestManifestBigDataNamePrefix name.

Definition addNameToHistory (name : string) (i : Image) : Image :=
  set_NamesHistory (dedupeStrings (name :: NamesHistory i)) i.

Section Digests.
Context `{Digests} `{MapRange}.

(** The loop over [BigDataDigests], in the order of [range]. *)
Fixpoint recompute_items (items : list (string * string)) (digests : gset string)
    (validDigests : list string) : list string + error :=
  match items with
  | [] => inl validDigests
  | (name, digest) :: items =>
      if negb (bigDataNameIsManifest name) then recompute_items items digests validDigests
      else
        match ValidateDigest digest with
        | Some err => inr err
        | None =>
            if decide (digest ∈ digests) then recompute_items items digests validDigests
            else recompute_items items ({[digest]} ∪ digests) (validDigests ++ [digest])%list
        end
  end.

(** The image with its new [Digest] and [Digests], or the error that leaves
    it as it was. *)
Definition recomputeDigests (i : Image) : Image + error :=
  let start : (gset string * list string) + error :=
    if decide (Digest i = "") then inl (∅, [])
    else match ValidateDigest (Digest i) with
         | Some err => inr err
         | None => inl ({[Digest i]}, [Digest i])
         end in
  match start with
  | inr err => inr err
  | inl (digests, validDigests) =>
      match recompute_items (range_map (default ∅ (BigDataDigests i))) digests validDigests with
      | inr err => inr err
      | inl validDigests =>
          inl (set_Digests (if decide (Digest i = "") then hd "" validDigests else Digest i) validDigests i)
      end
  end.
End Digests.

(** ** encoding/json *)

Class ImageJSON := {
  Marshal : list Image → option string;               (* None: error *)
  Unmarshal : string → option (list (option Image))   (* None elements: null *)
}.

(** What is left of a record after it was written and read back. *)
Definition json_image (i : Image) : Image :=
  mkImage (ID i) (Digest i) [] (Names i) (NamesHistory i) (TopLayer i) (MappedTopLayers i) (i_Metadata i)
    (i_BigDataNames i) (copyMapPreferringNil (BigDataSizes i)) (copyMapPreferringNil (BigDataDigests i))
    (Created i) false (copyMapPreferringNil (option_map (fmap json_any) (Flags i))).

Definition json_safe (i : Image) : bool :=
  utf8 (ID i) && utf8 (Digest i) && forallb utf8 (Names i) && forallb utf8 (NamesHistory i) &&
  utf8 (TopLayer i) && forallb utf8 (MappedTopLayers i) && utf8 (i_Metadata i) &&
  forallb utf8 (i_BigDataNames i) && gomap_all (λ k _, utf8 k) (BigDataSizes i) &&
  gomap_all (λ k v, utf8 k && utf8 v) (BigDataDigests i) &&
  gomap_all (λ k v, utf8 k && json_safe_any v) (Flags i).

Class ImageJSONSpec `{ImageJSON} := {
  json_nonempty l d : Marshal l = Some d → d ≠ "";
  json_roundtrip l d : Forall (λ i, json_safe i = true) l → Marshal l = Some d →
    Unmarshal d = Some (Some ∘ json_image <$> l)
}.

(** ** The store *)

Section ImageStore.
Context {T : Type} `{PatriciaTrie T}.
Context `{ImageJSON} `{Digests} `{MapRange}.
(** Rounds allowed to the search for an unused random identifier. *)
Context (fuel : nat).

Record imageMem := mkMem {
  reg : registry T Image;
  bydigest : gmap string (list positive)
}.

(** What a store knows from its construction is its directory [dir]. *)
Definition imageStore := rstore string imageMem.
Notation St := (World * rstore string imageMem)%type.

Definition modReg (f : registry T Image → registry T Image) : M St unit :=
  modMem (λ m, mkMem (f (reg m)) (bydigest m)).
Definition modDigests (f : gmap string (list positive) → gmap string (list positive)) : M St unit :=
  modMem (λ m, mkMem (reg m) (f (bydigest m))).

(** Reading and changing the record behind a pointer. *)
Definition deref (p : positive) : M St Image :=
  h ← getMem (λ m, heap (reg m));
  match h !! p with
  | Some i => mret i
  | None => stop (Panic "invalid memory address or nil pointer dereference")
  end.
Definition assign (p : positive) (f : Image → Image) : M St unit := modReg (reg_update f p).
Definition new (i : Image) : M St positive :=
  p ← getMem (λ m, fst (reg_alloc i (reg m)));
  _ ← modReg (λ r, snd (reg_alloc i r));
  mret p.

Definition Images : M St (list Image) := getMem (λ m, copyImage <$> reg_values (reg m)).

(** One entry of the directory; [err] is the first error so far. *)
Definition gc_entry (err : option error) (entry : string * bool) : M St (option error) :=
  let '(id, isDir) := entry in
  if negb isDir || bool_decide (ValidateID id ≠ None) then mret err
  else
    ids ← getMem (λ m, byid (reg m));
    match ids !! id with
    | Some _ => mret err
    | None =>
        dir ← getR conf;
        r ← try (inWorld (os_RemoveAll (filepath_Join [dir; id])));
        mret (match r, err with inr e, None => Some e | _, _ => err end)
    end.

Definition GarbageCollect : M St unit :=
  dir ← getR conf;
  entries ← inWorld (os_ReadDir dir);
  err ← foldM gc_entry None entries;
  match err with Some e => fail e | None => mret tt end.

Definition imagespath (dir : string) : string := filepath_Join [dir; "images.json"].

Definition datadir (dir id : string) : string := filepath_Join [dir; id].

Definition datapath (dir id key : string) : string :=
  filepath_Join [datadir dir id; makeBigDataBaseName key].

(** The guard of the methods that change the store. *)
Definition writable : M St unit :=
  rw ← getR (λ r, IsReadWrite (lockfile r));
  if (rw : bool) then mret tt else fail ErrStoreIsReadOnly.

Definition Save : M St unit :=
  _ ← writable;
  _ ← onLock AssertLockedForWriting;
  dir ← getR conf;
  let rpath := imagespath dir in
  _ ← inWorld (os_MkdirAll (filepath_Dir rpath));
  images ← getMem (λ m, reg_values (reg m));
  match Marshal images with
  | None => fail (ErrOther "json: unsupported value")
  | Some jdata =>
      lw ← onLock RecordWrite;
      _ ← modify (λ s, (fst s, set_lastWrite lw (snd s)));
      inWorld (AtomicWriteFile rpath jdata)
  end.

(** *** load *)

(** [bydigest[d] = append(bydigest[d], image)] *)
Definition add_digest (p : positive) (m : gmap string (list positive)) (d : string)
    : gmap string (list positive) :=
  <[d := (default [] (m !! d) ++ [p])%list]> m.

(** The maps the loop builds, with the heap; [x_dup]: [ErrDuplicateImageNames]
    is to be resolved by saving. *)
Record indexing := mkIndexing {
  x_ids : gmap string positive;
  x_idlist : list string;
  x_names : gmap string positive;
  x_digests : gmap string (list positive);
  x_heap : gmap positive Image;
  x_dup : bool
}.

(** A holder of the name loses it. *)
Definition evict (names : gmap string positive) (t : gmap positive Image * bool) (name : string)
    : gmap positive Image * bool :=
  match names !! name with
  | Some conflict => (remove_name conflict name (fst t), true)
  | None => t
  end.

(** One round of the loop over the records. *)
Definition load_image (readWrite : bool) (x : indexing) (p : positive) : indexing + error :=
  match x_heap x !! p with
  | None => inl x
  | Some image =>
      let '(h, dup) := foldl (evict (x_names x)) (x_heap x, x_dup x) (Names image) in
      match recomputeDigests image with
      | inr err => inr err
      | inl image =>
          inl (mkIndexing (<[ID image := p]> (x_ids x)) (x_idlist x ++ [ID image])%list
                 (put_names p (Names image) (x_names x))
                 (foldl (add_digest p) (x_digests x) (i_Digests image))
                 (<[p := set_ReadOnly (negb readWrite) image]> h) dup)
      end
  end.

(** A [null] record is a nil pointer. *)
Definition load_step (readWrite : bool) (x : indexing) (op : option positive) : M St indexing :=
  match op with
  | None => stop (Panic "invalid memory address or nil pointer dereference")
  | Some p => match load_image readWrite x p with inl x => mret x | inr err => fail err end
  end.

(** The records that [json.Unmarshal] allocates. *)
Definition alloc_image (ps : list (option positive)) (oi : option Image) : M St (list (option positive)) :=
  match oi with
  | None => mret (ps ++ [None])%list
  | Some i => p ← new i; mret (ps ++ [Some p])%list
  end.

(** The records of the file. *)
Definition read_images : M St (list (option positive)) :=
  dir ← getR conf;
  data ← read_or_empty (imagespath dir);
  if decide (data = "") then mret []
  else match Unmarshal data with
       | None => fail (ErrOther "loading JSON")
       | Some l => foldM alloc_image [] l
       end.

Definition load_body (lockedForWriting : bool) : M St (bool * option error) :=
  images ← read_images;
  h ← getMem (λ m, heap (reg m));
  rw ← getR (λ r, IsReadWrite (lockfile r));
  x ← foldM (load_step rw) (mkIndexing ∅ [] ∅ ∅ h false) images;
  if x_dup x && negb rw then mret (false, Some ErrDuplicateImageNames)
  else if x_dup x && negb lockedForWriting then mret (true, Some ErrDuplicateImageNames)
  else
    n ← getMem (λ m, nextp (reg m));
    _ ← modMem (λ _, mkMem (mkReg (omap id images) (TruncIndex.NewTruncIndex (x_idlist x)) (x_ids x)
                              (x_names x) (x_heap x) n) (x_digests x));
    if x_dup x then _ ← Save; mret (false, None) else mret (false, None).

(** Every other error is returned with the flag [false]. *)
Definition load (lockedForWriting : bool) : M St (bool * option error) :=
  r ← try (load_body lockedForWriting);
  match r with inl res => mret res | inr err => mret (false, Some err) end.

Definition startWritingWithReload := StoreLock.startWritingWithReload load.
Definition startWriting := StoreLock.startWriting load.
Definition stopWriting : M St unit := StoreLock.stopWriting.
Definition startReadingWithReload := StoreLock.startReadingWithReload load.
Definition startReading := StoreLock.startReading load.
Definition stopReading : M St unit := StoreLock.stopReading.
Definition modified : M St (LastWrite * bool) := StoreLock.modified.
Definition reloadIfChanged := StoreLock.reloadIfChanged load.

(** *** newImageStore and newROImageStore *)

Definition emptyStore (lock : LockFile) (dir : string) : rstore string imageMem :=
  mkStore lock dir MFree (mkLastWrite None) (mkMem reg_empty ∅).

(** With the store locked: read the last write, load. *)
Definition openBody (readWrite : bool) : M St unit :=
  lw ← onLock GetLastWrite;
  _ ← modify (λ s, (fst s, set_lastWrite lw (snd s)));
  res ← load readWrite;
  match res with (_, Some err) => fail err | (_, None) => mret tt end.

(** Lock for writing or reading; the deferred unlock follows in any case. *)
Definition openStore (readWrite : bool) : M St unit :=
  _ ← (if readWrite then startWritingWithReload false else startReadingWithReload false);
  finally (openBody readWrite) (if readWrite then stopWriting else stopReading).

(** Running it on a new object; the process-wide table of lock files keeps
    the lock object that the store uses. *)
Definition openNew (readWrite : bool) (lock : LockFile) (dir : string) : M LockTable (rstore string imageMem) := λ s,
  let '((w, r), o) := openStore readWrite (fst s, emptyStore lock dir) in
  ((w, <[file lock := lockfile r]> (snd s)), (λ _, r) <$> o).

Definition newImageStore (dir : string) : M LockTable (rstore string imageMem) :=
  _ ← zoom fst (λ w s, (w, snd s)) (os_MkdirAll dir);
  lock ← GetLockFile (filepath_Join [dir; "images.lock"]);
  openNew true lock dir.

Definition newROImageStore (dir : string) : M LockTable (rstore string imageMem) :=
  lock ← GetROLockFile (filepath_Join [dir; "images.lock"]);
  openNew false lock dir.

(** *** Look-up *)

Definition find (m : imageMem) (id : string) : option positive := reg_lookup (λ _, None) id (reg m).

(** [lookup], for methods that give up when it fails. *)
Definition lookup (id : string) : M St positive :=
  r ← getMem (λ m, find m id);
  match r with Some p => mret p | None => fail ErrImageUnknown end.

Definition ClearFlag (id flag : string) : M St unit :=
  _ ← writable;
  p ← lookup id;
  _ ← assign p (λ i, set_Flags (gomap_delete (Flags i) flag) i);
  Save.

Definition SetFlag (id flag : string) (value : any) : M St unit :=
  _ ← writable;
  p ← lookup id;
  i ← deref p;
  flags ← gomap_set (gomap_ensure (Flags i)) flag value;
  _ ← assign p (set_Flags flags);
  Save.

Definition addMappedTopLayer (id layer : string) : M St unit :=
  p ← lookup id;
  _ ← assign p (λ i, set_MappedTopLayers (MappedTopLayers i ++ [layer])%list i);
  Save.

Definition removeMappedTopLayer (id layer : string) : M St unit :=
  p ← lookup id;
  i ← deref p;
  let layers := RemoveFromSlice (MappedTopLayers i) layer in
  _ ← assign p (set_MappedTopLayers layers);
  if decide (length (MappedTopLayers i) = length layers) then mret tt else Save.

Definition Metadata (id : string) : M St string :=
  p ← lookup id; i ← deref p; mret (i_Metadata i).

Definition SetMetadata (id metadata : string) : M St unit :=
  _ ← writable;
  p ← lookup id;
  _ ← assign p (set_Metadata metadata);
  Save.

Definition updateNames (id : string) (names : list string) (op : updateNameOperation) : M St unit :=
  _ ← writable;
  p ← lookup id;
  image ← deref p;
  let oldNames := Names image in
  match applyNameOperation oldNames names op with
  | inr err => fail err
  | inl names =>
      _ ← modReg (reg_rename addNameToHistory p oldNames names);
      Save
  end.

(** An image leaves the list of a digest; an empty list leaves the map. *)
Definition prune_digest (p : positive) (m : gmap string (list positive)) (d : string)
    : gmap string (list positive) :=
  match m !! d with
  | None => m
  | Some list =>
      match filter (λ q, q ≠ p) list with
      | [] => delete d m
      | prunedList => <[d := prunedList]> m
      end
  end.

Definition Delete (id : string) : M St unit :=
  _ ← writable;
  p ← lookup id;
  image ← deref p;
  let id := ID image in
  _ ← modMem (λ m, mkMem (reg_del id (Names image) (reg m))
                     (foldl (prune_digest p) (bydigest m) (i_Digests image)));
  _ ← Save;
  dir ← getR conf;
  inWorld (os_RemoveAll (datadir dir id)).

Definition Get (id : string) : M St Image :=
  p ← lookup id; i ← deref p; mret (copyImage i).

Definition Exists_ (id : string) : M St bool :=
  r ← getMem (λ m, find m id); mret (bool_decide (is_Some r)).

Definition ByDigest (d : string) : M St (list Image) :=
  r ← getMem (λ m, option_map (omap (M := list) (λ p, heap (reg m) !! p)) (bydigest m !! d));
  match r with
  | Some images => mret (copyImageSlice images)
  | None => fail ErrImageUnknown
  end.

(** *** Big data *)

Definition BigData (id key : string) : M St string :=
  if decide (key = "") then fail ErrInvalidBigDataName
  else
    p ← lookup id;
    i ← deref p;
    dir ← getR conf;
    inWorld (os_ReadFile (datapath dir (ID i) key)).

Definition BigDataSize (id key : string) : M St Z :=
  if decide (key = "") then fail ErrInvalidBigDataName
  else
    p ← lookup id;
    i ← deref p;
    match gomap_get (BigDataSizes i) key with
    | Some size => mret size
    | None =>
        r ← try (BigData id key);
        match r with
        | inl data => mret (Z.of_nat (String.length data))
        | inr _ => fail ErrSizeUnknown
        end
    end.

Definition BigDataDigest (id key : string) : M St string :=
  if decide (key = "") then fail ErrInvalidBigDataName
  else
    p ← lookup id;
    i ← deref p;
    match gomap_get (BigDataDigests i) key with
    | Some d => mret d
    | None => fail ErrDigestUnknown
    end.

Definition BigDataNames (id : string) : M St (list string) :=
  p ← lookup id; i ← deref p; mret (copySlicePreferringNil (i_BigDataNames i)).

(** The image enters the list of a digest unless it is there. *)
Definition enlist (p : positive) (m : gmap string (list positive)) (d : string)
    : gmap string (list positive) :=
  if decide (p ∈ default [] (m !! d)) then m else add_digest p m d.

Definition setBigData (p : positive) (key data newDigest : string) : M St unit :=
  if decide (key = "") then fail ErrInvalidBigDataName
  else
    i ← deref p;
    dir ← getR conf;
    _ ← inWorld (os_MkdirAll (datadir dir (ID i)));
    _ ← inWorld (AtomicWriteFile (datapath dir (ID i) key) data);
    let sizes := gomap_ensure (BigDataSizes i) in
    let oldSize := gomap_get sizes key in
    let newSize := Z.of_nat (String.length data) in
    sizes ← gomap_set sizes key newSize;
    let digests := gomap_ensure (BigDataDigests i) in
    let oldDigest := gomap_get digests key in
    digests ← gomap_set digests key newDigest;
    let changed := bool_decide (oldSize ≠ Some newSize) || bool_decide (oldDigest ≠ Some newDigest) in
    let known := bool_decide (key ∈ i_BigDataNames i) in
    let names := if known then i_BigDataNames i else (i_BigDataNames i ++ [key])%list in
    _ ← assign p (set_BigData names sizes digests);
    _ ← modDigests (λ m, foldl (prune_digest p) m (i_Digests i));
    i ← deref p;
    match recomputeDigests i with
    | inr err => fail err
    | inl i =>
        _ ← assign p (set_Digests (Digest i) (i_Digests i));
        _ ← modDigests (λ m, foldl (enlist p) m (i_Digests i));
        if changed || negb known then Save else mret tt
    end.

(** [digestManifest] is the caller's function, or nil. *)
Definition SetBigData (id key data : string) (digestManifest : option (string → string + error)) : M St unit :=
  _ ← writable;
  p ← lookup id;
  newDigest ← (if bigDataNameIsManifest key then
                 match digestManifest with
                 | None => fail ErrDigestUnknown
                 | Some f => match f data with inl d => mret d | inr err => fail err end
                 end
               else mret (FromBytes data));
  setBigData p key data newDigest.

(** *** create *)

(** The loop that draws random identifiers until one is not in use. *)
Fixpoint unusedID (rounds : nat) : M St string :=
  match rounds with
  | 0 => stop NoFuel
  | S rounds =>
      id ← inWorld (GenerateRandomID fuel);
      ids ← getMem (λ m, byid (reg m));
      match ids !! id with Some _ => unusedID rounds | None => mret id end
  end.

Definition newImage (id : string) (names : list string) (layer : string) (options : ImageOptions)
    (created : Z) : Image :=
  mkImage id (o_Digest options) (dedupeDigests (o_Digests options)) names
    (copySlicePreferringNil (o_NamesHistory options)) layer [] (o_Metadata options) []
    (Some ∅) (Some ∅) created false (newMapFrom (o_Flags options)).

(** The digest of an item that comes without one. *)
Definition item_digest (item : ImageBigDataOption) : string :=
  if decide (o_itemDigest item = "") then FromBytes (Data item) else o_itemDigest item.

Definition create (id : string) (names : list string) (layer : string) (options : ImageOptions) : M St Image :=
  _ ← writable;
  id ← (if decide (id = "") then unusedID fuel else mret id);
  ids ← getMem (λ m, byid (reg m));
  if decide (is_Some (ids !! id)) then fail ErrDuplicateID
  else
    let names := dedupeStrings names in
    byn ← getMem (λ m, byname (reg m));
    if decide (Exists (λ n, is_Some (byn !! n)) names) then fail ErrDuplicateName
    else
      created ← (if decide (CreationDate options = zeroTime) then inWorld time_Now
                 else mret (CreationDate options));
      match recomputeDigests (newImage id names layer options created) with
      | inr err => fail err
      | inl image =>
          p ← new image;
          _ ← modMem (λ m, mkMem (reg_add p id names (reg m))
                             (foldl (add_digest p) (bydigest m) (i_Digests image)));
          on_error
            (_ ← Save;
             _ ← forM (o_BigData options) (λ item, setBigData p (Key item) (Data item) (item_digest item));
             i ← deref p;
             mret (copyImage i))
            (Delete id)
      end.

Definition Wipe : M St unit :=
  _ ← writable;
  ids ← getMem (λ m, fst <$> range_map (byid (reg m)));
  forM ids Delete.

(** Every method that a holder of the write lock can call. *)
Inductive op :=
  | OpCreate (id : string) (names : list string) (layer : string) (options : ImageOptions)
  | OpUpdateNames (id : string) (names : list string) (o : updateNameOperation)
  | OpDelete (id : string)
  | OpWipe
  | OpSetMetadata (id metadata : string)
  | OpSetFlag (id flag : string) (value : any)
  | OpClearFlag (id flag : string)
  | OpAddMappedTopLayer (id layer : string)
  | OpRemoveMappedTopLayer (id layer : string)
  | OpSetBigData (id key data : string) (digestManifest : option (string → string + error))
  | OpGarbageCollect
  | OpSave.

Definition run_op (o : op) : M St unit :=
  match o with
  | OpCreate id names layer options => _ ← create id names layer options; mret tt
  | OpUpdateNames id names o => updateNames id names o
  | OpDelete id => Delete id
  | OpWipe => Wipe
  | OpSetMetadata id metadata => SetMetadata id metadata
  | OpSetFlag id flag value => SetFlag id flag value
  | OpClearFlag id flag => ClearFlag id flag
  | OpAddMappedTopLayer id layer => addMappedTopLayer id layer
  | OpRemoveMappedTopLayer id layer => removeMappedTopLayer id layer
  | OpSetBigData id key data f => SetBigData id key data f
  | OpGarbageCollect => GarbageCollect
  | OpSave => Save
  end.
End ImageStore.
Arguments imageMem : clear implicits.
Arguments imageStore : clear implicits.

End Images.
