(* ===== verification/ImageFacts.v ===== *)
(** * Correctness of the store of images

    What [recomputeDigests] computes, the invariant [mem_wf] of the memory of
    an [imageStore] (the registry and the index by digest), specifications of
    its methods, and the theorems about them. *)

From S2P Require Import Prelude World StoreUtil Strconv StringId Codec Json TruncIndex LockFile StoreLock StoreDisk Registry ImageStore.
Import Images.

Local Open Scope string_scope.

Module ImageFacts.

(** ** A codec for images *)

#[local] Instance image_codec : Codec Image :=
  codec_via
    (λ i, ((ID i, Digest i, i_Digests i, Names i, NamesHistory i, TopLayer i),
           (MappedTopLayers i, i_Metadata i, i_BigDataNames i),
           (BigDataSizes i : option (gmap string Z)),
           (BigDataDigests i : option (gmap string string)),
           (Created i, ReadOnly i), (Flags i : option (gmap string any))))
    (λ '((i, d, ds, n, nh, t), (mt, me, bn), bs, bd, (cr, ro), f), mkImage i d ds n nh t mt me bn bs bd cr ro f).
#[local] Instance image_codec_law : CodecLaw Image.
Proof. apply codec_via_law. by intros []. Qed.

#[global] Instance image_json : ImageJSON := {
  Marshal l := Some (marshal (json_image <$> l));
  Unmarshal s := option_map (fmap Some) (unmarshal (A := Image) s)
}.
#[global] Instance image_json_spec : ImageJSONSpec.
Proof.
  split; simpl.
  - intros l d [= <-]. apply marshal_nonempty.
  - intros l d _ [= <-]. rewrite unmarshal_marshal. simpl. by rewrite <- list_fmap_compose.
Qed.

(** ** The digests of an image *)

Section Digests.
Context `{Digests} `{MapRangeSpec}.
Implicit Types (i j : Image) (d : string).

(** [d] is the digest of the image or of one of its manifests. *)
Definition identifies i d : Prop :=
  (d = Digest i ∧ d ≠ "") ∨
  ∃ name, gomap_get (BigDataDigests i) name = Some d ∧ bigDataNameIsManifest name = true.

(** All of them are well-formed. *)
Definition valid_digests i : Prop := ∀ d, identifies i d → ValidateDigest d = None.

(** [Digests] is the list of them, that of the image first. *)
Definition identified i : Prop :=
  valid_digests i ∧ NoDup (i_Digests i) ∧ Digest i = hd "" (i_Digests i) ∧
  ∀ d, d ∈ i_Digests i ↔ identifies i d.

(** [d] is the digest of one of the manifests among the items. *)
Definition among (items : list (string * string)) d : Prop :=
  ∃ name, (name, d) ∈ items ∧ bigDataNameIsManifest name = true.

Lemma among_nil d : ¬ among [] d.
Proof. by intros (? & ?%elem_of_nil & _). Qed.

Lemma among_cons name e items d :
  among ((name, e) :: items) d ↔ (d = e ∧ bigDataNameIsManifest name = true) ∨ among items d.
Proof.
  unfold among. split.
  - intros (n & [[= -> ->]|Hin]%elem_of_cons & Hm); eauto.
  - intros [[-> ?]|(n & ? & ?)]; [exists name|exists n]; (split; [|done]); [left|by right].
Qed.

Lemma recompute_items_spec items seen valid :
  (∀ d, d ∈ seen ↔ d ∈ valid) → NoDup valid →
  match recompute_items items seen valid with
  | inl out => NoDup out ∧ (∃ l, out = (valid ++ l)%list) ∧ (∀ d, d ∈ out ↔ d ∈ valid ∨ among items d) ∧
               (∀ d, among items d → ValidateDigest d = None)
  | inr e => ∃ d, among items d ∧ ValidateDigest d = Some e
  end.
Proof.
  revert seen valid. induction items as [|[name d] items IH]; intros seen valid Hs Hnd; simpl.
  { split; [done|]. split; [exists []; by rewrite app_nil_r|].
    pose proof among_nil as Hn. split; [|by intros d []%Hn]. intros d. specialize (Hn d). tauto. }
  pose proof (among_cons name d items) as Hac. destruct (bigDataNameIsManifest name); simpl.
  2: { specialize (IH seen valid Hs Hnd). destruct (recompute_items items seen valid) as [out|e].
       - destruct IH as (Hn & Hp & Hi & Hv). split; [done|]. split; [done|].
         split; [intros e; rewrite Hi, Hac; intuition congruence|].
         intros e [[_ ?]|?]%Hac; [done|by apply Hv].
       - destruct IH as (e' & ? & ?). exists e'. split; [apply Hac; by right|done]. }
  destruct (ValidateDigest d) as [e|] eqn:Ev; [exists d; split; [apply Hac; by left|done]|].
  destruct (decide (d ∈ seen)) as [Hd|Hd].
  - specialize (IH seen valid Hs Hnd). destruct (recompute_items items seen valid) as [out|e].
    + destruct IH as (Hn & Hp & Hi & Hv). split; [done|]. split; [done|].
      split; [|intros e [[-> _]|?]%Hac; [done|by apply Hv]]. intros e. rewrite Hi, Hac.
      split; [tauto|]. intros [?|[[-> _]|?]]; [by left|left; by apply Hs|by right].
    + destruct IH as (e' & ? & ?). exists e'. split; [apply Hac; by right|done].
  - specialize (IH ({[d]} ∪ seen) (valid ++ [d])%list).
    assert (∀ e, e ∈ {[d]} ∪ seen ↔ e ∈ (valid ++ [d])%list) as Hs'.
    { intros e. rewrite elem_of_union, elem_of_singleton, elem_of_app, list_elem_of_singleton, Hs. tauto. }
    assert (NoDup (valid ++ [d])%list) as Hnd'.
    { apply NoDup_app. split; [done|]. split; [|apply NoDup_singleton].
      intros e He ->%list_elem_of_singleton. apply Hd. by apply Hs. }
    specialize (IH Hs' Hnd'). destruct (recompute_items items _ _) as [out|e].
    + destruct IH as (Hn & [l ->] & Hi & Hv).
      split; [done|]. split; [exists (d :: l); by rewrite <- app_assoc|].
      split; [|intros e [[-> _]|?]%Hac; [done|by apply Hv]]. intros e.
      rewrite Hi, Hac, elem_of_app, list_elem_of_singleton. intuition congruence.
    + destruct IH as (e' & ? & ?). exists e'. split; [apply Hac; by right|done].
Qed.

Lemma range_elem {V} (m : gmap string V) k v : (k, v) ∈ range_map m ↔ m !! k = Some v.
Proof. by rewrite range_map_perm, elem_of_map_to_list. Qed.

Lemma gomap_get_default {V} (m : gomap V) k : gomap_get m k = default ∅ m !! k.
Proof. destruct m; [done|]. simpl. by rewrite lookup_empty. Qed.

Lemma range_digests i name d :
  (name, d) ∈ range_map (default ∅ (BigDataDigests i)) ↔ gomap_get (BigDataDigests i) name = Some d.
Proof. by rewrite range_elem, gomap_get_default. Qed.

Lemma among_identifies i d :
  identifies i d ↔ (d = Digest i ∧ d ≠ "") ∨ among (range_map (default ∅ (BigDataDigests i))) d.
Proof. unfold identifies, among. by setoid_rewrite range_digests. Qed.

Lemma recompute_spec i :
  match recomputeDigests i with
  | inl j => ∃ d l, j = set_Digests d l i ∧ identified j ∧ valid_digests i ∧
                    (Digest i ≠ "" → d = Digest i) ∧ (∀ e, e ∈ l ↔ identifies i e)
  | inr e => ∃ d, identifies i d ∧ ValidateDigest d = Some e
  end.
Proof.
  unfold recomputeDigests. pose proof (among_identifies i) as Hai. set (items := range_map _) in *.
  assert (∀ d l e, identifies (set_Digests d l i) e ↔ (e = d ∧ e ≠ "") ∨ among items e) as Hset
    by (intros d l; apply (among_identifies (set_Digests d l i))).
  unfold identified, valid_digests. destruct (decide (Digest i = "")) as [Ed|Ed].
  - pose proof (recompute_items_spec items ∅ []) as Hs. destruct (recompute_items items ∅ []) as [l|e].
    + destruct Hs as (Hnd & _ & Hi & Hv); [set_solver|constructor|].
      assert (∀ d, d ∈ l ↔ among items d) as Hl by (intros d; rewrite Hi, elem_of_nil; tauto).
      assert (hd "" l ≠ "" → hd "" l ∈ l) as Hhd by (destruct l; [done|left]).
      exists (hd "" l), l. split; [done|]. split; [split; [|split; [done|split; [done|]]]|split; [|split; [done|]]].
      * intros d [[-> ?%Hhd]|?]%Hset; apply Hv; [by apply Hl|done].
      * intros d. rewrite Hset. simpl. rewrite Hl. split; [by right|]. intros [[-> ?%Hhd]|?]; [by apply Hl|done].
      * intros d [[-> ?]|?]%Hai; [done|by apply Hv].
      * intros d. rewrite Hai, Hl. intuition congruence.
    + destruct Hs as (d & Hin & Hv); [set_solver|constructor|]. exists d. split; [apply Hai; by right|done].
  - destruct (ValidateDigest (Digest i)) as [e|] eqn:Ev; [exists (Digest i); split; [apply Hai; by left|done]|].
    pose proof (recompute_items_spec items {[Digest i]} [Digest i]) as Hs.
    destruct (recompute_items items _ _) as [l|e].
    + destruct Hs as (Hnd & [l' ->] & Hi & Hv); [set_solver|apply NoDup_singleton|].
      exists (Digest i), ([Digest i] ++ l')%list. split; [done|].
      assert (∀ d, d = Digest i ∧ d ≠ "" ∨ among items d → ValidateDigest d = None) as Hval
        by (intros d [[-> ?]|?]; [done|by apply Hv]).
      split; [split; [|split; [done|split; [done|]]]|split; [|split; [done|]]].
      * intros d ?%Hset. by apply Hval.
      * intros d. rewrite Hset. simpl. rewrite Hi, list_elem_of_singleton. intuition congruence.
      * intros d ?%Hai. by apply Hval.
      * intros d. rewrite Hai, Hi, list_elem_of_singleton. intuition congruence.
    + destruct Hs as (d & Hin & Hv); [set_solver|apply NoDup_singleton|]. exists d. split; [apply Hai; by right|done].
Qed.

Lemma recompute_items_head items d l :
  recompute_items items ∅ [] = inl (d :: l) → recompute_items items {[d]} [d] = inl (d :: l).
Proof.
  induction items as [|[name e] items IH]; simpl; [done|].
  destruct (bigDataNameIsManifest name); simpl; [|done].
  destruct (ValidateDigest e); [done|]. rewrite decide_False by set_solver.
  rewrite (right_id_L ∅ (∪)). simpl. intros E.
  pose proof (recompute_items_spec items {[e]} [e]) as Hs. rewrite E in Hs.
  destruct Hs as (_ & [l' [= -> _]] & _); [set_solver|apply NoDup_singleton|].
  rewrite decide_True by set_solver. done.
Qed.

Lemma recompute_idem i j : recomputeDigests i = inl j → recomputeDigests j = inl j.
Proof.
  intros E. pose proof (recompute_spec i) as Hs. rewrite E in Hs.
  destruct Hs as (d & l & -> & (Hval & _ & Hhd & Hi) & _ & Hd & _). simpl in Hhd.
  unfold recomputeDigests in E |- *. simpl. destruct (decide (Digest i = "")) as [Ed|Ed].
  - destruct (recompute_items _ ∅ []) as [l'|] eqn:Er; [|done]. injection E as E1 E2. subst l'.
    case_decide as Ed'.
    { rewrite Er. by rewrite <- Hhd, Ed'. }
    rewrite Hval by (by left). destruct l as [|d' l]; [done|]. simpl in Hhd. subst d'.
    by rewrite (recompute_items_head _ _ _ Er).
  - rewrite (Hd Ed) in *. rewrite decide_False by done.
    destruct (ValidateDigest (Digest i)); [done|].
    destruct (recompute_items _ _ _) as [l'|]; [|done]. rewrite decide_False by done.
    injection E as E. by rewrite E.
Qed.

Lemma recompute_total i : valid_digests i → ∃ j, recomputeDigests i = inl j.
Proof.
  intros Hv. pose proof (recompute_spec i) as Hs. destruct (recomputeDigests i) as [j|e]; [eauto|].
  destruct Hs as (d & Hd & Hvd). rewrite (Hv d Hd) in Hvd. done.
Qed.
End Digests.

(** ** The index by digest *)

Section Index.
Notation index := (gmap string (list positive)).
Implicit Types (m : index) (p q : positive) (d e : string).

(** The images listed under a digest. *)
Definition holders m d : list positive := default [] (m !! d).

(** No list is empty or has an image twice. *)
Definition lists_ok m : Prop := ∀ d l, m !! d = Some l → l ≠ [] ∧ NoDup l.

Lemma holders_NoDup m d : lists_ok m → NoDup (holders m d).
Proof. intros Hm. unfold holders. destruct (m !! d) eqn:E; [by destruct (Hm _ _ E)|constructor]. Qed.

Lemma holders_add p m d e :
  holders (add_digest p m d) e = if decide (e = d) then (holders m d ++ [p])%list else holders m e.
Proof.
  unfold holders, add_digest. case_decide as E; [subst; by rewrite lookup_insert_eq|by rewrite lookup_insert_ne].
Qed.

Lemma holders_prune p m d e :
  holders (prune_digest p m d) e = if decide (e = d) then filter (λ q, q ≠ p) (holders m d) else holders m e.
Proof.
  unfold holders, prune_digest. case_decide as E.
  - subst e. destruct (m !! d) as [l|] eqn:El; [|by rewrite El]. simpl.
    destruct (filter _ l); [by rewrite lookup_delete_eq|by rewrite lookup_insert_eq].
  - destruct (m !! d) as [l|]; [|done]. destruct (filter _ l); [by rewrite lookup_delete_ne|by rewrite lookup_insert_ne].
Qed.

Lemma holders_enlist p m d e :
  holders (enlist p m d) e =
    if decide (e = d ∧ p ∉ holders m d) then (holders m d ++ [p])%list else holders m e.
Proof.
  unfold enlist. fold (holders m d). destruct (decide (p ∈ holders m d)) as [Hp|Hp].
  - rewrite decide_False; [done|]. by intros [_ ?].
  - rewrite holders_add. do 2 case_decide; tauto.
Qed.

Lemma lists_ok_add p m d : lists_ok m → p ∉ holders m d → lists_ok (add_digest p m d).
Proof.
  intros Hm Hp e l. unfold add_digest. fold (holders m d). destruct (decide (e = d)) as [->|].
  - rewrite lookup_insert_eq. intros [= <-]. split; [by destruct (holders m d)|].
    apply NoDup_app. split; [by apply holders_NoDup|]. split; [|apply NoDup_singleton].
    by intros q Hq ->%list_elem_of_singleton.
  - rewrite lookup_insert_ne by done. apply Hm.
Qed.

Lemma lists_ok_prune p m d : lists_ok m → lists_ok (prune_digest p m d).
Proof.
  intros Hm e l. unfold prune_digest. destruct (m !! d) as [k|] eqn:Ek; [|apply Hm].
  destruct (Hm _ _ Ek) as [_ Hnd]. apply (NoDup_filter (λ q, q ≠ p)) in Hnd.
  destruct (filter _ k) as [|q k'] eqn:Ef.
  - intros [_ Hl]%lookup_delete_Some. by apply (Hm e l).
  - destruct (decide (e = d)) as [->|]; [rewrite lookup_insert_eq|rewrite lookup_insert_ne by done; apply Hm].
    by intros [= <-].
Qed.

Lemma lists_ok_enlist p m d : lists_ok m → lists_ok (enlist p m d).
Proof. intros Hm. unfold enlist. fold (holders m d). case_decide; [done|]. by apply lists_ok_add. Qed.

(** *** The loops over the digests of an image *)

Lemma holders_adds p m l d :
  NoDup l → holders (foldl (add_digest p) m l) d =
    if decide (d ∈ l) then (holders m d ++ [p])%list else holders m d.
Proof.
  intros Hnd. revert m. induction Hnd as [|e l He Hnd IH]; intros m; [done|]. simpl.
  rewrite IH, !holders_add. destruct (decide (d = e)) as [->|Hne].
  - rewrite decide_False by done. by rewrite decide_True by left.
  - destruct (decide (d ∈ l)); [rewrite decide_True by (by right)|rewrite decide_False]; try done.
    by intros [?|?]%elem_of_cons.
Qed.

Lemma holders_prunes p m l d :
  holders (foldl (prune_digest p) m l) d =
    if decide (d ∈ l) then filter (λ q, q ≠ p) (holders m d) else holders m d.
Proof.
  revert m. induction l as [|e l IH]; intros m; [done|]. simpl. rewrite IH, !holders_prune.
  destruct (decide (d = e)) as [->|Hne].
  - rewrite (decide_True (P := e ∈ e :: l)) by left. case_decide; [|done].
    rewrite list_filter_filter. apply list_filter_iff. intros q. tauto.
  - destruct (decide (d ∈ l)); [rewrite decide_True by (by right)|rewrite decide_False]; try done.
    by intros [?|?]%elem_of_cons.
Qed.

Lemma holders_enlists p m l d q :
  q ∈ holders (foldl (enlist p) m l) d ↔ q ∈ holders m d ∨ (q = p ∧ d ∈ l).
Proof.
  revert m. induction l as [|e l IH]; intros m; simpl; [rewrite elem_of_nil; tauto|].
  rewrite IH, holders_enlist, elem_of_cons. destruct (decide (d = e ∧ p ∉ holders m e)) as [[-> Hp]|Hn].
  - rewrite elem_of_app, list_elem_of_singleton. tauto.
  - split; [tauto|]. intros [?|[-> [->|?]]]; [by left| |by right].
    left. destruct (decide (p ∈ holders m e)); [done|]. exfalso. by apply Hn.
Qed.

Lemma lists_ok_adds p m l :
  lists_ok m → NoDup l → (∀ d, p ∉ holders m d) → lists_ok (foldl (add_digest p) m l).
Proof.
  intros Hm Hnd Hp. assert (∀ d, d ∈ l → p ∉ holders m d) as Hp' by auto. clear Hp. revert m Hm Hp'.
  induction Hnd as [|e l He Hnd IH]; intros m Hm Hp; [done|]. simpl. apply IH.
  - apply lists_ok_add; [done|]. apply Hp. left.
  - intros d Hd. rewrite holders_add, decide_False by (by intros ->). apply Hp. by right.
Qed.

Lemma lists_ok_prunes p m l : lists_ok m → lists_ok (foldl (prune_digest p) m l).
Proof. revert m. induction l as [|d l IH]; intros m Hm; [done|]. apply IH. by apply lists_ok_prune. Qed.

Lemma lists_ok_enlists p m l : lists_ok m → lists_ok (foldl (enlist p) m l).
Proof. revert m. induction l as [|d l IH]; intros m Hm; [done|]. apply IH. by apply lists_ok_enlist. Qed.
End Index.

(** ** The invariant *)

Section Invariant.
Context {T : Type} `{PatriciaTrieSpec T}.
Context `{ImageJSON} `{Digests} `{MapRangeSpec}.
Context (fuel : nat).
Notation St := (World * rstore string (imageMem T))%type.
Implicit Types (s : St) (m : imageMem T) (ok : positive → Prop).

(** The registry is consistent and the index by digest only leads to images
    that have the digest in [Digests]; the images at the addresses in [ok] have
    exactly the digests of their manifests in [Digests], and are found by each
    of them. *)
Record mem_wf ok m : Prop := {
  mem_reg : reg_wf (reg m);
  mem_lists : lists_ok (bydigest m);
  mem_sound d p : p ∈ holders (bydigest m) d →
    p ∈ objs (reg m) ∧ ∃ i, heap (reg m) !! p = Some i ∧ d ∈ i_Digests i;
  mem_full p i : ok p → p ∈ objs (reg m) → heap (reg m) !! p = Some i →
    identified i ∧ ∀ d, d ∈ i_Digests i → p ∈ holders (bydigest m) d
}.

Definition abs m : gmap string Image := reg_abs (reg m).

Lemma img_mem_wf_empty ok : mem_wf ok (mkMem reg_empty ∅).
Proof.
  split; [apply reg_wf_empty|by intros d l|..].
  - intros d p Hp. unfold holders in Hp. simpl in Hp. rewrite lookup_empty in Hp. by apply elem_of_nil in Hp.
  - by intros p i _ ?%elem_of_nil.
Qed.

(** All images are found by their digests; nothing is said of that. *)
Definition full : positive → Prop := λ _, True.
Definition partial : positive → Prop := λ _, False.

Lemma mem_wf_weaken ok ok' m : (∀ p, ok' p → ok p) → mem_wf ok m → mem_wf ok' m.
Proof. intros Hok []. split; auto. Qed.

(** The fields that matter for the index. *)
Definition dig_part (i : Image) : string * list string * gomap string := (Digest i, i_Digests i, BigDataDigests i).

Lemma identified_ext i j : dig_part i = dig_part j → identified i → identified j.
Proof.
  intros [= E1 E2 E3]. unfold identified, valid_digests, identifies. by rewrite E1, E2, E3.
Qed.

Lemma img_find_some ok m id p :
  mem_wf ok m → find m id = Some p → p ∈ objs (reg m) ∧ ∃ i, heap (reg m) !! p = Some i.
Proof. intros Hwf. by apply reg_lookup_objs; [apply Hwf|]. Qed.

(** An identifier in use is found before everything else. *)
Lemma img_find_id m id p : byid (reg m) !! id = Some p → find m id = Some p.
Proof. unfold find, reg_lookup. by intros ->. Qed.

(** Changes of the registry that keep the digests of the records. *)
Lemma mem_frame ok (m : imageMem T) r :
  mem_wf ok m → reg_wf r → objs r = objs (reg m) →
  (∀ p, p ∈ objs (reg m) → dig_part <$> heap r !! p = dig_part <$> heap (reg m) !! p) →
  mem_wf ok (mkMem r (bydigest m)).
Proof.
  intros Hwf Hr Ho Hh. split; [done|apply Hwf|..]; simpl; rewrite Ho.
  - intros d p (Hp & i & Hi & Hd)%(mem_sound _ _ Hwf). split; [done|].
    specialize (Hh p Hp). rewrite Hi in Hh. destruct (heap r !! p) as [j|]; [|done].
    injection Hh as E1 E2 E3. exists j. by rewrite E2.
  - intros p i Hf Hp Hi. specialize (Hh p Hp). rewrite Hi in Hh.
    destruct (heap (reg m) !! p) as [j|] eqn:Ej; [|done].
    destruct (mem_full _ _ Hwf p j Hf Hp Ej) as [Hid Hc]. injection Hh as E1 E2 E3.
    split; [apply (identified_ext j); [unfold dig_part; congruence|done]|]. by rewrite E2.
Qed.

Lemma img_mem_alloc_wf ok i m : mem_wf ok m → mem_wf ok (mkMem (snd (reg_alloc i (reg m))) (bydigest m)).
Proof.
  intros Hwf. destruct (reg_alloc_fresh (reg m) (mem_reg _ _ Hwf)) as [Hf _].
  apply mem_frame; [done|apply reg_alloc_wf, Hwf|done|].
  intros p Hp. simpl. rewrite lookup_insert_ne; [done|]. by intros <-.
Qed.

Lemma img_mem_update_wf ok f p m :
  (∀ i, ID (f i) = ID i) → (∀ i, Names (f i) = Names i) → (∀ i, dig_part (f i) = dig_part i) →
  mem_wf ok m → mem_wf ok (mkMem (reg_update f p (reg m)) (bydigest m)).
Proof.
  intros Hi Hn Hd Hwf. apply mem_frame; [done|apply reg_update_wf; [done..|apply Hwf]|done|].
  intros q Hq. simpl. destruct (decide (q = p)) as [->|Hne]; [|by rewrite lookup_alter_ne].
  rewrite lookup_alter_eq. destruct (heap (reg m) !! p); simpl; by rewrite ?Hd.
Qed.

Lemma hook_fields names l i :
  let j := foldl (λ y n, addNameToHistory n y) (set_Names names i) l in
  ID j = ID i ∧ Names j = names ∧ dig_part j = dig_part i.
Proof. revert i. induction l as [|n l IH]; intros i; [done|]. exact (IH (addNameToHistory n i)). Qed.

Lemma img_mem_rename_wf ok p i names m :
  mem_wf ok m → p ∈ objs (reg m) → heap (reg m) !! p = Some i →
  mem_wf ok (mkMem (reg_rename addNameToHistory p (Names i) names (reg m)) (bydigest m)).
Proof.
  intros Hwf Hp Hi.
  destruct (reg_rename_heap addNameToHistory p i names (reg m) (mem_reg _ _ Hwf) Hp Hi) as (Eo & _ & _ & _ & _ & Es & Eq);
    [done|]. change (rnames i) with (Names i) in *.
  apply mem_frame; [done|by apply (reg_rename_wf addNameToHistory p i names (reg m) (mem_reg _ _ Hwf) Hp Hi)|done|].
  intros q Hq. destruct (decide (q = p)) as [->|Hne].
  - rewrite Es, Hi. exact (f_equal Some (proj2 (proj2 (hook_fields names names i)))).
  - rewrite Eq by done. by destruct (heap (reg m) !! q).
Qed.

Lemma img_mem_add_wf ok p i m :
  mem_wf ok m → p ∉ objs (reg m) → heap (reg m) !! p = Some i → byid (reg m) !! ID i = None →
  (∀ n, n ∈ Names i → byname (reg m) !! n = None) → identified i →
  mem_wf ok (mkMem (reg_add p (ID i) (Names i) (reg m)) (foldl (add_digest p) (bydigest m) (i_Digests i))).
Proof.
  intros Hwf Hp Hi Hid Hnm Hident. assert (NoDup (i_Digests i)) as Hnd by apply Hident.
  assert (∀ d, p ∉ holders (bydigest m) d) as Hno by (by intros d [? _]%(mem_sound _ _ Hwf)).
  split; [exact (reg_add_wf p i (reg m) (mem_reg _ _ Hwf) Hp Hi Hid Hnm)| |..]; simpl.
  - apply lists_ok_adds; [apply Hwf|done|done].
  - intros d q. rewrite holders_adds, elem_of_app, list_elem_of_singleton by done.
    assert (q ∈ holders (bydigest m) d → (q ∈ objs (reg m) ∨ q = p) ∧
      ∃ j, heap (reg m) !! q = Some j ∧ d ∈ i_Digests j) as Hold by (intros (? & ?)%(mem_sound _ _ Hwf); auto).
    case_decide as Hd; [|done]. rewrite elem_of_app, list_elem_of_singleton. intros [?| ->]; [auto|eauto].
  - intros q j Hf. rewrite elem_of_app, list_elem_of_singleton. intros [Hq| ->] Hj.
    + destruct (mem_full _ _ Hwf q j Hf Hq Hj) as [? Hc]. split; [done|]. intros d ?%Hc.
      rewrite holders_adds by done. case_decide; [apply elem_of_app; by left|done].
    + rewrite Hi in Hj. injection Hj as <-. split; [done|]. intros d Hd.
      rewrite holders_adds, decide_True by done. apply elem_of_app. right. by apply list_elem_of_singleton.
Qed.

Lemma img_mem_del_wf ok ok' p i m :
  (∀ q, ok' q → q ≠ p → ok q) → mem_wf ok m → p ∈ objs (reg m) → heap (reg m) !! p = Some i →
  mem_wf ok' (mkMem (reg_del (ID i) (Names i) (reg m)) (foldl (prune_digest p) (bydigest m) (i_Digests i))).
Proof.
  intros Hok Hwf Hp Hi. pose proof (λ q, reg_del_objs p i (reg m) q (mem_reg _ _ Hwf) Hp Hi) as Ho.
  split; [exact (reg_del_wf p i (reg m) (mem_reg _ _ Hwf) Hp Hi)| |..].
  - apply lists_ok_prunes, Hwf.
  - intros d q. cbn [bydigest reg]. rewrite holders_prunes. intros Hq.
    assert (q ∈ holders (bydigest m) d ∧ q ≠ p) as [Hq' Hne].
    { case_decide as Hd; [apply list_elem_of_filter in Hq; tauto|]. split; [done|]. intros ->.
      apply Hd. destruct (mem_sound _ _ Hwf _ _ Hq) as (_ & j & Hj & ?). congruence. }
    destruct (mem_sound _ _ Hwf _ _ Hq') as (? & ?). split; [by apply Ho|done].
  - intros q j Hf [Hq Hne]%Ho Hj. destruct (mem_full _ _ Hwf q j (Hok q Hf Hne) Hq Hj) as [? Hc]. split; [done|].
    intros d Hd%Hc. cbn [bydigest]. rewrite holders_prunes. case_decide; [|done]. apply list_elem_of_filter. by split.
Qed.
(** The record at [p] changes with its digests: it is taken from the lists of
    the old ones and put into those of the new ones. *)
Lemma mem_unlist_wf ok f p i m :
  (∀ i, ID (f i) = ID i) → (∀ i, Names (f i) = Names i) →
  mem_wf ok m → p ∈ objs (reg m) → heap (reg m) !! p = Some i →
  let m' := mkMem (reg_update f p (reg m)) (foldl (prune_digest p) (bydigest m) (i_Digests i)) in
  mem_wf (λ q, ok q ∧ q ≠ p) m' ∧ ∀ d, p ∉ holders (bydigest m') d.
Proof.
  intros Hf Hn Hwf Hp Hi m'.
  assert (∀ d q, q ∈ holders (bydigest m') d ↔ q ∈ holders (bydigest m) d ∧ q ≠ p) as Hh.
  { intros d q. unfold m'. cbn [bydigest]. rewrite holders_prunes. case_decide as Hd.
    - rewrite list_elem_of_filter. tauto.
    - split; [|tauto]. intros Hq. split; [done|]. intros ->. apply Hd.
      destruct (mem_sound _ _ Hwf _ _ Hq) as (_ & j & Hj & ?). congruence. }
  assert (∀ q, q ≠ p → heap (reg m') !! q = heap (reg m) !! q) as Hheap
    by (intros q Hq; unfold m'; simpl; by rewrite lookup_alter_ne).
  split; [|by intros d [_ ?]%Hh]. split.
  - apply reg_update_wf; [done..|apply Hwf].
  - apply lists_ok_prunes, Hwf.
  - intros d q [Hq Hne]%Hh. rewrite Hheap by done. by apply (mem_sound _ _ Hwf).
  - intros q j [Hq Hne] Ho. rewrite Hheap by done. intros Hj.
    destruct (mem_full _ _ Hwf q j Hq Ho Hj) as [? Hc]. split; [done|]. intros d ?%Hc. by apply Hh.
Qed.

Lemma mem_enlist_wf ok f p i m :
  (∀ i, ID (f i) = ID i) → (∀ i, Names (f i) = Names i) →
  mem_wf (λ q, ok q ∧ q ≠ p) m → p ∈ objs (reg m) → heap (reg m) !! p = Some i →
  (∀ d, p ∉ holders (bydigest m) d) → identified (f i) →
  mem_wf ok (mkMem (reg_update f p (reg m)) (foldl (enlist p) (bydigest m) (i_Digests (f i)))).
Proof.
  intros Hf Hn Hwf Hp Hi Hno Hid.
  assert (∀ q, q ≠ p → alter f p (heap (reg m)) !! q = heap (reg m) !! q) as Hheap
    by (intros q Hq; by rewrite lookup_alter_ne).
  assert (alter f p (heap (reg m)) !! p = Some (f i)) as Hself by (by rewrite lookup_alter_eq, Hi).
  split; simpl.
  - apply reg_update_wf; [done..|apply Hwf].
  - apply lists_ok_enlists, Hwf.
  - intros d q [Hq|[-> Hd]]%holders_enlists; [|eauto].
    rewrite Hheap by (by intros ->; apply (Hno d)). by apply (mem_sound _ _ Hwf).
  - intros q j Hq Ho Hj. destruct (decide (q = p)) as [->|Hne].
    + rewrite Hself in Hj. injection Hj as <-. split; [done|]. intros d Hd. apply holders_enlists. by right.
    + rewrite Hheap in Hj by done. destruct (mem_full _ _ Hwf q j (conj Hq Hne) Ho Hj) as [? Hc].
      split; [done|]. intros d ?%Hc. apply holders_enlists. by left.
Qed.
(** *** Steps of the methods *)

Lemma same_mem_writable : moves same_mem (writable (T := T)).
Proof. unfold writable, getR. moves_steps. Qed.
#[local] Hint Resolve same_mem_writable : moves.

Lemma same_mem_Save : moves same_mem (Save (T := T)).
Proof. unfold Save, getR, getMem. moves_steps. Qed.
#[local] Hint Resolve same_mem_Save : moves.

Lemma wp_writable Φ s :
  (IsReadWrite (lockfile (snd s)) = true → Φ (Ret tt) s) →
  (IsReadWrite (lockfile (snd s)) = false → Φ (Err ErrStoreIsReadOnly) s) →
  wp writable Φ s.
Proof.
  intros Hrw Hro. unfold writable, getR. wp_step. wp_step. destruct (IsReadWrite _); wp_step; auto.
Qed.

Lemma img_wp_lookup id Φ s :
  (∀ p, find (mem (snd s)) id = Some p → Φ (Ret p) s) →
  (find (mem (snd s)) id = None → Φ (Err ErrImageUnknown) s) →
  wp (lookup id) Φ s.
Proof.
  intros Hs Hn. unfold lookup, getMem. wp_step. wp_step. destruct (find _ _) eqn:E; wp_step; auto.
Qed.

Lemma img_wp_deref p i Φ s :
  heap (reg (mem (snd s))) !! p = Some i → Φ (Ret i) s → wp (deref p) Φ s.
Proof. intros Hi HΦ. unfold deref, getMem. wp_step. wp_step. rewrite Hi. by wp_step. Qed.

Lemma img_wp_new i Φ s :
  Φ (Ret (nextp (reg (mem (snd s)))))
    (fst s, set_mem (mkMem (snd (reg_alloc i (reg (mem (snd s))))) (bydigest (mem (snd s)))) (snd s)) →
  wp (new i) Φ s.
Proof. intros HΦ. unfold new, getMem, modReg, modMem. by wp_steps. Qed.

(** *** Specifications *)

(** The record at [p] was replaced by [f] of it. *)
Definition updates (p : positive) (f : Image → Image) (s s' : St) : Prop :=
  mem (snd s') = mkMem (reg_update f p (reg (mem (snd s)))) (bydigest (mem (snd s))).

(** A method that finds an image by [id] and replaces its record by [f] of it,
    or leaves the memory alone; if it returns, it did the former. *)
Definition modifies (id : string) (f : Image → Image) s (o : outcome unit) s' : Prop :=
  conf (snd s') = conf (snd s) ∧
  ((mem (snd s') = mem (snd s) ∧ ¬ is_ret o) ∨
   ∃ p, find (mem (snd s)) id = Some p ∧ updates p f s s').

Lemma modifies_same id f s s' o : same_mem s s' → ¬ is_ret o → modifies id f s o s'.
Proof. intros (Em & Ec & _) Ho. split; [done|]. by left. Qed.

Lemma wp_assign_Save id p f s :
  find (mem (snd s)) id = Some p → wp (_ ← assign p f; Save) (modifies id f s) s.
Proof.
  intros Hp. unfold assign, modReg, modMem. wp_step. wp_step. eapply wp_moves; [apply same_mem_Save|].
  intros o s' (Em & Ec & _). split; [done|]. right. by exists p.
Qed.

Lemma modifies_wf ok id f s o s' :
  (∀ i, ID (f i) = ID i) → (∀ i, Names (f i) = Names i) → (∀ i, dig_part (f i) = dig_part i) →
  mem_wf ok (mem (snd s)) → modifies id f s o s' → mem_wf ok (mem (snd s')).
Proof.
  intros Hi Hn Hd Hwf [_ [[-> _]|(p & _ & ->)]]; [done|]. by apply img_mem_update_wf.
Qed.

(** Only what the functions do to the record at [p] matters. *)
Lemma img_updates_ext p i f g s s' :
  heap (reg (mem (snd s))) !! p = Some i → f i = g i → updates p f s s' → updates p g s s'.
Proof.
  intros Hi Hfg Hm. unfold updates in *. rewrite Hm. f_equal. unfold reg_update. f_equal.
  apply map_eq. intros q. destruct (decide (q = p)) as [->|].
  - rewrite !lookup_alter_eq, Hi. simpl. by rewrite Hfg.
  - by rewrite !lookup_alter_ne.
Qed.

Ltac modify_fails := apply modifies_same; [by try done|apply not_ret_err || apply not_ret_crash].

Lemma img_SetMetadata_wp id metadata s : wp (SetMetadata id metadata) (modifies id (set_Metadata metadata) s) s.
Proof.
  unfold SetMetadata. wp_step. apply wp_writable; [intros _|intros _; modify_fails].
  wp_step. apply img_wp_lookup; [|intros _; modify_fails]. intros p Hp. by apply wp_assign_Save.
Qed.

Lemma img_ClearFlag_wp id flag s :
  wp (ClearFlag id flag) (modifies id (λ i, set_Flags (gomap_delete (Flags i) flag) i) s) s.
Proof.
  unfold ClearFlag. wp_step. apply wp_writable; [intros _|intros _; modify_fails].
  wp_step. apply img_wp_lookup; [|intros _; modify_fails]. intros p Hp. by apply wp_assign_Save.
Qed.

Lemma addMappedTopLayer_wp id layer s :
  wp (addMappedTopLayer id layer)
     (modifies id (λ i, set_MappedTopLayers (MappedTopLayers i ++ [layer])%list i) s) s.
Proof.
  unfold addMappedTopLayer. wp_step. apply img_wp_lookup; [|intros _; modify_fails]. intros p Hp.
  by apply wp_assign_Save.
Qed.

Lemma modifies_ext id p i f g s o s' :
  find (mem (snd s)) id = Some p → heap (reg (mem (snd s))) !! p = Some i → f i = g i →
  modifies id f s o s' → modifies id g s o s'.
Proof.
  intros Hp Hi Hfg [Hc [Hm|(q & Hq & Hu)]]; split; try done; [by left|].
  right. rewrite Hp in Hq. injection Hq as <-. exists p. split; [done|]. by apply (img_updates_ext p i f).
Qed.

Lemma removeMappedTopLayer_wp ok id layer s :
  mem_wf ok (mem (snd s)) →
  wp (removeMappedTopLayer id layer)
     (modifies id (λ i, set_MappedTopLayers (RemoveFromSlice (MappedTopLayers i) layer) i) s) s.
Proof.
  intros Hwf. unfold removeMappedTopLayer. wp_step. apply img_wp_lookup; [|intros _; modify_fails]. intros p Hp.
  destruct (img_find_some _ _ _ _ Hwf Hp) as [_ [i Hi]]. wp_step. eapply img_wp_deref; [done|]. cbv zeta.
  set (f := set_MappedTopLayers _).
  assert (∀ (o : outcome unit) s', modifies id f s o s' → modifies id (λ i, set_MappedTopLayers (RemoveFromSlice (MappedTopLayers i) layer) i) s o s')
    as Hext by (intros o s'; by apply (modifies_ext id p i)).
  case_decide.
  - unfold assign, modReg, modMem. wp_step. wp_step. wp_step. apply Hext. split; [done|]. right. by exists p.
  - eapply wp_mono; [by apply wp_assign_Save|]. intros o s'. apply Hext.
Qed.

Definition add_flag (flag : string) (value : any) (i : Image) : Image :=
  set_Flags (Some (<[flag := value]> (default ∅ (Flags i)))) i.

Lemma img_SetFlag_wp ok id flag value s :
  mem_wf ok (mem (snd s)) → wp (SetFlag id flag value) (modifies id (add_flag flag value) s) s.
Proof.
  intros Hwf. unfold SetFlag. wp_step. apply wp_writable; [intros _|intros _; modify_fails].
  wp_step. apply img_wp_lookup; [|intros _; modify_fails]. intros p Hp.
  destruct (img_find_some _ _ _ _ Hwf Hp) as [_ [i Hi]].
  wp_step. eapply img_wp_deref; [done|]. rewrite gomap_ensure_default. wp_step. apply wp_gomap_set.
  eapply wp_mono; [by apply wp_assign_Save|]. intros o s'. by apply (modifies_ext id p i).
Qed.

Lemma abs_update ok f p i m :
  (∀ i, ID (f i) = ID i) → mem_wf ok m → p ∈ objs (reg m) → heap (reg m) !! p = Some i →
  reg_abs (reg_update f p (reg m)) = <[ID i := f i]> (abs m).
Proof. intros Hf Hwf Hp Hi. exact (reg_update_abs f p i (reg m) Hf (mem_reg _ _ Hwf) Hp Hi). Qed.

Lemma img_Delete_wp ok ok' id s :
  mem_wf ok (mem (snd s)) →
  (∀ p q, find (mem (snd s)) id = Some p → ok' q → q ≠ p → ok q) →
  wp (Delete id) (λ o s',
    if IsReadWrite (lockfile (snd s)) then
      match find (mem (snd s)) id with
      | Some p => mem_wf ok' (mem (snd s')) ∧
                  ∃ i, heap (reg (mem (snd s))) !! p = Some i ∧
                       abs (mem (snd s')) = delete (ID i) (abs (mem (snd s)))
      | None => o = Err ErrImageUnknown ∧ s' = s
      end
    else o = Err ErrStoreIsReadOnly ∧ s' = s) s.
Proof.
  intros Hwf Hok. unfold Delete. wp_step. apply wp_writable; intros Hrw; rewrite Hrw; [|done].
  wp_step. apply img_wp_lookup; [|intros Hn; by rewrite Hn].
  intros p Hp. rewrite Hp. destruct (img_find_some _ _ _ _ Hwf Hp) as [Ho [i Hi]].
  wp_step. eapply img_wp_deref; [done|]. unfold modMem, getR. wp_step. wp_step.
  set (s1 := (fst s, _)).
  assert (∀ s', same_mem s1 s' → mem_wf ok' (mem (snd s')) ∧
    ∃ i, heap (reg (mem (snd s))) !! p = Some i ∧
         abs (mem (snd s')) = delete (ID i) (abs (mem (snd s)))) as Hend.
  { intros s' (Em & _). rewrite Em. split.
    - apply (img_mem_del_wf ok ok' p i); try done. intros q. by apply Hok.
    - exists i. split; [done|]. apply (reg_del_abs (ID i)). }
  wp_step. eapply wp_moves; [apply same_mem_Save|]. intros [[]|e|cr] s2 E2; [|by apply Hend..].
  wp_step. wp_step. eapply wp_moves; [apply same_mem_inWorld|]. intros o s3 E3. apply Hend. by etrans.
Qed.

Lemma img_updateNames_wp ok id names op s :
  mem_wf ok (mem (snd s)) →
  wp (updateNames id names op) (λ o s',
    if IsReadWrite (lockfile (snd s)) then
      match find (mem (snd s)) id with
      | None => o = Err ErrImageUnknown ∧ s' = s
      | Some p => ∃ i, heap (reg (mem (snd s))) !! p = Some i ∧
          match applyNameOperation (Names i) names op with
          | inr e => o = Err e ∧ s' = s
          | inl names' =>
              mem_wf ok (mem (snd s')) ∧
              abs (mem (snd s')) = <[ID i := foldl (λ j n, addNameToHistory n j) (set_Names names' i) names']>
                                     (strip names' <$> abs (mem (snd s)))
          end
      end
    else o = Err ErrStoreIsReadOnly ∧ s' = s) s.
Proof.
  intros Hwf. unfold updateNames. wp_step. apply wp_writable; intros Hrw; rewrite Hrw; [|done].
  wp_step. apply img_wp_lookup; [|intros Hn; by rewrite Hn].
  intros p Hp. rewrite Hp. destruct (img_find_some _ _ _ _ Hwf Hp) as [Ho [i Hi]].
  wp_step. eapply img_wp_deref; [done|]. cbv zeta.
  destruct (applyNameOperation (Names i) names op) as [names'|e] eqn:Eop.
  2: { wp_step. exists i. by rewrite Eop. }
  unfold modReg, modMem. wp_step. wp_step. eapply wp_moves; [apply same_mem_Save|].
  intros o s' (Em & _). exists i. rewrite Em, Eop. split; [done|].
  split; [by apply img_mem_rename_wf|]. unfold abs.
  exact (reg_rename_abs addNameToHistory p i names' _ (mem_reg _ _ Hwf) Ho Hi (λ _ _, eq_refl)).
Qed.

(** *** setBigData *)

(** The record with a big-data item, before its digests are computed. *)
Definition add_item (key data digest : string) (i : Image) : Image :=
  set_BigData (if bool_decide (key ∈ i_BigDataNames i) then i_BigDataNames i else (i_BigDataNames i ++ [key])%list)
    (Some (<[key := Z.of_nat (String.length data)]> (default ∅ (BigDataSizes i))))
    (Some (<[key := digest]> (default ∅ (BigDataDigests i)))) i.

(** The record with the item and its new digests, if they can be computed. *)
Definition with_item (key data digest : string) (i : Image) : Image + error :=
  recomputeDigests (add_item key data digest i).

Lemma same_lock_writable : moves same_lock' (writable (T := T)).
Proof. unfold writable, getR. moves_steps. Qed.
Lemma same_lock_Save : moves same_lock' (Save (T := T)).
Proof. unfold Save, writable, getR, getMem. moves_steps. Qed.
#[local] Hint Resolve same_lock_writable same_lock_Save : moves.

(** Three ways in which [setBigData] can end: nothing happened to the memory;
    the item is recorded with the new digests; the digests could not be
    computed, the item is recorded, and the image is in no list of the index. *)
Definition big_data_post ok (p : positive) (i : Image) (key data digest : string) s (o : outcome unit) s' : Prop :=
  byid (reg (mem (snd s'))) = byid (reg (mem (snd s))) ∧ p ∈ objs (reg (mem (snd s'))) ∧
  match with_item key data digest i with
  | inl j => mem_wf ok (mem (snd s')) ∧
      ((mem (snd s') = mem (snd s) ∧ ¬ is_ret o) ∨
       (heap (reg (mem (snd s'))) !! p = Some j ∧ ID j = ID i ∧
        abs (mem (snd s')) = <[ID i := j]> (abs (mem (snd s)))))
  | inr e => mem_wf (λ q, ok q ∧ q ≠ p) (mem (snd s')) ∧ ¬ is_ret o ∧
      (mem (snd s') = mem (snd s) ∨
       (o = Err e ∧ abs (mem (snd s')) = <[ID i := add_item key data digest i]> (abs (mem (snd s)))))
  end.

Lemma img_big_data_post_same ok p i key data digest s s' o :
  mem_wf ok (mem (snd s)) → p ∈ objs (reg (mem (snd s))) → same_mem s s' → ¬ is_ret o →
  big_data_post ok p i key data digest s o s'.
Proof.
  intros Hwf Hp (Em & _) Ho. unfold big_data_post. rewrite Em. split; [done|]. split; [done|].
  destruct (with_item _ _ _ i); (split; [|by auto]); [done|].
  eapply mem_wf_weaken; [|done]. by intros q [? _].
Qed.

Lemma setBigData_wp ok p i key data digest s :
  mem_wf ok (mem (snd s)) → p ∈ objs (reg (mem (snd s))) → heap (reg (mem (snd s))) !! p = Some i →
  wp (setBigData p key data digest) (big_data_post ok p i key data digest s) s.
Proof.
  intros Hwf Hp Hi. unfold setBigData.
  pose proof (λ s' o, img_big_data_post_same ok p i key data digest s s' o Hwf Hp) as Hfail.
  pose proof (@not_ret_err unit) as Hne. pose proof (@not_ret_crash unit) as Hnc.
  destruct (decide (key = "")) as [_|Hk]; [wp_step; by apply Hfail|].
  wp_step. eapply img_wp_deref; [done|]. unfold getR. wp_step. wp_step.
  wp_step. eapply wp_moves; [apply same_mem_inWorld|]. intros o1 s1 E1.
  destruct o1 as [[]|e|cr]; [|by apply Hfail..].
  wp_step. eapply wp_moves; [apply same_mem_inWorld|]. intros o2 s2 E2.
  assert (same_mem s s2) as E by (by etrans).
  destruct o2 as [[]|e|cr]; [|by apply Hfail..].
  rewrite !gomap_ensure_default. wp_step. apply wp_gomap_set. wp_step. apply wp_gomap_set.
  clear Hfail E1 E2. destruct E as (Em & _).
  unfold assign, modReg, modDigests, modMem. wp_step. wp_step. wp_step. wp_step.
  cbn [fst snd mem set_mem reg bydigest]. rewrite Em. set (m := mem (snd s)) in *.
  set (f := set_BigData _ _ _).
  assert (f i = add_item key data digest i) as Ef by done.
  destruct (mem_unlist_wf ok f p i m) as [Hwf1 Hno]; [done..|].
  pose proof (abs_update ok f p i m (λ _, eq_refl) Hwf Hp Hi) as Habs1. rewrite Ef in Habs1.
  set (m1 := mkMem (reg_update f p (reg m)) (foldl (prune_digest p) (bydigest m) (i_Digests i))) in *.
  assert (heap (reg m1) !! p = Some (add_item key data digest i)) as Hi1
    by (unfold m1; simpl; by rewrite lookup_alter_eq, Hi, <- Ef).
  wp_step. eapply img_wp_deref; [exact Hi1|]. fold (with_item key data digest i).
  unfold big_data_post. fold m.
  pose proof (recompute_spec (add_item key data digest i)) as Hrec. fold (with_item key data digest i) in Hrec.
  destruct (with_item key data digest i) as [j|e] eqn:Ew.
  2: { wp_step. cbn [snd mem set_mem]. split; [done|]. split; [done|]. split; [done|]. split; [done|].
       right. by split. }
  destruct Hrec as (d & l & -> & Hid & _).
  set (j := set_Digests d l (add_item key data digest i)) in *.
  set (g := set_Digests (Digest j) (i_Digests j)).
  assert (g (add_item key data digest i) = j) as Eg by done.
  assert (mem_wf ok (mkMem (reg_update g p (reg m1)) (foldl (enlist p) (bydigest m1) (i_Digests j)))) as Hwf2.
  { rewrite <- Eg. apply (mem_enlist_wf ok g p (add_item key data digest i)); done. }
  pose proof (abs_update _ g p _ m1 (λ _, eq_refl) Hwf1 Hp Hi1) as Habs2. rewrite Eg in Habs2.
  set (m2 := mkMem (reg_update g p (reg m1)) (foldl (enlist p) (bydigest m1) (i_Digests j))) in *.
  wp_step. wp_step. wp_step. wp_step.
  assert (∀ (o : outcome unit) s', mem (snd s') = m2 →
    byid (reg (mem (snd s'))) = byid (reg m) ∧ p ∈ objs (reg (mem (snd s'))) ∧
    mem_wf ok (mem (snd s')) ∧ ((mem (snd s') = m ∧ ¬ is_ret o) ∨
       (heap (reg (mem (snd s'))) !! p = Some j ∧ ID j = ID i ∧
        abs (mem (snd s')) = <[ID i := j]> (abs m)))) as Hend.
  { intros o s' ->. split; [done|]. split; [done|]. split; [done|]. right.
    split; [unfold m2; cbn [reg reg_update heap]; by rewrite lookup_alter_eq, Hi1|]. split; [done|].
    unfold abs at 1. unfold m2. cbn [reg]. rewrite Habs2. unfold abs at 1. unfold m1. cbn [reg].
    rewrite Habs1. apply insert_insert_eq. }
  destruct (_ || _).
  - eapply wp_moves; [apply same_mem_Save|]. intros o s' (Em' & _). by apply Hend.
  - wp_step. by apply Hend.
Qed.

Lemma wp_moves_and {A} (P : relation St) (m : M St A) Φ s :
  moves P m → wp m Φ s → wp m (λ o s', Φ o s' ∧ P s s') s.
Proof. intros Hm HΦ. by split; [|apply Hm]. Qed.

Lemma same_lock_deref p : moves same_lock' (deref (T := T) p).
Proof. unfold deref, getMem. moves_steps. Qed.
#[local] Hint Resolve same_lock_deref : moves.

Lemma same_lock_gomap_set {V} (m : gomap V) k v : moves (same_lock' (C := string) (Mem := imageMem T)) (gomap_set m k v).
Proof. destruct m; simpl; moves_steps. Qed.
#[local] Hint Resolve same_lock_gomap_set : moves.

Lemma same_lock_setBigData p key data digest : moves same_lock' (setBigData (T := T) p key data digest).
Proof. unfold setBigData, assign, modReg, modDigests, getR. moves_steps. Qed.
#[local] Hint Resolve same_lock_setBigData : moves.

(** *** create *)

(** The record with a list of items, stored one after the other. *)
Definition with_items (items : list ImageBigDataOption) (i : Image) : Image + error :=
  foldl (λ r item, match r with
                   | inl i => with_item (Key item) (Data item) (item_digest item) i
                   | inr e => inr e
                   end) (inl i) items.

(** The record at [p] is being filled with items: [i] so far. *)
Definition filling ok (id : string) (p : positive) (i : Image) (abs0 : gmap string Image) s : Prop :=
  mem_wf ok (mem (snd s)) ∧ p ∈ objs (reg (mem (snd s))) ∧ byid (reg (mem (snd s))) !! id = Some p ∧
  heap (reg (mem (snd s))) !! p = Some i ∧ ID i = id ∧ abs (mem (snd s)) = <[id := i]> abs0.

(** It cannot be completed. *)
Definition aborted ok (id : string) (p : positive) (abs0 : gmap string Image) s : Prop :=
  mem_wf (λ q, ok q ∧ q ≠ p) (mem (snd s)) ∧ byid (reg (mem (snd s))) !! id = Some p ∧
  ∃ i, heap (reg (mem (snd s))) !! p = Some i ∧ ID i = id ∧ delete id (abs (mem (snd s))) = abs0.

Lemma filling_aborted ok id p i abs0 s : abs0 !! id = None → filling ok id p i abs0 s → aborted ok id p abs0 s.
Proof.
  intros Hn (Hwf & Hp & Hb & Hi & Hid & Habs). split; [|split; [done|]].
  - eapply mem_wf_weaken; [|done]. by intros q [? _].
  - exists i. split; [done|]. split; [done|]. rewrite Habs, delete_insert_eq. by apply delete_id.
Qed.

Lemma setBigData_filling ok id p i abs0 key data digest s :
  abs0 !! id = None → filling ok id p i abs0 s →
  wp (setBigData p key data digest) (λ o s',
    match o with
    | Ret _ => ∃ j, with_item key data digest i = inl j ∧ filling ok id p j abs0 s'
    | Err _ => aborted ok id p abs0 s'
    | Crash _ => mem_wf ok (mem (snd s'))
    end) s.
Proof.
  intros Hn Hfill. pose proof (filling_aborted _ _ _ _ _ _ Hn Hfill) as Hab.
  destruct Hfill as (Hwf & Hp & Hb & Hi & Hid & Habs).
  eapply wp_mono; [by apply (setBigData_wp ok p i)|]. intros o s' (Eb & Hp' & Hpost).
  assert (mem (snd s') = mem (snd s) → aborted ok id p abs0 s') as Hsame.
  { intros E. unfold aborted. by rewrite E. }
  destruct (with_item key data digest i) as [j|e].
  - destruct Hpost as [Hwf' [[Em Hr]|(Hj & Hidj & Habs')]].
    { destruct o as [[]|e|k]; [|by apply Hsame|done]. exfalso. apply Hr. eexists. done. }
    assert (filling ok id p j abs0 s') as Hf.
    { split; [done|]. split; [done|]. split; [by rewrite Eb|]. split; [done|]. split; [congruence|].
      by rewrite Habs', Habs, Hid, insert_insert_eq. }
    destruct o as [[]|e|k]; [by exists j|by apply (filling_aborted _ _ _ j)|done].
  - destruct Hpost as (Hwf' & Hr & Hor). destruct o as [[]|e'|k]; [exfalso; apply Hr; by eexists|..].
    + destruct Hor as [Em|[_ Habs']]; [by apply Hsame|]. split; [done|]. split; [by rewrite Eb|].
      assert (abs (mem (snd s')) !! id = Some (add_item key data digest i)) as El
        by (by rewrite Habs', Hid, lookup_insert_eq).
      exists (add_item key data digest i). split; [|split; [done|]].
      * unfold abs, reg_abs in El. by rewrite lookup_omap, Eb, Hb in El.
      * rewrite Habs', Habs, Hid, insert_insert_eq, delete_insert_eq. by apply delete_id.
    + destruct Hor as [Em|[? _]]; [by rewrite Em|done].
Qed.

Lemma img_store_items_wp ok id p items i abs0 s :
  abs0 !! id = None → filling ok id p i abs0 s →
  wp (forM items (λ item, setBigData p (Key item) (Data item) (item_digest item))) (λ o s',
    match o with
    | Ret _ => ∃ j, with_items items i = inl j ∧ filling ok id p j abs0 s'
    | Err _ => aborted ok id p abs0 s'
    | Crash _ => mem_wf ok (mem (snd s'))
    end) s.
Proof.
  intros Hn Hfill.
  eapply (wp_forM (λ rest s', ∃ dn j, items = (dn ++ rest)%list ∧ with_items dn i = inl j ∧ filling ok id p j abs0 s')).
  - by exists [], i.
  - intros item rest s1 (dn & j & -> & Hw & Hf). eapply wp_mono; [by apply setBigData_filling|].
    intros [[]|e|k] s2 Ho; [|done..]. destruct Ho as (j' & Hj' & Hf').
    exists (dn ++ [item])%list, j'. split; [by rewrite <- app_assoc|]. split; [|done].
    unfold with_items. rewrite foldl_app. simpl. fold (with_items dn i). by rewrite Hw.
  - intros s1 (dn & j & -> & Hw & Hf). rewrite app_nil_r. by exists j.
Qed.

(** The part of [create] that follows the insertion of the record. *)
Lemma img_create_finish_wp ok id items p i abs0 s (Φ : outcome Image → St → Prop) :
  IsReadWrite (lockfile (snd s)) = true → abs0 !! id = None → filling ok id p i abs0 s →
  (∀ j s', with_items items i = inl j → mem_wf ok (mem (snd s')) →
           abs (mem (snd s')) = <[id := j]> abs0 → Φ (Ret (copyImage j)) s') →
  (∀ e s', mem_wf ok (mem (snd s')) → abs (mem (snd s')) = abs0 → Φ (Err e) s') →
  (∀ k s', mem_wf ok (mem (snd s')) → Φ (Crash k) s') →
  wp (on_error
        (_ ← Save;
         _ ← forM items (λ item, setBigData p (Key item) (Data item) (item_digest item));
         i ← deref p; mret (copyImage i)) (Delete id)) Φ s.
Proof.
  intros Hrw Hn Hfill Hret Herr Hcr.
  assert (∀ e s1, lockfile (snd s1) = lockfile (snd s) → aborted ok id p abs0 s1 →
    wp (Delete id) (λ o s2, match o with Crash k => Φ (Crash k) s2 | _ => Φ (Err e) s2 end) s1) as Hdel.
  { intros e s1 El (Hwf1 & Hb & j & Hj & Hid & Hd). apply img_find_id in Hb as Hfind.
    eapply wp_mono; [apply (img_Delete_wp _ ok id s1 Hwf1)|].
    - intros q q'. rewrite Hfind. by intros [= <-].
    - rewrite El, Hrw, Hfind. intros o s2 (Hwf2 & j' & Hj' & Habs2). rewrite Hj in Hj'. injection Hj' as <-.
      rewrite Hid, Hd in Habs2. destruct o; auto. }
  wp_step. wp_step. eapply wp_mono.
  { apply (wp_moves_and same_lock'); [apply same_lock_Save|]. eapply wp_moves; [apply same_mem_Save|].
    intros o1 s1 E. exact E. }
  intros o1 s1 [(Em & _) (El & _)].
  assert (filling ok id p i abs0 s1) as Hfill1 by (unfold filling; by rewrite Em).
  destruct o1 as [[]|e|k].
  - wp_step. eapply wp_mono; [apply (wp_moves_and same_lock'); [moves_steps|by apply img_store_items_wp]|].
    intros o2 s2 [Ho2 (El2 & _)]. destruct o2 as [[]|e|k].
    + destruct Ho2 as (j & Hw & Hf2). wp_step. eapply img_wp_deref; [apply Hf2|]. wp_step.
      apply Hret; [done|apply Hf2|apply Hf2].
    + apply Hdel; [by etrans|done].
    + by apply Hcr.
  - apply Hdel; [done|]. by apply (filling_aborted _ _ _ i).
  - apply Hcr, Hfill1.
Qed.

Lemma img_same_mem_unusedID rounds : moves same_mem (unusedID (T := T) fuel rounds).
Proof. induction rounds as [|n IH]; simpl; unfold getMem; moves_steps. Qed.
Lemma same_lock_unusedID rounds : moves same_lock' (unusedID (T := T) fuel rounds).
Proof. induction rounds as [|n IH]; simpl; unfold getMem; moves_steps. Qed.

(** What [create] promises. *)
Definition create_post ok (id : string) (names : list string) (layer : string) (options : ImageOptions)
    s (o : outcome Image) s' : Prop :=
  mem_wf ok (mem (snd s')) ∧
  match o with
  | Ret c => ∃ id' created i j,
      (id ≠ "" → id' = id) ∧ (CreationDate options ≠ zeroTime → created = CreationDate options) ∧
      abs (mem (snd s)) !! id' = None ∧
      (∀ n, n ∈ names → byname (reg (mem (snd s))) !! n = None) ∧
      recomputeDigests (newImage id' (dedupeStrings names) layer options created) = inl i ∧
      with_items (o_BigData options) i = inl j ∧
      abs (mem (snd s')) = <[id' := j]> (abs (mem (snd s))) ∧ c = copyImage j
  | Err _ => abs (mem (snd s')) = abs (mem (snd s))
  | Crash _ => True
  end.

(** Steps that touch neither the memory nor the locks. *)
Lemma wp_quiet {A} (m : M St A) Φ s :
  moves same_mem m → moves same_lock' m →
  (∀ o s', mem (snd s') = mem (snd s) → lockfile (snd s') = lockfile (snd s) → Φ o s') → wp m Φ s.
Proof.
  intros Hm Hl HΦ. unfold wp. destruct (Hm s) as (? & _). destruct (Hl s) as (? & _). by apply HΦ.
Qed.

Lemma img_create_wp ok id names layer options s :
  mem_wf ok (mem (snd s)) →
  wp (create fuel id names layer options) (create_post ok id names layer options s) s.
Proof.
  intros Hwf. unfold create, getMem. set (m := mem (snd s)) in *.
  assert (∀ (e : error) (s2 : St), mem (snd s2) = m → create_post ok id names layer options s (Err e) s2) as Hfail.
  { intros e s2 E. unfold create_post. fold m. by rewrite E. }
  assert (∀ (k : crash) (s2 : St), mem (snd s2) = m → create_post ok id names layer options s (Crash k) s2) as Hcrash.
  { intros k s2 E. unfold create_post. by rewrite E. }
  wp_step. apply wp_writable; intros Hrw; [|by apply Hfail].
  wp_step. assert (∀ (Ψ : outcome string → St → Prop),
    (∀ id' s1, mem (snd s1) = m → lockfile (snd s1) = lockfile (snd s) → (id ≠ "" → id' = id) → Ψ (Ret id') s1) →
    (∀ e s1, mem (snd s1) = m → Ψ (Err e) s1) → (∀ k s1, mem (snd s1) = m → Ψ (Crash k) s1) →
    wp (if decide (id = "") then unusedID fuel fuel else mret id) Ψ s) as Hidw.
  { intros Ψ Hr He Hk. case_decide; [|by wp_step; apply Hr].
    apply wp_quiet; [apply img_same_mem_unusedID|apply same_lock_unusedID|]. intros [a|e|k] s1 E El; [by apply Hr|by apply He|by apply Hk]. }
  apply Hidw; clear Hidw; [|done..].
  intros id' s1 Em1 El1 Hid'. wp_step. wp_step. cbv beta. rewrite Em1.
  destruct (decide (is_Some (byid (reg m) !! id'))) as [|Hnew]; [wp_step; by apply Hfail|].
  wp_step. wp_step. cbv beta. rewrite Em1.
  destruct (decide (Exists _ _)) as [|Hnames]; [wp_step; by apply Hfail|].
  wp_step. assert (∀ (Ψ : outcome Z → St → Prop),
    (∀ t s2, mem (snd s2) = m → lockfile (snd s2) = lockfile (snd s) →
             (CreationDate options ≠ zeroTime → t = CreationDate options) → Ψ (Ret t) s2) →
    (∀ e s2, mem (snd s2) = m → Ψ (Err e) s2) → (∀ k s2, mem (snd s2) = m → Ψ (Crash k) s2) →
    wp (if decide (CreationDate options = zeroTime) then inWorld time_Now else mret (CreationDate options)) Ψ s1) as Htw.
  { intros Ψ Hr He Hk. case_decide; [|by wp_step; apply Hr].
    apply wp_quiet; [apply same_mem_inWorld|apply same_lock_inWorld|].
    intros [a|e|k] s2 E El; rewrite ?Em1 in E; rewrite ?El1 in El; [by apply Hr|by apply He|by apply Hk]. }
  apply Htw; clear Htw; [|done..]. intros created s2 Em2 El2 Ht.
  pose proof (recompute_spec (newImage id' (dedupeStrings names) layer options created)) as Hrec.
  destruct (recomputeDigests _) as [i|e] eqn:Erec; [|wp_step; by apply Hfail].
  destruct Hrec as (d & l & Ei & Hident & _).
  assert (ID i = id' ∧ Names i = dedupeStrings names) as (Ei1 & Ei2) by (by rewrite Ei).
  wp_step. apply img_wp_new. rewrite Em2. unfold modMem. wp_step. wp_step. cbn [fst snd mem set_mem reg bydigest].
  apply eq_None_not_Some in Hnew. destruct (reg_alloc_fresh (reg m) (mem_reg _ _ Hwf)) as [Hf Hfn].
  set (p := nextp (reg m)) in *.
  assert (heap (snd (reg_alloc i (reg m))) !! p = Some i) as Hi by apply lookup_insert_eq.
  assert (∀ n, n ∈ names → byname (reg m) !! n = None) as Hnm.
  { intros n Hn. apply eq_None_not_Some. intros Hs. apply Hnames, Exists_exists. exists n.
    split; [by apply elem_of_dedupeStrings|done]. }
  assert (abs m !! id' = None) as Hn0 by (unfold abs, reg_abs; by rewrite lookup_omap, Hnew).
  apply (img_create_finish_wp ok id' (o_BigData options) p i (abs m)); try done.
  - simpl. congruence.
  - unfold filling. cbn [fst snd mem set_mem]. split_and!; try done.
    + rewrite <- Ei1, <- Ei2. apply (img_mem_add_wf ok p i (mkMem (snd (reg_alloc i (reg m))) (bydigest m)));
        [by apply img_mem_alloc_wf|done|done|by rewrite Ei1| |done].
      intros n Hn. rewrite Ei2 in Hn. apply Hnm. by apply elem_of_dedupeStrings.
    + apply elem_of_app. right. by apply list_elem_of_singleton.
    + apply lookup_insert_eq.
    + unfold abs. cbn [reg]. rewrite <- Ei1, <- Ei2. etrans; [exact (reg_add_abs p i _ Hi)|]. f_equal. by apply reg_alloc_abs, Hwf.
  - intros j s' Hw Hwf' Habs'. split; [done|]. exists id', created, i, j. by split_and!.
Qed.

(** *** Every method keeps the invariant *)

(** The digests that the caller's functions give are well-formed. *)
Definition op_valid (o : op) : Prop :=
  match o with
  | OpSetBigData _ _ _ (Some f) => ∀ data d, f data = inl d → ValidateDigest d = None
  | _ => True
  end.

Lemma add_item_valid key data digest i :
  valid_digests i → (bigDataNameIsManifest key = true → ValidateDigest digest = None) →
  valid_digests (add_item key data digest i).
Proof.
  intros Hv Hd e [[-> ?]|(name & Hn & Hm)]; [by apply Hv; left|]. simpl in Hn.
  destruct (decide (name = key)) as [->|Hne].
  - rewrite lookup_insert_eq in Hn. injection Hn as <-. by apply Hd.
  - rewrite lookup_insert_ne in Hn by done. apply Hv. right. exists name. by rewrite gomap_get_default.
Qed.

(** [SetBigData] leaves the memory alone or acts as [setBigData] with the
    digest of the data. *)
Lemma SetBigData_kept (ok : positive → Prop) id key data f s :
  mem_wf ok (mem (snd s)) →
  ((∃ p, ok p) → op_valid (OpSetBigData id key data f)) →
  mem_wf ok (mem (snd (fst (SetBigData id key data f s)))).
Proof.
  intros Hwf Hval. change (wp (SetBigData id key data f) (λ _ s', mem_wf ok (mem (snd s'))) s). unfold SetBigData.
  wp_step. apply wp_writable; [intros _|done].
  wp_step. apply img_wp_lookup; [|done]. intros p Hp. destruct (img_find_some _ _ _ _ Hwf Hp) as [Ho [i Hi]].
  assert (∀ digest, (ok p → bigDataNameIsManifest key = true → ValidateDigest digest = None) →
    wp (setBigData p key data digest) (λ _ s', mem_wf ok (mem (snd s'))) s) as Hset.
  { intros digest Hd. eapply wp_mono; [by apply (setBigData_wp ok p i)|]. intros o s' (_ & _ & Hpost).
    destruct (with_item key data digest i) as [j|e] eqn:Ew; [apply Hpost|].
    destruct Hpost as (Hwf' & _). eapply mem_wf_weaken; [|done]. intros q Hq. split; [done|]. intros ->.
    destruct (mem_full _ _ Hwf p i Hq Ho Hi) as [(Hv & _) _].
    destruct (recompute_total (add_item key data digest i)) as [j Hj]; [by apply add_item_valid; auto|].
    unfold with_item in Ew. congruence. }
  wp_step. destruct (bigDataNameIsManifest key) eqn:Em; [|wp_step; apply Hset; congruence].
  destruct f as [f|]; [|by wp_step]. destruct (f data) as [d|e] eqn:Ef; [|by wp_step].
  wp_step. apply Hset. intros Hp' _. by apply (Hval ltac:(eauto) data).
Qed.

Notation kept ok := (moves (mem_inv (mem_wf ok))).

Lemma kept_Save ok : kept ok (Save (T := T)).
Proof. apply moves_weaken, same_mem_Save. Qed.
Lemma kept_writable ok : kept ok (writable (T := T)).
Proof. apply moves_weaken, same_mem_writable. Qed.
Lemma img_kept_Delete ok id : kept ok (Delete (T := T) id).
Proof.
  intros s Hwf. pose proof (img_Delete_wp ok ok id s Hwf) as Hd. unfold wp in Hd.
  specialize (Hd (λ _ _ _ Hq _, Hq)). destruct (IsReadWrite _); [|destruct Hd as [_ E]; by rewrite E].
  destruct (find _ id); [by destruct Hd|]. destruct Hd as [_ E]; by rewrite E.
Qed.
#[local] Hint Resolve kept_Save kept_writable img_kept_Delete : moves.

Lemma img_kept_GarbageCollect ok : kept ok (GarbageCollect (T := T)).
Proof. unfold GarbageCollect, gc_entry, getR, getMem. moves_steps. Qed.

Lemma kept_updateNames ok id names o : kept ok (updateNames (T := T) id names o).
Proof.
  intros s Hwf. pose proof (img_updateNames_wp ok id names o s Hwf) as Hu. unfold wp in Hu.
  destruct (IsReadWrite _); [|destruct Hu as [_ E]; by rewrite E].
  destruct (find _ id) as [p|]; [|destruct Hu as [_ E]; by rewrite E]. destruct Hu as (i & _ & Hu).
  destruct (applyNameOperation _ _ _); [apply Hu|]. destruct Hu as [_ E]; by rewrite E.
Qed.

Lemma kept_modifies ok id f (m : M St unit) :
  (∀ s, mem_wf ok (mem (snd s)) → wp m (modifies id f s) s) →
  (∀ i, ID (f i) = ID i) → (∀ i, Names (f i) = Names i) → (∀ i, dig_part (f i) = dig_part i) → kept ok m.
Proof. intros Hm Hi Hn Hd s Hwf. eapply modifies_wf; [done..|exact (Hm s Hwf)]. Qed.

Lemma img_kept_run_op ok o :
  ((∃ p, ok p) → op_valid o) → kept ok (run_op (T := T) fuel o).
Proof.
  intros Hval. destruct o as [id names layer options|id names o|id| |id md|id flag v|id flag|id layer|id layer
    |id key data f| |]; simpl.
  - apply moves_bind; [apply _|intros s Hwf|intros ?; moves_step].
    by destruct (img_create_wp ok id names layer options s Hwf).
  - apply kept_updateNames.
  - apply img_kept_Delete.
  - unfold Wipe, getMem. moves_steps.
  - eapply kept_modifies; [intros s _; apply img_SetMetadata_wp|done..].
  - eapply kept_modifies; [intros s Hwf; by apply (img_SetFlag_wp ok)|done..].
  - eapply kept_modifies; [intros s _; apply img_ClearFlag_wp|done..].
  - eapply kept_modifies; [intros s _; apply addMappedTopLayer_wp|done..].
  - eapply kept_modifies; [intros s Hwf; by apply (removeMappedTopLayer_wp ok)|done..].
  - intros s Hwf. by apply SetBigData_kept.
  - apply img_kept_GarbageCollect.
  - apply kept_Save.
Qed.

(** *** load *)

(** The pointers [ps] lead to the records [vs], [None] to a null record. *)
Record loaded ok (ps : list (option positive)) (vs : list (option Image)) m : Prop := {
  ld_wf : mem_wf ok m;
  ld_nodup : NoDup (omap id ps);
  ld_fresh p : Some p ∈ ps → p ∉ objs (reg m);
  ld_values : Forall2 (λ op ov, match op, ov with
                                | Some p, Some v => heap (reg m) !! p = Some v
                                | None, None => True
                                | _, _ => False
                                end) ps vs
}.

Lemma img_loaded_value ok ps vs m p :
  loaded ok ps vs m → Some p ∈ ps → ∃ i, heap (reg m) !! p = Some i ∧ Some i ∈ vs.
Proof.
  intros Hl [k Hk]%list_elem_of_lookup.
  destruct (Forall2_lookup_l _ _ _ _ _ (ld_values _ _ _ _ Hl) Hk) as ([i|] & Hv & Hh); [|done].
  exists i. split; [done|]. by eapply list_elem_of_lookup_2.
Qed.

Lemma elem_of_omap_id (ps : list (option positive)) p : p ∈ omap id ps ↔ Some p ∈ ps.
Proof. rewrite list_elem_of_omap. split; [|intros ?; by exists (Some p)]. intros (op & Hin & E). change (op = Some p) in E. by rewrite <- E. Qed.

Lemma img_loaded_new ok ps vs m i :
  loaded ok ps vs m →
  loaded ok (ps ++ [Some (nextp (reg m))]) (vs ++ [Some i]) (mkMem (snd (reg_alloc i (reg m))) (bydigest m)).
Proof.
  intros Hl. pose proof (ld_wf _ _ _ _ Hl) as Hwf.
  destruct (reg_alloc_fresh (reg m) (mem_reg _ _ Hwf)) as [Hf Hfn].
  assert (Some (nextp (reg m)) ∉ ps) as Hnc.
  { intros Hp. destruct (img_loaded_value _ _ _ _ _ Hl Hp) as (i' & Hi' & _). congruence. }
  split; simpl.
  - by apply img_mem_alloc_wf.
  - rewrite omap_app. apply NoDup_app. split; [apply Hl|]. split; [|apply NoDup_singleton].
    by intros p Hp%elem_of_omap_id ->%list_elem_of_singleton.
  - intros p [Hp|[= ->]%list_elem_of_singleton]%elem_of_app; [by apply (ld_fresh _ _ _ _ Hl)|done].
  - apply Forall2_app; [|constructor; [apply lookup_insert_eq|constructor]].
    apply Forall2_same_length_lookup_2; [by eapply Forall2_length, Hl|]. intros k op ov Hk Hv.
    pose proof (Forall2_lookup_lr _ _ _ _ _ _ (ld_values _ _ _ _ Hl) Hk Hv) as Hh.
    destruct op as [p|], ov as [v|]; try done. rewrite lookup_insert_ne; [done|].
    intros <-. apply Hnc. by eapply list_elem_of_lookup_2.
Qed.

Lemma loaded_null ok ps vs m : loaded ok ps vs m → loaded ok (ps ++ [None]) (vs ++ [None]) m.
Proof.
  intros []. split; try done.
  - by rewrite omap_app, app_nil_r.
  - intros p [?|?%list_elem_of_singleton]%elem_of_app; [by auto|done].
  - apply Forall2_app; [done|]. by constructor.
Qed.

Lemma alloc_images_wp ok l s :
  mem_wf ok (mem (snd s)) →
  wp (foldM alloc_image [] l) (λ o s', ∃ ps, o = Ret ps ∧ loaded ok ps l (mem (snd s')) ∧
                                            fst s' = fst s ∧ lockfile (snd s') = lockfile (snd s) ∧
                                            conf (snd s') = conf (snd s)) s.
Proof.
  intros Hwf. eapply (wp_foldM (λ ps rest s', ∃ dn, l = (dn ++ rest)%list ∧ loaded ok ps dn (mem (snd s')) ∧
     fst s' = fst s ∧ lockfile (snd s') = lockfile (snd s) ∧ conf (snd s') = conf (snd s))).
  - exists []. split_and!; try done. split; [done|constructor|by intros p ?%elem_of_nil|constructor].
  - intros ps oi rest s1 (dn & -> & Hl & E1 & E2 & E3). unfold alloc_image. destruct oi as [i|].
    + wp_step. apply img_wp_new. wp_step. exists (dn ++ [Some i])%list. rewrite <- app_assoc.
      split; [done|]. split; [by apply img_loaded_new|]. done.
    + wp_step. exists (dn ++ [None])%list. rewrite <- app_assoc. split; [done|]. split; [by apply loaded_null|done].
  - intros ps s1 (dn & -> & Hl & E). rewrite app_nil_r. by exists ps.
Qed.

(** *** The loop that builds the index *)

(** Holders of names are known, and every name of a known record leads to it. *)
Definition names_weak (ps : list positive) (bn : gmap string positive) (h : gmap positive Image) : Prop :=
  (∀ n q, bn !! n = Some q → q ∈ ps) ∧
  (∀ q x n, q ∈ ps → h !! q = Some x → n ∈ Names x → bn !! n = Some q).

Lemma names_inv_weak ps bn h : names_inv ps bn h → names_weak ps bn h.
Proof.
  intros Hn. split; [by intros n q [? _]%Hn|]. intros q x n Hq Hx Hnx. apply Hn. split; [done|]. by exists x.
Qed.

Lemma Names_strip l (i : Image) n : n ∈ Names (strip l i) ↔ n ∈ Names i ∧ n ∉ l.
Proof. exact (rnames_strip l i n). Qed.

Lemma evict_spec ps bn h b n :
  names_weak ps bn h →
  let h' := fst (evict bn (h, b) n) in
  names_weak ps bn h' ∧ (∀ q, q ∈ ps → h' !! q = strip [n] <$> h !! q) ∧ (∀ q, q ∉ ps → h' !! q = h !! q).
Proof.
  intros [Hk Hn] h'.
  assert (∀ q, q ∈ ps → h' !! q = strip [n] <$> h !! q) as Hin.
  { intros q Hq. assert (∀ x, h !! q = Some x → bn !! n ≠ Some q → h !! q = strip [n] <$> h !! q) as Hid.
    { intros x Hx Hne. rewrite Hx. refine (f_equal Some (eq_sym (strip_id [n] x _))).
      intros m Hm ->%list_elem_of_singleton. apply Hne. by apply (Hn q x). }
    unfold h', evict. destruct (bn !! n) as [c|] eqn:Ec; simpl.
    - rewrite remove_name_lookup. destruct (decide (q = c)) as [->|Hne].
      + destruct (h !! c) as [x|]; [|done]. refine (f_equal (λ l, Some (set_Names l x)) _).
        unfold stringSliceWithoutValue. apply list_filter_iff. intros m. by rewrite list_elem_of_singleton.
      + destruct (h !! q) as [x|] eqn:Ex; [|done]. apply (Hid x); [done|congruence].
    - destruct (h !! q) as [x|] eqn:Ex; [|done]. by apply (Hid x). }
  split; [|split; [done|]].
  - split; [done|]. intros q x m Hq. rewrite Hin by done. destruct (h !! q) as [y|] eqn:Ey; [|done].
    intros [= <-] Hm. apply (Hn q y m Hq Ey). by destruct (proj1 (Names_strip [n] y m) Hm) as [? _].
  - intros q Hq. unfold h', evict. destruct (bn !! n) as [c|] eqn:Ec; [|done]. simpl.
    rewrite remove_name_lookup, decide_False; [done|]. intros ->. by apply Hq, (Hk n).
Qed.

Lemma evicts_spec ps bn l h b :
  names_weak ps bn h →
  let h' := fst (foldl (evict bn) (h, b) l) in
  (∀ q, q ∈ ps → h' !! q = strip l <$> h !! q) ∧ (∀ q, q ∉ ps → h' !! q = h !! q).
Proof.
  revert h b. induction l as [|n l IH]; intros h b Hw; simpl.
  { split; [|done]. intros q _. destruct (h !! q) as [x|]; [|done]. exact (f_equal Some (eq_sym (strip_nil x))). }
  destruct (evict_spec ps bn h b n Hw) as (Hw' & Hin & Hout).
  destruct (evict bn (h, b) n) as [h1 b1]. simpl in *. destruct (IH h1 b1 Hw') as [Hin' Hout'].
  split; intros q Hq; [|by rewrite Hout', Hout].
  rewrite Hin', Hin by done. destruct (h !! q) as [x|]; [|done]. exact (f_equal Some (strip_app l [n] x)).
Qed.

(** The record that [load] makes of [i], before later records take names. *)
Definition load_record (rw : bool) (i : Image) (j : Image) : Prop :=
  ∃ k, recomputeDigests i = inl k ∧ j = set_ReadOnly (negb rw) k.

(** The state of the loop after the records at [ps], read into the heap [h]. *)
Record indexed (rw : bool) (h : gmap positive Image) (ps : list positive) (x : indexing) : Prop := {
  ix_names : names_inv ps (x_names x) (x_heap x);
  ix_dom q : q ∈ ps → is_Some (h !! q);
  ix_other q : q ∉ ps → x_heap x !! q = h !! q;
  ix_record q i : q ∈ ps → h !! q = Some i →
    ∃ l j, load_record rw i j ∧ x_heap x !! q = Some (strip l j);
  ix_ids i q : x_ids x !! i = Some q ↔ q ∈ ps ∧ ID <$> h !! q = Some i;
  ix_idlist i : i ∈ x_idlist x ↔ ∃ q, q ∈ ps ∧ ID <$> h !! q = Some i;
  ix_lists : lists_ok (x_digests x);
  ix_digests d q : q ∈ holders (x_digests x) d ↔
    q ∈ ps ∧ ∃ j, x_heap x !! q = Some j ∧ d ∈ i_Digests j
}.

Lemma load_record_fields rw i j :
  load_record rw i j → ID j = ID i ∧ Names j = Names i ∧ identified j.
Proof.
  intros (k & Hk & ->). pose proof (recompute_spec i) as Hs. rewrite Hk in Hs.
  destruct Hs as (d & l & -> & Hid & _). done.
Qed.

Lemma load_image_inl rw x p i x' :
  x_heap x !! p = Some i → load_image rw x p = inl x' →
  ∃ j, load_record rw i j ∧
    x' = mkIndexing (<[ID i := p]> (x_ids x)) (x_idlist x ++ [ID i])%list (put_names p (Names i) (x_names x))
           (foldl (add_digest p) (x_digests x) (i_Digests j))
           (<[p := j]> (fst (foldl (evict (x_names x)) (x_heap x, x_dup x) (Names i))))
           (snd (foldl (evict (x_names x)) (x_heap x, x_dup x) (Names i))).
Proof.
  intros Hi. unfold load_image. rewrite Hi. destruct (foldl (evict _) _ _) as [h dup].
  destruct (recomputeDigests i) as [k|e] eqn:Ek; [|done]. intros [= <-].
  exists (set_ReadOnly (negb rw) k). split; [by exists k|].
  assert (load_record rw i (set_ReadOnly (negb rw) k)) as Hl by (by exists k).
  destruct (load_record_fields _ _ _ Hl) as (E1 & E2 & _). simpl in *. by rewrite E1, E2.
Qed.

Lemma img_indexed_step rw h ps x p i x' :
  indexed rw h ps x → p ∉ ps → h !! p = Some i → load_image rw x p = inl x' →
  (∀ q, q ∈ ps → ID <$> h !! q ≠ Some (ID i)) → indexed rw h (ps ++ [p]) x'.
Proof.
  intros Hx Hp Hi Hload Huniq.
  assert (x_heap x !! p = Some i) as Hxi by (by rewrite (ix_other _ _ _ _ Hx)).
  destruct (load_image_inl rw x p i x' Hxi Hload) as (j & Hj & ->).
  destruct (load_record_fields _ _ _ Hj) as (Ej1 & Ej2 & Hident).
  destruct (evicts_spec ps (x_names x) (Names i) (x_heap x) (x_dup x) (names_inv_weak _ _ _ (ix_names _ _ _ _ Hx)))
    as [Hin Hout].
  set (h1 := fst (foldl _ _ _)) in *.
  assert (∀ q, q ∈ ps → <[p := j]> h1 !! q = strip (Names i) <$> x_heap x !! q) as Hps.
  { intros q Hq. rewrite lookup_insert_ne by (by intros ->). by apply Hin. }
  split; cbn [x_names x_heap x_ids x_idlist x_digests].
  - intros n q. rewrite put_names_lookup, elem_of_app, list_elem_of_singleton. case_decide as Hn.
    + split.
      * intros [= <-]. split; [by right|]. exists j. by rewrite lookup_insert_eq, <- Ej2 in *.
      * intros [[Hq| ->] (y & Hy & Hny)]; [|done]. exfalso. rewrite Hps in Hy by done.
        destruct (x_heap x !! q) as [z|]; [|done]. injection Hy as <-.
        by destruct (proj1 (Names_strip (Names i) z n) Hny) as [_ ?].
    + rewrite (ix_names _ _ _ _ Hx n q). split.
      * intros [Hq (y & Hy & Hny)]. split; [by left|]. exists (strip (Names i) y).
        rewrite Hps, Hy by done. split; [done|]. by apply (Names_strip (Names i) y n).
      * intros [[Hq| ->] (y & Hy & Hny)].
        -- split; [done|]. rewrite Hps in Hy by done. destruct (x_heap x !! q) as [z|]; [|done].
           injection Hy as <-. exists z. split; [done|]. by destruct (proj1 (Names_strip (Names i) z n) Hny) as [? _].
        -- rewrite lookup_insert_eq in Hy. injection Hy as <-. exfalso. apply Hn. by rewrite <- Ej2.
  - intros q [Hq| ->%list_elem_of_singleton]%elem_of_app; [by apply (ix_dom _ _ _ _ Hx)|by exists i].
  - intros q [Hq Hne]%not_elem_of_app. rewrite not_elem_of_cons in Hne. destruct Hne as [Hne _].
    rewrite lookup_insert_ne, Hout by done. by apply (ix_other _ _ _ _ Hx).
  - intros q i' [Hq| ->%list_elem_of_singleton]%elem_of_app Hi'.
    + destruct (ix_record _ _ _ _ Hx q i' Hq Hi') as (l & k & Hk & Hl). exists (l ++ Names i)%list, k.
      split; [done|]. rewrite Hps, Hl by done. exact (f_equal Some (strip_app (Names i) l k)).
    + rewrite Hi in Hi'. injection Hi' as <-. exists [], j. split; [done|].
      rewrite lookup_insert_eq. exact (f_equal Some (eq_sym (strip_nil j))).
  - intros i' q. rewrite elem_of_app, list_elem_of_singleton. destruct (decide (i' = ID i)) as [->|Hne].
    + rewrite lookup_insert_eq. split; [intros [= <-]; rewrite Hi; auto|].
      intros [[Hq| ->] E]; [by apply Huniq in E|done].
    + rewrite lookup_insert_ne, (ix_ids _ _ _ _ Hx) by done. split; [tauto|].
      intros [[?| ->] E]; [done|]. rewrite Hi in E. by injection E as <-.
  - intros i'. rewrite elem_of_app, list_elem_of_singleton, (ix_idlist _ _ _ _ Hx).
    setoid_rewrite elem_of_app. setoid_rewrite list_elem_of_singleton. split.
    + intros [(q & ? & ?)| ->]; [exists q; auto|]. exists p. rewrite Hi. auto.
    + intros (q & [?| ->] & E); [left; by exists q|right]. rewrite Hi in E. by injection E.
  - apply lists_ok_adds; [apply Hx|apply Hident|]. intros d [? _]%(ix_digests _ _ _ _ Hx). done.
  - intros d q. rewrite holders_adds by apply Hident. rewrite elem_of_app, list_elem_of_singleton.
    assert (q ∈ holders (x_digests x) d ↔ q ∈ ps ∧ ∃ k, <[p := j]> h1 !! q = Some k ∧ d ∈ i_Digests k) as Hold.
    { rewrite (ix_digests _ _ _ _ Hx). split; intros [Hq (k & Hk & Hd)]; (split; [done|]).
      - exists (strip (Names i) k). by rewrite Hps, Hk.
      - rewrite Hps in Hk by done. destruct (x_heap x !! q) as [z|]; [|done]. injection Hk as <-. by exists z. }
    assert (q = p → (∃ k, <[p := j]> h1 !! q = Some k ∧ d ∈ i_Digests k) ↔ d ∈ i_Digests j) as Hself.
    { intros ->. rewrite lookup_insert_eq. split; [by intros (k & [= <-] & ?)|]. by exists j. }
    case_decide as Hd; [rewrite elem_of_app, list_elem_of_singleton|]; rewrite Hold.
    + split; [intros [[? ?]|Hq]; [by auto|]; split; [by right|by apply Hself]|]. intros [[?|?] ?]; auto.
    + split; [intros [? ?]; auto|]. intros [[?|Hq] Hk]; [done|]. by apply Hself in Hk.
Qed.

(** No record has a name of another one. *)
Definition names_apart (h : gmap positive Image) (ps : list positive) : Prop :=
  ∀ p q i j n, p ∈ ps → q ∈ ps → p ≠ q → h !! p = Some i → h !! q = Some j → n ∈ Names i → n ∉ Names j.

(** Nobody lost a name. *)
Definition clean (rw : bool) (h : gmap positive Image) (ps : list positive) (x : indexing) : Prop :=
  x_dup x = false ∧ ∀ q i, q ∈ ps → h !! q = Some i → ∃ j, load_record rw i j ∧ x_heap x !! q = Some j.

Lemma evicts_clean bn h b l : (∀ n, n ∈ l → bn !! n = None) → foldl (evict bn) (h, b) l = (h, b).
Proof.
  induction l as [|n l IH]; intros Hl; [done|]. simpl. unfold evict at 2. rewrite Hl by left.
  apply IH. intros m Hm. apply Hl. by right.
Qed.

Lemma clean_step rw h ps x p i x' :
  indexed rw h ps x → clean rw h ps x → p ∉ ps → h !! p = Some i → load_image rw x p = inl x' →
  names_apart h (ps ++ [p]) → clean rw h (ps ++ [p]) x'.
Proof.
  intros Hx [Hd Hc] Hp Hi Hload Hap.
  assert (x_heap x !! p = Some i) as Hxi by (by rewrite (ix_other _ _ _ _ Hx)).
  destruct (load_image_inl rw x p i x' Hxi Hload) as (j & Hj & ->).
  rewrite evicts_clean.
  - split; [done|]. intros q i' [Hq| ->%list_elem_of_singleton]%elem_of_app Hi'; simpl.
    + rewrite lookup_insert_ne by (by intros ->). by apply Hc.
    + rewrite Hi in Hi'. injection Hi' as <-. exists j. by rewrite lookup_insert_eq.
  - intros n Hn. apply eq_None_not_Some. intros [q (Hq & y & Hy & Hny)%(ix_names _ _ _ _ Hx)].
    destruct (ix_dom _ _ _ _ Hx q Hq) as [i' Ei'].
    destruct (Hc q i' Hq Ei') as (j' & Hj' & Hy'). rewrite Hy in Hy'. injection Hy' as ->.
    destruct (load_record_fields _ _ _ Hj') as (_ & E & _). change (n ∈ Names j') in Hny. rewrite E in Hny.
    apply (Hap p q i i' n); try done; [..|by intros ->];
      apply elem_of_app; [right; by apply list_elem_of_singleton|by left].
Qed.

Lemma indexed_empty rw h : indexed rw h [] (mkIndexing ∅ [] ∅ ∅ h false).
Proof.
  assert (∀ d, holders (∅ : gmap string (list positive)) d = []) as He by (intros d; unfold holders; by rewrite lookup_empty).
  split; simpl.
  - intros n q. rewrite lookup_empty, elem_of_nil. naive_solver.
  - by intros q ?%elem_of_nil.
  - done.
  - by intros q i ?%elem_of_nil.
  - intros i q. rewrite lookup_empty, elem_of_nil. naive_solver.
  - intros i. setoid_rewrite elem_of_nil. naive_solver.
  - by intros d l.
  - intros d q. rewrite He, elem_of_nil. naive_solver.
Qed.

Lemma load_image_err rw x p i e :
  x_heap x !! p = Some i → load_image rw x p = inr e → recomputeDigests i = inr e.
Proof.
  intros Hi. unfold load_image. rewrite Hi. destruct (foldl (evict _) _ _) as [h dup].
  by destruct (recomputeDigests i) as [k|e']; [|intros [= ->]].
Qed.

(** What the loop knows after the pointers [pre] to the records [vpre]. *)
Definition looped (rw : bool) (h : gmap positive Image) (ps : list positive) (x : indexing) : Prop :=
  indexed rw h ps x ∧ (names_apart h ps → clean rw h ps x).

Lemma names_apart_app h ps qs : names_apart h (ps ++ qs) → names_apart h ps.
Proof. intros Hap p q i j n Hp Hq. apply Hap; apply elem_of_app; by left. Qed.

Lemma looped_step rw h ps x p i x' :
  looped rw h ps x → p ∉ ps → h !! p = Some i → load_image rw x p = inl x' →
  (∀ q, q ∈ ps → ID <$> h !! q ≠ Some (ID i)) → looped rw h (ps ++ [p]) x'.
Proof.
  intros [Hx Hc] Hp Hi Hload Huniq. split; [by apply (img_indexed_step rw h ps x p i)|].
  intros Hap. apply (clean_step rw h ps x p i x'); try done. by apply Hc, (names_apart_app _ _ [p]).
Qed.

(** Different addresses, different identifiers. *)
Lemma loaded_ids ok ps vs m pre p rest i q j :
  loaded ok ps vs m → NoDup (ID <$> omap id vs) → ps = (pre ++ Some p :: rest)%list →
  heap (reg m) !! p = Some i → q ∈ omap id pre → heap (reg m) !! q = Some j → ID j ≠ ID i.
Proof.
  intros Hl Hnd -> Hi Hq%elem_of_omap_id Hj Hid.
  destruct (proj1 (Forall2_app_inv_l _ _ _ _) (ld_values _ _ _ _ Hl)) as (v1 & v2 & H1' & H2' & ->).
  inversion H2' as [|? ov ? v3 Hp Hv3]; subst. destruct ov as [i'|]; [|done]. rewrite Hi in Hp. injection Hp as <-.
  apply list_elem_of_lookup in Hq as [k Hk]. destruct (Forall2_lookup_l _ _ _ _ _ H1' Hk) as ([j'|] & Hv & Hh); [|done].
  rewrite Hj in Hh. injection Hh as <-.
  rewrite omap_app, fmap_app in Hnd. apply NoDup_app in Hnd as (_ & Hd & _). apply (Hd (ID j)).
  - apply list_elem_of_fmap. exists j. split; [done|]. apply list_elem_of_omap. exists (Some j).
    split; [by eapply list_elem_of_lookup_2|done].
  - rewrite Hid. simpl. left.
Qed.

(** The loop over the records. *)
Lemma load_loop_wp ok rw ps vs s :
  loaded ok ps vs (mem (snd s)) → NoDup (ID <$> omap id vs) →
  let h := heap (reg (mem (snd s))) in
  wp (foldM (load_step rw) (mkIndexing ∅ [] ∅ ∅ h false) ps) (λ o s', s' = s ∧
    match o with
    | Ret x => None ∉ ps ∧ looped rw h (omap id ps) x
    | Err e => ∃ i, Some i ∈ vs ∧ recomputeDigests i = inr e
    | Crash _ => None ∈ vs
    end) s.
Proof.
  intros Hl Hnd h.
  eapply (wp_foldM (λ x rest s', s' = s ∧ ∃ pre, ps = (pre ++ rest)%list ∧ None ∉ pre ∧ looped rw h (omap id pre) x)).
  - split; [done|]. exists []. split; [done|]. split; [apply not_elem_of_nil|].
    split; [apply indexed_empty|]. intros _. split; [done|]. by intros q i ?%elem_of_nil.
  - intros x op rest s1 (-> & pre & Eps & Hnone & Hx). unfold load_step.
    assert (op ∈ ps) as Hop by (rewrite Eps; apply elem_of_app; right; left).
    destruct op as [p|].
    + destruct (img_loaded_value _ _ _ _ _ Hl Hop) as (i & Hi & Hv). fold h in Hi.
      assert (p ∉ omap id pre) as Hp.
      { pose proof (ld_nodup _ _ _ _ Hl) as Hn. rewrite Eps, omap_app in Hn.
        apply NoDup_app in Hn as (_ & Hd & _). intros Hp. apply (Hd p Hp). simpl. left. }
      assert (x_heap x !! p = Some i) as Hxi by (destruct Hx as [Hx _]; by rewrite (ix_other _ _ _ _ Hx)).
      destruct (load_image rw x p) as [x'|e] eqn:El; wp_step; (split; [done|]).
      * exists (pre ++ [Some p])%list. rewrite <- app_assoc. split; [done|].
        split; [by intros [?|?%list_elem_of_singleton]%elem_of_app|].
        rewrite omap_app. apply (looped_step rw h _ x p i x'); try done.
        intros q Hq. destruct (h !! q) as [j|] eqn:Ej; [|done]. intros [= Hid].
        by apply (loaded_ids ok ps vs _ pre p rest i q j Hl Hnd Eps Hi Hq Ej).
      * exists i. split; [done|]. by apply (load_image_err rw x p i).
    + wp_step. split; [done|]. apply list_elem_of_lookup in Hop as [k Hk].
      destruct (Forall2_lookup_l _ _ _ _ _ (ld_values _ _ _ _ Hl) Hk) as ([v|] & Hv & Hh); [done|].
      by eapply list_elem_of_lookup_2.
  - intros x s1 (-> & pre & -> & Hnone & Hx). rewrite app_nil_r. done.
Qed.

(** The memory that [load] builds. *)
Definition loaded_mem (ps : list (option positive)) (x : indexing) m : imageMem T :=
  mkMem (mkReg (omap id ps) (TruncIndex.NewTruncIndex (x_idlist x)) (x_ids x) (x_names x) (x_heap x) (nextp (reg m)))
    (x_digests x).

Lemma indexed_record rw h ps x q i :
  indexed rw h ps x → q ∈ ps → h !! q = Some i →
  ∃ j, x_heap x !! q = Some j ∧ ID j = ID i ∧ identified j.
Proof.
  intros Hx Hq Hi. destruct (ix_record _ _ _ _ Hx q i Hq Hi) as (l & j & Hj & E).
  destruct (load_record_fields _ _ _ Hj) as (E1 & _ & Hid). exists (strip l j). split; [done|]. split; [done|].
  by apply (identified_ext j).
Qed.

Lemma img_loaded_mem_wf ok rw ps vs x m :
  loaded ok ps vs m → indexed rw (heap (reg m)) (omap id ps) x → mem_wf full (loaded_mem ps x m).
Proof.
  intros Hl Hx. set (h := heap (reg m)) in *. set (cs := omap id ps) in *.
  assert (∀ q, q ∈ cs → ∃ i j, h !! q = Some i ∧ x_heap x !! q = Some j ∧ ID j = ID i ∧ identified j) as Hrec.
  { intros q Hq. destruct (ix_dom _ _ _ _ Hx q Hq) as [i Hi].
    destruct (indexed_record _ _ _ _ _ _ Hx Hq Hi) as (j & ?). by exists i, j. }
  assert (∀ q, q ∈ cs → ID <$> x_heap x !! q = ID <$> h !! q) as Hid.
  { intros q Hq. destruct (Hrec q Hq) as (i & j & -> & -> & E & _). exact (f_equal Some E). }
  split; [split|..]; cbn [loaded_mem reg bydigest objs heap nextp byid byname idindex].
  - apply Hl.
  - intros p Hp. destruct (Hrec p Hp) as (i & j & _ & -> & _). by eexists.
  - intros p Hp. apply (wf_next _ (mem_reg _ _ (ld_wf _ _ _ _ Hl))). fold h.
    destruct (decide (p ∈ cs)) as [Hin|Hout]; [by apply (ix_dom _ _ _ _ Hx)|by rewrite <- (ix_other _ _ _ _ Hx p Hout)].
  - intros i p. rewrite (ix_ids _ _ _ _ Hx). split; intros [Hp E]; (split; [done|]).
    + etrans; [exact (Hid p Hp)|done].
    + etrans; [symmetry; exact (Hid p Hp)|done].
  - apply Hx.
  - apply TruncIndex.NewTruncIndex_spec.
  - intros i. destruct (TruncIndex.NewTruncIndex_spec (x_idlist x)) as [_ ->]. apply and_iff_compat_r.
    rewrite (ix_idlist _ _ _ _ Hx). split.
    + intros (q & Hq). exists q. by apply (ix_ids _ _ _ _ Hx).
    + intros [q Hq%(ix_ids _ _ _ _ Hx)]. by exists q.
  - apply Hx.
  - intros d p. apply (ix_digests _ _ _ _ Hx).
  - intros p j _ Hp Hj. destruct (Hrec p Hp) as (i & j' & _ & Hj' & _ & Hident).
    rewrite Hj in Hj'. injection Hj' as <-. split; [done|]. intros d Hd. apply (ix_digests _ _ _ _ Hx). by eauto.
Qed.

(** What the file holds; a missing or empty file holds nothing. *)
Definition disk_images (files : gmap string string) (dir : string) : option (list (option Image)) :=
  let data := default "" (files !! imagespath dir) in
  if decide (data = "") then Some [] else Unmarshal data.

(** No two records of the file have the same identifier. *)
Definition disk_ok (s : St) : Prop :=
  ∀ l, disk_images (w_files (fst s)) (conf (snd s)) = Some l → NoDup (ID <$> omap id l).

(** The records of a file that has no conflicts and only good digests. *)
Definition good_records (l : list Image) : Prop :=
  NoDup (ID <$> l) ∧ Forall valid_digests l ∧
  ∀ i j n, i ∈ l → j ∈ l → ID i ≠ ID j → n ∈ Names i → n ∉ Names j.

Lemma read_images_wp ok s :
  mem_wf ok (mem (snd s)) → disk_ok s →
  wp read_images (λ o s',
    lockfile (snd s') = lockfile (snd s) ∧ conf (snd s') = conf (snd s) ∧
    match o with
    | Ret ps => ∃ l, loaded ok ps l (mem (snd s')) ∧ NoDup (ID <$> omap id l) ∧
                     (w_faults (fst s) = [] → disk_images (w_files (fst s)) (conf (snd s)) = Some l)
    | _ => mem_wf ok (mem (snd s')) ∧
           (w_faults (fst s) = [] → disk_images (w_files (fst s)) (conf (snd s)) = None)
    end) s.
Proof.
  intros Hwf Hdisk. unfold read_images, getR. wp_step. wp_step. cbv beta. wp_step.
  assert (moves same_lock' (read_or_empty (C := string) (Mem := imageMem T) (imagespath (conf (snd s))))) as Hq.
  { unfold read_or_empty. moves_steps. }
  eapply wp_mono; [apply (wp_moves_and same_lock'); [exact Hq|apply read_or_empty_wp]|].
  intros o s1 [((Hfi & Hcf & Hfl) & Em & Hd) (El & _ & _)].
  unfold disk_images. unfold disk_ok, disk_images in Hdisk.
  destruct o as [data|e|k].
  2, 3: split; [done|]; split; [done|]; rewrite Em; split; [done|]; intros Hnf; naive_solver.
  assert (w_faults (fst s) = [] → default "" (w_files (fst s) !! imagespath (conf (snd s))) = data) as Hd'.
  { intros Hnf. by destruct Hd as [?|[? _]]. }
  destruct (decide (data = "")) as [Ed|Ed].
  - wp_step. split; [done|]. split; [done|]. exists []. rewrite Em.
    split; [split; [done|constructor|by intros p ?%elem_of_nil|constructor]|]. split; [constructor|].
    intros Hnf. by rewrite (Hd' Hnf), decide_True.
  - destruct Hd as [Hd|[_ ?]]; [|done]. rewrite Hd, decide_False in * by done.
    destruct (Unmarshal data) as [l|] eqn:Eu.
    + rewrite <- Em in Hwf. eapply wp_mono; [by apply (alloc_images_wp ok l)|].
      intros o s2 (ps & -> & Hl & Ew & El2 & Ec2). split; [congruence|]. split; [congruence|].
      exists l. split; [done|]. split; [by apply Hdisk|done].
    + wp_step. split; [done|]. split; [done|]. by rewrite Em.
Qed.

(** The records that [load] makes of those of a file without conflicts. *)
Definition loads (rw : bool) (l : list Image) m : Prop :=
  ∀ i j, abs m !! i = Some j ↔ ∃ r, r ∈ l ∧ ID r = i ∧ load_record rw r j.

Lemma loaded_apart ok ps l m :
  loaded ok ps (Some <$> l) m → good_records l → names_apart (heap (reg m)) (omap id ps).
Proof.
  intros Hl (Hnd & _ & Hap) p q i j n Hp%elem_of_omap_id Hq%elem_of_omap_id Hne Hi Hj.
  assert (∀ p i, Some p ∈ ps → heap (reg m) !! p = Some i → ∃ k, ps !! k = Some (Some p) ∧ l !! k = Some i) as Hin.
  { intros p' i' [k Hk]%list_elem_of_lookup Hi'. exists k. split; [done|].
    destruct (Forall2_lookup_l _ _ _ _ _ (ld_values _ _ _ _ Hl) Hk) as ([i0|] & Hv & Hh); [|done].
    rewrite list_lookup_fmap in Hv. destruct (l !! k) as [i1|]; [|done]. injection Hv as <-. congruence. }
  destruct (Hin p i Hp Hi) as (k1 & Hk1 & Hl1). destruct (Hin q j Hq Hj) as (k2 & Hk2 & Hl2).
  apply Hap; [by eapply list_elem_of_lookup_2..|]. intros Hid. apply Hne.
  assert (k1 = k2) as <-; [|congruence].
  eapply NoDup_lookup; [exact Hnd|rewrite list_lookup_fmap, Hl1; done|rewrite list_lookup_fmap, Hl2; simpl; by rewrite Hid].
Qed.

Lemma img_loaded_clean ok rw ps l x m :
  loaded ok ps (Some <$> l) m → NoDup (ID <$> l) → indexed rw (heap (reg m)) (omap id ps) x →
  clean rw (heap (reg m)) (omap id ps) x → loads rw l (loaded_mem ps x m).
Proof.
  intros Hl Hnd Hx [_ Hc] i j. pose proof (img_loaded_mem_wf _ _ _ _ _ _ Hl Hx) as Hwf.
  etrans; [apply reg_abs_lookup, (mem_reg _ _ Hwf)|]. cbn [loaded_mem reg objs heap].
  assert (∀ q r, q ∈ omap id ps → heap (reg m) !! q = Some r → r ∈ l) as Hin.
  { intros q r Hq%elem_of_omap_id Hr. destruct (img_loaded_value _ _ _ _ _ Hl Hq) as (r' & Hr' & Hv).
    apply list_elem_of_fmap in Hv as (r1 & [= <-] & ?). congruence. }
  split.
  - intros (p & Hp & Hj & Hi). destruct (ix_dom _ _ _ _ Hx p Hp) as [r Hr].
    destruct (Hc p r Hp Hr) as (j' & Hj' & E). rewrite Hj in E. injection E as <-.
    destruct (load_record_fields _ _ _ Hj') as (E1 & _ & _).
    exists r. split; [by apply (Hin p)|]. split; [|done]. rewrite <- E1. exact Hi.
  - intros (r & Hr & Hi & Hj). assert (Some r ∈ Some <$> l) as [k Hk]%list_elem_of_lookup
      by (apply list_elem_of_fmap; by exists r).
    destruct (Forall2_lookup_r _ _ _ _ _ (ld_values _ _ _ _ Hl) Hk) as ([p|] & Hp & Hh); [|done].
    assert (p ∈ omap id ps) as Hp' by (apply elem_of_omap_id; by eapply list_elem_of_lookup_2).
    destruct (Hc p r Hp' Hh) as (j' & Hj' & E). exists p. split; [done|].
    assert (j' = j) as ->.
    { destruct Hj as (k1 & Hk1 & ->), Hj' as (k2 & Hk2 & ->). congruence. }
    split; [done|]. destruct (load_record_fields _ _ _ Hj) as (E1 & _ & _). rewrite <- Hi. exact E1.
Qed.

(** What [load] guarantees. *)
Definition load_post ok s (o : outcome (bool * option error)) s' : Prop :=
  (mem_wf ok (mem (snd s')) ∨ mem_wf full (mem (snd s'))) ∧
  (∀ b, o = Ret (b, None) → mem_wf full (mem (snd s'))) ∧
  (w_faults (fst s) = [] → ∀ l, disk_images (w_files (fst s)) (conf (snd s)) = Some (Some <$> l) →
     good_records l →
     o = Ret (false, None) ∧ mem_wf full (mem (snd s')) ∧ loads (IsReadWrite (lockfile (snd s))) l (mem (snd s'))).

Lemma omap_id_Some (l : list Image) : omap id (Some <$> l) = l.
Proof. induction l as [|i l IH]; [done|]. exact (f_equal (cons i) IH). Qed.

Lemma load_body_wp ok b s :
  mem_wf ok (mem (snd s)) → disk_ok s → wp (load_body b) (load_post ok s) s.
Proof.
  intros Hwf Hdisk. unfold load_body. wp_step. eapply wp_mono; [by apply read_images_wp|].
  intros o s1 (El & Ec & Ho).
  assert (∀ o', (mem_wf ok (mem (snd s1)) ∧ (w_faults (fst s) = [] → disk_images (w_files (fst s)) (conf (snd s)) = None)) →
                (∀ b, o' ≠ Ret (b, None)) → load_post ok s o' s1) as Hfail.
  { intros o' [Hwf1 Hn] Hno. split; [by left|]. split; [intros b' E; by apply Hno in E|].
    intros Hnf l Hl _. rewrite (Hn Hnf) in Hl. done. }
  destruct o as [ps|e|k]; [|by apply Hfail..]. clear Hfail. destruct Ho as (vs & Hl & Hnd & Hvs).
  unfold getMem, getR. wp_step. wp_step. wp_step. wp_step. cbv beta. rewrite El.
  set (rw := IsReadWrite (lockfile (snd s))). wp_step.
  eapply wp_mono; [by apply (load_loop_wp ok rw ps vs)|]. intros o s2 [-> Ho].
  assert (w_faults (fst s) = [] → ∀ l, disk_images (w_files (fst s)) (conf (snd s)) = Some (Some <$> l) → vs = Some <$> l) as Heq.
  { intros Hnf l Hd. rewrite (Hvs Hnf) in Hd. by injection Hd. }
  assert (∀ o', (∀ b, o' ≠ Ret (b, None)) → (∀ l, vs = Some <$> l → good_records l → False) → load_post ok s o' s1) as Hfail.
  { intros o' Hno Hbad. split; [left; apply Hl|]. split; [intros b' E; by apply Hno in E|].
    intros Hnf l Hd Hg. exfalso. by apply (Hbad l (Heq Hnf l Hd)). }
  destruct o as [x|e|k].
  2: { apply Hfail; [done|]. destruct Ho as (i & Hi & Hrec). intros l -> (_ & Hv & _).
       apply list_elem_of_fmap in Hi as (i' & [= <-] & Hi). rewrite Forall_forall in Hv.
       destruct (recompute_total i (Hv i Hi)) as [j Hj]. congruence. }
  2: { apply Hfail; [done|]. intros l -> _. by apply list_elem_of_fmap in Ho as (i' & ? & _). }
  destruct Ho as (Hnone & Hx & Hc). pose proof (img_loaded_mem_wf _ _ _ _ _ _ Hl Hx) as Hwf2.
  assert (∀ l, vs = Some <$> l → good_records l → x_dup x = false ∧ loads rw l (loaded_mem ps x (mem (snd s1)))) as Hgood.
  { intros l -> Hg. assert (clean rw (heap (reg (mem (snd s1)))) (omap id ps) x) as Hcl by (by eapply Hc, loaded_apart).
    split; [apply Hcl|]. apply (img_loaded_clean ok); try done. apply Hg. }
  assert (x_dup x = true → ∀ o', (∀ b, o' ≠ Ret (b, None)) → load_post ok s o' s1) as Hdup.
  { intros Hd o' Hno. apply Hfail; [done|]. intros l Hvl Hg. destruct (Hgood l Hvl Hg). congruence. }
  destruct (x_dup x && negb rw) eqn:E1; [wp_step; apply Hdup; [by destruct (x_dup x)|done]|].
  destruct (x_dup x && negb b) eqn:E2; [wp_step; apply Hdup; [by destruct (x_dup x)|done]|].
  wp_step. wp_step. unfold modMem. wp_step. wp_step. fold (loaded_mem ps x (mem (snd s1))).
  assert (∀ o' s', mem (snd s') = loaded_mem ps x (mem (snd s1)) →
            (x_dup x = false → o' = Ret (false, None)) → load_post ok s o' s') as Hend.
  { intros o' s' Em Hok. split; [right; by rewrite Em|]. split; [intros; by rewrite Em|].
    intros Hnf l Hd Hg. destruct (Hgood l (Heq Hnf l Hd) Hg) as [Hd0 Hlo]. rewrite Em. by split_and!; [apply Hok|..]. }
  destruct (x_dup x); [|wp_step; by apply Hend].
  wp_step. eapply wp_moves; [apply same_mem_Save|].
  intros [[]|e|k] s3 (Em & _); [wp_step|..]; by apply Hend.
Qed.

Lemma img_load_wp ok b s :
  mem_wf ok (mem (snd s)) → disk_ok s → wp (load b) (load_post ok s) s.
Proof.
  intros Hwf Hdisk. unfold load. wp_step. wp_step. eapply wp_mono; [by apply load_body_wp|].
  intros [res|e|k] s' Hp; simpl; [by wp_step| |done]. wp_step.
  destruct Hp as (H1' & _ & H3'). split; [done|]. split; [done|]. intros Hnf l Hd Hg.
  by destruct (H3' Hnf l Hd Hg) as [? _].
Qed.

(** *** Locks *)

Lemma calm_writable : calm (writable (T := T)).
Proof. unfold writable, getR. calm_steps. Qed.
#[local] Hint Resolve calm_writable : calm.
Lemma calm_Save : calm (Save (T := T)).
Proof. unfold Save, getR, getMem. calm_steps. Qed.
#[local] Hint Resolve calm_Save : calm.

Lemma img_load_neutral b : lock_neutral' (load (T := T) b).
Proof.
  assert (lock_neutral (load_body (T := T) b)) as Hb.
  { unfold load_body, read_images, read_or_empty, load_step, alloc_image, new, modReg, getR, getMem, modMem.
    apply calm_neutral; [calm_steps|moves_steps; apply moves_modify; by intros []]. }
  intros s. unfold load. wp_step. wp_step. eapply wp_mono; [apply Hb|].
  intros [res|e|k] s' [Hs Hd]; [by wp_step|by wp_step|]. simpl. by intros ->.
Qed.

(** *** Saving *)

(** A successful [Save] leaves the records in the file. *)
Lemma Save_ret s s' :
  Save s = (s', Ret tt) →
  same_mem s s' ∧ ∃ d, Marshal (reg_values (reg (mem (snd s)))) = Some d ∧
                       w_files (fst s') !! imagespath (conf (snd s)) = Some d.
Proof.
  intros Hrun. pose proof (same_mem_Save s) as Hm. rewrite Hrun in Hm. split; [done|].
  unfold Save in Hrun.
  apply run_bind_ret in Hrun as (sa & [] & Ha & Hrun). apply run_bind_ret in Hrun as (sb & [] & Hb & Hrun).
  apply run_bind_ret in Hrun as (sc & dir & Hc & Hrun). apply run_bind_ret in Hrun as (sd & [] & Hd & Hrun).
  apply run_bind_ret in Hrun as (se & images & He & Hrun). injection Hc as <- <-. injection He as <- <-.
  pose proof (same_mem_writable s) as E1. rewrite Ha in E1.
  pose proof (same_mem_onLock AssertLockedForWriting sa) as E2. rewrite Hb in E2.
  pose proof (same_mem_inWorld (os_MkdirAll (filepath_Dir (imagespath (conf (snd sb))))) sb) as E3. rewrite Hd in E3.
  simpl in E1, E2, E3.
  assert (same_mem s sd) as (Em & _) by (etrans; [exact E1|etrans; [exact E2|exact E3]]).
  assert (same_mem s sb) as (_ & Ec & _) by (etrans; [exact E1|exact E2]).
  rewrite Em in Hrun. destruct (Marshal _) as [d|]; [|done]. exists d. split; [done|].
  apply run_bind_ret in Hrun as (sf & lw & Hf & Hrun). apply run_bind_ret in Hrun as (sg & [] & Hg & Hrun).
  apply AtomicWriteFile_ret in Hrun. by rewrite Ec in Hrun.
Qed.

(** A record that is loaded again: what JSON keeps, the same digest, the same
    set of digests. *)
Definition same_image (rw : bool) (i j : Image) : Prop :=
  j = set_ReadOnly (negb rw) (set_Digests (Digest i) (i_Digests j) (json_image i)) ∧ i_Digests j ≡ₚ i_Digests i.

Lemma identifies_json i d : identifies (json_image i) d ↔ identifies i d.
Proof. unfold identifies. simpl. by setoid_rewrite gomap_get_copy. Qed.

Lemma load_record_json rw i j :
  ValidateDigest "" ≠ None → identified i → load_record rw (json_image i) j → same_image rw i j.
Proof.
  intros He (Hv & Hnd & Hhd & Hin) (k & Hk & ->). pose proof (recompute_spec (json_image i)) as Hs.
  rewrite Hk in Hs. destruct Hs as (d & l & -> & (_ & Hnd' & Hhd' & _) & _ & Hd & Hl). simpl in *.
  assert (∀ e, e ∈ l ↔ e ∈ i_Digests i) as Hll by (intros e; by rewrite Hl, Hin, identifies_json).
  assert (d = Digest i) as ->.
  { destruct (decide (Digest i = "")) as [E|E]; [|by apply Hd]. rewrite E.
    destruct (i_Digests i) as [|e r] eqn:Ei.
    - destruct l as [|e l]; [done|]. exfalso. apply (not_elem_of_nil e), Hll. left.
    - exfalso. simpl in Hhd. apply He. apply Hv. rewrite <- E, Hhd. apply Hin. left. }
  split; [done|]. by apply NoDup_Permutation.
Qed.

Lemma reg_values_objs m i : i ∈ reg_values (reg m) → ∃ p, p ∈ objs (reg m) ∧ heap (reg m) !! p = Some i.
Proof. by intros ?%reg_values_elem. Qed.

Lemma saved_good m :
  mem_wf full m → good_records (json_image <$> reg_values (reg m)).
Proof.
  intros Hwf. split; [|split].
  - rewrite <- list_fmap_compose. exact (reg_values_ids (reg m) (mem_reg _ _ Hwf)).
  - apply Forall_fmap, Forall_forall. intros i (p & Hp & Hi)%reg_values_objs d Hd.
    destruct (mem_full _ _ Hwf p i I Hp Hi) as [(Hv & _) _].
    exact (Hv d (proj1 (identifies_json i d) Hd)).
  - intros i j n (i' & -> & Hi)%list_elem_of_fmap (j' & -> & Hj)%list_elem_of_fmap Hne Hn Hn'. apply Hne.
    simpl in *. by rewrite (reg_values_names (reg m) i' j' n (mem_reg _ _ Hwf)).
Qed.

Context `{!ImageJSONSpec}.

Lemma saved_disk files dir l d :
  Forall (λ i, json_safe i = true) l → Marshal l = Some d → files !! imagespath dir = Some d →
  disk_images files dir = Some (Some <$> (json_image <$> l)).
Proof.
  intros Hs Hm Hf. unfold disk_images. rewrite Hf. cbn [default from_option].
  rewrite decide_False by (by apply json_nonempty in Hm).
  rewrite (json_roundtrip l d) by done. by rewrite list_fmap_compose.
Qed.

End Invariant.

(** ** Theorems *)

Section Theorems.
Context {T : Type} `{PatriciaTrieSpec T}.
Context `{ImageJSONSpec} `{Digests} `{MapRangeSpec}.
Context (fuel : nat).
Notation St := (World * rstore string (imageMem T))%type.
Implicit Types (s : St).

(** Running a sequence of methods, each from where the one before ended. *)
Definition exec (ops : list op) (s : St) : St :=
  foldl (λ s o, fst (run_op (T := T) fuel o s)) s ops.

Lemma exec_wf ok ops s :
  ((∃ p, ok p) → Forall op_valid ops) → mem_wf ok (mem (snd s)) → mem_wf ok (mem (snd (exec ops s))).
Proof.
  unfold exec. revert s. induction ops as [|o ops IH]; intros s Hv Hwf; [done|]. simpl. apply IH.
  - intros Hok. specialize (Hv Hok). by apply Forall_cons in Hv as [_ ?].
  - apply img_kept_run_op; [|done]. intros Hok. specialize (Hv Hok). by apply Forall_cons in Hv as [? _].
Qed.

(** The states that the use of the store from [s] leads to: its methods, in any
    order, each with whatever result, as far as they are [valid]; loading a file
    in which no two records have the same identifier; and in between changes of
    everything but the index, by locking and by other processes. *)
Inductive reached (valid : op → Prop) (s : St) : St → Prop :=
  | reached_start : reached valid s s
  | reached_op o s' : reached valid s s' → valid o → reached valid s (fst (run_op (T := T) fuel o s'))
  | reached_load b s' : reached valid s s' → disk_ok s' → reached valid s (fst (load b s'))
  | reached_outside s' s'' : reached valid s s' → mem (snd s'') = mem (snd s') → reached valid s s''.

Lemma img_reached_exec (valid : op → Prop) ops s s' : Forall valid ops → reached valid s s' → reached valid s (exec ops s').
Proof.
  intros Hv. unfold exec. revert s'. induction Hv as [|o ops Ho _ IH]; intros s' Hr; [done|]. simpl. by apply IH, reached_op.
Qed.

Lemma reached_wf ok (valid : op → Prop) s s' :
  (∀ o, (∃ p, ok p) → valid o → op_valid o) → mem_wf ok (mem (snd s)) → reached valid s s' → mem_wf ok (mem (snd s')).
Proof.
  intros Hv Hwf. induction 1 as [|o s' _ IH Ho|b s' _ IH Hd|s' s'' _ IH E]; [done| | |by rewrite E].
  - apply img_kept_run_op; [|done]. intros Hok. by apply Hv.
  - destruct (img_load_wp ok b s' IH Hd) as [[?|Hf] _]; [done|]. by eapply mem_wf_weaken; [|done].
Qed.

(** C2: The indexes of the image store stay consistent: after any sequence of
    its methods and of loads of files in which no two records have the same
    identifier, with any changes of the file and the locks in between, whatever
    system calls fail and however each call ends, identifiers, names and
    prefixes lead to exactly the images that have them, and a digest only leads
    to images that list it.  If moreover each manifest digest that a caller
    computes for [SetBigData] is well-formed, and every image was found by each
    of the digests of its manifests at the start, this also stays so. *)
Theorem images_invariant s s' :
  (mem_wf partial (mem (snd s)) → reached (λ _, True) s s' → mem_wf partial (mem (snd s'))) ∧
  (mem_wf full (mem (snd s)) → reached op_valid s s' → mem_wf full (mem (snd s'))).
Proof. split; apply reached_wf; [by intros o [p []]|done]. Qed.

(** [ByDigest] enumerates exactly the images whose digest, or the digest
    of one of whose manifests, is the one asked for, each once; it returns
    [ErrImageUnknown] exactly if there is none, and changes nothing. *)
Theorem ByDigest_spec d s :
  mem_wf full (mem (snd s)) →
  let '(s', o) := ByDigest d s in
  s' = s ∧
  match o with
  | Ret l => l ≠ [] ∧ NoDup (ID <$> l) ∧
      ∀ c, c ∈ l ↔ ∃ i, i ∈ reg_values (reg (mem (snd s))) ∧ identifies i d ∧ c = copyImage i
  | Err e => e = ErrImageUnknown ∧ ∀ i, i ∈ reg_values (reg (mem (snd s))) → ¬ identifies i d
  | Crash _ => False
  end.
Proof.
  intros Hwf. unfold ByDigest, getMem, gets, mbind, M_bind. set (m := mem (snd s)) in *.
  assert (∀ i, i ∈ reg_values (reg m) → identifies i d → ∃ p, p ∈ holders (bydigest m) d ∧ heap (reg m) !! p = Some i) as Hc.
  { intros i (p & Hp & Hi)%reg_values_elem Hd. destruct (mem_full _ _ Hwf p i I Hp Hi) as [(_ & _ & _ & Hid) Hh].
    exists p. split; [by apply Hh, Hid|done]. }
  destruct (bydigest m !! d) as [l|] eqn:El; simpl.
  - split; [done|]. destruct (mem_lists _ _ Hwf d l El) as [Hne Hnd].
    assert (holders (bydigest m) d = l) as Eh by (unfold holders; by rewrite El).
    assert (∀ p, p ∈ l → p ∈ objs (reg m) ∧ ∃ i, heap (reg m) !! p = Some i ∧ identifies i d) as Hs.
    { intros p Hp. rewrite <- Eh in Hp. destruct (mem_sound _ _ Hwf d p Hp) as (Ho & i & Hi & Hd).
      split; [done|]. exists i. split; [done|]. destruct (mem_full _ _ Hwf p i I Ho Hi) as [(_ & _ & _ & Hid) _].
      by apply Hid. }
    set (r := omap (λ p, heap (reg m) !! p) l).
    assert (copyImageSlice r = copyImage <$> r) as -> by (by destruct r).
    assert (∀ c, c ∈ copyImage <$> r ↔ ∃ i, i ∈ reg_values (reg m) ∧ identifies i d ∧ c = copyImage i) as Hiff.
    { intros c. rewrite list_elem_of_fmap. split.
      - intros (i & -> & (p & Hp & Hi)%list_elem_of_omap). destruct (Hs p Hp) as (Ho & i' & Hi' & Hd).
        rewrite Hi in Hi'. injection Hi' as <-. exists i. split; [apply reg_values_elem; eauto|done].
      - intros (i & Hv & Hd & ->). exists i. split; [done|]. destruct (Hc i Hv Hd) as (p & Hp & Hi).
        rewrite Eh in Hp. apply list_elem_of_omap. eauto. }
    split_and!; [| |done].
    + destruct l as [|p l]; [done|]. destruct (Hs p) as (_ & i & Hi & _); [left|]. unfold r. simpl. by rewrite Hi.
    + rewrite <- list_fmap_compose. change (NoDup (ID <$> r)). unfold r. clear Hiff r El Eh Hne Hc.
      induction Hnd as [|p l Hp Hnd IH]; [constructor|]. simpl. destruct (Hs p) as (Ho & i & Hi & _); [left|].
      rewrite Hi. rewrite fmap_cons. constructor; [|apply IH; intros q Hq; apply Hs; by right].
      intros (j & Hij & (q & Hq & Hj)%list_elem_of_omap)%list_elem_of_fmap. apply Hp.
      destruct (Hs q) as (Hoq & _); [by right|].
      by rewrite (wf_same_id (reg m) p q i j (mem_reg _ _ Hwf) Ho Hoq Hi Hj Hij).
  - split; [done|]. split; [done|]. intros i Hi Hd. destruct (Hc i Hi Hd) as (p & Hp & _).
    unfold holders in Hp. rewrite El in Hp. by apply elem_of_nil in Hp.
Qed.

(** [recomputeDigests] computes the set of digests by which an image can
    be found: it succeeds exactly if the digest of the image and those of its
    manifests are well-formed, then [Digests] lists each of them once with that
    of the image first, an explicit [Digest] is kept, nothing else changes, and
    doing it again changes nothing. *)
Theorem recomputeDigests_spec i :
  match recomputeDigests i with
  | inl j => valid_digests i ∧ j = set_Digests (Digest j) (i_Digests j) i ∧
             NoDup (i_Digests j) ∧ (∀ d, d ∈ i_Digests j ↔ identifies i d) ∧
             (Digest i ≠ "" → Digest j = Digest i) ∧ Digest j = hd "" (i_Digests j) ∧
             recomputeDigests j = inl j
  | inr e => ∃ d, identifies i d ∧ ValidateDigest d = Some e
  end.
Proof.
  pose proof (recompute_spec i) as Hs. pose proof (recompute_idem i) as Hi.
  destruct (recomputeDigests i) as [j|e]; [|done].
  destruct Hs as (d & l & -> & (_ & Hnd & Hhd & _) & Hv & Hd & Hin). simpl in *. split_and!; auto.
Qed.

(** [create] adds exactly the image it describes, with its big data and
    digests, or changes nothing: if it returns, the identifier and the names
    were free and the digests well-formed, and the store has one more record,
    whose copy is returned; if it fails at any point, also after it had added
    the record, the store has the records it had before.  In every case the
    indexes stay complete. *)
Theorem image_create_spec id names layer options s :
  mem_wf full (mem (snd s)) →
  let '(s', o) := create fuel id names layer options s in
  create_post full id names layer options s o s'.
Proof.
  intros Hwf. pose proof (img_create_wp fuel full id names layer options s Hwf) as Hc.
  unfold wp in Hc. by destruct (create _ _ _ _ _ s).
Qed.

(** [Delete] of an image that is found removes it, and only it, whether
    or not the file can be written, and no digest leads to it any more; a
    read-only store refuses, and an unknown image is [ErrImageUnknown], without
    any change. *)
Theorem image_Delete_spec id s :
  mem_wf full (mem (snd s)) →
  let '(s', o) := Delete id s in
  if IsReadWrite (lockfile (snd s)) then
    match find (mem (snd s)) id with
    | Some p => ∃ i, heap (reg (mem (snd s))) !! p = Some i ∧
                     abs (mem (snd s')) = delete (ID i) (abs (mem (snd s))) ∧
                     ∀ d q, q ∈ holders (bydigest (mem (snd s'))) d →
                            ∃ j, heap (reg (mem (snd s'))) !! q = Some j ∧ ID j ≠ ID i
    | None => o = Err ErrImageUnknown ∧ s' = s
    end
  else o = Err ErrStoreIsReadOnly ∧ s' = s.
Proof.
  intros Hwf. pose proof (img_Delete_wp full full id s Hwf (λ _ _ _ _ _, I)) as Hd. unfold wp in Hd.
  destruct (Delete id s) as [s' o]. simpl in Hd. destruct (IsReadWrite _); [|done].
  destruct (find _ id) as [p|] eqn:Ef; [|done]. destruct Hd as (Hwf' & i & Hi & Habs).
  exists i. split; [done|]. split; [done|]. intros d q Hq.
  destruct (mem_sound _ _ Hwf' d q Hq) as (Ho & j & Hj & _). exists j. split; [done|]. intros E.
  assert (abs (mem (snd s')) !! ID j = Some j) as El by (apply (reg_abs_lookup _ _ _ (mem_reg _ _ Hwf')); by exists q).
  by rewrite Habs, E, lookup_delete_eq in El.
Qed.

Lemma history_fields names i :
  let j := foldl (λ j n, addNameToHistory n j) i names in
  j = set_NamesHistory (NamesHistory j) i ∧
  NamesHistory j = (if decide (names = []) then NamesHistory i
                    else dedupeStrings (reverse names ++ NamesHistory i)).
Proof.
  revert i. induction names as [|n names IH]; intros i; [by destruct i|]. cbn [foldl].
  destruct (IH (addNameToHistory n i)) as [E1 E2]. set (j := foldl _ _ _) in *. clearbody j. split.
  - rewrite E1. simpl. done.
  - rewrite E2. rewrite (decide_False (P := n :: names = [])) by done. simpl.
    rewrite reverse_cons, <- app_assoc. case_decide as En; [by subst|].
    unfold dedupeStrings. by rewrite dedupe_from_app_twice.
Qed.

(** [updateNames] gives the image exactly the names the operation asks
    for, takes them from whoever had them, and records each of them at the
    front of the history without duplicates; no other record changes. *)
Theorem image_updateNames_spec id names op s p i names' :
  mem_wf partial (mem (snd s)) → IsReadWrite (lockfile (snd s)) = true →
  find (mem (snd s)) id = Some p → heap (reg (mem (snd s))) !! p = Some i →
  applyNameOperation (Names i) names op = inl names' →
  let m' := mem (snd (fst (updateNames id names op s))) in
  ∃ j, abs m' = <[ID i := j]> (strip names' <$> abs (mem (snd s))) ∧
       Names j = names' ∧ j = set_NamesHistory (NamesHistory j) (set_Names names' i) ∧
       NamesHistory j = (if decide (names' = []) then NamesHistory i
                         else dedupeStrings (reverse names' ++ NamesHistory i)).
Proof.
  intros Hwf Hrw Hp Hi Hop m'. pose proof (img_updateNames_wp partial id names op s Hwf) as Hu. unfold wp in Hu.
  rewrite Hrw, Hp in Hu. destruct Hu as (i' & Hi' & Hu). rewrite Hi in Hi'. injection Hi' as <-.
  rewrite Hop in Hu. destruct Hu as [_ Habs].
  eexists. split; [exact Habs|]. destruct (history_fields names' (set_Names names' i)) as [E1 E2].
  set (j := foldl _ _ _) in *. clearbody j. split; [by rewrite E1|]. split; [exact E1|exact E2].
Qed.

(** [load] builds complete indexes from whatever the file holds, also
    when several images claim a name, as long as no two records have the same
    identifier: if it reports no error, every image is found by its identifier,
    its names and its digests; an error or a crash leaves the old indexes or
    consistent new ones. *)
Theorem image_load_establishes_invariant b s :
  mem_wf partial (mem (snd s)) → disk_ok s →
  let '(s', o) := load b s in
  mem_wf partial (mem (snd s')) ∧ (∀ t, o = Ret (t, None) → mem_wf full (mem (snd s'))).
Proof.
  intros Hwf Hd. pose proof (img_load_wp partial b s Hwf Hd) as Hl. unfold wp in Hl.
  destruct (load b s) as [s' o]. destruct Hl as ([?|Hf] & Ht & _); (split; [|exact Ht]); [done|].
  eapply mem_wf_weaken; [|exact Hf]. done.
Qed.

(** Saving and loading: after a successful [Save], any store on the same
    directory, read-only or not, that loads the file gets exactly the images
    that were saved; a record keeps all that JSON keeps, its digest, and the
    set of digests by which it is found. *)
Theorem image_save_load_roundtrip s s1 b (s2 : St) :
  mem_wf full (mem (snd s)) → Forall (λ i, json_safe i = true) (reg_values (reg (mem (snd s)))) →
  ValidateDigest "" ≠ None → Save s = (s1, Ret tt) →
  mem_wf partial (mem (snd s2)) → conf (snd s2) = conf (snd s) →
  w_files (fst s2) = w_files (fst s1) → w_faults (fst s2) = [] →
  let '(s', o) := load b s2 in
  o = Ret (false, None) ∧
  ∀ id, option_Forall2 (same_image (IsReadWrite (lockfile (snd s2))))
                       (abs (mem (snd s)) !! id) (abs (mem (snd s')) !! id).
Proof.
  intros Hwf Hsafe He Hsave Hwf2 Hcf Hf Hnf. set (m := mem (snd s)) in *.
  destruct (Save_ret s s1 Hsave) as (_ & d & Hd & Hfile). fold m in Hd.
  assert (disk_images (w_files (fst s2)) (conf (snd s2)) = Some (Some <$> (json_image <$> reg_values (reg m)))) as Hdisk.
  { apply (saved_disk _ _ _ d); [done|done|]. by rewrite Hf, Hcf. }
  pose proof (saved_good m Hwf) as Hgood.
  assert (disk_ok s2) as Hok.
  { intros l Hl. rewrite Hdisk in Hl. injection Hl as <-. rewrite omap_id_Some. apply Hgood. }
  pose proof (img_load_wp partial b s2 Hwf2 Hok) as Hl. unfold wp in Hl. destruct (load b s2) as [s' o]. cbn [fst snd] in Hl.
  destruct Hl as (_ & _ & Hl). destruct (Hl Hnf _ Hdisk Hgood) as (-> & _ & Hlo). split; [done|]. intros id.
  set (rw := IsReadWrite _) in *.
  assert (∀ i j, i ∈ reg_values (reg m) → load_record rw (json_image i) j → same_image rw i j) as Hsame.
  { intros i j (p & Hp & Hi)%reg_values_elem Hr. apply load_record_json; try done.
    by destruct (mem_full _ _ Hwf p i I Hp Hi). }
  assert (∀ i, abs m !! id = Some i ↔ i ∈ reg_values (reg m) ∧ ID i = id) as Habs
    by (intros i; apply (reg_abs_values (reg m) id i (mem_reg _ _ Hwf))).
  destruct (abs m !! id) as [i|] eqn:Ei.
  - destruct (proj1 (Habs i) eq_refl) as [Hv Hid].
    destruct Hgood as (_ & Hval & _). rewrite Forall_forall in Hval.
    destruct (recompute_total (json_image i)) as [k Hk]; [apply Hval, list_elem_of_fmap; by exists i|].
    assert (load_record rw (json_image i) (set_ReadOnly (negb rw) k)) as Hr by (by exists k).
    rewrite (proj2 (Hlo id (set_ReadOnly (negb rw) k))).
    + constructor. by apply Hsame.
    + exists (json_image i). split; [apply list_elem_of_fmap; by exists i|done].
  - destruct (abs (mem (snd s')) !! id) as [j|] eqn:Ej; [|constructor]. exfalso.
    apply Hlo in Ej as (r & (i & -> & Hi)%list_elem_of_fmap & Hid & _).
    pose proof (proj2 (Habs i) (conj Hi Hid)) as E. discriminate E.
Qed.

(** The methods that begin with the check that the store can be written. *)
Definition checks_first (o : op) : bool :=
  match o with
  | OpGarbageCollect | OpAddMappedTopLayer _ _ | OpRemoveMappedTopLayer _ _ => false
  | _ => true
  end.

(** A read-only image store is never written: every method that changes
    records fails with [ErrStoreIsReadOnly] before it does anything, and the two
    that do not check leave the file system alone. *)
Theorem readonly_images o s :
  IsReadWrite (lockfile (snd s)) = false →
  if checks_first o then run_op fuel o s = (s, Err ErrStoreIsReadOnly)
  else o ≠ OpGarbageCollect → fst (fst (run_op fuel o s)) = fst s.
Proof.
  intros Hro. assert (writable s = (s, Err ErrStoreIsReadOnly)) as Hw.
  { unfold writable, getR, gets, mbind, M_bind. by rewrite Hro. }
  assert (∀ A (m : M St A), (_ ← writable; m) s = (s, Err ErrStoreIsReadOnly)) as Hrun.
  { intros A m. unfold mbind, M_bind. by rewrite Hw. }
  assert (∀ (s1 : St), IsReadWrite (lockfile (snd s1)) = false → Save s1 = (s1, Err ErrStoreIsReadOnly)) as Hsave.
  { intros s1 Hro1. unfold Save, writable, getR, gets, mbind, M_bind. by rewrite Hro1. }
  destruct o; cbn [checks_first]; try exact (Hrun _ _); try (intros Hne).
  - unfold run_op, create. unfold mbind at 1, M_bind at 1. by rewrite (Hrun _ _).
  - unfold run_op, addMappedTopLayer, lookup, getMem, gets, assign, modReg, modMem, modify, mbind, M_bind.
    destruct (find _ _); [|done]. cbn [fst snd mret M_ret]. by rewrite Hsave.
  - unfold run_op, removeMappedTopLayer, lookup, deref, getMem, gets, assign, modReg, modMem, modify, mbind, M_bind.
    destruct (find _ _); [|done]. cbn [fst snd mret M_ret]. destruct (heap _ !! _); [|done]. simpl.
    case_decide; [done|]. by rewrite Hsave.
  - by destruct Hne.
Qed.

(** *** Opening a store *)

Lemma openStore_wp rw w (r : rstore string (imageMem T)) :
  unlocked r → wp (openStore rw) (postc (λ _ s, unlocked (snd s)) (λ _ s, unlocked (snd s))) (w, r).
Proof.
  intros Hu. unfold openStore.
  assert (∀ s1, wp (openBody rw) (postc (λ _ s2, same_lock (snd s1) (snd s2)) (λ _ s2, same_lock (snd s1) (snd s2))) s1) as Hbody.
  { intros s1. unfold openBody. wp_step. eapply wp_mono; [apply lock_neutral_GetLastWrite|].
    intros [lw|e|k] s2 [Hs Hd]; [|exact Hs|by simpl; intros ->].
    wp_step. wp_step. wp_step. eapply wp_mono; [apply img_load_neutral|].
    intros [[tr [err|]]|e|k] s3 Hs3; simpl in Hs3; try done; wp_step; eapply same_lock_trans; done. }
  destruct rw; wp_step.
  - unfold startWritingWithReload. eapply wp_mono; [by apply (startWriting_wp load img_load_neutral false)|].
    intros [[]|e|k] s1 Hs1; [|exact Hs1|exact Hs1]. wp_step. eapply wp_mono; [apply Hbody|].
    assert (∀ s2, same_lock (snd s1) (snd s2) → wp stopWriting (λ o s3, o = Ret tt ∧ unlocked (snd s3)) s2) as Hstop.
    { intros [w2 r2] Hs2. eapply wp_mono; [apply stopWriting_wp; by eapply same_lock_writing|].
      intros o s3 (-> & ? & _). done. }
    intros [[]|e|k] s2 Hs2; [| |done]; (eapply wp_mono; [by apply Hstop|]); by intros o s3 [-> ?].
  - unfold startReadingWithReload. eapply wp_mono; [by apply (startReading_wp load img_load_neutral false)|].
    intros [[]|e|k] s1 Hs1; [|exact Hs1|exact Hs1]. wp_step. eapply wp_mono; [apply Hbody|].
    assert (∀ s2, same_lock (snd s1) (snd s2) → wp stopReading (λ o s3, o = Ret tt ∧ unlocked (snd s3)) s2) as Hstop.
    { intros [w2 r2] Hs2. eapply wp_mono; [apply stopReading_wp; by eapply same_lock_reading|].
      intros o s3 (-> & ? & _). done. }
    intros [[]|e|k] s2 Hs2; [| |done]; (eapply wp_mono; [by apply Hstop|]); by intros o s3 [-> ?].
Qed.

(** The lock object of a path, if there is one, is not held. *)
Definition lock_free (path : string) (t : LockTable) : Prop :=
  ∀ l, snd t !! path = Some l → lf_is MFree 0 false None l.

Definition lock_path (dir : string) : string := filepath_Clean (filepath_Join [dir; "images.lock"]).

Lemma calm_openLock path : calm (openLock path).
Proof. intros w. apply openLock_no_deadlock. Qed.
#[local] Hint Resolve calm_openLock calm_newLastWrite : calm.

Lemma getLockfile_wp p ro (t : LockTable) :
  let path := filepath_Clean p in
  (∀ l, snd t !! path = Some l → file l = path) → lock_free path t →
  wp (getLockfile p ro) (λ o t', lock_free path t' ∧ o ≠ Crash Deadlock ∧
    (∀ l, o = Ret l → file l = path ∧ lf_is MFree 0 false None l)) t.
Proof.
  intros path Hfile Hfree. unfold getLockfile. fold path. wp_step. wp_step.
  destruct (snd t !! path) as [l|] eqn:El.
  - destruct (ro && _); [by wp_step|]. destruct (negb ro && _); [by wp_step|]. wp_step.
    split; [done|]. split; [done|]. intros l' [= <-]. split; [by apply Hfile|by apply Hfree].
  - wp_step. wp_step.
    assert (calm (createLockFileForPath path ro)) as Hc by (unfold createLockFileForPath; calm_steps).
    specialize (Hc (fst t)). unfold wp.
    assert (∀ l, snd (createLockFileForPath path ro (fst t)) = Ret l → file l = path ∧ lf_is MFree 0 false None l) as Hnew.
    { intros l. unfold createLockFileForPath, mbind, M_bind. destruct (openLock path (fst t)) as [w1 [[]|e|k]]; [|done|done].
      rewrite newLastWrite_run. by intros [= <-]. }
    destruct (createLockFileForPath path ro (fst t)) as [w1 [l|e|k]]; simpl in *; [|done|].
    + destruct (Hnew l eq_refl) as [? ?]. split; [|split; [done|]]; [|by intros l' [= <-]].
      intros l'. simpl. rewrite lookup_insert_eq. by intros [= <-].
    + split; [done|]. split; [|done]. intros [= ->]. done.
Qed.

Lemma openNew_wp rw lock dir (t : LockTable) :
  lf_is MFree 0 false None lock →
  wp (openNew rw lock dir) (λ o t', o ≠ Crash Deadlock ∧
    match o with
    | Crash _ => True
    | Ret r => unlocked r ∧ lock_free (file lock) t'
    | Err _ => lock_free (file lock) t'
    end) t.
Proof.
  intros Hfree. pose proof (openStore_wp rw (fst t) (emptyStore (T := T) lock dir)) as Ho. unfold wp, openNew in *.
  specialize (Ho (conj Hfree eq_refl)). destruct (openStore rw (fst t, emptyStore lock dir)) as [[w r] o].
  simpl in Ho. destruct o as [[]|e|k]; unfold fmap; simpl in *.
  - split; [discriminate|]. split; [exact Ho|]. intros l. simpl. rewrite lookup_insert_eq. intros [= <-]. apply Ho.
  - split; [done|]. intros l. simpl. rewrite lookup_insert_eq. intros [= <-]. apply Ho.
  - split; [|done]. by intros [= ->].
Qed.

(** How an attempt to open the store of a directory can end. *)
Definition opened (dir : string) (o : outcome (rstore string (imageMem T))) (t' : LockTable) : Prop :=
  o ≠ Crash Deadlock ∧
  match o with
  | Crash _ => True
  | Ret r => unlocked r ∧ lock_free (lock_path dir) t'
  | Err _ => lock_free (lock_path dir) t'
  end.

(** Opening an image store, for writing or read-only, never leaves its
    lock held: however it ends short of a crash, the lock object of the
    directory is free again and it never waits for itself. *)
Theorem image_store_open_releases (readWrite : bool) dir (t : LockTable) :
  (∀ l, snd t !! lock_path dir = Some l → file l = lock_path dir) → lock_free (lock_path dir) t →
  let '(t', o) := (if readWrite then newImageStore dir else newROImageStore dir) t in opened dir o t'.
Proof.
  intros Hfile Hfree.
  assert (∀ (t1 : LockTable), (∀ l, snd t1 !! lock_path dir = Some l → file l = lock_path dir) →
    lock_free (lock_path dir) t1 →
    wp (lock ← getLockfile (filepath_Join [dir; "images.lock"]) (negb readWrite); openNew (T := T) readWrite lock dir)
      (opened dir) t1) as Hopen.
  { intros t1 Hfile1 Hfree1. wp_step. eapply wp_mono; [by apply getLockfile_wp|].
    intros [lock|e|k] t2 (Hf2 & Hd2 & Hl2);
      [|split; [done|exact Hf2]|split; [|done]; by intros [= ->]].
    destruct (Hl2 lock eq_refl) as [El Hlf]. change (file lock = lock_path dir) in El. unfold opened. rewrite <- El.
    by apply openNew_wp. }
  apply (run_wp _ (opened dir)). destruct readWrite; [|exact (Hopen t Hfile Hfree)].
  unfold newImageStore, GetLockFile. wp_step. wp_step.
  pose proof (calm_MkdirAll dir (fst t)) as Hc. unfold wp at 1.
  destruct (os_MkdirAll dir (fst t)) as [w1 [[]|e|k]]; cbn [fst snd] in *;
    [exact (Hopen (w1, snd t) Hfile Hfree)|split; [done|exact Hfree]|split; [|done]; by intros [= ->]].
Qed.

End Theorems.

(** ** Runs of the model *)

(** Digests are well-formed if they name their algorithm. *)
#[local] Instance demo_digests : Digests := {
  FromBytes d := "sha256:" +:+ hex_encode d;
  ValidateDigest d := if String.prefix "sha256:" d then None else Some (ErrOther "invalid checksum digest format")
}.

Notation demo_st := (World * rstore string (imageMem (gset string)))%type.

(** An empty store, locked for writing, in the directory [/i]; the same,
    read-only and locked for reading. *)
Definition demo_empty : demo_st :=
  (demo_world, mkStore (mkLockFile "/i/images.lock" false MWriter 1 (mkLastWrite None) WriteLock true)
                 "/i" MWriter (mkLastWrite (Some "")) (mkMem reg_empty ∅)).

Definition demo_readonly : demo_st :=
  (demo_world, mkStore (mkLockFile "/i/images.lock" true (MReaders 1) 1 (mkLastWrite None) ReadLock true)
                 "/i" (MReaders 1) (mkLastWrite (Some "")) (mkMem reg_empty ∅)).

Definition demo_manifest (data : string) : string + error := inl ("sha256:" +:+ hex_encode data).

(** An image [a1] named [x] with a manifest, and an image [b2] with a digest of
    its own. *)
Definition demo_ops : list op :=
  [OpCreate "a1" ["x"; "x"] "layer-a" noOptions;
   OpSetBigData "x" "manifest" "mm" (Some demo_manifest);
   OpCreate "b2" ["y"] "layer-b"
     (mkImageOptions 7 "sha256:00" [] "" [mkBigDataOption "manifest-1" "mm" ""] [] None)].

Notation exec' := (exec (T := gset string) 8).
Notation create' := (create (T := gset string) 8).

Definition demo_two : demo_st := exec' demo_ops demo_empty.

Lemma image_demo_ops_valid : Forall op_valid demo_ops.
Proof.
  unfold demo_ops. rewrite !Forall_cons. split_and!; [done| |done|constructor].
  intros data d E. unfold demo_manifest in E. injection E as <-. simpl. by destruct (hex_encode data).
Qed.

Lemma image_demo_two_wf : mem_wf full (mem (snd demo_two)).
Proof. apply exec_wf; [intros _; apply image_demo_ops_valid|apply img_mem_wf_empty]. Qed.

Lemma image_demo_two_partial : mem_wf partial (mem (snd demo_two)).
Proof. eapply mem_wf_weaken; [|apply image_demo_two_wf]. done. Qed.

Definition digest_ids (o : outcome (list Image)) : outcome (list string) := fmap (M := outcome) (fmap (M := list) ID) o.

Lemma ByDigest_spec_witness :
  digest_ids (snd (ByDigest "sha256:6d6d" demo_two)) = Ret ["a1"; "b2"] ∧
  (let '(s', o) := ByDigest "sha256:6d6d" demo_two in
   s' = demo_two ∧
   match o with
   | Ret l => l ≠ [] ∧ NoDup (ID <$> l) ∧
       ∀ c, c ∈ l ↔ ∃ i, i ∈ reg_values (reg (mem (snd demo_two))) ∧ identifies i "sha256:6d6d" ∧ c = copyImage i
   | Err e => e = ErrImageUnknown ∧ ∀ i, i ∈ reg_values (reg (mem (snd demo_two))) → ¬ identifies i "sha256:6d6d"
   | Crash _ => False
   end).
Proof. split; [by vm_compute|]. apply ByDigest_spec, image_demo_two_wf. Defined.

(** An image with two manifests that have the same digest. *)
Definition demo_image : Image :=
  mkImage "i" "" [] [] [] "" [] "" [] None
    (Some {["manifest" := "sha256:aa"; "manifest-1" := "sha256:aa"; "other" := "junk"]}) 0 false None.

Lemma recomputeDigests_spec_witness :
  fst <$> (match recomputeDigests demo_image with inl j => Some (i_Digests j, Digest j) | inr _ => None end)
    = Some ["sha256:aa"] ∧
  match recomputeDigests demo_image with
  | inl j => valid_digests demo_image ∧ NoDup (i_Digests j)
  | inr e => ∃ d, identifies demo_image d ∧ ValidateDigest d = Some e
  end.
Proof.
  split; [by vm_compute|]. pose proof (recomputeDigests_spec demo_image) as Hs.
  destruct (recomputeDigests demo_image) as [j|e]; [|exact Hs].
  destruct Hs as (Hv & _ & Hn & _). exact (conj Hv Hn).
Defined.

Lemma image_create_spec_witness :
  is_ret (snd (create' "c3" ["z"] "layer-c" noOptions demo_two)) ∧
  (let '(s', o) := create' "c3" ["z"] "layer-c" noOptions demo_two in
   create_post full "c3" ["z"] "layer-c" noOptions demo_two o s').
Proof. split; [by vm_compute; eexists|]. apply image_create_spec, image_demo_two_wf. Defined.

Lemma image_Delete_spec_witness :
  let '(s', o) := Delete "y" demo_two in
  if IsReadWrite (lockfile (snd demo_two)) then
    match find (mem (snd demo_two)) "y" with
    | Some p => ∃ i, heap (reg (mem (snd demo_two))) !! p = Some i ∧
                     abs (mem (snd s')) = delete (ID i) (abs (mem (snd demo_two))) ∧
                     ∀ d q, q ∈ holders (bydigest (mem (snd s'))) d →
                            ∃ j, heap (reg (mem (snd s'))) !! q = Some j ∧ ID j ≠ ID i
    | None => o = Err ErrImageUnknown ∧ s' = demo_two
    end
  else o = Err ErrStoreIsReadOnly ∧ s' = demo_two.
Proof. apply image_Delete_spec, image_demo_two_wf. Defined.

Lemma image_demo_two_x :
  IsReadWrite (lockfile (snd demo_two)) = true ∧ find (mem (snd demo_two)) "a1" = Some 1%positive ∧
  ∃ i, heap (reg (mem (snd demo_two))) !! 1%positive = Some i ∧ Names i = ["x"].
Proof. split; [by vm_compute|]. split; [by vm_compute|]. eexists. split; by vm_compute. Qed.

Lemma image_updateNames_spec_witness :
  ∃ i j, abs (mem (snd (fst (updateNames "a1" ["y"] addNames demo_two)))) =
           <[ID i := j]> (strip ["y"; "x"] <$> abs (mem (snd demo_two))) ∧ Names j = ["y"; "x"].
Proof.
  destruct image_demo_two_x as (Hrw & Hf & i & Hi & Hn).
  destruct (image_updateNames_spec "a1" ["y"] addNames demo_two 1 i ["y"; "x"] image_demo_two_partial Hrw Hf Hi)
    as (j & Hj & Hnj & _); [by rewrite Hn|]. exists i, j. split; [exact Hj|exact Hnj].
Defined.

(** A decidable form of [disk_ok]. *)
Definition disk_okb (s : demo_st) : bool :=
  match disk_images (w_files (fst s)) (conf (snd s)) with
  | Some l => bool_decide (NoDup (ID <$> omap id l))
  | None => true
  end.

Lemma image_disk_okb_ok s : disk_okb s = true → disk_ok s.
Proof. unfold disk_okb, disk_ok. intros Hb l Hl. rewrite Hl in Hb. by apply bool_decide_eq_true in Hb. Qed.

(** Two images, of which one loses its name and is deleted, and then the file as
    it is loaded again. *)
Lemma images_invariant_witness :
  let s := exec' (demo_ops ++ [OpUpdateNames "a1" ["y"] addNames; OpDelete "b2"]) demo_empty in
  disk_ok s ∧ digest_ids (snd (ByDigest "sha256:6d6d" (fst (load true s)))) = Ret ["a1"] ∧ mem_wf full (mem (snd (fst (load true s)))).
Proof.
  intros s. assert (disk_ok s) as Hd by (apply image_disk_okb_ok; by vm_compute). split; [done|]. split; [by vm_compute|].
  apply (images_invariant 8 demo_empty); [apply img_mem_wf_empty|].
  apply reached_load; [|done]. apply img_reached_exec; [|apply reached_start]. apply Forall_app. split; [apply image_demo_ops_valid|].
  repeat constructor.
Defined.

Lemma image_load_establishes_invariant_witness :
  disk_ok demo_two ∧ mem_wf full (mem (snd (fst (load true demo_two)))).
Proof.
  assert (disk_ok demo_two) as Hd by (apply image_disk_okb_ok; by vm_compute). split; [done|].
  pose proof (image_load_establishes_invariant true demo_two image_demo_two_partial Hd) as Hl.
  assert (snd (load true demo_two) = Ret (false, None)) as E by (by vm_compute).
  destruct (load true demo_two) as [s' o]. simpl in E. destruct Hl as [_ Hl]. exact (Hl false E).
Defined.

Lemma image_demo_two_safe : Forall (λ i, json_safe i = true) (reg_values (reg (mem (snd demo_two)))).
Proof. apply (bool_decide_unpack _). by vm_compute. Qed.

(** The end of a run whose outcome and remaining script were evaluated. *)
Lemma image_run_end {A} (m : M demo_st A) s (a : A) :
  snd (m s) = Ret a → w_faults (fst (fst (m s))) = [] → ∃ s', m s = (s', Ret a) ∧ w_faults (fst s') = [].
Proof. destruct (m s) as [s' o]. simpl. intros -> ?. eauto. Qed.

Lemma image_save_load_roundtrip_witness :
  ∃ s1, Save demo_two = (s1, Ret tt) ∧
    let '(s', o) := load false (fst s1, snd demo_readonly) in
    o = Ret (false, None) ∧
    ∀ id, option_Forall2 (same_image false) (abs (mem (snd demo_two)) !! id) (abs (mem (snd s')) !! id).
Proof.
  destruct (image_run_end Save demo_two tt) as (s1 & E & Hnf); [by vm_compute..|].
  exists s1. split; [exact E|].
  refine (image_save_load_roundtrip demo_two s1 false (fst s1, snd demo_readonly) image_demo_two_wf
           image_demo_two_safe _ E (img_mem_wf_empty _) _ eq_refl Hnf); [discriminate|by vm_compute].
Defined.

Lemma readonly_images_witness :
  run_op 8 (OpCreate "a" [] "layer" noOptions) demo_readonly = (demo_readonly, Err ErrStoreIsReadOnly).
Proof. exact (readonly_images 8 (OpCreate "a" [] "layer" noOptions) demo_readonly eq_refl). Defined.

Lemma image_store_open_releases_witness :
  snd (newImageStore (T := gset string) "/i" (demo_world, ∅)) ≠ Crash Deadlock ∧
  (let '(t', o) := newImageStore (T := gset string) "/i" (demo_world, ∅) in opened "/i" o t').
Proof.
  pose proof (image_store_open_releases (T := gset string) true "/i" (demo_world, ∅)) as Ho.
  assert (let '(t', o) := newImageStore (T := gset string) "/i" (demo_world, ∅) in opened "/i" o t') as Hg
    by (by apply Ho; intros l ?).
  split; [|exact Hg]. destruct (newImageStore _ _) as [t' o]. apply Hg.
Defined.

(** ** A bad digest *)

(** A caller whose digest function gives no digest. *)
Definition no_digest (data : string) : string + error := inl "".

(** When the caller's function gives a malformed digest, [SetBigData]
    reports it only after it recorded it: the image disappears from the index by
    digest although [Digests] still lists its old digest, any later method that
    saves writes the bad digest to the file, and after that no store can load the
    file any more. *)
Theorem SetBigData_bad_digest_breaks_store :
  let '(s1, o1) := SetBigData "a1" "manifest-2" "zz" (Some no_digest) demo_two in
  let '(_, o2) := ByDigest "sha256:6d6d" s1 in
  let '(s3, o3) := SetMetadata "b2" "text" s1 in
  let '(_, o4) := load true (fst s3, snd demo_empty) in
  o1 = Err (ErrOther "invalid checksum digest format") ∧ digest_ids o2 = Ret ["b2"] ∧
  o3 = Ret tt ∧ o4 = Ret (false, Some (ErrOther "invalid checksum digest format")).
Proof. by vm_compute. Qed.


End ImageFacts.
