(* ===== verification/GraphDriver.v ===== *)
(** * The interfaces that the layer store uses

    [drivers/driver.go]: the graph driver, which stores the contents of
    layers.  Its implementations work with mounts, quotas and extended
    attributes of the kernel, so the driver is a class here: its state [D] is
    a type of the instance, and its methods also see the file system.  The
    optional interfaces [DriverWithDiffer] and [ApplyDiffStaging], which the
    store finds with a type assertion, are optional fields.

    Also the packages [selinux] (labels in use), [mount] (the mount table) and
    the stream codecs behind [archive] and [tar-split]. *)

From S2P Require Import Prelude World StoreUtil Json IdTools TempDir.

Local Open Scope string_scope.

Inductive SyncMode := SyncModeNone | SyncModeFilesystem | SyncModeUnknown.

Record CreateOpts := mkCreateOpts {
  co_MountLabel : string;
  StorageOpt : gomap string;
  co_IDMappings : IDMappings
}.

Record MountOpts := mkMountOpts {
  mo_MountLabel : string;
  UidMaps : IDMaps;
  GidMaps : IDMaps;
  Options : list string;
  mo_Volatile : bool
}.

(** [ApplyDiffOpts] of an extraction, with the payload [Diff]. *)
Record ApplyDiffOpts := mkApplyDiffOpts {
  Diff : string;
  Mappings : IDMappings;
  ad_MountLabel : string
}.

Record ApplyDiffWithDifferOpts := mkDifferOpts {
  wd_ApplyDiffOpts : ApplyDiffOpts;
  wd_Flags : gomap any
}.

Record DriverWithDifferOutput := mkDifferOutput {
  Target : string;
  do_Size : Z;
  do_UIDs : list Z;
  do_GIDs : list Z;
  do_UncompressedDigest : string;
  do_CompressedDigest : string;
  do_Metadata : string;
  do_BigData : gmap string string;
  TarSplit : option string;           (* the contents of the file *)
  do_TOCDigest : string
}.

Class GraphDriver (D : Type) := {
  CreateReadWrite : string → string → CreateOpts → M (World * D) unit;
  Create : string → string → CreateOpts → M (World * D) unit;
  CreateFromTemplate : string → string → IDMappings → string → IDMappings → CreateOpts → bool → M (World * D) unit;
  Remove : string → M (World * D) unit;
  (** The clean-up function (None: nil) and the error, if any. *)
  DeferredRemove : string → M (World * D) (option (M (World * D) unit) * option error);
  GetTempDirRootDirs : D → list string;
  Get : string → MountOpts → M (World * D) string;
  Put : string → M (World * D) unit;
  ListLayers : M (World * D) (list string);
  SyncMode_ : D → SyncMode;
  UpdateLayerIDMap : string → IDMappings → IDMappings → string → M (World * D) unit;
  SupportsShifting : D → IDMaps → IDMaps → bool;
  ApplyDiff : string → ApplyDiffOpts → M (World * D) Z;
  DiffSize : string → IDMappings → string → IDMappings → string → M (World * D) Z;
  ApplyDiffFromStagingDirectory :
    option (string → string → DriverWithDifferOutput → ApplyDiffWithDifferOpts → M (World * D) unit);
  CommitStagedLayer : option (string → string → M (World * D) unit);
  (** [mount.Mounted]: the mount table of the kernel has the path. *)
  Mounted_ : string → M (World * D) bool
}.

(** The clean-up functions of temporary directories that a method returns. *)
Notation CleanupTempDirFuncs D := (list (option (M (World * D) unit))).

(** [go-selinux]: the labels in use, [ReserveLabelV2] with its two errors. *)
Class Selinux (L : Type) := {
  ClearLabels : L → L;
  ReserveLabelV2 : string → L → L * option error;
  ReleaseLabel : string → L → L
}.

(** Streams: what [applyDiff] needs of [archive], [tar-split] and [pgzip]. *)
Class Streams := {
  DetectCompression : string → Z;
  (** The decompressed stream and what was read of the input for it. *)
  DecompressStream : string → (string * string) + error;
  tarsplit_pack : string → string + error;
  pgzip : string → string;
  (** User and group of each entry that is not a whiteout. *)
  tar_owners : string → list (Z * Z);
  (** [d.Algorithm() == digest.Canonical] *)
  is_canonical : string → bool
}.
Definition Uncompressed : Z := 0.
