(* ===== verification/LayerData.v ===== *)
(** * storage/layers.go: the data of the layer store

    The record [Layer], its JSON form, the locations of the JSON files, the
    options of [create], and the functions of [layers.go] that only compute. *)

From S2P Require Import Prelude World StoreUtil Strconv Codec Json IdTools Registry GraphDriver.

Local Open Scope string_scope.

Module LayerData.

Definition tarSplitSuffix := ".tar-split.gz".
Definition tempDirPath := "tmp".
Definition incompleteFlag := "incomplete".
Definition maxLayerStoreCleanupIterations : nat := 3.

(** The zero value of [time.Time], year 1, in nanoseconds of Unix time. *)
Definition zeroTime : Z := -62135596800000000000.

(** ** Locations *)

(** [layerLocations] is a set of bits, one for each JSON file. *)
Definition stableLayerLocation : Z := 1.
Definition imageStoreLayerLocation : Z := 2.
Definition volatileLayerLocation : Z := 4.
Definition numLayerLocationIndex : nat := 3.

Definition layerLocationFromIndex (index : nat) : Z := Z.land (Z.shiftl 1 (Z.of_nat index)) 255.

(** [bits.TrailingZeros] *)
Fixpoint trailing_zeros (p : positive) : nat :=
  match p with xO p => S (trailing_zeros p) | _ => 0 end.
Definition indexFromLayerLocation (location : Z) : nat :=
  match location with Zpos p => trailing_zeros p | _ => 64 end.

(** ** Layers *)

Record Layer := mkLayer {
  ID : string;
  Names : list string;
  Parent : string;
  l_Metadata : string;
  l_MountLabel : string;
  MountPoint : string;
  MountCount : Z;
  Created : Z;
  CompressedDigest : string;
  CompressedSize : Z;
  UncompressedDigest : string;
  TOCDigest : string;
  UncompressedSize : Z;
  CompressionType : Z;
  l_UIDs : list Z;
  l_GIDs : list Z;
  Flags : gomap any;
  UIDMap : IDMaps;
  GIDMap : IDMaps;
  ReadOnly : bool;
  location : Z;
  l_BigDataNames : list string
}.

#[global] Instance Layer_eq_dec : EqDecision Layer.
Proof. solve_decision. Defined.

Definition set_Names (x : list string) (l : Layer) : Layer :=
  mkLayer (ID l) x (Parent l) (l_Metadata l) (l_MountLabel l) (MountPoint l) (MountCount l) (Created l)
    (CompressedDigest l) (CompressedSize l) (UncompressedDigest l) (TOCDigest l) (UncompressedSize l)
    (CompressionType l) (l_UIDs l) (l_GIDs l) (Flags l) (UIDMap l) (GIDMap l) (ReadOnly l) (location l)
    (l_BigDataNames l).
Definition set_Metadata (x : string) (l : Layer) : Layer :=
  mkLayer (ID l) (Names l) (Parent l) x (l_MountLabel l) (MountPoint l) (MountCount l) (Created l)
    (CompressedDigest l) (CompressedSize l) (UncompressedDigest l) (TOCDigest l) (UncompressedSize l)
    (CompressionType l) (l_UIDs l) (l_GIDs l) (Flags l) (UIDMap l) (GIDMap l) (ReadOnly l) (location l)
    (l_BigDataNames l).
Definition set_mount (mp : string) (n : Z) (l : Layer) : Layer :=
  mkLayer (ID l) (Names l) (Parent l) (l_Metadata l) (l_MountLabel l) mp n (Created l) (CompressedDigest l)
    (CompressedSize l) (UncompressedDigest l) (TOCDigest l) (UncompressedSize l) (CompressionType l)
    (l_UIDs l) (l_GIDs l) (Flags l) (UIDMap l) (GIDMap l) (ReadOnly l) (location l) (l_BigDataNames l).
Definition set_location (x : Z) (l : Layer) : Layer :=
  mkLayer (ID l) (Names l) (Parent l) (l_Metadata l) (l_MountLabel l) (MountPoint l) (MountCount l)
    (Created l) (CompressedDigest l) (CompressedSize l) (UncompressedDigest l) (TOCDigest l)
    (UncompressedSize l) (CompressionType l) (l_UIDs l) (l_GIDs l) (Flags l) (UIDMap l) (GIDMap l)
    (ReadOnly l) x (l_BigDataNames l).
Definition set_ReadOnly (x : bool) (l : Layer) : Layer :=
  mkLayer (ID l) (Names l) (Parent l) (l_Metadata l) (l_MountLabel l) (MountPoint l) (MountCount l)
    (Created l) (CompressedDigest l) (CompressedSize l) (UncompressedDigest l) (TOCDigest l)
    (UncompressedSize l) (CompressionType l) (l_UIDs l) (l_GIDs l) (Flags l) (UIDMap l) (GIDMap l) x
    (location l) (l_BigDataNames l).
Definition set_Flags (x : gomap any) (l : Layer) : Layer :=
  mkLayer (ID l) (Names l) (Parent l) (l_Metadata l) (l_MountLabel l) (MountPoint l) (MountCount l)
    (Created l) (CompressedDigest l) (CompressedSize l) (UncompressedDigest l) (TOCDigest l)
    (UncompressedSize l) (CompressionType l) (l_UIDs l) (l_GIDs l) x (UIDMap l) (GIDMap l) (ReadOnly l)
    (location l) (l_BigDataNames l).
Definition set_BigDataNames (x : list string) (l : Layer) : Layer :=
  mkLayer (ID l) (Names l) (Parent l) (l_Metadata l) (l_MountLabel l) (MountPoint l) (MountCount l)
    (Created l) (CompressedDigest l) (CompressedSize l) (UncompressedDigest l) (TOCDigest l)
    (UncompressedSize l) (CompressionType l) (l_UIDs l) (l_GIDs l) (Flags l) (UIDMap l) (GIDMap l)
    (ReadOnly l) (location l) x.
Definition set_identity (id : string) (parent : string) (t : Z) (l : Layer) : Layer :=
  mkLayer id (Names l) parent (l_Metadata l) (l_MountLabel l) (MountPoint l) (MountCount l) t
    (CompressedDigest l) (CompressedSize l) (UncompressedDigest l) (TOCDigest l) (UncompressedSize l)
    (CompressionType l) (l_UIDs l) (l_GIDs l) (Flags l) (UIDMap l) (GIDMap l) (ReadOnly l) (location l)
    (l_BigDataNames l).
Definition set_compressed (d : string) (n : Z) (t : Z) (l : Layer) : Layer :=
  mkLayer (ID l) (Names l) (Parent l) (l_Metadata l) (l_MountLabel l) (MountPoint l) (MountCount l)
    (Created l) d n (UncompressedDigest l) (TOCDigest l) (UncompressedSize l) t (l_UIDs l) (l_GIDs l)
    (Flags l) (UIDMap l) (GIDMap l) (ReadOnly l) (location l) (l_BigDataNames l).
Definition set_uncompressed (d : string) (n : Z) (l : Layer) : Layer :=
  mkLayer (ID l) (Names l) (Parent l) (l_Metadata l) (l_MountLabel l) (MountPoint l) (MountCount l)
    (Created l) (CompressedDigest l) (CompressedSize l) d (TOCDigest l) n (CompressionType l) (l_UIDs l)
    (l_GIDs l) (Flags l) (UIDMap l) (GIDMap l) (ReadOnly l) (location l) (l_BigDataNames l).
Definition set_TOCDigest (d : string) (l : Layer) : Layer :=
  mkLayer (ID l) (Names l) (Parent l) (l_Metadata l) (l_MountLabel l) (MountPoint l) (MountCount l)
    (Created l) (CompressedDigest l) (CompressedSize l) (UncompressedDigest l) d (UncompressedSize l)
    (CompressionType l) (l_UIDs l) (l_GIDs l) (Flags l) (UIDMap l) (GIDMap l) (ReadOnly l) (location l)
    (l_BigDataNames l).
Definition set_owners (u : list Z) (g : list Z) (l : Layer) : Layer :=
  mkLayer (ID l) (Names l) (Parent l) (l_Metadata l) (l_MountLabel l) (MountPoint l) (MountCount l)
    (Created l) (CompressedDigest l) (CompressedSize l) (UncompressedDigest l) (TOCDigest l)
    (UncompressedSize l) (CompressionType l) u g (Flags l) (UIDMap l) (GIDMap l) (ReadOnly l) (location l)
    (l_BigDataNames l).

#[global] Instance Layer_named : Named Layer := {
  rid := ID; rnames := Names; with_names := set_Names
}.
#[global] Instance Layer_named_laws : NamedLaws Layer.
Proof. split; by intros; destruct x. Qed.

Record layerMountPoint := mkMountPoint { mp_ID : string; mp_MountPoint : string; mp_MountCount : Z }.

#[global] Instance layerMountPoint_eq_dec : EqDecision layerMountPoint.
Proof. solve_decision. Defined.

Definition copyIDMaps (m : IDMaps) : IDMaps :=
  match m with Some (_ :: _) => m | _ => None end.

Definition copyLayer (l : Layer) : Layer :=
  mkLayer (ID l) (copySlicePreferringNil (Names l)) (Parent l) (l_Metadata l) (l_MountLabel l) (MountPoint l)
    (MountCount l) (Created l) (CompressedDigest l) (CompressedSize l) (UncompressedDigest l) (TOCDigest l)
    (UncompressedSize l) (CompressionType l) (copySlicePreferringNil (l_UIDs l)) (copySlicePreferringNil (l_GIDs l))
    (copyMapPreferringNil (Flags l)) (copyIDMaps (UIDMap l)) (copyIDMaps (GIDMap l)) (ReadOnly l) (location l)
    (copySlicePreferringNil (l_BigDataNames l)).

Definition layerHasIncompleteFlag (l : Layer) : bool :=
  match gomap_get (Flags l) incompleteFlag with Some (ABool true) => true | _ => false end.

(** [layer.Flags[flag] = value], after the map was made if it was nil. *)
Definition set_flag (flag : string) (value : any) (l : Layer) : Layer :=
  set_Flags (Some (<[flag := value]> (default ∅ (Flags l)))) l.

(** [r.layerMappings(layer)], also for a nil layer. *)
Definition layerMappings (l : option Layer) : IDMappings :=
  match l with None => mkIDMappings None None | Some l => NewIDMappingsFromMaps (UIDMap l) (GIDMap l) end.

(** ** The maps from digests to identifiers *)

Notation sums := (gmap string (list string)).

(** [m[d] = append(m[d], id)] unless [d] is empty. *)
Definition add_sum (d id : string) (m : sums) : sums :=
  if decide (d = "") then m else <[d := (default [] (m !! d) ++ [id])%list]> m.

Definition updateDigestMap (m : sums) (oldvalue newvalue id : string) : sums :=
  let m := if decide (oldvalue = "") then m
           else match filter (λ value, value ≠ id) (default [] (m !! oldvalue)) with
                | [] => delete oldvalue m
                | newList => <[oldvalue := newList]> m
                end in
  add_sum newvalue id m.

(** [slices.Index] and [slices.Delete]: the first occurrence goes. *)
Fixpoint remove_first (id : string) (l : list string) : list string :=
  match l with
  | [] => []
  | x :: l => if decide (x = id) then l else x :: remove_first id l
  end.

(** The result of [applyDiff]. *)
Record applyDiffResult := mkDiffResult {
  r_compressedDigest : string;
  r_compressedSize : Z;
  r_compressionType : Z;
  r_uncompressedDigest : string;
  r_uncompressedSize : Z;
  r_size : Z;
  r_uids : list Z;
  r_gids : list Z
}.

(** ** Options *)

Record LayerBigDataOption := mkBigDataOption { Key : string; Data : string }.

Record LayerIDMappingOptions := mkLayerIDMappingOptions {
  HostUIDMapping : bool;
  HostGIDMapping : bool;
  o_UIDMap : IDMaps;
  o_GIDMap : IDMaps
}.

Record LayerOptions := mkLayerOptions {
  IDMappingOptions : LayerIDMappingOptions;
  TemplateLayer : string;
  OriginalDigest : string;
  OriginalSize : option Z;
  o_UncompressedDigest : string;
  o_Volatile : bool;
  o_BigData : list LayerBigDataOption;
  o_Flags : gomap any
}.

(** [LayerOptions{}] *)
Definition noOptions : LayerOptions :=
  mkLayerOptions (mkLayerIDMappingOptions false false None None) "" "" None "" false [] None.

(** A diff, and where its contents were staged if the driver could do that. *)
Record maybeStagedLayerExtraction := mkExtraction {
  diff : string;
  result : option applyDiffResult;
  stagedTarSplit : string;
  stagedLayer : string
}.

(** [layerCreationContents]: one of the two ways to fill a new layer. *)
Inductive layerCreationContents :=
  | Extraction (e : maybeStagedLayerExtraction)
  | Differ (output : DriverWithDifferOutput) (options : option ApplyDiffWithDifferOpts).

(** ** encoding/json *)

Class LayerJSON := {
  Marshal : list Layer → option string;               (* None: error *)
  Unmarshal : string → option (list (option Layer));  (* None elements: null *)
  MarshalMounts : list layerMountPoint → option string;
  UnmarshalMounts : string → option (list layerMountPoint)
}.

(** What is left of a record after it was written and read back. *)
Definition json_layer (l : Layer) : Layer :=
  mkLayer (ID l) (Names l) (Parent l) (l_Metadata l) (l_MountLabel l) "" 0 (Created l) (CompressedDigest l)
    (CompressedSize l) (UncompressedDigest l) (TOCDigest l) (UncompressedSize l) (CompressionType l) (l_UIDs l)
    (l_GIDs l) (copyMapPreferringNil (option_map (fmap json_any) (Flags l))) (copyIDMaps (UIDMap l))
    (copyIDMaps (GIDMap l)) false 0 (l_BigDataNames l).

Definition json_safe (l : Layer) : bool :=
  utf8 (ID l) && forallb utf8 (Names l) && utf8 (Parent l) && utf8 (l_Metadata l) && utf8 (l_MountLabel l) &&
  utf8 (CompressedDigest l) && utf8 (UncompressedDigest l) && utf8 (TOCDigest l) &&
  gomap_all (λ k v, utf8 k && json_safe_any v) (Flags l) && forallb utf8 (l_BigDataNames l).

Definition mount_safe (m : layerMountPoint) : bool := utf8 (mp_ID m) && utf8 (mp_MountPoint m).

Class LayerJSONSpec `{LayerJSON} := {
  json_nonempty l d : Marshal l = Some d → d ≠ "";
  json_roundtrip l d : Forall (λ i, json_safe i = true) l → Marshal l = Some d →
    Unmarshal d = Some (Some ∘ json_layer <$> l);
  mounts_nonempty l d : MarshalMounts l = Some d → d ≠ "";
  mounts_roundtrip l d : Forall (λ m, mount_safe m = true) l → MarshalMounts l = Some d →
    UnmarshalMounts d = Some l
}.
End LayerData.
