(* ===== verification/LayerStore.v ===== *)
(** * storage/layers.go: the store of layers

    [layerStore] with its methods.  The records are in a [registry], as for
    images and containers.  The store keeps its layers in up to three JSON
    files, locks one or two lock files together ([multipleLockFile]), and
    shares the table of mounts with other processes under a lock file of its
    own.  The contents of layers belong to the graph driver. *)

From S2P Require Import Prelude World StoreUtil Strconv StringId Codec Json IdTools TruncIndex LockFile TempDir.
From S2P Require Import Registry GraphDriver LayerData.
From stdpp Require Import sorting.

Local Open Scope string_scope.

Module Layers.
Import LayerData.

(** The order of [Wipe]: [slices.SortFunc] promises a sorted permutation and
    nothing about equal elements. *)
Definition newer (a b : string * Z) : Prop := (snd b ≤ snd a)%Z.
#[global] Instance newer_dec a b : Decision (newer a b).
Proof. unfold newer. apply _. Defined.

Class SortCreated := {
  sort_created : list (string * Z) → list (string * Z);
  sort_created_perm l : sort_created l ≡ₚ l;
  sort_created_sorted l : Sorted newer (sort_created l)
}.
#[export, refine] Instance merge_sort_created : SortCreated := {| sort_created := merge_sort newer |}.
Proof.
  - intros l. apply merge_sort_Permutation.
  - intros l. apply Sorted_merge_sort. intros a b. unfold newer. lia.
Defined.

Section LayerStore.
Context {T : Type} `{PatriciaTrie T}.
Context {D : Type} `{GraphDriver D} {L : Type} `{Selinux L}.
Context `{LayerJSON} `{Digests} `{Streams} `{MapRange} `{SortCreated}.
(** Rounds allowed to the search for an unused random identifier, and to the
    loop that unmounts a layer before it is deleted. *)
Context (fuel : nat).

(** The maps of records are in [reg]; [labels] is the table of [go-selinux],
    which belongs to the process and is used by the layer stores only.  The
    slices of lock files and of paths are never empty. *)
Record layerStore := mkLayerStore {
  lockfile : list LockFile;
  mountsLockfile : option LockFile;
  rundir : string;
  jsonPath : list string;
  layerdir : string;
  inProcessLock : rwmutex;
  lastWrite : LastWrite;
  mountsLastWrite : LastWrite;
  reg : registry T Layer;
  bymount : gmap string positive;
  bycompressedsum : sums;
  byuncompressedsum : sums;
  bytocsum : sums;
  layerspathsModified : list Z;
  driver : D;
  labels : L
}.

Definition set_lockfile (x : list LockFile) (r : layerStore) : layerStore :=
  mkLayerStore x (mountsLockfile r) (rundir r) (jsonPath r) (layerdir r) (inProcessLock r) (lastWrite r)
    (mountsLastWrite r) (reg r) (bymount r) (bycompressedsum r) (byuncompressedsum r) (bytocsum r)
    (layerspathsModified r) (driver r) (labels r).
Definition set_mountsLockfile (x : option LockFile) (r : layerStore) : layerStore :=
  mkLayerStore (lockfile r) x (rundir r) (jsonPath r) (layerdir r) (inProcessLock r) (lastWrite r)
    (mountsLastWrite r) (reg r) (bymount r) (bycompressedsum r) (byuncompressedsum r) (bytocsum r)
    (layerspathsModified r) (driver r) (labels r).
Definition set_inProcessLock (x : rwmutex) (r : layerStore) : layerStore :=
  mkLayerStore (lockfile r) (mountsLockfile r) (rundir r) (jsonPath r) (layerdir r) x (lastWrite r)
    (mountsLastWrite r) (reg r) (bymount r) (bycompressedsum r) (byuncompressedsum r) (bytocsum r)
    (layerspathsModified r) (driver r) (labels r).
Definition set_lastWrite (x : LastWrite) (r : layerStore) : layerStore :=
  mkLayerStore (lockfile r) (mountsLockfile r) (rundir r) (jsonPath r) (layerdir r) (inProcessLock r) x
    (mountsLastWrite r) (reg r) (bymount r) (bycompressedsum r) (byuncompressedsum r) (bytocsum r)
    (layerspathsModified r) (driver r) (labels r).
Definition set_mountsLastWrite (x : LastWrite) (r : layerStore) : layerStore :=
  mkLayerStore (lockfile r) (mountsLockfile r) (rundir r) (jsonPath r) (layerdir r) (inProcessLock r)
    (lastWrite r) x (reg r) (bymount r) (bycompressedsum r) (byuncompressedsum r) (bytocsum r)
    (layerspathsModified r) (driver r) (labels r).
Definition set_reg (x : registry T Layer) (r : layerStore) : layerStore :=
  mkLayerStore (lockfile r) (mountsLockfile r) (rundir r) (jsonPath r) (layerdir r) (inProcessLock r)
    (lastWrite r) (mountsLastWrite r) x (bymount r) (bycompressedsum r) (byuncompressedsum r) (bytocsum r)
    (layerspathsModified r) (driver r) (labels r).
Definition set_bymount (x : gmap string positive) (r : layerStore) : layerStore :=
  mkLayerStore (lockfile r) (mountsLockfile r) (rundir r) (jsonPath r) (layerdir r) (inProcessLock r)
    (lastWrite r) (mountsLastWrite r) (reg r) x (bycompressedsum r) (byuncompressedsum r) (bytocsum r)
    (layerspathsModified r) (driver r) (labels r).
Definition set_layerspathsModified (x : list Z) (r : layerStore) : layerStore :=
  mkLayerStore (lockfile r) (mountsLockfile r) (rundir r) (jsonPath r) (layerdir r) (inProcessLock r)
    (lastWrite r) (mountsLastWrite r) (reg r) (bymount r) (bycompressedsum r) (byuncompressedsum r)
    (bytocsum r) x (driver r) (labels r).
Definition set_driver (x : D) (r : layerStore) : layerStore :=
  mkLayerStore (lockfile r) (mountsLockfile r) (rundir r) (jsonPath r) (layerdir r) (inProcessLock r)
    (lastWrite r) (mountsLastWrite r) (reg r) (bymount r) (bycompressedsum r) (byuncompressedsum r)
    (bytocsum r) (layerspathsModified r) x (labels r).
Definition set_labels (x : L) (r : layerStore) : layerStore :=
  mkLayerStore (lockfile r) (mountsLockfile r) (rundir r) (jsonPath r) (layerdir r) (inProcessLock r)
    (lastWrite r) (mountsLastWrite r) (reg r) (bymount r) (bycompressedsum r) (byuncompressedsum r)
    (bytocsum r) (layerspathsModified r) (driver r) x.
Definition set_sums (c : sums) (u : sums) (t : sums) (r : layerStore) : layerStore :=
  mkLayerStore (lockfile r) (mountsLockfile r) (rundir r) (jsonPath r) (layerdir r) (inProcessLock r)
    (lastWrite r) (mountsLastWrite r) (reg r) (bymount r) c u t (layerspathsModified r) (driver r) (labels r).
Notation St := (World * layerStore)%type.

Definition inWorld {A} (m : M World A) : M St A := zoom fst (λ w s, (w, snd s)) m.
Definition onDriver {A} (m : M (World * D) A) : M St A :=
  zoom (λ s, (fst s, driver (snd s))) (λ t s, (fst t, set_driver (snd t) (snd s))) m.
Definition getR {A} (f : layerStore → A) : M St A := gets (λ s, f (snd s)).
Definition modR (f : layerStore → layerStore) : M St unit := modify (λ s, (fst s, f (snd s))).
Definition modReg (f : registry T Layer → registry T Layer) : M St unit := modR (λ r, set_reg (f (reg r)) r).

(** The lock file with an index; out of range Go panics. *)
Definition onLock {A} (i : nat) (m : M LF A) : M St A := λ s,
  match lockfile (snd s) !! i with
  | Some l => let '((w, l), o) := m (fst s, l) in ((w, set_lockfile (<[i := l]> (lockfile (snd s))) (snd s)), o)
  | None => (s, Crash (Panic "index out of range"))
  end.
(** The lock of the mount table; a read-only store has none. *)
Definition onMounts {A} (m : M LF A) : M St A := λ s,
  match mountsLockfile (snd s) with
  | Some l => let '((w, l), o) := m (fst s, l) in ((w, set_mountsLockfile (Some l) (snd s)), o)
  | None => (s, Crash (Panic "invalid memory address or nil pointer dereference"))
  end.
(** [r.mountsLockfile.Lock(); defer r.mountsLockfile.Unlock()] *)
Definition withMounts {A} (take : M LF unit) (m : M St A) : M St A :=
  _ ← onMounts take; finally m (onMounts Unlock).

Definition on_mutex (f : rwmutex → option rwmutex) (c : crash) : M St unit :=
  m ← getR inProcessLock;
  match f m with
  | None => stop c
  | Some m' => modR (set_inProcessLock m')
  end.
Definition ip_Lock : M St unit := on_mutex mutex_Lock Deadlock.
Definition ip_RLock : M St unit := on_mutex mutex_RLock Deadlock.
Definition ip_Unlock : M St unit := on_mutex mutex_Unlock (Panic "sync: unlock of unlocked RWMutex").
Definition ip_RUnlock : M St unit := on_mutex mutex_RUnlock (Panic "sync: RUnlock of unlocked RWMutex").

(** ** multipleLockFile *)

Definition each_lock (m : M LF unit) : M St unit :=
  n ← getR (λ r, length (lockfile r)); forM (seq 0 n) (λ i, onLock i m).

Definition multi_Lock : M St unit := each_lock Lock.
Definition multi_RLock : M St unit := each_lock RLock.
Definition multi_Unlock : M St unit := each_lock Unlock.
Definition multi_AssertLockedForWriting : M St unit := each_lock AssertLockedForWriting.
Definition multi_ModifiedSince (lw : LastWrite) : M St (LastWrite * bool) := onLock 0 (ModifiedSince lw).
Definition multi_GetLastWrite : M St LastWrite := onLock 0 GetLastWrite.

(** The first value is returned. *)
Definition multi_RecordWrite : M St LastWrite :=
  n ← getR (λ r, length (lockfile r));
  first ← foldM (λ lastWrite i, lw ← onLock i RecordWrite;
                   mret (match lastWrite with None => Some lw | _ => lastWrite end)) None (seq 0 n);
  match first with
  | Some lw => mret lw
  | None => stop (Panic "invalid memory address or nil pointer dereference")
  end.

Definition multi_IsReadWrite (r : layerStore) : bool :=
  match lockfile r with l :: _ => IsReadWrite l | [] => false end.

(** ** Records *)

Definition deref (p : positive) : M St Layer :=
  h ← getR (λ r, heap (reg r));
  match h !! p with
  | Some l => mret l
  | None => stop (Panic "invalid memory address or nil pointer dereference")
  end.
Definition assign (p : positive) (f : Layer → Layer) : M St unit := modReg (reg_update f p).
Definition new (l : Layer) : M St positive :=
  p ← getR (λ r, fst (reg_alloc l (reg r)));
  _ ← modReg (λ r, snd (reg_alloc l r));
  mret p.

Definition find (r : layerStore) (id : string) : option positive := reg_lookup (λ _, None) id (reg r).

Definition lookup (id : string) : M St positive :=
  o ← getR (λ r, find r id);
  match o with Some p => mret p | None => fail ErrLayerUnknown end.

(** The guard of the methods that change the store. *)
Definition writable : M St unit :=
  rw ← getR multi_IsReadWrite;
  if (rw : bool) then mret tt else fail ErrStoreIsReadOnly.

Definition mountspath (r : layerStore) : string := filepath_Join [rundir r; "mountpoints.json"].
Definition tspath (r : layerStore) (id : string) : string := filepath_Join [layerdir r; id +:+ tarSplitSuffix].
Definition datadir (r : layerStore) (id : string) : string := filepath_Join [layerdir r; id].
Definition datapath (r : layerStore) (id key : string) : string :=
  filepath_Join [datadir r id; makeBigDataBaseName key].

(** A file that may be missing. *)
Definition read_or_empty (rpath : string) : M St string :=
  res ← try (inWorld (os_ReadFile rpath));
  match res with
  | inl data => mret data
  | inr err => if os_IsNotExist err then mret "" else fail err
  end.

(** ** The mount table *)

(** All layers forget their mounts. *)
Definition clear_mounts (g : registry T Layer) : registry T Layer :=
  foldl (λ g p, reg_update (set_mount "" 0) p g) g (objs g).

(** One entry of the file: the layer gets its mount back. *)
Definition merge_mount (t : gmap string positive * registry T Layer) (mnt : layerMountPoint)
    : gmap string positive * registry T Layer :=
  let '(mounts, g) := t in
  if decide (mp_MountPoint mnt = "") then t
  else match reg_lookup (λ _, None) (mp_ID mnt) g with
       | Some p => (<[mp_MountPoint mnt := p]> mounts,
                    reg_update (set_mount (mp_MountPoint mnt) (mp_MountCount mnt)) p g)
       | None => t
       end.

Definition loadMounts : M St unit :=
  mpath ← getR mountspath;
  data ← read_or_empty mpath;
  match (if decide (data = "") then Some [] else UnmarshalMounts data) with
  | None => fail (ErrOther "loading JSON")
  | Some layerMounts =>
      modR (λ r, let '(mounts, g) := foldl merge_mount (∅, clear_mounts (reg r)) layerMounts in
                 set_bymount mounts (set_reg g r))
  end.

(** The entries that [saveMounts] writes. *)
Definition mount_entries (ls : list Layer) : list layerMountPoint :=
  (λ l, mkMountPoint (ID l) (MountPoint l) (MountCount l)) <$>
    filter (λ l, MountPoint l ≠ "" ∧ (0 < MountCount l)%Z) ls.

Definition saveMounts : M St unit :=
  _ ← writable;
  _ ← onMounts AssertLockedForWriting;
  mpath ← getR mountspath;
  _ ← inWorld (os_MkdirAll (filepath_Dir mpath));
  mounts ← getR (λ r, mount_entries (reg_values (reg r)));
  match MarshalMounts mounts with
  | None => fail (ErrOther "json: unsupported value")
  | Some jmdata =>
      lw ← onMounts RecordWrite;
      _ ← modR (set_mountsLastWrite lw);
      _ ← inWorld (AtomicWriteFile mpath jmdata);
      loadMounts
  end.

Definition mountsModified : M St (LastWrite * bool) :=
  lw ← getR mountsLastWrite; onMounts (ModifiedSince lw).

Definition reloadMountsIfChanged : M St unit :=
  res ← mountsModified;
  match res with
  | (lw, true) => _ ← loadMounts; modR (set_mountsLastWrite lw)
  | (_, false) => mret tt
  end.

(** ** Saving *)

(** [system.Syncfs] *)
Definition Syncfs (dir : string) : M World unit := syscall (mret tt).

(** One location of [saveLayers]. *)
Definition save_location (saveLocations : Z) (needsSyncfs : bool) (locationIndex : nat) : M St unit :=
  let location_ := layerLocationFromIndex locationIndex in
  if decide (Z.land location_ saveLocations = 0)%Z then mret tt
  else
    rpath ← getR (λ r, default "" (jsonPath r !! locationIndex));
    if decide (rpath = "") then fail (ErrOther "internal error: no path for location")
    else
      _ ← inWorld (os_MkdirAll (filepath_Dir rpath));
      ls ← getR (λ r, reg_values (reg r));
      let subsetLayers := filter (λ l, location l = location_) ls in
      match Marshal subsetLayers with
      | None => fail (ErrOther "json: unsupported value")
      | Some jldata =>
          mode ← getR (λ r, SyncMode_ (driver r));
          _ ← (if needsSyncfs then
                 match mode with
                 | SyncModeNone => mret tt
                 | SyncModeFilesystem => inWorld (Syncfs (filepath_Dir rpath))
                 | SyncModeUnknown => fail (ErrOther "unknown sync mode")
                 end
               else mret tt);
          t ← inWorld (AtomicWriteFileWithOpts (bool_decide (location_ = volatileLayerLocation)) rpath jldata);
          modR (λ r, set_layerspathsModified (<[locationIndex := t]> (layerspathsModified r)) r)
      end.

Definition saveLayers (saveLocations : Z) (needsSyncfs : bool) : M St unit :=
  _ ← writable;
  _ ← multi_AssertLockedForWriting;
  lw ← multi_RecordWrite;
  _ ← modR (set_lastWrite lw);
  forM (seq 0 numLayerLocationIndex) (save_location saveLocations needsSyncfs).

Definition save (saveLocations : Z) (needsSyncfs : bool) : M St unit :=
  withMounts Lock (_ ← saveLayers saveLocations needsSyncfs; saveMounts).

Definition saveFor (modifiedLayer : Layer) (needsSyncfs : bool) : M St unit :=
  save (location modifiedLayer) needsSyncfs.

(** ** Mounting *)

Definition Mounted (id : string) : M St Z :=
  _ ← writable;
  p ← lookup id;
  l ← deref p;
  mret (MountCount l).

(** The part of [Mount] that holds the lock.  A mount point is also returned
    with an error of [saveMounts]; it is dropped here. *)
Definition mount_locked (id : string) (options : MountOpts) : M St string :=
  _ ← reloadMountsIfChanged;
  p ← lookup id;
  layer ← deref p;
  mounted ← (if decide (0 < MountCount layer)%Z then onDriver (Mounted_ (MountPoint layer)) else mret false);
  if (mounted : bool) then
    _ ← assign p (λ l, set_mount (MountPoint l) (int64 (MountCount l + 1)) l);
    _ ← saveMounts;
    mret (MountPoint layer)
  else
    let options := mkMountOpts (if decide (mo_MountLabel options = "") then l_MountLabel layer else mo_MountLabel options)
                     (UidMaps options) (GidMaps options) (Options options) (mo_Volatile options) in
    shifting ← getR (λ r, SupportsShifting (driver r) (UidMaps options) (GidMaps options));
    if decide ((UidMaps options ≠ None ∨ GidMaps options ≠ None) ∧ shifting = false ∧
               (UidMaps options ≠ UIDMap layer ∨ GidMaps options ≠ GIDMap layer))
    then fail (ErrOther "cannot mount layer: shifting not enabled")
    else
      mountpoint ← onDriver (Get id options);
      if decide (mountpoint = "") then mret mountpoint
      else
        let mp := filepath_Clean mountpoint in
        _ ← modR (λ r, set_bymount (<[mp := p]> (if decide (MountPoint layer = "") then bymount r
                                                 else delete (MountPoint layer) (bymount r))) r);
        _ ← assign p (λ l, set_mount mp (int64 (MountCount l + 1)) l);
        _ ← saveMounts;
        mret mountpoint.

Definition Mount (id : string) (options : MountOpts) : M St string :=
  rw ← getR multi_IsReadWrite;
  if negb rw && bool_decide ("ro" ∉ Options options) then fail ErrStoreIsReadOnly
  else withMounts Lock (mount_locked id options).

(** The layer of [unmount]: by [lookup] or by its mount point. *)
Definition lookup_mounted (id : string) : M St positive :=
  o ← getR (λ r, match find r id with Some p => Some p | None => bymount r !! filepath_Clean id end);
  match o with Some p => mret p | None => fail ErrLayerUnknown end.

Definition unmount_locked (id : string) (force conditional : bool) : M St bool :=
  _ ← reloadMountsIfChanged;
  p ← lookup_mounted id;
  layer ← deref p;
  if decide (conditional = true ∧ MountCount layer = 0%Z) then fail ErrLayerNotMounted
  else
    _ ← (if force then assign p (λ l, set_mount (MountPoint l) 1 l) else mret tt);
    layer ← deref p;
    if decide (1 < MountCount layer)%Z then
      _ ← assign p (λ l, set_mount (MountPoint l) (int64 (MountCount l - 1)) l);
      _ ← saveMounts;
      mret true
    else
      res ← try (onDriver (Put id));
      match res with
      | inr err => if os_IsNotExist err then mret tt else fail err
      | inl _ => mret tt
      end;;
      _ ← (if decide (MountPoint layer = "") then mret tt
           else modR (λ r, set_bymount (delete (MountPoint layer) (bymount r)) r));
      _ ← assign p (λ l, set_mount "" (int64 (MountCount l - 1)) l);
      _ ← saveMounts;
      mret false.

Definition unmount (id : string) (force conditional : bool) : M St bool :=
  _ ← writable; withMounts Lock (unmount_locked id force conditional).

(** ** Deleting *)

(** [tempDirectory.StageDeletion]: the directory object and the error. *)
Definition stage (td : TempDir.TempDir) (path : string) : M World (TempDir.TempDir * option error) := λ w,
  match TempDir.StageDeletion path (w, td) with
  | ((w, td), Ret _) => (w, Ret (td, None))
  | ((w, td), Err e) => (w, Ret (td, Some e))
  | ((w, td), Crash c) => (w, Crash c)
  end.

(** [tempDirectory.Cleanup], as a function of the driver's surroundings. *)
Definition cleanup_of (td : TempDir.TempDir) : M (World * D) unit := λ s,
  let '((w, _), o) := TempDir.Cleanup (fst s, td) in ((w, snd s), o).

(** Does a deletion go on after this error? *)
Definition blocks (err : option error) : bool :=
  match err with None => false | Some e => negb (os_IsNotExist e) end.

Definition deleteInDigestMap (id : string) (r : layerStore) : layerStore :=
  set_sums (remove_first id <$> bycompressedsum r) (remove_first id <$> byuncompressedsum r) (bytocsum r) r.

(** The last part of [internalDelete]: the layer leaves the maps. *)
Definition forget (p : positive) (id : string) : M St unit :=
  layer ← deref p;
  _ ← modReg (reg_del id (Names layer));
  _ ← (if decide (MountPoint layer = "") then mret tt
       else modR (λ r, set_bymount (delete (MountPoint layer) (bymount r)) r));
  _ ← modR (deleteInDigestMap id);
  modR (λ r, if decide (l_MountLabel layer = "" ∨ Exists (λ l, l_MountLabel l = l_MountLabel layer) (reg_values (reg r)))
             then r else set_labels (ReleaseLabel (l_MountLabel layer) (labels r)) r).

(** The driver's layer and the files of the store are moved away. *)
Definition discard (p : positive) (id : string) (td : TempDir.TempDir) : M St (CleanupTempDirFuncs D * option error) :=
  res ← onDriver (DeferredRemove id);
  let '(cleanFunc, err) := res in
  if blocks err then mret ([Some (cleanup_of td); cleanFunc], err)
  else
    ts ← getR (λ r, tspath r id);
    res ← inWorld (stage td ts);
    let '(td, err) := res in
    if blocks err then mret ([Some (cleanup_of td); cleanFunc], err)
    else
      dd ← getR (λ r, datadir r id);
      res ← inWorld (stage td dd);
      let '(td, err) := res in
      if blocks err then mret ([Some (cleanup_of td); cleanFunc], err)
      else
        _ ← forget p id;
        mret ([Some (cleanup_of td); cleanFunc], None).

(** The clean-up functions are returned also with an error. *)
Definition internalDelete (id : string) : M St (CleanupTempDirFuncs D * option error) :=
  rw ← getR multi_IsReadWrite;
  if negb rw then mret ([], Some ErrStoreIsReadOnly)
  else
    o ← getR (λ r, find r id);
    match o with
    | None => mret ([], Some ErrLayerUnknown)
    | Some p =>
        layer ← deref p;
        saved ← (if layerHasIncompleteFlag layer then mret (inl tt)
                 else
                   _ ← assign p (set_flag incompleteFlag (ABool true));
                   try (saveFor layer false));
        match saved with
        | inr err => mret ([], Some err)
        | inl _ =>
            dir ← getR layerdir;
            res ← try (inWorld (TempDir.NewTempDir (filepath_Join [dir; tempDirPath])));
            match res with
            | inr err => mret ([], Some err)
            | inl td => discard p (ID layer) td
            end
        end
    end.

(** Unmount until the layer is not mounted; the error that stopped the loop. *)
Fixpoint unmount_all (rounds : nat) (id : string) : M St (option error) :=
  match rounds with
  | 0 => stop NoFuel
  | S rounds =>
      res ← try (unmount id false true);
      match res with
      | inl _ => unmount_all rounds id
      | inr err => mret (if decide (err = ErrLayerNotMounted) then None else Some err)
      end
  end.

Definition deferredDelete (id : string) : M St (CleanupTempDirFuncs D * option error) :=
  o ← getR (λ r, find r id);
  match o with
  | None => mret ([], Some ErrLayerUnknown)
  | Some p =>
      layer ← deref p;
      err ← unmount_all fuel (ID layer);
      match err with
      | Some err => mret ([], Some err)
      | None =>
          res ← internalDelete (ID layer);
          match res with
          | (cleanFunctions, Some err) => mret (cleanFunctions, Some err)
          | (cleanFunctions, None) =>
              res ← try (saveFor layer false);
              mret (cleanFunctions, match res with inl _ => None | inr err => Some err end)
          end
      end
  end.

Definition deleteWhileHoldingLock (id : string) : M St unit :=
  res ← deferredDelete id;
  let '(cleanupFunctions, deferErr) := res in
  cleanupErr ← try (onDriver (TempDir.CleanupTemporaryDirectories cleanupFunctions));
  match deferErr, cleanupErr with
  | Some err, _ => fail err
  | None, inr err => fail err
  | None, inl _ => mret tt
  end.

(** ** Loading *)

(** The directories of deletions that were interrupted. *)
Definition recoverStaleDirs : M St unit :=
  rw ← getR multi_IsReadWrite;
  if (rw : bool) then
    dir ← getR layerdir;
    _ ← inWorld (TempDir.RecoverStaleDirs (filepath_Join [dir; tempDirPath]));
    dirs ← getR (λ r, GetTempDirRootDirs (driver r));
    forM dirs (λ d, inWorld (TempDir.RecoverStaleDirs d))
  else mret tt.

(** One record of a file: the pointers read so far and the map [ids]. *)
Definition load_record (loc : Z) (acc : list positive * gmap string positive) (ol : option Layer)
    : M St (list positive * gmap string positive) :=
  let '(layers, ids) := acc in
  match ol with
  | None => stop (Panic "invalid memory address or nil pointer dereference")
  | Some layer =>
      match ids !! ID layer with
      | Some _ => mret acc
      | None => p ← new (set_location loc layer); mret (layers ++ [p], <[ID layer := p]> ids)%list
      end
  end.

(** One file; its modification time is noted. *)
Definition load_location (acc : list positive * gmap string positive) (locationIndex : nat)
    : M St (list positive * gmap string positive) :=
  rpath ← getR (λ r, default "" (jsonPath r !! locationIndex));
  if decide (rpath = "") then mret acc
  else
    info ← try (inWorld (os_Stat rpath));
    _ ← (match info with
         | inr err => if os_IsNotExist err then mret tt else fail err
         | inl t => modR (λ r, set_layerspathsModified (<[locationIndex := t]> (layerspathsModified r)) r)
         end);
    data ← read_or_empty rpath;
    if decide (data = "") then mret acc
    else match Unmarshal data with
         | None => fail (ErrOther "loading JSON")
         | Some l => foldM (load_record (layerLocationFromIndex locationIndex)) acc l
         end.

(** The maps that the second loop builds, with the heap; [x_err] is
    [errorToResolveBySaving]. *)
Record indexing := mkIndexing {
  x_idlist : list string;
  x_names : gmap string positive;
  x_csums : sums;
  x_usums : sums;
  x_tsums : sums;
  x_heap : gmap positive Layer;
  x_err : option error;
  x_locations : Z
}.

(** One name of the layer at [p]: a holder loses it, and its file must be
    written again. *)
Definition load_name (p : positive) (t : gmap string positive * gmap positive Layer * option error * Z)
    (name : string) : gmap string positive * gmap positive Layer * option error * Z :=
  let '(names, h, err, locs) := t in
  match names !! name with
  | Some conflict =>
      (<[name := p]> names, remove_name conflict name h, Some ErrDuplicateLayerNames,
       Z.lor locs (from_option location 0%Z (h !! conflict)))
  | None => (<[name := p]> names, h, err, locs)
  end.

(** A label that is in use already is no failure. *)
Definition reserveLabel (label : string) : M St unit :=
  if decide (label = "") then mret tt
  else
    res ← getR (λ r, ReserveLabelV2 label (labels r));
    _ ← modR (set_labels (fst res));
    match snd res with
    | Some e => if decide (e = ErrMCSAlreadyExists) then mret tt else fail e
    | None => mret tt
    end.

(** One round of the loop over the records. *)
Definition index_layer (readWrite : bool) (p : positive) (layer : Layer) (x : indexing) : indexing :=
  let '(names, h, err, locs) := foldl (load_name p) (x_names x, x_heap x, x_err x, x_locations x) (Names layer) in
  mkIndexing (x_idlist x ++ [ID layer])%list names
    (add_sum (CompressedDigest layer) (ID layer) (x_csums x))
    (add_sum (UncompressedDigest layer) (ID layer) (x_usums x))
    (add_sum (TOCDigest layer) (ID layer) (x_tsums x))
    (alter (set_ReadOnly (negb readWrite)) p h)
    (if layerHasIncompleteFlag layer && readWrite
     then Some (ErrOther "an incomplete layer exists and can't be cleaned up") else err) locs.

Definition load_step (readWrite : bool) (x : indexing) (p : positive) : M St indexing :=
  match x_heap x !! p with
  | None => stop (Panic "invalid memory address or nil pointer dereference")
  | Some layer => _ ← reserveLabel (l_MountLabel layer); mret (index_layer readWrite p layer x)
  end.

(** An incomplete layer that is deleted: its clean-up functions, the first
    error, and the locations to save. *)
Definition delete_incomplete (acc : list (CleanupTempDirFuncs D) * option error * Z) (p : positive)
    : M St (list (CleanupTempDirFuncs D) * option error * Z) :=
  let '(cleanups, err, locs) := acc in
  layer ← deref p;
  res ← internalDelete (ID layer);
  let '(cleanFunctions, e) := res in
  mret (cleanFunctions :: cleanups, match err with None => e | Some _ => err end, Z.lor locs (location layer)).

(** The deferred clean-ups, the last one first; their errors are only logged. *)
Definition run_cleanups (cleanups : list (CleanupTempDirFuncs D)) : M St unit :=
  forM cleanups (λ fs, _ ← try (onDriver (TempDir.CleanupTemporaryDirectories fs)); mret tt).

(** The last part of [load]: incomplete layers go, and what changed is saved. *)
Definition resolve (locs : Z) : M St unit :=
  ps ← getR (λ r, objs (reg r));
  _ ← forM ps (λ p, assign p (λ l, set_Flags (gomap_ensure (Flags l)) l));
  layersToDelete ← getR (λ r, filter (λ p, layerHasIncompleteFlag <$> heap (reg r) !! p = Some true) (objs (reg r)));
  res ← foldM delete_incomplete ([], None, locs) layersToDelete;
  let '(cleanups, err, locs) := res in
  finally
    (_ ← saveLayers locs false;
     match err with Some e => fail e | None => mret tt end)
    (run_cleanups cleanups).

(** The new maps replace the old ones. *)
Definition publish (layers : list positive) (ids : gmap string positive) (x : indexing) : M St unit :=
  modR (λ r, set_sums (x_csums x) (x_usums x) (x_tsums x)
               (set_reg (mkReg layers (TruncIndex.NewTruncIndex (x_idlist x)) ids (x_names x) (x_heap x) (nextp (reg r))) r)).

Definition load_body (lockedForWriting : bool) : M St (bool * option error) :=
  _ ← recoverStaleDirs;
  res ← foldM load_location ([], ∅) (seq 0 numLayerLocationIndex);
  let '(layers, ids) := res in
  rw ← getR multi_IsReadWrite;
  _ ← (if (rw : bool) then modR (λ r, set_labels (ClearLabels (labels r)) r) else mret tt);
  h ← getR (λ r, heap (reg r));
  x ← foldM (load_step rw) (mkIndexing [] ∅ ∅ ∅ ∅ h None 0) layers;
  if bool_decide (x_err x ≠ None) && negb rw then mret (false, x_err x)
  else if bool_decide (x_err x ≠ None) && negb lockedForWriting then mret (true, x_err x)
  else
    _ ← publish layers ids x;
    let rest : M St unit :=
      match x_err x with
      | None => mret tt
      | Some _ => if negb rw then fail (ErrOther "internal error: shouldSave in a read-only store")
                  else resolve (x_locations x)
      end in
    _ ← (if (rw : bool) then
           withMounts RLock
             (lw ← onMounts GetLastWrite;
              _ ← loadMounts;
              _ ← modR (set_mountsLastWrite lw);
              rest)
         else rest);
    mret (false, None).

Definition load (lockedForWriting : bool) : M St (bool * option error) :=
  r ← try (load_body lockedForWriting);
  match r with
  | inl x => mret x
  | inr err => mret (false, Some err)
  end.

(** ** Locking and reloading *)

(** The files that were changed without the lock file: by their time. *)
Fixpoint stat_changed (indices : list nat) : M St bool :=
  match indices with
  | [] => mret false
  | i :: indices =>
      rpath ← getR (λ r, default "" (jsonPath r !! i));
      if decide (rpath = "") then stat_changed indices
      else
        info ← try (inWorld (os_Stat rpath));
        known ← getR (λ r, default 0%Z (layerspathsModified r !! i));
        match info with
        | inr err => if os_IsNotExist err then stat_changed indices else fail err
        | inl t => if decide (t = known) then stat_changed indices else mret true
        end
  end.

Definition layersModified : M St (LastWrite * bool) :=
  lw ← getR lastWrite;
  res ← multi_ModifiedSince lw;
  let '(lw, modified) := res in
  if (modified : bool) then mret (lw, true)
  else
    changed ← stat_changed (seq 0 numLayerLocationIndex);
    mret (if (changed : bool) then (lw, true) else (mkLastWrite None, false)).

Definition modified : M St bool :=
  res ← layersModified;
  if (snd res : bool) then mret true
  else
    rw ← getR multi_IsReadWrite;
    if (rw : bool) then withMounts RLock (res ← mountsModified; mret (snd res)) else mret false.

(** An error with the hint whether holding the lock for writing would help. *)
Definition reloadIfChanged (lockedForWriting : bool) : M St (bool * option error) :=
  res ← try layersModified;
  match res with
  | inr err => mret (false, Some err)
  | inl (lw, true) =>
      res ← load lockedForWriting;
      match res with
      | (tryLockedForWriting, Some err) => mret (tryLockedForWriting, Some err)
      | (_, None) => _ ← modR (set_lastWrite lw); mret (false, None)
      end
  | inl (_, false) =>
      rw ← getR multi_IsReadWrite;
      if (rw : bool) then
        res ← try (withMounts RLock reloadMountsIfChanged);
        mret (false, match res with inl _ => None | inr err => Some err end)
      else mret (false, None)
  end.

Definition startWritingWithReload (canReload : bool) : M St unit :=
  _ ← multi_Lock;
  _ ← ip_Lock;
  on_error
    (if canReload then
       res ← reloadIfChanged true;
       match res with (_, Some err) => fail err | (_, None) => mret tt end
     else mret tt)
    (_ ← ip_Unlock; multi_Unlock).

Definition startWriting : M St unit := startWritingWithReload true.
Definition stopWriting : M St unit := _ ← ip_Unlock; multi_Unlock.
Definition stopReading : M St unit := _ ← ip_RUnlock; multi_Unlock.

(** [inProcessLocked(func() ...reloadIfChanged(...))] *)
Definition lockedReload (lockedForWriting : bool) : M St (bool * option error) :=
  _ ← ip_Lock; finally (reloadIfChanged lockedForWriting) ip_Unlock.

(** Call the clean-up function and return the error. *)
Definition bail {A} (unlockFn : M St unit) (err : error) : M St A := _ ← unlockFn; fail err.

(** The loop of [startReadingWithReload], with the lock files held for reading
    and [inProcessLock] released; [cleanups] is how many more times the store
    may be cleaned up. *)
Fixpoint reloadForReading (cleanups : nat) : M St unit :=
  res ← lockedReload false;
  match res with
  | (_, None) => mret tt
  | (false, Some err) => bail multi_Unlock err
  | (true, Some err) =>
      match cleanups with
      | 0 => bail multi_Unlock err
      | S cleanups =>
          _ ← multi_Unlock;
          _ ← multi_Lock;
          res ← lockedReload true;
          match res with
          | (_, Some err) => bail multi_Unlock err
          | (_, None) =>
              _ ← multi_Unlock;
              _ ← multi_RLock;
              reloadForReading cleanups
          end
      end
  end.

Definition startReadingWithReload (canReload : bool) : M St unit :=
  _ ← multi_RLock;
  _ ← ip_RLock;
  if canReload then
    r ← try modified;
    match r with
    | inr err => bail stopReading err
    | inl false => mret tt
    | inl true =>
        _ ← ip_RUnlock;
        _ ← reloadForReading maxLayerStoreCleanupIterations;
        ip_RLock
    end
  else mret tt.

Definition startReading : M St unit := startReadingWithReload true.

(** ** newLayerStore and newROLayerStore *)

Definition emptyStore (locks : list LockFile) (mounts : option LockFile) (rundir_ : string) (paths : list string)
    (layerdir_ : string) (driver_ : D) (labels_ : L) : layerStore :=
  mkLayerStore locks mounts rundir_ paths layerdir_ MFree (mkLastWrite None) (mkLastWrite None) reg_empty ∅ ∅ ∅ ∅
    [zeroTime; zeroTime; zeroTime] driver_ labels_.

(** With the store locked: read the last write, load. *)
Definition openBody (readWrite : bool) : M St unit :=
  lw ← multi_GetLastWrite;
  _ ← modR (set_lastWrite lw);
  res ← load readWrite;
  match res with (_, Some err) => fail err | (_, None) => mret tt end.

(** Lock for writing or reading; the deferred unlock follows in any case. *)
Definition openStore (readWrite : bool) : M St unit :=
  _ ← (if readWrite then startWritingWithReload false else startReadingWithReload false);
  finally (openBody readWrite) (if readWrite then stopWriting else stopReading).

(** The process-wide table of lock files, the driver and the labels that a new
    store starts with. *)
Notation Opening := (World * gmap string LockFile * D * L)%type.
Definition onTable {A} (m : M LockTable A) : M Opening A :=
  zoom (λ s, fst (fst s)) (λ t s, (t, snd (fst s), snd s)) m.

(** Running [openStore] on a new object; the table keeps the lock objects that
    the store uses. *)
Definition openNew (readWrite : bool) (locks : list LockFile) (mounts : option LockFile) (rundir_ : string)
    (paths : list string) (layerdir_ : string) : M Opening layerStore := λ s,
  let '(w, t, d, lab) := s in
  let '((w, r), o) := openStore readWrite (w, emptyStore locks mounts rundir_ paths layerdir_ d lab) in
  let used := (lockfile r ++ option_list (mountsLockfile r))%list in
  ((w, foldl (λ t l, <[file l := l]> t) t used, driver r, labels r), (λ _, r) <$> o).

Definition newLayerStore (rundir_ layerdir_ imagedir : string) (transient : bool) : M Opening layerStore :=
  let inW {A} (m : M World A) : M Opening A := onTable (zoom fst (λ w s, (w, snd s)) m) in
  _ ← inW (os_MkdirAll rundir_);
  _ ← inW (os_MkdirAll layerdir_);
  _ ← (if decide (imagedir = "") then mret tt else inW (os_MkdirAll imagedir));
  lock ← onTable (GetLockFile (filepath_Join [layerdir_; "layers.lock"]));
  more ← (if decide (imagedir = "") then mret []
          else l ← onTable (GetLockFile (filepath_Join [imagedir; "layers.lock"])); mret [l]);
  mounts ← onTable (GetLockFile (filepath_Join [rundir_; "mountpoints.lock"]));
  let volatileDir := if (transient : bool) then rundir_ else layerdir_ in
  let layersImageDir := if decide (imagedir = "") then "" else filepath_Join [imagedir; "layers.json"] in
  openNew true (lock :: more) (Some mounts) rundir_
    [filepath_Join [layerdir_; "layers.json"]; layersImageDir; filepath_Join [volatileDir; "volatile-layers.json"]]
    layerdir_.

Definition newROLayerStore (rundir_ layerdir_ : string) : M Opening layerStore :=
  lock ← onTable (GetROLockFile (filepath_Join [layerdir_; "layers.lock"]));
  openNew false [lock] None rundir_
    [filepath_Join [layerdir_; "layers.json"]; ""; filepath_Join [layerdir_; "volatile-layers.json"]] layerdir_.

(** ** Reading *)

Definition Layers : M St (list Layer) := getR (λ r, copyLayer <$> reg_values (reg r)).

Definition Size (name : string) : M St Z :=
  p ← lookup name;
  l ← deref p;
  mret (if decide (UncompressedDigest l ≠ "" ∨ TOCDigest l ≠ "") then UncompressedSize l else (-1)%Z).

Definition Exists_ (id : string) : M St bool :=
  o ← getR (λ r, find r id); mret (bool_decide (is_Some o)).

Definition Get (id : string) : M St Layer := p ← lookup id; l ← deref p; mret (copyLayer l).

Definition Metadata (id : string) : M St string := p ← lookup id; l ← deref p; mret (l_Metadata l).

Definition BigData (id key : string) : M St string :=
  if decide (key = "") then fail ErrInvalidBigDataName
  else
    p ← lookup id;
    l ← deref p;
    path ← getR (λ r, datapath r (ID l) key);
    inWorld (os_ReadFile path).

Definition BigDataNames (id : string) : M St (list string) :=
  o ← getR (λ r, find r id);
  match o with
  | None => fail ErrImageUnknown
  | Some p => l ← deref p; mret (copySlicePreferringNil (l_BigDataNames l))
  end.

(** A nil pair of mappings where the layer of [from] is missing. *)
Definition findParentAndLayer (from to : string) : M St (string * string * option Layer * Layer) :=
  p ← lookup to;
  toLayer ← deref p;
  let from := if decide (from = "") then Parent toLayer else from in
  if decide (from = "") then mret (from, ID toLayer, None, toLayer)
  else
    o ← getR (λ r, match find r from with Some q => Some q | None => find r (Parent toLayer) end);
    match o with
    | Some q => fromLayer ← deref q; mret (ID fromLayer, ID toLayer, Some fromLayer, toLayer)
    | None => mret (from, ID toLayer, None, toLayer)
    end.

Definition DiffSize (from to : string) : M St Z :=
  res ← findParentAndLayer from to;
  let '(from, to, fromLayer, toLayer) := res in
  onDriver (GraphDriver.DiffSize to (layerMappings (Some toLayer)) from (layerMappings fromLayer) (l_MountLabel toLayer)).

Fixpoint layers_of_ids (ids : list string) : M St (list Layer) :=
  match ids with
  | [] => mret []
  | id :: ids => l ← Get id; ls ← layers_of_ids ids; mret (l :: ls)
  end.

Definition layersByDigestMap (m : sums) (d : string) : M St (list Layer) := layers_of_ids (default [] (m !! d)).

Definition LayersByCompressedDigest (d : string) : M St (list Layer) :=
  m ← getR bycompressedsum; layersByDigestMap m d.
Definition LayersByUncompressedDigest (d : string) : M St (list Layer) :=
  m ← getR byuncompressedsum; layersByDigestMap m d.
Definition LayersByTOCDigest (d : string) : M St (list Layer) :=
  m ← getR bytocsum; layersByDigestMap m d.

(** ** Changing records *)

Definition ClearFlag (id flag : string) : M St unit :=
  _ ← writable;
  p ← lookup id;
  _ ← assign p (λ l, set_Flags (gomap_delete (Flags l) flag) l);
  l ← deref p; saveFor l false.

Definition SetFlag (id flag : string) (value : any) : M St unit :=
  _ ← writable;
  p ← lookup id;
  _ ← assign p (set_flag flag value);
  l ← deref p; saveFor l false.

Definition SetMetadata (id metadata : string) : M St unit :=
  _ ← writable;
  p ← lookup id;
  _ ← assign p (set_Metadata metadata);
  l ← deref p; saveFor l false.

Definition updateNames (id : string) (names : list string) (op : updateNameOperation) : M St unit :=
  _ ← writable;
  p ← lookup id;
  layer ← deref p;
  let oldNames := Names layer in
  match applyNameOperation oldNames names op with
  | inr err => fail err
  | inl names =>
      _ ← modReg (reg_rename (λ _ l, l) p oldNames names);
      l ← deref p; saveFor l false
  end.

(** The contents are copied into an atomic file writer. *)
Definition setBigData (p : positive) (key data : string) : M St unit :=
  if decide (key = "") then fail ErrInvalidBigDataName
  else
    layer ← deref p;
    dir ← getR (λ r, datadir r (ID layer));
    _ ← inWorld (os_MkdirAll dir);
    path ← getR (λ r, datapath r (ID layer) key);
    _ ← inWorld (AtomicWriteFile path data);
    if decide (key ∈ l_BigDataNames layer) then mret tt
    else
      _ ← assign p (λ l, set_BigDataNames (l_BigDataNames l ++ [key])%list l);
      l ← deref p; saveFor l false.

Definition SetBigData (id key data : string) : M St unit :=
  _ ← writable; p ← lookup id; setBigData p key data.

(** ** Contents *)

Definition createTarSplitFile (id : string) : M St string :=
  path ← getR (λ r, tspath r id);
  _ ← inWorld (os_MkdirAll (filepath_Dir path));
  _ ← inWorld (syscall (modify (put_file false path "")));
  mret path.

(** Sorted and without duplicates, as the loops over [uidLog] and [gidLog]. *)
Definition sorted_ids (l : list Z) : list Z := merge_sort Z.le (elements (list_to_set (C := gset Z) l)).

(** [applyDiff]: the stream is decompressed, given to the driver, and its tar
    headers are kept in the file at [tarSplit].  A stream that cannot be
    decompressed to its end counts as broken from the start.  [S] is what
    [applyDriverFunc] works on, [lift] makes it write a file. *)
Definition applyDiff {S} (lift : M World unit → M S unit) (layerOptions : option LayerOptions) (diff tarSplit : string)
    (applyDriverFunc : string → M S Z) : M S applyDiffResult :=
  let options := default noOptions layerOptions in
  let compression := DetectCompression (String.substring 0 10240 diff) in
  let knownCompressed := bool_decide (OriginalDigest options ≠ "") && is_canonical (OriginalDigest options) in
  let knownUncompressed := bool_decide (o_UncompressedDigest options ≠ "") && is_canonical (o_UncompressedDigest options) in
  match DecompressStream diff with
  | inr err => fail err
  | inl (uncompressed, consumed) =>
      size ← applyDriverFunc uncompressed;
      match tarsplit_pack uncompressed with
      | inr err => fail err
      | inl packed =>
          _ ← lift (os_WriteFile tarSplit (pgzip packed));
          let compressedDigest := if knownCompressed then OriginalDigest options else FromBytes consumed in
          let uncompressedDigest :=
            if knownUncompressed then o_UncompressedDigest options
            else if decide (compression = Uncompressed) then compressedDigest else FromBytes uncompressed in
          let compressedSize :=
            match OriginalSize options with
            | Some n => if decide (OriginalDigest options = "") then Z.of_nat (String.length consumed) else n
            | None => Z.of_nat (String.length consumed)
            end in
          mret (mkDiffResult compressedDigest compressedSize compression uncompressedDigest
                  (Z.of_nat (String.length uncompressed)) size (sorted_ids (fst <$> tar_owners uncompressed))
                  (sorted_ids (snd <$> tar_owners uncompressed)))
      end
  end.

Definition applyDiffResultToLayer (p : positive) (res : applyDiffResult) : M St unit :=
  layer ← deref p;
  _ ← modR (λ r, set_sums (updateDigestMap (bycompressedsum r) (CompressedDigest layer) (r_compressedDigest res) (ID layer))
                   (updateDigestMap (byuncompressedsum r) (UncompressedDigest layer) (r_uncompressedDigest res) (ID layer))
                   (bytocsum r) r);
  assign p (λ l, set_owners (r_uids res) (r_gids res)
                   (set_uncompressed (r_uncompressedDigest res) (r_uncompressedSize res)
                      (set_compressed (r_compressedDigest res) (r_compressedSize res) (r_compressionType res) l))).

Definition applyDiffWithOptions (to : string) (layerOptions : option LayerOptions) (diff : string) : M St Z :=
  _ ← writable;
  p ← lookup to;
  layer ← deref p;
  tarSplit ← createTarSplitFile (ID layer);
  res ← applyDiff inWorld layerOptions diff tarSplit
          (λ payload, onDriver (ApplyDiff (ID layer) (mkApplyDiffOpts payload (layerMappings (Some layer)) (l_MountLabel layer))));
  _ ← inWorld (syscall (mret tt));
  _ ← applyDiffResultToLayer p res;
  l ← deref p;
  _ ← saveFor l true;
  mret (r_size res).

Definition ApplyDiff_ (to diff : string) : M St Z := applyDiffWithOptions to None diff.

Definition commitLayer (e : maybeStagedLayerExtraction) (layerID : string) : M St unit :=
  path ← getR (λ r, tspath r layerID);
  _ ← inWorld (TempDir.Commit (stagedTarSplit e) path);
  match CommitStagedLayer with
  | Some commit => onDriver (commit layerID (stagedLayer e))
  | None => stop (Panic "invalid memory address or nil pointer dereference")
  end.

(** The tar-split file of a layer that was pulled with a differ. *)
Definition writeTarSplit (id : string) (o : option string) : M St unit :=
  match o with
  | None => mret tt
  | Some data =>
      path ← createTarSplitFile id;
      _ ← inWorld (syscall (mret tt));
      _ ← inWorld (os_WriteFile path (pgzip data));
      inWorld (syscall (mret tt))
  end.

(** What the layer record gets from the output of the differ. *)
Definition with_output (out : DriverWithDifferOutput) (flags : gomap any) (l : Layer) : Layer :=
  let l := set_owners (do_UIDs out) (do_GIDs out)
             (set_uncompressed (do_UncompressedDigest out) (do_Size out)
                (set_compressed (do_CompressedDigest out) (CompressedSize l) (CompressionType l)
                   (set_TOCDigest (do_TOCDigest out) (set_Metadata (do_Metadata out) l)))) in
  match flags with
  | None => l
  | Some fl => set_Flags (Some (fl ∪ default ∅ (Flags l))) l
  end.

Definition applyDiffFromStagingDirectory (id : string) (out : DriverWithDifferOutput)
    (options : option ApplyDiffWithDifferOpts) : M St unit :=
  match ApplyDiffFromStagingDirectory with
  | None => fail ErrNotSupported
  | Some apply =>
      p ← lookup id;
      layer ← deref p;
      let options := default (mkDifferOpts (mkApplyDiffOpts "" (layerMappings (Some layer)) (l_MountLabel layer)) None) options in
      _ ← onDriver (apply (ID layer) (Parent layer) out options);
      _ ← modR (λ r, set_sums (updateDigestMap (bycompressedsum r) (CompressedDigest layer) (do_CompressedDigest out) (ID layer))
                       (updateDigestMap (byuncompressedsum r) (UncompressedDigest layer) (do_UncompressedDigest out) (ID layer))
                       (updateDigestMap (bytocsum r) (TOCDigest layer) (do_TOCDigest out) (ID layer)) r);
      _ ← assign p (with_output out (wd_Flags options));
      _ ← writeTarSplit (ID layer) (TarSplit out);
      _ ← forM (range_map (do_BigData out)) (λ kv,
            on_error (SetBigData id (fst kv) (snd kv)) (_ ← try (deleteWhileHoldingLock id); mret tt));
      l ← deref p;
      saveFor l true
  end.

(** ** Creating *)

(** The loop that draws random identifiers until one is not in use. *)
Fixpoint unusedID (rounds : nat) : M St string :=
  match rounds with
  | 0 => stop NoFuel
  | S rounds =>
      id ← inWorld (GenerateRandomID fuel);
      ids ← getR (λ r, byid (reg r));
      match ids !! id with Some _ => unusedID rounds | None => mret id end
  end.

(** The layer that is returned with [ErrDuplicateID] is dropped. *)
Definition checkIdOrNameConflict (id : string) (names : list string) : M St unit :=
  g ← getR reg;
  if decide (is_Some (byid g !! id)) then fail ErrDuplicateID
  else if decide (Exists (λ n, is_Some (byname g !! n)) names) then fail ErrDuplicateName
  else mret tt.

Definition pickStoreLocation (volatile writeable : bool) (r : layerStore) : Z :=
  if volatile then volatileLayerLocation
  else if negb writeable && bool_decide (default "" (jsonPath r !! indexFromLayerLocation imageStoreLayerLocation) ≠ "")
  then imageStoreLayerLocation
  else stableLayerLocation.

(** The template layer, with its tar-split data. *)
Definition template (options : LayerOptions) : M St (option Layer * string) :=
  if decide (TemplateLayer options = "") then mret (None, "")
  else
    p ← lookup (TemplateLayer options);
    layer ← deref p;
    path ← getR (λ r, tspath r (ID layer));
    tsdata ← read_or_empty path;
    mret (Some layer, tsdata).

Definition newLayer (id parent : string) (names : list string) (mountLabel : string) (tmpl : option Layer)
    (options : LayerOptions) (now loc : Z) : Layer :=
  let tm {A} (f : Layer → A) (zero : A) : A := from_option f zero tmpl in
  mkLayer id names parent (tm l_Metadata "") mountLabel "" 0 now (tm CompressedDigest "") (tm CompressedSize 0%Z)
    (tm UncompressedDigest "") (tm TOCDigest "") (tm UncompressedSize 0%Z) (tm CompressionType 0%Z)
    (tm l_UIDs []) (tm l_GIDs []) (Some (<[incompleteFlag := ABool true]> (default ∅ (newMapFrom (o_Flags options)))))
    (copyIDMaps (o_UIDMap (IDMappingOptions options))) (copyIDMaps (o_GIDMap (IDMappingOptions options)))
    false loc [].

(** The driver makes the layer: from the template, or empty. *)
Definition createInDriver (id parent : string) (parentLayer tmpl : option Layer) (options : LayerOptions)
    (opts : CreateOpts) (writeable : bool) : M St unit :=
  let idMappings := co_IDMappings opts in
  let parentMappings := layerMappings parentLayer in
  oldMappings ← (match tmpl with
                 | Some t =>
                     _ ← onDriver (CreateFromTemplate id (TemplateLayer options) (layerMappings (Some t)) parent
                                     parentMappings opts writeable);
                     mret (Some (layerMappings (Some t)))
                 | None =>
                     _ ← onDriver (if writeable then CreateReadWrite id parent opts else Create id parent opts);
                     mret ((λ _, parentMappings) <$> parentLayer)
                 end);
  match oldMappings with
  | Some old =>
      if decide (uids old ≠ uids idMappings ∨ gids old ≠ gids idMappings)
      then onDriver (UpdateLayerIDMap id old idMappings (co_MountLabel opts))
      else mret tt
  | None => mret tt
  end.

(** The tar-split data of the template is copied. *)
Definition copyTarSplit (id tsdata : string) : M St unit :=
  if decide (tsdata = "") then mret tt
  else
    path ← getR (λ r, tspath r id);
    _ ← inWorld (os_MkdirAll (filepath_Dir path));
    inWorld (os_WriteFile path tsdata).

(** The contents; without any the layer may have the digests of its template. *)
Definition fillLayer (p : positive) (options : LayerOptions) (contents : option layerCreationContents) : M St Z :=
  layer ← deref p;
  match contents with
  | Some (Extraction e) =>
      match result e with
      | Some res => _ ← commitLayer e (ID layer); _ ← applyDiffResultToLayer p res; mret (-1)%Z
      | None => applyDiffWithOptions (ID layer) (Some options) (diff e)
      end
  | Some (Differ out opts) => _ ← applyDiffFromStagingDirectory (ID layer) out opts; mret (-1)%Z
  | None =>
      _ ← modR (λ r, set_sums (add_sum (CompressedDigest layer) (ID layer) (bycompressedsum r))
                       (add_sum (UncompressedDigest layer) (ID layer) (byuncompressedsum r))
                       (add_sum (TOCDigest layer) (ID layer) (bytocsum r)) r);
      mret (-1)%Z
  end.

(** The part of [create] that is undone with [deleteWhileHoldingLock]. *)
Definition create_body (p : positive) (id parent : string) (parentLayer tmpl : option Layer) (tsdata mountLabel : string)
    (storageOpt : gomap string) (options : LayerOptions) (writeable : bool) (contents : option layerCreationContents)
    : M St (Layer * Z) :=
  l ← deref p;
  _ ← saveFor l false;
  _ ← forM (o_BigData options) (λ item, setBigData p (Key item) (Data item));
  let mo := IDMappingOptions options in
  let idMappings := if HostUIDMapping mo && HostGIDMapping mo then mkIDMappings None None
                    else NewIDMappingsFromMaps (o_UIDMap mo) (o_GIDMap mo) in
  _ ← createInDriver id parent parentLayer tmpl options (mkCreateOpts mountLabel storageOpt idMappings) writeable;
  _ ← copyTarSplit id tsdata;
  size ← fillLayer p options contents;
  _ ← assign p (λ l, set_Flags (gomap_delete (Flags l) incompleteFlag) l);
  l ← deref p;
  _ ← saveFor l true;
  l ← deref p;
  mret (copyLayer l, size).

Definition create (id : string) (parentLayer : option Layer) (names : list string) (mountLabel : string)
    (storageOpt : gomap string) (moreOptions : option LayerOptions) (writeable : bool)
    (contents : option layerCreationContents) : M St (Layer * Z) :=
  let options := default noOptions moreOptions in
  _ ← writable;
  dir ← getR rundir;
  _ ← inWorld (os_MkdirAll dir);
  dir ← getR layerdir;
  _ ← inWorld (os_MkdirAll dir);
  id ← (if decide (id = "") then unusedID fuel else mret id);
  _ ← checkIdOrNameConflict id names;
  let parent := from_option ID "" parentLayer in
  t ← template options;
  let '(tmpl, tsdata) := t in
  _ ← reserveLabel mountLabel;
  now ← inWorld time_Now;
  loc ← getR (pickStoreLocation (o_Volatile options) writeable);
  p ← new (newLayer id parent names mountLabel tmpl options now loc);
  _ ← modReg (reg_add p id names);
  on_error
    (create_body p id parent parentLayer tmpl tsdata mountLabel storageOpt options writeable contents)
    (_ ← try (deleteWhileHoldingLock id); mret tt).

(** [info] is the record in the additional layer store, [createAs] its
    [CreateAs]. *)
Definition PutAdditionalLayer (id : string) (parentLayer : option Layer) (names : list string)
    (info : Layer + error) (createAs : string → string → M (World * D) unit) : M St Layer :=
  _ ← checkIdOrNameConflict id names;
  let parent := from_option ID "" parentLayer in
  match info with
  | inr err => fail err
  | inl layer =>
      now ← inWorld time_Now;
      let layer := set_identity id parent now layer in
      _ ← onDriver (createAs id parent);
      p ← new layer;
      _ ← modReg (reg_add p id names);
      _ ← modR (λ r, set_sums (add_sum (CompressedDigest layer) id (bycompressedsum r))
                       (add_sum (UncompressedDigest layer) id (byuncompressedsum r))
                       (add_sum (TOCDigest layer) id (bytocsum r)) r);
      _ ← on_error (saveFor layer true) (_ ← try (deleteWhileHoldingLock id); mret tt);
      l ← deref p;
      mret (copyLayer l)
  end.

(** ** Cleaning up *)

(** A layer of the driver that the store does not know. *)
Definition gc_driver_layer (id : string) : M St unit :=
  ids ← getR (λ r, byid (reg r));
  match ids !! id with
  | Some _ => mret tt
  | None =>
      _ ← onDriver (Remove id);
      ts ← getR (λ r, tspath r id);
      _ ← try (inWorld (os_Remove ts));
      dd ← getR (λ r, datadir r id);
      _ ← try (inWorld (os_RemoveAll dd));
      mret tt
  end.

(** [strings.CutSuffix] *)
Definition CutSuffix (s suffix : string) : option string :=
  let n := String.length s - String.length suffix in
  if decide (s = String.substring 0 n s +:+ suffix) then Some (String.substring 0 n s) else None.

(** An entry of the directory: the identifier it belongs to, and whether it is
    a data directory. *)
Definition entry_id (name : string) : option (string * bool) :=
  match CutSuffix name tarSplitSuffix with
  | Some id => if decide (ValidateID id = None) then Some (id, false) else None
  | None => if decide (ValidateID name = None) then Some (name, true) else None
  end.

Definition gc_entry (err : option error) (entry : string * bool) : M St (option error) :=
  match entry_id (fst entry) with
  | None => mret err
  | Some (id, isDataDir) =>
      ids ← getR (λ r, byid (reg r));
      match ids !! id with
      | Some _ => mret err
      | None =>
          dir ← getR layerdir;
          let path := filepath_Join [dir; fst entry] in
          res ← try (inWorld (if (isDataDir : bool) then os_RemoveAll path else os_Remove path));
          mret (match res, err with inr e, None => Some e | _, _ => err end)
      end
  end.

(** [r.driver.ListLayers()], nothing when the driver cannot tell. *)
Definition listLayers : M St (option (list string)) :=
  res ← try (onDriver ListLayers);
  match res with
  | inl ids => mret (Some ids)
  | inr err => if decide (err = ErrNotSupported) then mret None else fail err
  end.

Definition GarbageCollect : M St unit :=
  o ← listLayers;
  match o with
  | None => mret tt
  | Some ids =>
      _ ← forM ids gc_driver_layer;
      dir ← getR layerdir;
      entries ← inWorld (os_ReadDir dir);
      err ← foldM gc_entry None entries;
      match err with Some e => fail e | None => mret tt end
  end.

Definition Wipe : M St unit :=
  _ ← writable;
  ids ← getR (λ r, (λ kv, (fst kv, from_option Created 0%Z (heap (reg r) !! snd kv))) <$> range_map (byid (reg r)));
  _ ← forM (fst <$> sort_created ids) deleteWhileHoldingLock;
  o ← listLayers;
  forM (default [] o) (λ id, onDriver (Remove id)).

(** Every method that a holder of the write lock can call. *)
Inductive op :=
  | OpCreate (id : string) (parentLayer : option Layer) (names : list string) (mountLabel : string)
      (storageOpt : gomap string) (moreOptions : option LayerOptions) (writeable : bool)
      (contents : option layerCreationContents)
  | OpUpdateNames (id : string) (names : list string) (o : updateNameOperation)
  | OpDelete (id : string)
  | OpDeferredDelete (id : string)
  | OpWipe
  | OpSetMetadata (id metadata : string)
  | OpSetFlag (id flag : string) (value : any)
  | OpClearFlag (id flag : string)
  | OpSetBigData (id key data : string)
  | OpMount (id : string) (options : MountOpts)
  | OpUnmount (id : string) (force conditional : bool)
  | OpApplyDiff (to diff : string)
  | OpGarbageCollect.

Definition run_op (o : op) : M St unit :=
  match o with
  | OpCreate id parentLayer names mountLabel storageOpt moreOptions writeable contents =>
      _ ← create id parentLayer names mountLabel storageOpt moreOptions writeable contents; mret tt
  | OpUpdateNames id names o => updateNames id names o
  | OpDelete id => deleteWhileHoldingLock id
  | OpDeferredDelete id => _ ← deferredDelete id; mret tt
  | OpWipe => Wipe
  | OpSetMetadata id metadata => SetMetadata id metadata
  | OpSetFlag id flag value => SetFlag id flag value
  | OpClearFlag id flag => ClearFlag id flag
  | OpSetBigData id key data => SetBigData id key data
  | OpMount id options => _ ← Mount id options; mret tt
  | OpUnmount id force conditional => _ ← unmount id force conditional; mret tt
  | OpApplyDiff to diff => _ ← ApplyDiff_ to diff; mret tt
  | OpGarbageCollect => GarbageCollect
  end.
End LayerStore.
Arguments layerStore : clear implicits.
End Layers.
