(* ===== verification/LayerDemo.v ===== *)
(** * Instances for the layer store

    A codec for the JSON files of the layer store, and a graph driver that
    keeps the names of its layers and its mounts: concrete functions for the
    interfaces of [GraphDriver] and [LayerData], so that the model runs. *)

From S2P Require Import Prelude World StoreUtil Strconv Codec Json IdTools TempDir GraphDriver LayerData.

Local Open Scope string_scope.

Module LayerDemo.
Import LayerData.

(** ** JSON *)

#[local] Instance idmap_codec : Codec IDMap :=
  codec_via (λ m, (ContainerID m, HostID m, Size m)) (λ '(c, h, n), mkIDMap c h n).
#[local] Instance idmap_codec_law : CodecLaw IDMap.
Proof. apply codec_via_law. by intros []. Qed.

#[local] Instance layer_codec : Codec Layer :=
  codec_via
    (λ l, ((ID l, Names l, Parent l, l_Metadata l, l_MountLabel l), (MountPoint l, MountCount l, Created l),
           (CompressedDigest l, CompressedSize l, UncompressedDigest l, TOCDigest l, UncompressedSize l, CompressionType l),
           (l_UIDs l, l_GIDs l), (Flags l : option (gmap string any)), (UIDMap l, GIDMap l),
           (ReadOnly l, location l, l_BigDataNames l)))
    (λ '((i, n, p, me, ml), (mp, mc, cr), (cd, cs, ud, td, us, ct), (u, g), f, (um, gm), (ro, lo, bn)),
       mkLayer i n p me ml mp mc cr cd cs ud td us ct u g f um gm ro lo bn).
#[local] Instance layer_codec_law : CodecLaw Layer.
Proof. apply codec_via_law. by intros []. Qed.

#[local] Instance mount_codec : Codec layerMountPoint :=
  codec_via (λ m, (mp_ID m, mp_MountPoint m, mp_MountCount m)) (λ '(i, p, n), mkMountPoint i p n).
#[local] Instance mount_codec_law : CodecLaw layerMountPoint.
Proof. apply codec_via_law. by intros []. Qed.

#[global] Instance layer_json : LayerJSON := {
  Marshal l := Some (marshal (json_layer <$> l));
  Unmarshal s := option_map (fmap Some) (unmarshal (A := Layer) s);
  MarshalMounts l := Some (marshal l);
  UnmarshalMounts s := unmarshal s
}.
#[global] Instance layer_json_spec : LayerJSONSpec.
Proof.
  split; simpl.
  - intros l d [= <-]. apply marshal_nonempty.
  - intros l d _ [= <-]. rewrite unmarshal_marshal. simpl. by rewrite <- list_fmap_compose.
  - intros l d [= <-]. apply marshal_nonempty.
  - intros l d _ [= <-]. apply unmarshal_marshal.
Qed.

(** ** A driver *)

Record nameDriver := mkNameDriver { dr_layers : gset string; dr_mounts : gset string }.

Notation DS := (World * nameDriver)%type.

(** A driver operation makes one system call, and then changes its state. *)
Definition step {A} (m : M nameDriver A) : M DS A :=
  _ ← zoom fst (λ w s, (w, snd s)) (syscall (mret tt)); zoom snd (λ d s, (fst s, d)) m.

Definition put_layer (id : string) : M nameDriver unit :=
  modify (λ d, mkNameDriver ({[id]} ∪ dr_layers d) (dr_mounts d)).
Definition drop_layer (id : string) : M nameDriver unit :=
  modify (λ d, mkNameDriver (dr_layers d ∖ {[id]}) (dr_mounts d)).

Definition mount_point (id : string) : string := "/mnt/" +:+ id.

#[global] Instance name_driver : GraphDriver nameDriver := {
  CreateReadWrite id _ _ := step (put_layer id);
  Create id _ _ := step (put_layer id);
  CreateFromTemplate id _ _ _ _ _ _ := step (put_layer id);
  Remove id := step (drop_layer id);
  DeferredRemove id :=
    r ← try (step (d ← gets dr_layers; if decide (id ∈ d) then drop_layer id else fail (ErrOS ENOENT)));
    mret (None, match r with inl _ => None | inr e => Some e end);
  GetTempDirRootDirs _ := [];
  Get id _ := step (d ← gets dr_layers;
                    if decide (id ∈ d) then
                      _ ← modify (λ d, mkNameDriver (dr_layers d) ({[mount_point id]} ∪ dr_mounts d)); mret (mount_point id)
                    else fail ErrLayerUnknown);
  Put id := step (modify (λ d, mkNameDriver (dr_layers d) (dr_mounts d ∖ {[mount_point id]})));
  ListLayers := step (gets (λ d, elements (dr_layers d)));
  SyncMode_ _ := SyncModeFilesystem;
  UpdateLayerIDMap _ _ _ _ := step (mret tt);
  SupportsShifting _ _ _ := false;
  ApplyDiff _ o := step (mret (Z.of_nat (String.length (Diff o))));
  DiffSize _ _ _ _ _ := step (mret 0%Z);
  ApplyDiffFromStagingDirectory := Some (λ _ _ _ _, step (mret tt));
  CommitStagedLayer := Some (λ _ _, step (mret tt));
  Mounted_ p := step (gets (λ d, bool_decide (p ∈ dr_mounts d)))
}.

(** ** Labels, digests, streams *)

#[global] Instance label_set : Selinux (gset string) := {
  ClearLabels _ := ∅;
  ReserveLabelV2 l s := if decide (l ∈ s) then (s, Some ErrMCSAlreadyExists) else ({[l]} ∪ s, None);
  ReleaseLabel l s := s ∖ {[l]}
}.

#[global] Instance plain_digests : Digests := {
  FromBytes data := "sha256:" +:+ data;
  ValidateDigest d := if String.prefix "sha256:" d then None else Some ErrDigestUnknown
}.

#[global] Instance plain_streams : Streams := {
  DetectCompression _ := Uncompressed;
  DecompressStream s := inl (s, s);
  tarsplit_pack s := inl s;
  pgzip s := s;
  tar_owners _ := [];
  is_canonical d := String.prefix "sha256:" d
}.
End LayerDemo.
