(* ===== verification/LayerFacts.v ===== *)
(** * Properties of the layer store

    The invariant of the index, how the store is loaded, what the methods do,
    the table of mounts, and what is left on disk when a process dies. *)

From S2P Require Import Prelude World Paths StoreUtil Strconv StringId Codec Json IdTools TruncIndex LockFile TempDir.
From S2P Require Import StoreLock StoreDisk Registry GraphDriver LayerData LayerStore LayerDemo.
From stdpp Require Import sorting.

Local Open Scope string_scope.

Module LayerFacts.
Import LayerData Layers.

Section Facts.
Context {T : Type} `{PatriciaTrieSpec T}.
Context {D : Type} `{GraphDriver D} {L : Type} `{Selinux L}.
Context `{LayerJSON} `{Digests} `{Streams} `{MapRange} `{SortCreated}.
Context (fuel : nat).
Notation store := (layerStore T D L).
Notation St := (World * layerStore T D L)%type.
Implicit Types (s : St) (r : store) (g : registry T Layer).

(** ** What saving leaves alone

    Saving writes the mount table and reads it back, so the mount fields of
    the records change with every save.  The rest of the memory is its core. *)

Definition bare (l : Layer) : Layer := set_mount "" 0 l.

Definition flat g : registry T Layer :=
  mkReg (objs g) (idindex g) (byid g) (byname g) (bare <$> heap g) (nextp g).

Record core := mkCore {
  k_reg : registry T Layer;
  k_csums : sums;
  k_usums : sums;
  k_tsums : sums;
  k_paths : list string * string * string
}.
Definition core_of r : core :=
  mkCore (flat (reg r)) (bycompressedsum r) (byuncompressedsum r) (bytocsum r) (jsonPath r, layerdir r, rundir r).

Definition same_core s s' : Prop := core_of (snd s') = core_of (snd s).

#[global] Instance same_core_preorder : PreOrder same_core.
Proof. split; [by intros s|]. unfold same_core. intros s1 s2 s3 E1 E2. by rewrite E2, E1. Qed.

Lemma same_core_inWorld {A} (m : M World A) : moves same_core (inWorld m).
Proof. intros [w r]. unfold inWorld, zoom, same_core. simpl. by destruct (m w). Qed.
Lemma same_core_onDriver {A} (m : M (World * D) A) : moves same_core (onDriver m).
Proof. intros [w r]. unfold onDriver, zoom, same_core. simpl. by destruct (m (w, driver r)). Qed.
Lemma same_core_onLock {A} i (m : M LF A) : moves same_core (onLock i m).
Proof.
  intros [w r]. unfold onLock, same_core. simpl. destruct (lockfile r !! i) as [l|]; [|done].
  by destruct (m (w, l)) as [[w' l'] o].
Qed.
Lemma same_core_onMounts {A} (m : M LF A) : moves same_core (onMounts m).
Proof.
  intros [w r]. unfold onMounts, same_core. simpl. destruct (mountsLockfile r) as [l|]; [|done].
  by destruct (m (w, l)) as [[w' l'] o].
Qed.
Lemma same_core_modR f : (∀ r, core_of (f r) = core_of r) → moves same_core (modR f).
Proof. intros Hf [w r]. apply Hf. Qed.

Lemma bare_idem l : bare (bare l) = bare l.
Proof. done. Qed.

Lemma flat_mount mp n p g : flat (reg_update (set_mount mp n) p g) = flat g.
Proof.
  unfold flat, reg_update. f_equal. simpl. apply map_eq. intros q. rewrite !lookup_fmap.
  destruct (decide (q = p)) as [->|Hne]; [|by rewrite lookup_alter_ne].
  rewrite lookup_alter_eq. by destruct (heap g !! p).
Qed.

Lemma flat_clear g : flat (clear_mounts g) = flat g.
Proof.
  unfold clear_mounts. generalize (objs g). intros l. revert g.
  induction l as [|p l IH]; intros g; simpl; [done|]. by rewrite IH, flat_mount.
Qed.

Lemma flat_merge t mnt : flat (snd (merge_mount t mnt)) = flat (snd t).
Proof.
  destruct t as [mounts g]. unfold merge_mount. case_decide; [done|].
  destruct (reg_lookup _ _ _); [|done]. apply flat_mount.
Qed.

Lemma flat_merges l t : flat (snd (foldl merge_mount t l)) = flat (snd t).
Proof. revert t. induction l as [|mnt l IH]; intros t; simpl; [done|]. by rewrite IH, flat_merge. Qed.

Lemma same_core_assign_mount p f :
  (∀ l, ∃ mp n, f l = set_mount mp n l) → moves same_core (assign p f).
Proof.
  intros Hf. apply same_core_modR. intros r. unfold core_of. simpl. f_equal.
  unfold flat, reg_update. f_equal. simpl. apply map_eq. intros q. rewrite !lookup_fmap.
  destruct (decide (q = p)) as [->|Hne]; [|by rewrite lookup_alter_ne].
  rewrite lookup_alter_eq. destruct (heap (reg r) !! p) as [l|]; [|done]. simpl. f_equal.
  by destruct (Hf l) as (mp & n & ->).
Qed.

#[local] Hint Resolve same_core_inWorld same_core_onDriver same_core_onLock same_core_onMounts : moves.

Lemma same_core_writable : moves same_core writable.
Proof. unfold writable, getR. moves_steps. Qed.
#[local] Hint Resolve same_core_writable : moves.

Lemma same_core_read p : moves same_core (read_or_empty p).
Proof. unfold read_or_empty. moves_steps. Qed.
#[local] Hint Resolve same_core_read : moves.

Lemma same_core_loadMounts : moves same_core loadMounts.
Proof.
  unfold loadMounts, getR. moves_steps. apply same_core_modR. intros r.
  destruct (foldl merge_mount _ _) as [mounts g] eqn:E. unfold core_of. simpl. f_equal.
  pose proof (flat_merges l (∅, clear_mounts (reg r))) as Hf. rewrite E in Hf. simpl in Hf.
  by rewrite Hf, flat_clear.
Qed.
#[local] Hint Resolve same_core_loadMounts : moves.

Lemma same_core_withMounts {A} take (m : M St A) : moves same_core m → moves same_core (withMounts take m).
Proof. intros Hm. unfold withMounts. moves_steps. Qed.

Lemma same_core_each m : moves same_core (each_lock m).
Proof. unfold each_lock, getR. moves_steps. Qed.
#[local] Hint Resolve same_core_withMounts same_core_each : moves.

Lemma same_core_RecordWrite : moves same_core multi_RecordWrite.
Proof. unfold multi_RecordWrite, getR. moves_steps. Qed.
Lemma same_core_lastWrite x : moves same_core (modR (set_lastWrite x)).
Proof. by apply same_core_modR. Qed.
Lemma same_core_mountsLastWrite x : moves same_core (modR (set_mountsLastWrite x)).
Proof. by apply same_core_modR. Qed.
Lemma same_core_pathsModified f : moves same_core (modR (λ r, set_layerspathsModified (f r) r)).
Proof. by apply same_core_modR. Qed.
Lemma same_core_bymount f : moves same_core (modR (λ r, set_bymount (f r) r)).
Proof. by apply same_core_modR. Qed.
Lemma same_core_labels f : moves same_core (modR (λ r, set_labels (f r) r)).
Proof. by apply same_core_modR. Qed.
#[local] Hint Resolve same_core_RecordWrite same_core_lastWrite same_core_mountsLastWrite same_core_pathsModified
  same_core_bymount same_core_labels : moves.

Lemma same_core_saveMounts : moves same_core saveMounts.
Proof. unfold saveMounts, getR. moves_steps. Qed.
Lemma same_core_save_location a b i : moves same_core (save_location a b i).
Proof. unfold save_location, getR. moves_steps. Qed.
#[local] Hint Resolve same_core_saveMounts same_core_save_location : moves.
Lemma same_core_saveLayers a b : moves same_core (saveLayers a b).
Proof. unfold saveLayers, multi_AssertLockedForWriting. moves_steps. Qed.
#[local] Hint Resolve same_core_saveLayers : moves.
Lemma same_core_saveFor l b : moves same_core (saveFor l b).
Proof. unfold saveFor, save. apply same_core_withMounts. moves_steps. Qed.
#[local] Hint Resolve same_core_saveFor : moves.
Lemma same_core_reloadMounts : moves same_core reloadMountsIfChanged.
Proof. unfold reloadMountsIfChanged, mountsModified, getR. moves_steps. Qed.
Lemma same_core_lookup id : moves same_core (lookup id).
Proof. unfold lookup, getR. moves_steps. Qed.
Lemma same_core_deref p : moves same_core (deref p).
Proof. unfold deref, getR. moves_steps. Qed.
#[local] Hint Resolve same_core_reloadMounts same_core_lookup same_core_deref : moves.
Lemma same_core_mount id options : moves same_core (Mount id options).
Proof.
  unfold Mount, mount_locked, getR. moves_steps; try (apply same_core_withMounts; moves_steps);
    apply same_core_assign_mount; eauto.
Qed.
Lemma same_core_unmount id force conditional : moves same_core (unmount id force conditional).
Proof.
  unfold unmount, unmount_locked, lookup_mounted, getR. moves_steps; apply same_core_withMounts; moves_steps;
    apply same_core_assign_mount; eauto.
Qed.
#[local] Hint Resolve same_core_mount same_core_unmount : moves.
Lemma same_core_unmount_all n id : moves same_core (unmount_all n id).
Proof. induction n as [|n IH]; simpl; moves_steps. Qed.
#[local] Hint Resolve same_core_unmount_all : moves.

(** ** The invariant *)

(** The map from digests [f] to identifiers: what it lists has that digest,
    nothing is listed twice, and complete layers are listed. *)
Record sum_ok (f : Layer → string) (m : sums) g : Prop := {
  sum_sound d id : id ∈ default [] (m !! d) →
    d ≠ "" ∧ ∃ p l, p ∈ objs g ∧ heap g !! p = Some l ∧ ID l = id ∧ f l = d;
  sum_nodup d : NoDup (default [] (m !! d));
  sum_complete p l : p ∈ objs g → heap g !! p = Some l → layerHasIncompleteFlag l = false → f l ≠ "" →
    ID l ∈ default [] (m !! f l)
}.

Definition store_wf r : Prop :=
  reg_wf (reg r) ∧ sum_ok CompressedDigest (bycompressedsum r) (reg r) ∧
  sum_ok UncompressedDigest (byuncompressedsum r) (reg r).

(** Records that keep what the maps of digests see; a layer may only turn
    incomplete. *)
Definition keeps_sums g g' : Prop :=
  objs g' = objs g ∧
  ∀ p l, p ∈ objs g → heap g !! p = Some l → ∃ l', heap g' !! p = Some l' ∧ ID l' = ID l ∧
    CompressedDigest l' = CompressedDigest l ∧ UncompressedDigest l' = UncompressedDigest l ∧
    (layerHasIncompleteFlag l' = false → layerHasIncompleteFlag l = false).

Lemma sum_ok_keeps f m g g' :
  (f = CompressedDigest ∨ f = UncompressedDigest) → reg_wf g → keeps_sums g g' → sum_ok f m g → sum_ok f m g'.
Proof.
  intros Hf Hwf [Ho Hk] [Hs Hn Hc].
  assert (∀ p l, p ∈ objs g → heap g !! p = Some l → ∃ l', heap g' !! p = Some l' ∧ ID l' = ID l ∧ f l' = f l ∧
    (layerHasIncompleteFlag l' = false → layerHasIncompleteFlag l = false)) as Hk'.
  { intros p l Hp Hl. destruct (Hk p l Hp Hl) as (l' & ? & ? & ? & ? & ?). exists l'. by destruct Hf as [-> | ->]. }
  split; [|done|].
  - intros d id Hid. destruct (Hs d id Hid) as (Hd & p & l & Hp & Hl & Hi & Hfd). split; [done|].
    destruct (Hk' p l Hp Hl) as (l' & Hl' & Hi' & Hf' & _). exists p, l'. rewrite Ho. split_and!; congruence.
  - intros p l' Hp Hl' Hflag Hne. rewrite Ho in Hp. destruct (wf_heap _ Hwf p Hp) as [l Hl].
    destruct (Hk' p l Hp Hl) as (l'' & Hl'' & Hi & Hfe & Himp). assert (l'' = l') as -> by congruence.
    rewrite Hi, Hfe. apply (Hc p l Hp Hl); [by apply Himp|congruence].
Qed.

Lemma store_wf_keeps r r' :
  store_wf r → reg_wf (reg r') → keeps_sums (reg r) (reg r') →
  bycompressedsum r' = bycompressedsum r → byuncompressedsum r' = byuncompressedsum r → store_wf r'.
Proof.
  intros (Hwf & Hc & Hu) Hwf' Hk Ec Eu. split; [done|]. rewrite Ec, Eu.
  split; (eapply sum_ok_keeps; [|exact Hwf|exact Hk|done]); auto.
Qed.

(** The invariant only depends on the core. *)
Lemma flat_heap g g' p l : flat g = flat g' → heap g !! p = Some l → ∃ l', heap g' !! p = Some l' ∧ bare l' = bare l.
Proof.
  intros E Hl. pose proof (f_equal (λ g, heap g !! p) E) as E'. simpl in E'.
  rewrite !lookup_fmap, Hl in E'. destruct (heap g' !! p) as [l'|]; [|discriminate E']. exists l'. split; [done|].
  symmetry. by apply (inj Some).
Qed.

Lemma flat_heap_iff g g' p (P : Layer → Prop) :
  flat g = flat g' → (∀ l l', bare l = bare l' → P l → P l') →
  (∃ l, heap g !! p = Some l ∧ P l) ↔ (∃ l, heap g' !! p = Some l ∧ P l).
Proof.
  intros E HP. split; intros (l & Hl & Hp).
  - destruct (flat_heap g g' p l E Hl) as (l' & ? & ?). eauto.
  - destruct (flat_heap g' g p l (eq_sym E) Hl) as (l' & ? & ?). eauto.
Qed.

(** What identifies a layer and is never changed by filling it. *)
Definition ident (l : Layer) : string * list string * string * string * Z :=
  (ID l, Names l, Parent l, l_MountLabel l, location l).

Lemma ident_bare l l' : bare l = bare l' → ident l = ident l'.
Proof. destruct l, l'. unfold bare, set_mount, ident. simpl. intros [=]. by subst. Qed.

Lemma bare_fields l l' : bare l = bare l' →
  ID l = ID l' ∧ Names l = Names l' ∧ CompressedDigest l = CompressedDigest l' ∧
  UncompressedDigest l = UncompressedDigest l' ∧ layerHasIncompleteFlag l = layerHasIncompleteFlag l' ∧
  location l = location l' ∧ TOCDigest l = TOCDigest l'.
Proof. destruct l, l'. unfold bare, set_mount, layerHasIncompleteFlag. simpl. intros [=]. by subst. Qed.

Lemma rid_flat g g' p : flat g = flat g' → rid <$> heap g !! p = rid <$> heap g' !! p.
Proof.
  intros E. destruct (heap g !! p) as [l|] eqn:El.
  - destruct (flat_heap g g' p l E El) as (l' & -> & Hb). simpl. f_equal. by apply bare_fields.
  - destruct (heap g' !! p) as [l'|] eqn:El'; [|done].
    destruct (flat_heap g' g p l' (eq_sym E) El') as (l & ? & _). congruence.
Qed.

Lemma flat_fields g g' : flat g = flat g' →
  objs g = objs g' ∧ idindex g = idindex g' ∧ byid g = byid g' ∧ byname g = byname g' ∧ nextp g = nextp g'.
Proof. intros E. pose proof (f_equal objs E). pose proof (f_equal idindex E). pose proof (f_equal byid E).
  pose proof (f_equal byname E). pose proof (f_equal nextp E). done. Qed.

Lemma reg_wf_flat g g' : flat g = flat g' → reg_wf g → reg_wf g'.
Proof.
  intros E Hwf. destruct (flat_fields g g' E) as (Eo & Ei & Eb & En & Ex).
  assert (∀ p, is_Some (heap g' !! p) → is_Some (heap g !! p)) as Hs.
  { intros p [l Hl]. destruct (flat_heap g' g p l (eq_sym E) Hl) as (l' & -> & _). eauto. }
  split.
  - rewrite <- Eo. apply Hwf.
  - intros p Hp. rewrite <- Eo in Hp. destruct (wf_heap _ Hwf p Hp) as [l Hl].
    destruct (flat_heap g g' p l E Hl) as (l' & -> & _). eauto.
  - intros p Hp. rewrite <- Ex. apply (wf_next _ Hwf). auto.
  - intros i p. rewrite <- Eb, <- Eo, <- (rid_flat g g' p E). apply (wf_byid _ Hwf).
  - intros n q. rewrite <- En, <- Eo, (wf_byname _ Hwf n q).
    pose proof (flat_heap_iff g g' q (λ l, n ∈ rnames l) E) as Hiff.
    rewrite Hiff; [done|]. intros l l' (_ & Enm & _)%bare_fields. simpl. by rewrite Enm.
  - rewrite <- Ei. apply Hwf.
  - intros i. rewrite <- Ei, <- Eb. apply Hwf.
Qed.

Lemma keeps_sums_flat g g' : flat g' = flat g → keeps_sums g g'.
Proof.
  intros E. split; [by destruct (flat_fields g' g E)|]. intros p l _ Hl.
  destruct (flat_heap g g' p l (eq_sym E) Hl) as (l' & Hl' & Hb). exists l'.
  destruct (bare_fields _ _ Hb) as (-> & _ & -> & -> & -> & _). done.
Qed.

Lemma store_wf_core r r' : core_of r' = core_of r → store_wf r → store_wf r'.
Proof.
  intros E Hwf. pose proof (f_equal k_reg E) as Ef. simpl in Ef.
  eapply store_wf_keeps; [exact Hwf| |by apply keeps_sums_flat|exact (f_equal k_csums E)|exact (f_equal k_usums E)].
  apply (reg_wf_flat (reg r)); [done|apply Hwf].
Qed.

Definition wf_inv s s' : Prop := store_wf (snd s) → store_wf (snd s').
#[global] Instance wf_inv_preorder : PreOrder wf_inv.
Proof. split; unfold wf_inv; [by intros s|]. auto. Qed.
Notation kept := (moves wf_inv).

Lemma core_kept {A} (m : M St A) : moves same_core m → kept m.
Proof. intros Hm s Hwf. by apply (store_wf_core (snd s)); [apply Hm|]. Qed.

(** ** Steps of the methods *)

Lemma wp_core {A} (m : M St A) (Φ : outcome A → St → Prop) s :
  moves same_core m → (∀ o s', core_of (snd s') = core_of (snd s) → Φ o s') → wp m Φ s.
Proof. intros Hm HΦ. apply HΦ, Hm. Qed.

Lemma layer_wp_deref p l Φ s : heap (reg (snd s)) !! p = Some l → Φ (Ret l) s → wp (deref p) Φ s.
Proof. intros Hl HΦ. unfold deref, getR. wp_step. wp_step. rewrite Hl. by apply wp_ret. Qed.

Lemma layer_wp_lookup id Φ s :
  (∀ p, find (snd s) id = Some p → Φ (Ret p) s) → (find (snd s) id = None → Φ (Err ErrLayerUnknown) s) →
  wp (lookup id) Φ s.
Proof.
  intros Hs Hn. unfold lookup, getR. wp_step. wp_step. destruct (find (snd s) id) as [p|]; wp_step; auto.
Qed.

Lemma layer_find_some r id p : reg_wf (reg r) → find r id = Some p → p ∈ objs (reg r) ∧ ∃ l, heap (reg r) !! p = Some l.
Proof. intros Hwf. by apply reg_lookup_objs. Qed.

Lemma find_core r r' id : core_of r' = core_of r → find r' id = find r id.
Proof.
  intros E. destruct (flat_fields _ _ (f_equal k_reg E)) as (_ & Ei & Eb & En & _). unfold find, reg_lookup.
  by rewrite Ei, Eb, En.
Qed.

Lemma heap_core r r' p l : core_of r' = core_of r → heap (reg r) !! p = Some l →
  ∃ l', heap (reg r') !! p = Some l' ∧ bare l' = bare l.
Proof. intros E. apply flat_heap. symmetry. exact (f_equal k_reg E). Qed.

Lemma objs_core r r' : core_of r' = core_of r → objs (reg r') = objs (reg r).
Proof. intros E. by destruct (flat_fields _ _ (f_equal k_reg E)). Qed.

(** Changes of a record that neither the index nor the digests see. *)
Definition invisible (f : Layer → Layer) : Prop := ∀ l,
  ident (f l) = ident l ∧ CompressedDigest (f l) = CompressedDigest l ∧
  UncompressedDigest (f l) = UncompressedDigest l ∧
  (layerHasIncompleteFlag (f l) = false → layerHasIncompleteFlag l = false).

Lemma ident_ID l l' : ident l = ident l' → ID l = ID l' ∧ Names l = Names l'.
Proof. unfold ident. intros [=]. done. Qed.

Lemma keeps_sums_update f p g : invisible f → keeps_sums g (reg_update f p g).
Proof.
  intros Hf. split; [done|]. intros q l _ Hl. simpl. destruct (decide (q = p)) as [->|Hne].
  - exists (f l). rewrite lookup_alter_eq, Hl. destruct (Hf l) as (Hi & ? & ? & ?). split; [done|].
    split; [|done]. by apply ident_ID.
  - exists l. by rewrite lookup_alter_ne.
Qed.

Lemma kept_assign p f : invisible f → kept (assign p f).
Proof.
  intros Hf [w r] Hwf. eapply (store_wf_keeps r); [exact Hwf| |by apply keeps_sums_update|done|done].
  apply reg_update_wf; [intros l; apply ident_ID, Hf|intros l; apply ident_ID, Hf|apply Hwf].
Qed.

Lemma invisible_incomplete : invisible (set_flag incompleteFlag (ABool true)).
Proof.
  intros l. split_and!; try done. unfold layerHasIncompleteFlag, set_flag. simpl. by rewrite lookup_insert_eq.
Qed.

Lemma invisible_set_flag flag v : flag ≠ incompleteFlag → invisible (set_flag flag v).
Proof.
  intros Hne l. split_and!; try done. unfold layerHasIncompleteFlag, set_flag. simpl.
  rewrite lookup_insert_ne by done. by destruct (Flags l).
Qed.
Lemma invisible_clear_flag flag : flag ≠ incompleteFlag → invisible (λ l, set_Flags (gomap_delete (Flags l) flag) l).
Proof.
  intros Hne l. split_and!; try done. unfold layerHasIncompleteFlag. simpl. destruct (Flags l) as [m|]; [|done].
  simpl. by rewrite lookup_delete_ne.
Qed.
Lemma invisible_ensure : invisible (λ l, set_Flags (gomap_ensure (Flags l)) l).
Proof. intros l. split_and!; try done. unfold layerHasIncompleteFlag. simpl. by rewrite gomap_get_ensure. Qed.

Lemma kept_new l : kept (new l).
Proof.
  intros [w r] Hwf. eapply (store_wf_keeps r); [exact Hwf|apply reg_alloc_wf, Hwf| |done|done].
  split; [done|]. intros p l' Hp Hl. exists l'. simpl. rewrite lookup_insert_ne; [done|]. intros <-.
  by destruct (reg_alloc_fresh _ (proj1 Hwf)).
Qed.

Lemma kept_rename p l names r :
  store_wf r → p ∈ objs (reg r) → heap (reg r) !! p = Some l →
  store_wf (set_reg (reg_rename (λ _ l, l) p (Names l) names (reg r)) r).
Proof.
  intros Hwf Hp Hl. destruct (reg_rename_heap (λ _ l, l) p l names (reg r) (proj1 Hwf) Hp Hl) as (Ho & _ & _ & _ & _ & Hself & Hoth);
    [done|].
  eapply (store_wf_keeps r); [exact Hwf| | |done|done].
  - change (reg_wf (reg_rename (λ _ l, l) p (rnames l) names (reg r))).
    apply (reg_rename_wf (λ _ l, l) p l names (reg r)); [apply Hwf|done..].
  - split; [exact Ho|]. intros q l' Hq Hl'. simpl. destruct (decide (q = p)) as [->|Hne].
    + exists (with_names names l). assert (l' = l) as -> by congruence. split; [|done].
      etrans; [exact Hself|]. f_equal. apply StoreDisk.foldl_same.
    + exists (strip names l'). split; [|done]. etrans; [by apply Hoth|]. by rewrite Hl'.
Qed.

(** *** The maps of digests *)

Notation listed m d := (default [] ((m : sums) !! d)).

(** An identifier is listed under the digest of its layer only. *)
Lemma listed_once f m g p l d :
  reg_wf g → sum_ok f m g → p ∈ objs g → heap g !! p = Some l → ID l ∈ listed m d → d = f l ∧ d ≠ "".
Proof.
  intros Hwf Hs Hp Hl Hin. destruct (sum_sound _ _ _ Hs d _ Hin) as (Hd & q & l' & Hq & Hl' & Hi & Hf). split; [|done].
  assert (q = p) as -> by (by eapply (wf_same_id g)). congruence.
Qed.

Lemma filter_absent (x : string) (l : list string) : x ∉ l → filter (λ v, v ≠ x) l = l.
Proof. apply without_id. Qed.

Lemma listed_add d id m d' :
  listed (add_sum d id m) d' = (listed m d' ++ (if decide (d' = d ∧ d ≠ "") then [id] else []))%list.
Proof.
  unfold add_sum. destruct (decide (d = "")) as [->|Hd].
  { rewrite decide_False by (intros [? ?]; congruence). by rewrite app_nil_r. }
  destruct (decide (d' = d)) as [->|Hne].
  - rewrite lookup_insert_eq, decide_True by done. done.
  - rewrite lookup_insert_ne, decide_False by naive_solver. by rewrite app_nil_r.
Qed.

Lemma listed_update m old new id d :
  (∀ d, id ∈ listed m d → d = old ∧ d ≠ "") →
  listed (updateDigestMap m old new id) d =
    (filter (λ v, v ≠ id) (listed m d) ++ (if decide (d = new ∧ new ≠ "") then [id] else []))%list.
Proof.
  intros Hold. unfold updateDigestMap. rewrite listed_add. f_equal.
  assert (∀ d, d ≠ old → filter (λ v, v ≠ id) (listed m d) = listed m d) as Hoth.
  { intros d' Hne. apply filter_absent. intros [? _]%Hold. done. }
  destruct (decide (old = "")) as [->|Hne].
  { symmetry. apply filter_absent. intros [? ?]%Hold. done. }
  destruct (decide (d = old)) as [->|Hd].
  - destruct (filter _ (listed m old)) eqn:E; [by rewrite lookup_delete_eq|by rewrite lookup_insert_eq].
  - rewrite (Hoth d) by done. destruct (filter _ (listed m old)); [by rewrite lookup_delete_ne|by rewrite lookup_insert_ne].
Qed.

Lemma remove_first_filter id (l : list string) : NoDup l → remove_first id l = filter (λ v, v ≠ id) l.
Proof.
  induction l as [|x l IH]; [done|]. intros [Hx Hnd]%NoDup_cons. simpl. rewrite filter_cons.
  destruct (decide (x = id)) as [->|Hne].
  - rewrite decide_False by (by intros ?). symmetry. by apply filter_absent.
  - rewrite decide_True by done. by rewrite IH.
Qed.

Lemma listed_remove id m d :
  NoDup (listed m d) → listed (remove_first id <$> m) d = filter (λ v, v ≠ id) (listed m d).
Proof.
  rewrite lookup_fmap. destruct (m !! d) as [l|]; simpl; [|done]. apply remove_first_filter.
Qed.

(** The record at [p] changes, and with it the entry of its identifier. *)
Lemma sum_ok_relist f m m' g g' p l l' :
  reg_wf g → sum_ok f m g → p ∈ objs g → heap g !! p = Some l →
  objs g' = objs g → heap g' !! p = Some l' → (∀ q, q ≠ p → heap g' !! q = heap g !! q) → ID l' = ID l →
  (∀ d, listed m' d = (filter (λ v, v ≠ ID l) (listed m d) ++ (if decide (d = f l' ∧ f l' ≠ "") then [ID l] else []))%list) →
  sum_ok f m' g'.
Proof.
  intros Hwf Hs Hp Hl Ho Hl' Hoth Hid Hm. split.
  - intros d id. rewrite Hm. intros [[Hne Hin]%list_elem_of_filter|Hin]%elem_of_app.
    + destruct (sum_sound _ _ _ Hs d id Hin) as (Hd & q & y & Hq & Hy & Hi & Hf). split; [done|]. exists q, y.
      assert (q ≠ p) by (intros ->; congruence). by rewrite Ho, Hoth.
    + destruct (decide _) as [Hd|]; [|by apply elem_of_nil in Hin]. apply list_elem_of_singleton in Hin as ->. destruct Hd as [-> Hd].
      split; [done|]. exists p, l'. by rewrite Ho.
  - intros d. rewrite Hm. apply NoDup_app. split_and!.
    + apply NoDup_filter. apply (sum_nodup _ _ _ Hs).
    + intros x [Hx _]%list_elem_of_filter. destruct (decide _); [by intros ->%list_elem_of_singleton|by intros ?%elem_of_nil].
    + destruct (decide _); [apply NoDup_singleton|constructor].
  - intros q y Hq Hy Hflag Hne. rewrite Hm. rewrite Ho in Hq. destruct (decide (q = p)) as [->|Hqp].
    + assert (y = l') as -> by congruence. rewrite decide_True, Hid by done. apply elem_of_app. right.
      by apply list_elem_of_singleton.
    + rewrite Hoth in Hy by done. apply elem_of_app. left. apply list_elem_of_filter. split.
      * intros Hi. apply Hqp. by eapply (wf_same_id g).
      * by apply (sum_complete _ _ _ Hs q).
Qed.

Lemma sum_ok_update f m g p l h :
  reg_wf g → sum_ok f m g → p ∈ objs g → heap g !! p = Some l → ID (h l) = ID l →
  sum_ok f (updateDigestMap m (f l) (f (h l)) (ID l)) (reg_update h p g).
Proof.
  intros Hwf Hs Hp Hl Hid. eapply (sum_ok_relist f m _ g _ p l (h l)); [done..| | |done|].
  - simpl. by rewrite lookup_alter_eq, Hl.
  - intros q Hne. simpl. by rewrite lookup_alter_ne.
  - intros d. apply listed_update. intros d' Hin. by eapply listed_once.
Qed.

(** The record at [p] leaves the registry. *)
Lemma sum_ok_del f m m' g p l :
  reg_wf g → sum_ok f m g → p ∈ objs g → heap g !! p = Some l →
  (∀ d, listed m' d = filter (λ v, v ≠ ID l) (listed m d)) →
  sum_ok f m' (reg_del (ID l) (Names l) g).
Proof.
  intros Hwf Hs Hp Hl Hm. assert (∀ q, q ∈ objs (reg_del (ID l) (Names l) g) ↔ q ∈ objs g ∧ q ≠ p) as Ho.
  { intros q. exact (reg_del_objs p l g q Hwf Hp Hl). }
  split.
  - intros d id. rewrite Hm. intros [Hne Hin]%list_elem_of_filter.
    destruct (sum_sound _ _ _ Hs d id Hin) as (Hd & q & y & Hq & Hy & Hi & Hf). split; [done|]. exists q, y.
    split; [|done]. apply Ho. split; [done|]. intros ->. congruence.
  - intros d. rewrite Hm. apply NoDup_filter, Hs.
  - intros q y [Hq Hqp]%Ho Hy Hflag Hne. rewrite Hm. apply list_elem_of_filter. split.
    + intros Hi. apply Hqp. by eapply (wf_same_id g).
    + by apply (sum_complete _ _ _ Hs q).
Qed.

(** An incomplete record enters it. *)
Lemma sum_ok_add f m g p l :
  sum_ok f m g → heap g !! p = Some l → layerHasIncompleteFlag l = true → sum_ok f m (reg_add p (ID l) (Names l) g).
Proof.
  intros [Hs Hn Hc] Hl Hflag. split; [|done|].
  - intros d id Hid. destruct (Hs d id Hid) as (Hd & q & y & Hq & ?). split; [done|]. exists q, y.
    split; [|done]. apply elem_of_app. by left.
  - intros q y [Hq|Hq]%elem_of_app Hy Hf Hne; [by apply (Hc q)|].
    apply list_elem_of_singleton in Hq as ->. simpl in Hy. congruence.
Qed.

(** ** Deleting *)

(** The layers by identifier, without their mounts: what the store means. *)
Definition abs r : gmap string Layer := reg_abs (flat (reg r)).

Lemma abs_core r r' : core_of r' = core_of r → abs r' = abs r.
Proof. intros E. unfold abs. by rewrite (f_equal k_reg E : flat (reg r') = flat (reg r)). Qed.

Lemma reg_abs_flat g : reg_abs (flat g) = bare <$> reg_abs g.
Proof.
  apply map_eq. intros i. unfold reg_abs. simpl. rewrite lookup_omap, lookup_fmap, lookup_omap.
  destruct (byid g !! i) as [p|]; [|done]. simpl. by rewrite lookup_fmap.
Qed.

Lemma abs_lookup r p l : reg_wf (reg r) → p ∈ objs (reg r) → heap (reg r) !! p = Some l → abs r !! ID l = Some (bare l).
Proof.
  intros Hwf Hp Hl. unfold abs. rewrite reg_abs_flat, lookup_fmap.
  assert (reg_abs (reg r) !! ID l = Some l) as ->; [|done]. apply reg_abs_lookup; eauto.
Qed.

Lemma layer_abs_update r p l f :
  reg_wf (reg r) → p ∈ objs (reg r) → heap (reg r) !! p = Some l → (∀ l, ID (f l) = ID l) →
  (∀ l, bare (f l) = f (bare l)) →
  abs (set_reg (reg_update f p (reg r)) r) = <[ID l := f (bare l)]> (abs r).
Proof.
  intros Hwf Hp Hl Hid Hf. unfold abs. simpl. rewrite !reg_abs_flat, (reg_update_abs f p l) by done.
  by rewrite fmap_insert, Hf.
Qed.

(** What a deletion does to the layers: the layer is gone, or it is still there
    and perhaps marked as incomplete. *)
Definition fate (gone : bool) (id : string) (a a' : gmap string Layer) : Prop :=
  if gone then a' = delete id a
  else a' = a ∨ ∃ l, a !! id = Some l ∧ a' = <[id := set_flag incompleteFlag (ABool true) l]> a.

Lemma store_wf_forget p l r :
  store_wf r → p ∈ objs (reg r) → heap (reg r) !! p = Some l →
  store_wf (deleteInDigestMap (ID l) (set_reg (reg_del (ID l) (Names l) (reg r)) r)).
Proof.
  intros (Hwf & Hc & Hu) Hp Hl. split; [exact (reg_del_wf p l _ Hwf Hp Hl)|].
  split; (eapply sum_ok_del; [done..|]); intros d; apply listed_remove; [apply Hc|apply Hu].
Qed.

Lemma abs_forget l r :
  abs (deleteInDigestMap (ID l) (set_reg (reg_del (ID l) (Names l) (reg r)) r)) = delete (ID l) (abs r).
Proof.
  unfold abs. simpl. rewrite !reg_abs_flat. etrans; [|apply fmap_delete]. f_equal. apply (reg_del_abs (R := Layer)).
Qed.

Lemma forget_wp p l s :
  store_wf (snd s) → p ∈ objs (reg (snd s)) → heap (reg (snd s)) !! p = Some l →
  wp (forget p (ID l)) (λ o s', o = Ret tt ∧ store_wf (snd s') ∧ abs (snd s') = delete (ID l) (abs (snd s))) s.
Proof.
  intros Hwf Hp Hl. unfold forget, modReg. wp_step. eapply layer_wp_deref; [done|].
  assert (∀ (s' : St), core_of (snd s') = core_of (deleteInDigestMap (ID l) (set_reg (reg_del (ID l) (Names l) (reg (snd s))) (snd s))) →
    store_wf (snd s') ∧ abs (snd s') = delete (ID l) (abs (snd s))) as Hend.
  { intros s' E. split.
    - eapply store_wf_core; [exact E|]. by apply (store_wf_forget p).
    - rewrite (abs_core _ _ E). apply abs_forget. }
  unfold modR. wp_step. wp_step. wp_step. destruct (decide (MountPoint l = "")); wp_step; wp_step; wp_step; wp_step;
    (split; [done|]; apply Hend; simpl; by destruct (decide _)).
Qed.

(** How a deletion that returns its clean-up functions ends. *)
Definition del_post (id : string) s (o : outcome (CleanupTempDirFuncs D * option error)) s' : Prop :=
  store_wf (snd s') ∧
  (∃ gone, fate gone id (abs (snd s)) (abs (snd s')) ∧ ∀ fns, o = Ret (fns, None) → gone = true).

Lemma del_post_same id s (o : outcome (CleanupTempDirFuncs D * option error)) s' :
  store_wf (snd s) → core_of (snd s') = core_of (snd s) → (∀ fns, o ≠ Ret (fns, None)) → del_post id s o s'.
Proof.
  intros Hwf E Ho. split; [by eapply store_wf_core|]. exists false. split; [left; by apply abs_core|].
  intros fns Eo. by destruct (Ho fns).
Qed.

Lemma blocks_some err : blocks err = true → err ≠ None.
Proof. by destruct err. Qed.

Lemma discard_wp p l td s :
  store_wf (snd s) → p ∈ objs (reg (snd s)) → heap (reg (snd s)) !! p = Some l →
  wp (discard p (ID l) td) (del_post (ID l) s) s.
Proof.
  intros Hwf Hp Hl. unfold discard, getR.
  assert (∀ fns err s', blocks err = true → core_of (snd s') = core_of (snd s) → del_post (ID l) s (Ret (fns, err)) s') as Hblock.
  { intros fns err s' Hb%blocks_some E. apply del_post_same; [done..|]. by intros fns' [= _ ->]. }
  wp_step. apply wp_core; [apply same_core_onDriver|].
  intros [[cleanFunc err]|e|c] s1 E1; [|by apply del_post_same..]. simpl.
  destruct (blocks err) eqn:Eb; [wp_step; by apply Hblock|]. wp_step. wp_step.
  wp_step. apply wp_core; [apply same_core_inWorld|].
  intros [[td1 err1]|e|c] s2 E2; [|apply del_post_same; [done|congruence|done]..]. simpl.
  destruct (blocks err1) eqn:Eb1; [wp_step; apply Hblock; [done|congruence]|]. wp_step. wp_step.
  wp_step. apply wp_core; [apply same_core_inWorld|].
  intros [[td2 err2]|e|c] s3 E3; [|apply del_post_same; [done|congruence|done]..]. simpl.
  assert (core_of (snd s3) = core_of (snd s)) as E by congruence.
  destruct (blocks err2) eqn:Eb2; [wp_step; by apply Hblock|].
  destruct (heap_core _ _ p l E Hl) as (l' & Hl' & Hb). assert (ID l = ID l') as Hid by (symmetry; apply bare_fields, Hb).
  rewrite Hid. wp_step. eapply wp_mono; [apply forget_wp; [by eapply store_wf_core| |exact Hl']|].
  { by rewrite (objs_core _ _ E). }
  intros o s4 (-> & Hwf4 & Habs). wp_step. split; [done|]. exists true. split; [|done]. simpl.
  by rewrite Habs, (abs_core _ _ E).
Qed.

Lemma fate_trans_marked id a a1 a2 gone :
  fate false id a a1 → fate gone id a1 a2 → fate gone id a a2.
Proof.
  intros [->|(l & Hl & ->)]; [done|]. destruct gone; simpl.
  - intros ->. by rewrite delete_insert_eq.
  - intros [->|(l' & Hl' & ->)]; right; exists l; (split; [done|]); [done|].
    rewrite lookup_insert_eq in Hl'. injection Hl' as <-. rewrite insert_insert_eq. f_equal.
    unfold set_flag. simpl. by rewrite insert_insert_eq.
Qed.

Lemma del_post_trans id s s1 (o : outcome (CleanupTempDirFuncs D * option error)) s' :
  fate false id (abs (snd s)) (abs (snd s1)) → del_post id s1 o s' → del_post id s o s'.
Proof.
  intros Hf (Hwf & gone & Hg & Hr). split; [done|]. exists gone. split; [|done]. by eapply fate_trans_marked.
Qed.

Lemma internalDelete_wp id s :
  store_wf (snd s) →
  wp (internalDelete id) (λ o s',
    match find (snd s) id with
    | None => s' = s ∧ ∃ e, o = Ret ([], Some e)
    | Some p => ∃ l, heap (reg (snd s)) !! p = Some l ∧ del_post (ID l) s o s'
    end) s.
Proof.
  intros Hwf. unfold internalDelete, getR. wp_step. wp_step. destruct (multi_IsReadWrite (snd s)); simpl; [|wp_step].
  2: { destruct (find (snd s) id) as [p|] eqn:Ef; [|eauto]. destruct (layer_find_some _ _ _ (proj1 Hwf) Ef) as [Hp [l Hl]].
       exists l. split; [done|]. by apply del_post_same. }
  wp_step. wp_step. destruct (find (snd s) id) as [p|] eqn:Ef; [|wp_step; eauto].
  destruct (layer_find_some _ _ _ (proj1 Hwf) Ef) as [Hp [l Hl]]. wp_step. eapply layer_wp_deref; [done|].
  eapply (wp_mono _ (del_post (ID l) s)); [|by eauto].
  set (marked := λ s1 : St, store_wf (snd s1) ∧ fate false (ID l) (abs (snd s)) (abs (snd s1)) ∧
    p ∈ objs (reg (snd s1)) ∧ ∃ l', heap (reg (snd s1)) !! p = Some l' ∧ ID l' = ID l).
  assert (∀ s1, marked s1 → ∀ (o : outcome (CleanupTempDirFuncs D * option error)) s', core_of (snd s') = core_of (snd s1) →
    (∀ fns, o ≠ Ret (fns, None)) → del_post (ID l) s o s') as Hfail.
  { intros s1 (? & ? & _) o s' E Ho. eapply del_post_trans; [done|]. by apply del_post_same. }
  assert (∀ s1, marked s1 → ∀ s2, core_of (snd s2) = core_of (snd s1) → marked s2) as Hmark.
  { intros s1 (Hw & Hf & Ho & l' & Hl' & Hi) s2 E. split_and!; [by eapply store_wf_core|by rewrite (abs_core _ _ E)|by rewrite (objs_core _ _ E)|].
    destruct (heap_core _ _ p l' E Hl') as (l'' & ? & Hb). exists l''. split; [done|]. rewrite <- Hi. by apply bare_fields. }
  wp_step. eapply (wp_mono _ (λ o s1, match o with Err _ => False | _ => marked s1 end)).
  { assert (marked s) as Hm0 by (split_and!; [done|by left|done|eauto]).
    destruct (layerHasIncompleteFlag l); [by wp_step|]. unfold assign, modReg, modR. wp_step. wp_step.
    eapply (wp_mono _ (λ o s1, match o with Err _ => False | _ => marked s1 end)); [|done].
    wp_step. apply wp_core; [apply same_core_saveFor|].
    assert (marked (fst s, set_reg (reg_update (set_flag incompleteFlag (ABool true)) p (reg (snd s))) (snd s))) as Hm1.
    { split_and!.
      - exact (kept_assign p _ invisible_incomplete s Hwf).
      - right. exists (bare l). split; [by apply (abs_lookup _ p); [apply Hwf|..]|]. apply (layer_abs_update _ p l); [apply Hwf|done..].
      - done.
      - eexists. simpl. by rewrite lookup_alter_eq, Hl. }
    intros [[]|e|c] s1 E1; by eapply Hmark. }
  intros [saved|e|c] s1 Hm; [|done|by apply (Hfail s1)]. destruct saved as [[]|err]; [|wp_step; by apply (Hfail s1)].
  wp_step. wp_step. wp_step. wp_step. apply wp_core; [apply same_core_inWorld|].
  intros [td|e|c] s2 E2; [|wp_step; by apply (Hfail s1)|by apply (Hfail s1)].
  destruct (Hmark s1 Hm s2 E2) as (Hw2 & Hf2 & Ho2 & l2 & Hl2 & Hi2). rewrite <- Hi2.
  eapply wp_mono; [by apply discard_wp|]. intros o s3 Hd. eapply del_post_trans; [|done]. by rewrite Hi2.
Qed.

Lemma layer_find_id r p l : reg_wf (reg r) → p ∈ objs (reg r) → heap (reg r) !! p = Some l → find r (ID l) = Some p.
Proof.
  intros Hwf Hp Hl. unfold find, reg_lookup. assert (byid (reg r) !! ID l = Some p) as ->; [|done].
  apply (wf_byid _ Hwf). by rewrite Hl.
Qed.

Lemma deferredDelete_wp id s :
  store_wf (snd s) →
  wp (deferredDelete fuel id) (λ o s',
    match find (snd s) id with
    | None => s' = s ∧ o = Ret ([], Some ErrLayerUnknown)
    | Some p => ∃ l, heap (reg (snd s)) !! p = Some l ∧ del_post (ID l) s o s'
    end) s.
Proof.
  intros Hwf. unfold deferredDelete, getR. wp_step. wp_step. destruct (find (snd s) id) as [p|] eqn:Ef; [|by wp_step].
  destruct (layer_find_some _ _ _ (proj1 Hwf) Ef) as [Hp [l Hl]]. wp_step. eapply layer_wp_deref; [done|].
  eapply (wp_mono _ (del_post (ID l) s)); [|by eauto].
  wp_step. apply wp_core; [apply same_core_unmount_all|]. intros [err|e|c] s1 E1; [|by apply del_post_same..].
  destruct err as [err|]; [wp_step; by apply del_post_same|].
  assert (store_wf (snd s1)) as Hwf1 by (by eapply store_wf_core).
  destruct (heap_core _ _ p l E1 Hl) as (l1 & Hl1 & Hb1). assert (ID l = ID l1) as Hid by (symmetry; apply bare_fields, Hb1).
  rewrite Hid. wp_step. eapply wp_mono; [by apply internalDelete_wp|].
  rewrite (layer_find_id (snd s1) p l1); [|apply Hwf1|by rewrite (objs_core _ _ E1)|done].
  intros o s2 (l1' & E & Hd). assert (l1' = l1) as -> by congruence. clear E.
  assert (del_post (ID l1) s o s2) as Hd' by (eapply del_post_trans; [left; by apply abs_core|done]).
  destruct o as [[fns [err|]]|e|c]; [by wp_step| |done..].
  wp_step. wp_step. apply wp_core; [apply same_core_saveFor|]. destruct Hd' as (Hwf2 & gone & Hf & Hg).
  pose proof (Hg fns eq_refl) as ->.
  assert (∀ (o : outcome (CleanupTempDirFuncs D * option error)) s3, core_of (snd s3) = core_of (snd s2) → del_post (ID l1) s o s3) as Hend.
  { intros o s3 E3. split; [by eapply store_wf_core|]. exists true. split; [|done]. by rewrite (abs_core _ _ E3). }
  intros [[]|e|c] s3 E3; [wp_step; by apply Hend|wp_step; by apply Hend|by apply Hend].
Qed.

Lemma deleteWhileHoldingLock_wp id s :
  store_wf (snd s) →
  wp (deleteWhileHoldingLock fuel id) (λ o s', store_wf (snd s') ∧
    match find (snd s) id with
    | None => core_of (snd s') = core_of (snd s) ∧ o ≠ Ret tt
    | Some p => ∃ l, heap (reg (snd s)) !! p = Some l ∧
        ∃ gone, fate gone (ID l) (abs (snd s)) (abs (snd s')) ∧ (o = Ret tt → gone = true)
    end) s.
Proof.
  intros Hwf. unfold deleteWhileHoldingLock. wp_step. eapply wp_mono; [by apply deferredDelete_wp|].
  intros o s1. destruct (find (snd s) id) as [p|].
  - intros (l & Hl & Hwf1 & gone & Hf & Hg).
    assert (∀ (o' : outcome unit) s2, core_of (snd s2) = core_of (snd s1) → (o' = Ret tt → gone = true) →
      store_wf (snd s2) ∧ ∃ l, heap (reg (snd s)) !! p = Some l ∧
        ∃ gone, fate gone (ID l) (abs (snd s)) (abs (snd s2)) ∧ (o' = Ret tt → gone = true)) as Hend.
    { intros o' s2 E Ho. split; [by eapply store_wf_core|]. exists l. split; [done|]. exists gone.
      split; [|done]. by rewrite (abs_core _ _ E). }
    destruct o as [[fns deferErr]|e|c]; [|by apply Hend..].
    wp_step. wp_step. apply wp_core; [apply same_core_onDriver|].
    intros [[]|e|c] s2 E2; [| |by apply Hend]; (destruct deferErr; wp_step; apply Hend; try done).
    intros _. by eapply Hg.
  - intros [-> ->]. wp_step. wp_step. apply wp_core; [apply same_core_onDriver|].
    intros [[]|e|c] s2 E2; [wp_step|wp_step|]; (split; [by eapply store_wf_core|done]).
Qed.

Lemma kept_delete id : kept (deleteWhileHoldingLock fuel id).
Proof. intros s Hwf. by apply (deleteWhileHoldingLock_wp id s Hwf). Qed.

Lemma kept_deferredDelete id : kept (deferredDelete fuel id).
Proof.
  intros s Hwf. pose proof (deferredDelete_wp id s Hwf) as Hd. unfold wp in Hd.
  destruct (find (snd s) id); [by destruct Hd as (l & _ & ? & _)|]. by destruct Hd as [-> _].
Qed.

(** ** Filling a layer *)

(** Every other layer stays as it is. *)
Definition others (id : string) s s' : Prop := ∀ i, i ≠ id → abs (snd s') !! i = abs (snd s) !! i.

#[global] Instance others_preorder id : PreOrder (others id).
Proof. split; [by intros s i|]. intros s1 s2 s3 E1 E2 i Hi. rewrite E2, E1; done. Qed.

Lemma others_core id s s' : core_of (snd s') = core_of (snd s) → others id s s'.
Proof. intros E i _. by rewrite (abs_core _ _ E). Qed.

Lemma others_update p l f r w :
  store_wf r → p ∈ objs (reg r) → heap (reg r) !! p = Some l → (∀ l, ID (f l) = ID l) →
  others (ID l) (w, r) (w, set_reg (reg_update f p (reg r)) r).
Proof.
  intros Hwf Hp Hl Hf i Hi. unfold abs. simpl. rewrite !reg_abs_flat, !lookup_fmap, (reg_update_abs f p l); [|done|apply Hwf|done..].
  by rewrite lookup_insert_ne.
Qed.

(** The layer at [p] is in the store, with this identity. *)
Definition has (p : positive) (x : string * list string * string * string * Z) r : Prop :=
  p ∈ objs (reg r) ∧ ∃ l, heap (reg r) !! p = Some l ∧ ident l = x.

(** No map lists the layer yet. *)
Definition unlisted (id : string) r : Prop :=
  ∀ d, id ∉ listed (bycompressedsum r) d ∧ id ∉ listed (byuncompressedsum r) d.

(** The maps list the layer under the digests it has. *)
Definition filled (p : positive) r : Prop :=
  ∀ l, heap (reg r) !! p = Some l →
    (CompressedDigest l ≠ "" → ID l ∈ listed (bycompressedsum r) (CompressedDigest l)) ∧
    (UncompressedDigest l ≠ "" → ID l ∈ listed (byuncompressedsum r) (UncompressedDigest l)).

Lemma has_core p x r r' : core_of r' = core_of r → has p x r → has p x r'.
Proof.
  intros E (Hp & l & Hl & Hi). split; [by rewrite (objs_core _ _ E)|].
  destruct (heap_core _ _ p l E Hl) as (l' & ? & Hb). exists l'. split; [done|]. rewrite <- Hi. by apply ident_bare.
Qed.

Lemma unlisted_core id r r' : core_of r' = core_of r → unlisted id r → unlisted id r'.
Proof.
  intros E Hu d. assert (bycompressedsum r' = bycompressedsum r) as -> by exact (f_equal k_csums E).
  assert (byuncompressedsum r' = byuncompressedsum r) as -> by exact (f_equal k_usums E). apply Hu.
Qed.

Lemma filled_core p r r' : core_of r' = core_of r → filled p r → filled p r'.
Proof.
  intros E Hf l Hl. destruct (heap_core r' r p l (eq_sym E) Hl) as (l' & Hl' & Hb).
  destruct (bare_fields _ _ Hb) as (Hi & _ & Hc & Hu & _). rewrite <- Hi, <- Hc, <- Hu.
  assert (bycompressedsum r' = bycompressedsum r) as -> by exact (f_equal k_csums E).
  assert (byuncompressedsum r' = byuncompressedsum r) as -> by exact (f_equal k_usums E). by apply Hf.
Qed.

(** The record and its entries change together. *)
Definition relist (p : positive) (l : Layer) (h : Layer → Layer) (t : sums) r : store :=
  set_reg (reg_update h p (reg r))
    (set_sums (updateDigestMap (bycompressedsum r) (CompressedDigest l) (CompressedDigest (h l)) (ID l))
       (updateDigestMap (byuncompressedsum r) (UncompressedDigest l) (UncompressedDigest (h l)) (ID l)) t r).

Lemma relist_wf p l h t r :
  store_wf r → p ∈ objs (reg r) → heap (reg r) !! p = Some l →
  (∀ l, ident (h l) = ident l) →
  store_wf (relist p l h t r) ∧ has p (ident l) (relist p l h t r) ∧ filled p (relist p l h t r).
Proof.
  intros (Hwf & Hc & Hu) Hp Hl Hident. split_and!.
  - assert (∀ l, ID (h l) = ID l) as Hid by (intros x; apply ident_ID, Hident).
    split; [apply reg_update_wf; [done| |done]; intros x; apply ident_ID, Hident|].
    split; [exact (sum_ok_update CompressedDigest _ _ p l h Hwf Hc Hp Hl (Hid l))|].
    exact (sum_ok_update UncompressedDigest _ _ p l h Hwf Hu Hp Hl (Hid l)).
  - split; [done|]. exists (h l). simpl. by rewrite lookup_alter_eq, Hl.
  - intros l' Hl'. simpl in Hl'. rewrite lookup_alter_eq, Hl in Hl'. simpl in Hl'. injection Hl' as <-. simpl.
    destruct (ident_ID _ _ (Hident l)) as [-> _].
    split; intros Hd; (rewrite listed_update; [|intros d Hin; by eapply listed_once]);
      apply elem_of_app; right; rewrite decide_True by done; by apply list_elem_of_singleton.
Qed.

Lemma others_relist p l h t r w :
  store_wf r → p ∈ objs (reg r) → heap (reg r) !! p = Some l → (∀ l, ident (h l) = ident l) →
  others (ID l) (w, r) (w, relist p l h t r).
Proof.
  intros Hwf Hp Hl Hh i Hi. rewrite <- (others_update p l h r w Hwf Hp Hl (λ x, proj1 (ident_ID _ _ (Hh x))) i Hi). done.
Qed.

Lemma applyDiffResult_wp p l res s :
  store_wf (snd s) → p ∈ objs (reg (snd s)) → heap (reg (snd s)) !! p = Some l →
  wp (applyDiffResultToLayer p res) (λ o s', o = Ret tt ∧ store_wf (snd s') ∧ has p (ident l) (snd s') ∧ filled p (snd s') ∧ others (ID l) s s') s.
Proof.
  intros Hwf Hp Hl. unfold applyDiffResultToLayer, modR, assign, modReg. wp_step. eapply layer_wp_deref; [done|].
  wp_step. wp_step. unfold modR. wp_step. split; [done|].
  set (h := λ l, set_owners (r_uids res) (r_gids res)
    (set_uncompressed (r_uncompressedDigest res) (r_uncompressedSize res)
       (set_compressed (r_compressedDigest res) (r_compressedSize res) (r_compressionType res) l))).
  destruct (relist_wf p l h (bytocsum (snd s)) (snd s) Hwf Hp Hl (λ _, eq_refl)) as (? & ? & ?).
  split; [done|]. split; [done|]. split; [done|]. destruct s as [w r].
  exact (others_relist p l h (bytocsum r) r w Hwf Hp Hl (λ _, eq_refl)).
Qed.

Lemma same_core_createTarSplit id : moves same_core (createTarSplitFile id).
Proof. unfold createTarSplitFile, getR. moves_steps. Qed.
#[local] Hint Resolve same_core_createTarSplit : moves.

Lemma same_core_applyDiff opts d ts f : (∀ x, moves same_core (f x)) → moves same_core (applyDiff inWorld opts d ts f).
Proof. intros Hf. unfold applyDiff. moves_steps. Qed.

Lemma applyDiff_wp to opts d p l s :
  store_wf (snd s) → p ∈ objs (reg (snd s)) → heap (reg (snd s)) !! p = Some l → find (snd s) to = Some p →
  wp (applyDiffWithOptions to opts d) (λ o s', store_wf (snd s') ∧ has p (ident l) (snd s') ∧ others (ID l) s s' ∧ (is_ret o → filled p (snd s'))) s.
Proof.
  intros Hwf Hp Hl Hf. unfold applyDiffWithOptions.
  assert (∀ (o : outcome Z) s', ¬ is_ret o → core_of (snd s') = core_of (snd s) →
    store_wf (snd s') ∧ has p (ident l) (snd s') ∧ others (ID l) s s' ∧ (is_ret o → filled p (snd s'))) as Hfail.
  { intros o s' Ho E. split_and!; [by eapply store_wf_core| |by apply others_core|done]. eapply has_core; [done|]. split; [done|]. eauto. }
  wp_step. apply wp_core; [apply same_core_writable|].
  intros [[]|e|c] s1 E1; [|apply Hfail; [by intros []|done]..].
  wp_step. apply layer_wp_lookup; rewrite (find_core _ _ to E1), Hf; [|done]. intros p' [= <-].
  destruct (heap_core _ _ p l E1 Hl) as (l1 & Hl1 & Hb1). wp_step. eapply layer_wp_deref; [done|].
  wp_step. apply wp_core; [apply same_core_createTarSplit|].
  intros [ts|e|c] s2 E2; [|apply Hfail; [by intros []|congruence]..].
  wp_step. apply wp_core; [apply same_core_applyDiff; intros x; apply same_core_onDriver|].
  intros [res|e|c] s3 E3; [|apply Hfail; [by intros []|congruence]..].
  wp_step. apply wp_core; [apply same_core_inWorld|].
  intros [[]|e|c] s4 E4; [|apply Hfail; [by intros []|congruence]..].
  assert (core_of (snd s4) = core_of (snd s)) as E by congruence.
  destruct (heap_core _ _ p l E Hl) as (l4 & Hl4 & Hb4).
  wp_step. eapply wp_mono; [apply (applyDiffResult_wp p l4)|].
  { by eapply store_wf_core. } { by rewrite (objs_core _ _ E). } { done. }
  intros o s5 (-> & Hwf5 & Hhas & Hfill & Hoth). assert (ID l4 = ID l) as Hid4 by apply bare_fields, Hb4. rewrite Hid4 in Hoth. rewrite (ident_bare _ _ Hb4) in Hhas.
  destruct Hhas as (Hp5 & l5 & Hl5 & Hi5). wp_step. eapply layer_wp_deref; [done|].
  wp_step. apply wp_core; [apply same_core_saveFor|].
  assert (∀ (o : outcome Z) s', core_of (snd s') = core_of (snd s5) →
    store_wf (snd s') ∧ has p (ident l) (snd s') ∧ others (ID l) s s' ∧ (is_ret o → filled p (snd s'))) as Hend.
  { intros o s' E5. split_and!; [by eapply store_wf_core| | |intros _; by eapply filled_core].
    2: { etrans; [by apply others_core|]. etrans; [exact Hoth|]. by apply others_core. }
    eapply has_core; [done|]. split; [done|]. eauto. }
  intros [[]|e|c] s6 E6; [wp_step|..]; by apply Hend.
Qed.

Lemma kept_applyDiff to opts d : kept (applyDiffWithOptions to opts d).
Proof.
  intros s Hwf. destruct (find (snd s) to) as [p|] eqn:Ef.
  - destruct (layer_find_some _ _ _ (proj1 Hwf) Ef) as [Hp [l Hl]]. by apply (applyDiff_wp to opts d p l s).
  - assert (wp (applyDiffWithOptions to opts d) (λ _ s', store_wf (snd s')) s) as Hw; [|exact Hw].
    unfold applyDiffWithOptions. wp_step. apply wp_core; [apply same_core_writable|].
    intros [[]|e|c] s1 E1; [|by eapply store_wf_core..]. wp_step.
    apply layer_wp_lookup; rewrite (find_core _ _ to E1), Ef; [done|]. intros _. by eapply store_wf_core.
Qed.

(** Methods that change no digest and take no layer away. *)
Definition steady s s' : Prop :=
  store_wf (snd s) → store_wf (snd s') ∧ (∀ p x, has p x (snd s) → has p x (snd s')) ∧
  (∀ id, unlisted id (snd s) → unlisted id (snd s')) ∧ (∀ p, filled p (snd s) → filled p (snd s')).

#[global] Instance steady_preorder : PreOrder steady.
Proof.
  split; [by intros s|]. unfold steady. intros s1 s2 s3 Hs12 Hs23 Hw1. destruct (Hs12 Hw1) as (Hw2 & ? & ? & ?).
  destruct (Hs23 Hw2) as (? & ? & ? & ?). split_and!; auto.
Qed.

Lemma core_steady {A} (m : M St A) : moves same_core m → moves steady m.
Proof.
  intros Hm s Hwf. pose proof (Hm s) as E. split_and!; [by eapply store_wf_core|..]; intros.
  - by eapply has_core.
  - by eapply unlisted_core.
  - by eapply filled_core.
Qed.

Lemma steady_assign p f : invisible f → moves steady (assign p f).
Proof.
  intros Hf s Hwf. split_and!; [by apply kept_assign| | |].
  - intros q id (Hq & l & Hl & Hi). split; [done|]. simpl. destruct (decide (q = p)) as [->|Hne].
    + exists (f l). rewrite lookup_alter_eq, Hl. split; [done|]. rewrite <- Hi. apply (Hf l).
    + exists l. by rewrite lookup_alter_ne.
  - done.
  - intros q Hq l. simpl. destruct (decide (q = p)) as [->|Hne]; [|rewrite lookup_alter_ne by done; apply Hq].
    rewrite lookup_alter_eq. destruct (heap (reg (snd s)) !! p) as [l0|] eqn:El; [|done]. intros [= <-].
    destruct (Hf l0) as (Hi & -> & -> & _). destruct (ident_ID _ _ Hi) as [-> _]. by apply Hq.
Qed.

#[local] Hint Extern 1 (moves steady (inWorld _)) => apply core_steady, same_core_inWorld : moves.
#[local] Hint Extern 1 (moves steady (onDriver _)) => apply core_steady, same_core_onDriver : moves.
#[local] Hint Extern 1 (moves steady (saveFor _ _)) => apply core_steady, same_core_saveFor : moves.
#[local] Hint Extern 1 (moves steady writable) => apply core_steady, same_core_writable : moves.
#[local] Hint Extern 1 (moves steady (lookup _)) => apply core_steady, same_core_lookup : moves.
#[local] Hint Extern 1 (moves steady (deref _)) => apply core_steady, same_core_deref : moves.

Lemma steady_setBigData p key data : moves steady (setBigData p key data).
Proof. unfold setBigData, getR. moves_steps. by apply steady_assign. Qed.
#[local] Hint Resolve steady_setBigData : moves.
Lemma steady_SetBigData id key data : moves steady (SetBigData id key data).
Proof. unfold SetBigData. moves_steps. Qed.

Lemma steady_kept {A} (m : M St A) : moves steady m → kept m.
Proof. intros Hm s Hwf. by apply (Hm s). Qed.

Lemma same_core_writeTarSplit id o : moves same_core (writeTarSplit id o).
Proof. unfold writeTarSplit. moves_steps. Qed.

Lemma wp_steady {A} (m : M St A) (Φ : outcome A → St → Prop) s :
  moves steady m → store_wf (snd s) →
  (∀ o s', store_wf (snd s') → (∀ p x, has p x (snd s) → has p x (snd s')) →
     (∀ id, unlisted id (snd s) → unlisted id (snd s')) → (∀ p, filled p (snd s) → filled p (snd s')) → Φ o s') →
  wp m Φ s.
Proof. intros Hm Hwf HΦ. destruct (Hm s Hwf) as (? & ? & ? & ?). by apply HΦ. Qed.

Lemma with_output_id out fl l : ident (with_output out fl l) = ident l ∧
  CompressedDigest (with_output out fl l) = do_CompressedDigest out ∧
  UncompressedDigest (with_output out fl l) = do_UncompressedDigest out.
Proof. unfold with_output. by destruct fl. Qed.

Lemma applyDiffFromStaging_wp id out opts p l s :
  store_wf (snd s) → p ∈ objs (reg (snd s)) → heap (reg (snd s)) !! p = Some l → find (snd s) id = Some p →
  wp (applyDiffFromStagingDirectory fuel id out opts)
    (λ o s', store_wf (snd s') ∧ (is_ret o → has p (ident l) (snd s') ∧ filled p (snd s'))) s.
Proof.
  intros Hwf Hp Hl Hf. unfold applyDiffFromStagingDirectory.
  assert (∀ (o : outcome unit) s', ¬ is_ret o → core_of (snd s') = core_of (snd s) →
    store_wf (snd s') ∧ (is_ret o → has p (ident l) (snd s') ∧ filled p (snd s'))) as Hfail.
  { intros o s' Ho E. split; [by eapply store_wf_core|done]. }
  destruct ApplyDiffFromStagingDirectory as [apply_|]; [|wp_step; apply Hfail; [by intros []|done]].
  wp_step. apply layer_wp_lookup; rewrite Hf; [|done]. intros p' [= <-]. wp_step. eapply layer_wp_deref; [done|]. cbv zeta.
  wp_step. apply wp_core; [apply same_core_onDriver|]. intros [[]|e|c] s1 E1; [|apply Hfail; [by intros []|done]..].
  destruct (heap_core _ _ p l E1 Hl) as (l1 & Hl1 & Hb1). destruct (bare_fields _ _ Hb1) as (Hid & _ & Hc & Hu & _).
  set (fl := wd_Flags _).
  unfold modR, assign, modReg, modR. wp_step. wp_step. wp_step. wp_step.
  match goal with |- wp _ _ ?s2 => assert (store_wf (snd s2) ∧ has p (ident l) (snd s2) ∧ filled p (snd s2)) as (Hw2 & Hh2 & Hf2) end.
  { rewrite <- Hid, <- Hc, <- Hu.
    destruct (with_output_id out fl l1) as (_ & <- & <-). rewrite <- (ident_bare _ _ Hb1).
    refine (relist_wf p l1 (with_output out fl) _ (snd s1) _ _ Hl1 _).
    - by eapply store_wf_core.
    - by rewrite (objs_core _ _ E1).
    - intros x. apply with_output_id. }
  match goal with |- wp _ _ ?s2 => generalize dependent s2 end. intros s2 Hw2 Hh2 Hf2.
  wp_step. apply wp_steady; [apply core_steady, same_core_writeTarSplit|done|]. intros o s3 Hw3 Hh3 _ Hf3.
  destruct o as [[]|e|c]; [|split; [done|by intros []]..].
  wp_step. apply (wp_forM (λ _ s, store_wf (snd s) ∧ has p (ident l) (snd s) ∧ filled p (snd s))); [by auto| |].
  - intros kv l' s' (Hw & Hh & Hfi). apply wp_on_error.
    apply wp_steady; [apply steady_SetBigData|done|]. intros o s4 Hw4 Hh4 _ Hf4.
    destruct o as [[]|e|c]; [by auto| |split; [done|by intros []]].
    wp_step. wp_step. eapply (wp_mono _ (λ _ s', store_wf (snd s'))); [exact (kept_delete id s4 Hw4)|].
    intros [[]|e'|c] s5 Hw5; [wp_step|wp_step|]; (split; [done|by intros []]).
  - intros s' (Hw & (Hp' & l' & Hl' & Hi') & Hfi). wp_step. eapply layer_wp_deref; [done|].
    apply wp_core; [apply same_core_saveFor|]. intros o s6 E6. split; [by eapply store_wf_core|]. intros _.
    split; [eapply has_core; [done|]; split; [done|]; eauto|by eapply filled_core].
Qed.

(** ** Creating *)

(** Methods that only work on the layer at [p]. *)
Definition works_on (p : positive) (l0 : Layer) s s' : Prop :=
  store_wf (snd s) → has p (ident l0) (snd s) →
  store_wf (snd s') ∧ has p (ident l0) (snd s') ∧ others (ID l0) s s' ∧
  (unlisted (ID l0) (snd s) → unlisted (ID l0) (snd s')) ∧ (filled p (snd s) → filled p (snd s')).

#[global] Instance works_on_preorder p l0 : PreOrder (works_on p l0).
Proof.
  split; [by intros s|]. unfold works_on. intros s1 s2 s3 Hs12 Hs23 Hw1 Hh1.
  destruct (Hs12 Hw1 Hh1) as (Hw2 & Hh2 & ? & ? & ?). destruct (Hs23 Hw2 Hh2) as (? & ? & ? & ? & ?).
  split_and!; [done|done|by etrans|auto..].
Qed.

Lemma core_works_on {A} p l0 (m : M St A) : moves same_core m → moves (works_on p l0) m.
Proof.
  intros Hm s Hwf Hh. pose proof (Hm s) as E. destruct (core_steady m Hm s Hwf) as (? & ? & ? & ?).
  split_and!; auto. by apply others_core.
Qed.

Lemma works_on_assign p l0 f : invisible f → moves (works_on p l0) (assign p f).
Proof.
  intros Hf s Hwf Hh. destruct (steady_assign p f Hf s Hwf) as (? & Hhas & ? & ?). split_and!; auto.
  destruct Hh as (Hp & l & Hl & Hi). destruct (ident_ID _ _ Hi) as [<- _]. destruct s as [w r].
  apply (others_update p l f r w); [done..|]. intros x. apply ident_ID, Hf.
Qed.

#[local] Hint Extern 1 (moves (works_on _ _) (inWorld _)) => apply core_works_on, same_core_inWorld : moves.
#[local] Hint Extern 1 (moves (works_on _ _) (onDriver _)) => apply core_works_on, same_core_onDriver : moves.
#[local] Hint Extern 1 (moves (works_on _ _) (saveFor _ _)) => apply core_works_on, same_core_saveFor : moves.
#[local] Hint Extern 1 (moves (works_on _ _) (deref _)) => apply core_works_on, same_core_deref : moves.

Lemma works_on_setBigData p l0 key data : moves (works_on p l0) (setBigData p key data).
Proof. unfold setBigData, getR. moves_steps. by apply works_on_assign. Qed.
#[local] Hint Resolve works_on_setBigData : moves.

Lemma works_on_createInDriver p l0 id parent pl tm o co w : moves (works_on p l0) (createInDriver id parent pl tm o co w).
Proof. unfold createInDriver. moves_steps. Qed.
Lemma works_on_copyTarSplit p l0 id ts : moves (works_on p l0) (copyTarSplit id ts).
Proof. unfold copyTarSplit, getR. moves_steps. Qed.
Lemma works_on_commitLayer p l0 e id : moves (works_on p l0) (commitLayer e id).
Proof. unfold commitLayer, getR. moves_steps. Qed.
#[local] Hint Resolve works_on_createInDriver works_on_copyTarSplit works_on_commitLayer : moves.

Lemma wp_works_on {A} p l0 (m : M St A) (Φ : outcome A → St → Prop) s :
  moves (works_on p l0) m → store_wf (snd s) → has p (ident l0) (snd s) →
  (∀ o s', store_wf (snd s') → has p (ident l0) (snd s') → others (ID l0) s s' →
     (unlisted (ID l0) (snd s) → unlisted (ID l0) (snd s')) → (filled p (snd s) → filled p (snd s')) → Φ o s') →
  wp m Φ s.
Proof. intros Hm Hwf Hh HΦ. destruct (Hm s Hwf Hh) as (? & ? & ? & ? & ?). by apply HΦ. Qed.


Definition is_differ (c : option layerCreationContents) : bool :=
  match c with Some (Differ _ _) => true | _ => false end.

(** A layer that no map lists yet is listed. *)
Lemma sum_ok_list f m g p l :
  reg_wf g → sum_ok f m g → p ∈ objs g → heap g !! p = Some l → (∀ d, ID l ∉ listed m d) →
  sum_ok f (add_sum (f l) (ID l) m) g.
Proof.
  intros Hwf Hs Hp Hl Hun. eapply (sum_ok_relist f m _ g g p l l); [done..|].
  intros d. rewrite listed_add, filter_absent by apply Hun. done.
Qed.

Lemma fillLayer_wp p l0 options contents s :
  store_wf (snd s) → has p (ident l0) (snd s) → unlisted (ID l0) (snd s) →
  wp (fillLayer fuel p options contents) (λ o s', store_wf (snd s') ∧
    (is_differ contents = false → has p (ident l0) (snd s') ∧ others (ID l0) s s') ∧
    (is_ret o → has p (ident l0) (snd s') ∧ filled p (snd s'))) s.
Proof.
  intros Hwf Hh Hun. unfold fillLayer. destruct Hh as (Hp & l & Hl & Hi).
  wp_step. eapply layer_wp_deref; [done|]. destruct (ident_ID _ _ Hi) as [Hid _].
  destruct contents as [[e|out opts]|].
  - destruct (result e) as [res|].
    + wp_step. apply (wp_works_on p l0); [apply works_on_commitLayer|done|by split; eauto|].
      intros o s1 Hw1 Hh1 Ho1 _ _. destruct o as [[]|err|c]; [|split_and!; [done|done|by intros []]..].
      destruct Hh1 as (Hp1 & l1 & Hl1 & Hi1). wp_step. eapply wp_mono; [by apply (applyDiffResult_wp p l1)|].
      intros o s2 (-> & Hw2 & Hh2 & Hf2 & Ho2). wp_step. destruct (ident_ID _ _ Hi1) as [Hid1 _].
      rewrite Hi1 in Hh2. rewrite Hid1 in Ho2. split_and!; [done|intros _; split; [done|by etrans]|done].
    + eapply wp_mono; [apply (applyDiff_wp (ID l) (Some options) (diff e) p l); [done..|by apply layer_find_id; [apply Hwf|..]]|].
      rewrite Hi, Hid. intros o s' (? & ? & ? & ?). split_and!; auto.
  - wp_step. eapply wp_mono; [apply (applyDiffFromStaging_wp (ID l) out opts p l); [done..|by apply layer_find_id; [apply Hwf|..]]|].
    rewrite Hi. intros o s' [Hw Hr]. destruct o as [[]|err|c]; [wp_step|..]; (split_and!; [done|done|]); [|by intros []..].
    intros _. apply Hr. by eexists.
  - unfold modR. wp_step. wp_step. wp_step. destruct Hwf as (Hwf & Hc & Hu). split_and!.
    + split; [done|]. split; apply (sum_ok_list _ _ _ p); try done; intros d; rewrite Hid; apply Hun.
    + intros _. split; [by split; eauto|]. by intros i.
    + intros _. split; [by split; eauto|]. intros l' Hl'. simpl in Hl'. assert (l' = l) as -> by congruence. simpl.
      rewrite !listed_add. split; intros Hd; rewrite decide_True by done; apply elem_of_app; right; by apply list_elem_of_singleton.
Qed.

(** A filled layer may lose its incomplete flag. *)
Lemma complete_wf p f r :
  store_wf r → filled p r → (∀ l, ident (f l) = ident l ∧ CompressedDigest (f l) = CompressedDigest l ∧
    UncompressedDigest (f l) = UncompressedDigest l) →
  store_wf (set_reg (reg_update f p (reg r)) r).
Proof.
  intros (Hwf & Hc & Hu) Hfill Hf. split.
  { apply reg_update_wf; [intros l; apply ident_ID, Hf|intros l; apply ident_ID, Hf|done]. }
  assert (∀ m F, (∀ l, F (f l) = F l) → sum_ok F m (reg r) →
    (∀ l, heap (reg r) !! p = Some l → F l ≠ "" → ID l ∈ listed m (F l)) → sum_ok F m (reg_update f p (reg r))) as Hgen.
  { intros m F HF [Hs Hn Hco] Hl. split; [|done|].
    - intros d id Hin. destruct (Hs d id Hin) as (Hd & q & l & Hq & Hlq & Hi & Hfd). split; [done|]. simpl.
      destruct (decide (q = p)) as [->|Hne]; [|exists q, l; by rewrite lookup_alter_ne].
      exists p, (f l). rewrite lookup_alter_eq, Hlq. split_and!; [done..| |by rewrite HF].
      rewrite <- Hi. apply ident_ID, Hf.
    - intros q l Hq. simpl. destruct (decide (q = p)) as [->|Hne]; [|rewrite lookup_alter_ne by done; by apply Hco].
      rewrite lookup_alter_eq. destruct (heap (reg r) !! p) as [l1|] eqn:E1; [|done]. intros [= <-] _. rewrite HF.
      destruct (ident_ID _ _ (proj1 (Hf l1))) as [-> _]. by apply Hl. }
  split; (apply Hgen; [intros l; by apply Hf|done|]); intros l Hl; by apply (Hfill l Hl).
Qed.

Definition create_body_post (p : positive) (l0 : Layer) contents s (o : outcome (Layer * Z)) s' : Prop :=
  store_wf (snd s') ∧ (is_differ contents = false → has p (ident l0) (snd s') ∧ others (ID l0) s s') ∧
  ∀ layer size, o = Ret (layer, size) → p ∈ objs (reg (snd s')) ∧
    ∃ l, heap (reg (snd s')) !! p = Some l ∧ ident l = ident l0 ∧ layer = copyLayer l ∧ layerHasIncompleteFlag l = false.

Lemma create_body_wp p l0 parent parentLayer tmpl tsdata mountLabel storageOpt options writeable contents s :
  store_wf (snd s) → has p (ident l0) (snd s) → unlisted (ID l0) (snd s) →
  wp (create_body fuel p (ID l0) parent parentLayer tmpl tsdata mountLabel storageOpt options writeable contents)
    (create_body_post p l0 contents s) s.
Proof.
  intros Hwf Hh Hun. unfold create_body.
  assert (∀ (o : outcome (Layer * Z)) s', (∀ a, o ≠ Ret a) → store_wf (snd s') → has p (ident l0) (snd s') → others (ID l0) s s' →
    create_body_post p l0 contents s o s') as Hfail.
  { intros o s' Ho Hw Hh' Hoth. split_and!; [done|done|]. intros layer size E. by destruct (Ho (layer, size)). }
  destruct Hh as (Hp & l & Hl & Hi). wp_step. eapply layer_wp_deref; [done|].
  wp_step. apply (wp_works_on p l0); [apply core_works_on, same_core_saveFor|done|by split; eauto|].
  intros o s1 Hw1 Hh1 Ho1 Hu1 _. destruct o as [[]|e|c]; [|by apply Hfail..].
  wp_step. apply (wp_works_on p l0); [moves_steps; apply works_on_setBigData|done..|].
  intros o s2 Hw2 Hh2 Ho2 Hu2 _. assert (others (ID l0) s s2) as Ho2' by (by etrans).
  destruct o as [[]|e|c]; [|by apply Hfail..].
  cbv zeta. wp_step. apply (wp_works_on p l0); [apply works_on_createInDriver|done..|].
  intros o s3 Hw3 Hh3 Ho3 Hu3 _. assert (others (ID l0) s s3) as Ho3' by (by etrans).
  destruct o as [[]|e|c]; [|by apply Hfail..].
  wp_step. apply (wp_works_on p l0); [apply works_on_copyTarSplit|done..|].
  intros o s4 Hw4 Hh4 Ho4 Hu4 _. assert (others (ID l0) s s4) as Ho4' by (by etrans).
  destruct o as [[]|e|c]; [|by apply Hfail..].
  wp_step. eapply wp_mono; [apply (fillLayer_wp p l0); [done..|by auto]|].
  intros o s5 (Hw5 & Hd5 & Hf5).
  destruct o as [size|e|c].
  2,3: split_and!; [done| |done]; intros Hd; destruct (Hd5 Hd) as [? ?]; split; [done|by etrans].
  destruct (Hf5 (ex_intro _ size eq_refl)) as [(Hp5 & l5 & Hl5 & Hi5) Hfill].
  unfold assign, modReg, modR. wp_step. wp_step.
  set (f := λ l, set_Flags (gomap_delete (Flags l) incompleteFlag) l).
  match goal with |- wp _ _ ?s6 => assert (store_wf (snd s6)) as Hw6 by (by apply (complete_wf p f)) end.
  assert (∀ s6, core_of (snd s6) = core_of (set_reg (reg_update f p (reg (snd s5))) (snd s5)) →
    store_wf (snd s6) ∧ (is_differ contents = false → has p (ident l0) (snd s6) ∧ others (ID l0) s s6) ∧
    p ∈ objs (reg (snd s6)) ∧ ∃ l, heap (reg (snd s6)) !! p = Some l ∧ ident l = ident l0 ∧ layerHasIncompleteFlag l = false) as Hend.
  { intros s6 E6.
    assert (heap (reg (set_reg (reg_update f p (reg (snd s5))) (snd s5))) !! p = Some (f l5)) as Hl6
      by (simpl; by rewrite lookup_alter_eq, Hl5).
    destruct (heap_core _ _ p _ E6 Hl6) as (l6 & Hl6' & Hb6).
    assert (ident l6 = ident l0) as Hi6 by (rewrite (ident_bare _ _ Hb6); exact Hi5).
    assert (p ∈ objs (reg (snd s6))) as Hp6 by (by rewrite (objs_core _ _ E6)).
    split_and!; [by eapply store_wf_core| |done|].
    - intros Hd. split; [split; eauto|]. destruct (Hd5 Hd) as [_ Ho5]. destruct (ident_ID _ _ Hi5) as [Hid5 _].
      etrans; [exact Ho4'|]. etrans; [exact Ho5|]. intros i Hne. rewrite (abs_core _ _ E6).
      rewrite <- Hid5 in Hne. exact (others_update p l5 f (snd s5) (fst s5) Hw5 Hp5 Hl5 (λ _, eq_refl) i Hne).
    - exists l6. split_and!; [done..|]. destruct (bare_fields _ _ Hb6) as (_ & _ & _ & _ & -> & _).
      unfold f, layerHasIncompleteFlag. simpl. destruct (Flags l5) as [m|]; [|done]. simpl. by rewrite lookup_delete_eq. }
  destruct (Hend (fst s5, set_reg (reg_update f p (reg (snd s5))) (snd s5)) eq_refl) as (_ & _ & _ & l6 & Hl6 & _).
  wp_step. eapply layer_wp_deref; [exact Hl6|].
  wp_step. apply wp_core; [apply same_core_saveFor|]. intros o s7 E7. destruct (Hend s7 E7) as (? & ? & ? & l7 & Hl7 & ? & ?).
  destruct o as [[]|e|c]; [|split_and!; done..].
  wp_step. eapply layer_wp_deref; [exact Hl7|]. wp_step. split_and!; [done..|]. intros layer size' [= <- <-]. split; [done|]. eauto 6.
Qed.

Lemma byid_none r id : reg_wf (reg r) → byid (reg r) !! id = None → abs r !! id = None.
Proof. intros Hwf Hn. unfold abs. rewrite reg_abs_flat, lookup_fmap. unfold reg_abs. by rewrite lookup_omap, Hn. Qed.

Lemma unlisted_new r id : store_wf r → byid (reg r) !! id = None → unlisted id r.
Proof.
  intros (Hwf & Hc & Hu) Hn d.
  assert (∀ f m, sum_ok f m (reg r) → id ∉ listed m d) as Hno; [|by eauto].
  intros f m Hs Hin. destruct (sum_sound _ _ _ Hs d id Hin) as (_ & p & l & Hp & Hl & Hi & _).
  assert (byid (reg r) !! id = Some p) as E; [|congruence]. apply (wf_byid _ Hwf). rewrite Hl. simpl. by rewrite <- Hi.
Qed.

(** A new, incomplete record. *)
Lemma add_layer_wf l r w :
  let p := nextp (reg r) in
  let r' := set_reg (reg_add p (ID l) (Names l) (snd (reg_alloc l (reg r)))) r in
  store_wf r → byid (reg r) !! ID l = None → (∀ n, n ∈ Names l → byname (reg r) !! n = None) →
  layerHasIncompleteFlag l = true →
  store_wf r' ∧ has p (ident l) r' ∧ unlisted (ID l) r' ∧ others (ID l) (w, r) (w, r').
Proof.
  intros p r' Hwf Hid Hnm Hflag.
  pose proof (kept_new l (w, r) Hwf) as (Hwf1 & Hc1 & Hu1). simpl in Hwf1, Hc1, Hu1.
  destruct (reg_alloc_fresh _ (proj1 Hwf)) as [Hp Hn].
  assert (heap (snd (reg_alloc l (reg r))) !! p = Some l) as Hl by (simpl; by rewrite lookup_insert_eq).
  split_and!.
  - split; [exact (reg_add_wf p l _ Hwf1 Hp Hl Hid Hnm)|].
    split; [exact (sum_ok_add _ _ _ p l Hc1 Hl Hflag)|exact (sum_ok_add _ _ _ p l Hu1 Hl Hflag)].
  - split; [simpl; apply elem_of_app; right; by apply list_elem_of_singleton|]. eauto.
  - exact (unlisted_new r (ID l) Hwf Hid).
  - intros i Hi. unfold abs, reg_abs. simpl. rewrite !lookup_omap, lookup_insert_ne by done.
    destruct (byid (reg r) !! i) as [q|] eqn:Eq; [|done]. simpl. rewrite !lookup_fmap. rewrite lookup_insert_ne; [done|].
    intros <-. apply (wf_byid _ (proj1 Hwf)) in Eq as [? _]. done.
Qed.

Lemma fate_others gone id a a' i : fate gone id a a' → i ≠ id → a' !! i = a !! i.
Proof.
  intros Hf Hi. destruct gone; simpl in Hf; [subst; by rewrite lookup_delete_ne|].
  destruct Hf as [->|(l & _ & ->)]; [done|]. by rewrite lookup_insert_ne.
Qed.

Definition create_post (id : string) (parentLayer : option Layer) (names : list string) contents s
    (o : outcome (Layer * Z)) s' : Prop :=
  store_wf (snd s') ∧ (is_differ contents = false → ∃ id', (id ≠ "" → id' = id) ∧ others id' s s' ∧
    match o with
    | Ret (layer, _) => abs (snd s) !! id' = None ∧ (∀ i l n, abs (snd s) !! i = Some l → n ∈ names → n ∉ Names l) ∧
        ∃ l, abs (snd s') !! id' = Some l ∧ copyLayer l = bare layer ∧ layerHasIncompleteFlag l = false ∧
             ID l = id' ∧ Names l = names ∧ Parent l = from_option ID "" parentLayer
    | Err _ => abs (snd s') !! id' = abs (snd s) !! id' ∨ abs (snd s) !! id' = None
    | Crash _ => True
    end).

Lemma same_core_unusedID n : moves same_core (unusedID fuel n).
Proof. induction n as [|n IH]; simpl; unfold getR; moves_steps. Qed.
Lemma same_core_check id names : moves same_core (checkIdOrNameConflict id names).
Proof. unfold checkIdOrNameConflict, getR. moves_steps. Qed.
Lemma same_core_template o : moves same_core (template o).
Proof. unfold template, getR. moves_steps. Qed.
Lemma same_core_reserve l : moves same_core (reserveLabel l).
Proof. unfold reserveLabel, getR. moves_steps. Qed.

Lemma check_wp id names Φ s :
  (byid (reg (snd s)) !! id = None → (∀ n, n ∈ names → byname (reg (snd s)) !! n = None) → Φ (Ret tt) s) →
  (∀ e, Φ (Err e) s) → wp (checkIdOrNameConflict id names) Φ s.
Proof.
  intros Hret Herr. unfold checkIdOrNameConflict, getR. wp_step. wp_step. case_decide as Hid; [by wp_step|].
  destruct (decide (Exists _ _)) as [Hn|Hn]; [by wp_step|]. wp_step. apply Hret; [by apply eq_None_not_Some|].
  intros n Hin. apply eq_None_not_Some. intros Hs. apply Hn, Exists_exists. eauto.
Qed.

Lemma layer_create_wp id parentLayer names mountLabel storageOpt moreOptions writeable contents s :
  store_wf (snd s) →
  wp (create fuel id parentLayer names mountLabel storageOpt moreOptions writeable contents)
    (create_post id parentLayer names contents s) s.
Proof.
  intros Hwf. unfold create. cbv zeta.
  assert (∀ id' (o : outcome (Layer * Z)) s', (id ≠ "" → id' = id) → (∀ a, o ≠ Ret a) → core_of (snd s') = core_of (snd s) →
    create_post id parentLayer names contents s o s') as Hfail.
  { intros id' o s' Hid Ho E. split; [by eapply store_wf_core|]. intros _. exists id'. split; [done|].
    split; [by apply others_core|]. destruct o as [[layer sz]|e|c]; [by destruct (Ho (layer, sz))| |done].
    left. by rewrite (abs_core _ _ E). }
  wp_step. apply wp_core; [apply same_core_writable|]. intros [[]|e|c] s1 E1; [|by apply (Hfail id)..].
  unfold getR. wp_step. wp_step. wp_step. apply wp_core; [apply same_core_inWorld|].
  intros [[]|e|c] s2 E2; [|apply (Hfail id); [done..|congruence]|apply (Hfail id); [done..|congruence]].
  wp_step. wp_step. wp_step. apply wp_core; [apply same_core_inWorld|].
  intros [[]|e|c] s3 E3; [|apply (Hfail id); [done..|congruence]|apply (Hfail id); [done..|congruence]].
  wp_step. eapply (wp_mono _ (λ o s', core_of (snd s') = core_of (snd s) ∧ match o with Ret id' => id ≠ "" → id' = id | _ => True end)).
  { case_decide as Hid.
    - apply wp_core; [apply same_core_unusedID|]. intros o s' E. split; [congruence|]. by destruct o.
    - wp_step. split; [congruence|done]. }
  intros [id'|e|c] s4 [E4 Hid']; [|by apply (Hfail id)..].
  wp_step. apply check_wp; [|intros e; by apply (Hfail id')]. intros Hfree Hnames.
  wp_step. apply wp_core; [apply same_core_template|].
  intros [[tmpl tsdata]|e|c] s5 E5; [|apply (Hfail id'); [done..|congruence]|apply (Hfail id'); [done..|congruence]].
  wp_step. apply wp_core; [apply same_core_reserve|].
  intros [[]|e|c] s6 E6; [|apply (Hfail id'); [done..|congruence]|apply (Hfail id'); [done..|congruence]].
  wp_step. apply wp_core; [apply same_core_inWorld|].
  intros [now|e|c] s7 E7; [|apply (Hfail id'); [done..|congruence]|apply (Hfail id'); [done..|congruence]].
  wp_step. wp_step. set (l := newLayer _ _ _ _ _ _ _ _). unfold new, getR, modReg, modR.
  wp_step. wp_step. wp_step. wp_step. wp_step. wp_step. wp_step. wp_step. simpl.
  assert (core_of (snd s7) = core_of (snd s)) as E by congruence.
  assert (store_wf (snd s7)) as Hwf7 by (by eapply store_wf_core).
  assert (core_of (snd s7) = core_of (snd s4)) as E47 by congruence.
  destruct (flat_fields _ _ (f_equal k_reg E47)) as (_ & _ & Eb & En & _).
  destruct (add_layer_wf l (snd s7) (fst s7) Hwf7) as (Hw8 & Hh8 & Hu8 & Ho8).
  { by rewrite Eb. } { intros n Hn. rewrite En. by apply Hnames. }
  { unfold layerHasIncompleteFlag. simpl. by rewrite lookup_insert_eq. }
  set (s8 := (fst s7, set_reg (reg_add (nextp (reg (snd s7))) id' names (snd (reg_alloc l (reg (snd s7))))) (snd s7))).
  change (store_wf (snd s8)) in Hw8. change (has (nextp (reg (snd s7))) (ident l) (snd s8)) in Hh8.
  change (unlisted (ID l) (snd s8)) in Hu8. assert (others id' s s8) as Ho8'.
  { intros i Hi. etrans; [exact (Ho8 i Hi)|]. simpl. by rewrite (abs_core _ _ E). }
  assert (abs (snd s) !! id' = None) as Hnone.
  { rewrite <- (abs_core _ _ E). apply byid_none; [apply Hwf7|]. by rewrite Eb. }
  apply wp_on_error. change id' with (ID l) at 1.
  eapply wp_mono; [apply (create_body_wp (nextp (reg (snd s7))) l); done|].
  intros o s9 (Hw9 & Hd9 & Hr9). destruct o as [[layer size]|e|c].
  - destruct (Hr9 layer size eq_refl) as (Hp9 & l9 & Hl9 & Hi9 & -> & Hflag).
    split; [done|]. intros Hd. exists id'. split; [done|]. destruct (Hd9 Hd) as [_ Ho9].
    split; [by etrans|]. split; [done|]. unfold ident in Hi9. injection Hi9 as Hid9 Hn9 Hpar9 _ _. split.
    + intros i l' n Hl' Hn Hin. rewrite <- (abs_core _ _ E) in Hl'. unfold abs in Hl'.
      rewrite reg_abs_flat, lookup_fmap_Some in Hl'. destruct Hl' as (l1 & <- & Hl1).
      apply reg_abs_lookup in Hl1; [|apply Hwf7]. destruct Hl1 as (q & Hq & Hlq & _).
      assert (byname (reg (snd s7)) !! n = Some q) as E'; [|rewrite En in E'; specialize (Hnames n Hn); congruence].
      apply (wf_byname _ (proj1 Hwf7)). eauto.
    + exists (bare l9). simpl in Hid9. split; [rewrite <- Hid9; by apply (abs_lookup _ (nextp (reg (snd s7)))); [apply Hw9|..]|].
      split_and!; done.
  - wp_step. wp_step. eapply wp_mono; [by apply deleteWhileHoldingLock_wp|]. intros o s10 [Hw10 Hm].
    assert (create_post id parentLayer names contents s (Err e) s10 ∧ ∀ c, create_post id parentLayer names contents s (Crash c) s10) as [Hp1 Hp2].
    { assert (is_differ contents = false → others id' s s10) as Ho10.
      { intros Hd. destruct (Hd9 Hd) as [(Hp9 & l9 & Hl9 & Hi9) Ho9]. destruct (ident_ID _ _ Hi9) as [Hid9 _]. simpl in Hid9.
        rewrite <- Hid9, (layer_find_id (snd s9) (nextp (reg (snd s7))) l9) in Hm; [|apply Hw9|done..].
        destruct Hm as (l9' & Hl9' & gone & Hf & _). assert (l9' = l9) as -> by congruence. rewrite Hid9 in Hf.
        etrans; [exact Ho8'|]. etrans; [exact Ho9|]. intros i Hi. by eapply fate_others. }
      split; [|intros c']; (split; [done|]; intros Hd; exists id'; split; [done|]; split; [by apply Ho10|]); auto. }
    destruct o as [[]|e'|c']; [wp_step; exact Hp1|wp_step; exact Hp1|apply Hp2].
  - split; [done|]. intros Hd. exists id'. split; [done|]. destruct (Hd9 Hd) as [_ ?]. split; [by etrans|done].
Qed.

(** ** All methods keep the invariant *)

Lemma kept_create id parentLayer names mountLabel storageOpt moreOptions writeable contents :
  kept (create fuel id parentLayer names mountLabel storageOpt moreOptions writeable contents).
Proof. intros s Hwf. by apply (layer_create_wp id parentLayer names mountLabel storageOpt moreOptions writeable contents s Hwf). Qed.

#[local] Hint Extern 1 (kept (saveFor _ _)) => apply core_kept, same_core_saveFor : moves.
#[local] Hint Extern 1 (kept writable) => apply core_kept, same_core_writable : moves.
#[local] Hint Extern 1 (kept (lookup _)) => apply core_kept, same_core_lookup : moves.
#[local] Hint Extern 1 (kept (deref _)) => apply core_kept, same_core_deref : moves.
#[local] Hint Extern 1 (kept (onDriver _)) => apply core_kept, same_core_onDriver : moves.
#[local] Hint Resolve kept_create kept_delete kept_deferredDelete kept_applyDiff : moves.

Lemma same_core_listLayers : moves same_core listLayers.
Proof. unfold listLayers. moves_steps. Qed.
#[local] Hint Resolve same_core_listLayers : moves.

Lemma same_core_GarbageCollect : moves same_core GarbageCollect.
Proof. unfold GarbageCollect, gc_driver_layer, gc_entry, getR. moves_steps. Qed.

Lemma kept_Wipe : kept (Wipe fuel).
Proof.
  unfold Wipe, getR. moves_steps. apply core_kept, same_core_listLayers.
Qed.

Lemma layer_kept_updateNames id names op : kept (updateNames id names op).
Proof.
  intros s Hwf. assert (wp (updateNames id names op) (λ _ s', store_wf (snd s')) s) as Hw; [|exact Hw].
  unfold updateNames. wp_step. apply wp_core; [apply same_core_writable|].
  intros [[]|e|c] s1 E1; [|by eapply store_wf_core..]. assert (store_wf (snd s1)) as Hw1 by (by eapply store_wf_core).
  wp_step. apply layer_wp_lookup; [|done]. intros p Hp. destruct (layer_find_some _ _ _ (proj1 Hw1) Hp) as [Ho [l Hl]].
  wp_step. eapply layer_wp_deref; [done|]. cbv zeta. destruct (applyNameOperation (Names l) names op) as [names'|e]; [|by wp_step].
  unfold modReg, modR. wp_step. wp_step. pose proof (kept_rename p l names' (snd s1) Hw1 Ho Hl) as Hw2.
  match goal with |- wp ?m _ ?s2 => change (store_wf (snd s2)) in Hw2; apply (λ Hm : kept m, Hm s2 Hw2) end.
  moves_steps.
Qed.

Lemma kept_flagged id (f : Layer → Layer) : invisible f →
  kept (_ ← writable; p ← lookup id; _ ← assign p f; l ← deref p; saveFor l false).
Proof. intros Hf. moves_steps. by apply kept_assign. Qed.

(** The flag [incomplete] belongs to the store. *)
Definition benign (o : op) : Prop :=
  match o with OpSetFlag _ flag _ | OpClearFlag _ flag => flag ≠ incompleteFlag | _ => True end.

Lemma layer_kept_run_op o : benign o → kept (run_op fuel o).
Proof.
  intros Hb. destruct o; simpl in *; moves_steps; try solve [eauto with moves].
  - apply layer_kept_updateNames.
  - apply kept_Wipe.
  - by apply (kept_flagged id (set_Metadata metadata)).
  - by apply (kept_flagged id (set_flag flag value)), invisible_set_flag.
  - by apply (kept_flagged id), invisible_clear_flag.
  - apply steady_kept, steady_SetBigData.
  - apply core_kept, same_core_mount.
  - apply core_kept, same_core_unmount.
  - apply core_kept, same_core_GarbageCollect.
Qed.

Definition exec (ops : list op) s : St := foldl (λ s o, fst (run_op fuel o s)) s ops.

(** C13: [create] keeps the index consistent.  With contents that no differ has
    staged: when it returns, the identifier and the names were free and exactly
    one layer is added, not marked as incomplete and with the identifier, the
    names and the parent that were asked for; when it fails, at any system call
    or driver operation, or the process is killed, every other layer is as
    before, and after an error a layer that was there under the identifier is
    unchanged.  (A new layer may stay behind, marked as incomplete or not.) *)
Theorem layer_create_spec id parentLayer names mountLabel storageOpt moreOptions writeable contents s :
  store_wf (snd s) →
  let '(s', o) := create fuel id parentLayer names mountLabel storageOpt moreOptions writeable contents s in
  create_post id parentLayer names contents s o s'.
Proof. intros Hwf. apply run_wp. by apply layer_create_wp. Qed.

(** Deleting a layer: with an unknown name nothing changes; if it succeeds,
    exactly the layer found is gone; if it fails at any point, it is gone, or it
    is still there, at most marked as incomplete, and no other layer changed. *)
Theorem layer_delete_spec id s :
  store_wf (snd s) →
  let '(s', o) := deleteWhileHoldingLock fuel id s in
  match find (snd s) id with
  | None => o ≠ Ret tt ∧ abs (snd s') = abs (snd s)
  | Some p => ∃ l, heap (reg (snd s)) !! p = Some l ∧
      ∃ gone, fate gone (ID l) (abs (snd s)) (abs (snd s')) ∧ (o = Ret tt → gone = true)
  end.
Proof.
  intros Hwf. apply run_wp. eapply wp_mono; [by apply deleteWhileHoldingLock_wp|].
  intros o s' [_ Hm]. destruct (find (snd s) id); [done|]. destruct Hm as [E ?]. split; [done|]. by apply abs_core.
Qed.
End Facts.

#[export] Hint Resolve same_core_inWorld same_core_onDriver same_core_onLock same_core_onMounts same_core_writable
  same_core_read same_core_loadMounts same_core_withMounts same_core_each same_core_RecordWrite same_core_lastWrite
  same_core_mountsLastWrite same_core_pathsModified same_core_bymount same_core_labels same_core_saveMounts
  same_core_save_location same_core_saveLayers same_core_saveFor same_core_reloadMounts same_core_lookup same_core_deref
  same_core_mount same_core_unmount same_core_unmount_all : moves.

(** ** Witnesses *)

Import LayerDemo.

Notation demo_st := (World * layerStore (gset string) nameDriver (gset string))%type.

(** An empty store, locked for writing. *)
Definition demo_empty : demo_st :=
  (demo_world,
   mkLayerStore [mkLockFile "/s/layers.lock" false MWriter 1 (mkLastWrite None) WriteLock true]
     (Some (mkLockFile "/r/mountpoints.lock" false MFree 0 (mkLastWrite None) ReadLock false))
     "/r" ["/s/layers.json"; ""; "/s/volatile-layers.json"] "/s" MWriter (mkLastWrite None) (mkLastWrite None)
     reg_empty ∅ ∅ ∅ ∅ [0; 0; 0]%Z (mkNameDriver ∅ ∅) ∅).

Notation exec' := (exec (T := gset string) (D := nameDriver) (L := gset string) 8).

Definition demo_diff (data : string) : option layerCreationContents := Some (Extraction (mkExtraction data None "" "")).

Definition demo_ops : list op :=
  [OpCreate "a1" None ["x"] "" None None false (demo_diff "data");
   OpCreate "b2" None ["y"] "" None None true None].

Definition demo_two : demo_st := exec' demo_ops demo_empty.

Notation create' := (create (T := gset string) (D := nameDriver) (L := gset string) 8).
Notation delete' := (deleteWhileHoldingLock (T := gset string) (D := nameDriver) (L := gset string) 8).

Lemma layer_demo_empty_wf : store_wf (snd demo_empty).
Proof.
  split; [apply reg_wf_empty|]. split; (split; [by intros d id ?%elem_of_nil|by intros d; constructor|by intros p l ?%elem_of_nil]).
Qed.

Lemma demo_benign : Forall benign demo_ops.
Proof. unfold demo_ops. by rewrite !Forall_cons. Qed.

Lemma layer_demo_two_wf : store_wf (snd demo_two).
Proof.
  unfold demo_two, exec', exec, demo_ops. cbn [foldl]. apply layer_kept_run_op; [done|]. apply layer_kept_run_op; [done|]. apply layer_demo_empty_wf.
Qed.

Lemma layer_create_spec_witness :
  is_ret (snd (create' "c3" None ["z"] "" None None true None demo_two)) ∧
  (let '(s', o) := create' "c3" None ["z"] "" None None true None demo_two in create_post "c3" None ["z"] None demo_two o s').
Proof.
  split; [by vm_compute; eexists|]. pose proof (layer_create_spec 8 "c3" None ["z"] "" None None true None demo_two layer_demo_two_wf) as Hc.
  exact Hc.
Defined.

Lemma layer_delete_spec_witness :
  snd (delete' "x" demo_two) = Ret tt ∧
  (let '(s', o) := delete' "x" demo_two in
   match find (snd demo_two) "x" with
   | None => o ≠ Ret tt ∧ abs (snd s') = abs (snd demo_two)
   | Some p => ∃ l, heap (reg (snd demo_two)) !! p = Some l ∧
       ∃ gone, fate gone (ID l) (abs (snd demo_two)) (abs (snd s')) ∧ (o = Ret tt → gone = true)
   end).
Proof. split; [by vm_compute|]. pose proof (layer_delete_spec 8 "x" demo_two layer_demo_two_wf) as Hd. exact Hd. Defined.

(** ** Where the code does not do what it means to *)

(** A layer that is pulled with a differ. *)
Definition demo_output (toc : string) (bigData : gmap string string) : option layerCreationContents :=
  Some (Differ (mkDifferOutput "/t" 1 [] [] "" "" "" bigData None toc) None).

(** [deleteInDigestMap] forgets the map of table-of-contents digests: after a
    layer was deleted, looking for its digest does not give an empty list, as
    the other two maps do, but fails with [ErrLayerUnknown]. *)
Theorem TOC_digest_stale :
  let '(s1, o1) := create' "c3" None [] "" None None false (demo_output "sha256:toc" ∅) demo_two in
  let '(s2, o2) := delete' "c3" s1 in
  is_ret o1 ∧ length <$> snd (LayersByTOCDigest "sha256:toc" s1) = Ret 1 ∧
  o2 = Ret tt ∧ abs (snd s2) !! "c3" = None ∧
  snd (LayersByTOCDigest "sha256:toc" s2) = Err ErrLayerUnknown ∧
  snd (LayersByTOCDigest "sha256:never" s2) = Ret [].
Proof. vm_compute. split; [by eexists|]. done. Qed.

(** When a big-data item of a differ cannot be stored,
    [applyDiffFromStagingDirectory] deletes the new layer, and the deferred
    clean-up of [create] deletes it again; by then the identifier leads to any
    layer of which it is a prefix, and that layer is deleted. *)
Theorem create_deletes_another_layer :
  let '(s1, o1) := create' "abc" None [] "" None None true None demo_two in
  let '(s2, o2) := create' "ab" None [] "" None None false (demo_output "" {["" := "item"]}) s1 in
  is_ret o1 ∧ abs (snd s1) !! "abc" ≠ None ∧
  o2 = Err ErrInvalidBigDataName ∧ abs (snd s2) !! "abc" = None.
Proof. vm_compute. split; [by eexists|]. done. Qed.

(** The record of a layer in an additional layer store. *)
Definition demo_info : Layer := mkLayer "" [] "" "" "" "" 0 0 "" 0 "" "" 0 0 [] [] None None None false 0 [].

(** A layer from an additional layer store is never written: its location is
    not set, so [saveFor] saves no file, and after a reload the layer is gone
    although [PutAdditionalLayer] returned it; its layer in the driver stays. *)
Theorem additional_layer_not_saved :
  let '(s1, o1) := PutAdditionalLayer 8 "c3" None [] (inl demo_info) (λ id _, step (put_layer id)) demo_two in
  let '(s2, o2) := load true s1 in
  is_ret o1 ∧ abs (snd s1) !! "c3" ≠ None ∧ o2 = Ret (false, None) ∧ abs (snd s2) !! "c3" = None ∧
  "c3" ∈ dr_layers (driver (snd s2)) ∧ abs (snd s2) !! "a1" ≠ None.
Proof. vm_compute. split; [by eexists|]. done. Qed.

(** [create] keeps a name that is given twice; [load] takes the second one for
    a conflict of the layer with itself and removes both. *)
Theorem repeated_name_lost :
  let '(s1, o1) := create' "c3" None ["n"; "n"] "" None None true None demo_two in
  let '(s2, o2) := load true s1 in
  is_ret o1 ∧ Names <$> abs (snd s1) !! "c3" = Some ["n"; "n"] ∧ o2 = Ret (false, None) ∧
  Names <$> abs (snd s2) !! "c3" = Some [].
Proof. vm_compute. split; [by eexists|]. done. Qed.

(** A read-only store has no lock for mounts; mounting one of its layers
    read-only, which is allowed, dereferences nil. *)
Theorem readonly_mount_panics id options (s : demo_st) :
  multi_IsReadWrite (snd s) = false → "ro" ∈ Options options → mountsLockfile (snd s) = None →
  Mount id options s = (s, Crash (Panic "invalid memory address or nil pointer dereference")).
Proof.
  intros Hro Hin Hm. unfold Mount, getR, gets. unfold mbind at 1, M_bind at 1. rewrite Hro. cbn [negb andb].
  rewrite bool_decide_eq_false_2 by (by intros ?). unfold withMounts, onMounts, mbind, M_bind. by rewrite Hm.
Qed.
End LayerFacts.
