(* ===== verification/LayerLoad.v ===== *)
(** * Loading the layer store

    [load] reads three files, rebuilds every index, merges the mount table
    and deletes what an interrupted process left incomplete.  Here: it
    establishes the invariant of [LayerFacts] from any files, nothing
    incomplete stays in a store that can be written, and what was saved is
    what is loaded. *)

From S2P Require Import Prelude World Paths StoreUtil Strconv StringId Codec Json IdTools TruncIndex LockFile TempDir.
From S2P Require Import StoreLock StoreDisk Registry GraphDriver LayerData LayerStore LayerDemo LayerFacts.
From stdpp Require Import sorting.

Local Open Scope string_scope.

Module LayerLoad.
Import LayerData Layers LayerFacts.

(** ** Recovery only removes files

    The recovery of temporary directories unlinks files and creates empty lock
    files. *)

Definition shrinks (w w' : World) : Prop :=
  ∀ q, w_files w' !! q = w_files w !! q ∨ default "" (w_files w' !! q) = "".

#[global] Instance shrinks_preorder : PreOrder shrinks.
Proof.
  split; [by left|]. intros w1 w2 w3 H1 H2 q. destruct (H2 q) as [E|E]; [|by right].
  destruct (H1 q) as [E'|E']; [left; congruence|]. right. by rewrite E.
Qed.

Lemma shrinks_same w w' : w_files w' = w_files w → shrinks w w'.
Proof. intros E q. left. by rewrite E. Qed.

Lemma shrinks_pop : moves shrinks pop_fault.
Proof. intros w. apply shrinks_same. unfold pop_fault. by destruct (w_faults w) as [|[] l]. Qed.
#[local] Hint Resolve shrinks_pop : moves.

Lemma shrinks_modify f : (∀ w, w_files (f w) = w_files w) → moves shrinks (modify f).
Proof. intros Hf w. by apply shrinks_same, Hf. Qed.

Lemma shrinks_delete p : moves shrinks (modify (λ w, set_files (delete p (w_files w)) w)).
Proof.
  intros w q. simpl. destruct (decide (q = p)) as [->|Hne]; [right; by rewrite lookup_delete_eq|].
  left. by apply lookup_delete_ne.
Qed.
#[local] Hint Resolve shrinks_delete : moves.

Lemma shrinks_syscall {A} (m : M World A) : moves shrinks m → moves shrinks (syscall m).
Proof. intros Hm. unfold syscall. moves_steps. Qed.

Lemma shrinks_unlink l err : moves shrinks (unlink_files l err).
Proof. revert err. induction l as [|p l IH]; intros err; cbn [unlink_files]; moves_steps. Qed.
#[local] Hint Resolve shrinks_unlink : moves.

Lemma shrinks_EnsureRemoveAll p : moves shrinks (EnsureRemoveAll p).
Proof. unfold EnsureRemoveAll, os_RemoveAll. moves_steps; by apply shrinks_modify. Qed.

Lemma shrinks_OpenLock p : moves shrinks (OpenLock p).
Proof.
  apply shrinks_syscall. moves_steps. intros w q. simpl. destruct (w_files w !! p) eqn:E; [by left|]. simpl.
  destruct (decide (q = p)) as [->|Hne]; [right; by rewrite lookup_insert_eq|left; by apply lookup_insert_ne].
Qed.

Lemma shrinks_Remove p : moves shrinks (os_Remove p).
Proof. apply shrinks_syscall. moves_steps; by apply shrinks_modify. Qed.
#[local] Hint Resolve shrinks_EnsureRemoveAll shrinks_OpenLock shrinks_Remove : moves.

Lemma shrinks_Recover dir : moves shrinks (TempDir.RecoverStaleDirs dir).
Proof.
  assert (moves shrinks (os_ReadDir dir)) as Hd by (apply shrinks_syscall; moves_steps).
  assert (moves shrinks TryLockFileHandle) as Ht by (apply shrinks_syscall; moves_steps).
  unfold TempDir.RecoverStaleDirs, TempDir.listPotentialStaleDirs, TempDir.recover_one, TempDir.recover_locked,
    TempDir.TryLockPath, TempDir.tryAcquireLockForFile, TempDir.UnlockAndDelete, TempDir.mod_staging.
  moves_steps; try (by apply shrinks_modify).
Qed.

Section Load.
Context {T : Type} `{PatriciaTrieSpec T}.
Context {D : Type} `{GraphDriver D} {L : Type} `{Selinux L}.
Context `{LayerJSON} `{Digests} `{Streams} `{MapRange} `{SortCreated}.
Notation store := (layerStore T D L).
Notation St := (World * layerStore T D L)%type.
Implicit Types (s : St) (r : store) (g : registry T Layer).

(** ** Reading the files *)

(** The records read so far and one more: the first one with an identifier
    wins. *)
Definition add_record (loc : Z) (vs : list Layer) (l : Layer) : list Layer :=
  if decide (ID l ∈ ID <$> vs) then vs else (vs ++ [set_location loc l])%list.

(** What the file of a location holds; a missing or empty file holds nothing. *)
Definition file_records (files : gmap string string) (paths : list string) (i : nat) : option (list (option Layer)) :=
  let rpath := default "" (paths !! i) in
  let data := default "" (files !! rpath) in
  if decide (rpath = "" ∨ data = "") then Some [] else Unmarshal data.

(** While files are read only new records appear, and the times of the files
    are noted. *)
Definition grows r r' : Prop :=
  r' = set_layerspathsModified (layerspathsModified r')
         (set_reg (mkReg (objs (reg r)) (idindex (reg r)) (byid (reg r)) (byname (reg r)) (heap (reg r'))
                     (nextp (reg r'))) r).

Definition reads s s' : Prop :=
  grows (snd s) (snd s') ∧ w_files (fst s') = w_files (fst s) ∧ (w_faults (fst s) = [] → w_faults (fst s') = []).

#[local] Instance reads_preorder : PreOrder reads.
Proof.
  split.
  - intros [w []]. split_and!; try done. unfold grows. simpl. by destruct reg0.
  - intros s1 s2 s3 (E1 & F1 & W1) (E2 & F2 & W2). split_and!; [|congruence|auto]. unfold grows in *.
    rewrite E2. rewrite E1. by destruct (snd s1).
Qed.

Lemma reads_inWorld {A} (m : M World A) s :
  (∀ w, w_files (fst (m w)) = w_files w) → (∀ w, w_faults w = [] → w_faults (fst (m w)) = []) →
  reads s (fst (inWorld m s)).
Proof.
  intros Hf Hw. destruct s as [w r]. specialize (Hf w). specialize (Hw w). unfold inWorld, zoom. simpl in *.
  destruct (m w) as [w' o]. split_and!; try done. unfold grows. by destruct r as [? ? ? ? ? ? ? ? []].
Qed.

(** A system call that looks at a file: what it sees, and the call that is used up. *)
Definition looks {A} (m : M World A) (file : World → outcome A) : Prop :=
  ∀ w, ∃ w', w_files w' = w_files w ∧ (w_faults w = [] → w' = w) ∧
    (m w = (w', file w) ∨ w_faults w ≠ [] ∧ (∃ e, m w = (w', Err (ErrOS e)) ∨ m w = (w', Crash Killed))).

Lemma looks_syscall {A} (m : M World A) file :
  (∀ w, m w = (w, file w)) → (∀ l w, file (set_faults l w) = file w) → looks (syscall m) file.
Proof.
  intros Hm Hl w. unfold syscall, pop_fault, mbind, M_bind. destruct (w_faults w) as [|[|e|n|] l] eqn:E; simpl.
  - exists w. rewrite Hm. auto.
  - exists (set_faults l w). rewrite Hm, Hl. naive_solver.
  - exists (set_faults l w). split_and!; try done. right. split; [done|]. exists e. by left.
  - exists (set_faults l w). rewrite Hm, Hl. naive_solver.
  - exists (set_faults l w). split_and!; try done. right. split; [done|]. exists EIO. by right.
Qed.

Lemma looks_ReadFile p :
  looks (os_ReadFile p) (λ w, match w_files w !! p with Some d => Ret d | None => Err (ErrOS ENOENT) end).
Proof. apply looks_syscall; [|done]. intros w. unfold gets, mbind, M_bind. by destruct (w_files w !! p). Qed.

Lemma looks_Stat p : looks (os_Stat p) (λ w, match w_files w !! p with
    Some _ => Ret (default 0%Z (m_mtimes (w_meta w) !! p)) | None => Err (ErrOS ENOENT) end).
Proof. apply looks_syscall; [|done]. intros w. unfold gets, mbind, M_bind. simpl. by destruct (w_files w !! p). Qed.

Lemma looks_wp {A} (m : M World A) file (Φ : outcome A → St → Prop) s :
  looks m file →
  (∀ s', reads s s' → snd s' = snd s → Φ (file (fst s)) s') →
  (∀ s' e, reads s s' → snd s' = snd s → w_faults (fst s) ≠ [] → Φ (Err (ErrOS e)) s' ∧ Φ (Crash Killed) s') →
  wp (inWorld m) Φ s.
Proof.
  intros Hm Hok Hbad. destruct s as [w r]. destruct (Hm w) as (w' & Hf & Hw & Hrun).
  assert (reads (w, r) (w', r)) as Hr.
  { split_and!; [|done|simpl; intros E; by rewrite Hw]. unfold grows. by destruct r as [? ? ? ? ? ? ? ? []]. }
  unfold wp, inWorld, zoom. simpl. destruct Hrun as [->|[Hne (e & [->| ->])]]; simpl; [by apply Hok|..];
    by apply (Hbad (w', r) e).
Qed.

Lemma layer_read_wp rpath s :
  wp (read_or_empty rpath) (λ o s', reads s s' ∧ snd s' = snd s ∧
    match o with
    | Ret data => default "" (w_files (fst s) !! rpath) = data ∨ w_faults (fst s) ≠ [] ∧ data = ""
    | _ => w_faults (fst s) ≠ []
    end) s.
Proof.
  unfold read_or_empty. wp_step. wp_step. eapply looks_wp; [apply looks_ReadFile|..].
  - intros s' Hr Es. cbv beta. destruct (w_files (fst s) !! rpath) as [d|];
      [|change (os_IsNotExist (ErrOS ENOENT)) with true]; wp_step; split_and!; try done; by left.
  - intros s' e Hr Es Hw. split; [|done]. destruct (os_IsNotExist _); wp_step; split_and!; try done. by right.
Qed.

(** The records [vs] are in memory. *)
Notation fetched' cs ids vs s := (fetched cs ids vs (reg (snd s))).

Lemma layer_load_record_wp loc cs ids vs ol s :
  fetched' cs ids vs s →
  wp (load_record loc (cs, ids) ol) (λ o s', reads s s' ∧
    match o with
    | Ret (cs', ids') => ∃ l, ol = Some l ∧ fetched' cs' ids' (add_record loc vs l) s'
    | Err _ => False
    | Crash _ => ol = None
    end) s.
Proof.
  intros Hf. unfold load_record. destruct ol as [l|]; [|by wp_step].
  pose proof (fetched_id cs ids vs _ (ID l) Hf) as Hid. change (is_Some (ids !! ID l) ↔ ID l ∈ ID <$> vs) in Hid.
  unfold add_record. destruct (ids !! ID l) as [p|] eqn:Ei.
  { wp_step. split; [done|]. exists l. split; [done|]. rewrite decide_True; [done|]. apply Hid. eauto. }
  unfold new, getR, modReg, modR. wp_step. wp_step. wp_step. wp_step. wp_step. wp_step. wp_step.
  split.
  - done.
  - exists l. split; [done|]. rewrite decide_False by (rewrite <- Hid; by intros [? ?]).
    change (ID l) with (rid (set_location loc l)). apply (fetched_new cs ids vs _ (set_location loc l) Hf).
    change (ID l ∉ ID <$> vs). rewrite <- Hid. by intros [? ?].
Qed.

(** The part of a location that reads the records. *)
Definition load_data (i : nat) (acc : list positive * gmap string positive) (rpath : string)
    : M St (list positive * gmap string positive) :=
  data ← read_or_empty rpath;
  if decide (data = "") then mret acc
  else match Unmarshal data with
       | None => fail (ErrOther "loading JSON")
       | Some l => foldM (load_record (layerLocationFromIndex i)) acc l
       end.

(** How reading the file of a location ends. *)
Definition location_post (file : option (list (option Layer))) (i : nat) (vs : list Layer) s
    (o : outcome (list positive * gmap string positive)) s' : Prop :=
  reads s s' ∧
  match o with
  | Ret (cs', ids') => ∃ l, (file = Some (Some <$> l) ∨ w_faults (fst s) ≠ [] ∧ l = []) ∧
                            fetched' cs' ids' (foldl (add_record (layerLocationFromIndex i)) vs l) s'
  | Err _ => w_faults (fst s) ≠ [] ∨ file = None
  | Crash _ => w_faults (fst s) ≠ [] ∨ ∃ l, file = Some l ∧ None ∈ l
  end.

Lemma load_data_wp i cs ids vs rpath s :
  rpath ≠ "" → fetched' cs ids vs s →
  let data := default "" (w_files (fst s) !! rpath) in
  wp (load_data i (cs, ids) rpath) (location_post (if decide (rpath = "" ∨ data = "") then Some [] else Unmarshal data) i vs s) s.
Proof.
  intros Hp Hf. cbv zeta. unfold load_data, location_post. wp_step. eapply wp_mono; [apply layer_read_wp|].
  intros [data|e|k] s1 (Hr & Es & Hd); [|by auto..]. rewrite <- Es in Hf. destruct (decide (data = "")) as [->|Hne].
  { wp_step. split; [done|]. exists []. split; [|done].
    destruct Hd as [->|[? _]]; [left; by rewrite decide_True by auto|by right]. }
  destruct Hd as [->|[_ ?]]; [|done]. rewrite decide_False by naive_solver.
  destruct (Unmarshal data) as [l|] eqn:Eu; [|wp_step; by auto].
  eapply (wp_foldM (λ acc rest s', reads s s' ∧ ∃ dn, l = ((Some <$> dn) ++ rest)%list ∧
     fetched' (fst acc) (snd acc) (foldl (add_record (layerLocationFromIndex i)) vs dn) s')).
  - split; [done|]. by exists [].
  - intros [cs1 ids1] ol rest s2 (Hr2 & dn & -> & Hl2). eapply wp_mono; [by apply layer_load_record_wp|].
    intros [[cs2 ids2]|e|k] s3 (Hr3 & Ho); [|done|].
    + destruct Ho as (c & -> & Hl3). split; [by etrans|]. exists (dn ++ [c])%list.
      rewrite fmap_app, <- app_assoc. split; [done|]. simpl. by rewrite foldl_app.
    + subst ol. split; [by etrans|]. right. eexists. split; [done|]. apply elem_of_app. right. left.
  - intros [cs1 ids1] s2 (Hr2 & dn & -> & Hl2). split; [done|]. exists dn. rewrite app_nil_r in *. split; [by left|done].
Qed.

Lemma layer_load_location_wp i cs ids vs s :
  fetched' cs ids vs s →
  wp (load_location (cs, ids) i) (location_post (file_records (w_files (fst s)) (jsonPath (snd s)) i) i vs s) s.
Proof.
  intros Hf. unfold load_location, getR, file_records. wp_step. wp_step.
  destruct (decide (default "" _ = "")) as [E|E].
  { wp_step. split; [done|]. exists []. rewrite decide_True by auto. auto. }
  revert E. generalize (default "" (jsonPath (snd s) !! i)). intros rpath E.
  assert (∀ s1, reads s s1 → fetched' cs ids vs s1 → wp (load_data i (cs, ids) rpath) (location_post
    (let data := default "" (w_files (fst s) !! rpath) in if decide (rpath = "" ∨ data = "") then Some [] else Unmarshal data)
    i vs s) s1) as Hrest.
  { intros s1 Hr Hf1. assert (w_faults (fst s1) ≠ [] → w_faults (fst s) ≠ []) as Hw by (intros Hne ?; by apply Hne, Hr).
    eapply wp_mono; [by apply load_data_wp|]. rewrite (proj1 (proj2 Hr)).
    intros [[cs2 ids2]|e|k] s2 [Hr2 Ho]; (split; [by etrans|]); cbv zeta in *; naive_solver. }
  unfold load_data in Hrest. wp_step. wp_step. eapply looks_wp; [apply looks_Stat|..].
  - intros s1 Hr Es. cbv beta. rewrite <- Es in Hf. destruct (w_files (fst s) !! rpath) as [d|] eqn:Ed; cbv zeta in Hrest;
      rewrite ?Ed in Hrest.
    + unfold modR. wp_step. wp_step. apply Hrest; [|done]. etrans; [exact Hr|]. split_and!; try done.
      unfold grows. by destruct s1 as [? [? ? ? ? ? ? ? ? []]].
    + change (os_IsNotExist (ErrOS ENOENT)) with true. wp_step. wp_step. by apply Hrest.
  - intros s1 e Hr Es Hw. rewrite <- Es in Hf. split; [|split; [done|by left]].
    destruct (os_IsNotExist _); wp_step; wp_step; [by apply Hrest|split; [done|by left]].
Qed.

(** The records of the files, in the order in which [load] keeps them. *)
Fixpoint disk_values (files : gmap string string) (paths : list string) (vs : list Layer) (idxs : list nat)
    : option (list Layer) :=
  match idxs with
  | [] => Some vs
  | i :: idxs =>
      match file_records files paths i ≫= mapM id with
      | Some l => disk_values files paths (foldl (add_record (layerLocationFromIndex i)) vs l) idxs
      | None => None
      end
  end.

(** No record of the files repeats a name. *)
Definition disk_ok (files : gmap string string) (paths : list string) : Prop :=
  ∀ i l x, file_records files paths i = Some l → Some x ∈ l → NoDup (Names x).

Lemma layer_add_records P loc l vs :
  (∀ x, P x → P (set_location loc x)) → Forall P vs → Forall P l → Forall P (foldl (add_record loc) vs l).
Proof.
  intros Hm Hvs Hl. revert vs Hvs. induction Hl as [|c l Hc Hl IH]; intros vs Hvs; [done|]. simpl.
  apply IH. unfold add_record. case_decide; [done|]. apply Forall_app. split; [done|].
  constructor; [by apply Hm|constructor].
Qed.

Lemma jsonPath_reads s s' : reads s s' → jsonPath (snd s') = jsonPath (snd s).
Proof. intros (E & _). unfold grows in E. by rewrite E. Qed.

Lemma layer_load_files_wp s idxs :
  (∀ p, is_Some (heap (reg (snd s)) !! p) → (p < nextp (reg (snd s)))%positive) →
  let files := w_files (fst s) in let paths := jsonPath (snd s) in
  wp (foldM load_location ([], ∅) idxs) (λ o s', reads s s' ∧
    match o with
    | Ret (cs, ids) => ∃ vs, fetched' cs ids vs s' ∧
        (disk_ok files paths → Forall (λ l, NoDup (Names l)) vs) ∧
        (w_faults (fst s) = [] → disk_values files paths [] idxs = Some vs)
    | _ => w_faults (fst s) = [] → disk_values files paths [] idxs = None
    end) s.
Proof.
  intros Hn files paths.
  eapply (wp_foldM (λ acc rest s', reads s s' ∧ ∃ vs, fetched' (fst acc) (snd acc) vs s' ∧
    (disk_ok files paths → Forall (λ l, NoDup (Names l)) vs) ∧
    (w_faults (fst s) = [] → disk_values files paths [] idxs = disk_values files paths vs rest))).
  - split; [done|]. exists []. split; [by apply fetched_nil|done].
  - intros [cs ids] i rest s1 (Hr & vs & Hl & Hvs & Heq). eapply wp_mono; [by apply layer_load_location_wp|].
    assert (w_faults (fst s) = [] → w_faults (fst s1) = []) as Hw by apply Hr.
    rewrite (proj1 (proj2 Hr)), (jsonPath_reads _ _ Hr). fold files paths.
    intros [[cs1 ids1]|e|k] s2 (Hr2 & Ho); (split; [by etrans|]).
    + destruct Ho as (l & Hfile & Hl2). eexists. split; [done|]. split.
      * intros Hd. apply layer_add_records; [done|by apply Hvs|]. apply Forall_forall. intros x Hx.
        destruct Hfile as [Hfile|[_ ->]]; [|by apply elem_of_nil in Hx].
        eapply Hd; [done|]. apply list_elem_of_fmap. by exists x.
      * intros E0. rewrite (Heq E0). simpl. destruct Hfile as [->|[Hne _]]; [|by destruct (Hne (Hw E0))].
        simpl. by rewrite mapM_id_Some.
    + intros E0. rewrite (Heq E0). simpl. destruct Ho as [Hne| ->]; [by destruct (Hne (Hw E0))|done].
    + intros E0. rewrite (Heq E0). simpl. destruct Ho as [Hne|(l & -> & Hin)]; [by destruct (Hne (Hw E0))|].
      simpl. by rewrite mapM_id_None.
  - intros [cs ids] s1 (Hr & vs & Hl & Hvs & Heq). split; [done|]. exists vs. auto.
Qed.

(** ** The loop over the records *)

(** What the loop does not change. *)
Definition faceless (l : Layer) : Layer := set_Names [] (set_ReadOnly false l).

Lemma faceless_fields l l' : faceless l = faceless l' →
  ID l = ID l' ∧ CompressedDigest l = CompressedDigest l' ∧ UncompressedDigest l = UncompressedDigest l' ∧
  TOCDigest l = TOCDigest l' ∧ Flags l = Flags l' ∧ location l = location l'.
Proof. unfold faceless, set_Names, set_ReadOnly. by intros [=]. Qed.

Lemma faceless_incomplete l l' :
  faceless l = faceless l' → layerHasIncompleteFlag l = layerHasIncompleteFlag l'.
Proof. intros (_ & _ & _ & _ & E & _)%faceless_fields. unfold layerHasIncompleteFlag. by rewrite E. Qed.

Lemma faceless_alter (f : Layer → Layer) p (h : gmap positive Layer) q :
  (∀ l, faceless (f l) = faceless l) → faceless <$> alter f p h !! q = faceless <$> h !! q.
Proof.
  intros Hf. destruct (decide (p = q)) as [->|Hne]; [|by rewrite lookup_alter_ne].
  rewrite lookup_alter_eq. destruct (h !! q); simpl; [by rewrite Hf|done].
Qed.

(** The names of one record: the table and the heap. *)
Lemma layer_load_names p l names h err locs :
  let '(names', h', _, _) := foldl (load_name p) (names, h, err, locs) l in
  (names', h') = foldl (steal (λ _ x, x) p) (names, h) l ∧
  ∀ q, faceless <$> h' !! q = faceless <$> h !! q.
Proof.
  revert names h err locs. induction l as [|n l IH]; intros names h err locs; [done|]. cbn [foldl].
  unfold load_name at 2. unfold steal at 2.
  assert (∀ h : gmap positive Layer, alter (λ x, x) p h = h) as Hid by (intros h0; by apply alter_id).
  rewrite Hid. destruct (names !! n) as [q|].
  - specialize (IH (<[n := p]> names) (remove_name q n h) (Some ErrDuplicateLayerNames) (Z.lor locs (from_option location 0%Z (h !! q)))).
    destruct (foldl (load_name p) _ l) as [[[names' h'] err'] locs']. destruct IH as [-> Hf]. split; [done|].
    intros q'. rewrite Hf. by apply faceless_alter.
  - specialize (IH (<[n := p]> names) h err locs).
    by destruct (foldl (load_name p) _ l) as [[[names' h'] err'] locs'].
Qed.

Lemma load_names_err p l names h err locs names' h' locs' :
  foldl (load_name p) (names, h, err, locs) l = (names', h', None, locs') → err = None.
Proof.
  revert names h err locs. induction l as [|n l IH]; intros names h err locs; cbn [foldl]; [by intros [=]|].
  unfold load_name at 2. destruct (names !! n); by intros ?%IH.
Qed.

(** The maps after the records at [ps] of the heap [h]. *)
Definition sums_of (f : Layer → string) (h : gmap positive Layer) (ps : list positive) : sums :=
  foldl (λ m l, add_sum (f l) (ID l) m) ∅ (omap (λ p, h !! p) ps).

Record tabled (rw : bool) (h : gmap positive Layer) (ps : list positive) (x : indexing) : Prop := {
  tb_idlist : x_idlist x = ID <$> omap (λ p, h !! p) ps;
  tb_csums : x_csums x = sums_of CompressedDigest h ps;
  tb_usums : x_usums x = sums_of UncompressedDigest h ps;
  tb_tsums : x_tsums x = sums_of TOCDigest h ps;
  tb_heap q : faceless <$> x_heap x !! q = faceless <$> h !! q;
  tb_err p l : x_err x = None → rw = true → p ∈ ps → h !! p = Some l → layerHasIncompleteFlag l = false
}.

Lemma omap_snoc {A B} (f : A → option B) (l : list A) a :
  omap f (l ++ [a])%list = (omap f l ++ option_list (f a))%list.
Proof. by rewrite omap_app. Qed.

Lemma sums_of_snoc f h ps p l : h !! p = Some l → sums_of f h (ps ++ [p])%list = add_sum (f l) (ID l) (sums_of f h ps).
Proof. intros Hl. unfold sums_of. by rewrite omap_snoc, Hl, foldl_app. Qed.

Lemma tabled_nil rw h : tabled rw h [] (mkIndexing [] ∅ ∅ ∅ ∅ h None 0).
Proof. split; try done. by intros p l _ _ ?%elem_of_nil. Qed.

Lemma tabled_step rw h ps x p l :
  tabled rw h ps x → x_heap x !! p = Some l → tabled rw h (ps ++ [p])%list (index_layer rw p l x).
Proof.
  intros Hx Hl. pose proof (tb_heap _ _ _ _ Hx p) as Hp. rewrite Hl in Hp. destruct (h !! p) as [y|] eqn:Ey; [|done].
  apply (inj Some) in Hp. destruct (faceless_fields _ _ Hp) as (Ei & Ec & Eu & Et & _).
  unfold index_layer. pose proof (layer_load_names p (Names l) (x_names x) (x_heap x) (x_err x) (x_locations x)) as Hn.
  destruct (foldl (load_name p) _ _) as [[[names h'] err] locs] eqn:Ef. destruct Hn as [_ Hn].
  split; simpl; rewrite ?Ei, ?Ec, ?Eu, ?Et.
  - rewrite omap_snoc, Ey, (tb_idlist _ _ _ _ Hx), fmap_app. done.
  - rewrite (sums_of_snoc _ _ _ _ y), (tb_csums _ _ _ _ Hx); done.
  - rewrite (sums_of_snoc _ _ _ _ y), (tb_usums _ _ _ _ Hx); done.
  - rewrite (sums_of_snoc _ _ _ _ y), (tb_tsums _ _ _ _ Hx); done.
  - intros q. rewrite faceless_alter by done. rewrite Hn. apply (tb_heap _ _ _ _ Hx).
  - intros q z. destruct (layerHasIncompleteFlag l && rw) eqn:Eflag; [done|]. intros -> ->.
    rewrite andb_true_r in Eflag. intros [Hq| ->%list_elem_of_singleton]%elem_of_app Hz.
    + apply (tb_err _ _ _ _ Hx q); try done. by apply (load_names_err p (Names l) _ _ _ _ _ _ _ Ef).
    + assert (z = y) as -> by congruence. by rewrite <- (faceless_incomplete _ _ Hp).
Qed.

(** The names after the records at [ps], when none of them repeats one. *)
Record named (rw : bool) (h : gmap positive Layer) (ps : list positive) (x : indexing) : Prop := {
  nm_names : names_inv ps (x_names x) (x_heap x);
  nm_other q : q ∉ ps → x_heap x !! q = h !! q;
  nm_strip q : q ∈ ps → ∃ l, x_heap x !! q = (λ y, set_ReadOnly (negb rw) (strip l y)) <$> h !! q
}.

Lemma named_nil rw h : named rw h [] (mkIndexing [] ∅ ∅ ∅ ∅ h None 0).
Proof.
  split; [|done|by intros q ?%elem_of_nil]. intros n q. simpl. rewrite lookup_empty, elem_of_nil. naive_solver.
Qed.

Lemma names_inv_alter (f : Layer → Layer) p ps bn h :
  (∀ l, Names (f l) = Names l) → names_inv ps bn h → names_inv ps bn (alter f p h).
Proof.
  intros Hf Hn n q. rewrite (Hn n q). destruct (decide (p = q)) as [->|Hne]; [|by rewrite lookup_alter_ne].
  rewrite lookup_alter_eq. destruct (h !! q) as [l|]; simpl; [|naive_solver].
  split; intros (Hq & y & [= <-] & Hy); (split; [done|]); eexists; (split; [done|]).
  - change (n ∈ Names (f l)). by rewrite Hf.
  - change (n ∈ Names (f l)) in Hy. by rewrite Hf in Hy.
Qed.

Lemma named_step rw h ps x p l :
  named rw h ps x → p ∉ ps → h !! p = Some l → NoDup (Names l) → named rw h (ps ++ [p])%list (index_layer rw p l x).
Proof.
  intros Hx Hp Hl Hnd. assert (x_heap x !! p = Some l) as Hxl by (by rewrite (nm_other _ _ _ _ Hx)).
  pose proof (index_one_inv p l ps (x_names x) (x_heap x) (nm_names _ _ _ _ Hx) Hp Hxl Hnd) as Hi.
  unfold index_one in Hi. cbn [snd] in Hi. rewrite Hxl in Hi.
  unfold index_layer. pose proof (layer_load_names p (Names l) (x_names x) (x_heap x) (x_err x) (x_locations x)) as Hn.
  destruct (foldl (load_name p) _ _) as [[[names h'] err] locs]. destruct Hn as [En _].
  change (rnames l) with (Names l) in Hi. rewrite <- En in Hi. destruct Hi as (Hn & Ho & Hs). split; simpl.
  - by apply names_inv_alter.
  - intros q [Hq Hne]%not_elem_of_app. rewrite lookup_alter_ne by (intros <-; apply Hne; left).
    rewrite Ho by done. by apply (nm_other _ _ _ _ Hx).
  - intros q [Hq| ->%list_elem_of_singleton]%elem_of_app.
    + assert (p ≠ q) by (by intros ->). rewrite lookup_alter_ne, Hs by done.
      destruct (nm_strip _ _ _ _ Hx q Hq) as [k ->]. exists (k ++ Names l)%list.
      destruct (h !! q) as [y|]; [|done]. simpl. f_equal.
      etrans; [|exact (f_equal (set_ReadOnly (negb rw)) (strip_app (Names l) k y))]. done.
    + exists []. rewrite lookup_alter_eq, Ho, Hxl, Hl by done. simpl. f_equal.
      exact (f_equal (set_ReadOnly (negb rw)) (eq_sym (strip_nil l))).
Qed.

(** What is listed for a digest. *)
Lemma listed_sums_of f h ps d :
  default [] (sums_of f h ps !! d) = ID <$> filter (λ l, f l = d ∧ d ≠ "") (omap (λ p, h !! p) ps).
Proof.
  unfold sums_of. generalize (omap (λ p, h !! p) ps). intros ls. induction ls as [|l ls IH] using rev_ind; [done|].
  rewrite foldl_app. cbn [foldl]. rewrite listed_add, IH, filter_app, fmap_app. f_equal.
  rewrite filter_cons, filter_nil. destruct (decide (d = f l ∧ f l ≠ "")) as [[-> Hd]|Hn].
  - by rewrite decide_True.
  - rewrite decide_False; [done|]. naive_solver.
Qed.

Lemma sum_ok_loaded f cs ids vs g (x : registry T Layer) :
  (∀ l l', faceless l = faceless l' → f l = f l') →
  fetched cs ids vs g → (∀ q, faceless <$> heap x !! q = faceless <$> heap g !! q) → objs x = cs →
  sum_ok f (sums_of f (heap g) cs) x.
Proof.
  intros Hf Hl Hh <-.
  assert (∀ p l, heap x !! p = Some l → ∃ y, heap g !! p = Some y ∧ ID y = ID l ∧ f y = f l ∧
    layerHasIncompleteFlag y = layerHasIncompleteFlag l) as Hxg.
  { intros p l Hp. specialize (Hh p). rewrite Hp in Hh. destruct (heap g !! p) as [y|]; [|done].
    apply (inj Some) in Hh. exists y. split_and!; [done|symmetry; by apply faceless_fields|by apply Hf|].
    symmetry. by apply faceless_incomplete. }
  split; [intros d i|intros d|intros p l Hp Hx _ Hne]; rewrite listed_sums_of, (fetched_omap _ _ _ _ Hl).
  - intros (y & -> & [[<- Hd] Hy]%list_elem_of_filter)%list_elem_of_fmap. split; [done|].
    destruct (fetched_pointer _ _ _ _ _ Hl Hy) as (p & Hp & Hin). pose proof (Hh p) as E. rewrite Hp in E.
    destruct (heap x !! p) as [l|] eqn:El; [|done]. destruct (Hxg p l El) as (y' & Hy' & ? & ? & _). exists p, l.
    split_and!; congruence.
  - apply NoDup_fmap_filter. exact (fetched_ids_nodup _ _ _ _ Hl).
  - destruct (Hxg p l Hx) as (y & Hy & Ei & Ef & _). rewrite <- Ei, <- Ef. apply list_elem_of_fmap. exists y.
    split; [done|]. apply list_elem_of_filter. split; [split; [done|congruence]|].
    destruct (fetched_value _ _ _ _ _ Hl Hp) as (y' & Hy' & Hv). congruence.
Qed.

(** Only the table of labels changed. *)
Definition relabeled s s' : Prop := s' = (fst s, set_labels (labels (snd s')) (snd s)).

#[local] Instance relabeled_preorder : PreOrder relabeled.
Proof.
  split; [by intros [w []]|]. unfold relabeled. intros s1 s2 s3 E1 E2. rewrite E2. rewrite E1. done.
Qed.

Lemma relabeled_modR f : moves relabeled (modR (λ r, set_labels (f r) r)).
Proof. by intros [w r]. Qed.
Lemma relabeled_set x : moves relabeled (modR (set_labels x)).
Proof. by intros [w r]. Qed.
#[local] Hint Resolve relabeled_modR relabeled_set : moves.

Lemma relabeled_reserve label : moves relabeled (reserveLabel label).
Proof. unfold reserveLabel, getR. moves_steps. Qed.

Lemma reserveLabel_ends label s : ¬ is_crash (snd (reserveLabel label s)).
Proof.
  unfold reserveLabel, getR, modR, gets, modify, mbind, M_bind. case_decide; simpl; [by intros [? ?]|].
  destruct (snd (ReserveLabelV2 _ _)) as [e|]; [case_decide|]; simpl; by intros [? ?].
Qed.

Lemma layer_load_loop_wp rw cs ids vs s :
  fetched' cs ids vs s →
  let h := heap (reg (snd s)) in
  wp (foldM (load_step rw) (mkIndexing [] ∅ ∅ ∅ ∅ h None 0) cs) (λ o s', relabeled s s' ∧
    match o with
    | Ret x => tabled rw h cs x ∧ (Forall (λ l, NoDup (Names l)) vs → named rw h cs x)
    | Err _ => True
    | Crash _ => False
    end) s.
Proof.
  intros Hl h.
  eapply (wp_foldM (λ x rest s', relabeled s s' ∧ ∃ dn, cs = (dn ++ rest)%list ∧ tabled rw h dn x ∧
    (Forall (λ l, NoDup (Names l)) vs → named rw h dn x))).
  - split; [done|]. exists []. split; [done|]. split; [apply tabled_nil|]. intros _. apply named_nil.
  - intros x p rest s1 (Hr & dn & Ecs & Ht & Hn).
    assert (p ∈ cs) as Hp by (rewrite Ecs; apply elem_of_app; right; left).
    destruct (fetched_value _ _ _ _ _ Hl Hp) as (l & Hlp & Hv). fold h in Hlp.
    assert (p ∉ dn) as Hnew.
    { pose proof (ft_nodup _ _ _ _ Hl) as Hnd. rewrite Ecs in Hnd. apply NoDup_app in Hnd as (_ & Hnd & _).
      intros Hin. apply (Hnd p Hin). left. }
    pose proof (tb_heap _ _ _ _ Ht p) as Hh. rewrite Hlp in Hh. destruct (x_heap x !! p) as [y|] eqn:Ey; [|done].
    unfold load_step. rewrite Ey. wp_step. pose proof (relabeled_reserve (l_MountLabel y) s1) as Hr1.
    pose proof (reserveLabel_ends (l_MountLabel y) s1) as He. unfold wp at 1.
    destruct (reserveLabel (l_MountLabel y) s1) as [s2 [[]|e|c]]; simpl in *.
    + wp_step. split; [by etrans|]. exists (dn ++ [p])%list. rewrite <- app_assoc. split; [done|].
      split; [by apply tabled_step|]. intros Hnd. specialize (Hn Hnd).
      assert (x_heap x !! p = Some l) as E by (by rewrite (nm_other _ _ _ _ Hn)).
      assert (y = l) as -> by congruence. apply named_step; try done. rewrite Forall_forall in Hnd. by apply Hnd.
    + split; [by etrans|done].
    + destruct He. by exists c.
  - intros x s1 (Hr & dn & Ecs & Ht & Hn). rewrite app_nil_r in Ecs. subst dn. done.
Qed.

(** ** The new maps *)

Definition published (cs : list positive) (ids : gmap string positive) (x : indexing) r : store :=
  set_sums (x_csums x) (x_usums x) (x_tsums x)
    (set_reg (mkReg cs (TruncIndex.NewTruncIndex (x_idlist x)) ids (x_names x) (x_heap x) (nextp (reg r))) r).

Lemma published_wf rw cs ids vs x r :
  fetched cs ids vs (reg r) → tabled rw (heap (reg r)) cs x → named rw (heap (reg r)) cs x →
  store_wf (published cs ids x r).
Proof.
  intros Hl Ht Hn. unfold published.
  assert (x_idlist x = rid <$> vs) as -> by (by rewrite (tb_idlist _ _ _ _ Ht), (fetched_omap _ _ _ _ Hl)).
  split; [|split]; cbn [reg set_sums set_reg bycompressedsum byuncompressedsum].
  - apply (fetched_wf cs ids vs (reg r) (x_names x) (x_heap x)); [done| |apply Hn].
    intros q. pose proof (tb_heap _ _ _ _ Ht q) as Hq. destruct (x_heap x !! q), (heap (reg r) !! q); try done.
    apply (inj Some) in Hq. apply (f_equal Some). by apply faceless_fields.
  - rewrite (tb_csums _ _ _ _ Ht). apply (sum_ok_loaded _ cs ids vs); [|done|apply Ht|done].
    intros l l' E. by apply faceless_fields.
  - rewrite (tb_usums _ _ _ _ Ht). apply (sum_ok_loaded _ cs ids vs); [|done|apply Ht|done].
    intros l l' E. by apply faceless_fields.
Qed.

(** ** Deleting incomplete layers *)

(** [internalDelete] of a layer that is marked already. *)
Definition flagged_delete (p : positive) (id : string) : M St (CleanupTempDirFuncs D * option error) :=
  rw ← getR multi_IsReadWrite;
  if negb rw then mret ([], Some ErrStoreIsReadOnly)
  else
    dir ← getR layerdir;
    res ← try (inWorld (TempDir.NewTempDir (filepath_Join [dir; tempDirPath])));
    match res with
    | inr err => mret ([], Some err)
    | inl td => discard p id td
    end.

Lemma internalDelete_flagged p l s :
  heap (reg (snd s)) !! p = Some l → byid (reg (snd s)) !! ID l = Some p → layerHasIncompleteFlag l = true →
  internalDelete (ID l) s = flagged_delete p (ID l) s.
Proof.
  intros Hl Hb Hf. unfold internalDelete, flagged_delete, find, reg_lookup, getR, gets, deref, mbind, M_bind. simpl.
  destruct (multi_IsReadWrite (snd s)); simpl; [|done]. rewrite Hb. unfold getR, gets. simpl. rewrite Hl. simpl.
  by rewrite Hf.
Qed.

(** It leaves the records alone, and every map entry but its own. *)
Definition spares_id (id : string) s s' : Prop :=
  heap (reg (snd s')) = heap (reg (snd s)) ∧
  (∀ i, i ≠ id → byid (reg (snd s')) !! i = byid (reg (snd s)) !! i) ∧
  lockfile (snd s') = lockfile (snd s) ∧ mountsLockfile (snd s') = mountsLockfile (snd s) ∧
  inProcessLock (snd s') = inProcessLock (snd s).

#[local] Instance spares_id_preorder id : PreOrder (spares_id id).
Proof.
  split; [by intros s|]. intros s1 s2 s3 (A1 & A2 & A3 & A4 & A5) (B1 & B2 & B3 & B4 & B5).
  split_and!; try congruence. intros i Hi. by rewrite B2, A2.
Qed.

Lemma spares_id_inWorld {A} id (m : M World A) : moves (spares_id id) (inWorld m).
Proof. intros [w r]. unfold inWorld, zoom. simpl. by destruct (m w). Qed.
Lemma spares_id_onDriver {A} id (m : M (World * D) A) : moves (spares_id id) (onDriver m).
Proof. intros [w r]. unfold onDriver, zoom. simpl. by destruct (m (w, driver r)). Qed.
Lemma spares_id_modR id f : (∀ w r, spares_id id (w, r) (w, f r)) → moves (spares_id id) (modR f).
Proof. intros Hf [w r]. apply Hf. Qed.
#[local] Hint Resolve spares_id_inWorld spares_id_onDriver : moves.

Lemma spares_id_flagged p id : moves (spares_id id) (flagged_delete p id).
Proof.
  unfold flagged_delete, discard, forget, modReg, deref, getR. moves_steps; apply spares_id_modR; intros w r; try done.
  - split_and!; try done. intros i Hi. simpl. by rewrite lookup_delete_ne.
  - by case_decide.
Qed.

(** The pointers [ps] lead to layers that are marked and indexed. *)
Definition doomed (ps : list positive) r : Prop :=
  NoDup ps ∧ ∀ p, p ∈ ps → ∃ l, heap (reg r) !! p = Some l ∧ byid (reg r) !! ID l = Some p ∧ layerHasIncompleteFlag l = true.

Lemma doomed_step p ps l s s' :
  doomed (p :: ps) (snd s) → heap (reg (snd s)) !! p = Some l → spares_id (ID l) s s' → doomed ps (snd s').
Proof.
  intros [[Hp Hnd]%NoDup_cons Hd] Hl (Eh & Eb & _). split; [done|]. intros q Hq.
  destruct (Hd q) as (y & Hy & Hyb & Hf); [by right|]. exists y. rewrite Eh, Eb; [done|]. intros E.
  destruct (Hd p) as (l' & Hl' & Hb & _); [left|]. assert (l' = l) as -> by congruence. apply Hp. congruence.
Qed.

(** The layers that are not marked, before and after a deletion. *)
Definition complete (l : Layer) : Prop := layerHasIncompleteFlag l = false.

Lemma fate_complete gone id a a' i l :
  fate gone id a a' → (∀ x, a !! id = Some x → ¬ complete x) → complete l → a' !! i = Some l ↔ a !! i = Some l.
Proof.
  intros Hf Hid Hc. destruct (decide (i = id)) as [->|Hne]; [|by rewrite (fate_others _ _ _ _ _ Hf Hne)].
  split; [|intros Hl; by destruct (Hid l Hl)]. destruct gone; simpl in Hf.
  - rewrite Hf, lookup_delete_eq. done.
  - destruct Hf as [->|(x & Hx & ->)]; [intros Hl; by destruct (Hid l Hl)|]. rewrite lookup_insert_eq. intros [= <-].
    unfold complete, layerHasIncompleteFlag, set_flag in Hc. simpl in Hc. rewrite lookup_insert_eq in Hc. done.
Qed.

Lemma bare_incomplete l : layerHasIncompleteFlag (bare l) = layerHasIncompleteFlag l.
Proof. done. Qed.

(** The loop over the marked layers. *)
Lemma delete_incomplete_wp cl err locs ps s :
  store_wf (snd s) → doomed ps (snd s) →
  wp (foldM delete_incomplete (cl, err, locs) ps) (λ o s', store_wf (snd s') ∧
    (∀ i l, complete l → abs (snd s') !! i = Some l ↔ abs (snd s) !! i = Some l) ∧
    match o with
    | Ret (_, err', _) => err' = None → err = None ∧ ∀ i l, abs (snd s') !! i = Some l → abs (snd s) !! i = Some l ∧
        ∀ p x, p ∈ ps → heap (reg (snd s)) !! p = Some x → ID x ≠ i
    | _ => True
    end) s.
Proof.
  revert cl err locs s. induction ps as [|p ps IH]; intros cl err locs s Hwf Hd; cbn [foldM].
  { wp_step. split; [done|]. split; [done|]. intros ->. split; [done|]. intros i l Hl. split; [done|].
    by intros p x ?%elem_of_nil. }
  destruct (proj2 Hd p) as (l & Hl & Hb & Hf); [left|].
  assert (p ∈ objs (reg (snd s))) as Hp by (by apply (wf_byid _ (proj1 Hwf)) in Hb as [? _]).
  pose proof (abs_lookup _ _ _ (proj1 Hwf) Hp Hl) as Habs.
  assert (∀ x, abs (snd s) !! ID l = Some x → ¬ complete x) as Hmarked.
  { intros x Hx. assert (x = bare l) as -> by congruence. unfold complete. rewrite bare_incomplete. congruence. }
  wp_step. unfold delete_incomplete at 1. wp_step. eapply layer_wp_deref; [done|]. wp_step.
  pose proof (internalDelete_wp (ID l) s Hwf) as Hdel. rewrite (layer_find_id _ _ _ (proj1 Hwf) Hp Hl) in Hdel.
  assert (spares_id (ID l) s (fst (internalDelete (ID l) s))) as Hsp.
  { rewrite (internalDelete_flagged p l s Hl Hb Hf). apply spares_id_flagged. }
  unfold wp in Hdel |- * at 1. destruct (internalDelete (ID l) s) as [s1 o]. simpl in Hdel, Hsp |- *.
  destruct Hdel as (l' & El & Hwf1 & gone & Hfate & Hgone). assert (l' = l) as -> by congruence. clear El.
  assert (∀ i x, complete x → abs (snd s1) !! i = Some x ↔ abs (snd s) !! i = Some x) as Hc1.
  { intros i x. by apply (fate_complete gone (ID l)). }
  destruct o as [[fns e]|e|c]; [|done..]. wp_step.
  eapply wp_mono; [by apply IH; [|by apply (doomed_step p ps l s)]|].
  intros o s2 (Hwf2 & Hc2 & Ho). split; [done|]. split; [intros i x Hx; rewrite (Hc2 i x Hx); by apply Hc1|].
  destruct o as [[[cl2 err2] locs2]|e2|c]; [|done..]. intros E2. destruct (Ho E2) as [E1 Hrest].
  assert (err = None ∧ e = None) as [-> ->] by (destruct err; by destruct e).
  specialize (Hgone fns eq_refl). subst gone. simpl in Hfate. split; [done|]. intros i x Hx.
  destruct (Hrest i x Hx) as [Hx1 Hne]. rewrite Hfate in Hx1. apply lookup_delete_Some in Hx1 as [Hi Hx1].
  split; [done|]. intros q y [->|Hq]%elem_of_cons Hy; [congruence|]. apply (Hne q y Hq). by rewrite (proj1 Hsp).
Qed.

(** A layer without flags gets an empty map of flags. *)
Definition ensured (l : Layer) : Layer := set_Flags (gomap_ensure (Flags l)) l.

Lemma ensured_idem l : ensured (ensured l) = ensured l.
Proof. unfold ensured. simpl. by destruct (Flags l). Qed.

Lemma ensure_all_wp ps s :
  wp (forM ps (λ p, assign p ensured)) (λ o s', o = Ret tt ∧ fst s' = fst s ∧
    ∃ h, snd s' = set_reg (mkReg (objs (reg (snd s))) (idindex (reg (snd s))) (byid (reg (snd s))) (byname (reg (snd s)))
                             h (nextp (reg (snd s)))) (snd s) ∧
      ∀ q, h !! q = if decide (q ∈ ps) then ensured <$> heap (reg (snd s)) !! q else heap (reg (snd s)) !! q) s.
Proof.
  revert s. induction ps as [|p ps IH]; intros [w r]; cbn [forM].
  { wp_step. split; [done|]. split; [done|]. exists (heap (reg r)). split; [by destruct r as [? ? ? ? ? ? ? ? []]|done]. }
  unfold assign at 1, modReg, modR. wp_step. apply wp_modify. eapply wp_mono; [apply IH|].
  intros o s' (-> & Ew & h & Er & Hh). simpl in *. split; [done|]. split; [done|]. exists h. split; [done|].
  intros q. rewrite Hh. destruct (decide (p = q)) as [->|Hne].
  - rewrite lookup_alter_eq, (decide_True (P := q ∈ q :: ps)) by left. destruct (heap (reg r) !! q) as [l|]; simpl.
    + case_decide; [by rewrite ensured_idem|done].
    + by case_decide.
  - rewrite lookup_alter_ne by done. destruct (decide (q ∈ ps)).
    + by rewrite decide_True by (by right).
    + rewrite decide_False; [done|]. by intros [->|?]%elem_of_cons.
Qed.

Lemma kept_ensure_all ps : moves (S := St) wf_inv (forM ps (λ p, assign p ensured)).
Proof. apply moves_forM; [apply _|]. intros p. apply kept_assign, invisible_ensure. Qed.

(** After [resolve] the marked layers are gone and the others as they were. *)
Lemma resolve_wp locs s :
  store_wf (snd s) →
  wp (resolve locs) (λ o s', store_wf (snd s') ∧
    (∀ i l, complete l → abs (snd s') !! i = Some l ↔ (ensured <$> abs (snd s)) !! i = Some l) ∧
    (o = Ret tt → ∀ i l, abs (snd s') !! i = Some l → complete l)) s.
Proof.
  intros Hwf. unfold resolve, getR. wp_step. wp_step. wp_step. set (ps := objs (reg (snd s))).
  pose proof (kept_ensure_all ps s Hwf) as Hwf1. pose proof (ensure_all_wp ps s) as He. unfold wp in He |- * at 1.
  destruct (forM ps _ s) as [s1 o] eqn:Erun. simpl in Hwf1, He. destruct He as (-> & Ew & h & Er & Hh).
  assert (abs (snd s1) = ensured <$> abs (snd s)) as Habs.
  { unfold abs. rewrite !reg_abs_flat, Er. rewrite <- map_fmap_compose. apply map_eq. intros i.
    rewrite !lookup_fmap. unfold reg_abs. cbn [reg set_reg byid heap]. rewrite !lookup_omap.
    destruct (byid (reg (snd s)) !! i) as [p|] eqn:Ei; [|done]. simpl. rewrite Hh.
    apply (wf_byid _ (proj1 Hwf)) in Ei as [Hp _]. fold ps in Hp. rewrite decide_True by done.
    by destruct (heap (reg (snd s)) !! p). }
  rewrite <- Habs. clear Erun. simpl. wp_step. wp_step. wp_step.
  set (marked := filter _ (objs (reg (snd s1)))).
  assert (doomed marked (snd s1)) as Hd.
  { split; [apply NoDup_filter, (wf_nodup _ (proj1 Hwf1))|]. intros p [Hf Hp]%list_elem_of_filter.
    destruct (wf_heap _ (proj1 Hwf1) p Hp) as [l Hl]. rewrite Hl in Hf. exists l. split; [done|]. split; [|by injection Hf].
    apply (wf_byid _ (proj1 Hwf1)). by rewrite Hl. }
  eapply wp_mono; [by apply delete_incomplete_wp|]. intros [[[cl err] locs2]|e|c] s2 (Hwf2 & Hc & Ho); [|done..].
  set (post := λ (o : outcome unit) s', (store_wf (snd s') ∧
    (∀ i l, complete l → abs (snd s') !! i = Some l ↔ abs (snd s1) !! i = Some l) ∧
    (o = Ret tt → ∀ i l, abs (snd s') !! i = Some l → complete l))).
  assert (∀ o s3, core_of (snd s3) = core_of (snd s2) → (o = Ret tt → err = None) → post o s3) as Hend.
  { intros o s3 E Herr. unfold post. rewrite (abs_core _ _ E). split; [by eapply store_wf_core|]. split; [done|].
    intros Eo i l Hl. destruct (Ho (Herr Eo)) as [_ Hgone]. destruct (Hgone i l Hl) as [Hl1 Hne].
    destruct (layerHasIncompleteFlag l) eqn:Ef; [exfalso|done]. unfold abs in Hl1. rewrite reg_abs_flat, lookup_fmap in Hl1.
    destruct (reg_abs (reg (snd s1)) !! i) as [y|] eqn:Ey; [|done]. injection Hl1 as <-.
    apply (reg_abs_lookup _ _ _ (proj1 Hwf1)) in Ey as (p & Hp & Hy & Hi). apply (Hne p y); [|done|done].
    apply list_elem_of_filter. rewrite bare_incomplete in Ef. rewrite Hy. split; [exact (f_equal Some Ef)|done]. }
  wp_step. eapply (wp_mono _ (λ o s3, core_of (snd s3) = core_of (snd s2) ∧ (o = Ret tt → err = None))).
  { wp_step. apply wp_core; [apply same_core_saveLayers|]. intros [[]|e|c] s3 E; [|done..].
    destruct err; wp_step; done. }
  intros o s3 [E Herr]. destruct o as [[]|e|c]; [| |by apply Hend];
    (apply wp_core; [unfold run_cleanups; apply moves_forM; [apply _|]; intros f; moves_steps; apply same_core_onDriver|];
     intros [[]|e'|c] s4 E4; apply Hend; try done; congruence).
Qed.

(** ** load *)

Lemma file_records_shrinks w w' paths i l :
  shrinks w w' → file_records (w_files w') paths i = Some l →
  file_records (w_files w) paths i = Some l ∨ l = [].
Proof.
  intros Hs. unfold file_records. destruct (Hs (default "" (paths !! i))) as [->| ->]; [by left|].
  rewrite decide_True by auto. intros [= <-]. by right.
Qed.

Lemma disk_ok_shrinks w w' paths : shrinks w w' → disk_ok (w_files w) paths → disk_ok (w_files w') paths.
Proof.
  intros Hs Hd i l x Hl Hx. destruct (file_records_shrinks _ _ _ _ _ Hs Hl) as [Hl' | ->]; [by eapply Hd|].
  by apply elem_of_nil in Hx.
Qed.

Definition recovers s s' : Prop := snd s' = snd s ∧ shrinks (fst s) (fst s').
#[local] Instance recovers_preorder : PreOrder recovers.
Proof. split; [by split|]. intros s1 s2 s3 [E1 ?] [E2 ?]. split; [congruence|by etrans]. Qed.

Lemma recovers_recover : moves recovers recoverStaleDirs.
Proof.
  assert (∀ d, moves recovers (inWorld (TempDir.RecoverStaleDirs d))) as Hr.
  { intros d [w r]. pose proof (shrinks_Recover d w) as Hs. unfold inWorld, zoom. simpl.
    destruct (TempDir.RecoverStaleDirs d w). by split. }
  unfold recoverStaleDirs, getR. moves_steps.
Qed.

Notation kept := (moves (S := St) wf_inv).

#[local] Hint Extern 1 (kept (inWorld _)) => apply core_kept, same_core_inWorld : moves.
#[local] Hint Extern 1 (kept (read_or_empty _)) => apply core_kept, same_core_read : moves.
#[local] Hint Resolve kept_new : moves.

Lemma kept_load_location acc i : kept (load_location acc i).
Proof.
  unfold load_location, load_record, getR. moves_steps. by apply core_kept, same_core_modR.
Qed.

(** What a run of [load] guarantees. *)
Definition load_post (rw : bool) (o : outcome (bool * option error)) s' : Prop :=
  store_wf (snd s') ∧ (o = Ret (false, None) → rw = true → ∀ i l, abs (snd s') !! i = Some l → complete l).

Lemma load_post_fail rw (o : outcome (bool * option error)) s' :
  store_wf (snd s') → o ≠ Ret (false, None) → load_post rw o s'.
Proof. by split. Qed.

(** The part of [load] that follows the new maps. *)
Definition load_rest (rw : bool) (x : indexing) : M St (bool * option error) :=
  let rest : M St unit :=
    match x_err x with
    | None => mret tt
    | Some _ => if negb rw then fail (ErrOther "internal error: shouldSave in a read-only store")
                else resolve (x_locations x)
    end in
  _ ← (if (rw : bool) then
         withMounts RLock
           (lw ← onMounts GetLastWrite;
            _ ← loadMounts;
            _ ← modR (set_mountsLastWrite lw);
            rest)
       else rest);
  mret (false, None).

Lemma load_rest_wp rw x s :
  store_wf (snd s) → (x_err x = None → rw = true → ∀ i l, abs (snd s) !! i = Some l → complete l) →
  wp (load_rest rw x) (load_post rw) s.
Proof.
  intros Hwf Hc. unfold load_rest. set (rest := match x_err x with None => _ | _ => _ end).
  assert (∀ s1, core_of (snd s1) = core_of (snd s) → wp rest (λ o s', store_wf (snd s') ∧
    (o = Ret tt → rw = true → ∀ i l, abs (snd s') !! i = Some l → complete l)) s1) as Hrest.
  { intros s1 E. assert (store_wf (snd s1)) as Hwf1 by (by eapply store_wf_core). unfold rest.
    destruct (x_err x) as [e|] eqn:Ex; [|wp_step; split; [done|]; rewrite (abs_core _ _ E); intros _; by apply Hc].
    destruct rw; simpl; [|by wp_step]. eapply wp_mono; [by apply resolve_wp|]. naive_solver. }
  clearbody rest. wp_step.
  eapply (wp_mono _ (λ o s', store_wf (snd s') ∧
    (o = Ret tt → rw = true → ∀ i l, abs (snd s') !! i = Some l → complete l))).
  2: { intros [[]|e|c] s1 [Hwf1 Hc1]; [wp_step|..]; (split; [done|]); [intros _; by apply Hc1|done..]. }
  destruct rw; [|by apply Hrest]. unfold withMounts. wp_step. apply wp_core; [apply same_core_onMounts|].
  intros [[]|e|c] s1 E1; [|split; [by eapply store_wf_core|done]..]. wp_step.
  eapply (wp_mono _ (λ o s', store_wf (snd s') ∧ (o = Ret tt → true = true → ∀ i l, abs (snd s') !! i = Some l → complete l))).
  { wp_step. apply wp_core; [apply same_core_onMounts|]. intros [lw|e|c] s2 E2; [|split; [eapply store_wf_core; [|done]; congruence|done]..].
    wp_step. apply wp_core; [apply same_core_loadMounts|]. intros [[]|e|c] s3 E3; [|split; [eapply store_wf_core; [|done]; congruence|done]..].
    wp_step. apply wp_core; [apply same_core_mountsLastWrite|]. intros [[]|e|c] s4 E4; [|split; [eapply store_wf_core; [|done]; congruence|done]..].
    apply Hrest. congruence. }
  intros o s2 [Hwf2 Hc2]. assert (∀ s3, core_of (snd s3) = core_of (snd s2) → store_wf (snd s3) ∧
    (o = Ret tt → true = true → ∀ i l, abs (snd s3) !! i = Some l → complete l)) as Hend.
  { intros s3 E. split; [by eapply store_wf_core|]. by rewrite (abs_core _ _ E). }
  destruct o as [[]|e|c]; [| |done]; (apply wp_core; [apply same_core_onMounts|]; intros [[]|e'|c'] s3 E3; try (by apply Hend));
    (split; [by apply Hend|done]).
Qed.

Lemma published_complete rw cs ids vs x r i l :
  fetched cs ids vs (reg r) → tabled rw (heap (reg r)) cs x → named rw (heap (reg r)) cs x →
  x_err x = None → rw = true → abs (published cs ids x r) !! i = Some l → complete l.
Proof.
  intros Hl Ht Hn Ee Erw. pose proof (published_wf rw cs ids vs x r Hl Ht Hn) as [Hwf _].
  unfold abs. rewrite reg_abs_flat, lookup_fmap. destruct (reg_abs _ !! i) as [y|] eqn:Ey; [|done]. intros [= <-].
  apply (reg_abs_lookup _ _ _ Hwf) in Ey as (p & Hp & Hy & _). cbn [reg published set_sums set_reg objs heap] in Hp, Hy.
  pose proof (tb_heap _ _ _ _ Ht p) as E. rewrite Hy in E. destruct (heap (reg r) !! p) as [z|] eqn:Ez; [|done].
  apply (inj Some) in E. unfold complete. rewrite bare_incomplete, (faceless_incomplete _ _ E).
  by apply (tb_err _ _ _ _ Ht p z).
Qed.

Lemma layer_load_body_wp b s :
  store_wf (snd s) → disk_ok (w_files (fst s)) (jsonPath (snd s)) →
  wp (load_body b) (load_post (multi_IsReadWrite (snd s))) s.
Proof.
  intros Hwf Hd. unfold load_body, getR. wp_step. eapply wp_moves; [apply recovers_recover|].
  intros [[]|e|c] s1 [Es Hs]; [|apply load_post_fail; [by rewrite Es|done]..]. rewrite <- Es in Hwf, Hd |- *.
  apply (disk_ok_shrinks _ _ _ Hs) in Hd. clear s Es Hs. wp_step.
  eapply wp_mono.
  { apply wp_and; [apply layer_load_files_wp, Hwf|]. apply (wp_moves wf_inv _ (λ _ s', store_wf (snd s'))); [|intros o s' Hk; exact (Hk Hwf)].
    apply moves_foldM; [apply _|]. intros acc i. apply kept_load_location. }
  intros [[cs ids]|e|c] s2 [[Hr Ho] Hwf2]; [|by apply load_post_fail..].
  destruct Ho as (vs & Hl & Hnd & _). specialize (Hnd Hd).
  assert (multi_IsReadWrite (snd s2) = multi_IsReadWrite (snd s1)) as Erw.
  { destruct Hr as [E _]. unfold grows in E. by rewrite E. }
  wp_step. wp_step. rewrite <- Erw. clear s1 Hd Hr Erw Hwf. set (rw := multi_IsReadWrite (snd s2)). clearbody rw.
  wp_step. eapply (wp_moves relabeled); [destruct rw; [apply relabeled_modR|moves_steps]|].
  intros [[]|e|c] s3 E3; [|apply load_post_fail; [by rewrite E3|done]..].
  assert (reg (snd s3) = reg (snd s2)) as Er3 by (by rewrite E3).
  wp_step. wp_step. wp_step. eapply wp_mono; [apply (layer_load_loop_wp rw cs ids vs); by rewrite Er3|].
  assert (store_wf (snd s3)) as Hwf3 by (by rewrite E3). rewrite <- Er3 in Hl. clear s2 E3 Er3 Hwf2.
  intros [x|e|c] s4 [E4 Ho]; [|apply load_post_fail; [by rewrite E4|done]|done]. destruct Ho as [Ht Hn]. specialize (Hn Hnd).
  destruct (bool_decide (x_err x ≠ None) && negb rw) eqn:Eb; [wp_step; apply load_post_fail; [by rewrite E4|]|].
  { apply andb_true_iff in Eb as [Hne%bool_decide_eq_true _]. by intros [= E]. }
  destruct (bool_decide (x_err x ≠ None) && negb b); [wp_step; apply load_post_fail; [by rewrite E4|done]|].
  unfold publish, modR. wp_step. wp_step. fold (load_rest rw x).
  assert (reg (snd s4) = reg (snd s3)) as Er4 by (by rewrite E4). rewrite <- Er4 in *.
  eapply wp_mono; [apply load_rest_wp|done].
  - by apply (published_wf rw cs ids vs).
  - intros Ee Erw i l Hi. by apply (published_complete rw cs ids vs x (snd s4) i l).
Qed.

Lemma layer_load_wp b s :
  store_wf (snd s) → disk_ok (w_files (fst s)) (jsonPath (snd s)) →
  wp (load b) (load_post (multi_IsReadWrite (snd s))) s.
Proof.
  intros Hwf Hd. unfold load. wp_step. wp_step. eapply wp_mono; [by apply layer_load_body_wp|].
  intros [res|e|c] s' [Hwf' Hc]; [by wp_step|wp_step; by split|by split].
Qed.

(** ** Saving and loading again *)

(** The loop when no two records share a name and none is incomplete. *)
Definition good_records (rw : bool) (vs : list Layer) : Prop :=
  Forall (λ l, NoDup (Names l) ∧ (rw = true → complete l)) vs ∧
  ∀ l l' n, l ∈ vs → l' ∈ vs → n ∈ Names l → n ∈ Names l' → ID l = ID l'.

Record clean (rw : bool) (h : gmap positive Layer) (ps : list positive) (x : indexing) : Prop := {
  cl_err : x_err x = None;
  cl_heap q : q ∈ ps → x_heap x !! q = set_ReadOnly (negb rw) <$> h !! q
}.

Lemma load_names_fresh p l names h err locs :
  NoDup l → (∀ n, n ∈ l → names !! n = None) →
  ∃ names', foldl (load_name p) (names, h, err, locs) l = (names', h, err, locs).
Proof.
  intros Hnd. revert names. induction Hnd as [|n l Hn Hnd IH]; intros names Hnew; cbn [foldl]; [by exists names|].
  unfold load_name at 2. rewrite Hnew by left. apply IH. intros n' Hn'.
  rewrite lookup_insert_ne by (by intros <-). apply Hnew. by right.
Qed.

Lemma layer_clean_step rw h ps x p l :
  named rw h ps x → clean rw h ps x → p ∉ ps → h !! p = Some l → NoDup (Names l) → (rw = true → complete l) →
  (∀ q y n, q ∈ ps → h !! q = Some y → n ∈ Names l → n ∉ Names y) →
  clean rw h (ps ++ [p])%list (index_layer rw p l x).
Proof.
  intros Hn Hc Hp Hl Hnd Hcomp Hap. unfold index_layer.
  destruct (load_names_fresh p (Names l) (x_names x) (x_heap x) (x_err x) (x_locations x)) as [names' ->]; [done| |].
  - intros n Hin. destruct (x_names x !! n) as [q|] eqn:Eq; [exfalso|done].
    apply (nm_names _ _ _ _ Hn) in Eq as [Hq (y & Hy & Hny)]. rewrite (cl_heap _ _ _ _ Hc q Hq) in Hy.
    destruct (h !! q) as [z|] eqn:Ez; [|done]. injection Hy as <-. by apply (Hap q z n).
  - split; simpl.
    + destruct (layerHasIncompleteFlag l && rw) eqn:E; [|apply Hc]. apply andb_true_iff in E as [E Erw].
      specialize (Hcomp Erw). unfold complete in Hcomp. congruence.
    + intros q [Hq| ->%list_elem_of_singleton]%elem_of_app.
      * rewrite lookup_alter_ne by (by intros ->). by apply Hc.
      * by rewrite lookup_alter_eq, (nm_other _ _ _ _ Hn).
Qed.

(** Labels that [go-selinux] accepts. *)
Definition label_ok (label : string) : Prop :=
  label = "" ∨ ∀ x : L, snd (ReserveLabelV2 label x) = None ∨ snd (ReserveLabelV2 label x) = Some ErrMCSAlreadyExists.

Lemma reserveLabel_ok label s : label_ok label → snd (reserveLabel label s) = Ret tt.
Proof.
  intros Hl. unfold reserveLabel, getR, modR, gets, modify, mbind, M_bind. case_decide; [done|]. simpl.
  destruct Hl as [?|Hl]; [done|]. destruct (Hl (labels (snd s))) as [-> | ->]; [done|]. by rewrite decide_True.
Qed.

Lemma load_loop_clean rw cs ids vs s :
  fetched' cs ids vs s → good_records rw vs → Forall (λ l, label_ok (l_MountLabel l)) vs →
  let h := heap (reg (snd s)) in
  wp (foldM (load_step rw) (mkIndexing [] ∅ ∅ ∅ ∅ h None 0) cs) (λ o s', relabeled s s' ∧
    ∃ x, o = Ret x ∧ tabled rw h cs x ∧ named rw h cs x ∧ clean rw h cs x) s.
Proof.
  intros Hl [Hgood Hap] Hlab h. rewrite Forall_forall in Hgood. rewrite Forall_forall in Hlab.
  eapply (wp_foldM (λ x rest s', relabeled s s' ∧ ∃ dn, cs = (dn ++ rest)%list ∧ tabled rw h dn x ∧
    named rw h dn x ∧ clean rw h dn x)).
  - split; [done|]. exists []. split; [done|]. split_and!; [apply tabled_nil|apply named_nil|].
    split; [done|]. by intros q ?%elem_of_nil.
  - intros x p rest s1 (Hr & dn & Ecs & Ht & Hn & Hc).
    assert (p ∈ cs) as Hp by (rewrite Ecs; apply elem_of_app; right; left).
    destruct (fetched_value _ _ _ _ _ Hl Hp) as (l & Hlp & Hv). fold h in Hlp.
    assert (p ∉ dn) as Hnew.
    { pose proof (ft_nodup _ _ _ _ Hl) as Hnd. rewrite Ecs in Hnd. apply NoDup_app in Hnd as (_ & Hnd & _).
      intros Hin. apply (Hnd p Hin). left. }
    unfold load_step. rewrite (nm_other _ _ _ _ Hn), Hlp by done. wp_step.
    pose proof (relabeled_reserve (l_MountLabel l) s1) as Hr1.
    pose proof (reserveLabel_ok (l_MountLabel l) s1 (Hlab l Hv)) as He. unfold wp at 1.
    destruct (reserveLabel (l_MountLabel l) s1) as [s2 o]. simpl in *. subst o.
    wp_step. split; [by etrans|]. exists (dn ++ [p])%list. rewrite <- app_assoc. split; [done|].
    destruct (Hgood l Hv) as [Hnd Hcomp]. split_and!.
    + apply tabled_step; [done|]. by rewrite (nm_other _ _ _ _ Hn).
    + by apply named_step.
    + apply layer_clean_step; try done. intros q y n Hq Hy Hnl Hny.
      assert (q ∈ cs) as Hqc by (rewrite Ecs; apply elem_of_app; by left).
      destruct (fetched_value _ _ _ _ _ Hl Hqc) as (y' & Hy' & Hyv). fold h in Hy'. assert (y' = y) as -> by congruence.
      pose proof (Hap l y n Hv Hyv Hnl Hny) as Eid.
      assert (ids !! ID l = Some p) as E1 by (apply (ft_ids _ _ _ _ Hl); fold h; by rewrite Hlp).
      assert (ids !! ID l = Some q) as E2 by (apply (ft_ids _ _ _ _ Hl); fold h; by rewrite Hy, Eid).
      congruence.
  - intros x s1 (Hr & dn & Ecs & Ht & Hn & Hc). rewrite app_nil_r in Ecs. subst dn. split; [done|]. by exists x.
Qed.

Context `{!LayerJSONSpec}.

(** The layers of the location with an index. *)
Definition in_location (i : nat) r : list Layer :=
  filter (λ l, location l = layerLocationFromIndex i) (reg_values (reg r)).

(** The file of a location holds what the memory has for it. *)
Definition in_step s (i : nat) : Prop :=
  ∃ d, Marshal (in_location i (snd s)) = Some d ∧ w_files (fst s) !! default "" (jsonPath (snd s) !! i) = Some d.

(** A record after it was saved and loaded again. *)
Definition reloaded (rw : bool) (l : Layer) : Layer :=
  set_ReadOnly (negb rw) (set_location (location l) (json_layer l)).

Lemma layer_add_fresh loc l vs :
  NoDup (ID <$> l) → (∀ c, c ∈ l → ID c ∉ ID <$> vs) →
  foldl (add_record loc) vs l = (vs ++ (set_location loc <$> l))%list.
Proof.
  revert vs. induction l as [|c l IH]; intros vs Hnd Hvs; [by rewrite app_nil_r|].
  rewrite fmap_cons in Hnd. apply NoDup_cons in Hnd as [Hc Hnd]. cbn [foldl]. unfold add_record at 2.
  rewrite decide_False by (apply Hvs; left). rewrite IH; [by rewrite fmap_cons, <- app_assoc|done|].
  intros d Hd. rewrite fmap_app, elem_of_app. intros [Hd'|Hd'].
  - apply (Hvs d); [by right|done].
  - apply list_elem_of_fmap in Hd' as (c' & E & ->%list_elem_of_singleton). simpl in E.
    apply Hc. rewrite <- E. apply list_elem_of_fmap. by exists d.
Qed.

Lemma layer_in_location_elem i r l : l ∈ in_location i r ↔ l ∈ reg_values (reg r) ∧ location l = layerLocationFromIndex i.
Proof. unfold in_location. rewrite list_elem_of_filter. tauto. Qed.

Lemma reg_values_inj r l l' :
  reg_wf (reg r) → l ∈ reg_values (reg r) → l' ∈ reg_values (reg r) → ID l = ID l' → l = l'.
Proof.
  intros Hwf Hl Hl' E. assert (reg_abs (reg r) !! ID l = Some l) as E1 by (by apply (reg_abs_values _ _ _ Hwf)).
  assert (reg_abs (reg r) !! ID l = Some l') as E2; [|congruence].
  apply (reg_abs_values _ _ _ Hwf). split; [done|]. symmetry. exact E.
Qed.

Lemma in_step_records s i :
  default "" (jsonPath (snd s) !! i) ≠ "" → Forall (λ l, json_safe l = true) (reg_values (reg (snd s))) → in_step s i →
  file_records (w_files (fst s)) (jsonPath (snd s)) i ≫= mapM id = Some (json_layer <$> in_location i (snd s)).
Proof.
  intros Hp Hsafe (d & Hd & Hf). unfold file_records. rewrite Hf. cbn [default from_option].
  rewrite decide_False by (intros [?|E]; [done|]; by apply json_nonempty in Hd). rewrite (json_roundtrip (in_location i (snd s)) d); [|..|done].
  - simpl. rewrite list_fmap_compose. apply mapM_id_Some.
  - apply Forall_forall. intros l [Hl _]%layer_in_location_elem. rewrite Forall_forall in Hsafe. by apply Hsafe.
Qed.

(** The records of some locations as they come back. *)
Definition returned (l : Layer) : Layer := set_location (location l) (json_layer l).

Definition comeback (is_ : list nat) r : list Layer :=
  is_ ≫= λ i, if decide (default "" (jsonPath r !! i) = "") then [] else returned <$> in_location i r.

Lemma comeback_elem is_ r l :
  l ∈ comeback is_ r ↔ ∃ i y, i ∈ is_ ∧ default "" (jsonPath r !! i) ≠ "" ∧ y ∈ in_location i r ∧ l = returned y.
Proof.
  unfold comeback. rewrite list_elem_of_bind. split.
  - intros (i & Hl & Hi). destruct (decide _) as [E|E]; [by apply elem_of_nil in Hl|].
    apply list_elem_of_fmap in Hl as (y & -> & Hy). by exists i, y.
  - intros (i & y & Hi & Hp & Hy & ->). exists i. split; [|done]. rewrite decide_False by done.
    apply list_elem_of_fmap. by exists y.
Qed.

Lemma layerLocation_inj i j : i < 3 → j < 3 → layerLocationFromIndex i = layerLocationFromIndex j → i = j.
Proof. intros Hi Hj. destruct i as [|[|[|?]]], j as [|[|[|?]]]; try lia; done. Qed.

Lemma in_step_values s is_ vs :
  store_wf (snd s) → Forall (λ l, json_safe l = true) (reg_values (reg (snd s))) →
  NoDup is_ → Forall (λ i, i < 3) is_ →
  (∀ i, i ∈ is_ → default "" (jsonPath (snd s) !! i) ≠ "" → in_step s i) →
  (∀ i l, i ∈ is_ → l ∈ in_location i (snd s) → ID l ∉ ID <$> vs) →
  disk_values (w_files (fst s)) (jsonPath (snd s)) vs is_ = Some (vs ++ comeback is_ (snd s))%list.
Proof.
  intros Hwf Hsafe Hnd Hlt. pose proof (reg_values_ids _ (proj1 Hwf)) as Hids. revert vs.
  induction is_ as [|i is_ IH]; intros vs Hstep Hfresh; [by rewrite app_nil_r|]. cbn [disk_values].
  apply NoDup_cons in Hnd as [Hi Hnd]. apply Forall_cons in Hlt as [Hi3 Hlt].
  unfold comeback. cbn [mbind list_bind]. destruct (decide (default "" (jsonPath (snd s) !! i) = "")) as [Ep|Ep].
  { unfold file_records. rewrite decide_True by auto. simpl. apply IH; [done|done|..].
    - intros j Hj. apply Hstep. by right.
    - intros j l Hj. apply Hfresh. by right. }
  rewrite in_step_records; [|done|done|by apply Hstep; [left|]].
  assert (∀ l : list Layer, ID <$> (json_layer <$> l) = ID <$> l) as Ejson.
  { intros l. rewrite <- list_fmap_compose. by apply list_fmap_ext. }
  assert ((set_location (layerLocationFromIndex i) <$> (json_layer <$> in_location i (snd s))) = returned <$> in_location i (snd s)) as Eret.
  { rewrite <- list_fmap_compose. apply list_fmap_ext. intros k l Hk%list_elem_of_lookup_2.
    apply layer_in_location_elem in Hk as [_ E]. unfold returned. by rewrite E. }
  rewrite layer_add_fresh, Eret, app_assoc.
  - apply IH; [done|done| |].
    + intros j Hj. apply Hstep. by right.
    + intros j l Hj Hl. rewrite fmap_app, not_elem_of_app. split; [apply (Hfresh j); [by right|done]|].
      intros (y & E & (z & -> & Hz)%list_elem_of_fmap)%list_elem_of_fmap. simpl in E.
      apply layer_in_location_elem in Hl as [Hl El], Hz as [Hz Ez].
      assert (l = z) as -> by (apply (reg_values_inj (snd s)); [apply Hwf|done..]).
      assert (i = j) as ->; [|done]. apply layerLocation_inj; [done| |congruence]. rewrite Forall_forall in Hlt. by apply Hlt.
  - rewrite Ejson. by apply NoDup_fmap_filter.
  - intros c (l & -> & Hl)%list_elem_of_fmap. simpl. apply (Hfresh i); [left|done].
Qed.

(** *** Runs without failures *)

Lemma GetLastWrite_ok w l : w_faults w = [] → locked l = true → ∃ lw, GetLastWrite (w, l) = ((w, l), Ret lw).
Proof.
  intros Hw Hl. eexists. unfold GetLastWrite, AssertLocked, getL, gets, onWorld, zoom, pop_fault, mbind, M_bind. simpl.
  rewrite Hl. simpl. by rewrite Hw.
Qed.

(** No deletion was interrupted. *)
Definition stale_ids (dir : string) (w : World) : list string :=
  omap (λ entry : string * bool, match TempDir.CutPrefix (fst entry) TempDir.tempDirPrefix with
                                 | Some id => Some id
                                 | None => TempDir.CutPrefix (fst entry) TempDir.tempdirLockPrefix
                                 end) (dir_entries dir w).

Lemma Recover_quiet dir w : w_faults w = [] → stale_ids dir w = [] → TempDir.RecoverStaleDirs dir w = (w, Ret tt).
Proof.
  intros Hw Hs. unfold TempDir.RecoverStaleDirs, TempDir.listPotentialStaleDirs, os_ReadDir, syscall, pop_fault, gets, try, mbind, M_bind.
  rewrite Hw. case_decide; [|done]. simpl. unfold stale_ids in Hs. by rewrite Hs.
Qed.

Definition quiet s : Prop :=
  multi_IsReadWrite (snd s) = true →
  Forall (λ d, stale_ids d (fst s) = []) (filepath_Join [layerdir (snd s); tempDirPath] :: GetTempDirRootDirs (driver (snd s))).

Lemma recover_quiet s : w_faults (fst s) = [] → quiet s → recoverStaleDirs s = (s, Ret tt).
Proof.
  intros Hw Hq. destruct s as [w r]. unfold recoverStaleDirs, getR, gets, mbind, M_bind. simpl in *.
  destruct (multi_IsReadWrite r) eqn:Erw; [|done]. specialize (Hq Erw). apply Forall_cons in Hq as [Hd Hds]. simpl in *.
  assert (∀ d, stale_ids d w = [] → inWorld (TempDir.RecoverStaleDirs d) (w, r) = ((w, r), Ret tt)) as Hone.
  { intros d Hdd. unfold inWorld, zoom. simpl. by rewrite Recover_quiet. }
  rewrite Hone by done. simpl. revert Hds. generalize (GetTempDirRootDirs (driver r)). intros ds Hds.
  induction Hds as [|d ds Hd' Hds IH]; [done|]. cbn [forM]. unfold mbind at 1, M_bind at 1. rewrite Hone by done. exact IH.
Qed.

(** The lock of the mount table is free, and the table can be read. *)
Definition mounts_ready s : Prop :=
  multi_IsReadWrite (snd s) = true →
  ∃ ml, mountsLockfile (snd s) = Some ml ∧ lf_is MFree 0 false None ml ∧ file ml ≠ mountspath (snd s) ∧
    let data := default "" (w_files (fst s) !! mountspath (snd s)) in data = "" ∨ is_Some (UnmarshalMounts data).

Lemma wp_onMounts {A} (m : M LF A) ml (Φ : outcome A → St → Prop) s :
  mountsLockfile (snd s) = Some ml →
  wp m (λ o t, Φ o (fst t, set_mountsLockfile (Some (snd t)) (snd s))) (fst s, ml) → wp (onMounts m) Φ s.
Proof. intros Hm HΦ. unfold wp, onMounts in *. rewrite Hm. by destruct (m (fst s, ml)) as [[w l] o]. Qed.

Lemma loadMounts_ok s :
  w_faults (fst s) = [] →
  (let data := default "" (w_files (fst s) !! mountspath (snd s)) in data = "" ∨ is_Some (UnmarshalMounts data)) →
  wp loadMounts (λ o s', o = Ret tt ∧ w_faults (fst s') = [] ∧ mountsLockfile (snd s') = mountsLockfile (snd s)) s.
Proof.
  intros Hw Hd. unfold loadMounts, getR, modR. wp_step. wp_step. wp_step. eapply wp_mono; [apply layer_read_wp|].
  intros [data|e|c] s1 (Hr & Es & Hdata); [|by destruct Hdata..]. destruct Hdata as [E|[? _]]; [|done]. cbv zeta in Hd. rewrite E in Hd.
  assert (is_Some (if decide (data = "") then Some [] else UnmarshalMounts data)) as [lm Elm].
  { destruct (decide (data = "")); [eauto|]. by destruct Hd. }
  rewrite Elm. wp_step. split; [done|]. split; [apply Hr, Hw|]. simpl.
  destruct (foldl merge_mount _ lm) as [mounts g]. by rewrite Es.
Qed.

Lemma load_rest_ok x s :
  x_err x = None → w_faults (fst s) = [] → mounts_ready s →
  wp (load_rest (multi_IsReadWrite (snd s)) x) (λ o s', o = Ret (false, None) ∧ core_of (snd s') = core_of (snd s)) s.
Proof.
  intros Hx Hw Hm. unfold mounts_ready in Hm. revert Hm. generalize (multi_IsReadWrite (snd s)). intros rw Hm.
  apply wp_and.
  2: { apply (wp_moves same_core); [|done]. unfold load_rest. rewrite Hx.
       destruct rw; moves_steps. apply same_core_withMounts. moves_steps. }
  unfold load_rest. rewrite Hx. wp_step. destruct rw; [|by wp_step; wp_step].
  destruct (Hm eq_refl) as (ml & Hml & Hfree & Hpath & Hdata). unfold withMounts. wp_step. eapply wp_onMounts; [done|].
  destruct (RLock_ok (fst s) ml Hw Hfree) as (w1 & l1 & Er & [Hw1 Hf1] & Hl1 & _). unfold wp at 1. rewrite Er. simpl. clear Er.
  wp_step. wp_step. eapply wp_onMounts; [done|]. destruct (GetLastWrite_ok w1 l1 Hw1) as (lw & Eg); [apply Hl1|].
  unfold wp at 1. simpl. rewrite Eg. simpl. clear Eg. wp_step. eapply wp_mono; [apply loadMounts_ok|].
  - done.
  - simpl. unfold mountspath in *. simpl. rewrite Hf1 by done. done.
  - simpl. intros o s2 (-> & Hw2 & Hl2). unfold modR. wp_step. wp_step. wp_step. eapply wp_onMounts; [exact Hl2|].
    apply (Unlock_wp ReadLock); [exact Hl1|]. intros l' _. simpl. by wp_step.
Qed.

(** Records that come back as they were: valid text, no name twice, not
    incomplete, with a label that can be reserved, and in a location that has a
    file. *)
Definition storable r (l : Layer) : Prop :=
  json_safe l = true ∧ NoDup (Names l) ∧ complete l ∧ label_ok (l_MountLabel l) ∧
  ∃ i, i < numLayerLocationIndex ∧ location l = layerLocationFromIndex i ∧ default "" (jsonPath r !! i) ≠ "".

Lemma json_complete l : complete l → complete (json_layer l).
Proof.
  unfold complete, layerHasIncompleteFlag, json_layer. simpl. rewrite gomap_get_copy.
  destruct (Flags l) as [m|]; [|done]. simpl. rewrite lookup_fmap. by destruct (m !! incompleteFlag) as [[]|].
Qed.

(** What is read from files in step with the memory. *)
Lemma comeback_all r l :
  Forall (storable r) (reg_values (reg r)) →
  l ∈ comeback (seq 0 numLayerLocationIndex) r ↔ ∃ y, y ∈ reg_values (reg r) ∧ l = returned y.
Proof.
  intros Hst. rewrite comeback_elem. split.
  - intros (i & y & _ & _ & [Hy _]%layer_in_location_elem & ->). eauto.
  - intros (y & Hy & ->). rewrite Forall_forall in Hst. destruct (Hst y Hy) as (_ & _ & _ & _ & i & Hi & Hl & Hp).
    exists i, y. rewrite layer_in_location_elem. split_and!; try done. apply elem_of_seq. lia.
Qed.

Lemma comeback_good rw r :
  reg_wf (reg r) → Forall (storable r) (reg_values (reg r)) →
  good_records rw (comeback (seq 0 numLayerLocationIndex) r) ∧
  Forall (λ l, label_ok (l_MountLabel l)) (comeback (seq 0 numLayerLocationIndex) r).
Proof.
  intros Hwf Hst. pose proof Hst as Hst'. rewrite Forall_forall in Hst'. split; [split|].
  - apply Forall_forall. intros l (y & Hy & ->)%comeback_all; [|done]. destruct (Hst' y Hy) as (_ & Hnd & Hc & _).
    split; [done|]. intros _. exact (json_complete y Hc).
  - intros l l' n (y & Hy & ->)%comeback_all (y' & Hy' & ->)%comeback_all; [|done..]. intros Hn Hn'.
    simpl in *. by rewrite (reg_values_names (reg r) y y' n Hwf).
  - apply Forall_forall. intros l (y & Hy & ->)%comeback_all; [|done]. by destruct (Hst' y Hy) as (_ & _ & _ & ? & _).
Qed.

Lemma clean_abs rw cs ids vs x r i l :
  fetched cs ids vs (reg r) → tabled rw (heap (reg r)) cs x → named rw (heap (reg r)) cs x →
  clean rw (heap (reg r)) cs x →
  reg_abs (reg (published cs ids x r)) !! i = Some l ↔ ∃ y, y ∈ vs ∧ ID y = i ∧ l = set_ReadOnly (negb rw) y.
Proof.
  intros Hl Ht Hn Hc. pose proof (published_wf rw cs ids vs x r Hl Ht Hn) as [Hwf _].
  rewrite (reg_abs_lookup _ _ _ Hwf). cbn [reg published set_sums set_reg objs heap]. split.
  - intros (p & Hp & Hx & Hi). rewrite (cl_heap _ _ _ _ Hc p Hp) in Hx.
    destruct (fetched_value _ _ _ _ _ Hl Hp) as (y & Hy & Hv). rewrite Hy in Hx. injection Hx as <-. by exists y.
  - intros (y & Hv & Hi & ->). destruct (fetched_pointer _ _ _ _ _ Hl Hv) as (p & Hy & Hp).
    exists p. split; [done|]. rewrite (cl_heap _ _ _ _ Hc p Hp), Hy. by split.
Qed.

Lemma load_in_step_wp b s s2 :
  store_wf (snd s) → Forall (storable (snd s)) (reg_values (reg (snd s))) →
  (∀ i, i < numLayerLocationIndex → default "" (jsonPath (snd s) !! i) ≠ "" → in_step s i) →
  store_wf (snd s2) → jsonPath (snd s2) = jsonPath (snd s) → w_files (fst s2) = w_files (fst s) →
  w_faults (fst s2) = [] → quiet s2 → mounts_ready s2 →
  wp (load b) (λ o s', o = Ret (false, None) ∧
    abs (snd s') = reloaded (multi_IsReadWrite (snd s2)) <$> abs (snd s)) s2.
Proof.
  intros Hwf Hst Hstep Hwf2 Hjp Hfiles Hw Hq Hmr.
  assert (disk_values (w_files (fst s2)) (jsonPath (snd s2)) [] (seq 0 numLayerLocationIndex) =
          Some (comeback (seq 0 numLayerLocationIndex) (snd s))) as Hdv.
  { rewrite Hfiles, Hjp. apply (in_step_values s _ []); [done| |apply NoDup_seq| | |by intros ? ? _ _ ?%elem_of_nil].
    - eapply Forall_impl; [exact Hst|]. by intros l [? _].
    - by repeat constructor.
    - intros i [_ Hi]%elem_of_seq. by apply Hstep. }
  destruct (comeback_good (multi_IsReadWrite (snd s2)) (snd s) (proj1 Hwf) Hst) as [Hgood Hlab].
  unfold load. wp_step. wp_step. unfold load_body, getR. wp_step. unfold wp at 1. rewrite recover_quiet by done. cbn [snd fst].
  wp_step. eapply wp_mono; [apply layer_load_files_wp, Hwf2|]. cbv zeta.
  intros [[cs ids]|e|c] s3 [Hr Ho]; [|specialize (Ho Hw); congruence..]. destruct Ho as (vs & Hl & _ & Hvs).
  specialize (Hvs Hw). rewrite Hdv in Hvs. injection Hvs as <-.
  assert (multi_IsReadWrite (snd s3) = multi_IsReadWrite (snd s2) ∧ mounts_ready s3 ∧ w_faults (fst s3) = []) as (Erw & Hmr3 & Hw3).
  { destruct Hr as (E & Ef & Hw3). unfold grows in E. split_and!; [by rewrite E| |by apply Hw3].
    unfold mounts_ready, mountspath in *. by rewrite E, Ef. }
  rewrite <- Erw in Hgood |- *. wp_step. wp_step. wp_step.
  eapply (wp_mono _ (λ o s4, o = Ret tt ∧ relabeled s3 s4)); [destruct (multi_IsReadWrite (snd s3)); [|by wp_step]; unfold modR; by wp_step|].
  intros o s4 [-> E4]. wp_step. wp_step. wp_step.
  assert (reg (snd s4) = reg (snd s3)) as Er4 by (by rewrite E4).
  eapply wp_mono; [apply (load_loop_clean _ cs ids (comeback (seq 0 numLayerLocationIndex) (snd s))); [by rewrite Er4|done|done]|].
  intros o s5 (E5 & x & -> & Ht & Hn & Hc). rewrite Er4 in Ht, Hn, Hc. rewrite (cl_err _ _ _ _ Hc). simpl.
  unfold publish, modR. wp_step. wp_step.
  assert (snd s5 = set_labels (labels (snd s5)) (snd s3) ∧ fst s5 = fst s3) as [Er5 Ew5].
  { rewrite E5. rewrite E4. done. }
  set (s6 := (fst s5, _)). assert (snd s6 = set_labels (labels (snd s5)) (published cs ids x (snd s3))) as Er6.
  { unfold s6. simpl. by rewrite Er5. }
  pose proof (load_rest_ok x s6 (cl_err _ _ _ _ Hc)) as Hrest. unfold load_rest in Hrest. rewrite (cl_err _ _ _ _ Hc) in Hrest.
  assert (multi_IsReadWrite (snd s6) = multi_IsReadWrite (snd s3)) as Erw6 by (by rewrite Er6).
  rewrite Erw6 in Hrest. eapply wp_mono; [apply Hrest|].
  - change (w_faults (fst s5) = []). by rewrite Ew5.
  - unfold mounts_ready, mountspath in *. rewrite Er6. change (fst s6) with (fst s5). by rewrite Ew5.
  - intros o s7 [-> E7]. wp_step. split; [done|]. rewrite (abs_core _ _ E7), Er6. unfold abs. rewrite !reg_abs_flat.
    apply map_eq. intros i. rewrite lookup_fmap, !lookup_fmap. apply option_eq. intros l. rewrite !fmap_Some.
    change (reg (set_labels _ ?r)) with (reg r).
    setoid_rewrite (clean_abs _ _ _ _ _ _ _ _ Hl Ht Hn Hc). split.
    + intros (z & (y & (y0 & Hy0 & ->)%comeback_all & Hi & ->) & ->); [|done].
      exists (bare y0). split; [|done]. rewrite fmap_Some. exists y0. split; [|done].
      apply (reg_abs_values _ _ _ (proj1 Hwf)). by split.
    + intros (z & (y0 & [Hy0 Hi]%(reg_abs_values _ _ _ (proj1 Hwf)) & ->)%fmap_Some & ->).
      eexists. split; [exists (returned y0); split; [apply comeback_all; [done|by exists y0]|by split]|done].
Qed.

(** *** What saving writes *)

(** Only the files [ps] change; the records and paths do not. *)
Definition writes (ps : list string) s s' : Prop :=
  (∀ q, q ∉ ps → w_files (fst s') !! q = w_files (fst s) !! q) ∧
  reg (snd s') = reg (snd s) ∧ jsonPath (snd s') = jsonPath (snd s) ∧
  file <$> lockfile (snd s') = file <$> lockfile (snd s).

#[local] Instance writes_preorder ps : PreOrder (writes ps).
Proof.
  split; [by intros s; split_and!|]. intros s1 s2 s3 (F1 & R1 & J1 & L1) (F2 & R2 & J2 & L2). split_and!; try congruence.
  intros q Hq. by rewrite F2, F1.
Qed.

(** A method of a lock file that writes to nothing else. *)
Definition lock_writes {A} (m : M LF A) : Prop :=
  ∀ w l, file (snd (fst (m (w, l)))) = file l ∧
    ∀ q, q ≠ file l → w_files (fst (fst (m (w, l)))) !! q = w_files w !! q.

Lemma lock_writes_Assert : lock_writes AssertLockedForWriting.
Proof.
  intros w l. unfold AssertLockedForWriting, AssertLocked, getL, gets, mbind, M_bind. simpl.
  destruct (locked l); simpl; [|done]. by destruct (lockType l).
Qed.

Lemma lock_writes_Record : lock_writes RecordWrite.
Proof.
  intros w l. pose proof (same_lf_RecordWrite (w, l)) as E. unfold same_lf in E. simpl in E. rewrite E. split; [done|].
  clear E. intros q Hq. unfold RecordWrite, AssertLockedForWriting, AssertLocked, getL, gets, mbind, M_bind, onWorld, zoom. simpl.
  destruct (locked l); simpl; [|done]. destruct (lockType l); simpl; [done|]. rewrite newLastWrite_run. simpl.
  unfold serialize, pop_fault, modify. simpl.
  destruct (w_faults w) as [|[|e|n|] fl]; simpl; try done; (case_decide || idtac); simpl; rewrite ?lookup_insert_ne by done; try done.
  all: destruct (decide _); simpl; by rewrite ?lookup_insert_ne by done.
Qed.

Lemma writes_onLock {A} i (m : M LF A) ps :
  lock_writes m → moves (λ s s', file <$> lockfile (snd s) ⊆+ ps → writes ps s s') (onLock i m).
Proof.
  intros Hm [w r] Hps. unfold onLock. simpl. destruct (lockfile r !! i) as [l|] eqn:El; [|done].
  destruct (Hm w l) as [Ef Hf]. destruct (m (w, l)) as [[w' l'] o]. simpl in *. split_and!; try done.
  - intros q Hq. apply Hf. intros ->. apply Hq. eapply elem_of_submseteq; [|exact Hps].
    apply list_elem_of_fmap. exists l. split; [done|]. by eapply list_elem_of_lookup_2.
  - simpl. rewrite list_fmap_insert, Ef. apply list_insert_id. by rewrite list_lookup_fmap, El.
Qed.

(** The lock files may change. *)
Definition lock_step s s' : Prop := writes (file <$> lockfile (snd s)) s s'.

#[local] Instance lock_step_preorder : PreOrder lock_step.
Proof.
  split; [by intros s|]. intros s1 s2 s3 W1 W2. unfold lock_step in *.
  assert (file <$> lockfile (snd s2) = file <$> lockfile (snd s1)) as E by apply W1. rewrite E in W2. by etrans.
Qed.

Lemma lock_step_onLock {A} i (m : M LF A) : lock_writes m → moves lock_step (onLock i m).
Proof. intros Hm s. by apply (writes_onLock i m _ Hm s). Qed.

Lemma lock_step_start : moves lock_step (_ ← writable; _ ← multi_AssertLockedForWriting; lw ← multi_RecordWrite; modR (set_lastWrite lw)).
Proof.
  assert (∀ i, moves lock_step (onLock i RecordWrite)) as Hrw by (intros i; apply lock_step_onLock, lock_writes_Record).
  assert (∀ i, moves lock_step (onLock i AssertLockedForWriting)) as Has by (intros i; apply lock_step_onLock, lock_writes_Assert).
  unfold writable, multi_AssertLockedForWriting, multi_RecordWrite, each_lock, getR. moves_steps.
  all: by intros [w r]; split_and!.
Qed.

Lemma writes_inWorld {A} p (m : M World A) :
  (∀ w q, q ≠ p → w_files (fst (m w)) !! q = w_files w !! q) → moves (writes [p]) (inWorld m).
Proof.
  intros Hm [w r]. specialize (Hm w). unfold inWorld, zoom. simpl. destruct (m w) as [w' o]. split_and!; try done.
  intros q [Hq _]%not_elem_of_cons. by apply Hm.
Qed.

Lemma files_syscall {A} (m : M World A) p w :
  (∀ w q, q ≠ p → w_files (fst (m w)) !! q = w_files w !! q) →
  ∀ q, q ≠ p → w_files (fst (syscall m w)) !! q = w_files w !! q.
Proof.
  intros Hm q Hq. unfold syscall, pop_fault, mbind, M_bind.
  destruct (w_faults w) as [|[|e|n|] l]; simpl; try done; by rewrite Hm.
Qed.

(** One location. *)
Lemma layer_save_location_ret locs sync i s s' :
  save_location locs sync i s = (s', Ret tt) →
  let p := default "" (jsonPath (snd s) !! i) in
  (Z.land (layerLocationFromIndex i) locs ≠ 0%Z → p ≠ "" ∧ writes [p] s s' ∧ in_step s' i) ∧
  (Z.land (layerLocationFromIndex i) locs = 0%Z → s' = s).
Proof.
  intros Hrun p. unfold save_location in Hrun. case_decide as E; [injection Hrun as ->; by split|]. split; [intros _|done].
  apply run_bind_ret in Hrun as (s0 & rpath & [= <- <-] & Hrun). fold p in Hrun. case_decide as Ep; [done|]. split; [done|].
  apply run_bind_ret in Hrun as (s1 & [] & H1' & Hrun). apply run_bind_ret in Hrun as (s1' & ls & [= <- <-] & Hrun).
  assert (writes [p] s s1) as W1.
  { replace s1 with (fst (inWorld (os_MkdirAll (filepath_Dir p)) s)) by (by rewrite H1').
    apply writes_inWorld. intros w. by apply files_syscall. }
  destruct (Marshal _) as [d|] eqn:Ed; [|done]. apply run_bind_ret in Hrun as (s1' & mode & [= <- <-] & Hrun).
  apply run_bind_ret in Hrun as (s2 & [] & H2' & Hrun).
  assert (writes [p] s1 s2) as W2.
  { destruct sync; [|by injection H2' as <-]. destruct (SyncMode_ _); [by injection H2' as <-| |done].
    replace s2 with (fst (inWorld (Syncfs (filepath_Dir p)) s1)) by (by rewrite H2').
    apply writes_inWorld. intros w. by apply files_syscall. }
  apply run_bind_ret in Hrun as (s3 & t & H3' & Hrun). unfold modR, modify in Hrun. injection Hrun as <-.
  assert (writes [p] s2 s3 ∧ w_files (fst s3) !! p = Some d) as [W3 Hd].
  { revert H3'. destruct s2 as [w r]. unfold inWorld, zoom, AtomicWriteFileWithOpts, syscall, pop_fault, modify, gets, mbind, M_bind. simpl.
    assert (∀ w0 b, w_files w0 = w_files w → writes [p] (w, r) (put_file b p d w0, r) ∧ w_files (put_file b p d w0) !! p = Some d) as Hput.
    { intros w0 b0 E0. split; [|simpl; by rewrite lookup_insert_eq]. split_and!; try done. intros q [Hq _]%not_elem_of_cons. simpl.
      rewrite E0. apply lookup_insert_ne. by intros <-. }
    destruct (w_faults w) as [|[|e|n|] l]; simpl; intros [= <- _]; by apply Hput. }
  assert (writes [p] s s3) as W by (by etrans; [|etrans]). split; [by destruct s3|].
  exists d. simpl. destruct W as (_ & Er & Ej & _). unfold in_location. rewrite Ej. fold p. split; [|done].
  simpl. rewrite Er. rewrite <- Ed. f_equal. by rewrite (proj1 (proj2 W1)).
Qed.

(** The JSON files of different locations and the lock files differ. *)
Definition paths_apart r : Prop :=
  (∀ i j, i < numLayerLocationIndex → j < numLayerLocationIndex → default "" (jsonPath r !! i) ≠ "" →
     default "" (jsonPath r !! i) = default "" (jsonPath r !! j) → i = j) ∧
  ∀ i, i < numLayerLocationIndex → default "" (jsonPath r !! i) ≠ "" →
     default "" (jsonPath r !! i) ∉ file <$> lockfile r.

Lemma in_step_writes ps s s' i :
  writes ps s s' → default "" (jsonPath (snd s) !! i) ∉ ps → in_step s i → in_step s' i.
Proof.
  intros (Hf & Er & Ej & _) Hp (d & Hd & Hfile). exists d. unfold in_location in *. by rewrite Er, Ej, Hf.
Qed.

Lemma paths_apart_writes ps s s' : writes ps s s' → paths_apart (snd s) → paths_apart (snd s').
Proof. intros (_ & _ & Ej & El). unfold paths_apart. by rewrite Ej, El. Qed.

Lemma save_locations_ret locs sync is_ s s' :
  NoDup is_ → Forall (λ i, i < numLayerLocationIndex) is_ → paths_apart (snd s) →
  forM is_ (save_location locs sync) s = (s', Ret tt) →
  reg (snd s') = reg (snd s) ∧ jsonPath (snd s') = jsonPath (snd s) ∧
  ∀ i, i < numLayerLocationIndex → default "" (jsonPath (snd s) !! i) ≠ "" →
    (i ∈ is_ ∧ Z.land (layerLocationFromIndex i) locs ≠ 0%Z) ∨ in_step s i → in_step s' i.
Proof.
  intros Hnd. revert s. induction Hnd as [|j is_ Hj Hnd IH]; intros s Hlt Hap Hrun; cbn [forM] in Hrun.
  { injection Hrun as <-. split_and!; try done. by intros i _ _ [[?%elem_of_nil _]|?]. }
  apply Forall_cons in Hlt as [Hj3 Hlt]. apply run_bind_ret in Hrun as (s1 & [] & H1' & Hrun).
  destruct (layer_save_location_ret _ _ _ _ _ H1') as [Hsave Hskip].
  assert (∃ ps, writes ps s s1 ∧ (∀ i, i < numLayerLocationIndex → default "" (jsonPath (snd s) !! i) ≠ "" →
    default "" (jsonPath (snd s) !! i) ∈ ps → i = j) ∧ (Z.land (layerLocationFromIndex j) locs ≠ 0%Z → in_step s1 j)) as (ps & W & Hps & Hin).
  { destruct (decide (Z.land (layerLocationFromIndex j) locs = 0%Z)) as [E|E].
    - exists []. rewrite (Hskip E). split_and!; [done| |done]. by intros i _ _ ?%elem_of_nil.
    - destruct (Hsave E) as (Hp & W & Hst). eexists. split_and!; [exact W| |done].
      intros i Hi Hpi Eq%list_elem_of_singleton. by apply Hap. }
  destruct (IH s1 Hlt) as (Er & Ej & Hall); [by eapply paths_apart_writes|done|].
  pose proof W as (_ & Er1 & Ej1 & _). split_and!; [congruence|congruence|]. rewrite Ej1 in Hall.
  intros i Hi Hp [[[->|Hin_]%elem_of_cons Hz]|Hst].
  - apply Hall; [done..|]. right. by apply Hin.
  - apply Hall; [done..|]. by left.
  - destruct (decide (i ∈ is_ ∧ Z.land (layerLocationFromIndex i) locs ≠ 0%Z)); [by apply Hall; auto|].
    apply Hall; [done..|]. right. destruct (decide (i = j)) as [->|Hne].
    + destruct (decide (Z.land (layerLocationFromIndex j) locs = 0%Z)) as [E|E]; [by rewrite (Hskip E)|by apply Hin].
    + eapply in_step_writes; [exact W| |done]. intros Hin'. by apply Hne, (Hps i).
Qed.

Lemma saveLayers_ret locs sync s s' :
  paths_apart (snd s) → saveLayers locs sync s = (s', Ret tt) →
  reg (snd s') = reg (snd s) ∧ jsonPath (snd s') = jsonPath (snd s) ∧
  ∀ i, i < numLayerLocationIndex → default "" (jsonPath (snd s) !! i) ≠ "" →
    Z.land (layerLocationFromIndex i) locs ≠ 0%Z ∨ in_step s i → in_step s' i.
Proof.
  intros Hap Hrun. unfold saveLayers in Hrun. apply run_bind_ret in Hrun as (s1 & [] & H1' & Hrun).
  apply run_bind_ret in Hrun as (s2 & [] & H2' & Hrun). apply run_bind_ret in Hrun as (s3 & lw & H3' & Hrun).
  apply run_bind_ret in Hrun as (s4 & [] & H4' & Hrun).
  assert (lock_step s s4) as W.
  { pose proof (lock_step_start s) as Hl. unfold mbind, M_bind in Hl. by rewrite H1', H2', H3', H4' in Hl. }
  destruct (save_locations_ret locs sync (seq 0 numLayerLocationIndex) s4 s') as (Er & Ej & Hall).
  - apply NoDup_seq.
  - by repeat constructor.
  - by eapply paths_apart_writes.
  - done.
  - pose proof W as (_ & Er1 & Ej1 & _). rewrite Ej1 in *. split_and!; [congruence|congruence|].
    intros i Hi Hp Hs. apply Hall; [done..|]. destruct Hs as [Hz|Hst]; [left|right].
    + split; [|done]. apply elem_of_seq. lia.
    + eapply in_step_writes; [exact W| |done]. by apply Hap.
Qed.

(** ** Theorems *)

(** [load] builds consistent indexes from whatever the files hold, also when
    several layers claim a name or are left incomplete, as long as no single
    record has a name twice; and when it succeeds on a store that can be
    written, no layer is incomplete.  An error or a crash at any point leaves
    the indexes consistent too. *)
Theorem layer_load_establishes_invariant b s :
  store_wf (snd s) → disk_ok (w_files (fst s)) (jsonPath (snd s)) →
  let '(s', o) := load b s in
  store_wf (snd s') ∧
  (o = Ret (false, None) → multi_IsReadWrite (snd s) = true → ∀ i l, abs (snd s') !! i = Some l → complete l).
Proof. intros Hwf Hd. apply run_wp. by apply layer_load_wp. Qed.

(** The states that the use of the store from [s] leads to: the methods of [op],
    in any order, each with whatever result, where callers leave the mark of
    incomplete layers alone; loading files in which no single record has a name
    twice; and in between changes of everything but the index, by locking and by
    other processes. *)
Inductive reached (fuel : nat) (s : St) : St → Prop :=
  | reached_start : reached fuel s s
  | reached_op o s' : reached fuel s s' → benign o → reached fuel s (fst (run_op fuel o s'))
  | reached_load b s' : reached fuel s s' → disk_ok (w_files (fst s')) (jsonPath (snd s')) → reached fuel s (fst (load b s'))
  | reached_outside s' s'' : reached fuel s s' → same_core s' s'' → reached fuel s s''.

Lemma layer_reached_exec fuel ops s s' : Forall benign ops → reached fuel s s' → reached fuel s (exec fuel ops s').
Proof.
  intros Hb. unfold exec. revert s'. induction Hb as [|o ops Ho _ IH]; intros s' Hr; [done|]. simpl. by apply IH, reached_op.
Qed.

(** C3: The index of the layer store stays consistent: after any sequence of
    [create], [Delete] (at once or deferred), [updateNames], [Wipe],
    [SetMetadata], [SetBigData], [Mount], [Unmount], [ApplyDiff],
    [GarbageCollect], of [SetFlag] and [ClearFlag] for any flag but the mark of
    incomplete layers, and of loads of files in which no single record has a
    name twice, with any changes of the files and the locks in between, whatever
    system calls or driver operations fail and however each call ends: every
    identifier and every name leads to exactly the layer that has it, the prefix
    index holds exactly the valid identifiers, and the two maps from digests list
    only layers that have the digest, once each, and every complete layer with a
    digest. *)
Theorem layers_invariant fuel s s' :
  store_wf (snd s) → reached fuel s s' → store_wf (snd s').
Proof.
  intros Hwf. induction 1 as [|o s' _ IH Hb|b s' _ IH Hd|s' s'' _ IH E]; [done|by apply layer_kept_run_op| |by eapply store_wf_core].
  by destruct (layer_load_wp b s' IH Hd).
Qed.

(** C37: Saving and loading.  Suppose that the index of the store is consistent,
    that the files of its locations and its lock files are different files, and
    that each layer is [storable]: valid text, no name twice, not incomplete, a
    label that can be reserved, a location that has a file.  Suppose that
    [saveLayers] succeeds on locations such that the files of all others are
    in step with the memory.  Then a store with a consistent index on the same files loads exactly the layers that were saved, each in its location, a record only losing what JSON
    does not keep, and [load] returns no error, if no system call fails and, for
    a writable store, no deletion is left over in the temporary directories, the
    lock of the mount table is free and the table can be read. *)
Theorem layer_save_load_roundtrip locs sync b s s1 s2 :
  store_wf (snd s) → paths_apart (snd s) → Forall (storable (snd s)) (reg_values (reg (snd s))) →
  (∀ i, i < numLayerLocationIndex → default "" (jsonPath (snd s) !! i) ≠ "" →
     Z.land (layerLocationFromIndex i) locs ≠ 0%Z ∨ in_step s i) →
  saveLayers locs sync s = (s1, Ret tt) →
  store_wf (snd s2) → jsonPath (snd s2) = jsonPath (snd s) → w_files (fst s2) = w_files (fst s1) →
  w_faults (fst s2) = [] → quiet s2 → mounts_ready s2 →
  let '(s', o) := load b s2 in
  o = Ret (false, None) ∧ abs (snd s') = reloaded (multi_IsReadWrite (snd s2)) <$> abs (snd s).
Proof.
  intros Hwf Hap Hst Hstep Hsave Hwf2 Hjp Hf Hw Hq Hm.
  destruct (saveLayers_ret locs sync s s1 Hap Hsave) as (Er & Ej & Hall). apply run_wp.
  assert (abs (snd s1) = abs (snd s)) as <- by (unfold abs; by rewrite Er).
  apply load_in_step_wp; rewrite ?Ej; try done.
  - eapply store_wf_core; [|exact Hwf]. pose proof (same_core_saveLayers locs sync s) as Hc. by rewrite Hsave in Hc.
  - rewrite Er. eapply Forall_impl; [exact Hst|]. intros l Hl. unfold storable. by rewrite Ej.
  - intros i Hi Hp. apply Hall; auto.
Qed.
End Load.

(** ** Witnesses *)

Import LayerDemo.

Notation load' := (load (T := gset string) (D := nameDriver) (L := gset string)).
Notation saveLayers' := (saveLayers (T := gset string) (D := nameDriver) (L := gset string)).

(** A file in which two layers claim a name, the second one incomplete. *)
Definition demo_record (id name : string) (flags : gomap any) : Layer :=
  mkLayer id [name] "" "" "" "" 0 0 "" 0 "sha256:d" "" 0 0 [] [] flags None None false 0 [].

Definition demo_left : demo_st :=
  (set_files (<["/s/layers.json" := default "" (Marshal [demo_record "a1" "x" None;
      demo_record "b2" "x" (Some {[incompleteFlag := ABool true]})])]> (w_files demo_world)) demo_world, snd demo_empty).

Lemma demo_left_ok : disk_ok (w_files (fst demo_left)) (jsonPath (snd demo_left)).
Proof.
  intros i l x Hl Hx. destruct i as [|[|[|i]]]; vm_compute in Hl; injection Hl as <-; [|by apply elem_of_nil in Hx..].
  apply elem_of_cons in Hx as [[= ->]|[[= ->]|[]%elem_of_nil]%elem_of_cons]; apply NoDup_singleton.
Qed.

(** The files with the layer that two claim are loaded, another layer is added,
    and the first one is deleted. *)
Lemma layers_invariant_witness :
  let s := exec' [OpCreate "c3" None ["y"] "" None None true None; OpDelete "a1"] (fst (load' true demo_left)) in
  map_size (abs (snd s)) = 1 ∧ store_wf (snd s).
Proof.
  intros s. split; [by vm_compute|]. apply (layers_invariant 8 demo_left); [apply layer_demo_empty_wf|].
  apply layer_reached_exec; [by rewrite !Forall_cons|]. apply reached_load; [apply reached_start|apply demo_left_ok].
Defined.

Lemma layer_load_establishes_invariant_witness :
  snd (load' true demo_left) = Ret (false, None) ∧ map_size (abs (snd (fst (load' true demo_left)))) = 1 ∧
  (let '(s', o) := load' true demo_left in
   store_wf (snd s') ∧ (o = Ret (false, None) → multi_IsReadWrite (snd demo_left) = true →
                        ∀ i l, abs (snd s') !! i = Some l → complete l)).
Proof.
  split; [by vm_compute|]. split; [by vm_compute|].
  pose proof (layer_load_establishes_invariant true demo_left layer_demo_empty_wf demo_left_ok) as Hl. exact Hl.
Defined.

(** Both layers of [demo_two] are saved, and loaded by a new store. *)
Definition demo_saved : demo_st := fst (saveLayers' 5 true demo_two).
Definition demo_other : demo_st := (fst demo_saved, snd demo_empty).

Definition demo_check (l : Layer) : bool :=
  json_safe l && bool_decide (length (Names l) = 1) && negb (layerHasIncompleteFlag l) &&
  bool_decide (l_MountLabel l = "") && bool_decide (location l = 1%Z).

Lemma check_storable (r : layerStore (gset string) nameDriver (gset string)) l :
  demo_check l = true → default "" (jsonPath r !! 0) = "/s/layers.json" → storable r l.
Proof.
  unfold demo_check. rewrite !andb_true_iff, !bool_decide_eq_true, negb_true_iff. intros ((((Hj & Hn) & Hc) & Hm) & Hloc) Ep.
  split_and!; [done| |done|by left|].
  - destruct (Names l) as [|n [|? ?]]; try done. apply NoDup_singleton.
  - exists 0. split; [unfold numLayerLocationIndex; lia|]. split; [done|]. by rewrite Ep.
Qed.

Lemma demo_storable : Forall (storable (snd demo_two)) (reg_values (reg (snd demo_two))).
Proof.
  assert (forallb demo_check (reg_values (reg (snd demo_two))) = true) as Hb by (vm_compute; reflexivity).
  assert (default "" (jsonPath (snd demo_two) !! 0) = "/s/layers.json") as Ep by (vm_compute; reflexivity).
  rewrite forallb_forall in Hb. apply Forall_forall. intros l Hl%list_elem_of_In%Hb. exact (check_storable _ l Hl Ep).
Qed.

Lemma demo_apart : paths_apart (snd demo_two).
Proof.
  assert (jsonPath (snd demo_two) = jsonPath (snd demo_empty)) as Ej by (vm_compute; reflexivity).
  assert (file <$> lockfile (snd demo_two) = ["/s/layers.lock"]) as El by (vm_compute; reflexivity).
  unfold paths_apart. rewrite Ej, El. clear Ej El. split.
  - intros i j Hi Hj. unfold numLayerLocationIndex in *. destruct i as [|[|[|?]]], j as [|[|[|?]]]; try lia; by vm_compute.
  - intros i Hi. unfold numLayerLocationIndex in *. destruct i as [|[|[|?]]]; try lia; vm_compute; intros Hp Hin; try done;
      by apply list_elem_of_singleton in Hin.
Qed.

Lemma empty_mounts_ready (w : World) data ms :
  w_files w !! "/r/mountpoints.json" = Some data → UnmarshalMounts data = Some ms → mounts_ready (w, snd demo_empty).
Proof.
  intros Hn Hu _. eexists. split; [reflexivity|]. split; [done|]. split; [by vm_compute|]. right. cbv zeta.
  change (mountspath (snd (w, snd demo_empty))) with "/r/mountpoints.json". unfold fst. rewrite Hn. by eexists.
Qed.

Lemma demo_jsonPath : jsonPath (snd demo_empty) = jsonPath (snd demo_two).
Proof. vm_compute; reflexivity. Qed.

Lemma demo_locations i : i < numLayerLocationIndex → default "" (jsonPath (snd demo_two) !! i) ≠ "" →
  Z.land (layerLocationFromIndex i) 5 ≠ 0%Z ∨ in_step demo_two i.
Proof.
  rewrite <- demo_jsonPath. unfold numLayerLocationIndex. intros Hi Hp. left. destruct i as [|[|[|?]]]; try lia; [by vm_compute|by destruct Hp|by vm_compute].
Qed.

Lemma demo_saves : saveLayers' 5 true demo_two = (demo_saved, Ret tt).
Proof. vm_compute; reflexivity. Qed.

Lemma demo_no_faults : w_faults (fst demo_other) = [].
Proof. vm_compute; reflexivity. Qed.

Lemma empty_quiet (w : World) : stale_ids (filepath_Join ["/s"; tempDirPath]) w = [] → quiet (w, snd demo_empty).
Proof. intros Hs _. constructor; [exact Hs|]. constructor. Qed.

Lemma demo_quiet : quiet demo_other.
Proof. apply empty_quiet. vm_compute; reflexivity. Qed.

Lemma demo_files : w_files (fst demo_other) = w_files (fst demo_saved).
Proof. unfold demo_other. cbn [fst]. reflexivity. Qed.

Lemma demo_mounts_ready : mounts_ready demo_other.
Proof.
  eapply empty_mounts_ready; [vm_compute; reflexivity|]. vm_compute; reflexivity.
Qed.

Lemma layer_save_load_roundtrip_witness :
  map_size (abs (snd demo_two)) = 2 ∧
  (let '(s', o) := load' true demo_other in
   o = Ret (false, None) ∧ abs (snd s') = reloaded (multi_IsReadWrite (snd demo_other)) <$> abs (snd demo_two)).
Proof.
  split; [vm_compute; reflexivity|].
  pose proof (layer_save_load_roundtrip 5 true true demo_two demo_saved demo_other layer_demo_two_wf demo_apart demo_storable
    demo_locations demo_saves layer_demo_empty_wf demo_jsonPath demo_files demo_no_faults demo_quiet demo_mounts_ready) as Hr.
  exact Hr.
Defined.
End LayerLoad.
