(* ===== verification/Store.v ===== *)
(** * The store: state, locks and the order of the component stores

    [store.go] composes one layer store, one image store and one container
    store that can be written, and any number of read-only layer and image
    stores.  Here: its state, the graph driver and the layer stores that it
    makes on demand, and the helpers that lock the component stores in the
    documented order around a function.  [StoreOps] has the operations.

    The Go object holds pointers, and several of them lead to one object: all
    layer stores share the graph driver they were made with, an additional
    image store is both in [rwImageStores] and in [roImageStores], and the
    labels of SELinux and the table of lock files belong to the process.  So
    the drivers, layer stores and image stores are in lists, and a pointer is
    a position. *)

From S2P Require Import Prelude World Paths StoreUtil Json IdTools IdSet TruncIndex LockFile TempDir Registry.
From S2P Require Import StoreLock ContainerStore ImageStore GraphDriver LayerData LayerStore.

Local Open Scope string_scope.

Module Stores.

(** ** Interfaces *)

(** [drivers.Options] *)
Record Options := mkOptions {
  Root : string;
  ImageStore : string;
  RunRoot : string;
  DriverPriority : list string;
  DriverOptions : list string
}.

(** What [store.go] uses of a graph driver beyond the layer store: the
    constructor [drivers.New] and the methods that layer stores do not call;
    [StartStagingDiffToApply] belongs to the optional interface of
    [CommitStagedLayer] and yields a clean-up function also with an error. *)
Class Drivers (D : Type) := {
  New : string → Options → M World D;
  String_ : D → string;
  AdditionalImageStores : D → list string;
  DriverCleanup : M (World * D) unit;
  StartStagingDiffToApply :
    option (string → ApplyDiffOpts → M (World * D) (option (M (World * D) unit) * string * Z * option error))
}.

(** [label.InitLabels]: the label of processes and the one of mounts. *)
Class Labels (L : Type) := InitLabels : list string → L → L * ((string * string) + error).

(** ** State *)

(** The fields that the code sets once, from the options of the caller. *)
Record storeConf := mkStoreConf {
  runRoot : string;
  graphDriverPriority : list string;
  graphRoot : string;
  graphOptions : list string;
  imageStoreDir : string;
  uidMap : IDMaps;
  gidMap : IDMaps;
  autoUsernsUser : string;
  autoNsMinSize : Z;
  autoNsMaxSize : Z;
  disableVolatile : bool;
  transientStore : bool
}.

Section Store.
Context {T : Type} `{PatriciaTrie T} {IS : Type} `{IntervalSet IS}.
Context {D : Type} `{GraphDriver D} `{Drivers D} {L : Type} `{Selinux L} `{Labels L}.
Context `{Containers.ContainerJSON} `{Images.ImageJSON} `{LayerData.LayerJSON}.
Context `{Digests} `{Streams} `{MapRange} `{Layers.SortCreated}.

Notation layerStore := (Layers.layerStore T D L).
Notation imageStore_t := (rstore string (Images.imageMem T)).
Notation containerStore_t := (rstore Containers.containerConf (Containers.containerMem T)).

(** What pointers lead to, and what belongs to the process. *)
Record storeHeap := mkHeap {
  drivers : list D;
  layerStores : list (nat * layerStore);     (* with the driver it uses *)
  imageStores : list imageStore_t;
  lockfiles : gmap string LockFile;
  labels : L
}.

Record store := mkStore {
  conf : storeConf;
  graphDriverName : string;
  graphLock : LockFile;
  usernsLock : LockFile;
  imageStore : nat;
  rwImageStores : list nat;
  roImageStores : list nat;
  containerStore : containerStore_t;
  digestLockRoot : string;
  graphLockLastWrite : LastWrite;
  graphDriver : nat;
  layerStoreUseGetters : option nat;
  roLayerStoresUseGetters : list nat;
  heap : storeHeap
}.

Definition set_graphLock (x : LockFile) (s : store) : store :=
  mkStore (conf s) (graphDriverName s) x (usernsLock s) (imageStore s) (rwImageStores s) (roImageStores s)
    (containerStore s) (digestLockRoot s) (graphLockLastWrite s) (graphDriver s) (layerStoreUseGetters s)
    (roLayerStoresUseGetters s) (heap s).
Definition set_usernsLock (x : LockFile) (s : store) : store :=
  mkStore (conf s) (graphDriverName s) (graphLock s) x (imageStore s) (rwImageStores s) (roImageStores s)
    (containerStore s) (digestLockRoot s) (graphLockLastWrite s) (graphDriver s) (layerStoreUseGetters s)
    (roLayerStoresUseGetters s) (heap s).
Definition set_containerStore (x : containerStore_t) (s : store) : store :=
  mkStore (conf s) (graphDriverName s) (graphLock s) (usernsLock s) (imageStore s) (rwImageStores s) (roImageStores s)
    x (digestLockRoot s) (graphLockLastWrite s) (graphDriver s) (layerStoreUseGetters s)
    (roLayerStoresUseGetters s) (heap s).
Definition set_graphDriver (lw : LastWrite) (d : nat) (ls : option nat) (s : store) : store :=
  mkStore (conf s) (graphDriverName s) (graphLock s) (usernsLock s) (imageStore s) (rwImageStores s) (roImageStores s)
    (containerStore s) (digestLockRoot s) lw d ls (roLayerStoresUseGetters s) (heap s).
Definition set_layerStores (ls : option nat) (ro : list nat) (s : store) : store :=
  mkStore (conf s) (graphDriverName s) (graphLock s) (usernsLock s) (imageStore s) (rwImageStores s) (roImageStores s)
    (containerStore s) (digestLockRoot s) (graphLockLastWrite s) (graphDriver s) ls ro (heap s).
Definition set_heap (x : storeHeap) (s : store) : store :=
  mkStore (conf s) (graphDriverName s) (graphLock s) (usernsLock s) (imageStore s) (rwImageStores s) (roImageStores s)
    (containerStore s) (digestLockRoot s) (graphLockLastWrite s) (graphDriver s) (layerStoreUseGetters s)
    (roLayerStoresUseGetters s) x.

Definition set_drivers (x : list D) (h : storeHeap) : storeHeap :=
  mkHeap x (layerStores h) (imageStores h) (lockfiles h) (labels h).
Definition set_heapLayers (x : list (nat * layerStore)) (h : storeHeap) : storeHeap :=
  mkHeap (drivers h) x (imageStores h) (lockfiles h) (labels h).
Definition set_heapImages (x : list imageStore_t) (h : storeHeap) : storeHeap :=
  mkHeap (drivers h) (layerStores h) x (lockfiles h) (labels h).
Definition set_lockfiles (x : gmap string LockFile) (h : storeHeap) : storeHeap :=
  mkHeap (drivers h) (layerStores h) (imageStores h) x (labels h).
Definition set_heapLabels (x : L) (h : storeHeap) : storeHeap :=
  mkHeap (drivers h) (layerStores h) (imageStores h) (lockfiles h) x.

Notation St := (World * store)%type.

Definition getS {A} (f : store → A) : M St A := gets (λ s, f (snd s)).
Definition modS (f : store → store) : M St unit := modify (λ s, (fst s, f (snd s))).
Definition modHeap (f : storeHeap → storeHeap) : M St unit := modS (λ s, set_heap (f (heap s)) s).
Definition inWorld {A} (m : M World A) : M St A := zoom fst (λ w s, (w, snd s)) m.
Definition onGraphLock {A} (m : M LF A) : M St A :=
  zoom (λ s, (fst s, graphLock (snd s))) (λ t s, (fst t, set_graphLock (snd t) (snd s))) m.
Definition onUsernsLock {A} (m : M LF A) : M St A :=
  zoom (λ s, (fst s, usernsLock (snd s))) (λ t s, (fst t, set_usernsLock (snd t) (snd s))) m.

Definition nil_dereference {A} : M St A := stop (Panic "invalid memory address or nil pointer dereference").

(** A method of the driver at [d]. *)
Definition onDriver {A} (d : nat) (m : M (World * D) A) : M St A := λ s,
  match drivers (heap (snd s)) !! d with
  | None => nil_dereference s
  | Some drv =>
      let '((w, drv'), o) := m (fst s, drv) in
      ((w, set_heap (set_drivers (<[d := drv']> (drivers (heap (snd s)))) (heap (snd s))) (snd s)), o)
  end.

(** A method of the layer store at [h], which works on the shared driver and
    on the labels of the process. *)
Definition put_layerStore (h d : nat) (r : layerStore) (x : storeHeap) : storeHeap :=
  mkHeap (<[d := Layers.driver r]> (drivers x)) (<[h := (d, r)]> (layerStores x)) (imageStores x) (lockfiles x)
    (Layers.labels r).

Definition onLayers {A} (h : nat) (m : M (World * layerStore) A) : M St A := λ s,
  match layerStores (heap (snd s)) !! h with
  | None => nil_dereference s
  | Some (d, r) =>
      match drivers (heap (snd s)) !! d with
      | None => nil_dereference s
      | Some drv =>
          let '((w, r'), o) := m (fst s, Layers.set_labels (labels (heap (snd s))) (Layers.set_driver drv r)) in
          ((w, set_heap (put_layerStore h d r' (heap (snd s))) (snd s)), o)
      end
  end.

Definition onImages {A} (i : nat) (m : M (World * imageStore_t) A) : M St A := λ s,
  match imageStores (heap (snd s)) !! i with
  | None => nil_dereference s
  | Some r =>
      let '((w, r'), o) := m (fst s, r) in
      ((w, set_heap (set_heapImages (<[i := r']> (imageStores (heap (snd s)))) (heap (snd s))) (snd s)), o)
  end.

Definition onContainers {A} (m : M (World * containerStore_t) A) : M St A :=
  zoom (λ s, (fst s, containerStore (snd s))) (λ t s, (fst t, set_containerStore (snd t) (snd s))) m.

(** ** The graph driver *)

Definition createGraphDriverLocked : M St D :=
  c ← getS conf;
  name ← getS graphDriverName;
  inWorld (New name (mkOptions (graphRoot c) (imageStoreDir c) (runRoot c) (graphDriverPriority c) (graphOptions c))).

Definition startUsingGraphDriver : M St unit :=
  _ ← onGraphLock Lock;
  on_error
    (lw ← getS graphLockLastWrite;
     res ← onGraphLock (ModifiedSince lw);
     let '(lastWrite, modified) := res in
     if (modified : bool) then
       driver ← createGraphDriverLocked;
       name ← getS graphDriverName;
       if decide (name ≠ String_ driver) then fail (ErrOther "graph driver name changed during reload")
       else
         d ← getS (λ s, length (drivers (heap s)));
         _ ← modHeap (λ h, set_drivers (drivers h ++ [driver])%list h);
         modS (set_graphDriver lastWrite d None)
     else mret tt)
    (onGraphLock Unlock).

Definition stopUsingGraphDriver : M St unit := onGraphLock Unlock.

(** [GraphDriver]: the driver, as a position. *)
Definition GraphDriver_ : M St nat :=
  _ ← startUsingGraphDriver; finally (getS graphDriver) stopUsingGraphDriver.

(** ** The layer stores *)

(** A layer store is made with the driver in use. *)
Definition opening (m : M (World * gmap string LockFile * D * L) layerStore) : M St nat := λ s,
  let h := heap (snd s) in
  let d := graphDriver (snd s) in
  match drivers h !! d with
  | None => nil_dereference s
  | Some drv =>
      let '((w, t, drv', lab), o) := m (fst s, lockfiles h, drv, labels h) in
      let h' := mkHeap (<[d := drv']> (drivers h)) (layerStores h) (imageStores h) t lab in
      match o with
      | Ret r => ((w, set_heap (set_heapLayers (layerStores h ++ [(d, r)])%list h') (snd s)), Ret (length (layerStores h)))
      | Err e => ((w, set_heap h' (snd s)), Err e)
      | Crash c => ((w, set_heap h' (snd s)), Crash c)
      end
  end.

Definition getLayerStoreLocked : M St nat :=
  o ← getS layerStoreUseGetters;
  match o with
  | Some h => mret h
  | None =>
      c ← getS conf;
      name ← getS graphDriverName;
      let driverPrefix := name +:+ "-" in
      let rlpath := filepath_Join [runRoot c; driverPrefix +:+ "layers"] in
      _ ← inWorld (os_MkdirAll rlpath);
      let glpath := filepath_Join [graphRoot c; driverPrefix +:+ "layers"] in
      _ ← inWorld (os_MkdirAll glpath);
      let ilpath := if decide (imageStoreDir c = "") then "" else filepath_Join [imageStoreDir c; driverPrefix +:+ "layers"] in
      h ← opening (Layers.newLayerStore rlpath glpath ilpath (transientStore c));
      ro ← getS roLayerStoresUseGetters;
      _ ← modS (set_layerStores (Some h) ro);
      mret h
  end.

Definition getLayerStore : M St nat :=
  _ ← startUsingGraphDriver; finally getLayerStoreLocked stopUsingGraphDriver.

(** One additional store; it joins the list at once. *)
Definition addROLayerStore (rlpath driverPrefix store : string) : M St unit :=
  let glpath := filepath_Join [store; driverPrefix +:+ "layers"] in
  h ← opening (Layers.newROLayerStore rlpath glpath);
  ls ← getS layerStoreUseGetters;
  ro ← getS roLayerStoresUseGetters;
  modS (set_layerStores ls (ro ++ [h])%list).

Definition getROLayerStoresLocked : M St (list nat) :=
  ro ← getS roLayerStoresUseGetters;
  match ro with
  | _ :: _ => mret ro
  | [] =>
      c ← getS conf;
      name ← getS graphDriverName;
      let driverPrefix := name +:+ "-" in
      let rlpath := filepath_Join [runRoot c; driverPrefix +:+ "layers"] in
      _ ← inWorld (os_MkdirAll rlpath);
      d ← getS (λ s, drivers (heap s) !! graphDriver s);
      match d with
      | None => nil_dereference
      | Some drv =>
          _ ← forM (AdditionalImageStores drv) (addROLayerStore rlpath driverPrefix);
          getS roLayerStoresUseGetters
      end
  end.

Definition bothLayerStoreKindsLocked : M St (nat * list nat) :=
  primary ← getLayerStoreLocked; additional ← getROLayerStoresLocked; mret (primary, additional).

Definition bothLayerStoreKinds : M St (nat * list nat) :=
  _ ← startUsingGraphDriver; finally bothLayerStoreKindsLocked stopUsingGraphDriver.

Definition allLayerStoresLocked : M St (list nat) :=
  res ← bothLayerStoreKindsLocked; mret (fst res :: snd res).

Definition allLayerStores : M St (list nat) :=
  _ ← startUsingGraphDriver; finally allLayerStoresLocked stopUsingGraphDriver.

(** ** Functions around locked stores

    A callback returns [done] with its result, or not done; here the callback
    yields [inl] of the result, or [inr] of the variables it captured, as they
    are then.  A read lock is released, last one first, when the function that
    took it returns: [finally]. *)

Fixpoint readLayerStores {R X} (hs : list nat) (fn : X → nat → M St (R + X)) (x : X) : M St (R + X) :=
  match hs with
  | [] => mret (inr x)
  | h :: hs =>
      _ ← onLayers h Layers.startReading;
      finally
        (res ← fn x h;
         match res with inl r => mret (inl r) | inr x => readLayerStores hs fn x end)
        (onLayers h Layers.stopReading)
  end.

Definition readAllLayerStores {R X} (fn : X → nat → M St (R + X)) (x : X) : M St (R + X) :=
  hs ← allLayerStores; readLayerStores hs fn x.

Definition readPrimaryLayerStore {R} (fn : nat → M St R) : M St R :=
  h ← getLayerStore;
  _ ← onLayers h Layers.startReading;
  finally (fn h) (onLayers h Layers.stopReading).

Definition writeToLayerStore {R} (fn : nat → M St R) : M St R :=
  h ← getLayerStore;
  _ ← onLayers h Layers.startWriting;
  finally (fn h) (onLayers h Layers.stopWriting).

Definition readOrWriteAllLayerStores {R X} (fn : X → nat → M St (R + X)) (x : X) : M St (R + X) :=
  hs ← bothLayerStoreKinds;
  let '(h, ro) := hs in
  _ ← onLayers h Layers.startWriting;
  finally
    (res ← fn x h;
     match res with inl r => mret (inl r) | inr x => readLayerStores ro fn x end)
    (onLayers h Layers.stopWriting).

Definition allImageStores : M St (list nat) := getS (λ s, imageStore s :: roImageStores s).

Fixpoint readImageStores {R X} (is_ : list nat) (fn : X → nat → M St (R + X)) (x : X) : M St (R + X) :=
  match is_ with
  | [] => mret (inr x)
  | i :: is_ =>
      _ ← onImages i Images.startReading;
      finally
        (res ← fn x i;
         match res with inl r => mret (inl r) | inr x => readImageStores is_ fn x end)
        (onImages i Images.stopReading)
  end.

Definition readAllImageStores {R X} (fn : X → nat → M St (R + X)) (x : X) : M St (R + X) :=
  is_ ← allImageStores; readImageStores is_ fn x.

Definition writeToImageStore {R} (fn : M St R) : M St R :=
  i ← getS imageStore;
  _ ← onImages i Images.startWriting;
  finally fn (onImages i Images.stopWriting).

Definition readContainerStore {R} (fn : M St R) : M St R :=
  _ ← onContainers Containers.startReading;
  finally fn (onContainers Containers.stopReading).

Definition writeToContainerStore {R} (fn : M St R) : M St R :=
  _ ← onContainers Containers.startWriting;
  finally fn (onContainers Containers.stopWriting).

Definition writeToAllStores {R} (fn : nat → M St R) : M St R :=
  h ← getLayerStore;
  _ ← onLayers h Layers.startWriting;
  finally
    (i ← getS imageStore;
     _ ← onImages i Images.startWriting;
     finally
       (_ ← onContainers Containers.startWriting;
        finally (fn h) (onContainers Containers.stopWriting))
       (onImages i Images.stopWriting))
    (onLayers h Layers.stopWriting).

Definition canUseShifting (uidmap gidmap : IDMaps) : M St bool :=
  d ← getS (λ s, drivers (heap s) !! graphDriver s);
  match d with None => nil_dereference | Some drv => mret (SupportsShifting drv uidmap gidmap) end.

(** ** Construction *)

Notation Process := (World * gmap string LockFile)%type.
Definition inW {A} (m : M World A) : M Process A := zoom fst (λ w s, (w, snd s)) m.

(** A method of a lock file that is not yet part of an object. *)
Definition withLock {A} (l : LockFile) (m : M LF A) : M Process (LockFile * A) := λ s,
  let '((w, l'), o) := m (fst s, l) in
  ((w, snd s), match o with Ret a => Ret (l', a) | Err e => Err e | Crash c => Crash c end).

(** The part under [graphLock]: the lock, its last write and the driver; an
    error releases the lock, too. *)
Definition loadDriver (c : storeConf) (name : string) (lock : LockFile) : M Process (LockFile * LastWrite * D) :=
  res ← withLock lock Lock;
  let lock := fst res in
  res ← withLock lock
    (finally
       (lw ← GetLastWrite;
        driver ← onWorld (New name (mkOptions (graphRoot c) (imageStoreDir c) (runRoot c) (graphDriverPriority c) (graphOptions c)));
        mret (lw, driver))
       Unlock);
  mret (fst res, fst (snd res), snd (snd res)).

(** The additional image stores: the ones that can be written, by position,
    the read-only ones and the objects. *)
Definition loadImageStore (c : storeConf) (driverPrefix : string) (acc : list nat * list nat * list imageStore_t) (store : string)
    : M Process (list nat * list nat * list imageStore_t) :=
  let '(rw, ro, objs) := acc in
  let gipath := filepath_Join [store; driverPrefix +:+ "images"] in
  let i := length objs in
  if decide (store = imageStoreDir c ∨ store = graphRoot c) then
    r ← Images.newImageStore gipath; mret (rw ++ [i], ro ++ [i], objs ++ [r])%list
  else
    res ← try (Images.newROImageStore gipath);
    match res with
    | inl r => mret (rw, ro ++ [i], objs ++ [r])%list
    | inr err => if decide (err = ErrOS EROFS) then mret acc else fail err
    end.

(** [load] of a new object: the object it fills. *)
Definition load (c : storeConf) (name : string) (lock userns : LockFile) (labels_ : L) : M Process store :=
  res ← loadDriver c name lock;
  let '(lock, lw, driver) := res in
  let name := String_ driver in
  _ ← inW (os_MkdirAll (filepath_Join [graphRoot c; name]));
  _ ← (if decide (imageStoreDir c = "") then mret tt else inW (os_MkdirAll (filepath_Join [imageStoreDir c; name])));
  let driverPrefix := name +:+ "-" in
  let imgStoreRoot := if decide (imageStoreDir c = "") then graphRoot c else imageStoreDir c in
  let gipath := filepath_Join [imgStoreRoot; driverPrefix +:+ "images"] in
  _ ← inW (os_MkdirAll gipath);
  images ← Images.newImageStore gipath;
  let gcpath := filepath_Join [graphRoot c; driverPrefix +:+ "containers"] in
  _ ← inW (os_MkdirAll gcpath);
  let rcpath := filepath_Join [runRoot c; driverPrefix +:+ "containers"] in
  _ ← inW (os_MkdirAll rcpath);
  containers ← Containers.newContainerStore gcpath rcpath (transientStore c);
  let additional := ((if decide (imageStoreDir c = "") then [] else [graphRoot c]) ++ AdditionalImageStores driver)%list in
  res ← foldM (loadImageStore c driverPrefix) ([0], [], [images]) additional;
  let '(rw, ro, objs) := res in
  let digestLockRoot_ := filepath_Join [runRoot c; driverPrefix +:+ "locks"] in
  _ ← inW (os_MkdirAll digestLockRoot_);
  table ← gets snd;
  mret (mkStore c name lock userns 0 rw ro containers digestLockRoot_ lw 0 None []
          (mkHeap [driver] [] objs table labels_)).

(** A lock for the use of one digest. *)
Definition GetDigestLock (d : string) : M St LockFile :=
  root ← getS digestLockRoot;
  zoom (λ s, (fst s, lockfiles (heap (snd s)))) (λ t s, (fst t, set_heap (set_lockfiles (snd t) (heap (snd s))) (snd s)))
    (GetLockFile (filepath_Join [root; d])).
End Store.
End Stores.
