(* ===== verification/StoreOps.v ===== *)
(** * The operations of the store

    The methods of [store.go], over the component stores and the lock helpers
    of [Store]: creating layers, images and containers, names, metadata and
    big data, deleting, mounting, queries, and the user namespaces that
    [userns.go] allocates for containers. *)

From S2P Require Import Prelude World Paths StoreUtil Strconv Json IdTools IdSet TruncIndex LockFile TempDir Registry.
From S2P Require Import StoreLock ContainerStore ImageStore GraphDriver LayerData LayerStore Store.

Local Open Scope string_scope.

Module StoreOps.
Import Stores.
Notation Layer := LayerData.Layer.
Notation Image := Images.Image.
Notation Container := Containers.Container.
Notation LayerOptions := LayerData.LayerOptions.
Notation LayerIDMappingOptions := LayerData.LayerIDMappingOptions.

(** ** Options *)

(** [types.AutoUserNsOptions] *)
Record AutoUserNsOptions := mkAutoUserNsOptions {
  a_Size : Z;
  InitialSize : Z;
  PasswdFile : string;
  GroupFile : string;
  AdditionalUIDMappings : list IDMap;
  AdditionalGIDMappings : list IDMap
}.

(** [types.IDMappingOptions] *)
Record IDMappingOptions := mkIDMappingOptions {
  HostUIDMapping : bool;
  HostGIDMapping : bool;
  o_UIDMap : IDMaps;
  o_GIDMap : IDMaps;
  AutoUserNs : bool;
  AutoUserNsOpts : AutoUserNsOptions
}.

Record ContainerOptions := mkContainerOptions {
  c_IDMappingOptions : IDMappingOptions;
  LabelOpts : list string;
  c_Flags : gomap any;
  c_MountOpts : option (list string);
  c_Volatile : bool;
  c_StorageOpt : gomap string;
  c_BigData : list Containers.ContainerBigDataOption
}.

Definition noIDMappings : IDMappingOptions :=
  mkIDMappingOptions false false None None false (mkAutoUserNsOptions 0 0 "" "" [] []).
Definition noContainerOptions : ContainerOptions := mkContainerOptions noIDMappings [] None None false None [].

(** [len(m) == 0] of a list of mappings that may be nil. *)
Definition no_maps (m : IDMaps) : bool := bool_decide (default [] m = []).

(** [slices.Equal] does not tell nil from empty. *)
Definition maps_equal (m n : IDMaps) : bool := bool_decide (default [] m = default [] n).

(** ** The host *)

(** Entries of [/etc/passwd] and [/etc/group], as [moby/sys/user] parses them. *)
Record User := mkUser { u_Name : string; u_Uid : Z; u_Gid : Z }.
Record Group := mkGroup { g_Name : string; g_Gid : Z }.

(** What the process finds on the host: whether it runs without privileges and
    for whom, the subordinate identifiers of a user, and the parsers. *)
Class Host := {
  IsRootless : bool;
  RootlessUser : string;
  SubIDs : string → (list IDMap * list IDMap) + error;
  ParsePasswd : string → list User + error;
  ParseGroup : string → list Group + error
}.

Section StoreOps.
Context {T : Type} `{PatriciaTrie T} {IS : Type} `{IntervalSet IS}.
Context {D : Type} `{GraphDriver D} `{Drivers D} {L : Type} `{Selinux L} `{Labels L}.
Context `{Containers.ContainerJSON} `{Images.ImageJSON} `{LayerData.LayerJSON}.
Context `{Digests} `{Streams} `{MapRange} `{Layers.SortCreated} `{Host}.
(** Fuel of the component stores, and of the walks along parents. *)
Context (fuel : nat).

Notation store := (Stores.store (T := T) (D := D) (L := L)).
Notation St := (World * store)%type.
Notation layerStore := (Layers.layerStore T D L).

(** ** Layers *)

(** The stores that were locked for reading, and the layer or an error. *)
Fixpoint find_parent (rlstore : nat) (stores locked : list nat) (parent : string) : M St (list nat * (Layer + error)) :=
  match stores with
  | [] => mret (locked, inr ErrLayerUnknown)
  | lstore :: stores =>
      res ← (if decide (lstore = rlstore) then mret (inl tt) else try (onLayers lstore Layers.startReading));
      match res with
      | inr err => mret (locked, inr err)
      | inl _ =>
          let locked := if decide (lstore = rlstore) then locked else (locked ++ [lstore])%list in
          l ← try (onLayers lstore (Layers.Get parent));
          match l with
          | inl l => mret (locked, inl l)
          | inr _ => find_parent rlstore stores locked parent
          end
      end
  end.

Definition getParentLayer (rlstore : nat) (rlstores : list nat) (parent : string) : M St (list nat * (Layer + error)) :=
  find_parent rlstore (rlstore :: rlstores) [] parent.

(** The [unlock] function of the two. *)
Definition unlockLayerStores (locked : list nat) : M St unit := forM locked (λ i, onLayers i Layers.stopReading).

(** The mappings of a new layer: the caller's, or the inherited ones. *)
Definition effective_maps (host : bool) (own inherited : IDMaps) : IDMaps :=
  if negb host && no_maps own then inherited else own.

(** The mappings that are recorded: none if the driver maps at mount time. *)
Definition recorded_maps (hostU hostG : bool) (uid gid : IDMaps) : M St LayerIDMappingOptions :=
  b ← canUseShifting uid gid;
  mret (if (b : bool) then LayerData.mkLayerIDMappingOptions true true None None
        else LayerData.mkLayerIDMappingOptions hostU hostG (LayerData.copyIDMaps uid) (LayerData.copyIDMaps gid)).

Definition with_mappings (m : LayerIDMappingOptions) (o : LayerOptions) : LayerOptions :=
  LayerData.mkLayerOptions m (LayerData.TemplateLayer o) (LayerData.OriginalDigest o) (LayerData.OriginalSize o)
    (LayerData.o_UncompressedDigest o) (LayerData.o_Volatile o) (LayerData.o_BigData o) (LayerData.o_Flags o).

(** The options, and the layer of the parent; the stores that are locked. *)
Definition populateLayerOptions (rlstore : nat) (rlstores : list nat) (parent : string) (lOptions : option LayerOptions)
    : M St (list nat * ((LayerOptions * option Layer) + error)) :=
  let options := match lOptions with
                 | None => LayerData.noOptions
                 | Some o => LayerData.mkLayerOptions (LayerData.IDMappingOptions o) (LayerData.TemplateLayer o)
                     (LayerData.OriginalDigest o) (LayerData.OriginalSize o) (LayerData.o_UncompressedDigest o)
                     (LayerData.o_Volatile o) (LayerData.o_BigData o) (copyMapPreferringNil (LayerData.o_Flags o))
                 end in
  let m := LayerData.IDMappingOptions options in
  let hostU := LayerData.HostUIDMapping m in
  let hostG := LayerData.HostGIDMapping m in
  let uid := if hostU then None else LayerData.o_UIDMap m in
  let gid := if hostG then None else LayerData.o_GIDMap m in
  if decide (parent = "") then
    c ← getS conf;
    r ← recorded_maps hostU hostG (effective_maps hostU uid (uidMap c)) (effective_maps hostG gid (gidMap c));
    mret ([], inl (with_mappings r options, None))
  else
    res ← getParentLayer rlstore rlstores parent;
    let '(locked, res) := res in
    match res with
    | inr err => mret (locked, inr err)
    | inl parentLayer =>
        res ← try
          (_ ← onContainers Containers.startWriting;
           finally
             (containers ← onContainers Containers.Containers;
              if decide (Exists (λ c, Containers.LayerID c = parent) containers) then fail ErrParentIsContainer
              else recorded_maps hostU hostG (effective_maps hostU uid (LayerData.UIDMap parentLayer))
                     (effective_maps hostG gid (LayerData.GIDMap parentLayer)))
             (onContainers Containers.stopWriting));
        mret (locked, match res with inl r => inl (with_mappings r options, Some parentLayer) | inr err => inr err end)
    end.

(** *** Staging a layer without the lock of its store *)

(** What [stageWithUnlockedStore] fills in: the path the driver chose and the
    functions to call at the end. *)
Record staging := mkStaging {
  sg_layer : string;
  sg_cleanup : CleanupTempDirFuncs D
}.

Definition stage_addition (td : TempDir.TempDir) : M World (TempDir.TempDir * (string + error)) := λ w,
  match TempDir.StageAddition (w, td) with
  | ((w, td), Ret p) => (w, Ret (td, inl p))
  | ((w, td), Err e) => (w, Ret (td, inr e))
  | ((w, td), Crash c) => (w, Crash c)
  end.

Notation Staging := (World * layerStore * staging)%type.

(** The driver unpacks the stream; its path and clean-up function are kept
    also when it fails. *)
Definition stage_in_driver (start : string → ApplyDiffOpts → M (World * D) (option (M (World * D) unit) * string * Z * option error))
    (parent : string) (m : LayerIDMappingOptions) (payload : string) : M Staging Z :=
  res ← zoom fst (λ t s, (t, snd s))
          (Layers.onDriver (start parent (mkApplyDiffOpts payload
             (NewIDMappingsFromMaps (LayerData.o_UIDMap m) (LayerData.o_GIDMap m)) "")));
  let '(cleanup, path, size, err) := res in
  _ ← modify (λ s : Staging, (fst s, mkStaging path (sg_cleanup (snd s) ++ [cleanup])%list));
  match err with Some e => fail e | None => mret size end.

Notation Staged := (LayerData.maybeStagedLayerExtraction * CleanupTempDirFuncs D * option error)%type.

(** The stream goes to the driver and its headers to the open file at [path],
    which is synchronised and closed. *)
Definition stage_contents (start : string → ApplyDiffOpts → M (World * D) (option (M (World * D) unit) * string * Z * option error))
    (diff parent path : string) (layerOptions : LayerOptions) (cleanup : CleanupTempDirFuncs D)
    : M (World * layerStore) Staged := λ s,
  let lift (m : M World unit) : M Staging unit := zoom (λ s, fst (fst s)) (λ w s, (w, snd (fst s), snd s)) m in
  let run := (res ← Layers.applyDiff lift (Some layerOptions) diff path
                      (stage_in_driver start parent (LayerData.IDMappingOptions layerOptions));
              _ ← lift (syscall (mret tt));
              mret res) in
  let '((s, sg), o) := run (s, mkStaging "" cleanup) in
  match o with
  | Ret res =>
      (closed ← try (Layers.inWorld (syscall (mret tt)));
       mret (LayerData.mkExtraction diff (Some res) path (sg_layer sg), sg_cleanup sg,
             match closed with inl _ => None | inr err => Some err end)) s
  | Err err => (s, Ret (LayerData.mkExtraction diff None path (sg_layer sg), sg_cleanup sg, Some err))
  | Crash c => (s, Crash c)
  end.

(** The result of the staging; the functions to call; the error, if any. *)
Definition stageWithUnlockedStore (diff parent : string) (layerOptions : LayerOptions) : M (World * layerStore) Staged :=
  let none := LayerData.mkExtraction diff None "" "" in
  match StartStagingDiffToApply with
  | None => mret (none, [], None)
  | Some start =>
      dir ← Layers.getR Layers.layerdir;
      td ← try (Layers.inWorld (TempDir.NewTempDir (filepath_Join [dir; LayerData.tempDirPath])));
      match td with
      | inr err => mret (none, [], Some err)
      | inl td =>
          res ← Layers.inWorld (stage_addition td);
          let '(td, path) := res in
          let cleanup := [Some (Layers.cleanup_of td)] in
          match path with
          | inr err => mret (none, cleanup, Some err)
          | inl path =>
              f ← try (Layers.inWorld (syscall (modify (put_file false path ""))));
              match f with
              | inr err => mret (LayerData.mkExtraction diff None path "", cleanup, Some err)
              | inl _ => stage_contents start diff parent path layerOptions cleanup
              end
          end
      end
  end.

(** *** PutLayer *)

(** The part with the store locked.  [staged] has the options and the parent
    from before the staging, which are looked up again. *)
Definition put_locked (rlstore : nat) (rlstores : list nat) (id parent : string) (names : list string) (mountLabel : string)
    (writeable : bool) (lOptions : option LayerOptions) (staged : option (LayerOptions * option Layer))
    (contents : option LayerData.layerCreationContents) : M St (Layer * Z) :=
  _ ← onLayers rlstore Layers.startWriting;
  finally
    (let create options parentLayer :=
       onLayers rlstore (Layers.create fuel id parentLayer names mountLabel None (Some options) writeable contents) in
     match staged with
     | None =>
         res ← populateLayerOptions rlstore rlstores parent lOptions;
         let '(locked, res) := res in
         finally
           (match res with inr err => fail err | inl (options, parentLayer) => create options parentLayer end)
           (unlockLayerStores locked)
     | Some (options, parentLayer) =>
         if decide (parent = "") then create options parentLayer
         else
           res ← getParentLayer rlstore rlstores parent;
           let '(locked, res) := res in
           finally
             (match res, parentLayer with
              | inr err, _ => fail err
              | inl _, None => nil_dereference
              | inl freshLayer, Some l =>
                  if maps_equal (LayerData.UIDMap freshLayer) (LayerData.UIDMap l) &&
                     maps_equal (LayerData.GIDMap freshLayer) (LayerData.GIDMap l)
                  then create options parentLayer
                  else fail (ErrOther "parent layer changed id mappings while the content was extracted")
              end)
             (unlockLayerStores locked)
     end)
    (onLayers rlstore Layers.stopWriting).

(** The options and the parent for the staging, under the lock. *)
Definition prepare_staging (rlstore : nat) (rlstores : list nat) (id parent : string) (names : list string)
    (lOptions : option LayerOptions) : M St (LayerOptions * option Layer) :=
  _ ← onLayers rlstore Layers.startWriting;
  finally
    (_ ← onLayers rlstore (Layers.checkIdOrNameConflict id names);
     res ← populateLayerOptions rlstore rlstores parent lOptions;
     let '(locked, res) := res in
     _ ← unlockLayerStores locked;
     match res with inr err => fail err | inl x => mret x end)
    (onLayers rlstore Layers.stopWriting).

Definition PutLayer (id parent : string) (names : list string) (mountLabel : string) (writeable : bool)
    (lOptions : option LayerOptions) (diff : option string) : M St (Layer * Z) :=
  hs ← bothLayerStoreKinds;
  let '(rlstore, rlstores) := hs in
  match diff with
  | None => put_locked rlstore rlstores id parent names mountLabel writeable lOptions None None
  | Some diff =>
      if decide (is_Some StartStagingDiffToApply ∧ mountLabel = "") then
        res ← prepare_staging rlstore rlstores id parent names lOptions;
        let '(options, parentLayer) := res in
        let parent := from_option LayerData.ID parent parentLayer in
        res ← onLayers rlstore (stageWithUnlockedStore diff parent options);
        let '(m, cleanup, err) := res in
        finally
          (match err with
           | Some err => fail err
           | None => put_locked rlstore rlstores id parent names mountLabel writeable lOptions (Some (options, parentLayer))
                       (Some (LayerData.Extraction m))
           end)
          (_ ← try (onLayers rlstore (Layers.onDriver (TempDir.CleanupTemporaryDirectories cleanup))); mret tt)
      else
        put_locked rlstore rlstores id parent names mountLabel writeable lOptions None
          (Some (LayerData.Extraction (LayerData.mkExtraction diff None "" "")))
  end.

Definition CreateLayer (id parent : string) (names : list string) (mountLabel : string) (writeable : bool)
    (options : option LayerOptions) : M St Layer :=
  res ← PutLayer id parent names mountLabel writeable options None; mret (fst res).

(** ** Images *)

(** The full identifier of a layer of any store; the stores stay locked for
    reading until the function returns, which [k] continues. *)
Fixpoint with_layer {R} (stores : list nat) (layer : string) (k : option Layer → M St R) : M St R :=
  match stores with
  | [] => k None
  | h :: stores =>
      _ ← onLayers h Layers.startReading;
      finally
        (l ← try (onLayers h (Layers.Get layer));
         match l with inl l => k (Some l) | inr _ => with_layer stores layer k end)
        (onLayers h Layers.stopReading)
  end.

(** The big data of an image of a read-only store. *)
Definition copy_bigdata (i : nat) (id : string) (keys : list string) : M St (list Images.ImageBigDataOption) :=
  foldM (λ acc key,
    data ← onImages i (Images.BigData id key);
    d ← onImages i (Images.BigDataDigest id key);
    mret (acc ++ [Images.mkBigDataOption key data d])%list) [] keys.

(** The image [id] in the read-only stores: its options and its names. *)
Fixpoint with_readonly {R} (stores : list nat) (id : string)
    (k : option (Image * list Images.ImageBigDataOption) → M St R) : M St R :=
  match stores with
  | [] => k None
  | i :: stores =>
      _ ← onImages i Images.startReading;
      finally
        (img ← try (onImages i (Images.Get id));
         match img with
         | inr _ => with_readonly stores id k
         | inl img => big ← copy_bigdata i id (Images.i_BigDataNames img); k (Some (img, big))
         end)
        (onImages i Images.stopReading)
  end.

(** Options that were passed in go over the ones of the image. *)
Definition merge_options (base : Images.ImageOptions) (iOptions : option Images.ImageOptions) : Images.ImageOptions :=
  match iOptions with
  | None => base
  | Some o =>
      Images.mkImageOptions
        (if decide (Images.CreationDate o = Images.zeroTime) then Images.CreationDate base else Images.CreationDate o)
        (if decide (Images.o_Digest o = "") then Images.o_Digest base else Images.o_Digest o)
        (Images.o_Digests base ++ Images.o_Digests o)
        (if decide (Images.o_Metadata o = "") then Images.o_Metadata base else Images.o_Metadata o)
        (Images.o_BigData base ++ Images.o_BigData o)
        (Images.o_NamesHistory base ++ Images.o_NamesHistory o)
        (Some (default ∅ (Images.o_Flags o) ∪ default ∅ (Images.o_Flags base)))
  end.

Definition create_image (id : string) (names : list string) (layer metadata : string) (iOptions : option Images.ImageOptions)
    (found : option (Image * list Images.ImageBigDataOption)) : M St Image :=
  let base := match found with
              | None => Images.noOptions
              | Some (i, big) => Images.mkImageOptions (Images.Created i) (Images.Digest i)
                  (copySlicePreferringNil (Images.i_Digests i)) (Images.i_Metadata i) big
                  (copySlicePreferringNil (Images.NamesHistory i)) None
              end in
  let more := match found with None => [] | Some (i, _) => dedupeStrings (Images.Names i ++ names) end in
  let options := merge_options base iOptions in
  date ← (if decide (Images.CreationDate options = Images.zeroTime) then inWorld time_Now
          else mret (Images.CreationDate options));
  let options := Images.mkImageOptions date (Images.o_Digest options) (Images.o_Digests options)
                   (if decide (metadata = "") then Images.o_Metadata options else metadata) (Images.o_BigData options)
                   (Images.o_NamesHistory options) (Images.o_Flags options) in
  i ← getS imageStore;
  res ← onImages i (Images.create fuel id names layer options);
  _ ← (if decide (more = []) then mret tt else onImages i (Images.updateNames (Images.ID res) more addNames));
  mret res.

Definition CreateImage (id : string) (names : list string) (layer metadata : string) (iOptions : option Images.ImageOptions)
    : M St Image :=
  let create layer :=
    writeToImageStore
      (ro ← getS roImageStores;
       if decide (id = "") then create_image id names layer metadata iOptions None
       else with_readonly ro id (create_image id names layer metadata iOptions)) in
  if decide (layer = "") then create layer
  else
    hs ← allLayerStores;
    with_layer hs layer (λ l, match l with None => fail ErrLayerUnknown | Some l => create (LayerData.ID l) end).

(** ** Containers *)

(** Can the layer stand in for the top layer of an image? *)
Definition layerMatchesMappingOptions (options : IDMappingOptions) (layer : Layer) : M St bool :=
  b ← canUseShifting (o_UIDMap options) (o_GIDMap options);
  let lu := LayerData.UIDMap layer in
  let lg := LayerData.GIDMap layer in
  mret (if (b : bool) && no_maps lu && no_maps lg then true
        else if HostUIDMapping options && negb (no_maps lu) then false
        else if HostGIDMapping options && negb (no_maps lg) then false
        else bool_decide (lu = o_UIDMap options) && bool_decide (lg = o_GIDMap options)).

(** The first of the stores that has the layer. *)
Fixpoint get_layer_in (stores : list nat) (id : string) : M St (option Layer) :=
  match stores with
  | [] => mret None
  | h :: stores =>
      l ← try (onLayers h (Layers.Get id));
      match l with inl l => mret (Some l) | inr _ => get_layer_in stores id end
  end.

(** What the search has found: a perfect match, or the first candidate with
    its parent, and whether a mapped copy could be made of it. *)
Definition candidate : Type := Layer + option (Layer * option Layer * bool).

Definition try_candidate (options : IDMappingOptions) (allStores : list nat) (rlstore h : nat) (acc : candidate) (id : string)
    : M St candidate :=
  match acc with
  | inl _ => mret acc
  | inr best =>
      c ← try (onLayers h (Layers.Get id));
      match c with
      | inr _ => mret acc
      | inl cLayer =>
          cParent ← (if decide (LayerData.Parent cLayer = "") then mret None
                     else get_layer_in allStores (LayerData.Parent cLayer));
          if decide (LayerData.Parent cLayer ≠ "" ∧ cParent = None) then mret acc
          else
            b ← layerMatchesMappingOptions options cLayer;
            mret (if (b : bool) then inl cLayer
                  else match best with
                       | Some _ => acc
                       | None => inr (Some (cLayer, cParent, bool_decide (h = rlstore)))
                       end)
      end
  end.

Definition find_candidate (image : Image) (options : IDMappingOptions) (rlstore : nat) (lstores : list nat) : M St candidate :=
  let allStores := rlstore :: lstores in
  foldM (λ acc h, foldM (try_candidate options allStores rlstore h) acc
                    (Images.TopLayer image :: Images.MappedTopLayers image)) (inr None) allStores.

Definition imageTopLayerForMapping (image : Image) (ristore rlstore : nat) (lstores : list nat) (options : IDMappingOptions)
    : M St Layer :=
  c ← find_candidate image options rlstore lstores;
  match c with
  | inl layer => mret layer
  | inr None => fail ErrLayerUnknown
  | inr (Some (layer, parentLayer, inPrimary)) =>
      primary ← getS imageStore;
      if negb (bool_decide (ristore = primary) && inPrimary) then mret layer
      else
        m ← recorded_maps (HostUIDMapping options) (HostGIDMapping options) (o_UIDMap options) (o_GIDMap options);
        let layerOptions := LayerData.mkLayerOptions m (LayerData.ID layer) "" None "" false [] None in
        res ← onLayers rlstore (Layers.create fuel "" parentLayer [] (LayerData.l_MountLabel layer) None (Some layerOptions) false None);
        let mappedLayer := fst res in
        r ← try (onImages primary (Images.addMappedTopLayer (Images.ID image) (LayerData.ID mappedLayer)));
        match r with
        | inl _ => mret mappedLayer
        | inr err => _ ← try (onLayers rlstore (Layers.deleteWhileHoldingLock fuel (LayerData.ID mappedLayer))); fail err
        end
  end.

(** *** Automatic user namespaces *)

(** A deferred function whose error becomes the error of a function that had
    none. *)
Definition defer_err {A} (m : M St A) (cleanup : M St unit) : M St A := λ s,
  match m s with
  | (s', Crash c) => (s', Crash c)
  | (s', Ret a) =>
      match cleanup s' with
      | (s'', Ret _) => (s'', Ret a)
      | (s'', Err e) => (s'', Err e)
      | (s'', Crash c) => (s'', Crash c)
      end
  | (s', Err e) =>
      match cleanup s' with
      | (s'', Crash c) => (s'', Crash c)
      | (s'', _) => (s'', Err e)
      end
  end.

(** The cache [additionalUIDs] of the object is not needed: [SubIDs] does not
    change while the process runs. *)
Definition getAdditionalSubIDs (username : string) : idSet IS * idSet IS :=
  let username := if IsRootless then RootlessUser else if decide (username = "") then "containers" else username in
  match SubIDs username with
  | inr _ => (None, None)
  | inl (uids, gids) => (getHostIDs uids, getHostIDs gids)
  end.

Definition getAvailableIDs (c : storeConf) : idSet IS * idSet IS :=
  let '(u, g) := getAdditionalSubIDs (autoUsernsUser c) in
  if IsRootless then (newIDSet [mkInterval 1 (int64 (size_ u + 1))], newIDSet [mkInterval 1 (int64 (size_ g + 1))])
  else (u, g).

Definition nobodyUser : Z := 65534.

Definition grow (size id : Z) : Z := if decide (size < id ∧ id ≠ nobodyUser)%Z then int64 (id + 1) else size.

Definition is_nobody (name : string) : bool := bool_decide (name = "nobody" ∨ name = "nogroup").

Definition count_users (size : Z) (users : list User) : Z :=
  foldl (λ size u, if is_nobody (u_Name u) then size else grow (grow size (u_Uid u)) (u_Gid u)) size users.

Definition count_groups (size : Z) (groups : list Group) : Z :=
  foldl (λ size g, if is_nobody (g_Name g) then size else grow size (g_Gid g)) size groups.

(** A file of the container, or the one that the caller names. *)
Definition read_user_file (containerMount inside file : string) : M World string :=
  os_ReadFile (if decide (file = "") then filepath_Join [containerMount; inside] else file).

Definition parseMountedFiles (containerMount passwdFile groupFile : string) : M World Z :=
  passwd ← try (read_user_file containerMount "/etc/passwd" passwdFile);
  let size := match passwd with
              | inl data => match ParsePasswd data with inl users => count_users 0 users | inr _ => 0%Z end
              | inr _ => 0%Z
              end in
  group ← try (read_user_file containerMount "/etc/group" groupFile);
  let size := match group with
              | inl data => match ParseGroup data with inl groups => count_groups size groups | inr _ => size end
              | inr _ => size
              end in
  mret (uint32 size).

(** The largest identifiers of the layers from [layerName] down, and the top
    layer. *)
Definition above (size id : Z) : Z := if decide (size ≤ id)%Z then uint32 (id + 1) else size.

Fixpoint walk_ids (rounds : nat) (stores : list nat) (top layerName : string) (size : Z) (topLayer : option Layer)
    : M St (Z * option Layer) :=
  match rounds with
  | 0 => stop NoFuel
  | S rounds =>
      o ← get_layer_in stores layerName;
      match o with
      | None => fail (ErrOther "cannot find layer")
      | Some layer =>
          let topLayer := if decide (top = layerName) then Some layer else topLayer in
          let size := foldl above (foldl above size (LayerData.l_UIDs layer)) (LayerData.l_GIDs layer) in
          if decide (LayerData.Parent layer = "") then mret (size, topLayer)
          else walk_ids rounds stores top (LayerData.Parent layer) size topLayer
      end
  end.

Definition getMaxSizeFromImage (image : Image) (rlstore : nat) (lstores : list nat) (passwdFile groupFile : string) : M St Z :=
  res ← walk_ids fuel (rlstore :: lstores) (Images.TopLayer image) (Images.TopLayer image) 0 None;
  let '(size, topLayer) := res in
  let layerOptions := LayerData.mkLayerOptions (LayerData.mkLayerIDMappingOptions true true None None) "" "" None "" false [] None in
  res ← onLayers rlstore (Layers.create fuel "" topLayer [] "" None (Some layerOptions) false None);
  let id := LayerData.ID (fst res) in
  defer_err
    (mountpoint ← onLayers rlstore (Layers.Mount id (mkMountOpts "" None None [] false));
     defer_err
       (userFilesSize ← inWorld (parseMountedFiles mountpoint passwdFile groupFile);
        mret (Z.max size userFilesSize))
       (_ ← onLayers rlstore (Layers.unmount id true false); mret tt))
    (onLayers rlstore (Layers.deleteWhileHoldingLock fuel id)).

Definition Containers_ : M St (list Container) := readContainerStore (onContainers Containers.Containers).

Definition getAutoUserNS (options : AutoUserNsOptions) (image : option Image) (rlstore : nat) (lstores : list nat)
    : M St (list IDMap * list IDMap) :=
  let initialSize := if decide (0 < InitialSize options)%Z then InitialSize options else 1%Z in
  c ← getS conf;
  let '(availableUIDs, availableGIDs) := getAvailableIDs c in
  containers ← Containers_;
  let usedUIDs := (containers ≫= Containers.UIDMap)%list in
  let usedGIDs := (containers ≫= Containers.GIDMap)%list in
  size ← (if decide (a_Size options = 0)%Z then
            let size := Z.max (autoNsMinSize c) initialSize in
            size ← (match image with
                    | None => mret size
                    | Some image =>
                        sizeFromImage ← getMaxSizeFromImage image rlstore lstores (PasswdFile options) (GroupFile options);
                        mret (Z.max size sizeFromImage)
                    end);
            if decide (0 < autoNsMaxSize c ∧ autoNsMaxSize c < size)%Z
            then fail (ErrOther "the container needs a user namespace that is bigger than the maximum")
            else mret size
          else mret (a_Size options));
  match getAutoUserNSIDMappings size availableUIDs availableGIDs usedUIDs usedGIDs
          (AdditionalUIDMappings options) (AdditionalGIDMappings options) with
  | Ret maps => mret maps
  | Err err => fail err
  | Crash cr => stop cr
  end.

(** *** CreateContainer *)

Definition flag_string (flags : gomap any) (flag : string) : string :=
  match gomap_get flags flag with Some (AString label) => label | _ => "" end.

Definition initLabels (opts : list string) : M St (string * string) :=
  lab ← getS (λ s, labels (heap s));
  let '(lab, res) := InitLabels opts lab in
  _ ← modHeap (set_heapLabels lab);
  match res with inl x => mret x | inr err => fail err end.

(** The layer of the container and its record; [m] has the mappings of the
    record, [uid] and [gid] the ones of the layer. *)
Definition create_container (rlstore : nat) (id : string) (names : list string) (imageID layer metadata : string)
    (options : ContainerOptions) (m : IDMappingOptions) (imageTopLayer : option Layer) (uid gid : IDMaps) : M St Container :=
  transient ← getS (λ s, transientStore (conf s));
  shift ← canUseShifting uid gid;
  let useHostMapping := HostUIDMapping m || shift in
  let layerOptions := LayerData.mkLayerOptions
        (LayerData.mkLayerIDMappingOptions useHostMapping useHostMapping (LayerData.copyIDMaps uid) (LayerData.copyIDMaps gid))
        "" "" None "" (c_Volatile options || transient) [] None in
  let flags := gomap_ensure (c_Flags options) in
  let plabel := flag_string flags Containers.processLabelFlag in
  let mlabel := flag_string flags Containers.mountLabelFlag in
  if decide ((plabel = "" ∧ mlabel ≠ "") ∨ (plabel ≠ "" ∧ mlabel = ""))
  then fail (ErrOther "ProcessLabel and Mountlabel must either not be specified or both specified")
  else
    res ← (if decide (plabel = "") then
             ls ← initLabels (LabelOpts options);
             flags ← gomap_set flags Containers.processLabelFlag (AString (fst ls));
             flags ← gomap_set flags Containers.mountLabelFlag (AString (snd ls));
             mret (snd ls, flags)
           else mret (mlabel, flags));
    let '(mlabel, flags) := res in
    res ← onLayers rlstore (Layers.create fuel layer imageTopLayer [] mlabel (c_StorageOpt options) (Some layerOptions) true None);
    let layer := LayerData.ID (fst res) in
    writeToContainerStore
      (let cOptions := Containers.mkContainerOptions (default [] (o_UIDMap m)) (default [] (o_GIDMap m)) flags
                         (c_MountOpts options) (c_Volatile options || transient) metadata (c_BigData options) in
       r ← try (onContainers (Containers.create (IS := IS) fuel id names imageID layer (Some cOptions)));
       match r with
       | inl container => mret container
       | inr err => _ ← try (onLayers rlstore (Layers.deleteWhileHoldingLock fuel layer)); fail err
       end).

(** [defer store.stopReading()] for each of the stores, around [k]. *)
Fixpoint with_reading {R} (stores : list nat) (k : M St R) : M St R :=
  match stores with
  | [] => k
  | h :: stores => _ ← onLayers h Layers.startReading; finally (with_reading stores k) (onLayers h Layers.stopReading)
  end.

(** The image in the read-only image stores, with its store. *)
Fixpoint with_ro_image {R} (stores : list nat) (image : string) (k : option (Image * nat) → M St R) : M St R :=
  match stores with
  | [] => k None
  | i :: stores =>
      _ ← onImages i Images.startReading;
      finally
        (img ← try (onImages i (Images.Get image));
         match img with inl img => k (Some (img, i)) | inr _ => with_ro_image stores image k end)
        (onImages i Images.stopReading)
  end.

(** Everything that an image's layers and record need is locked around [k]. *)
Definition with_image {R} (rlstore : nat) (lstores : list nat) (image : string) (k : Image → nat → M St R) : M St R :=
  _ ← onLayers rlstore Layers.startWriting;
  finally
    (with_reading lstores
       (i ← getS imageStore;
        _ ← onImages i Images.startWriting;
        finally
          (img ← try (onImages i (Images.Get image));
           match img with
           | inl img => k img i
           | inr _ =>
               ro ← getS roImageStores;
               with_ro_image ro image (λ o, match o with None => fail ErrImageUnknown | Some (img, i) => k img i end)
           end)
          (onImages i Images.stopWriting)))
    (onLayers rlstore Layers.stopWriting).

(** A list of mappings that is nil when it is empty. *)
Definition nil_if_empty (l : list IDMap) : IDMaps := match l with [] => None | _ => Some l end.

Definition with_maps (uid gid : IDMaps) (m : IDMappingOptions) : IDMappingOptions :=
  mkIDMappingOptions (HostUIDMapping m) (HostGIDMapping m) uid gid (AutoUserNs m) (AutoUserNsOpts m).

(** The mappings of a new namespace, if the caller asks for one. *)
Definition auto_maps (m : IDMappingOptions) (image : option Image) (rlstore : nat) (lstores : list nat) : M St IDMappingOptions :=
  if AutoUserNs m then
    maps ← getAutoUserNS (AutoUserNsOpts m) image rlstore lstores;
    mret (with_maps (nil_if_empty (fst maps)) (nil_if_empty (snd maps)) m)
  else mret m.

Definition CreateContainer (id : string) (names : list string) (image layer metadata : string) (cOptions : option ContainerOptions)
    : M St Container :=
  let options := default noContainerOptions cOptions in
  let m := c_IDMappingOptions options in
  let m := with_maps (if HostUIDMapping m then None else LayerData.copyIDMaps (o_UIDMap m))
             (if HostGIDMapping m then None else LayerData.copyIDMaps (o_GIDMap m)) m in
  hs ← bothLayerStoreKinds;
  let '(rlstore, lstores) := hs in
  let body :=
    if decide (image = "") then
      m ← auto_maps m None rlstore lstores;
      _ ← onLayers rlstore Layers.startWriting;
      finally
        (c ← getS conf;
         create_container rlstore id names "" layer metadata options m None
           (effective_maps (HostUIDMapping m) (o_UIDMap m) (uidMap c))
           (effective_maps (HostGIDMapping m) (o_GIDMap m) (gidMap c)))
        (onLayers rlstore Layers.stopWriting)
    else
      with_image rlstore lstores image (λ cimage home,
        m ← auto_maps m (Some cimage) rlstore lstores;
        if decide (Images.TopLayer cimage = "") then
          create_container rlstore id names (Images.ID cimage) layer metadata options m None (o_UIDMap m) (o_GIDMap m)
        else
          ilayer ← imageTopLayerForMapping cimage home rlstore lstores m;
          create_container rlstore id names (Images.ID cimage) layer metadata options m (Some ilayer)
            (effective_maps (HostUIDMapping m) (o_UIDMap m) (LayerData.UIDMap ilayer))
            (effective_maps (HostGIDMapping m) (o_GIDMap m) (LayerData.GIDMap ilayer))) in
  if AutoUserNs m || negb (no_maps (o_UIDMap m)) || negb (no_maps (o_GIDMap m))
  then _ ← onUsernsLock Lock; finally body (onUsernsLock Unlock)
  else body.

(** ** Records *)

Definition SetMetadata (id metadata : string) : M St unit :=
  writeToAllStores (λ rlstore,
    l ← onLayers rlstore (Layers.Exists_ id);
    if (l : bool) then onLayers rlstore (Layers.SetMetadata id metadata)
    else
      is_ ← getS imageStore;
      i ← onImages is_ (Images.Exists_ id);
      if (i : bool) then onImages is_ (Images.SetMetadata id metadata)
      else
        c ← onContainers (Containers.Exists_ id);
        if (c : bool) then onContainers (Containers.SetMetadata id metadata) else fail ErrNotAnID).

(** The three places where a name or an identifier is looked for, in order:
    the layer stores, the image stores, the container store.  [None]: not
    there. *)
Definition look_everywhere {R} (inLayers inImages : nat → M St (option R)) (inContainers : M St (option R)) (unknown : error)
    : M St R :=
  let once (f : nat → M St (option R)) (_ : unit) (i : nat) : M St (R + unit) :=
    o ← f i; mret (match o with Some r => inl r | None => inr tt end) in
  l ← readAllLayerStores (once inLayers) tt;
  match l with
  | inl r => mret r
  | inr _ =>
      i ← readAllImageStores (once inImages) tt;
      match i with
      | inl r => mret r
      | inr _ =>
          c ← readContainerStore inContainers;
          match c with Some r => mret r | None => fail unknown end
      end
  end.

(** [if exists { res, err := get }] *)
Definition if_exists {R} (exists_ : M St bool) (get : M St R) : M St (option R) :=
  b ← exists_; if (b : bool) then r ← get; mret (Some r) else mret None.

(** [if res, err := get; err == nil] *)
Definition if_found {A R} (get : M St A) (f : A → R) : M St (option R) :=
  r ← try get; mret (match r with inl a => Some (f a) | inr _ => None end).

Definition Metadata (id : string) : M St string :=
  look_everywhere
    (λ h, if_exists (onLayers h (Layers.Exists_ id)) (onLayers h (Layers.Metadata id)))
    (λ i, if_exists (onImages i (Images.Exists_ id)) (onImages i (Images.Metadata id)))
    (if_exists (onContainers (Containers.Exists_ id)) (onContainers (Containers.Metadata id)))
    ErrNotAnID.

Definition Names (id : string) : M St (list string) :=
  look_everywhere
    (λ h, if_found (onLayers h (Layers.Get id)) LayerData.Names)
    (λ i, if_found (onImages i (Images.Get id)) Images.Names)
    (if_found (onContainers (Containers.Get id)) Containers.Names)
    ErrLayerUnknown.

Definition Lookup (name : string) : M St string :=
  look_everywhere
    (λ h, if_found (onLayers h (Layers.Get name)) LayerData.ID)
    (λ i, if_found (onImages i (Images.Get name)) Images.ID)
    (if_found (onContainers (Containers.Get name)) Containers.ID)
    ErrLayerUnknown.

(** An error counts as not existing. *)
Definition Exists_ (id : string) : M St bool :=
  let once (f : nat → M St bool) (_ : unit) (i : nat) : M St (bool + unit) :=
    b ← f i; mret (if (b : bool) then inl true else inr tt) in
  l ← try (readAllLayerStores (once (λ h, onLayers h (Layers.Exists_ id))) tt);
  match l with
  | inr _ => mret false
  | inl (inl _) => mret true
  | inl (inr _) =>
      i ← try (readAllImageStores (once (λ i, onImages i (Images.Exists_ id))) tt);
      match i with
      | inr _ => mret false
      | inl (inl _) => mret true
      | inl (inr _) =>
          c ← try (readContainerStore (onContainers (Containers.Exists_ id)));
          mret (match c with inl b => b | inr _ => false end)
      end
  end.

(** *** Big data *)

Definition first_image {R} (f : nat → M St R) (accept : R → bool) (unknown : error) : M St R :=
  res ← readAllImageStores (λ (_ : unit) i,
          r ← try (f i);
          mret (match r with inl d => if accept d then inl d else inr tt | inr _ => inr tt end)) tt;
  match res with inl r => mret r | inr _ => fail unknown end.

Definition ListImageBigData (id : string) : M St (list string) :=
  first_image (λ i, onImages i (Images.BigDataNames id)) (λ _, true) ErrImageUnknown.

Definition ImageBigDataSize (id key : string) : M St Z :=
  first_image (λ i, onImages i (Images.BigDataSize id key)) (λ _, true) ErrSizeUnknown.

Definition ImageBigDataDigest (id key : string) : M St string :=
  first_image (λ i, onImages i (Images.BigDataDigest id key))
    (λ d, match ValidateDigest d with None => true | Some _ => false end) ErrDigestUnknown.

(** [found]: some store has the record, though not the item. *)
Definition ImageBigData (id key : string) : M St string :=
  res ← readAllImageStores (λ (found : bool) i,
          r ← try (onImages i (Images.BigData id key));
          match r with
          | inl data => mret (inl data)
          | inr _ => b ← onImages i (Images.Exists_ id); mret (inr (found || b))
          end) false;
  match res with
  | inl data => mret data
  | inr found => fail (if (found : bool) then ErrOS ENOENT else ErrImageUnknown)
  end.

Definition first_layer {R} (f : nat → M St R) (id : string) : M St R :=
  res ← readAllLayerStores (λ (found : bool) h,
          r ← try (f h);
          match r with
          | inl data => mret (inl data)
          | inr _ => b ← onLayers h (Layers.Exists_ id); mret (inr (found || b))
          end) false;
  match res with
  | inl data => mret data
  | inr found => fail (if (found : bool) then ErrOS ENOENT else ErrLayerUnknown)
  end.

Definition ListLayerBigData (id : string) : M St (list string) :=
  first_layer (λ h, onLayers h (Layers.BigDataNames id)) id.

Definition LayerBigData (id key : string) : M St string :=
  first_layer (λ h, onLayers h (Layers.BigData id key)) id.

Definition SetLayerBigData (id key data : string) : M St unit :=
  writeToLayerStore (λ h, onLayers h (Layers.SetBigData id key data)).

Definition SetImageBigData (id key data : string) (digestManifest : option (string → string + error)) : M St unit :=
  i ← getS imageStore; writeToImageStore (onImages i (Images.SetBigData id key data digestManifest)).

Definition ListContainerBigData (id : string) : M St (list string) :=
  readContainerStore (onContainers (Containers.BigDataNames id)).
Definition ContainerBigDataSize (id key : string) : M St Z :=
  writeToContainerStore (onContainers (Containers.BigDataSize id key)).
Definition ContainerBigDataDigest (id key : string) : M St string :=
  writeToContainerStore (onContainers (Containers.BigDataDigest id key)).
Definition ContainerBigData (id key : string) : M St string :=
  readContainerStore (onContainers (Containers.BigData id key)).
Definition SetContainerBigData (id key data : string) : M St unit :=
  writeToContainerStore (onContainers (Containers.SetBigData id key data)).

(** *** Names *)

(** The record of an image of a read-only store is copied, so that its names
    can be changed. *)
Definition pull_up (i : nat) (id : string) (names : list string) (op : updateNameOperation) (img : Image) : M St unit :=
  big ← copy_bigdata i id (Images.i_BigDataNames img);
  let options := Images.mkImageOptions (Images.Created img) (Images.Digest img) (copySlicePreferringNil (Images.i_Digests img))
                   (Images.i_Metadata img) big (copySlicePreferringNil (Images.NamesHistory img))
                   (copyMapPreferringNil (Images.Flags img)) in
  primary ← getS imageStore;
  _ ← onImages primary (Images.create fuel id (Images.Names img) (Images.TopLayer img) options);
  onImages primary (Images.updateNames id names op).

(** The read-only stores one after the other; [k] if none has the image. *)
Fixpoint pull_up_from (stores : list nat) (id : string) (names : list string) (op : updateNameOperation) (k : M St unit) : M St unit :=
  match stores with
  | [] => k
  | i :: stores =>
      _ ← onImages i Images.startReading;
      finally
        (img ← try (onImages i (Images.Get id));
         match img with
         | inl img => pull_up i id names op img
         | inr _ => pull_up_from stores id names op k
         end)
        (onImages i Images.stopReading)
  end.

Definition updateNames (id : string) (names : list string) (op : updateNameOperation) : M St unit :=
  let deduped := dedupeStrings names in
  found ← writeToLayerStore (λ rlstore,
    b ← onLayers rlstore (Layers.Exists_ id);
    if (b : bool) then _ ← onLayers rlstore (Layers.updateNames id deduped op); mret true else mret false);
  if (found : bool) then mret tt
  else
    is_ ← getS imageStore;
    _ ← onImages is_ Images.startWriting;
    finally
      (b ← onImages is_ (Images.Exists_ id);
       if (b : bool) then onImages is_ (Images.updateNames id deduped op)
       else
         ro ← getS roImageStores;
         pull_up_from ro id deduped op
           (found ← writeToContainerStore
              (b ← onContainers (Containers.Exists_ id);
               if (b : bool) then _ ← onContainers (Containers.updateNames id deduped op); mret true else mret false);
            if (found : bool) then mret tt else fail ErrLayerUnknown))
      (onImages is_ Images.stopWriting).

Definition SetNames (id : string) (names : list string) : M St unit := updateNames id names setNames.
Definition AddNames (id : string) (names : list string) : M St unit := updateNames id names addNames.
Definition RemoveNames (id : string) (names : list string) : M St unit := updateNames id names removeNames.

(** ** Deleting

    The functions that remove temporary directories are called at the end,
    without the locks; their error counts if there is no other. *)

Notation CleanUp := (CleanupTempDirFuncs D).

Definition run_cleanups (rlstore : nat) (cf : CleanUp) (err : option error) : M St unit :=
  res ← try (onLayers rlstore (Layers.onDriver (TempDir.CleanupTemporaryDirectories cf)));
  match err, res with
  | Some err, _ => fail err
  | None, inr err => fail err
  | None, inl _ => mret tt
  end.

(** [deferredDelete] as a step that collects clean-up functions. *)
Definition drop_layer (rlstore : nat) (id : string) : M St (CleanUp * option error) :=
  onLayers rlstore (Layers.deferredDelete fuel id).

Definition unmap_layer (is_ : nat) (id : string) (image : Image) : M St unit :=
  if decide (Exists (λ x, EqualFold x id = true) (Images.MappedTopLayers image))
  then onImages is_ (Images.removeMappedTopLayer (Images.ID image) id) else mret tt.

Definition delete_layer_locked (id : string) (rlstore : nat) : M St (CleanUp * option error) :=
  b ← onLayers rlstore (Layers.Exists_ id);
  if negb b then fail ErrNotALayer
  else
    l ← try (onLayers rlstore (Layers.Get id));
    let id := match l with inl l => LayerData.ID l | inr _ => id end in
    layers ← onLayers rlstore Layers.Layers;
    if decide (Exists (λ l, LayerData.Parent l = id) layers) then fail ErrLayerHasChildren
    else
      is_ ← getS imageStore;
      images ← onImages is_ Images.Images;
      if decide (Exists (λ i, Images.TopLayer i = id) images) then fail ErrLayerUsedByImage
      else
        containers ← onContainers Containers.Containers;
        if decide (Exists (λ c, Containers.LayerID c = id) containers) then fail ErrLayerUsedByContainer
        else
          res ← drop_layer rlstore id;
          match res with
          | (cf, Some err) => mret (cf, Some err)
          | (cf, None) =>
              res ← try (forM images (unmap_layer is_ id));
              mret (cf, match res with inl _ => None | inr err => Some err end)
          end.

(** The layer store that a function of [writeToAllStores] worked on. *)
Definition and_store {R} (f : nat → M St R) (h : nat) : M St (nat * R) := r ← f h; mret (h, r).

Definition DeleteLayer (id : string) : M St unit :=
  res ← writeToAllStores (and_store (delete_layer_locked id));
  let '(rlstore, (cf, err)) := res in run_cleanups rlstore cf err.

(** *** Images *)

(** [removed] are the layers of this image that go; [layer] is the next
    candidate, unless something that stays needs it. *)
Fixpoint remove_chain (rounds rlstore : nat) (image : Image) (layers : list Layer) (others removed : list string) (layer : string)
    : M St (list string) :=
  match rounds with
  | 0 => stop NoFuel
  | S rounds =>
      if decide (layer = "") then mret removed
      else
        b ← onContainers (Containers.Exists_ layer);
        if (b : bool) then mret removed
        else if decide (layer ∈ others) then mret removed
        else
          l ← try (onLayers rlstore (Layers.Get layer));
          let parent := match l with inl l => LayerData.Parent l | inr _ => "" end in
          let layersToCheck := if decide (layer = Images.TopLayer image) then layer :: Images.MappedTopLayers image else [layer] in
          if decide (Exists (λ c, LayerData.Parent c ∈ layersToCheck ∧ LayerData.ID c ∉ removed) layers) then mret removed
          else remove_chain rounds rlstore image layers others (removed ++ [layer])%list parent
  end.

(** Top layers of other images of the store. *)
Definition otherImagesTopLayers (id : string) (images : list Image) : list string :=
  (filter (λ i, Images.ID i ≠ id) images ≫= λ i, Images.TopLayer i :: Images.MappedTopLayers i)%list.

(** The variables of [deleteImage] that its function changes. *)
Record deletion := mkDeletion {
  d_id : string;
  imageFound : bool;
  removedSize : Z;
  layersToRemove : list string
}.

Definition sum_sizes (m : gomap Z) (n : Z) : Z := foldl (λ n kv, int64 (n + snd kv)) n (range_map (default ∅ m)).

Definition delete_image_in (i rlstore : nat) (commit withSize : bool) (x : deletion) : M St deletion :=
  image ← onImages i (Images.Get (d_id x));
  let id := Images.ID image in
  let size := if withSize then sum_sizes (Images.BigDataSizes image) (removedSize x) else removedSize x in
  containers ← onContainers Containers.Containers;
  if decide (Exists (λ c, Containers.ImageID c = id) containers) then fail ErrImageUsedByContainer
  else
    images ← onImages i Images.Images;
    layers ← onLayers rlstore Layers.Layers;
    _ ← (if commit then onImages i (Images.Delete id) else mret tt);
    removed ← remove_chain fuel rlstore image layers (otherImagesTopLayers id images) (Images.MappedTopLayers image)
                (Images.TopLayer image);
    mret (mkDeletion id true size (layersToRemove x ++ removed)).

(** The image stores that can be written, the additional ones under their
    locks. *)
Fixpoint delete_image_from {R} (stores : list nat) (rlstore : nat) (commit withSize : bool) (x : deletion) (k : deletion → M St R) : M St R :=
  match stores with
  | [] => k x
  | i :: stores =>
      primary ← getS imageStore;
      let body :=
        b ← onImages i (Images.Exists_ (d_id x));
        x ← (if (b : bool) then delete_image_in i rlstore commit withSize x else mret x);
        delete_image_from stores rlstore commit withSize x k in
      if decide (i = primary) then body
      else _ ← onImages i Images.startWriting; finally body (onImages i Images.stopWriting)
  end.

Definition layer_size (rlstore : nat) (size : Z) (layer : string) : M St Z :=
  n ← onLayers rlstore (Layers.Size layer);
  n ← (if decide (n = -1)%Z then onLayers rlstore (Layers.DiffSize "" layer) else mret n);
  mret (int64 (size + n)).

(** The layers one after the other; the first error ends it. *)
Fixpoint drop_layers (rlstore : nat) (ids : list string) (cf : CleanUp) : M St (CleanUp * option error) :=
  match ids with
  | [] => mret (cf, None)
  | id :: ids =>
      res ← drop_layer rlstore id;
      let cf := (cf ++ fst res)%list in
      match snd res with Some err => mret (cf, Some err) | None => drop_layers rlstore ids cf end
  end.

Definition delete_image_locked (id : string) (commit withSize : bool) (rlstore : nat) : M St (CleanUp * option error * list string * Z) :=
  stores ← getS rwImageStores;
  delete_image_from stores rlstore commit withSize (mkDeletion id false 0 []) (λ x,
    if negb (imageFound x) then fail ErrNotAnImage
    else
      size ← (if withSize then foldM (layer_size rlstore) (removedSize x) (layersToRemove x) else mret (removedSize x));
      res ← (if commit then drop_layers rlstore (layersToRemove x) [] else mret ([], None));
      mret (fst res, snd res, layersToRemove x, size)).

Definition deleteImage (id : string) (commit withSize : bool) : M St (list string * Z) :=
  res ← writeToAllStores (and_store (delete_image_locked id commit withSize));
  let '(rlstore, (cf, err, layers, size)) := res in
  _ ← run_cleanups rlstore cf err;
  mret (layers, size).

Definition DeleteImage (id : string) (commit : bool) : M St (list string) :=
  res ← deleteImage id commit false; mret (fst res).
Definition DeleteImageWithSize (id : string) (commit : bool) : M St (list string * Z) := deleteImage id commit true.

(** *** Containers, and anything else *)

(** The two directories of a container are removed side by side. *)
Definition remove_dirs (remove : string → M World unit) (dirs : list string) : M World unit :=
  err ← foldM (λ err d, r ← try (remove d); mret (match err, r with None, inr e => Some e | _, _ => err end)) None dirs;
  match err with None => mret tt | Some e => fail e end.

Definition containerDirs (s : store) (id : string) (more : list string) : list string :=
  let middleDir := graphDriverName s +:+ "-containers" in
  [filepath_Join ([graphRoot (conf s); middleDir; id] ++ more); filepath_Join ([runRoot (conf s); middleDir; id] ++ more)].

Definition delete_container_locked (id : string) (rlstore : nat) : M St (CleanUp * option error) :=
  c ← try (onContainers (Containers.Get id));
  match c with
  | inr _ => fail ErrNotAContainer
  | inl container =>
      b ← onLayers rlstore (Layers.Exists_ (Containers.LayerID container));
      res ← (if (b : bool) then drop_layer rlstore (Containers.LayerID container) else mret ([], None));
      match res with
      | (cf, Some err) => mret (cf, Some err)
      | (cf, None) =>
          res ← try (dirs ← getS (λ s, containerDirs s (Containers.ID container) []);
                     _ ← inWorld (remove_dirs EnsureRemoveAll dirs);
                     onContainers (Containers.Delete id));
          mret (cf, match res with inl _ => None | inr err => Some err end)
      end
  end.

Definition DeleteContainer (id : string) : M St unit :=
  res ← writeToAllStores (and_store (delete_container_locked id));
  let '(rlstore, (cf, err)) := res in run_cleanups rlstore cf err.

(** [Delete]: a container with its layer, an image record, or a layer. *)
Definition delete_any_locked (id : string) (rlstore : nat) : M St (CleanUp * option error) :=
  let rest :=
    is_ ← getS imageStore;
    b ← onImages is_ (Images.Exists_ id);
    if (b : bool) then _ ← onImages is_ (Images.Delete id); mret ([], None)
    else
      b ← onLayers rlstore (Layers.Exists_ id);
      if (b : bool) then drop_layer rlstore id else fail ErrLayerUnknown in
  c ← try (onContainers (Containers.Get id));
  match c with
  | inr _ => rest
  | inl container =>
      b ← onLayers rlstore (Layers.Exists_ (Containers.LayerID container));
      if negb b then fail ErrNotALayer
      else
        res ← drop_layer rlstore (Containers.LayerID container);
        match res with
        | (cf, Some err) => mret (cf, Some err)
        | (cf, None) =>
            res ← try (_ ← onContainers (Containers.Delete id);
                       dirs ← getS (λ s, containerDirs s (Containers.ID container) ["userdata"]);
                       forM dirs (λ d, inWorld (os_RemoveAll d)));
            mret (cf, match res with inl _ => None | inr err => Some err end)
        end
  end.

Definition Delete (id : string) : M St unit :=
  res ← writeToAllStores (and_store (delete_any_locked id));
  let '(rlstore, (cf, err)) := res in run_cleanups rlstore cf err.

Definition Wipe : M St unit :=
  writeToAllStores (λ rlstore,
    _ ← onContainers Containers.Wipe;
    is_ ← getS imageStore;
    _ ← onImages is_ Images.Wipe;
    onLayers rlstore (Layers.Wipe fuel)).

(** All three, also after an error; the first error counts. *)
Definition GarbageCollect : M St unit :=
  a ← try (writeToContainerStore (onContainers Containers.GarbageCollect));
  i ← getS imageStore;
  b ← try (writeToImageStore (onImages i Images.GarbageCollect));
  c ← try (writeToLayerStore (λ h, onLayers h Layers.GarbageCollect));
  match a, b, c with
  | inr err, _, _ => fail err
  | _, inr err, _ => fail err
  | _, _, inr err => fail err
  | _, _, _ => mret tt
  end.

(** ** Queries *)

Definition Layer_ (id : string) : M St Layer :=
  res ← readAllLayerStores (λ (_ : unit) h,
          r ← try (onLayers h (Layers.Get id)); mret (match r with inl l => inl l | inr _ => inr tt end)) tt;
  match res with inl l => mret l | inr _ => fail ErrLayerUnknown end.

(** A name that leads to an image of a read-only store does not count if the
    primary store has a record with the identifier: it had the name taken
    away. *)
Definition Image_ (id : string) : M St Image :=
  primary ← getS imageStore;
  res ← readAllImageStores (λ (_ : unit) i,
          r ← try (onImages i (Images.Get id));
          match r with
          | inr _ => mret (inr tt)
          | inl image =>
              if decide (i = primary) then mret (inl image)
              else
                local ← try (onImages primary (Images.Get (Images.ID image)));
                mret (match local with inl _ => inr tt | inr _ => inl image end)
          end) tt;
  match res with inl image => mret image | inr _ => fail ErrImageUnknown end.

Definition Container_ (id : string) : M St Container := readContainerStore (onContainers (Containers.Get id)).

Definition ContainerLayerID (id : string) : M St string :=
  c ← readContainerStore (onContainers (Containers.Get id)); mret (Containers.LayerID c).

Definition ContainerByLayer (id : string) : M St Container :=
  layer ← Layer_ id;
  containerList ← Containers_;
  match list_find (λ c, Containers.LayerID c = LayerData.ID layer) containerList with
  | Some (_, c) => mret c
  | None => fail ErrContainerUnknown
  end.

(** What [f] yields in each of the stores, one after the other. *)
Definition collectLayers {A} (f : nat → M St (list A)) : M St (list A) :=
  res ← readAllLayerStores (R := Empty_set) (λ acc h, l ← f h; mret (inr (acc ++ l)%list)) [];
  mret (match res with inl e => match (e : Empty_set) return _ with end | inr l => l end).

Definition collectImages {A} (f : nat → M St (list A)) : M St (list A) :=
  res ← readAllImageStores (R := Empty_set) (λ acc i, l ← f i; mret (inr (acc ++ l)%list)) [];
  mret (match res with inl e => match (e : Empty_set) return _ with end | inr l => l end).

Definition Layers_ : M St (list Layer) := collectLayers (λ h, onLayers h Layers.Layers).
Definition Images_ : M St (list Image) := collectImages (λ i, onImages i Images.Images).

(** A store that has no such records is no error. *)
Definition or_none {A} (e : error) (m : M St (list A)) : M St (list A) :=
  r ← try m;
  match r with
  | inl l => mret l
  | inr err => if decide (err = e) then mret [] else fail err
  end.

Definition layersByMappedDigest (m : string → M (World * layerStore) (list Layer)) (d : string) : M St (list Layer) :=
  layers ← collectLayers (λ h, or_none ErrLayerUnknown (onLayers h (m d)));
  if decide (layers = []) then fail ErrLayerUnknown else mret layers.

Definition byValidDigest (m : string → M (World * layerStore) (list Layer)) (d : string) : M St (list Layer) :=
  match ValidateDigest d with Some err => fail err | None => layersByMappedDigest m d end.

Definition LayersByCompressedDigest := byValidDigest Layers.LayersByCompressedDigest.
Definition LayersByUncompressedDigest := byValidDigest Layers.LayersByUncompressedDigest.
Definition LayersByTOCDigest := byValidDigest Layers.LayersByTOCDigest.

Definition ImagesByDigest (d : string) : M St (list Image) :=
  collectImages (λ i, or_none ErrImageUnknown (onImages i (Images.ByDigest d))).

Definition ImagesByTopLayer (id : string) : M St (list Image) :=
  layer ← Layer_ id;
  collectImages (λ i,
    imageList ← onImages i Images.Images;
    mret (filter (λ i, Images.TopLayer i = LayerData.ID layer ∨
                       Exists (λ x, EqualFold x (LayerData.ID layer) = true) (Images.MappedTopLayers i)) imageList)).

Record MultiListOptions := mkMultiListOptions { ml_Images : bool; ml_Layers : bool; ml_Containers : bool }.

(** The stores that were read stay locked until the end. *)
Definition collect_then {A R} (f : nat → M St (list A)) (hs : list nat) (start stop_ : nat → M St unit) (k : list A → M St R) : M St R :=
  let fix go (hs : list nat) (acc : list A) : M St R :=
    match hs with
    | [] => k acc
    | h :: hs => _ ← start h; finally (l ← f h; go hs (acc ++ l)%list) (stop_ h)
    end in go hs [].

Definition MultiList (options : MultiListOptions) : M St (list Layer * list Image * list Container) :=
  let containers layers images :=
    cs ← (if ml_Containers options then Containers_ else mret []); mret (layers, images, cs) in
  let images layers :=
    if ml_Images options then
      is_ ← allImageStores;
      collect_then (λ i, onImages i Images.Images) is_ (λ i, onImages i Images.startReading)
        (λ i, onImages i Images.stopReading) (containers layers)
    else containers layers [] in
  if ml_Layers options then
    hs ← allLayerStores;
    collect_then (λ h, onLayers h Layers.Layers) hs (λ h, onLayers h Layers.startReading)
      (λ h, onLayers h Layers.stopReading) images
  else images [].

(** *** Sizes *)

(** [f] where the first store has the layer. *)
Definition in_layer_store (id : string) (f : nat → M St Z) : M St Z :=
  res ← readAllLayerStores (λ (_ : unit) h,
          b ← onLayers h (Layers.Exists_ id);
          if (b : bool) then n ← f h; mret (inl n) else mret (inr tt)) tt;
  match res with inl n => mret n | inr _ => fail ErrLayerUnknown end.

Definition DiffSize (from to : string) : M St Z := in_layer_store to (λ h, onLayers h (Layers.DiffSize from to)).
Definition LayerSize (id : string) : M St Z := in_layer_store id (λ h, onLayers h (Layers.Size id)).

(** The store that has the layer, too. *)
Fixpoint locate_layer (stores : list nat) (id : string) : M St (option (nat * Layer)) :=
  match stores with
  | [] => mret None
  | h :: stores =>
      l ← try (onLayers h (Layers.Get id));
      match l with inl l => mret (Some (h, l)) | inr _ => locate_layer stores id end
  end.

(** The size of one layer of an image, and its parent. *)
Definition size_of_layer (stores : list nat) (layerID : string) : M St (Z * string) :=
  o ← locate_layer stores layerID;
  match o with
  | None => fail ErrLayerUnknown
  | Some (h, layer) =>
      n ← (if decide (LayerData.UncompressedDigest layer = "" ∨ LayerData.UncompressedSize layer = -1)%Z
           then onLayers h (Layers.DiffSize "" (LayerData.ID layer)) else mret (LayerData.UncompressedSize layer));
      mret (n, LayerData.Parent layer)
  end.

(** The variables of the walk over the layers of an image. *)
Record walk := mkWalk { queue : gset string; visited : gset string; w_size : Z }.

(** [range queue]: Go may or may not visit what is added meanwhile; here such
    an entry waits for the next round. *)
Definition visit_layer (stores : list nat) (x : walk) (layerID : string) : M St walk :=
  if decide (layerID ∈ visited x) then mret x
  else
    res ← size_of_layer stores layerID;
    let '(n, parent) := res in
    mret (mkWalk (if decide (parent = "") then queue x else {[parent]} ∪ queue x) ({[layerID]} ∪ visited x) (int64 (w_size x + n))).

Definition queue_order (q : gset string) : list string := fst <$> range_map (gset_to_gmap tt q).

Fixpoint walk_layers (rounds : nat) (stores : list nat) (x : walk) : M St walk :=
  if decide (size (visited x) < size (queue x)) then
    match rounds with
    | 0 => stop NoFuel
    | S rounds => x ← foldM (visit_layer stores) x (queue_order (queue x)); walk_layers rounds stores x
    end
  else mret x.

(** The image in one of the stores, which stays locked around [k]. *)
Fixpoint with_image_record {R} (stores : list nat) (id : string) (k : option (Image * nat) → M St R) : M St R :=
  match stores with
  | [] => k None
  | i :: stores =>
      _ ← onImages i Images.startReading;
      finally
        (img ← try (onImages i (Images.Get id));
         match img with inl img => k (Some (img, i)) | inr _ => with_image_record stores id k end)
        (onImages i Images.stopReading)
  end.

Definition ImageSize (id : string) : M St Z :=
  hs ← allLayerStores;
  with_reading hs
    (is_ ← allImageStores;
     with_image_record is_ id (λ o,
       match o with
       | None => fail ErrImageUnknown
       | Some (image, i) =>
           let tops := list_to_set (filter (λ x, x ≠ "") (Images.TopLayer image :: Images.MappedTopLayers image)) in
           x ← walk_layers fuel hs (mkWalk tops ∅ 0);
           names ← onImages i (Images.BigDataNames id);
           foldM (λ n name, k ← onImages i (Images.BigDataSize id name); mret (int64 (n + k))) (w_size x) names
       end)).

(** *** Directories of containers and images *)

Definition ContainerDirectory_in (root : storeConf → string) (id : string) : M St string :=
  readContainerStore
    (id ← onContainers (Containers.Lookup id);
     s ← getS (λ s, (root (conf s), graphDriverName s +:+ "-containers"));
     let path := filepath_Join [fst s; snd s; id; "userdata"] in
     _ ← inWorld (os_MkdirAll path);
     mret path).

Definition ContainerDirectory := ContainerDirectory_in graphRoot.
Definition ContainerRunDirectory := ContainerDirectory_in runRoot.

(** The first image store answers, whether it has the image or not. *)
Definition ImageDirectory_in (root : storeConf → string) (id : string) : M St string :=
  res ← readAllImageStores (λ (found : bool) i,
          _ ← onImages i (Images.Exists_ id);
          s ← getS (λ s, (root (conf s), graphDriverName s +:+ "-images"));
          let path := filepath_Join [fst s; snd s; id; "userdata"] in
          _ ← inWorld (os_MkdirAll path);
          mret (inl path)) false;
  match res with
  | inl path => mret path
  | inr found => fail (if (found : bool) then ErrOS ENOENT else ErrImageUnknown)
  end.

Definition ImageDirectory := ImageDirectory_in graphRoot.
Definition ImageRunDirectory := ImageDirectory_in runRoot.

Definition set_file_in (directory : string → M St string) (id file data : string) : M St unit :=
  dir ← directory id;
  _ ← inWorld (os_MkdirAll (filepath_Dir (filepath_Join [dir; file])));
  inWorld (AtomicWriteFile (filepath_Join [dir; file]) data).
Definition file_from (directory : string → M St string) (id file : string) : M St string :=
  dir ← directory id; inWorld (os_ReadFile (filepath_Join [dir; file])).

Definition SetContainerDirectoryFile := set_file_in ContainerDirectory.
Definition FromContainerDirectory := file_from ContainerDirectory.
Definition SetContainerRunDirectoryFile := set_file_in ContainerRunDirectory.
Definition FromContainerRunDirectory := file_from ContainerRunDirectory.

(** [directory.Size]: every file is one inode here. *)
Definition directory_Size (dir : string) : M World Z :=
  syscall (w ← gets id;
           match w_files w !! dir with
           | Some data => mret (Z.of_nat (String.length data))
           | None =>
               if decide (dir ∈ w_dirs w) then
                 mret (foldl (λ n q, int64 (n + Z.of_nat (String.length (default "" (w_files w !! q))))) 0%Z
                         (filter (λ q, under dir q = true) (elements (dom (w_files w)))))
               else fail (ErrOS ENOENT)
           end).

Definition ContainerSize (id : string) : M St Z :=
  hs ← allLayerStores;
  with_reading hs
    (cdir ← ContainerDirectory id;
     rdir ← ContainerRunDirectory id;
     writeToContainerStore
       (container ← onContainers (Containers.Get id);
        o ← locate_layer hs (Containers.LayerID container);
        match o with
        | None => fail ErrLayerUnknown
        | Some (h, layer) =>
            size ← onLayers h (Layers.DiffSize "" (LayerData.ID layer));
            names ← onContainers (Containers.BigDataNames id);
            size ← foldM (λ n name, k ← onContainers (Containers.BigDataSize id name); mret (int64 (n + k))) size names;
            n ← inWorld (directory_Size cdir);
            let size := int64 (size + n) in
            n ← inWorld (directory_Size rdir);
            mret (int64 (size + n))
        end)).

(** ** Mounting *)

Definition validateMountOptions (mountOptions : list string) : option error :=
  if decide ("rw" ∈ mountOptions) then Some (ErrOther "option not supported") else None.

(** The graph driver stays in use around [k]. *)
Definition usingGraphDriver {R} (k : M St R) : M St R := _ ← startUsingGraphDriver; finally k stopUsingGraphDriver.

Definition MountImage (id : string) (mountOpts : list string) (mountLabel : string) : M St string :=
  match validateMountOptions mountOpts with
  | Some err => fail err
  | None =>
      usingGraphDriver
        (hs ← bothLayerStoreKindsLocked;
         let '(rlstore, lstores) := hs in
         with_image rlstore lstores id (λ cimage home,
           ilayer ← imageTopLayerForMapping cimage home rlstore lstores
                      (mkIDMappingOptions true true None None false (AutoUserNsOpts noIDMappings));
           if no_maps (LayerData.UIDMap ilayer) && no_maps (LayerData.GIDMap ilayer) then
             onLayers rlstore (Layers.Mount (LayerData.ID ilayer)
               (mkMountOpts mountLabel None None (mountOpts ++ ["ro"])%list false))
           else fail (ErrOther "cannot create an image with canonical UID/GID mappings in a read-only store")))
  end.

(** A layer of a read-only store has an error of its own. *)
Fixpoint in_readonly (stores : list nat) (id : string) : M St string :=
  match stores with
  | [] => fail ErrLayerUnknown
  | h :: stores =>
      _ ← onLayers h Layers.startReading;
      b ← onLayers h (Layers.Exists_ id);
      _ ← onLayers h Layers.stopReading;
      if (b : bool) then fail ErrStoreIsReadOnly else in_readonly stores id
  end.

Definition Mount (id mountLabel : string) : M St string :=
  c ← try (Container_ id);
  disable ← getS (λ s, disableVolatile (conf s));
  let '(id, options) := match c with
    | inl container =>
        (Containers.LayerID container,
         mkMountOpts mountLabel (nil_if_empty (Containers.UIDMap container)) (nil_if_empty (Containers.GIDMap container))
           (Containers.MountOpts container)
           (negb disable && match gomap_get (Containers.Flags container) Containers.volatileFlag with
                            | Some (ABool b) => b | _ => false end))
    | inr _ => (id, mkMountOpts mountLabel None None [] false)
    end in
  usingGraphDriver
    (hs ← bothLayerStoreKindsLocked;
     let '(rlstore, lstores) := hs in
     _ ← onLayers rlstore Layers.startWriting;
     finally
       (b ← onLayers rlstore (Layers.Exists_ id);
        if (b : bool) then onLayers rlstore (Layers.Mount id options) else in_readonly lstores id)
       (onLayers rlstore Layers.stopWriting)).

(** The layer of a container, or the identifier itself. *)
Definition layer_or_id (id : string) : M St string :=
  r ← try (ContainerLayerID id); mret (match r with inl layerID => layerID | inr _ => id end).

Definition Mounted (id : string) : M St Z :=
  id ← layer_or_id id; readPrimaryLayerStore (λ h, onLayers h (Layers.Mounted id)).

Definition Unmount (id : string) (force : bool) : M St bool :=
  id ← layer_or_id id;
  writeToLayerStore (λ rlstore,
    b ← onLayers rlstore (Layers.Exists_ id);
    if (b : bool) then onLayers rlstore (Layers.unmount id force false) else fail ErrLayerUnknown).

(** The first mapped top layer without mappings, or the top layer. *)
Fixpoint unmount_top (lstore : nat) (mapped : list string) (top : string) (force : bool) : M St bool :=
  match mapped with
  | [] => onLayers lstore (Layers.unmount top force false)
  | layerID :: mapped =>
      l ← try (onLayers lstore (Layers.Get layerID));
      match l with
      | inr err => if decide (err = ErrLayerUnknown) then unmount_top lstore mapped top force else fail err
      | inl l =>
          if no_maps (LayerData.UIDMap l) && no_maps (LayerData.GIDMap l)
          then onLayers lstore (Layers.unmount (LayerData.ID l) force false)
          else unmount_top lstore mapped top force
      end
  end.

Definition UnmountImage (id : string) (force : bool) : M St bool :=
  img ← Image_ id;
  writeToLayerStore (λ lstore, unmount_top lstore (Images.MappedTopLayers img) (Images.TopLayer img) force).

(** Every mount of a layer is undone; the error that stopped it. *)
Fixpoint unmount_forced (rounds rlstore : nat) (id : string) : M St (option error) :=
  match rounds with
  | 0 => stop NoFuel
  | S rounds =>
      r ← try (onLayers rlstore (Layers.unmount id true true));
      match r with
      | inl _ => unmount_forced rounds rlstore id
      | inr err => mret (if decide (err = ErrLayerNotMounted) then None else Some err)
      end
  end.

Definition shutdown_layer (force : bool) (rlstore : nat) (acc : list string * option error) (layer : Layer) : M St (list string * option error) :=
  if decide (LayerData.MountCount layer = 0)%Z then mret acc
  else
    let '(mounted, err) := acc in
    let mounted := (mounted ++ [LayerData.ID layer])%list in
    if force then
      err2 ← unmount_forced fuel rlstore (LayerData.ID layer);
      mret (mounted, match err with Some _ => err | None => err2 end)
    else mret (mounted, err).

(** The layers that were mounted, and the error; the server of split streams
    is not modelled. *)
Definition Shutdown (force : bool) : M St (list string * option error) :=
  r ← try
    (usingGraphDriver
      (rlstore ← getLayerStoreLocked;
       _ ← onLayers rlstore Layers.startWriting;
       finally
         (layers ← onLayers rlstore Layers.Layers;
          res ← foldM (shutdown_layer force rlstore) ([], None) layers;
          let '(mounted, err) := res in
          let err := match err with
                     | None => if decide (mounted = []) then None else Some ErrLayerUsedByContainer
                     | Some _ => err
                     end in
          match err with
          | Some _ => mret (mounted, err)
          | None =>
              r ← try (onGraphLock RecordWrite);
              match r with
              | inr err => mret (mounted, Some err)
              | inl _ =>
                  d ← getS graphDriver;
                  r ← try (onDriver d DriverCleanup);
                  mret (mounted, match r with inl _ => None | inr err => Some err end)
              end
          end)
         (onLayers rlstore Layers.stopWriting)));
  mret (match r with inl x => x | inr err => ([], Some err) end).

(** ** Contents *)

Definition ApplyDiff (to diff : string) : M St Z :=
  writeToLayerStore (λ rlstore,
    b ← onLayers rlstore (Layers.Exists_ to);
    if (b : bool) then onLayers rlstore (Layers.ApplyDiff_ to diff) else fail ErrLayerUnknown).

Record ApplyStagedLayerOptions := mkApplyStaged {
  as_ID : string;
  as_ParentLayer : string;
  as_Names : list string;
  as_MountLabel : string;
  as_Writeable : bool;
  as_LayerOptions : option LayerOptions;
  as_DiffOutput : DriverWithDifferOutput;
  as_DiffOptions : option ApplyDiffWithDifferOpts
}.

Definition ApplyStagedLayer (args : ApplyStagedLayerOptions) : M St Layer :=
  hs ← bothLayerStoreKinds;
  let '(rlstore, rlstores) := hs in
  _ ← onLayers rlstore Layers.startWriting;
  finally
    (l ← try (onLayers rlstore (Layers.Get (as_ID args)));
     match l with
     | inl layer =>
         _ ← onLayers rlstore (Layers.applyDiffFromStagingDirectory fuel (as_ID args) (as_DiffOutput args) (as_DiffOptions args));
         mret layer
     | inr err =>
         if decide (err ≠ ErrLayerUnknown) then fail err
         else
           res ← populateLayerOptions rlstore rlstores (as_ParentLayer args) (as_LayerOptions args);
           let '(locked, res) := res in
           finally
             (match res with
              | inr err => fail err
              | inl (options, parentLayer) =>
                  res ← onLayers rlstore (Layers.create fuel (as_ID args) parentLayer (as_Names args) (as_MountLabel args) None
                          (Some options) (as_Writeable args) (Some (LayerData.Differ (as_DiffOutput args) (as_DiffOptions args))));
                  mret (fst res)
              end)
             (unlockLayerStores locked)
     end)
    (onLayers rlstore Layers.stopWriting).

(** [PutAs] of a layer of an additional layer store. *)
Definition PutAs (id parent : string) (names : list string) (info : Layer + error)
    (createAs : string → string → M (World * D) unit) : M St Layer :=
  hs ← bothLayerStoreKinds;
  let '(rlstore, rlstores) := hs in
  _ ← onLayers rlstore Layers.startWriting;
  finally
    (if decide (parent = "") then onLayers rlstore (Layers.PutAdditionalLayer fuel id None names info createAs)
     else
       l ← try (onLayers rlstore (Layers.Get parent));
       match l with
       | inl l => onLayers rlstore (Layers.PutAdditionalLayer fuel id (Some l) names info createAs)
       | inr _ =>
           with_layer rlstores parent (λ l,
             match l with
             | None => fail ErrLayerUnknown
             | Some l => onLayers rlstore (Layers.PutAdditionalLayer fuel id (Some l) names info createAs)
             end)
       end)
    (onLayers rlstore Layers.stopWriting).

(** The layers below the top layers of the images, each once. *)
Fixpoint chain_of (rounds rlstore : nat) (seen : list string) (cur : string) : M St (list string) :=
  match rounds with
  | 0 => stop NoFuel
  | S rounds =>
      if decide (cur = "" ∨ cur ∈ seen) then mret seen
      else
        l ← try (onLayers rlstore (Layers.Get cur));
        match l with
        | inr err => if decide (err = ErrLayerUnknown) then mret seen else fail err
        | inl l => chain_of rounds rlstore (seen ++ [cur])%list (LayerData.Parent l)
        end
  end.

(** The layers that [Dedup] gives to the driver; [dedup] is the driver's. *)
Definition Dedup {R} (dedup : list string → M (World * D) R) : M St R :=
  imgs ← Images_;
  let topLayers := (imgs ≫= λ i, Images.TopLayer i :: Images.MappedTopLayers i)%list in
  writeToLayerStore (λ rlstore,
    layers ← foldM (chain_of fuel rlstore) [] topLayers;
    onLayers rlstore (Layers.onDriver (dedup layers))).
End StoreOps.
End StoreOps.
