(* ===== verification/StoreDemo.v ===== *)
(** * A store that runs

    Concrete functions for the interfaces of [Store] and [StoreOps], checks that
    decide the invariants of a given store, and a store with two layers, an
    image and a container. *)

From S2P Require Import Prelude World Paths StoreUtil Strconv Json IdTools IdSet TruncIndex LockFile TempDir Registry.
From S2P Require Import StoreLock ContainerStore ContainerFacts ImageStore ImageFacts GraphDriver LayerData LayerStore LayerDemo.
From S2P Require Import LayerFacts Store StoreOps.

Local Open Scope string_scope.

Module StoreDemo.
Import Stores StoreOps LayerDemo.

(** ** Checks *)

Section Registry.
Context {R : Type} `{NamedLaws R}.
Notation registry := (registry (gset string) R).
Implicit Type r : registry.

(** The record at [p] has a property. *)
Definition holds r (p : positive) (P : R → Prop) : Prop := from_option P False (Registry.heap r !! p).
#[global] Instance holds_dec r p P `{∀ x, Decision (P x)} : Decision (holds r p P).
Proof. unfold holds. destruct (Registry.heap r !! p); simpl; apply _. Defined.

Lemma holds_iff r p P : holds r p P ↔ ∃ x, Registry.heap r !! p = Some x ∧ P x.
Proof. unfold holds. destruct (Registry.heap r !! p) as [x|]; simpl; [|by split; [|intros (? & ? & ?)]]. split; [by eauto|]. by intros (? & [= ->] & ?). Qed.

Definition idstate r : Prop :=
  TruncIndex.trie (idindex r) = TruncIndex.ids (idindex r) ∧
  TruncIndex.ids (idindex r) = filter (λ i, i ≠ "" ∧ TruncIndex.contains_space i = false) (dom (byid r)).

Definition reg_checks r : bool :=
  bool_decide (NoDup (objs r)) && bool_decide (map_Forall (λ p _, (p < nextp r)%positive) (Registry.heap r)) &&
  bool_decide (map_Forall (λ i p, p ∈ objs r ∧ holds r p (λ x, rid x = i)) (byid r)) &&
  bool_decide (Forall (λ p, holds r p (λ x, byid r !! rid x = Some p ∧ Forall (λ n, byname r !! n = Some p) (rnames x))) (objs r)) &&
  bool_decide (map_Forall (λ n p, p ∈ objs r ∧ holds r p (λ x, n ∈ rnames x)) (byname r)) &&
  bool_decide (idstate r).

Lemma reg_checked r : reg_checks r = true → reg_wf r.
Proof.
  unfold reg_checks. rewrite !andb_true_iff, !bool_decide_eq_true. intros (((((Hnd & Hnx) & Hid) & Hob) & Hbn) & [Htr Hids]).
  rewrite Forall_forall in Hob. split.
  - done.
  - intros p (x & Hx & _)%Hob%holds_iff. by eauto.
  - intros p [x Hx]. by apply (Hnx p x).
  - intros i p. split.
    + intros [Hp (x & Hx & Hi)%holds_iff]%Hid. rewrite Hx. simpl. by rewrite Hi.
    + intros [(x & Hx & Hi & _)%Hob%holds_iff E]. rewrite Hx in E. simpl in E. by injection E as <-.
  - intros n q. split.
    + intros [Hp (x & Hx & Hn)%holds_iff]%Hbn. by eauto.
    + intros [(x & Hx & _ & Hn)%Hob%holds_iff (y & Hy & Hny)]. rewrite Hx in Hy. injection Hy as <-.
      rewrite Forall_forall in Hn. by apply Hn.
  - split; [exact Htr|]. rewrite Hids. by intros i [? _]%elem_of_filter.
  - intros i. rewrite Hids, elem_of_filter, elem_of_dom. unfold TruncIndex.valid. tauto.
Qed.
End Registry.

Definition sum_checks (f : Layer → string) (m : gmap string (list string)) (g : registry (gset string) Layer) : bool :=
  bool_decide (map_Forall (λ d l, NoDup l ∧ (l = [] ∨ d ≠ "") ∧
    Forall (λ id, Exists (λ p, holds g p (λ l, LayerData.ID l = id ∧ f l = d)) (objs g)) l) m) &&
  bool_decide (Forall (λ p, holds g p (λ l, LayerData.layerHasIncompleteFlag l = true ∨ f l = "" ∨ LayerData.ID l ∈ default [] (m !! f l))) (objs g)).

Lemma sum_checked f m g : sum_checks f m g = true → LayerFacts.sum_ok f m g.
Proof.
  unfold sum_checks. rewrite andb_true_iff, !bool_decide_eq_true, Forall_forall. intros [Hm Hob]. split.
  - intros d id Hin. destruct (m !! d) as [l|] eqn:El; [|by apply elem_of_nil in Hin]. simpl in Hin.
    destruct (Hm d l El) as (_ & Hd & Hf). rewrite Forall_forall in Hf. specialize (Hf id Hin).
    apply Exists_exists in Hf as (p & Hp & (x & Hx & Hi & Hfx)%holds_iff). split; [|by eauto 6].
    destruct Hd as [->|]; [by apply elem_of_nil in Hin|done].
  - intros d. destruct (m !! d) as [l|] eqn:El; [by apply (Hm d l El)|constructor].
  - intros p l Hp Hl Hinc Hf. apply Hob, holds_iff in Hp as (x & Hx & Hor). rewrite Hl in Hx. injection Hx as <-.
    destruct Hor as [|[|]]; congruence || done.
Qed.

Definition layer_checks (r : Layers.layerStore (gset string) nameDriver (gset string)) : bool :=
  reg_checks (Layers.reg r) && sum_checks LayerData.CompressedDigest (Layers.bycompressedsum r) (Layers.reg r) &&
  sum_checks LayerData.UncompressedDigest (Layers.byuncompressedsum r) (Layers.reg r).
Lemma layers_checked r : layer_checks r = true → LayerFacts.store_wf r.
Proof.
  unfold layer_checks. rewrite !andb_true_iff. intros [[Hr Hc] Hu].
  split; [by apply reg_checked|]. split; by apply sum_checked.
Qed.

Definition image_checks (m : Images.imageMem (gset string)) : bool :=
  reg_checks (Images.reg m) &&
  bool_decide (map_Forall (λ d l, l ≠ [] ∧ NoDup l ∧
    Forall (λ p, p ∈ objs (Images.reg m) ∧ holds (Images.reg m) p (λ i, d ∈ Images.i_Digests i)) l) (Images.bydigest m)).
Lemma images_checked m : image_checks m = true → ImageFacts.mem_wf ImageFacts.partial m.
Proof.
  unfold image_checks. rewrite andb_true_iff, bool_decide_eq_true. intros [Hr Hd]. split; [by apply reg_checked| | |done].
  - intros d l El. by destruct (Hd d l El) as (? & ? & _).
  - intros d p Hin. unfold ImageFacts.holders in Hin. destruct (Images.bydigest m !! d) as [l|] eqn:El; [|by apply elem_of_nil in Hin].
    destruct (Hd d l El) as (_ & _ & Hf). rewrite Forall_forall in Hf. destruct (Hf p Hin) as [? (x & ? & ?)%holds_iff]. by eauto.
Qed.

Definition container_checks (m : Containers.containerMem (gset string)) : bool :=
  reg_checks (Containers.reg m) &&
  bool_decide (map_Forall (λ l p, p ∈ objs (Containers.reg m) ∧ holds (Containers.reg m) p (λ c, Containers.LayerID c = l)) (Containers.bylayer m)) &&
  bool_decide (Forall (λ p, holds (Containers.reg m) p (λ c, NoDup (Containers.Names c))) (objs (Containers.reg m))).
Lemma containers_checked m : container_checks m = true → ContainerFacts.mem_wf m.
Proof.
  unfold container_checks. rewrite !andb_true_iff, !bool_decide_eq_true, Forall_forall. intros [[Hr Hl] Hn].
  split; [by apply reg_checked| |].
  - intros l p [Hp (x & Hx & E)%holds_iff]%Hl. rewrite Hx. simpl. by rewrite E.
  - intros p c Hp Hc. apply Hn, holds_iff in Hp as (x & Hx & ?). rewrite Hc in Hx. by injection Hx as <-.
Qed.

(** ** Interfaces *)

#[global] Instance name_drivers : Drivers nameDriver := {
  New _ _ := mret (mkNameDriver ∅ ∅);
  String_ _ := "names";
  AdditionalImageStores _ := [];
  DriverCleanup := mret tt;
  StartStagingDiffToApply := Some (λ _ o, mret (None, "/staged", Z.of_nat (String.length (Diff o)), None))
}.
#[global] Instance no_labels : Labels (gset string) := λ _ s, (s, inl ("", "")).
#[global] Instance plain_host : Host := {
  IsRootless := false; RootlessUser := ""; SubIDs _ := inl ([mkIDMap 0 100000 65536], [mkIDMap 0 100000 65536]);
  ParsePasswd _ := inl []; ParseGroup _ := inl []
}.

(** ** A store

    Two layers, the upper one the top layer of an image, and a container of
    the image. *)

Notation demo_store := (Stores.store (T := gset string) (D := nameDriver) (L := gset string)).
Notation demo_st := (World * demo_store)%type.

Definition demo_conf : storeConf := mkStoreConf "/run" [] "/root" [] "" None None "" 1024 0 false false.
Definition demo_lock p := mkLockFile p false MFree 0 (mkLastWrite None) ReadLock false.
Definition demo_blank : demo_store :=
  mkStore demo_conf "" (demo_lock "") (demo_lock "") 0 [] [] (Containers.emptyStore (demo_lock "") (Containers.mkConf "" [])) ""
    (mkLastWrite None) 0 None [] (mkHeap [] [] [] ∅ ∅).
Definition demo_open : demo_st :=
  let '(s, o) := Stores.load (T := gset string) (D := nameDriver) (L := gset string) demo_conf "" (demo_lock "/root/storage.lock")
                   (demo_lock "/root/userns.lock") ∅ (demo_world, ∅) in
  (fst s, match o with Ret st => st | _ => demo_blank end).

Notation PutLayer' := (PutLayer (T := gset string) (D := nameDriver) (L := gset string) 8).
Notation CreateImage' := (CreateImage (T := gset string) (D := nameDriver) (L := gset string) 8).
Notation CreateContainer' := (CreateContainer (T := gset string) (D := nameDriver) (L := gset string) (IS := ListSet.list_set) 8).

Definition demo_layer : demo_st := fst (PutLayer' "aaa1" "" ["base"] "" false None (Some "data") demo_open).
Definition demo_layers : demo_st := fst (PutLayer' "bbb1" "base" [] "" false None (Some "data2") demo_layer).
Definition demo_image : demo_st := fst (CreateImage' "ccc1" ["img"] "bbb1" "" None demo_layers).
Definition demo_container : demo_st := fst (CreateContainer' "ddd1" ["ctr"] "img" "eee1" "" None demo_image).

(** Each step succeeds. *)
Example demo_steps :
  (LayerData.ID ∘ fst <$> snd (PutLayer' "aaa1" "" ["base"] "" false None (Some "data") demo_open)) = Ret "aaa1" ∧
  (LayerData.Parent ∘ fst <$> snd (PutLayer' "bbb1" "base" [] "" false None (Some "data2") demo_layer)) = Ret "aaa1" ∧
  (Images.TopLayer <$> snd (CreateImage' "ccc1" ["img"] "bbb1" "" None demo_layers)) = Ret "bbb1" ∧
  ((λ c, (Containers.ID c, Containers.LayerID c)) <$> snd (CreateContainer' "ddd1" ["ctr"] "img" "eee1" "" None demo_image)) = Ret ("ddd1", "eee1").
Proof. split_and!; vm_compute; reflexivity. Qed.
End StoreDemo.
