(* ===== verification/StoreFacts.v ===== *)
(** * The store: references between layers, images and containers

    A layer names its parent, an image its top layers, a container its layer
    and its image.  The stores are separate files under separate locks, so
    nothing but the code of [store.go] keeps these names from dangling.  Here:
    what the deletions do with all three stores locked, which references they
    leave intact, and that the walks along parents end. *)

From S2P Require Import Prelude World Paths StoreUtil Strconv Json IdTools IdSet TruncIndex LockFile TempDir Registry.
From S2P Require Import StoreLock ContainerStore ContainerFacts ImageStore ImageFacts GraphDriver LayerData LayerStore LayerDemo.
From S2P Require Import LayerFacts Store StoreOps StoreDemo.

Local Open Scope string_scope.

Module StoreFacts.
Import Stores StoreOps.

Notation labs := LayerFacts.abs.
Notation iabs := ImageFacts.abs.
Notation cabs := ContainerFacts.abs.

Section Facts.
Context {T : Type} `{PatriciaTrieSpec T} {IS : Type} `{IntervalSet IS}.
Context {D : Type} `{GraphDriver D} `{Drivers D} {L : Type} `{Selinux L} `{Labels L}.
Context `{Containers.ContainerJSON} `{Images.ImageJSON} `{LayerData.LayerJSON}.
Context `{Digests} `{Streams} `{MapRangeSpec} `{Layers.SortCreated} `{Host}.
Context (fuel : nat).

Notation store := (Stores.store (T := T) (D := D) (L := L)).
Notation St := (World * store)%type.
Notation layerStore := (Layers.layerStore T D L).
Notation imageStore_t := (rstore string (Images.imageMem T)).
Notation containerStore_t := (rstore Containers.containerConf (Containers.containerMem T)).

(** ** What an operation sees

    The layer store it works on, with the driver and the labels in place, the
    image stores and the container store, and the fields that do not change
    under the locks. *)

Record fixed := mkFixed {
  f_conf : storeConf;
  f_name : string;
  f_driver : nat;
  f_imageStore : nat;
  f_rwImageStores : list nat;
  f_roImageStores : list nat
}.

Definition fixed_of (s : store) : fixed :=
  mkFixed (conf s) (graphDriverName s) (graphDriver s) (imageStore s) (rwImageStores s) (roImageStores s).

Record view := mkView {
  v_layers : layerStore;
  v_images : list imageStore_t;
  v_containers : containerStore_t;
  v_fixed : fixed
}.

Definition layer_at (h : nat) (s : store) : option layerStore :=
  '(d, r) ← layerStores (heap s) !! h;
  drv ← drivers (heap s) !! d;
  Some (Layers.set_labels (labels (heap s)) (Layers.set_driver drv r)).

Definition sees (h : nat) (s : St) (v : view) : Prop :=
  layer_at h (snd s) = Some (v_layers v) ∧ imageStores (heap (snd s)) = v_images v ∧
  containerStore (snd s) = v_containers v ∧ fixed_of (snd s) = v_fixed v.

(** A method of a component changes its part of what is seen. *)
Lemma wp_onLayers {A} h (m : M (World * layerStore) A) Φ s v :
  sees h s v →
  wp m (λ o t, ∀ s', fst s' = fst t → sees h s' (mkView (snd t) (v_images v) (v_containers v) (v_fixed v)) → Φ o s')
     (fst s, v_layers v) →
  wp (onLayers h m) Φ s.
Proof.
  intros (Hl & Hi & Hc & Hf) Hm. unfold layer_at in Hl. unfold wp, onLayers in *.
  destruct (layerStores (heap (snd s)) !! h) as [[d r]|] eqn:Er; [|done]. simpl in Hl.
  destruct (drivers (heap (snd s)) !! d) as [drv|] eqn:Ed; [|done]. simpl in Hl. injection Hl as Hl.
  rewrite Hl. destruct (m (fst s, v_layers v)) as [[w r'] o]. simpl in *. apply Hm; [done|].
  split_and!; [|done..]. unfold layer_at. simpl.
  rewrite list_lookup_insert_eq by (by eapply lookup_lt_Some). simpl.
  rewrite list_lookup_insert_eq by (by eapply lookup_lt_Some). simpl. by destruct r'.
Qed.

Lemma wp_onImages {A} h i (m : M (World * imageStore_t) A) Φ s v r :
  sees h s v → v_images v !! i = Some r →
  wp m (λ o t, ∀ s', fst s' = fst t → sees h s' (mkView (v_layers v) (<[i := snd t]> (v_images v)) (v_containers v) (v_fixed v)) → Φ o s')
     (fst s, r) →
  wp (onImages i m) Φ s.
Proof.
  intros (Hl & Hi & Hc & Hf) Hr Hm. unfold wp, onImages in *. rewrite Hi, Hr.
  destruct (m (fst s, r)) as [[w r'] o]. simpl in *. by apply Hm.
Qed.

Lemma wp_onContainers {A} h (m : M (World * containerStore_t) A) Φ s v :
  sees h s v →
  wp m (λ o t, ∀ s', fst s' = fst t → sees h s' (mkView (v_layers v) (v_images v) (snd t) (v_fixed v)) → Φ o s')
     (fst s, v_containers v) →
  wp (onContainers m) Φ s.
Proof.
  intros (Hl & Hi & Hc & Hf) Hm. unfold wp, onContainers, zoom in *. rewrite Hc.
  destruct (m (fst s, v_containers v)) as [[w r'] o]. simpl in *. by apply Hm.
Qed.

Lemma wp_getS_fixed {A} h (f : fixed → A) (g : store → A) Φ s v :
  sees h s v → (∀ s, g s = f (fixed_of s)) → Φ (Ret (f (v_fixed v))) s → wp (getS g) Φ s.
Proof. intros (_ & _ & _ & <-) E HΦ. unfold getS. apply wp_gets. by rewrite E. Qed.

(** ** Taking and releasing the locks *)

(** The same records and indexes: locks, mounts, files and the driver may
    differ. *)
Definition alike (v v' : view) : Prop :=
  LayerFacts.core_of (v_layers v') = LayerFacts.core_of (v_layers v) ∧
  mem <$> v_images v' = mem <$> v_images v ∧ mem (v_containers v') = mem (v_containers v) ∧ v_fixed v' = v_fixed v.

#[global] Instance alike_equiv : Equivalence alike.
Proof.
  split; [by intros v|by intros v v' (? & ? & ? & ?)|].
  intros v1 v2 v3 (E1 & E2 & E3 & E4) (F1 & F2 & F3 & F4). split_and!; congruence.
Qed.

(** The part of the state that a relation between views is about. *)
Definition related (R : view → view → Prop) (h : nat) (s s' : St) : Prop :=
  ∀ v, sees h s v → ∃ v', sees h s' v' ∧ R v v'.

#[global] Instance related_preorder R h : PreOrder R → PreOrder (related R h).
Proof.
  intros HR. split.
  - intros s v Hv. by exists v.
  - intros s1 s2 s3 Hr1 Hr2 v Hv. destruct (Hr1 v Hv) as (v2 & Hv2 & E2). destruct (Hr2 v2 Hv2) as (v3 & Hv3 & E3).
    exists v3. split; [done|by etrans].
Qed.

Notation calmly h m := (moves (related alike h) m).

Lemma alike_onLayers {A} h (m : M (World * layerStore) A) : moves LayerFacts.same_core m → calmly h (onLayers h m).
Proof.
  intros Hm s v Hv.
  apply (wp_onLayers (A := A) h m (λ _ s', ∃ v', sees h s' v' ∧ alike v v') s v Hv). unfold wp.
  intros s' _ Hs'. eexists. split; [exact Hs'|]. split_and!; try done. exact (Hm (fst s, v_layers v)).
Qed.

Definition mem_stays {C Mem} (s s' : World * rstore C Mem) : Prop := mem (snd s') = mem (snd s).
#[global] Instance mem_stays_preorder {C Mem} : PreOrder (@mem_stays C Mem).
Proof. split; unfold mem_stays; [done|]. intros ? ? ? E1 E2. by rewrite E2. Qed.

Lemma alike_onImages {A} h i (m : M (World * imageStore_t) A) : moves mem_stays m → calmly h (onImages i m).
Proof.
  intros Hm s v Hv. destruct (v_images v !! i) as [r|] eqn:Er.
  - apply (wp_onImages (A := A) h i m (λ _ s', ∃ v', sees h s' v' ∧ alike v v') s v r Hv Er). unfold wp.
    intros s' _ Hs'. eexists. split; [exact Hs'|]. split_and!; try done. simpl.
    rewrite list_fmap_insert. apply list_insert_id. rewrite list_lookup_fmap, Er. simpl. f_equal.
    symmetry. exact (Hm (fst s, r)).
  - exists v. split; [|done]. unfold onImages. pose proof Hv as (_ & Hi & _). by rewrite Hi, Er.
Qed.

Lemma alike_onContainers {A} h (m : M (World * containerStore_t) A) : moves mem_stays m → calmly h (onContainers m).
Proof.
  intros Hm s v Hv. apply (wp_onContainers (A := A) h m (λ _ s', ∃ v', sees h s' v' ∧ alike v v') s v Hv). unfold wp.
  intros s' _ Hs'. eexists. split; [exact Hs'|]. split_and!; try done. exact (Hm (fst s, v_containers v)).
Qed.

Lemma same_core_stopWriting : moves LayerFacts.same_core (Layers.stopWriting (T := T) (D := D) (L := L)).
Proof.
  unfold Layers.stopWriting, Layers.ip_Unlock, Layers.on_mutex, Layers.multi_Unlock, Layers.getR.
  moves_steps; [by apply LayerFacts.same_core_modR|apply LayerFacts.same_core_each].
Qed.

Section Stays.
Context {C Mem : Type}.
Lemma stays_onLock {A} (m : M LF A) : moves mem_stays (onLock (C := C) (Mem := Mem) m).
Proof. intros [w r]. unfold onLock, zoom. simpl. by destruct (m (w, lockfile r)). Qed.
Lemma stays_mutex f c : moves mem_stays (on_mutex (C := C) (Mem := Mem) f c).
Proof.
  intros [w r]. unfold on_mutex, getR, gets, mbind, M_bind. simpl. by destruct (f (inProcessLock r)).
Qed.
Lemma stays_stopWriting : moves mem_stays (StoreLock.stopWriting (C := C) (Mem := Mem)).
Proof.
  unfold StoreLock.stopWriting, ip_Unlock. apply moves_bind; [apply _|apply stays_mutex|intros _; apply stays_onLock].
Qed.
End Stays.

(** The prefix of [writeToAllStores] that takes the locks. *)
Definition lock_all : M St nat :=
  h ← getLayerStore;
  _ ← onLayers h Layers.startWriting;
  i ← getS imageStore;
  _ ← onImages i Images.startWriting;
  _ ← onContainers Containers.startWriting;
  mret h.

(** A property of the records that the function establishes, whatever happens,
    still holds when the locks are released. *)
Lemma wp_writeToAllStores {R} (fn : nat → M St R) (Q : outcome R → view → Prop) s s1 h :
  lock_all s = (s1, Ret h) →
  (∀ o v v', alike v v' → Q o v → Q o v') → (∀ o c v, Q o v → Q (Crash c) v) →
  wp (fn h) (λ o s2, ∃ v, sees h s2 v ∧ Q o v) s1 →
  wp (writeToAllStores fn) (λ o s', ∃ v, sees h s' v ∧ Q o v) s.
Proof.
  intros Hlock Halike Hcrash Hfn.
  assert (∀ (m : M St R) (cl : M St unit) s0, calmly h cl → wp m (λ o s2, ∃ v, sees h s2 v ∧ Q o v) s0 →
            wp (finally m cl) (λ o s2, ∃ v, sees h s2 v ∧ Q o v) s0) as Hfin.
  { intros m cl s0 Hcl Hm. wp_step. eapply wp_mono; [exact Hm|]. intros o s2 (v & Hv & HQ).
    assert (∀ s3, related alike h s2 s3 → ∃ v', sees h s3 v' ∧ Q o v') as Hend.
    { intros s3 Hr. destruct (Hr v Hv) as (v' & Hv' & Ha). exists v'. split; [done|]. by eapply Halike. }
    destruct o as [a|e|c]; [| |by eauto]; (eapply wp_moves; [exact Hcl|]; intros [[]|e'|c] s3 Hr; [by apply Hend|by apply Hend|]);
      destruct (Hend s3 Hr) as (v' & Hv' & HQ'); eauto. }
  unfold lock_all in Hlock. unfold writeToAllStores.
  apply run_bind_ret in Hlock as (t1 & h' & E1 & Hlock). apply run_bind_ret in Hlock as (t2 & [] & E2 & Hlock).
  apply run_bind_ret in Hlock as (t3 & i & E3 & Hlock). apply run_bind_ret in Hlock as (t4 & [] & E4 & Hlock).
  apply run_bind_ret in Hlock as (t5 & [] & E5 & Hlock). injection Hlock as -> ->.
  unfold wp at 1, mbind, M_bind. rewrite E1. unfold wp, mbind, M_bind in Hfn |- *. rewrite E2.
  apply Hfin; [apply alike_onLayers, same_core_stopWriting|]. unfold wp. rewrite E3, E4.
  apply Hfin; [apply alike_onImages, stays_stopWriting|]. unfold wp. rewrite E5.
  apply Hfin; [apply alike_onContainers, stays_stopWriting|]. exact Hfn.
Qed.

(** ** Reading *)

Lemma read_layers {A} h (m : M (World * layerStore) A) Φ s v o :
  sees h s v → (∀ w, m (w, v_layers v) = ((w, v_layers v), o)) → (∀ s', sees h s' v → Φ o s') → wp (onLayers h m) Φ s.
Proof.
  intros Hv Hm HΦ. eapply wp_onLayers; [done|]. unfold wp. rewrite Hm. intros s' _ Hs'. apply HΦ. by destruct v.
Qed.

Lemma read_images {A} h i (m : M (World * imageStore_t) A) Φ s v r o :
  sees h s v → v_images v !! i = Some r → (∀ w, m (w, r) = ((w, r), o)) → (∀ s', sees h s' v → Φ o s') →
  wp (onImages i m) Φ s.
Proof.
  intros Hv Hr Hm HΦ. eapply wp_onImages; [done..|]. unfold wp. rewrite Hm. intros s' _ Hs'. apply HΦ.
  destruct v. simpl in *. by rewrite list_insert_id in Hs'.
Qed.

Lemma read_containers {A} h (m : M (World * containerStore_t) A) Φ s v o :
  sees h s v → (∀ w, m (w, v_containers v) = ((w, v_containers v), o)) → (∀ s', sees h s' v → Φ o s') →
  wp (onContainers m) Φ s.
Proof.
  intros Hv Hm HΦ. eapply wp_onContainers; [done|]. unfold wp. rewrite Hm. intros s' _ Hs'. apply HΦ. by destruct v.
Qed.

Lemma layer_Get_run (r : layerStore) id w :
  reg_wf (Layers.reg r) →
  Layers.Get id (w, r) = ((w, r), match Layers.find r id with
                                  | Some p => from_option (λ l, Ret (LayerData.copyLayer l)) (Err ErrLayerUnknown) (Registry.heap (Layers.reg r) !! p)
                                  | None => Err ErrLayerUnknown
                                  end).
Proof.
  intros Hwf. unfold Layers.Get, Layers.lookup, Layers.getR, gets, mbind, M_bind. simpl.
  destruct (Layers.find r id) as [p|] eqn:Ef; [|done]. simpl.
  destruct (LayerFacts.layer_find_some _ _ _ Hwf Ef) as [_ [l Hl]].
  unfold Layers.deref, Layers.getR, gets, mbind, M_bind. simpl. by rewrite Hl.
Qed.

Lemma image_Get_run (r : imageStore_t) id w ok :
  ImageFacts.mem_wf ok (mem r) →
  Images.Get id (w, r) = ((w, r), match Images.find (mem r) id with
                                  | Some p => from_option (λ l, Ret (Images.copyImage l)) (Err ErrImageUnknown) (Registry.heap (Images.reg (mem r)) !! p)
                                  | None => Err ErrImageUnknown
                                  end).
Proof.
  intros Hwf. unfold Images.Get, Images.lookup, getMem, gets, mbind, M_bind. simpl.
  destruct (Images.find (mem r) id) as [p|] eqn:Ef; [|done]. simpl.
  destruct (ImageFacts.img_find_some _ _ _ _ Hwf Ef) as [_ [l Hl]].
  unfold Images.deref, getMem, gets, mbind, M_bind. simpl. by rewrite Hl.
Qed.

Lemma container_Get_run (r : containerStore_t) id w :
  ContainerFacts.mem_wf (mem r) →
  Containers.Get id (w, r) = ((w, r), match Containers.find (mem r) id with
                                  | Some p => from_option (λ l, Ret (Containers.copyContainer l)) (Err ErrContainerUnknown) (Registry.heap (Containers.reg (mem r)) !! p)
                                  | None => Err ErrContainerUnknown
                                  end).
Proof.
  intros Hwf. unfold Containers.Get, Containers.lookup, getMem, gets, mbind, M_bind. simpl.
  destruct (Containers.find (mem r) id) as [p|] eqn:Ef; [|done]. simpl.
  destruct (ContainerFacts.find_some _ _ _ Hwf Ef) as [_ [l Hl]].
  unfold Containers.deref, getMem, gets, mbind, M_bind. simpl. by rewrite Hl.
Qed.

(** ** The graph of references

    What the deletions depend on: the parent of every layer, the top layers of
    every image, the layer and the image of every container. *)

Record refs := mkRefs {
  parents : gmap string string;
  tops : gmap string (string * list string);
  uses : gmap string (string * string)
}.

Definition refs_of (v : view) : refs :=
  mkRefs (LayerData.Parent <$> labs (v_layers v))
    (from_option (λ r, (λ g, (Images.TopLayer g, Images.MappedTopLayers g)) <$> iabs (mem r)) ∅
       (v_images v !! f_imageStore (v_fixed v)))
    ((λ c, (Containers.LayerID c, Containers.ImageID c)) <$> cabs (mem (v_containers v))).

(** No name of a layer dangles. *)
Record intact (g : refs) : Prop := {
  in_parent i p : parents g !! i = Some p → p ≠ "" → is_Some (parents g !! p);
  in_top i t m : tops g !! i = Some (t, m) → t ≠ "" → is_Some (parents g !! t);
  in_layer i l j : uses g !! i = Some (l, j) → is_Some (parents g !! l)
}.
Definition intact_mapped (g : refs) : Prop :=
  ∀ i t m x, tops g !! i = Some (t, m) → x ∈ m → is_Some (parents g !! x).

(** The layer of a container is nobody else's; a mapped copy of a top layer
    belongs to one image, and only containers of that image are on top of it. *)
Record private (g : refs) : Prop := {
  pr_leaf i l j k p : uses g !! i = Some (l, j) → parents g !! k = Some p → p ≠ l;
  pr_top i l j k t m : uses g !! i = Some (l, j) → tops g !! k = Some (t, m) → t ≠ l ∧ l ∉ m;
  pr_one i l j i' j' : uses g !! i = Some (l, j) → uses g !! i' = Some (l, j') → i = i';
  pr_mapped i t m x k : tops g !! i = Some (t, m) → x ∈ m → parents g !! k = Some x → ∃ c, uses g !! c = Some (k, i);
  pr_image i t m x i' t' m' : tops g !! i = Some (t, m) → x ∈ m → tops g !! i' = Some (t', m') → t' ≠ x ∧ (x ∈ m' → i = i');
  pr_nodup i t m : tops g !! i = Some (t, m) → NoDup m
}.

(** Every container is found by its layer. *)
Definition indexed (m : Containers.containerMem T) : Prop :=
  ∀ i c, cabs m !! i = Some c → is_Some (Containers.bylayer m !! Containers.LayerID c).

Record consistent (v : view) : Prop := {
  co_layers : LayerFacts.store_wf (v_layers v);
  co_images : ∃ r, v_images v !! f_imageStore (v_fixed v) = Some r ∧ ImageFacts.mem_wf ImageFacts.partial (mem r);
  co_containers : ContainerFacts.mem_wf (mem (v_containers v));
  co_indexed : indexed (mem (v_containers v))
}.

Definition sound (v : view) : Prop :=
  consistent v ∧ intact (refs_of v) ∧ intact_mapped (refs_of v) ∧ private (refs_of v).

(** *** Lists of records and the graph *)

Lemma layer_parent v i p :
  LayerFacts.store_wf (v_layers v) →
  parents (refs_of v) !! i = Some p ↔ ∃ l, l ∈ reg_values (Layers.reg (v_layers v)) ∧ LayerData.ID l = i ∧ LayerData.Parent l = p.
Proof.
  intros [Hwf _]. simpl. rewrite lookup_fmap. unfold LayerFacts.abs. rewrite LayerFacts.reg_abs_flat, lookup_fmap.
  rewrite fmap_Some. setoid_rewrite fmap_Some. setoid_rewrite (reg_abs_values _ _ _ Hwf). split.
  - intros (l & (l0 & [Hl Hi] & ->) & ->). by exists l0.
  - intros (l & Hl & <- & <-). eexists. split; [by exists l|done].
Qed.

Lemma Exists_layers v (P : string → string → Prop) :
  LayerFacts.store_wf (v_layers v) →
  Exists (λ l, P (LayerData.ID l) (LayerData.Parent l)) (LayerData.copyLayer <$> reg_values (Layers.reg (v_layers v))) ↔
  ∃ i p, parents (refs_of v) !! i = Some p ∧ P i p.
Proof.
  intros Hwf. rewrite Exists_exists. setoid_rewrite list_elem_of_fmap. setoid_rewrite (layer_parent _ _ _ Hwf). split.
  - intros (l & (l0 & -> & Hl) & HP). by exists (LayerData.ID l0), (LayerData.Parent l0); eauto.
  - intros (i & p & (l & Hl & <- & <-) & HP). exists (LayerData.copyLayer l). by eauto.
Qed.

Definition image_refs (g : Image) : string * list string := (Images.TopLayer g, Images.MappedTopLayers g).

Lemma image_top v r i t :
  v_images v !! f_imageStore (v_fixed v) = Some r → reg_wf (Images.reg (mem r)) →
  tops (refs_of v) !! i = Some t ↔ ∃ g, g ∈ reg_values (Images.reg (mem r)) ∧ Images.ID g = i ∧ image_refs g = t.
Proof.
  intros Hr Hwf. simpl. rewrite Hr. simpl. rewrite lookup_fmap, fmap_Some. unfold ImageFacts.abs.
  setoid_rewrite (reg_abs_values _ _ _ Hwf). split; [intros (g & [Hg Hi] & ->)|intros (g & Hg & Hi & <-)]; by exists g.
Qed.

Lemma container_use v i u :
  ContainerFacts.mem_wf (mem (v_containers v)) →
  uses (refs_of v) !! i = Some u ↔
  ∃ c, c ∈ reg_values (Containers.reg (mem (v_containers v))) ∧ Containers.ID c = i ∧ (Containers.LayerID c, Containers.ImageID c) = u.
Proof.
  intros [Hwf _ _]. simpl. rewrite lookup_fmap, fmap_Some. unfold ContainerFacts.abs.
  setoid_rewrite (reg_abs_values _ _ _ Hwf). split; [intros (c & [Hc Hi] & ->)|intros (c & Hc & Hi & <-)]; by exists c.
Qed.

Lemma Exists_containers v (P : string * string → Prop) :
  ContainerFacts.mem_wf (mem (v_containers v)) →
  Exists (λ c, P (Containers.LayerID c, Containers.ImageID c)) (Containers.copyContainer <$> reg_values (Containers.reg (mem (v_containers v)))) ↔
  ∃ i u, uses (refs_of v) !! i = Some u ∧ P u.
Proof.
  intros Hwf. rewrite Exists_exists. setoid_rewrite list_elem_of_fmap. setoid_rewrite (container_use _ _ _ Hwf). split.
  - intros (c & (c0 & -> & Hc) & HP). by exists (Containers.ID c0), (Containers.LayerID c0, Containers.ImageID c0); eauto 6.
  - intros (i & u & (c & Hc & <- & <-) & HP). exists (Containers.copyContainer c). by eauto.
Qed.

Lemma Exists_images v r (P : string → string * list string → Prop) :
  v_images v !! f_imageStore (v_fixed v) = Some r → reg_wf (Images.reg (mem r)) →
  Exists (λ g, P (Images.ID g) (image_refs g)) (Images.copyImage <$> reg_values (Images.reg (mem r))) ↔
  ∃ i t, tops (refs_of v) !! i = Some t ∧ P i t.
Proof.
  intros Hr Hwf. rewrite Exists_exists. setoid_rewrite list_elem_of_fmap. setoid_rewrite (image_top _ _ _ _ Hr Hwf).
  assert (∀ g, image_refs (Images.copyImage g) = image_refs g) as E.
  { intros g. unfold image_refs. simpl. by rewrite copySlicePreferringNil_id. }
  split.
  - intros (g & (g0 & -> & Hg) & HP). rewrite E in HP. by exists (Images.ID g0), (image_refs g0); eauto 6.
  - intros (i & t & (g & Hg & <- & <-) & HP). exists (Images.copyImage g). rewrite E. by eauto.
Qed.

(** *** Operations on the graph *)

Definition drop_parent (x : string) (g : refs) : refs := mkRefs (delete x (parents g)) (tops g) (uses g).
Definition without (x : string) (m : list string) : list string := RemoveFromSlice m x.
Definition unmap (x : string) (g : refs) : refs := mkRefs (parents g) (prod_map id (without x) <$> tops g) (uses g).
Definition drop_image (i : string) (g : refs) : refs := mkRefs (parents g) (delete i (tops g)) (uses g).
Definition drop_container (i : string) (g : refs) : refs := mkRefs (parents g) (tops g) (delete i (uses g)).

(** Nothing refers to the layer [x]; nothing but lists of mapped layers. *)
Record free (x : string) (g : refs) : Prop := {
  fr_parent i : parents g !! i ≠ Some x;
  fr_top i t m : tops g !! i = Some (t, m) → t ≠ x;
  fr_use i l j : uses g !! i = Some (l, j) → l ≠ x
}.

Lemma is_Some_delete_ne {A} (m : gmap string A) x y : x ≠ y → is_Some (m !! y) → is_Some (delete x m !! y).
Proof. intros Hne. by rewrite lookup_delete_ne. Qed.

Lemma intact_drop_parent x g : free x g → intact g → intact (drop_parent x g).
Proof.
  intros [Hp Ht Hu] [Ip It Il]. split; simpl.
  - intros i p (Hi & Hip)%lookup_delete_Some Hne. apply is_Some_delete_ne; [|by eapply Ip]. intros ->. by apply (Hp i).
  - intros i t m Hi Hne. apply is_Some_delete_ne; [|by eapply It]. intros ->. by apply (Ht i t m).
  - intros i l j Hi. apply is_Some_delete_ne; [|by eapply Il]. intros ->. by apply (Hu i l j).
Qed.

(** Fewer layers, images and mapped layers. *)
Lemma private_sub g g' :
  parents g' ⊆ parents g → uses g' = uses g →
  (∀ i t m, tops g' !! i = Some (t, m) → ∃ m0, tops g !! i = Some (t, m0) ∧ m `sublist_of` m0) →
  private g → private g'.
Proof.
  intros Hp Hu Ht [Pl Pt Po Pm Pi Pn].
  assert (∀ (m m0 : list string) x, m `sublist_of` m0 → x ∈ m → x ∈ m0) as Hsub.
  { intros m m0 x Hs Hx. by eapply elem_of_sublist. }
  split; rewrite ?Hu.
  - intros i l j k p Hi Hk. eapply Pl; [done|]. by eapply lookup_weaken.
  - intros i l j k t m Hi (m0 & Hk & Hs)%Ht. destruct (Pt _ _ _ _ _ _ Hi Hk) as [? Hn]. split; [done|].
    intros Hm. apply Hn. by eapply Hsub.
  - done.
  - intros i t m x k (m0 & Hi & Hs)%Ht Hx Hk. eapply Pm; [done|by eapply Hsub|by eapply lookup_weaken].
  - intros i t m x i' t' m' (m0 & Hi & Hs)%Ht Hx (m0' & Hi' & Hs')%Ht.
    destruct (Pi _ _ _ x _ _ _ Hi (Hsub _ _ _ Hs Hx) Hi') as [? He]. split; [done|]. intros Hx'. apply He. by eapply Hsub.
  - intros i t m (m0 & Hi & Hs)%Ht. eapply sublist_NoDup; [|done]. by eapply Pn.
Qed.

Lemma private_drop_parent x g : private g → private (drop_parent x g).
Proof. apply private_sub; [apply delete_subseteq|done|by eauto]. Qed.

Lemma private_drop_image i g : private g → private (drop_image i g).
Proof. apply private_sub; [done|done|]. simpl. intros j t m [_ Hj]%lookup_delete_Some. eauto. Qed.

Lemma private_drop_container i l j g : private g → uses g !! i = Some (l, j) → parents g !! l = None → private (drop_container i g).
Proof.
  intros [Pl Pt Po Pm Pi Pn] Hi Hl.
  split; simpl; try done.
  - intros i0 l0 j0 k p [_ Hu]%lookup_delete_Some. by eapply Pl.
  - intros i0 l0 j0 k t m [_ Hu]%lookup_delete_Some. by eapply Pt.
  - intros i0 l0 j0 i' j' [_ Hu]%lookup_delete_Some [_ Hu']%lookup_delete_Some. by eapply Po.
  - intros i0 t m x k Ht Hx Hk. destruct (Pm _ _ _ _ _ Ht Hx Hk) as [c Hc]. exists c.
    rewrite lookup_delete_ne; [done|]. intros <-. rewrite Hi in Hc. injection Hc as -> ->. congruence.
Qed.

Lemma intact_drop_image i g : intact g → intact (drop_image i g).
Proof. intros [Ip It Il]. split; simpl; [done| |done]. intros j t m [_ Hj]%lookup_delete_Some. by eapply It. Qed.

Lemma intact_drop_container i g : intact g → intact (drop_container i g).
Proof. intros [Ip It Il]. split; simpl; [done|done|]. intros j l k [_ Hj]%lookup_delete_Some. by eapply Il. Qed.

Lemma EqualFold_refl x : EqualFold x x = true.
Proof. induction x as [|c x IH]; [done|]. simpl. by rewrite Ascii.eqb_refl. Qed.

Lemma without_self x m : x ∉ without x m.
Proof. unfold without, RemoveFromSlice. intros [Hf _]%list_elem_of_filter. by rewrite EqualFold_refl in Hf. Qed.

Lemma without_sublist x m : without x m `sublist_of` m.
Proof. apply sublist_filter. Qed.

Lemma without_absent x m : ¬ Exists (λ y, EqualFold y x = true) m → without x m = m.
Proof.
  intros Hn. unfold without, RemoveFromSlice. induction m as [|y m IH]; [done|]. rewrite Exists_cons in Hn.
  rewrite filter_cons. case_decide as Hd; [f_equal; apply IH; tauto|]. destruct Hn. left.
  destruct (EqualFold x y) eqn:E; [|done]. clear Hd IH. revert y E.
  induction x as [|a x IHx]; intros [|b y]; simpl; try done.
  rewrite !andb_true_iff, !Ascii.eqb_eq. intros [-> ?]. by auto.
Qed.

Lemma without_idem x m : without x (without x m) = without x m.
Proof. unfold without, RemoveFromSlice. by apply list_filter_filter_r. Qed.

(** Some of the images have lost the layer [x]. *)
Definition unmapping (x : string) (waiting : list string) (g g' : refs) : Prop :=
  parents g' = parents g ∧ uses g' = uses g ∧
  ∀ i, match tops g !! i with
       | None => tops g' !! i = None
       | Some (t, m) => ∃ m', tops g' !! i = Some (t, m') ∧ (m' = m ∨ m' = without x m) ∧ (i ∉ waiting → m' = without x m)
       end.

Lemma unmapping_done x g g' : unmapping x [] g g' → g' = unmap x g.
Proof.
  intros (Ep & Eu & Ht). destruct g' as [ps ts us]. simpl in *. subst. unfold unmap. f_equal. apply map_eq. intros i.
  rewrite lookup_fmap. specialize (Ht i). destruct (tops g !! i) as [[t m]|]; [|done].
  destruct Ht as (m' & -> & _ & Hm). rewrite Hm by apply not_elem_of_nil. done.
Qed.

Lemma intact_unmapping x l g g' : unmapping x l g g' → intact g → intact g'.
Proof.
  intros (Ep & Eu & Ht) [Ip It Il]. split; rewrite ?Ep, ?Eu; [done| |done]. intros i t m Hi Hne. specialize (Ht i).
  destruct (tops g !! i) as [[t0 m0]|] eqn:E; [|congruence]. destruct Ht as (m' & Hm' & _).
  rewrite Hi in Hm'. injection Hm' as -> ->. by eapply It.
Qed.

Lemma private_unmapping x l g g' : unmapping x l g g' → private g → private g'.
Proof.
  intros (Ep & Eu & Ht). apply private_sub; [by rewrite Ep|done|]. intros i t m Hi. specialize (Ht i).
  destruct (tops g !! i) as [[t0 m0]|] eqn:E; [|congruence]. destruct Ht as (m' & Hm' & Hor & _).
  rewrite Hi in Hm'. injection Hm' as -> ->. exists m0. split; [done|]. destruct Hor as [->| ->]; [done|apply without_sublist].
Qed.

(** ** Deleting a layer *)

Lemma fate_parents gone x (a a' : gmap string Layer) :
  LayerFacts.fate gone x a a' →
  LayerData.Parent <$> a' = if gone then delete x (LayerData.Parent <$> a) else LayerData.Parent <$> a.
Proof.
  destruct gone; simpl; [intros ->; apply fmap_delete|].
  intros [->|(l & Hl & ->)]; [done|]. rewrite fmap_insert. apply insert_id. by rewrite lookup_fmap, Hl.
Qed.

Definition drop_if (gone : bool) (x : string) (g : refs) : refs := if gone then drop_parent x g else g.

Lemma known_layer v x :
  LayerFacts.store_wf (v_layers v) → is_Some (parents (refs_of v) !! x) →
  ∃ p l, Layers.find (v_layers v) x = Some p ∧ Registry.heap (Layers.reg (v_layers v)) !! p = Some l ∧ LayerData.ID l = x.
Proof.
  intros Hwf [p (l & (q & Hq & Hl)%reg_values_elem & Hx & _)%(layer_parent _ _ _ Hwf)]. exists q, l.
  split_and!; [|done|done]. rewrite <- Hx. by apply (LayerFacts.layer_find_id _ q l (proj1 Hwf)).
Qed.

(** The layer is gone, or everything is as before; nothing else is touched. *)
Lemma drop_layer_wp h x s v :
  sees h s v → consistent v → is_Some (parents (refs_of v) !! x) →
  wp (drop_layer fuel h x) (λ o s', ∃ r gone,
    let v' := mkView r (v_images v) (v_containers v) (v_fixed v) in
    sees h s' v' ∧ consistent v' ∧ refs_of v' = drop_if gone x (refs_of v) ∧ (∀ cf, o = Ret (cf, None) → gone = true)) s.
Proof.
  intros Hv Hco Hx. destruct (known_layer v x (co_layers v Hco) Hx) as (p & l & Hf & Hl & Hid).
  eapply wp_onLayers; [done|]. eapply wp_mono; [apply LayerFacts.deferredDelete_wp, Hco|].
  intros o [w r]. simpl. rewrite Hf. intros (l' & Hl' & Hwf & gone & Hfate & Hret) s' _ Hs'. simpl in *.
  assert (l' = l) as -> by congruence. rewrite Hid in Hfate. exists r, gone. split; [exact Hs'|].
  destruct Hco as [_ Hi Hc Hb]. split; [by split|]. split; [|by intros cf ->; apply (Hret cf)].
  unfold refs_of, drop_if. simpl. rewrite (fate_parents _ _ _ _ Hfate). by destruct gone.
Qed.

Definition set_image (r : imageStore_t) (v : view) : view :=
  mkView (v_layers v) (<[f_imageStore (v_fixed v) := r]> (v_images v)) (v_containers v) (v_fixed v).

Lemma set_image_lookup r v r0 :
  v_images v !! f_imageStore (v_fixed v) = Some r0 → v_images (set_image r v) !! f_imageStore (v_fixed v) = Some r.
Proof. intros Hr. simpl. apply list_lookup_insert_eq. by eapply lookup_lt_Some. Qed.

Lemma refs_set_image r v r0 :
  v_images v !! f_imageStore (v_fixed v) = Some r0 →
  refs_of (set_image r v) = mkRefs (parents (refs_of v)) (image_refs <$> iabs (mem r)) (uses (refs_of v)).
Proof. intros Hr. pose proof (set_image_lookup r v r0 Hr) as E. simpl in E. unfold refs_of. simpl. by rewrite E. Qed.

Lemma consistent_set_image r v r0 :
  v_images v !! f_imageStore (v_fixed v) = Some r0 → ImageFacts.mem_wf ImageFacts.partial (mem r) →
  consistent v → consistent (set_image r v).
Proof.
  intros Hr Hwf [Hl _ Hc Hb]. split; try done. exists r. split; [|done]. exact (set_image_lookup r v r0 Hr).
Qed.

(** One image loses a mapped layer. *)
Lemma removeMapped_wp h i x s v r g :
  sees h s v → consistent v → v_images v !! f_imageStore (v_fixed v) = Some r → iabs (mem r) !! i = Some g →
  wp (onImages (f_imageStore (v_fixed v)) (Images.removeMappedTopLayer i x)) (λ o s', ∃ r',
    sees h s' (set_image r' v) ∧ consistent (set_image r' v) ∧
    (iabs (mem r') = iabs (mem r) ∧ ¬ is_ret o ∨
     iabs (mem r') = <[i := Images.set_MappedTopLayers (without x (Images.MappedTopLayers g)) g]> (iabs (mem r)))) s.
Proof.
  intros Hv Hco Hr Hg. destruct (co_images v Hco) as (r0 & Hr0 & Hwf). rewrite Hr in Hr0. injection Hr0 as <-.
  apply (reg_abs_lookup _ _ _ (ImageFacts.mem_reg _ _ Hwf)) in Hg as (p & Hp & Hg & Hi).
  assert (Images.find (mem r) i = Some p) as Hf.
  { apply ImageFacts.img_find_id, (wf_byid _ (ImageFacts.mem_reg _ _ Hwf)). split; [done|]. rewrite Hg. by simpl; f_equal. }
  eapply wp_onImages; [done..|]. eapply wp_mono; [apply (ImageFacts.removeMappedTopLayer_wp _ i x (fst s, r) Hwf)|].
  intros o [w r'] Hm s' _ Hs'. exists r'. split; [exact Hs'|].
  assert (ImageFacts.mem_wf ImageFacts.partial (mem r')) as Hwf'.
  { change r' with (snd (w, r')). by eapply ImageFacts.modifies_wf, Hm. }
  split; [by eapply consistent_set_image|]. destruct Hm as [_ [[E Hn]|(q & Hq & E)]]; simpl in *.
  - left. by rewrite E.
  - right. rewrite Hf in Hq. injection Hq as <-. unfold ImageFacts.updates in E. simpl in E. unfold ImageFacts.abs. rewrite E. simpl.
    rewrite (reg_update_abs _ p g); [by rewrite <- Hi|done|apply (ImageFacts.mem_reg _ _ Hwf)|done|done].
Qed.

Lemma unmapping_start x l g : (∀ i t, tops g !! i = Some t → i ∈ l) → unmapping x l g g.
Proof.
  intros Hl. split_and!; [done..|]. intros i. destruct (tops g !! i) as [[t m]|] eqn:E; [|done].
  exists m. split_and!; [done|by left|]. intros Hn. destruct Hn. by eapply Hl.
Qed.

(** The next image has nothing to lose, or loses the layer. *)
Lemma unmapping_skip x i l g g' :
  unmapping x (i :: l) g g' → (∀ t m, tops g !! i = Some (t, m) → without x m = m) → unmapping x l g g'.
Proof.
  intros (Ep & Eu & Ht) Hi. split_and!; [done..|]. intros j. specialize (Ht j).
  destruct (tops g !! j) as [[t m]|] eqn:E; [|done]. destruct Ht as (m' & Hm' & Hor & Hn). exists m'. split_and!; [done..|].
  intros Hj. destruct (decide (j = i)) as [->|Hne]; [|apply Hn; by intros [->|?]%elem_of_cons].
  rewrite (Hi t m E) in *. by destruct Hor.
Qed.

Lemma unmapping_step x i l g g' t m' :
  unmapping x (i :: l) g g' → tops g' !! i = Some (t, m') →
  unmapping x l g (mkRefs (parents g') (<[i := (t, without x m')]> (tops g')) (uses g')).
Proof.
  intros (Ep & Eu & Ht) Hi. split_and!; [done..|]. intros j. specialize (Ht j). simpl.
  destruct (tops g !! j) as [[t0 m]|] eqn:E; [destruct Ht as (m2 & Hm2 & Hor & Hn)|].
  - destruct (decide (j = i)) as [->|Hne].
    + rewrite lookup_insert_eq. rewrite Hm2 in Hi. injection Hi as -> ->. eexists. split; [done|].
      destruct Hor as [-> | ->]; rewrite ?without_idem; by auto.
    + rewrite lookup_insert_ne by done. exists m2. split_and!; [done..|]. intros Hj. apply Hn. by intros [->|?]%elem_of_cons.
  - rewrite lookup_insert_ne; [done|]. intros ->. congruence.
Qed.

Lemma set_image_same r v : v_images v !! f_imageStore (v_fixed v) = Some r → set_image r v = v.
Proof. intros Hr. destruct v. unfold set_image. simpl in *. by rewrite list_insert_id. Qed.
Lemma set_image_twice r r' v : set_image r' (set_image r v) = set_image r' v.
Proof. unfold set_image. simpl. f_equal. apply list_insert_insert_eq. Qed.

(** The state of the loop over the images. *)
Definition unmapped (h : nat) (x : string) (v : view) (l : list string) (s : St) : Prop :=
  ∃ r, sees h s (set_image r v) ∧ consistent (set_image r v) ∧ unmapping x l (refs_of v) (refs_of (set_image r v)).

Lemma unmap_layer_wp h x v r g l s :
  v_images v !! f_imageStore (v_fixed v) = Some r → reg_wf (Images.reg (mem r)) → g ∈ reg_values (Images.reg (mem r)) →
  unmapped h x v (Images.ID g :: l) s →
  wp (unmap_layer (f_imageStore (v_fixed v)) x (Images.copyImage g))
     (λ o s', ∃ l', unmapped h x v l' s' ∧ (o = Ret tt → l' = l)) s.
Proof.
  intros Hr Hreg Hg (r' & Hs & Hco & Hun).
  assert (tops (refs_of v) !! Images.ID g = Some (image_refs g)) as Htop by (apply (image_top v r _ _ Hr Hreg); eauto).
  unfold unmap_layer. simpl. rewrite copySlicePreferringNil_id. destruct (decide (Exists _ _)) as [_|Hno].
  - pose proof Hun as (_ & _ & Hcur). specialize (Hcur (Images.ID g)). rewrite Htop in Hcur. destruct Hcur as (m' & Hm' & _).
    pose proof Hm' as Hg1. rewrite (refs_set_image _ _ _ Hr) in Hg1. simpl in Hg1.
    rewrite lookup_fmap, fmap_Some in Hg1. destruct Hg1 as (g1 & Hg1 & E1).
    eapply wp_mono; [exact (removeMapped_wp h (Images.ID g) x s (set_image r' v) r' g1 Hs Hco (set_image_lookup r' v r Hr) Hg1)|].
    intros o s2 (r2 & Hs2 & Hco2 & Habs). rewrite set_image_twice in *. destruct Habs as [[Habs Hnr]|Habs].
    + exists (Images.ID g :: l). split; [|intros ->; destruct Hnr; by eexists]. exists r2. split_and!; [done..|].
      rewrite (refs_set_image _ _ _ Hr), Habs. by rewrite (refs_set_image _ _ _ Hr) in Hun.
    + exists l. split; [|done]. exists r2. split_and!; [done..|].
      pose proof (unmapping_step _ _ _ _ _ _ _ Hun Hm') as Hstep. rewrite (refs_set_image _ _ _ Hr) in Hstep.
      rewrite (refs_set_image _ _ _ Hr), Habs, fmap_insert. simpl in Hstep. unfold image_refs in E1 |- *. simpl.
      injection E1 as <- <-. exact Hstep.
  - wp_step. exists l. split; [|done]. exists r'. split_and!; [done..|]. eapply unmapping_skip; [exact Hun|].
    intros t m E. rewrite Htop in E. injection E as _ <-. by apply without_absent.
Qed.

Lemma unmap_images_wp h x s v r :
  sees h s v → consistent v → v_images v !! f_imageStore (v_fixed v) = Some r →
  wp (forM (Images.copyImage <$> reg_values (Images.reg (mem r))) (unmap_layer (f_imageStore (v_fixed v)) x))
     (λ o s', ∃ l, unmapped h x v l s' ∧ (o = Ret tt → l = [])) s.
Proof.
  intros Hv Hco Hr. destruct (co_images v Hco) as (r0 & Hr0 & Hwf). rewrite Hr in Hr0. injection Hr0 as <-.
  pose proof (ImageFacts.mem_reg _ _ Hwf) as Hreg.
  apply (wp_forM (λ l s', ∃ l0, l = Images.copyImage <$> l0 ∧ (∀ g, g ∈ l0 → g ∈ reg_values (Images.reg (mem r))) ∧
    unmapped h x v (Images.ID <$> l0) s')).
  - eexists. split; [done|]. split; [done|]. exists r. rewrite (set_image_same r v Hr). split_and!; [done..|].
    apply unmapping_start. intros i t (g & Hg & <- & _)%(image_top v r i _ Hr Hreg). by apply list_elem_of_fmap_2.
  - intros g l s' ([|g0 l0] & E & Hin & Hun); [done|]. injection E as -> ->.
    eapply wp_mono; [apply (unmap_layer_wp h x v r g0 (Images.ID <$> l0)); [done..|apply Hin; by left|done]|].
    intros [[]|e|c] s2 (l' & Hun' & El); [|by exists l'..]. rewrite (El eq_refl) in Hun'. exists l0. split_and!; [done| |done].
    intros g Hg. apply Hin. by right.
  - intros s' ([|? ?] & E & _ & Hun); [|done]. exists []. done.
Qed.

Lemma layer_Exists_run (r : layerStore) id w : Layers.Exists_ id (w, r) = ((w, r), Ret (bool_decide (is_Some (Layers.find r id)))).
Proof. reflexivity. Qed.
Lemma layer_list_run (r : layerStore) w : Layers.Layers (w, r) = ((w, r), Ret (LayerData.copyLayer <$> reg_values (Layers.reg r))).
Proof. reflexivity. Qed.
Lemma image_Exists_run (r : imageStore_t) id w : Images.Exists_ id (w, r) = ((w, r), Ret (bool_decide (is_Some (Images.find (mem r) id)))).
Proof. reflexivity. Qed.
Lemma image_list_run (r : imageStore_t) w : Images.Images (w, r) = ((w, r), Ret (Images.copyImage <$> reg_values (Images.reg (mem r)))).
Proof. reflexivity. Qed.
Lemma container_Exists_run (r : containerStore_t) id w :
  Containers.Exists_ id (w, r) = ((w, r), Ret (bool_decide (is_Some (Containers.find (mem r) id)))).
Proof. reflexivity. Qed.
Lemma container_list_run (r : containerStore_t) w :
  Containers.Containers (w, r) = ((w, r), Ret (Containers.copyContainer <$> reg_values (Containers.reg (mem r)))).
Proof. reflexivity. Qed.

(** The record that a layer reference leads to. *)
Definition layer_named (v : view) (id : string) : option string :=
  p ← Layers.find (v_layers v) id; LayerData.ID <$> (Registry.heap (Layers.reg (v_layers v)) !! p).

Lemma layer_named_known v id x : LayerFacts.store_wf (v_layers v) → layer_named v id = Some x → is_Some (parents (refs_of v) !! x).
Proof.
  intros Hwf. unfold layer_named. intros (p & Hf & (l & Hl & ->)%fmap_Some)%bind_Some.
  exists (LayerData.Parent l). apply (layer_parent _ _ _ Hwf). exists l. split; [|done].
  apply reg_values_elem. exists p. split; [|done]. by apply (LayerFacts.layer_find_some _ id p (proj1 Hwf)).
Qed.

(** What the checks of [DeleteLayer] find. *)
Definition layer_in_use (g : refs) (x : string) : option error :=
  if decide (map_Exists (λ _ p, p = x) (parents g)) then Some ErrLayerHasChildren
  else if decide (map_Exists (λ _ t, t.1 = x) (tops g)) then Some ErrLayerUsedByImage
  else if decide (map_Exists (λ _ u, u.1 = x) (uses g)) then Some ErrLayerUsedByContainer
  else None.

Lemma layer_in_use_free g x : layer_in_use g x = None → free x g.
Proof.
  unfold layer_in_use. destruct (decide _) as [?|Hp]; [done|]. destruct (decide _) as [?|Ht]; [done|].
  destruct (decide _) as [?|Hu]; [done|]. intros _. split.
  - intros i Hi. apply Hp. by exists i, x.
  - intros i t m Hi ->. apply Ht. by exists i, (x, m).
  - intros i l j Hi ->. apply Hu. by exists i, (x, j).
Qed.

Lemma decide_child v x {A} (a b : A) :
  LayerFacts.store_wf (v_layers v) →
  (if decide (Exists (λ l, LayerData.Parent l = x) (LayerData.copyLayer <$> reg_values (Layers.reg (v_layers v)))) then a else b) =
  if decide (map_Exists (λ _ p, p = x) (parents (refs_of v))) then a else b.
Proof. intros Hwf. apply decide_ext, (Exists_layers v (λ _ p, p = x) Hwf). Qed.

Lemma decide_top v r x {A} (a b : A) :
  v_images v !! f_imageStore (v_fixed v) = Some r → reg_wf (Images.reg (mem r)) →
  (if decide (Exists (λ i, Images.TopLayer i = x) (Images.copyImage <$> reg_values (Images.reg (mem r)))) then a else b) =
  if decide (map_Exists (λ _ t, t.1 = x) (tops (refs_of v))) then a else b.
Proof. intros Hr Hwf. apply decide_ext, (Exists_images v r (λ _ t, t.1 = x) Hr Hwf). Qed.

Lemma decide_use v x {A} (a b : A) :
  ContainerFacts.mem_wf (mem (v_containers v)) →
  (if decide (Exists (λ c, Containers.LayerID c = x) (Containers.copyContainer <$> reg_values (Containers.reg (mem (v_containers v))))) then a else b) =
  if decide (map_Exists (λ _ u, u.1 = x) (uses (refs_of v))) then a else b.
Proof. intros Hwf. apply decide_ext, (Exists_containers v (λ u, u.1 = x) Hwf). Qed.

(** The layer is gone, and the images named in [l] may still list it. *)
Definition layer_deleted (x : string) (l : list string) (g g' : refs) : Prop :=
  free x g ∧ unmapping x l (drop_parent x g) g'.

(** The outcome of a deletion whose clean-up functions are still to run. *)
Definition fails_with {A} (e : error) (o : outcome A) : Prop :=
  match o with Ret _ => False | Err e' => e' = e | Crash _ => True end.
Definition settled {B C} (o : outcome (B * (C * option error))) : outcome unit :=
  match o with
  | Ret (_, (_, None)) => Ret tt
  | Ret (_, (_, Some e)) => Err e
  | Err e => Err e
  | Crash c => Crash c
  end.

(** What [DeleteLayer] does to the references. *)
Definition layer_deletion (v : view) (id : string) (o : outcome unit) (v' : view) : Prop :=
  consistent v' ∧
  match layer_named v id with
  | None => refs_of v' = refs_of v ∧ fails_with ErrNotALayer o
  | Some x =>
      match layer_in_use (refs_of v) x with
      | Some e => refs_of v' = refs_of v ∧ fails_with e o
      | None => refs_of v' = refs_of v ∧ ¬ is_ret o ∨ ∃ l, layer_deleted x l (refs_of v) (refs_of v') ∧ (is_ret o → l = [])
      end
  end.

Lemma layer_deletion_weaken v id o o' v' :
  (is_ret o' → is_ret o) → (∀ e, fails_with e o → fails_with e o') → layer_deletion v id o v' → layer_deletion v id o' v'.
Proof.
  intros Hr Hf [Hco Hd]. split; [done|]. destruct (layer_named v id) as [x|]; [|by destruct Hd; auto].
  destruct (layer_in_use (refs_of v) x); [by destruct Hd; auto|].
  destruct Hd as [[E Hn]|(l & Hl & Hret)]; [left; by auto|right; exists l; by auto].
Qed.

(** The outcomes of a deletion that has passed the checks. *)
Definition layer_dropped (v : view) (x : string) (o : outcome unit) (v' : view) : Prop :=
  consistent v' ∧ (refs_of v' = refs_of v ∧ ¬ is_ret o ∨ ∃ l, layer_deleted x l (refs_of v) (refs_of v') ∧ (is_ret o → l = [])).

Lemma unmapping_refl x g : unmapping x (map_to_list (tops g)).*1 g g.
Proof.
  apply unmapping_start. intros i t Hi. apply list_elem_of_fmap. exists (i, t). split; [done|]. by apply elem_of_map_to_list.
Qed.

Lemma delete_free_layer_wp h x s v r :
  sees h s v → consistent v → v_images v !! f_imageStore (v_fixed v) = Some r →
  is_Some (parents (refs_of v) !! x) → free x (refs_of v) →
  wp (res ← drop_layer fuel h x;
      match res with
      | (cf, Some err) => mret (cf, Some err)
      | (cf, None) =>
          res ← try (forM (Images.copyImage <$> reg_values (Images.reg (mem r))) (unmap_layer (f_imageStore (v_fixed v)) x));
          mret (cf, match res with inl _ => None | inr err => Some err end)
      end) (λ o s', ∃ v', sees h s' v' ∧ layer_dropped v x (settled (B := nat) ((h,.) <$> o)) v') s.
Proof.
  intros Hv Hco Hr Hx Hfree. wp_step. eapply wp_mono; [by apply drop_layer_wp|].
  intros o s1 (rl & gone & Hs1 & Hco1 & Hrefs & Hgone). set (v1 := mkView _ _ _ _) in *.
  assert (∀ o' : outcome unit, ¬ is_ret o' → layer_dropped v x o' v1) as Hno.
  { intros o' Hn. split; [done|]. rewrite Hrefs. destruct gone; [right|by left].
    eexists. split; [split; [done|apply unmapping_refl]|by intros Hr']. }
  destruct o as [[cf [err|]]|err|c].
  - wp_step. exists v1. split; [done|]. apply Hno. by intros [].
  - rewrite (Hgone cf eq_refl) in Hrefs. wp_step. wp_step.
    eapply wp_mono; [by apply (unmap_images_wp h x s1 v1 r)|].
    intros o s2 (l & (r2 & Hs2 & Hco2 & Hun) & Hl). rewrite Hrefs in Hun.
    assert (∀ o' : outcome unit, (is_ret o' → o = Ret tt) → layer_dropped v x o' (set_image r2 v1)) as Hd.
    { intros o' Ho'. split; [done|]. right. exists l. split; [by split|]. intros Hret. by apply Hl, Ho'. }
    destruct o as [[]|err|c]; [wp_step|wp_step|]; (eexists; split; [exact Hs2|apply Hd; by intros []]).
  - exists v1. split; [done|]. apply Hno. by intros [].
  - exists v1. split; [done|]. apply Hno. by intros [].
Qed.

Lemma delete_layer_locked_wp h id s v :
  sees h s v → consistent v →
  wp (delete_layer_locked fuel id h) (λ o s', ∃ v', sees h s' v' ∧ layer_deletion v id (settled (B := nat) ((h,.) <$> o)) v') s.
Proof.
  intros Hv Hco. destruct (co_images v Hco) as (r & Hr & Hwr). pose proof (ImageFacts.mem_reg _ _ Hwr) as Hreg.
  unfold delete_layer_locked. wp_step. eapply read_layers; [done|intros w; apply layer_Exists_run|]. intros s1 Hs1. unfold layer_deletion.
  destruct (layer_named v id) as [x|] eqn:Ex.
  - pose proof (layer_named_known _ _ _ (co_layers v Hco) Ex) as Hx.
    unfold layer_named in Ex. apply bind_Some in Ex as (p & Hf & (l & Hl & ->)%fmap_Some).
    rewrite Hf. simpl. wp_step. wp_step.
    eapply read_layers; [done|intros w; rewrite (layer_Get_run _ _ _ (proj1 (co_layers v Hco))), Hf; simpl; by rewrite Hl|].
    intros s2 Hs2. simpl. wp_step. eapply read_layers; [done|intros w; apply layer_list_run|]. intros s3 Hs3. simpl.
    rewrite (decide_child v _ _ _ (co_layers v Hco)). unfold layer_in_use.
    destruct (decide _) as [?|Hn1]; [by wp_step; exists v; split_and!|].
    wp_step. eapply (wp_getS_fixed h f_imageStore); [done..|]. wp_step. eapply read_images; [done|done|intros w; apply image_list_run|]. intros s4 Hs4. simpl.
    rewrite (decide_top v r _ _ _ Hr Hreg). destruct (decide _) as [?|Hn2]; [by wp_step; exists v; split_and!|].
    wp_step. eapply read_containers; [done|intros w; apply container_list_run|]. intros s5 Hs5. simpl.
    rewrite (decide_use v _ _ _ (co_containers v Hco)). destruct (decide _) as [?|Hn3]; [by wp_step; exists v; split_and!|].
    apply delete_free_layer_wp; [done..|]. apply layer_in_use_free. unfold layer_in_use. by rewrite !decide_False.
  - unfold layer_named in Ex. destruct (Layers.find (v_layers v) id) as [p|] eqn:Ef.
    + destruct (LayerFacts.layer_find_some _ _ _ (proj1 (co_layers v Hco)) Ef) as [_ [l Hl]]. simpl in Ex. by rewrite Hl in Ex.
    + simpl. wp_step. exists v. by split_and!.
Qed.

(** *** With the locks *)

Lemma refs_alike v v' : alike v v' → refs_of v' = refs_of v.
Proof.
  intros (El & Ei & Ec & Ef). unfold refs_of. rewrite (LayerFacts.abs_core _ _ El), Ec, Ef. f_equal.
  assert (mem <$> v_images v' !! f_imageStore (v_fixed v) = mem <$> v_images v !! f_imageStore (v_fixed v)) as E
    by (by rewrite <- !list_lookup_fmap, Ei).
  destruct (v_images v' !! _), (v_images v !! _); simpl in *; try done. by injection E as ->.
Qed.

Lemma consistent_alike v v' : alike v v' → consistent v → consistent v'.
Proof.
  intros (El & Ei & Ec & Ef) [Hl (r & Hr & Hwf) Hc Hb]. split; rewrite ?Ec; try done.
  - by eapply LayerFacts.store_wf_core.
  - assert ((mem <$> v_images v') !! f_imageStore (v_fixed v) = Some (mem r)) as E by (by rewrite Ei, list_lookup_fmap, Hr).
    rewrite list_lookup_fmap, fmap_Some in E. destruct E as (r' & Hr' & E). exists r'. by rewrite Ef, <- E.
Qed.

(** A result that is no better than another, and no other error. *)
Definition worse {A} (o o' : outcome A) : Prop := (is_ret o' → is_ret o) ∧ ∀ e, fails_with e o → fails_with e o'.

(** A function under the locks. *)
Lemma locked_wp {R} (fn : nat → M St R) (Q : outcome R → view → Prop) s s1 h :
  lock_all s = (s1, Ret h) →
  (∀ o v v', alike v v' → Q o v → Q o v') → (∀ o c v, Q o v → Q (Crash c) v) →
  wp (fn h) (λ o s', ∃ v, sees h s' v ∧ Q o v) s1 →
  wp (writeToAllStores (and_store fn)) (λ o s', ∃ v, sees h s' v ∧ Q (snd <$> o) v ∧ ∀ h' r, o = Ret (h', r) → h' = h) s.
Proof.
  intros Hlock Halike Hcrash Hfn.
  apply (wp_writeToAllStores _ (λ o v, Q (snd <$> o) v ∧ ∀ h' r, o = Ret (h', r) → h' = h) s s1 h Hlock).
  - intros o v v' Ha [HP Hh]. by eauto.
  - intros o c v [HP Hh]. split; [|done]. by eapply Hcrash.
  - unfold and_store. wp_step. eapply wp_mono; [exact Hfn|]. intros o s2 (v & Hv & HP).
    destruct o as [r|e|c]; [wp_step| |]; (exists v; split_and!; [done..|]; by intros h' r' [= <-]).
Qed.

(** The functions that delete collect clean-up functions under the locks and
    call them without. *)
Lemma run_cleanups_wp h cf err (P : outcome unit → view → Prop) s v :
  sees h s v → P (settled (B := nat) (Ret (h, (cf, err)))) v →
  (∀ o v v', alike v v' → P o v → P o v') → (∀ o o' v, worse o o' → P o v → P o' v) →
  wp (run_cleanups h cf err) (λ o s', ∃ v, sees h s' v ∧ P o v) s.
Proof.
  intros Hv HP Halike Hworse. unfold run_cleanups. wp_step. wp_step.
  eapply wp_moves; [apply (alike_onLayers h), LayerFacts.same_core_onDriver|]. intros o s3 Hr.
  destruct (Hr v Hv) as (v' & Hv' & Ha). pose proof (Halike _ _ _ Ha HP) as HP'.
  assert (∀ o' : outcome unit, worse (settled (Ret (h, (cf, err)))) o' → ∃ v', sees h s3 v' ∧ P o' v') as Hend by eauto.
  destruct o as [x|e|c], err as [err|]; simpl; try wp_step; apply Hend; split; simpl; try done; by intros [].
Qed.

Definition cleaning (fn : nat → M St (CleanupTempDirFuncs D * option error)) : M St unit :=
  res ← writeToAllStores (and_store fn);
  let '(rlstore, (cf, err)) := res in run_cleanups rlstore cf err.

Lemma cleaning_wp fn (P : outcome unit → view → Prop) s s1 h :
  lock_all s = (s1, Ret h) →
  (∀ o v v', alike v v' → P o v → P o v') → (∀ o o' v, worse o o' → P o v → P o' v) →
  wp (fn h) (λ o s', ∃ v, sees h s' v ∧ P (settled (B := nat) ((h,.) <$> o)) v) s1 →
  wp (cleaning fn) (λ o s', ∃ v, sees h s' v ∧ P o v) s.
Proof.
  intros Hlock Halike Hworse Hfn. unfold cleaning. wp_step.
  eapply wp_mono; [apply (locked_wp _ (λ o v, P (settled (B := nat) ((h,.) <$> o)) v) s s1 h Hlock); [by eauto| |exact Hfn]|].
  - intros o c v. apply Hworse. by split; [intros []|].
  - intros o s2 (v & Hv & HP & Hh). destruct o as [[h' [cf err]]|e|c]; [|by exists v..].
    assert (h' = h) as -> by (by eapply Hh). by eapply run_cleanups_wp.
Qed.

Lemma layer_deletion_alike v id o v1 v2 : alike v1 v2 → layer_deletion v id o v1 → layer_deletion v id o v2.
Proof.
  intros Ha [Hco Hd]. split; [by eapply consistent_alike|]. by rewrite (refs_alike _ _ Ha).
Qed.

Lemma layer_deletion_intact v id o v' :
  layer_deletion v id o v' → intact (refs_of v) → private (refs_of v) → intact (refs_of v') ∧ private (refs_of v').
Proof.
  intros [_ Hd] Hi Hp. destruct (layer_named v id) as [x|]; [|by destruct Hd as [-> _]].
  destruct (layer_in_use _ _); [by destruct Hd as [-> _]|]. destruct Hd as [[-> _]|(l & [Hf Hun] & _)]; [done|].
  split; [eapply intact_unmapping; [done|]; by apply intact_drop_parent|].
  eapply private_unmapping; [done|]. by apply private_drop_parent.
Qed.

Lemma intact_mapped_delete x g : intact_mapped g → intact_mapped (unmap x (drop_parent x g)).
Proof.
  intros Hm i t m y Hi Hy. simpl in *. rewrite lookup_fmap, fmap_Some in Hi. destruct Hi as ([t0 m0] & Hi & [= -> ->]).
  apply is_Some_delete_ne; [intros ->; by apply without_self in Hy|].
  eapply Hm; [exact Hi|]. by eapply elem_of_sublist, without_sublist.
Qed.

Lemma layer_deletion_sound v id o v' : layer_deletion v id o v' → sound v → is_ret o → sound v'.
Proof.
  intros Hd (_ & Hi & Hm & Hp) Hret. pose proof (layer_deletion_intact _ _ _ _ Hd Hi Hp) as [Hi' Hp'].
  destruct Hd as [Hco Hd]. split_and!; try done. destruct Hret as [[] ->].
  destruct (layer_named v id) as [x|]; [|by destruct Hd]. destruct (layer_in_use _ _); [by destruct Hd|].
  destruct Hd as [[_ Hn]|(l & [Hf Hun] & Hl)]; [destruct Hn; by eexists|]. rewrite Hl in Hun by (by eexists).
  rewrite (unmapping_done _ _ _ Hun). by apply intact_mapped_delete.
Qed.

(** C14: Suppose that the locks are obtained and that what is seen with them is
    [sound]: the stores are consistent, every parent, top layer, mapped layer
    and layer of a container is a layer of the writable layer store, a layer
    of a container is nobody else's, and a mapped layer belongs to one image,
    with nothing on top of it but the containers of that image.  Then
    [DeleteLayer] refuses a name that is no layer, a layer with children, a
    layer that an image of the writable image store has as its top layer and
    a layer of a container, in that order, and no reference has changed.
    Otherwise the layer goes and is struck from the lists of mapped layers,
    or an error says that this was not done or only in part.  Whatever the
    outcome, no layer lacks its parent, no image its top layer and no
    container its layer.  After a success what is seen is [sound] again; after
    an error, images may still list the missing layer among their mapped
    layers, and nothing else is wrong. *)
Theorem DeleteLayer_keeps_references id s s1 h v :
  lock_all s = (s1, Ret h) → sees h s1 v → sound v →
  wp (DeleteLayer fuel id) (λ o s', ∃ v',
    sees h s' v' ∧ layer_deletion v id o v' ∧ intact (refs_of v') ∧ private (refs_of v') ∧ (is_ret o → sound v')) s.
Proof.
  intros Hlock Hv Hs. eapply wp_mono.
  - apply (cleaning_wp _ (layer_deletion v id) s s1 h Hlock); [apply layer_deletion_alike| |].
    + intros o o' v' [Hr Hf]. by apply layer_deletion_weaken.
    + apply delete_layer_locked_wp; [done|apply Hs].
  - intros o s' (v' & Hv' & Hd). exists v'. destruct Hs as (Hco & Hi & Hm & Hp).
    destruct (layer_deletion_intact _ _ _ _ Hd Hi Hp) as [Hi' Hp']. split_and!; try done. by apply (layer_deletion_sound v id).
Qed.

(** ** Deleting an image

    The layers that go with an image, in the order in which they go: nothing
    refers to a layer when its turn comes. *)

Record removable (g : refs) (l : list string) : Prop := {
  rm_known x : x ∈ l → is_Some (parents g !! x);
  rm_nodup : NoDup l;
  rm_children l1 x l2 k : l = (l1 ++ x :: l2)%list → parents g !! k = Some x → k ∈ l1;
  rm_top x i t m : x ∈ l → tops g !! i = Some (t, m) → t ≠ x ∧ x ∉ m;
  rm_use x i u j : x ∈ l → uses g !! i = Some (u, j) → u ≠ x
}.

Definition drop_parents (l : list string) (g : refs) : refs := foldl (λ g x, drop_parent x g) g l.

Lemma drop_parents_lookup l g k : parents (drop_parents l g) !! k = if decide (k ∈ l) then None else parents g !! k.
Proof.
  unfold drop_parents. revert g. induction l as [|x l IH]; intros g; [done|]. simpl. rewrite IH. simpl.
  destruct (decide (k ∈ l)), (decide (k ∈ x :: l)) as [Hk|Hk]; rewrite ?elem_of_cons in *; try done; try tauto.
  - destruct Hk as [->|?]; [|done]. by rewrite lookup_delete_eq.
  - rewrite lookup_delete_ne; [done|]. intros ->. tauto.
Qed.
Lemma drop_parents_tops l g : tops (drop_parents l g) = tops g.
Proof. unfold drop_parents. revert g. induction l as [|x l IH]; intros g; [done|]. simpl. by rewrite IH. Qed.
Lemma drop_parents_uses l g : uses (drop_parents l g) = uses g.
Proof. unfold drop_parents. revert g. induction l as [|x l IH]; intros g; [done|]. simpl. by rewrite IH. Qed.

Lemma removable_nil g : removable g [].
Proof.
  split; [by intros x ?%elem_of_nil|constructor|by intros [|? ?] x l2 k| |]; by intros x i t m ?%elem_of_nil.
Qed.

Lemma removable_free g x l : removable g (x :: l) → is_Some (parents g !! x) ∧ free x g.
Proof.
  intros [Hk _ Hc Ht Hu]. split; [apply Hk; by left|]. split.
  - intros i Hi. exact (not_elem_of_nil i (Hc [] x l i eq_refl Hi)).
  - intros i t m Hi. by apply (Ht x i t m); [left|].
  - intros i u j Hi. by apply (Hu x i u j); [left|].
Qed.

Lemma removable_tail g x l : removable g (x :: l) → removable (drop_parent x g) l.
Proof.
  intros [Hk Hn Hc Ht Hu]. apply NoDup_cons in Hn as [Hx Hn]. split; simpl; [|done| | |].
  - intros y Hy. apply is_Some_delete_ne; [by intros ->|]. apply Hk. by right.
  - intros l1 y l2 k -> [Hne Hky]%lookup_delete_Some. specialize (Hc (x :: l1) y l2 k eq_refl Hky).
    by apply elem_of_cons in Hc as [->|?].
  - intros y i t m Hy. apply Ht. by right.
  - intros y i t m Hy. apply Hu. by right.
Qed.

(** The next layer up the chain. *)
Lemma removable_snoc g l x :
  removable g l → is_Some (parents g !! x) → x ∉ l → (∀ k, parents g !! k = Some x → k ∈ l) →
  (∀ i t m, tops g !! i = Some (t, m) → t ≠ x ∧ x ∉ m) → (∀ i u j, uses g !! i = Some (u, j) → u ≠ x) →
  removable g (l ++ [x]).
Proof.
  intros [Hk Hn Hc Ht Hu] Hx Hxl Hch Htop Huse. split.
  - intros y [?| ->%list_elem_of_singleton]%elem_of_app; by auto.
  - apply NoDup_app. split_and!; [done| |by apply NoDup_singleton]. by intros y Hy ->%list_elem_of_singleton.
  - intros l1 y l2 k E Hky. destruct l2 as [|z l2 _] using rev_ind.
    + apply app_inj_tail in E as [-> ->]. by apply Hch.
    + rewrite app_comm_cons, app_assoc in E. apply app_inj_tail in E as [-> ->]. by eapply Hc.
  - intros y i t m [Hy| ->%list_elem_of_singleton]%elem_of_app; by eauto.
  - intros y i u j [Hy| ->%list_elem_of_singleton]%elem_of_app; by eauto.
Qed.

(** The parent of the layer that was taken last has not been taken. *)
Lemma removable_parent_new g l x p : removable g (l ++ [x]) → parents g !! x = Some p → p ∉ (l ++ [x])%list.
Proof.
  intros [Hk Hn Hc _ _] Hp Hin. apply list_elem_of_split in Hin as (l1 & l2 & E).
  pose proof (Hc l1 p l2 x E Hp) as Hx1. destruct l2 as [|z l2 _] using rev_ind.
  - apply app_inj_tail in E as [-> ->]. apply NoDup_app in Hn as (_ & Hn & _). apply (Hn p Hx1). by left.
  - rewrite app_comm_cons, app_assoc in E. apply app_inj_tail in E as [-> ->]. apply NoDup_app in Hn as (_ & Hn & _).
    apply (Hn z); [|by left]. apply elem_of_app. by left.
Qed.

Lemma removable_length g l : removable g l → (length l ≤ size (parents g))%nat.
Proof.
  intros [Hk Hn _ _ _]. rewrite <- size_dom, <- (size_list_to_set (C := gset string) l Hn). apply subseteq_size.
  intros x Hx%elem_of_list_to_set. by apply elem_of_dom, Hk.
Qed.

Lemma removable_app g l1 l2 : removable g (l1 ++ l2) → removable g l1.
Proof.
  intros [Hk Hn Hc Ht Hu]. split.
  - intros x Hx. apply Hk, elem_of_app. by left.
  - by apply NoDup_app in Hn as [? _].
  - intros l3 x l4 k -> Hkx. apply (Hc l3 x (l4 ++ l2)%list k); [|done]. by rewrite <- app_assoc.
  - intros x i t m Hx. apply Ht, elem_of_app. by left.
  - intros x i t m Hx. apply Hu, elem_of_app. by left.
Qed.

Lemma removable_intact g l : removable g l → intact g → intact (drop_parents l g).
Proof.
  revert g. induction l as [|x l IH]; intros g Hr Hi; [done|]. simpl. apply IH; [by apply removable_tail|].
  apply intact_drop_parent; [by eapply removable_free|done].
Qed.
Lemma removable_intact_mapped g l : removable g l → intact_mapped g → intact_mapped (drop_parents l g).
Proof.
  intros Hr Hm i t m x. rewrite drop_parents_tops, drop_parents_lookup. intros Hi Hx. rewrite decide_False; [by eapply Hm|].
  intros Hl. by eapply (rm_top g l Hr x i t m Hl Hi).
Qed.
Lemma private_drop_parents g l : private g → private (drop_parents l g).
Proof. revert g. induction l as [|x l IH]; intros g Hp; [done|]. simpl. by apply IH, private_drop_parent. Qed.

(** No container uses the image: then nothing uses its mapped layers. *)
Definition unused_image (i : string) (g : refs) : Prop := ∀ c l j, uses g !! c = Some (l, j) → j ≠ i.

Lemma mapped_childless g i t m x k :
  private g → unused_image i g → tops g !! i = Some (t, m) → x ∈ m → parents g !! k ≠ Some x.
Proof.
  intros Hp Hun Hi Hx Hk. destruct (pr_mapped g Hp _ _ _ _ _ Hi Hx Hk) as [c Hc]. by apply (Hun c k i Hc).
Qed.

Lemma mapped_removable g i t m :
  private g → intact_mapped g → unused_image i g → tops g !! i = Some (t, m) → removable (drop_image i g) m.
Proof.
  intros Hp Hm Hun Hi. split; simpl.
  - intros x Hx. by eapply Hm.
  - by eapply pr_nodup.
  - intros l1 x l2 k E Hk. destruct (mapped_childless g i t m x k Hp Hun Hi); [|done]. rewrite E. apply elem_of_app. right. by left.
  - intros x i' t' m' Hx [Hne Hi']%lookup_delete_Some. destruct (pr_image g Hp _ _ _ _ _ _ _ Hi Hx Hi') as [Ht Hm']. split; [done|].
    intros Hx'. by destruct Hne, Hm'.
  - intros x i' u j Hx Hu ->. by destruct (pr_top g Hp _ _ _ _ _ _ Hu Hi) as [_ ?].
Qed.

(** *** Which layers

    [chain g t c n]: from the layer [t] along the parents through [c], and [n]
    is the next. *)
Fixpoint chain (g : refs) (t : string) (c : list string) (n : string) : Prop :=
  match c with
  | [] => t = n
  | x :: c => x = t ∧ ∃ p, parents g !! t = Some p ∧ chain g p c n
  end.

Lemma chain_snoc g t c x p : chain g t c x → parents g !! x = Some p → chain g t (c ++ [x]) p.
Proof.
  revert t. induction c as [|y c IH]; intros t; simpl; [intros -> Hp; by eauto|].
  intros (-> & q & Hq & Hc) Hp. split; [done|]. exists q. split; [done|]. by apply IH.
Qed.

(** What keeps the layer [n] from going with the image [i] and the layers
    [removed]. *)
Definition needed (v : view) (i t : string) (m removed : list string) (n : string) : Prop :=
  n = "" ∨ is_Some (Containers.find (mem (v_containers v)) n) ∨
  (∃ i' t' m', tops (refs_of v) !! i' = Some (t', m') ∧ i' ≠ i ∧ n ∈ t' :: m') ∨
  (∃ k p, parents (refs_of v) !! k = Some p ∧ (p = n ∨ n = t ∧ p ∈ m) ∧ k ∉ removed).

(** The layers that go with an image: its mapped layers and the part of the
    chain below its top layer that nothing else needs. *)
Definition goes_with (v : view) (i t : string) (m removed : list string) : Prop :=
  removable (drop_image i (refs_of v)) removed ∧
  ∃ c n, removed = (m ++ c)%list ∧ chain (refs_of v) t c n ∧ needed v i t m removed n.

Lemma unused_layer v n c l j :
  indexed (mem (v_containers v)) → Containers.find (mem (v_containers v)) n = None →
  uses (refs_of v) !! c = Some (l, j) → l ≠ n.
Proof.
  intros Hix Hf Hu ->. simpl in Hu. rewrite lookup_fmap, fmap_Some in Hu. destruct Hu as (k & Hk & [= -> ->]).
  destruct (Hix c k Hk) as [p Hp]. unfold Containers.find, reg_lookup in Hf. rewrite Hp in Hf.
  by repeat case_match.
Qed.

Lemma others_spec v r i n :
  v_images v !! f_imageStore (v_fixed v) = Some r → reg_wf (Images.reg (mem r)) →
  n ∈ otherImagesTopLayers i (Images.copyImage <$> reg_values (Images.reg (mem r))) ↔
  ∃ i' t' m', tops (refs_of v) !! i' = Some (t', m') ∧ i' ≠ i ∧ n ∈ t' :: m'.
Proof.
  intros Hr Hwf. unfold otherImagesTopLayers. rewrite list_elem_of_bind. setoid_rewrite list_elem_of_filter.
  setoid_rewrite list_elem_of_fmap. setoid_rewrite (image_top v r _ _ Hr Hwf). unfold image_refs. split.
  - intros (g & Hn & Hid & g0 & -> & Hg). simpl in *. rewrite copySlicePreferringNil_id in Hn.
    exists (Images.ID g0), (Images.TopLayer g0), (Images.MappedTopLayers g0). by eauto 6.
  - intros (i' & t' & m' & (g & Hg & <- & [= <- <-]) & Hne & Hn). exists (Images.copyImage g). simpl.
    rewrite copySlicePreferringNil_id. by eauto 6.
Qed.

Section Chain.
Context (h : nat) (v v' : view) (r : imageStore_t) (image : Image).
Notation i := (Images.ID image).
Notation t := (Images.TopLayer image).
Notation m := (Images.MappedTopLayers image).
Context (Hsound : sound v) (Hr : v_images v !! f_imageStore (v_fixed v) = Some r) (Hwf : reg_wf (Images.reg (mem r))).
Context (Htop : tops (refs_of v) !! i = Some (t, m)) (Hun : unused_image i (refs_of v)).
Context (Hvl : v_layers v' = v_layers v) (Hvc : v_containers v' = v_containers v).
Notation layers := (LayerData.copyLayer <$> reg_values (Layers.reg (v_layers v))).
Notation others := (otherImagesTopLayers i (Images.copyImage <$> reg_values (Images.reg (mem r)))).

(** Where the walk stands: [c] has been added, [n] is next. *)
Record walking (c : list string) (n : string) : Prop := {
  wk_removable : removable (drop_image i (refs_of v)) (m ++ c);
  wk_chain : chain (refs_of v) t c n;
  wk_next : n = "" ∨ is_Some (parents (refs_of v) !! n) ∧ n ∉ (m ++ c)%list
}.

Lemma walking_start : walking [] t.
Proof.
  destruct Hsound as (_ & Hi & Hm & Hp). split; rewrite ?app_nil_r.
  - by eapply mapped_removable.
  - done.
  - destruct (decide (t = "")) as [|Hne]; [by left|right]. split; [by eapply in_top|]. intros Hin.
    by destruct (pr_image _ Hp _ _ _ _ _ _ _ Htop Hin Htop) as [? _].
Qed.

Lemma walking_step c n p :
  walking c n → n ≠ "" → Containers.find (mem (v_containers v)) n = None → n ∉ others →
  ¬ Exists (λ l, LayerData.Parent l ∈ (if decide (n = t) then n :: m else [n]) ∧ LayerData.ID l ∉ (m ++ c)%list) layers →
  parents (refs_of v) !! n = Some p → walking (c ++ [n]) p.
Proof.
  intros [Hrm Hch Hnx] Hne Hfind Hoth Hnc Hp. destruct Hnx as [|[Hkn Hnew]]; [done|]. destruct Hsound as (Hco & Hi & Hm & Hpr).
  assert (∀ k, parents (refs_of v) !! k = Some n → k ∈ (m ++ c)%list) as Hchild.
  { intros k Hk. destruct (decide (k ∈ (m ++ c)%list)) as [|Hnin]; [done|]. destruct Hnc.
    apply (Exists_layers v (λ i p, p ∈ (if decide (n = t) then n :: m else [n]) ∧ i ∉ (m ++ c)%list) (co_layers v Hco)).
    exists k, n. split_and!; [done| |done]. case_decide; by left. }
  assert (removable (drop_image i (refs_of v)) (m ++ c ++ [n])) as Hrm'.
  { rewrite app_assoc. apply removable_snoc; simpl; try done.
    - intros i' t' m' [Hne' Hi']%lookup_delete_Some. split; [intros ->|intros Hin]; apply Hoth, (others_spec v r _ _ Hr Hwf);
        (exists i'; do 2 eexists; split_and!; [done|done|]); [by left|by right].
    - intros c' u j Hu. eapply unused_layer; [apply Hco|done|done]. }
  split; [done|by eapply chain_snoc|]. destruct (decide (p = "")) as [|Hpe]; [by left|right].
  split; [by eapply in_parent|]. rewrite app_assoc in *. by eapply removable_parent_new.
Qed.

Lemma walking_done c n : walking c n → needed v i t m (m ++ c) n → goes_with v i t m (m ++ c).
Proof. intros [Hrm Hch _] Hn. split; [done|]. by exists c, n. Qed.

(** The walk ends, and has found the layers that nothing needs.  As many
    rounds as there are layers are enough, however the parents are linked. *)
Lemma remove_chain_wp rounds c n s :
  sees h s v' → walking c n → (size (parents (refs_of v)) < rounds + length (m ++ c))%nat →
  wp (remove_chain rounds h image layers others (m ++ c) n)
     (λ o s', sees h s' v' ∧ ∃ removed, o = Ret removed ∧ goes_with v i t m removed) s.
Proof.
  destruct Hsound as (Hco & _). revert c n s.
  induction rounds as [|rounds IH]; intros c n s Hs Hw Hlt; simpl.
  { pose proof (removable_length _ _ (wk_removable _ _ Hw)) as Hle. simpl in Hle, Hlt. lia. }
  assert (∀ s', sees h s' v' → needed v i t m (m ++ c) n →
    wp (mret (m ++ c)%list) (λ o s'', sees h s'' v' ∧ ∃ removed, o = Ret removed ∧ goes_with v i t m removed) s') as Hend.
  { intros s' Hs' Hn. apply wp_ret. split; [done|]. eexists. split; [done|]. by eapply walking_done. }
  destruct (decide (n = "")) as [|Hne]; [apply Hend; [done|by left]|].
  wp_step. eapply read_containers; [done|intros w; rewrite Hvc; apply container_Exists_run|]. intros s1 Hs1.
  case_bool_decide as Hf; [apply Hend; [done|by right; left]|].
  destruct (decide (n ∈ others)) as [Ho|Ho].
  { apply Hend; [done|]. right. right. left. by apply (others_spec v r _ _ Hr Hwf) in Ho. }
  destruct (wk_next _ _ Hw) as [|[Hkn Hnew]]; [done|].
  destruct (known_layer v n (co_layers v Hco) Hkn) as (p & l & Hp & Hl & Hid).
  wp_step. wp_step. eapply read_layers; [done|intros w; rewrite Hvl, (layer_Get_run _ _ _ (proj1 (co_layers v Hco))), Hp; simpl; by rewrite Hl|].
  intros s2 Hs2. simpl.
  destruct (decide (Exists _ _)) as [Hc|Hc].
  { apply Hend; [done|]. do 3 right.
    apply (Exists_layers v (λ i p, p ∈ (if decide (n = t) then n :: m else [n]) ∧ i ∉ (m ++ c)%list) (co_layers v Hco)) in Hc.
    destruct Hc as (k & q & Hk & Hq & Hnin). exists k, q. split_and!; [done| |done].
    case_decide as Hd; [|left; by apply list_elem_of_singleton]. apply elem_of_cons in Hq as [|]; [by left|by right]. }
  assert (walking (c ++ [n]) (LayerData.Parent l)) as Hw'.
  { apply walking_step; try done; [by apply eq_None_not_Some|].
    apply (layer_parent _ _ _ (co_layers v Hco)). exists l. split; [|done]. apply reg_values_elem. exists p. split; [|done].
    by eapply LayerFacts.layer_find_some; [apply (co_layers v Hco)|]. }
  rewrite <- app_assoc. apply IH; [done|done|]. rewrite !length_app in *. simpl in *. lia.
Qed.
End Chain.

(** The layers go one after the other, until one of them does not. *)
Lemma drop_layers_wp h ids cf s v :
  sees h s v → consistent v → removable (refs_of v) ids →
  wp (drop_layers fuel h ids cf) (λ o s', ∃ rl ids1,
    let v' := mkView rl (v_images v) (v_containers v) (v_fixed v) in
    sees h s' v' ∧ consistent v' ∧ ids1 `prefix_of` ids ∧ refs_of v' = drop_parents ids1 (refs_of v) ∧
    (∀ cf', o = Ret (cf', None) → ids1 = ids)) s.
Proof.
  revert cf s v. induction ids as [|x ids IH]; intros cf s v Hs Hco Hrm; simpl.
  { wp_step. exists (v_layers v), []. by destruct v. }
  destruct (removable_free _ _ _ Hrm) as [Hx Hfree]. wp_step. eapply wp_mono; [by apply drop_layer_wp|].
  intros o s1 (rl & gone & Hs1 & Hco1 & Hrefs & Hgone). set (v1 := mkView _ _ _ _) in *.
  assert (∀ o' : outcome (CleanupTempDirFuncs D * option error), (∀ cf', o' ≠ Ret (cf', None)) → ∃ rl ids1,
    let v' := mkView rl (v_images v) (v_containers v) (v_fixed v) in
    sees h s1 v' ∧ consistent v' ∧ ids1 `prefix_of` (x :: ids) ∧ refs_of v' = drop_parents ids1 (refs_of v) ∧
    (∀ cf', o' = Ret (cf', None) → ids1 = (x :: ids))) as Hend.
  { intros o' Hn. exists rl, (if gone then [x] else []). split_and!; [done..| |by destruct gone|by intros cf' ?%Hn].
    destruct gone; [|apply prefix_nil]. apply prefix_cons, prefix_nil. }
  destruct o as [[cf1 [err|]]|e|c]; simpl; [wp_step; by apply Hend| |by apply Hend..].
  rewrite (Hgone cf1 eq_refl) in Hrefs. eapply wp_mono; [apply (IH _ s1 v1); [done..|rewrite Hrefs; by apply removable_tail]|].
  intros o2 s2 (rl2 & ids1 & Hs2 & Hco2 & Hpre & Hrefs2 & Hall). exists rl2, (x :: ids1). split_and!; [done|done| | |].
  - by apply prefix_cons.
  - etrans; [exact Hrefs2|]. by rewrite Hrefs.
  - intros cf' E. by rewrite (Hall cf' E).
Qed.

Lemma calm_layer_size h n x : calmly h (layer_size h n x).
Proof.
  unfold layer_size. apply moves_bind; [apply _|apply alike_onLayers|intros k].
  - unfold Layers.Size, Layers.lookup, Layers.deref, Layers.getR. moves_steps.
  - apply moves_bind; [apply _| |intros k'; moves_steps]. case_decide; [|moves_steps]. apply alike_onLayers.
    unfold Layers.DiffSize, Layers.findParentAndLayer, Layers.lookup, Layers.deref, Layers.getR.
    moves_steps; apply LayerFacts.same_core_onDriver.
Qed.

(** *** The whole operation *)

Definition image_named (v : view) (id : string) : option Image :=
  r ← v_images v !! f_imageStore (v_fixed v); p ← Images.find (mem r) id; Registry.heap (Images.reg (mem r)) !! p.

(** What becomes of an image that no container uses: it goes, with the layers
    that are returned; or only some of them; or, without [commit], they are
    only returned. *)
Definition image_fate (v : view) (g : Image) (commit : bool) (o : outcome (list string)) (g' : refs) : Prop :=
  let i := Images.ID g in
  if commit then
    g' = refs_of v ∧ ¬ is_ret o ∨
    ∃ gone, removable (drop_image i (refs_of v)) gone ∧ g' = drop_parents gone (drop_image i (refs_of v)) ∧
            ∀ l, o = Ret l → l = gone ∧ goes_with v i (Images.TopLayer g) (Images.MappedTopLayers g) l
  else g' = refs_of v ∧ ∀ l, o = Ret l → goes_with v i (Images.TopLayer g) (Images.MappedTopLayers g) l.

(** What [deleteImage] does to the references. *)
Definition image_deletion (v : view) (id : string) (commit : bool) (o : outcome (list string)) (v' : view) : Prop :=
  consistent v' ∧
  match image_named v id with
  | None => refs_of v' = refs_of v ∧ fails_with ErrNotAnImage o
  | Some g =>
      if decide (map_Exists (λ _ u, u.2 = Images.ID g) (uses (refs_of v)))
      then refs_of v' = refs_of v ∧ fails_with ErrImageUsedByContainer o
      else image_fate v g commit o (refs_of v')
  end.

Lemma decide_image_used v i {A} (a b : A) :
  ContainerFacts.mem_wf (mem (v_containers v)) →
  (if decide (Exists (λ c, Containers.ImageID c = i) (Containers.copyContainer <$> reg_values (Containers.reg (mem (v_containers v))))) then a else b) =
  if decide (map_Exists (λ _ u, u.2 = i) (uses (refs_of v))) then a else b.
Proof. intros Hwf. apply decide_ext, (Exists_containers v (λ u, u.2 = i) Hwf). Qed.

Lemma named_image v id r g :
  v_images v !! f_imageStore (v_fixed v) = Some r → ImageFacts.mem_wf ImageFacts.partial (mem r) → image_named v id = Some g →
  (∀ w, Images.Get id (w, r) = ((w, r), Ret (Images.copyImage g))) ∧
  iabs (mem r) !! Images.ID g = Some g ∧ is_Some (Images.find (mem r) id) ∧
  ∃ p, Images.find (mem r) (Images.ID g) = Some p ∧ Registry.heap (Images.reg (mem r)) !! p = Some g.
Proof.
  intros Hr Hwf. unfold image_named. rewrite Hr. simpl. intros (p & Hf & Hg)%bind_Some.
  destruct (ImageFacts.img_find_some _ _ _ _ Hwf Hf) as [Hp _]. pose proof (ImageFacts.mem_reg _ _ Hwf) as Hreg. split_and!.
  - intros w. rewrite (image_Get_run _ _ _ _ Hwf), Hf. simpl. by rewrite Hg.
  - apply (reg_abs_lookup _ _ _ Hreg). by exists p.
  - by eauto.
  - exists p. split; [|done]. apply ImageFacts.img_find_id, (wf_byid _ Hreg). split; [done|]. by rewrite Hg.
Qed.

(** The record of the image goes, or nothing happens. *)
Lemma image_Delete_wp h s v r i g :
  sees h s v → consistent v → v_images v !! f_imageStore (v_fixed v) = Some r →
  (∃ p, Images.find (mem r) i = Some p ∧ Registry.heap (Images.reg (mem r)) !! p = Some g) → Images.ID g = i →
  wp (onImages (f_imageStore (v_fixed v)) (Images.Delete i)) (λ o s', ∃ r',
    sees h s' (set_image r' v) ∧ consistent (set_image r' v) ∧
    (refs_of (set_image r' v) = refs_of v ∧ ¬ is_ret o ∨ refs_of (set_image r' v) = drop_image i (refs_of v))) s.
Proof.
  intros Hs Hco Hr (p & Hf & Hg) Hid. destruct (co_images v Hco) as (r0 & Hr0 & Hwf). rewrite Hr in Hr0. injection Hr0 as <-.
  eapply wp_onImages; [done..|]. eapply wp_mono; [by apply (ImageFacts.img_Delete_wp _ ImageFacts.partial i (fst s, r) Hwf)|].
  intros o [w r'] Hd s' _ Hs'. exists r'. simpl in *. split; [exact Hs'|]. destruct (IsReadWrite (lockfile r)).
  - rewrite Hf in Hd. destruct Hd as (Hwf' & g' & Hg' & Habs). rewrite Hg in Hg'. injection Hg' as <-.
    split; [by eapply consistent_set_image|]. right. rewrite (refs_set_image _ _ _ Hr), Habs, Hid, fmap_delete.
    unfold refs_of, drop_image, image_refs. simpl. by rewrite Hr.
  - destruct Hd as [-> [= -> ->]]. rewrite (set_image_same _ _ Hr). split; [done|]. left. split; [done|]. by intros [].
Qed.

(** The part of the deletion that concerns the image store. *)
Definition image_dropped (v : view) (g : Image) (commit : bool) (o : outcome deletion) (v' : view) : Prop :=
  consistent v' ∧ v_fixed v' = v_fixed v ∧
  let i := Images.ID g in
  if decide (map_Exists (λ _ u, u.2 = i) (uses (refs_of v))) then refs_of v' = refs_of v ∧ o = Err ErrImageUsedByContainer
  else match o with
       | Ret x => imageFound x = true ∧ goes_with v i (Images.TopLayer g) (Images.MappedTopLayers g) (layersToRemove x) ∧
                  refs_of v' = if commit then drop_image i (refs_of v) else refs_of v
       | _ => commit = true ∧ (refs_of v' = refs_of v ∨ refs_of v' = drop_image i (refs_of v))
       end.

Lemma delete_image_in_wp h id s v g commit withSize :
  sees h s v → sound v → image_named v id = Some g → (size (parents (refs_of v)) < fuel)%nat →
  wp (delete_image_in fuel (f_imageStore (v_fixed v)) h commit withSize (mkDeletion id false 0 []))
     (λ o s', ∃ v', sees h s' v' ∧ image_dropped v g commit o v') s.
Proof.
  intros Hs Hsound Hnm Hfuel. pose proof Hsound as (Hco & _). destruct (co_images v Hco) as (r & Hr & Hwf).
  destruct (named_image v id r g Hr Hwf Hnm) as (Hget & Habs & _ & Hp). pose proof (ImageFacts.mem_reg _ _ Hwf) as Hreg.
  unfold delete_image_in, image_dropped. wp_step. eapply read_images; [done|done|exact Hget|]. intros s1 Hs1. simpl.
  wp_step. eapply read_containers; [done|intros w; apply container_list_run|]. intros s2 Hs2. simpl.
  rewrite (decide_image_used v _ _ _ (co_containers v Hco)). destruct (decide _) as [?|Hnu]; [by wp_step; exists v; split_and!|].
  assert (unused_image (Images.ID g) (refs_of v)) as Hun by (intros c l j Hu ->; apply Hnu; by exists c, (l, Images.ID g)).
  assert (tops (refs_of v) !! Images.ID g = Some (image_refs g)) as Htop by (simpl; rewrite Hr; simpl; by rewrite lookup_fmap, Habs).
  wp_step. eapply read_images; [done|done|intros w; apply image_list_run|]. intros s3 Hs3. simpl.
  wp_step. eapply read_layers; [done|intros w; apply layer_list_run|]. intros s4 Hs4. simpl.
  wp_step. eapply (wp_mono _ (λ o s', ∃ v', sees h s' v' ∧ consistent v' ∧ v_fixed v' = v_fixed v ∧ v_layers v' = v_layers v ∧
    v_containers v' = v_containers v ∧ match o with Ret _ => refs_of v' = (if commit then drop_image (Images.ID g) (refs_of v) else refs_of v)
      | _ => commit = true ∧ (refs_of v' = refs_of v ∨ refs_of v' = drop_image (Images.ID g) (refs_of v)) end)).
  { destruct commit; [|wp_step; by exists v].
    eapply wp_mono; [by eapply image_Delete_wp|]. intros o s5 (r' & Hs5 & Hco5 & Hrefs). exists (set_image r' v).
    split_and!; [done..|]. destruct Hrefs as [[Hrefs Hn]|Hrefs]; [|destruct o; by auto].
    destruct o as [[]|e|c]; [|by auto..]. destruct Hn. by eexists. }
  intros o s5 (v5 & Hs5 & Hco5 & Hf5 & Hl5 & Hc5 & Ho). destruct o as [[]|e|c]; [|by exists v5..].
  wp_step. rewrite copySlicePreferringNil_id.

  assert (Images.MappedTopLayers (Images.copyImage g) = Images.MappedTopLayers g) as E by apply copySlicePreferringNil_id.
  assert (walking v (Images.copyImage g) [] (Images.TopLayer g)) as Hw.
  { apply (walking_start v (Images.copyImage g)); [done| |done]. by rewrite E. }
  apply (remove_chain_wp h v v5 r (Images.copyImage g) Hsound Hr Hreg Hl5 Hc5 fuel [] _ s5 Hs5) in Hw; [|rewrite app_nil_r; lia].
  rewrite app_nil_r, E in Hw. eapply wp_mono; [exact Hw|]. intros o s6 (Hs6 & removed & -> & Hgo). wp_step.
  exists v5. by split_and!.
Qed.

Definition settled_image {C} (o : outcome (C * option error * list string * Z)) : outcome (list string) :=
  match o with
  | Ret (_, None, l, _) => Ret l
  | Ret (_, Some e, _, _) => Err e
  | Err e => Err e
  | Crash c => Crash c
  end.

Lemma image_deletion_alike v id commit o v1 v2 : alike v1 v2 → image_deletion v id commit o v1 → image_deletion v id commit o v2.
Proof. intros Ha [Hco Hd]. split; [by eapply consistent_alike|]. by rewrite (refs_alike _ _ Ha). Qed.

Lemma image_fate_weaken v g commit o o' g' : ¬ is_ret o' → image_fate v g commit o g' → image_fate v g commit o' g'.
Proof.
  intros Hr. assert (∀ l, o' = Ret l → False) as Hno by (intros l ->; apply Hr; by eexists).
  unfold image_fate. destruct commit.
  - intros [[? ?]|(gone & ? & ? & _)]; [by left|right]. exists gone. split_and!; [done..|]. intros l Hl. by destruct (Hno l Hl).
  - intros [? _]. split; [done|]. intros l Hl. by destruct (Hno l Hl).
Qed.

Lemma image_deletion_weaken v id commit o o' v' :
  ¬ is_ret o' → (∀ e, fails_with e o → fails_with e o') → image_deletion v id commit o v' → image_deletion v id commit o' v'.
Proof.
  intros Hr Hf [Hco Hd]. split; [done|]. destruct (image_named v id) as [g|]; [|by destruct Hd; auto].
  destruct (decide _); [by destruct Hd; auto|]. by eapply image_fate_weaken.
Qed.

(** The layers, after the image. *)
Lemma drop_image_layers_wp h s v v1 g l :
  sees h s v1 → consistent v1 → refs_of v1 = drop_image (Images.ID g) (refs_of v) →
  goes_with v (Images.ID g) (Images.TopLayer g) (Images.MappedTopLayers g) l →
  wp (drop_layers fuel h l []) (λ o s', ∃ v', sees h s' v' ∧ consistent v' ∧
    ∀ o', (∀ l', o' = Ret l' → l' = l ∧ ∃ cf, o = Ret (cf, None)) → image_fate v g true o' (refs_of v')) s.
Proof.
  intros Hs Hco Hrefs Hgo. pose proof Hgo as [Hrm _].
  eapply wp_mono; [apply (drop_layers_wp h l [] s v1); [done|done|by rewrite Hrefs]|].
  intros o s3 (rl & gone & Hs3 & Hco3 & [rest Hpre] & Hrefs3 & Hall). rewrite Hrefs in Hrefs3. eexists.
  split_and!; [exact Hs3|done|]. intros o' Ho'. right. exists gone. split_and!; [|done|].
  - rewrite Hpre in Hrm. by eapply removable_app.
  - intros l' (-> & cf & ->)%Ho'. by rewrite (Hall cf eq_refl).
Qed.

Lemma delete_image_layers_wp h id s v g (commit withSize : bool) x v1 :
  sees h s v1 → image_named v id = Some g → image_dropped v g commit (Ret x) v1 →
  wp (if negb (imageFound x) then fail ErrNotAnImage
      else
        size ← (if withSize then foldM (layer_size h) (removedSize x) (layersToRemove x) else mret (removedSize x));
        res ← (if commit then drop_layers fuel h (layersToRemove x) [] else mret ([], None));
        mret (fst res, snd res, layersToRemove x, size))
     (λ o s', ∃ v', sees h s' v' ∧ image_deletion v id commit (settled_image o) v') s.
Proof.
  intros Hs Hnm (Hco & Hfix & Hd). unfold image_deletion. rewrite Hnm. simpl in *. destruct (decide _) as [|Hnu]; [by destruct Hd|].
  destruct Hd as (Hfound & Hgo & Hrefs). rewrite Hfound. simpl. wp_step.
  eapply (wp_moves (related alike h)).
  { destruct withSize; [apply moves_foldM; [apply _..|]; intros; apply calm_layer_size|moves_steps]. }
  intros o s1 Hrel. destruct (Hrel v1 Hs) as (v2 & Hs2 & Ha). pose proof (consistent_alike _ _ Ha Hco) as Hco2.
  rewrite <- (refs_alike _ _ Ha) in Hrefs.
  assert (∀ o' : outcome (list string), ¬ is_ret o' → image_fate v g commit o' (refs_of v2)) as Hend.
  { intros o' Hn. apply (image_fate_weaken _ _ _ (Err ErrNotAnImage)); [done|]. unfold image_fate. destruct commit; [right; exists []|]; split_and!; try done. apply removable_nil. }
  destruct o as [sz|e|c]; [|exists v2; split_and!; [done..|]; apply Hend; by intros []..].
  wp_step. destruct commit; [|wp_step; wp_step; exists v2; do 3 (split; [done|]); by intros l [= <-]].
  eapply wp_mono; [by apply (drop_image_layers_wp h s1 v v2 g (layersToRemove x))|].
  intros o s3 (v3 & Hs3 & Hco3 & Hfate).
  destruct o as [[cf [err|]]|e|c]; [wp_step|wp_step| |]; (exists v3; split_and!; [done..|]; apply Hfate; try done).
  intros l [= <-]. by eauto.
Qed.

(** One image store can be written. *)
Definition one_image_store (v : view) : Prop := f_rwImageStores (v_fixed v) = [f_imageStore (v_fixed v)].

Lemma delete_image_locked_wp h id s v commit withSize :
  sees h s v → sound v → one_image_store v → (size (parents (refs_of v)) < fuel)%nat →
  wp (delete_image_locked fuel id commit withSize h)
     (λ o s', ∃ v', sees h s' v' ∧ image_deletion v id commit (settled_image o) v') s.
Proof.
  intros Hs Hsound Hone Hfuel. pose proof Hsound as (Hco & _). destruct (co_images v Hco) as (r & Hr & Hwf).
  unfold delete_image_locked. wp_step. eapply (wp_getS_fixed h f_rwImageStores); [done..|]. rewrite Hone. simpl.
  wp_step. eapply (wp_getS_fixed h f_imageStore); [done..|]. rewrite decide_True by done.
  wp_step. eapply read_images; [done|done|intros w; apply image_Exists_run|]. intros s1 Hs1. simpl.
  destruct (image_named v id) as [g|] eqn:Hnm.
  - destruct (named_image v id r g Hr Hwf Hnm) as (_ & _ & Hf & _). rewrite bool_decide_true by done. wp_step.
    eapply wp_mono; [by apply delete_image_in_wp|]. intros o s2 (v2 & Hs2 & Hd).
    destruct o as [x|e|c]; [by eapply delete_image_layers_wp|..]; exists v2; (split; [done|]); destruct Hd as (Hco2 & _ & Hd); cbv zeta in Hd;
      (split; [done|]); rewrite Hnm; (destruct (decide _); [destruct Hd as [-> [= ->]]; by split|]);
      destruct Hd as [-> Hd]; (destruct Hd as [->| ->]; [left; split; [done|by intros []]|right; exists []]);
      split_and!; try done; apply removable_nil.
  - rewrite bool_decide_false.
    + wp_step. wp_step. simpl. wp_step. exists v. split; [done|]. split; [done|]. rewrite Hnm. by split.
    + intros [p Hp]. destruct (ImageFacts.img_find_some _ _ _ _ Hwf Hp) as [_ [l Hl]].
      unfold image_named in Hnm. rewrite Hr in Hnm. simpl in Hnm. rewrite Hp in Hnm. simpl in Hnm. congruence.
Qed.

Lemma image_deletion_sound v id commit o v' : image_deletion v id commit o v' → sound v → sound v'.
Proof.
  intros [Hco Hd] (_ & Hi & Hm & Hp). assert (refs_of v' = refs_of v → sound v') as Hsame.
  { intros E. split_and!; by rewrite ?E. }
  destruct (image_named v id) as [g|]; [|by apply Hsame, Hd]. destruct (decide _); [by apply Hsame, Hd|].
  unfold image_fate in Hd. destruct commit; [|by apply Hsame, Hd]. destruct Hd as [[E _]|(gone & Hrm & E & _)]; [by apply Hsame|].
  split_and!; [done|rewrite E..].
  - apply removable_intact; [done|by apply intact_drop_image].
  - apply removable_intact_mapped; [done|]. intros i t m x. simpl. intros [_ Hi']%lookup_delete_Some. by eapply Hm.
  - by apply private_drop_parents, private_drop_image.
Qed.

Lemma deleteImage_wp id commit withSize s s1 h v :
  lock_all s = (s1, Ret h) → sees h s1 v → sound v → one_image_store v → (size (parents (refs_of v)) < fuel)%nat →
  wp (deleteImage fuel id commit withSize) (λ o s', ∃ v', sees h s' v' ∧ image_deletion v id commit (fst <$> o) v') s.
Proof.
  intros Hlock Hs Hsound Hone Hfuel. unfold deleteImage. wp_step.
  eapply wp_mono; [apply (locked_wp _ (λ o v', image_deletion v id commit (settled_image o) v') s s1 h Hlock)|].
  - intros o v1 v2. apply image_deletion_alike.
  - intros o c v1. apply image_deletion_weaken; [by intros []|done].
  - by apply delete_image_locked_wp.
  - intros o s2 (v2 & Hs2 & HP & Hh). destruct o as [[h' [[[cf err] l] sz]]|e|c]; [|by exists v2..].
    assert (h' = h) as -> by (by eapply Hh). simpl in HP. wp_step.
    eapply wp_mono; [apply (run_cleanups_wp h cf err (λ o v', image_deletion v id commit ((λ _, l) <$> o) v') s2 v2 Hs2)|].
    + by destruct err.
    + intros o v3 v4. apply image_deletion_alike.
    + intros o o' v3 [Hr Hf] Hd. destruct o' as [[]|e|c].
      * destruct (Hr (ex_intro _ tt eq_refl)) as [[] ->]. exact Hd.
      * eapply image_deletion_weaken; [by intros []| |exact Hd]. intros e'. specialize (Hf e'). by destruct o.
      * eapply image_deletion_weaken; [by intros []|done|exact Hd].
    + intros o s3 (v3 & Hs3 & Hd). destruct o as [[]|e|c]; [wp_step| |]; by exists v3.
Qed.

(** C15: Suppose that the locks are obtained, that what is seen with them is
    [sound], as above, that the store has one writable image store, and that
    there is more fuel than there are layers.  Then [DeleteImage] refuses a
    name that is no image and an image that a container uses, and no
    reference has changed.  Otherwise a success returns the mapped layers of
    the image and the part of the chain of parents from its top layer that
    nothing else needs, and with [commit] the image and exactly these layers
    are gone; in the order of the list, children come before their parents.
    After an error nothing has changed, or the image and some layers that
    nothing refers to are gone.  Whatever the outcome, what is seen is
    [sound]: no reference dangles. *)
Theorem DeleteImage_keeps_references id commit s s1 h v :
  lock_all s = (s1, Ret h) → sees h s1 v → sound v → one_image_store v → (size (parents (refs_of v)) < fuel)%nat →
  wp (DeleteImage fuel id commit) (λ o s', ∃ v', sees h s' v' ∧ image_deletion v id commit o v' ∧ sound v') s.
Proof.
  intros Hlock Hs Hsound Hone Hfuel. unfold DeleteImage. wp_step. eapply wp_mono; [by eapply deleteImage_wp|].
  intros o s' (v' & Hs' & Hd). pose proof (image_deletion_sound _ _ _ _ _ Hd Hsound) as Hsnd.
  destruct o as [x|e|c]; [wp_step| |]; by exists v'.
Qed.

(** ** Deleting a container *)

Definition container_named (v : view) (id : string) : option Container :=
  p ← Containers.find (mem (v_containers v)) id; Registry.heap (Containers.reg (mem (v_containers v))) !! p.

Definition set_containers (r : containerStore_t) (v : view) : view := mkView (v_layers v) (v_images v) r (v_fixed v).

Lemma indexed_delete (m m' : Containers.containerMem T) i c :
  indexed m → cabs m !! i = Some c → cabs m' = delete i (cabs m) →
  Containers.bylayer m' = delete (Containers.LayerID c) (Containers.bylayer m) →
  (∀ j d, cabs m !! j = Some d → Containers.LayerID d = Containers.LayerID c → j = i) → indexed m'.
Proof.
  intros Hix Hc Ha Hb Hone j d. rewrite Ha, Hb. intros [Hne Hd]%lookup_delete_Some.
  apply is_Some_delete_ne; [|by eapply Hix]. intros E. destruct Hne. symmetry. by apply (Hone j d).
Qed.

(** The record of the container goes, or nothing happens. *)
Lemma container_Delete_wp h id s v p c :
  sees h s v → consistent v → private (refs_of v) →
  Containers.find (mem (v_containers v)) id = Some p → Registry.heap (Containers.reg (mem (v_containers v))) !! p = Some c →
  wp (onContainers (Containers.Delete id)) (λ o s', ∃ r, let v' := set_containers r v in
    sees h s' v' ∧ consistent v' ∧ refs_of v' = drop_container (Containers.ID c) (refs_of v)) s.
Proof.
  intros Hs Hco Hp Hf Hc. eapply wp_onContainers; [done|].
  pose proof (ContainerFacts.Delete_wp id (fst s, v_containers v) (co_containers v Hco)) as Hd.
  pose proof (ContainerFacts.Delete_bylayer_wp id p c (fst s, v_containers v) Hf Hc) as Hb.
  unfold wp in *. destruct (Containers.Delete id _) as [[w r] o]. simpl in *. rewrite Hf in Hd.
  destruct Hd as (Hwf & c' & Hc' & Ha). rewrite Hc in Hc'. injection Hc' as <-. intros s' _ Hs'. exists r. split; [exact Hs'|].
  assert (cabs (mem (v_containers v)) !! Containers.ID c = Some c) as Hic.
  { apply (reg_abs_lookup _ _ _ (ContainerFacts.mem_reg _ (co_containers v Hco))).
    exists p. split; [|done]. by eapply ContainerFacts.find_some; [apply (co_containers v Hco)|]. }
  split.
  - destruct Hco as [Hl Hi Hcw Hix]. split; try done. eapply indexed_delete; try done. intros j d Hj E.
    apply (pr_one _ Hp j (Containers.LayerID c) (Containers.ImageID d) (Containers.ID c) (Containers.ImageID c)); simpl;
      rewrite lookup_fmap, ?Hj, ?Hic; simpl; by rewrite ?E.
  - unfold refs_of, drop_container. simpl. by rewrite Ha, fmap_delete.
Qed.

(** What [DeleteContainer] does to the references. *)
Definition container_deletion (v : view) (id : string) (o : outcome unit) (v' : view) : Prop :=
  consistent v' ∧
  match container_named v id with
  | None => refs_of v' = refs_of v ∧ fails_with ErrNotAContainer o
  | Some c =>
      let i := Containers.ID c in let l := Containers.LayerID c in
      (refs_of v' = refs_of v ∨ refs_of v' = drop_parent l (refs_of v)) ∧ ¬ is_ret o ∨
      refs_of v' = drop_container i (drop_parent l (refs_of v))
  end.

Lemma container_deletion_alike v id o v1 v2 : alike v1 v2 → container_deletion v id o v1 → container_deletion v id o v2.
Proof. intros Ha [Hco Hd]. split; [by eapply consistent_alike|]. by rewrite (refs_alike _ _ Ha). Qed.

Lemma container_deletion_weaken v id o o' v' : worse o o' → container_deletion v id o v' → container_deletion v id o' v'.
Proof.
  intros [Hr Hf] [Hco Hd]. split; [done|]. destruct (container_named v id) as [c|]; [|by destruct Hd; auto].
  destruct Hd as [[Hd Hn]|Hd]; [left|by right]. by auto.
Qed.

Lemma sees_inWorld {A} h (m : M World A) s v : sees h s v → sees h (fst (inWorld m s)) v.
Proof. unfold inWorld, zoom. by destruct (m (fst s)). Qed.

(** The directories and the record, after the layer. *)
Lemma delete_container_record_wp h id s v p c :
  sees h s v → consistent v → private (refs_of v) →
  Containers.find (mem (v_containers v)) id = Some p → Registry.heap (Containers.reg (mem (v_containers v))) !! p = Some c →
  wp (dirs ← getS (λ s, containerDirs s (Containers.ID c) []);
      _ ← inWorld (remove_dirs EnsureRemoveAll dirs);
      onContainers (Containers.Delete id))
     (λ o s', ∃ v', sees h s' v' ∧ consistent v' ∧
        (refs_of v' = refs_of v ∧ ¬ is_ret o ∨ refs_of v' = drop_container (Containers.ID c) (refs_of v))) s.
Proof.
  intros Hs Hco Hp Hf Hc. wp_step. unfold getS. wp_step. wp_step.
  pose proof (sees_inWorld h (remove_dirs EnsureRemoveAll (containerDirs (snd s) (Containers.ID c) [])) s v Hs) as Hs1.
  unfold wp at 1. destruct (inWorld _ s) as [s1 o]. simpl in Hs1. destruct o as [[]|e|cr].
  - eapply wp_mono; [by eapply container_Delete_wp|]. intros o s2 (r & Hs2 & Hco2 & Hrefs). eexists. by split_and!; [exact Hs2|done|right].
  - exists v. split_and!; [done..|]. left. split; [done|]. by intros [].
  - exists v. split_and!; [done..|]. left. split; [done|]. by intros [].
Qed.

Lemma named_container v id c :
  ContainerFacts.mem_wf (mem (v_containers v)) → container_named v id = Some c →
  ∃ p, Containers.find (mem (v_containers v)) id = Some p ∧ Registry.heap (Containers.reg (mem (v_containers v))) !! p = Some c ∧
       uses (refs_of v) !! Containers.ID c = Some (Containers.LayerID c, Containers.ImageID c).
Proof.
  intros Hwf. unfold container_named. intros (p & Hf & Hc)%bind_Some. exists p. split_and!; [done..|].
  apply (container_use v _ _ Hwf). exists c. split; [|done]. apply reg_values_elem. exists p. split; [|done].
  by eapply ContainerFacts.find_some.
Qed.

Lemma delete_container_locked_wp h id s v :
  sees h s v → sound v →
  wp (delete_container_locked fuel id h) (λ o s', ∃ v', sees h s' v' ∧ container_deletion v id (settled (B := nat) ((h,.) <$> o)) v') s.
Proof.
  intros Hs (Hco & Hi & Hm & Hp). unfold delete_container_locked, container_deletion. wp_step. wp_step.
  eapply read_containers; [done|intros w; apply container_Get_run, Hco|]. intros s1 Hs1.
  destruct (container_named v id) as [c|] eqn:Hnm.
  - destruct (named_container v id c (co_containers v Hco) Hnm) as (p & Hf & Hc & Hu). rewrite Hf. simpl. rewrite Hc. simpl.
    pose proof (in_layer _ Hi _ _ _ Hu) as Hl. destruct (known_layer v _ (co_layers v Hco) Hl) as (q & l & Hq & _ & _).
    wp_step. eapply read_layers; [done|intros w; apply layer_Exists_run|]. intros s2 Hs2. simpl.
    rewrite Hq, bool_decide_true by eauto. wp_step. eapply wp_mono; [by apply drop_layer_wp|].
    intros o s3 (rl & gone & Hs3 & Hco3 & Hrefs & Hgone). set (v3 := mkView _ _ _ _) in *.
    assert (∀ o' : outcome unit, ¬ is_ret o' → ∃ v', sees h s3 v' ∧ consistent v' ∧
      ((refs_of v' = refs_of v ∨ refs_of v' = drop_parent (Containers.LayerID c) (refs_of v)) ∧ ¬ is_ret o' ∨
       refs_of v' = drop_container (Containers.ID c) (drop_parent (Containers.LayerID c) (refs_of v)))) as Hend.
    { intros o' Hn. exists v3. split_and!; [done..|]. left. split; [|done]. rewrite Hrefs. destruct gone; [by right|by left]. }
    destruct o as [[cf [err|]]|e|cr]; [wp_step; apply Hend; by intros []| |apply Hend; by intros []..].
    rewrite (Hgone cf eq_refl) in Hrefs. wp_step. wp_step.
    eapply wp_mono; [apply (delete_container_record_wp h id s3 v3 p c Hs3 Hco3); [rewrite Hrefs; by apply private_drop_parent|done..]|].
    intros o s4 (v4 & Hs4 & Hco4 & Hrefs4). rewrite Hrefs in Hrefs4.
    destruct o as [[]|e|cr]; [wp_step|wp_step|]; exists v4; (split_and!; [done..|]); destruct Hrefs4 as [[Hrefs4 Hn]|Hrefs4];
      [|by right| |by right| |by right]; left; (split; [by right|]); [destruct Hn; by eexists|by intros []..].
  - assert (Containers.find (mem (v_containers v)) id = None) as ->; [|wp_step; exists v; by split_and!].
    unfold container_named in Hnm. destruct (Containers.find _ id) as [p|] eqn:Hf; [|done].
    destruct (ContainerFacts.find_some _ _ _ (co_containers v Hco) Hf) as [_ [c Hc]]. simpl in Hnm. congruence.
Qed.

Lemma container_deletion_intact v id o v' :
  container_deletion v id o v' → sound v →
  (∀ c, container_named v id = Some c → intact (drop_container (Containers.ID c) (refs_of v'))) ∧ private (refs_of v') ∧ (is_ret o → sound v').
Proof.
  intros [Hco Hd] (Hcv & Hi & Hm & Hp). destruct (container_named v id) as [c|] eqn:Hnm.
  - destruct (named_container v id c (co_containers v Hcv) Hnm) as (_ & _ & _ & Hu).
    set (i := Containers.ID c) in *. set (l := Containers.LayerID c) in *.
    assert (free l (drop_container i (refs_of v))) as Hfree.
    { split; simpl.
      - intros k Hk. by apply (pr_leaf _ Hp _ _ _ _ _ Hu Hk).
      - intros k t m Hk. by apply (pr_top _ Hp _ _ _ _ _ _ Hu Hk).
      - intros k l' j [Hne Hk]%lookup_delete_Some ->. by destruct Hne, (pr_one _ Hp _ _ _ _ _ Hu Hk). }
    pose proof (intact_drop_parent l _ Hfree (intact_drop_container i _ Hi)) as Hgone.
    pose proof (private_drop_parent l _ Hp) as Hpl.
    assert (private (drop_container i (drop_parent l (refs_of v)))) as Hpi.
    { eapply private_drop_container; [done|done|]. simpl. apply lookup_delete_eq. }
    destruct Hd as [[[E|E] Hn]|E]; rewrite E.
    + split_and!; [intros c' [= <-]; by apply intact_drop_container|done|done].
    + split_and!; [by intros c' [= <-]|done|done].
    + split_and!; [intros c' [= <-]; by apply intact_drop_container|done|]. intros _. split_and!; rewrite ?E; try done.
      intros k t m x Hk Hx. simpl in *. apply is_Some_delete_ne; [|by eapply Hm].
      intros <-. by destruct (pr_top _ Hp _ _ _ _ _ _ Hu Hk) as [_ ?].
  - destruct Hd as [E Hf]. rewrite E. split_and!; [done|done|]. intros [[] ->]. done.
Qed.

(** C16: Suppose that the locks are obtained and that what is seen with them is
    [sound], as above: in particular nobody else refers to the layer of a
    container.  Then [DeleteContainer] refuses a name that is no container,
    and no reference has changed.  A success has removed the layer and the
    record of the container and no other reference, and what is seen is
    [sound] again.  After an error nothing has changed, or the layer is gone
    and the record is still there, or both are gone: so the only reference
    that can be left without its layer is that of this container. *)
Theorem DeleteContainer_keeps_references id s s1 h v :
  lock_all s = (s1, Ret h) → sees h s1 v → sound v →
  wp (DeleteContainer fuel id) (λ o s', ∃ v', sees h s' v' ∧ container_deletion v id o v' ∧
    (∀ c, container_named v id = Some c → intact (drop_container (Containers.ID c) (refs_of v'))) ∧
    private (refs_of v') ∧ (is_ret o → sound v')) s.
Proof.
  intros Hlock Hv Hs. eapply wp_mono.
  - apply (cleaning_wp _ (container_deletion v id) s s1 h Hlock); [apply container_deletion_alike|apply container_deletion_weaken|].
    by apply delete_container_locked_wp.
  - intros o s' (v' & Hv' & Hd). exists v'. pose proof (container_deletion_intact _ _ _ _ Hd Hs) as (? & ? & ?). by split_and!.
Qed.
End Facts.

(** ** Concrete stores *)

Section Checks.
Implicit Type g : refs.

Definition intact_checks g : bool :=
  bool_decide (map_Forall (λ _ p, p = "" ∨ is_Some (parents g !! p)) (parents g)) &&
  bool_decide (map_Forall (λ _ t, (t.1 = "" ∨ is_Some (parents g !! t.1)) ∧ Forall (λ x, is_Some (parents g !! x)) t.2) (tops g)) &&
  bool_decide (map_Forall (λ _ u, is_Some (parents g !! u.1)) (uses g)).

Lemma intact_checked g : intact_checks g = true → intact g ∧ intact_mapped g.
Proof.
  unfold intact_checks. rewrite !andb_true_iff, !bool_decide_eq_true. intros [[Hp Ht] Hu]. split; [split|].
  - intros i p Hi Hne. by destruct (Hp i p Hi).
  - intros i t m Hi Hne. by destruct (Ht i _ Hi) as [[|] _].
  - intros i l j Hi. exact (Hu i _ Hi).
  - intros i t m x Hi Hx. destruct (Ht i _ Hi) as [_ Hm]. rewrite Forall_forall in Hm. by apply Hm.
Qed.

Definition private_checks g : bool :=
  bool_decide (map_Forall (λ i u, map_Forall (λ _ p, p ≠ u.1) (parents g) ∧
    map_Forall (λ _ t, t.1 ≠ u.1 ∧ u.1 ∉ t.2) (tops g) ∧ map_Forall (λ i' u', u.1 ≠ u'.1 ∨ i = i') (uses g)) (uses g)) &&
  bool_decide (map_Forall (λ i t, NoDup t.2 ∧
    Forall (λ x, map_Forall (λ k p, p ≠ x ∨ map_Exists (λ _ u, u = (k, i)) (uses g)) (parents g) ∧
                 map_Forall (λ i' t', t'.1 ≠ x ∧ (x ∉ t'.2 ∨ i = i')) (tops g)) t.2) (tops g)).

Lemma private_checked g : private_checks g = true → private g.
Proof.
  unfold private_checks. rewrite andb_true_iff, !bool_decide_eq_true. intros [Hu Ht]. split.
  - intros i l j k p Hi Hk. destruct (Hu i _ Hi) as (Hp & _ & _). exact (Hp k p Hk).
  - intros i l j k t m Hi Hk. destruct (Hu i _ Hi) as (_ & Ho & _). exact (Ho k _ Hk).
  - intros i l j i' j' Hi Hi'. destruct (Hu i _ Hi) as (_ & _ & Ho). by destruct (Ho i' _ Hi') as [?|?].
  - intros i t m x k Hi Hx Hk. destruct (Ht i _ Hi) as [_ Hm]. rewrite Forall_forall in Hm. destruct (Hm x Hx) as [Hp _].
    destruct (Hp k x Hk) as [?|(c & u & Hc & ->)]; [done|]. by exists c.
  - intros i t m x i' t' m' Hi Hx Hi'. destruct (Ht i _ Hi) as [_ Hm]. rewrite Forall_forall in Hm. destruct (Hm x Hx) as [_ Ho].
    destruct (Ho i' _ Hi') as [? Hor]. split; [done|]. intros Hx'. by destruct Hor.
  - intros i t m Hi. by destruct (Ht i _ Hi).
Qed.
End Checks.

Section Demo.
Import LayerDemo StoreDemo.

Notation view := (view (T := gset string) (D := nameDriver) (L := gset string)).

Definition consistent_checks (v : view) : bool :=
  layer_checks (v_layers v) && from_option (λ r, image_checks (mem r)) false (v_images v !! f_imageStore (v_fixed v)) &&
  container_checks (mem (v_containers v)) &&
  bool_decide (map_Forall (λ _ c, is_Some (Containers.bylayer (mem (v_containers v)) !! Containers.LayerID c)) (cabs (mem (v_containers v)))).

Lemma consistent_checked v : consistent_checks v = true → consistent v.
Proof.
  unfold consistent_checks. rewrite !andb_true_iff, bool_decide_eq_true. intros [[[Hl Hi] Hc] Hx]. split.
  - by apply layers_checked.
  - destruct (v_images v !! _) as [r|]; [|done]. exists r. split; [done|]. by apply images_checked.
  - by apply containers_checked.
  - intros i c Hic. exact (Hx i c Hic).
Qed.

Definition sound_checks (v : view) : bool :=
  consistent_checks v && intact_checks (refs_of v) && private_checks (refs_of v).
Lemma sound_checked v : sound_checks v = true → sound v.
Proof.
  unfold sound_checks. rewrite !andb_true_iff. intros [[Hc Hi] Hp]. split; [by apply consistent_checked|].
  destruct (intact_checked _ Hi). split_and!; [done..|]. by apply private_checked.
Qed.

(** What is seen with the locks held. *)
Definition locked (s : demo_st) : demo_st := fst (lock_all s).
Definition seen (s : demo_st) : view :=
  mkView (default (Layers.emptyStore [] None "" [] "" (mkNameDriver ∅ ∅) ∅) (layer_at 0 (snd (locked s))))
    (imageStores (heap (snd (locked s)))) (containerStore (snd (locked s))) (fixed_of (snd (locked s))).

(** The locks can be taken and what is seen is sound. *)
Definition ready (s : demo_st) : bool :=
  match snd (lock_all s) with Ret 0 => true | _ => false end &&
  match layer_at 0 (snd (locked s)) with Some _ => true | None => false end && sound_checks (seen s).

Lemma ready_sound s : ready s = true → lock_all s = (locked s, Ret 0) ∧ sees 0 (locked s) (seen s) ∧ sound (seen s).
Proof.
  unfold ready. rewrite !andb_true_iff. intros [[Hl Ha] Hs]. split; [|split; [|by apply sound_checked]].
  - unfold locked. by destruct (lock_all s) as [s1 [[|n]|e|c]].
  - unfold sees, seen. simpl. by destruct (layer_at 0 (snd (locked s))).
Qed.

(** An image, and a layer that nothing uses. *)
Definition demo_spare : demo_st := fst (PutLayer' "fff1" "base" [] "" false None (Some "data3") demo_image).
Lemma spare_ready : ready demo_spare = true.
Proof. vm_compute. reflexivity. Qed.
Lemma container_ready : ready demo_container = true.
Proof. vm_compute. reflexivity. Qed.
Lemma image_ready : ready demo_image = true.
Proof. vm_compute. reflexivity. Qed.

Lemma spare_deleted : snd (DeleteLayer 8 "fff1" demo_spare) = Ret tt ∧ layer_named (seen demo_spare) "fff1" = Some "fff1".
Proof. split; vm_compute; reflexivity. Qed.
Lemma DeleteLayer_keeps_references_witness :
  snd (DeleteLayer 8 "fff1" demo_spare) = Ret tt ∧
  wp (DeleteLayer 8 "fff1") (λ o s', ∃ v', sees 0 s' v' ∧ layer_deletion (seen demo_spare) "fff1" o v' ∧
    intact (refs_of v') ∧ private (refs_of v') ∧ (is_ret o → sound v')) demo_spare.
Proof.
  split; [exact (proj1 spare_deleted)|]. destruct (ready_sound _ spare_ready) as (Hl & Hv & Hs).
  pose proof (DeleteLayer_keeps_references 8 "fff1" demo_spare (locked demo_spare) 0 (seen demo_spare) Hl Hv Hs) as Hd. exact Hd.
Defined.

Lemma image_one : one_image_store (seen demo_image).
Proof. unfold one_image_store. vm_compute. reflexivity. Qed.
Lemma image_few : Nat.ltb (size (parents (refs_of (seen demo_image)))) 8 = true.
Proof. vm_compute. reflexivity. Qed.
Lemma image_deleted : snd (DeleteImage 8 "img" true demo_image) = Ret ["bbb1"; "aaa1"].
Proof. vm_compute. reflexivity. Qed.
Lemma DeleteImage_keeps_references_witness :
  snd (DeleteImage 8 "img" true demo_image) = Ret ["bbb1"; "aaa1"] ∧
  wp (DeleteImage 8 "img" true) (λ o s', ∃ v', sees 0 s' v' ∧ image_deletion (seen demo_image) "img" true o v' ∧ sound v') demo_image.
Proof.
  split; [exact image_deleted|]. destruct (ready_sound _ image_ready) as (Hl & Hv & Hs).
  pose proof (DeleteImage_keeps_references 8 "img" true demo_image (locked demo_image) 0 (seen demo_image) Hl Hv Hs image_one
    (proj1 (Nat.ltb_lt _ _) image_few)) as Hd. exact Hd.
Defined.

Lemma container_deleted : snd (DeleteContainer 8 "ctr" demo_container) = Ret tt.
Proof. vm_compute. reflexivity. Qed.
Lemma DeleteContainer_keeps_references_witness :
  snd (DeleteContainer 8 "ctr" demo_container) = Ret tt ∧
  wp (DeleteContainer 8 "ctr") (λ o s', ∃ v', sees 0 s' v' ∧ container_deletion (seen demo_container) "ctr" o v' ∧
    (∀ c, container_named (seen demo_container) "ctr" = Some c → intact (drop_container (Containers.ID c) (refs_of v'))) ∧
    private (refs_of v') ∧ (is_ret o → sound v')) demo_container.
Proof.
  split; [exact container_deleted|]. destruct (ready_sound _ container_ready) as (Hl & Hv & Hs).
  pose proof (DeleteContainer_keeps_references 8 "ctr" demo_container (locked demo_container) 0 (seen demo_container) Hl Hv Hs) as Hd. exact Hd.
Defined.

(** ** Where references are left dangling *)

(** A container with its own identifiers: the image gets a mapped top layer. *)
Definition demo_mapped : demo_st :=
  let maps := Some [mkIDMap 0 1000 10] in
  let options := mkContainerOptions (mkIDMappingOptions false false maps maps false (mkAutoUserNsOptions 0 0 "" "" [] [])) [] None None false None [] in
  fst (DeleteContainer 8 "ctr" (fst (CreateContainer' "ddd1" ["ctr"] "img" "eee1" "" (Some options) demo_image))).
Definition mapped_of (s : demo_st) : string := default "" (tops (refs_of (seen s)) !! "ccc1" ≫= λ t, head t.2).
(** A layer on top of it. *)
Definition demo_child : demo_st := fst (PutLayer' "fff1" (mapped_of demo_mapped) [] "" false None (Some "d") demo_mapped).

Definition dangles (i : string) (s : demo_st) : bool :=
  match parents (refs_of (seen s)) !! i with
  | Some p => bool_decide (p ≠ "") && match parents (refs_of (seen s)) !! p with None => true | Some _ => false end
  | None => false
  end.

(** [DeleteImage] removes the mapped top layers of an image without looking
    at their children: a layer that was put on a mapped layer keeps the top
    layer of the image, but not its own parent. *)
Theorem DeleteImage_orphans_child :
  ready demo_mapped = true ∧ intact_checks (refs_of (seen demo_child)) = true ∧
  snd (DeleteImage 8 "img" true demo_child) = Ret [mapped_of demo_mapped] ∧
  dangles "fff1" (fst (DeleteImage 8 "img" true demo_child)) = true.
Proof. split; [|split; [|split]]; vm_compute; reflexivity. Qed.

(** A layer cannot be put on the layer of a container, except when the parent
    is given by a prefix or a name: [populateLayerOptions] compares the string
    it was given, not the layer it leads to.  [DeleteContainer] then takes the
    parent away. *)
Theorem PutLayer_on_container_layer :
  (fst <$> snd (PutLayer' "fff1" "eee1" [] "" false None (Some "d") demo_container)) = Err ErrParentIsContainer ∧
  (LayerData.Parent ∘ fst <$> snd (PutLayer' "fff1" "eee" [] "" false None (Some "d") demo_container)) = Ret "eee1" ∧
  dangles "fff1" (fst (DeleteContainer 8 "ctr" (fst (PutLayer' "fff1" "eee" [] "" false None (Some "d") demo_container)))) = true.
Proof. split; [|split]; vm_compute; reflexivity. Qed.
End Demo.
End StoreFacts.
