(* ===== verification/UsernsFacts.v ===== *)
(** * How many identifiers a container needs

    [userns.go] sizes an automatic user namespace by the owners of the files of
    the layers and by the users and groups that the image lists.  Here: which
    identifiers these sizes cover, and which they miss. *)

From S2P Require Import Prelude World StoreUtil Strconv LockFile IdTools IdSet LayerData GraphDriver Store StoreOps.

Local Open Scope string_scope.
Local Open Scope Z_scope.

Module UsernsFacts.
Import StoreOps.

(** ** Owners of files *)

(** One identifier less than a [uint32] has. *)
Definition id_ok (id : Z) : Prop := 0 ≤ id < 2 ^ 32 - 1.

Lemma above_step n id :
  id_ok id → 0 ≤ n < 2 ^ 32 →
  0 ≤ above n id < 2 ^ 32 ∧ n ≤ above n id ∧ id < above n id ∧ (above n id = n ∨ above n id = id + 1).
Proof. unfold id_ok, above, uint32. intros Hid Hn. case_decide; [rewrite Z.mod_small by lia|]; lia. Qed.

Lemma above_fold ids n :
  Forall id_ok ids → 0 ≤ n < 2 ^ 32 →
  let r := foldl above n ids in
  0 ≤ r < 2 ^ 32 ∧ n ≤ r ∧ (∀ id, id ∈ ids → id < r) ∧ (r = n ∨ ∃ id, id ∈ ids ∧ r = id + 1).
Proof.
  intros Hids. revert n. induction Hids as [|id ids Hid _ IH]; intros n Hn; simpl.
  { split_and!; [lia..|by intros id ?%elem_of_nil|by left]. }
  destruct (above_step n id Hid Hn) as (Ha & Hna & Hia & Hor).
  destruct (IH _ Ha) as (Hr & Hle & Hall & Hex). split_and!; [lia..| |].
  - intros id' [->|Hin]%elem_of_cons; [lia|by apply Hall].
  - destruct Hex as [->|(id' & Hin & ->)].
    + destruct Hor as [->| ->]; [by left|right]. exists id. by split; [left|].
    + right. exists id'. by split; [right|].
Qed.

(** After one layer of the walk, the size covers the owners of its files. *)
Lemma layer_ids_covered (l : Layer) n :
  Forall id_ok (LayerData.l_UIDs l) → Forall id_ok (LayerData.l_GIDs l) → 0 ≤ n < 2 ^ 32 →
  let r := foldl above (foldl above n (LayerData.l_UIDs l)) (LayerData.l_GIDs l) in
  0 ≤ r < 2 ^ 32 ∧ n ≤ r ∧ ∀ id, id ∈ (LayerData.l_UIDs l ++ LayerData.l_GIDs l)%list → id < r.
Proof.
  intros Hu Hg Hn. destruct (above_fold _ _ Hu Hn) as (Hr & Hle & Hall & _). destruct (above_fold _ _ Hg Hr) as (Hr' & Hle' & Hall' & _).
  simpl. split_and!; [lia..|]. intros id [Hin|Hin]%elem_of_app; [specialize (Hall id Hin); lia|by apply Hall'].
Qed.

(** ** Users and groups *)

(** The identifiers that the files list, in the order of the lines. *)
Definition listed (users : list User) (groups : list Group) : list Z :=
  ((filter (λ u, is_nobody (u_Name u) = false) users ≫= λ u, [u_Uid u; u_Gid u]) ++
   (g_Gid <$> filter (λ g, is_nobody (g_Name g) = false) groups))%list.

Definition demo_users : list User := [mkUser "root" 0 0; mkUser "nobody" 65534 65534; mkUser "a" 5 5; mkUser "b" 6 6].
Definition demo_groups : list Group := [mkGroup "wheel" 3].

(** The comparison is strict, so an identifier that equals the size found so far
    is not counted: with the users 5 and 6 the size is 6, which has no room for
    identifier 6. *)
Example count_misses_id : count_groups (count_users 0 demo_users) demo_groups = 6 ∧ 6 ∈ listed demo_users demo_groups.
Proof. split; [reflexivity|]. unfold demo_users, demo_groups. apply (bool_decide_unpack _). vm_compute. exact I. Qed.

(** The largest [uint32] as an owner makes the size wrap around. *)
Example above_wraps : above 1000 (2 ^ 32 - 1) = 0.
Proof. reflexivity. Qed.
End UsernsFacts.
