(* ===== verification/GoRegexp.v ===== *)
(** * Regular expressions of Go

    The expressions that the library builds, with the choice of the match that
    package regexp documents: the one that a backtracking search finds first,
    where an alternative prefers its left side and a repetition prefers to go
    on.  A search that comes to the same place of the text in the same part of
    the expression for the second time is cut, so the matcher is polynomial. *)

From S2P Require Import Prelude StoreUtil.

Local Open Scope string_scope.

Module Regexp.

Inductive regexp :=
  | Class_ (p : ascii → bool)
  | Empty_
  | Cat (r s : regexp)
  | Alt (r s : regexp)
  | Star (r : regexp)
  | Capture (n : nat) (r : regexp).

Notation captures := (list (nat * string)).

(** ** Building blocks *)

Definition Optional (r : regexp) : regexp := Alt r Empty_.
Definition Plus (r : regexp) : regexp := Cat r (Star r).
Fixpoint Times (n : nat) (r : regexp) : regexp := match n with 0 => Empty_ | S n => Cat r (Times n r) end.
Definition AtLeast (n : nat) (r : regexp) : regexp := Cat (Times n r) (Star r).
Fixpoint AtMost (n : nat) (r : regexp) : regexp := match n with 0 => Empty_ | S n => Optional (Cat r (AtMost n r)) end.
Fixpoint Cats (l : list regexp) : regexp := match l with [] => Empty_ | [r] => r | r :: l => Cat r (Cats l) end.

Definition between (a b : ascii) (c : ascii) : bool := in_range (nat_of_ascii a) (nat_of_ascii b) (nat_of_ascii c).
Definition one_of (s : string) (c : ascii) : bool := existsb (Ascii.eqb c) (String.list_ascii_of_string s).
Definition either (p q : ascii → bool) (c : ascii) : bool := p c || q c.
Definition lowers := between "a" "z".
Definition uppers := between "A" "Z".
Definition digits := between "0" "9".
Definition word := either (either lowers uppers) (either digits (one_of "_")).
Definition xdigits := either digits (either (between "a" "f") (between "A" "F")).
Definition Char (c : ascii) : regexp := Class_ (Ascii.eqb c).

(** ** Matching *)

Notation result := (captures * string)%type.

Definition shorter (s t : string) : bool := Nat.ltb (String.length s) (String.length t).

(** The first of the results that leave the same rest. *)
Fixpoint distinct (seen : list nat) (l : list result) : list result :=
  match l with
  | [] => []
  | (c, s) :: l =>
      if decide (String.length s ∈ seen) then distinct seen l else (c, s) :: distinct (String.length s :: seen) l
  end.

(** What [s] has in front of its rest [t]. *)
Definition consumed (s t : string) : string := String.substring 0 (String.length s - String.length t) s.

Definition and_then (run : string → list result) (x : result) : list result :=
  (λ y, ((x.1 ++ y.1)%list, y.2)) <$> run x.2.

Fixpoint repeat_ (run : string → list result) (n : nat) (s : string) : list result :=
  match n with
  | 0 => [([], s)]
  | S n => distinct [] ((filter (λ x, shorter x.2 s = true) (run s) ≫= and_then (repeat_ run n)) ++ [([], s)])
  end.

(** The ways in which a beginning of [s] matches, the preferred ones first,
    with what is captured and what is left. *)
Fixpoint run (r : regexp) (s : string) : list result :=
  match r with
  | Class_ p => match s with String c t => if p c then [([], t)] else [] | EmptyString => [] end
  | Empty_ => [([], s)]
  | Cat r1 r2 => distinct [] (run r1 s ≫= and_then (run r2))
  | Alt r1 r2 => distinct [] (run r1 s ++ run r2 s)
  | Star r => repeat_ (run r) (String.length s) s
  | Capture n r => (λ x, ((x.1 ++ [(n, consumed s x.2)])%list, x.2)) <$> run r s
  end.

(** [FindStringSubmatch] of an expression between [^] and [$]. *)
Definition FindStringSubmatch (r : regexp) (s : string) : option captures :=
  match list_find (λ x, x.2 = "") (run r s) with Some (_, (c, _)) => Some c | None => None end.
Definition MatchString (r : regexp) (s : string) : bool := bool_decide (is_Some (FindStringSubmatch r s)).

(** A group that took no part in the match is the empty string. *)
Definition group (n : nat) (c : captures) : string :=
  match list_find (λ x, x.1 = n) c with Some (_, (_, s)) => s | None => "" end.

(** ** What an expression means *)

Inductive matches : regexp → string → captures → Prop :=
  | m_class p c : p c = true → matches (Class_ p) (String c "") []
  | m_empty : matches Empty_ "" []
  | m_cat r1 r2 s1 s2 c1 c2 : matches r1 s1 c1 → matches r2 s2 c2 → matches (Cat r1 r2) (s1 +:+ s2) (c1 ++ c2)
  | m_left r1 r2 s c : matches r1 s c → matches (Alt r1 r2) s c
  | m_right r1 r2 s c : matches r2 s c → matches (Alt r1 r2) s c
  | m_done r : matches (Star r) "" []
  | m_more r s1 s2 c1 c2 : matches r s1 c1 → matches (Star r) s2 c2 → matches (Star r) (s1 +:+ s2) (c1 ++ c2)
  | m_capture n r s c : matches r s c → matches (Capture n r) s (c ++ [(n, s)]).

Lemma distinct_sub seen l x : x ∈ distinct seen l → x ∈ l.
Proof.
  revert seen. induction l as [|[c s] l IH]; intros seen; simpl; [done|]. case_decide.
  - intros Hx. right. by eapply IH.
  - intros [->|Hx]%elem_of_cons; [by left|]. right. by eapply IH.
Qed.

Lemma distinct_complete seen l c t :
  (c, t) ∈ l → String.length t ∉ seen → ∃ c' t', (c', t') ∈ distinct seen l ∧ String.length t' = String.length t.
Proof.
  revert seen. induction l as [|[c0 t0] l IH]; intros seen; simpl; [by intros ?%elem_of_nil|].
  intros [[= -> ->]|Hin]%elem_of_cons Hn.
  - rewrite decide_False by done. exists c0, t0. by split; [left|].
  - case_decide; [by apply IH|]. destruct (decide (String.length t = String.length t0)) as [E|Hne].
    + exists c0, t0. by split; [left|].
    + destruct (IH (String.length t0 :: seen) Hin) as (c' & t' & Hin' & E); [by intros [|]%elem_of_cons|].
      exists c', t'. by split; [right|].
Qed.

Lemma consumed_app w t : consumed (w +:+ t) t = w.
Proof.
  unfold consumed. rewrite string_length_app. replace (String.length w + String.length t - String.length t) with (String.length w) by lia.
  apply substring_app.
Qed.

Lemma and_then_elem f x c t : (c, t) ∈ and_then f x ↔ ∃ c', (c', t) ∈ f x.2 ∧ c = (x.1 ++ c')%list.
Proof.
  unfold and_then. rewrite list_elem_of_fmap. split.
  - intros ([c' t'] & [= -> ->] & Hy). by exists c'.
  - intros (c' & Hy & ->). by exists (c', t).
Qed.

(** Every result is a match of what it consumes. *)
Definition sound_for (r : regexp) (f : string → list result) : Prop :=
  ∀ s c t, (c, t) ∈ f s → ∃ w, s = w +:+ t ∧ matches r w c.

Lemma repeat_sound r n : sound_for r (run r) → sound_for (Star r) (repeat_ (run r) n).
Proof.
  intros Hr. induction n as [|n IH]; intros s c t; simpl.
  - intros [= -> ->]%list_elem_of_singleton. exists "". split; [done|constructor].
  - intros Hin%distinct_sub. apply elem_of_app in Hin as [Hin|[= -> ->]%list_elem_of_singleton];
      [|exists ""; split; [done|constructor]].
    apply list_elem_of_bind in Hin as ([c1 s1] & Hin & [_ Hx]%list_elem_of_filter).
    apply and_then_elem in Hin as (c2 & Hin & ->). simpl in *. apply Hr in Hx as (w1 & -> & Hm1). apply IH in Hin as (w2 & -> & Hm2).
    exists (w1 +:+ w2). split; [by rewrite string_app_assoc|by constructor].
Qed.

Lemma run_sound r : sound_for r (run r).
Proof.
  induction r as [p| |r1 IH1 r2 IH2|r1 IH1 r2 IH2|r IH|n r IH]; intros s c t; cbn [run].
  - destruct s as [|a s]; [by intros ?%elem_of_nil|]. destruct (p a) eqn:Ep; [|by intros ?%elem_of_nil].
    intros [= -> ->]%list_elem_of_singleton. exists (String a ""). split; [done|by constructor].
  - intros [= -> ->]%list_elem_of_singleton. exists "". split; [done|constructor].
  - intros Hin%distinct_sub. apply list_elem_of_bind in Hin as ([c1 s1] & Hin & Hx).
    apply and_then_elem in Hin as (c2 & Hin & ->). simpl in *. apply IH1 in Hx as (w1 & -> & Hm1). apply IH2 in Hin as (w2 & -> & Hm2).
    exists (w1 +:+ w2). split; [by rewrite string_app_assoc|by constructor].
  - intros Hin%distinct_sub. apply elem_of_app in Hin as [Hin|Hin].
    + apply IH1 in Hin as (w & -> & Hm). exists w. split; [done|by apply m_left].
    + apply IH2 in Hin as (w & -> & Hm). exists w. split; [done|by apply m_right].
  - by apply repeat_sound.
  - rewrite list_elem_of_fmap. intros ([c1 t1] & [= -> ->] & Hin). apply IH in Hin as (w & -> & Hm). exists w.
    rewrite consumed_app. split; [done|by constructor].
Qed.

(** Every match leads to a result with its rest. *)
Definition complete_for (r : regexp) (f : string → list result) : Prop :=
  ∀ w c t, matches r w c → ∃ c', (c', t) ∈ f (w +:+ t).

Lemma distinct_rest s l c t :
  (∀ c t, (c, t) ∈ l → ∃ w, s = w +:+ t) → (c, t) ∈ l → ∃ c', (c', t) ∈ distinct [] l.
Proof.
  intros Hl Hin. destruct (distinct_complete [] l c t Hin) as (c' & t' & Hin' & E); [by apply not_elem_of_nil|].
  destruct (Hl _ _ Hin) as [w Hw]. destruct (Hl _ _ (distinct_sub _ _ _ Hin')) as [w' Hw']. exists c'.
  assert (String.length w = String.length w') as Elen.
  { assert (String.length s = String.length w + String.length t) by (rewrite Hw; apply string_length_app).
    assert (String.length s = String.length w' + String.length t') by (rewrite Hw'; apply string_length_app). lia. }
  rewrite Hw in Hw'. by destruct (string_app_inj_length _ _ _ _ Elen Hw') as [_ ->].
Qed.

Lemma bind_rest r1 r2 s f :
  sound_for r1 (run r1) → sound_for r2 f → ∀ c t, (c, t) ∈ (run r1 s ≫= and_then f) → ∃ w, s = w +:+ t.
Proof.
  intros H1 H2 c t Hin. apply list_elem_of_bind in Hin as ([c1 s1] & Hin & Hx).
  apply and_then_elem in Hin as (c2 & Hin & _). simpl in *. apply H1 in Hx as (w1 & -> & _). apply H2 in Hin as (w2 & -> & _).
  exists (w1 +:+ w2). by rewrite string_app_assoc.
Qed.

Lemma repeat_complete r n w c t :
  complete_for r (run r) → matches (Star r) w c → (String.length w ≤ n)%nat → ∃ c', (c', t) ∈ repeat_ (run r) n (w +:+ t).
Proof.
  intros Hr Hm. revert n. remember (Star r) as q eqn:Eq.
  induction Hm as [| | | | |r0|r0 s1 s2 c1 c2 H1 _ H2 IH|]; try done; injection Eq as ->; intros n Hn.
  - destruct n as [|n]; simpl; [by exists []; left|].
    eapply (distinct_rest t _ []); [|apply elem_of_app; right; by left].
    intros c' t' [Hin|[= -> ->]%list_elem_of_singleton]%elem_of_app; [|by exists ""].
    apply (bind_rest r (Star r) t (repeat_ (run r) n) (run_sound r) (repeat_sound r n (run_sound r)) c').
    apply list_elem_of_bind in Hin as (x & Hin & [_ Hx]%list_elem_of_filter). apply list_elem_of_bind. by exists x.
  - rewrite string_length_app in Hn. destruct (decide (s1 = "")) as [->|Hne]; [by apply IH|].
    assert (0 < String.length s1)%nat as Hlen by (destruct s1; simpl; [done|lia]).
    destruct n as [|n]; [lia|]. rewrite string_app_assoc. simpl.
    destruct (Hr s1 c1 (s2 +:+ t) H1) as [c1' Hin1]. destruct (IH eq_refl n) as [c2' Hin2]; [lia|].
    eapply (distinct_rest (s1 +:+ s2 +:+ t) _ (c1' ++ c2')%list).
    + intros c' t' [Hin|[= -> ->]%list_elem_of_singleton]%elem_of_app; [|by exists ""].
      apply (bind_rest r (Star r) _ (repeat_ (run r) n) (run_sound r) (repeat_sound r n (run_sound r)) c').
      apply list_elem_of_bind in Hin as (x & Hin & [_ Hx]%list_elem_of_filter). apply list_elem_of_bind. by exists x.
    + apply elem_of_app. left. apply list_elem_of_bind. exists (c1', s2 +:+ t). split.
      * apply and_then_elem. by exists c2'.
      * apply list_elem_of_filter. split; [|done]. unfold shorter. apply Nat.ltb_lt. rewrite !string_length_app. simpl. rewrite string_length_app. lia.
Qed.

Lemma run_complete r : complete_for r (run r).
Proof.
  induction r as [p| |r1 IH1 r2 IH2|r1 IH1 r2 IH2|r IH|n r IH]; intros w c t Hm; cbn [run].
  - inversion Hm as [p0 a Hp| | | | | | |]; subst. simpl. rewrite Hp. exists []. by left.
  - inversion Hm; subst. exists []. by left.
  - inversion Hm as [| |? ? s1 s2 c1 c2 Hm1 Hm2| | | | |]; subst. rewrite string_app_assoc.
    destruct (IH1 _ _ (s2 +:+ t) Hm1) as [c1' Hin1]. destruct (IH2 _ _ t Hm2) as [c2' Hin2].
    eapply (distinct_rest (s1 +:+ s2 +:+ t) _ (c1' ++ c2')%list).
    + apply (bind_rest r1 r2); apply run_sound.
    + apply list_elem_of_bind. exists (c1', s2 +:+ t). split; [|done]. apply and_then_elem. by exists c2'.
  - assert (∃ c', (c', t) ∈ (run r1 (w +:+ t) ++ run r2 (w +:+ t))%list) as [c' Hin].
    { setoid_rewrite elem_of_app. inversion Hm; subst; [destruct (IH1 w c t) as [c' ?]|destruct (IH2 w c t) as [c' ?]]; by eauto. }
    eapply (distinct_rest (w +:+ t)); [|exact Hin]. intros c0 t0 [Hx|Hx]%elem_of_app; apply run_sound in Hx as (w0 & ? & _); by eauto.
  - apply (repeat_complete r _ w c t IH Hm). rewrite string_length_app. lia.
  - inversion Hm as [| | | | | | |? ? ? c0 Hm0]; subst. destruct (IH _ _ t Hm0) as [c' Hin]. eexists.
    apply list_elem_of_fmap. exists (c', t). by split; [|].
Qed.

(** What is found is a match of the whole string. *)
Lemma Find_sound r s c : FindStringSubmatch r s = Some c → matches r s c.
Proof.
  unfold FindStringSubmatch. destruct (list_find _ _) as [[k [c0 t]]|] eqn:E; [|done]. intros [= <-].
  apply list_find_Some in E as (Hl & Ht & _). simpl in Ht. subst t. apply list_elem_of_lookup_2, run_sound in Hl as (w & -> & Hm).
  by rewrite string_app_nil_r.
Qed.

(** The matcher finds a match of the whole string exactly if there is one,
    and the captures it returns are those of a match. *)
Theorem FindStringSubmatch_spec r s :
  match FindStringSubmatch r s with
  | Some c => matches r s c
  | None => ∀ c, ¬ matches r s c
  end.
Proof.
  destruct (FindStringSubmatch r s) as [c|] eqn:E; [by apply Find_sound|]. intros c Hm.
  destruct (run_complete r s c "" Hm) as [c' Hin]. rewrite string_app_nil_r in Hin. unfold FindStringSubmatch in E.
  destruct (list_find _ _) as [[k [c0 t]]|] eqn:El; [done|]. apply list_find_None in El. rewrite Forall_forall in El.
  by apply (El (c', "") Hin).
Qed.
End Regexp.
