(* ===== verification/DockerReference.v ===== *)
(** * References to images

    [image/docker/reference]: names of repositories with an optional tag and an
    optional digest, their grammar, the normal form in which short names belong
    to Docker Hub; and [image/docker/policyconfiguration], which derives from a
    reference the scopes under which a policy is looked up. *)

From S2P Require Import Prelude StoreUtil Strconv GoRegexp.

Local Open Scope string_scope.

Module DockerReference.
Import Regexp.

(** ** Text *)

(** [strings.ToLower]: letters outside of ASCII are the library's business. *)
Class Unicode := { ToLower : string → string }.

Fixpoint ascii_lower (s : string) : string :=
  match s with EmptyString => EmptyString | String c s => String (lower c) (ascii_lower s) end.
#[global] Instance ascii_only : Unicode := { ToLower := ascii_lower }.

(** The text before and after the first [c]. *)
Fixpoint cut (c : ascii) (s : string) : option (string * string) :=
  match s with
  | EmptyString => None
  | String d t => if Ascii.eqb c d then Some ("", t) else option_map (λ p, (String d p.1, p.2)) (cut c t)
  end.

(** The text before and after the last [c]. *)
Fixpoint cut_last (c : ascii) (s : string) : option (string * string) :=
  match s with
  | EmptyString => None
  | String d t =>
      match cut_last c t with
      | Some p => Some (String d p.1, p.2)
      | None => if Ascii.eqb c d then Some ("", t) else None
      end
  end.

(** ** Regular expressions *)

Definition alphaNumeric : regexp := Plus (Class_ (either lowers digits)).
Definition separator : regexp := Alt (Class_ (one_of "._")) (Alt (Cat (Char "_") (Char "_")) (Star (Char "-"))).
Definition domainComponent : regexp :=
  let alnum := either (either lowers uppers) digits in
  Alt (Class_ alnum) (Cats [Class_ alnum; Star (Class_ (either alnum (one_of "-"))); Class_ alnum]).
Definition tag : regexp := Cat (Class_ word) (AtMost 127 (Class_ (either word (one_of ".-")))).
Definition digestPat : regexp :=
  let letters := either lowers uppers in
  let name := Cat (Class_ letters) (Star (Class_ (either letters digits))) in
  Cats [name; Star (Cat (Class_ (one_of "-_+.")) name); Char ":"; AtLeast 32 (Class_ xdigits)].
Definition identifier : regexp := Times 64 (Class_ (either (between "a" "f") digits)).

Definition nameComponent : regexp := Cat alphaNumeric (Optional (Plus (Cat separator alphaNumeric))).
Definition domain_ : regexp :=
  Cats [domainComponent; Optional (Plus (Cat (Char ".") domainComponent)); Optional (Cat (Char ":") (Plus (Class_ digits)))].
Definition remote : regexp := Cat nameComponent (Optional (Plus (Cat (Char "/") nameComponent))).
Definition namePat : regexp := Cat (Optional (Cat domain_ (Char "/"))) remote.
Definition anchoredName : regexp := Cat (Optional (Cat (Capture 1 domain_) (Char "/"))) (Capture 2 remote).
Definition referencePat : regexp :=
  Cats [Capture 1 namePat; Optional (Cat (Char ":") (Capture 2 tag)); Optional (Cat (Char "@") (Capture 3 digestPat))].

Definition IsFullIdentifier (s : string) : bool := MatchString identifier s.

(** ** The types *)

Record repository := mkRepository { domain : string; path : string }.

(** The implementations of [Named]. *)
Inductive Named :=
  | NRepository (r : repository)
  | NTagged (r : repository) (tag : string)
  | NCanonical (r : repository) (digest : string)
  | NReference (r : repository) (tag digest : string).
Inductive Reference := RNamed (n : Named) | RDigest (digest : string).

#[global] Instance repository_eq_dec : EqDecision repository.
Proof. solve_decision. Defined.
#[global] Instance Named_eq_dec : EqDecision Named.
Proof. solve_decision. Defined.

Definition repo (n : Named) : repository :=
  match n with NRepository r | NTagged r _ | NCanonical r _ | NReference r _ _ => r end.
(** [n.(NamedTagged)] and [n.(Canonical)] *)
Definition Tag (n : Named) : option string :=
  match n with NTagged _ t | NReference _ t _ => Some t | _ => None end.
Definition Digest (n : Named) : option string :=
  match n with NCanonical _ d | NReference _ _ d => Some d | _ => None end.

Definition repository_Name (r : repository) : string := if decide (domain r = "") then path r else domain r +:+ "/" +:+ path r.
Definition Name (n : Named) : string := repository_Name (repo n).
Definition Domain (n : Named) : string := domain (repo n).
Definition Path (n : Named) : string := path (repo n).

Definition String_ (n : Named) : string :=
  match n with
  | NRepository r => repository_Name r
  | NTagged r t => repository_Name r +:+ ":" +:+ t
  | NCanonical r d => repository_Name r +:+ "@" +:+ d
  | NReference r t d => repository_Name r +:+ ":" +:+ t +:+ "@" +:+ d
  end.
Definition Reference_String (r : Reference) : string := match r with RNamed n => String_ n | RDigest d => d end.

Definition ErrReferenceInvalidFormat := ErrOther "invalid reference format".
Definition ErrTagInvalidFormat := ErrOther "invalid tag format".
Definition ErrDigestInvalidFormat := ErrOther "invalid digest format".
Definition ErrNameContainsUppercase := ErrOther "repository name must be lowercase".
Definition ErrNameEmpty := ErrOther "repository name must have at least one component".
Definition ErrNameTooLong := ErrOther "repository name must not be more than 255 characters".
Definition ErrNameNotCanonical := ErrOther "repository name must be canonical".

Definition NameTotalLengthMax : nat := 255.

(** ** Parsing *)

Section Parsing.
Context `{Digests} `{Unicode}.

(** [digest.Parse] *)
Definition digest_Parse (s : string) : string + error := match ValidateDigest s with None => inl s | Some e => inr e end.

Definition getBestReferenceType (r : repository) (tag digest : string) : option Reference :=
  if decide (repository_Name r = "") then if decide (digest = "") then None else Some (RDigest digest)
  else if decide (tag = "") then
    Some (RNamed (if decide (digest = "") then NRepository r else NCanonical r digest))
  else Some (RNamed (if decide (digest = "") then NTagged r tag else NReference r tag digest)).

Definition splitDomain (name : string) : string * string :=
  match FindStringSubmatch anchoredName name with
  | Some m => (group 1 m, group 2 m)
  | None => ("", name)
  end.

Definition Parse (s : string) : Reference + error :=
  match FindStringSubmatch referencePat s with
  | None =>
      if decide (s = "") then inr ErrNameEmpty
      else if MatchString referencePat (ToLower s) then inr ErrNameContainsUppercase
      else inr ErrReferenceInvalidFormat
  | Some matches =>
      let name := group 1 matches in
      if decide (NameTotalLengthMax < String.length name)%nat then inr ErrNameTooLong
      else
        let r := uncurry mkRepository (splitDomain name) in
        let best digest := match getBestReferenceType r (group 2 matches) digest with Some x => inl x | None => inr ErrNameEmpty end in
        if decide (group 3 matches = "") then best ""
        else match digest_Parse (group 3 matches) with inl d => best d | inr e => inr e end
  end.

Definition legacyDefaultDomain := "index.docker.io".
Definition defaultDomain := "docker.io".
Definition officialRepoName := "library".
Definition defaultTag := "latest".

Definition splitDockerDomain (name : string) : string * string :=
  let '(domain, remainder) :=
    match cut "/" name with
    | Some (first, rest) =>
        if contains_char "." first || contains_char ":" first || bool_decide (first = "localhost") then (first, rest)
        else (defaultDomain, name)
    | None => (defaultDomain, name)
    end in
  let domain := if decide (domain = legacyDefaultDomain) then defaultDomain else domain in
  (domain, if decide (domain = defaultDomain ∧ contains_char "/" remainder = false)
           then officialRepoName +:+ "/" +:+ remainder else remainder).

Definition ParseNormalizedNamed (s : string) : Named + error :=
  if MatchString identifier s then inr (ErrOther "invalid repository name, cannot specify 64-byte hexadecimal strings")
  else
    let '(domain, remainder) := splitDockerDomain s in
    let remoteName := match cut ":" remainder with Some (n, _) => n | None => remainder end in
    if decide (ToLower remoteName ≠ remoteName) then inr (ErrOther "invalid reference format: repository name must be lowercase")
    else
      match Parse (domain +:+ "/" +:+ remainder) with
      | inl (RNamed n) => inl n
      | inl (RDigest _) => inr (ErrOther "reference has no name")
      | inr e => inr e
      end.

Definition ParseNamed (s : string) : Named + error :=
  match ParseNormalizedNamed s with
  | inl n => if decide (String_ n = s) then inl n else inr ErrNameNotCanonical
  | inr e => inr e
  end.

Definition WithName (name : string) : Named + error :=
  if decide (NameTotalLengthMax < String.length name)%nat then inr ErrNameTooLong
  else match FindStringSubmatch anchoredName name with
       | Some m => inl (NRepository (mkRepository (group 1 m) (group 2 m)))
       | None => inr ErrReferenceInvalidFormat
       end.

Definition WithTag (n : Named) (t : string) : Named + error :=
  if negb (MatchString tag t) then inr ErrTagInvalidFormat
  else inl (match Digest n with Some d => NReference (repo n) t d | None => NTagged (repo n) t end).

Definition WithDigest (n : Named) (d : string) : Named + error :=
  if negb (MatchString digestPat d) then inr ErrDigestInvalidFormat
  else inl (match Tag n with Some t => NReference (repo n) t d | None => NCanonical (repo n) d end).

Definition TrimNamed (n : Named) : Named := NRepository (repo n).

Definition IsNameOnly (n : Named) : bool := bool_decide (Tag n = None ∧ Digest n = None).

(** The default tag is valid, so the panic of the code cannot happen. *)
Definition TagNameOnly {S} (n : Named) : M S Named :=
  if IsNameOnly n then match WithTag n defaultTag with inl n => mret n | inr _ => stop (Panic "invalid default tag") end else mret n.

Definition ParseDockerRef {S} (s : string) : M S Named :=
  match ParseNormalizedNamed s with
  | inr e => fail e
  | inl n =>
      match Tag n, Digest n with
      | Some _, Some d =>
          match WithName (Name n) with
          | inr e => fail e
          | inl m => match WithDigest m d with inl c => mret c | inr e => fail e end
          end
      | _, _ => TagNameOnly n
      end
  end.

Definition ParseAnyReference (s : string) : Reference + error :=
  if MatchString identifier s then inl (RDigest ("sha256:" +:+ s))
  else match digest_Parse s with
       | inl d => inl (RDigest d)
       | inr _ => match ParseNormalizedNamed s with inl n => inl (RNamed n) | inr e => inr e end
       end.

(** *** Familiar names *)

Definition familiarizeName (r : repository) : repository :=
  if decide (domain r = defaultDomain) then
    mkRepository "" (match split_on "/" (path r) with [a; b] => if decide (a = officialRepoName) then b else path r | _ => path r end)
  else r.
Definition Familiar (n : Named) : Named :=
  match n with
  | NRepository r => NRepository (familiarizeName r)
  | NTagged r t => NTagged (familiarizeName r) t
  | NCanonical r d => NCanonical (familiarizeName r) d
  | NReference r t d => NReference (familiarizeName r) t d
  end.
Definition FamiliarName (n : Named) : string := Name (Familiar n).
Definition FamiliarString (r : Reference) : string := match r with RNamed n => String_ (Familiar n) | RDigest d => d end.

(** ** Scopes of a policy *)

Definition DockerReferenceIdentity (n : Named) : string + error :=
  match Tag n, Digest n with
  | Some _, Some _ => inr (ErrOther "Unexpected Docker reference with both a name and a digest")
  | None, None => inr (ErrOther "Internal inconsistency: Docker reference with neither a tag nor a digest")
  | Some t, None => inl (Name n +:+ ":" +:+ t)
  | None, Some d => inl (Name n +:+ "@" +:+ d)
  end.

(** The name and its parents; the last one has no slash. *)
Fixpoint parents_of (rounds : nat) (name : string) : list string * string :=
  match rounds with
  | 0 => ([], name)
  | S rounds =>
      match cut_last "/" name with
      | None => ([name], name)
      | Some (parent, _) => let '(l, last) := parents_of rounds parent in (name :: l, last)
      end
  end.

Fixpoint wildcards (rounds : nat) (name : string) : list string :=
  match rounds with
  | 0 => []
  | S rounds =>
      match cut "." name with
      | None => []
      | Some (_, rest) => ("*." +:+ rest) :: wildcards rounds rest
      end
  end.

Definition DockerReferenceNamespaces (n : Named) : list string :=
  let name := Name n in
  let '(res, host) := parents_of (S (String.length name)) name in
  let host := match cut ":" host with Some (h, _) => h | None => host end in
  (res ++ wildcards (String.length host) host)%list.
End Parsing.
End DockerReference.

(** * References within the registry transport

    [image/docker/docker_transport.go]: what a user writes after [docker:]. *)
Module DockerTransport.
Import DockerReference.

Record dockerReference := mkDockerReference { ref : Named; isUnknownDigest : bool }.

#[global] Instance dockerReference_eq_dec : EqDecision dockerReference.
Proof. solve_decision. Defined.

Definition UnknownDigestSuffix := "@@unknown-digest@@".

(** [strings.CutPrefix] and [strings.CutSuffix]; the text itself if it is not
    there. *)
Definition CutPrefix (s p : string) : string * bool :=
  if String.prefix p s then (String.substring (String.length p) (String.length s - String.length p) s, true) else (s, false).
Definition CutSuffix (s p : string) : string * bool :=
  let n := (String.length s - String.length p)%nat in
  if decide (String.length p ≤ String.length s)%nat then
    if decide (String.substring n (String.length p) s = p) then (String.substring 0 n s, true) else (s, false)
  else (s, false).

Section Transport.
Context `{Digests} `{Unicode}.

Definition newReference (n : Named) (unknownDigest : bool) : dockerReference + error :=
  if IsNameOnly n && negb unknownDigest then inr (ErrOther "Docker reference is not for an unknown digest case; tag or digest is needed")
  else if negb (IsNameOnly n) && unknownDigest then
    inr (ErrOther "Docker reference is for an unknown digest case but reference has a tag or digest")
  else match Tag n, Digest n with
       | Some _, Some _ => inr (ErrOther "Docker references with both a tag and digest are currently not supported")
       | _, _ => inl (mkDockerReference n unknownDigest)
       end.
Definition NewReference (n : Named) : dockerReference + error := newReference n false.
Definition NewReferenceUnknownDigest (n : Named) : dockerReference + error := newReference n true.

Definition ParseReference {S} (refString : string) : M S dockerReference :=
  let '(refString, ok) := CutPrefix refString "//" in
  if negb ok then fail (ErrOther "docker: image reference does not start with //")
  else
    let '(refString, unknownDigest) := CutSuffix refString UnknownDigestSuffix in
    match ParseNormalizedNamed refString with
    | inr e => fail e
    | inl n =>
        if unknownDigest then
          if negb (IsNameOnly n) then fail (ErrOther "docker: image reference has unknown digest set but it contains either a tag or digest")
          else match NewReferenceUnknownDigest n with inl r => mret r | inr e => fail e end
        else
          n ← TagNameOnly n;
          match NewReference n with inl r => mret r | inr e => fail e end
    end.

Definition StringWithinTransport (r : dockerReference) : string :=
  let famString := "//" +:+ FamiliarString (RNamed (ref r)) in
  if isUnknownDigest r then famString +:+ UnknownDigestSuffix else famString.

Definition PolicyConfigurationIdentity {S} (r : dockerReference) : M S string :=
  if isUnknownDigest r then mret (Name (ref r))
  else match DockerReferenceIdentity (ref r) with
       | inl res => if decide (res = "") then stop (Panic "Internal inconsistency: DockerReferenceIdentity") else mret res
       | inr _ => stop (Panic "Internal inconsistency: DockerReferenceIdentity")
       end.

Definition PolicyConfigurationNamespaces (r : dockerReference) : list string :=
  let namespaces := DockerReferenceNamespaces (ref r) in
  if isUnknownDigest r then
    match namespaces with n :: l => if decide (n = Name (ref r)) then l else namespaces | [] => [] end
  else namespaces.

Definition tagOrDigest (r : dockerReference) : string + error :=
  match Digest (ref r), Tag (ref r) with
  | Some d, _ => inl d
  | None, Some t => inl t
  | None, None =>
      inr (ErrOther (if isUnknownDigest r then "Docker reference is for an unknown digest case, has neither a digest nor a tag"
                     else "Internal inconsistency: Reference unexpectedly has neither a digest nor a tag"))
  end.
End Transport.
End DockerTransport.
