(* ===== verification/ReferenceFacts.v ===== *)
(** * References to images: what the parser guarantees

    A parsed reference prints as the text it came from; a normalised name is
    its own normal form, so that comparing the texts of two normalised names
    is comparing the names; and the scopes of a policy are exactly the prefixes
    of a name. *)

From Stdlib Require Import Sorted.
From S2P Require Import Prelude StoreUtil Strconv GoRegexp DockerReference LayerDemo.

Local Open Scope string_scope.

Module ReferenceFacts.
Import Regexp DockerReference DockerTransport.

(** ** Expressions *)

Fixpoint plain (r : regexp) : bool :=
  match r with
  | Class_ _ | Empty_ => true
  | Cat r s | Alt r s => plain r && plain s
  | Star r => plain r
  | Capture _ _ => false
  end.

Lemma plain_captures r s c : matches r s c → plain r = true → c = [].
Proof.
  induction 1 as [| |r1 r2 s1 s2 c1 c2 _ IH1 _ IH2| | | |r s1 s2 c1 c2 _ IH1 _ IH2|]; simpl; rewrite ?andb_true_iff; intros Hp; try done.
  - destruct Hp. by rewrite IH1, IH2.
  - destruct Hp. by auto.
  - destruct Hp. by auto.
  - by rewrite IH1, IH2.
Qed.

Fixpoint nullable (r : regexp) : bool :=
  match r with
  | Class_ _ => false
  | Empty_ | Star _ => true
  | Cat r s => nullable r && nullable s
  | Alt r s => nullable r || nullable s
  | Capture _ r => nullable r
  end.

Lemma nullable_nonempty r s c : matches r s c → nullable r = false → s ≠ "".
Proof.
  induction 1 as [| |r1 r2 s1 s2 c1 c2 _ IH1 _ IH2|r1 r2 s c _ IH|r1 r2 s c _ IH| | |]; simpl; try done.
  - rewrite andb_false_iff. intros Hn E. destruct s1; [|done]. destruct Hn; [by apply IH1|]. by apply IH2.
  - rewrite orb_false_iff. intros [? ?]. by auto.
  - rewrite orb_false_iff. intros [? ?]. by auto.
Qed.

(** The characters that an expression can consume. *)
Fixpoint uses (p : ascii → Prop) (r : regexp) : Prop :=
  match r with
  | Class_ q => ∀ c, q c = true → p c
  | Empty_ => True
  | Cat r s | Alt r s => uses p r ∧ uses p s
  | Star r | Capture _ r => uses p r
  end.

Fixpoint all_chars (p : ascii → Prop) (s : string) : Prop :=
  match s with EmptyString => True | String c s => p c ∧ all_chars p s end.

Lemma all_chars_app p s t : all_chars p (s +:+ t) ↔ all_chars p s ∧ all_chars p t.
Proof. induction s as [|c s IH]; simpl; [tauto|]. rewrite IH. tauto. Qed.

Lemma uses_all p r s c : matches r s c → uses p r → all_chars p s.
Proof.
  induction 1; simpl; rewrite ?all_chars_app; try tauto. intros Hq. split; [by apply Hq|done].
Qed.

Lemma Times_uses p n q : (∀ c, q c = true → p c) → uses p (Times n (Class_ q)).
Proof. intros Hq. induction n as [|n IH]; simpl; by auto. Qed.

(** *** Inversion *)

Lemma matches_cat r1 r2 s c :
  matches (Cat r1 r2) s c → ∃ s1 s2 c1 c2, s = s1 +:+ s2 ∧ c = (c1 ++ c2)%list ∧ matches r1 s1 c1 ∧ matches r2 s2 c2.
Proof. inversion 1; subst. by eauto 10. Qed.
Lemma matches_optional r s c : matches (Optional r) s c → matches r s c ∨ s = "" ∧ c = [].
Proof. inversion 1 as [| | | |? ? ? ? He| | |]; subst; [by left|right]. by inversion He. Qed.
Lemma matches_capture n r s c : matches (Capture n r) s c → plain r = true → c = [(n, s)] ∧ ∃ c', matches r s c'.
Proof. inversion 1 as [| | | | | | |? ? ? c0 Hm]; subst. intros Hp. rewrite (plain_captures _ _ _ Hm Hp). by eauto. Qed.
Lemma matches_char a s c : matches (Char a) s c → s = String a "" ∧ c = [].
Proof. inversion 1 as [p b Hb| | | | | | |]; subst. apply Ascii.eqb_eq in Hb as ->. done. Qed.

(** An optional part that begins with a separator. *)
Lemma matches_suffix a n r s c :
  matches (Optional (Cat (Char a) (Capture n r))) s c → plain r = true → nullable r = false →
  s = "" ∧ c = [] ∨ ∃ t, t ≠ "" ∧ s = String a t ∧ c = [(n, t)] ∧ ∃ c', matches r t c'.
Proof.
  intros [(s1 & s2 & c1 & c2 & -> & -> & [-> ->]%matches_char & Hr)%matches_cat|]%matches_optional Hp Hn; [|by left].
  right. apply matches_capture in Hr as [-> [c' Hr]]; [|done]. exists s2. split_and!; [by eapply nullable_nonempty|done|done|by exists c'].
Qed.

(** ** Cutting *)

Lemma contains_app c s t : contains_char c (s +:+ t) = contains_char c s || contains_char c t.
Proof. induction s as [|d s IH]; [done|]. rewrite string_app_cons. simpl. by rewrite IH, orb_assoc. Qed.

Lemma cut_Some c s a b : cut c s = Some (a, b) ↔ s = a +:+ String c b ∧ contains_char c a = false.
Proof.
  revert a. induction s as [|d s IH]; intros a; simpl.
  - split; [done|]. intros [E _]. by destruct a.
  - destruct (Ascii.eqb_spec c d) as [<-|Hne].
    + split; [by intros [= <- <-]|]. destruct a as [|e a]; [by intros [[= <-] _]|]. rewrite string_app_cons. simpl.
      intros [[= <- _] Hc]. by rewrite Ascii.eqb_refl in Hc.
    + destruct (cut c s) as [[x y]|] eqn:E; simpl.
      * split.
        -- intros [= <- <-]. destruct (proj1 (IH x)) as [-> Hx]; [done|]. split; [done|]. simpl. rewrite Hx.
           by destruct (Ascii.eqb_spec d c) as [->|].
        -- destruct a as [|e a]; [by intros [[= <-] _]|]. rewrite string_app_cons. simpl. intros [[= <- ->] [_ Ha]%orb_false_iff].
           by injection (proj2 (IH a) (conj eq_refl Ha)) as <- <-.
      * split; [done|]. destruct a as [|e a]; [by intros [[= <-] _]|]. rewrite string_app_cons. simpl.
        intros [[= <- ->] [_ Ha]%orb_false_iff]. by discriminate (proj2 (IH a) (conj eq_refl Ha)).
Qed.

Lemma cut_None c s : cut c s = None ↔ contains_char c s = false.
Proof.
  induction s as [|d s IH]; simpl; [done|]. rewrite orb_false_iff, <- IH. destruct (Ascii.eqb_spec c d) as [<-|Hne].
  - rewrite Ascii.eqb_refl. split; [done|]. by intros [? ?].
  - destruct (Ascii.eqb_spec d c) as [->|_]; [done|]. destruct (cut c s); simpl; split; try done; by intros [? ?].
Qed.

Lemma cut_last_Some c s a b : cut_last c s = Some (a, b) ↔ s = a +:+ String c b ∧ contains_char c b = false.
Proof.
  revert a b. induction s as [|d s IH]; intros a b; simpl.
  - split; [done|]. intros [E _]. by destruct a.
  - destruct (cut_last c s) as [[x y]|] eqn:E; simpl.
    + destruct (proj1 (IH x y)) as [-> Hy]; [done|]. split.
      { intros [= <- <-]. split; [done|exact Hy]. }
      destruct a as [|e a]; simpl.
      * intros [[= <- <-] Hb]. rewrite contains_app in Hb. simpl in Hb. by rewrite Ascii.eqb_refl, orb_true_r in Hb.
      * rewrite string_app_cons. intros [[= <- Es] Hb]. by injection (proj2 (IH a b) (conj Es Hb)) as <- <-.
    + destruct a as [|e a]; simpl.
      * destruct (Ascii.eqb_spec c d) as [<-|Hne]; [|by split; [|intros [[= <-] _]]]. split; [|by intros [[= <-] _]].
        intros [= <-]. split; [done|]. clear -E. induction s as [|d s IH]; [done|]. simpl in *.
        destruct (cut_last c s); [done|]. rewrite IH by done. by destruct (Ascii.eqb_spec c d), (Ascii.eqb_spec d c).
      * rewrite string_app_cons. split; [by destruct (Ascii.eqb c d)|]. intros [[= <- ->] Hb]. by discriminate (proj2 (IH a b) (conj eq_refl Hb)).
Qed.

Lemma cut_last_None c s : cut_last c s = None ↔ contains_char c s = false.
Proof.
  induction s as [|d s IH]; simpl; [done|]. rewrite orb_false_iff, <- IH.
  destruct (cut_last c s), (Ascii.eqb_spec c d), (Ascii.eqb_spec d c); subst; split; try done; by intros [? ?].
Qed.

(** ** Parsing and printing *)

Section Facts.
Context `{Digests} `{Unicode}.

Lemma group_here n s c : group n ((n, s) :: c) = s.
Proof. unfold group. simpl. by rewrite decide_True. Qed.
Lemma group_skip n k s c : n ≠ k → group n ((k, s) :: c) = group n c.
Proof.
  intros Hne. unfold group. simpl. rewrite decide_False by done. by destruct (list_find _ c) as [[? [? ?]]|].
Qed.

(** Domain and path make up the name. *)
Lemma splitDomain_Name name : name ≠ "" → repository_Name (uncurry mkRepository (splitDomain name)) = name.
Proof.
  intros Hne. unfold splitDomain, repository_Name. destruct (FindStringSubmatch anchoredName name) as [m|] eqn:Em; simpl; [|done].
  apply Find_sound, matches_cat in Em as (s1 & s2 & c1 & c2 & -> & -> & H1 & [-> _]%matches_capture); [|done].
  apply matches_optional in H1 as [H1|[-> ->]].
  - apply matches_cat in H1 as (d & sl & cd & cs & -> & -> & [-> [c' Hd]]%matches_capture & [-> ->]%matches_char); [|done].
    simpl. rewrite group_here, group_skip, group_here by done. rewrite decide_False by (by eapply nullable_nonempty).
    by rewrite string_app_assoc.
  - by simpl; rewrite group_here.
Qed.

(** *** The grammar *)

Definition in_language (r : regexp) (s : string) : Prop := ∃ c, matches r s c.

Definition reference_text (name t d : string) : string :=
  name +:+ (if decide (t = "") then "" else ":" +:+ t) +:+ (if decide (d = "") then "" else "@" +:+ d).

Definition reference_of (name t d : string) : Named :=
  let r := uncurry mkRepository (splitDomain name) in
  if decide (t = "") then if decide (d = "") then NRepository r else NCanonical r d
  else if decide (d = "") then NTagged r t else NReference r t d.

(** The name, the tag and the digest of a reference, in the grammar of the
    package. *)
Record wellformed (name t d : string) : Prop := {
  wf_name : in_language namePat name;
  wf_tag : t = "" ∨ in_language tag t;
  wf_digest : d = "" ∨ in_language digestPat d
}.

Lemma referencePat_parts s m :
  matches referencePat s m → wellformed (group 1 m) (group 2 m) (group 3 m) ∧ s = reference_text (group 1 m) (group 2 m) (group 3 m).
Proof.
  unfold referencePat. cbn [Cats]. intros Hm.
  apply matches_cat in Hm as (name & s' & c1 & c' & -> & -> & [-> Hn]%matches_capture & Hm); [|done].
  apply matches_cat in Hm as (st & sd & c2 & c3 & -> & -> & Ht & Hd).
  apply matches_suffix in Ht; [|done|done]. apply matches_suffix in Hd; [|done|done]. unfold reference_text.
  assert (Et : ∃ t, group 2 c2 = t ∧ (t = "" ∨ in_language tag t) ∧ st = (if decide (t = "") then "" else ":" +:+ t) ∧
    group 3 (c2 ++ c3)%list = group 3 c3 ∧ group 2 (c2 ++ c3)%list = t).
  { destruct Ht as [[-> ->]|(t & Htn & -> & -> & Ht)].
    - exists "". destruct Hd as [[-> ->]|(d & _ & -> & -> & _)]; split_and!; done || by left.
    - exists t. rewrite decide_False by done. split_and!; done || (by right) || by apply group_skip. }
  destruct Et as (t & _ & Ht' & -> & E3 & E2). cbn [app]. rewrite group_here, !group_skip by done. rewrite E3, E2.
  split; [split; [exact Hn|done|]|]; destruct Hd as [[-> ->]|(d & Hdn & -> & -> & Hd)]; simpl; [by left|by right|done|].
  by rewrite (decide_False (P := d = "")).
Qed.

Lemma matches_referencePat name t d : wellformed name t d → ∃ m, matches referencePat (reference_text name t d) m.
Proof.
  intros [[cn Hn] Ht Hd]. unfold referencePat, reference_text. cbn [Cats].
  assert (∃ c, matches (Optional (Cat (Char ":") (Capture 2 tag))) (if decide (t = "") then "" else ":" +:+ t) c) as [c2 H2].
  { case_decide; [eexists; apply m_right, m_empty|]. destruct Ht as [|[ct Ht]]; [done|]. eexists.
    apply m_left, (m_cat _ _ ":"); [by constructor|by constructor]. }
  assert (∃ c, matches (Optional (Cat (Char "@") (Capture 3 digestPat))) (if decide (d = "") then "" else "@" +:+ d) c) as [c3 H3].
  { destruct (decide (d = "")); [eexists; apply m_right, m_empty|]. destruct Hd as [|[cd Hd]]; [done|]. eexists.
    apply m_left, (m_cat _ _ "@"); [by constructor|by constructor]. }
  eexists. apply m_cat; [by constructor|]. apply m_cat; [exact H2|exact H3].
Qed.

(** Characters that do not occur in the parts. *)
Lemma absent_chars c s : all_chars (λ x, x ≠ c) s ↔ contains_char c s = false.
Proof.
  induction s as [|d s IH]; simpl; [done|]. rewrite orb_false_iff, <- IH.
  destruct (Ascii.eqb_spec d c); split; intros [? ?]; by auto.
Qed.

Lemma absent c r s : in_language r s → uses (λ x, x ≠ c) r → contains_char c s = false.
Proof. intros [m Hm] Hu. apply absent_chars. by eapply uses_all. Qed.

Lemma tag_absent c t : c = ":"%char ∨ c = "@"%char ∨ c = "/"%char → in_language tag t → contains_char c t = false.
Proof.
  intros Hc Ht. apply (absent _ _ _ Ht). unfold tag. split; [by intros ? Hx ->; destruct Hc as [->|[->| ->]]|].
  generalize 127. intros n. induction n as [|n IH]; [done|]. cbn [AtMost Optional uses]. split_and!; [|exact IH|done].
  by intros ? Hx ->; destruct Hc as [->|[->| ->]].
Qed.
Lemma digest_absent c d : c = "@"%char ∨ c = "/"%char → in_language digestPat d → contains_char c d = false.
Proof.
  intros Hc Hd. apply (absent _ _ _ Hd). unfold digestPat, AtLeast. cbn [Cats uses].
  split_and!; try (by intros ? Hx ->; destruct Hc as [->| ->]). apply Times_uses. by intros ? Hx ->; destruct Hc as [->| ->].
Qed.
Lemma name_absent s : in_language namePat s → contains_char "@" s = false.
Proof. intros Hn. apply (absent _ _ _ Hn). cbn. split_and!; done || by intros ? Hx ->. Qed.
Lemma remote_absent s : in_language remote s → contains_char ":" s = false.
Proof. intros Hn. apply (absent _ _ _ Hn). cbn. split_and!; done || by intros ? Hx ->. Qed.

(** A colon in a name is the one of a port: a slash follows. *)
Lemma colon_slash a b d r : a +:+ String ":" b = d +:+ String "/" r → contains_char ":" r = false → contains_char "/" b = true.
Proof.
  intros E Hr. revert d E. induction a as [|c a IH]; intros [|e d]; rewrite ?string_app_cons; try done.
  - intros [= <- ->]. rewrite contains_app. simpl. by rewrite orb_true_r.
  - intros [= -> <-]. rewrite contains_app in Hr. simpl in Hr. by rewrite orb_true_r in Hr.
  - intros [= <- E]. by eapply IH.
Qed.
Lemma name_colon s a b : in_language namePat s → s = a +:+ String ":" b → contains_char "/" b = true.
Proof.
  intros [m (s1 & s2 & c1 & c2 & -> & -> & H1 & H2)%matches_cat] E.
  assert (contains_char ":" s2 = false) as Hr by (by apply remote_absent; exists c2).
  apply matches_optional in H1 as [(d & sl & cd & cs & -> & -> & _ & [-> ->]%matches_char)%matches_cat|[-> ->]].
  - rewrite string_app_assoc in E. symmetry in E. by eapply colon_slash.
  - change ("" +:+ s2) with s2 in E. rewrite E, contains_app in Hr. simpl in Hr. by rewrite orb_true_r in Hr.
Qed.

(** The text before the digest. *)
Definition tagged_text (name t : string) : string := name +:+ (if decide (t = "") then "" else ":" +:+ t).

Lemma tagged_absent name t d : wellformed name t d → contains_char "@" (tagged_text name t) = false.
Proof.
  intros [Hn Ht _]. unfold tagged_text. rewrite contains_app, name_absent by done. case_decide; [done|].
  destruct Ht as [|Ht]; [done|]. simpl. apply (tag_absent "@") in Ht; by auto.
Qed.
Lemma reference_text_eq name t d : reference_text name t d = tagged_text name t +:+ (if decide (d = "") then "" else "@" +:+ d).
Proof. unfold reference_text, tagged_text. by rewrite string_app_assoc. Qed.

Lemma cut_digest name t d :
  wellformed name t d → cut "@" (reference_text name t d) = if decide (d = "") then None else Some (tagged_text name t, d).
Proof.
  intros W. rewrite reference_text_eq. case_decide.
  - apply cut_None. rewrite string_app_nil_r. by eapply tagged_absent.
  - apply cut_Some. split; [done|by eapply tagged_absent].
Qed.

(** The last colon before the digest starts the tag, unless a slash follows. *)
Lemma cut_tag name t d :
  wellformed name t d →
  match cut_last ":" (tagged_text name t) with
  | Some (a, b) => if contains_char "/" b then t = "" ∧ name = tagged_text name t else name = a ∧ t = b
  | None => t = "" ∧ name = tagged_text name t
  end.
Proof.
  intros [Hn Ht _]. unfold tagged_text. destruct (decide (t = "")) as [->|Hne].
  - rewrite string_app_nil_r. destruct (cut_last ":" name) as [[a b]|] eqn:E; [|done].
    apply cut_last_Some in E as [E _]. by rewrite (name_colon name a b).
  - destruct Ht as [|Ht]; [done|]. rewrite (proj2 (cut_last_Some ":" _ name t)).
    + by rewrite (tag_absent "/") by auto.
    + split; [done|]. by apply tag_absent; [left|].
Qed.

(** A text has one name, one tag and one digest. *)
Lemma reference_text_inj name t d name' t' d' :
  wellformed name t d → wellformed name' t' d' → reference_text name t d = reference_text name' t' d' →
  name = name' ∧ t = t' ∧ d = d'.
Proof.
  intros W W' E. assert (tagged_text name t = tagged_text name' t' ∧ d = d') as [Et ->].
  { pose proof (cut_digest _ _ _ W) as C. rewrite E, (cut_digest _ _ _ W') in C. rewrite !reference_text_eq in E.
    repeat case_decide; try done; [|by injection C]. subst. by rewrite !string_app_nil_r in E. }
  pose proof (cut_tag _ _ _ W) as C. pose proof (cut_tag _ _ _ W') as C'. rewrite Et in C.
  destruct (cut_last ":" _) as [[a b]|]; [destruct (contains_char "/" b)|]; destruct C, C'; by subst.
Qed.

Lemma wellformed_nonempty name t d : wellformed name t d → name ≠ "".
Proof. intros [[c Hn] _ _]. by eapply nullable_nonempty. Qed.

Lemma getBest_reference name t d :
  name ≠ "" → getBestReferenceType (uncurry mkRepository (splitDomain name)) t d = Some (RNamed (reference_of name t d)).
Proof.
  intros Hne. unfold getBestReferenceType, reference_of. rewrite splitDomain_Name by done. rewrite decide_False by done. by repeat case_decide.
Qed.

Lemma reference_of_text name t d : name ≠ "" → String_ (reference_of name t d) = reference_text name t d.
Proof.
  intros Hne. pose proof (splitDomain_Name name Hne) as EN. unfold reference_of, reference_text.
  repeat case_decide; simpl; by rewrite EN, ?string_app_nil_r.
Qed.

Lemma Parse_text name t d :
  wellformed name t d → (String.length name ≤ NameTotalLengthMax)%nat → d = "" ∨ ValidateDigest d = None →
  Parse (reference_text name t d) = inl (RNamed (reference_of name t d)).
Proof.
  intros W Hl Hd. unfold Parse. pose proof (FindStringSubmatch_spec referencePat (reference_text name t d)) as Hm.
  destruct (FindStringSubmatch _ _) as [m|]; [|by destruct (matches_referencePat _ _ _ W) as [m ?]; destruct (Hm m)].
  apply referencePat_parts in Hm as [W' E]. destruct (reference_text_inj _ _ _ _ _ _ W W' E) as (<- & <- & <-).
  rewrite decide_False by lia. cbv zeta. unfold digest_Parse. pose proof (wellformed_nonempty _ _ _ W).
  destruct (decide (d = "")) as [->|]; [|destruct Hd as [|Hd]; [done|rewrite Hd]]; by rewrite getBest_reference.
Qed.

Lemma Parse_inv s r :
  Parse s = inl r → ∃ name t d, wellformed name t d ∧ (String.length name ≤ NameTotalLengthMax)%nat ∧ (d = "" ∨ ValidateDigest d = None) ∧
    s = reference_text name t d ∧ r = RNamed (reference_of name t d).
Proof.
  unfold Parse. pose proof (FindStringSubmatch_spec referencePat s) as Hm.
  destruct (FindStringSubmatch referencePat s) as [m|]; [|by case_decide; [|case_match]]. apply referencePat_parts in Hm as [W ->].
  case_decide; [done|]. cbv zeta. pose proof (wellformed_nonempty _ _ _ W). intros E. eexists _, _, _.
  split; [exact W|]. split; [lia|]. unfold digest_Parse in E. destruct (decide (group 3 m = "")) as [->|Hne].
  - rewrite getBest_reference in E by done. injection E as <-. by auto.
  - destruct (ValidateDigest (group 3 m)) eqn:Ev; [done|]. rewrite getBest_reference in E by done. injection E as <-. by auto.
Qed.

(** A reference prints as the text it was parsed from. *)
Lemma Parse_String s r : Parse s = inl r → Reference_String r = s.
Proof.
  intros (name & t & d & W & _ & _ & -> & ->)%Parse_inv. apply reference_of_text. by eapply wellformed_nonempty.
Qed.

(** *** Normal forms *)

(** What makes the first component of a name the name of a registry. *)
Definition is_registry (first : string) : bool :=
  contains_char "." first || contains_char ":" first || bool_decide (first = "localhost").

Lemma splitDockerDomain_registry d rem :
  is_registry d = true → contains_char "/" d = false → d ≠ legacyDefaultDomain → (d = defaultDomain → contains_char "/" rem = true) →
  splitDockerDomain (d +:+ "/" +:+ rem) = (d, rem).
Proof.
  intros Hr Hs Hl Hd. unfold splitDockerDomain. rewrite (proj2 (cut_Some "/" _ d rem)) by done. fold (is_registry d). rewrite Hr.
  rewrite decide_False by done. rewrite decide_False; [done|]. intros [E Hc]. by rewrite Hd in Hc.
Qed.

Lemma splitDockerDomain_spec s d rem :
  splitDockerDomain s = (d, rem) →
  is_registry d = true ∧ contains_char "/" d = false ∧ d ≠ legacyDefaultDomain ∧ (d = defaultDomain → contains_char "/" rem = true).
Proof.
  unfold splitDockerDomain. intros E.
  assert (∃ d0 r0, is_registry d0 = true ∧ contains_char "/" d0 = false ∧
    (let domain := if decide (d0 = legacyDefaultDomain) then defaultDomain else d0 in
     (domain, if decide (domain = defaultDomain ∧ contains_char "/" r0 = false) then officialRepoName +:+ "/" +:+ r0 else r0) = (d, rem)))
    as (d0 & r0 & Hr & Hs & E').
  { destruct (cut "/" s) as [[first rest]|] eqn:Ec; [|by exists defaultDomain, s]. apply cut_Some in Ec as [_ Hs]. fold (is_registry first) in E.
    destruct (is_registry first) eqn:Er; [by exists first, rest|by exists defaultDomain, s]. }
  clear E. cbv zeta in E'. injection E' as <- <-. set (d := if decide (d0 = legacyDefaultDomain) then defaultDomain else d0).
  assert (is_registry d = true ∧ contains_char "/" d = false ∧ d ≠ legacyDefaultDomain) as (H1 & H2 & H3) by (unfold d; by case_decide).
  split_and!; [done..|]. intros Hd. destruct (contains_char "/" r0) eqn:Er; [by rewrite decide_False by (by intros [_ ?])|].
  by rewrite decide_True.
Qed.

Lemma identifier_char c s :
  c = "/"%char ∨ c = ":"%char ∨ c = "@"%char → contains_char c s = true → MatchString identifier s = false.
Proof.
  intros Hc Hs. apply bool_decide_eq_false. intros [m Hm%Find_sound]. assert (contains_char c s = false); [|congruence].
  apply (absent c identifier); [by exists m|]. apply Times_uses. by intros x Hx ->; destruct Hc as [->|[->| ->]].
Qed.
Lemma identifier_slash s : contains_char "/" s = true → MatchString identifier s = false.
Proof. apply identifier_char. by left. Qed.

Definition remote_name (rem : string) : string := match cut ":" rem with Some (n, _) => n | None => rem end.

Lemma ParseNormalizedNamed_eq s n :
  ParseNormalizedNamed s = inl n ↔
  MatchString identifier s = false ∧
  ∃ d rem, splitDockerDomain s = (d, rem) ∧ ToLower (remote_name rem) = remote_name rem ∧ Parse (d +:+ "/" +:+ rem) = inl (RNamed n).
Proof.
  unfold ParseNormalizedNamed. destruct (MatchString identifier s); [by split; [|intros [? _]]|].
  destruct (splitDockerDomain s) as [d rem]. fold (remote_name rem). split.
  - case_decide as Hl; [done|]. destruct (Parse _) as [[n'|]|] eqn:Ep; [|done..]. intros [= ->]. split; [done|].
    exists d, rem. split_and!; [done| |done]. by destruct (decide (ToLower (remote_name rem) = remote_name rem)).
  - intros [_ (d' & rem' & [= <- <-] & Hl & ->)]. by rewrite decide_False by (by intros []).
Qed.

(** A normalised name is the text of its registry and of the rest. *)
Lemma ParseNormalizedNamed_text s n :
  ParseNormalizedNamed s = inl n →
  ∃ d rem, splitDockerDomain s = (d, rem) ∧ String_ n = d +:+ "/" +:+ rem ∧
    ∀ t, MatchString identifier t = false → splitDockerDomain t = (d, rem) → ParseNormalizedNamed t = inl n.
Proof.
  intros (_ & d & rem & Es & Hl & Ep)%ParseNormalizedNamed_eq. exists d, rem. split_and!; [done|by apply Parse_String in Ep|].
  intros t Ht Es'. apply ParseNormalizedNamed_eq. by eauto 10.
Qed.

Lemma ParseNormalizedNamed_fixed s n : ParseNormalizedNamed s = inl n → ParseNormalizedNamed (String_ n) = inl n.
Proof.
  intros (d & rem & Es & -> & Ht)%ParseNormalizedNamed_text. apply splitDockerDomain_spec in Es as (H1 & H2 & H3 & H4).
  apply Ht; [|by apply splitDockerDomain_registry]. apply identifier_slash. by rewrite !contains_app, orb_true_r.
Qed.

(** C32: A normalised name is its own normal form: its text is accepted by the
    strict parser and means the same name, so two normalised names are the same
    exactly if their texts are. *)
Theorem ParseNormalizedNamed_normal s n :
  ParseNormalizedNamed s = inl n →
  ParseNormalizedNamed (String_ n) = inl n ∧ ParseNamed (String_ n) = inl n ∧
  ∀ s' n', ParseNormalizedNamed s' = inl n' → String_ n' = String_ n → n' = n.
Proof.
  intros E%ParseNormalizedNamed_fixed. split; [done|]. split.
  - unfold ParseNamed. rewrite E. by rewrite decide_True.
  - intros s' n' E'%ParseNormalizedNamed_fixed Ht. rewrite Ht, E in E'. by injection E'.
Qed.

(** *** References of the registry transport *)

(** What follows the name in the text of a reference. *)
Definition suffix_of (n : Named) : string :=
  (match Tag n with Some t => ":" +:+ t | None => "" end) +:+ (match Digest n with Some d => "@" +:+ d | None => "" end).

Lemma String_suffix n : String_ n = Name n +:+ suffix_of n.
Proof. by destruct n; unfold Name, suffix_of; simpl; rewrite ?string_app_nil_r. Qed.

Lemma ParseNormalizedNamed_wellformed s n :
  ParseNormalizedNamed s = inl n →
  ∃ name t d, wellformed name t d ∧ (String.length name ≤ NameTotalLengthMax)%nat ∧ (d = "" ∨ ValidateDigest d = None) ∧ n = reference_of name t d.
Proof.
  intros (_ & d & rem & _ & _ & Ep)%ParseNormalizedNamed_eq.
  apply Parse_inv in Ep as (name & t & dg & W & Hl & Hd & _ & [= ->]). by eauto 10.
Qed.

Lemma reference_of_parts name t d :
  name ≠ "" → Name (reference_of name t d) = name ∧ Tag (reference_of name t d) = (if decide (t = "") then None else Some t) ∧
  Digest (reference_of name t d) = if decide (d = "") then None else Some d.
Proof.
  intros Hne. pose proof (splitDomain_Name name Hne) as EN. unfold reference_of. repeat case_decide; by split_and!.
Qed.

(** Tags and digests of a normalised name. *)
Lemma normalized_parts s n :
  ParseNormalizedNamed s = inl n →
  (∀ t, Tag n = Some t → t ≠ "" ∧ in_language tag t) ∧ (∀ d, Digest n = Some d → d ≠ "" ∧ in_language digestPat d).
Proof.
  intros (name & t & d & W & _ & _ & ->)%ParseNormalizedNamed_wellformed.
  destruct (reference_of_parts name t d (wellformed_nonempty _ _ _ W)) as (_ & -> & ->). destruct W as [_ Ht Hd].
  split; intros x; case_decide; intros [= <-]; split; naive_solver.
Qed.

Lemma suffix_slash s n : ParseNormalizedNamed s = inl n → contains_char "/" (suffix_of n) = false.
Proof.
  intros [Ht Hd]%normalized_parts. unfold suffix_of. rewrite contains_app, orb_false_iff. split.
  - destruct (Tag n) as [t|]; [|done]. simpl. apply tag_absent; [by auto|by apply Ht].
  - destruct (Digest n) as [d|]; [|done]. simpl. apply digest_absent; [by auto|by apply Hd].
Qed.

(** The rest of a name without a tag and a digest has no colon. *)
Lemma remainder_colon d rem : in_language namePat (d +:+ "/" +:+ rem) → contains_char "/" d = false → contains_char ":" rem = false.
Proof.
  intros [m (s1 & s2 & c1 & c2 & E & -> & H1 & H2)%matches_cat] Hd.
  assert (contains_char ":" s2 = false) as Hr by (by apply remote_absent; exists c2).
  apply matches_optional in H1 as [(d' & sl & cd & cs & -> & -> & Hdom & [-> ->]%matches_char)%matches_cat|[-> ->]].
  - assert (contains_char "/" d' = false) as Hd'.
    { apply (absent _ domain_); [by exists cd|]. cbn. split_and!; done || by intros ? Hx ->. }
    rewrite string_app_assoc in E. assert (cut "/" (d +:+ "/" +:+ rem) = Some (d, rem)) as C by (by apply cut_Some).
    assert (cut "/" (d' +:+ "/" +:+ s2) = Some (d', s2)) as C' by (by apply cut_Some). rewrite E, C' in C. by injection C as -> ->.
  - change ("" +:+ s2) with s2 in E. rewrite <- E, !contains_app in Hr. by apply orb_false_iff in Hr as [_ [_ ?]%orb_false_iff].
Qed.

Lemma NRepository_inv name t d r :
  name ≠ "" → reference_of name t d = NRepository r → t = "" ∧ d = "" ∧ ∀ t', t' ≠ "" → NTagged r t' = reference_of name t' "".
Proof.
  intros Hne. unfold reference_of. repeat case_decide; try done. intros [= <-]. split_and!; [done..|]. intros t' Ht. by rewrite decide_False.
Qed.

(** A tag can be added to the text. *)
Lemma ParseNormalizedNamed_tag s r t :
  ParseNormalizedNamed s = inl (NRepository r) → in_language tag t → ParseNormalizedNamed (String_ (NTagged r t)) = inl (NTagged r t).
Proof.
  intros (_ & d & rem & Es & Hl & Ep)%ParseNormalizedNamed_eq Ht.
  assert (t ≠ "") as Hne by (by destruct Ht as [? ?]; eapply nullable_nonempty).
  apply Parse_inv in Ep as (name & t0 & d0 & W & Hlen & _ & Et & [= Er]). pose proof (wellformed_nonempty _ _ _ W) as Hn.
  symmetry in Er. apply NRepository_inv in Er as (-> & -> & Er); [|done]. rewrite (Er t Hne). rewrite reference_of_text by done.
  unfold reference_text in Et. simpl in Et. rewrite string_app_nil_r in Et. destruct W as [Wn _ _]. rewrite <- Et in *.
  assert (wellformed (d +:+ "/" +:+ rem) t "") as W by (split; [done|by right|by left]).
  assert (contains_char ":" rem = false) as Hc.
  { apply (remainder_colon d); [done|]. by apply splitDockerDomain_spec in Es as (_ & ? & _). }
  apply splitDockerDomain_spec in Es as (H1 & H2 & H3 & H4). apply ParseNormalizedNamed_eq.
  assert (reference_text (d +:+ "/" +:+ rem) t "" = d +:+ "/" +:+ (rem +:+ ":" +:+ t)) as Ex.
  { unfold reference_text. rewrite decide_False by done. simpl. by rewrite string_app_nil_r, string_app_assoc, string_app_cons. }
  split; [apply identifier_slash; rewrite Ex, !contains_app; by rewrite orb_true_r|].
  exists d, (rem +:+ ":" +:+ t). rewrite <- Ex. split_and!.
  - rewrite Ex. apply splitDockerDomain_registry; [done..|]. intros Hd. by rewrite contains_app, (H4 Hd).
  - unfold remote_name in Hl |- *. rewrite (proj2 (cut_None ":" rem) Hc) in Hl.
    by rewrite (proj2 (cut_Some ":" (rem +:+ ":" +:+ t) rem t)).
  - apply Parse_text; [done|done|by left].
Qed.

(** What the parser of the transport returns is a normalised name, with a tag
    or a digest unless the digest is to be unknown. *)
Lemma ParseReference_inv {S} s (σ σ' : S) r :
  ParseReference s σ = (σ', Ret r) →
  (∃ s', ParseNormalizedNamed s' = inl (ref r)) ∧ IsNameOnly (ref r) = isUnknownDigest r ∧ (Tag (ref r) = None ∨ Digest (ref r) = None).
Proof.
  unfold ParseReference. destruct (CutPrefix s "//") as [s1 [|]]; [|done]. destruct (CutSuffix s1 _) as [s2 u]. simpl.
  destruct (ParseNormalizedNamed s2) as [n|e] eqn:E; [|done].
  assert (∀ n' u' r', newReference n' u' = inl r' → ref r' = n' ∧ isUnknownDigest r' = u' ∧ IsNameOnly n' = u' ∧ (Tag n' = None ∨ Digest n' = None)) as Hnew.
  { intros n' u' r'. unfold newReference. destruct (IsNameOnly n'), u'; simpl; try done;
      destruct (Tag n') eqn:ET, (Digest n') eqn:ED; try done; intros [= <-]; simpl; by auto. }
  destruct u.
  - destruct (negb (IsNameOnly n)); [done|]. unfold NewReferenceUnknownDigest.
    destruct (newReference n true) as [r'|] eqn:Er; [|done]. intros [= _ <-]. apply Hnew in Er as (-> & -> & -> & ?). by eauto.
  - unfold TagNameOnly. destruct (IsNameOnly n) eqn:EN.
    + apply bool_decide_eq_true in EN as [ET ED]. destruct n as [r0| | |]; try done.
      change (WithTag (NRepository r0) defaultTag) with (@inl Named error (NTagged r0 defaultTag)). unfold NewReference. simpl.
      intros [= _ <-]. simpl. split; [|by auto]. eexists. eapply ParseNormalizedNamed_tag; [exact E|].
      pose proof (FindStringSubmatch_spec tag defaultTag) as Hm. destruct (FindStringSubmatch tag defaultTag) as [m|] eqn:Em; [by exists m|by vm_compute in Em].
    + unfold mbind, M_bind, mret, M_ret, NewReference. destruct (newReference n false) as [r'|] eqn:Er; [|done]. intros [= _ <-].
      apply Hnew in Er as (-> & -> & -> & ?). by eauto.
Qed.

Lemma split_on_one sep s a : split_on sep s = [a] → s = a ∧ contains_char sep a = false.
Proof.
  revert a. induction s as [|c s IH]; intros a; simpl; [by intros [= <-]|].
  destruct (split_on sep s) as [|x l] eqn:El; [by destruct s; simpl in El; repeat case_match|].
  destruct (Ascii.eqb c sep) eqn:Ec; [by destruct l|]. intros [= <- ->]. destruct (IH x) as [-> Hx]; [done|]. simpl. by rewrite Ec.
Qed.
Lemma split_on_two sep s a b : split_on sep s = [a; b] → s = a +:+ String sep b ∧ contains_char sep b = false.
Proof.
  revert a. induction s as [|c s IH]; intros a; simpl; [done|].
  destruct (split_on sep s) as [|x l] eqn:El; [by destruct s; simpl in El; repeat case_match|].
  destruct (Ascii.eqb_spec c sep) as [->|Hne].
  - intros [= <- -> ->]. apply split_on_one in El as [-> ?]. done.
  - intros [= <- ->]. destruct (IH x) as [-> Hx]; done.
Qed.

Lemma Familiar_text n : String_ (Familiar n) = repository_Name (familiarizeName (repo n)) +:+ suffix_of n.
Proof. by destruct n; unfold suffix_of; simpl; rewrite ?string_app_nil_r. Qed.

(** The short form of a normalised name means the name, unless the first part
    of its path looks like a registry, or what is left is an identifier. *)
Lemma Familiar_roundtrip s n :
  ParseNormalizedNamed s = inl n →
  (∀ first rest, Domain n = defaultDomain → cut "/" (Path n) = Some (first, rest) → is_registry first = false) →
  MatchString identifier (String_ (Familiar n)) = false →
  ParseNormalizedNamed (String_ (Familiar n)) = inl n.
Proof.
  intros E Hreg Hid. pose proof (suffix_slash _ _ E) as Hsuf. apply ParseNormalizedNamed_fixed in E as En.
  rewrite Familiar_text in *. unfold familiarizeName in *. destruct (decide (domain (repo n) = defaultDomain)) as [Ed|Hd].
  2:{ change (repository_Name (repo n)) with (Name n). by rewrite <- String_suffix. }
  apply ParseNormalizedNamed_text in En as (d & rem & Es & Et & Ht). apply Ht; [done|]. clear Ht.
  apply splitDockerDomain_spec in Es as (_ & Hs & _ & Hslash).
  assert (String_ n = defaultDomain +:+ "/" +:+ (path (repo n) +:+ suffix_of n)) as Et'.
  { rewrite String_suffix. unfold Name, repository_Name. rewrite Ed. simpl. done. }
  rewrite Et in Et'. assert (d = defaultDomain ∧ rem = path (repo n) +:+ suffix_of n) as [-> ->].
  { assert (Some (d, rem) = Some (defaultDomain, path (repo n) +:+ suffix_of n)) as [= -> ->]; [|done].
    rewrite <- (proj2 (cut_Some "/" (d +:+ "/" +:+ rem) d rem)) by done. rewrite Et'. by apply cut_Some. }
  unfold repository_Name. simpl. specialize (Hslash eq_refl). rewrite contains_app, Hsuf, orb_false_r in Hslash.
  assert (∀ p, contains_char "/" p = true → (∀ first rest, cut "/" p = Some (first, rest) → is_registry first = false) →
    splitDockerDomain (p +:+ suffix_of n) = (defaultDomain, p +:+ suffix_of n)) as Hlong.
  { intros p Hp Hr. unfold splitDockerDomain. destruct (cut "/" p) as [[a b]|] eqn:Ec; [|apply cut_None in Ec; congruence].
    specialize (Hr a b eq_refl). apply cut_Some in Ec as [-> Ha].
    rewrite (proj2 (cut_Some "/" _ a (b +:+ suffix_of n))) by (by rewrite string_app_assoc). fold (is_registry a). rewrite Hr.
    rewrite (decide_False (P := defaultDomain = legacyDefaultDomain)) by done. rewrite decide_False; [done|]. intros [_ Hc].
    rewrite contains_app, Hp in Hc. done. }
  assert (Hreg' : ∀ first rest, cut "/" (path (repo n)) = Some (first, rest) → is_registry first = false) by (intros; by eapply Hreg).
  destruct (split_on "/" (path (repo n))) as [|a [|b [|]]] eqn:Esp; try by apply Hlong. case_decide as Ea; [|by apply Hlong]. subst a.
  apply split_on_two in Esp as [-> Hb]. unfold splitDockerDomain. rewrite (proj2 (cut_None "/" _)) by (by rewrite contains_app, Hb, Hsuf).
  rewrite (decide_False (P := defaultDomain = legacyDefaultDomain)) by done. rewrite decide_True; [done|].
  by rewrite contains_app, Hb, Hsuf.
Qed.

Lemma CutPrefix_of_app s p : CutPrefix (p +:+ s) p = (s, true).
Proof.
  unfold CutPrefix. assert (String.prefix p (p +:+ s) = true) as ->.
  { apply String.prefix_correct. apply substring_app. }
  rewrite string_length_app, substring_skip. replace (_ + _ - _)%nat with (String.length s) by lia. by rewrite substring_all.
Qed.
Lemma CutSuffix_of_app s p : CutSuffix (s +:+ p) p = (s, true).
Proof.
  unfold CutSuffix. rewrite string_length_app. replace (_ + _ - _)%nat with (String.length s) by lia.
  rewrite decide_True by lia. rewrite substring_skip, substring_all, decide_True by done. by rewrite substring_app.
Qed.

Lemma substring_split s n : (n ≤ String.length s)%nat → s = String.substring 0 n s +:+ String.substring n (String.length s - n) s.
Proof.
  revert n. induction s as [|c s IH]; intros [|n] Hn; simpl in *; [done|lia| |].
  - by rewrite substring_all.
  - rewrite string_app_cons. f_equal. apply IH. lia.
Qed.

Lemma last_char y t z c : y +:+ t = z +:+ String c "" → t ≠ "" → contains_char c t = true.
Proof.
  revert z. induction y as [|d y IH]; intros z E Ht.
  - change ("" +:+ t) with t in E. rewrite E, contains_app. simpl. by rewrite Ascii.eqb_refl, orb_true_r.
  - destruct z as [|e z]; rewrite !string_app_cons in E; injection E as -> E; [|by eapply IH].
    by destruct y; [destruct t|].
Qed.

Lemma CutSuffix_none y t : t ≠ "" → contains_char "@" t = false → CutSuffix (y +:+ t) UnknownDigestSuffix = (y +:+ t, false).
Proof.
  intros Ht Hc. unfold CutSuffix. case_decide as Hl; [|done]. case_decide as E; [|done]. exfalso.
  assert (y +:+ t = (String.substring 0 (String.length (y +:+ t) - 18) (y +:+ t) +:+ "@@unknown-digest@") +:+ "@") as E'.
  { rewrite string_app_assoc. change ("@@unknown-digest@" +:+ "@") with UnknownDigestSuffix. rewrite <- E at 1.
    rewrite (substring_split (y +:+ t) (String.length (y +:+ t) - 18)) at 1 by lia. f_equal.
    f_equal. change (String.length UnknownDigestSuffix) with 18 in Hl |- *. lia. }
  apply last_char in E'; [congruence|done].
Qed.

(** C33: The text of a reference of the registry transport that was parsed is
    parsed back to the reference, with two exceptions: a name on Docker Hub
    whose path begins with a component that looks like a registry
    ([StringWithinTransport_other_registry]), and a reference without a digest
    whose familiar name has the form of an image identifier, 64 hexadecimal
    digits ([StringWithinTransport_refused]). *)
Theorem docker_reference_roundtrip {S} s (σ σ' : S) r :
  ParseReference s σ = (σ', Ret r) →
  (∀ first rest, Domain (ref r) = defaultDomain → cut "/" (Path (ref r)) = Some (first, rest) → is_registry first = false) →
  (isUnknownDigest r = true → MatchString identifier (FamiliarName (ref r)) = false) →
  ParseReference (StringWithinTransport r) σ = (σ, Ret r).
Proof.
  intros ([s' E] & HN & HTD)%ParseReference_inv Hreg Hid. destruct r as [n u]. simpl in *. subst u.
  pose proof (normalized_parts _ _ E) as [Ht Hd].
  assert (String_ (Familiar n) = FamiliarName n +:+ suffix_of n) as Ef.
  { rewrite Familiar_text. unfold FamiliarName, Name. by destruct n. }
  unfold StringWithinTransport, ParseReference. cbn [isUnknownDigest ref]. cbv zeta.
  destruct (IsNameOnly n) eqn:EN.
  - rewrite string_app_assoc, CutPrefix_of_app. cbn [negb]. rewrite CutSuffix_of_app. cbn [FamiliarString].
    apply bool_decide_eq_true in EN as EN'. destruct EN' as [ET ED]. rewrite (Familiar_roundtrip s' n E Hreg).
    + rewrite EN. unfold NewReferenceUnknownDigest, newReference. rewrite EN. simpl. by rewrite ET.
    + rewrite Ef. unfold suffix_of. rewrite ET, ED. simpl. rewrite string_app_nil_r. by apply Hid.
  - rewrite CutPrefix_of_app. cbn [negb FamiliarString].
    assert (∃ y t, String_ (Familiar n) = y +:+ t ∧ t ≠ "" ∧ contains_char "@" t = false) as (y & t & Ey & Hne & Hc).
    { rewrite Ef. apply bool_decide_eq_false in EN. unfold suffix_of.
      destruct (Digest n) as [d|] eqn:ED; [|destruct (Tag n) as [t|] eqn:ET].
      - destruct (Hd d eq_refl) as [? ?]. exists (FamiliarName n +:+ (match Tag n with Some t => ":" +:+ t | None => "" end) +:+ "@"), d.
        rewrite !string_app_assoc. split_and!; [done..|]. by apply digest_absent; [left|].
      - destruct (Ht t eq_refl) as [? ?]. exists (FamiliarName n +:+ ":"), t. rewrite !string_app_nil_r, string_app_assoc.
        split_and!; [done..|]. by apply tag_absent; [auto|].
      - by destruct EN. }
    rewrite Ey, CutSuffix_none by done. rewrite <- Ey. rewrite (Familiar_roundtrip s' n E Hreg).
    + unfold TagNameOnly. rewrite EN. unfold mbind, M_bind, mret, M_ret, NewReference, newReference. rewrite EN. simpl.
      destruct HTD as [-> | ->]; [done|]. by destruct (Tag n).
    + rewrite Ef. unfold suffix_of. apply bool_decide_eq_false in EN. destruct (Tag n) as [t'|]; [|destruct (Digest n) as [d'|]; [|by destruct EN]].
      * apply (identifier_char ":"); [by auto|]. rewrite !contains_app. simpl. by rewrite orb_true_r.
      * apply (identifier_char "@"); [by auto|]. rewrite !contains_app. simpl. by rewrite orb_true_r.
Qed.

(** *** Scopes of a policy *)

Definition longer (s t : string) : Prop := (String.length t < String.length s)%nat.

(** The names that contain a name, itself included. *)
Definition contains_name (p name : string) : Prop := p = name ∨ ∃ rest, name = p +:+ "/" +:+ rest.

Lemma contains_name_parent p name parent rest :
  name = parent +:+ String "/" rest → contains_char "/" rest = false → contains_name p name ↔ p = name ∨ contains_name p parent.
Proof.
  intros -> Hr. unfold contains_name. split.
  - intros [->|[r E]]; [by left|]. right. revert parent E. induction p as [|c p IH]; intros parent E.
    + destruct parent as [|d parent]; [by left|]. right. exists parent. by injection E as -> _.
    + destruct parent as [|d parent]; rewrite !string_app_cons in E; injection E as <- E.
      * change ("" +:+ String "/" rest) with (String "/" rest) in *. rewrite E, !contains_app in Hr. simpl in Hr. by rewrite orb_true_r in Hr.
      * destruct (IH parent E) as [->|[r' ->]]; [by left|right; by exists r'].
  - intros [->|[->|[r ->]]]; [by left|by right; exists rest|]. right. exists (r +:+ "/" +:+ rest). by rewrite !string_app_assoc.
Qed.

Lemma contains_name_shorter p name : contains_name p name → (String.length p ≤ String.length name)%nat.
Proof. intros [->|[r ->]]; rewrite ?string_length_app; lia. Qed.

Definition first_part (c : ascii) (s : string) : string := match cut c s with Some (a, _) => a | None => s end.

Lemma first_part_parent c parent rest : contains_char c rest = false → first_part c (parent +:+ String c rest) = first_part c parent.
Proof.
  intros Hr. unfold first_part. destruct (cut c parent) as [[a b]|] eqn:E.
  - apply cut_Some in E as [-> Ha]. rewrite string_app_assoc. by rewrite (proj2 (cut_Some c _ a (b +:+ String c rest))).
  - apply cut_None in E. by rewrite (proj2 (cut_Some c _ parent rest)).
Qed.

Lemma parents_of_spec rounds name :
  (String.length name < rounds)%nat →
  StronglySorted longer (parents_of rounds name).1 ∧ (∀ p, p ∈ (parents_of rounds name).1 ↔ contains_name p name) ∧
  (parents_of rounds name).2 = first_part "/" name.
Proof.
  revert name. induction rounds as [|rounds IH]; intros name Hl; [lia|]. simpl. destruct (cut_last "/" name) as [[parent rest]|] eqn:E.
  - apply cut_last_Some in E as [E Hr]. assert (String.length parent < String.length name)%nat as Hlt by (rewrite E, string_length_app; simpl; lia).
    destruct (IH parent) as (IHs & IHp & IHl); [lia|]. destruct (parents_of rounds parent) as [l last]. simpl in *. split_and!.
    + constructor; [done|]. apply Forall_forall. intros p Hp%IHp%contains_name_shorter. unfold longer. lia.
    + intros p. rewrite elem_of_cons, IHp. symmetry. by eapply contains_name_parent.
    + subst last. rewrite E. by rewrite first_part_parent.
  - apply cut_last_None in E. split_and!; simpl.
    + repeat constructor.
    + intros p. rewrite list_elem_of_singleton. unfold contains_name. split; [by auto|]. intros [->|[r ->]]; [done|].
      rewrite !contains_app in E. simpl in E. by rewrite orb_true_r in E.
    + unfold first_part. by rewrite (proj2 (cut_None "/" name) E).
Qed.

Lemma wildcards_spec rounds host :
  (String.length host ≤ rounds)%nat →
  StronglySorted longer (wildcards rounds host) ∧
  ∀ p, p ∈ wildcards rounds host ↔ ∃ pre rest, host = pre +:+ "." +:+ rest ∧ p = "*." +:+ rest.
Proof.
  revert host. induction rounds as [|rounds IH]; intros host Hl; simpl.
  - split; [constructor|]. intros p. split; [by intros ?%elem_of_nil|]. intros (pre & rest & -> & _).
    rewrite !string_length_app in Hl. simpl in Hl. lia.
  - destruct (cut "." host) as [[a b]|] eqn:E.
    + apply cut_Some in E as [-> Ha]. rewrite string_length_app in Hl. simpl in Hl. destruct (IH b) as [IHs IHp]; [lia|]. split.
      * constructor; [done|]. apply Forall_forall. intros p (pre & rest & -> & ->)%IHp. unfold longer. simpl. rewrite !string_length_app. simpl. lia.
      * intros p. rewrite elem_of_cons, IHp. split.
        -- intros [->|(pre & rest & -> & ->)]; [by exists a, b|]. exists (a +:+ "." +:+ pre), rest. by rewrite !string_app_assoc.
        -- intros (pre & rest & E & ->). clear -E Ha. revert pre E. induction a as [|c a IHa]; intros [|d pre] E.
           ++ injection E as ->. by left.
           ++ injection E as <- ->. right. by exists pre, rest.
           ++ injection E as -> _. simpl in Ha. done.
           ++ injection E as <- E. apply (IHa) with pre; [|done]. by apply orb_false_iff in Ha as [_ ?].
    + apply cut_None in E. split; [constructor|]. intros p. split; [by intros ?%elem_of_nil|]. intros (pre & rest & -> & _).
      rewrite !contains_app in E. simpl in E. by rewrite orb_true_r in E.
Qed.

(** The host in a name, without its port. *)
Definition host_of (name : string) : string := first_part ":" (first_part "/" name).

Lemma namespaces_groups n :
  DockerReferenceNamespaces n =
    ((parents_of (Datatypes.S (String.length (Name n))) (Name n)).1 ++ wildcards (String.length (host_of (Name n))) (host_of (Name n)))%list.
Proof.
  unfold DockerReferenceNamespaces. destruct (parents_of_spec (Datatypes.S (String.length (Name n))) (Name n)) as (_ & _ & Hh); [lia|].
  destruct (parents_of _ (Name n)) as [l host]. simpl in *. by subst host.
Qed.

(** C34: The scopes in which a policy for a reference is looked up are the name
    and all the names that contain it, and then the wildcards for the domains
    of its registry, each group from the most to the least specific. *)
Theorem DockerReferenceNamespaces_spec n :
  ∃ parents domains,
    DockerReferenceNamespaces n = (parents ++ domains)%list ∧ StronglySorted longer parents ∧ StronglySorted longer domains ∧
    (∀ p, p ∈ parents ↔ contains_name p (Name n)) ∧
    ∀ p, p ∈ domains ↔ ∃ pre rest, host_of (Name n) = pre +:+ "." +:+ rest ∧ p = "*." +:+ rest.
Proof.
  eexists _, _. split; [apply namespaces_groups|]. destruct (parents_of_spec (Datatypes.S (String.length (Name n))) (Name n)) as (? & ? & _); [lia|].
  by destruct (wildcards_spec _ (host_of (Name n)) (le_n _)).
Qed.
End Facts.

Lemma ParseNormalizedNamed_normal_witness :
  ParseNormalizedNamed "busybox:1.0" = inl (NTagged (mkRepository "docker.io" "library/busybox") "1.0") ∧
  ParseNamed "docker.io/library/busybox:1.0" = inl (NTagged (mkRepository "docker.io" "library/busybox") "1.0").
Proof.
  assert (ParseNormalizedNamed "busybox:1.0" = inl (NTagged (mkRepository "docker.io" "library/busybox") "1.0")) as E by (vm_compute; reflexivity).
  split; [exact E|]. destruct (ParseNormalizedNamed_normal _ _ E) as (_ & HP & _). exact HP.
Defined.

Lemma docker_reference_roundtrip_witness :
  ParseReference "//docker.io/busybox" tt = (tt, Ret (mkDockerReference (NTagged (mkRepository "docker.io" "library/busybox") "latest") false)) ∧
  ParseReference (StringWithinTransport (mkDockerReference (NTagged (mkRepository "docker.io" "library/busybox") "latest") false)) tt =
    (tt, Ret (mkDockerReference (NTagged (mkRepository "docker.io" "library/busybox") "latest") false)).
Proof.
  assert (ParseReference "//docker.io/busybox" tt =
    (tt, Ret (mkDockerReference (NTagged (mkRepository "docker.io" "library/busybox") "latest") false))) as E by (vm_compute; reflexivity).
  split; [exact E|]. apply (docker_reference_roundtrip _ _ _ _ E); [|done]. intros first rest _ [= <- _]. done.
Defined.

(** The text of the reference to a repository of Docker Hub whose path
    begins with a component that has a dot is the text of a repository of
    another registry. *)
Theorem StringWithinTransport_other_registry :
  match ParseReference "//docker.io/foo.bar/baz" tt with
  | (_, Ret r) =>
      Domain (ref r) = "docker.io" ∧ StringWithinTransport r = "//foo.bar/baz:latest" ∧
      match ParseReference (StringWithinTransport r) tt with (_, Ret r') => Domain (ref r') = "foo.bar" | _ => False end
  | _ => False
  end.
Proof. vm_compute. done. Qed.

(** The text of a reference without a digest to a repository of Docker Hub
    whose short name has the form of an image identifier is not accepted. *)
Theorem StringWithinTransport_refused :
  let name := "0123456789abcdef0123456789abcdef0123456789abcdef0123456789abcdef" in
  let r := mkDockerReference (NRepository (mkRepository "docker.io" ("library/" +:+ name))) true in
  NewReferenceUnknownDigest (ref r) = inl r ∧ StringWithinTransport r = "//" +:+ name +:+ UnknownDigestSuffix ∧
  match ParseReference (StringWithinTransport r) tt with (_, Err _) => True | _ => False end.
Proof. vm_compute. done. Qed.
End ReferenceFacts.
