(* ===== verification/ReferenceGrammar.v ===== *)
(** * The grammar of references

    The grammar of names and tags that the comment of package
    [image/docker/reference] gives, over characters and texts and without
    regular expressions; the parser accepts exactly this grammar, with the
    digests that package [go-digest] holds valid, and returns the parts. *)

From S2P Require Import Prelude StoreUtil Strconv GoRegexp DockerReference LayerDemo ReferenceFacts.

Local Open Scope string_scope.

Module ReferenceGrammar.
Import Regexp DockerReference ReferenceFacts.

(** ** The grammar *)

Definition lower (c : ascii) : Prop := (97 ≤ nat_of_ascii c ≤ 122)%nat.
Definition upper (c : ascii) : Prop := (65 ≤ nat_of_ascii c ≤ 90)%nat.
Definition digit (c : ascii) : Prop := (48 ≤ nat_of_ascii c ≤ 57)%nat.

(** Items with separators in between. *)
Inductive separated (item sep : string → Prop) : string → Prop :=
  | sep_one a : item a → separated item sep a
  | sep_more a s rest : item a → sep s → separated item sep rest → separated item sep (a +:+ s +:+ rest).

Definition alphanumeric (s : string) : Prop := s ≠ "" ∧ all_chars (λ c, lower c ∨ digit c) s.
Definition separator_text (s : string) : Prop := s = "." ∨ s = "_" ∨ s = "__" ∨ all_chars (eq "-"%char) s.
Definition path_component : string → Prop := separated alphanumeric separator_text.
Definition path_text : string → Prop := separated path_component (eq "/").

Definition domain_component (s : string) : Prop :=
  s ≠ "" ∧ all_chars (λ c, lower c ∨ upper c ∨ digit c ∨ c = "-"%char) s ∧ (∀ t, s ≠ "-" +:+ t) ∧ (∀ t, s ≠ t +:+ "-").
Definition host_text : string → Prop := separated domain_component (eq ".").
Definition port_number (s : string) : Prop := s ≠ "" ∧ all_chars digit s.
Definition domain_text (s : string) : Prop := host_text s ∨ ∃ h p, s = h +:+ ":" +:+ p ∧ host_text h ∧ port_number p.

Definition word_char (c : ascii) : Prop := lower c ∨ upper c ∨ digit c ∨ c = "_"%char.
Definition tag_text (s : string) : Prop :=
  ∃ c r, s = String c r ∧ word_char c ∧ all_chars (λ c, word_char c ∨ c = "."%char ∨ c = "-"%char) r ∧ (String.length r ≤ 127)%nat.

(** The registry and the path of a name: the first component is a registry
    whenever it can be one. *)
Definition name_parts (dom pth : string) : Prop :=
  path_text pth ∧
  if decide (dom = "") then ∀ d p, pth = d +:+ "/" +:+ p → domain_text d → ¬ path_text p else domain_text dom.
Definition name_text (dom pth : string) : string := if decide (dom = "") then pth else dom +:+ "/" +:+ pth.

(** What package go-digest holds valid: one of three algorithms and as many
    lowercase hexadecimal digits as its sums have. *)
Definition hex_digit (c : ascii) : Prop := digit c ∨ (97 ≤ nat_of_ascii c ≤ 102)%nat.
Definition sha_digest (d : string) : Prop :=
  ∃ alg n h, (alg, n) ∈ [("sha256", 64); ("sha384", 96); ("sha512", 128)] ∧ d = alg +:+ ":" +:+ h ∧ String.length h = n ∧ all_chars hex_digit h.
Class ShaDigests `{Digests} : Prop := valid_sha d : ValidateDigest d = None → sha_digest d.

Definition text_of (dom pth : string) (t d : option string) : string :=
  name_text dom pth +:+ from_option (λ t, ":" +:+ t) "" t +:+ from_option (λ d, "@" +:+ d) "" d.
Definition parts_of (dom pth : string) (t d : option string) : Named :=
  let r := mkRepository dom pth in
  match t, d with
  | None, None => NRepository r
  | Some t, None => NTagged r t
  | None, Some d => NCanonical r d
  | Some t, Some d => NReference r t d
  end.

(** ** Regular expressions *)

Lemma in_class p s : in_language (Class_ p) s ↔ ∃ c, s = String c "" ∧ p c = true.
Proof. split; [intros [m Hm]; inversion Hm; subst; by eauto|]. intros (c & -> & Hp). exists []. by constructor. Qed.
Lemma in_char a s : in_language (Char a) s ↔ s = String a "".
Proof. unfold Char. rewrite in_class. split; [by intros (c & -> & ->%Ascii.eqb_eq)|]. intros ->. exists a. by rewrite Ascii.eqb_refl. Qed.
Lemma in_empty s : in_language Empty_ s ↔ s = "".
Proof. split; [by intros [m Hm]; inversion Hm|]. intros ->. by exists []; constructor. Qed.
Lemma in_cat r1 r2 s : in_language (Cat r1 r2) s ↔ ∃ s1 s2, s = s1 +:+ s2 ∧ in_language r1 s1 ∧ in_language r2 s2.
Proof.
  split.
  - intros [m (s1 & s2 & c1 & c2 & -> & _ & H1 & H2)%matches_cat]. exists s1, s2. split; [done|]. split; by eexists.
  - intros (s1 & s2 & -> & [c1 H1] & [c2 H2]). eexists. by constructor.
Qed.
Lemma in_alt r1 r2 s : in_language (Alt r1 r2) s ↔ in_language r1 s ∨ in_language r2 s.
Proof.
  split.
  - intros [m Hm]. inversion Hm; subst; [left|right]; by eexists.
  - intros [[c Hc]|[c Hc]]; eexists; [by apply m_left|by apply m_right].
Qed.
Lemma in_star_cons r s1 s2 : in_language r s1 → in_language (Star r) s2 → in_language (Star r) (s1 +:+ s2).
Proof. intros [c1 H1] [c2 H2]. eexists. by constructor. Qed.

Lemma star_ind r (P : string → Prop) :
  P "" → (∀ s1 s2, in_language r s1 → in_language (Star r) s2 → P s2 → P (s1 +:+ s2)) → ∀ s, in_language (Star r) s → P s.
Proof.
  intros H0 H1 s [c Hm]. remember (Star r) as q eqn:Eq.
  induction Hm as [| | | | |r0|r0 s1 s2 c1 c2 Hm1 _ Hm2 IH|]; try done; injection Eq as ->. apply H1; [by eexists|by eexists|by apply IH].
Qed.

Lemma in_star_class p s : in_language (Star (Class_ p)) s ↔ all_chars (λ c, p c = true) s.
Proof.
  split.
  - revert s. apply star_ind; [done|]. intros s1 s2 (c & -> & Hc)%in_class _ IH. by split.
  - induction s as [|c s IH]; simpl; [by intros _; exists []; constructor|]. intros [Hc Hs]. apply (in_star_cons _ (String c "")); [|by apply IH].
    apply in_class. by eauto.
Qed.
Lemma in_plus_class p s : in_language (Plus (Class_ p)) s ↔ s ≠ "" ∧ all_chars (λ c, p c = true) s.
Proof.
  unfold Plus. rewrite in_cat. setoid_rewrite in_class. setoid_rewrite in_star_class. split.
  - intros (s1 & s2 & -> & (c & -> & Hc) & Hs). by split.
  - destruct s as [|c s]; [by intros []|]. intros [_ [Hc Hs]]. exists (String c ""), s. split; [done|]. by eauto.
Qed.
Lemma in_atMost_class p n s : in_language (AtMost n (Class_ p)) s ↔ all_chars (λ c, p c = true) s ∧ (String.length s ≤ n)%nat.
Proof.
  revert s. induction n as [|n IH]; intros s; cbn [AtMost].
  - rewrite in_empty. destruct s; simpl; split; (done || lia || by intros [_ ?]; lia).
  - unfold Optional. rewrite in_alt, in_cat, in_empty. setoid_rewrite in_class. setoid_rewrite IH. split.
    + intros [(s1 & s2 & -> & (c & -> & Hc) & Hs & Hl)| ->]; [change (String c "" +:+ s2) with (String c s2)|]; simpl; (split; [done|lia]).
    + destruct s as [|c s]; [by right|]. simpl. intros [[Hc Hs] Hl]. left. exists (String c ""), s. split; [done|]. split; [by eauto|]. split; [done|lia].
Qed.

Lemma in_times_class p n s : in_language (Times n (Class_ p)) s ↔ all_chars (λ c, p c = true) s ∧ String.length s = n.
Proof.
  revert s. induction n as [|n IH]; intros s; cbn [Times].
  - rewrite in_empty. destruct s; simpl; split; (done || lia || by intros [_ ?]; lia).
  - rewrite in_cat. setoid_rewrite in_class. setoid_rewrite IH. split.
    + intros (s1 & s2 & -> & (c & -> & Hc) & Hs & Hl). change (String c "" +:+ s2) with (String c s2). simpl. split; [done|lia].
    + destruct s as [|c s]; simpl; [by intros [_ ?]|]. intros [[Hc Hs] Hl]. exists (String c ""), s. split; [done|]. split; [by eauto|]. split; [done|lia].
Qed.

(** A repetition with separators in front of its items. *)
Lemma in_separated (item sep : string → Prop) r q s :
  (∀ s, in_language r s ↔ item s) → (∀ s, in_language q s ↔ sep s) →
  in_language (Cat r (Optional (Plus (Cat q r)))) s ↔ separated item sep s.
Proof.
  intros Hr Hq. assert (∀ s, in_language (Optional (Plus (Cat q r))) s ↔ in_language (Star (Cat q r)) s) as Hopt.
  { intros t. unfold Optional, Plus. rewrite in_alt, in_cat, in_empty. split.
    - intros [(s1 & s2 & -> & H1 & H2)| ->]; [by apply in_star_cons|by exists []; constructor].
    - revert t. apply star_ind; [by right|]. intros s1 s2 H1 H2 _. left. by eauto. }
  rewrite in_cat. setoid_rewrite Hopt. split.
  - intros (a & rest & -> & Ha%Hr & Hs). revert a Ha. pattern rest. apply (star_ind (Cat q r)); [| |exact Hs]; clear rest Hs.
    + intros a Ha. rewrite string_app_nil_r. by constructor.
    + intros s1 s2 (x & y & -> & Hx%Hq & Hy%Hr)%in_cat _ IH a Ha. rewrite string_app_assoc. by constructor; [| |apply IH].
  - induction 1 as [a Ha|a x rest Ha Hx _ (b & rest' & -> & Hb & Hs)].
    + exists a, "". rewrite string_app_nil_r. split; [done|]. split; [by apply Hr|]. by exists []; constructor.
    + exists a, ((x +:+ b) +:+ rest'). split; [by rewrite string_app_assoc|]. split; [by apply Hr|]. apply in_star_cons; [|done].
      apply in_cat. exists x, b. split; [done|]. split; [by apply Hq|done].
Qed.

(** ** The expressions and the grammar *)

Lemma all_chars_iff (p q : ascii → Prop) s : (∀ c, p c ↔ q c) → all_chars p s ↔ all_chars q s.
Proof. intros Hpq. induction s as [|c s IH]; simpl; [done|]. by rewrite Hpq, IH. Qed.

Lemma all_chars_impl (p q : ascii → Prop) s : (∀ c, p c → q c) → all_chars p s → all_chars q s.
Proof. intros Hpq. induction s as [|c s IH]; simpl; [done|]. intros [? ?]. by auto. Qed.

Lemma lowers_iff c : lowers c = true ↔ lower c.
Proof. unfold lowers, between, in_range, lower. rewrite andb_true_iff, !Nat.leb_le. done. Qed.
Lemma uppers_iff c : uppers c = true ↔ upper c.
Proof. unfold uppers, between, in_range, upper. rewrite andb_true_iff, !Nat.leb_le. done. Qed.
Lemma digits_iff c : digits c = true ↔ digit c.
Proof. unfold digits, between, in_range, digit. rewrite andb_true_iff, !Nat.leb_le. done. Qed.
Lemma either_iff p q c : either p q c = true ↔ p c = true ∨ q c = true.
Proof. apply orb_true_iff. Qed.
Lemma one_of_iff s c : one_of s c = true ↔ c ∈ String.list_ascii_of_string s.
Proof.
  unfold one_of. rewrite existsb_exists. split; [intros (x & Hx & ->%Ascii.eqb_eq); by apply list_elem_of_In|].
  intros Hc. exists c. split; [by apply list_elem_of_In|apply Ascii.eqb_refl].
Qed.

Lemma in_alphaNumeric s : in_language alphaNumeric s ↔ alphanumeric s.
Proof.
  unfold alphaNumeric, alphanumeric. rewrite in_plus_class. f_equiv. apply all_chars_iff. intros c. by rewrite either_iff, lowers_iff, digits_iff.
Qed.

Lemma in_separator s : in_language separator s ↔ separator_text s.
Proof.
  unfold separator, separator_text. rewrite !in_alt, in_class, in_cat. setoid_rewrite in_char. unfold Char. rewrite in_star_class.
  assert (all_chars (λ c, Ascii.eqb "-" c = true) s ↔ all_chars (eq "-"%char) s) as -> by (apply all_chars_iff; intros c; apply Ascii.eqb_eq).
  setoid_rewrite one_of_iff. split.
  - intros [(c & -> & [->|[->|[]%elem_of_nil]%elem_of_cons]%elem_of_cons)|[(s1 & s2 & -> & -> & ->)|Hs]]; by auto.
  - intros [->|[->|[->|Hs]]]; [left|left|right; left|by right; right].
    + exists "."%char. split; [done|left].
    + exists "_"%char. split; [done|right; left].
    + by exists "_", "_".
Qed.

Lemma in_nameComponent s : in_language nameComponent s ↔ path_component s.
Proof. apply in_separated; [apply in_alphaNumeric|apply in_separator]. Qed.

Lemma in_remote s : in_language remote s ↔ path_text s.
Proof. apply in_separated; [apply in_nameComponent|]. intros t. rewrite in_char. naive_solver. Qed.

Lemma string_snoc s : s = "" ∨ ∃ t c, s = t +:+ String c "".
Proof.
  induction s as [|a s [->|(t & c & ->)]]; [by left|right; by exists "", a|]. right. by exists (String a t), c.
Qed.
Lemma string_snoc_inj s t c d : s +:+ String c "" = t +:+ String d "" → s = t ∧ c = d.
Proof.
  revert t. induction s as [|a s IH]; intros [|b t]; rewrite ?string_app_cons.
  - by intros [= ->].
  - by intros [= -> ?]; destruct t.
  - by intros [= -> ?]; destruct s.
  - by intros [= -> [-> ->]%IH].
Qed.

Definition dash_or_alnum (c : ascii) : Prop := lower c ∨ upper c ∨ digit c ∨ c = "-"%char.

Lemma alnum_iff c : either (either lowers uppers) digits c = true ↔ dash_or_alnum c ∧ c ≠ "-"%char.
Proof.
  unfold dash_or_alnum. rewrite !either_iff, lowers_iff, uppers_iff, digits_iff. split; [|naive_solver].
  intros Hc. split; [tauto|]. intros ->. unfold lower, upper, digit in Hc. change (nat_of_ascii "-") with 45 in Hc. lia.
Qed.

Lemma in_domainComponent s : in_language domainComponent s ↔ domain_component s.
Proof.
  unfold domainComponent, domain_component. rewrite in_alt. cbn [Cats]. rewrite !in_cat. setoid_rewrite in_cat. rewrite in_class. setoid_rewrite in_class. setoid_rewrite in_star_class.
  setoid_rewrite alnum_iff. fold dash_or_alnum. split.
  - intros [(c & -> & Hc & Hd)|(s1 & s2 & -> & (c & -> & Hc & Hd) & s3 & s4 & -> & H3 & (e & -> & He & Hf))].
    + split_and!; [done|done| |].
      * by intros t [= ->].
      * intros [|a t]; rewrite ?string_app_cons; [by intros [= ->]|]. by intros [= _ ?]; destruct t.
    + change (String c "" +:+ s3 +:+ String e "") with (String c (s3 +:+ String e "")). split_and!; [done| | |].
      * simpl. split; [done|]. apply all_chars_app. split; [|done]. revert H3. apply all_chars_impl. intros x.
        rewrite either_iff, alnum_iff, one_of_iff. intros [[? ?]|[->|[]%elem_of_nil]%elem_of_cons]; [done|]. by right; right; right.
      * by intros t [= ->].
      * intros [|a t]; [by intros [= _ ?]; destruct s3|]. rewrite string_app_cons. intros [= -> E]. by apply string_snoc_inj in E as [_ ->].
  - intros (Hne & Hall & Hfirst & Hlast). destruct s as [|c s]; [done|]. simpl in Hall. destruct Hall as [Hc Hs].
    assert (c ≠ "-"%char) as Hcd by (intros ->; by apply (Hfirst s)).
    destruct (string_snoc s) as [->|(t & e & ->)]; [left; by exists c|]. right. apply all_chars_app in Hs as [Ht [He _]].
    exists (String c ""), (t +:+ String e ""). split; [done|]. split; [by exists c|]. exists t, (String e ""). split; [done|]. split.
    + revert Ht. apply all_chars_impl. intros x. rewrite either_iff, alnum_iff, one_of_iff.
      intros Hx. destruct (decide (x = "-"%char)) as [->|]; [right; left|by left].
    + exists e. split; [done|]. split; [done|]. intros ->. by apply (Hlast (String c t)).
Qed.

Lemma in_domain s : in_language domain_ s ↔ domain_text s.
Proof.
  unfold domain_, domain_text. cbn [Cats].
  assert (∀ t, in_language (Cat domainComponent (Optional (Plus (Cat (Char ".") domainComponent)))) t ↔ host_text t) as Hh.
  { intros t. apply in_separated; [apply in_domainComponent|]. intros u. rewrite in_char. naive_solver. }
  assert (∀ t, in_language (Optional (Cat (Char ":") (Plus (Class_ digits)))) t ↔ t = "" ∨ ∃ p, t = ":" +:+ p ∧ port_number p) as Hp.
  { intros t. unfold Optional. rewrite in_alt, in_cat, in_empty. setoid_rewrite in_char. setoid_rewrite in_plus_class. split.
    - intros [(s1 & p & -> & -> & Hne & Hp)|]; [|by left]. right. exists p. split; [done|]. split; [done|]. revert Hp. apply all_chars_impl. intros c. by rewrite digits_iff.
    - intros [|(p & -> & Hne & Hp)]; [by right|]. left. exists ":", p. split_and!; [done..|]. revert Hp. apply all_chars_impl. intros c. by rewrite digits_iff. }
  rewrite in_cat. setoid_rewrite in_cat. setoid_rewrite Hp. split.
  - intros (s1 & s2 & -> & H1 & s3 & s4 & -> & H3 & H4).
    assert (host_text (s1 +:+ s3)) as Hhost by (apply Hh, in_cat; by eauto). rewrite <- string_app_assoc.
    destruct H4 as [->|(p & -> & H4)]; [left; by rewrite string_app_nil_r|]. right. by exists (s1 +:+ s3), p.
  - intros [(s1 & s3 & -> & H1 & H3)%Hh%in_cat|(h & p & -> & (s1 & s3 & -> & H1 & H3)%Hh%in_cat & H4)].
    + exists s1, s3. split_and!; [done..|]. exists s3, "". rewrite string_app_nil_r. by auto.
    + exists s1, (s3 +:+ ":" +:+ p). rewrite string_app_assoc. split_and!; [done..|]. exists s3, (":" +:+ p). split_and!; [done..|]. right. by eauto.
Qed.

Lemma in_name s : in_language namePat s ↔ path_text s ∨ ∃ d p, s = d +:+ "/" +:+ p ∧ domain_text d ∧ path_text p.
Proof.
  unfold namePat, Optional. rewrite in_cat. setoid_rewrite in_remote. setoid_rewrite in_alt. setoid_rewrite in_cat. setoid_rewrite in_empty. setoid_rewrite in_char.
  setoid_rewrite in_domain. split.
  - intros (s1 & p & -> & [(d & s2 & -> & Hd & ->)| ->] & Hp); [|by left]. right. exists d, p. split; [by rewrite string_app_assoc|done].
  - intros [Hp|(d & p & -> & Hd & Hp)]; [exists "", s; by auto|]. exists (d +:+ "/"), p. split; [by rewrite string_app_assoc|]. split; [|done]. left. by eauto.
Qed.

Lemma word_iff c : word c = true ↔ word_char c.
Proof.
  unfold word, word_char. rewrite !either_iff, lowers_iff, uppers_iff, digits_iff, one_of_iff.
  assert (c ∈ String.list_ascii_of_string "_" ↔ c = "_"%char) as -> by (simpl; by rewrite list_elem_of_singleton). tauto.
Qed.

Lemma in_tag s : in_language tag s ↔ tag_text s.
Proof.
  unfold tag, tag_text. generalize 127. intros k. rewrite in_cat. setoid_rewrite in_class. setoid_rewrite in_atMost_class. setoid_rewrite word_iff.
  assert (∀ t, all_chars (λ c, either word (one_of ".-") c = true) t ↔ all_chars (λ c, word_char c ∨ c = "."%char ∨ c = "-"%char) t) as Ha.
  { intros t. apply all_chars_iff. intros c. rewrite either_iff, word_iff, one_of_iff. simpl. rewrite !elem_of_cons, elem_of_nil. tauto. }
  setoid_rewrite Ha. split.
  - intros (s1 & r & -> & (c & -> & Hc) & Hr & Hl). by exists c, r.
  - intros (c & r & -> & Hc & Hr & Hl). exists (String c ""), r. split; [done|]. split; [by eauto|done].
Qed.

(** ** The preference for a registry *)

Definition first_full (l : list result) : option captures := (λ x, x.2.1) <$> list_find (λ x : result, x.2 = "") l.

Lemma first_full_cons c t l : first_full ((c, t) :: l) = if decide (t = "") then Some c else first_full l.
Proof. unfold first_full. simpl. case_decide; [done|]. by destruct (list_find _ l) as [[? [? ?]]|]. Qed.
Lemma first_full_app l l' : first_full (l ++ l')%list = match first_full l with Some c => Some c | None => first_full l' end.
Proof. induction l as [|[c t] l IH]; [done|]. simpl. rewrite !first_full_cons, IH. by case_decide. Qed.
Lemma first_full_Some l c : first_full l = Some c → (c, "") ∈ l.
Proof. induction l as [|[d t] l IH]; [done|]. rewrite first_full_cons. case_decide as E; [intros [= ->]; subst; left|right; by apply IH]. Qed.
Lemma first_full_None l c : first_full l = None → (c, "") ∉ l.
Proof.
  induction l as [|[d t] l IH]; [by intros _ ?%elem_of_nil|]. rewrite first_full_cons. case_decide; [done|].
  intros Hn [[= <- <-]|Hin]%elem_of_cons; [done|]. by apply IH.
Qed.

Lemma first_full_distinct seen l : 0 ∉ seen → first_full (distinct seen l) = first_full l.
Proof.
  revert seen. induction l as [|[c t] l IH]; intros seen Hs; [done|]. cbn [distinct]. case_decide as Hin.
  - rewrite first_full_cons, decide_False; [by apply IH|]. intros ->. done.
  - rewrite !first_full_cons. case_decide as Ht; [done|]. apply IH. intros [E|]%elem_of_cons; [|done]. by destruct t.
Qed.

Lemma distinct_snoc seen l z : ∃ l', distinct seen (l ++ [z]) = (distinct seen l ++ l')%list.
Proof.
  revert seen. induction l as [|[c t] l IH]; intros seen; cbn [distinct app].
  - destruct z as [c t]. case_decide; [by exists []|by exists [(c, t)]].
  - case_decide; [by apply IH|]. destruct (IH (String.length t :: seen)) as (l' & ->). by exists l'.
Qed.

(** If there is a match with the optional part, it is the one that is found. *)
Lemma optional_preferred r q s1 s2 c :
  in_language r s1 → in_language q s2 → FindStringSubmatch (Cat (Optional r) q) (s1 +:+ s2) = Some c →
  ∃ t1 t2 c1 c2, s1 +:+ s2 = t1 +:+ t2 ∧ c = (c1 ++ c2)%list ∧ matches r t1 c1 ∧ matches q t2 c2.
Proof.
  intros [m1 H1] [m2 H2] Hf. assert (first_full (run (Cat (Optional r) q) (s1 +:+ s2)) = Some c) as Hc.
  { revert Hf. unfold FindStringSubmatch, first_full. by destruct (list_find _ _) as [[? [? ?]]|]; [intros [= ->]|]. }
  clear Hf. cbn [run Optional] in Hc. rewrite first_full_distinct in Hc by (by apply not_elem_of_nil).
  destruct (distinct_snoc [] (run r (s1 +:+ s2)) ([], s1 +:+ s2)) as (l' & El). rewrite El in Hc. rewrite bind_app, first_full_app in Hc. clear El.
  destruct (run_complete r s1 m1 s2 H1) as [c1 Hin1]. destruct (run_complete q s2 m2 "" H2) as [c2 Hin2]. rewrite string_app_nil_r in Hin2.
  destruct (distinct_rest (s1 +:+ s2) _ _ _ (λ c t Hin, let 'ex_intro _ w (conj E _) := run_sound r _ c t Hin in ex_intro _ w E) Hin1) as [c1' Hin1'].
  destruct (first_full (distinct [] (run r (s1 +:+ s2)) ≫= and_then (run q))) as [c'|] eqn:E.
  - injection Hc as ->. apply first_full_Some, list_elem_of_bind in E as ([d1 t2] & Hin & Hx). apply and_then_elem in Hin as (d2 & Hin & ->).
    apply distinct_sub, run_sound in Hx as (t1 & Et & Hm1). apply run_sound in Hin as (w & Ew & Hm2). rewrite string_app_nil_r in Ew. simpl in Ew. subst w.
    by exists t1, t2, d1, d2.
  - destruct (first_full_None _ (c1' ++ c2)%list E). apply list_elem_of_bind. exists (c1', s2). split; [|done]. apply and_then_elem. by exists c2.
Qed.

Lemma domain_absent d : domain_text d → contains_char "/" d = false.
Proof. intros Hd%in_domain. apply (absent _ _ _ Hd). cbn. split_and!; done || by intros ? Hx ->. Qed.
Lemma domain_nonempty d : domain_text d → d ≠ "".
Proof. intros [m Hm]%in_domain. by eapply nullable_nonempty. Qed.

Lemma name_parts_name dom pth : name_parts dom pth → in_language namePat (name_text dom pth).
Proof. unfold name_parts, name_text. intros [Hp Hd]. apply in_name. case_decide; [by left|]. right. by exists dom, pth. Qed.

Lemma name_parts_inj dom pth dom' pth' :
  name_parts dom pth → name_parts dom' pth' → name_text dom pth = name_text dom' pth' → dom = dom' ∧ pth = pth'.
Proof.
  intros [Hp Hd] [Hp' Hd'] E. unfold name_text in E. repeat case_decide; subst.
  - done.
  - by destruct (Hd _ _ eq_refl Hd').
  - by destruct (Hd' _ _ eq_refl Hd).
  - assert (cut "/" (dom +:+ "/" +:+ pth) = Some (dom, pth)) as C by (apply cut_Some; split; [done|by apply domain_absent]).
    rewrite E, (proj2 (cut_Some "/" _ dom' pth')) in C; [by injection C as -> ->|]. split; [done|by apply domain_absent].
Qed.

Lemma splitDomain_parts name :
  in_language namePat name → let '(dom, pth) := splitDomain name in name = name_text dom pth ∧ name_parts dom pth.
Proof.
  intros Hn. unfold splitDomain. pose proof (FindStringSubmatch_spec anchoredName name) as Hm.
  destruct (FindStringSubmatch anchoredName name) as [m|] eqn:Em.
  - unfold name_text, name_parts. apply matches_cat in Hm as (s1 & p & c1 & c2 & -> & -> & H1 & [-> H2]%matches_capture); [|done].
    apply in_remote in H2. apply matches_optional in H1 as [H1|[-> ->]].
    + apply matches_cat in H1 as (d & sl & cd & cs & -> & -> & [-> Hd]%matches_capture & [-> ->]%matches_char); [|done]. apply in_domain in Hd.
      simpl. rewrite group_here, group_skip, group_here by done. pose proof (domain_nonempty _ Hd). rewrite !decide_False by done.
      split; [by rewrite string_app_assoc|done].
    + simpl. rewrite group_here. split; [done|]. split; [done|]. change ("" +:+ p) with p in *. intros d q -> Hd Hq.
      destruct (optional_preferred (Cat (Capture 1 domain_) (Char "/")) (Capture 2 remote) (d +:+ "/") q [(2, d +:+ "/" +:+ q)]) as (t1 & t2 & d1 & d2 & _ & E & H1 & _).
      * apply in_cat. exists d, "/". split; [done|]. split; [|by apply in_char]. apply in_domain in Hd as [x Hx]. eexists. by constructor.
      * apply in_remote in Hq as [x Hx]. eexists. by constructor.
      * by rewrite string_app_assoc.
      * apply matches_cat in H1 as (d' & sl & cd & cs & -> & -> & [-> _]%matches_capture & [-> ->]%matches_char); [|done]. by injection E.
  - exfalso. apply in_name in Hn. unfold anchoredName in Hm. assert (∃ c, matches anchoredName name c) as [c Hc]; [|by apply (Hm c)].
    destruct Hn as [[x Hx]%in_remote|(d & p & -> & [x Hx]%in_domain & [y Hy]%in_remote)].
    + eexists. apply (m_cat _ _ "" name); [apply m_right, m_empty|by constructor].
    + eexists. rewrite <- (string_app_assoc d "/" p). apply m_cat; [|by constructor]. apply m_left, m_cat; by constructor.
Qed.

Lemma sha_in_digest d : sha_digest d → d ≠ "" ∧ in_language digestPat d.
Proof.
  intros (alg & n & h & Hin & -> & Hlen & Hh). split; [repeat (apply elem_of_cons in Hin as [[= -> ->]|Hin]; [done|]); by apply elem_of_nil in Hin|].
  assert (in_language (AtLeast 32 (Class_ xdigits)) h) as Hhex.
  { assert (all_chars (λ c, xdigits c = true) h) as Hx.
    { revert Hh. apply all_chars_impl. intros c. unfold xdigits, hex_digit. rewrite !either_iff, digits_iff. intros [?|?]; [by left|right; left].
      unfold between, in_range. rewrite andb_true_iff, !Nat.leb_le. done. }
    assert (32 ≤ String.length h)%nat as Hl by (repeat (apply elem_of_cons in Hin as [[= -> ->]|Hin]; [lia|]); by apply elem_of_nil in Hin).
    clear Hh Hlen Hin. unfold AtLeast. revert h Hx Hl. generalize 32. intros k. induction k as [|k IH]; intros h Hx Hl; rewrite in_cat.
    - exists "", h. split; [done|]. split; [by apply in_empty|by apply in_star_class].
    - destruct h as [|c h]; [simpl in Hl; lia|]. simpl in Hx, Hl. destruct Hx as [Hc Hx]. destruct (proj1 (in_cat _ _ _) (IH h Hx ltac:(lia))) as (s1 & s2 & -> & H1 & H2).
      exists (String c s1), s2. split; [done|]. split; [|done]. cbn [Times]. apply in_cat. exists (String c ""), s1. split; [done|]. split; [|done]. apply in_class. by eauto. }
  unfold digestPat. cbn [Cats]. apply in_cat. exists alg, (":" +:+ h). split; [done|]. split.
  - assert (∃ r, alg = String "s" r ∧ all_chars (λ c, either (either lowers uppers) digits c = true) r) as (r & -> & Hr).
    { repeat (apply elem_of_cons in Hin as [[= -> _]|Hin]; [eexists; split; [reflexivity|by vm_compute]|]). by apply elem_of_nil in Hin. }
    apply in_cat. exists "s", r. split; [done|]. split; [apply in_class; by exists "s"%char|by apply in_star_class].
  - apply in_cat. exists "", (":" +:+ h). split; [done|]. split; [by exists []; constructor|]. apply in_cat. exists ":", h. split; [done|]. split; [by apply in_char|done].
Qed.

Lemma opt_text c (o : option string) :
  o ≠ Some "" → (if decide (default "" o = "") then "" else c +:+ default "" o) = from_option (λ x, c +:+ x) "" o.
Proof. intros Ho. destruct o as [x|]; [|done]. simpl. rewrite decide_False; [done|congruence]. Qed.

(** ** The parser *)

Section Grammar.
Context `{Digests} `{!ShaDigests} `{Unicode}.

(** C12: As package go-digest only holds digests of its three algorithms valid,
    the parser accepts exactly the grammar of names and tags of the package
    comment, with valid digests: the text is a name of at most 255 bytes, a tag
    or none, and a valid digest or none, and the reference has these parts.  The
    name is split at the first slash if what precedes is a registry and what
    follows is a path, and is a path otherwise. *)
Theorem Parse_grammar s r :
  Parse s = inl r ↔
  ∃ dom pth t d,
    name_parts dom pth ∧ (String.length (name_text dom pth) ≤ 255)%nat ∧
    from_option tag_text True t ∧ from_option (λ d, ValidateDigest d = None) True d ∧
    s = text_of dom pth t d ∧ r = RNamed (parts_of dom pth t d).
Proof.
  assert (∀ t, tag_text t → t ≠ "") as Htag by (by intros t (c & q & -> & _)). split.
  - intros (name & t & d & W & Hl & Hd & -> & ->)%Parse_inv. destruct W as [Hn Ht _]. pose proof (splitDomain_parts name Hn) as Hs.
    unfold reference_of. destruct (splitDomain name) as [dom pth]. destruct Hs as [-> Hp].
    exists dom, pth, (if decide (t = "") then None else Some t), (if decide (d = "") then None else Some d).
    unfold reference_text, text_of, parts_of. split_and!; [done|done| | | |]; repeat case_decide; simpl; try done.
    + by apply in_tag; destruct Ht.
    + by destruct Hd.
  - intros (dom & pth & t & d & Hp & Hl & Ht & Hd & -> & ->). pose proof (name_parts_name _ _ Hp) as Hn.
    assert (t ≠ Some "" ∧ d ≠ Some "") as [Ht0 Hd0].
    { split; intros ->; [by apply (Htag _ Ht)|]. by destruct (sha_in_digest _ (valid_sha _ Hd)). }
    assert (text_of dom pth t d = reference_text (name_text dom pth) (default "" t) (default "" d)) as ->.
    { unfold text_of, reference_text. by rewrite !opt_text. }
    rewrite Parse_text; [|split|done|].
    + f_equal. f_equal. unfold reference_of, parts_of. pose proof (splitDomain_parts _ Hn) as Hs. destruct (splitDomain _) as [dom' pth'] eqn:Es.
      destruct Hs as [E Hp']. destruct (name_parts_inj _ _ _ _ Hp Hp' E) as [<- <-].
      destruct t as [t|], d as [d|]; simpl; rewrite ?decide_False by congruence; done.
    + done.
    + destruct t as [t|]; [right; by apply in_tag|by left].
    + destruct d as [d|]; [right; by apply sha_in_digest, valid_sha|by left].
    + destruct d as [d|]; [by right|by left].
Qed.
End Grammar.

(** ** Witness *)

(** The checks of go-digest. *)
Definition hexb (c : ascii) : bool := either digits (between "a" "f") c.
Fixpoint all_hex (s : string) : bool := match s with EmptyString => true | String c s => hexb c && all_hex s end.
#[local] Instance sha_digests : Digests := {
  FromBytes data := "sha256:" +:+ data;
  ValidateDigest d :=
    match cut ":" d with
    | Some (a, h) =>
        if decide ((a, String.length h) ∈ [("sha256", 64); ("sha384", 96); ("sha512", 128)] ∧ all_hex h = true)
        then None else Some (ErrOther "invalid checksum digest format")
    | None => Some (ErrOther "invalid checksum digest format")
    end
}.

Lemma all_hex_digits h : all_hex h = true → all_chars hex_digit h.
Proof.
  induction h as [|c h IH]; [done|]. simpl. rewrite andb_true_iff. intros [Hc Hh]. split; [|by apply IH].
  unfold hexb in Hc. apply either_iff in Hc as [Hc%digits_iff|Hc]; [by left|right]. unfold between, in_range in Hc.
  by rewrite andb_true_iff, !Nat.leb_le in Hc.
Qed.

#[local] Instance sha_digests_spec : ShaDigests.
Proof.
  intros d. simpl. destruct (cut ":" d) as [[a h]|] eqn:E; [|done]. apply cut_Some in E as [-> _].
  case_decide as Hd; [|done]. intros _. destruct Hd as [Hin Hh]. exists a, (String.length h), h. split_and!; [done..|]. by apply all_hex_digits.
Qed.

Definition demo_digest : string := "sha256:e3b0c44298fc1c149afbf4c8996fb92427ae41e4649b934ca495991b7852b855".

(** A text of the grammar, with a registry that has a port, is parsed. *)
Lemma Parse_grammar_witness :
  ValidateDigest demo_digest = None ∧
  ∃ dom pth, name_parts dom pth ∧ name_text dom pth = "localhost:5000/a__b/c-d" ∧
    Parse ("localhost:5000/a__b/c-d:v1@" +:+ demo_digest) = inl (RNamed (parts_of dom pth (Some "v1") (Some demo_digest))).
Proof.
  split; [by vm_compute|].
  assert (Parse ("localhost:5000/a__b/c-d:v1@" +:+ demo_digest) = inl (RNamed (NReference (mkRepository "localhost:5000" "a__b/c-d") "v1" demo_digest))) as E
    by (vm_compute; reflexivity).
  destruct (proj1 (Parse_grammar _ _) E) as (dom & pth & t & d & Hp & _ & _ & _ & _ & Hr). injection Hr as Hr.
  destruct t as [t|], d as [d|]; try discriminate Hr. injection Hr as <- <- <- <-. exists "localhost:5000", "a__b/c-d". split; [exact Hp|].
  split; [reflexivity|exact E].
Defined.
End ReferenceGrammar.
