(* ===== verification/ConfigFile.v ===== *)
(** * Configuration files: [storage/pkg/configfile]

    Where the files of a configuration are searched and in which order they
    are read: one main file, the drop-in files of several directories, modules
    and an override from the environment.  [Read] is an iterator; here it is
    given the body of the loop over it. *)

From stdpp Require Import sorting.
From S2P Require Import Prelude World Strconv StoreUtil DockerReference.
Local Open Scope string_scope.

Module ConfigFile.
Import DockerTransport.

Definition configPathName := "containers".
Definition builtinSystemConfigPath := "/usr/share/containers".
Definition builtinAdminOverrideConfigPath := "/etc/containers".
Definition ErrConfigFileNotFound := ErrOther "config file not found".

Record File := mkFile {
  Name : string;
  Extension : string;
  EnvironmentName : string;
  RootForImplicitAbsolutePaths : string;
  CustomConfigFilePath : string;
  CustomConfigFileDropInDirectory : string;
  DoNotLoadMainFiles : bool;
  DoNotLoadDropInFiles : bool;
  DoNotUseExtensionForConfigName : bool;
  UserId : Z;
  Modules : list string;
  ErrorIfNotFound : bool
}.

Definition set_Modules (l : list string) (f : File) : File :=
  mkFile (Name f) (Extension f) (EnvironmentName f) (RootForImplicitAbsolutePaths f) (CustomConfigFilePath f)
    (CustomConfigFileDropInDirectory f) (DoNotLoadMainFiles f) (DoNotLoadDropInFiles f) (DoNotUseExtensionForConfigName f)
    (UserId f) l (ErrorIfNotFound f).

Record SearchPaths := mkSearchPaths {
  MainFiles : list string;
  DropInDirectories : list string;
  ModuleDirectories : list string;
  ExtraOverrideFile : string
}.

(** The environment of the process, the user database of the host, and the two
    package variables with the directories of the vendor and of the
    administrator, which a build can set to other values than the built-in
    ones. *)
Class Environment := {
  LookupEnv : string → option string;
  lookupHomeDir : string + error;
  systemConfigPath : string;
  adminOverrideConfigPath : string
}.

Section Files.
Context `{Environment}.

Definition Getenv (name : string) : string := default "" (LookupEnv name).

(** [unshare.HomeDir]. *)
Definition HomeDir : string + error :=
  if decide (Getenv "HOME" ≠ "") then inl (Getenv "HOME") else lookupHomeDir.

Definition UserConfigPath : string + error :=
  match LookupEnv "XDG_CONFIG_HOME" with
  | Some configHome => inl (filepath_Join [configHome; configPathName])
  | None => match HomeDir with inl home => inl (filepath_Join [home; ".config"; configPathName]) | inr e => inr e end
  end.

Definition getConfName (f : File) : string :=
  if DoNotUseExtensionForConfigName f then Name f else Name f +:+ "." +:+ Extension f.

Definition dropInSuffix := ".d".

Definition getDropInPathsUnderMain (mainPath suffix : string) (uid : Z) : list string :=
  let special :=
    if decide (0 ≤ uid)%Z then
      let rootless := bool_decide (0 < uid)%Z in
      let '(specialPrefix, cut) := CutSuffix mainPath suffix in
      let specialPath := (specialPrefix +:+ "." +:+ (if rootless then "rootless" else "rootful") +:+ (if cut then suffix else "") +:+ dropInSuffix)%string in
      ((if rootless then [filepath_Join [specialPath; format_int uid]] else []) ++ [specialPath])%list
    else [] in
  (special ++ [mainPath +:+ dropInSuffix])%list.

Definition unless_empty {A} (s : string) (l : list A) : list A := if decide (s = "") then [] else l.

Definition getDropInPaths (defaultConfig overrideConfig userConfig suffix : string) (uid : Z) : list string :=
  (unless_empty userConfig [userConfig +:+ dropInSuffix] ++
   unless_empty overrideConfig (getDropInPathsUnderMain overrideConfig suffix uid) ++
   unless_empty defaultConfig (getDropInPathsUnderMain defaultConfig suffix uid))%list.

Definition moduleDirectories (defaultConfig overrideConfig userConfig : string) : list string :=
  (unless_empty userConfig [userConfig +:+ ".modules"] ++ unless_empty overrideConfig [overrideConfig +:+ ".modules"] ++
   unless_empty defaultConfig [defaultConfig +:+ ".modules"])%list.

(** The name of the file in a configuration directory, possibly below another
    root. *)
Definition implicit_path (conf : File) (dir : string) : string :=
  if decide (dir = "") then ""
  else let p := filepath_Join [dir; getConfName conf] in
       if decide (RootForImplicitAbsolutePaths conf = "") then p else filepath_Join [RootForImplicitAbsolutePaths conf; p].

(** The files, and whether a missing main file is ignored. *)
Definition getSearchPaths (conf : File) : SearchPaths * bool + error :=
  let defaultConfig := implicit_path conf systemConfigPath in
  let overrideConfig := implicit_path conf adminOverrideConfigPath in
  match UserConfigPath with
  | inr e => inr e
  | inl userDir =>
      let userConfig := if decide (userDir = "") then "" else filepath_Join [userDir; getConfName conf] in
      let env := Getenv (EnvironmentName conf) in
      let '(mainFiles, ignoreENOENT, shouldLoadDropIns) :=
        if DoNotLoadMainFiles conf then ([], true, true)
        else if decide (CustomConfigFilePath conf ≠ "") then ([CustomConfigFilePath conf], false, true)
        else if decide (env ≠ "" ∧ EnvironmentName conf ≠ "") then ([env], false, false)
        else ((unless_empty userConfig [userConfig] ++ unless_empty overrideConfig [overrideConfig] ++
               unless_empty defaultConfig [defaultConfig])%list, true, true) in
      let dropInDirs :=
        if DoNotLoadDropInFiles conf || negb shouldLoadDropIns then []
        else if decide (CustomConfigFileDropInDirectory conf ≠ "") then [CustomConfigFileDropInDirectory conf]
        else getDropInPaths defaultConfig overrideConfig userConfig ("." +:+ Extension conf) (UserId conf) in
      let extraOverrideFilePath :=
        if DoNotLoadDropInFiles conf then ""
        else if decide (EnvironmentName conf ≠ "" ∧ CustomConfigFileDropInDirectory conf = "")
             then Getenv (EnvironmentName conf +:+ "_OVERRIDE") else "" in
      let modDirs := if decide (Modules conf = []) then [] else moduleDirectories defaultConfig overrideConfig userConfig in
      inl (mkSearchPaths mainFiles dropInDirs modDirs extraOverrideFilePath, ignoreENOENT)
  end.
End Files.

(** ** Reading *)

(** [slices.Sorted] of the keys of a map. *)
Definition sorted_keys {V} (m : gmap string V) : list string := merge_sort String.le (elements (dom m)).

Definition os_Open (p : string) : M World unit :=
  syscall (w ← gets id; if decide (is_Some (w_files w !! p) ∨ p ∈ w_dirs w) then mret tt else fail (ErrOS ENOENT)).
Definition os_Close : M World unit := syscall (mret tt).

(** [io.ReadAll] of an open file. *)
Definition ReadAll (p : string) : M World string :=
  syscall (f ← gets w_files; match f !! p with Some d => mret d | None => fail (ErrOther "is a directory") end).

Definition HasSuffix (s suffix : string) : bool := (CutSuffix s suffix).2.

(** The files of one drop-in directory, over those found so far. *)
Definition add_dropin (suffix path : string) (m : gmap string string) (entry : string * bool) : gmap string string :=
  if negb entry.2 && HasSuffix entry.1 suffix then <[entry.1 := filepath_Join [path; entry.1]]> m else m.
Definition read_dropins (suffix : string) (m : gmap string string) (path : string) : M World (gmap string string) :=
  r ← try (os_ReadDir path);
  match r with
  | inr e => if os_IsNotExist e then mret m else fail e
  | inl entries => mret (foldl (add_dropin suffix path) m entries)
  end.

Definition readDropInsFromPaths (paths : list string) (suffix : string) : M World (list string) :=
  dropInMap ← foldM (read_dropins suffix) ∅ (reverse paths);
  mret (omap (λ n, dropInMap !! n) (sorted_keys dropInMap)).

(** The errors of all the candidates are reported together; without a
    candidate the file is nil. *)
Fixpoint resolve_in (path : string) (dirs : list string) (failed : bool) : M World string :=
  match dirs with
  | [] => if failed then fail (ErrOther "could not resolve module") else stop (Panic "nil pointer dereference")
  | d :: dirs =>
      r ← try (os_Open (filepath_Join [d; path]));
      match r with inl _ => mret (filepath_Join [d; path]) | inr _ => resolve_in path dirs true end
  end.
Definition resolveModule (path : string) (dirs : list string) : M World string :=
  if rooted path then os_Open path;; mret path else resolve_in path dirs false.

Section Iterator.
Context `{Environment} {A : Type} (body : A → string → M World A).

(** The body is run on the open file; the error of [Close] only counts if the
    body went on. *)
Definition yieldAndClose (a : A) (path : string) : M World A :=
  r ← try (body a path);
  c ← try os_Close;
  match r, c with
  | inr e, _ | inl _, inr e => fail e
  | inl a, inl _ => mret a
  end.

(** The first of the main files that exists; the flag tells whether there was
    one. *)
Fixpoint read_main (ignoreENOENT : bool) (a : A) (files : list string) : M World (A * bool) :=
  match files with
  | [] => mret (a, false)
  | path :: files =>
      if decide (path = "") then read_main ignoreENOENT a files
      else
        r ← try (os_Open path);
        match r with
        | inr e => if ignoreENOENT && os_IsNotExist e then read_main ignoreENOENT a files else fail e
        | inl _ => a ← yieldAndClose a path; mret (a, true)
        end
  end.

Definition read_dropin (x : A * bool) (file : string) : M World (A * bool) :=
  r ← try (os_Open file);
  match r with
  | inr e => if os_IsNotExist e then mret x else fail e
  | inl _ => a ← yieldAndClose x.1 file; mret (a, true)
  end.

Definition read_module (dirs : list string) (x : A * bool * list string) (m : string) : M World (A * bool * list string) :=
  f ← resolveModule m dirs;
  a ← yieldAndClose x.1.1 f;
  mret (a, true, (x.2 ++ [f])%list).

Definition read_dropin_files (paths : SearchPaths) (suffix : string) (x : A * bool) : M World (A * bool) :=
  if decide (DropInDirectories paths = []) then mret x
  else files ← readDropInsFromPaths (DropInDirectories paths) suffix; foldM read_dropin x files.

(** Modules, the override from the environment, and the check that there was a
    file. *)
Definition read_rest (paths : SearchPaths) (conf : File) (x : A * bool) : M World (A * File) :=
  '(x, conf) ← (if decide (Modules conf = []) then mret (x, conf)
                else '(x, resolved) ← foldM (read_module (ModuleDirectories paths)) (x, []) (Modules conf);
                     mret (x, set_Modules resolved conf));
  x ← (if decide (ExtraOverrideFile paths = "") then mret x
       else os_Open (ExtraOverrideFile paths);; a ← yieldAndClose x.1 (ExtraOverrideFile paths); mret (a, true));
  if ErrorIfNotFound conf && negb x.2 then fail ErrConfigFileNotFound else mret (x.1, conf).

Definition Read (conf : File) (a : A) : M World (A * File) :=
  match getSearchPaths conf with
  | inr e => fail e
  | inl (paths, ignoreMainENOENT) =>
      x ← read_main ignoreMainENOENT a (MainFiles paths);
      x ← read_dropin_files paths ("." +:+ Extension conf) x;
      read_rest paths conf x
  end.
End Iterator.

(** [toml.Decoder.Decode] updates the fields that the file sets. *)
Definition ParseTOML `{Environment} {A} (Decode : string → A → A + error) (configStruct : A) (conf : File) : M World (A * File) :=
  Read (λ c path, data ← ReadAll path; match Decode data c with inl c => mret c | inr e => fail e end) conf configStruct.

(** ** Arrays that can be appended to: [slice.go] *)

(** A value of the TOML library. *)
Inductive toml_value :=
  | TString (s : string)
  | TBool (b : bool)
  | TArray (l : list toml_value)
  | TTable (fields : list (string * toml_value))
  | TOther.

Record Slice := mkSlice { Values : list string; Append : option bool }.
Definition NewSlice (values : list string) : Slice := mkSlice values None.
Definition Get (a : Slice) : list string := Values a.
Definition Set_ (values : list string) (a : Slice) : Slice := mkSlice values (Append a).

(** The attributes of a table; the last one decides. *)
Fixpoint attributes (fields : list (string * toml_value)) (append : option bool) : option bool + error :=
  match fields with
  | [] => inl append
  | (k, v) :: fields =>
      if decide (k = "append") then match v with TBool b => attributes fields (Some b) | _ => inr (ErrOther "unable to cast append to bool") end
      else inr (ErrOther "unsupported key in map")
  end.

(** The strings and the attribute of the items. *)
Fixpoint slice_items (items : list toml_value) (loadedStrings : list string) (append : option bool) : list string * option bool + error :=
  match items with
  | [] => inl (loadedStrings, append)
  | TString s :: items => slice_items items (loadedStrings ++ [s])%list append
  | TTable fields :: items => match attributes fields append with inl append => slice_items items loadedStrings append | inr e => inr e end
  | _ :: _ => inr (ErrOther "unsupported item in attributed string slice")
  end.

Definition UnmarshalTOML (a : Slice) (data : toml_value) : Slice + error :=
  match data with
  | TArray items =>
      match slice_items items [] (Append a) with
      | inr e => inr e
      | inl (loadedStrings, append) =>
          inl (mkSlice (if decide (append = Some true) then Values a ++ loadedStrings else loadedStrings)%list append)
      end
  | _ => inr (ErrOther "unable to cast to interface array")
  end.

(** The value that is given to the encoder. *)
Definition MarshalTOML (a : Slice) : toml_value :=
  TArray ((TString <$> Values a) ++ (match Append a with Some b => [TTable [("append", TBool b)]] | None => [] end)).
End ConfigFile.
