(* ===== verification/ConfigFileFacts.v ===== *)
(** * Theorems about configuration files

    Which files are read, in which order, and that whatever the body of the
    loop maintains holds of its result. *)

From stdpp Require Import sorting.
From S2P Require Import Prelude World Strconv StoreUtil DockerReference ConfigFile.
Local Open Scope string_scope.

Module ConfigFileFacts.
Import DockerTransport ConfigFile.

(** ** What holds of every value that is returned *)

Definition yields {S A} (I : A → Prop) (m : M S A) : Prop := ∀ s s' a, m s = (s', Ret a) → I a.

Section Yields.
Context {S : Type}.

Lemma yields_ret {A} (I : A → Prop) a : I a → yields (S := S) I (mret a).
Proof. by intros ? s s' a' [= _ <-]. Qed.
Lemma yields_fail {A} (I : A → Prop) e : yields (S := S) I (fail e).
Proof. by intros s s' a. Qed.
Lemma yields_stop {A} (I : A → Prop) c : yields (S := S) I (stop c).
Proof. by intros s s' a. Qed.
Lemma yields_any {A} (m : M S A) : yields (λ _, True) m.
Proof. by intros s s' a. Qed.
Lemma yields_bind {A B} (J : A → Prop) (I : B → Prop) (m : M S A) (f : A → M S B) :
  yields J m → (∀ a, J a → yields I (f a)) → yields I (m ≫= f).
Proof. intros Hm Hf s s' b (t & a & Em & Ef)%run_bind_ret. eapply Hf; [by eapply Hm|done]. Qed.
Lemma yields_try {A} (I : A → Prop) (m : M S A) : yields I m → yields (λ r, match r with inl a => I a | inr _ => True end) (try m).
Proof.
  intros Hm s s' r. unfold try. destruct (m s) as [t [a|e|c]] eqn:E; intros [= _ <-]; [by eapply Hm|done].
Qed.
Lemma yields_foldM {A X} (I : A → Prop) (body : A → X → M S A) a l :
  I a → (∀ a x, I a → yields I (body a x)) → yields I (foldM body a l).
Proof.
  intros Ha Hb. revert a Ha. induction l as [|x l IH]; intros a Ha; simpl; [by apply yields_ret|].
  apply (yields_bind I); [by apply Hb|done].
Qed.
Lemma yields_mono {A} (I J : A → Prop) (m : M S A) : yields I m → (∀ a, I a → J a) → yields J m.
Proof. intros Hm HIJ s s' a E. by eapply HIJ, Hm. Qed.
End Yields.

(** ** The iterator *)

(** [K a found]: what holds of the value, and of the flag that tells whether a
    file was read. *)
Section Iterator.
Context `{Environment} {A : Type} (body : A → string → M World A) (K : A → bool → Prop).
Hypothesis body_keeps : ∀ a b path, K a b → yields (λ a', K a' true) (body a path).

Lemma yieldAndClose_keeps a b path : K a b → yields (λ a', K a' true) (yieldAndClose body a path).
Proof.
  intros Ha. eapply yields_bind; [by eapply yields_try, body_keeps|]. intros r Hr. eapply yields_bind; [apply yields_any|].
  intros c _. destruct r as [a'|e]; [|apply yields_fail]. destruct c; [by apply yields_ret|apply yields_fail].
Qed.

Definition K' (x : A * bool) : Prop := K x.1 x.2.

Lemma read_main_keeps b a files : K a false → yields K' (read_main body b a files).
Proof.
  intros Ha. induction files as [|f files IH]; simpl; [by apply yields_ret|]. case_decide; [done|].
  eapply yields_bind; [apply yields_any|]. intros [?|e] _; [|case_match; [done|apply yields_fail]].
  eapply yields_bind; [by eapply yieldAndClose_keeps|]. intros a' Ha'. by apply yields_ret.
Qed.

Lemma read_dropin_files_keeps paths suffix x : K' x → yields K' (read_dropin_files body paths suffix x).
Proof.
  intros Hx. unfold read_dropin_files. case_decide; [by apply yields_ret|]. eapply yields_bind; [apply yields_any|]. intros files _.
  apply yields_foldM; [done|]. intros y f Hy. eapply yields_bind; [apply yields_any|].
  intros [?|e] _; [|case_match; [by apply yields_ret|apply yields_fail]].
  eapply yields_bind; [by eapply yieldAndClose_keeps|]. intros a' Ha'. by apply yields_ret.
Qed.

Lemma read_rest_keeps paths conf x :
  K' x → yields (λ r, ∃ b, K r.1 b ∧ (ErrorIfNotFound conf = true → b = true)) (read_rest body paths conf x).
Proof.
  intros Hx. apply (yields_bind (λ y, K' y.1 ∧ ErrorIfNotFound y.2 = ErrorIfNotFound conf)).
  { case_decide; [by apply yields_ret|]. apply (yields_bind (K' ∘ fst)); [|intros [y l] Hy; by apply yields_ret].
    apply yields_foldM; [done|]. intros [y l] m Hy. eapply yields_bind; [apply yields_any|]. intros f _.
    eapply yields_bind; [by eapply yieldAndClose_keeps|]. intros a' Ha'. by apply yields_ret. }
  clear x Hx. intros [x conf'] [Hx Hc]. simpl in *. apply (yields_bind K').
  { case_decide; [by apply yields_ret|]. eapply yields_bind; [apply yields_any|]. intros _ _.
    eapply yields_bind; [by eapply yieldAndClose_keeps|]. intros a' Ha'. by apply yields_ret. }
  intros y Hy. rewrite Hc. destruct (ErrorIfNotFound conf && negb y.2) eqn:E; [apply yields_fail|]. apply yields_ret. exists y.2. split; [done|].
  intros Ht. rewrite Ht in E. by destruct y.2.
Qed.

(** Whatever every round of the loop keeps holds in the end; and a file was
    read if one was required. *)
Lemma Read_found conf a : K a false → yields (λ r, ∃ b, K r.1 b ∧ (ErrorIfNotFound conf = true → b = true)) (Read body conf a).
Proof.
  intros Ha. unfold Read. destruct (getSearchPaths conf) as [[paths b]|e]; [|apply yields_fail].
  eapply yields_bind; [by apply read_main_keeps|]. intros x Hx.
  eapply yields_bind; [by apply read_dropin_files_keeps|]. intros y Hy. by apply read_rest_keeps.
Qed.
End Iterator.

Lemma Read_keeps `{Environment} {A} (body : A → string → M World A) (I : A → Prop) conf a :
  (∀ a path, I a → yields I (body a path)) → I a → yields (I ∘ fst) (Read body conf a).
Proof.
  intros Hb Ha. eapply yields_mono; [apply (Read_found body (λ a _, I a)); [|done]; intros; by apply Hb|]. by intros x (b & ? & _).
Qed.

(** ** The order of the files *)

Lemma sorted_keys_spec {V} (m : gmap string V) :
  StronglySorted String.le (sorted_keys m) ∧ NoDup (sorted_keys m) ∧ ∀ k, k ∈ sorted_keys m ↔ is_Some (m !! k).
Proof.
  unfold sorted_keys. split; [apply StronglySorted_merge_sort; apply _|]. rewrite merge_sort_Permutation. split; [apply NoDup_elements|].
  intros k. by rewrite merge_sort_Permutation, elem_of_elements, elem_of_dom.
Qed.

Section Order.
Context (w : World) (suffix : string).
Hypothesis no_faults : w_faults w = [].

Lemma run_syscall {A} (m : M World A) : syscall m w = m w.
Proof. by apply syscall_ok. Qed.

(** A drop-in file of the directory. *)
Definition has_dropin (dir name : string) : Prop := (name, false) ∈ dir_entries dir w ∧ HasSuffix name suffix = true.
#[local] Instance has_dropin_dec dir name : Decision (has_dropin dir name).
Proof. unfold has_dropin. apply _. Defined.

(** The first of the directories that has the file. *)
Fixpoint dropin_dir (paths : list string) (name : string) : option string :=
  match paths with
  | [] => None
  | d :: paths => if decide (has_dropin d name) then Some d else dropin_dir paths name
  end.

Lemma dropin_dir_some paths name : is_Some (dropin_dir paths name) ↔ ∃ d, d ∈ paths ∧ has_dropin d name.
Proof.
  induction paths as [|d paths IH]; simpl; [split; [by intros []|by intros (d & ?%elem_of_nil & _)]|]. case_decide as Hd.
  - split; [intros _; exists d; split; [left|done]|by eauto].
  - rewrite IH. split; [intros (d' & ? & ?); exists d'; split; [by right|done]|]. intros (d' & [->|?]%elem_of_cons & ?); [done|by eauto].
Qed.

Lemma entries_lookup d l (m : gmap string string) n :
  let m' := foldl (add_dropin suffix d) m l in
  ((n, false) ∈ l ∧ HasSuffix n suffix = true → m' !! n = Some (filepath_Join [d; n])) ∧
  (¬ ((n, false) ∈ l ∧ HasSuffix n suffix = true) → m' !! n = m !! n).
Proof.
  revert m. induction l as [|[e b] l IH]; intros m; simpl; [by split; [intros [?%elem_of_nil ?]|]|].
  destruct (IH (add_dropin suffix d m (e, b))) as [H1 H2]. destruct (decide ((n, false) ∈ l ∧ HasSuffix n suffix = true)) as [Hin|Hn].
  { rewrite H1 by done. split; [done|]. intros []. destruct Hin. by split; [right|]. }
  rewrite H2 by done. unfold add_dropin. simpl. destruct (negb b && HasSuffix e suffix) eqn:E.
  - apply andb_prop in E as [->%negb_true_iff He]. destruct (decide (n = e)) as [->|Hne].
    + rewrite lookup_insert_eq. split; [done|]. intros []. by split; [left|].
    + rewrite lookup_insert_ne by done. split; [|done]. intros [[[= ->]|?]%elem_of_cons ?]; [done|]. by destruct Hn.
  - split; [|done]. intros [[[= <- <-]|?]%elem_of_cons Hs]; [by rewrite Hs in E|]. by destruct Hn.
Qed.

Lemma read_dropins_lookup m d :
  ∃ m', read_dropins suffix m d w = (w, Ret m') ∧ ∀ n, m' !! n = if decide (has_dropin d n) then Some (filepath_Join [d; n]) else m !! n.
Proof.
  unfold read_dropins. rewrite run_try. unfold os_ReadDir. rewrite run_syscall. unfold gets, mbind, M_bind.
  pose proof (entries_lookup d (dir_entries d w) m) as He.
  case_decide as Hd; eexists; (split; [done|]); intros n.
  - destruct (He n) as [H1 H2]. case_decide as Hn; [by apply H1|by apply H2].
  - rewrite decide_False; [done|]. intros [Hin _]. apply Hd. right. intros E. rewrite E in Hin. by apply elem_of_nil in Hin.
Qed.

Lemma foldM_snoc {S A X} (body : A → X → M S A) a l x (s : S) :
  foldM body a (l ++ [x]) s = (foldM body a l ≫= λ a, body a x) s.
Proof.
  revert a s. induction l as [|y l IH]; intros a s; simpl; unfold mbind, M_bind in *.
  - simpl. by destruct (body a x s) as [s' [?|?|?]].
  - destruct (body a y s) as [s' [?|?|?]]; [apply IH|done|done].
Qed.

Lemma dropins_map paths :
  ∃ m, foldM (read_dropins suffix) ∅ (reverse paths) w = (w, Ret m) ∧ ∀ n, m !! n = (λ d, filepath_Join [d; n]) <$> dropin_dir paths n.
Proof.
  induction paths as [|d paths IH]; [by exists ∅|]. destruct IH as (m & Em & Hm). destruct (read_dropins_lookup m d) as (m' & Em' & Hm').
  exists m'. split; [rewrite reverse_cons, foldM_snoc; unfold mbind, M_bind; by rewrite Em|].
  intros n. rewrite Hm', Hm. simpl. by case_decide.
Qed.

(** The drop-in files are read in the order of their names, wherever they
    are, and a file in a directory hides those of the same name in directories
    of lower priority. *)
Lemma readDropInsFromPaths_spec paths :
  ∃ names,
    readDropInsFromPaths paths suffix w = (w, Ret ((λ n, filepath_Join [default "" (dropin_dir paths n); n]) <$> names)) ∧
    StronglySorted String.le names ∧ NoDup names ∧ ∀ n, n ∈ names ↔ is_Some (dropin_dir paths n).
Proof.
  destruct (dropins_map paths) as (m & Em & Hm).
  destruct (sorted_keys_spec m) as (Hs & Hnd & Hk). exists (sorted_keys m). split_and!; [|done..|].
  - unfold readDropInsFromPaths. unfold mbind, M_bind. rewrite Em. simpl. unfold mret, M_ret. do 2 f_equal.
    assert (∀ l : list string, (∀ k, k ∈ l → is_Some (m !! k)) → omap (λ n, m !! n) l = (λ n, filepath_Join [default "" (dropin_dir paths n); n]) <$> l) as Ho.
    { induction l as [|k l IH]; intros Hl; [done|]. simpl. destruct (Hl k) as [v Hv]; [left|]. rewrite Hv. rewrite Hm in Hv.
      destruct (dropin_dir paths k) as [d|]; [|done]. injection Hv as <-. f_equal. apply IH. intros k' ?. apply Hl. by right. }
    apply Ho. intros k. by rewrite Hk.
  - intros n. by rewrite Hk, Hm, fmap_is_Some.
Qed.

(** *** The files that are read *)

Context `{Environment} {A : Type} (f : A → string → string → A + error).

Definition ret_or_err {B} (r : B + error) : outcome B := match r with inl b => Ret b | inr e => Err e end.

Definition read_file (a : A) (path : string) : M World A :=
  data ← ReadAll path; match f a path data with inl a => mret a | inr e => fail e end.
Definition contents_read (a : A) (path : string) : A + error :=
  match w_files w !! path with Some d => f a path d | None => inr (ErrOther "is a directory") end.
Fixpoint all_read (a : A) (files : list string) : A + error :=
  match files with [] => inl a | p :: files => match contents_read a p with inl a => all_read a files | inr e => inr e end end.

Definition present (p : string) : Prop := is_Some (w_files w !! p) ∨ p ∈ w_dirs w.
#[local] Instance present_dec p : Decision (present p).
Proof. unfold present. apply _. Defined.

(** The first main file that is there. *)
Fixpoint main_file (files : list string) : list string :=
  match files with
  | [] => []
  | p :: files => if decide (p ≠ "" ∧ present p) then [p] else main_file files
  end.

Lemma main_file_one files p l : main_file files = p :: l → l = [].
Proof. induction files as [|q files IH]; simpl; [done|]. case_decide; [by intros [= _ <-]|done]. Qed.

Lemma run_Open p : os_Open p w = (w, if decide (present p) then Ret tt else Err (ErrOS ENOENT)).
Proof. unfold os_Open. rewrite run_syscall. unfold mbind, M_bind, gets. simpl. unfold present. by repeat case_decide. Qed.

Lemma run_yield a p : yieldAndClose read_file a p w = (w, ret_or_err (contents_read a p)).
Proof.
  unfold yieldAndClose, contents_read, read_file, ReadAll. rewrite run_try. unfold mbind at 1, M_bind at 1. rewrite run_syscall.
  unfold mbind at 1, M_bind at 1, gets. destruct (w_files w !! p) as [d|]; simpl.
  - unfold os_Close. destruct (f a p d); simpl; rewrite run_try, run_syscall; done.
  - unfold os_Close. by rewrite run_try, run_syscall.
Qed.

Lemma run_main a files :
  read_main read_file true a files w =
  (w, match main_file files with [] => Ret (a, false) | p :: _ => ret_or_err (match contents_read a p with inl a => inl (a, true) | inr e => inr e end) end).
Proof.
  induction files as [|p files IH]; simpl; [done|]. destruct (decide (p = "")) as [->|Hp]; [by rewrite decide_False by (by intros [? ?])|].
  rewrite run_try, run_Open. destruct (decide (present p)) as [Hpr|Hpr].
  - rewrite decide_True by done. unfold mbind, M_bind. rewrite run_yield. by destruct (contents_read a p).
  - rewrite decide_False by tauto. exact IH.
Qed.

Lemma run_dropin_files x files :
  foldM (read_dropin read_file) x files w =
  (w, ret_or_err (match all_read x.1 (filter present files) with
                  | inl a => inl (a, x.2 || bool_decide (filter present files ≠ [])) | inr e => inr e end)).
Proof.
  revert x. induction files as [|p files IH]; intros [a b]; simpl; [by rewrite orb_false_r|].
  unfold mbind at 1, M_bind at 1. unfold read_dropin at 1. rewrite run_try, run_Open. rewrite filter_cons. destruct (decide (present p)) as [Hp|Hp].
  - unfold mbind at 1, M_bind at 1. rewrite run_yield. simpl. destruct (contents_read a p) as [a'|e]; simpl; [|done].
    rewrite IH. simpl. by rewrite orb_true_r.
  - simpl. apply IH.
Qed.

(** The path of a drop-in file: in the first of the directories that has it. *)
Definition dropin_path (dirs : list string) (name : string) : string := filepath_Join [default "" (dropin_dir dirs name); name].

(** C30: As long as no system call fails, and without modules, without an
    override file from the environment and without a main file that the caller
    or the environment chose, the iterator runs the body on the first main file
    of the search path that exists and then on the drop-in files, and on nothing
    else: one for each name with the suffix that occurs in one of the
    directories, in the order of the names, from the first directory that has
    it.  Without a file it fails if one is required; an error of the body ends
    it. *)
Theorem Read_files conf paths a :
  getSearchPaths conf = inl (paths, true) → Modules conf = [] → ExtraOverrideFile paths = "" → suffix = "." +:+ Extension conf →
  ∃ names, StronglySorted String.le names ∧ NoDup names ∧ (∀ n, n ∈ names ↔ ∃ d, d ∈ DropInDirectories paths ∧ has_dropin d n) ∧
    let files := (main_file (MainFiles paths) ++ filter present (dropin_path (DropInDirectories paths) <$> names))%list in
    Read read_file conf a w =
    (w, match all_read a files with
        | inr e => Err e
        | inl a' => if ErrorIfNotFound conf && bool_decide (files = []) then Err ErrConfigFileNotFound else Ret (a', conf)
        end).
Proof.
  intros Hp Hm Ho Es. destruct (readDropInsFromPaths_spec (DropInDirectories paths)) as (names & Ed & Hsort & Hnd & Hin).
  fold (dropin_path (DropInDirectories paths)) in Ed. exists names. split; [done|]. split; [done|].
  split; [intros n; by rewrite Hin, dropin_dir_some|]. set (dropins := dropin_path (DropInDirectories paths) <$> names) in *. intros files.
  assert (DropInDirectories paths = [] → dropins = []) as Hnil.
  { intros E. unfold dropins. destruct names as [|n names]; [done|]. exfalso. assert (is_Some (dropin_dir (DropInDirectories paths) n)) as [d Hd] by (apply Hin; left).
    by rewrite E in Hd. }
  assert (∀ x, (read_dropin_files read_file paths suffix x ≫= read_rest read_file paths conf) w =
    (w, match all_read x.1 (filter present dropins) with
        | inr e => Err e
        | inl a' => if ErrorIfNotFound conf && negb (x.2 || bool_decide (filter present dropins ≠ [])) then Err ErrConfigFileNotFound else Ret (a', conf)
        end)) as Erest.
  { intros x. assert (read_dropin_files read_file paths suffix x w = foldM (read_dropin read_file) x dropins w) as E.
    { unfold read_dropin_files. case_decide as Hd; [by rewrite Hnil|]. unfold mbind, M_bind. by rewrite Ed. }
    unfold mbind, M_bind. rewrite E, run_dropin_files. destruct (all_read x.1 _) as [a'|e]; [|done]. simpl.
    unfold read_rest. rewrite !decide_True by done. unfold mbind, M_bind. simpl. rewrite decide_True by done. simpl. by destruct (ErrorIfNotFound conf && _). }
  unfold Read. rewrite Hp, <- Es. unfold mbind at 1, M_bind at 1. rewrite run_main.
  unfold files. destruct (main_file (MainFiles paths)) as [|p l] eqn:Em; simpl.
  - etrans; [apply (Erest (a, false))|]. simpl. destruct (all_read a _); [|done]. by repeat case_bool_decide.
  - rewrite (main_file_one _ _ _ Em). simpl. destruct (contents_read a p) as [a'|e]; simpl; [|done].
    etrans; [apply (Erest (a', true))|]. simpl. destruct (all_read a' _); [|done]. by rewrite !andb_false_r.
Qed.
End Order.

(** ** Arrays *)

Lemma slice_strings values rest l a : slice_items ((TString <$> values) ++ rest) l a = slice_items rest (l ++ values) a.
Proof.
  revert l. induction values as [|v values IH]; intros l; simpl; [by rewrite app_nil_r|]. by rewrite IH, <- app_assoc.
Qed.

(** What is written is read back, into an empty array. *)
Theorem Slice_roundtrip a : UnmarshalTOML (NewSlice []) (MarshalTOML a) = inl a.
Proof.
  destruct a as [values [b|]]; unfold MarshalTOML; simpl; rewrite slice_strings; simpl; by destruct b || done.
Qed.

(** The values of one file after the other. *)
Fixpoint read_slices (a : Slice) (files : list (list string * option bool)) : Slice + error :=
  match files with
  | [] => inl a
  | (values, append) :: files =>
      match UnmarshalTOML a (MarshalTOML (mkSlice values append)) with inl a => read_slices a files | inr e => inr e end
  end.

(** The attribute counts for its file and for all that follow, until it is
    set again; each file that does not append starts afresh. *)
Fixpoint slices_spec (values : list string) (append : option bool) (files : list (list string * option bool)) : Slice :=
  match files with
  | [] => mkSlice values append
  | (l, a) :: files =>
      let append := match a with Some b => Some b | None => append end in
      slices_spec (match append with Some true => (values ++ l)%list | _ => l end) append files
  end.

Theorem read_slices_spec a files : read_slices a files = inl (slices_spec (Values a) (Append a) files).
Proof.
  revert a. induction files as [|[l b] files IH]; intros [values append]; simpl; [done|].
  unfold MarshalTOML. simpl. rewrite slice_strings. simpl.
  destruct b as [[]|]; simpl; [| |destruct append as [[]|]]; by rewrite IH.
Qed.

(** ** Witnesses *)

#[local] Instance demo_environment : Environment := {
  LookupEnv name := if decide (name = "HOME") then Some "/root" else None;
  lookupHomeDir := inr (ErrOther "unknown user");
  systemConfigPath := builtinSystemConfigPath; adminOverrideConfigPath := builtinAdminOverrideConfigPath
}.

Definition demo_registries : File := mkFile "registries" "conf" "" "" "" "" false false false 0 [] true.

Definition demo_config : World :=
  set_files {[ "/etc/containers/registries.conf" := "main"; "/usr/share/containers/registries.conf" := "vendor";
               "/etc/containers/registries.conf.d/b.conf" := "b"; "/usr/share/containers/registries.conf.d/b.conf" := "hidden";
               "/usr/share/containers/registries.conf.d/a.conf" := "a"; "/etc/containers/registries.conf.d/c" := "ignored" ]}
    (mkWorld ∅ ∅ [] (λ _, zero) 0 [] 1 0 noMeta).

Definition demo_collect (l : list string) (path data : string) : list string + error := inl (l ++ [data])%list.
Definition demo_dirs : list string := ["/etc/containers/registries.conf.d"; "/usr/share/containers/registries.conf.d"].

Lemma ret_inj {S A} (s s' : S) (a b : A) : (s, Ret a) = (s', Ret b) → a = b.
Proof. by intros [= _ ->]. Qed.

Lemma demo_dropins :
  readDropInsFromPaths demo_dirs ".conf" demo_config =
  (demo_config, Ret ["/usr/share/containers/registries.conf.d/a.conf"; "/etc/containers/registries.conf.d/b.conf"]).
Proof. vm_compute. reflexivity. Qed.

Lemma readDropInsFromPaths_spec_witness :
  ∃ names, (λ n, filepath_Join [default "" (dropin_dir demo_config ".conf" demo_dirs n); n]) <$> names =
             ["/usr/share/containers/registries.conf.d/a.conf"; "/etc/containers/registries.conf.d/b.conf"] ∧
           StronglySorted String.le names ∧ NoDup names.
Proof.
  destruct (readDropInsFromPaths_spec demo_config ".conf" eq_refl demo_dirs) as (names & E & Hs & Hnd & _).
  exists names. rewrite demo_dropins in E. apply ret_inj in E. by split_and!.
Defined.

Definition demo_paths : SearchPaths :=
  mkSearchPaths ["/root/.config/containers/registries.conf"; "/etc/containers/registries.conf"; "/usr/share/containers/registries.conf"]
    ["/root/.config/containers/registries.conf.d"; "/etc/containers/registries.rootful.conf.d"; "/etc/containers/registries.conf.d";
     "/usr/share/containers/registries.rootful.conf.d"; "/usr/share/containers/registries.conf.d"] [] "".
Lemma demo_search : getSearchPaths demo_registries = inl (demo_paths, true).
Proof. vm_compute. reflexivity. Qed.

Lemma Read_files_witness :
  Read (read_file demo_collect) demo_registries [] demo_config = (demo_config, Ret (["main"; "a"; "b"], demo_registries)) ∧
  ∃ names, StronglySorted String.le names ∧ "a.conf" ∈ names ∧ "b.conf" ∈ names.
Proof.
  split; [vm_compute; reflexivity|].
  destruct (Read_files demo_config ".conf" eq_refl demo_collect demo_registries demo_paths [] demo_search eq_refl eq_refl eq_refl) as (names & Hs & _ & Hn & _).
  exists names. split; [exact Hs|].
  split; apply Hn; [exists "/usr/share/containers/registries.conf.d"|exists "/etc/containers/registries.conf.d"];
    apply (bool_decide_unpack _); vm_compute; reflexivity.
Defined.
End ConfigFileFacts.
