(* ===== verification/SysRegistries.v ===== *)
(** * Registries and mirrors: [image/pkg/sysregistriesv2]

    The configuration of registries ([system_registries_v2.go]): which registry
    and which mirrors a name stands for; and the aliases for short names
    ([shortnames.go]), from the configuration and from a file that the library
    writes. *)

From stdpp Require Import sorting.
From S2P Require Import Prelude World Strconv StoreUtil LockFile GoRegexp DockerReference ConfigFile.
Local Open Scope string_scope.

Module SysRegistries.
Import Regexp DockerReference ConfigFile.

Definition AuthenticationFileHelper := "containers-auth.json".
Definition MirrorAll := "all".
Definition MirrorByDigestOnly := "digest-only".
Definition MirrorByTagOnly := "tag-only".

Record Endpoint := mkEndpoint {
  Location : string;
  Insecure : bool;
  PullFromMirror : string;
  NamespaceProxy : string
}.

Record Registry := mkRegistry {
  Prefix : string;
  Endpoint_ : Endpoint;                       (* embedded *)
  Mirrors : list Endpoint;
  Blocked : bool;
  r_MirrorByDigestOnly : bool
}.

Record PullSource := mkPullSource { ps_Endpoint : Endpoint; ps_Reference : Named }.

#[global] Instance Endpoint_eq_dec : EqDecision Endpoint.
Proof. solve_decision. Defined.
#[global] Instance Registry_eq_dec : EqDecision Registry.
Proof. solve_decision. Defined.

(** [None] is nil, a missing array of the file. *)
Record V2RegistriesConf := mkV2 {
  Registries : option (list Registry);
  UnqualifiedSearchRegistries : option (list string);
  CredentialHelpers : option (list string);
  ShortNameMode : string;
  AdditionalLayerStoreAuthHelper : string;
  Aliases : gomap string                      (* shortNameAliasConf *)
}.
#[global] Instance V2_eq_dec : EqDecision V2RegistriesConf.
Proof. solve_decision. Defined.

Record V1RegistriesConf := mkV1 { Search : option (list string); v1_Insecure : option (list string); Block : option (list string) }.
#[global] Instance V1_eq_dec : EqDecision V1RegistriesConf.
Proof. solve_decision. Defined.

Inductive shortNameModes := ShortNameModeInvalid | ShortNameModeDisabled | ShortNameModePermissive | ShortNameModeEnforcing.
#[global] Instance shortNameModes_eq_dec : EqDecision shortNameModes.
Proof. solve_decision. Defined.

(** The value of an alias ([None] if it was reset), and the file it is from. *)
Record alias := mkAlias { a_value : option Named; configOrigin : string }.

Record parsedConfig := mkParsed {
  partialV2 : V2RegistriesConf;
  unqualifiedSearchRegistriesOrigin : string;
  shortNameMode : shortNameModes;
  aliasCache : gmap string alias
}.

Definition InvalidRegistries {A} (s : string) : A + error := inr (ErrOther s).

(** ** Matching *)

(** [strings.TrimRight(s, "/")] *)
Fixpoint TrimSlashes (s : string) : string :=
  match s with
  | EmptyString => EmptyString
  | String c t => match TrimSlashes t with EmptyString => if Ascii.eqb c "/" then EmptyString else String c EmptyString | t => String c t end
  end.

(** [strings.Index(s, sub)] *)
Fixpoint Index (s sub : string) : option nat :=
  if String.prefix sub s then Some 0
  else match s with EmptyString => None | String _ t => option_map S (Index t sub) end.

Definition boundary (c : ascii) : bool := one_of ":/@" c.

(** The length of the part of [ref] that matches; [None] is -1. *)
Definition refMatchingSubdomainPrefix (ref prefix : string) : option nat :=
  let suffix := string_drop 1 prefix in
  match Index ref suffix with
  | None => None
  | Some index =>
      if contains_char "/" (String.substring 0 index ref) then None
      else
        let index := index + String.length suffix in
        match string_drop index ref with
        | EmptyString => Some index
        | String c _ => if boundary c then Some index else None
        end
  end.

Definition refMatchingPrefix (ref prefix : string) : option nat :=
  if String.prefix "*." prefix then refMatchingSubdomainPrefix ref prefix
  else if decide (String.length ref < String.length prefix) then None
  else if decide (String.length ref = String.length prefix) then (if decide (ref = prefix) then Some (String.length prefix) else None)
  else if negb (String.prefix prefix ref) then None
  else match string_drop (String.length prefix) ref with
       | String c _ => if boundary c then Some (String.length prefix) else None
       | EmptyString => None
       end.

Section Registries.
Context `{Digests} `{Unicode}.

Definition rewriteReference (e : Endpoint) (ref : Named) (prefix : string) : Named + error :=
  let refString := String_ ref in
  match refMatchingPrefix refString prefix with
  | None => inr (ErrOther "invalid prefix for reference")
  | Some prefixLen =>
      if decide (Location e = "") then
        if negb (String.prefix "*." prefix) then inr (ErrOther "invalid prefix for empty location, should be in the format: *.example.com")
        else inl ref
      else ParseNamed (Location e +:+ string_drop prefixLen refString)
  end.

(** The mirrors that may be used for the reference. *)
Definition usable_mirrors (r : Registry) (isDigested : bool) : list Endpoint :=
  if r_MirrorByDigestOnly r then (if isDigested then Mirrors r else [])
  else filter (λ m, ¬ (PullFromMirror m = MirrorByDigestOnly ∧ isDigested = false) ∧ ¬ (PullFromMirror m = MirrorByTagOnly ∧ isDigested = true)) (Mirrors r).

Fixpoint pull_sources (endpoints : list Endpoint) (ref : Named) (prefix : string) : list PullSource + error :=
  match endpoints with
  | [] => inl []
  | ep :: endpoints =>
      match rewriteReference ep ref prefix with
      | inr e => inr e
      | inl rewritten => match pull_sources endpoints ref prefix with inl l => inl (mkPullSource ep rewritten :: l) | inr e => inr e end
      end
  end.

Definition PullSourcesFromReference (r : Registry) (ref : Named) : list PullSource + error :=
  pull_sources (usable_mirrors r (bool_decide (is_Some (Digest ref))) ++ [Endpoint_ r]) ref (Prefix r).

Definition findRegistryWithParsedConfig (config : parsedConfig) (ref : string) : option Registry :=
  (foldl (λ '(reg, prefixLen) r,
      if bool_decide (is_Some (refMatchingPrefix ref (Prefix r))) && bool_decide (prefixLen < String.length (Prefix r))
      then (Some r, String.length (Prefix r)) else (reg, prefixLen))
     (None, 0) (default [] (Registries (partialV2 config)))).1.

(** ** The contents of a file *)

Definition parseLocation (input : string) : string + error :=
  let trimmed := TrimSlashes input in
  if String.prefix "http://" trimmed || String.prefix "https://" trimmed then InvalidRegistries "invalid location: URI schemes are not supported"
  else inl trimmed.

Fixpoint mapE {A B} (f : A → B + error) (l : list A) : list B + error :=
  match l with
  | [] => inl []
  | x :: l => match f x with inr e => inr e | inl y => match mapE f l with inl l => inl (y :: l) | inr e => inr e end end
  end.

Definition set_Location (l : string) (e : Endpoint) : Endpoint := mkEndpoint l (Insecure e) (PullFromMirror e) (NamespaceProxy e).

Definition post_mirror (digestOnly : bool) (mir : Endpoint) : Endpoint + error :=
  match parseLocation (Location mir) with
  | inr e => inr e
  | inl loc =>
      if decide (loc = "") then InvalidRegistries "invalid condition: mirror location is unset"
      else if digestOnly && bool_decide (PullFromMirror mir ≠ "") then
        InvalidRegistries "cannot set mirror usage mirror-by-digest-only for the registry and pull-from-mirror for per-mirror at the same time"
      else if decide (PullFromMirror mir ∉ [""; MirrorAll; MirrorByDigestOnly; MirrorByTagOnly]) then
        InvalidRegistries "unsupported pull-from-mirror value"
      else inl (set_Location loc mir)
  end.

Definition post_prefix (prefix location : string) : string + error :=
  if decide (prefix = "") then
    if decide (location = "") then InvalidRegistries "invalid condition: both location and prefix are unset" else inl location
  else match parseLocation prefix with
       | inr e => inr e
       | inl p =>
           if negb (String.prefix "*." p) && bool_decide (location = "") then
             InvalidRegistries "invalid condition: location is unset and prefix is not in the format: *.example.com"
           else inl p
       end.

Definition post_registry (reg : Registry) : Registry + error :=
  match parseLocation (Location (Endpoint_ reg)) with
  | inr e => inr e
  | inl loc =>
      match post_prefix (Prefix reg) loc with
      | inr e => inr e
      | inl prefix =>
          if decide (PullFromMirror (Endpoint_ reg) ≠ "") then inr (ErrOther "pull-from-mirror must not be set for a non-mirror registry")
          else match mapE (post_mirror (r_MirrorByDigestOnly reg)) (Mirrors reg) with
               | inr e => inr e
               | inl mirrors => inl (mkRegistry prefix (set_Location loc (Endpoint_ reg)) mirrors (Blocked reg) (r_MirrorByDigestOnly reg))
               end
      end
  end.

Definition regKey (reg : Registry) : string := if decide (Location (Endpoint_ reg) = "") then Prefix reg else Location (Endpoint_ reg).

Fixpoint conflict_with (reg : Registry) (others : list Registry) : option error :=
  match others with
  | [] => None
  | other :: others =>
      if negb (Bool.eqb (Insecure (Endpoint_ reg)) (Insecure (Endpoint_ other))) then Some (ErrOther "registry is defined multiple times with conflicting 'insecure' setting")
      else if negb (Bool.eqb (Blocked reg) (Blocked other)) then Some (ErrOther "registry is defined multiple times with conflicting 'blocked' setting")
      else conflict_with reg others
  end.

Definition add_to_regMap (m : gmap string (list Registry)) (reg : Registry) : gmap string (list Registry) :=
  <[regKey reg := (default [] (m !! regKey reg) ++ [reg])%list]> m.

Fixpoint conflicts (regMap : gmap string (list Registry)) (regs : list Registry) : option error :=
  match regs with
  | [] => None
  | reg :: regs =>
      match regMap !! regKey reg with
      | None => Some (ErrOther "Internal error in V2RegistriesConf.PostProcess: entry in regMap is missing")
      | Some others => match conflict_with reg others with Some e => Some e | None => conflicts regMap regs end
      end
  end.

Definition search_registry (s : string) : string + error :=
  match parseLocation s with
  | inr e => inr e
  | inl registry => if MatchString domain_ registry then inl registry else InvalidRegistries "Invalid unqualified-search-registries entry"
  end.

Definition search_registries (l : option (list string)) : option (list string) + error :=
  match l with
  | None => inl None
  | Some l => match mapE search_registry l with inl l => inl (Some l) | inr e => inr e end
  end.

(** The registries by prefix: the first one wins, or the last one. *)
Definition first_wins (m : gmap string Registry) (r : Registry) : gmap string Registry :=
  match m !! Prefix r with Some _ => m | None => <[Prefix r := r]> m end.
Definition last_wins (m : gmap string Registry) (r : Registry) : gmap string Registry := <[Prefix r := r]> m.
Definition by_prefix (m : gmap string Registry) : list Registry := omap (λ p, m !! p) (sorted_keys m).

Definition postProcessRegistries (config : V2RegistriesConf) : V2RegistriesConf + error :=
  match mapE post_registry (default [] (Registries config)) with
  | inr e => inr e
  | inl regs =>
      match conflicts (foldl add_to_regMap ∅ regs) regs with
      | Some e => inr e
      | None =>
          match search_registries (UnqualifiedSearchRegistries config) with
          | inr e => inr e
          | inl search =>
              inl (mkV2 (Some (by_prefix (foldl first_wins ∅ regs))) search (CredentialHelpers config) (ShortNameMode config)
                     (AdditionalLayerStoreAuthHelper config) (Aliases config))
          end
      end
  end.
(** *** The first version of the format *)

Definition zeroV2 : V2RegistriesConf := mkV2 None None None "" "" None.
Definition nil_if_empty {A} (l : option (list A)) : option (list A) := match l with Some [] => None | _ => l end.
Definition nil_if_no_key {A} (m : gomap A) : gomap A := match m with Some m => if decide (dom m = ∅) then None else Some m | None => None end.

Definition hasSetFieldV2 (config : V2RegistriesConf) : bool := bool_decide (config ≠ zeroV2).
Definition NonemptyV2 (config : V2RegistriesConf) : bool :=
  hasSetFieldV2 (mkV2 (nil_if_empty (Registries config)) (nil_if_empty (UnqualifiedSearchRegistries config)) (nil_if_empty (CredentialHelpers config))
                   (ShortNameMode config) (AdditionalLayerStoreAuthHelper config) (nil_if_no_key (Aliases config))).

Definition hasSetField (config : V1RegistriesConf) : bool := bool_decide (config ≠ mkV1 None None None).
Definition Nonempty (config : V1RegistriesConf) : bool :=
  hasSetField (mkV1 (nil_if_empty (Search config)) (nil_if_empty (v1_Insecure config)) (nil_if_empty (Block config))).

(** The registry for the location, in the order in which they are first named,
    changed by [f]. *)
Fixpoint getRegistry (f : Registry → Registry) (location : string) (regs : list Registry) : list Registry :=
  match regs with
  | [] => [f (mkRegistry location (mkEndpoint location false "" "") [] false false)]
  | r :: regs => if decide (Prefix r = location) then f r :: regs else r :: getRegistry f location regs
  end.
Fixpoint getRegistries (f : Registry → Registry) (locations : list string) (regs : list Registry) : list Registry + error :=
  match locations with
  | [] => inl regs
  | l :: locations => match parseLocation l with inr e => inr e | inl l => getRegistries f locations (getRegistry f l regs) end
  end.
Definition set_Blocked (r : Registry) : Registry := mkRegistry (Prefix r) (Endpoint_ r) (Mirrors r) true (r_MirrorByDigestOnly r).
Definition set_Insecure (r : Registry) : Registry :=
  mkRegistry (Prefix r) (mkEndpoint (Location (Endpoint_ r)) true (PullFromMirror (Endpoint_ r)) (NamespaceProxy (Endpoint_ r)))
    (Mirrors r) (Blocked r) (r_MirrorByDigestOnly r).

Definition ConvertToV2 (config : V1RegistriesConf) : V2RegistriesConf + error :=
  match getRegistries set_Blocked (default [] (Block config)) [] with
  | inr e => inr e
  | inl regs =>
      match getRegistries set_Insecure (default [] (v1_Insecure config)) regs with
      | inr e => inr e
      | inl regs => inl (mkV2 (nil_if_empty (Some regs)) (Search config) None "" "" None)
      end
  end.

(** ** Aliases *)

Definition has_registry (domain : string) : bool := contains_char "." domain || contains_char ":" domain || bool_decide (domain = "localhost").

Definition parseShortNameValue (a : string) : Named + error :=
  match Parse a with
  | inr e => inr e
  | inl (RDigest _) => inr (ErrOther "invalid alias: must not contain digest")
  | inl (RNamed n) =>
      if decide (is_Some (Digest n)) then inr (ErrOther "invalid alias: must not contain digest")
      else if decide (is_Some (Tag n)) then inr (ErrOther "invalid alias: must not contain tag")
      else if negb (has_registry (Domain n)) then inr (ErrOther "invalid alias: must contain registry and repository")
      else ParseNormalizedNamed a
  end.

Definition validateShortName (name : string) : option error :=
  match Parse name with
  | inr e => Some e
  | inl (RDigest _) => Some (ErrOther "invalid short name: must not contain digest")
  | inl (RNamed n) =>
      if decide (is_Some (Digest n)) then Some (ErrOther "invalid short name: must not contain digest")
      else if decide (is_Some (Tag n)) then Some (ErrOther "invalid short name: must not contain tag")
      else if has_registry (Domain n) then Some (ErrOther "invalid short name: must not contain registry")
      else None
  end.

(** One entry; the errors of all of them are collected. *)
Definition add_alias (path name value : string) (acc : gmap string alias * list error) : gmap string alias * list error :=
  let errs := match validateShortName name with Some e => (acc.2 ++ [e])%list | None => acc.2 end in
  if decide (value = "") then (<[name := mkAlias None path]> acc.1, errs)
  else match parseShortNameValue value with
       | inr e => (acc.1, (errs ++ [e])%list)
       | inl named => (<[name := mkAlias (Some named) path]> acc.1, errs)
       end.
Definition newShortNameAliasCache (path : string) (conf : gomap string) : gmap string alias + error :=
  match map_fold (add_alias path) (∅, []) (default ∅ conf) with
  | (res, []) => inl res
  | (_, _ :: _) => inr (ErrOther "validating short-name aliases")
  end.

(** ** Files *)

(** The TOML library; a decoder only sets the fields that are in the file. *)
Class TOML := {
  toml_registries : string → V2RegistriesConf * V1RegistriesConf + error;
  toml_aliases : string → gomap string + error;
  toml_Encode_aliases : gomap string → string + error
}.

Definition parseShortNameMode (mode : string) : shortNameModes + error :=
  if decide (mode = "disabled") then inl ShortNameModeDisabled
  else if decide (mode = "enforcing") then inl ShortNameModeEnforcing
  else if decide (mode = "permissive") then inl ShortNameModePermissive
  else inr (ErrOther "invalid short-name mode").
Definition defaultShortNameMode := ShortNameModePermissive.

Definition bad_wildcard (r : Registry) : bool :=
  String.prefix "*." (Prefix r) && (contains_char "/" (Prefix r) || contains_char "@" (Prefix r) || contains_char ":" (Prefix r)).

Definition loadConfigFile `{TOML} (name : string) (data : string) : parsedConfig + error :=
  match toml_registries data with
  | inr e => inr e
  | inl (v2, v1) =>
      if hasSetField v1 then InvalidRegistries "registries.conf must be in v2 format but is in v1"
      else
        match postProcessRegistries v2 with
        | inr e => inr e
        | inl v2 =>
            match (if decide (ShortNameMode v2 = "") then inl ShortNameModeInvalid else parseShortNameMode (ShortNameMode v2)) with
            | inr e => inr e
            | inl mode =>
                if existsb bad_wildcard (default [] (Registries v2)) then InvalidRegistries "Wildcarded prefix should be in the format: *.example.com"
                else match newShortNameAliasCache name (Aliases v2) with
                     | inr e => inr e
                     | inl cache =>
                         inl (mkParsed (mkV2 (Registries v2) (UnqualifiedSearchRegistries v2) (CredentialHelpers v2) (ShortNameMode v2)
                                          (AdditionalLayerStoreAuthHelper v2) None) name mode cache)
                     end
            end
        end
  end.

Definition updateWithConfigurationFrom (c updates : parsedConfig) : parsedConfig :=
  let v := partialV2 c in
  let u := partialV2 updates in
  let registryMap := foldl last_wins (foldl last_wins ∅ (default [] (Registries v))) (default [] (Registries u)) in
  mkParsed
    (mkV2 (Some (by_prefix registryMap))
       (match UnqualifiedSearchRegistries u with Some l => Some l | None => UnqualifiedSearchRegistries v end)
       (match CredentialHelpers u with Some l => Some l | None => CredentialHelpers v end)
       (ShortNameMode v)
       (if decide (AdditionalLayerStoreAuthHelper u = "") then AdditionalLayerStoreAuthHelper v else AdditionalLayerStoreAuthHelper u)
       (Aliases v))
    (match UnqualifiedSearchRegistries u with Some _ => unqualifiedSearchRegistriesOrigin updates | None => unqualifiedSearchRegistriesOrigin c end)
    (if decide (shortNameMode updates = ShortNameModeInvalid) then shortNameMode c else shortNameMode updates)
    (aliasCache updates ∪ aliasCache c).
End Registries.
(** ** The process *)

(** The fields of [types.SystemContext] that the package reads; [None] is a
    nil context. *)
Record SystemContext := mkSystemContext {
  SystemRegistriesConfPath : string;
  SystemRegistriesConfDirPath : string;
  sys_RootForImplicitAbsolutePaths : string;
  UserShortNameAliasConfPath : string;
  sys_ShortNameMode : option shortNameModes
}.

(** [configWrapper]: the two paths and the root. *)
Notation configWrapper := (string * string * string)%type.

(** The operating system, the cache of configurations and the table of lock
    files of the process. *)
Record Proc := mkProcess {
  p_world : World;
  configCache : gmap configWrapper parsedConfig;
  lockFiles : gmap string LockFile
}.

Class Users := { GetRootlessUID : Z; Geteuid : Z }.

Section Process.
Context `{Digests} `{Unicode} `{Environment} `{TOML} `{Users}.
Notation MP := (M Proc).

Definition on_world {A} (m : M World A) : MP A := zoom p_world (λ w p, mkProcess w (configCache p) (lockFiles p)) m.
Definition on_table {A} (m : M LockTable A) : MP A :=
  zoom (λ p, (p_world p, lockFiles p)) (λ t p, mkProcess t.1 (configCache p) t.2) m.

(** A method of the lock file with this path. *)
Definition on_lock {A} (path : string) (m : M LF A) : MP A :=
  t ← gets lockFiles;
  match t !! path with
  | None => stop (Panic "nil pointer dereference")
  | Some l =>
      zoom (λ p, (p_world p, default l (lockFiles p !! path))) (λ s p, mkProcess s.1 (configCache p) (<[path := s.2]> (lockFiles p))) m
  end.

Definition newConfigWrapper (ctx : option SystemContext) : configWrapper :=
  match ctx with
  | None => ("", "", "")
  | Some c => (SystemRegistriesConfPath c, SystemRegistriesConfDirPath c, sys_RootForImplicitAbsolutePaths c)
  end.

Definition toConfigFileOptions (c : configWrapper) : File :=
  mkFile "registries" "conf" "CONTAINERS_REGISTRIES_CONF" c.2 c.1.1 c.1.2 false false false GetRootlessUID [] false.

(** The first main file that exists, or the first one. *)
Fixpoint first_existing (files : list string) : M World (option string) :=
  match files with
  | [] => mret None
  | f :: files => r ← try (os_Open f); match r with inl _ => mret (Some f) | inr _ => first_existing files end
  end.
Definition ConfigPath (ctx : option SystemContext) : MP string :=
  match getSearchPaths (toConfigFileOptions (newConfigWrapper ctx)) with
  | inl (paths, _) => f ← on_world (first_existing (MainFiles paths)); mret (default (default "" (head (MainFiles paths))) f)
  | inr _ => mret ""
  end.
Definition ConfigDirPath (ctx : option SystemContext) : string :=
  match getSearchPaths (toConfigFileOptions (newConfigWrapper ctx)) with
  | inl (paths, _) => default "" (head (DropInDirectories paths))
  | inr _ => ""
  end.

Definition read_config (config : parsedConfig) (path : string) : M World parsedConfig :=
  data ← ReadAll path;
  match loadConfigFile path data with inl parsed => mret (updateWithConfigurationFrom config parsed) | inr e => fail e end.

(** What is left out gets its default. *)
Definition with_defaults (c : parsedConfig) : parsedConfig :=
  let v := partialV2 c in
  mkParsed
    (mkV2 (Registries v) (UnqualifiedSearchRegistries v)
       (match CredentialHelpers v with None | Some [] => Some [AuthenticationFileHelper] | l => l end)
       (ShortNameMode v) (AdditionalLayerStoreAuthHelper v) (Aliases v))
    (unqualifiedSearchRegistriesOrigin c)
    (if decide (shortNameMode c = ShortNameModeInvalid) then defaultShortNameMode else shortNameMode c)
    (aliasCache c).

Definition emptyConfig : parsedConfig := mkParsed (mkV2 (Some []) None None "" "" None) "" ShortNameModeInvalid ∅.

Definition tryUpdatingCache (wrapper : configWrapper) : MP parsedConfig :=
  '(config, _) ← on_world (Read read_config (toConfigFileOptions wrapper) emptyConfig);
  let config := with_defaults config in
  modify (λ p, mkProcess (p_world p) (<[wrapper := config]> (configCache p)) (lockFiles p));;
  mret config.

Definition InvalidateCache : MP unit := modify (λ p, mkProcess (p_world p) ∅ (lockFiles p)).

Definition getConfig (ctx : option SystemContext) : MP parsedConfig :=
  c ← gets configCache;
  match c !! newConfigWrapper ctx with Some config => mret config | None => tryUpdatingCache (newConfigWrapper ctx) end.

Definition TryUpdatingCache (ctx : option SystemContext) : MP V2RegistriesConf :=
  config ← tryUpdatingCache (newConfigWrapper ctx); mret (partialV2 config).
Definition GetRegistries (ctx : option SystemContext) : MP (list Registry) :=
  config ← getConfig ctx; mret (default [] (Registries (partialV2 config))).
Definition UnqualifiedSearchRegistriesWithOrigin (ctx : option SystemContext) : MP (option (list string) * string) :=
  config ← getConfig ctx; mret (UnqualifiedSearchRegistries (partialV2 config), unqualifiedSearchRegistriesOrigin config).
Definition GetShortNameMode (ctx : option SystemContext) : MP shortNameModes :=
  match ctx ≫= sys_ShortNameMode with
  | Some m => mret m
  | None => config ← getConfig ctx; mret (shortNameMode config)
  end.
Definition CredentialHelpers_ (ctx : option SystemContext) : MP (option (list string)) :=
  config ← getConfig ctx; mret (CredentialHelpers (partialV2 config)).
Definition AdditionalLayerStoreAuthHelper_ (ctx : option SystemContext) : MP string :=
  config ← getConfig ctx; mret (AdditionalLayerStoreAuthHelper (partialV2 config)).
Definition FindRegistry (ctx : option SystemContext) (ref : string) : MP (option Registry) :=
  config ← getConfig ctx; mret (findRegistryWithParsedConfig config ref).

(** *** The file of aliases *)

(** The result of [strconv.Atoi] also where it fails. *)
Definition atoi_or_zero (s : string) : Z :=
  match Atoi s with
  | Some z => z
  | None =>
      match s with
      | String c t =>
          let neg := Ascii.eqb c "-" in
          let digits := if neg || Ascii.eqb c "+" then t else s in
          if decide (digits ≠ "" ∧ is_Some (parse_from 10 digits 0)) then (if neg then - 2 ^ 63 else 2 ^ 63 - 1)%Z else 0%Z
      | EmptyString => 0%Z
      end
  end.
Definition GetRootlessEUID : Z :=
  if decide (Getenv "_CONTAINERS_ROOTLESS_UID" ≠ "") then atoi_or_zero (Getenv "_CONTAINERS_ROOTLESS_UID") else Geteuid.

(** [homedir.GetCacheHome]. *)
Definition GetCacheHome : string + error :=
  if decide (Getenv "XDG_CACHE_HOME" ≠ "") then inl (Getenv "XDG_CACHE_HOME")
  else let home := match HomeDir with inl h => h | inr _ => "" end in
       if decide (home = "") then inr (ErrOther "could not get either XDG_CACHE_HOME or HOME") else inl (filepath_Join [home; ".cache"]).

Definition userShortNamesFile := "containers/short-name-aliases.conf".
Definition shortNameAliasesConfPath (ctx : option SystemContext) : string + error :=
  let custom := from_option UserShortNameAliasConfPath "" ctx in
  if decide (custom ≠ "") then inl custom
  else if decide (GetRootlessEUID = 0%Z) then inl (filepath_Join ["/var/cache"; userShortNamesFile])
  else match GetCacheHome with inl c => inl (filepath_Join [c; userShortNamesFile]) | inr e => inr e end.

(** The aliases as written, and as parsed; no file is no alias. *)
Definition loadShortNameAliasConf (confPath : string) : MP (gomap string * gmap string alias) :=
  r ← on_world (try (os_ReadFile confPath));
  match (match r with inl data => toml_aliases data | inr e => if os_IsNotExist e then inl None else inr e end) with
  | inr e => fail e
  | inl conf => match newShortNameAliasCache confPath conf with inl cache => mret (conf, cache) | inr e => fail e end
  end.

Definition lock_path (confPath : string) : string := filepath_Clean (confPath +:+ ".lock").
Definition getShortNameAliasesLock (confPath : string) : MP string :=
  l ← on_table (GetLockFile (confPath +:+ ".lock")); mret (lock_path confPath).

Definition fileutils_Exists (p : string) : M World unit := os_Open p.

Definition alias_in (m : gmap string alias) (name : string) : option (option Named * string) :=
  match m !! name with Some a => Some (a_value a, configOrigin a) | None => None end.

Definition configured_alias (ctx : option SystemContext) (name : string) : MP (option Named * string) :=
  config ← getConfig ctx; mret (default (None, "") (alias_in (aliasCache config) name)).

(** The lock is kept until the function returns. *)
Definition user_alias (ctx : option SystemContext) (confPath name : string) : MP (option Named * string) :=
  lock ← getShortNameAliasesLock confPath;
  on_lock lock RLock;;
  finally ('(_, cache) ← loadShortNameAliasConf confPath;
           match alias_in cache name with Some a => mret a | None => configured_alias ctx name end)
    (on_lock lock Unlock).

Definition ResolveShortNameAlias (ctx : option SystemContext) (name : string) : MP (option Named * string) :=
  match validateShortName name, shortNameAliasesConfPath ctx with
  | Some e, _ | None, inr e => fail e
  | None, inl confPath =>
      r ← on_world (try (fileutils_Exists confPath));
      match r with
      | inl _ => user_alias ctx confPath name
      | inr e => if os_IsNotExist e then configured_alias ctx name else fail e
      end
  end.

(** The file is truncated, and then written and closed. *)
Definition write_aliases (confPath : string) (conf : gomap string) : MP unit :=
  on_world (syscall (modify (put_file false confPath "")));;
  res ← try (match toml_Encode_aliases conf with inl data => on_world (os_WriteFile confPath data) | inr e => fail e end);
  closeErr ← try (on_world os_Close);
  match res, closeErr with inl _, inl _ => mret tt | inr e, _ | inl _, inr e => fail e end.

Definition edit_aliases (conf : gomap string) (name : string) (value : option string) : gomap string + error :=
  let m := default ∅ conf in
  match value with
  | Some v => inl (Some (<[name := v]> m))
  | None => if decide (m !! name = None) then inr (ErrOther "short-name alias not found: please check registries.conf files") else inl (Some (delete name m))
  end.

Definition value_error (value : option string) : option error :=
  match value with Some v => match parseShortNameValue v with inr e => Some e | inl _ => None end | None => None end.

Definition editShortNameAlias (ctx : option SystemContext) (name : string) (value : option string) : MP unit :=
  match validateShortName name, value_error value, shortNameAliasesConfPath ctx with
  | Some e, _, _ | None, Some e, _ | None, None, inr e => fail e
  | None, None, inl confPath =>
      on_world (os_MkdirAll (filepath_Dir confPath));;
      lock ← getShortNameAliasesLock confPath;
      on_lock lock Lock;;
      finally ('(conf, _) ← loadShortNameAliasConf confPath;
               match edit_aliases conf name value with inl conf => write_aliases confPath conf | inr e => fail e end)
        (on_lock lock Unlock)
  end.
Definition AddShortNameAlias (ctx : option SystemContext) (name value : string) : MP unit := editShortNameAlias ctx name (Some value).
Definition RemoveShortNameAlias (ctx : option SystemContext) (name : string) : MP unit := editShortNameAlias ctx name None.
End Process.
End SysRegistries.
