(* ===== verification/SysRegistriesFacts.v ===== *)
(** * Theorems about registries and mirrors

    The registry of a name is the one with the longest prefix; what is pulled
    from it or from a mirror has the digest and the tag that were asked for;
    the configuration that is read is consistent; aliases that are added are
    found. *)

From stdpp Require Import sorting.
From S2P Require Import Prelude World Paths Strconv StoreUtil LockFile GoRegexp DockerReference ReferenceFacts ConfigFile ConfigFileFacts SysRegistries LayerDemo.
Local Open Scope string_scope.

Module SysRegistriesFacts.
Import Regexp ConfigFile ConfigFileFacts DockerReference ReferenceFacts SysRegistries.

(** ** Strings *)

Lemma string_drop_app a b : string_drop (String.length a) (a +:+ b) = b.
Proof. induction a as [|c a IH]; [done|]. rewrite string_app_cons. exact IH. Qed.

Lemma string_drop_split n s : (n ≤ String.length s)%nat → ∃ a, s = a +:+ string_drop n s ∧ String.length a = n.
Proof.
  revert s. induction n as [|n IH]; intros s Hn; [by exists ""|]. destruct s as [|c s]; simpl in Hn; [lia|].
  destruct (IH s) as (a & Ha & Hl); [lia|]. exists (String c a). simpl. split; [|by rewrite Hl]. rewrite string_app_cons. by f_equal.
Qed.

Lemma prefix_longer p s t : String.prefix p s = true → String.prefix p (s +:+ t) = true.
Proof. intros [u ->]%prefix_app. apply prefix_app. exists (u +:+ t). by rewrite string_app_assoc. Qed.

Lemma prefix_shorter p s t : (String.length p ≤ String.length s)%nat → String.prefix p (s +:+ t) = true → String.prefix p s = true.
Proof.
  intros Hl [u E]%prefix_app. apply prefix_app. destruct (string_drop_split (String.length p) s Hl) as (a & Ha & Hla).
  exists (string_drop (String.length p) s). rewrite Ha, string_app_assoc in E. apply string_app_inj_length in E as [-> _]; [done|done].
Qed.

Lemma Index_split s sub i : Index s sub = Some i → ∃ a b, s = a +:+ sub +:+ b ∧ String.length a = i.
Proof.
  revert i. induction s as [|c s IH]; intros i; cbn [Index].
  - destruct sub; [|done]. intros [= <-]. by exists "", "".
  - destruct (String.prefix sub (String c s)) eqn:E.
    + intros [= <-]. apply prefix_app in E as [t E]. by exists "", t.
    + destruct (Index s sub) as [j|]; [|done]. intros [= <-]. destruct (IH j eq_refl) as (a & b & -> & <-). by exists (String c a), b.
Qed.

Lemma Index_longer s t sub i : Index s sub = Some i → Index (s +:+ t) sub = Some i.
Proof.
  revert i. induction s as [|c s IH]; intros i.
  - simpl. destruct sub; [|done]. intros [= <-]. by destruct t.
  - rewrite string_app_cons. cbn [Index]. rewrite <- (string_app_cons c s t). destruct (String.prefix sub (String c s)) eqn:E.
    { by rewrite (prefix_longer _ _ _ E). }
    destruct (Index s sub) as [j|] eqn:Ej; [|done]. intros [= <-]. rewrite (IH j eq_refl).
    destruct (String.prefix sub (String c s +:+ t)) eqn:E'; [|done]. rewrite (prefix_shorter sub (String c s) t) in E; [done| |done].
    destruct (Index_split _ _ _ Ej) as (a & b & -> & _). simpl. rewrite !string_length_app. lia.
Qed.

(** ** Matching *)

(** What may follow the part that matches. *)
Definition follows (t : string) : Prop := match t with EmptyString => True | String c _ => boundary c = true end.

Lemma follows_spec {A} (t : string) (x : A) (o : option A) :
  match t with EmptyString => o | String c _ => if boundary c then o else None end = Some x → o = Some x ∧ follows t.
Proof. destruct t as [|c t]; simpl; [done|]. by destruct (boundary c). Qed.

(** A match of the name is a match of the whole reference. *)
Lemma refMatchingPrefix_longer s t p n :
  refMatchingPrefix s p = Some n → follows t → (n ≤ String.length s)%nat ∧ refMatchingPrefix (s +:+ t) p = Some n.
Proof.
  unfold refMatchingPrefix, refMatchingSubdomainPrefix. intros Hm Ht. destruct (String.prefix "*." p).
  - revert Hm. generalize (string_drop 1 p) as q. intros q Hm.
    destruct (Index s q) as [i|] eqn:Ei; [|done]. rewrite (Index_longer _ t _ _ Ei).
    destruct (Index_split _ _ _ Ei) as (a & b & -> & <-). rewrite (string_app_assoc a), (string_app_assoc q), !substring_app in *.
    destruct (contains_char "/" a); [done|]. rewrite <- string_length_app in *.
    rewrite <- (string_app_assoc a q b), <- (string_app_assoc a q (b +:+ t)), !string_drop_app in *.
    apply (follows_spec b n (Some _)) in Hm as [[= <-] Hb]. split; [rewrite !string_length_app; lia|].
    destruct b as [|c b]; simpl; [by destruct t as [|d t]; simpl in *; rewrite ?Ht|by simpl in Hb; rewrite Hb].
  - destruct (decide (String.length s < String.length p)); [done|]. rewrite string_length_app.
    rewrite (decide_False (P := String.length s + String.length t < String.length p)) by lia.
    destruct (decide (String.length s = String.length p)) as [El|].
    + destruct (decide (s = p)) as [->|]; [|done]. injection Hm as <-. split; [lia|]. destruct t as [|c t]; simpl in *.
      { rewrite decide_True by lia. by rewrite string_app_nil_r, decide_True. }
      rewrite decide_False by lia. rewrite (proj2 (prefix_app _ _)) by (by eexists). simpl. by rewrite string_drop_app, Ht.
    + rewrite decide_False by lia. destruct (String.prefix p s) eqn:Ep; [|done]. simpl in *. rewrite (prefix_longer _ _ _ Ep). simpl.
      apply prefix_app in Ep as [u ->]. rewrite string_app_assoc, !string_drop_app in *. rewrite string_length_app in *.
      destruct u as [|c u]; [done|]. rewrite string_app_cons. destruct (boundary c); [|done]. injection Hm as <-. split; [lia|done].
Qed.

Lemma suffix_follows n : follows (suffix_of n).
Proof. unfold suffix_of. destruct (Tag n); [done|]. by destruct (Digest n). Qed.

Definition matches_prefix (ref : string) (r : Registry) : Prop := is_Some (refMatchingPrefix ref (Prefix r)).

(** One round of the search for the longest prefix. *)
Definition longer_match (ref : string) : option Registry * nat → Registry → option Registry * nat := λ '(reg, prefixLen) r,
  if bool_decide (is_Some (refMatchingPrefix ref (Prefix r))) && bool_decide (prefixLen < String.length (Prefix r))
  then (Some r, String.length (Prefix r)) else (reg, prefixLen).

Lemma longer_match_fold ref l acc :
  acc.2 = from_option (String.length ∘ Prefix) 0 acc.1 →
  let '(o, n) := foldl (longer_match ref) acc l in
  n = from_option (String.length ∘ Prefix) 0 o ∧ (acc.2 ≤ n)%nat ∧
  (∀ r', r' ∈ l → matches_prefix ref r' → (String.length (Prefix r') ≤ n)%nat) ∧
  (o = acc.1 ∨ ∃ r, o = Some r ∧ r ∈ l ∧ matches_prefix ref r).
Proof.
  revert acc. induction l as [|r l IH]; intros [reg n] En; simpl in *.
  - split_and!; [done|lia|by intros r' ?%elem_of_nil|by left].
  - specialize (IH (longer_match ref (reg, n) r)). unfold longer_match in IH at 1 2 4 5. simpl in IH.
    destruct (foldl (longer_match ref) _ l) as [o m]. destruct IH as (Em & Hle & Hall & Hin); [by case_match|].
    destruct (bool_decide_reflect (is_Some (refMatchingPrefix ref (Prefix r)))) as [Hm|Hm];
      destruct (bool_decide_reflect (n < String.length (Prefix r))) as [Hn|Hn]; simpl in *.
    all: split_and!; [done|lia| |destruct Hin as [?|(x & -> & ? & ?)]; [|by right; exists x; split_and!; [|right|]]].
    all: try (intros r' [->|Hr']%elem_of_cons Hr; [|by apply Hall]; first [lia|by destruct (Hm Hr)]).
    all: first [by left|right; exists r; by split_and!; [|left|]].
Qed.

Lemma found_matches config ref r :
  findRegistryWithParsedConfig config ref = Some r → r ∈ default [] (Registries (partialV2 config)) ∧ matches_prefix ref r.
Proof.
  unfold findRegistryWithParsedConfig. fold (longer_match ref). set (regs := default [] _).
  pose proof (longer_match_fold ref regs (None, 0) eq_refl) as Hf. destruct (foldl _ _ regs) as [o n].
  destruct Hf as (_ & _ & _ & [->|(r' & -> & ? & ?)]); [done|]. by intros [= <-].
Qed.

(** *** What a prefix stands for *)

(** The registry of [ref] has no port: a colon comes after a slash. *)
Definition no_port (ref : string) : Prop := ∀ a b, ref = a +:+ ":" +:+ b → contains_char "/" a = true.

(** [ref] is [prefix] itself, something below it, or, if [prefix] is a
    repository, one of its images. *)
Definition covers (prefix ref : string) : Prop :=
  ref = prefix ∨ ∃ rest, ref = prefix +:+ "/" +:+ rest ∨ ref = prefix +:+ "@" +:+ rest ∨
                         contains_char "/" prefix = true ∧ ref = prefix +:+ ":" +:+ rest.

Lemma boundary_iff c : boundary c = true ↔ c = ":"%char ∨ c = "/"%char ∨ c = "@"%char.
Proof. unfold boundary, one_of. simpl. rewrite !orb_true_iff, !Ascii.eqb_eq. naive_solver. Qed.

Lemma matching_covers ref prefix :
  String.prefix "*." prefix = false → no_port ref → is_Some (refMatchingPrefix ref prefix) ↔ covers prefix ref.
Proof.
  intros Hw Hp. unfold refMatchingPrefix. rewrite Hw.
  assert (covers prefix ref ↔ ∃ t, ref = prefix +:+ t ∧ match t with EmptyString => True | String c _ => boundary c = true end) as ->.
  { split.
    - intros [->|(rest & [->|[->|[_ ->]]])]; [by exists ""; rewrite string_app_nil_r|eexists; split; [reflexivity|by apply boundary_iff; auto]..].
    - intros ([|c t] & -> & Hc); [left; by rewrite string_app_nil_r|]. right. exists t. apply boundary_iff in Hc as [->|[->| ->]]; [|by auto..].
      right. right. split; [|done]. by apply (Hp prefix t). }
  case_decide as Hlt.
  { split; [by intros []|]. intros (t & -> & _). rewrite string_length_app in Hlt. lia. }
  case_decide as Heq.
  { split.
    - case_decide; [|by intros []]. intros _. exists "". by rewrite string_app_nil_r.
    - intros (t & -> & _). destruct t; [|rewrite string_length_app in Heq; simpl in Heq; lia]. rewrite string_app_nil_r, decide_True by done. by eauto. }
  destruct (String.prefix prefix ref) eqn:E; simpl.
  - apply prefix_app in E as [t ->]. rewrite string_drop_app. destruct t as [|c t]; [by rewrite string_app_nil_r in Heq|]. split.
    + destruct (boundary c) eqn:Eb; [|by intros []]. intros _. by exists (String c t).
    + intros (t' & Et & Ht). apply string_app_inj_length in Et as [_ <-]; [|done]. rewrite Ht. by eauto.
  - split; [by intros []|]. intros (t & -> & _). by rewrite (proj2 (prefix_app prefix _)) in E by eauto.
Qed.

(** C29: In a configuration with prefixes that are not empty and not wildcards,
    for a name without a port: the registry that is found is one of the
    configuration, its prefix is the name, or the name is below it or, for the
    prefix of a repository, one of its images, and this holds of no longer
    prefix; if none is found it holds of none. *)
Theorem findRegistry_longest config ref :
  let regs := default [] (Registries (partialV2 config)) in
  Forall (λ r, Prefix r ≠ "" ∧ String.prefix "*." (Prefix r) = false) regs → no_port ref →
  match findRegistryWithParsedConfig config ref with
  | Some r => r ∈ regs ∧ covers (Prefix r) ref ∧ ∀ r', r' ∈ regs → covers (Prefix r') ref → (String.length (Prefix r') ≤ String.length (Prefix r))%nat
  | None => ∀ r', r' ∈ regs → ¬ covers (Prefix r') ref
  end.
Proof.
  intros regs Hregs Hp. rewrite Forall_forall in Hregs. unfold findRegistryWithParsedConfig. fold (longer_match ref) regs.
  assert (∀ r, r ∈ regs → matches_prefix ref r ↔ covers (Prefix r) ref) as Hc by (intros r [_ Hw]%Hregs; by apply matching_covers).
  pose proof (longer_match_fold ref regs (None, 0) eq_refl) as Hf. destruct (foldl _ _ regs) as [o n].
  destruct Hf as (-> & _ & Hall & [->|(r & -> & Hr & Hm)]); simpl in *.
  - intros r' Hr' Hcov%Hc; [|done]. specialize (Hall r' Hr' Hcov). destruct (Hregs r' Hr') as [Hne _]. destruct (Prefix r'); [done|simpl in Hall; lia].
  - split_and!; [done|by apply Hc|]. intros r' Hr' Hcov%Hc; [|done]. by apply Hall.
Qed.

(** ** What is pulled *)

Section Pulling.
Context `{Digests} `{Unicode}.

(** A reference that is put together from any text and the tag and the digest of
    another one has this digest and, if the text has no [@], this tag. *)
Definition parts_ok (n : Named) : Prop :=
  (∀ t, Tag n = Some t → t ≠ "" ∧ in_language tag t) ∧ (∀ d, Digest n = Some d → d ≠ "" ∧ in_language digestPat d).

Lemma parsed_suffix x n r :
  parts_ok n → Parse (x +:+ suffix_of n) = inl (RNamed r) →
  (∀ d, Digest n = Some d → Digest r = Some d) ∧ (contains_char "@" x = false → ∀ t, Tag n = Some t → Tag r = Some t).
Proof.
  intros [Ht Hd] (name & t & d & W & _ & _ & E & [= ->])%Parse_inv. unfold suffix_of in E.
  destruct (reference_of_parts name t d (wellformed_nonempty _ _ _ W)) as (_ & -> & ->). pose proof (cut_digest _ _ _ W) as C.
  set (tn := match Tag n with Some t0 => ":" +:+ t0 | None => "" end) in *.
  assert (contains_char "@" tn = false) as Htn.
  { unfold tn. destruct (Tag n) as [t0|]; [|done]. simpl. apply tag_absent; [by auto|by apply Ht]. }
  assert (contains_char "@" x = false → ∀ t0, Tag n = Some t0 → tagged_text name t = x +:+ tn → (if decide (t = "") then None else Some t) = Some t0) as Htag.
  { intros Hx t0 E0 Et. pose proof (cut_tag _ _ _ W) as Ct. destruct (Ht t0 E0) as [Hne Hl]. unfold tn in Et. rewrite E0 in Et.
    rewrite Et, (proj2 (cut_last_Some ":" _ x t0)) in Ct; [|by split; [|apply tag_absent; [auto|]]].
    rewrite (tag_absent "/" t0) in Ct by auto. destruct Ct as [_ ->]. by rewrite decide_False. }
  destruct (Digest n) as [d0|].
  - destruct (Hd d0 eq_refl) as [Hne Hl]. rewrite <- (string_app_assoc x tn) in E. apply (digest_absent "@") in Hl; [|by auto].
    rewrite <- E in C. assert (cut_last "@" ((x +:+ tn) +:+ "@" +:+ d0) = Some (x +:+ tn, d0)) as L by (by apply cut_last_Some).
    destruct (decide (d = "")) as [Hd0|Hd0].
    { apply cut_None in C. rewrite contains_app in C. simpl in C. by rewrite orb_true_r in C. }
    apply cut_Some in C as [C Ctag]. destruct W as [Wn Wt [|Wd]]; [done|]. apply (digest_absent "@") in Wd; [|by auto].
    rewrite (proj2 (cut_last_Some "@" _ _ d) (conj C Wd)) in L. injection L as Ex ->. split; [by intros ? [= <-]|]. intros Hx t0 E0. by apply Htag.
  - split; [done|]. intros Hx t0 E0. rewrite string_app_nil_r in E. assert (d = "") as ->.
    { destruct (decide (d = "")); [done|]. rewrite <- E in C. apply cut_Some in C as [C _]. apply (f_equal (contains_char "@")) in C.
      rewrite !contains_app in C. simpl in C. by rewrite Hx, Htn, orb_true_r in C. }
    rewrite reference_text_eq in E. simpl in E. rewrite string_app_nil_r in E. by apply Htag.
Qed.

(** What a source is for an endpoint of the registry. *)
Definition pulls (prefix : string) (ref : Named) (ps : PullSource) : Prop :=
  (∀ d, Digest ref = Some d → Digest (ps_Reference ps) = Some d) ∧
  (contains_char "@" (Location (ps_Endpoint ps)) = false → ∀ t, Tag ref = Some t → Tag (ps_Reference ps) = Some t) ∧
  ∃ n, refMatchingPrefix (Name ref) prefix = Some n ∧
    (String_ (ps_Reference ps) = Location (ps_Endpoint ps) +:+ string_drop n (String_ ref) ∨ Location (ps_Endpoint ps) = "" ∧ ps_Reference ps = ref).

Lemma drop_name n s t : (n ≤ String.length s)%nat → string_drop n (s +:+ t) = string_drop n s +:+ t.
Proof.
  intros (a & Ha & Hl)%string_drop_split. rewrite Ha at 1. by rewrite string_app_assoc, <- Hl, string_drop_app.
Qed.

Lemma ParseNamed_Parse s n : ParseNamed s = inl n → Parse s = inl (RNamed n) ∧ String_ n = s.
Proof.
  unfold ParseNamed. destruct (ParseNormalizedNamed s) as [m|] eqn:E; [|done]. case_decide as Hs; [|done]. intros [= <-].
  split; [|done]. destruct (ParseNormalizedNamed_text _ _ E) as (d & rem & Es & Em & _).
  apply ParseNormalizedNamed_eq in E as (_ & d' & rem' & Es' & _ & Ep). rewrite Es in Es'. injection Es' as <- <-. by rewrite <- Em, Hs in Ep.
Qed.

Lemma rewrite_pulls e ref prefix s0 r n :
  ParseNormalizedNamed s0 = inl ref → refMatchingPrefix (Name ref) prefix = Some n → rewriteReference e ref prefix = inl r →
  pulls prefix ref (mkPullSource e r).
Proof.
  intros Hs Hn. unfold rewriteReference. destruct (refMatchingPrefix_longer _ _ _ _ Hn (suffix_follows ref)) as [Hl Hm].
  rewrite String_suffix, Hm. case_decide as El.
  { destruct (String.prefix _ _); [|done]. intros [= <-]. split_and!; [done..|]. exists n. split; [done|by right]. }
  rewrite drop_name by done. rewrite <- string_app_assoc. intros [Ep Er]%ParseNamed_Parse.
  destruct (parsed_suffix _ _ _ (normalized_parts _ _ Hs) Ep) as [Hd Ht]. split_and!; simpl; [done| |].
  - intros Hat t Et. apply Ht; [|done]. rewrite contains_app, Hat. simpl.
    destruct (ParseNormalizedNamed_wellformed _ _ Hs) as (name & tg & dg & W & _ & _ & ->).
    destruct (reference_of_parts name tg dg (wellformed_nonempty _ _ _ W)) as (EN & _ & _). rewrite EN in *. destruct W as [Wn _ _].
    apply name_absent in Wn. destruct (string_drop_split _ _ Hl) as (a & Ha & _). rewrite Ha, contains_app, orb_false_iff in Wn. by destruct Wn.
  - exists n. split; [done|left]. by rewrite Er, (String_suffix ref), drop_name, string_app_assoc by done.
Qed.

(** C6: If the registry of the name of a reference is found and its sources are
    listed, they are the mirrors that may be used for this kind of reference, in
    the order of the configuration, and then the registry; each is reached under
    the rest of the name below its location, with the digest of the reference
    and, if the location of the endpoint has no [@], with its tag.  So a mirror
    cannot stand for another digest. *)
Theorem PullSources_keep_reference config r ref s sources :
  findRegistryWithParsedConfig config (Name ref) = Some r → ParseNormalizedNamed s = inl ref → PullSourcesFromReference r ref = inl sources →
  ps_Endpoint <$> sources = (usable_mirrors r (bool_decide (is_Some (Digest ref))) ++ [Endpoint_ r])%list ∧ Forall (pulls (Prefix r) ref) sources.
Proof.
  intros [_ [n Hn]]%found_matches Hs.
  unfold PullSourcesFromReference. generalize (usable_mirrors r (bool_decide (is_Some (Digest ref))) ++ [Endpoint_ r])%list. intros l.
  revert sources. induction l as [|e l IH]; intros sources; simpl; [by intros [= <-]|].
  destruct (rewriteReference e ref (Prefix r)) as [r'|] eqn:Er; [|done]. destruct (pull_sources l ref (Prefix r)) as [ss|]; [|done].
  intros [= <-]. destruct (IH ss eq_refl) as [Ee Hp]. split; [by rewrite fmap_cons, Ee|]. constructor; [|done]. by eapply rewrite_pulls.
Qed.
End Pulling.

(** ** The configuration *)

Section Config.
Context `{Digests} `{Unicode}.

Record wf_registry (r : Registry) : Prop := {
  wfr_location : Location (Endpoint_ r) = "" → String.prefix "*." (Prefix r) = true;
  wfr_primary : PullFromMirror (Endpoint_ r) = "";
  wfr_mirrors : Forall (λ m, Location m ≠ "" ∧ PullFromMirror m ∈ [""; MirrorAll; MirrorByDigestOnly; MirrorByTagOnly] ∧
                             (r_MirrorByDigestOnly r = true → PullFromMirror m = "")) (Mirrors r)
}.

(** Registries in the order of their prefixes, each prefix once. *)
Record wf_registries (l : list Registry) : Prop := {
  wfl_registries : Forall (λ r, wf_registry r ∧ bad_wildcard r = false) l;
  wfl_sorted : StronglySorted String.le (Prefix <$> l);
  wfl_unique : NoDup (Prefix <$> l)
}.

Record wf_config (c : parsedConfig) : Prop := {
  wfc_registries : wf_registries (default [] (Registries (partialV2 c)));
  wfc_helpers : ∃ h l, CredentialHelpers (partialV2 c) = Some (h :: l);
  wfc_mode : shortNameMode c ≠ ShortNameModeInvalid
}.

Lemma mapE_Forall {A B} (f : A → B + error) (P : B → Prop) l l' :
  (∀ x y, f x = inl y → P y) → mapE f l = inl l' → Forall P l'.
Proof.
  intros Hf. revert l'. induction l as [|x l IH]; intros l'; simpl; [by intros [= <-]|].
  destruct (f x) as [y|] eqn:E; [|done]. destruct (mapE f l) as [l1|]; [|done]. intros [= <-]. constructor; [by eapply Hf|by apply IH].
Qed.

Lemma post_registry_wf r r' : post_registry r = inl r' → wf_registry r'.
Proof.
  unfold post_registry. destruct (parseLocation (Location (Endpoint_ r))) as [loc|]; [|done].
  destruct (post_prefix (Prefix r) loc) as [prefix|] eqn:Ep; [|done]. case_decide as Hp; [done|].
  destruct (mapE _ (Mirrors r)) as [ms|] eqn:Em; [|done]. intros [= <-]. constructor; simpl.
  - intros ->. unfold post_prefix in Ep. case_decide; [done|]. destruct (parseLocation (Prefix r)) as [p|]; [|done].
    destruct (String.prefix "*." p) eqn:E; [|done]. simpl in Ep. by injection Ep as <-.
  - done.
  - eapply mapE_Forall; [|exact Em]. intros m m'. unfold post_mirror, InvalidRegistries. destruct (parseLocation (Location m)) as [l|]; [|done].
    case_decide; [done|]. destruct (r_MirrorByDigestOnly r && _) eqn:Ed; [done|]. destruct (decide _) as [Hin|Hin]; [done|].
    intros [= <-]. simpl. split_and!; [done|by apply dec_stable|]. intros Er. rewrite Er in Ed. simpl in Ed. apply bool_decide_eq_false in Ed. by destruct (decide (PullFromMirror m = "")).
Qed.

(** Maps of registries by their prefix. *)
Definition keyed (P : Registry → Prop) (m : gmap string Registry) : Prop := ∀ p r, m !! p = Some r → Prefix r = p ∧ P r.

Lemma keyed_insert P m r : keyed P m → P r → keyed P (<[Prefix r := r]> m).
Proof. intros Hm Hr p r' [[<- <-]|[_ ?]]%lookup_insert_Some; [done|by apply Hm]. Qed.
Lemma keyed_first P l m : keyed P m → Forall P l → keyed P (foldl first_wins m l).
Proof.
  intros Hm Hl. revert m Hm. induction Hl as [|r l Hr Hl IH]; intros m Hm; simpl; [done|]. apply IH. unfold first_wins.
  case_match; [done|by apply keyed_insert].
Qed.
Lemma keyed_last P l m : keyed P m → Forall P l → keyed P (foldl last_wins m l).
Proof. intros Hm Hl. revert m Hm. induction Hl as [|r l Hr Hl IH]; intros m Hm; simpl; [done|]. apply IH. by apply keyed_insert. Qed.

Lemma by_prefix_spec P m :
  keyed P m → Forall P (by_prefix m) ∧ StronglySorted String.le (Prefix <$> by_prefix m) ∧ NoDup (Prefix <$> by_prefix m).
Proof.
  intros Hm. destruct (sorted_keys_spec m) as (Hs & Hnd & Hk). assert (Prefix <$> by_prefix m = sorted_keys m) as ->.
  { unfold by_prefix. assert (∀ k, k ∈ sorted_keys m → is_Some (m !! k)) as Hin by (intros k; apply Hk). clear Hs Hnd Hk.
    induction (sorted_keys m) as [|k l IH]; [done|]. simpl. destruct (Hin k) as [r Hr]; [left|]. rewrite Hr. simpl.
    destruct (Hm _ _ Hr) as [-> _]. f_equal. apply IH. intros k' ?. apply Hin. by right. }
  split_and!; [|done..]. apply Forall_forall. intros r (p & _ & Hr)%list_elem_of_omap. by eapply Hm.
Qed.

Lemma postProcess_wf c c' :
  postProcessRegistries c = inl c' → Forall wf_registry (default [] (Registries c')) ∧
  StronglySorted String.le (Prefix <$> default [] (Registries c')) ∧ NoDup (Prefix <$> default [] (Registries c')).
Proof.
  unfold postProcessRegistries. destruct (mapE post_registry _) as [regs|] eqn:Em; [|done]. destruct (conflicts _ regs); [done|].
  destruct (search_registries _); [|done]. intros [= <-]. simpl. apply by_prefix_spec, keyed_first; [done|].
  eapply mapE_Forall; [|exact Em]. intros x y. apply post_registry_wf.
Qed.

Lemma loadConfigFile_wf `{TOML} name data c : loadConfigFile name data = inl c → wf_registries (default [] (Registries (partialV2 c))).
Proof.
  unfold loadConfigFile. destruct (toml_registries data) as [[v2 v1]|]; [|done]. destruct (hasSetField v1); [done|].
  destruct (postProcessRegistries v2) as [v|] eqn:Ev; [|done]. apply postProcess_wf in Ev as (Hw & Hs & Hu).
  destruct (if decide _ then _ else _) as [mode|]; [|done]. destruct (existsb bad_wildcard _) eqn:Eb; [done|].
  destruct (newShortNameAliasCache _ _); [|done]. intros [= <-]. constructor; simpl; [|done..].
  apply Forall_forall. intros r Hr. split; [by eapply Forall_forall in Hw|]. apply not_true_iff_false. intros Hb.
  apply not_true_iff_false in Eb. apply Eb. apply existsb_exists. exists r. by split; [apply list_elem_of_In|].
Qed.

Lemma update_wf c u :
  wf_registries (default [] (Registries (partialV2 c))) → wf_registries (default [] (Registries (partialV2 u))) →
  wf_registries (default [] (Registries (partialV2 (updateWithConfigurationFrom c u)))).
Proof.
  intros [H1 _ _] [H2 _ _]. destruct (by_prefix_spec (λ r, wf_registry r ∧ bad_wildcard r = false) (foldl last_wins (foldl last_wins ∅ (default [] (Registries (partialV2 c)))) (default [] (Registries (partialV2 u)))))
    as (? & ? & ?); [|by constructor]. apply keyed_last; [|done]. by apply keyed_last.
Qed.
End Config.

Section Cache.
Context `{Digests} `{Unicode} `{Environment} `{TOML} `{Users}.

Definition wf_cache (p : Proc) : Prop := map_Forall (λ _, wf_config) (configCache p).

Lemma with_defaults_wf c : wf_registries (default [] (Registries (partialV2 c))) → wf_config (with_defaults c).
Proof.
  intros Hc. constructor; simpl; [done| |by case_decide]. destruct (CredentialHelpers (partialV2 c)) as [[|h l]|]; by eauto.
Qed.

Lemma read_configs_wf k w w' c conf :
  Read read_config (toConfigFileOptions k) emptyConfig w = (w', Ret (c, conf)) → wf_registries (default [] (Registries (partialV2 c))).
Proof.
  apply (Read_keeps read_config (λ c, wf_registries (default [] (Registries (partialV2 c)))) _ emptyConfig); [|by constructor; constructor].
  intros a path Ha. apply (yields_bind (λ _, True)); [apply yields_any|]. intros data _.
  destruct (loadConfigFile path data) as [u|] eqn:El; [|apply yields_fail]. apply yields_ret, update_wf; [done|by eapply loadConfigFile_wf].
Qed.

Lemma tryUpdatingCache_wf k p :
  wf_cache p →
  let '(p', o) := tryUpdatingCache k p in wf_cache p' ∧ ∀ c, o = Ret c → wf_config c ∧ configCache p' !! k = Some c.
Proof.
  intros Hp. unfold tryUpdatingCache, mbind, M_bind, on_world, zoom.
  destruct (Read read_config _ _ (p_world p)) as [w [[c conf]|e|cr]] eqn:Ew; [|done|done].
  apply read_configs_wf, with_defaults_wf in Ew. simpl. split; [by apply map_Forall_insert_2|].
  intros c' [= <-]. split; [done|]. simpl. by rewrite lookup_insert_eq.
Qed.

(** C18: Whatever is in the files and whichever system call fails, the cache
    holds consistent configurations only: registries sorted by prefix, each
    prefix once, an empty location only for a wildcard, every mirror with a
    location, credential helpers and a mode for short names.  What is returned
    is in the cache and is returned again without a look at the files. *)
Theorem getConfig_consistent ctx p :
  wf_cache p →
  let '(p', o) := getConfig ctx p in
  wf_cache p' ∧ ∀ c, o = Ret c → wf_config c ∧ getConfig ctx p' = (p', Ret c).
Proof.
  intros Hp. unfold getConfig. unfold mbind at 1, M_bind at 1, gets. simpl.
  destruct (configCache p !! newConfigWrapper ctx) as [c|] eqn:Ec.
  - simpl. split; [done|]. intros c' [= <-]. split; [by eapply Hp|]. unfold mbind, M_bind. simpl. by rewrite Ec.
  - pose proof (tryUpdatingCache_wf (newConfigWrapper ctx) p Hp) as Ht. destruct (tryUpdatingCache _ p) as [p' o].
    destruct Ht as [Hp' Hc]. split; [done|]. intros c Eo. destruct (Hc c Eo) as [Hw Hl]. split; [done|]. unfold mbind, M_bind. simpl. by rewrite Hl.
Qed.

Lemma usable_in_mirrors r b m : m ∈ usable_mirrors r b → m ∈ Mirrors r.
Proof. unfold usable_mirrors. repeat case_match; [done|by intros ?%elem_of_nil|]. by intros [_ ?]%list_elem_of_filter. Qed.

Lemma endpoint_location r b ep :
  wf_registry r → ep ∈ (usable_mirrors r b ++ [Endpoint_ r])%list → Location ep = "" → String.prefix "*." (Prefix r) = true.
Proof.
  intros [Hl _ Hm] [Hin%usable_in_mirrors|Hin%list_elem_of_singleton]%elem_of_app; [|by subst]. eapply Forall_forall in Hm as (? & _); [|done]. done.
Qed.

(** With a consistent configuration, the sources of a reference can only be
    refused because the location that is configured for one of them does not
    make a valid name of it; in particular the prefix is never at fault. *)
Theorem PullSources_error config r ref e :
  wf_config config → findRegistryWithParsedConfig config (Name ref) = Some r → PullSourcesFromReference r ref = inr e →
  ∃ ep n, ep ∈ (usable_mirrors r (bool_decide (is_Some (Digest ref))) ++ [Endpoint_ r])%list ∧ refMatchingPrefix (Name ref) (Prefix r) = Some n ∧
    Location ep ≠ "" ∧ ParseNamed (Location ep +:+ string_drop n (String_ ref)) = inr e.
Proof.
  intros [[Hr _ _] _ _] [Hin [n Hn]]%found_matches. eapply Forall_forall in Hr as [Hr _]; [|done].
  destruct (refMatchingPrefix_longer _ _ _ _ Hn (suffix_follows ref)) as [_ Hs]. rewrite <- String_suffix in Hs.
  pose proof (λ ep, endpoint_location r (bool_decide (is_Some (Digest ref))) ep Hr) as Hl. revert Hl. unfold PullSourcesFromReference.
  generalize (usable_mirrors r (bool_decide (is_Some (Digest ref))) ++ [Endpoint_ r])%list. intros l.
  induction l as [|ep l IH]; simpl; [done|]. intros Hl. destruct (rewriteReference ep ref (Prefix r)) as [r'|e'] eqn:Er.
  - destruct (pull_sources l ref (Prefix r)); [done|]. intros [= ->]. destruct IH as (ep' & n' & ? & ?); [by intros ? ?; apply Hl; right|done|].
    exists ep', n'. by split; [right|].
  - intros [= ->]. exists ep, n. split; [left|]. split; [done|]. unfold rewriteReference in Er. rewrite Hs in Er. case_decide as Hep; [|done].
    rewrite (Hl ep) in Er; [done|left|done].
Qed.
End Cache.

(** ** Wildcards *)

(** The registries below a domain are blocked. *)
Definition blocked_io : parsedConfig :=
  mkParsed (mkV2 (Some [mkRegistry "*.io" (mkEndpoint "" false "" "") [] true false]) None None "" "" None) "" ShortNameModePermissive ∅.

(** A wildcard only looks at the first place where its domain occurs in the
    name: with [*.io] blocked, [registry.ionos.io] is not, since [.io] occurs
    first as the beginning of [.ionos]. *)
Theorem wildcard_first_occurrence :
  from_option Blocked false (findRegistryWithParsedConfig blocked_io "registry.example.io/app") = true ∧
  findRegistryWithParsedConfig blocked_io "registry.ionos.io/app" = None.
Proof. done. Qed.
(** ** Witnesses *)

Definition demo_mirror : Endpoint := mkEndpoint "mirror.example.com:5000/hub" false MirrorAll "".
Definition demo_tag_mirror : Endpoint := mkEndpoint "tags.example.com" true MirrorByTagOnly "".
Definition demo_hub : Registry := mkRegistry "docker.io" (mkEndpoint "docker.io" false "" "") [demo_mirror; demo_tag_mirror] false false.
Definition demo_broken : Registry := mkRegistry "quay.io/team" (mkEndpoint "bad_host!" false "" "") [] false false.
Definition demo_registries : parsedConfig :=
  mkParsed (mkV2 (Some [demo_hub; demo_broken]) None (Some [AuthenticationFileHelper]) "" "" None) "" ShortNameModePermissive ∅.

Definition demo_image : Named := NCanonical (mkRepository "docker.io" "library/busybox") "sha256:0123456789abcdef0123456789abcdef".
Definition demo_sources : list PullSource :=
  [mkPullSource demo_mirror (NCanonical (mkRepository "mirror.example.com:5000" "hub/library/busybox") "sha256:0123456789abcdef0123456789abcdef");
   mkPullSource (Endpoint_ demo_hub) demo_image].

Lemma demo_parsed : ParseNormalizedNamed "busybox@sha256:0123456789abcdef0123456789abcdef" = inl demo_image.
Proof. vm_compute. reflexivity. Qed.
Lemma demo_pulled : PullSourcesFromReference demo_hub demo_image = inl demo_sources.
Proof. vm_compute. reflexivity. Qed.

Lemma PullSources_keep_reference_witness : Forall (pulls "docker.io" demo_image) demo_sources.
Proof. exact (proj2 (PullSources_keep_reference demo_registries demo_hub demo_image _ _ eq_refl demo_parsed demo_pulled)). Defined.

Lemma demo_wf : wf_config demo_registries.
Proof.
  constructor; [|by eexists _, _|done]. constructor; simpl.
  - repeat constructor; try done; simpl; (split; [done|]); (split; [repeat (first [left|right])|done]).
  - repeat constructor.
  - apply NoDup_cons. split; [by intros ?%list_elem_of_singleton|apply NoDup_singleton].
Qed.

(** A name below a prefix with a path. *)
Lemma findRegistry_longest_witness :
  findRegistryWithParsedConfig demo_registries "quay.io/team/app:1.0" = Some demo_broken ∧ covers "quay.io/team" "quay.io/team/app:1.0".
Proof.
  pose proof (findRegistry_longest demo_registries "quay.io/team/app:1.0") as H.
  assert (findRegistryWithParsedConfig demo_registries "quay.io/team/app:1.0" = Some demo_broken) as E by (vm_compute; reflexivity).
  split; [exact E|]. rewrite E in H. apply H; [repeat constructor; done|]. intros a b Ea.
  do 8 (destruct a as [|? a]; [discriminate Ea|injection Ea as <- Ea]). reflexivity.
Defined.

Definition demo_app : Named := NTagged (mkRepository "quay.io" "team/app") "1.0".
Lemma demo_no_name : PullSourcesFromReference demo_broken demo_app = inr (ErrOther "invalid reference format").
Proof. vm_compute. reflexivity. Qed.

Lemma PullSources_error_witness :
  ∃ ep n, ep ∈ [Endpoint_ demo_broken] ∧ refMatchingPrefix "quay.io/team/app" "quay.io/team" = Some n ∧ Location ep ≠ "" ∧
    ParseNamed (Location ep +:+ string_drop n "quay.io/team/app:1.0") = inr (ErrOther "invalid reference format").
Proof. exact (PullSources_error demo_registries demo_broken demo_app _ demo_wf eq_refl demo_no_name). Defined.

#[local] Instance demo_toml : TOML := {
  toml_registries data := if decide (data = "main") then inl (mkV2 (Some [demo_hub]) None None "enforcing" "" None, mkV1 None None None) else inr (ErrOther "toml");
  toml_aliases data := inr (ErrOther "toml");
  toml_Encode_aliases m := inr (ErrOther "toml")
}.
#[local] Instance demo_users : Users := { GetRootlessUID := 0%Z; Geteuid := 0%Z }.
#[local] Existing Instance demo_environment.
Definition demo_proc : Proc := mkProcess (set_files {[ "/etc/containers/registries.conf" := "main" ]} ConfigFileFacts.demo_config) ∅ ∅.

Lemma getConfig_consistent_witness :
  let '(p, o) := getConfig None demo_proc in wf_cache p ∧ ∃ c, o = Ret c ∧ wf_config c ∧ getConfig None p = (p, Ret c).
Proof.
  pose proof (getConfig_consistent None demo_proc) as Hc. assert (wf_cache demo_proc) as Hw by (apply map_Forall_empty).
  specialize (Hc Hw). destruct (getConfig None demo_proc) as [p o] eqn:E. destruct Hc as [Hp Hc]. split; [done|].
  assert (∃ c, o = Ret c) as [c ->]; [|exists c; split; [done|by apply Hc]].
  apply (f_equal snd) in E. vm_compute in E. subst o. by eexists.
Defined.
End SysRegistriesFacts.
