(* ===== verification/AliasFacts.v ===== *)
(** * Theorems about the aliases of short names

    The file of aliases that the library writes: which files are accepted, and
    that an alias that was added is the one that is resolved. *)

From S2P Require Import Prelude World Paths StoreUtil LockFile Codec GoRegexp ConfigFile DockerReference ReferenceFacts SysRegistries LayerDemo.
Local Open Scope string_scope.

Module AliasFacts.
Import Regexp ConfigFile DockerReference ReferenceFacts SysRegistries.

Section Cache.
Context `{Digests} `{Unicode}.

(** What an entry of the file stands for. *)
Definition alias_value (value : string) : option Named :=
  if decide (value = "") then None else match parseShortNameValue value with inl n => Some n | inr _ => None end.

Definition valid_alias (name value : string) : Prop := validateShortName name = None ∧ (value = "" ∨ is_Some (alias_value value)).
Definition valid_aliases (m : gmap string string) : Prop := map_Forall valid_alias m.

Lemma alias_value_inl value n : parseShortNameValue value = inl n → value ≠ "" ∧ alias_value value = Some n.
Proof.
  intros E. assert (value ≠ "") as Hv.
  { intros ->. unfold parseShortNameValue in E. destruct (Parse "") as [r|] eqn:Er; [|done].
    apply Parse_inv in Er as (name & t & d & W & _ & _ & Et & _). apply wellformed_nonempty in W. by destruct name. }
  split; [done|]. unfold alias_value. by rewrite decide_False, E.
Qed.

Lemma add_aliases_spec path m :
  let acc := map_fold (add_alias path) (∅, []) m in
  (acc.2 = [] ↔ valid_aliases m) ∧ (acc.2 = [] → acc.1 = (λ v, mkAlias (alias_value v) path) <$> m).
Proof.
  apply (map_fold_weak_ind (λ acc m, (acc.2 = [] ↔ valid_aliases m) ∧ (acc.2 = [] → acc.1 = (λ v, mkAlias (alias_value v) path) <$> m))).
  { split; [|by rewrite fmap_empty]. split; [intros _; apply map_Forall_empty|done]. }
  clear m. intros k v m [res errs] Hk [Hv Hr]. unfold add_alias. cbn [fst snd] in *.
  assert (valid_aliases (<[k := v]> m) ↔ valid_alias k v ∧ valid_aliases m) as -> by (by apply map_Forall_insert).
  unfold valid_alias, alias_value at 1. rewrite fmap_insert.
  assert (∀ l (e : error), (l ++ [e])%list ≠ []) as Hne by (by intros []).
  destruct (validateShortName k) as [e|].
  { assert ((errs ++ [e])%list ≠ [] ∧ ∀ e', ((errs ++ [e]) ++ [e'])%list ≠ []) as [Ha Hb] by (split; [|intros e']; apply Hne).
    destruct (decide (v = "")) as [->|Hn]; [|destruct (parseShortNameValue v)]; simpl; (split; [|by intros ?%Ha || intros ?%Hb]); (split; [by intros ?%Ha || intros ?%Hb|]); by intros [[? _] _]. }
  destruct (decide (v = "")) as [->|Hn]; [|destruct (parseShortNameValue v) as [n|e] eqn:Ep]; simpl.
  - split; [|by intros ->%Hr]. rewrite Hv. split; [by intros ?; split_and!; [|left|]|by intros [_ ?]].
  - assert (alias_value v = Some n) as -> by (unfold alias_value; by rewrite decide_False, Ep).
    split; [|by intros ->%Hr]. rewrite Hv. split; [by intros ?; split_and!; [|right|]|by intros [_ ?]].
  - split; [|by intros ?%Hne]. split; [by intros ?%Hne|]. by intros [[_ [?|[x Hx]]] _].
Qed.

(** A file of aliases is accepted if all its entries are, and every one is kept. *)
Lemma newShortNameAliasCache_spec path m :
  (valid_aliases m → newShortNameAliasCache path (Some m) = inl ((λ v, mkAlias (alias_value v) path) <$> m)) ∧
  (¬ valid_aliases m → ∃ e, newShortNameAliasCache path (Some m) = inr e).
Proof.
  unfold newShortNameAliasCache. simpl. pose proof (add_aliases_spec path m) as Hs. destruct (map_fold _ _ m) as [res errs]. destruct Hs as [Hv Hr]. simpl in *.
  split; [intros ->%Hv; by rewrite Hr|]. intros Hn. destruct errs as [|e errs]; [by destruct Hn; apply Hv|]. by eexists.
Qed.
End Cache.

(** ** The file *)

Section File.
Context `{Digests} `{Unicode} `{Environment} `{TOML} `{Users}.

(** Writing a table of valid aliases and reading it again gives the table. *)
Hypothesis toml_roundtrip : ∀ m, valid_aliases m → ∃ data, toml_Encode_aliases (Some m) = inl data ∧
  ∃ conf, toml_aliases data = inl conf ∧ default ∅ conf = m.

Context (confPath : string).

(** The aliases of a file that can be loaded. *)
Definition aliases_of (w : World) : option (gmap string string) :=
  match w_files w !! confPath with
  | None => Some ∅
  | Some data => match toml_aliases data with inl conf => Some (default ∅ conf) | inr _ => None end
  end.

(** No system call fails, and nobody holds the lock of the file. *)
Definition idle (p : Proc) : Prop :=
  w_faults (p_world p) = [] ∧
  ∀ l, lockFiles p !! lock_path confPath = Some l → lf_is MFree 0 false None l ∧ file l = lock_path confPath ∧ ro l = false.

(** The lock is held. *)
Definition locked_by (t : LockType) (p : Proc) : Prop :=
  w_faults (p_world p) = [] ∧
  ∃ l, lockFiles p !! lock_path confPath = Some l ∧ lf_is (held_by t) 1 true (Some t) l ∧ file l = lock_path confPath ∧ ro l = false.

(** The file is as it was. *)
Definition same_file (p p' : Proc) : Prop := w_files (p_world p') !! confPath = w_files (p_world p) !! confPath ∧ configCache p' = configCache p.

Hypothesis own_lock : lock_path confPath ≠ confPath.

Lemma getLock_ok p :
  idle p → ∃ p' l, getShortNameAliasesLock confPath p = (p', Ret (lock_path confPath)) ∧ idle p' ∧ same_file p p' ∧ lockFiles p' !! lock_path confPath = Some l.
Proof.
  intros [Hf Hl]. unfold getShortNameAliasesLock, on_table, GetLockFile, getLockfile, zoom, gets, modify, mbind, M_bind. simpl. fold (lock_path confPath).
  destruct (lockFiles p !! lock_path confPath) as [l|] eqn:El.
  - pose proof (Hl l eq_refl) as (Hi & _ & Hr). unfold IsReadWrite. rewrite Hr. simpl. exists p, l. destruct p. simpl in *. split; [done|].
    split; [split; [done|]; simpl; by rewrite El|]. by split.
  - unfold createLockFileForPath, mbind, M_bind. simpl. destruct (openLock_ok (lock_path confPath) (p_world p) Hf) as (w' & Eo & Hw' & Hsame).
    unfold filepath_Clean, lock_path in *. rewrite Eo, newLastWrite_run. simpl. eexists _, _. split; [done|]. simpl. rewrite lookup_insert_eq. split_and!; [split; simpl|split; simpl|done].
    + done.
    + rewrite lookup_insert_eq. by intros l [= <-].
    + by apply Hsame.
    + done.
Qed.

Lemma on_lock_eq {A} (m : M LF A) p l :
  lockFiles p !! lock_path confPath = Some l →
  on_lock (lock_path confPath) m p =
  let '((w, l'), o) := m (p_world p, l) in (mkProcess w (configCache p) (<[lock_path confPath := l']> (lockFiles p)), o).
Proof.
  intros El. unfold on_lock, zoom, gets, mbind, M_bind. simpl. rewrite El. simpl. rewrite El. simpl. by destruct (m _) as [[w l'] o].
Qed.

Lemma lock_ok' t p l :
  idle p → lockFiles p !! lock_path confPath = Some l →
  ∃ p', on_lock (lock_path confPath) (lock t) p = (p', Ret tt) ∧ locked_by t p' ∧ same_file p p'.
Proof.
  intros [Hf Hl] El. destruct (Hl l El) as (Hi & Hfile & Hro). destruct (lock_ok t (p_world p) l Hf Hi) as (w' & l' & E & [Hw' Hsame] & Hi' & Hfl & Hr).
  rewrite (on_lock_eq _ _ _ El), E. eexists. split; [done|]. split; [|split; [apply Hsame; congruence|done]].
  split; [done|]. exists l'. simpl. rewrite lookup_insert_eq. split_and!; congruence.
Qed.

Lemma unlock_ok t p :
  locked_by t p → ∃ p', on_lock (lock_path confPath) Unlock p = (p', Ret tt) ∧ idle p' ∧ p_world p' = p_world p ∧ configCache p' = configCache p.
Proof.
  intros [Hf (l & El & (Hm & Hc & Hl & Ht) & Hfile & Hro)]. simpl in Ht. rewrite (on_lock_eq _ _ _ El), Unlock_run, Hc, Ht, Hm by (done || lia).
  destruct t; simpl; eexists; (split; [done|]); (split; [|done]); (split; [done|]); intros l'; simpl; rewrite lookup_insert_eq; by intros [= <-].
Qed.

Lemma load_ok p m :
  w_faults (p_world p) = [] → aliases_of (p_world p) = Some m → valid_aliases m →
  ∃ conf, loadShortNameAliasConf confPath p = (p, Ret (conf, (λ v, mkAlias (alias_value v) confPath) <$> m)) ∧ default ∅ conf = m.
Proof.
  unfold aliases_of. intros Hf Ha Hv. unfold loadShortNameAliasConf. unfold mbind, M_bind, on_world, zoom, try, os_ReadFile. rewrite syscall_ok by done.
  unfold gets, mbind, M_bind. destruct p as [w c t]. simpl in *.
  assert (∀ conf, default ∅ conf = m → newShortNameAliasCache confPath conf = inl ((λ v, mkAlias (alias_value v) confPath) <$> m)) as Hcache.
  { intros conf Ec. destruct (newShortNameAliasCache_spec confPath m) as [E _]. rewrite <- (E Hv). unfold newShortNameAliasCache. by rewrite Ec. }
  destruct (w_files w !! confPath) as [data|]; simpl.
  - destruct (toml_aliases data) as [conf|]; [|done]. injection Ha as Ec. rewrite (Hcache conf Ec). by exists conf.
  - injection Ha as Ec. rewrite (Hcache None) by done. by exists None.
Qed.

Lemma write_ok p m : w_faults (p_world p) = [] → valid_aliases m →
  ∃ p', write_aliases confPath (Some m) p = (p', Ret tt) ∧ w_faults (p_world p') = [] ∧ aliases_of (p_world p') = Some m ∧
    is_Some (w_files (p_world p') !! confPath) ∧ lockFiles p' = lockFiles p.
Proof.
  intros Hf Hv. destruct (toml_roundtrip m Hv) as (data & Ed & conf & Ec & Em). unfold write_aliases.
  unfold mbind, M_bind, on_world, zoom, try. rewrite syscall_ok by done. rewrite Ed. simpl. unfold os_WriteFile, pop_fault, mbind, M_bind. simpl.
  rewrite Hf. simpl. unfold os_Close. rewrite syscall_ok by done. simpl. eexists. split; [done|]. simpl. unfold aliases_of. simpl.
  rewrite lookup_insert_eq, Ec, Em. by split_and!.
Qed.

Context (ctx : option SystemContext).
Hypothesis conf_path : shortNameAliasesConfPath ctx = inl confPath.

Lemma aliases_of_same p p' : same_file p p' → aliases_of (p_world p') = aliases_of (p_world p).
Proof. intros [E _]. unfold aliases_of. by rewrite E. Qed.

(** A change of the file, up to the point where the new table is made. *)
Lemma edit_begin name value p m :
  idle p → aliases_of (p_world p) = Some m → valid_aliases m → validateShortName name = None → value_error value = None →
  ∃ p3 conf, locked_by WriteLock p3 ∧ aliases_of (p_world p3) = Some m ∧ default ∅ conf = m ∧
    editShortNameAlias ctx name value p =
    finally (match edit_aliases conf name value with inl conf => write_aliases confPath conf | inr e => fail e end) (on_lock (lock_path confPath) Unlock) p3.
Proof.
  intros Hi Ha Hv Hn Hval. unfold editShortNameAlias. rewrite Hn, Hval, conf_path.
  set (p1 := mkProcess (set_dirs ({[filepath_Dir confPath]} ∪ list_to_set (ancestors (filepath_Dir confPath)) ∪ w_dirs (p_world p)) (p_world p)) (configCache p) (lockFiles p)).
  assert (idle p1) as Hi1 by done. destruct (getLock_ok p1 Hi1) as (p2 & l & E2 & Hi2 & S2 & El2).
  destruct (lock_ok' WriteLock p2 l Hi2 El2) as (p3 & E3 & Hl3 & S3). assert (aliases_of (p_world p3) = Some m) as Ha3.
  { by rewrite (aliases_of_same _ _ S3), (aliases_of_same _ _ S2). }
  destruct (load_ok p3 m (proj1 Hl3) Ha3 Hv) as (conf & E4 & Ec).
  assert (ro l = false) as Hro by (by apply Hi2).
  assert (on_lock (lock_path confPath) Lock p2 = (p3, Ret tt)) as E3'.
  { rewrite <- E3, !(on_lock_eq _ _ _ El2). unfold Lock, getL, gets. unfold mbind at 1, M_bind at 1. simpl. by rewrite Hro. }
  exists p3, conf. split_and!; [done..|]. unfold on_world at 1, zoom. unfold mbind at 1, M_bind at 1, os_MkdirAll. rewrite syscall_ok by apply Hi. unfold modify. simpl.
  fold p1. unfold mbind at 1, M_bind at 1. rewrite E2. unfold mbind at 1, M_bind at 1. rewrite E3'. unfold finally, mbind, M_bind. by rewrite E4.
Qed.

Lemma edit_ok name value p m m' :
  idle p → aliases_of (p_world p) = Some m → valid_aliases m → validateShortName name = None → value_error value = None →
  (∀ conf, default ∅ conf = m → edit_aliases conf name value = inl (Some m')) → valid_aliases m' →
  ∃ p', editShortNameAlias ctx name value p = (p', Ret tt) ∧ idle p' ∧ aliases_of (p_world p') = Some m' ∧ is_Some (w_files (p_world p') !! confPath).
Proof.
  intros Hi Ha Hv Hn Hval Hedit Hv'. destruct (edit_begin name value p m) as (p3 & conf & Hl3 & Ha3 & Ec & ->); [done..|].
  destruct (write_ok p3 m' (proj1 Hl3) Hv') as (p5 & E5 & Hf5 & Ha5 & Hex & Ht5).
  destruct (unlock_ok WriteLock p5) as (p6 & E6 & Hi6 & Hw6 & _); [split; [done|]; rewrite Ht5; apply Hl3|].
  exists p6. split; [|by rewrite Hw6]. unfold finally. by rewrite (Hedit conf Ec), E5, E6.
Qed.

Lemma resolve_ok name p m v :
  idle p → aliases_of (p_world p) = Some m → is_Some (w_files (p_world p) !! confPath) → valid_aliases m → m !! name = Some v →
  ∃ p', ResolveShortNameAlias ctx name p = (p', Ret (alias_value v, confPath)) ∧ idle p'.
Proof.
  intros Hi Ha Hex Hv Hm. unfold ResolveShortNameAlias. destruct (Hv _ _ Hm) as [-> _]. rewrite conf_path.
  unfold mbind at 1, M_bind at 1, on_world at 1, zoom, try, fileutils_Exists, os_Open. rewrite syscall_ok by apply Hi. unfold mbind at 1, M_bind at 1, gets. simpl. rewrite decide_True by (by left).
  destruct (getLock_ok p Hi) as (p2 & l & E2 & Hi2 & S2 & El2). destruct (lock_ok' ReadLock p2 l Hi2 El2) as (p3 & E3 & Hl3 & S3).
  assert (aliases_of (p_world p3) = Some m) as Ha3 by (by rewrite (aliases_of_same _ _ S3), (aliases_of_same _ _ S2)).
  destruct (load_ok p3 m (proj1 Hl3) Ha3 Hv) as (conf & E4 & _). destruct (unlock_ok ReadLock p3 Hl3) as (p4 & E5 & Hi4 & _).
  exists p4. split; [|done]. simpl. replace (mkProcess _ _ _) with p by (by destruct p). unfold user_alias. unfold mbind at 1, M_bind at 1. rewrite E2. unfold mbind at 1, M_bind at 1.
  change RLock with (lock ReadLock). rewrite E3. unfold finally, mbind, M_bind. rewrite E4. unfold alias_in. rewrite lookup_fmap, Hm. simpl. by rewrite E5.
Qed.

(** C31: As long as no system call fails and the file of aliases can be read, an
    alias that is added is the one that the name is resolved to from then on,
    and every other alias of the file still is resolved as before. *)
Theorem AddShortNameAlias_resolves name value n p m :
  idle p → aliases_of (p_world p) = Some m → valid_aliases m → validateShortName name = None → parseShortNameValue value = inl n →
  ∃ p', AddShortNameAlias ctx name value p = (p', Ret tt) ∧ (ResolveShortNameAlias ctx name p').2 = Ret (Some n, confPath) ∧
    ∀ name' value', name' ≠ name → m !! name' = Some value' → (ResolveShortNameAlias ctx name' p').2 = Ret (alias_value value', confPath).
Proof.
  intros Hi Ha Hv Hn Hval. destruct (alias_value_inl _ _ Hval) as [_ Hav].
  assert (valid_aliases (<[name := value]> m)) as Hv' by (apply map_Forall_insert_2; [split; [|right]|]; by rewrite ?Hav).
  destruct (edit_ok name (Some value) p m (<[name := value]> m)) as (p' & E & Hi' & Ha' & Hex); [done..|simpl; by rewrite Hval|by intros ? <-|done|].
  exists p'. split; [exact E|]. split.
  - destruct (resolve_ok name p' _ value Hi' Ha' Hex Hv') as (p2 & -> & _); [by rewrite lookup_insert_eq|]. by rewrite Hav.
  - intros name' value' Hne Hm. destruct (resolve_ok name' p' _ value' Hi' Ha' Hex Hv') as (p2 & -> & _); [by rewrite lookup_insert_ne|]. done.
Qed.

(** An alias can be removed exactly if it is in the file: then the file
    has all the others and not this one; otherwise it is an error and the file
    is as it was. *)
Theorem RemoveShortNameAlias_spec name p m :
  idle p → aliases_of (p_world p) = Some m → valid_aliases m → validateShortName name = None →
  let '(p', o) := RemoveShortNameAlias ctx name p in
  idle p' ∧ aliases_of (p_world p') = Some (delete name m) ∧
  if decide (m !! name = None) then ∃ e, o = Err e else o = Ret tt.
Proof.
  intros Hi Ha Hv Hn. unfold RemoveShortNameAlias. case_decide as Hm.
  - destruct (edit_begin name None p m) as (p3 & conf & Hl3 & Ha3 & Ec & ->); [done..|]. destruct (unlock_ok WriteLock p3 Hl3) as (p4 & E4 & Hi4 & Hw4 & _).
    unfold finally, edit_aliases. rewrite Ec, decide_True by done. simpl. rewrite E4. rewrite Hw4, delete_id by done. split_and!; [done..|]. by eexists.
  - destruct (edit_ok name None p m (delete name m)) as (p' & -> & Hi' & Ha' & _); [done..| |by apply map_Forall_delete|done].
    intros conf <-. unfold edit_aliases. by rewrite decide_False.
Qed.
End File.

(** ** Witnesses *)

#[local] Instance demo_environment : Environment := { LookupEnv _ := None; lookupHomeDir := inr (ErrOther "unknown user");
  systemConfigPath := builtinSystemConfigPath; adminOverrideConfigPath := builtinAdminOverrideConfigPath }.
#[local] Instance demo_users : Users := { GetRootlessUID := 0%Z; Geteuid := 0%Z }.

#[local] Instance demo_toml : TOML := {
  toml_registries data := inr (ErrOther "toml");
  toml_aliases data := match unmarshal data with Some [m] => inl (Some m) | _ => inr (ErrOther "toml") end;
  toml_Encode_aliases conf := inl (marshal [default ∅ conf])
}.
Lemma demo_roundtrip m :
  valid_aliases m → ∃ data, toml_Encode_aliases (Some m) = inl data ∧ ∃ conf, toml_aliases data = inl conf ∧ default ∅ conf = m.
Proof. intros _. eexists. split; [done|]. exists (Some m). split; [|done]. simpl. by rewrite unmarshal_marshal. Qed.

Definition demo_path : string := "/var/cache/containers/short-name-aliases.conf".
Definition demo_table : gmap string string := {[ "fedora" := "quay.io/fedora/fedora" ]}.
Definition demo_proc : Proc := mkProcess (set_files {[ demo_path := marshal [demo_table] ]} (mkWorld ∅ ∅ [] (λ _, zero) 0 [] 1 0 noMeta)) ∅ ∅.
Definition busybox : Named := NRepository (mkRepository "docker.io" "library/busybox").

Lemma demo_own_lock : lock_path demo_path ≠ demo_path.
Proof. vm_compute. discriminate. Qed.
Lemma demo_conf_path : shortNameAliasesConfPath None = inl demo_path.
Proof. vm_compute. reflexivity. Qed.
Lemma demo_idle : idle demo_path demo_proc.
Proof. split; [done|]. by intros l ?. Qed.
Lemma demo_aliases : aliases_of demo_path (p_world demo_proc) = Some demo_table.
Proof. unfold aliases_of. cbn [p_world demo_proc w_files set_files]. rewrite lookup_singleton_eq. simpl. by rewrite unmarshal_marshal. Qed.
Lemma demo_valid : valid_aliases demo_table.
Proof. apply map_Forall_singleton. split; [vm_compute; reflexivity|]. right. eexists. vm_compute. reflexivity. Qed.
Lemma demo_busybox : validateShortName "busybox" = None ∧ parseShortNameValue "docker.io/library/busybox" = inl busybox.
Proof. vm_compute. done. Qed.

Lemma AddShortNameAlias_resolves_witness :
  ∃ p', AddShortNameAlias None "busybox" "docker.io/library/busybox" demo_proc = (p', Ret tt) ∧
    (ResolveShortNameAlias None "busybox" p').2 = Ret (Some busybox, demo_path).
Proof.
  destruct (AddShortNameAlias_resolves demo_roundtrip demo_path demo_own_lock None demo_conf_path "busybox" "docker.io/library/busybox" busybox demo_proc demo_table
    demo_idle demo_aliases demo_valid (proj1 demo_busybox) (proj2 demo_busybox)) as (p' & E & Er & _). exists p'. split; [exact E|exact Er].
Defined.

Lemma RemoveShortNameAlias_spec_witness :
  let '(p', o) := RemoveShortNameAlias None "fedora" demo_proc in o = Ret tt ∧ aliases_of demo_path (p_world p') = Some ∅.
Proof.
  pose proof (RemoveShortNameAlias_spec demo_roundtrip demo_path demo_own_lock None demo_conf_path "fedora" demo_proc demo_table
    demo_idle demo_aliases demo_valid ltac:(vm_compute; reflexivity)) as Hr.
  destruct (RemoveShortNameAlias None "fedora" demo_proc) as [p' o]. destruct Hr as (_ & Ha & Ho). split; [exact Ho|].
  rewrite Ha. unfold demo_table. by rewrite delete_singleton_eq.
Defined.
End AliasFacts.
