(* ===== verification/ShortNames.v ===== *)
(** * Short names: [image/pkg/shortnames]

    What a name without a registry stands for: an alias, or the name in one of
    the registries that are searched, possibly chosen by the user. *)

From S2P Require Import Prelude World StoreUtil LockFile GoRegexp ConfigFile DockerReference SysRegistries.
Local Open Scope string_scope.

Module ShortNames.
Import Regexp ConfigFile DockerReference SysRegistries.

(** [types.SystemContext] *)
Record Context_ := mkContext { sys : SystemContext; PodmanOnlyShortNamesIgnoreRegistriesConfAndForceDockerHub : bool }.

(** The terminal, and the package [promptui], which asks for one of the items. *)
Class Terminal := {
  IsTerminal_stdout : bool;
  IsTerminal_stdin : bool;
  prompt_Run : list string → string + error
}.

Inductive rationale := rationaleNone | rationaleAlias | rationaleUSR | rationaleUserSelection | rationaleEnforcedDockerHub.

(** A value, and whether it is recorded as an alias. *)
Record PullCandidate := mkCandidate { Value : Named; record : bool }.

Record Resolved := mkResolved {
  PullCandidates : list PullCandidate;
  userInput : option Named;
  systemContext : option Context_;
  r_rationale : rationale;
  originDescription : string
}.

Section Names.
Context `{Digests} `{Unicode} `{Environment} `{TOML} `{Users} `{Terminal}.
Notation MP := (M Proc).

Definition lift {A} (r : A + error) : MP A := match r with inl a => mret a | inr e => fail e end.

(** Whether it is a short name, and the reference, or an error. *)
Definition parseUnnormalizedShortName (input : string) : bool * (Named + error) :=
  match Parse input with
  | inr e => (false, inr e)
  | inl (RDigest _) => (true, inr (ErrOther "not a named reference"))
  | inl (RNamed named) => if has_registry (Domain named) then (false, ParseNormalizedNamed input) else (true, inl named)
  end.
Definition IsShortName (input : string) : bool := (parseUnnormalizedShortName input).1.

Definition ctx_sys (ctx : option Context_) : option SystemContext := sys <$> ctx.

Definition Add (ctx : option Context_) (name : string) (value : Named) : MP unit :=
  match parseUnnormalizedShortName name with
  | (_, inr e) => fail e
  | (false, inl _) => fail (ErrOther "not a short name")
  | (true, inl _) => AddShortNameAlias (ctx_sys ctx) name (String_ value)
  end.
Definition Remove (ctx : option Context_) (name : string) : MP unit :=
  match parseUnnormalizedShortName name with
  | (_, inr e) => fail e
  | (false, inl _) => fail (ErrOther "not a short name")
  | (true, inl _) => RemoveShortNameAlias (ctx_sys ctx) name
  end.

(** The candidate of the [Resolved] it is from. *)
Definition Record_ (r : Resolved) (c : PullCandidate) : MP unit :=
  if negb (record c) then mret tt
  else match userInput r with
       | None => stop (Panic "nil pointer dereference")
       | Some input => Add (systemContext r) (String_ (TrimNamed input)) (TrimNamed (Value c))
       end.

(** Tags and digests are put back. *)
Definition with_input (shortRef alias : Named) : MP Named :=
  alias ← lift (match Tag shortRef with Some t => WithTag alias t | None => inl alias end);
  lift (match Digest shortRef with Some d => WithDigest alias d | None => inl alias end).

(** One registry after the other. *)
Definition complete (name reg : string) : MP Named :=
  named ← lift (ParseNormalizedNamed (reg +:+ "/" +:+ name)); TagNameOnly named.
Fixpoint completeCandidates (name : string) (registries : list string) (candidates : list Named) : MP (list Named) :=
  match registries with
  | [] => mret candidates
  | reg :: registries => named ← complete name reg; completeCandidates name registries (candidates ++ [named])%list
  end.

Definition forced (ctx : option Context_) : bool := from_option PodmanOnlyShortNamesIgnoreRegistriesConfAndForceDockerHub false ctx.

Definition candidate (n : Named) : PullCandidate := mkCandidate n false.

(** What is done with several candidates. *)
Definition disambiguate (ctx : option Context_) (mode : shortNameModes) (input : Named) (origin : string) (candidates : list Named) : MP Resolved :=
  let all := mkResolved (candidate <$> candidates) (Some input) ctx rationaleUSR origin in
  if decide (mode = ShortNameModeDisabled) then mret all
  else if decide (length candidates = 1)%nat then mret all
  else if negb IsTerminal_stdout || negb IsTerminal_stdin then
    match mode with
    | ShortNameModePermissive => mret all
    | ShortNameModeEnforcing => fail (ErrOther "short-name resolution enforced but cannot prompt without a TTY")
    | _ => fail (ErrOther "unexpected short-name mode during resolution")
    end
  else
    selection ← lift (prompt_Run (String_ <$> candidates));
    named ← lift (ParseNormalizedNamed selection);
    mret (mkResolved [mkCandidate named true] (Some input) ctx rationaleUserSelection origin).

Definition resolve_short (ctx : option Context_) (mode : shortNameModes) (name : string) (shortRef : Named) : MP Resolved :=
  let input := TrimNamed shortRef in
  '(namedAlias, origin) ← ResolveShortNameAlias (ctx_sys ctx) (String_ input);
  match namedAlias with
  | Some a =>
      a ← with_input shortRef a;
      a ← TagNameOnly a;
      mret (mkResolved [candidate a] (Some input) ctx rationaleAlias origin)
  | None =>
      '(registries, usrConfig) ← UnqualifiedSearchRegistriesWithOrigin (ctx_sys ctx);
      match default [] registries with
      | [] => fail (ErrOther "short-name did not resolve to an alias and no unqualified-search registries are defined")
      | regs => candidates ← completeCandidates name regs []; disambiguate ctx mode input usrConfig candidates
      end
  end.

Definition Resolve (ctx : option Context_) (name : string) : MP Resolved :=
  mode ← GetShortNameMode (ctx_sys ctx);
  if decide (mode = ShortNameModeInvalid) then fail (ErrOther "unsupported short-name mode")
  else match parseUnnormalizedShortName name with
       | (_, inr e) => fail e
       | (false, inl shortRef) => n ← TagNameOnly shortRef; mret (mkResolved [candidate n] None ctx rationaleNone "")
       | (true, inl shortRef) =>
           if forced ctx then
             named ← lift (ParseNormalizedNamed name);
             n ← TagNameOnly named;
             mret (mkResolved [candidate n] None ctx rationaleEnforcedDockerHub "enforced by caller")
           else resolve_short ctx mode name shortRef
       end.

Definition ResolveLocally (ctx : option Context_) (name : string) : MP (list Named) :=
  match parseUnnormalizedShortName name with
  | (_, inr e) => fail e
  | (false, inl shortRef) => n ← TagNameOnly shortRef; mret [n]
  | (true, inl shortRef) =>
      if forced ctx then completeCandidates name ["docker.io"] []
      else
        '(namedAlias, _) ← ResolveShortNameAlias (ctx_sys ctx) (String_ (TrimNamed shortRef));
        aliases ← (match namedAlias with
                   | Some a => a ← with_input shortRef a; a ← TagNameOnly a; mret [a]
                   | None => mret []
                   end);
        '(registries, _) ← UnqualifiedSearchRegistriesWithOrigin (ctx_sys ctx);
        completeCandidates name ("localhost" :: default [] registries) aliases
  end.
End Names.
End ShortNames.
