(* ===== verification/ShortNamesFacts.v ===== *)
(** * Theorems about short names

    Whatever a short name is resolved to has the tag and the digest that were
    asked for; and in enforcing mode there is never more than one candidate. *)

From S2P Require Import Prelude World Paths Strconv StoreUtil LockFile GoRegexp ConfigFile ConfigFileFacts DockerReference ReferenceFacts SysRegistries SysRegistriesFacts ShortNames LayerDemo.
Local Open Scope string_scope.

Module ShortNamesFacts.
Import Regexp ConfigFile ConfigFileFacts DockerReference ReferenceFacts SysRegistries SysRegistriesFacts ShortNames.

Section Facts.
Context `{Digests} `{Unicode}.

(** ** Tags and digests of what is parsed *)

Lemma Parse_parts s n : Parse s = inl (RNamed n) → parts_ok n ∧ s = Name n +:+ suffix_of n ∧ contains_char "@" (Name n) = false.
Proof.
  intros Ep. pose proof (Parse_String _ _ Ep) as Es. simpl in Es. apply Parse_inv in Ep as (name & t & d & W & _ & _ & _ & [= ->]).
  rewrite <- Es, String_suffix. destruct (reference_of_parts name t d (wellformed_nonempty _ _ _ W)) as (EN & ET & ED). split_and!; [|done|].
  - unfold parts_ok. rewrite ET, ED. destruct W as [_ Ht Hd]. clear -Ht Hd. split; intros x; case_decide; intros [= <-]; split; naive_solver.
  - rewrite EN. destruct W as [Wn _ _]. by apply name_absent.
Qed.

Lemma suffix_no_slash n : parts_ok n → contains_char "/" (suffix_of n) = false.
Proof.
  intros [Ht Hd]. unfold suffix_of. rewrite contains_app, orb_false_iff. split.
  - destruct (Tag n) as [t|]; [|done]. simpl. apply tag_absent; [by auto|by apply Ht].
  - destruct (Digest n) as [d|]; [|done]. simpl. apply digest_absent; [by auto|by apply Hd].
Qed.

(** An [@] is only found after the last slash. *)
Lemma parsed_at a b r : Parse (a +:+ "/" +:+ b) = inl r → contains_char "@" a = false.
Proof.
  intros (name & t & d & W & _ & _ & E & _)%Parse_inv. pose proof (cut_digest _ _ _ W) as C. rewrite <- E in C. clear E.
  destruct (contains_char "@" a) eqn:Ea; [|done]. destruct (cut "@" a) as [[a1 a2]|] eqn:Ec; [|by apply cut_None in Ec; congruence].
  apply cut_Some in Ec as [-> Ha1].
  rewrite (string_app_assoc a1 (String "@" a2) ("/" +:+ b)), (proj2 (cut_Some "@" _ a1 (a2 +:+ "/" +:+ b))) in C by done.
  case_decide as Hd; [done|]. injection C as _ <-. destruct W as [_ _ [?|Wd]]; [done|]. apply (digest_absent "/") in Wd; [|by auto].
  rewrite !contains_app in Wd. simpl in Wd. by rewrite orb_true_r in Wd.
Qed.

(** What a name becomes below a registry, or as it is. *)
Definition below (pre : string) : Prop := pre = "" ∨ ∃ reg, pre = reg +:+ "/".

Lemma slash_tail x suf a b : contains_char "/" suf = false → x +:+ suf = a +:+ String "/" b → ∃ b', x = a +:+ String "/" b' ∧ b = b' +:+ suf.
Proof.
  revert a. induction x as [|c x IH]; intros a Hs E.
  - change ("" +:+ suf) with suf in E. rewrite E, contains_app in Hs. simpl in Hs. by rewrite orb_true_r in Hs.
  - rewrite string_app_cons in E. destruct a as [|d a].
    + injection E as -> <-. by exists x.
    + rewrite string_app_cons in E. injection E as -> E. destruct (IH a Hs E) as (b' & -> & ->). by exists b'.
Qed.

Lemma split_tail pre nm suf d rem :
  below pre → contains_char "/" suf = false → splitDockerDomain (pre +:+ nm +:+ suf) = (d, rem) →
  ∃ a b c, d +:+ "/" +:+ rem = a +:+ "/" +:+ b +:+ suf ∧ nm = c +:+ b.
Proof.
  intros Hpre Hs. unfold splitDockerDomain.
  assert (∀ o : string, ∃ a b c, o +:+ "/" +:+ (pre +:+ nm +:+ suf) = a +:+ "/" +:+ b +:+ suf ∧ nm = c +:+ b) as Hwhole.
  { intros o. destruct Hpre as [->|[reg ->]]; [by exists o, nm, ""|]. exists (o +:+ "/" +:+ reg), nm, "". by rewrite !string_app_assoc. }
  assert (∀ (o : string) first rest, cut "/" (pre +:+ nm +:+ suf) = Some (first, rest) →
            ∃ a b c, o +:+ "/" +:+ rest = a +:+ "/" +:+ b +:+ suf ∧ nm = c +:+ b) as Htail.
  { intros o first rest Ec. destruct Hpre as [->|[reg ->]].
    - apply cut_Some in Ec as [E _]. change (nm +:+ suf = first +:+ String "/" rest) in E. apply slash_tail in E as (b' & -> & ->); [|done]. exists o, b', (first +:+ "/"). by rewrite string_app_assoc.
    - rewrite string_app_assoc in Ec. destruct (cut "/" reg) as [[f r']|] eqn:Er.
      + apply cut_Some in Er as [-> Hf]. rewrite string_app_assoc, (proj2 (cut_Some "/" _ f (r' +:+ "/" +:+ nm +:+ suf))) in Ec by done.
        injection Ec as _ <-. exists (o +:+ "/" +:+ r'), nm, "". by rewrite !string_app_assoc.
      + apply cut_None in Er. rewrite (proj2 (cut_Some "/" _ reg (nm +:+ suf))) in Ec by done. injection Ec as _ <-. by exists o, nm, "". }
  assert (∀ o x, (∀ o : string, ∃ a b c, o +:+ "/" +:+ x = a +:+ "/" +:+ b +:+ suf ∧ nm = c +:+ b) →
    (o, if decide (o = defaultDomain ∧ contains_char "/" x = false) then officialRepoName +:+ "/" +:+ x else x) = (d, rem) →
    ∃ a b c, d +:+ "/" +:+ rem = a +:+ "/" +:+ b +:+ suf ∧ nm = c +:+ b) as Hend.
  { intros o x Hx [= <- <-]. case_decide; [|by apply Hx]. destruct (Hx (o +:+ "/" +:+ officialRepoName)) as (a & b & c & E & ->).
    exists a, b, c. by rewrite <- E, !string_app_assoc. }
  destruct (cut "/" (pre +:+ nm +:+ suf)) as [[first rest]|] eqn:Ec; [|by apply Hend].
  destruct (contains_char "." first || contains_char ":" first || bool_decide (first = "localhost")); apply Hend; [|done]. intros o. by eapply Htail.
Qed.

(** The tag and the digest of a reference are those of the name in it. *)
Lemma normalized_keeps pre s n r :
  below pre → Parse s = inl (RNamed n) → ParseNormalizedNamed (pre +:+ s) = inl r →
  (∀ d, Digest n = Some d → Digest r = Some d) ∧ (∀ t, Tag n = Some t → Tag r = Some t).
Proof.
  intros Hpre (Hp & -> & Hat)%Parse_parts (_ & d & rem & Es & _ & Ep)%ParseNormalizedNamed_eq.
  apply split_tail in Es as (a & b & c & E & Enm); [|done|by apply suffix_no_slash]. rewrite E in Ep.
  pose proof (parsed_at _ _ _ Ep) as Ha. rewrite <- (string_app_assoc "/" b), <- (string_app_assoc a) in Ep.
  destruct (parsed_suffix _ _ _ Hp Ep) as [Hd Ht]. split; [done|]. apply Ht. rewrite !contains_app, Ha. simpl.
  rewrite Enm, contains_app, orb_false_iff in Hat. by destruct Hat.
Qed.

(** What a candidate for a reference has to be. *)
Definition candidate_for (n c : Named) : Prop :=
  (∀ d, Digest n = Some d → Digest c = Some d) ∧ (∀ t, Tag n = Some t → Tag c = Some t) ∧ IsNameOnly c = false.

Lemma TagNameOnly_keeps {S} n m :
  (∀ d, Digest n = Some d → Digest m = Some d) → (∀ t, Tag n = Some t → Tag m = Some t) → yields (S := S) (candidate_for n) (TagNameOnly m).
Proof.
  intros Hd Ht s s' r. unfold TagNameOnly. destruct (IsNameOnly m) eqn:Em.
  - unfold IsNameOnly in Em. apply bool_decide_eq_true in Em as [Et Ed]. destruct (WithTag m defaultTag) as [m'|] eqn:Ew; [|done].
    intros <-%ret_inj. unfold WithTag in Ew. destruct (MatchString tag defaultTag); [|done]. simpl in Ew. rewrite Ed in Ew. injection Ew as <-.
    split_and!; [|intros t Ent; rewrite (Ht _ Ent) in Et; done|done]. intros d End. rewrite (Hd _ End) in Ed. done.
  - intros <-%ret_inj. by split_and!.
Qed.

(** ** Resolution *)

Context `{Environment} `{TOML} `{Users} `{Terminal}.

Lemma yields_lift {A} (I : A → Prop) (r : A + error) : (∀ a, r = inl a → I a) → yields I (lift r).
Proof. intros Hr. destruct r as [a|e]; [by apply yields_ret, Hr|apply yields_fail]. Qed.

Lemma with_input_keeps n a : yields (λ m, (∀ d, Digest n = Some d → Digest m = Some d) ∧ (∀ t, Tag n = Some t → Tag m = Some t)) (with_input n a).
Proof.
  unfold with_input. apply (yields_bind (λ m, ∀ t, Tag n = Some t → Tag m = Some t)).
  - apply yields_lift. intros m Em t Et. rewrite Et in Em. unfold WithTag in Em. destruct (MatchString tag t); [|done]. simpl in Em.
    destruct (Digest a); by injection Em as <-.
  - intros m Hm. apply yields_lift. intros m' Em. destruct (Digest n) as [d|]; [|by injection Em as <-]. unfold WithDigest in Em.
    destruct (MatchString digestPat d); [|done]. simpl in Em. split.
    + intros d' [= <-]. destruct (Tag m); by injection Em as <-.
    + intros t Et. rewrite (Hm t Et) in Em. by injection Em as <-.
Qed.

Lemma alias_keeps n a : yields (candidate_for n) (a ← with_input n a; TagNameOnly a).
Proof. eapply yields_bind; [apply with_input_keeps|]. intros m [Hd Ht]. by apply TagNameOnly_keeps. Qed.

(** A candidate is normalised, so that its text means it. *)
Definition normal_candidate (n c : Named) : Prop := candidate_for n c ∧ ParseNormalizedNamed (String_ c) = inl c.

Lemma TagNameOnly_normal {S} s m : ParseNormalizedNamed s = inl m → yields (S := S) (λ c, ParseNormalizedNamed (String_ c) = inl c) (TagNameOnly m).
Proof.
  intros Em σ σ' c. unfold TagNameOnly. destruct (IsNameOnly m) eqn:En.
  - destruct m as [rp| | |]; try done. unfold WithTag. destruct (MatchString tag defaultTag) eqn:Et; [|done]. simpl. intros <-%ret_inj.
    eapply ParseNormalizedNamed_tag; [done|]. unfold MatchString in Et. apply bool_decide_eq_true in Et as [mt Hmt%Find_sound]. by exists mt.
  - intros <-%ret_inj. by eapply ParseNormalizedNamed_fixed.
Qed.

Lemma complete_keeps n name reg : Parse name = inl (RNamed n) → yields (normal_candidate n) (complete name reg).
Proof.
  intros Hn. unfold complete. eapply (yields_bind (λ m, ParseNormalizedNamed (reg +:+ "/" +:+ name) = inl m)); [by apply yields_lift|].
  intros m Em s s' c Ec. split; [|by eapply TagNameOnly_normal]. rewrite <- string_app_assoc in Em.
  destruct (normalized_keeps (reg +:+ "/") name n m) as [Hd Ht]; [by right; exists reg|done..|]. by eapply TagNameOnly_keeps.
Qed.

Lemma completeCandidates_keeps n name regs cs :
  Parse name = inl (RNamed n) → Forall (normal_candidate n) cs →
  yields (λ l, Forall (normal_candidate n) l ∧ length l = length cs + length regs) (completeCandidates name regs cs).
Proof.
  intros Hn. revert cs. induction regs as [|reg regs IH]; intros cs Hcs; simpl; [apply yields_ret; split; [done|lia]|].
  eapply yields_bind; [by apply complete_keeps|]. intros c Hc. eapply yields_mono; [apply IH|].
  - by apply Forall_app_2; [|constructor].
  - intros l [Hl Hlen]. split; [done|]. rewrite length_app in Hlen. simpl in Hlen. lia.
Qed.

Hypothesis prompt_item : ∀ items s, prompt_Run items = inl s → s ∈ items.

Lemma disambiguate_keeps n ctx mode input origin cs :
  Forall (normal_candidate n) cs → cs ≠ [] →
  yields (λ r, Forall (λ c, candidate_for n (Value c)) (PullCandidates r) ∧ PullCandidates r ≠ [] ∧
               (mode = ShortNameModeEnforcing → length (PullCandidates r) = 1)) (disambiguate ctx mode input origin cs).
Proof.
  intros Hcs Hne. assert (Forall (λ c, candidate_for n (Value c)) (candidate <$> cs) ∧ candidate <$> cs ≠ []) as [Hall Hn'].
  { split; [|by destruct cs]. apply Forall_fmap. eapply Forall_impl; [done|]. by intros c []. }
  unfold disambiguate. case_decide as Hm; [apply yields_ret; split_and!; [done..|]; by intros ->|].
  case_decide as Hl; [apply yields_ret; split_and!; [done..|]; intros _; simpl; by rewrite length_fmap|].
  destruct (negb IsTerminal_stdout || negb IsTerminal_stdin).
  { destruct mode; try apply yields_fail. by apply yields_ret. }
  eapply (yields_bind (λ s, s ∈ String_ <$> cs)); [apply yields_lift; intros s; apply prompt_item|]. intros s (c & -> & Hc)%list_elem_of_fmap.
  eapply (yields_bind (λ m, m = c)).
  { apply yields_lift. intros m Em. eapply Forall_forall in Hcs as [_ E]; [|done]. congruence. }
  intros m ->. apply yields_ret. split_and!; simpl; [|done..]. constructor; [|constructor]. simpl. by eapply Forall_forall in Hcs as [? _].
Qed.

Definition resolved_for (n : Named) (mode : shortNameModes) (r : Resolved) : Prop :=
  Forall (λ c, candidate_for n (Value c)) (PullCandidates r) ∧ PullCandidates r ≠ [] ∧ (mode = ShortNameModeEnforcing → length (PullCandidates r) = 1).

Lemma resolved_one n mode c input ctx ra o : candidate_for n c → resolved_for n mode (mkResolved [candidate c] input ctx ra o).
Proof. intros Hc. split_and!; [|done..]. by constructor. Qed.

Lemma resolve_short_keeps n ctx mode name : Parse name = inl (RNamed n) → yields (resolved_for n mode) (resolve_short ctx mode name n).
Proof.
  intros Hn. unfold resolve_short. eapply yields_bind; [apply yields_any|]. intros [[a|] origin] _.
  - intros s s' r E. apply run_bind_ret in E as (s1 & m & Em & E). apply run_bind_ret in E as (s2 & m' & Em' & E).
    apply ret_inj in E as <-. apply resolved_one. eapply (alias_keeps n a s s2 m'). unfold mbind, M_bind. by rewrite Em.
  - eapply yields_bind; [apply yields_any|]. intros [regs usr] _. destruct (default [] regs) as [|reg rs]; [apply yields_fail|].
    eapply yields_bind; [by apply completeCandidates_keeps|]. intros cs [Hcs Hlen]. apply disambiguate_keeps; [done|]. by intros ->.
Qed.

Lemma Resolve_for ctx name p p' r :
  Resolve ctx name p = (p', Ret r) →
  ∃ n mode p1, Parse name = inl (RNamed n) ∧ GetShortNameMode (ctx_sys ctx) p = (p1, Ret mode) ∧ resolved_for n mode r.
Proof.
  unfold Resolve. intros (p1 & mode & Em & E)%run_bind_ret. case_decide; [done|].
  unfold parseUnnormalizedShortName in E. destruct (Parse name) as [[n|dg]|e] eqn:Hn; [|done|done]. exists n, mode, p1. split_and!; [done..|].
  assert (∀ m, ParseNormalizedNamed name = inl m → ∀ (s s' : Proc) c, TagNameOnly m s = (s', Ret c) → candidate_for n c) as Hnorm.
  { intros m Enorm s s' c Ec. destruct (normalized_keeps "" name n m) as [Hd Ht]; [by left|done..|]. by eapply (TagNameOnly_keeps (S := Proc)). }
  destruct (has_registry (Domain n)).
  - destruct (ParseNormalizedNamed name) as [m|] eqn:Enorm; [|done]. apply run_bind_ret in E as (p2 & c & Ec & E). apply ret_inj in E as <-.
    by eapply resolved_one, Hnorm.
  - destruct (forced ctx).
    + apply run_bind_ret in E as (p2 & m & Ef & E). apply run_bind_ret in E as (p3 & c & Ec & E). apply ret_inj in E as <-.
      eapply resolved_one, Hnorm; [|done]. destruct (ParseNormalizedNamed name); [|done]. by apply ret_inj in Ef as ->.
    + by eapply resolve_short_keeps.
Qed.

(** C7: Whatever the files and the environment say, the candidates that a name
    is resolved to have the digest and the tag that were asked for, and a tag or
    a digest in any case; there is at least one.  In enforcing mode there is
    exactly one: the choice is never left to the order of the registries. *)
Theorem Resolve_candidates ctx name p p' r :
  Resolve ctx name p = (p', Ret r) →
  ∃ n mode p1, Parse name = inl (RNamed n) ∧ GetShortNameMode (ctx_sys ctx) p = (p1, Ret mode) ∧ PullCandidates r ≠ [] ∧
    (mode = ShortNameModeEnforcing → length (PullCandidates r) = 1) ∧
    ∀ c, c ∈ PullCandidates r →
      (∀ d, Digest n = Some d → Digest (Value c) = Some d) ∧ (∀ t, Tag n = Some t → Tag (Value c) = Some t) ∧ IsNameOnly (Value c) = false.
Proof.
  intros (n & mode & p1 & Hn & Hm & Hall & Hne & Hlen)%Resolve_for. exists n, mode, p1. split_and!; [done..|].
  intros c Hc. by eapply Forall_forall in Hall.
Qed.
End Facts.

(** ** Witnesses *)

#[local] Instance demo_environment : Environment := { LookupEnv name := if decide (name = "HOME") then Some "/root" else None; lookupHomeDir := inr (ErrOther "unknown user");
  systemConfigPath := builtinSystemConfigPath; adminOverrideConfigPath := builtinAdminOverrideConfigPath }.
#[local] Instance demo_users : Users := { GetRootlessUID := 0%Z; Geteuid := 0%Z }.
#[local] Instance demo_toml : TOML := {
  toml_registries data := inl (mkV2 None (Some ["quay.io"; "docker.io"]) None "enforcing" "" None, mkV1 None None None);
  toml_aliases data := inl None;
  toml_Encode_aliases m := inr (ErrOther "toml")
}.
#[local] Instance demo_terminal : Terminal := {
  IsTerminal_stdout := true;
  IsTerminal_stdin := true;
  prompt_Run items := match reverse items with s :: _ => inl s | [] => inr (ErrOther "no items") end
}.
Lemma demo_prompt items s : prompt_Run items = inl s → s ∈ items.
Proof.
  simpl. destruct (reverse items) as [|x l] eqn:E; [done|]. intros [= <-]. rewrite <- (reverse_involutive items), E, reverse_cons. apply elem_of_app. right. left.
Qed.

Definition demo_proc : Proc :=
  mkProcess (set_files {[ "/etc/containers/registries.conf" := "main" ]} (mkWorld ∅ ∅ [] (λ _, zero) 0 [] 1 0 noMeta)) ∅ ∅.
Definition demo_value : Named := NTagged (mkRepository "docker.io" "library/busybox") "1.0".
Lemma demo_resolved : (Resolve None "busybox:1.0" demo_proc).2 =
  Ret (mkResolved [mkCandidate demo_value true] (Some (NRepository (mkRepository "" "busybox"))) None rationaleUserSelection "/etc/containers/registries.conf").
Proof. vm_compute. reflexivity. Qed.

Lemma Resolve_candidates_witness :
  ∃ n : Named, Parse "busybox:1.0" = inl (RNamed n) ∧ (∀ t, Tag n = Some t → Tag demo_value = Some t) ∧ IsNameOnly demo_value = false.
Proof.
  pose proof (surjective_pairing (Resolve None "busybox:1.0" demo_proc)) as E. rewrite demo_resolved in E.
  destruct (Resolve_candidates demo_prompt None "busybox:1.0" _ _ _ E) as (n & _ & _ & Hn & _ & _ & _ & Hc). exists n. split; [exact Hn|].
  destruct (Hc (mkCandidate demo_value true)) as (_ & Ht & Ho); [left|]. exact (conj Ht Ho).
Defined.

(** A name with a digest and without a registry is a short name for the
    code, although the documentation of [IsShortName] excludes it. *)
Theorem IsShortName_digest : IsShortName "image@sha256:0123456789abcdef0123456789abcdef" = true.
Proof. vm_compute. reflexivity. Qed.
End ShortNamesFacts.
