(* ===== verification/GoJson.v ===== *)
(** * JSON, base64 and hexadecimal text

    The values that [encoding/json] finds in a text, how it decodes them into
    Go variables, and the strict readers of [image/signature/internal/json.go],
    which refuse unknown and repeated keys. *)

From S2P Require Import Prelude StoreUtil Strconv.

Local Open Scope string_scope.

Module GoJson.

(** ** encoding/json *)

(** The fields of an object are in the order of the text, repeated ones too;
    numbers are the literals of the text. *)
Inductive json :=
  | JNull
  | JBool (b : bool)
  | JNumber (literal : string)
  | JString (s : string)
  | JArray (l : list json)
  | JObject (fields : list (string * json)).

(** The package [encoding/json]: the syntax of the text, the folding of names
    with which the fields of a struct are found, and the [float64] nearest to a
    literal: an integer, another value, or out of range. *)
Class JSON := {
  json_Parse : string → json + error;
  foldName : string → string;
  float64_value : string → option Z + error
}.

(** [json.Unmarshal] into a variable; a failure leaves nothing of use. *)
Notation decoder A := (json → A → A + error).

Definition mismatch {A} : A + error := inr (ErrOther "json: cannot unmarshal").

(** [*string], [*int64], [*[]byte], [**string]: null keeps the variable, or
    makes a pointer or a slice nil. *)
Definition into_string : decoder string := λ j s,
  match j with JString t => inl t | JNull => inl s | _ => mismatch end.
Definition into_int64 : decoder Z := λ j z,
  match j with
  | JNumber l => match Atoi l with Some n => inl n | None => mismatch end
  | JNull => inl z
  | _ => mismatch
  end.
Section Floats.
Context `{JSON}.
Definition into_float64 : decoder (option Z) := λ j x,
  match j with JNumber l => float64_value l | JNull => inl x | _ => mismatch end.
End Floats.
Definition into_pointer {A} (zero : A) (d : decoder A) : decoder (option A) := λ j p,
  match j with
  | JNull => inl None
  | _ => match d j (default zero p) with inl a => inl (Some a) | inr e => inr e end
  end.
Definition into_raw : decoder json := λ j _, inl j.

(** ** encoding/base64, encoding/hex *)

Definition b64_value (c : ascii) : option Z :=
  let n := byteZ c in
  (if bool_decide (65 ≤ n ≤ 90) then Some (n - 65)
   else if bool_decide (97 ≤ n ≤ 122) then Some (n - 71)
   else if bool_decide (48 ≤ n ≤ 57) then Some (n + 4)
   else if n =? 43 then Some 62 else if n =? 47 then Some 63 else None)%Z.

Definition byte_of (z : Z) : ascii := ascii_of_nat (Z.to_nat (z mod 256)).

Fixpoint b64_quanta (s : string) : option string :=
  match s with
  | "" => Some ""
  | String a (String b (String c (String d rest))) =>
      match b64_value a, b64_value b with
      | Some x, Some y =>
          let first := byte_of (x * 4 + y / 16)%Z in
          if Ascii.eqb c "=" then
            if Ascii.eqb d "=" && String.eqb rest "" then Some (String first "") else None
          else
            match b64_value c with
            | None => None
            | Some z =>
                let second := byte_of (y * 16 + z / 4)%Z in
                if Ascii.eqb d "=" then if String.eqb rest "" then Some (String first (String second "")) else None
                else match b64_value d, b64_quanta rest with
                     | Some u, Some t => Some (String first (String second (String (byte_of (z * 64 + u)%Z) t)))
                     | _, _ => None
                     end
            end
      | _, _ => None
      end
  | _ => None
  end.

(** Line ends inside the text are skipped. *)
Fixpoint without_newlines (s : string) : string :=
  match s with
  | "" => ""
  | String c s => if Nat.eqb (nat_of_ascii c) 10 || Nat.eqb (nat_of_ascii c) 13 then without_newlines s else String c (without_newlines s)
  end.
Definition base64_DecodeString (s : string) : option string := b64_quanta (without_newlines s).

Definition hex_value (c : ascii) : option nat :=
  let n := nat_of_ascii c in
  if in_range 48 57 n then Some (n - 48) else if in_range 97 102 n then Some (n - 87)
  else if in_range 65 70 n then Some (n - 55) else None.
Fixpoint hex_DecodeString (s : string) : option string :=
  match s with
  | "" => Some ""
  | String a (String b rest) =>
      match hex_value a, hex_value b, hex_DecodeString rest with
      | Some x, Some y, Some t => Some (String (ascii_of_nat (x * 16 + y)) t)
      | _, _, _ => None
      end
  | _ => None
  end.

(** A [[]byte] is base64 text; nil is [None]. *)
Definition into_bytes : decoder (option string) := λ j _,
  match j with
  | JNull => inl None
  | JString s => match base64_DecodeString s with Some b => inl (Some b) | None => inr (ErrOther "illegal base64 data") end
  | _ => mismatch
  end.

(** ** Structs *)

Section Decoding.
Context `{JSON}.

(** A struct takes what it knows and skips the rest; the last of several fields
    with the same name decides. *)
Fixpoint struct_fields {D} (known : list (string * decoder D)) (fields : list (string * json)) (d : D) : D + error :=
  match fields with
  | [] => inl d
  | (k, j) :: fields =>
      match list_find (λ p, foldName p.1 = foldName k) known with
      | None => struct_fields known fields d
      | Some (_, (_, into)) => match into j d with inl d => struct_fields known fields d | inr e => inr e end
      end
  end.
Definition into_struct {D} (known : list (string * decoder D)) : decoder D := λ j d,
  match j with JNull => inl d | JObject fields => struct_fields known fields d | _ => mismatch end.

Definition json_Unmarshal {A} (d : decoder A) (data : string) (zero : A) : A + error :=
  match json_Parse data with inl j => d j zero | inr e => inr e end.

(** ** The strict readers *)

Fixpoint paranoid_fields {D} (resolver : string → option (decoder D)) (seenKeys : list string) (fields : list (string * json)) (d : D) : D + error :=
  match fields with
  | [] => inl d
  | (key, j) :: fields =>
      if decide (key ∈ seenKeys) then inr (ErrJSONFormat "Duplicate key")
      else match resolver key with
           | None => inr (ErrJSONFormat "Unknown key")
           | Some into =>
               match into j d with
               | inl d => paranoid_fields resolver (key :: seenKeys) fields d
               | inr _ => inr (ErrJSONFormat "value of a key")
               end
           end
  end.

Definition ParanoidUnmarshalJSONObject {D} (resolver : string → option (decoder D)) : decoder D := λ j d,
  match j with JObject fields => paranoid_fields resolver [] fields d | _ => inr (ErrJSONFormat "JSON object expected") end.

Definition exact_resolver {D} (exactFields : list (string * decoder D)) (key : string) : option (decoder D) :=
  match list_find (λ p, p.1 = key) exactFields with Some (_, (_, into)) => Some into | None => None end.

Definition keys_of (j : json) : list string := match j with JObject fields => fields.*1 | _ => [] end.

Definition ParanoidUnmarshalJSONObjectExactFields {D} (exactFields : list (string * decoder D)) : decoder D := λ j d,
  match ParanoidUnmarshalJSONObject (exact_resolver exactFields) j d with
  | inr e => inr e
  | inl d => if decide (Forall (λ p, p.1 ∈ keys_of j) exactFields) then inl d else inr (ErrJSONFormat "Key missing in a JSON object")
  end.

Definition JSONFormatToInvalidSignatureError (e : error) : error :=
  match e with ErrJSONFormat m => ErrInvalidSignature m | _ => e end.

(** What a strict reader accepts has every field exactly once, and no other. *)
Lemma paranoid_fields_keys {D} (resolver : string → option (decoder D)) seen fields d d' :
  paranoid_fields resolver seen fields d = inl d' →
  NoDup fields.*1 ∧ ∀ k, k ∈ fields.*1 → k ∉ seen ∧ is_Some (resolver k).
Proof.
  revert seen d. induction fields as [|[k j] fields IH]; intros seen d; simpl; [split; [constructor|by intros ? ?%elem_of_nil]|].
  case_decide as Hk; [done|]. destruct (resolver k) as [into|] eqn:Er; [|done]. destruct (into j d) as [d1|]; [|done].
  intros (Hnd & Hall)%IH. split.
  - constructor; [|done]. intros Hin. destruct (Hall k Hin) as [Hn _]. apply Hn. by left.
  - intros k' [->|Hin]%elem_of_cons; [by rewrite Er|]. destruct (Hall k' Hin) as [Hn ?]. split; [|done]. intros Hs. apply Hn. by right.
Qed.

Lemma exact_fields_keys {D} (exactFields : list (string * decoder D)) j d d' :
  ParanoidUnmarshalJSONObjectExactFields exactFields j d = inl d' →
  ∃ fields, j = JObject fields ∧ NoDup fields.*1 ∧ ∀ k, k ∈ fields.*1 ↔ k ∈ exactFields.*1.
Proof.
  unfold ParanoidUnmarshalJSONObjectExactFields. destruct (ParanoidUnmarshalJSONObject _ j d) as [d1|] eqn:E; [|done].
  case_decide as Hall; [|done]. intros _. destruct j as [| | | | |fields]; try done. simpl in E.
  apply paranoid_fields_keys in E as [Hnd Hk]. exists fields. split_and!; [done..|]. intros k. split.
  - intros [_ Hs]%Hk. unfold exact_resolver in Hs. destruct (list_find _ exactFields) as [[i [k' into]]|] eqn:Ef; [|by destruct Hs].
    apply list_find_Some in Ef as (Hl & Heq & _). simpl in Heq. subst k'. apply list_elem_of_fmap. exists (k, into). split; [done|].
    by apply list_elem_of_lookup_2 in Hl.
  - intros Hin. rewrite Forall_forall in Hall. apply list_elem_of_fmap in Hin as (p & -> & Hp). by apply (Hall p).
Qed.
End Decoding.
End GoJson.
