(* ===== verification/Signatures.v ===== *)
(** * Signatures of images

    [image/internal/signature] (the formats in which signatures are kept),
    [image/signature/simple.go] (what a simple signature says, and who signed
    it), [mechanism.go] with the mechanism of [mechanism_openpgp.go], and
    [image/internal/manifest] (the digest that is signed). *)

From S2P Require Import Prelude World StoreUtil Strconv StringId GoJson GoRegexp DockerReference.

Local Open Scope string_scope.

Module Signatures.
Import GoJson DockerReference.

(** ** Stored signatures *)

Inductive FormatID := SimpleSigningFormat | SigstoreFormat.
Definition format_name (f : FormatID) : string :=
  match f with SimpleSigningFormat => "simple-signing" | SigstoreFormat => "sigstore-json" end.

Record Sigstore := mkSigstore {
  untrustedMIMEType : string;
  untrustedPayload : string;
  untrustedAnnotations : gmap string string
}.
Inductive Signature := SSimple (untrustedSignature : string) | SSigstore (s : Sigstore).

#[global] Instance Sigstore_eq_dec : EqDecision Sigstore.
Proof. solve_decision. Defined.
#[global] Instance Signature_eq_dec : EqDecision Signature.
Proof. solve_decision. Defined.

Definition FormatID_of (s : Signature) : FormatID := match s with SSimple _ => SimpleSigningFormat | SSigstore _ => SigstoreFormat end.

Definition SigstoreSignatureMIMEType := "application/vnd.dev.cosign.simplesigning.v1+json".
Definition SigstoreSignatureAnnotationKey := "dev.cosignproject.cosign/signature".
Definition SigstoreSETAnnotationKey := "dev.sigstore.cosign/bundle".
Definition SigstoreCertificateAnnotationKey := "dev.sigstore.cosign/certificate".
Definition SigstoreIntermediateCertificateChainAnnotationKey := "dev.sigstore.cosign/chain".

(** [encoding/json] on [sigstoreJSONRepresentation]. *)
Class SigstoreJSON := {
  sigstore_Marshal : Sigstore → string + error;
  sigstore_Unmarshal : string → Sigstore + error
}.

Section Blobs.
Context `{SigstoreJSON}.

Definition blobChunk (s : Signature) : string + error :=
  match s with SSimple b => inl b | SSigstore g => sigstore_Marshal g end.

Definition zero_byte : ascii := ascii_of_nat 0.
Definition newline : ascii := ascii_of_nat 10.

Definition Blob (s : Signature) : string + error :=
  match blobChunk s with
  | inr e => inr e
  | inl chunk =>
      match FormatID_of s with
      | SimpleSigningFormat => inl chunk
      | SigstoreFormat => inl (String zero_byte (format_name SigstoreFormat +:+ String newline chunk))
      end
  end.

(** The first bytes by which OpenPGP messages are recognised. *)
Definition openpgp_first : list nat :=
  [160; 161; 162; 163; 200; 144; 145; 146; 61; 196; 136; 137; 138; 139; 194].

Fixpoint printable (s : string) : bool :=
  match s with "" => true | String c s => Nat.leb 32 (nat_of_ascii c) && Nat.ltb (nat_of_ascii c) 127 && printable s end.

Definition FromBlob (blob : string) : Signature + error :=
  match blob with
  | "" => inr (ErrOther "empty signature blob")
  | String c rest =>
      if decide (nat_of_ascii c ∈ openpgp_first) then inl (SSimple blob)
      else if decide (c = zero_byte) then
        match cut newline rest with
        | None => inr (ErrOther "invalid signature format, missing newline")
        | Some (formatBytes, chunk) =>
            if negb (printable formatBytes) then inr (ErrOther "invalid signature format, non-ASCII byte")
            else if decide (formatBytes = format_name SimpleSigningFormat) then inl (SSimple chunk)
            else if decide (formatBytes = format_name SigstoreFormat) then
              match sigstore_Unmarshal chunk with inl g => inl (SSigstore g) | inr e => inr e end
            else inr (ErrOther "unrecognized signature format")
        end
      else inr (ErrOther "unrecognized signature format, starting with binary")
  end.

Definition UnsupportedFormatError (s : Signature) : error :=
  ErrOther ("unsupported signature format " +:+ format_name (FormatID_of s)).
End Blobs.

(** ** Manifests *)

Definition DockerV2Schema1MediaType := "application/vnd.docker.distribution.manifest.v1+json".
Definition DockerV2Schema1SignedMediaType := "application/vnd.docker.distribution.manifest.v1+prettyjws".
Definition DockerV2Schema2MediaType := "application/vnd.docker.distribution.manifest.v2+json".
Definition DockerV2Schema2ConfigMediaType := "application/vnd.docker.container.image.v1+json".
Definition DockerV2ListMediaType := "application/vnd.docker.distribution.manifest.list.v2+json".
(* of the image specification *)
Definition MediaTypeImageManifest := "application/vnd.oci.image.manifest.v1+json".
Definition MediaTypeImageIndex := "application/vnd.oci.image.index.v1+json".
Definition MediaTypeImageConfig := "application/vnd.oci.image.config.v1+json".

(** The descriptors of the image specification: how many there are. *)
Class ImageSpec := descriptors : json → nat + error.

(** The package [libtrust]: the payload of a schema 1 manifest without its
    signatures. *)
Class Libtrust := signature_Payload : string → string + error.

Section Manifests.
Context `{JSON} `{Digests} `{ImageSpec} `{Libtrust}.

Record mime_meta := mkMeta { MediaType : string; SchemaVersion : Z; HasSignatures : bool }.
Definition meta_fields : list (string * (json → mime_meta → mime_meta + error)) :=
  [ ("mediaType", λ j m, match into_string j (MediaType m) with inl s => inl (mkMeta s (SchemaVersion m) (HasSignatures m)) | inr e => inr e end);
    ("schemaVersion", λ j m, match into_int64 j (SchemaVersion m) with inl z => inl (mkMeta (MediaType m) z (HasSignatures m)) | inr e => inr e end);
    ("signatures", λ j m, inl (mkMeta (MediaType m) (SchemaVersion m) (match j with JNull => false | _ => true end))) ].

(** [config.mediaType] *)
Definition config_fields : list (string * (json → string → string + error)) :=
  [("config", into_struct [("mediaType", into_string)])].

Definition GuessMIMEType (manifest : string) : string :=
  match json_Unmarshal (into_struct meta_fields) manifest (mkMeta "" 0 false) with
  | inr _ => ""
  | inl meta =>
      if decide (MediaType meta ∈ [DockerV2Schema2MediaType; DockerV2ListMediaType; MediaTypeImageManifest; MediaTypeImageIndex])
      then MediaType meta
      else if decide (SchemaVersion meta = 1%Z) then
        if HasSignatures meta then DockerV2Schema1SignedMediaType else DockerV2Schema1MediaType
      else if decide (SchemaVersion meta = 2%Z) then
        match json_Unmarshal (into_struct config_fields) manifest "" with
        | inr _ => ""
        | inl config =>
            if decide (config = MediaTypeImageConfig) then MediaTypeImageManifest
            else if decide (config = DockerV2Schema2ConfigMediaType) then DockerV2Schema2MediaType
            else match json_Unmarshal (into_struct [("manifests", λ j _, descriptors j)]) manifest 0%nat with
                 | inr _ => ""
                 | inl n =>
                     if decide (n ≠ 0%nat) then if decide (config = "") then MediaTypeImageIndex else config
                     else MediaTypeImageManifest
                 end
        end
      else ""
  end.

(** [algo] is [algo.FromBytes]. *)
Definition DigestWithAlgorithm (manifest : string) (algo : string → string) : string + error :=
  if decide (GuessMIMEType manifest = DockerV2Schema1SignedMediaType) then
    match signature_Payload manifest with inl payload => inl (algo payload) | inr e => inr e end
  else inl (algo manifest).
Definition manifest_Digest (manifest : string) : string + error := DigestWithAlgorithm manifest FromBytes.

Definition MatchesDigest (manifest expectedDigest : string) : bool + error :=
  match manifest_Digest manifest with inl actual => inl (bool_decide (expectedDigest = actual)) | inr e => inr e end.

Definition NormalizedMIMEType (input : string) : string :=
  if decide (input ∈ [DockerV2Schema1MediaType; DockerV2Schema1SignedMediaType; MediaTypeImageManifest; MediaTypeImageIndex;
                      DockerV2Schema2MediaType; DockerV2ListMediaType])
  then input else DockerV2Schema1SignedMediaType.
End Manifests.

(** ** Signing mechanisms *)

(** The interface [SigningMechanism] and the function that makes a mechanism
    which only knows the given keys.  [keyIdentityForVerificationKeyIdentity]
    is there for the mechanisms that can look identities up. *)
Class SigningMechanism (Mech : Type) := {
  newEphemeralGPGSigningMechanism : list string → M World (Mech * list string);
  Close : Mech → M World unit;
  Verify : Mech → string → M World (string * string);
  keyIdentityForVerificationKeyIdentity : option (Mech → string → M World string)
}.

(** *** OpenPGP *)

(** The package [openpgp]: keys, and messages with the key that signed them. *)
Record MessageDetails (Entity : Type) := mkMessage {
  IsSigned : bool;
  UnverifiedBody : string + error;
  SignatureError : option error;   (* known after the body was read *)
  SignedBy : option Entity;
  SignedByKeyId : Z
}.
Arguments mkMessage {Entity}.
Arguments IsSigned {Entity}.
Arguments UnverifiedBody {Entity}.
Arguments SignatureError {Entity}.
Arguments SignedBy {Entity}.

Class OpenPGP (Entity : Type) := {
  Fingerprint : Entity → option string;   (* of the primary key, if there is one *)
  ReadKeyRing : string → list Entity + error;
  ReadArmoredKeyRing : string → list Entity + error;
  ReadMessage : string → list Entity → MessageDetails Entity + error
}.

(** What the package promises: a message is signed by one of the keys. *)
Class OpenPGPLaw (Entity : Type) `{OpenPGP Entity} :=
  ReadMessage_SignedBy : ∀ data keyring md e, ReadMessage data keyring = inl md → SignedBy md = Some e → e ∈ keyring.

Definition upper (c : ascii) : ascii :=
  if in_range 97 122 (nat_of_ascii c) then ascii_of_nat (nat_of_ascii c - 32) else c.
Fixpoint ToUpper (s : string) : string := match s with "" => "" | String c s => String (upper c) (ToUpper s) end.
Definition key_identity (fingerprint : string) : string := ToUpper (hex_encode fingerprint).

Section OpenPGPMechanism.
Context {Entity : Type} `{OpenPGP Entity}.

(** The keyring of [openpgpSigningMechanism], and the identities of its keys. *)
Definition importKeysFromBytes (keyring : list Entity) (blob : string) : list Entity * list string + error :=
  match match ReadKeyRing blob with
        | inl k => inl k
        | inr err => match ReadArmoredKeyRing blob with inl k => inl k | inr _ => inr err end
        end with
  | inr e => inr e
  | inl entities =>
      let known := omap (λ e, match Fingerprint e with Some f => Some (e, key_identity f) | None => None end) entities in
      inl ((keyring ++ known.*1)%list, known.*2)
  end.

Fixpoint import_blobs (keyring : list Entity) (identities : list string) (blobs : list string) : list Entity * list string + error :=
  match blobs with
  | [] => inl (keyring, identities)
  | blob :: blobs =>
      match importKeysFromBytes keyring blob with
      | inl (k, ki) => import_blobs k (identities ++ ki)%list blobs
      | inr e => inr e
      end
  end.

Definition openpgp_Verify (keyring : list Entity) (unverifiedSignature : string) : string * string + error :=
  match ReadMessage unverifiedSignature keyring with
  | inr e => inr e
  | inl md =>
      if negb (IsSigned md) then inr (ErrOther "not signed")
      else match UnverifiedBody md with
           | inr e => inr e
           | inl content =>
               match SignatureError md with
               | Some e => inr e
               | None =>
                   match SignedBy md with
                   | None => inr (ErrInvalidSignature "Key not found for key ID in signature")
                   | Some e => inl (content, key_identity (default "" (Fingerprint e)))
                   end
               end
           end
  end.

Definition returns {S A} (r : A + error) : M S A := match r with inl a => mret a | inr e => fail e end.

#[global] Instance openpgpSigningMechanism : SigningMechanism (list Entity) := {
  newEphemeralGPGSigningMechanism blobs := returns (import_blobs [] [] blobs);
  Close _ := mret tt;
  Verify keyring sig := returns (openpgp_Verify keyring sig);
  keyIdentityForVerificationKeyIdentity := None
}.
End OpenPGPMechanism.

(** ** Simple signatures *)

Definition signatureType := "atomic container signature".

(** A verified signature. *)
Record VerifiedSignature := mkVerified { DockerManifestDigest : string; DockerReference_ : string }.

#[global] Instance VerifiedSignature_eq_dec : EqDecision VerifiedSignature.
Proof. solve_decision. Defined.

Record untrustedSignature := mkUntrusted {
  untrustedDockerManifestDigest : string;
  untrustedDockerReference : string;
  untrustedCreatorID : option string;
  untrustedTimestamp : option Z
}.

Section Simple.
Context `{JSON} `{Digests}.

(** The two raw parts of the payload. *)
Definition raw_pair (first second : string) : list (string * (json → json * json → json * json + error)) :=
  [(first, λ j p, inl (j, p.2)); (second, λ j p, inl (p.1, j))].

(** [optional]: the creator and the time, and anything else. *)
Definition optional_resolver (key : string) : option (json → option string * option (option Z) → option string * option (option Z) + error) :=
  Some (λ j p,
    if decide (key = "creator") then match into_string j "" with inl s => inl (Some s, p.2) | inr e => inr e end
    else if decide (key = "timestamp") then match into_float64 j (Some 0%Z) with inl x => inl (p.1, Some x) | inr e => inr e end
    else inl p).

(** A timestamp must be an integer that an [int64] holds. *)
Definition integer_timestamp (t : option (option Z)) : option Z + error :=
  match t with
  | None => inl None
  | Some (Some z) => if decide (in_int64 z) then inl (Some z) else inr (ErrInvalidSignature "Field optional.timestamp is not an integer")
  | Some None => inr (ErrInvalidSignature "Field optional.timestamp is not an integer")
  end.

(** [critical]: the type, the image and the identity. *)
Definition critical_fields : list (string * (json → string * (json * json) → string * (json * json) + error)) :=
  [ ("type", λ j p, match into_string j p.1 with inl t => inl (t, p.2) | inr e => inr e end);
    ("image", λ j p, inl (p.1, (j, p.2.2)));
    ("identity", λ j p, inl (p.1, (p.2.1, j))) ].

(** What both kinds of payload share; [null_optional]: a missing optional part
    is written as null. *)
Definition strict_payload (expectedType : string) (null_optional : bool) (data : json) : untrustedSignature + error :=
  match ParanoidUnmarshalJSONObjectExactFields (raw_pair "critical" "optional") data (JNull, JNull) with
  | inr e => inr e
  | inl (critical, optional) =>
      match (match optional with
             | JNull => if null_optional then inl (None, None) else ParanoidUnmarshalJSONObject optional_resolver optional (None, None)
             | _ => ParanoidUnmarshalJSONObject optional_resolver optional (None, None)
             end) with
      | inr e => inr e
      | inl (creatorID, timestamp) =>
          match integer_timestamp timestamp with
          | inr e => inr e
          | inl intTimestamp =>
              match ParanoidUnmarshalJSONObjectExactFields critical_fields critical ("", (JNull, JNull)) with
              | inr e => inr e
              | inl (t, (image, identity)) =>
                  if decide (t ≠ expectedType) then inr (ErrInvalidSignature "Unrecognized signature type")
                  else match ParanoidUnmarshalJSONObjectExactFields [("docker-manifest-digest", into_string)] image "" with
                       | inr e => inr e
                       | inl digestString =>
                           match digest_Parse digestString with
                           | inr _ => inr (ErrInvalidSignature "invalid docker-manifest-digest value")
                           | inl digestValue =>
                               match ParanoidUnmarshalJSONObjectExactFields [("docker-reference", into_string)] identity "" with
                               | inr e => inr e
                               | inl ref => inl (mkUntrusted digestValue ref creatorID intTimestamp)
                               end
                           end
                       end
              end
          end
      end
  end.

Definition strictUnmarshalJSON (data : json) : untrustedSignature + error := strict_payload signatureType false data.

(** [json.Unmarshal] of the signed contents. *)
Definition untrustedSignature_Unmarshal (signed : string) : untrustedSignature + error :=
  match json_Parse signed with
  | inr e => inr e
  | inl j => match strictUnmarshalJSON j with inl u => inl u | inr e => inr (JSONFormatToInvalidSignatureError e) end
  end.

(** [MarshalJSON], up to the text. *)
Definition json_of_payload (typ : string) (u : untrustedSignature) : json + error :=
  if decide (untrustedDockerManifestDigest u = "" ∨ untrustedDockerReference u = "") then inr (ErrOther "Unexpected empty signature content")
  else inl (JObject
    [ ("critical", JObject [ ("identity", JObject [("docker-reference", JString (untrustedDockerReference u))]);
                             ("image", JObject [("docker-manifest-digest", JString (untrustedDockerManifestDigest u))]);
                             ("type", JString typ) ]);
      ("optional", JObject (match untrustedCreatorID u with Some c => [("creator", JString c)] | None => [] end ++
                            match untrustedTimestamp u with Some t => [("timestamp", JNumber (format_int t))] | None => [] end)%list) ]).
Definition MarshalJSON (u : untrustedSignature) : json + error := json_of_payload signatureType u.
End Simple.

(** A state with an operating system in it. *)
Class HasWorld (S : Type) := { get_world : S → World; set_world : World → S → S }.
Definition os {S} `{HasWorld S} {A} (m : M World A) : M S A := zoom get_world set_world m.

(** What a policy accepts in a signature. *)
Record signatureAcceptanceRules (S : Type) := mkRules {
  acceptedKeyIdentities : list string;
  validateSignedDockerReference : string → M S unit;
  validateSignedDockerManifestDigest : string → M S unit
}.
Arguments mkRules {S}.
Arguments acceptedKeyIdentities {S}.
Arguments validateSignedDockerReference {S}.
Arguments validateSignedDockerManifestDigest {S}.

Section Verifying.
Context `{JSON} `{Digests} {Mech : Type} `{SigningMechanism Mech} {S : Type} `{HasWorld S}.

Definition verifyAndExtractSignature (mech : Mech) (unverifiedSignature : string) (rules : signatureAcceptanceRules S) :
    M S (VerifiedSignature * string) :=
  '(signed, keyIdentity) ← os (Verify mech unverifiedSignature);
  keyIdentity ←
    (if decide (keyIdentity ∈ acceptedKeyIdentities rules) then mret keyIdentity
     else match keyIdentityForVerificationKeyIdentity with
          | None => fail (ErrInvalidSignature "signature by key is not accepted")
          | Some withLookup =>
              primaryKey ← os (withLookup mech keyIdentity);
              if decide (primaryKey ∈ acceptedKeyIdentities rules) then mret primaryKey
              else fail (ErrInvalidSignature "signature by key of primary key is not accepted")
          end);
  match untrustedSignature_Unmarshal signed with
  | inr _ => fail (ErrInvalidSignature "signed contents")
  | inl unmatchedSignature =>
      validateSignedDockerManifestDigest rules (untrustedDockerManifestDigest unmatchedSignature);;
      validateSignedDockerReference rules (untrustedDockerReference unmatchedSignature);;
      mret (mkVerified (untrustedDockerManifestDigest unmatchedSignature) (untrustedDockerReference unmatchedSignature), keyIdentity)
  end.
End Verifying.
End Signatures.
