(* ===== verification/ManifestList.v ===== *)
(** * Multi-platform images

    Which platforms are wanted ([image/internal/pkg/platform]), and the two
    formats of lists of manifests, [docker_schema2_list.go] and [oci_index.go]
    of [image/internal/manifest]: choosing an instance, editing, converting. *)

From S2P Require Import Prelude World StoreUtil GoJson GoRegexp DockerReference Signatures ConfigFile.
Local Open Scope string_scope.

(** ** Platforms *)

Module Platform.
Import ConfigFile.

(** The platform the program was compiled for. *)
Class Runtime := { GOOS : string; GOARCH : string }.

(** [imgspecv1.Platform] *)
Record Platform := mkPlatform {
  Architecture : string;
  OS : string;
  OSVersion : string;
  OSFeatures : option (list string);
  Variant : string
}.
#[global] Instance Platform_eq_dec : EqDecision Platform.
Proof. solve_decision. Defined.

(** The fields of [types.SystemContext] that are used; [None] is a nil context. *)
Record SystemContext := mkSystemContext { ArchitectureChoice : string; OSChoice : string; VariantChoice : string }.

(** *** /proc/cpuinfo *)

(** The lines as [bufio.ScanLines] finds them, with their carriage returns. *)
Fixpoint ScanLines (cur : string) (s : string) : list string :=
  match s with
  | EmptyString => if decide (cur = "") then [] else [cur]
  | String c t => if Ascii.eqb c "010" then cur :: ScanLines "" t else ScanLines (cur +:+ String c "") t
  end.
Definition dropCR (line : string) : string := (DockerTransport.CutSuffix line (String "013" "")).1.
Definition MaxScanTokenSize : nat := Z.to_nat 65536.

(** The code points with the property White_Space, in UTF-8. *)
Definition utf8 (l : list nat) : string := foldr (λ n s, String (ascii_of_nat n) s) "" l.
Definition white_space : list string :=
  (utf8 <$> [[32]; [9]; [10]; [11]; [12]; [13]; [194; 133]; [194; 160]; [225; 154; 128]; [226; 128; 168]; [226; 128; 169]; [226; 128; 175];
            [226; 129; 159]; [227; 128; 128]]) ++ ((λ n, utf8 [226; 128; n]) <$> seq 128 11).

Fixpoint TrimLeft (fuel : nat) (s : string) : string :=
  match fuel with
  | 0 => s
  | S fuel => match list_find (λ p, String.prefix p s = true) white_space with Some (_, p) => TrimLeft fuel (string_drop (String.length p) s) | None => s end
  end.
Fixpoint TrimRight (fuel : nat) (s : string) : string :=
  match fuel with
  | 0 => s
  | S fuel => match list_find (λ p, (DockerTransport.CutSuffix s p).2 = true) white_space with Some (_, p) => TrimRight fuel (DockerTransport.CutSuffix s p).1 | None => s end
  end.
Definition TrimSpace (s : string) : string := TrimLeft (String.length s) (TrimRight (String.length s) s).

(** [strings.EqualFold(s, pattern)] for a pattern without letters that are
    folded with characters beyond ASCII. *)
Definition EqualFold (s pattern : string) : bool := bool_decide (DockerReference.ascii_lower s = DockerReference.ascii_lower pattern).

Section Detection.
Context `{Runtime} `{DockerReference.Unicode}.

Fixpoint find_info (pattern : string) (lines : list string) : string + error :=
  match lines with
  | [] => inr (ErrOther "getCPUInfo: pattern not found")
  | line :: lines =>
      if decide (MaxScanTokenSize ≤ String.length line)%nat then inr (ErrOther "bufio.Scanner: token too long")
      else match DockerReference.cut ":" (dropCR line) with
           | Some (key, rest) =>
               if EqualFold (TrimSpace key) pattern
               then inl (TrimSpace (match DockerReference.cut ":" rest with Some (value, _) => value | None => rest end))
               else find_info pattern lines
           | None => find_info pattern lines
           end
  end.

Definition getCPUInfo (pattern : string) : M World string :=
  if decide (GOOS ≠ "linux") then fail (ErrOther "getCPUInfo not implemented")
  else
    os_Open "/proc/cpuinfo";;
    finally (data ← ReadAll "/proc/cpuinfo"; match find_info pattern (ScanLines "" data) with inl v => mret v | inr e => fail e end) os_Close.

Definition getCPUVariantDarwinWindows (arch : string) : string :=
  if decide (arch = "arm64") then "v8" else if decide (arch = "arm") then "v7" else "".

Definition getCPUVariantArm : M World string :=
  r ← try (getCPUInfo "Cpu architecture");
  match r with
  | inr _ => mret ""
  | inl variant =>
      let v := DockerReference.ToLower variant in
      if decide (v ∈ ["8"; "aarch64"]) then mret "v8"
      else if decide (v ∈ ["7m"; "?(12)"; "?(13)"; "?(14)"; "?(15)"; "?(16)"; "?(17)"]) then mret "v7"
      else if decide (v = "7") then
        r ← try (getCPUInfo "model name");
        match r with
        | inr _ => mret ""
        | inl model => if String.prefix "armv6-compatible" (DockerReference.ToLower model) then mret "v6" else mret "v7"
        end
      else if decide (v ∈ ["6"; "6tej"]) then mret "v6"
      else if decide (v ∈ ["5"; "5t"; "5te"; "5tej"]) then mret "v5"
      else if decide (v ∈ ["4"; "4t"]) then mret "v4"
      else if decide (v = "3") then mret "v3"
      else mret ""
  end.

Definition getCPUVariant (os arch : string) : M World string :=
  if decide (os = "darwin" ∨ os = "windows") then mret (getCPUVariantDarwinWindows arch)
  else if decide (arch = "arm" ∨ arch = "arm64") then getCPUVariantArm
  else mret "".

Definition compatibility (arch : string) : option (list string) :=
  if decide (arch = "arm") then Some ["v8"; "v7"; "v6"; "v5"] else if decide (arch = "arm64") then Some ["v8"] else None.

(** [variantOrder[i:]] for the first occurrence of the variant. *)
Fixpoint from_variant (v : string) (order : list string) : option (list string) :=
  match order with [] => None | x :: order' => if decide (x = v) then Some order else from_variant v order' end.

Definition wanted_variants (arch variant : string) : list string :=
  if decide (variant = "") then "" :: default [] (compatibility arch)
  else default [variant] (compatibility arch ≫= from_variant variant) ++ [""].

Definition choice (f : SystemContext → string) (ctx : option SystemContext) : string := from_option f "" ctx.

Definition WantedPlatforms (ctx : option SystemContext) : M World (list Platform) :=
  let wantedArch := if decide (choice ArchitectureChoice ctx = "") then GOARCH else choice ArchitectureChoice ctx in
  detected ← (if decide (choice ArchitectureChoice ctx = "") then getCPUVariant GOOS GOARCH else mret "");
  let wantedVariant := if decide (choice VariantChoice ctx = "") then detected else choice VariantChoice ctx in
  let wantedOS := if decide (choice OSChoice ctx = "") then GOOS else choice OSChoice ctx in
  mret ((λ v, mkPlatform wantedArch wantedOS "" None v) <$> wanted_variants wantedArch wantedVariant).
End Detection.

Definition MatchesPlatform (image wanted : Platform) : bool :=
  bool_decide (Architecture image = Architecture wanted) && bool_decide (OS image = OS wanted) && bool_decide (Variant image = Variant wanted).
End Platform.

(** ** Lists of manifests *)

Module ManifestList.
Import Platform.

(** [compression.Algorithm]: only its names matter here. *)
Record Algorithm := NewAlgorithm_ { Name : string; BaseVariantName : string }.
Definition NewAlgorithm (name nontrivialBaseVariantName : string) : Algorithm :=
  NewAlgorithm_ name (if decide (nontrivialBaseVariantName = "") then name else nontrivialBaseVariantName).
Definition GzipAlgorithmName := "gzip".
Definition ZstdAlgorithmName := "zstd".
Definition ZstdChunkedAlgorithmName := "zstd:chunked".

(** [imgspecv1.Descriptor] and [imgspecv1.Index] *)
Record Descriptor := mkDescriptor {
  MediaType : string;
  Digest : string;
  Size : Z;
  URLs : option (list string);
  Annotations : gomap string;
  Data : option string;
  d_Platform : option Platform;
  ArtifactType : string
}.
Record OCI1Index := mkIndex {
  SchemaVersion : Z;
  i_MediaType : string;
  i_ArtifactType : string;
  Manifests : list Descriptor;
  Subject : option Descriptor;
  i_Annotations : gomap string
}.

Definition set_Digest (x : string) (d : Descriptor) : Descriptor :=
  mkDescriptor (MediaType d) x (Size d) (URLs d) (Annotations d) (Data d) (d_Platform d) (ArtifactType d).
Definition set_Size (x : Z) (d : Descriptor) : Descriptor :=
  mkDescriptor (MediaType d) (Digest d) x (URLs d) (Annotations d) (Data d) (d_Platform d) (ArtifactType d).
Definition set_MediaType (x : string) (d : Descriptor) : Descriptor :=
  mkDescriptor x (Digest d) (Size d) (URLs d) (Annotations d) (Data d) (d_Platform d) (ArtifactType d).
Definition set_Annotations (x : gomap string) (d : Descriptor) : Descriptor :=
  mkDescriptor (MediaType d) (Digest d) (Size d) (URLs d) x (Data d) (d_Platform d) (ArtifactType d).
Definition set_Manifests (l : list Descriptor) (i : OCI1Index) : OCI1Index :=
  mkIndex (SchemaVersion i) (i_MediaType i) (i_ArtifactType i) l (Subject i) (i_Annotations i).

(** The other format. *)
Record Schema2PlatformSpec := mkSpec {
  s_Architecture : string;
  s_OS : string;
  s_OSVersion : string;
  s_OSFeatures : option (list string);
  s_Variant : string;
  s_Features : option (list string)
}.
Record Schema2ManifestDescriptor := mkSchema2 {
  s_MediaType : string;
  s_Size : Z;
  s_Digest : string;
  s_URLs : option (list string);
  s_Platform : Schema2PlatformSpec
}.
Record Schema2List := mkList { l_SchemaVersion : Z; l_MediaType : string; l_Manifests : list Schema2ManifestDescriptor }.

Definition set_s_Digest (x : string) (d : Schema2ManifestDescriptor) := mkSchema2 (s_MediaType d) (s_Size d) x (s_URLs d) (s_Platform d).
Definition set_s_Size (x : Z) (d : Schema2ManifestDescriptor) := mkSchema2 (s_MediaType d) x (s_Digest d) (s_URLs d) (s_Platform d).
Definition set_s_MediaType (x : string) (d : Schema2ManifestDescriptor) := mkSchema2 x (s_Size d) (s_Digest d) (s_URLs d) (s_Platform d).
Definition set_l_Manifests (l : list Schema2ManifestDescriptor) (i : Schema2List) : Schema2List := mkList (l_SchemaVersion i) (l_MediaType i) l.

Record ListUpdate := mkUpdate {
  u_Digest : string;
  u_Size : Z;
  u_MediaType : string;
  ReadOnly_Platform : option Platform;
  ReadOnly_Annotations : gomap string;
  ReadOnly_CompressionAlgorithmNames : option (list string);
  ReadOnly_ArtifactType : string
}.

Inductive ListOp := listOpInvalid | ListOpAdd | ListOpUpdate | ListOpDelete.
Record ListEdit := mkEdit {
  ListOperation : ListOp;
  UpdateOldDigest : string;
  UpdateDigest : string;
  UpdateSize : Z;
  UpdateMediaType : string;
  UpdateAffectAnnotations : bool;
  UpdateAnnotations : gomap string;
  UpdateCompressionAlgorithms : list Algorithm;
  AddDigest : string;
  AddSize : Z;
  AddMediaType : string;
  AddArtifactType : string;
  AddPlatform : option Platform;
  AddAnnotations : gomap string;
  AddCompressionAlgorithms : list Algorithm;
  DeleteIndex : Z
}.

(** An edit with the fields of an update, or of a new entry. *)
Definition update_edit (old new : string) (size : Z) (mediaType : string) : ListEdit :=
  mkEdit ListOpUpdate old new size mediaType false None [] "" 0 "" "" None None [] 0.

(** [slices.IndexFunc], -1 is [None]. *)
Definition IndexFunc {A} (f : A → bool) (l : list A) : option nat := fst <$> list_find (λ x, f x = true) l.

Definition out_of_range {S A} : M S A := stop (Panic "index out of range").

(** *** Annotations *)

Definition OCI1InstanceAnnotationCompressionZSTD := "io.github.containers.compression.zstd".
Definition OCI1InstanceAnnotationCompressionZSTDValue := "true".

Definition annotationsToCompressionAlgorithmNames (annotations : gomap string) : list string :=
  if decide (gomap_get annotations OCI1InstanceAnnotationCompressionZSTD = Some OCI1InstanceAnnotationCompressionZSTDValue)
  then [ZstdAlgorithmName] else [GzipAlgorithmName].

Definition instanceIsZstd (m : Descriptor) : bool := bool_decide (gomap_get (Annotations m) OCI1InstanceAnnotationCompressionZSTD = Some "true").

Definition add_annotation (m : gmap string string) (algo : Algorithm) : gmap string string :=
  if decide (BaseVariantName algo = ZstdAlgorithmName)
  then <[OCI1InstanceAnnotationCompressionZSTD := OCI1InstanceAnnotationCompressionZSTDValue]> m else m.

Definition addCompressionAnnotations (algos : list Algorithm) (annotations : gomap string) (cannotModifyManifest : bool) : gomap string :=
  if cannotModifyManifest then annotations
  else match algos with [] => annotations | _ => Some (foldl add_annotation (default ∅ annotations) algos) end.

(** *** Instances *)

Definition Instances (index : OCI1Index) : list string := Digest <$> Manifests index.
Definition Instance_ (index : OCI1Index) (instanceDigest : string) : ListUpdate + error :=
  match list_find (λ m, Digest m = instanceDigest) (Manifests index) with
  | Some (_, m) =>
      inl (mkUpdate (Digest m) (Size m) (MediaType m) (d_Platform m) (Annotations m)
             (Some (annotationsToCompressionAlgorithmNames (Annotations m))) (ArtifactType m))
  | None => inr (ErrOther "unable to find instance in OCI1Index")
  end.

Definition ociPlatformFromSchema2PlatformSpec (p : Schema2PlatformSpec) : Platform :=
  mkPlatform (s_Architecture p) (s_OS p) (s_OSVersion p) (s_OSFeatures p) (s_Variant p).
Definition schema2PlatformSpecFromOCIPlatform (p : Platform) : Schema2PlatformSpec :=
  mkSpec (Architecture p) (OS p) (OSVersion p) (OSFeatures p) (Variant p) None.

Definition s_Instances (l : Schema2List) : list string := s_Digest <$> l_Manifests l.
Definition s_Instance_ (l : Schema2List) (instanceDigest : string) : ListUpdate + error :=
  match list_find (λ m, s_Digest m = instanceDigest) (l_Manifests l) with
  | Some (_, m) =>
      inl (mkUpdate (s_Digest m) (s_Size m) (s_MediaType m) (Some (ociPlatformFromSchema2PlatformSpec (s_Platform m))) None
             (Some [GzipAlgorithmName]) "")
  | None => inr (ErrOther "unable to find instance passed to Schema2List.Instances")
  end.

(** *** Editing *)

Section Editing.
Context `{Digests}.

(** The entry an update is about. *)
Definition update_target {S} (digests : list string) (e : ListEdit) : M S nat :=
  match ValidateDigest (UpdateOldDigest e), ValidateDigest (UpdateDigest e) with
  | Some err, _ | None, Some err => fail err
  | None, None =>
      match IndexFunc (λ d, bool_decide (d = UpdateOldDigest e)) digests with
      | None => fail (ErrOther "digest not found")
      | Some target => mret target
      end
  end.

(** [index.Manifests[target]] is changed. *)
Definition on_manifest (target : nat) (f : Descriptor → Descriptor) : M OCI1Index unit :=
  modify (λ i, set_Manifests (alter f target (Manifests i)) i).

Definition merge_annotations (e : ListEdit) (m : gmap string string) (d : Descriptor) : Descriptor :=
  set_Annotations (Some (if UpdateAffectAnnotations e then m else m ∪ default ∅ (Annotations d))) d.

(** Round [i] of the loop: the entries to be added, and whether annotations
    were changed. *)
Definition edit_update (cannotModifyManifest : bool) (i : nat) (acc : list Descriptor * bool) (e : ListEdit) : M OCI1Index (list Descriptor * bool) :=
  index ← gets id;
  target ← update_target (Instances index) e;
  on_manifest target (set_Digest (UpdateDigest e));;
  if decide (UpdateSize e < 0)%Z then fail (ErrOther "update had an invalid size")
  else
    on_manifest target (set_Size (UpdateSize e));;
    if decide (UpdateMediaType e = "") then
      (* the message has the media type of entry [i] *)
      if decide (i < length (Manifests index))%nat then fail (ErrOther "update had no media type") else out_of_range
    else
      on_manifest target (set_MediaType (UpdateMediaType e));;
      updated ← (match UpdateAnnotations e with
                 | Some m => on_manifest target (merge_annotations e m);; mret true
                 | None => mret acc.2
                 end);
      on_manifest target (λ d, set_Annotations (addCompressionAnnotations (UpdateCompressionAlgorithms e) (Annotations d) cannotModifyManifest) d);;
      mret (acc.1, updated).

Definition added_entry (e : ListEdit) : Descriptor :=
  mkDescriptor (AddMediaType e) (AddDigest e) (AddSize e) None
    (addCompressionAnnotations (AddCompressionAlgorithms e) (Some (default ∅ (AddAnnotations e))) false) None (AddPlatform e) (AddArtifactType e).

Definition edit_instance (cannotModifyManifest : bool) (acc : list Descriptor * bool) (x : nat * ListEdit) : M OCI1Index (list Descriptor * bool) :=
  let '(i, e) := x in
  match ListOperation e with
  | ListOpUpdate => edit_update cannotModifyManifest i acc e
  | ListOpAdd => mret ((acc.1 ++ [added_entry e])%list, acc.2)
  | ListOpDelete =>
      index ← gets id;
      if decide (DeleteIndex e < 0 ∨ Z.of_nat (length (Manifests index)) ≤ DeleteIndex e)%Z then fail (ErrOther "invalid delete index")
      else modify (λ i, set_Manifests (delete (Z.to_nat (DeleteIndex e)) (Manifests i)) i);; mret acc
  | listOpInvalid => fail (ErrOther "internal error: invalid operation")
  end.

(** [slices.SortStableFunc] with the order that puts Zstd instances last. *)
Fixpoint insert_stable (d : Descriptor) (l : list Descriptor) : list Descriptor :=
  match l with
  | [] => [d]
  | x :: l' => if instanceIsZstd d && negb (instanceIsZstd x) then x :: insert_stable d l' else d :: l
  end.
Definition SortStableFunc (l : list Descriptor) : list Descriptor := foldr insert_stable [] l.

Definition editInstances (edits : list ListEdit) (cannotModifyManifest : bool) : M OCI1Index unit :=
  '(addedEntries, updatedAnnotations) ← foldM (edit_instance cannotModifyManifest) ([], false) (imap (λ i e, (i, e)) edits);
  (if decide (length addedEntries = 0)%nat then mret tt else modify (λ i, set_Manifests (Manifests i ++ addedEntries) i));;
  if bool_decide (length addedEntries ≠ 0)%nat || updatedAnnotations then modify (λ i, set_Manifests (SortStableFunc (Manifests i)) i) else mret tt.
Definition EditInstances := editInstances.

(** The edits for a list of updates, by position. *)
Fixpoint update_edits (digests : list string) (updates : list ListUpdate) : option (list ListEdit) :=
  match updates, digests with
  | [], _ => Some []
  | _ :: _, [] => None
  | u :: updates, d :: digests => (cons (update_edit d (u_Digest u) (u_Size u) (u_MediaType u))) <$> update_edits digests updates
  end.
Definition UpdateInstances (updates : list ListUpdate) : M OCI1Index unit :=
  index ← gets id;
  match update_edits (Instances index) updates with Some edits => editInstances edits false | None => out_of_range end.

(** The same for a Docker list, which has no annotations. *)
Definition s_on_manifest (target : nat) (f : Schema2ManifestDescriptor → Schema2ManifestDescriptor) : M Schema2List unit :=
  modify (λ i, set_l_Manifests (alter f target (l_Manifests i)) i).

Definition s_edit_update (i : nat) (acc : list Schema2ManifestDescriptor) (e : ListEdit) : M Schema2List (list Schema2ManifestDescriptor) :=
  l ← gets id;
  target ← update_target (s_Instances l) e;
  s_on_manifest target (set_s_Digest (UpdateDigest e));;
  if decide (UpdateSize e < 0)%Z then fail (ErrOther "update had an invalid size")
  else
    s_on_manifest target (set_s_Size (UpdateSize e));;
    if decide (UpdateMediaType e = "") then
      if decide (i < length (l_Manifests l))%nat then fail (ErrOther "update had no media type") else out_of_range
    else s_on_manifest target (set_s_MediaType (UpdateMediaType e));; mret acc.

Definition s_edit_instance (acc : list Schema2ManifestDescriptor) (x : nat * ListEdit) : M Schema2List (list Schema2ManifestDescriptor) :=
  let '(i, e) := x in
  match ListOperation e with
  | ListOpUpdate => s_edit_update i acc e
  | ListOpAdd =>
      match AddPlatform e with
      | None => fail (ErrOther "adding a schema2 list instance with no platform specified is not supported")
      | Some p => mret (acc ++ [mkSchema2 (AddMediaType e) (AddSize e) (AddDigest e) None (schema2PlatformSpecFromOCIPlatform p)])%list
      end
  | ListOpDelete =>
      l ← gets id;
      if decide (DeleteIndex e < 0 ∨ Z.of_nat (length (l_Manifests l)) ≤ DeleteIndex e)%Z then fail (ErrOther "invalid delete index")
      else modify (λ i, set_l_Manifests (delete (Z.to_nat (DeleteIndex e)) (l_Manifests i)) i);; mret acc
  | listOpInvalid => fail (ErrOther "internal error: invalid operation")
  end.

Definition s_editInstances (edits : list ListEdit) (cannotModifyManifest : bool) : M Schema2List unit :=
  addedEntries ← foldM s_edit_instance [] (imap (λ i e, (i, e)) edits);
  if decide (length addedEntries = 0)%nat then mret tt else modify (λ i, set_l_Manifests (l_Manifests i ++ addedEntries) i).
Definition s_EditInstances := s_editInstances.

Definition s_UpdateInstances (updates : list ListUpdate) : M Schema2List unit :=
  l ← gets id;
  match update_edits (s_Instances l) updates with Some edits => s_editInstances edits false | None => out_of_range end.
End Editing.

(** *** Choosing an instance *)

Inductive OptionalBool := OptionalBoolUndefined | OptionalBoolTrue | OptionalBoolFalse.
#[global] Instance OptionalBool_eq_dec : EqDecision OptionalBool.
Proof. solve_decision. Defined.

Definition MaxInt : Z := 2 ^ 63 - 1.

Record instanceCandidate := mkCandidate {
  platformIndex : Z;
  isZstd : bool;
  manifestPosition : Z;
  digest : string
}.

Definition isPreferredOver {S} (ic other : instanceCandidate) (preferGzip : OptionalBool) : M S bool :=
  if decide (platformIndex ic ≠ platformIndex other) then mret (bool_decide (platformIndex ic < platformIndex other)%Z)
  else if decide (isZstd ic ≠ isZstd other) then
    mret (if decide (preferGzip ≠ OptionalBoolTrue) then isZstd ic else negb (isZstd ic))
  else if decide (manifestPosition ic ≠ manifestPosition other) then mret (bool_decide (manifestPosition ic < manifestPosition other)%Z)
  else stop (Panic "internal error: invalid comparison between two candidates").

(** An independent copy. *)
Definition ociPlatformClone (p : Platform) : Platform := mkPlatform (Architecture p) (OS p) (OSVersion p) (OSFeatures p) (Variant p).

Definition candidate_of (wantedPlatforms : list Platform) (manifestIndex : nat) (d : Descriptor) : option instanceCandidate :=
  match d_Platform d with
  | None => Some (mkCandidate MaxInt (instanceIsZstd d) (Z.of_nat manifestIndex) (Digest d))
  | Some p =>
      match IndexFunc (MatchesPlatform (ociPlatformClone p)) wantedPlatforms with
      | None => None
      | Some platformIndex => Some (mkCandidate (Z.of_nat platformIndex) (instanceIsZstd d) (Z.of_nat manifestIndex) (Digest d))
      end
  end.

Definition choose_round {S} (wantedPlatforms : list Platform) (preferGzip : OptionalBool) (bestMatch : option instanceCandidate) (x : nat * Descriptor)
    : M S (option instanceCandidate) :=
  match candidate_of wantedPlatforms x.1 x.2 with
  | None => mret bestMatch
  | Some candidate =>
      match bestMatch with
      | None => mret (Some candidate)
      | Some best => better ← isPreferredOver candidate best preferGzip; mret (if (better : bool) then Some candidate else bestMatch)
      end
  end.

(** The message has the first of the wanted platforms. *)
Definition no_image {S A} (wantedPlatforms : list Platform) (message : string) : M S A :=
  match wantedPlatforms with [] => out_of_range | _ => fail (ErrOther message) end.

Section Choosing.
Context `{Runtime} `{DockerReference.Unicode}.

Definition chooseInstance (index : OCI1Index) (ctx : option SystemContext) (preferGzip : OptionalBool) : M World string :=
  wantedPlatforms ← WantedPlatforms ctx;
  bestMatch ← foldM (choose_round wantedPlatforms preferGzip) None (imap (λ i d, (i, d)) (Manifests index));
  match bestMatch with
  | Some best => mret (digest best)
  | None => no_image wantedPlatforms "no image found in image index"
  end.
Definition ChooseInstanceByCompression := chooseInstance.
Definition ChooseInstance (index : OCI1Index) (ctx : option SystemContext) : M World string := chooseInstance index ctx OptionalBoolFalse.

(** The first entry for the first of the wanted platforms that has one. *)
Fixpoint first_match (wantedPlatforms : list Platform) (l : list Schema2ManifestDescriptor) : option Schema2ManifestDescriptor :=
  match wantedPlatforms with
  | [] => None
  | wanted :: wantedPlatforms =>
      match list_find (λ d, MatchesPlatform (ociPlatformFromSchema2PlatformSpec (s_Platform d)) wanted = true) l with
      | Some (_, d) => Some d
      | None => first_match wantedPlatforms l
      end
  end.
Definition s_ChooseInstance (l : Schema2List) (ctx : option SystemContext) : M World string :=
  wantedPlatforms ← WantedPlatforms ctx;
  match first_match wantedPlatforms (l_Manifests l) with
  | Some d => mret (s_Digest d)
  | None => no_image wantedPlatforms "no image found in manifest list"
  end.
Definition s_ChooseInstanceByCompression (l : Schema2List) (ctx : option SystemContext) (preferGzip : OptionalBool) : M World string :=
  s_ChooseInstance l ctx.

(** *** Conversion *)

Definition oci1DescriptorClone (d : Descriptor) : Descriptor :=
  mkDescriptor (MediaType d) (Digest d) (Size d) (URLs d) (Annotations d) (Data d) (ociPlatformClone <$> d_Platform d) (ArtifactType d).
Definition OCI1IndexFromComponents (components : list Descriptor) (annotations : gomap string) : OCI1Index :=
  mkIndex 2 Signatures.MediaTypeImageIndex "" (oci1DescriptorClone <$> components) None annotations.
Definition OCI1IndexClone (index : OCI1Index) : OCI1Index :=
  mkIndex (SchemaVersion index) (i_MediaType index) (i_ArtifactType index) (oci1DescriptorClone <$> Manifests index)
    (oci1DescriptorClone <$> Subject index) (i_Annotations index).

Definition component_clone (c : Schema2ManifestDescriptor) : Schema2ManifestDescriptor :=
  let p := s_Platform c in
  mkSchema2 (s_MediaType c) (s_Size c) (s_Digest c) (s_URLs c)
    (mkSpec (s_Architecture p) (s_OS p) (s_OSVersion p) (s_OSFeatures p) (s_Variant p) (s_Features p)).
Definition Schema2ListFromComponents (components : list Schema2ManifestDescriptor) : Schema2List :=
  mkList 2 Signatures.DockerV2ListMediaType (component_clone <$> components).
Definition Schema2ListClone (l : Schema2List) : Schema2List := Schema2ListFromComponents (l_Manifests l).

Definition to_schema2 (m : Descriptor) : Schema2ManifestDescriptor :=
  mkSchema2 (MediaType m) (Size m) (Digest m) (URLs m)
    (schema2PlatformSpecFromOCIPlatform (default (mkPlatform GOARCH GOOS "" None "") (d_Platform m))).
Definition ToSchema2List (index : OCI1Index) : Schema2List := Schema2ListFromComponents (to_schema2 <$> Manifests index).

Definition to_oci (m : Schema2ManifestDescriptor) : Descriptor :=
  mkDescriptor (s_MediaType m) (s_Digest m) (s_Size m) (s_URLs m) None None (Some (ociPlatformFromSchema2PlatformSpec (s_Platform m))) "".
Definition ToOCI1Index (l : Schema2List) : OCI1Index := OCI1IndexFromComponents (to_oci <$> l_Manifests l) None.

(** The interface [List]. *)
Inductive List_ := LSchema2 (l : Schema2List) | LOCI1 (index : OCI1Index).

Definition ConvertToMIMEType (l : List_) (manifestMIMEType : string) : List_ + error :=
  let normalized := Signatures.NormalizedMIMEType manifestMIMEType in
  if decide (normalized = Signatures.DockerV2ListMediaType) then
    inl (LSchema2 (match l with LSchema2 l => Schema2ListClone l | LOCI1 i => ToSchema2List i end))
  else if decide (normalized = Signatures.MediaTypeImageIndex) then
    inl (LOCI1 (match l with LSchema2 l => ToOCI1Index l | LOCI1 i => OCI1IndexClone i end))
  else if decide (normalized ∈ [Signatures.DockerV2Schema1MediaType; Signatures.DockerV2Schema1SignedMediaType;
                                Signatures.MediaTypeImageManifest; Signatures.DockerV2Schema2MediaType]) then
    inr (ErrOther "Can not convert to a MIME type which is not a list type")
  else inr (ErrOther "Unimplemented manifest MIME type").
End Choosing.

(** *** Reading *)

(** [encoding/json] for the two structs: what a text makes of a value. *)
Class ListJSON := {
  Unmarshal_Index : string → OCI1Index → OCI1Index + error;
  Unmarshal_List : string → Schema2List → Schema2List + error;
  Marshal_Index : OCI1Index → string + error;
  Marshal_List : Schema2List → string + error
}.

Section Reading.
Context `{GoJson.JSON} `{ListJSON}.

Definition AllowedFieldConfig : Z := 1.
Definition AllowedFieldFSLayers : Z := 2.
Definition AllowedFieldHistory : Z := 4.
Definition AllowedFieldLayers : Z := 8.
Definition AllowedFieldManifests : Z := 16.
Definition AllowedFieldFirstUnusedBit : Z := 32.

(** The fields by which formats are told apart, in a fixed order. *)
Definition essential : list (string * Z) :=
  [("config", AllowedFieldConfig); ("fsLayers", AllowedFieldFSLayers); ("history", AllowedFieldHistory); ("layers", AllowedFieldLayers);
   ("manifests", AllowedFieldManifests)].
(** The set of the fields that are not null. *)
Definition detect_field (bit : Z) : GoJson.json → Z → Z + error := λ j d,
  inl (match j with GoJson.JNull => Z.ldiff d bit | _ => Z.lor d bit end).
Definition detected_fields : list (string * (GoJson.json → Z → Z + error)) := (λ f, (f.1, detect_field f.2)) <$> essential.

Definition ValidateUnambiguousManifestFormat (manifest : string) (allowed : Z) : option error :=
  if decide (AllowedFieldFirstUnusedBit ≤ allowed)%Z then Some (ErrOther "internal error: invalid allowedManifestFields value")
  else match GoJson.json_Unmarshal (GoJson.into_struct detected_fields) manifest 0%Z with
       | inr e => Some e
       | inl detected =>
           let unexpected := filter (λ f : string * Z, Z.land detected f.2 ≠ 0%Z ∧ Z.land allowed f.2 = 0%Z) essential in
           if decide (length unexpected = 0)%nat then None else Some (ErrOther "rejecting ambiguous manifest")
       end.

Definition unambiguous {A} (manifest : string) (allowed : Z) (x : A) : A + error :=
  match ValidateUnambiguousManifestFormat manifest allowed with Some e => inr e | None => inl x end.

Definition OCI1IndexFromManifest (manifest : string) : OCI1Index + error :=
  match Unmarshal_Index manifest (mkIndex 2 Signatures.MediaTypeImageIndex "" [] None (Some ∅)) with
  | inr e => inr e
  | inl index => unambiguous manifest AllowedFieldManifests index
  end.
Definition Schema2ListFromManifest (manifest : string) : Schema2List + error :=
  match Unmarshal_List manifest (mkList 0 "" []) with
  | inr e => inr e
  | inl l => unambiguous manifest AllowedFieldManifests l
  end.

Definition ListFromBlob (manifest manifestMIMEType : string) : List_ + error :=
  let normalized := Signatures.NormalizedMIMEType manifestMIMEType in
  if decide (normalized = Signatures.DockerV2ListMediaType) then
    match Schema2ListFromManifest manifest with inl l => inl (LSchema2 l) | inr e => inr e end
  else if decide (normalized = Signatures.MediaTypeImageIndex) then
    match OCI1IndexFromManifest manifest with inl i => inl (LOCI1 i) | inr e => inr e end
  else if decide (normalized ∈ [Signatures.DockerV2Schema1MediaType; Signatures.DockerV2Schema1SignedMediaType;
                                Signatures.MediaTypeImageManifest; Signatures.DockerV2Schema2MediaType]) then
    inr (ErrOther "Treating single images as manifest lists is not implemented")
  else inr (ErrOther "Unimplemented manifest list MIME type").

Definition Serialize (l : List_) : string + error := match l with LSchema2 l => Marshal_List l | LOCI1 i => Marshal_Index i end.
End Reading.

(** *** Compression of layers *)

Definition CompressionAlgorithmIsUniversallySupported (algo : Algorithm) : bool := bool_decide (Name algo = GzipAlgorithmName).
Definition MIMETypeSupportsCompressionAlgorithm (mimeType : string) (algo : Algorithm) : bool :=
  CompressionAlgorithmIsUniversallySupported algo ||
  (bool_decide (Name algo ∈ [ZstdAlgorithmName; ZstdChunkedAlgorithmName]) && bool_decide (mimeType = Signatures.MediaTypeImageManifest)).

Record ReuseConditions := mkConditions { PossibleManifestFormats : option (list string); RequiredCompression : option Algorithm }.

Definition required_matches (c : ReuseConditions) (candidate : option Algorithm) : bool :=
  match RequiredCompression c, candidate with
  | None, _ => true
  | Some _, None => false
  | Some r, Some a => bool_decide (Name r = Name a) || bool_decide (Name r = BaseVariantName a)
  end.
Definition format_matches (c : ReuseConditions) (candidate : option Algorithm) : bool :=
  match PossibleManifestFormats c, candidate with
  | Some formats, Some a => existsb (λ mt, MIMETypeSupportsCompressionAlgorithm mt a) formats
  | _, _ => true
  end.
Definition CandidateCompressionMatchesReuseConditions (c : ReuseConditions) (candidate : option Algorithm) : bool :=
  required_matches c candidate && format_matches c candidate.
End ManifestList.
