(* ===== verification/ManifestListFacts.v ===== *)
(** * Theorems about multi-platform images

    The instance that is chosen is the best one, the two formats of lists agree
    on it, conversions keep the instances, and what edits do to a list. *)

From S2P Require Import Prelude World StoreUtil GoJson GoRegexp DockerReference Signatures ConfigFile ConfigFileFacts ManifestList LayerDemo.
Local Open Scope string_scope.

Module ManifestListFacts.
Import Platform ManifestList.

(** ** Wanted platforms *)

Lemma compatibility_NoDup arch l : compatibility arch = Some l → NoDup l ∧ "" ∉ l ∧ l ≠ [].
Proof.
  unfold compatibility. repeat case_decide; intros [= <-]; (split_and!; [|set_solver|done]); repeat constructor; set_solver.
Qed.

Lemma from_variant_suffix v order l : from_variant v order = Some l → ∃ pre l', order = (pre ++ l)%list ∧ l = v :: l'.
Proof.
  induction order as [|x order IH]; simpl; [done|]. case_decide as Hx; [intros [= <-]; subst; by exists [], order|].
  intros (pre & l' & -> & ->)%IH. by exists (x :: pre), l'.
Qed.

Lemma wanted_variants_spec arch v :
  NoDup (wanted_variants arch v) ∧ "" ∈ wanted_variants arch v ∧ head (wanted_variants arch v) = Some v.
Proof.
  unfold wanted_variants. case_decide as Hv.
  - subst. split_and!; [|left|done]. destruct (compatibility arch) as [l|] eqn:E; [|apply NoDup_singleton].
    apply compatibility_NoDup in E as (? & ? & _). by apply NoDup_cons.
  - assert (∃ l, default [v] (compatibility arch ≫= from_variant v) = v :: l ∧ NoDup (v :: l) ∧ "" ∉ v :: l) as (l & -> & Hnd & Hn).
    { destruct (compatibility arch) as [order|] eqn:E; simpl.
      - apply compatibility_NoDup in E as (Hnd & Hn & _). destruct (from_variant v order) as [l|] eqn:Ef; simpl.
        + apply from_variant_suffix in Ef as (pre & l' & -> & ->). exists l'. split; [done|]. apply NoDup_app in Hnd as (_ & _ & ?). split; [done|].
          intros ?. apply Hn, elem_of_app. by right.
        + exists []. split_and!; [done|apply NoDup_singleton|set_solver].
      - exists []. split_and!; [done|apply NoDup_singleton|set_solver]. }
    split_and!; [|set_solver|done]. apply NoDup_app. split_and!; [done|set_solver|apply NoDup_singleton].
Qed.

Section Wanted.
Context `{Runtime} `{DockerReference.Unicode}.

Lemma WantedPlatforms_ret ctx w w' ps :
  WantedPlatforms ctx w = (w', Ret ps) → ∃ arch os v, ps = (λ v, mkPlatform arch os "" None v) <$> wanted_variants arch v.
Proof. unfold WantedPlatforms. intros (w1 & d & _ & E)%run_bind_ret. apply ConfigFileFacts.ret_inj in E as <-. by eexists _, _, _. Qed.

Lemma WantedPlatforms_nonempty ctx w w' ps : WantedPlatforms ctx w = (w', Ret ps) → ps ≠ [].
Proof.
  intros (arch & os & v & ->)%WantedPlatforms_ret. destruct (wanted_variants_spec arch v) as (_ & _ & Hh). by destruct (wanted_variants arch v).
Qed.

(** ** The best candidate *)

(** The order of preference: an earlier platform, then the compression, then an
    earlier position. *)
Definition better (preferGzip : OptionalBool) (a b : instanceCandidate) : Prop :=
  let last_zstd := bool_decide (preferGzip = OptionalBoolTrue) in
  (platformIndex a < platformIndex b)%Z ∨
  platformIndex a = platformIndex b ∧
  (isZstd a = negb last_zstd ∧ isZstd b = last_zstd ∨ isZstd a = isZstd b ∧ (manifestPosition a < manifestPosition b)%Z).

Lemma better_trans p : Transitive (better p).
Proof.
  intros a b c. unfold better. destruct (bool_decide (p = OptionalBoolTrue)); simpl;
    intros [?|(? & [(? & ?)|(? & ?)])] [?|(? & [(? & ?)|(? & ?)])]; first [left; lia|right; split; [lia|]; first [left; split; congruence|right; split; [congruence|lia]]|congruence].
Qed.

Lemma isPreferredOver_run {S} a b p (s : S) :
  manifestPosition a ≠ manifestPosition b →
  ∃ r : bool, isPreferredOver a b p s = (s, Ret r) ∧ if r then better p a b else better p b a.
Proof.
  intros Hp. unfold isPreferredOver, better. destruct (decide (platformIndex a ≠ platformIndex b)) as [Hi|Hi].
  { eexists. split; [done|]. case_bool_decide; left; lia. }
  destruct (decide (isZstd a ≠ isZstd b)) as [Hz|Hz].
  { eexists. split; [done|]. destruct (isZstd a), (isZstd b), p; simpl; try done; right; (split; [lia|]); by left. }
  destruct (decide _) as [_|Hn]; [|done]. eexists. split; [done|]. apply dec_stable in Hi, Hz.
  case_bool_decide; right; (split; [lia|]); right; (split; [congruence|lia]).
Qed.

(** What the best match is for the first manifests. *)
Definition best_of (ps : list Platform) (p : OptionalBool) (l : list Descriptor) (best : option instanceCandidate) : Prop :=
  match best with
  | None => ∀ i d, l !! i = Some d → candidate_of ps i d = None
  | Some b => ∃ i d, l !! i = Some d ∧ candidate_of ps i d = Some b ∧
                ∀ j d' c, l !! j = Some d' → candidate_of ps j d' = Some c → j ≠ i → better p b c
  end.

Lemma candidate_position ps i d c : candidate_of ps i d = Some c → manifestPosition c = Z.of_nat i ∧ digest c = Digest d.
Proof. unfold candidate_of. repeat case_match; intros [= <-]; done. Qed.

Lemma choose_fold {S} ps p l (s : S) :
  ∃ best, foldM (choose_round ps p) None (imap (λ i d, (i, d)) l) s = (s, Ret best) ∧ best_of ps p l best.
Proof.
  induction l as [|x l (best & E & Hb)] using rev_ind; [by exists None|].
  rewrite imap_app. simpl. rewrite ConfigFileFacts.foldM_snoc. unfold mbind, M_bind. rewrite E. unfold choose_round. simpl. rewrite Nat.add_0_r.
  assert (∀ i d, (l ++ [x])%list !! i = Some d → l !! i = Some d ∨ i = length l ∧ d = x) as Hl.
  { intros i d [?|[? ?]]%lookup_app_Some; [by left|]. right. destruct (i - length l) as [|k] eqn:Ek; simpl in *; [|done]. split; [lia|congruence]. }
  assert (∀ i d, l !! i = Some d → (l ++ [x])%list !! i = Some d) as Hr by (intros; by apply lookup_app_l_Some).
  assert ((l ++ [x])%list !! length l = Some x) as Hx by (by apply list_lookup_middle).
  destruct (candidate_of ps (length l) x) as [c|] eqn:Ec.
  - destruct best as [b|]; simpl in Hb.
    + destruct Hb as (i & d & Hi & Hc & Hbest). destruct (candidate_position _ _ _ _ Hc) as [Hpi _]. destruct (candidate_position _ _ _ _ Ec) as [Hpl _].
      pose proof (lookup_lt_Some _ _ _ Hi) as Hlt. destruct (isPreferredOver_run c b p s) as (r & Er & Hpref); [lia|].
      unfold mbind, M_bind. rewrite Er. eexists. split; [done|]. destruct r; simpl.
      * exists (length l), x. split_and!; [done..|]. intros j d' c' [Hj|[-> ->]]%Hl Hc' Hne; [|done].
        destruct (decide (j = i)) as [->|Hji]; [congruence|]. eapply better_trans; [exact Hpref|]. by eapply Hbest.
      * exists i, d. split_and!; [by apply Hr|done|]. intros j d' c' [Hj|[-> ->]]%Hl Hc' Hne; [by eapply Hbest|congruence].
    + eexists. split; [done|]. simpl. exists (length l), x. split_and!; [done..|]. intros j d' c' [Hj|[-> ->]]%Hl Hc' Hne; [|done].
      by rewrite (Hb _ _ Hj) in Hc'.
  - eexists. split; [done|]. destruct best as [b|]; simpl in *.
    + destruct Hb as (i & d & Hi & Hc & Hbest). exists i, d. split_and!; [by apply Hr|done|]. intros j d' c' [Hj|[-> ->]]%Hl Hc' Hne; [by eapply Hbest|congruence].
    + intros i d [Hi|[-> ->]]%Hl; [by apply Hb|done].
Qed.

Lemma chooseInstance_eq index ctx p w w' ps :
  WantedPlatforms ctx w = (w', Ret ps) →
  ∃ best, best_of ps p (Manifests index) best ∧
    chooseInstance index ctx p w = (w', match best with Some b => Ret (digest b) | None => Err (ErrOther "no image found in image index") end).
Proof.
  intros Ew. destruct (choose_fold ps p (Manifests index) w') as (best & E & Hb). exists best. split; [done|].
  unfold chooseInstance, mbind, M_bind. rewrite Ew, E. destruct best as [b|]; [done|]. pose proof (WantedPlatforms_nonempty _ _ _ _ Ew). by destruct ps.
Qed.

(** C10: The instance that is chosen from an index is the best one for the wanted
    platforms: no other one has an earlier platform, or for the same platform
    the preferred compression, or for the same compression an earlier position;
    an entry without a platform comes last.  If there is no suitable entry it is
    an error, and the comparison never panics. *)
Theorem chooseInstance_best index ctx p w w' ps :
  WantedPlatforms ctx w = (w', Ret ps) →
  match chooseInstance index ctx p w with
  | (w1, Ret dg) =>
      w1 = w' ∧ ∃ i d c, Manifests index !! i = Some d ∧ dg = Digest d ∧ candidate_of ps i d = Some c ∧
        ∀ j d' c', Manifests index !! j = Some d' → candidate_of ps j d' = Some c' → j ≠ i → better p c c'
  | (w1, Err _) => w1 = w' ∧ ∀ i d, Manifests index !! i = Some d → candidate_of ps i d = None
  | (_, Crash _) => False
  end.
Proof.
  intros Ew. destruct (chooseInstance_eq index ctx p w w' ps Ew) as (best & Hb & ->). destruct best as [b|]; simpl in Hb; [|done].
  destruct Hb as (i & d & Hi & Hc & Hbest). split; [done|]. exists i, d, b. destruct (candidate_position _ _ _ _ Hc) as [_ ->]. by split_and!.
Qed.

(** ** The two formats agree *)

Lemma IndexFunc_Some {A} (f : A → bool) l i :
  IndexFunc f l = Some i ↔ ∃ x, l !! i = Some x ∧ f x = true ∧ ∀ j y, (j < i)%nat → l !! j = Some y → f y = false.
Proof.
  unfold IndexFunc. rewrite fmap_Some. split.
  - intros ([j x] & (Hx & Hf & Hn)%list_find_Some & ->). exists x. split_and!; [done..|]. intros k y Hk Hy. simpl in *.
    apply not_true_iff_false. by eapply Hn.
  - intros (x & Hx & Hf & Hn). exists (i, x). split; [|done]. apply list_find_Some. split_and!; [done..|]. intros j y Hy Hj. by rewrite (Hn j y).
Qed.

(** What the nested loops find. *)
Lemma first_match_spec ps l :
  match first_match ps l with
  | Some d => ∃ a i q, ps !! a = Some q ∧ l !! i = Some d ∧ MatchesPlatform (ociPlatformFromSchema2PlatformSpec (s_Platform d)) q = true ∧
      (∀ a' q' d', (a' < a)%nat → ps !! a' = Some q' → d' ∈ l → MatchesPlatform (ociPlatformFromSchema2PlatformSpec (s_Platform d')) q' = false) ∧
      (∀ i' d', (i' < i)%nat → l !! i' = Some d' → MatchesPlatform (ociPlatformFromSchema2PlatformSpec (s_Platform d')) q = false)
  | None => ∀ q d, q ∈ ps → d ∈ l → MatchesPlatform (ociPlatformFromSchema2PlatformSpec (s_Platform d)) q = false
  end.
Proof.
  induction ps as [|q ps IH]; simpl; [by intros q d ?%elem_of_nil|]. destruct (list_find _ l) as [[i d]|] eqn:E.
  - apply list_find_Some in E as (Hi & Hm & Hn). exists 0, i, q. split_and!; [done..|intros; lia|]. intros i' d' Hlt Hd. apply not_true_iff_false. by eapply Hn.
  - assert (∀ d, d ∈ l → MatchesPlatform (ociPlatformFromSchema2PlatformSpec (s_Platform d)) q = false) as Hq.
    { intros d Hd. apply list_find_None in E. eapply Forall_forall in E; [|done]. by apply not_true_iff_false. }
    destruct (first_match ps l) as [d|].
    + destruct IH as (a & i & q' & Ha & Hi & Hm & H1 & H2). exists (Datatypes.S a), i, q'. split_and!; [done..| |done].
      intros [|a'] q'' d' Hlt; simpl; [intros [= <-]; by apply Hq|]. apply H1. lia.
    + intros q' d [->|Hin]%elem_of_cons Hd; [by apply Hq|by apply IH].
Qed.

(** The entries of a converted list have a platform and are not Zstd. *)
Lemma converted_entry l i d' : Manifests (ToOCI1Index l) !! i = Some d' → ∃ d, l_Manifests l !! i = Some d ∧ d' = to_oci d.
Proof.
  unfold ToOCI1Index, OCI1IndexFromComponents. simpl. rewrite !list_lookup_fmap. destruct (l_Manifests l !! i) as [d|]; simpl; [|done].
  intros [= <-]. by exists d.
Qed.
Lemma candidate_converted ps i d :
  candidate_of ps i (to_oci d) =
  (λ a, mkCandidate (Z.of_nat a) false (Z.of_nat i) (s_Digest d)) <$> IndexFunc (MatchesPlatform (ociPlatformFromSchema2PlatformSpec (s_Platform d))) ps.
Proof. unfold candidate_of. simpl. change (ociPlatformClone ?p) with p. by destruct (IndexFunc _ ps). Qed.

Lemma best_converted ps p l best :
  best_of ps p (Manifests (ToOCI1Index l)) best → digest <$> best = s_Digest <$> first_match ps (l_Manifests l).
Proof.
  pose proof (first_match_spec ps (l_Manifests l)) as Hf. destruct best as [b|]; simpl.
  - intros (i & d' & (d & Hi & ->)%converted_entry & Hc & Hbest). rewrite candidate_converted in Hc. apply fmap_Some in Hc as (a & Ha & ->).
    apply IndexFunc_Some in Ha as (q & Hq & Hm & Hbefore). destruct (first_match ps (l_Manifests l)) as [e|].
    + destruct Hf as (a1 & i1 & q1 & Hq1 & Hi1 & Hm1 & Hmin & Hfirst). simpl. f_equal. destruct (decide (i1 = i)) as [->|Hne]; [congruence|]. exfalso.
      assert (candidate_of ps i1 (to_oci e) = Some (mkCandidate (Z.of_nat a1) false (Z.of_nat i1) (s_Digest e))) as Hc1.
      { rewrite candidate_converted. assert (IndexFunc (MatchesPlatform (ociPlatformFromSchema2PlatformSpec (s_Platform e))) ps = Some a1) as ->; [|done].
        apply IndexFunc_Some. exists q1. split_and!; [done..|]. intros j y Hj Hy. eapply Hmin; [done|done|]. by eapply list_elem_of_lookup_2. }
      assert (Manifests (ToOCI1Index l) !! i1 = Some (to_oci e)) as Hl1 by (simpl; by rewrite !list_lookup_fmap, Hi1).
      specialize (Hbest i1 _ _ Hl1 Hc1 Hne). unfold better in Hbest. simpl in Hbest. destruct Hbest as [Hlt|[Heq Hpos]].
      * rewrite (Hmin a q d) in Hm; [done|lia|done|by eapply list_elem_of_lookup_2].
      * destruct Hpos as [[E1 E2]|[_ Hpos]]; [by destruct (bool_decide (p = OptionalBoolTrue))|]. assert (a = a1) as -> by lia.
        assert (q1 = q) as -> by congruence. rewrite (Hfirst i d) in Hm; [done|lia|done].
    + rewrite (Hf q d) in Hm; [done|by eapply list_elem_of_lookup_2..].
  - intros Hnone. destruct (first_match ps (l_Manifests l)) as [e|]; [|done]. destruct Hf as (a1 & i1 & q1 & Hq1 & Hi1 & Hm1 & Hmin & _).
    assert (Manifests (ToOCI1Index l) !! i1 = Some (to_oci e)) as Hl1 by (simpl; by rewrite !list_lookup_fmap, Hi1).
    specialize (Hnone _ _ Hl1). rewrite candidate_converted in Hnone. apply fmap_None in Hnone. unfold IndexFunc in Hnone.
    apply fmap_None, list_find_None in Hnone. eapply Forall_forall in Hnone; [|by eapply list_elem_of_lookup_2]. done.
Qed.

(** Two runs that only may differ in the text of an error. *)
Definition same_result {S A} (r1 r2 : S * outcome A) : Prop :=
  r1.1 = r2.1 ∧ match r1.2, r2.2 with Ret a, Ret b => a = b | Err _, Err _ => True | Crash c, Crash c' => c = c' | _, _ => False end.

(** C11: A Docker list and the OCI index it is converted to give the same
    instance, whatever compression is preferred: the search by platform of the
    one and the comparison of candidates of the other agree. *)
Theorem s_ChooseInstance_equiv l ctx p w : same_result (s_ChooseInstance l ctx w) (chooseInstance (ToOCI1Index l) ctx p w).
Proof.
  destruct (WantedPlatforms ctx w) as [w' [ps|e|c]] eqn:Ew.
  - destruct (chooseInstance_eq (ToOCI1Index l) ctx p w w' ps Ew) as (best & Hb & ->). apply best_converted in Hb.
    unfold s_ChooseInstance, mbind, M_bind. rewrite Ew. pose proof (WantedPlatforms_nonempty _ _ _ _ Ew) as Hne.
    destruct best as [b|], (first_match ps (l_Manifests l)) as [d|]; try done; simpl in Hb; [by injection Hb as ->|]. by destruct ps.
  - unfold s_ChooseInstance, chooseInstance, mbind, M_bind. by rewrite Ew.
  - unfold s_ChooseInstance, chooseInstance, mbind, M_bind. by rewrite Ew.
Qed.

(** ** Conversion *)

Definition without_features (d : Schema2ManifestDescriptor) : Schema2ManifestDescriptor :=
  mkSchema2 (s_MediaType d) (s_Size d) (s_Digest d) (s_URLs d)
    (mkSpec (s_Architecture (s_Platform d)) (s_OS (s_Platform d)) (s_OSVersion (s_Platform d)) (s_OSFeatures (s_Platform d)) (s_Variant (s_Platform d)) None).

(** Converting a Docker list to an OCI index and back loses the CPU features
    that the OCI format does not have, and nothing else of any entry; the
    version and the type are those of the format. *)
Theorem schema2_roundtrip l :
  ToSchema2List (ToOCI1Index l) = mkList 2 Signatures.DockerV2ListMediaType (without_features <$> l_Manifests l).
Proof.
  unfold ToSchema2List, ToOCI1Index, Schema2ListFromComponents, OCI1IndexFromComponents. simpl. f_equal.
  rewrite <- !list_fmap_compose. by apply list_fmap_ext.
Qed.
End Wanted.

(** ** Editing *)

Lemma insert_stable_partition d l1 l2 :
  Forall (λ x, instanceIsZstd x = false) l1 → Forall (λ x, instanceIsZstd x = true) l2 →
  insert_stable d (l1 ++ l2) = if instanceIsZstd d then (l1 ++ d :: l2)%list else (d :: l1 ++ l2)%list.
Proof.
  intros H1 H2. destruct (instanceIsZstd d) eqn:Ed.
  - induction H1 as [|x l1 Hx H1 IH]; simpl.
    + destruct H2 as [|y l2 Hy H2]; simpl; [done|]. by rewrite Hy, andb_false_r.
    + by rewrite Ed, Hx, IH.
  - destruct (l1 ++ l2)%list; simpl; by rewrite ?Ed.
Qed.

(** The stable sort moves the Zstd instances to the end. *)
Lemma SortStableFunc_spec l :
  SortStableFunc l = (filter (λ d, instanceIsZstd d = false) l ++ filter (λ d, instanceIsZstd d = true) l)%list.
Proof.
  induction l as [|d l IH]; [done|]. simpl. fold (SortStableFunc l). rewrite IH, insert_stable_partition.
  - rewrite !filter_cons. by destruct (instanceIsZstd d).
  - apply Forall_forall. by intros x [? _]%list_elem_of_filter.
  - apply Forall_forall. by intros x [? _]%list_elem_of_filter.
Qed.

(** A list with its positions, from [n] on. *)
Definition numbered {A} (n : nat) (l : list A) : list (nat * A) := imap (λ i e, (n + i, e)%nat) l.
Lemma numbered_cons {A} n (x : A) l : numbered n (x :: l) = (n, x) :: numbered (Datatypes.S n) l.
Proof. unfold numbered. simpl. rewrite Nat.add_0_r. f_equal. apply imap_ext. intros i y _. simpl. f_equal. lia. Qed.

Section Edits.
Context `{Digests}.

(** Adding instances to an index keeps all the old ones as they are and adds
    the new ones behind them, and then only moves the Zstd instances, in their
    order, to the end, so that readers that take the first suitable entry still
    find a gzip one. *)
Theorem EditInstances_add edits b index :
  edits ≠ [] → Forall (λ e, ListOperation e = ListOpAdd) edits →
  let all := (Manifests index ++ (added_entry <$> edits))%list in
  EditInstances edits b index =
  (set_Manifests (filter (λ d, instanceIsZstd d = false) all ++ filter (λ d, instanceIsZstd d = true) all) index, Ret tt).
Proof.
  intros Hne Hall. assert (∀ n acc, foldM (edit_instance b) acc (numbered n edits) index =
    (index, Ret ((acc.1 ++ (added_entry <$> edits))%list, acc.2))) as Hfold.
  { clear Hne. induction Hall as [|e edits He Hall IH]; intros n [added u]; [by rewrite app_nil_r|].
    rewrite numbered_cons. cbn [foldM]. unfold mbind, M_bind. cbn [edit_instance]. rewrite He. simpl. rewrite IH. simpl. by rewrite <- app_assoc. }
  specialize (Hfold 0 ([], false)). unfold numbered in Hfold. simpl in Hfold.
  unfold EditInstances, editInstances. unfold mbind at 1, M_bind at 1. rewrite Hfold. simpl.
  rewrite length_fmap, decide_False, bool_decide_true by (by destruct edits). unfold modify, mbind, M_bind. simpl. by rewrite SortStableFunc_spec.
Qed.

(** An update at one place. *)
Definition updated (u : ListUpdate) (d : Descriptor) : Descriptor := set_MediaType (u_MediaType u) (set_Size (u_Size u) (set_Digest (u_Digest u) d)).

Record valid_update (u : ListUpdate) : Prop := {
  vu_digest : ValidateDigest (u_Digest u) = None;
  vu_size : (0 ≤ u_Size u)%Z;
  vu_type : u_MediaType u ≠ ""
}.

Definition the_edit (d : Descriptor) (u : ListUpdate) : ListEdit := update_edit (Digest d) (u_Digest u) (u_Size u) (u_MediaType u).

Lemma update_run i acc d u pre suf index :
  Manifests index = (pre ++ d :: suf)%list → valid_update u → ValidateDigest (Digest d) = None → Digest d ∉ Digest <$> pre →
  edit_instance false acc (i, the_edit d u) index = (set_Manifests (pre ++ updated u d :: suf) index, Ret acc).
Proof.
  intros Em [Hd Hs Ht] Hold Hpre. unfold edit_instance, edit_update, update_target, gets, mbind, M_bind. simpl. rewrite Hold, Hd.
  assert (IndexFunc (λ x, bool_decide (x = Digest d)) (Instances index) = Some (length pre)) as ->.
  { apply IndexFunc_Some. exists (Digest d). unfold Instances. rewrite Em, fmap_app, fmap_cons. split; [|split; [by apply bool_decide_eq_true|]].
    - apply list_lookup_middle. by rewrite length_fmap.
    - intros j y Hj Hy. apply bool_decide_eq_false. intros ->. apply Hpre. rewrite lookup_app_l in Hy by (by rewrite length_fmap).
      by eapply list_elem_of_lookup_2. }
  simpl. unfold on_manifest, modify. rewrite decide_False by lia. simpl. rewrite decide_False by done. simpl. destruct acc as [added b]. simpl. f_equal.
  unfold set_Manifests. simpl. f_equal. rewrite Em.
  assert (∀ f (x : Descriptor), alter f (length pre) (pre ++ x :: suf)%list = (pre ++ f x :: suf)%list) as Halter.
  { intros f x. rewrite <- (Nat.add_0_r (length pre)). by rewrite alter_app_r. }
  rewrite !Halter. by destruct d.
Qed.

(** The updates one after the other. *)
Lemma updates_run updates ds pre suf n acc index :
  length updates = length ds → Manifests index = (pre ++ ds ++ suf)%list → Forall valid_update updates → Forall (λ d, ValidateDigest (Digest d) = None) ds →
  (∀ i j u d, (i < j)%nat → updates !! i = Some u → ds !! j = Some d → u_Digest u ≠ Digest d) → (∀ d, d ∈ ds → Digest d ∉ Digest <$> pre) →
  foldM (edit_instance false) acc (numbered n (zip_with the_edit ds updates)) index =
  (set_Manifests (pre ++ zip_with updated updates ds ++ suf) index, Ret acc).
Proof.
  revert ds pre n index. induction updates as [|u updates IH]; intros [|d ds] pre n index Hlen Em Hu Hd Hclash Hpre; try done.
  { simpl. unfold set_Manifests. simpl in Em. rewrite <- Em. by destruct index. }
  cbn [zip_with]. rewrite numbered_cons. cbn [foldM]. unfold mbind, M_bind. apply Forall_cons in Hu as [Hu Hus]. apply Forall_cons in Hd as [Hd Hds].
  rewrite (update_run n acc d u pre (ds ++ suf)); [|done..|by apply Hpre; left].
  rewrite (IH ds (pre ++ [updated u d])%list); [by rewrite <- !app_assoc|simpl in Hlen; lia|simpl; by rewrite <- app_assoc|done..| |].
  - intros i j u' d' Hij Hi Hj. by apply (Hclash (Datatypes.S i) (Datatypes.S j)); [lia|..].
  - intros d' Hin. rewrite fmap_app, elem_of_app. intros [Hp|Hs%list_elem_of_singleton]; [by apply (Hpre d'); [right|]|].
    apply list_elem_of_lookup_1 in Hin as [j Hj]. by apply (Hclash 0 (Datatypes.S j) u d'); [lia|..].
Qed.

Lemma update_edits_eq updates l : (length updates ≤ length l)%nat → update_edits (Digest <$> l) updates = Some (zip_with the_edit (take (length updates) l) updates).
Proof.
  revert l. induction updates as [|u updates IH]; intros [|d l] Hl; try done; simpl in *; [lia|]. rewrite IH by lia. done.
Qed.

(** Updating the instances of an index changes the digest, the size and the
    type of entry [i] to those of update [i] and nothing else, if all of them are
    valid and no new digest is the old digest of a later entry. *)
Theorem UpdateInstances_spec updates index :
  let n := length updates in
  (n ≤ length (Manifests index))%nat → Forall valid_update updates → Forall (λ d, ValidateDigest (Digest d) = None) (take n (Manifests index)) →
  (∀ i j u d, (i < j < n)%nat → updates !! i = Some u → Manifests index !! j = Some d → u_Digest u ≠ Digest d) →
  UpdateInstances updates index =
  (set_Manifests (zip_with updated updates (take n (Manifests index)) ++ drop n (Manifests index)) index, Ret tt).
Proof.
  intros n Hn Hu Hd Hclash. subst n. unfold UpdateInstances, gets. unfold mbind at 1, M_bind at 1. unfold Instances. simpl. rewrite update_edits_eq by done.
  unfold editInstances. unfold mbind at 1, M_bind at 1.
  pose proof (updates_run updates (take (length updates) (Manifests index)) [] (drop (length updates) (Manifests index)) 0 ([], false) index) as E. unfold numbered in E. simpl in E.
  rewrite E; [done|rewrite length_take; lia|by rewrite take_drop|done..| |].
  - intros i j u d Hij Hi Hj. apply lookup_take_Some in Hj as [Hj ?]. by apply (Hclash i j).
  - by intros d _ ?%elem_of_nil.
Qed.
End Edits.

(** ** Examples *)

Definition an_entry (digest : string) : Descriptor := mkDescriptor "type" digest 1 None None None None "".
Definition an_index (l : list string) : OCI1Index := mkIndex 2 Signatures.MediaTypeImageIndex "" (an_entry <$> l) None None.
Definition an_update (digest : string) (size : Z) : ListUpdate := mkUpdate digest size "type" None None None "".

(** If the first instance becomes the same as the second one, and the second
    one becomes another one, the update of the second entry goes to the first:
    the entries are found by their old digest in the list that is being
    changed. *)
Theorem UpdateInstances_mixed_up :
  let updates := [an_update "sha256:b" 2; an_update "sha256:c" 3] in
  match UpdateInstances updates (an_index ["sha256:a"; "sha256:b"]) with
  | (index, o) => o = Ret tt ∧ Instances index = ["sha256:c"; "sha256:b"] ∧ Size <$> Manifests index = [3; 1]%Z
  end.
Proof. vm_compute. done. Qed.

(** An update without a media type is meant to be an error, but with more
    edits than entries it is a panic: the message has the media type of the
    entry with the number of the edit. *)
Theorem EditInstances_message_panics :
  (EditInstances [update_edit "sha256:a" "sha256:b" 1 ""] false (an_index ["sha256:a"])).2 = Err (ErrOther "update had no media type") ∧
  (EditInstances [update_edit "sha256:a" "sha256:b" 1 "type"; update_edit "sha256:b" "sha256:c" 1 ""] false (an_index ["sha256:a"])).2 =
  Crash (Panic "index out of range").
Proof. vm_compute. done. Qed.

(** ** Witnesses *)

#[local] Instance demo_runtime : Runtime := { GOOS := "linux"; GOARCH := "arm" }.

Definition demo_cpu : World :=
  set_files {[ "/proc/cpuinfo" := "processor : 0" +:+ String "010" ("CPU architecture: 7" +:+ String "010" ("model name : ARMv7 Processor" +:+ String "010" "")) ]}
    (mkWorld ∅ ∅ [] (λ _, zero) 0 [] 1 0 noMeta).
Definition demo_platforms : list Platform := (λ v, mkPlatform "arm" "linux" "" None v) <$> ["v7"; "v6"; "v5"; ""].
Definition zstd : gomap string := Some {[ OCI1InstanceAnnotationCompressionZSTD := "true" ]}.
Definition demo_entry (digest variant : string) (annotations : gomap string) : Descriptor :=
  mkDescriptor "type" digest 1 None annotations None (Some (mkPlatform "arm" "linux" "" None variant)) "".
Definition demo_index : OCI1Index :=
  mkIndex 2 Signatures.MediaTypeImageIndex "" [demo_entry "sha256:v8" "v8" None; demo_entry "sha256:v6" "v6" None; demo_entry "sha256:v6z" "v6" zstd; an_entry "sha256:any"] None None.

Lemma demo_wanted : WantedPlatforms None demo_cpu = (demo_cpu, Ret demo_platforms).
Proof. vm_compute. reflexivity. Qed.
Lemma demo_chosen : chooseInstance demo_index None OptionalBoolFalse demo_cpu = (demo_cpu, Ret "sha256:v6z").
Proof. vm_compute. reflexivity. Qed.

Lemma chooseInstance_best_witness :
  ∃ i d c, Manifests demo_index !! i = Some d ∧ "sha256:v6z" = Digest d ∧ candidate_of demo_platforms i d = Some c ∧
    ∀ j d' c', Manifests demo_index !! j = Some d' → candidate_of demo_platforms j d' = Some c' → j ≠ i → better OptionalBoolFalse c c'.
Proof.
  pose proof (chooseInstance_best demo_index None OptionalBoolFalse _ _ _ demo_wanted) as Hb. rewrite demo_chosen in Hb. exact (proj2 Hb).
Defined.

Definition demo_add (digest : string) (algos : list Algorithm) : ListEdit :=
  mkEdit ListOpAdd "" "" 0 "" false None [] digest 5 "type" "" None None algos 0.
Lemma EditInstances_add_witness :
  Instances (EditInstances [demo_add "sha256:new" [NewAlgorithm ZstdChunkedAlgorithmName ZstdAlgorithmName]; demo_add "sha256:gz" []] false demo_index).1 =
  ["sha256:v8"; "sha256:v6"; "sha256:any"; "sha256:gz"; "sha256:v6z"; "sha256:new"].
Proof.
  rewrite (EditInstances_add [demo_add "sha256:new" [NewAlgorithm ZstdChunkedAlgorithmName ZstdAlgorithmName]; demo_add "sha256:gz" []] false demo_index);
    [vm_compute; reflexivity|discriminate|repeat constructor].
Defined.

Lemma UpdateInstances_spec_witness :
  Instances (UpdateInstances [an_update "sha256:x" 2; an_update "sha256:y" 3] (an_index ["sha256:a"; "sha256:b"; "sha256:c"])).1 =
  ["sha256:x"; "sha256:y"; "sha256:c"].
Proof.
  rewrite UpdateInstances_spec; [vm_compute; reflexivity|simpl; lia|repeat constructor; simpl; (done || lia)|repeat constructor|].
  intros i j u d Hij Hi Hj. destruct i as [|[|i]], j as [|[|j]]; simpl in *; try lia; by simplify_eq.
Defined.
End ManifestListFacts.
