(* ===== verification/Sigstore.v ===== *)
(** * Sigstore signatures

    [image/signature/internal] (payloads, entries of the Rekor log) and
    [fulcio_cert.go], [pki_cert.go] (certificates): what has to be verified
    before a sigstore signature counts as made by a trusted key. *)

From S2P Require Import Prelude World StoreUtil Strconv StringId GoJson GoRegexp DockerReference Signatures.

Local Open Scope string_scope.

Module Sigstore.
Import GoJson DockerReference Signatures.

(** ** Cryptography *)

Record Certificate (PK : Type) := mkCertificate {
  Raw : string;
  Extensions : list (string * string);          (* identifiers and values *)
  UnhandledCriticalExtensions : list string;
  EmailAddresses : list string;
  cert_PublicKey : PK
}.
Arguments mkCertificate {PK}.
Arguments Raw {PK}.
Arguments Extensions {PK}.
Arguments UnhandledCriticalExtensions {PK}.
Arguments EmailAddresses {PK}.
Arguments cert_PublicKey {PK}.

Notation CertPool PK := (list (Certificate PK)).

(** [x509.VerifyOptions]; the keys are always used to sign code. *)
Record VerifyOptions (PK : Type) := mkVerifyOptions {
  Intermediates : option (CertPool PK);
  Roots : CertPool PK;
  CurrentTime : option Z
}.
Arguments mkVerifyOptions {PK}.
Arguments Roots {PK}.
Arguments Intermediates {PK}.
Arguments CurrentTime {PK}.

(** The cryptographic packages, for a type of public keys. *)
Class Crypto (PK : Type) := {
  is_ecdsa : PK → bool;
  UnmarshalPEMToPublicKey : string → PK + error;
  MarshalPublicKeyToPEM : PK → string + error;
  UnmarshalCertificatesFromPEM : string → list (Certificate PK) + error;
  AppendCertsFromPEM : string → option (CertPool PK);
  x509_Verify : Certificate PK → VerifyOptions PK → option error;
  VerifyHostname : Certificate PK → string → option error;
  OIDIssuer : string;
  OIDIssuerV2 : string;
  SANOID : string;
  asn1_Unmarshal_string : string → (string * string) + error;
  jsoncanonicalizer_Transform : json → string + error;
  sha256_Sum256 : string → string;
  ecdsa_VerifyASN1 : PK → string → string → bool;
  pem_Decode : string → option (string * string);  (* the bytes of the first block, and the rest *)
  LoadVerifier : PK → option error;
  VerifySignature : PK → string → string → option error
}.

Section Verification.
Context `{JSON} `{Digests} {PK : Type} `{Crypto PK}.

(** ** Payloads *)

Definition sigstoreSignatureType := "cosign container image signature".

Definition sigstore_strictUnmarshalJSON (data : json) : untrustedSignature + error := strict_payload sigstoreSignatureType true data.
Definition sigstore_payload_Unmarshal (data : string) : untrustedSignature + error :=
  match json_Parse data with
  | inr e => inr e
  | inl j => match sigstore_strictUnmarshalJSON j with inl u => inl u | inr e => inr (JSONFormatToInvalidSignatureError e) end
  end.
Definition sigstore_MarshalJSON (u : untrustedSignature) : json + error := json_of_payload sigstoreSignatureType u.

(** All the verifiers are loaded before one is used. *)
Definition verifySigstorePayloadBlobSignature (publicKeys : list PK) (unverifiedPayload unverifiedSignature : string) : option error :=
  if decide (publicKeys = []) then Some (ErrOther "Need at least one public key to verify the sigstore payload, but got 0")
  else match list_find (λ k, is_Some (LoadVerifier k)) publicKeys with
       | Some (_, k) => LoadVerifier k
       | None =>
           if existsb (λ k, bool_decide (VerifySignature k unverifiedSignature unverifiedPayload = None)) publicKeys then None
           else Some (ErrInvalidSignature "cryptographic signature verification failed")
       end.

Record SigstorePayloadAcceptanceRules (S : Type) := mkPayloadRules {
  ValidateSignedDockerReference : string → M S unit;
  ValidateSignedDockerManifestDigest : string → M S unit
}.
Arguments mkPayloadRules {S}.
Arguments ValidateSignedDockerReference {S}.
Arguments ValidateSignedDockerManifestDigest {S}.

Definition VerifySigstorePayload {S} (publicKeys : list PK) (unverifiedPayload unverifiedBase64Signature : string)
    (rules : SigstorePayloadAcceptanceRules S) : M S untrustedSignature :=
  match base64_DecodeString unverifiedBase64Signature with
  | None => fail (ErrInvalidSignature "base64 decoding")
  | Some unverifiedSignature =>
      match verifySigstorePayloadBlobSignature publicKeys unverifiedPayload unverifiedSignature with
      | Some e => fail e
      | None =>
          match sigstore_payload_Unmarshal unverifiedPayload with
          | inr _ => fail (ErrInvalidSignature "payload")
          | inl unmatchedPayload =>
              ValidateSignedDockerManifestDigest rules (untrustedDockerManifestDigest unmatchedPayload);;
              ValidateSignedDockerReference rules (untrustedDockerReference unmatchedPayload);;
              mret unmatchedPayload
          end
      end
  end.

(** ** Entries of the Rekor log *)

Record UntrustedRekorSET := mkSET { UntrustedSignedEntryTimestamp : option string; UntrustedPayload : json }.
Definition SET_fields : list (string * (json → UntrustedRekorSET → UntrustedRekorSET + error)) :=
  [ ("SignedEntryTimestamp", λ j s, match into_bytes j None with inl b => inl (mkSET b (UntrustedPayload s)) | inr e => inr e end);
    ("Payload", λ j s, inl (mkSET (UntrustedSignedEntryTimestamp s) j)) ].

Record UntrustedRekorPayload := mkRekorPayload { Body : option string; IntegratedTime : Z; LogIndex : Z; LogID : string }.
Definition RekorPayload_fields : list (string * (json → UntrustedRekorPayload → UntrustedRekorPayload + error)) :=
  [ ("body", λ j p, match into_bytes j None with inl b => inl (mkRekorPayload b (IntegratedTime p) (LogIndex p) (LogID p)) | inr e => inr e end);
    ("integratedTime", λ j p, match into_int64 j (IntegratedTime p) with inl z => inl (mkRekorPayload (Body p) z (LogIndex p) (LogID p)) | inr e => inr e end);
    ("logIndex", λ j p, match into_int64 j (LogIndex p) with inl z => inl (mkRekorPayload (Body p) (IntegratedTime p) z (LogID p)) | inr e => inr e end);
    ("logID", λ j p, match into_string j (LogID p) with inl s => inl (mkRekorPayload (Body p) (IntegratedTime p) (LogIndex p) s) | inr e => inr e end) ].

(** [json.Unmarshal] into a type whose reader is strict. *)
Definition strict_Unmarshal {D} (fields : list (string * (json → D → D + error))) (data : string) (zero : D) : D + error :=
  match json_Parse data with
  | inr e => inr e
  | inl j =>
      match ParanoidUnmarshalJSONObjectExactFields fields j zero with inl d => inl d | inr e => inr (JSONFormatToInvalidSignatureError e) end
  end.

(** *** The types of the Rekor API *)

Record RekorHashedrekord := mkHashedrekord { APIVersion : option string; Spec : option json }.
Definition rekorHashedrekordKind := "hashedrekord".
Definition RekorHashedRekordV001APIVersion := "0.0.1".

Definition RekorHashedrekord_Unmarshal (data : string) : RekorHashedrekord + error :=
  match json_Parse data with
  | inr e => inr e
  | inl j =>
      match into_struct [("kind", into_string)] j "" with
      | inr e => inr e
      | inl kind =>
          if decide (kind = rekorHashedrekordKind) then
            into_struct
              [ ("apiVersion", λ j m, match into_pointer "" into_string j (APIVersion m) with inl v => inl (mkHashedrekord v (Spec m)) | inr e => inr e end);
                ("spec", λ j m, inl (mkHashedrekord (APIVersion m) (Some j))) ] j (mkHashedrekord None None)
          else inr (ErrOther "invalid kind value")
      end
  end.

Record RekorDataHash := mkDataHash { Algorithm : option string; Value : option string }.
Record RekorV001Signature := mkV001Signature { sig_Content : option string; sig_PublicKey : option (option string) }.
(** The hash of the data, and the signature with the content of its public
    key; every pointer may be nil. *)
Record RekorHashedrekordV001Schema := mkV001 { Data : option (option RekorDataHash); V001Signature : option RekorV001Signature }.

Definition hash_fields : list (string * (json → RekorDataHash → RekorDataHash + error)) :=
  [ ("algorithm", λ j h, match into_pointer "" into_string j (Algorithm h) with inl a => inl (mkDataHash a (Value h)) | inr e => inr e end);
    ("value", λ j h, match into_pointer "" into_string j (Value h) with inl v => inl (mkDataHash (Algorithm h) v) | inr e => inr e end) ].
Definition data_fields : list (string * (json → option RekorDataHash → option RekorDataHash + error)) :=
  [("hash", into_pointer (mkDataHash None None) (into_struct hash_fields))].
Definition signature_fields : list (string * (json → RekorV001Signature → RekorV001Signature + error)) :=
  [ ("content", λ j s, match into_bytes j None with inl b => inl (mkV001Signature b (sig_PublicKey s)) | inr e => inr e end);
    ("publicKey", λ j s,
      match into_pointer None (into_struct [("content", into_bytes)]) j (sig_PublicKey s) with
      | inl k => inl (mkV001Signature (sig_Content s) k)
      | inr e => inr e
      end) ].
Definition V001_fields : list (string * (json → RekorHashedrekordV001Schema → RekorHashedrekordV001Schema + error)) :=
  [ ("data", λ j m, match into_pointer None (into_struct data_fields) j (Data m) with inl d => inl (mkV001 d (V001Signature m)) | inr e => inr e end);
    ("signature", λ j m,
      match into_pointer (mkV001Signature None None) (into_struct signature_fields) j (V001Signature m) with
      | inl s => inl (mkV001 (Data m) s)
      | inr e => inr e
      end) ].

(** [pem.Decode] of a text that is one block. *)
Definition single_pem (data : string) (missing trailing : string) : string + error :=
  match pem_Decode data with
  | None => inr (ErrInvalidSignature missing)
  | Some (bytes, rest) => if decide (rest = "") then inl bytes else inr (ErrInvalidSignature trailing)
  end.

Definition invalid {A} (m : string) : A + error := inr (ErrInvalidSignature m).

(** The entry is for the payload: its hash. *)
Definition match_payload (v001 : RekorHashedrekordV001Schema) (unverifiedPayloadBytes : string) : unit + error :=
  match Data v001 with
  | None => invalid "Missing data field in hashedrekord"
  | Some None => invalid "Missing data.hash field in hashedrekord"
  | Some (Some h) =>
      match Algorithm h with
      | None => invalid "Missing data.hash.algorithm field in hashedrekord"
      | Some a =>
          if decide (a ≠ "sha256") then invalid "Unexpected data.hash.algorithm value"
          else match Value h with
               | None => invalid "Missing data.hash.value field in hashedrekord"
               | Some v =>
                   match hex_DecodeString v with
                   | None => invalid "Invalid data.hash.value field in hashedrekord"
                   | Some rekorPayloadHash =>
                       if decide (rekorPayloadHash = sha256_Sum256 unverifiedPayloadBytes) then inl tt
                       else invalid "payload in Rekor SET does not match"
                   end
               end
      end
  end.

(** The entry is for the key or certificate, and for the signature. *)
Definition match_signature (v001 : RekorHashedrekordV001Schema) (unverifiedKeyOrCertBytes unverifiedBase64Signature : string) : unit + error :=
  match V001Signature v001 with
  | None => invalid "Missing signature field in hashedrekord"
  | Some s =>
      match sig_PublicKey s with
      | None => invalid "Missing signature.publicKey field in hashedrekord"
      | Some content =>
          match single_pem (default "" content) "publicKey in Rekor SET is not in PEM format" "publicKey in Rekor SET has trailing data" with
          | inr e => inr e
          | inl rekorKeyOrCert =>
              match single_pem unverifiedKeyOrCertBytes "public key or cert to be matched against publicKey in Rekor SET is not in PEM format"
                      "public key or cert to be matched against publicKey in Rekor SET has trailing data" with
              | inr e => inr e
              | inl unverifiedKeyOrCert =>
                  if decide (rekorKeyOrCert ≠ unverifiedKeyOrCert) then invalid "publicKey in Rekor SET does not match"
                  else match base64_DecodeString unverifiedBase64Signature with
                       | None => invalid "decoding signature base64"
                       | Some unverifiedSignatureBytes =>
                           if decide (default "" (sig_Content s) = unverifiedSignatureBytes) then inl tt
                           else invalid "signature in Rekor SET does not match"
                       end
              end
          end
      end
  end.

(** The time at which the entry was made. *)
Definition VerifyRekorSET (publicKeys : list PK) (unverifiedRekorSET unverifiedKeyOrCertBytes unverifiedBase64Signature unverifiedPayloadBytes : string) : Z + error :=
  match strict_Unmarshal SET_fields unverifiedRekorSET (mkSET None JNull) with
  | inr _ => invalid "parsing the Rekor SET"
  | inl untrustedSET =>
      match jsoncanonicalizer_Transform (UntrustedPayload untrustedSET) with
      | inr _ => invalid "canonicalizing Rekor SET JSON"
      | inl canonical =>
          if negb (existsb (λ pk, ecdsa_VerifyASN1 pk (sha256_Sum256 canonical) (default "" (UntrustedSignedEntryTimestamp untrustedSET))) publicKeys)
          then invalid "cryptographic signature verification of Rekor SET failed"
          else
            match strict_Unmarshal RekorPayload_fields canonical (mkRekorPayload None 0 0 "") with
            | inr _ => invalid "parsing Rekor SET payload"
            | inl rekorPayload =>
                match RekorHashedrekord_Unmarshal (default "" (Body rekorPayload)) with
                | inr _ => invalid "decoding the body of a Rekor SET payload"
                | inl hashedRekord =>
                    match APIVersion hashedRekord with
                    | None => invalid "missing Rekor SET Payload API version"
                    | Some v =>
                        if decide (v ≠ RekorHashedRekordV001APIVersion) then invalid "unsupported Rekor SET Payload hashedrekord version"
                        else match match Spec hashedRekord with
                                   | Some spec => into_struct V001_fields spec (mkV001 None None)
                                   | None => inr (ErrOther "unexpected end of JSON input")
                                   end with
                             | inr _ => invalid "decoding hashedrekod spec"
                             | inl v001 =>
                                 match match_signature v001 unverifiedKeyOrCertBytes unverifiedBase64Signature with
                                 | inr e => inr e
                                 | inl _ =>
                                     match match_payload v001 unverifiedPayloadBytes with
                                     | inr e => inr e
                                     | inl _ => inl (IntegratedTime rekorPayload)
                                     end
                                 end
                             end
                    end
                end
            end
      end
  end.

(** ** Certificates *)

Record fulcioTrustRoot := mkFulcio { caCertificates : CertPool PK; oidcIssuer : string; subjectEmail : string }.
Definition fulcio_validate (f : fulcioTrustRoot) : option error :=
  if decide (oidcIssuer f = "") then Some (ErrOther "Internal inconsistency: Fulcio use set up without OIDC issuer")
  else if decide (subjectEmail f = "") then Some (ErrOther "Internal inconsistency: Fulcio use set up without subject email")
  else None.

(** The two extensions that may record the issuer; the first is found when it
    is not [None]. *)
Fixpoint issuer_extensions (extensions : list (string * string)) (issuer1 issuer2 : option string) : option string * option string + error :=
  match extensions with
  | [] => inl (issuer1, issuer2)
  | (id, value) :: extensions =>
      if decide (id = OIDIssuer) then
        match issuer1 with
        | Some _ => invalid "Fulcio certificate has a duplicate OIDC issuer v1 extension"
        | None => issuer_extensions extensions (Some value) issuer2
        end
      else if decide (id = OIDIssuerV2) then
        match issuer2 with
        | Some _ => invalid "Fulcio certificate has a duplicate OIDC issuer v2 extension"
        | None =>
            match asn1_Unmarshal_string value with
            | inr _ => invalid "invalid ASN.1 in OIDC issuer v2 extension"
            | inl (s, rest) =>
                if decide (rest ≠ "") then invalid "invalid ASN.1 in OIDC issuer v2 extension, trailing data"
                else issuer_extensions extensions issuer1 (Some s)
            end
        end
      else issuer_extensions extensions issuer1 issuer2
  end.

Definition fulcioIssuerInCertificate (c : Certificate PK) : string + error :=
  match issuer_extensions (Extensions c) None None with
  | inr e => inr e
  | inl (Some i1, Some i2) => if decide (i1 = i2) then inl i1 else invalid "inconsistent OIDC issuer extension values"
  | inl (Some i, None) | inl (None, Some i) => inl i
  | inl (None, None) => invalid "Fulcio certificate is missing the issuer extension"
  end.

Definition parseLeafCertFromPEM (untrustedCertificateBytes : string) : Certificate PK + error :=
  match UnmarshalCertificatesFromPEM untrustedCertificateBytes with
  | inr _ => invalid "parsing leaf certificate"
  | inl [] => invalid "no certificate found in signature certificate data"
  | inl [c] => inl c
  | inl _ => invalid "unexpected multiple certificates present in signature certificate data"
  end.

(** The intermediate certificates of a chain: all but its last. *)
Definition chain_intermediates (chain : list (Certificate PK)) : CertPool PK := removelast chain.

Definition without_SAN (c : Certificate PK) : Certificate PK :=
  mkCertificate (Raw c) (Extensions c) (filter (λ oid, oid ≠ SANOID) (UnhandledCriticalExtensions c)) (EmailAddresses c) (cert_PublicKey c).

Definition verifyFulcioCertificateAtTime (f : fulcioTrustRoot) (relevantTime : Z)
    (untrustedCertificateBytes untrustedIntermediateChainBytes : string) : PK + error :=
  match (if decide (untrustedIntermediateChainBytes = "") then inl None
         else match UnmarshalCertificatesFromPEM untrustedIntermediateChainBytes with
              | inr _ => invalid "loading certificate chain"
              | inl chain => inl (Some (chain_intermediates chain))
              end) with
  | inr e => inr e
  | inl untrustedIntermediatePool =>
      match parseLeafCertFromPEM untrustedCertificateBytes with
      | inr e => inr e
      | inl c =>
          let untrustedCertificate := without_SAN c in
          match x509_Verify untrustedCertificate (mkVerifyOptions untrustedIntermediatePool (caCertificates f) (Some relevantTime)) with
          | Some _ => invalid "veryfing leaf certificate failed"
          | None =>
              match fulcioIssuerInCertificate untrustedCertificate with
              | inr e => inr e
              | inl issuer =>
                  if decide (issuer ≠ oidcIssuer f) then invalid "Unexpected Fulcio OIDC issuer"
                  else if decide (subjectEmail f ∈ EmailAddresses untrustedCertificate) then inl (cert_PublicKey untrustedCertificate)
                  else invalid "Required email not found"
              end
          end
      end
  end.

Definition verifyRekorFulcio (rekorPublicKeys : list PK) (f : fulcioTrustRoot) (untrustedRekorSET untrustedCertificateBytes
    untrustedIntermediateChainBytes untrustedBase64Signature untrustedPayloadBytes : string) : PK + error :=
  match VerifyRekorSET rekorPublicKeys untrustedRekorSET untrustedCertificateBytes untrustedBase64Signature untrustedPayloadBytes with
  | inr e => inr e
  | inl rekorSETTime => verifyFulcioCertificateAtTime f rekorSETTime untrustedCertificateBytes untrustedIntermediateChainBytes
  end.

Record pkiTrustRoot := mkPKI {
  caRootsCertificates : CertPool PK;
  caIntermediateCertificates : option (CertPool PK);
  pki_subjectEmail : string;
  pki_subjectHostname : string
}.
Definition pki_validate (p : pkiTrustRoot) : option error :=
  if decide (pki_subjectEmail p = "" ∧ pki_subjectHostname p = "")
  then Some (ErrOther "Internal inconsistency: PKI use set up without subject email or subject hostname") else None.

Definition verifyPKI (p : pkiTrustRoot) (untrustedCertificateBytes untrustedIntermediateChainBytes : string) : PK + error :=
  let trusted := default [] (caIntermediateCertificates p) in
  match (if decide (untrustedIntermediateChainBytes = "") then inl trusted
         else match UnmarshalCertificatesFromPEM untrustedIntermediateChainBytes with
              | inr _ => invalid "loading certificate chain"
              | inl chain => inl (trusted ++ chain_intermediates chain)%list
              end) with
  | inr e => inr e
  | inl untrustedIntermediatePool =>
      match parseLeafCertFromPEM untrustedCertificateBytes with
      | inr e => inr e
      | inl c =>
          match x509_Verify c (mkVerifyOptions (Some untrustedIntermediatePool) (caRootsCertificates p) None) with
          | Some _ => invalid "veryfing leaf certificate failed"
          | None =>
              if decide (pki_subjectEmail p ≠ "" ∧ pki_subjectEmail p ∉ EmailAddresses c) then invalid "Required email not found"
              else if decide (pki_subjectHostname p ≠ "" ∧ is_Some (VerifyHostname c (pki_subjectHostname p))) then
                invalid "Unexpected subject hostname"
              else inl (cert_PublicKey c)
          end
      end
  end.
End Verification.

Arguments fulcioTrustRoot PK : clear implicits.
Arguments pkiTrustRoot PK : clear implicits.
End Sigstore.
