(* ===== verification/Policy.v ===== *)
(** * Signature policies

    [image/signature]: the requirements of a policy ([policy_types.go]), which
    of them apply to an image ([policy_eval.go]), and when an image satisfies
    them ([policy_eval_simple.go], [policy_eval_baselayer.go],
    [policy_eval_signedby.go], [policy_eval_sigstore.go],
    [policy_reference_match.go]); with the image as the policy sees it
    ([image/internal/image/unparsed.go]).

    The state of an evaluation is a record: the operating system, the source
    of the image, what the image has cached, and the policy context. *)

From S2P Require Import Prelude World StoreUtil Strconv StringId GoJson GoRegexp DockerReference Signatures Sigstore.

Local Open Scope string_scope.

Module Policy.
Import GoJson DockerReference Signatures Sigstore.

(** ** Requirements *)

Inductive PolicyReferenceMatch :=
  | prmMatchExact
  | prmMatchRepoDigestOrExact
  | prmMatchRepository
  | prmExactReference (DockerReference : string)
  | prmExactRepository (DockerRepository : string)
  | prmRemapIdentity (Prefix SignedPrefix : string).

Inductive sbKeyType :=
  | SBKeyTypeGPGKeys | SBKeyTypeSignedByGPGKeys | SBKeyTypeX509Certificates | SBKeyTypeSignedByX509CAs | SBKeyTypeOther (s : string).

(** Slices may be nil: [None]. *)
Record prSignedBy := mkSignedBy {
  KeyType : sbKeyType;
  KeyPath : string;
  KeyPaths : option (list string);
  KeyData : option string;
  SignedIdentity : PolicyReferenceMatch
}.

Record prSigstoreSignedFulcio := mkSignedFulcio { CAPath : string; CAData : option string; OIDCIssuer : string; SubjectEmail : string }.
Record prSigstoreSignedPKI := mkSignedPKI {
  CARootsPath : string;
  CARootsData : option string;
  CAIntermediatesPath : string;
  CAIntermediatesData : option string;
  PKISubjectEmail : string;
  PKISubjectHostname : string
}.
Record prSigstoreSigned := mkSigstoreSigned {
  s_KeyPath : string;
  s_KeyPaths : option (list string);
  s_KeyData : option string;
  s_KeyDatas : option (list string);
  Fulcio : option prSigstoreSignedFulcio;
  RekorPublicKeyPath : string;
  RekorPublicKeyPaths : option (list string);
  RekorPublicKeyData : option string;
  RekorPublicKeyDatas : option (list string);
  PKI : option prSigstoreSignedPKI;
  s_SignedIdentity : PolicyReferenceMatch
}.

Inductive PolicyRequirement :=
  | PRInsecureAcceptAnything
  | PRReject
  | PRSignedBy (pr : prSignedBy)
  | PRSignedBaseLayer (BaseLayerIdentity : PolicyReferenceMatch)
  | PRSigstoreSigned (pr : prSigstoreSigned).

Notation PolicyRequirements := (list PolicyRequirement).
Notation PolicyTransportScopes := (gmap string (list PolicyRequirement)).

Record Policy := mkPolicy { Default : PolicyRequirements; Transports : gmap string PolicyTransportScopes }.

(** ** Images *)

(** [types.ImageReference] *)
Record ImageReference := mkImageReference {
  TransportName : string;
  DockerReference : option Named;
  PolicyConfigurationIdentity : string;
  PolicyConfigurationNamespaces : list string
}.

(** The references of the registry transport; those that were parsed always
    have an identity. *)
Definition docker_ImageReference (r : DockerTransport.dockerReference) : ImageReference :=
  mkImageReference "docker" (Some (DockerTransport.ref r))
    (match DockerTransport.PolicyConfigurationIdentity r tt with (_, Ret id) => id | _ => "" end)
    (DockerTransport.PolicyConfigurationNamespaces r).

(** [private.ImageSource]: a manifest (nil or not) and its type, and the
    signatures. *)
Class ImageSource (Src : Type) := {
  GetManifest : option string → M Src (option string * string);
  GetSignaturesWithFormat : option string → M Src (option (list Signature))
}.

Record UnparsedImage := mkUnparsedImage {
  Reference_ : ImageReference;                (* src.Reference() *)
  instanceDigest : option string;
  cachedManifest : option string;
  cachedManifestMIMEType : string;
  cachedSignatures : option (list Signature)
}.
Definition UnparsedInstance (reference : ImageReference) (instanceDigest : option string) : UnparsedImage :=
  mkUnparsedImage reference instanceDigest None "" None.

Inductive policyContextState := pcInitializing | pcReady | pcInUse | pcDestroying | pcDestroyed.
#[global] Instance policyContextState_eq_dec : EqDecision policyContextState.
Proof. solve_decision. Defined.

Inductive signatureAcceptanceResult := sarAccepted | sarRejected | sarUnknown.

Record PolicyContext := mkContext { pc_Policy : Policy; state : policyContextState; requireSigned : bool }.

Record State (Src : Type) := mkState { world : World; src : Src; image : UnparsedImage; pc : PolicyContext }.
Arguments mkState {Src}.
Arguments world {Src}.
Arguments src {Src}.
Arguments image {Src}.
Arguments pc {Src}.

#[global] Instance State_world {Src} : HasWorld (State Src) := {
  get_world := world;
  set_world w s := mkState w (src s) (image s) (pc s)
}.

Definition set_state (x : policyContextState) (c : PolicyContext) : PolicyContext := mkContext (pc_Policy c) x (requireSigned c).
Definition set_pc {Src} (c : PolicyContext) (s : State Src) : State Src := mkState (world s) (src s) (image s) c.
Definition set_image {Src} (i : UnparsedImage) (s : State Src) : State Src := mkState (world s) (src s) i (pc s).

Section Evaluation.
Context `{JSON} `{Digests} `{Unicode} `{ImageSpec} `{Libtrust} {Mech : Type} `{SigningMechanism Mech} {PK : Type} `{Crypto PK} {Src : Type} `{ImageSource Src}.
Notation ME := (M (State Src)).

Definition from_source {A} (m : M Src A) : ME A := zoom src (λ x s, mkState (world s) x (image s) (pc s)) m.

(** *** The unparsed image *)

Definition expectedManifestDigest (i : UnparsedImage) : option string :=
  match instanceDigest i with
  | Some d => Some d
  | None => DockerReference (Reference_ i) ≫= Digest
  end.

Definition set_cachedManifest (m : option string) (mt : string) (s : State Src) : State Src :=
  set_image (mkUnparsedImage (Reference_ (image s)) (instanceDigest (image s)) m mt (cachedSignatures (image s))) s.
Definition set_cachedSignatures (l : option (list Signature)) (s : State Src) : State Src :=
  set_image (mkUnparsedImage (Reference_ (image s)) (instanceDigest (image s)) (cachedManifest (image s)) (cachedManifestMIMEType (image s)) l) s.

Definition Manifest : ME (option string * string) :=
  i ← gets image;
  match cachedManifest i with
  | Some m => mret (Some m, cachedManifestMIMEType i)
  | None =>
      '(m, mt) ← from_source (GetManifest (instanceDigest i));
      (match expectedManifestDigest i with
       | None => mret tt
       | Some digest =>
           match MatchesDigest (default "" m) digest with
           | inr _ => fail (ErrOther "computing manifest digest")
           | inl false => fail (ErrOther "Manifest does not match provided manifest digest")
           | inl true => mret tt
           end
       end);;
      modify (set_cachedManifest m mt);;
      mret (m, mt)
  end.

Definition UntrustedSignatures : ME (option (list Signature)) :=
  i ← gets image;
  match cachedSignatures i with
  | Some l => mret (Some l)
  | None =>
      sigs ← from_source (GetSignaturesWithFormat (instanceDigest i));
      modify (set_cachedSignatures sigs);;
      mret sigs
  end.

Definition Signatures_ : ME (list string) :=
  sigs ← UntrustedSignatures;
  mret (omap (λ s, match s with SSimple b => Some b | SSigstore _ => None end) (default [] sigs)).

(** *** Matching of references *)

Definition parseImageAndDockerReference (i : UnparsedImage) (s2 : string) : option (Named * Named) :=
  match DockerReference (Reference_ i), ParseNormalizedNamed s2 with Some r1, inl r2 => Some (r1, r2) | _, _ => None end.
Definition parseDockerReferences (s1 s2 : string) : option (Named * Named) :=
  match ParseNormalizedNamed s1, ParseNormalizedNamed s2 with inl r1, inl r2 => Some (r1, r2) | _, _ => None end.

(** Neither of them may be without a tag and a digest. *)
Definition exact_match (intended signature : Named) : bool :=
  if IsNameOnly intended || IsNameOnly signature then false else bool_decide (String_ signature = String_ intended).

Definition matchRepoDigestOrExactReferenceValues (intended signature : Named) : bool :=
  if IsNameOnly signature then false
  else match Tag intended, Digest intended with
       | Some _, _ => bool_decide (String_ signature = String_ intended)
       | None, Some _ => bool_decide (Name signature = Name intended)
       | None, None => false
       end.

Definition refMatchesPrefix (Prefix : string) (ref : Named) : bool :=
  let name := Name ref in
  match Nat.compare (String.length name) (String.length Prefix) with
  | Lt => false
  | Eq => bool_decide (name = Prefix)
  | Gt => String.prefix Prefix name && bool_decide (String.get (String.length Prefix) name = Some "/"%char)
  end.

(** [strings.Replace] of the first occurrence. *)
Fixpoint Replace1 (s old new : string) : string :=
  if String.prefix old s then new +:+ String.substring (String.length old) (String.length s - String.length old) s
  else match s with "" => "" | String c s => String c (Replace1 s old new) end.

Definition remapReferencePrefix (Prefix SignedPrefix : string) (ref : Named) : Named + error :=
  if negb (refMatchesPrefix Prefix ref) then inl ref
  else ParseNamed (Replace1 (String_ ref) Prefix SignedPrefix).

Definition matchesDockerReference (prm : PolicyReferenceMatch) (i : UnparsedImage) (signatureDockerReference : string) : bool :=
  match prm with
  | prmMatchExact =>
      match parseImageAndDockerReference i signatureDockerReference with
      | Some (intended, signature) => exact_match intended signature
      | None => false
      end
  | prmMatchRepoDigestOrExact =>
      match parseImageAndDockerReference i signatureDockerReference with
      | Some (intended, signature) => matchRepoDigestOrExactReferenceValues intended signature
      | None => false
      end
  | prmMatchRepository =>
      match parseImageAndDockerReference i signatureDockerReference with
      | Some (intended, signature) => bool_decide (Name signature = Name intended)
      | None => false
      end
  | prmExactReference ref =>
      match parseDockerReferences ref signatureDockerReference with
      | Some (intended, signature) => exact_match intended signature
      | None => false
      end
  | prmExactRepository repo =>
      match parseDockerReferences repo signatureDockerReference with
      | Some (intended, signature) => bool_decide (Name signature = Name intended)
      | None => false
      end
  | prmRemapIdentity Prefix SignedPrefix =>
      match parseImageAndDockerReference i signatureDockerReference with
      | Some (intended, signature) =>
          match remapReferencePrefix Prefix SignedPrefix intended with
          | inl intended => matchRepoDigestOrExactReferenceValues intended signature
          | inr _ => false
          end
      | None => false
      end
  end.

(** *** Keys from the configuration *)

Record configBytesSources := mkSources {
  inconsistencyErrorMessage : string;
  path : string;
  paths : option (list string);
  data : option string;
  datas : option (list string)
}.

Fixpoint read_files (l : list string) : ME (list string) :=
  match l with
  | [] => mret []
  | p :: l => d ← os (os_ReadFile p); ds ← read_files l; mret (d :: ds)
  end.

Definition loadBytesFromConfigSources (c : configBytesSources) : ME (option (list string)) :=
  '(sources, res) ← (if decide (path c = "") then mret (0, None) else d ← os (os_ReadFile (path c)); mret (1, Some [d]));
  '(sources, res) ← (match paths c with None => mret (sources, res) | Some l => ds ← read_files l; mret (Datatypes.S sources, Some ds) end);
  let '(sources, res) := match data c with None => (sources, res) | Some d => (Datatypes.S sources, Some [d]) end in
  let '(sources, res) := match datas c with None => (sources, res) | Some ds => (Datatypes.S sources, Some ds) end in
  if decide (1 < sources)%nat then fail (ErrOther (inconsistencyErrorMessage c)) else mret res.

(** *** signedBy *)

(** The two checks that a policy makes of what was signed. *)
Definition validate_reference (prm : PolicyReferenceMatch) (ref : string) : ME unit :=
  i ← gets image;
  if matchesDockerReference prm i ref then mret tt else fail (ErrPolicyRequirement "Signature for identity is not accepted").
Definition validate_digest (digest : string) : ME unit :=
  '(m, _) ← Manifest;
  match MatchesDigest (default "" m) digest with
  | inr e => fail e
  | inl false => fail (ErrPolicyRequirement "Signature for digest does not match")
  | inl true => mret tt
  end.

Definition notOneSourceErrorText := "Internal inconsistency: not exactly one of keyPath, keyPaths and keyData specified".

(** What is not accepted is rejected with the error. *)
Definition signedBy_verify (pr : prSignedBy) (sig : string) : ME VerifiedSignature :=
  match KeyType pr with
  | SBKeyTypeSignedByGPGKeys | SBKeyTypeX509Certificates | SBKeyTypeSignedByX509CAs => fail (ErrOther "Unimplemented keyType value")
  | SBKeyTypeOther _ => fail (ErrOther "Unknown keyType value")
  | SBKeyTypeGPGKeys =>
      d ← loadBytesFromConfigSources (mkSources notOneSourceErrorText (KeyPath pr) (KeyPaths pr) (KeyData pr) None);
      match d with
      | None => fail (ErrOther notOneSourceErrorText)
      | Some data =>
          '(mech, trustedIdentities) ← os (newEphemeralGPGSigningMechanism data);
          finally
            (if decide (trustedIdentities = []) then fail (ErrPolicyRequirement "No public keys imported")
             else fst <$> verifyAndExtractSignature mech sig (mkRules trustedIdentities (validate_reference (SignedIdentity pr)) validate_digest))
            (os (Close mech))
      end
  end.

(** *** sigstoreSigned *)

Record sigstoreSignedTrustRoot := mkTrustRoot {
  publicKeys : list PK;
  fulcio : option (fulcioTrustRoot PK);
  rekorPublicKeys : list PK;
  pki : option (pkiTrustRoot PK)
}.

Definition return_ {A} (r : A + error) : ME A := match r with inl a => mret a | inr e => fail e end.
Definition checked (e : option error) : ME unit := match e with None => mret tt | Some e => fail e end.

Definition fulcio_prepareTrustRoot (f : prSigstoreSignedFulcio) : ME (fulcioTrustRoot PK) :=
  pems ← loadBytesFromConfigSources (mkSources "Internal inconsistency: both caPath and caData specified" (CAPath f) None (CAData f) None);
  match pems with
  | Some [pem] =>
      match AppendCertsFromPEM pem with
      | None => fail (ErrOther "error loading Fulcio CA certificates")
      | Some certs =>
          let root := mkFulcio certs (OIDCIssuer f) (SubjectEmail f) in
          checked (fulcio_validate root);; mret root
      end
  | _ => fail (ErrOther "Internal inconsistency: Fulcio specified with not exactly one of caPath nor caData")
  end.

Definition pki_prepareTrustRoot (p : prSigstoreSignedPKI) : ME (pkiTrustRoot PK) :=
  pems ← loadBytesFromConfigSources (mkSources "Internal inconsistency: both caRootsPath and caRootsData specified" (CARootsPath p) None (CARootsData p) None);
  match pems with
  | Some [pem] =>
      match AppendCertsFromPEM pem with
      | None => fail (ErrOther "error loading PKI CA Roots certificates")
      | Some rootsCerts =>
          ipems ← loadBytesFromConfigSources (mkSources "Internal inconsistency: both caIntermediatesPath and caIntermediatesData specified"
                                                (CAIntermediatesPath p) None (CAIntermediatesData p) None);
          intermediates ← (match ipems with
                           | None => mret None
                           | Some [pem] =>
                               match UnmarshalCertificatesFromPEM pem with
                               | inr _ => fail (ErrInvalidSignature "loading trusted intermediate certificates")
                               | inl certs => mret (Some certs)
                               end
                           | Some _ => fail (ErrOther "Internal inconsistency: PKI specified with invalid value from caIntermediatesPath or caIntermediatesData")
                           end);
          let root := mkPKI rootsCerts intermediates (PKISubjectEmail p) (PKISubjectHostname p) in
          checked (pki_validate root);; mret root
      end
  | _ => fail (ErrOther "Internal inconsistency: PKI specified with not exactly one of caRootsPath nor caRootsData")
  end.

Fixpoint parse_keys (ecdsa : bool) (l : list string) : list PK + error :=
  match l with
  | [] => inl []
  | pem :: l =>
      match UnmarshalPEMToPublicKey pem with
      | inr _ => inr (ErrOther "parsing public key")
      | inl pk =>
          if ecdsa && negb (is_ecdsa pk) then inr (ErrOther "Rekor public key is not using ECDSA")
          else match parse_keys ecdsa l with inl ks => inl (pk :: ks) | inr e => inr e end
      end
  end.

Definition load_keys (ecdsa : bool) (c : configBytesSources) (none : string) : ME (list PK) :=
  pems ← loadBytesFromConfigSources c;
  match pems with
  | None => mret []
  | Some l => ks ← return_ (parse_keys ecdsa l); if decide (ks = []) then fail (ErrOther none) else mret ks
  end.

Definition prepareTrustRoot (pr : prSigstoreSigned) : ME sigstoreSignedTrustRoot :=
  keys ← load_keys false (mkSources "Internal inconsistency: more than one of keyPath, keyPaths, keyData, keyDatas specified"
                            (s_KeyPath pr) (s_KeyPaths pr) (s_KeyData pr) (s_KeyDatas pr))
           "Internal inconsistency: keyPath, keyPaths, keyData and keyDatas produced no public keys";
  f ← (match Fulcio pr with None => mret None | Some f => r ← fulcio_prepareTrustRoot f; mret (Some r) end);
  rekor ← load_keys true (mkSources "Internal inconsistency: both rekorPublicKeyPath and rekorPublicKeyData specified"
                            (RekorPublicKeyPath pr) (RekorPublicKeyPaths pr) (RekorPublicKeyData pr) (RekorPublicKeyDatas pr))
            "Internal inconsistency: rekorPublicKeyPath, rekorPublicKeyPaths, rekorPublicKeyData and rekorPublicKeyDatas produced no public keys";
  p ← (match PKI pr with None => mret None | Some p => r ← pki_prepareTrustRoot p; mret (Some r) end);
  mret (mkTrustRoot keys f rekor p).

(** The first of the keys for which the log has an entry. *)
Fixpoint rekor_candidates (rekor keys : list PK) (untrustedSET untrustedBase64Signature untrustedPayload : string) : PK + error :=
  match keys with
  | [] => inr (ErrInvalidSignature "No public key verified against the RekorSET")
  | k :: keys =>
      match MarshalPublicKeyToPEM k with
      | inr _ => inr (ErrOther "re-marshaling public key to PEM")
      | inl pem =>
          match VerifyRekorSET rekor untrustedSET pem untrustedBase64Signature untrustedPayload with
          | inl _ => inl k
          | inr _ => rekor_candidates rekor keys untrustedSET untrustedBase64Signature untrustedPayload
          end
      end
  end.

Definition annotation (sig : Sigstore) (key : string) : string + error :=
  match untrustedAnnotations sig !! key with Some v => inl v | None => inr (ErrOther ("missing " +:+ key +:+ " annotation")) end.

(** The keys with which the payload may be signed. *)
Definition accepted_keys (root : sigstoreSignedTrustRoot) (sig : Sigstore) (untrustedBase64Signature : string) : list PK + error :=
  let chain := default "" (untrustedAnnotations sig !! SigstoreIntermediateCertificateChainAnnotationKey) in
  match publicKeys root, fulcio root, pki root with
  | [], None, None => inr (ErrOther "Internal inconsistency: A public key, Fulcio, or PKI must be specified.")
  | _ :: _ as keys, None, None =>
      if decide (rekorPublicKeys root = []) then inl keys
      else match annotation sig SigstoreSETAnnotationKey with
           | inr e => inr e
           | inl untrustedSET =>
               match rekor_candidates (rekorPublicKeys root) keys untrustedSET untrustedBase64Signature (untrustedPayload sig) with
               | inl k => inl [k]
               | inr e => inr e
               end
           end
  | [], Some f, None =>
      if decide (rekorPublicKeys root = []) then inr (ErrOther "Internal inconsistency: Fulcio CA specified without a Rekor public key")
      else match annotation sig SigstoreSETAnnotationKey with
           | inr e => inr e
           | inl untrustedSET =>
               match annotation sig SigstoreCertificateAnnotationKey with
               | inr e => inr e
               | inl untrustedCert =>
                   match verifyRekorFulcio (rekorPublicKeys root) f untrustedSET untrustedCert chain untrustedBase64Signature (untrustedPayload sig) with
                   | inl k => inl [k]
                   | inr e => inr e
                   end
               end
           end
  | [], None, Some p =>
      if decide (rekorPublicKeys root = []) then
        match annotation sig SigstoreCertificateAnnotationKey with
        | inr e => inr e
        | inl untrustedCert => match verifyPKI p untrustedCert chain with inl k => inl [k] | inr e => inr e end
        end
      else inr (ErrOther "Internal inconsistency: PKI specified with a Rekor public key")
  | _, _, _ => inr (ErrOther "Internal inconsistency: More than one of public key, Fulcio, or PKI specified")
  end.

Definition sigstoreSigned_verify (pr : prSigstoreSigned) (sig : Sigstore) : ME untrustedSignature :=
  trustRoot ← prepareTrustRoot pr;
  untrustedBase64Signature ← return_ (annotation sig SigstoreSignatureAnnotationKey);
  keys ← return_ (accepted_keys trustRoot sig untrustedBase64Signature);
  VerifySigstorePayload keys (untrustedPayload sig) untrustedBase64Signature
    (mkPayloadRules _ (validate_reference (s_SignedIdentity pr)) validate_digest).

(** *** Requirements *)

Definition accepted {A} (m : ME A) : ME (signatureAcceptanceResult * option A * option error) :=
  r ← try m;
  mret (match r with inl a => (sarAccepted, Some a, None) | inr e => (sarRejected, None, Some e) end).

Definition isSignatureAuthorAccepted (req : PolicyRequirement) (sig : string) :
    ME (signatureAcceptanceResult * option VerifiedSignature * option error) :=
  match req with
  | PRInsecureAcceptAnything | PRSignedBaseLayer _ => mret (sarUnknown, None, None)
  | PRReject => mret (sarRejected, None, Some (ErrPolicyRequirement "Any signatures for image are rejected by policy."))
  | PRSignedBy pr => accepted (signedBy_verify pr sig)
  | PRSigstoreSigned _ => mret (sarRejected, None, Some (ErrOther "isSignatureAuthorAccepted is not implemented for sigstore"))
  end.

Definition verifiesSignatures (req : PolicyRequirement) : bool :=
  match req with PRSignedBy _ | PRSigstoreSigned _ => true | _ => false end.

(** The reasons for which no signature was accepted. *)
Definition summary (none : string) (rejections : list error) : error :=
  match rejections with
  | [] => ErrPolicyRequirement none
  | [e] => e
  | _ => ErrPolicyRequirement "None of the signatures were accepted"
  end.

(** One accepted signature is enough. *)
Fixpoint first_accepted {X A} (verify : X → ME A) (none : string) (rejections : list error) (sigs : list X) : ME (bool * option error) :=
  match sigs with
  | [] => mret (false, Some (summary none rejections))
  | s :: sigs =>
      r ← try (verify s);
      match r with
      | inl _ => mret (true, None)
      | inr e => first_accepted verify none (rejections ++ [e])%list sigs
      end
  end.

Definition sigstore_attachments (l : list Signature) : list Sigstore :=
  omap (λ s, match s with
             | SSigstore g => if decide (untrustedMIMEType g = SigstoreSignatureMIMEType) then Some g else None
             | SSimple _ => None
             end) l.

Definition isRunningImageAllowed (req : PolicyRequirement) : ME (bool * option error) :=
  match req with
  | PRInsecureAcceptAnything => mret (true, None)
  | PRReject => mret (false, Some (ErrPolicyRequirement "Running image is rejected by policy."))
  | PRSignedBaseLayer _ => mret (false, Some (ErrPolicyRequirement "signedBaseLayer not implemented yet!"))
  | PRSignedBy pr =>
      r ← try Signatures_;
      match r with
      | inr e => mret (false, Some e)
      | inl sigs => first_accepted (signedBy_verify pr) "A signature was required, but no signature exists" [] sigs
      end
  | PRSigstoreSigned pr =>
      r ← try UntrustedSignatures;
      match r with
      | inr e => mret (false, Some e)
      | inl sigs =>
          first_accepted (sigstoreSigned_verify pr) "A signature was required, but no signature exists" [] (sigstore_attachments (default [] sigs))
      end
  end.

(** ** Policy contexts *)

Definition changeState (expected new : policyContextState) : ME unit :=
  c ← gets pc;
  if decide (state c = expected) then modify (set_pc (set_state new c)) else fail (ErrOther "Invalid PolicyContext state").

Definition NewPolicyContext (policy : Policy) : PolicyContext := mkContext policy pcReady false.

Definition Destroy : ME unit := changeState pcReady pcDestroying;; changeState pcDestroying pcDestroyed.

Definition RequireSignatureVerification (val : bool) : ME unit :=
  modify (λ s, set_pc (mkContext (pc_Policy (pc s)) (state (pc s)) val) s).

(** The most specific section of the policy. *)
Fixpoint first_scope (scopes : PolicyTransportScopes) (names : list string) : option PolicyRequirements :=
  match names with
  | [] => None
  | n :: names => match scopes !! n with Some req => Some req | None => first_scope scopes names end
  end.
Definition requirementsForImageRef (p : Policy) (ref : ImageReference) : PolicyRequirements :=
  match Transports p !! TransportName ref with
  | Some transportScopes =>
      match transportScopes !! PolicyConfigurationIdentity ref with
      | Some req => req
      | None =>
          match first_scope transportScopes (PolicyConfigurationNamespaces ref) with
          | Some req => req
          | None => match transportScopes !! "" with Some req => req | None => Default p end
          end
      end
  | None => Default p
  end.

(** What a method does while the context is in use. *)
Definition in_use {A} (none : A) (body : ME (A * option error)) : ME (A * option error) :=
  r ← try (changeState pcReady pcInUse);
  match r with
  | inr e => mret (none, Some e)
  | inl _ =>
      res ← try body;
      r ← try (changeState pcInUse pcReady);
      match r, res with
      | inl _, inl res => mret res
      | inl _, inr e | inr e, _ => mret (none, Some e)
      end
  end.

Fixpoint all_allowed (reqs : PolicyRequirements) (wasSignatureVerified : bool) : ME (bool * option error * bool) :=
  match reqs with
  | [] => mret (true, None, wasSignatureVerified)
  | req :: reqs =>
      '(allowed, err) ← isRunningImageAllowed req;
      if negb allowed then mret (false, err, wasSignatureVerified)
      else all_allowed reqs (wasSignatureVerified || verifiesSignatures req)
  end.

Definition IsRunningImageAllowed : ME (bool * option error) :=
  in_use false (
    s ← gets id;
    let reqs := requirementsForImageRef (pc_Policy (pc s)) (Reference_ (image s)) in
    if decide (reqs = []) then mret (false, Some (ErrPolicyRequirement "List of verification policy requirements must not be empty"))
    else
      '(allowed, err, wasSignatureVerified) ← all_allowed reqs false;
      if negb allowed then mret (false, err)
      else if requireSigned (pc s) && negb wasSignatureVerified then
        mret (false, Some (ErrPolicyRequirement "No signature verification policy found for image"))
      else mret (true, None)).

(** The signature on which all the requirements that judge it agree. *)
Fixpoint interpret (reqs : PolicyRequirements) (sig : string) (acceptedSig : option VerifiedSignature) : ME (option VerifiedSignature) :=
  match reqs with
  | [] => mret acceptedSig
  | req :: reqs =>
      r ← isSignatureAuthorAccepted req sig;
      match r with
      | (sarAccepted, None, _) => mret None
      | (sarAccepted, Some as_, _) =>
          match acceptedSig with
          | None => interpret reqs sig (Some as_)
          | Some prev => if decide (as_ = prev) then interpret reqs sig acceptedSig else mret None
          end
      | (sarRejected, _, _) => mret None
      | (sarUnknown, _, Some _) => mret None
      | (sarUnknown, _, None) => interpret reqs sig acceptedSig
      end
  end.

Fixpoint accepted_signatures (reqs : PolicyRequirements) (sigs : list string) : ME (list VerifiedSignature) :=
  match sigs with
  | [] => mret []
  | sig :: sigs =>
      a ← interpret reqs sig None;
      res ← accepted_signatures reqs sigs;
      mret (match a with Some v => v :: res | None => res end)
  end.

Definition GetSignaturesWithAcceptedAuthor : ME (list VerifiedSignature * option error) :=
  in_use [] (
    s ← gets id;
    let reqs := requirementsForImageRef (pc_Policy (pc s)) (Reference_ (image s)) in
    r ← try Signatures_;
    match r with
    | inr e => mret ([], Some e)
    | inl unverifiedSignatures => res ← accepted_signatures reqs unverifiedSignatures; mret (res, None)
    end).
End Evaluation.
End Policy.
