(* ===== verification/PolicyDemo.v ===== *)
(** * A policy, a key and two images to try

    Concrete parameters for the signature policies: JSON texts that stand for
    their trees, keys and messages of an OpenPGP library that is a table, and a
    source with one manifest. *)

From S2P Require Import Prelude World StoreUtil Strconv StringId GoJson GoRegexp DockerReference Signatures Sigstore Policy LayerDemo LockFile.

Local Open Scope string_scope.

Module PolicyDemo.
Import GoJson DockerReference Signatures Sigstore Policy.

Definition demo_contents : untrustedSignature :=
  mkUntrusted "sha256:manifest" "docker.io/library/busybox:latest" (Some "demo") (Some 1700000000%Z).
Definition demo_payload : json := match json_of_payload signatureType demo_contents with inl j => j | inr _ => JNull end.

(** The policy below, in JSON. *)
Definition demo_policy_json : json :=
  JObject
    [ ("default", JArray [JObject [("type", JString "reject")]]);
      ("transports", JObject
        [ ("docker", JObject
            [ ("docker.io/library", JArray
                [ JObject [("type", JString "signedBy"); ("keyType", JString "GPGKeys"); ("keyData", JString "a2V5")] ]) ]) ]) ].

#[global] Instance demo_json : JSON := {
  json_Parse s :=
    if decide (s = "signed") then inl demo_payload
    else if decide (s = "policy") then inl demo_policy_json else inr (ErrOther "syntax error");
  foldName s := s;
  float64_value l := inl (Atoi l)
}.
#[global] Instance demo_spec : ImageSpec := λ _, inl 0.
#[global] Instance demo_libtrust : Libtrust := λ m, inl m.

(** Keys are their fingerprints, and there is one signed message. *)
#[global] Instance demo_openpgp : OpenPGP string := {
  Fingerprint e := Some e;
  ReadKeyRing blob := inl [blob];
  ReadArmoredKeyRing _ := inr (ErrOther "not armored");
  ReadMessage data keyring := if decide (data = "message") then inl (mkMessage true (inl "signed") None (head keyring) 1) else inr (ErrOther "EOF")
}.
#[global] Instance demo_openpgp_law : OpenPGPLaw string.
Proof.
  intros data keyring md e. simpl. case_decide; [|done]. intros [= <-]. simpl. destruct keyring as [|k keyring]; [done|].
  intros [= <-]. by left.
Qed.

(** Public keys are texts, and a signature is the key and the payload. *)
#[global] Instance demo_crypto : Crypto string := {
  is_ecdsa _ := true;
  UnmarshalPEMToPublicKey s := inl s;
  MarshalPublicKeyToPEM k := inl k;
  UnmarshalCertificatesFromPEM _ := inl [];
  AppendCertsFromPEM _ := Some [];
  x509_Verify _ _ := None;
  VerifyHostname _ _ := None;
  OIDIssuer := "1.3.6.1.4.1.57264.1.1";
  OIDIssuerV2 := "1.3.6.1.4.1.57264.1.8";
  SANOID := "2.5.29.17";
  asn1_Unmarshal_string s := inl (s, "");
  jsoncanonicalizer_Transform _ := inr (ErrOther "no payload");
  sha256_Sum256 s := s;
  ecdsa_VerifyASN1 k h s := bool_decide (s = k +:+ h);
  pem_Decode s := Some (s, "");
  LoadVerifier _ := None;
  VerifySignature k sig payload := if decide (sig = k +:+ payload) then None else Some (ErrOther "invalid signature")
}.

#[global] Instance demo_source : ImageSource unit := {
  GetManifest _ := mret (Some "manifest", "");
  GetSignaturesWithFormat _ := mret (Some [SSimple "message"])
}.

Definition demo_signedBy : prSignedBy := mkSignedBy SBKeyTypeGPGKeys "" None (Some "key") prmMatchRepoDigestOrExact.
Definition demo_scopes : gmap string (list PolicyRequirement) := {[ "docker.io/library" := [PRSignedBy demo_signedBy] ]}.
Definition demo_policy : Policy := mkPolicy [PRReject] {[ "docker" := demo_scopes ]}.

Definition busybox : repository := mkRepository "docker.io" "library/busybox".
Definition by_tag : DockerTransport.dockerReference := DockerTransport.mkDockerReference (NTagged busybox "latest") false.
Definition by_digest : DockerTransport.dockerReference := DockerTransport.mkDockerReference (NCanonical busybox "sha256:manifest") false.

Definition demo_state (r : DockerTransport.dockerReference) : State unit :=
  mkState demo_world tt (UnparsedInstance (docker_ImageReference r) None) (mkContext demo_policy pcReady true).
End PolicyDemo.
