(* ===== verification/SignatureFacts.v ===== *)
(** * Signatures: formats and mechanisms

    Signatures come back from the blobs in which they are kept, signed
    contents from their JSON, and the OpenPGP mechanism names only the keys
    that it was given. *)

From S2P Require Import Prelude World StoreUtil Strconv StringId GoJson GoRegexp DockerReference Signatures ReferenceFacts Sigstore Policy PolicyDemo LayerDemo LockFile.

Local Open Scope string_scope.

Module SignatureFacts.
Import GoJson DockerReference Signatures ReferenceFacts PolicyDemo.

(** ** Blobs *)

Section Blobs.
Context `{SigstoreJSON}.

(** What [encoding/json] promises of the representation of a signature. *)
Definition json_keeps (g : Sigstore) : Prop := ∀ chunk, sigstore_Marshal g = inl chunk → sigstore_Unmarshal chunk = inl g.

(** A signature that starts like an OpenPGP message. *)
Definition openpgp_message (b : string) : Prop := ∃ c rest, b = String c rest ∧ nat_of_ascii c ∈ openpgp_first.

(** A stored signature is read back as it was, if it is a sigstore
    signature whose JSON keeps it or a simple signature that starts like an
    OpenPGP message; a blob in no known format is refused. *)
Theorem Blob_roundtrip s b :
  match s with SSimple x => openpgp_message x | SSigstore g => json_keeps g end →
  Blob s = inl b → FromBlob b = inl s.
Proof.
  destruct s as [x|g]; unfold Blob; simpl.
  - intros (c & rest & -> & Hin) [= <-]. simpl. by rewrite decide_True.
  - intros Hk. destruct (sigstore_Marshal g) as [chunk|] eqn:Em; [|done]. intros [= <-].
    assert (FromBlob (String zero_byte ("sigstore-json" +:+ String newline chunk)) =
      match cut newline ("sigstore-json" +:+ String newline chunk) with
      | None => inr (ErrOther "invalid signature format, missing newline")
      | Some (formatBytes, chunk) =>
          if negb (printable formatBytes) then inr (ErrOther "invalid signature format, non-ASCII byte")
          else if decide (formatBytes = format_name SimpleSigningFormat) then inl (SSimple chunk)
          else if decide (formatBytes = format_name SigstoreFormat) then
            match sigstore_Unmarshal chunk with inl g => inl (SSigstore g) | inr e => inr e end
          else inr (ErrOther "unrecognized signature format")
      end) as -> by done.
    rewrite (proj2 (cut_Some newline _ "sigstore-json" chunk)) by done. simpl. by rewrite (Hk chunk Em).
Qed.

(** An OpenPGP message that starts with a one-pass signature packet of
    indeterminate length (tag 4, length type 3: byte 0x93) is not recognised,
    while text that starts with an equals sign (0x3d) is taken for one. *)
Theorem FromBlob_one_pass rest :
  FromBlob (String (ascii_of_nat 147) rest) = inr (ErrOther "unrecognized signature format, starting with binary") ∧
  FromBlob (String "=" rest) = inl (SSimple (String "=" rest)).
Proof. done. Qed.
End Blobs.

(** ** Signed contents *)

Section Contents.
Context `{JSON} `{Digests}.

Lemma raw_pair_object c o : ParanoidUnmarshalJSONObjectExactFields (raw_pair "critical" "optional") (JObject [("critical", c); ("optional", o)]) (JNull, JNull) = inl (c, o).
Proof. done. Qed.
Lemma critical_object identity image typ :
  ParanoidUnmarshalJSONObjectExactFields critical_fields (JObject [("identity", identity); ("image", image); ("type", JString typ)]) ("", (JNull, JNull)) =
  inl (typ, (image, identity)).
Proof. done. Qed.
Lemma single_object key s : ParanoidUnmarshalJSONObjectExactFields [(key, into_string)] (JObject [(key, JString s)]) "" = inl s.
Proof.
  unfold ParanoidUnmarshalJSONObjectExactFields, ParanoidUnmarshalJSONObject, exact_resolver. simpl. rewrite decide_True by done. simpl.
  rewrite decide_True; [done|]. constructor; [by left|constructor].
Qed.

(** The values that are written are accepted by the strict parser. *)
Lemma strict_payload_written typ null_optional u j :
  json_of_payload typ u = inl j → ValidateDigest (untrustedDockerManifestDigest u) = None →
  (∀ t, untrustedTimestamp u = Some t → in_int64 t ∧ float64_value (format_int t) = inl (Some t)) →
  strict_payload typ null_optional j = inl u.
Proof.
  destruct u as [d r c t]. unfold json_of_payload. simpl. case_decide; [done|]. intros [= <-] Hd Ht. unfold strict_payload. rewrite raw_pair_object.
  assert (ParanoidUnmarshalJSONObject optional_resolver
    (JObject (match c with Some c => [("creator", JString c)] | None => [] end ++
              match t with Some t => [("timestamp", JNumber (format_int t))] | None => [] end)%list) (None, None) =
    inl (c, match t with Some t => Some (Some t) | None => None end)) as ->.
  { destruct c as [c|], t as [t|]; simpl; try done; by rewrite (proj2 (Ht t eq_refl)). }
  assert (integer_timestamp (match t with Some t => Some (Some t) | None => None end) = inl t) as ->.
  { destruct t as [t|]; [|done]. simpl. by rewrite decide_True by (by apply Ht). }
  rewrite critical_object. rewrite decide_False by (by intros []). rewrite single_object. unfold digest_Parse. rewrite Hd. by rewrite single_object.
Qed.

(** C35: Signed contents of either format, simple or sigstore, are read back.
    Suppose that the digest of the contents is valid, that their timestamp, if
    there is one, is an integer of 64 bits that a [float64] represents exactly,
    and that the JSON decoder reads a text as the value that [MarshalJSON]
    builds, as it reads what [json.Marshal] makes of a value with texts in UTF-8
    (how [json.Marshal] prints a value is not modelled).  Then [UnmarshalJSON]
    of this text returns the contents: the same digest, reference, creator and
    timestamp. *)
Theorem payload_roundtrip u text :
  ValidateDigest (untrustedDockerManifestDigest u) = None →
  (∀ t, untrustedTimestamp u = Some t → in_int64 t ∧ float64_value (format_int t) = inl (Some t)) →
  (∀ j, MarshalJSON u = inl j → json_Parse text = inl j → untrustedSignature_Unmarshal text = inl u) ∧
  (∀ j, Sigstore.sigstore_MarshalJSON u = inl j → json_Parse text = inl j → Sigstore.sigstore_payload_Unmarshal text = inl u).
Proof.
  intros Hd Ht. unfold untrustedSignature_Unmarshal, Sigstore.sigstore_payload_Unmarshal.
  by split; intros j Hj ->; [unfold strictUnmarshalJSON|unfold Sigstore.sigstore_strictUnmarshalJSON]; rewrite (strict_payload_written _ _ u j Hj Hd Ht).
Qed.
End Contents.

(** ** The OpenPGP mechanism *)

Section OpenPGP.
Context {Entity : Type} `{OpenPGPLaw Entity}.

(** Every key of the ring has its identity on the list. *)
Definition identified (keyring : list Entity) (identities : list string) : Prop :=
  ∀ e, e ∈ keyring → ∃ f, Fingerprint e = Some f ∧ key_identity f ∈ identities.

Lemma import_identified keyring ids blob keyring' ki :
  importKeysFromBytes keyring blob = inl (keyring', ki) → identified keyring ids → identified keyring' (ids ++ ki)%list.
Proof.
  unfold importKeysFromBytes. destruct (match ReadKeyRing blob with inl k => inl k | inr _ => _ end) as [entities|]; [|done].
  intros [= <- <-] Hid e. rewrite elem_of_app. intros [Hin|Hin].
  - destruct (Hid e Hin) as (f & Hf & Hin'). exists f. split; [done|]. apply elem_of_app. by left.
  - apply list_elem_of_fmap in Hin as ([e' k] & -> & Hp). apply list_elem_of_omap in Hp as Hp'. destruct Hp' as (x & _ & Hx).
    destruct (Fingerprint x) as [f|] eqn:Ef; [|done]. injection Hx as -> <-. exists f. split; [done|]. apply elem_of_app. right.
    apply list_elem_of_fmap. by exists (e', key_identity f).
Qed.

Lemma import_blobs_identified blobs keyring ids keyring' ids' :
  import_blobs keyring ids blobs = inl (keyring', ids') → identified keyring ids → identified keyring' ids'.
Proof.
  revert keyring ids. induction blobs as [|b blobs IH]; intros keyring ids; simpl; [by intros [= <- <-]|].
  destruct (importKeysFromBytes keyring b) as [[k ki]|] eqn:E; [|done]. intros Ei Hid. eapply IH; [exact Ei|]. by eapply import_identified.
Qed.

(** The identity that the OpenPGP mechanism reports for a signature is one
    of those that it reported for the keys it was made from, so a policy never
    has to look an identity up. *)
Theorem openpgp_identity blobs keyring identities sig content key :
  import_blobs [] [] blobs = inl (keyring, identities) →
  openpgp_Verify keyring sig = inl (content, key) → key ∈ identities.
Proof.
  intros Ei. apply import_blobs_identified in Ei; [|by intros e ?%elem_of_nil]. unfold openpgp_Verify.
  destruct (ReadMessage sig keyring) as [md|] eqn:Em; [|done]. destruct (negb (IsSigned md)); [done|]. destruct (UnverifiedBody md) as [c|]; [|done].
  destruct (SignatureError md); [done|]. destruct (SignedBy md) as [e|] eqn:Es; [|done]. intros [= _ <-].
  destruct (Ei e) as (f & -> & Hin); [by eapply ReadMessage_SignedBy|done].
Qed.
End OpenPGP.

(** ** Witnesses *)

#[local] Instance demo_sigstore_json : SigstoreJSON := {
  sigstore_Marshal g := inl (untrustedPayload g);
  sigstore_Unmarshal chunk := inl (mkSigstore "" chunk ∅)
}.
Lemma demo_keeps : json_keeps (mkSigstore "" "payload" ∅).
Proof. by intros chunk [= <-]. Qed.
Lemma Blob_roundtrip_witness :
  FromBlob (String zero_byte ("sigstore-json" +:+ String newline "payload")) = inl (SSigstore (mkSigstore "" "payload" ∅)).
Proof. apply (Blob_roundtrip (SSigstore (mkSigstore "" "payload" ∅))); [exact demo_keeps|reflexivity]. Defined.

Lemma payload_roundtrip_witness : MarshalJSON demo_contents = inl demo_payload ∧ untrustedSignature_Unmarshal "signed" = inl demo_contents.
Proof.
  split; [reflexivity|]. destruct (payload_roundtrip demo_contents "signed") as [HW _]; [reflexivity| |].
  - intros t [= <-]. split; [done|vm_compute; reflexivity].
  - apply (HW demo_payload); reflexivity.
Defined.

Lemma openpgp_identity_witness : key_identity "key" ∈ [key_identity "key"].
Proof. apply (openpgp_identity ["key"] ["key"] [key_identity "key"] "message" "signed"); reflexivity. Defined.
End SignatureFacts.
