(* ===== verification/PolicyFacts.v ===== *)
(** * Signature policies: what they guarantee

    An image is only allowed to run when every requirement that applies to it
    is satisfied, and a requirement for a signature is only satisfied by a
    signature of a trusted key on the manifest that the image keeps. *)

From Stdlib Require Import Sorted.
From S2P Require Import Prelude World StoreUtil Strconv StringId GoJson GoRegexp DockerReference Signatures Sigstore Policy ReferenceFacts PolicyDemo LayerDemo.

Local Open Scope string_scope.

Module PolicyFacts.
Import GoJson DockerReference Signatures Sigstore Policy ReferenceFacts PolicyDemo.

Section Facts.
Context `{JSON} `{Digests} `{Unicode} `{ImageSpec} `{Libtrust} {Mech : Type} `{SigningMechanism Mech} {PK : Type} `{Crypto PK} {Src : Type} `{ImageSource Src}.
Notation ME := (M (State Src)).
Implicit Types (s : State Src).

(** ** What an evaluation may change *)

(** The cached manifest has the digest that the reference asks for. *)
Definition manifest_ok (i : UnparsedImage) : Prop :=
  ∀ m d, cachedManifest i = Some m → expectedManifestDigest i = Some d → manifest_Digest m = inl d.

(** Caches are only filled, and everything else about the image and the
    context stays. *)
Record evolves (s s' : State Src) : Prop := {
  ev_pc : pc s' = pc s;
  ev_reference : Reference_ (image s') = Reference_ (image s);
  ev_instance : instanceDigest (image s') = instanceDigest (image s);
  ev_manifest : ∀ m, cachedManifest (image s) = Some m → cachedManifest (image s') = Some m;
  ev_signatures : ∀ l, cachedSignatures (image s) = Some l → cachedSignatures (image s') = Some l;
  ev_ok : manifest_ok (image s) → manifest_ok (image s')
}.

#[global] Instance evolves_preorder : PreOrder evolves.
Proof.
  split.
  - intros s. by split.
  - intros s1 s2 s3 [? ? ? ? ? ?] [? ? ? ? ? ?]. split; (congruence || eauto).
Qed.

Lemma evolves_os {A} (m : M World A) : moves evolves (os m).
Proof. intros s. unfold os, zoom. simpl. destruct (m (world s)). by split. Qed.
Lemma evolves_source {A} (m : M Src A) : moves evolves (from_source m).
Proof. intros s. unfold from_source, zoom. destruct (m (src s)). by split. Qed.
Hint Resolve evolves_os evolves_source : moves.

Lemma MatchesDigest_true m d : MatchesDigest m d = inl true → manifest_Digest m = inl d.
Proof. unfold MatchesDigest. destruct (manifest_Digest m) as [a|]; [|done]. intros [= ->%bool_decide_eq_true]. done. Qed.

Lemma evolves_Manifest : moves evolves Manifest.
Proof.
  intros s. unfold Manifest, mbind, M_bind, gets. destruct (cachedManifest (image s)) as [m|] eqn:Em; [reflexivity|].
  pose proof (evolves_source (GetManifest (instanceDigest (image s))) s) as Hs.
  destruct (from_source (GetManifest (instanceDigest (image s))) s) as [s1 [[m mt]|e|c]]; [|done..]. simpl in Hs.
  destruct Hs as [E1 E2 E3 E4 E5 E6].
  assert (∀ d, expectedManifestDigest (image s) = Some d → MatchesDigest (default "" m) d = inl true →
    ∀ x, m = Some x → manifest_Digest x = inl d) as Hd.
  { intros d _ Hm x ->. by apply MatchesDigest_true in Hm. }
  assert (expectedManifestDigest (image s1) = expectedManifestDigest (image s)) as He by (unfold expectedManifestDigest; by rewrite E2, E3).
  assert (∀ ok, (ok → ∀ x d, m = Some x → expectedManifestDigest (image s) = Some d → manifest_Digest x = inl d) → ok →
    evolves s (set_cachedManifest m mt s1)) as Hset.
  { intros ok Hm Hok. split; simpl; try done; [by rewrite Em|]. intros _ x d Hx Hed. simpl in Hx.
    assert (expectedManifestDigest (image s1) = Some d) as Hed' by exact Hed. rewrite He in Hed'. by eapply Hm. }
  destruct (expectedManifestDigest (image s)) as [d|] eqn:Ed; simpl; [|by apply (Hset True)].
  destruct (MatchesDigest (default "" m) d) as [[|]|] eqn:Ex; simpl; [|by split..].
  apply (Hset True); [|done]. intros _ x d' Hx [= <-]. by eapply Hd.
Qed.

Lemma evolves_UntrustedSignatures : moves evolves UntrustedSignatures.
Proof.
  intros s. unfold UntrustedSignatures, mbind, M_bind, gets. destruct (cachedSignatures (image s)) as [l|] eqn:El; [reflexivity|].
  pose proof (evolves_source (GetSignaturesWithFormat (instanceDigest (image s))) s) as Hs.
  destruct (from_source (GetSignaturesWithFormat (instanceDigest (image s))) s) as [s1 [l|e|c]]; [|done..]. simpl in *.
  destruct Hs as [E1 E2 E3 E4 E5 E6]. split; simpl; try done. by rewrite El.
Qed.
Hint Resolve evolves_Manifest evolves_UntrustedSignatures : moves.

Lemma evolves_Signatures : moves evolves Signatures_.
Proof. unfold Signatures_. moves_steps. Qed.

Lemma evolves_read_files l : moves evolves (read_files l).
Proof. induction l; simpl; moves_steps. Qed.
Hint Resolve evolves_Signatures evolves_read_files : moves.

Lemma evolves_load c : moves evolves (loadBytesFromConfigSources c).
Proof. unfold loadBytesFromConfigSources. moves_steps. Qed.
Lemma evolves_validate_reference prm ref : moves evolves (validate_reference prm ref).
Proof. unfold validate_reference. moves_steps. Qed.
Lemma evolves_validate_digest d : moves evolves (validate_digest d).
Proof. unfold validate_digest. moves_steps. Qed.
Hint Resolve evolves_load evolves_validate_reference evolves_validate_digest : moves.

Lemma evolves_fmap {A B} (f : A → B) (m : ME A) : moves evolves m → moves evolves (f <$> m).
Proof. intros Hm s. specialize (Hm s). unfold fmap, M_fmap. by destruct (m s) as [s' [a|e|c]]. Qed.
Hint Resolve evolves_fmap : moves.

Lemma evolves_verifyAndExtract mech sig rules :
  (∀ r, moves evolves (validateSignedDockerReference rules r)) → (∀ d, moves evolves (validateSignedDockerManifestDigest rules d)) →
  moves evolves (verifyAndExtractSignature (S := State Src) mech sig rules).
Proof. intros Hr Hd. unfold verifyAndExtractSignature. moves_steps. Qed.

Lemma evolves_signedBy pr sig : moves evolves (signedBy_verify pr sig).
Proof.
  unfold signedBy_verify. moves_steps. apply evolves_fmap, evolves_verifyAndExtract; simpl; by auto with moves.
Qed.

Lemma evolves_return {A} (r : A + error) : moves evolves (return_ r).
Proof. unfold return_. moves_steps. Qed.
Lemma evolves_checked e : moves evolves (checked e).
Proof. unfold checked. moves_steps. Qed.
Hint Resolve evolves_signedBy evolves_return evolves_checked : moves.

Lemma evolves_fulcio f : moves evolves (fulcio_prepareTrustRoot f).
Proof. unfold fulcio_prepareTrustRoot. moves_steps. Qed.
Lemma evolves_pki p : moves evolves (pki_prepareTrustRoot p).
Proof. unfold pki_prepareTrustRoot. moves_steps. Qed.
Lemma evolves_load_keys b c e : moves evolves (load_keys b c e).
Proof. unfold load_keys. moves_steps. Qed.
Hint Resolve evolves_fulcio evolves_pki evolves_load_keys : moves.
Lemma evolves_prepareTrustRoot pr : moves evolves (prepareTrustRoot pr).
Proof. unfold prepareTrustRoot. moves_steps. Qed.
Hint Resolve evolves_prepareTrustRoot : moves.
Lemma evolves_sigstoreSigned pr sig : moves evolves (sigstoreSigned_verify pr sig).
Proof. unfold sigstoreSigned_verify, VerifySigstorePayload. moves_steps. Qed.
Hint Resolve evolves_sigstoreSigned : moves.
Lemma evolves_first_accepted {X A} (verify : X → ME A) none rej l :
  (∀ x, moves evolves (verify x)) → moves evolves (first_accepted verify none rej l).
Proof. intros Hv. revert rej. induction l as [|x l IH]; intros rej; simpl; moves_steps. Qed.

Lemma evolves_isRunningImageAllowed req : moves evolves (isRunningImageAllowed req).
Proof. unfold isRunningImageAllowed. moves_steps; apply evolves_first_accepted; auto with moves. Qed.
Hint Resolve evolves_isRunningImageAllowed : moves.
Lemma evolves_all_allowed reqs b : moves evolves (all_allowed reqs b).
Proof. revert b. induction reqs as [|r reqs IH]; intros b; simpl; moves_steps. Qed.
Lemma evolves_isSignatureAuthorAccepted req sig : moves evolves (isSignatureAuthorAccepted req sig).
Proof. unfold isSignatureAuthorAccepted, accepted. moves_steps. Qed.
Hint Resolve evolves_all_allowed evolves_isSignatureAuthorAccepted : moves.
Lemma evolves_interpret reqs sig a : moves evolves (interpret reqs sig a).
Proof. revert a. induction reqs as [|r reqs IH]; intros a; simpl; moves_steps. Qed.
Hint Resolve evolves_interpret : moves.
Lemma evolves_accepted_signatures reqs sigs : moves evolves (accepted_signatures reqs sigs).
Proof. induction sigs; simpl; moves_steps. Qed.

Lemma moved {A} (m : ME A) s s' o : m s = (s', o) → moves evolves m → evolves s s'.
Proof. intros E Hm. specialize (Hm s). by rewrite E in Hm. Qed.

(** ** What an accepted signature shows *)

(** The manifest that the image keeps, or no manifest at all when the source
    had none, and this was expected. *)
Definition has_manifest (i : UnparsedImage) (m : string) : Prop :=
  cachedManifest i = Some m ∨ m = "" ∧ ∀ d, expectedManifestDigest i = Some d → manifest_Digest "" = inl d.

(** The signed contents are acceptable for the image, and the digest is that
    of its manifest. *)
Definition signed_contents (prm : PolicyReferenceMatch) (i : UnparsedImage) (digest ref : string) : Prop :=
  matchesDockerReference prm i ref = true ∧ ∃ m, manifest_Digest m = inl digest ∧ has_manifest i m.

Lemma expected_reference i i' :
  Reference_ i' = Reference_ i → instanceDigest i' = instanceDigest i → expectedManifestDigest i' = expectedManifestDigest i.
Proof. unfold expectedManifestDigest. by intros -> ->. Qed.

Lemma matches_reference prm i i' ref :
  Reference_ i' = Reference_ i → matchesDockerReference prm i' ref = matchesDockerReference prm i ref.
Proof. intros E. unfold matchesDockerReference, parseImageAndDockerReference. by rewrite E. Qed.

Lemma signed_contents_stable prm s s' d r : evolves s s' → signed_contents prm (image s) d r → signed_contents prm (image s') d r.
Proof.
  intros Hev [Hm (m & Hd & Hc)]. split; [by rewrite (matches_reference _ (image s)) by apply Hev|]. exists m. split; [done|].
  destruct Hc as [Hc|[-> He]]; [left; by apply Hev|right]. split; [done|].
  by rewrite (expected_reference (image s)) by apply Hev.
Qed.

Lemma Manifest_ret s s' m mt :
  Manifest s = (s', Ret (m, mt)) → has_manifest (image s') (default "" m).
Proof.
  unfold Manifest. intros (s1 & i & [= <- <-] & E)%run_bind_ret. destruct (cachedManifest (image s)) as [x|] eqn:Ex.
  - injection E as <- <- <-. by left.
  - apply run_bind_ret in E as (s1 & [m' mt'] & Es & E). apply run_bind_ret in E as (s2 & [] & Ed & E).
    apply run_bind_ret in E as (s3 & [] & [= <-] & [= <- <- <-]). destruct m' as [m'|]; [by left|right]. split; [done|].
    apply moved in Es; [|apply evolves_source]. intros d Hd.
    assert (expectedManifestDigest (image s2) = Some d) as Hd2 by exact Hd.
    assert (s2 = s1) as -> by (destruct (expectedManifestDigest (image s)) as [x|]; [destruct (MatchesDigest _ x) as [[|]|]|]; by injection Ed as <-).
    rewrite (expected_reference (image s)) in Hd2 by apply Es. rewrite Hd2 in Ed. simpl in Ed.
    destruct (MatchesDigest "" d) as [[|]|] eqn:Ey; [|done..]. by apply MatchesDigest_true in Ey.
Qed.

Lemma validate_digest_ret d s s' :
  validate_digest d s = (s', Ret tt) → ∃ m, manifest_Digest m = inl d ∧ has_manifest (image s') m.
Proof.
  unfold validate_digest. intros (s1 & [m mt] & Em & E)%run_bind_ret. apply Manifest_ret in Em.
  destruct (MatchesDigest (default "" m) d) as [[|]|] eqn:Ed; [|done..]. injection E as <-. apply MatchesDigest_true in Ed.
  by exists (default "" m).
Qed.
Lemma validate_reference_ret prm ref s s' : validate_reference prm ref s = (s', Ret tt) → s' = s ∧ matchesDockerReference prm (image s) ref = true.
Proof.
  unfold validate_reference. intros (s1 & i & [= <- <-] & E)%run_bind_ret. by destruct (matchesDockerReference prm (image s) ref); [injection E as <-|].
Qed.

Lemma validated prm d ref s s' :
  (validate_digest d;; validate_reference prm ref) s = (s', Ret tt) → signed_contents prm (image s') d ref.
Proof.
  intros (s1 & [] & Ed & Er)%run_bind_ret. apply validate_digest_ret in Ed. apply validate_reference_ret in Er as [-> Er]. by split.
Qed.

(** A signature made by a key of the mechanism, or by a subkey of it. *)
Definition made_by (mech : Mech) (identities : list string) (sig content : string) : Prop :=
  ∃ w w' key, Verify mech sig w = (w', Ret (content, key)) ∧
    (key ∈ identities ∨
     ∃ lookup w1 w2 primary, keyIdentityForVerificationKeyIdentity = Some lookup ∧ lookup mech key w1 = (w2, Ret primary) ∧ primary ∈ identities).

Lemma verifyAndExtract_ret mech sig prm identities s s' v key :
  verifyAndExtractSignature mech sig (mkRules identities (validate_reference prm) validate_digest) s = (s', Ret (v, key)) →
  ∃ content u, made_by mech identities sig content ∧ untrustedSignature_Unmarshal content = inl u ∧
    v = mkVerified (untrustedDockerManifestDigest u) (untrustedDockerReference u) ∧
    signed_contents prm (image s') (untrustedDockerManifestDigest u) (untrustedDockerReference u).
Proof.
  unfold verifyAndExtractSignature. intros (s1 & [content k] & Ev & E)%run_bind_ret.
  apply run_bind_ret in E as (s2 & k2 & Ek & E). simpl in Ek.
  assert (made_by mech identities sig content) as Hmade.
  { unfold os, zoom in Ev. destruct (Verify mech sig _) as [w' o] eqn:Ew. injection Ev as _ ->. exists (get_world s), w', k. split; [done|].
    case_decide; [by left|]. right. destruct keyIdentityForVerificationKeyIdentity as [lookup|]; [|done].
    apply run_bind_ret in Ek as (s3 & p & El & Ep). unfold os, zoom in El. destruct (lookup mech k _) as [w2 o] eqn:Ew2. injection El as _ ->.
    exists lookup, (get_world s1), w2, p. split_and!; [done..|]. by case_decide. }
  destruct (untrustedSignature_Unmarshal content) as [u|] eqn:Eu; [|done].
  apply run_bind_ret in E as (s3 & [] & Ed & E). apply run_bind_ret in E as (s4 & [] & Er & [= <- <- _]).
  exists content, u. split_and!; [done..|]. apply (validated _ _ _ s2). unfold mbind, M_bind. simpl in Ed, Er. by rewrite Ed.
Qed.

Lemma run_finally_ret {S A} (m : M S A) cl (s s' : S) a :
  finally m cl s = (s', Ret a) → ∃ s1 : S, m s = (s1, Ret a) ∧ s' = fst (cl s1).
Proof.
  unfold finally. destruct (m s) as [s1 [b|e|c]]; [|by destruct (cl s1) as [? [| |]]|done].
  destruct (cl s1) as [s2 [x|e|c]] eqn:Ec; intros [= <- <-]; exists s1; by rewrite Ec.
Qed.
Lemma run_fmap_ret {S A B} (f : A → B) (m : M S A) (s s' : S) b : (f <$> m) s = (s', Ret b) → ∃ a, m s = (s', Ret a) ∧ b = f a.
Proof. unfold fmap, M_fmap. destruct (m s) as [s1 [a|e|c]]; [|done..]. intros [= <- <-]. by exists a. Qed.

(** A simple signature that satisfies a requirement: made by one of the keys
    of the configuration, with acceptable contents. *)
Definition signedBy_evidence (pr : prSignedBy) (i : UnparsedImage) (sig : string) (v : VerifiedSignature) : Prop :=
  KeyType pr = SBKeyTypeGPGKeys ∧
  ∃ keys s0 s1 mech identities w w' content u,
    loadBytesFromConfigSources (mkSources notOneSourceErrorText (KeyPath pr) (KeyPaths pr) (KeyData pr) None) s0 = (s1, Ret (Some keys)) ∧
    newEphemeralGPGSigningMechanism keys w = (w', Ret (mech, identities)) ∧
    made_by mech identities sig content ∧ untrustedSignature_Unmarshal content = inl u ∧
    v = mkVerified (untrustedDockerManifestDigest u) (untrustedDockerReference u) ∧
    signed_contents (SignedIdentity pr) i (untrustedDockerManifestDigest u) (untrustedDockerReference u).

Lemma signedBy_ret pr sig s s' v : signedBy_verify pr sig s = (s', Ret v) → signedBy_evidence pr (image s') sig v.
Proof.
  unfold signedBy_verify. destruct (KeyType pr) eqn:Ek; try done. intros (s1 & d & El & E)%run_bind_ret. destruct d as [keys|]; [|done].
  apply run_bind_ret in E as (s2 & [mech ids] & Em & E). apply run_finally_ret in E as (s3 & E & ->). case_decide; [done|].
  apply run_fmap_ret in E as ([v' key] & E & ->). apply verifyAndExtract_ret in E as (content & u & Hmade & Hu & -> & Hs).
  unfold os, zoom in Em. destruct (newEphemeralGPGSigningMechanism keys _) as [w' o] eqn:Ew. injection Em as _ ->.
  split; [done|]. exists keys, s, s1, mech, ids, (get_world s1), w', content, u. split_and!; [done..|].
  eapply signed_contents_stable; [|exact Hs]. apply (evolves_os (Close mech)).
Qed.

(** A sigstore signature: the payload is signed by a key that the policy
    trusts for it. *)
Definition sigstore_evidence (pr : prSigstoreSigned) (i : UnparsedImage) (g : Sigstore) : Prop :=
  ∃ s0 s1 root b64 sig keys k u,
    prepareTrustRoot pr s0 = (s1, Ret root) ∧
    untrustedAnnotations g !! SigstoreSignatureAnnotationKey = Some b64 ∧ base64_DecodeString b64 = Some sig ∧
    accepted_keys root g b64 = inl keys ∧ k ∈ keys ∧ VerifySignature k sig (untrustedPayload g) = None ∧
    sigstore_payload_Unmarshal (untrustedPayload g) = inl u ∧
    signed_contents (s_SignedIdentity pr) i (untrustedDockerManifestDigest u) (untrustedDockerReference u).

Lemma verifyBlob_None keys payload sig :
  verifySigstorePayloadBlobSignature keys payload sig = None → ∃ k, k ∈ keys ∧ VerifySignature k sig payload = None.
Proof.
  unfold verifySigstorePayloadBlobSignature. case_decide; [done|]. destruct (list_find _ keys) as [[n k]|] eqn:Ef.
  - apply list_find_Some in Ef as (_ & [e He] & _). by rewrite He.
  - destruct (existsb _ keys) eqn:Ex; [|done]. intros _. apply existsb_exists in Ex as (k & Hk & Hv). exists k.
    split; [by apply list_elem_of_In|]. by apply bool_decide_eq_true in Hv.
Qed.

Lemma return_ret {A} (r : A + error) s s' a : return_ r s = (s', Ret a) → r = inl a ∧ s' = s.
Proof. destruct r as [b|e]; [|done]. by intros [= <- <-]. Qed.

Lemma sigstoreSigned_ret pr g s s' u : sigstoreSigned_verify pr g s = (s', Ret u) → sigstore_evidence pr (image s') g.
Proof.
  unfold sigstoreSigned_verify. intros (s1 & root & Er & E)%run_bind_ret.
  apply run_bind_ret in E as (s2 & b64 & [Eb ->]%return_ret & E). apply run_bind_ret in E as (s3 & keys & [Ek ->]%return_ret & E).
  unfold annotation in Eb. destruct (untrustedAnnotations g !! SigstoreSignatureAnnotationKey) as [b|] eqn:Ea; [|done]. injection Eb as ->.
  unfold VerifySigstorePayload in E. destruct (base64_DecodeString b64) as [sig|] eqn:Ed; [|done].
  destruct (verifySigstorePayloadBlobSignature _ _ _) eqn:Ev; [done|]. apply verifyBlob_None in Ev as (k & Hk & Hv).
  destruct (sigstore_payload_Unmarshal _) as [u'|] eqn:Eu; [|done].
  apply run_bind_ret in E as (s3 & [] & Edg & E). apply run_bind_ret in E as (s4 & [] & Erf & [= <- <-]).
  exists s, s1, root, b64, sig, keys, k, u'. split_and!; [done..|]. apply (validated _ _ _ s1). unfold mbind, M_bind. simpl in Edg, Erf. by rewrite Edg.
Qed.

(** ** Requirements *)

(** What it means for an image to satisfy a requirement. *)
Definition satisfied (i : UnparsedImage) (req : PolicyRequirement) : Prop :=
  match req with
  | PRInsecureAcceptAnything => True
  | PRReject | PRSignedBaseLayer _ => False
  | PRSignedBy pr => ∃ l sig v, cachedSignatures i = Some l ∧ SSimple sig ∈ l ∧ signedBy_evidence pr i sig v
  | PRSigstoreSigned pr =>
      ∃ l g, cachedSignatures i = Some l ∧ SSigstore g ∈ l ∧ untrustedMIMEType g = SigstoreSignatureMIMEType ∧ sigstore_evidence pr i g
  end.

Lemma satisfied_stable s s' req : evolves s s' → satisfied (image s) req → satisfied (image s') req.
Proof.
  intros Hev. destruct req as [| |pr| |pr]; simpl; try done.
  - intros (l & sig & v & Hl & Hin & Hk & keys & s0 & s1 & mech & ids & w & w' & content & u & H1' & H2' & H3' & H4' & H5' & Hs).
    exists l, sig, v. split_and!; [by apply Hev|done|]. split; [done|]. exists keys, s0, s1, mech, ids, w, w', content, u. split_and!; [done..|].
    by eapply signed_contents_stable.
  - intros (l & g & Hl & Hin & Hm & s0 & s1 & root & b64 & sig & keys & k & u & H1' & H2' & H3' & H4' & H5' & H6' & H7' & Hs).
    exists l, g. split_and!; [by apply Hev|done|done|]. exists s0, s1, root, b64, sig, keys, k, u. split_and!; [done..|].
    by eapply signed_contents_stable.
Qed.

Lemma first_accepted_true {X A} (verify : X → ME A) none rej l s s' e :
  (∀ x, moves evolves (verify x)) → first_accepted verify none rej l s = (s', Ret (true, e)) →
  ∃ x s1 a, x ∈ l ∧ evolves s s1 ∧ verify x s1 = (s', Ret a).
Proof.
  intros Hv. revert rej s. induction l as [|x l IH]; intros rej s; simpl; [done|]. rewrite run_try. destruct (verify x s) as [s2 [a|err|c]] eqn:Ex; [|intros E|done].
  - intros [= <- _]. exists x, s, a. split_and!; [by left|reflexivity|done].
  - apply IH in E as (y & s3 & a & Hy & Hev & Ey). exists y, s3, a. split_and!; [by right| |done].
    etrans; [|exact Hev]. by eapply moved.
Qed.

Lemma UntrustedSignatures_ret s s' l : UntrustedSignatures s = (s', Ret l) → cachedSignatures (image s') = l.
Proof.
  unfold UntrustedSignatures. intros (s1 & i & [= <- <-] & E)%run_bind_ret. destruct (cachedSignatures (image s)) as [x|] eqn:Ex.
  - by injection E as <- <-.
  - apply run_bind_ret in E as (s1 & l' & _ & E). apply run_bind_ret in E as (s2 & [] & [= <-] & [= <- <-]). done.
Qed.

Lemma isRunningImageAllowed_true req s s' e : isRunningImageAllowed req s = (s', Ret (true, e)) → satisfied (image s') req.
Proof.
  destruct req as [| |pr| |pr]; simpl; try done.
  - rewrite run_try. destruct (Signatures_ s) as [s2 [sigs|err|c]] eqn:Es; [|done..]. intros E.
    apply run_bind_ret in Es as (s1 & l & El & [= -> <-]). apply UntrustedSignatures_ret in El.
    apply first_accepted_true in E as (sig & s3 & v & Hin & Hev & Ev); [|by intros; apply evolves_signedBy].
    apply list_elem_of_omap in Hin as (x & Hx & Hsig). destruct x as [b|]; [|done]. injection Hsig as ->. destruct l as [l|]; [|by apply elem_of_nil in Hx].
    exists l, sig, v. split_and!; [|done|by eapply signedBy_ret]. apply (moved _ _ _ _ Ev); [apply evolves_signedBy|]. by apply Hev.
  - rewrite run_try. destruct (UntrustedSignatures s) as [s2 [l|err|c]] eqn:Es; [|done..]. intros E.
    apply UntrustedSignatures_ret in Es.
    apply first_accepted_true in E as (g & s3 & u & Hin & Hev & Eu); [|by intros; apply evolves_sigstoreSigned].
    apply list_elem_of_omap in Hin as (x & Hx & Hg). destruct x as [|g']; [done|]. case_decide as Hm; [|done]. injection Hg as ->.
    destruct l as [l|]; [|by apply elem_of_nil in Hx].
    exists l, g. split_and!; [|done|done|by eapply sigstoreSigned_ret]. apply (moved _ _ _ _ Eu); [apply evolves_sigstoreSigned|]. by apply Hev.
Qed.

Lemma all_allowed_true reqs b s s' e v :
  all_allowed reqs b s = (s', Ret (true, e, v)) →
  Forall (satisfied (image s')) reqs ∧ (v = true → b = true ∨ Exists (λ r, verifiesSignatures r = true) reqs).
Proof.
  revert b s. induction reqs as [|r reqs IH]; intros b s; simpl; [by intros [= _ _ <-]; split; [constructor|left]|].
  intros (s1 & [allowed err] & Er & E)%run_bind_ret. destruct allowed; [|done]. simpl in E. apply IH in E as E'. destruct E' as [Hall Hv].
  split.
  - constructor; [|done]. eapply satisfied_stable; [|by eapply isRunningImageAllowed_true]. eapply moved; [exact E|apply evolves_all_allowed].
  - intros Hvt. destruct (Hv Hvt) as [[?|?]%orb_true_iff|?]; [by left|right; by left|right; by right].
Qed.

(** ** Policy contexts *)

Lemma in_use_run {A} (none : A) (body : ME (A * option error)) s :
  moves evolves body →
  in_use none body s =
  if decide (state (pc s) = pcReady) then
    match body (set_pc (set_state pcInUse (pc s)) s) with
    | (s1, Ret r) => (set_pc (pc s) s1, Ret r)
    | (s1, Err e) => (set_pc (pc s) s1, Ret (none, Some e))
    | (s1, Crash c) => (s1, Crash c)
    end
  else (s, Ret (none, Some (ErrOther "Invalid PolicyContext state"))).
Proof.
  intros Hb. unfold in_use. rewrite run_try. unfold changeState at 1, mbind at 1, M_bind at 1, gets at 1.
  destruct (decide (state (pc s) = pcReady)) as [Hr|Hr]; [|done]. unfold modify at 1. rewrite run_try.
  specialize (Hb (set_pc (set_state pcInUse (pc s)) s)). destruct (body _) as [s1 o]. simpl in Hb.
  assert (∀ r : (A * option error) + error, (r0 ← try (changeState pcInUse pcReady);
    match r0, r with inl _, inl res => mret res | inl _, inr e | inr e, _ => mret (none, Some e) end) s1 =
    (set_pc (pc s) s1, Ret (match r with inl res => res | inr e => (none, Some e) end))) as Hend.
  { intros r. rewrite run_try. unfold changeState, mbind, M_bind, gets. rewrite (ev_pc _ _ Hb). simpl.
    unfold modify. rewrite <- Hr. destruct (pc s). simpl. unfold set_state. simpl. by destruct r. }
  destruct o as [r|e|c]; [apply (Hend (inl r))|apply (Hend (inr e))|done].
Qed.

Definition allowed_body : ME (bool * option error) :=
  s ← gets id;
  let reqs := requirementsForImageRef (pc_Policy (pc s)) (Reference_ (image s)) in
  if decide (reqs = []) then mret (false, Some (ErrPolicyRequirement "List of verification policy requirements must not be empty"))
  else
    '(allowed, err, wasSignatureVerified) ← all_allowed reqs false;
    if negb allowed then mret (false, err)
    else if requireSigned (pc s) && negb wasSignatureVerified then
      mret (false, Some (ErrPolicyRequirement "No signature verification policy found for image"))
    else mret (true, None).
Lemma IsRunningImageAllowed_eq : IsRunningImageAllowed = in_use false allowed_body.
Proof. done. Qed.
Lemma evolves_allowed_body : moves evolves allowed_body.
Proof. unfold allowed_body. moves_steps. Qed.

(** The requirements of the policy that apply to the image. *)
Definition applicable (s : State Src) : list PolicyRequirement := requirementsForImageRef (pc_Policy (pc s)) (Reference_ (image s)).

Lemma IsRunningImageAllowed_true s s' e :
  IsRunningImageAllowed s = (s', Ret (true, e)) →
  state (pc s) = pcReady ∧ e = None ∧ applicable s ≠ [] ∧ Forall (satisfied (image s')) (applicable s) ∧
  (requireSigned (pc s) = true → Exists (λ r, verifiesSignatures r = true) (applicable s)) ∧
  Reference_ (image s') = Reference_ (image s) ∧ instanceDigest (image s') = instanceDigest (image s) ∧
  (manifest_ok (image s) → manifest_ok (image s')).
Proof.
  rewrite IsRunningImageAllowed_eq, in_use_run by apply evolves_allowed_body. case_decide as Hr; [|done].
  destruct (allowed_body _) as [s1 [[a e1]|e1|c]] eqn:Eb; [|done..]. intros [= <- -> ->].
  apply moved in Eb as Hev; [|apply evolves_allowed_body]. destruct Hev as [_ Eref Einst _ _ Eok].
  unfold allowed_body in Eb. apply run_bind_ret in Eb as (s0 & x & [= <- <-] & Eb). simpl in Eb. fold (applicable s) in Eb.
  case_decide as Hne; [done|]. apply run_bind_ret in Eb as (s2 & [[allowed err] v] & Ea & Eb). destruct allowed; [|done]. simpl in Eb.
  apply all_allowed_true in Ea as [Hall Hv]. destruct (requireSigned (pc s) && negb v) eqn:Ev; [done|]. injection Eb as <- <-.
  split_and!; try done. intros Hreq. rewrite Hreq in Ev. destruct v; [|done]. destruct (Hv eq_refl) as [?|?]; done.
Qed.

(** C4: If a policy allows an image to run, there is a requirement for it and
    every requirement that applies is satisfied: a required signature was made
    by a key of the configuration, its digest is that of the manifest that the
    image keeps, and its identity matches the image; if signatures are
    mandatory, one of the requirements verifies them. *)
Theorem IsRunningImageAllowed_sound s s' e :
  IsRunningImageAllowed s = (s', Ret (true, e)) →
  state (pc s) = pcReady ∧ applicable s ≠ [] ∧ Forall (satisfied (image s')) (applicable s) ∧
  (requireSigned (pc s) = true → Exists (λ r, verifiesSignatures r = true) (applicable s)).
Proof. intros (? & _ & ? & ? & ? & _)%IsRunningImageAllowed_true. done. Qed.

(** If a policy with a requirement for a signature allows an image that was
    asked for by digest, the accepted signature is for this digest. *)
Theorem IsRunningImageAllowed_digest s s' e pr d :
  manifest_ok (image s) → IsRunningImageAllowed s = (s', Ret (true, e)) → PRSignedBy pr ∈ applicable s →
  expectedManifestDigest (image s) = Some d →
  ∃ l sig v, cachedSignatures (image s') = Some l ∧ SSimple sig ∈ l ∧ signedBy_evidence pr (image s') sig v ∧ DockerManifestDigest v = d.
Proof.
  intros Hok E Hin Hd. apply IsRunningImageAllowed_true in E as (_ & _ & _ & Hall & _ & Eref & Einst & Hok'). specialize (Hok' Hok).
  rewrite Forall_forall in Hall. destruct (Hall _ Hin) as (l & sig & v & Hl & Hs & Hev). exists l, sig, v. split_and!; [done..|].
  destruct Hev as (_ & keys & s0 & s1 & mech & ids & w & w' & content & u & _ & _ & _ & _ & -> & _ & m & Hm & Hc). simpl.
  rewrite <- (expected_reference (image s) (image s')) in Hd by done.
  destruct Hc as [Hc|[-> Hc]]; [rewrite (Hok' m d Hc Hd) in Hm|rewrite (Hc d Hd) in Hm]; by injection Hm.
Qed.

(** *** The life of a context *)

Inductive call := CIsRunningImageAllowed | CGetSignaturesWithAcceptedAuthor | CDestroy | CRequireSignatureVerification (val : bool).
#[global] Instance call_eq_dec : EqDecision call.
Proof. solve_decision. Defined.

Definition run_call (c : call) : ME unit :=
  match c with
  | CIsRunningImageAllowed => _ ← IsRunningImageAllowed; mret tt
  | CGetSignaturesWithAcceptedAuthor => _ ← GetSignaturesWithAcceptedAuthor; mret tt
  | CDestroy => Destroy
  | CRequireSignatureVerification val => RequireSignatureVerification val
  end.

(** Calls that all return, whatever they return. *)
Inductive called : list call → State Src → State Src → Prop :=
  | called_none s : called [] s s
  | called_more c cs s s1 s2 o : run_call c s = (s1, o) → ¬ is_crash o → called cs s1 s2 → called (c :: cs) s s2.

Lemma in_use_state {A} (none : A) body s s' o :
  moves evolves body → in_use none body s = (s', o) → ¬ is_crash o → state (pc s') = state (pc s).
Proof.
  intros Hb E Ho. rewrite in_use_run in E by done. case_decide; [|by injection E as <- _].
  destruct (body _) as [s1 [r|e|c]]; injection E as <- <-; [done..|]. destruct Ho. by exists c.
Qed.

Definition signatures_body : ME (list VerifiedSignature * option error) :=
  s ← gets id;
  let reqs := requirementsForImageRef (pc_Policy (pc s)) (Reference_ (image s)) in
  r ← try Signatures_;
  match r with
  | inr e => mret ([], Some e)
  | inl unverifiedSignatures => res ← accepted_signatures reqs unverifiedSignatures; mret (res, None)
  end.
Lemma GetSignatures_eq : GetSignaturesWithAcceptedAuthor = in_use [] signatures_body.
Proof. done. Qed.
Lemma evolves_signatures_body : moves evolves signatures_body.
Proof. unfold signatures_body. moves_steps. apply evolves_accepted_signatures. Qed.

Lemma bind_unit_run {A} (m : ME A) s s' o : (_ ← m; mret tt) s = (s', o) → ¬ is_crash o → ∃ o', m s = (s', o') ∧ ¬ is_crash o'.
Proof.
  unfold mbind, M_bind. destruct (m s) as [s1 [a|e|c]]; intros [= <- <-] Ho; eexists; (split; [done|]).
  - by intros [? ?].
  - by intros [? ?].
  - destruct Ho. by exists c.
Qed.

Lemma run_call_state c s s' o :
  run_call c s = (s', o) → ¬ is_crash o →
  state (pc s') = if decide (c = CDestroy ∧ state (pc s) = pcReady) then pcDestroyed else state (pc s).
Proof.
  destruct c as [| | |val]; cbn [run_call]; intros E Ho.
  - rewrite decide_False by (by intros [? _]). apply bind_unit_run in E as (o' & E & Ho'); [|done].
    rewrite IsRunningImageAllowed_eq in E. by apply in_use_state in E; [|apply evolves_allowed_body|].
  - rewrite decide_False by (by intros [? _]). apply bind_unit_run in E as (o' & E & Ho'); [|done].
    rewrite GetSignatures_eq in E. by apply in_use_state in E; [|apply evolves_signatures_body|].
  - unfold Destroy, changeState, mbind, M_bind, gets in E. destruct (decide (state (pc s) = pcReady)) as [Hr|Hr].
    + rewrite decide_True by done. unfold modify in E. simpl in E. by injection E as <- _.
    + rewrite decide_False by (by intros [_ ?]). by injection E as <- _.
  - rewrite decide_False by (by intros [? _]). by injection E as <- _.
Qed.

(** C19: Whatever is called on a policy context, it is ready until it is
    destroyed; afterwards the calls that report errors,
    [IsRunningImageAllowed], [GetSignaturesWithAcceptedAuthor] and [Destroy],
    fail and change nothing.  (The setter [RequireSignatureVerification] has no
    error to return and still sets its field.) *)
Theorem PolicyContext_life calls s s' :
  state (pc s) = pcReady → called calls s s' →
  state (pc s') = (if decide (CDestroy ∈ calls) then pcDestroyed else pcReady) ∧
  (CDestroy ∈ calls → ∃ err,
    IsRunningImageAllowed s' = (s', Ret (false, Some err)) ∧ GetSignaturesWithAcceptedAuthor s' = (s', Ret ([], Some err)) ∧
    Destroy s' = (s', Err err)).
Proof.
  intros Hs Hc. assert (state (pc s') = if decide (CDestroy ∈ calls) then pcDestroyed else pcReady) as Hs'.
  { assert (∀ x, x = pcReady ∨ x = pcDestroyed → state (pc s) = x →
      state (pc s') = if decide (CDestroy ∈ calls) then pcDestroyed else x) as Hgen; [|by apply Hgen; [left|]].
    clear Hs. intros x Hx. revert x Hx. induction Hc as [s|c cs s s1 s2 o E Ho _ IH]; intros x Hx Hs.
    - by rewrite decide_False by apply not_elem_of_nil.
    - apply run_call_state in E; [|done]. destruct (decide (c = CDestroy)) as [->|Hne].
      + rewrite (decide_True (P := CDestroy ∈ CDestroy :: cs)) by left.
        assert (state (pc s1) = pcDestroyed) as H1' by (rewrite E, Hs; by destruct Hx as [-> | ->]).
        rewrite (IH pcDestroyed) by auto. by case_decide.
      + rewrite decide_False in E by (by intros [? _]). rewrite (IH x) by (congruence || done).
        destruct (decide (CDestroy ∈ cs)) as [Hin|Hn]; [by rewrite decide_True by (by right)|].
        rewrite decide_False; [done|]. by intros [?|?]%elem_of_cons. }
  split; [done|]. intros Hin. rewrite decide_True in Hs' by done. exists (ErrOther "Invalid PolicyContext state").
  assert (state (pc s') ≠ pcReady) as Hne by (by rewrite Hs'). split_and!.
  - rewrite IsRunningImageAllowed_eq, in_use_run by apply evolves_allowed_body. by rewrite decide_False.
  - rewrite GetSignatures_eq, in_use_run by apply evolves_signatures_body. by rewrite decide_False.
  - unfold Destroy, changeState, mbind, M_bind, gets. by rewrite decide_False.
Qed.

(** *** Signatures with accepted authors *)

(** The requirement does not object to the signature. *)
Definition approves (i : UnparsedImage) (sig : string) (v : VerifiedSignature) (req : PolicyRequirement) : Prop :=
  match req with
  | PRInsecureAcceptAnything | PRSignedBaseLayer _ => True
  | PRReject | PRSigstoreSigned _ => False
  | PRSignedBy pr => signedBy_evidence pr i sig v
  end.

Lemma evidence_stable pr s s' sig v : evolves s s' → signedBy_evidence pr (image s) sig v → signedBy_evidence pr (image s') sig v.
Proof.
  intros Hev (Hk & keys & s0 & s1 & mech & ids & w & w' & content & u & H1' & H2' & H3' & H4' & H5' & Hs).
  split; [done|]. exists keys, s0, s1, mech, ids, w, w', content, u. split_and!; [done..|]. by eapply signed_contents_stable.
Qed.

Lemma interpret_some reqs sig a s s' v :
  interpret reqs sig a s = (s', Ret (Some v)) →
  Forall (approves (image s') sig v) reqs ∧ (a = Some v ∨ a = None ∧ ∃ pr, PRSignedBy pr ∈ reqs).
Proof.
  revert a s. induction reqs as [|r reqs IH]; intros a s; simpl; [by intros [= _ <-]; split; [constructor|left]|].
  intros (s1 & [[res x] err] & Er & E)%run_bind_ret.
  assert (∀ a', interpret reqs sig a' s1 = (s', Ret (Some v)) → evolves s1 s') as Hev by (intros a' E'; by eapply moved; [|apply evolves_interpret]).
  destruct r as [| |pr| |pr]; simpl in Er; try (injection Er as <- <- <- <-); try done.
  - apply IH in E as [Hall [->|[-> [pr Hin]]]]; (split; [by constructor|]); [by left|right]. split; [done|]. exists pr. by right.
  - unfold accepted in Er. rewrite run_try in Er. destruct (signedBy_verify pr sig s) as [s2 [v'|e|c]] eqn:Ev; [|by injection Er as <- <- <- <-|done].
    injection Er as <- <- <- <-. apply signedBy_ret in Ev.
    assert (a = None ∨ a = Some v') as Ha by (destruct a as [p|]; [case_decide; subst; [by right|done]|by left]).
    assert (interpret reqs sig (Some v') s2 = (s', Ret (Some v))) as E'.
    { destruct a as [p|]; [|done]. case_decide; [by subst|done]. }
    apply IH in E' as Hi. destruct Hi as [Hall [[= ->]|[? _]]]; [|done]. split.
    + constructor; [|done]. eapply evidence_stable; [by eapply Hev|done].
    + destruct Ha as [->| ->]; [right|by left]. split; [done|]. exists pr. by left.
  - apply IH in E as [Hall [->|[-> [pr Hin]]]]; (split; [by constructor|]); [by left|right]. split; [done|]. exists pr. by right.
Qed.

Lemma approves_stable s s' sig v req : evolves s s' → approves (image s) sig v req → approves (image s') sig v req.
Proof. intros Hev. destruct req; simpl; try done. by apply evidence_stable. Qed.

Lemma accepted_signatures_sound reqs sigs s s' res v :
  accepted_signatures reqs sigs s = (s', Ret res) → v ∈ res →
  ∃ sig, sig ∈ sigs ∧ Forall (approves (image s') sig v) reqs ∧ ∃ pr, PRSignedBy pr ∈ reqs.
Proof.
  revert s res. induction sigs as [|sig sigs IH]; intros s res; simpl; [by intros [= _ <-] ?%elem_of_nil|].
  intros (s1 & a & Ea & E)%run_bind_ret Hv. apply run_bind_ret in E as (s2 & res' & Er & [= <- <-]).
  assert (a = Some v ∨ v ∈ res') as [->|Hin].
  { destruct a as [v'|]; [|by right]. apply elem_of_cons in Hv as [->|?]; [by left|by right]. }
  - apply interpret_some in Ea as [Hall [?|[_ [pr Hpr]]]]; [done|]. exists sig. split_and!; [by left| |by exists pr].
    eapply Forall_impl; [exact Hall|]. intros r. apply approves_stable. eapply moved; [exact Er|apply evolves_accepted_signatures].
  - destruct (IH _ _ Er Hin) as (sig' & ? & ? & ?). exists sig'. split_and!; [by right|done..].
Qed.

(** Every signature that is returned as accepted was found on the image,
    some requirement asks for it, and all of them that judge signatures accept
    it with the same contents. *)
Theorem GetSignaturesWithAcceptedAuthor_sound s s' res v :
  GetSignaturesWithAcceptedAuthor s = (s', Ret (res, None)) → v ∈ res →
  ∃ l sig, cachedSignatures (image s') = Some l ∧ SSimple sig ∈ l ∧
    (∃ pr, PRSignedBy pr ∈ applicable s) ∧ Forall (approves (image s') sig v) (applicable s).
Proof.
  rewrite GetSignatures_eq, in_use_run by apply evolves_signatures_body. case_decide; [|done].
  destruct (signatures_body _) as [s1 [r|e|c]] eqn:E; [|done..]. intros [= <- ->] Hv. unfold signatures_body in E.
  apply run_bind_ret in E as (s0 & x & [= <- <-] & E). simpl in E. fold (applicable s) in E. rewrite run_try in E.
  destruct (Signatures_ _) as [s2 [sigs|e|c]] eqn:Es; [|done..]. apply run_bind_ret in E as (s3 & res' & Er & [= <- <-]).
  destruct (accepted_signatures_sound _ _ _ _ _ _ Er Hv) as (sig & Hin & Hall & Hpr).
  apply run_bind_ret in Es as (s4 & l & El & [= -> <-]). apply UntrustedSignatures_ret in El.
  apply list_elem_of_omap in Hin as (y & Hy & Hsig). destruct y as [b|]; [|done]. injection Hsig as ->.
  destruct l as [l|]; [|by apply elem_of_nil in Hy]. exists l, sig. split_and!; try done.
  simpl. eapply ev_signatures; [|exact El]. eapply moved; [exact Er|apply evolves_accepted_signatures].
Qed.

End Facts.

Section Identities.
Context `{Digests} `{Unicode}.

(** ** Scopes *)

Lemma first_scope_app scopes l l' :
  first_scope scopes (l ++ l')%list = match first_scope scopes l with Some r => Some r | None => first_scope scopes l' end.
Proof. induction l as [|n l IH]; simpl; [done|]. by destruct (scopes !! n). Qed.

Lemma first_scope_sorted (scopes : gmap string (list PolicyRequirement)) l name reqs :
  StronglySorted longer l → name ∈ l → scopes !! name = Some reqs → (∀ q, q ∈ l → longer q name → scopes !! q = None) →
  first_scope scopes l = Some reqs.
Proof.
  induction 1 as [|n l Hs IH Hall]; intros Hin Hn Hq; [by apply elem_of_nil in Hin|]. simpl.
  destruct (decide (name = n)) as [->|Hne]; [by rewrite Hn|]. apply elem_of_cons in Hin as [|Hin]; [done|].
  rewrite (Hq n); [|by left|by rewrite Forall_forall in Hall; apply Hall]. apply IH; [done|done|]. intros q Hql. apply Hq. by right.
Qed.

Lemma first_scope_none (scopes : gmap string (list PolicyRequirement)) l : (∀ q, q ∈ l → scopes !! q = None) → first_scope scopes l = None.
Proof.
  induction l as [|n l IH]; intros Hq; simpl; [done|]. rewrite Hq by left. apply IH. intros q Hin. apply Hq. by right.
Qed.

(** Without an entry for the identity, the namespaces decide; the name itself
    may have been dropped from them, but then it is the identity. *)
Lemma docker_scopes (scopes : gmap string (list PolicyRequirement)) r :
  scopes !! PolicyConfigurationIdentity (docker_ImageReference r) = None →
  first_scope scopes (PolicyConfigurationNamespaces (docker_ImageReference r)) = first_scope scopes (DockerReferenceNamespaces (DockerTransport.ref r)).
Proof.
  simpl. unfold DockerTransport.PolicyConfigurationNamespaces, DockerTransport.PolicyConfigurationIdentity.
  destruct (DockerTransport.isUnknownDigest r); [|done]. simpl. intros Hn.
  destruct (DockerReferenceNamespaces _) as [|n l]; [done|]. case_decide; [subst|done]. simpl. by rewrite Hn.
Qed.

(** A scope for all hosts of a domain that the host of a name is in. *)
Definition domain_scope (w name : string) : Prop := ∃ pre rest, host_of name = pre +:+ "." +:+ rest ∧ w = "*." +:+ rest.

(** C22: For an image in a registry, a policy that has scopes for registries but
    none for exactly this image applies the requirements of the longest
    scope that contains the name of the image.  If no scope contains it, those
    of the longest wildcard [*.domain] for a domain that the host of the
    registry is in; if there is none either, those for the whole transport,
    and without these the defaults. *)
Theorem requirementsForImageRef_specific p scopes r :
  Transports p !! "docker" = Some scopes → scopes !! PolicyConfigurationIdentity (docker_ImageReference r) = None →
  let name := Name (DockerTransport.ref r) in
  (∀ q reqs, contains_name q name → scopes !! q = Some reqs →
     (∀ q', contains_name q' name → longer q' q → scopes !! q' = None) →
     requirementsForImageRef p (docker_ImageReference r) = reqs) ∧
  ((∀ q, contains_name q name → scopes !! q = None) →
     (∀ w reqs, domain_scope w name → scopes !! w = Some reqs →
        (∀ w', domain_scope w' name → longer w' w → scopes !! w' = None) →
        requirementsForImageRef p (docker_ImageReference r) = reqs) ∧
     ((∀ w, domain_scope w name → scopes !! w = None) →
        requirementsForImageRef p (docker_ImageReference r) = default (Default p) (scopes !! ""))).
Proof.
  intros Ht Hid name. unfold requirementsForImageRef. simpl TransportName. rewrite Ht, Hid, docker_scopes, namespaces_groups by done. fold name.
  destruct (parents_of_spec (Datatypes.S (String.length name)) name) as (Hs & Hl & _); [lia|].
  destruct (wildcards_spec _ (host_of name) (le_n _)) as [Hws Hw]. rewrite first_scope_app. split.
  - intros q reqs Hc Hq Hlong. rewrite (first_scope_sorted scopes _ q reqs); [done|done|by apply Hl|done|].
    intros q' Hin. apply Hlong. by apply Hl.
  - intros Hq. rewrite (first_scope_none scopes (parents_of _ _).1) by (intros q Hin; by apply Hq, Hl). split.
    + intros w reqs Hd Hr Hlong. rewrite (first_scope_sorted scopes _ w reqs); [done|done|by apply Hw|done|].
      intros w' Hin. apply Hlong. by apply Hw.
    + intros Hd. rewrite (first_scope_none scopes (wildcards _ _)) by (intros w Hin; by apply Hd, Hw). by destruct (scopes !! "").
Qed.

(** ** Identities *)

Lemma normalized_inj s1 s2 n1 n2 :
  ParseNormalizedNamed s1 = inl n1 → ParseNormalizedNamed s2 = inl n2 → String_ n1 = String_ n2 → n1 = n2.
Proof. intros E1%ParseNormalizedNamed_fixed E2%ParseNormalizedNamed_fixed E. rewrite E, E2 in E1. by injection E1. Qed.

Lemma ParseNamed_inv s n : ParseNamed s = inl n → ParseNormalizedNamed s = inl n ∧ String_ n = s.
Proof. unfold ParseNamed. destruct (ParseNormalizedNamed s) as [m|]; [|done]. case_decide; [|done]. by intros [= ->]. Qed.

Lemma repo_or_exact intended signature s1 s2 :
  ParseNormalizedNamed s1 = inl intended → ParseNormalizedNamed s2 = inl signature →
  matchRepoDigestOrExactReferenceValues intended signature = true →
  Name signature = Name intended ∧ (is_Some (Tag intended) → signature = intended).
Proof.
  intros E1 E2. unfold matchRepoDigestOrExactReferenceValues. destruct (IsNameOnly signature); [done|].
  destruct (Tag intended) as [t|] eqn:Et; [|destruct (Digest intended); [|done]]; intros E%bool_decide_eq_true.
  - by rewrite (normalized_inj _ _ _ _ E2 E1 E).
  - split; [done|]. by intros [? ?].
Qed.

Lemma prefix_split p s : String.prefix p s = true → ∃ rest, s = p +:+ rest.
Proof.
  revert s. induction p as [|c p IH]; intros s Hp; [by exists s|]. destruct s as [|d s]; [done|]. simpl in Hp.
  destruct (ascii_dec c d) as [->|]; [|done]. destruct (IH s Hp) as [rest ->]. by exists rest.
Qed.

Lemma refMatchesPrefix_split Prefix n :
  refMatchesPrefix Prefix n = true → ∃ rest, Name n = Prefix +:+ rest ∧ (rest = "" ∨ ∃ r, rest = "/" +:+ r).
Proof.
  unfold refMatchesPrefix. destruct (Nat.compare_spec (String.length (Name n)) (String.length Prefix)) as [_|_|Hl]; [|done|].
  - intros ->%bool_decide_eq_true. exists "". rewrite string_app_nil_r. by split; [|left].
  - rewrite andb_true_iff, bool_decide_eq_true. intros [[rest E]%prefix_split Hg]. exists rest. split; [done|]. right. rewrite E in Hg.
    destruct rest as [|c rest]; [rewrite E, string_app_nil_r in Hl; lia|]. exists rest.
    assert (String.get (String.length Prefix) (Prefix +:+ String c rest) = Some c) as Hc by (clear; by induction Prefix).
    rewrite Hc in Hg. by injection Hg as ->.
Qed.

Lemma Replace1_prefix old new rest : Replace1 (old +:+ rest) old new = new +:+ rest.
Proof.
  assert (String.prefix old (old +:+ rest) = true) as Hp by (apply String.prefix_correct, substring_app).
  assert (Replace1 (old +:+ rest) old new =
    new +:+ String.substring (String.length old) (String.length (old +:+ rest) - String.length old) (old +:+ rest)) as ->.
  { destruct (old +:+ rest) eqn:E; cbn [Replace1]; by rewrite Hp. }
  rewrite string_length_app, substring_skip. replace (_ + _ - _)%nat with (String.length rest) by lia. by rewrite substring_all.
Qed.

(** The identity that a signature must have, for an intended reference. *)
Definition acceptable (prm : PolicyReferenceMatch) (intended signature : Named) : Prop :=
  match prm with
  | prmMatchExact => signature = intended
  | prmMatchRepoDigestOrExact => Name signature = Name intended ∧ (is_Some (Tag intended) → signature = intended)
  | prmMatchRepository => Name signature = Name intended
  | prmExactReference r => ParseNormalizedNamed r = inl signature
  | prmExactRepository r => ∃ n, ParseNormalizedNamed r = inl n ∧ Name signature = Name n
  | prmRemapIdentity Prefix SignedPrefix =>
      ∃ mapped, Name signature = Name mapped ∧ (is_Some (Tag mapped) → signature = mapped) ∧
        (mapped = intended ∨
         ∃ rest, Name intended = Prefix +:+ rest ∧ (rest = "" ∨ ∃ r, rest = "/" +:+ r) ∧
           String_ mapped = SignedPrefix +:+ rest +:+ suffix_of intended)
  end.

(** C39: For an image whose reference is a normalised name, a signature is only
    accepted if its identity is a normalised name that the rule allows for that
    reference: the same reference, the same repository (for an image that was
    asked for by tag, only the same reference, where the rule says so), a fixed
    one, or one in which the given prefix was replaced. *)
Theorem matchesDockerReference_sound prm i ref s0 intended :
  DockerReference (Reference_ i) = Some intended → ParseNormalizedNamed s0 = inl intended →
  matchesDockerReference prm i ref = true → ∃ signature, ParseNormalizedNamed ref = inl signature ∧ acceptable prm intended signature.
Proof.
  intros Hi Hn. unfold matchesDockerReference, parseImageAndDockerReference, parseDockerReferences. rewrite Hi.
  assert (∀ a b s1 s2, ParseNormalizedNamed s1 = inl a → ParseNormalizedNamed s2 = inl b → exact_match a b = true → b = a) as Hex.
  { intros a b s1 s2 Ea Eb. unfold exact_match. destruct (_ || _); [done|]. intros E%bool_decide_eq_true. by eapply normalized_inj. }
  destruct (ParseNormalizedNamed ref) as [signature|] eqn:Er; [|by destruct prm; repeat case_match].
  intros E. exists signature. split; [done|]. destruct prm as [| | |r|r|P SP]; simpl.
  - by eapply Hex.
  - by eapply repo_or_exact.
  - by apply bool_decide_eq_true in E.
  - destruct (ParseNormalizedNamed r) as [n|] eqn:En; [|done]. by rewrite (Hex _ _ _ _ En Er E).
  - destruct (ParseNormalizedNamed r) as [n|] eqn:En; [|done]. exists n. by apply bool_decide_eq_true in E.
  - destruct (remapReferencePrefix P SP intended) as [mapped|] eqn:Em; [|done]. exists mapped. unfold remapReferencePrefix in Em.
    destruct (refMatchesPrefix P intended) eqn:Ep; simpl in Em.
    + apply ParseNamed_inv in Em as [Em Et]. destruct (repo_or_exact _ _ _ _ Em Er E) as [? ?]. split_and!; [done..|]. right.
      apply refMatchesPrefix_split in Ep as (rest & EN & Hr). exists rest. split_and!; [done..|].
      rewrite Et, String_suffix, EN, string_app_assoc. apply Replace1_prefix.
    + injection Em as ->. destruct (repo_or_exact _ _ _ _ Hn Er E) as [? ?]. split_and!; [done..|]. by left.
Qed.
End Identities.

(** ** Witnesses *)

Definition demo_allowed (r : DockerTransport.dockerReference) : State unit := fst (IsRunningImageAllowed (demo_state r)).

Lemma demo_allowed_tag : IsRunningImageAllowed (demo_state by_tag) = (demo_allowed by_tag, Ret (true, None)).
Proof. vm_compute. reflexivity. Qed.
Lemma demo_allowed_digest : IsRunningImageAllowed (demo_state by_digest) = (demo_allowed by_digest, Ret (true, None)).
Proof. vm_compute. reflexivity. Qed.
Lemma demo_applicable r : Name (DockerTransport.ref r) = "docker.io/library/busybox" → r = by_tag ∨ r = by_digest → applicable (demo_state r) = [PRSignedBy demo_signedBy].
Proof. intros _ [-> | ->]; vm_compute; reflexivity. Qed.

Lemma IsRunningImageAllowed_sound_witness :
  IsRunningImageAllowed (demo_state by_tag) = (demo_allowed by_tag, Ret (true, None)) ∧
  Forall (satisfied (Src := unit) (image (demo_allowed by_tag))) (applicable (demo_state by_tag)).
Proof.
  split; [exact demo_allowed_tag|]. destruct (IsRunningImageAllowed_sound _ _ _ demo_allowed_tag) as (_ & _ & HF & _). exact HF.
Defined.

Lemma demo_fresh r : manifest_ok (image (demo_state r)).
Proof. by intros m d [=]. Qed.
Lemma demo_required : PRSignedBy demo_signedBy ∈ applicable (demo_state by_digest).
Proof. rewrite demo_applicable by (by right || done). by left. Qed.
Lemma IsRunningImageAllowed_digest_witness :
  ∃ l sig v, cachedSignatures (image (demo_allowed by_digest)) = Some l ∧ SSimple sig ∈ l ∧
    signedBy_evidence (Src := unit) demo_signedBy (image (demo_allowed by_digest)) sig v ∧ DockerManifestDigest v = "sha256:manifest".
Proof.
  pose proof (IsRunningImageAllowed_digest _ _ _ demo_signedBy "sha256:manifest" (demo_fresh by_digest) demo_allowed_digest demo_required eq_refl) as HW.
  exact HW.
Defined.

(** An image from elsewhere is rejected. *)
Definition demo_other : DockerTransport.dockerReference :=
  DockerTransport.mkDockerReference (NTagged (mkRepository "quay.io" "a/b") "latest") false.
Lemma demo_refused : IsRunningImageAllowed (demo_state demo_other) =
  (fst (IsRunningImageAllowed (demo_state demo_other)), Ret (false, Some (ErrPolicyRequirement "Running image is rejected by policy."))).
Proof. vm_compute. reflexivity. Qed.

Lemma demo_calls : called [CIsRunningImageAllowed; CDestroy] (demo_state by_tag) (fst (Destroy (demo_allowed by_tag))).
Proof.
  apply (called_more _ _ _ (demo_allowed by_tag) _ (Ret tt)); [vm_compute; reflexivity|by intros [? ?]|].
  apply (called_more _ _ _ (fst (Destroy (demo_allowed by_tag))) _ (Ret tt)); [vm_compute; reflexivity|by intros [? ?]|constructor].
Qed.
Lemma PolicyContext_life_witness : state (pc (fst (Destroy (demo_allowed by_tag)))) = pcDestroyed.
Proof. destruct (PolicyContext_life _ (demo_state by_tag) _ eq_refl demo_calls) as [HW _]. exact HW. Defined.

Lemma demo_signatures : GetSignaturesWithAcceptedAuthor (demo_state by_tag) =
  (fst (GetSignaturesWithAcceptedAuthor (demo_state by_tag)), Ret ([mkVerified "sha256:manifest" "docker.io/library/busybox:latest"], None)).
Proof. vm_compute. reflexivity. Qed.
Lemma GetSignaturesWithAcceptedAuthor_sound_witness :
  ∃ l sig, cachedSignatures (image (fst (GetSignaturesWithAcceptedAuthor (demo_state by_tag)))) = Some l ∧ SSimple sig ∈ l ∧
    (∃ pr, PRSignedBy pr ∈ applicable (demo_state by_tag)) ∧
    Forall (approves (Src := unit) (image (fst (GetSignaturesWithAcceptedAuthor (demo_state by_tag)))) sig (mkVerified "sha256:manifest" "docker.io/library/busybox:latest"))
      (applicable (demo_state by_tag)).
Proof.
  pose proof (GetSignaturesWithAcceptedAuthor_sound _ _ _ (mkVerified "sha256:manifest" "docker.io/library/busybox:latest") demo_signatures) as HW.
  apply HW. by left.
Defined.

Lemma demo_scope_longest q : contains_name q "docker.io/library/busybox" → longer q "docker.io/library" → demo_scopes !! q = None.
Proof.
  intros _ Hl. apply lookup_singleton_None. intros <-. unfold longer in Hl. lia.
Qed.
Lemma requirementsForImageRef_specific_witness : requirementsForImageRef demo_policy (docker_ImageReference by_tag) = [PRSignedBy demo_signedBy].
Proof.
  destruct (requirementsForImageRef_specific demo_policy demo_scopes by_tag eq_refl eq_refl) as [HW _].
  apply (HW "docker.io/library"); [right; by exists "busybox"|reflexivity|exact demo_scope_longest].
Defined.

Lemma demo_normal : ParseNormalizedNamed "busybox:latest" = inl (NTagged busybox "latest").
Proof. vm_compute. reflexivity. Qed.
Lemma demo_matches : matchesDockerReference (prmRemapIdentity "docker.io" "mirror.local/hub") (UnparsedInstance (docker_ImageReference by_tag) None)
  "mirror.local/hub/library/busybox:latest" = true.
Proof. vm_compute. reflexivity. Qed.
Lemma matchesDockerReference_sound_witness :
  ∃ signature, ParseNormalizedNamed "mirror.local/hub/library/busybox:latest" = inl signature ∧
    acceptable (prmRemapIdentity "docker.io" "mirror.local/hub") (NTagged busybox "latest") signature.
Proof. pose proof (matchesDockerReference_sound _ (UnparsedInstance (docker_ImageReference by_tag) None) _ _ _ eq_refl demo_normal demo_matches) as HW. exact HW. Defined.
End PolicyFacts.
