(* ===== verification/PolicyConfig.v ===== *)
(** * The configuration of signature policies

    [image/signature/policy_config.go] and [policy_config_sigstore.go]: the
    constructors that refuse inconsistent requirements, and the reading of a
    policy from JSON, which goes through them. *)

From S2P Require Import Prelude World StoreUtil Strconv StringId GoJson GoRegexp DockerReference Signatures Sigstore Policy ConfigFile.

Local Open Scope string_scope.

Module PolicyConfig.
Import Regexp GoJson DockerReference Signatures Sigstore Policy.

Definition InvalidPolicyFormatError (m : string) : error := ErrOther m.
Definition refuse {A} (m : string) : A + error := inr (InvalidPolicyFormatError m).

(** The transports that are compiled in, and what they think of a scope. *)
Class TransportRegistry := ValidatePolicyConfigurationScope : string → option (string → option error).

(** ** Constructors *)

(** How many sources are given. *)
Definition count (l : list bool) : nat := length (filter (λ b, b = true) l).
Definition given (s : string) : bool := negb (String.eqb s "").
Definition set_ {A} (o : option A) : bool := match o with Some _ => true | None => false end.

Definition keyType_IsValid (kt : sbKeyType) : bool := match kt with SBKeyTypeOther _ => false | _ => true end.
Definition sbKeyType_of (s : string) : sbKeyType :=
  if decide (s = "GPGKeys") then SBKeyTypeGPGKeys
  else if decide (s = "signedByGPGKeys") then SBKeyTypeSignedByGPGKeys
  else if decide (s = "X509Certificates") then SBKeyTypeX509Certificates
  else if decide (s = "signedByX509CAs") then SBKeyTypeSignedByX509CAs
  else SBKeyTypeOther s.

Definition newPRSignedBy (keyType : sbKeyType) (keyPath : string) (keyPaths : option (list string)) (keyData : option string)
    (signedIdentity : PolicyReferenceMatch) : prSignedBy + error :=
  if negb (keyType_IsValid keyType) then refuse "invalid keyType"
  else if decide (count [given keyPath; set_ keyPaths; set_ keyData] ≠ 1)%nat then
    refuse "exactly one of keyPath, keyPaths and keyData must be specified"
  else inl (mkSignedBy keyType keyPath keyPaths keyData signedIdentity).
Definition newPRSignedByKeyPath kt path id := newPRSignedBy kt path None None id.
Definition newPRSignedByKeyPaths kt paths id := newPRSignedBy kt "" paths None id.
Definition newPRSignedByKeyData kt data id := newPRSignedBy kt "" None data id.

(** *** Functional options *)

(** A setting that was made already cannot be made again. *)
Definition with_string {R} (get : R → string) (set : string → R → R) (name : string) (v : string) : R → R + error := λ r,
  if given (get r) then refuse (name +:+ " already specified") else inl (set v r).
Definition with_slice {R A} (get : R → option A) (set : option A → R → R) (name : string) (v : option A) : R → R + error := λ r,
  if set_ (get r) then refuse (name +:+ " already specified") else inl (set v r).
(** The same for a list that must have an entry. *)
Definition with_list {R A} (get : R → option (list A)) (set : option (list A) → R → R) (name : string) (v : option (list A)) : R → R + error := λ r,
  if set_ (get r) then refuse (name +:+ " already specified")
  else if decide (length (default [] v) = 0)%nat then refuse (name +:+ " contains no entries")
  else inl (set v r).

Fixpoint apply_options {R} (options : list (R → R + error)) (r : R) : R + error :=
  match options with [] => inl r | o :: options => match o r with inl r => apply_options options r | inr e => inr e end end.

Definition set_CAPath v f := mkSignedFulcio v (CAData f) (OIDCIssuer f) (SubjectEmail f).
Definition set_CAData v f := mkSignedFulcio (CAPath f) v (OIDCIssuer f) (SubjectEmail f).
Definition set_OIDCIssuer v f := mkSignedFulcio (CAPath f) (CAData f) v (SubjectEmail f).
Definition set_SubjectEmail v f := mkSignedFulcio (CAPath f) (CAData f) (OIDCIssuer f) v.
Definition PRSigstoreSignedFulcioWithCAPath := with_string CAPath set_CAPath "caPath".
Definition PRSigstoreSignedFulcioWithCAData := with_slice CAData set_CAData "caData".
Definition PRSigstoreSignedFulcioWithOIDCIssuer := with_string OIDCIssuer set_OIDCIssuer "oidcIssuer".
Definition PRSigstoreSignedFulcioWithSubjectEmail := with_string SubjectEmail set_SubjectEmail "subjectEmail".

Definition newPRSigstoreSignedFulcio (options : list (prSigstoreSignedFulcio → prSigstoreSignedFulcio + error)) : prSigstoreSignedFulcio + error :=
  match apply_options options (mkSignedFulcio "" None "" "") with
  | inr e => inr e
  | inl res =>
      if given (CAPath res) && set_ (CAData res) then refuse "caPath and caData cannot be used simultaneously"
      else if negb (given (CAPath res)) && negb (set_ (CAData res)) then refuse "At least one of caPath and caData must be specified"
      else if negb (given (OIDCIssuer res)) then refuse "oidcIssuer not specified"
      else if negb (given (SubjectEmail res)) then refuse "subjectEmail not specified"
      else inl res
  end.

Definition set_CARootsPath v p := mkSignedPKI v (CARootsData p) (CAIntermediatesPath p) (CAIntermediatesData p) (PKISubjectEmail p) (PKISubjectHostname p).
Definition set_CARootsData v p := mkSignedPKI (CARootsPath p) v (CAIntermediatesPath p) (CAIntermediatesData p) (PKISubjectEmail p) (PKISubjectHostname p).
Definition set_CAIntermediatesPath v p := mkSignedPKI (CARootsPath p) (CARootsData p) v (CAIntermediatesData p) (PKISubjectEmail p) (PKISubjectHostname p).
Definition set_CAIntermediatesData v p := mkSignedPKI (CARootsPath p) (CARootsData p) (CAIntermediatesPath p) v (PKISubjectEmail p) (PKISubjectHostname p).
Definition set_PKISubjectEmail v p := mkSignedPKI (CARootsPath p) (CARootsData p) (CAIntermediatesPath p) (CAIntermediatesData p) v (PKISubjectHostname p).
Definition set_PKISubjectHostname v p := mkSignedPKI (CARootsPath p) (CARootsData p) (CAIntermediatesPath p) (CAIntermediatesData p) (PKISubjectEmail p) v.
Definition PRSigstoreSignedPKIWithCARootsPath := with_string CARootsPath set_CARootsPath "caRootsPath".
Definition PRSigstoreSignedPKIWithCARootsData := with_slice CARootsData set_CARootsData "caRootsData".
Definition PRSigstoreSignedPKIWithCAIntermediatesPath := with_string CAIntermediatesPath set_CAIntermediatesPath "caIntermediatesPath".
Definition PRSigstoreSignedPKIWithCAIntermediatesData := with_slice CAIntermediatesData set_CAIntermediatesData "caIntermediatesData".
Definition PRSigstoreSignedPKIWithSubjectEmail := with_string PKISubjectEmail set_PKISubjectEmail "subjectEmail".
Definition PRSigstoreSignedPKIWithSubjectHostname := with_string PKISubjectHostname set_PKISubjectHostname "subjectHostname".

Definition newPRSigstoreSignedPKI (options : list (prSigstoreSignedPKI → prSigstoreSignedPKI + error)) : prSigstoreSignedPKI + error :=
  match apply_options options (mkSignedPKI "" None "" None "" "") with
  | inr e => inr e
  | inl res =>
      if given (CARootsPath res) && set_ (CARootsData res) then refuse "caRootsPath and caRootsData cannot be used simultaneously"
      else if negb (given (CARootsPath res)) && negb (set_ (CARootsData res)) then refuse "At least one of caRootsPath and caRootsData must be specified"
      else if given (CAIntermediatesPath res) && set_ (CAIntermediatesData res) then
        refuse "caIntermediatesPath and caIntermediatesData cannot be used simultaneously"
      else if negb (given (PKISubjectEmail res)) && negb (given (PKISubjectHostname res)) then
        refuse "At least one of subjectEmail, subjectHostname must be specified"
      else inl res
  end.

(** A requirement under construction: whether its identity was set. *)
Notation partial := (prSigstoreSigned * bool)%type.
Definition set_s (f : prSigstoreSigned → prSigstoreSigned) (p : partial) : partial := (f p.1, p.2).
Definition set_KeyPath v := set_s (λ r, mkSigstoreSigned v (s_KeyPaths r) (s_KeyData r) (s_KeyDatas r) (Fulcio r) (RekorPublicKeyPath r) (RekorPublicKeyPaths r) (RekorPublicKeyData r) (RekorPublicKeyDatas r) (PKI r) (s_SignedIdentity r)).
Definition set_KeyPaths v := set_s (λ r, mkSigstoreSigned (s_KeyPath r) v (s_KeyData r) (s_KeyDatas r) (Fulcio r) (RekorPublicKeyPath r) (RekorPublicKeyPaths r) (RekorPublicKeyData r) (RekorPublicKeyDatas r) (PKI r) (s_SignedIdentity r)).
Definition set_KeyData v := set_s (λ r, mkSigstoreSigned (s_KeyPath r) (s_KeyPaths r) v (s_KeyDatas r) (Fulcio r) (RekorPublicKeyPath r) (RekorPublicKeyPaths r) (RekorPublicKeyData r) (RekorPublicKeyDatas r) (PKI r) (s_SignedIdentity r)).
Definition set_KeyDatas v := set_s (λ r, mkSigstoreSigned (s_KeyPath r) (s_KeyPaths r) (s_KeyData r) v (Fulcio r) (RekorPublicKeyPath r) (RekorPublicKeyPaths r) (RekorPublicKeyData r) (RekorPublicKeyDatas r) (PKI r) (s_SignedIdentity r)).
Definition set_Fulcio v := set_s (λ r, mkSigstoreSigned (s_KeyPath r) (s_KeyPaths r) (s_KeyData r) (s_KeyDatas r) v (RekorPublicKeyPath r) (RekorPublicKeyPaths r) (RekorPublicKeyData r) (RekorPublicKeyDatas r) (PKI r) (s_SignedIdentity r)).
Definition set_RekorPath v := set_s (λ r, mkSigstoreSigned (s_KeyPath r) (s_KeyPaths r) (s_KeyData r) (s_KeyDatas r) (Fulcio r) v (RekorPublicKeyPaths r) (RekorPublicKeyData r) (RekorPublicKeyDatas r) (PKI r) (s_SignedIdentity r)).
Definition set_RekorPaths v := set_s (λ r, mkSigstoreSigned (s_KeyPath r) (s_KeyPaths r) (s_KeyData r) (s_KeyDatas r) (Fulcio r) (RekorPublicKeyPath r) v (RekorPublicKeyData r) (RekorPublicKeyDatas r) (PKI r) (s_SignedIdentity r)).
Definition set_RekorData v := set_s (λ r, mkSigstoreSigned (s_KeyPath r) (s_KeyPaths r) (s_KeyData r) (s_KeyDatas r) (Fulcio r) (RekorPublicKeyPath r) (RekorPublicKeyPaths r) v (RekorPublicKeyDatas r) (PKI r) (s_SignedIdentity r)).
Definition set_RekorDatas v := set_s (λ r, mkSigstoreSigned (s_KeyPath r) (s_KeyPaths r) (s_KeyData r) (s_KeyDatas r) (Fulcio r) (RekorPublicKeyPath r) (RekorPublicKeyPaths r) (RekorPublicKeyData r) v (PKI r) (s_SignedIdentity r)).
Definition set_PKI v := set_s (λ r, mkSigstoreSigned (s_KeyPath r) (s_KeyPaths r) (s_KeyData r) (s_KeyDatas r) (Fulcio r) (RekorPublicKeyPath r) (RekorPublicKeyPaths r) (RekorPublicKeyData r) (RekorPublicKeyDatas r) v (s_SignedIdentity r)).

Definition PRSigstoreSignedWithKeyPath := with_string (s_KeyPath ∘ fst) set_KeyPath "keyPath".
Definition PRSigstoreSignedWithKeyPaths := with_list (s_KeyPaths ∘ fst) set_KeyPaths "keyPaths".
Definition PRSigstoreSignedWithKeyData := with_slice (s_KeyData ∘ fst) set_KeyData "keyData".
Definition PRSigstoreSignedWithKeyDatas := with_list (s_KeyDatas ∘ fst) set_KeyDatas "keyDatas".
Definition PRSigstoreSignedWithFulcio := with_slice (Fulcio ∘ fst) set_Fulcio "fulcio".
Definition PRSigstoreSignedWithPKI := with_slice (PKI ∘ fst) set_PKI "pki".
Definition PRSigstoreSignedWithRekorPublicKeyPath := with_string (RekorPublicKeyPath ∘ fst) set_RekorPath "rekorPublicKeyPath".
Definition PRSigstoreSignedWithRekorPublicKeyPaths := with_list (RekorPublicKeyPaths ∘ fst) set_RekorPaths "rekorPublickeyPaths".
Definition PRSigstoreSignedWithRekorPublicKeyData := with_slice (RekorPublicKeyData ∘ fst) set_RekorData "rekorPublicKeyData".
Definition PRSigstoreSignedWithRekorPublicKeyDatas := with_list (RekorPublicKeyDatas ∘ fst) set_RekorDatas "rekorPublickeyDatas".
Definition PRSigstoreSignedWithSignedIdentity (v : PolicyReferenceMatch) : partial → partial + error := λ p,
  if p.2 then refuse "signedIdentity already specified"
  else inl (let r := p.1 in
            (mkSigstoreSigned (s_KeyPath r) (s_KeyPaths r) (s_KeyData r) (s_KeyDatas r) (Fulcio r) (RekorPublicKeyPath r) (RekorPublicKeyPaths r)
               (RekorPublicKeyData r) (RekorPublicKeyDatas r) (PKI r) v, true)).

Definition key_sources (r : prSigstoreSigned) : nat :=
  count [given (s_KeyPath r); set_ (s_KeyPaths r); set_ (s_KeyData r); set_ (s_KeyDatas r); set_ (Fulcio r); set_ (PKI r)].
Definition rekor_sources (r : prSigstoreSigned) : nat :=
  count [given (RekorPublicKeyPath r); set_ (RekorPublicKeyPaths r); set_ (RekorPublicKeyData r); set_ (RekorPublicKeyDatas r)].

Definition newPRSigstoreSigned (options : list (partial → partial + error)) : prSigstoreSigned + error :=
  match apply_options options (mkSigstoreSigned "" None None None None "" None None None None prmMatchExact, false) with
  | inr e => inr e
  | inl (res, identity) =>
      if decide (key_sources res ≠ 1)%nat then refuse "exactly one of keyPath, keyPaths, keyData, keyDatas, fulcio, and pki must be specified"
      else if decide (1 < rekor_sources res)%nat then refuse "at most one Rekor public key source can be used"
      else if set_ (Fulcio res) && bool_decide (rekor_sources res = 0)%nat then refuse "a Rekor public key must be specified if fulcio is used"
      else if set_ (PKI res) && bool_decide (0 < rekor_sources res)%nat then refuse "Rekor public keys are not supported for pki"
      else if negb identity then refuse "signedIdentity not specified"
      else inl res
  end.
Definition NewPRSigstoreSignedKeyPath (keyPath : string) (signedIdentity : PolicyReferenceMatch) :=
  newPRSigstoreSigned [PRSigstoreSignedWithKeyPath keyPath; PRSigstoreSignedWithSignedIdentity signedIdentity].
Definition NewPRSigstoreSignedKeyData (keyData : option string) (signedIdentity : PolicyReferenceMatch) :=
  newPRSigstoreSigned [PRSigstoreSignedWithKeyData keyData; PRSigstoreSignedWithSignedIdentity signedIdentity].

Section Config.
Context `{JSON} `{Digests} `{Unicode} `{TransportRegistry}.

Definition newPRMExactReference (dockerReference : string) : PolicyReferenceMatch + error :=
  match ParseNormalizedNamed dockerReference with
  | inr _ => refuse "Invalid format of dockerReference"
  | inl ref => if IsNameOnly ref then refuse "dockerReference contains neither a tag nor digest" else inl (prmExactReference dockerReference)
  end.
Definition newPRMExactRepository (dockerRepository : string) : PolicyReferenceMatch + error :=
  match ParseNormalizedNamed dockerRepository with
  | inr _ => refuse "Invalid format of dockerRepository"
  | inl _ => inl (prmExactRepository dockerRepository)
  end.

(** [remapIdentityDomainPrefixRegexp]: some beginning of the text matches. *)
Definition MatchPrefix (r : regexp) (s : string) : bool := match run r s with [] => false | _ => true end.

Definition validateIdentityRemappingPrefix (s : string) : bool :=
  MatchString domain_ s || (MatchString namePat s && MatchPrefix (Cat domain_ (Char "/")) s).
Definition newPRMRemapIdentity (prefix signedPrefix : string) : PolicyReferenceMatch + error :=
  if negb (validateIdentityRemappingPrefix prefix) then refuse "prefix is not valid"
  else if negb (validateIdentityRemappingPrefix signedPrefix) then refuse "prefix is not valid"
  else inl (prmRemapIdentity prefix signedPrefix).

(** ** JSON *)

(** The values of the fields of an object that were present. *)
Inductive field :=
  | FString (s : string)
  | FStrings (l : option (list string))
  | FBytes (b : option string)
  | FRaw (j : json)
  | FFulcio (f : prSigstoreSignedFulcio)
  | FPKI (p : prSigstoreSignedPKI).
Notation fields := (gmap string field).

Definition as_string (j : json) : field + error := match into_string j "" with inl s => inl (FString s) | inr e => inr e end.
Fixpoint each {A} (d : json → A + error) (l : list json) : list A + error :=
  match l with
  | [] => inl []
  | j :: l => match d j with inr e => inr e | inl a => match each d l with inl r => inl (a :: r) | inr e => inr e end end
  end.
Definition as_list (d : json → string + error) (j : json) : field + error :=
  match j with
  | JNull => inl (FStrings None)
  | JArray l => match each d l with inl r => inl (FStrings (Some r)) | inr e => inr e end
  | _ => mismatch
  end.
Definition as_strings : json → field + error := as_list (λ j, into_string j "").
Definition as_bytes (j : json) : field + error := match into_bytes j None with inl b => inl (FBytes b) | inr e => inr e end.
Definition as_byteslist : json → field + error :=
  as_list (λ j, match into_bytes j None with inl b => inl (default "" b) | inr e => inr e end).
Definition as_raw (j : json) : field + error := inl (FRaw j).
Definition as_keyType (j : json) : field + error :=
  match into_string j "" with
  | inr e => inr e
  | inl s => if keyType_IsValid (sbKeyType_of s) then inl (FString s) else refuse "Unrecognized keyType value"
  end.

Definition fields_resolver (known : list (string * (json → field + error))) (key : string) : option (json → fields → fields + error) :=
  match list_find (λ p, p.1 = key) known with
  | Some (_, (_, d)) => Some (λ j m, match d j with inl v => inl (<[key := v]> m) | inr e => inr e end)
  | None => None
  end.
Definition read_fields (known : list (string * (json → field + error))) (j : json) : fields + error :=
  ParanoidUnmarshalJSONObject (fields_resolver known) j ∅.
(** All of the fields, and no other. *)
Definition read_exactly (known : list (string * (json → field + error))) (j : json) : fields + error :=
  match read_fields known j with
  | inr e => inr e
  | inl m => if decide (Forall (λ p, p.1 ∈ keys_of j) known) then inl m else inr (ErrJSONFormat "Key missing in a JSON object")
  end.

Definition got (m : fields) (key : string) : bool := set_ (m !! key).
Definition str (m : fields) (key : string) : string := match m !! key with Some (FString s) => s | _ => "" end.
Definition strs (m : fields) (key : string) : option (list string) := match m !! key with Some (FStrings l) => l | _ => None end.
Definition byts (m : fields) (key : string) : option string := match m !! key with Some (FBytes b) => b | _ => None end.

(** The field [type] of an object, read as a struct reads it. *)
Definition typeField (j : json) : string + error := into_struct [("type", into_string)] j "".

Definition unexpected_type {A} : A + error := refuse "Unexpected policy requirement type".

Definition newPolicyReferenceMatchFromJSON (j : json) : PolicyReferenceMatch + error :=
  match typeField j with
  | inr e => inr e
  | inl t =>
      let simple prm := match read_exactly [("type", as_string)] j with
                        | inr e => inr e
                        | inl m => if decide (str m "type" = t) then inl prm else unexpected_type
                        end in
      if decide (t = "matchExact") then simple prmMatchExact
      else if decide (t = "matchRepoDigestOrExact") then simple prmMatchRepoDigestOrExact
      else if decide (t = "matchRepository") then simple prmMatchRepository
      else if decide (t = "exactReference") then
        match read_exactly [("type", as_string); ("dockerReference", as_string)] j with
        | inr e => inr e
        | inl m => if decide (str m "type" = t) then newPRMExactReference (str m "dockerReference") else unexpected_type
        end
      else if decide (t = "exactRepository") then
        match read_exactly [("type", as_string); ("dockerRepository", as_string)] j with
        | inr e => inr e
        | inl m => if decide (str m "type" = t) then newPRMExactRepository (str m "dockerRepository") else unexpected_type
        end
      else if decide (t = "remapIdentity") then
        match read_exactly [("type", as_string); ("prefix", as_string); ("signedPrefix", as_string)] j with
        | inr e => inr e
        | inl m => if decide (str m "type" = t) then newPRMRemapIdentity (str m "prefix") (str m "signedPrefix") else unexpected_type
        end
      else refuse "Unknown policy reference match type"
  end.

(** The identity that is asked for when none is given. *)
Definition read_identity (m : fields) : PolicyReferenceMatch + error :=
  match m !! "signedIdentity" with Some (FRaw j) => newPolicyReferenceMatchFromJSON j | _ => inl prmMatchRepoDigestOrExact end.

Definition prSignedBy_UnmarshalJSON (j : json) : prSignedBy + error :=
  match read_fields [("type", as_string); ("keyType", as_keyType); ("keyPath", as_string); ("keyPaths", as_strings); ("keyData", as_bytes);
                     ("signedIdentity", as_raw)] j with
  | inr e => inr e
  | inl m =>
      if decide (str m "type" ≠ "signedBy") then unexpected_type
      else match read_identity m with
           | inr e => inr e
           | inl identity =>
               let kt := sbKeyType_of (str m "keyType") in
               match got m "keyPath", got m "keyPaths", got m "keyData" with
               | true, false, false => newPRSignedByKeyPath kt (str m "keyPath") identity
               | false, true, false => newPRSignedByKeyPaths kt (strs m "keyPaths") identity
               | false, false, true => newPRSignedByKeyData kt (byts m "keyData") identity
               | false, false, false => refuse "Exactly one of keyPath, keyPaths and keyData must be specified, none of them present"
               | _, _, _ => inr (ErrOther "Exactly one of keyPath, keyPaths and keyData must be specified, more than one present")
               end
           end
  end.

Definition when {A} (b : bool) (a : A) : list A := if b then [a] else [].

Definition prSigstoreSignedFulcio_UnmarshalJSON (j : json) : prSigstoreSignedFulcio + error :=
  match read_fields [("caPath", as_string); ("caData", as_bytes); ("oidcIssuer", as_string); ("subjectEmail", as_string)] j with
  | inr e => inr e
  | inl m =>
      newPRSigstoreSignedFulcio
        (when (got m "caPath") (PRSigstoreSignedFulcioWithCAPath (str m "caPath")) ++
         when (got m "caData") (PRSigstoreSignedFulcioWithCAData (byts m "caData")) ++
         when (got m "oidcIssuer") (PRSigstoreSignedFulcioWithOIDCIssuer (str m "oidcIssuer")) ++
         when (got m "subjectEmail") (PRSigstoreSignedFulcioWithSubjectEmail (str m "subjectEmail")))%list
  end.

Definition prSigstoreSignedPKI_UnmarshalJSON (j : json) : prSigstoreSignedPKI + error :=
  match read_fields [("caRootsPath", as_string); ("caRootsData", as_bytes); ("caIntermediatesPath", as_string); ("caIntermediatesData", as_bytes);
                     ("subjectEmail", as_string); ("subjectHostname", as_string)] j with
  | inr e => inr e
  | inl m =>
      newPRSigstoreSignedPKI
        (when (got m "caRootsPath") (PRSigstoreSignedPKIWithCARootsPath (str m "caRootsPath")) ++
         when (got m "caRootsData") (PRSigstoreSignedPKIWithCARootsData (byts m "caRootsData")) ++
         when (got m "caIntermediatesPath") (PRSigstoreSignedPKIWithCAIntermediatesPath (str m "caIntermediatesPath")) ++
         when (got m "caIntermediatesData") (PRSigstoreSignedPKIWithCAIntermediatesData (byts m "caIntermediatesData")) ++
         when (got m "subjectEmail") (PRSigstoreSignedPKIWithSubjectEmail (str m "subjectEmail")) ++
         when (got m "subjectHostname") (PRSigstoreSignedPKIWithSubjectHostname (str m "subjectHostname")))%list
  end.

Definition as_fulcio (j : json) : field + error := match prSigstoreSignedFulcio_UnmarshalJSON j with inl f => inl (FFulcio f) | inr e => inr e end.
Definition as_pki (j : json) : field + error := match prSigstoreSignedPKI_UnmarshalJSON j with inl p => inl (FPKI p) | inr e => inr e end.

Definition prSigstoreSigned_UnmarshalJSON (j : json) : prSigstoreSigned + error :=
  match read_fields [("type", as_string); ("keyPath", as_string); ("keyPaths", as_strings); ("keyData", as_bytes); ("keyDatas", as_byteslist);
                     ("fulcio", as_fulcio); ("rekorPublicKeyPath", as_string); ("rekorPublicKeyPaths", as_strings);
                     ("rekorPublicKeyData", as_bytes); ("rekorPublicKeyDatas", as_byteslist); ("pki", as_pki); ("signedIdentity", as_raw)] j with
  | inr e => inr e
  | inl m =>
      if decide (str m "type" ≠ "sigstoreSigned") then unexpected_type
      else match read_identity m with
           | inr e => inr e
           | inl identity =>
               newPRSigstoreSigned
                 (when (got m "keyPath") (PRSigstoreSignedWithKeyPath (str m "keyPath")) ++
                  when (got m "keyPaths") (PRSigstoreSignedWithKeyPaths (strs m "keyPaths")) ++
                  when (got m "keyData") (PRSigstoreSignedWithKeyData (byts m "keyData")) ++
                  when (got m "keyDatas") (PRSigstoreSignedWithKeyDatas (strs m "keyDatas")) ++
                  match m !! "fulcio" with Some (FFulcio f) => [PRSigstoreSignedWithFulcio (Some f)] | _ => [] end ++
                  when (got m "rekorPublicKeyPath") (PRSigstoreSignedWithRekorPublicKeyPath (str m "rekorPublicKeyPath")) ++
                  when (got m "rekorPublicKeyPaths") (PRSigstoreSignedWithRekorPublicKeyPaths (strs m "rekorPublicKeyPaths")) ++
                  when (got m "rekorPublicKeyData") (PRSigstoreSignedWithRekorPublicKeyData (byts m "rekorPublicKeyData")) ++
                  when (got m "rekorPublicKeyDatas") (PRSigstoreSignedWithRekorPublicKeyDatas (strs m "rekorPublicKeyDatas")) ++
                  match m !! "pki" with Some (FPKI p) => [PRSigstoreSignedWithPKI (Some p)] | _ => [] end ++
                  [PRSigstoreSignedWithSignedIdentity identity])%list
           end
  end.

Definition newPolicyRequirementFromJSON (j : json) : PolicyRequirement + error :=
  match typeField j with
  | inr e => inr e
  | inl t =>
      let simple req := match read_exactly [("type", as_string)] j with
                        | inr e => inr e
                        | inl m => if decide (str m "type" = t) then inl req else unexpected_type
                        end in
      if decide (t = "insecureAcceptAnything") then simple PRInsecureAcceptAnything
      else if decide (t = "reject") then simple PRReject
      else if decide (t = "signedBy") then match prSignedBy_UnmarshalJSON j with inl pr => inl (PRSignedBy pr) | inr e => inr e end
      else if decide (t = "signedBaseLayer") then
        match read_exactly [("type", as_string); ("baseLayerIdentity", as_raw)] j with
        | inr e => inr e
        | inl m =>
            if decide (str m "type" ≠ t) then unexpected_type
            else match m !! "baseLayerIdentity" with
                 | Some (FRaw b) => match newPolicyReferenceMatchFromJSON b with inl prm => inl (PRSignedBaseLayer prm) | inr e => inr e end
                 | _ => refuse "baseLayerIdentity not specified"
                 end
        end
      else if decide (t = "sigstoreSigned") then match prSigstoreSigned_UnmarshalJSON j with inl pr => inl (PRSigstoreSigned pr) | inr e => inr e end
      else refuse "Unknown policy requirement type"
  end.

Definition PolicyRequirements_UnmarshalJSON (j : json) : list PolicyRequirement + error :=
  match j with
  | JNull | JArray [] => refuse "List of verification policy requirements must not be empty"
  | JArray l => each newPolicyRequirementFromJSON l
  | _ => mismatch
  end.

(** The scopes of a transport; those that the transport refuses are unknown
    keys. *)
Definition scopes_resolver (transport : option (string → option error)) (key : string) :
    option (json → gmap string (list PolicyRequirement) → gmap string (list PolicyRequirement) + error) :=
  let valid := match transport with Some check => if decide (key = "") then true else negb (set_ (check key)) | None => true end in
  if valid then
    Some (λ j m, match PolicyRequirements_UnmarshalJSON j with inl reqs => inl (<[key := reqs]> m) | inr e => inr e end)
  else None.
Definition policyTransportScopes_UnmarshalJSON (transport : option (string → option error)) (j : json) : gmap string (list PolicyRequirement) + error :=
  ParanoidUnmarshalJSONObject (scopes_resolver transport) j ∅.

Definition transports_resolver (key : string) :
    option (json → gmap string (gmap string (list PolicyRequirement)) → gmap string (gmap string (list PolicyRequirement)) + error) :=
  Some (λ j m, match policyTransportScopes_UnmarshalJSON (ValidatePolicyConfigurationScope key) j with inl s => inl (<[key := s]> m) | inr e => inr e end).
Definition policyTransportsMap_UnmarshalJSON (j : json) : gmap string (gmap string (list PolicyRequirement)) + error :=
  ParanoidUnmarshalJSONObject transports_resolver j ∅.

(** The default is nil until it is read. *)
Definition policy_resolver (key : string) :
    option (json → option (list PolicyRequirement) * gmap string (gmap string (list PolicyRequirement)) →
            option (list PolicyRequirement) * gmap string (gmap string (list PolicyRequirement)) + error) :=
  if decide (key = "default") then Some (λ j p, match PolicyRequirements_UnmarshalJSON j with inl l => inl (Some l, p.2) | inr e => inr e end)
  else if decide (key = "transports") then Some (λ j p, match policyTransportsMap_UnmarshalJSON j with inl t => inl (p.1, t) | inr e => inr e end)
  else None.
Definition Policy_UnmarshalJSON (j : json) : Policy + error :=
  match ParanoidUnmarshalJSONObject policy_resolver j (None, ∅) with
  | inr e => inr e
  | inl (None, _) => refuse "Default policy is missing"
  | inl (Some d, t) => inl (mkPolicy d t)
  end.

Definition NewPolicyFromBytes (data : string) : Policy + error :=
  match json_Parse data with
  | inr _ => refuse "invalid JSON"
  | inl j => match Policy_UnmarshalJSON j with inl p => inl p | inr _ => refuse "invalid policy" end
  end.

Definition NewPolicyFromFile (fileName : string) : M World Policy :=
  contents ← os_ReadFile fileName;
  match NewPolicyFromBytes contents with inl p => mret p | inr e => fail e end.

(** *** The policy of the system *)

(** The fields of [types.SystemContext] that are used; [None] is a nil context. *)
Record SystemContext := mkSystemContext { SignaturePolicyPath : string; RootForImplicitAbsolutePaths : string }.

Context `{ConfigFile.Environment}.

Definition policyFiles (sys : option SystemContext) : ConfigFile.File :=
  ConfigFile.mkFile "policy" "json" "CONTAINERS_POLICY_JSON" (from_option RootForImplicitAbsolutePaths "" sys) "" "" false true false 0 [] true.

(** One round of the loop over the files. *)
Definition read_policy (policy : option Policy) (path : string) : M World (option Policy) :=
  match policy with
  | Some _ => fail (ErrOther "internal error: expected at most one policy file, got another item")
  | None =>
      contents ← ConfigFile.ReadAll path;
      match NewPolicyFromBytes contents with inl p => mret (Some p) | inr e => fail e end
  end.

(** [None] is a nil policy. *)
Definition DefaultPolicy (sys : option SystemContext) : M World (option Policy) :=
  if decide (from_option SignaturePolicyPath "" sys ≠ "") then Some <$> NewPolicyFromFile (from_option SignaturePolicyPath "" sys)
  else fst <$> ConfigFile.Read read_policy (policyFiles sys) None.
End Config.
End PolicyConfig.
