(* ===== verification/PolicyConfigFacts.v ===== *)
(** * What a loaded policy guarantees

    Every requirement that the constructors and the JSON reader let through is
    consistent, and for consistent requirements the checks for an internal
    inconsistency in the evaluation never fail. *)

From S2P Require Import Prelude World StoreUtil Strconv StringId GoJson GoRegexp DockerReference Signatures Sigstore Policy ConfigFile ConfigFileFacts PolicyConfig PolicyDemo LayerDemo LockFile PolicyFacts.

Local Open Scope string_scope.

Module PolicyConfigFacts.
Import Regexp GoJson DockerReference Signatures Sigstore Policy PolicyConfig PolicyDemo PolicyFacts.

Section Config.
Context `{JSON} `{Digests} `{Unicode} `{TransportRegistry}.

(** ** Consistent requirements *)

Definition wf_match (prm : PolicyReferenceMatch) : Prop :=
  match prm with
  | prmExactReference r => ∃ n, ParseNormalizedNamed r = inl n ∧ IsNameOnly n = false
  | prmExactRepository r => ∃ n, ParseNormalizedNamed r = inl n
  | prmRemapIdentity a b => validateIdentityRemappingPrefix a = true ∧ validateIdentityRemappingPrefix b = true
  | _ => True
  end.

Definition wf_fulcio (f : prSigstoreSignedFulcio) : Prop :=
  count [given (CAPath f); set_ (CAData f)] = 1%nat ∧ OIDCIssuer f ≠ "" ∧ SubjectEmail f ≠ "".
Definition wf_pki (p : prSigstoreSignedPKI) : Prop :=
  count [given (CARootsPath p); set_ (CARootsData p)] = 1%nat ∧
  (count [given (CAIntermediatesPath p); set_ (CAIntermediatesData p)] ≤ 1)%nat ∧ (PKISubjectEmail p ≠ "" ∨ PKISubjectHostname p ≠ "").

Record wf_sigstore (r : prSigstoreSigned) : Prop := {
  ws_keys : key_sources r = 1%nat;
  ws_rekor : (rekor_sources r ≤ 1)%nat;
  ws_fulcio : ∀ f, Fulcio r = Some f → wf_fulcio f ∧ rekor_sources r = 1%nat;
  ws_pki : ∀ p, PKI r = Some p → wf_pki p ∧ rekor_sources r = 0%nat;
  ws_identity : wf_match (s_SignedIdentity r)
}.

Definition wf_requirement (req : PolicyRequirement) : Prop :=
  match req with
  | PRInsecureAcceptAnything | PRReject => True
  | PRSignedBy pr =>
      keyType_IsValid (KeyType pr) = true ∧ count [given (KeyPath pr); set_ (KeyPaths pr); set_ (KeyData pr)] = 1%nat ∧ wf_match (SignedIdentity pr)
  | PRSignedBaseLayer prm => wf_match prm
  | PRSigstoreSigned pr => wf_sigstore pr
  end.
Definition wf_requirements (l : list PolicyRequirement) : Prop := l ≠ [] ∧ Forall wf_requirement l.
Definition wf_policy (p : Policy) : Prop :=
  wf_requirements (Default p) ∧ map_Forall (λ _ scopes, map_Forall (λ _ reqs, wf_requirements reqs) scopes) (Transports p).

(** ** Constructors *)

Lemma given_true s : given s = true ↔ s ≠ "".
Proof. unfold given. destruct (String.eqb_spec s "") as [->|]; simpl; split; (done || by intros []). Qed.
Lemma count_two a b : count [a; b] = (Nat.b2n a + Nat.b2n b)%nat.
Proof. by destruct a, b. Qed.

Lemma newPRSignedBy_wf kt path paths data id pr : newPRSignedBy kt path paths data id = inl pr → wf_match id → wf_requirement (PRSignedBy pr).
Proof.
  unfold newPRSignedBy. destruct (keyType_IsValid kt) eqn:Ek; [|done]. simpl negb. cbv iota. case_decide as Hc; [done|]. intros [= <-] Hid.
  simpl. by split_and!.
Qed.

Lemma newFulcio_wf options f : newPRSigstoreSignedFulcio options = inl f → wf_fulcio f.
Proof.
  unfold newPRSigstoreSignedFulcio. destruct (apply_options _ _) as [res|]; [|done]. unfold wf_fulcio. rewrite count_two.
  destruct (given (CAPath res)) eqn:E1, (set_ (CAData res)) eqn:E2; simpl; try done;
    destruct (given (OIDCIssuer res)) eqn:E3; try done; destruct (given (SubjectEmail res)) eqn:E4; try done;
    intros [= <-]; rewrite E1, E2; apply given_true in E3, E4; done.
Qed.
Lemma newPKI_wf options p : newPRSigstoreSignedPKI options = inl p → wf_pki p.
Proof.
  unfold newPRSigstoreSignedPKI. destruct (apply_options _ _) as [res|]; [|done]. unfold wf_pki. rewrite !count_two.
  destruct (given (CARootsPath res)) eqn:E1, (set_ (CARootsData res)) eqn:E2; simpl; try done;
    destruct (given (CAIntermediatesPath res)) eqn:E3, (set_ (CAIntermediatesData res)) eqn:E4; simpl; try done;
    destruct (given (PKISubjectEmail res)) eqn:E5, (given (PKISubjectHostname res)) eqn:E6; simpl; try done;
    intros [= <-]; rewrite E1, E2, E3, E4; rewrite ?given_true in *; simpl; split_and!; (lia || tauto).
Qed.

(** What an option sets is consistent in itself. *)
Definition parts_ok (p : prSigstoreSigned * bool) : Prop :=
  (∀ f, Fulcio p.1 = Some f → wf_fulcio f) ∧ (∀ k, PKI p.1 = Some k → wf_pki k) ∧ wf_match (s_SignedIdentity p.1).
Definition keeps_parts (o : prSigstoreSigned * bool → (prSigstoreSigned * bool) + error) : Prop := ∀ p p', parts_ok p → o p = inl p' → parts_ok p'.

Lemma apply_options_keeps options p p' : Forall keeps_parts options → parts_ok p → apply_options options p = inl p' → parts_ok p'.
Proof.
  intros Ho. revert p. induction Ho as [|o options Hk _ IH]; intros p Hp; simpl; [by intros [= <-]|].
  destruct (o p) as [p1|] eqn:E; [|done]. apply IH. by eapply Hk.
Qed.

Lemma newPRSigstoreSigned_wf options r : Forall keeps_parts options → newPRSigstoreSigned options = inl r → wf_sigstore r.
Proof.
  intros Ho. unfold newPRSigstoreSigned. destruct (apply_options _ _) as [[res id]|] eqn:Ea; [|done].
  apply apply_options_keeps in Ea as (Hf & Hp & Hm); [|done|by split_and!]. simpl in Hf, Hp, Hm.
  case_decide as Hk; [done|]. case_decide as Hr; [done|].
  destruct (set_ (Fulcio res) && _) eqn:E1; [done|]. destruct (set_ (PKI res) && _) eqn:E2; [done|]. destruct id; [|done]. intros [= <-].
  split; [done|lia| | |done].
  - intros f Ef. split; [by apply Hf|]. rewrite Ef in E1. simpl in E1. apply bool_decide_eq_false in E1. lia.
  - intros k Ek. split; [by apply Hp|]. rewrite Ek in E2. simpl in E2. apply bool_decide_eq_false in E2. lia.
Qed.

Lemma with_string_keeps get f name v : (∀ w r, Fulcio (f w r) = Fulcio r ∧ PKI (f w r) = PKI r ∧ s_SignedIdentity (f w r) = s_SignedIdentity r) →
  keeps_parts (with_string get (λ w, set_s (f w)) name v).
Proof.
  intros Hf p p' (H1' & H2' & H3'). unfold with_string. destruct (given (get p)); [done|]. intros [= <-]. unfold parts_ok, set_s. simpl.
  destruct (Hf v p.1) as (-> & -> & ->). done.
Qed.
Lemma with_slice_keeps {A} get (f : option A → _) name v :
  (∀ r, Fulcio (f v r) = Fulcio r ∨ ∃ x, Fulcio (f v r) = Some x ∧ wf_fulcio x) → (∀ r, PKI (f v r) = PKI r ∨ ∃ x, PKI (f v r) = Some x ∧ wf_pki x) →
  (∀ r, s_SignedIdentity (f v r) = s_SignedIdentity r) →
  keeps_parts (with_slice get (λ w, set_s (f w)) name v).
Proof.
  intros Hf Hp Hi p p' (H1' & H2' & H3'). unfold with_slice. destruct (set_ (get p)); [done|]. intros [= <-]. unfold parts_ok, set_s. simpl.
  rewrite Hi. split_and!; [| |done].
  - intros x Hx. destruct (Hf p.1) as [E|(y & E & Hy)]; [apply H1'; congruence|congruence].
  - intros x Hx. destruct (Hp p.1) as [E|(y & E & Hy)]; [apply H2'; congruence|congruence].
Qed.
Lemma with_list_keeps {A} get (f : option (list A) → _) name v :
  (∀ r, Fulcio (f v r) = Fulcio r ∧ PKI (f v r) = PKI r ∧ s_SignedIdentity (f v r) = s_SignedIdentity r) →
  keeps_parts (with_list get (λ w, set_s (f w)) name v).
Proof.
  intros Hf p p' (H1' & H2' & H3'). unfold with_list. destruct (set_ (get p)); [done|]. case_decide; [done|]. intros [= <-].
  unfold parts_ok, set_s. simpl. destruct (Hf p.1) as (-> & -> & ->). done.
Qed.
Lemma with_identity_keeps v : wf_match v → keeps_parts (PRSigstoreSignedWithSignedIdentity v).
Proof.
  intros Hv p p' (H1' & H2' & H3'). unfold PRSigstoreSignedWithSignedIdentity. destruct p.2; [done|]. intros [= <-]. done.
Qed.
Lemma when_keeps b o : keeps_parts o → Forall keeps_parts (when b o).
Proof. intros Ho. destruct b; simpl; [by constructor|constructor]. Qed.

(** ** JSON *)

Lemma paranoid_fields_inv {D} (resolver : string → option (json → D → D + error)) (I : D → Prop) seen l d d' :
  (∀ k into j x x', resolver k = Some into → I x → into j x = inl x' → I x') →
  I d → paranoid_fields resolver seen l d = inl d' → I d'.
Proof.
  intros Hs. revert seen d. induction l as [|[k j] l IH]; intros seen d Hd; simpl; [by intros [= <-]|]. case_decide; [done|].
  destruct (resolver k) as [into|] eqn:Er; [|done]. destruct (into j d) as [d1|] eqn:Ei; [|done]. apply IH. by eapply Hs.
Qed.
Lemma Paranoid_inv {D} (resolver : string → option (json → D → D + error)) (I : D → Prop) j d d' :
  (∀ k into j x x', resolver k = Some into → I x → into j x = inl x' → I x') →
  I d → ParanoidUnmarshalJSONObject resolver j d = inl d' → I d'.
Proof. intros Hs Hd. destruct j; try done. by apply paranoid_fields_inv. Qed.

(** A field that is there was read by its reader. *)
Lemma read_fields_spec known j m :
  read_fields known j = inl m → ∀ k v, m !! k = Some v → ∃ d j', (k, d) ∈ known ∧ d j' = inl v.
Proof.
  unfold read_fields. apply (Paranoid_inv _ (λ m, ∀ k v, m !! k = Some v → ∃ d j', (k, d) ∈ known ∧ d j' = inl v)).
  - intros k into j0 x x' Hr Hx. unfold fields_resolver in Hr. destruct (list_find _ known) as [[n [k' d]]|] eqn:Ef; [|done].
    injection Hr as <-. apply list_find_Some in Ef as (Hl & Hk & _). simpl in Hk. subst k'. apply list_elem_of_lookup_2 in Hl.
    destruct (d j0) as [v|] eqn:Ed; [|done]. intros [= <-] k1 v1. destruct (decide (k1 = k)) as [->|Hne].
    + rewrite lookup_insert. rewrite decide_True by done. intros [= <-]. by exists d, j0.
    + rewrite lookup_insert_ne by done. apply Hx.
  - by intros k v.
Qed.

Lemma newPolicyReferenceMatch_wf j prm : newPolicyReferenceMatchFromJSON j = inl prm → wf_match prm.
Proof.
  unfold newPolicyReferenceMatchFromJSON. destruct (typeField j) as [t|]; [|done]. cbv zeta.
  destruct (read_exactly [("type", as_string)] j) as [m|].
  all: repeat (case_decide; [try done|]); try done.
  all: repeat match goal with |- context [read_exactly ?l ?x] => destruct (read_exactly l x) as [?|]; [|done] end.
  all: repeat (case_decide; [|done]); try (by intros [= <-]).
  all: unfold newPRMExactReference, newPRMExactRepository, newPRMRemapIdentity.
  all: repeat match goal with
       | |- context [ParseNormalizedNamed ?x] => destruct (ParseNormalizedNamed x) as [n|] eqn:?; [|done]
       | |- context [IsNameOnly ?n] => destruct (IsNameOnly n) eqn:?; [done|]
       | |- context [validateIdentityRemappingPrefix ?x] => destruct (validateIdentityRemappingPrefix x) eqn:?; simpl; [|done]
       end.
  all: intros [= <-]; simpl; by eauto.
Qed.

Lemma read_identity_wf m prm : read_identity m = inl prm → wf_match prm.
Proof.
  unfold read_identity. destruct (m !! "signedIdentity") as [[]|]; try (by intros [= <-]). apply newPolicyReferenceMatch_wf.
Qed.

Lemma prSignedBy_wf j pr : prSignedBy_UnmarshalJSON j = inl pr → wf_requirement (PRSignedBy pr).
Proof.
  unfold prSignedBy_UnmarshalJSON. destruct (read_fields _ j) as [m|]; [|done]. case_decide; [done|].
  destruct (read_identity m) as [id|] eqn:Ei; [|done]. apply read_identity_wf in Ei. cbv zeta.
  destruct (got m "keyPath"), (got m "keyPaths"), (got m "keyData"); try done; intros E; by eapply newPRSignedBy_wf.
Qed.

Lemma prSigstoreSigned_wf j pr : prSigstoreSigned_UnmarshalJSON j = inl pr → wf_sigstore pr.
Proof.
  unfold prSigstoreSigned_UnmarshalJSON. destruct (read_fields _ j) as [m|] eqn:Em; [|done]. case_decide; [done|].
  destruct (read_identity m) as [id|] eqn:Ei; [|done]. apply read_identity_wf in Ei.
  pose proof (read_fields_spec _ _ _ Em) as Hm. clear Em.
  assert (∀ f, m !! "fulcio" = Some (FFulcio f) → wf_fulcio f) as Hf.
  { intros f (d & j' & Hin & Ed)%Hm. repeat (apply elem_of_cons in Hin as [[= ?]|Hin]; try done); [|by apply elem_of_nil in Hin]. subst d.
    unfold as_fulcio in Ed. destruct (prSigstoreSignedFulcio_UnmarshalJSON j') as [f'|] eqn:Ef; [|done]. injection Ed as ->.
    unfold prSigstoreSignedFulcio_UnmarshalJSON in Ef. destruct (read_fields _ j') as [m'|]; [|done]. by eapply newFulcio_wf. }
  assert (∀ p, m !! "pki" = Some (FPKI p) → wf_pki p) as Hp.
  { intros p (d & j' & Hin & Ed)%Hm. repeat (apply elem_of_cons in Hin as [[= ?]|Hin]; try done); [|by apply elem_of_nil in Hin]. subst d.
    unfold as_pki in Ed. destruct (prSigstoreSignedPKI_UnmarshalJSON j') as [p'|] eqn:Ef; [|done]. injection Ed as ->.
    unfold prSigstoreSignedPKI_UnmarshalJSON in Ef. destruct (read_fields _ j') as [m'|]; [|done]. by eapply newPKI_wf. }
  apply newPRSigstoreSigned_wf. rewrite !Forall_app. split_and!; try apply when_keeps.
  all: try (by apply with_string_keeps).
  all: try (by apply with_list_keeps).
  all: try (by apply with_slice_keeps; intros r; simpl; eauto).
  - destruct (m !! "fulcio") as [[| | | |f|]|] eqn:Ef; try constructor; [|constructor].
    apply with_slice_keeps; intros r; simpl; [right; exists f; split; [done|by apply Hf]|by left|done].
  - destruct (m !! "pki") as [[| | | | |p]|] eqn:Ep; try constructor; [|constructor].
    apply with_slice_keeps; intros r; simpl; [by left|right; exists p; split; [done|by apply Hp]|done].
  - constructor; [by apply with_identity_keeps|constructor].
Qed.

Lemma newPolicyRequirement_wf j req : newPolicyRequirementFromJSON j = inl req → wf_requirement req.
Proof.
  unfold newPolicyRequirementFromJSON. destruct (typeField j) as [t|]; [|done]. cbv zeta.
  case_decide; [destruct (read_exactly _ j) as [m|]; [|done]; case_decide; [|done]; by intros [= <-]|].
  case_decide; [destruct (read_exactly _ j) as [m|]; [|done]; case_decide; [|done]; by intros [= <-]|].
  case_decide; [destruct (prSignedBy_UnmarshalJSON j) as [pr|] eqn:E; [|done]; intros [= <-]; by eapply prSignedBy_wf|].
  case_decide.
  - destruct (read_exactly _ j) as [m|]; [|done]. case_decide; [done|]. destruct (m !! "baseLayerIdentity") as [[| | |b| |]|]; try done.
    destruct (newPolicyReferenceMatchFromJSON b) as [prm|] eqn:E; [|done]. intros [= <-]. by eapply newPolicyReferenceMatch_wf.
  - case_decide; [|done]. destruct (prSigstoreSigned_UnmarshalJSON j) as [pr|] eqn:E; [|done]. intros [= <-]. by eapply prSigstoreSigned_wf.
Qed.

Lemma each_Forall {A} (d : json → A + error) (P : A → Prop) l r :
  (∀ j a, d j = inl a → P a) → each d l = inl r → Forall P r ∧ length r = length l.
Proof.
  intros Hd. revert r. induction l as [|j l IH]; intros r; simpl; [by intros [= <-]; split; [constructor|]|].
  destruct (d j) as [a|] eqn:Ed; [|done]. destruct (each d l) as [r'|] eqn:Er; [|done]. intros [= <-]. destruct (IH r' eq_refl) as [? Hl].
  split; [constructor; [by eapply Hd|done]|]. simpl. by rewrite Hl.
Qed.

Lemma PolicyRequirements_wf j l : PolicyRequirements_UnmarshalJSON j = inl l → wf_requirements l.
Proof.
  destruct j as [| | | |[|j js]|]; try done. cbn [PolicyRequirements_UnmarshalJSON]. intros E.
  apply (each_Forall _ wf_requirement) in E as [? Hl]; [|by apply newPolicyRequirement_wf]. split; [|done]. by destruct l.
Qed.

Lemma scopes_wf t j m : policyTransportScopes_UnmarshalJSON t j = inl m → map_Forall (λ _ reqs, wf_requirements reqs) m.
Proof.
  apply (Paranoid_inv _ (map_Forall (λ _ reqs, wf_requirements reqs))); [|apply map_Forall_empty].
  intros k into j0 x x' Hr Hx. unfold scopes_resolver in Hr. cbv zeta in Hr. destruct (match t with Some _ => _ | None => _ end); [|done].
  injection Hr as <-. destruct (PolicyRequirements_UnmarshalJSON j0) as [l|] eqn:El; [|done]. intros [= <-].
  apply map_Forall_insert_2; [by eapply PolicyRequirements_wf|done].
Qed.
Lemma transports_wf j m : policyTransportsMap_UnmarshalJSON j = inl m → map_Forall (λ _ scopes, map_Forall (λ _ reqs, wf_requirements reqs) scopes) m.
Proof.
  apply (Paranoid_inv _ (map_Forall (λ _ (scopes : gmap string (list PolicyRequirement)), map_Forall (λ _ reqs, wf_requirements reqs) scopes)));
    [|apply map_Forall_empty].
  intros k into j0 x x' [= <-] Hx. destruct (policyTransportScopes_UnmarshalJSON _ j0) as [l|] eqn:El; [|done]. intros [= <-].
  apply map_Forall_insert_2; [by eapply scopes_wf|done].
Qed.

Lemma Policy_wf j p : Policy_UnmarshalJSON j = inl p → wf_policy p.
Proof.
  unfold Policy_UnmarshalJSON. destruct (ParanoidUnmarshalJSONObject _ j _) as [[d t]|] eqn:E; [|done].
  apply (Paranoid_inv _ (λ q, (∀ l, q.1 = Some l → wf_requirements l) ∧
    map_Forall (λ _ (scopes : gmap string (list PolicyRequirement)), map_Forall (λ _ reqs, wf_requirements reqs) scopes) q.2)) in E.
  - destruct E as [Hd Ht]. destruct d as [d|]; [|done]. intros [= <-]. split; [by apply Hd|done].
  - intros k into j0 x x' Hr [Hx Ht]. unfold policy_resolver in Hr. case_decide.
    + injection Hr as <-. destruct (PolicyRequirements_UnmarshalJSON j0) as [l|] eqn:El; [|done]. intros [= <-].
      split; [|done]. intros l' [= <-]. by eapply PolicyRequirements_wf.
    + case_decide; [|done]. injection Hr as <-. destruct (policyTransportsMap_UnmarshalJSON j0) as [l|] eqn:El; [|done]. intros [= <-].
      split; [done|]. by eapply transports_wf.
  - split; [done|]. simpl. apply map_Forall_empty.
Qed.

Lemma first_scope_elem (scopes : gmap string (list PolicyRequirement)) l reqs : first_scope scopes l = Some reqs → ∃ n, scopes !! n = Some reqs.
Proof. induction l as [|n l IH]; simpl; [done|]. destruct (scopes !! n) eqn:E; [|apply IH]. intros [= <-]. by exists n. Qed.

(** What holds of a policy that was read from JSON. *)
Definition consistent_policy (p : Policy) : Prop :=
  ∀ ref, requirementsForImageRef p ref ≠ [] ∧ Forall wf_requirement (requirementsForImageRef p ref).

Lemma NewPolicyFromBytes_wf data p : NewPolicyFromBytes data = inl p → consistent_policy p.
Proof.
  unfold NewPolicyFromBytes. destruct (json_Parse data) as [j|]; [|done]. destruct (Policy_UnmarshalJSON j) as [q|] eqn:E; [|done].
  intros [= <-] ref. apply Policy_wf in E as [Hd Ht]. change (wf_requirements (requirementsForImageRef q ref)). unfold requirementsForImageRef.
  destruct (Transports q !! TransportName ref) as [scopes|] eqn:Es; [|done]. specialize (Ht _ _ Es). simpl in Ht.
  destruct (scopes !! Policy.PolicyConfigurationIdentity ref) as [r|] eqn:Ei; [by eapply Ht|].
  destruct (first_scope scopes _) as [r|] eqn:Ef; [apply first_scope_elem in Ef as [n Hn]; by eapply Ht|].
  destruct (scopes !! "") as [r|] eqn:Ee; [by eapply Ht|done].
Qed.

Context `{ConfigFile.Environment}.

(** C5: Whatever is in the files, in the environment and in the context, and
    whichever system call fails: if the policy of the system is returned
    without an error it is not nil, and for whatever image it has at least one
    requirement, all of them consistent: one source of keys each, Rekor keys
    exactly where they are needed, and references that can match. *)
Theorem DefaultPolicy_consistent sys w w' policy :
  DefaultPolicy sys w = (w', Ret policy) →
  ∃ p, policy = Some p ∧ ∀ ref, requirementsForImageRef p ref ≠ [] ∧ Forall wf_requirement (requirementsForImageRef p ref).
Proof.
  unfold DefaultPolicy. case_decide as Hs.
  - intros (p & E & ->)%run_fmap_ret. exists p. split; [done|]. apply run_bind_ret in E as (w1 & data & _ & E).
    destruct (NewPolicyFromBytes data) as [q|] eqn:Eq; [|done]. injection E as _ <-. by eapply NewPolicyFromBytes_wf.
  - intros ([p conf] & E & ->)%run_fmap_ret. simpl.
    assert (∃ b, (b = true → ∃ q, p = Some q ∧ consistent_policy q) ∧ (true = true → b = true)) as (b & Hp & Hb); [|by apply Hp, Hb].
    apply (ConfigFileFacts.Read_found read_policy (λ p b, b = true → ∃ q, p = Some q ∧ consistent_policy q) ) in E; [done| |done].
    intros [q|] b path _; [apply ConfigFileFacts.yields_fail|]. eapply ConfigFileFacts.yields_bind; [apply ConfigFileFacts.yields_any|]. intros data _.
    destruct (NewPolicyFromBytes data) as [q|] eqn:Eq; [|apply ConfigFileFacts.yields_fail]. apply ConfigFileFacts.yields_ret. intros _. exists q.
    split; [done|]. by eapply NewPolicyFromBytes_wf.
Qed.
End Config.

(** ** Consistent requirements at work *)

Section Evaluation.
Context `{JSON} `{Digests} `{Unicode} {PK : Type} `{Crypto PK} {Src : Type}.
Implicit Types (s : State Src).

Definition sources (c : configBytesSources) : nat := count [given (path c); set_ (paths c); set_ (data c); set_ (datas c)].

Lemma read_files_error l s s' e : read_files l s = (s', Err e) → ∃ f w w', os_ReadFile f w = (w', Err e).
Proof.
  revert s. induction l as [|f l IH]; intros s; simpl; [done|]. unfold mbind, M_bind, os, zoom. simpl.
  destruct (os_ReadFile f (world s)) as [w' [d|err|c]] eqn:E; [|by intros [= _ <-]; eauto|done].
  destruct (read_files l _) as [s1 [ds|err|c]] eqn:Er; [done| |done]. intros [= <- <-]. by eapply IH.
Qed.

Ltac load_cases :=
  let E := fresh in
  intros E; injection E as <- <-; split; intros x Hx; try discriminate Hx; try (injection Hx as <-);
  cbv [count filter list_filter length decide set_ negb Nat.eqb]; simpl; first [by split; lia | intros; exfalso; lia].

(** At most one source is used; the error of a file is the only one when no
    two are given. *)
Lemma load_spec c s s' o :
  loadBytesFromConfigSources c s = (s', o) →
  (∀ d, o = Ret d → (sources c ≤ 1)%nat ∧ set_ d = Nat.eqb (sources c) 1) ∧
  (∀ e, o = Err e → (sources c ≤ 1)%nat → ∃ f w w', os_ReadFile f w = (w', Err e)).
Proof.
  unfold loadBytesFromConfigSources, sources, given. destruct c as [msg p ps d ds]. simpl.
  destruct (decide (p = "")) as [->|Hp].
  - unfold mbind, M_bind, mret, M_ret. destruct ps as [l|].
    + destruct (read_files l s) as [s1 [r|e|cr]] eqn:Er.
      * destruct d, ds; simpl; load_cases.
      * intros [= <- <-]. split; [done|]. intros x [= <-] _. by eapply read_files_error.
      * by intros [= <- <-].
    + destruct d, ds; simpl; load_cases.
  - rewrite (proj2 (String.eqb_neq p "")) by done. unfold mbind, M_bind, os, zoom. simpl.
    destruct (os_ReadFile p (world s)) as [w' [r|e|cr]] eqn:Ef.
    + unfold mret, M_ret. destruct ps as [l|].
      * destruct (read_files l _) as [s1 [rs|e|cr]] eqn:Er.
        -- destruct d, ds; simpl; load_cases.
        -- intros [= <- <-]. split; [done|]. intros x [= <-] _. by eapply read_files_error.
        -- by intros [= <- <-].
      * destruct d, ds; simpl; load_cases.
    + intros [= <- <-]. split; [done|]. intros x [= <-] _. by eauto.
    + by intros [= <- <-].
Qed.

Lemma count_cons b l : count (b :: l) = (Nat.b2n b + count l)%nat.
Proof. unfold count. rewrite filter_cons. by destruct b. Qed.

Lemma load_keys_ret b c e s s' ks : load_keys b c e s = (s', Ret ks) → (ks = [] ↔ sources c = 0%nat).
Proof.
  unfold load_keys. intros (s1 & d & El & E)%run_bind_ret. apply load_spec in El as [Hr _]. destruct (Hr d eq_refl) as [Hle Hd].
  destruct d as [l|]; simpl in Hd.
  - apply run_bind_ret in E as (s2 & ks' & _ & E). case_decide; [done|]. injection E as _ <-.
    symmetry in Hd. apply Nat.eqb_eq in Hd. rewrite Hd. done.
  - injection E as _ <-. symmetry in Hd. apply Nat.eqb_neq in Hd. split; [lia|done].
Qed.

(** A trust root for which exactly one way to find keys is set up, with the
    Rekor log where it is required and nowhere else. *)
Definition trust_root_ok (root : sigstoreSignedTrustRoot (PK := PK)) : Prop :=
  match publicKeys root, fulcio root, pki root, rekorPublicKeys root with
  | _ :: _, None, None, _ | [], Some _, None, _ :: _ | [], None, Some _, [] => True
  | _, _, _, _ => False
  end.

Lemma optional_root {A B} (o : option A) (f : A → M (State Src) B) s s' r :
  (match o with None => mret None | Some x => y ← f x; mret (Some y) end) s = (s', Ret r) → set_ r = set_ o.
Proof. destruct o as [x|]; [|by intros [= _ <-]]. by intros (s1 & y & _ & [= _ <-])%run_bind_ret. Qed.

(** A consistent sigstore requirement makes a trust root in which exactly
    one kind of key is trusted; the Rekor log is consulted exactly if the policy
    names keys for it, always with Fulcio and never with a PKI.  So none of the
    checks for an inconsistent requirement can fail during the evaluation. *)
Theorem prepareTrustRoot_consistent pr s s' root :
  wf_sigstore pr → prepareTrustRoot pr s = (s', Ret root) →
  trust_root_ok root ∧ (rekorPublicKeys root = [] ↔ rekor_sources pr = 0%nat).
Proof.
  intros [Hk Hr Hf Hp _]. unfold prepareTrustRoot. intros (s1 & keys & Ek & E)%run_bind_ret.
  apply run_bind_ret in E as (s2 & f & Ef & E). apply run_bind_ret in E as (s3 & rekor & Er & E).
  apply run_bind_ret in E as (s4 & p & Ep & [= <- <-]). apply load_keys_ret in Ek, Er. apply optional_root in Ef, Ep.
  unfold sources in Ek, Er. simpl in Ek, Er. change (count _) with (rekor_sources pr) in Er. split; [|exact Er]. unfold trust_root_ok. simpl.
  unfold key_sources in Hk. rewrite !count_cons in Hk. rewrite !count_cons in Ek. change (count []) with 0%nat in Hk, Ek.
  destruct f as [f|], (Fulcio pr) as [f0|]; try done; destruct p as [p|], (PKI pr) as [p0|]; try done;
    cbn [set_] in Hk; try change (Nat.b2n true) with 1%nat in Hk; try change (Nat.b2n false) with 0%nat in Hk.
  - lia.
  - destruct (Hf f0 eq_refl) as [_ Hr1]. destruct keys; [|exfalso; destruct Ek as [_ Ek]; discriminate Ek; lia].
    destruct rekor; [|done]. destruct Er as [Er _]. rewrite Er in Hr1 by done. done.
  - destruct (Hp p0 eq_refl) as [_ Hr0]. destruct keys; [|exfalso; destruct Ek as [_ Ek]; discriminate Ek; lia].
    apply Er in Hr0. by subst.
  - destruct keys; [|done]. destruct Ek as [Ek _]. specialize (Ek eq_refl). lia.
Qed.

(** For a consistent signedBy requirement, loading its keys fails only when
    a file cannot be read, and never yields nothing. *)
Theorem signedBy_keys_load pr s s' o :
  wf_requirement (PRSignedBy pr) →
  loadBytesFromConfigSources (mkSources notOneSourceErrorText (KeyPath pr) (KeyPaths pr) (KeyData pr) None) s = (s', o) →
  match o with Ret d => is_Some d | Err e => ∃ f w w', os_ReadFile f w = (w', Err e) | Crash _ => True end.
Proof.
  intros (_ & Hc & _) E. apply load_spec in E as [Hret Herr].
  assert (sources (mkSources notOneSourceErrorText (KeyPath pr) (KeyPaths pr) (KeyData pr) None) = 1%nat) as Hs.
  { unfold sources. simpl. rewrite !count_cons in Hc |- *. done. }
  destruct o as [d|e|c]; [|apply (Herr e); [done|lia]|done]. destruct (Hret d eq_refl) as [_ Hd]. rewrite Hs in Hd. by destruct d.
Qed.
End Evaluation.

(** ** Witnesses *)

#[local] Instance demo_registry : TransportRegistry := λ name, if decide (name = "docker") then Some (λ _, None) else None.

Lemma demo_policy_read : NewPolicyFromBytes "policy" = inl demo_policy.
Proof. vm_compute. reflexivity. Qed.
#[local] Instance demo_environment : ConfigFile.Environment := {
  LookupEnv name := if decide (name = "HOME") then Some "/root" else None;
  lookupHomeDir := inr (ErrOther "unknown user");
  systemConfigPath := ConfigFile.builtinSystemConfigPath; adminOverrideConfigPath := ConfigFile.builtinAdminOverrideConfigPath
}.
Definition demo_files : World := set_files {[ "/etc/containers/policy.json" := "policy" ]} demo_world.
Lemma demo_default_policy : DefaultPolicy None demo_files = (demo_files, Ret (Some demo_policy)).
Proof. vm_compute. reflexivity. Qed.
Lemma DefaultPolicy_consistent_witness : requirementsForImageRef demo_policy (docker_ImageReference by_tag) ≠ [].
Proof.
  destruct (DefaultPolicy_consistent None _ _ _ demo_default_policy) as (p & Ep & Hp). injection Ep as <-. exact (proj1 (Hp _)).
Defined.

Definition demo_sigstore : prSigstoreSigned :=
  mkSigstoreSigned "" None (Some "pem") None None "" None (Some "rekor") None None prmMatchRepository.
Lemma demo_sigstore_wf : wf_sigstore demo_sigstore.
Proof. by split. Qed.
Lemma demo_trust_root :
  prepareTrustRoot demo_sigstore (demo_state by_tag) =
  (fst (prepareTrustRoot demo_sigstore (demo_state by_tag)), Ret (mkTrustRoot ["pem"] None ["rekor"] None)).
Proof. vm_compute. reflexivity. Qed.
Lemma prepareTrustRoot_consistent_witness : trust_root_ok (mkTrustRoot ["pem"] None ["rekor"] None).
Proof. destruct (prepareTrustRoot_consistent _ _ _ _ demo_sigstore_wf demo_trust_root) as [HW _]. exact HW. Defined.

Lemma demo_signedBy_wf : wf_requirement (PRSignedBy demo_signedBy).
Proof. by split_and!. Qed.
Lemma signedBy_keys_load_witness : is_Some (Some ["key"]).
Proof.
  pose proof (signedBy_keys_load demo_signedBy (demo_state by_tag) (demo_state by_tag) (Ret (Some ["key"])) demo_signedBy_wf eq_refl) as HW. exact HW.
Defined.
End PolicyConfigFacts.
