(* ===== verification/SecretsBase.v ===== *)
(** * Secrets: what the manager and its drivers share

    The records of [common/pkg/secrets], its errors, the programs
    that drivers run, and the lock files they take. *)

From stdpp Require Import sorting.
From S2P Require Import Prelude World Strconv StringId StoreUtil LockFile ConfigFile.
Local Open Scope string_scope.

Module SecretsBase.
Import ConfigFile.

Definition ErrNoSuchSecret := ErrOther "no such secret".
Definition ErrSecretIDExists := ErrOther "secret data with ID already exists".
Definition ErrInvalidKey := ErrOther "invalid key".

(** ** The programs that drivers run *)

Record Cmd := mkCmd {
  c_args : list string;
  c_env : list string;            (* added to the environment *)
  c_stdin : string;
  c_userns : option (Z * Z)       (* run as this user and group *)
}.

(** What the host does with a command, and who runs the process. *)
Class Commands := {
  run_command : Cmd → M World string;        (* what it writes to its output *)
  Geteuid : Z;
  GetRootlessUID : Z;
  GetRootlessGID : Z;
  Getwd : string;
  UserHomeDir : string + error
}.

(** ** JSON *)

Record Secret := mkSecret {
  Name : string;
  ID : string;
  Labels : gomap string;
  Metadata : gomap string;
  CreatedAt : Z;
  UpdatedAt : Z;
  Driver : string;
  DriverOptions : gomap string
}.

#[global] Instance Secret_eq_dec : EqDecision Secret.
Proof. solve_decision. Defined.

(** The year 1, in nanoseconds before 1970. *)
Definition zero_time : Z := (-62135596800000000000)%Z.

Record db := mkDb {
  Secrets : gomap Secret;
  NameToID : gomap string;
  IDToName : gomap string;
  lastModified : Z
}.

Class SecretsJSON := {
  MarshalIndent_db : db → string + error;
  Unmarshal_db : string → db + error;
  MarshalIndent_data : gomap string → string + error;
  Unmarshal_data : string → gomap string + error
}.

Definition or_fail {S A} (r : A + error) : M S A := match r with inl a => mret a | inr e => fail e end.

(** ** Lock files *)

Definition on_world {A} (m : M World A) : M LockTable A := zoom fst (λ w t, (w, t.2)) m.

(** A method of the lock file with this path. *)
Definition on_lock {A} (path : string) (m : M LF A) : M LockTable A :=
  t ← gets snd;
  match t !! path with
  | None => stop (Panic "nil pointer dereference")
  | Some l => zoom (λ t : LockTable, (t.1, default l (t.2 !! path))) (λ s t, (s.1, <[path := s.2]> t.2)) m
  end.

(** [lockfile.Lock(); defer lockfile.Unlock()] *)
Definition with_lock {A} (path : string) (m : M LockTable A) : M LockTable A :=
  on_lock path Lock;; finally m (on_lock path Unlock).

(** [GetLockFile] as a pointer: the key of the table. *)
Definition get_lock (path : string) : M LockTable string :=
  GetLockFile path;; mret (filepath_Clean path).

(** [slices.Sorted], [sort.Strings]. *)
Definition sort_strings (l : list string) : list string := merge_sort String.le l.

(** [fileutils.Exists]. *)
Definition fileutils_Exists (p : string) : M World unit := os_Open p.

(** ** Text *)

(** [strings.Trim(s, cutset)] for a set of bytes. *)
Fixpoint trim_left (cutset : list ascii) (s : string) : string :=
  match s with
  | "" => ""
  | String c s' => if decide (c ∈ cutset) then trim_left cutset s' else s
  end.
Fixpoint trim_right (cutset : list ascii) (s : string) : string :=
  match s with
  | "" => ""
  | String c s' =>
      match trim_right cutset s' with
      | "" => if decide (c ∈ cutset) then "" else String c ""
      | r => String c r
      end
  end.
Definition strings_Trim (cutset : list ascii) (s : string) : string := trim_right cutset (trim_left cutset s).

Definition CR : ascii := "013"%char.
Definition LF_ : ascii := "010"%char.

(** [strings.Contains] *)
Fixpoint strings_Contains (s sub : string) : bool :=
  String.prefix sub s || match s with "" => false | String _ s => strings_Contains s sub end.
End SecretsBase.
