(* ===== verification/FileDriver.v ===== *)
(** * Secrets in a file: [common/pkg/secrets/filedriver]

    One JSON object with the data of all secrets, under a lock file. *)

From S2P Require Import Prelude World Strconv StringId StoreUtil LockFile ConfigFile SecretsBase.
Local Open Scope string_scope.

Module FileDriver.
Import ConfigFile SecretsBase.

Section FileDriver.
Context `{SecretsJSON}.

Definition secretsDataFile := "secretsdata.json".

Record Driver := mkDriver { secretsDataFilePath : string; lockfile : string }.

Definition NewDriver (rootPath : string) : M LockTable Driver :=
  on_world (os_MkdirAll rootPath);;
  lock ← get_lock (filepath_Join [rootPath; "secretsdata.lock"]);
  mret (mkDriver (filepath_Join [rootPath; secretsDataFile]) lock).

Definition getAllData (d : Driver) : M LockTable (gomap string) :=
  r ← try (on_world (fileutils_Exists (secretsDataFilePath d)));
  match r with
  | inr err => if os_IsNotExist err then mret (Some ∅) else fail err
  | inl _ =>
      on_world (os_Open (secretsDataFilePath d));;
      byteValue ← on_world (ReadAll (secretsDataFilePath d));
      or_fail (Unmarshal_data byteValue)
  end.

Definition List_ (d : Driver) : M LockTable (list string) :=
  with_lock (lockfile d) (
    secretData ← getAllData d;
    mret (sort_strings (elements (dom (default ∅ secretData))))).

Definition Lookup (d : Driver) (id : string) : M LockTable string :=
  with_lock (lockfile d) (
    secretData ← getAllData d;
    match gomap_get secretData id with Some data => mret data | None => fail ErrNoSuchSecret end).

Definition Store (d : Driver) (id data : string) : M LockTable unit :=
  with_lock (lockfile d) (
    secretData ← getAllData d;
    match gomap_get secretData id with
    | Some _ => fail ErrSecretIDExists
    | None =>
        secretData ← gomap_set secretData id data;
        marshalled ← or_fail (MarshalIndent_data secretData);
        on_world (os_WriteFile (secretsDataFilePath d) marshalled)
    end).

Definition Delete (d : Driver) (id : string) : M LockTable unit :=
  with_lock (lockfile d) (
    secretData ← getAllData d;
    match gomap_get secretData id with
    | None => fail ErrNoSuchSecret
    | Some _ =>
        let secretData := gomap_delete secretData id in
        marshalled ← or_fail (MarshalIndent_data secretData);
        on_world (os_WriteFile (secretsDataFilePath d) marshalled)
    end).
End FileDriver.
End FileDriver.
