(* ===== verification/PassDriver.v ===== *)
(** * Secrets of a password manager: [common/pkg/secrets/passdriver]

    One file per secret, encrypted with [gpg], which is a parameter. *)

From S2P Require Import Prelude World Strconv StringId StoreUtil LockFile ConfigFile SecretsBase.
Local Open Scope string_scope.

Module PassDriver.
Import ConfigFile SecretsBase.

Record driverConfig := mkDriverConfig { Root : string; KeyID : string; GPGHomedir : string; GPGProgram : string; ShowGPGStderr : bool }.

Definition set_Root (x : string) (cfg : driverConfig) : driverConfig := mkDriverConfig x (KeyID cfg) (GPGHomedir cfg) (GPGProgram cfg) (ShowGPGStderr cfg).
Definition set_KeyID (x : string) (cfg : driverConfig) : driverConfig := mkDriverConfig (Root cfg) x (GPGHomedir cfg) (GPGProgram cfg) (ShowGPGStderr cfg).
Definition set_GPGHomedir (x : string) (cfg : driverConfig) : driverConfig := mkDriverConfig (Root cfg) (KeyID cfg) x (GPGProgram cfg) (ShowGPGStderr cfg).
Definition set_GPGProgram (x : string) (cfg : driverConfig) : driverConfig := mkDriverConfig (Root cfg) (KeyID cfg) (GPGHomedir cfg) x (ShowGPGStderr cfg).
Definition set_ShowGPGStderr (x : bool) (cfg : driverConfig) : driverConfig := mkDriverConfig (Root cfg) (KeyID cfg) (GPGHomedir cfg) (GPGProgram cfg) x.

(** [os.Stat] of a path that may be a directory. *)
Definition stat_IsDir (p : string) : M World bool :=
  syscall (w ← gets id;
           if decide (p ∈ w_dirs w) then mret true
           else if decide (is_Some (w_files w !! p)) then mret false else fail (ErrOS ENOENT)).

(** [os.ReadFile], which fails on a directory. *)
Definition ReadFile (p : string) : M World string := os_Open p;; ReadAll p.

Definition key_of (bs : string) : string := strings_Trim [CR; LF_] bs.

Section PassDriver.
Context `{Commands}.

(** The loop ends when the path has no parent; [fuel] is the number of rounds. *)
Fixpoint findGpgID_from (fuel : nat) (path : string) (cfg : driverConfig) : M World driverConfig :=
  match fuel with
  | 0 => stop NoFuel
  | S fuel =>
      if decide (String.length path ≤ 1)%nat then mret cfg
      else
        r ← try (fileutils_Exists (filepath_Join [path; ".gpg-id"]));
        match r with
        | inl _ =>
            r ← try (ReadFile (filepath_Join [path; ".gpg-id"]));
            match r with
            | inr _ => findGpgID_from fuel path cfg
            | inl bs => mret (set_KeyID (key_of bs) cfg)
            end
        | inr _ => findGpgID_from fuel (filepath_Dir path) cfg
        end
  end.

Definition findGpgID (fuel : nat) (cfg : driverConfig) : M World driverConfig := findGpgID_from fuel (Root cfg) cfg.

(** The default locations, the first with a key. *)
Fixpoint default_location (paths : list string) (cfg : driverConfig) : M World driverConfig :=
  match paths with
  | [] => mret cfg
  | path :: paths =>
      r ← try (stat_IsDir path);
      match r with
      | inl true =>
          let cfg := set_Root path cfg in
          r ← try (ReadFile (filepath_Join [path; ".gpg-id"]));
          match r with
          | inr _ => default_location paths cfg
          | inl bs => mret (set_KeyID (key_of bs) cfg)
          end
      | _ => default_location paths cfg
      end
  end.

Definition defaultDriverConfig : M World driverConfig :=
  let cfg := mkDriverConfig "" "" "" "gpg" false in
  match UserHomeDir with
  | inl home => default_location [filepath_Join [home; ".password-store"]; filepath_Join [home; ".local/share/gopass/stores/root"]] cfg
  | inr _ => mret cfg
  end.

Definition ParseOpts (fuel : nat) (opts : gomap string) (cfg : driverConfig) : M World driverConfig :=
  cfg ← match gomap_get opts "root" with Some val => findGpgID fuel (set_Root val cfg) | None => mret cfg end;
  let cfg := match gomap_get opts "key" with Some val => set_KeyID val cfg | None => cfg end in
  let cfg := match gomap_get opts "gpghomedir" with Some val => set_GPGHomedir val cfg | None => cfg end in
  let cfg := match gomap_get opts "gpg_program" with Some val => set_GPGProgram val cfg | None => cfg end in
  mret (match gomap_get opts "show_stderr" with Some val => set_ShowGPGStderr (bool_decide (val = "true")) cfg | None => cfg end).

Definition NewDriver (fuel : nat) (opts : gomap string) : M World driverConfig :=
  cfg ← defaultDriverConfig; ParseOpts fuel opts cfg.

Definition rootlessUserNamespace (euid uid gid : Z) : bool + error :=
  if decide (euid ≠ 0 ∨ uid = 0)%Z then inl false
  else if decide (uid < 0 ∨ gid < 0)%Z then inr (ErrOther "invalid rootless UID/GID")
  else inl true.

Definition gpgCommandForIdentity (euid uid gid : Z) (args : list string) (stdin : string) : Cmd + error :=
  match rootlessUserNamespace euid uid gid with
  | inr e => inr e
  | inl nested => inl (mkCmd args [] stdin (if nested then Some (uid, gid) else None))
  end.

Definition gpgCommand (args : list string) (stdin : string) : Cmd + error :=
  gpgCommandForIdentity Geteuid GetRootlessUID GetRootlessGID args stdin.

Definition gpg (d : driverConfig) (stdin : string) (args : list string) : M World string :=
  let args := if decide (GPGHomedir d ≠ "") then "--homedir" :: GPGHomedir d :: args else args in
  cmd ← or_fail (gpgCommand (GPGProgram d :: args) stdin);
  run_command cmd.

(** [filepath.Abs] *)
Definition filepath_Abs (p : string) : string := if rooted p then filepath_Clean p else filepath_Join [Getwd; p].

Definition getPath (d : driverConfig) (id : string) : string + error :=
  let path := filepath_Abs (filepath_Join [Root d; id]) in
  if negb (String.prefix (Root d) path) then inr ErrInvalidKey else inl (path +:+ ".gpg").

(** [fileName[:len(fileName)-len(".gpg")]] *)
Definition without_suffix {S} (fileName : string) : M S string :=
  if decide (String.length fileName < 4)%nat then stop (Panic "slice bounds out of range")
  else mret (String.substring 0 (String.length fileName - 4) fileName).

Definition List_ (d : driverConfig) : M World (list string) :=
  files ← os_ReadDir (Root d);
  secrets ← foldM (λ acc f, n ← without_suffix f.1; mret (acc ++ [n])%list) [] files;
  mret (sort_strings secrets).

Definition Lookup (d : driverConfig) (id : string) : M World string :=
  key ← or_fail (getPath d id);
  r ← try (os_Stat key);
  match r with
  | inr err => if os_IsNotExist err then fail ErrNoSuchSecret else fail err
  | inl _ =>
      out ← gpg d "" ["--decrypt"; key];
      if decide (out = "") then fail ErrNoSuchSecret else mret out
  end.

Definition Store (d : driverConfig) (id data : string) : M World unit :=
  key ← or_fail (getPath d id);
  r ← try (os_Stat key);
  match r with
  | inl _ => fail ErrSecretIDExists
  | inr err =>
      if negb (os_IsNotExist err) then fail err
      else gpg d data ["--encrypt"; "-r"; KeyID d; "-o"; key];; mret tt
  end.

Definition Delete (d : driverConfig) (id : string) : M World unit :=
  key ← or_fail (getPath d id);
  r ← try (os_Remove key);
  match r with
  | inr err => if os_IsNotExist err then fail ErrNoSuchSecret else fail err
  | inl _ => mret tt
  end.
End PassDriver.
End PassDriver.
