(* ===== verification/ShellDriver.v ===== *)
(** * Secrets kept by commands: [common/pkg/secrets/shelldriver]

    The commands that the user configured are a parameter. *)

From S2P Require Import Prelude World Strconv StringId StoreUtil LockFile ConfigFile SecretsBase.
Local Open Scope string_scope.

Module ShellDriver.
Import ConfigFile SecretsBase.

Definition errMissingConfig := ErrOther "missing config value".

Record driverConfig := mkDriverConfig { DeleteCommand : string; ListCommand : string; LookupCommand : string; StoreCommand : string }.

Definition parse_opt (r : driverConfig + error) (kv : string * string) : driverConfig + error :=
  match r with
  | inr e => inr e
  | inl cfg =>
      let '(key, value) := kv in
      if decide (key = "delete") then inl (mkDriverConfig value (ListCommand cfg) (LookupCommand cfg) (StoreCommand cfg))
      else if decide (key = "list") then inl (mkDriverConfig (DeleteCommand cfg) value (LookupCommand cfg) (StoreCommand cfg))
      else if decide (key = "lookup") then inl (mkDriverConfig (DeleteCommand cfg) (ListCommand cfg) value (StoreCommand cfg))
      else if decide (key = "store") then inl (mkDriverConfig (DeleteCommand cfg) (ListCommand cfg) (LookupCommand cfg) value)
      else inr (ErrOther "invalid shell driver option")
  end.

Section ShellDriver.
Context `{Commands} `{MapRange}.

Definition ParseOpts (opts : gomap string) : driverConfig + error :=
  match foldl parse_opt (inl (mkDriverConfig "" "" "" "")) (range_map (default ∅ opts)) with
  | inr e => inr e
  | inl cfg =>
      if decide (DeleteCommand cfg = "" ∨ ListCommand cfg = "" ∨ LookupCommand cfg = "" ∨ StoreCommand cfg = "")
      then inr errMissingConfig else inl cfg
  end.

Definition NewDriver (opts : gomap string) : driverConfig + error := ParseOpts opts.

Definition sh (command : string) (env : list string) (stdin : string) : M World string :=
  run_command (mkCmd ["/bin/sh"; "-c"; command] env stdin None).

Definition List_ (d : driverConfig) : M World (list string) :=
  buf ← sh (ListCommand d) [] "";
  let ids := strings_Trim [" "%char; CR; LF_] <$> split_on LF_ buf in
  mret (sort_strings (filter (λ id, id ≠ "") ids)).

Definition Lookup (d : driverConfig) (id : string) : M World string :=
  if strings_Contains id ".." then fail ErrInvalidKey
  else
    r ← try (sh (LookupCommand d) ["SECRET_ID=" +:+ id] "");
    match r with inl buf => mret buf | inr _ => fail ErrNoSuchSecret end.

Definition Store (d : driverConfig) (id data : string) : M World unit :=
  if strings_Contains id ".." then fail ErrInvalidKey
  else sh (StoreCommand d) ["SECRET_ID=" +:+ id] data;; mret tt.

Definition Delete (d : driverConfig) (id : string) : M World unit :=
  if strings_Contains id ".." then fail ErrInvalidKey
  else
    r ← try (sh (DeleteCommand d) ["SECRET_ID=" +:+ id] "");
    match r with inl _ => mret tt | inr _ => fail ErrNoSuchSecret end.
End ShellDriver.
End ShellDriver.
