(* ===== verification/Secrets.v ===== *)
(** * Secrets: [common/pkg/secrets]

    A database of secrets in a JSON file, with a cache in memory that is
    checked against the modification time of the file, and the drivers that
    keep the secrets themselves: in a file, with [gpg] in the directory of a
    password manager, or by commands of the user. *)

From S2P Require Import Prelude World Strconv StringId StoreUtil LockFile ConfigFile SecretsBase FileDriver PassDriver ShellDriver.
Local Open Scope string_scope.

Module Secrets.
Import ConfigFile.
Export SecretsBase.

(** ** The manager *)

Definition maxSecretSize : Z := 512000.
Definition secretIDLength : nat := 25.
Definition errInvalidPath := ErrOther "invalid secrets path".
Definition errSecretNameInUse := ErrOther "secret name in use".
Definition errInvalidSecretName := ErrOther "invalid secret name".
Definition errInvalidDriver := ErrOther "invalid driver".
Definition errInvalidDriverOpt := ErrOther "invalid driver option".
Definition errAmbiguous := ErrOther "secret is ambiguous".
Definition errDataSize := ErrOther "secret data must be larger than 0 and less than 512000 bytes".
Definition errIgnoreIfExistsAndReplace := ErrOther "ignoreIfExists and replace cannot be used together".
Definition secretsFile := "secrets.json".

Record SecretsManager := mkSecretsManager {
  secretsDBPath : string;
  lockfile : string;
  m_db : db
}.

Definition set_db (d : db) (s : SecretsManager) : SecretsManager := mkSecretsManager (secretsDBPath s) (lockfile s) d.

Definition set_ID (id : string) (s : Secret) : Secret :=
  mkSecret (Name s) id (Labels s) (Metadata s) (CreatedAt s) (UpdatedAt s) (Driver s) (DriverOptions s).
Definition set_UpdatedAt (t : Z) (s : Secret) : Secret :=
  mkSecret (Name s) (ID s) (Labels s) (Metadata s) (CreatedAt s) t (Driver s) (DriverOptions s).

(** What a driver does, as the interface [SecretsDriver] has it. *)
Record SecretsDriver := mkSecretsDriver {
  d_List : M LockTable (list string);
  d_Lookup : string → M LockTable string;
  d_Store : string → string → M LockTable unit;
  d_Delete : string → M LockTable unit
}.

Record StoreOptions := mkStoreOptions {
  DriverOpts : gomap string;
  o_Metadata : gomap string;
  o_Labels : gomap string;
  Replace : bool;
  IgnoreIfExists : bool
}.

(** The table of lock files of the process, the world, and the manager. *)
Notation St := (LockTable * SecretsManager)%type.

Section Manager.
Context `{SecretsJSON} `{Commands} `{MapRange}.
(** Rounds of the search for an unused identifier. *)
Context (fuel : nat).

Definition on_table {A} (m : M LockTable A) : M St A := zoom fst (λ t s, (t, s.2)) m.
Definition get_db : M St db := gets (λ s, m_db s.2).
Definition put_db (d : db) : M St unit := modify (λ s, (s.1, set_db d s.2)).
Definition get_path : M St string := gets (λ s, secretsDBPath s.2).

Definition locked {A} (m : M St A) : M St A :=
  k ← gets (λ s, lockfile s.2);
  on_table (on_lock k Lock);; finally m (on_table (on_lock k Unlock)).

Definition NewManager (rootPath : string) : M LockTable SecretsManager :=
  if negb (rooted rootPath) then fail errInvalidPath
  else
    on_world (os_MkdirAll rootPath);;
    lock ← get_lock (filepath_Join [rootPath; "secrets.lock"]);
    mret (mkSecretsManager (filepath_Join [rootPath; secretsFile]) lock (mkDb (Some ∅) (Some ∅) (Some ∅) zero_time)).

(** *** secretsdb.go *)

(** [os.IsExist] *)
Definition os_IsExist (e : error) : bool := bool_decide (e = ErrOS EEXIST).

Definition loadDB : M St unit :=
  p ← get_path;
  r ← try (on_table (on_world (os_Stat p)));
  match r with
  | inr err => if negb (os_IsExist err) then mret tt else fail err
  | inl modTime =>
      d ← get_db;
      if decide (lastModified d = modTime) then mret tt
      else
        on_table (on_world (os_Open p));;
        byteValue ← on_table (on_world (ReadAll p));
        unmarshalled ← or_fail (Unmarshal_db byteValue);
        put_db (mkDb (Secrets unmarshalled) (NameToID unmarshalled) (IDToName unmarshalled) modTime)
  end.

Definition getExactNameAndID (nameOrID : string) : M St (string * string) :=
  loadDB;;
  d ← get_db;
  match gomap_get (IDToName d) nameOrID with
  | Some name => mret (name, nameOrID)
  | None =>
      match gomap_get (NameToID d) nameOrID with
      | Some id => mret (nameOrID, id)
      | None => fail ErrNoSuchSecret
      end
  end.

(** The loop over all identifiers: the one that has the prefix, if any. *)
Fixpoint find_prefix (prefix : string) (found : option (string * string)) (l : list (string * string)) : option (string * string) + error :=
  match l with
  | [] => inl found
  | (id, name) :: l =>
      if String.prefix prefix id
      then match found with Some _ => inr errAmbiguous | None => find_prefix prefix (Some (name, id)) l end
      else find_prefix prefix found l
  end.

Definition getNameAndID (nameOrID : string) : M St (string * string) :=
  r ← try (getExactNameAndID nameOrID);
  match r with
  | inl x => mret x
  | inr err =>
      if decide (err ≠ ErrNoSuchSecret) then fail err
      else if decide (secretIDLength < String.length nameOrID)%nat then fail ErrNoSuchSecret
      else
        d ← get_db;
        found ← or_fail (find_prefix nameOrID None (range_map (default ∅ (IDToName d))));
        match found with Some x => mret x | None => fail ErrNoSuchSecret end
  end.

Definition exactSecretExists (nameOrID : string) : M St bool :=
  r ← try (getExactNameAndID nameOrID);
  match r with
  | inl _ => mret true
  | inr err => if decide (err = ErrNoSuchSecret) then mret false else fail err
  end.

Definition lookupAll : M St (gomap Secret) :=
  loadDB;; d ← get_db; mret (Secrets d).

Definition lookupSecret (nameOrID : string) : M St Secret :=
  loadDB;;
  '(_, id) ← getNameAndID nameOrID;
  allSecrets ← lookupAll;
  match gomap_get allSecrets id with Some secret => mret secret | None => fail ErrNoSuchSecret end.

(** The three maps become the contents of the file. *)
Definition write_db : M St unit :=
  d ← get_db;
  marshalled ← or_fail (MarshalIndent_db d);
  p ← get_path;
  on_table (on_world (os_WriteFile p marshalled)).

Definition store_ (entry : Secret) : M St unit :=
  loadDB;;
  d ← get_db;
  m ← gomap_set (Secrets d) (ID entry) entry;
  put_db (mkDb m (NameToID d) (IDToName d) (lastModified d));;
  d ← get_db;
  m ← gomap_set (NameToID d) (Name entry) (ID entry);
  put_db (mkDb (Secrets d) m (IDToName d) (lastModified d));;
  d ← get_db;
  m ← gomap_set (IDToName d) (ID entry) (Name entry);
  put_db (mkDb (Secrets d) (NameToID d) m (lastModified d));;
  write_db.

Definition delete_ (nameOrID : string) : M St unit :=
  '(name, id) ← getNameAndID nameOrID;
  loadDB;;
  d ← get_db;
  put_db (mkDb (gomap_delete (Secrets d) id) (gomap_delete (NameToID d) name) (gomap_delete (IDToName d) id) (lastModified d));;
  write_db.

(** *** secrets.go *)

Fixpoint newID (rounds : nat) : M St string :=
  match rounds with
  | 0 => stop NoFuel
  | S rounds =>
      newID_ ← on_table (on_world (generateID fuel));
      let newID_ := String.substring 0 secretIDLength newID_ in
      r ← try (lookupSecret newID_);
      match r with
      | inr err => if decide (err = ErrNoSuchSecret) then mret newID_ else fail err
      | inl _ => newID rounds
      end
  end.

Definition validateSecretName (name : string) : option error :=
  if bool_decide (name = "" ∨ (253 < String.length name)%nat) ||
     contains_char "," name || contains_char "/" name || contains_char "=" name || contains_char "000" name
  then Some errInvalidSecretName else None.

Definition file_driver (d : FileDriver.Driver) : SecretsDriver :=
  mkSecretsDriver (FileDriver.List_ d) (FileDriver.Lookup d) (FileDriver.Store d) (FileDriver.Delete d).
Definition pass_driver (d : PassDriver.driverConfig) : SecretsDriver :=
  mkSecretsDriver (on_world (PassDriver.List_ d)) (λ id, on_world (PassDriver.Lookup d id))
    (λ id data, on_world (PassDriver.Store d id data)) (λ id, on_world (PassDriver.Delete d id)).
Definition shell_driver (d : ShellDriver.driverConfig) : SecretsDriver :=
  mkSecretsDriver (on_world (ShellDriver.List_ d)) (λ id, on_world (ShellDriver.Lookup d id))
    (λ id data, on_world (ShellDriver.Store d id data)) (λ id, on_world (ShellDriver.Delete d id)).

Definition getDriver (name : string) (opts : gomap string) : M LockTable SecretsDriver :=
  if decide (name = "file") then
    match gomap_get opts "path" with
    | Some path => d ← FileDriver.NewDriver path; mret (file_driver d)
    | None => fail errInvalidDriverOpt
    end
  else if decide (name = "pass") then d ← on_world (PassDriver.NewDriver fuel opts); mret (pass_driver d)
  else if decide (name = "shell") then d ← or_fail (ShellDriver.NewDriver opts); mret (shell_driver d)
  else fail errInvalidDriver.

(** The old secret is deleted when another one replaces it. *)
Definition drop_replaced (driver : SecretsDriver) (id : string) : M St unit :=
  r ← try (on_table (d_Delete driver id));
  match r with
  | inr err => if decide (err ≠ ErrNoSuchSecret) then fail err else mret tt
  | inl _ =>
      r ← try (delete_ id);
      match r with
      | inr err => if decide (err ≠ ErrNoSuchSecret) then fail err else mret tt
      | inl _ => mret tt
      end
  end.

(** What [Store] does with the new or old record. *)
Definition store_secret (secr : Secret) (data driverType : string) (options : StoreOptions) : M St string :=
  let metadata := gomap_ensure (o_Metadata options) in
  let labels := gomap_ensure (o_Labels options) in
  let driverOpts := gomap_ensure (DriverOpts options) in
  let secr := mkSecret (Name secr) (ID secr) labels metadata (CreatedAt secr) (UpdatedAt secr) driverType driverOpts in
  driver ← on_table (getDriver driverType driverOpts);
  (if Replace options then drop_replaced driver (ID secr) else mret tt);;
  id ← newID fuel;
  let secr := set_ID id secr in
  on_table (d_Store driver id data);;
  store_ secr;;
  mret id.

Definition Store (name data driverType : string) (options : StoreOptions) : M St string :=
  match validateSecretName name with
  | Some err => fail err
  | None =>
      if decide (data = "" ∨ maxSecretSize ≤ Z.of_nat (String.length data))%Z then fail errDataSize
      else if IgnoreIfExists options && Replace options then fail errIgnoreIfExistsAndReplace
      else locked (
        exist ← exactSecretExists name;
        if (exist : bool) then
          if negb (Replace options) && negb (IgnoreIfExists options) then fail errSecretNameInUse
          else
            secr ← lookupSecret name;
            if IgnoreIfExists options then mret (ID secr)
            else
              now ← on_table (on_world time_Now);
              store_secret (set_UpdatedAt now secr) data driverType options
        else
          now ← on_table (on_world time_Now);
          store_secret (mkSecret name "" None None now now "" None) data driverType options)
  end.

Definition Delete (nameOrID : string) : M St string :=
  locked (
    secret ← lookupSecret nameOrID;
    driver ← on_table (getDriver (Driver secret) (DriverOptions secret));
    on_table (d_Delete driver (ID secret));;
    delete_ (ID secret);;
    mret (ID secret)).

Definition Lookup (nameOrID : string) : M St Secret := locked (lookupSecret nameOrID).

Definition List_ : M St (list Secret) :=
  locked (secrets ← lookupAll; mret ((range_map (default ∅ secrets)).*2)).

Definition LookupSecretData (nameOrID : string) : M St (Secret * string) :=
  locked (
    secret ← lookupSecret nameOrID;
    driver ← on_table (getDriver (Driver secret) (DriverOptions secret));
    data ← on_table (d_Lookup driver (ID secret));
    mret (secret, data)).
End Manager.
End Secrets.
