(* ===== verification/SecretsFacts.v ===== *)
(** * Theorems about secrets

    The database and its cache stay consistent, whatever writes fail half way;
    a secret that was stored is found; and what goes wrong when the file cannot
    be examined or the driver of a secret changes. *)

From S2P Require Import Prelude World Paths Strconv StringId StoreUtil LockFile Json Codec ConfigFile SecretsBase FileDriver PassDriver ShellDriver Secrets.
Local Open Scope string_scope.

Module SecretsFacts.
Import ConfigFile Secrets.Secrets.

(** ** Consistent databases *)

(** Every record is filed under its identifier, both maps of identifiers have
    the same keys, and a name leads to a record of that name. *)
Record consistent (S : gmap string Secret) (N I : gmap string string) : Prop := {
  con_record id s : S !! id = Some s → ID s = id ∧ I !! id = Some (Name s);
  con_id id n : I !! id = Some n → is_Some (S !! id);
  con_name n id : N !! n = Some id → I !! id = Some n
}.

Lemma consistent_empty : consistent ∅ ∅ ∅.
Proof. by split; intros; rewrite lookup_empty in *. Qed.

Lemma consistent_insert S N I s :
  consistent S N I → I !! ID s = None → consistent (<[ID s := s]> S) (<[Name s := ID s]> N) (<[ID s := Name s]> I).
Proof.
  intros [H1 H2 H3] Hf. split.
  - intros id s' [[<- <-]|[Hn E]]%lookup_insert_Some; [by rewrite lookup_insert_eq|].
    destruct (H1 _ _ E) as [? ?]. by rewrite lookup_insert_ne.
  - intros id n [[<- <-]|[Hn E]]%lookup_insert_Some; [by rewrite lookup_insert_eq|]. rewrite lookup_insert_ne by done. by eapply H2.
  - intros n id [[<- <-]|[Hn E]]%lookup_insert_Some; [by rewrite lookup_insert_eq|]. apply H3 in E.
    rewrite lookup_insert_ne; [done|]. intros <-. by rewrite Hf in E.
Qed.

Lemma consistent_delete S N I id name :
  consistent S N I → I !! id = Some name → consistent (delete id S) (delete name N) (delete id I).
Proof.
  intros [H1 H2 H3] Hi. split.
  - intros id' s [Hn E]%lookup_delete_Some. destruct (H1 _ _ E) as [? ?]. by rewrite lookup_delete_ne.
  - intros id' n [Hn E]%lookup_delete_Some. rewrite lookup_delete_ne by done. by eapply H2.
  - intros n id' [Hn E]%lookup_delete_Some. apply H3 in E. rewrite lookup_delete_ne; [done|]. intros <-. congruence.
Qed.

(** Text that JSON can carry. *)
Definition map_text (m : gomap string) : Prop := gomap_all (λ k v, utf8 k && utf8 v) m = true.
Definition secret_text (s : Secret) : Prop :=
  utf8 (Name s) = true ∧ utf8 (ID s) = true ∧ map_text (Labels s) ∧ map_text (Metadata s) ∧ utf8 (Driver s) = true ∧ map_text (DriverOptions s).

(** The maps are there, consistent, and can be written. *)
Definition good (d : db) : Prop :=
  ∃ S N I, Secrets d = Some S ∧ NameToID d = Some N ∧ IDToName d = Some I ∧ consistent S N I ∧ map_Forall (λ _ s, secret_text s) S.

(** What is read back: empty maps are omitted. *)
Definition json_secret (s : Secret) : Secret :=
  mkSecret (Name s) (ID s) (copyMapPreferringNil (Labels s)) (copyMapPreferringNil (Metadata s)) (CreatedAt s) (UpdatedAt s) (Driver s) (DriverOptions s).
Definition json_db (d : db) : db := mkDb (option_map (fmap json_secret) (Secrets d)) (NameToID d) (IDToName d) zero_time.

Lemma good_json d : good d → good (json_db d).
Proof.
  intros (S & N & I & ES & EN & EI & [H1 H2 H3] & Ht). exists (json_secret <$> S), N, I. unfold json_db. simpl. rewrite ES. split_and!; [done..| |].
  - split; [|intros id n E; rewrite lookup_fmap, fmap_is_Some; by eapply H2|done].
    intros id s. rewrite lookup_fmap. intros (s0 & E & ->)%fmap_Some. by apply (H1 _ _ E).
  - intros id s. rewrite lookup_fmap. intros (s0 & E & ->)%fmap_Some. destruct (Ht _ _ E) as (? & ? & Hl & Hm & ? & ?).
    assert (∀ m : gomap string, map_text m → map_text (copyMapPreferringNil m)) as Hc.
    { intros m Hm'. unfold copyMapPreferringNil. by case_decide. }
    split_and!; simpl; auto.
Qed.

(** The laws of [encoding/json]: text is read back, and the beginning of an
    object is not an object. *)
Class SecretsJSONLaw `{SecretsJSON} := {
  db_roundtrip d data : good d → MarshalIndent_db d = inl data → Unmarshal_db data = inl (json_db d);
  db_cut d data n : MarshalIndent_db d = inl data → (n < String.length data)%nat → ∃ e, Unmarshal_db (String.substring 0 n data) = inr e;
  db_error data e : Unmarshal_db data = inr e → e ≠ ErrNoSuchSecret;
  data_roundtrip m data : gomap_all (λ k _, utf8 k) m = true → MarshalIndent_data m = inl data → Unmarshal_data data = inl m
}.

(** ** Prefixes of identifiers *)

(** The loop finds the only identifier with the prefix, in whatever order the
    map is visited. *)
Lemma find_prefix_spec p found l :
  find_prefix p found l =
  match (λ x, (x.2, x.1)) <$> filter (λ x : string * string, String.prefix p x.1 = true) l, found with
  | [], _ => inl found
  | [x], None => inl (Some x)
  | _, _ => inr errAmbiguous
  end.
Proof.
  revert found. induction l as [|[id name] l IH]; intros found; [done|]. cbn [find_prefix]. rewrite filter_cons. simpl.
  destruct (String.prefix p id) eqn:E.
  - rewrite decide_True by done. destruct found; [by destruct (filter _ l)|]. rewrite IH. by destruct (filter _ l) as [|x []].
  - rewrite decide_False by done. apply IH.
Qed.

Lemma find_prefix_found p l n i : find_prefix p None l = inl (Some (n, i)) → (i, n) ∈ l ∧ String.prefix p i = true.
Proof.
  rewrite find_prefix_spec. destruct (filter _ l) as [|[i' n'] [|]] eqn:E; simpl; try done. intros [= <- <-].
  assert ((i', n') ∈ filter (λ x : string * string, String.prefix p x.1 = true) l) as [? ?]%list_elem_of_filter by (rewrite E; by left). done.
Qed.

(** ** Runs that leave a file alone *)

(** Calls may be interrupted or killed, but none of them is refused. *)
Definition steady (w : World) : Prop := Forall (λ f, match f with FailWith _ => False | _ => True end) (w_faults w).

(** The file [p] and its time stay, the random source too, and no faults are
    added. *)
Definition apart (p : string) (w w' : World) : Prop :=
  w_files w' !! p = w_files w !! p ∧ m_mtimes (w_meta w') !! p = m_mtimes (w_meta w) !! p ∧ w_rand w' = w_rand w ∧
  (steady w → steady w') ∧ (w_faults w = [] → w_faults w' = []).

#[export] Instance apart_preorder p : PreOrder (apart p).
Proof. split; [by intros w; split_and!|]. intros w1 w2 w3 (? & ? & ? & ? & ?) (? & ? & ? & ? & ?). split_and!; [congruence..|auto|auto]. Qed.

Section Apart.
Context (p : string).

Lemma apart_set_faults w l : (steady w → steady (set_faults l w)) → (w_faults w = [] → l = []) → apart p w (set_faults l w).
Proof. done. Qed.

Lemma apart_pop : moves (apart p) pop_fault.
Proof.
  intros w. unfold pop_fault. destruct (w_faults w) as [|f l] eqn:E; [done|].
  assert (steady w → steady (set_faults l w)) as Hs by (unfold steady; simpl; rewrite E; by intros [_ ?]%Forall_cons).
  destruct f; apply apart_set_faults; congruence || done.
Qed.
#[local] Hint Resolve apart_pop : moves.

Lemma apart_syscall {A} (m : M World A) : moves (apart p) m → moves (apart p) (syscall m).
Proof. intros Hm. unfold syscall. moves_steps. Qed.

Lemma apart_put_file b q data : q ≠ p → moves (apart p) (modify (put_file b q data)).
Proof. intros Hq w. split_and!; simpl; [by rewrite lookup_insert_ne..|done|done|done]. Qed.

Lemma apart_MkdirAll q : moves (apart p) (os_MkdirAll q).
Proof. apply apart_syscall. by intros w. Qed.
Lemma apart_Open q : moves (apart p) (os_Open q).
Proof. apply apart_syscall. moves_steps. Qed.
Lemma apart_ReadAll q : moves (apart p) (ReadAll q).
Proof. apply apart_syscall. moves_steps. Qed.
Lemma apart_Stat q : moves (apart p) (os_Stat q).
Proof. apply apart_syscall. moves_steps. Qed.
Lemma apart_ReadDir q : moves (apart p) (os_ReadDir q).
Proof. apply apart_syscall. moves_steps. Qed.
Lemma apart_stat_IsDir q : moves (apart p) (PassDriver.stat_IsDir q).
Proof. apply apart_syscall. moves_steps. Qed.
Lemma apart_time_Now : moves (apart p) time_Now.
Proof. intros w. unfold time_Now. by destruct (w_clock w). Qed.
Lemma apart_generateID n : moves (apart p) (generateID n).
Proof. induction n as [|n IH]; cbn [generateID]; moves_steps. by intros w. Qed.

Lemma apart_WriteFile q data : q ≠ p → moves (apart p) (os_WriteFile q data).
Proof. intros Hq. unfold os_WriteFile. moves_steps; by apply apart_put_file. Qed.

Lemma apart_Remove q : q ≠ p → moves (apart p) (os_Remove q).
Proof.
  intros Hq. apply apart_syscall. moves_steps; intros w; [|done]. split_and!; simpl; [by rewrite lookup_delete_ne|done..].
Qed.

Lemma apart_OpenLock q : q ≠ p → moves (apart p) (OpenLock q).
Proof.
  intros Hq. apply apart_syscall. moves_steps. intros w. simpl. destruct (w_files w !! q); [done|].
  split_and!; simpl; [by rewrite lookup_insert_ne|done..].
Qed.

Lemma apart_openLock q : q ≠ p → moves (apart p) (openLock q).
Proof.
  intros Hq w. unfold openLock. generalize (S (S (length (w_faults w)))). intros n. revert w. change (moves (apart p) (openLock_from n q)).
  pose proof (apart_OpenLock q Hq). pose proof (apart_MkdirAll (filepath_Dir q)).
  induction n as [|n IH]; cbn [openLock_from]; moves_steps.
Qed.

Lemma apart_LockFileHandle : moves (apart p) LockFileHandle.
Proof.
  intros w. unfold LockFileHandle. destruct (lockHandle_retry (w_faults w)) as [l b] eqn:E.
  apply apart_set_faults; [|intros Hw; rewrite Hw in E; by injection E as <- <-]. unfold steady. simpl. revert E. generalize (w_faults w). induction l0 as [|f l0 IH]; simpl; [by intros [= <- <-]|].
  intros E [Hf Hl]%Forall_cons. destruct f; try done; by injection E as <- <-.
Qed.
End Apart.
#[export] Hint Resolve apart_pop apart_MkdirAll apart_Open apart_ReadAll apart_Stat apart_ReadDir apart_stat_IsDir apart_time_Now apart_generateID
  apart_WriteFile apart_Remove apart_openLock apart_LockFileHandle : moves.

(** ** File names *)

Lemma split_slash_ne s : split_slash s ≠ [].
Proof. destruct s as [|c s]; [done|]. simpl. destruct (Ascii.eqb c slash); [done|]. by destruct (split_slash s). Qed.

Lemma split_slash_slash s t : split_slash (s +:+ "/" +:+ t) = (split_slash s ++ split_slash t)%list.
Proof.
  induction s as [|c s IH]; [done|]. rewrite string_app_cons. simpl. rewrite IH.
  pose proof (split_slash_ne s). destruct (split_slash s) as [|x l]; [done|]. by destruct (Ascii.eqb c slash).
Qed.

Lemma split_slash_one s y : split_slash s = [y] → s = y.
Proof.
  revert y. induction s as [|c s IH]; intros y; simpl; [by intros [= <-]|]. pose proof (split_slash_ne s).
  destruct (split_slash s) as [|z [|]] eqn:E; [done| |]; destruct (Ascii.eqb c slash); try done. intros [= <-]. f_equal. by apply IH.
Qed.

(** The last element of a path. *)
Definition base (s : string) : option string := last (split_slash s).

Lemma base_app s e : has_slash e = false → base (s +:+ "/" +:+ e) = Some e.
Proof. intros He. unfold base. rewrite split_slash_slash, (split_slash_plain e He). apply last_snoc. Qed.

Lemma base_suffix s e : base s = Some e → ∃ pre, s = pre +:+ e.
Proof.
  revert e. induction s as [|c s IH]; intros e; unfold base; simpl; [intros [= <-]; by exists ""|].
  pose proof (split_slash_ne s) as Hne. unfold base in IH. destruct (split_slash s) as [|x l] eqn:E; [done|].
  assert (∀ e, last (x :: l) = Some e → ∃ pre, String c s = pre +:+ e) as Hs.
  { intros e' Hl. destruct (IH _ Hl) as [pre ->]. by exists (String c pre). }
  destruct (Ascii.eqb c slash); [intros Hl; by apply Hs|].
  destruct l as [|y l]; [|intros Hl; by apply Hs]. intros [= <-]. exists "". by rewrite (split_slash_one s x E).
Qed.

Lemma base_Clean s e : plain e = true → base s = Some e → base (filepath_Clean s) = Some e.
Proof.
  intros Hp Hb. apply plain_spec in Hp as (Hs & H1 & H2 & H3). unfold base in Hb. apply last_Some in Hb as [l Hl].
  assert (∃ acc, rev (foldl (clean_step (rooted s)) [] (split_slash s)) = (acc ++ [e])%list) as [acc Ea].
  { rewrite Hl, foldl_app. cbn [foldl]. unfold clean_step at 1. rewrite !decide_False by tauto. cbn [rev]. by eexists. }
  unfold filepath_Clean. rewrite Ea. rewrite (decide_False (P := (acc ++ [e])%list = [])) by (by intros []%app_eq_nil).
  assert (∀ l, String.concat "/" (l ++ [e]) = e ∨ ∃ pre, String.concat "/" (l ++ [e]) = pre +:+ "/" +:+ e) as Hc.
  { clear. induction l as [|x l IH]; [by left|right]. rewrite <- app_comm_cons, concat_cons by (by destruct l). destruct IH as [-> | [pre ->]]; [by exists x|].
    exists (x +:+ "/" +:+ pre). by rewrite !string_app_assoc. }
  destruct (Hc acc) as [-> | [pre ->]]; destruct (rooted s).
  - by apply (base_app "").
  - unfold base. by rewrite split_slash_plain.
  - change ("/" +:+ pre +:+ "/" +:+ e) with (("/" +:+ pre) +:+ "/" +:+ e). by apply base_app.
  - by apply base_app.
Qed.

Lemma base_Join d e : plain e = true → base (filepath_Join [d; e]) = Some e.
Proof.
  intros Hp. pose proof Hp as (Hs & H1 & H2 & H3)%plain_spec. cbn [filepath_Join]. rewrite (decide_False (P := e = "")) by done. destruct (decide (d = "")) as [->|Hd].
  - apply base_Clean; [done|]. unfold base. simpl. by rewrite split_slash_plain.
  - apply base_Clean; [done|]. cbn [String.concat]. by apply base_app.
Qed.

Lemma base_ne p q e e' : base p = Some e → base q = Some e' → e ≠ e' → q ≠ p.
Proof. intros Hp Hq Hn ->. congruence. Qed.

Lemma base_key d e : plain e = true → base (filepath_Clean (filepath_Join [d; e])) = Some e.
Proof. intros He. apply base_Clean; [done|]. by apply base_Join. Qed.

Lemma key_ne p e d e' : base p = Some e → plain e' = true → e ≠ e' → filepath_Clean (filepath_Join [d; e']) ≠ p.
Proof. intros Hp Hpl. apply base_ne; [done|]. by apply base_key. Qed.

(** ** Locks and drivers leave the database alone *)

Section Frames.
Context `{SecretsJSON} `{Commands} `{MapRange}.
Context (p : string) (Hp : base p = Some secretsFile).

(** The lock files are at their keys, and none of them is the database. *)
Definition own_locks (t : LockTable) : Prop := map_Forall (λ k l, file l = k ∧ k ≠ p) t.2.

Definition apart_table (t t' : LockTable) : Prop := own_locks t → apart p t.1 t'.1 ∧ own_locks t'.
Definition apart_lock (s s' : LF) : Prop := file s.2 ≠ p → apart p s.1 s'.1 ∧ file s'.2 = file s.2.

#[local] Instance apart_table_preorder : PreOrder apart_table.
Proof. split; [by intros [w t]|]. intros t1 t2 t3 H1' H2' Ho. destruct (H1' Ho) as [? Ho2]. destruct (H2' Ho2) as [? ?]. split; [by etrans|done]. Qed.
#[local] Instance apart_lock_preorder : PreOrder apart_lock.
Proof.
  split; [by intros s|]. intros s1 s2 s3 H1' H2' Hf. destruct (H1' Hf) as [? E]. rewrite <- E in Hf. destruct (H2' Hf) as [? ?]. split; [by etrans|congruence].
Qed.

Lemma apart_onWorld {A} (m : M World A) : moves (apart p) m → moves apart_lock (onWorld m).
Proof. intros Hm [w l] Hf. unfold onWorld, zoom. simpl. specialize (Hm w). by destruct (m w). Qed.
Lemma apart_modL f : (∀ l, file (f l) = file l) → moves apart_lock (modL f).
Proof. intros Hf [w l] _. simpl. by split. Qed.
Lemma apart_file {A} (k : string → M LF A) : (∀ f, f ≠ p → moves apart_lock (k f)) → moves apart_lock (getL file ≫= k).
Proof. intros Hk s Hf. by apply (Hk (file s.2) Hf s). Qed.

Lemma apart_getL {A} (f : LockFile → A) : moves apart_lock (getL f).
Proof. unfold getL. moves_steps. Qed.
#[local] Hint Resolve apart_getL : moves.

Lemma apart_lock_finish t : moves apart_lock (lock_finish t).
Proof.
  unfold lock_finish. apply moves_bind; [apply _|apply apart_getL|]. intros c. apply moves_bind; [apply _| |intros _; by apply apart_modL].
  case_decide; [|apply moves_ret; apply _]. apply apart_file. intros f Hf.
  pose proof (apart_onWorld _ (apart_openLock p f Hf)). pose proof (apart_onWorld _ (apart_LockFileHandle p)).
  moves_steps; by apply apart_modL.
Qed.
#[local] Hint Resolve apart_lock_finish : moves.

Lemma apart_Lock : moves apart_lock Lock.
Proof. unfold Lock, lock, lock_begin. moves_steps; by apply apart_modL. Qed.
Lemma apart_Unlock : moves apart_lock Unlock.
Proof. unfold Unlock. moves_steps; by apply apart_modL. Qed.

Lemma apart_on_lock {A} k (m : M LF A) : moves apart_lock m → moves apart_table (on_lock k m).
Proof.
  intros Hm [w t] Ho. unfold on_lock, gets, mbind, M_bind. simpl. destruct (t !! k) as [l|] eqn:E; [|done].
  destruct (Ho _ _ E) as [Hk Hn]. unfold zoom. simpl. rewrite E. simpl. specialize (Hm (w, l)). destruct (m (w, l)) as [[w' l'] o]. simpl in *.
  destruct Hm as [Ha Hf]; [by simpl; congruence|]. split; [done|]. simpl in *. apply map_Forall_insert_2; [split; congruence|done].
Qed.

Lemma apart_on_world {A} (m : M World A) : moves (apart p) m → moves apart_table (on_world m).
Proof. intros Hm [w t] Ho. unfold on_world, zoom. simpl. specialize (Hm w). by destruct (m w). Qed.

Lemma apart_with_lock {A} k (m : M LockTable A) : moves apart_table m → moves apart_table (with_lock k m).
Proof. intros Hm. unfold with_lock. moves_steps; apply apart_on_lock; [apply apart_Lock|apply apart_Unlock]. Qed.

Lemma apart_newLastWrite : moves (apart p) newLastWrite.
Proof. intros w. by rewrite newLastWrite_run. Qed.

Lemma createLockFile_file q r w l : (createLockFileForPath q r w).2 = Ret l → file l = q.
Proof.
  unfold createLockFileForPath, mbind, M_bind. destruct (openLock q w) as [w1 [[]|e|c]]; [|done..]. rewrite newLastWrite_run. by intros [= <-].
Qed.

Lemma apart_get_lock q : filepath_Clean q ≠ p → moves apart_table (get_lock q).
Proof.
  intros Hn.
  assert (moves (apart p) (createLockFileForPath (filepath_Clean q) false)) as Hcr.
  { unfold createLockFileForPath. pose proof apart_newLastWrite. moves_steps. }
  intros [w t] Ho. unfold get_lock, GetLockFile, getLockfile, gets, mbind, M_bind. simpl. destruct (t !! filepath_Clean q) as [l|] eqn:E.
  { by destruct (negb (IsReadWrite l)). }
  unfold zoom. simpl. pose proof (createLockFile_file (filepath_Clean q) false w) as Hfile. specialize (Hcr w).
  destruct (createLockFileForPath (filepath_Clean q) false w) as [w' [l|err|c]]; simpl in *; [|done..]. split; [done|].
  apply map_Forall_insert_2; [|done]. by rewrite (Hfile l).
Qed.

(** The commands of the user do not write the database. *)
Hypothesis commands_apart : ∀ c, moves (apart p) (run_command c).

Definition quiet (d : SecretsDriver) : Prop :=
  (∀ id, moves apart_table (d_Lookup d id)) ∧ (∀ id data, moves apart_table (d_Store d id data)) ∧ (∀ id, moves apart_table (d_Delete d id)).

Lemma apart_or_fail {S A} (R : relation S) `{!PreOrder R} (r : A + error) : moves R (or_fail r).
Proof. unfold or_fail. moves_steps. Qed.
Lemma apart_gomap_set {S V} (R : relation S) `{!PreOrder R} (m : gomap V) k v : moves R (gomap_set m k v).
Proof. unfold gomap_set. moves_steps. Qed.
#[local] Hint Resolve apart_on_world apart_with_lock commands_apart : moves.
#[local] Hint Extern 1 (moves _ (or_fail _)) => apply apart_or_fail; apply _ : moves.
#[local] Hint Extern 1 (moves _ (gomap_set _ _ _)) => apply apart_gomap_set; apply _ : moves.

Lemma apart_getAllData d : moves apart_table (FileDriver.getAllData d).
Proof. unfold FileDriver.getAllData, fileutils_Exists. moves_steps. Qed.
#[local] Hint Resolve apart_getAllData : moves.

Definition secretsDataFile_ok (d : FileDriver.Driver) : Prop := FileDriver.secretsDataFilePath d ≠ p.

Lemma quiet_file d : secretsDataFile_ok d → quiet (file_driver d).
Proof.
  intros Hd. pose proof (λ data, apart_on_world _ (apart_WriteFile p (FileDriver.secretsDataFilePath d) data Hd)).
  split_and!; intros; simpl; apply apart_with_lock; moves_steps.
Qed.

Lemma quiet_shell d : quiet (shell_driver d).
Proof.
  split_and!; intros; simpl; apply apart_on_world; unfold ShellDriver.Lookup, ShellDriver.Store, ShellDriver.Delete, ShellDriver.sh; moves_steps.
Qed.

Lemma moves_or_fail {S A B} (R : relation S) `{!PreOrder R} (r : A + error) (k : A → M S B) :
  (∀ a, r = inl a → moves R (k a)) → moves R (or_fail r ≫= k).
Proof. intros Hk. destruct r as [a|e]; [by apply (Hk a)|by intros s]. Qed.

Lemma getPath_ne d id key : PassDriver.getPath d id = inl key → key ≠ p.
Proof.
  unfold PassDriver.getPath. generalize (PassDriver.filepath_Abs (filepath_Join [PassDriver.Root d; id])). intros x.
  destruct (negb _); [done|]. intros [= <-]. destruct (base_suffix _ _ Hp) as [pre ->]. intros E.
  assert (∀ a b, last (String.list_ascii_of_string (a +:+ String b "")) = Some b) as Hl.
  { clear. induction a as [|c a IH]; intros b; [done|]. rewrite string_app_cons. simpl. specialize (IH b).
    by destruct (String.list_ascii_of_string (a +:+ String b "")). }
  pose proof (Hl (x +:+ ".gp") "g"%char) as H1'. pose proof (Hl (pre +:+ "secrets.jso") "n"%char) as H2'.
  rewrite string_app_assoc in H1', H2'. change (".gp" +:+ "g") with ".gpg" in H1'. change ("secrets.jso" +:+ "n") with secretsFile in H2'.
  rewrite E, H2' in H1'. discriminate.
Qed.

Lemma quiet_pass d : quiet (pass_driver d).
Proof.
  assert (∀ i a, moves (apart p) (PassDriver.gpg d i a)) as Hg.
  { intros i a. unfold PassDriver.gpg. moves_steps. }
  split_and!; intros; simpl; apply apart_on_world; unfold PassDriver.Lookup, PassDriver.Store, PassDriver.Delete;
    (apply moves_or_fail; [apply _|]); intros key Hk%getPath_ne; moves_steps.
Qed.

Lemma apart_pass_NewDriver fuel opts : moves (apart p) (PassDriver.NewDriver fuel opts).
Proof.
  assert (∀ q, moves (apart p) (PassDriver.ReadFile q)) as Hr by (intros q; unfold PassDriver.ReadFile; moves_steps).
  assert (∀ n path cfg, moves (apart p) (PassDriver.findGpgID_from n path cfg)) as Hf.
  { induction n as [|n IH]; intros path cfg; cbn [PassDriver.findGpgID_from]; unfold fileutils_Exists; moves_steps. }
  assert (∀ l cfg, moves (apart p) (PassDriver.default_location l cfg)) as Hd.
  { induction l as [|q l IH]; intros cfg; cbn [PassDriver.default_location]; moves_steps. }
  unfold PassDriver.NewDriver, PassDriver.defaultDriverConfig, PassDriver.ParseOpts, PassDriver.findGpgID. moves_steps.
Qed.
#[local] Hint Resolve apart_pass_NewDriver : moves.

(** Whatever driver a secret has, its methods leave the database alone. *)
Lemma getDriver_quiet fuel name opts t :
  own_locks t → apart p t.1 (getDriver fuel name opts t).1.1 ∧ own_locks (getDriver fuel name opts t).1 ∧
  ∀ d, (getDriver fuel name opts t).2 = Ret d → quiet d.
Proof.
  intros Ho. assert (∀ q, moves apart_table (FileDriver.NewDriver q)) as Hn.
  { intros q. unfold FileDriver.NewDriver. moves_steps. apply apart_get_lock. by eapply key_ne. }
  assert (moves apart_table (getDriver fuel name opts)) as Hm by (unfold getDriver; moves_steps).
  destruct (Hm t Ho) as [Ha Ho']. split_and!; [done..|]. intros d. unfold getDriver.
  destruct (decide (name = "file")).
  - destruct (gomap_get opts "path") as [q|]; [|done]. unfold FileDriver.NewDriver, mbind, M_bind. destruct (on_world _ t) as [t1 [[]|err|c]]; [|done..].
    destruct (get_lock _ t1) as [t2 [l|err|c]]; [|done..]. intros [= <-]. apply quiet_file. unfold secretsDataFile_ok.
    eapply base_ne; [done|by apply (base_Join q FileDriver.secretsDataFile)|done].
  - destruct (decide (name = "pass")); [|destruct (decide (name = "shell")); [|done]]; unfold mbind, M_bind.
    + destruct (on_world _ t) as [t1 [cfg|err|c]]; [|done..]. intros [= <-]. apply quiet_pass.
    + unfold or_fail. destruct (ShellDriver.NewDriver opts); [|done]. intros [= <-]. apply quiet_shell.
Qed.
End Frames.

(** ** Identifiers are text *)

Lemma rune_size_ascii c s : (byteN c < 128)%nat → rune_size (String c s) = 1%nat.
Proof.
  intros Hc. assert (∀ lo hi, (128 ≤ lo)%nat → in_range lo hi (byteN c) = false) as Hr.
  { intros lo hi Hlo. unfold in_range. apply andb_false_intro1, Nat.leb_gt. lia. }
  cbn [rune_size]. cbv zeta. destruct s; [done|]. by rewrite !Hr by lia.
Qed.

Lemma hex_utf8 s : all_hex s = true → utf8 s = true.
Proof.
  unfold utf8. induction s as [|c s IH]; [done|]. intros [Hc Hs]%andb_prop.
  assert (byteN c < 128)%nat as Hb.
  { unfold hex_char in Hc. fold (byteN c) in Hc. apply orb_prop in Hc as [[_ ?%Nat.leb_le]%andb_prop|[_ ?%Nat.leb_le]%andb_prop]; lia. }
  cbn [String.length utf8_from]. rewrite (rune_size_ascii c s Hb). cbn [string_drop]. rewrite IH by done.
  apply Nat.ltb_lt in Hb. by rewrite Hb.
Qed.

Lemma substring_hex n s : all_hex s = true → all_hex (String.substring 0 n s) = true.
Proof. revert n. induction s as [|c s IH]; intros [|n]; try done. intros [Hc Hs]%andb_prop. simpl. by rewrite Hc, IH. Qed.

Lemma generated_utf8 n k w w' id : generateID n w = (w', Ret id) → utf8 (String.substring 0 k id) = true.
Proof.
  intros [Hv _]%generateID_valid. apply hex_utf8, substring_hex. unfold ValidateID in Hv. destruct (_ && all_hex id) eqn:E; [|done]. by apply andb_prop in E as [_ ?].
Qed.

(** ** The invariant of the manager *)

Section Invariant.
Context `{SecretsJSON} `{!SecretsJSONLaw} `{Commands} `{MapRange} `{!MapRangeSpec} (fuel : nat).
Context (p : string) (Hp : base p = Some secretsFile) (commands_apart : ∀ c, moves (apart p) (run_command c)).

(** The database in memory is good, and so is the one in the file, if there is
    one that can be read at all. *)
Record inv (s : St) : Prop := {
  inv_path : secretsDBPath s.2 = p;
  inv_locks : own_locks p s.1;
  inv_steady : steady s.1.1;
  inv_db : good (m_db s.2);
  inv_file data d : w_files s.1.1 !! p = Some data → Unmarshal_db data = inl d → good d
}.

(** The cache is as new as the file. *)
Definition synced (s : St) : Prop :=
  is_Some (w_files s.1.1 !! p) → lastModified (m_db s.2) = default 0%Z (m_mtimes (w_meta s.1.1) !! p).

Lemma inv_table s t : inv s → apart p s.1.1 t.1 → own_locks p t → inv (t, s.2) ∧ (synced s → synced (t, s.2)).
Proof.
  intros [? ? ? ? Hf] (Ef & Em & _ & Hs & _) Ho. split; [split; simpl; auto|].
  - intros data d. rewrite Ef. apply Hf.
  - unfold synced. simpl. by rewrite Ef, Em.
Qed.

Lemma wp_table {A} (m : M LockTable A) Φ s :
  moves (apart_table p) m → inv s → (∀ o t, inv (t, s.2) → (synced s → synced (t, s.2)) → Φ o (t, s.2)) → wp (on_table m) Φ s.
Proof.
  intros Hm Hi HΦ. unfold on_table. apply wp_zoom. unfold wp. destruct (Hm s.1 (inv_locks _ Hi)) as [Ha Ho]. destruct (inv_table s (m s.1).1 Hi Ha Ho).
  destruct (m s.1) as [t o]. by apply HΦ.
Qed.

Lemma wp_syscall_steady {A} (m : M World A) Φ w :
  steady w → (∀ l, steady (set_faults l w) → Φ (Crash Killed) (set_faults l w)) →
  (∀ l, steady (set_faults l w) → wp m Φ (set_faults l w)) → wp (syscall m) Φ w.
Proof.
  intros Hs Hk Hm. unfold wp, syscall, pop_fault, mbind, M_bind. unfold steady in Hs. destruct (w_faults w) as [|f l] eqn:E.
  - specialize (Hm []). destruct w. simpl in *. subst. apply Hm. by constructor.
  - apply Forall_cons in Hs as [Hf Hl]. destruct f; try done; [apply (Hm l Hl)|apply (Hm l Hl)|apply (Hk l Hl)].
Qed.

Lemma inv_faults s l : inv s → steady (set_faults l s.1.1) → inv ((set_faults l s.1.1, s.1.2), s.2).
Proof. intros [? ? ? ? Hf] Hl. by split. Qed.

(** A call that is not refused, on the state of the manager. *)
Lemma wp_on_world_syscall {A} (m : M World A) Φ s :
  inv s → (∀ l, inv ((set_faults l s.1.1, s.1.2), s.2) → Φ (Crash Killed) ((set_faults l s.1.1, s.1.2), s.2)) →
  (∀ l, inv ((set_faults l s.1.1, s.1.2), s.2) → wp m (λ o w, Φ o ((w, s.1.2), s.2)) (set_faults l s.1.1)) →
  wp (on_table (on_world (syscall m))) Φ s.
Proof.
  intros Hi Hk Hm. unfold on_table, on_world. apply wp_zoom, wp_zoom. apply wp_syscall_steady; [apply Hi| |]; intros l Hl; simpl.
  - by apply Hk, inv_faults.
  - by apply Hm, inv_faults.
Qed.

Lemma loadDB_wp s :
  inv s → wp loadDB (λ o s', inv s' ∧ (synced s → s'.2 = s.2 ∧ ∀ e, o ≠ Err e) ∧
    match o with Ret _ => synced s' | Err e => e ≠ ErrNoSuchSecret | Crash _ => True end) s.
Proof.
  intros Hi. unfold loadDB, get_path, get_db, put_db, or_fail. wp_steps. rewrite (inv_path _ Hi).
  apply wp_on_world_syscall; [done|by intros l Hl; split_and!|]. intros l Hl. wp_steps.
  - split; [done|]. split; [by split|]. by intros _.
  - apply wp_on_world_syscall; [done|by intros l' Hl'; split_and!|]. intros l' Hl'. wp_steps; [|by destruct n0; left; eexists].
    apply wp_on_world_syscall; [done|by intros l2 Hl2; split_and!|]. intros l2 Hl2. wp_steps.
    + split_and!; [|intros Hy; destruct n; by apply Hy|done]. destruct Hl2 as [? ? ? ? Hf]. split; simpl in *; try done.
      match goal with Hu : Unmarshal_db _ = inl _ |- _ => destruct (Hf _ _ Heqo0 Hu) as (S & N & I & ?) end. by exists S, N, I.
    + split_and!; [done|intros Hy; destruct n; by apply Hy|by eapply db_error].
    + congruence.
  - split_and!; [done..|]. intros [? E]. simpl in E. congruence.
Qed.

Lemma good_name d n i : good d → gomap_get (NameToID d) n = Some i → gomap_get (IDToName d) i = Some n.
Proof. intros (S & N & I & _ & EN & EI & Hc & _). rewrite EN, EI. simpl. apply Hc. Qed.
Lemma good_id d n i : good d → gomap_get (IDToName d) i = Some n →
  ∃ sec, gomap_get (Secrets d) i = Some sec ∧ ID sec = i ∧ secret_text sec.
Proof.
  intros (S & N & I & ES & EN & EI & Hc & Ht). rewrite ES, EI. simpl. intros E. destruct (con_id _ _ _ Hc _ _ E) as [sec Es]. exists sec.
  split_and!; [done|by apply (con_record _ _ _ Hc _ _ Es)|by apply (Ht _ _ Es)].
Qed.

(** What a search returns is in the database that is in memory then; what it
    does not find is not there. *)
Definition found (x : string) (o : outcome (string * string)) (s : St) : Prop :=
  inv s ∧ match o with
          | Ret (n, i) => synced s ∧ gomap_get (IDToName (m_db s.2)) i = Some n
          | Err e => e = ErrNoSuchSecret → synced s ∧ gomap_get (IDToName (m_db s.2)) x = None
          | Crash _ => True
          end.

Lemma getExact_wp x s : inv s → wp (getExactNameAndID x) (found x) s.
Proof.
  intros Hi. unfold getExactNameAndID, get_db, found. wp_step. eapply wp_mono; [by apply loadDB_wp|].
  intros [[]|e|c] s' (Hi' & _ & Hs); [|by split|done]. wp_steps; split; try done. split; [done|]. eapply good_name; [apply Hi'|done].
Qed.

Lemma getNameAndID_wp x s : inv s → wp (getNameAndID x) (found x) s.
Proof.
  intros Hi. unfold getNameAndID, get_db, or_fail. wp_step. wp_step. eapply wp_mono; [by apply getExact_wp|].
  intros [[n i]|e|c] s' [Hi' Hs]; [by apply wp_ret|..|done]. destruct (decide (e ≠ ErrNoSuchSecret)) as [He|He].
  { by apply wp_fail. }
  apply dec_stable in He. specialize (Hs He). unfold found. wp_steps; (split; [done|]); try done.
  match goal with |- let (_, _) := ?q in _ => destruct q as [n0 i] end.
  match goal with Hf : find_prefix _ _ _ = _ |- _ => apply find_prefix_found in Hf as [Hin _] end.
  rewrite range_map_perm in Hin. apply elem_of_map_to_list in Hin. split; [apply Hs|]. by destruct (IDToName (m_db s'.2)).
Qed.

Lemma lookupAll_wp s : inv s →
  wp lookupAll (λ o s', inv s' ∧ (synced s → s'.2 = s.2 ∧ ∀ e, o ≠ Err e) ∧
    match o with Ret m => synced s' ∧ m = Secrets (m_db s'.2) | Err e => e ≠ ErrNoSuchSecret | _ => True end) s.
Proof.
  intros Hi. unfold lookupAll, get_db. wp_step. eapply wp_mono; [by apply loadDB_wp|].
  intros [[]|e|c] s' (Hi' & Hsame & Hs); wp_steps; split_and!; try done; intros Hy; destruct (Hsame Hy) as [? He]; [done| |done].
  split; [done|]. intros e' [= <-]. by destruct (He e).
Qed.

Lemma lookupSecret_wp x s : inv s →
  wp (lookupSecret x) (λ o s', inv s' ∧
    match o with
    | Ret sec => synced s' ∧ gomap_get (Secrets (m_db s'.2)) (ID sec) = Some sec ∧ secret_text sec
    | Err e => e = ErrNoSuchSecret → synced s' ∧ gomap_get (IDToName (m_db s'.2)) x = None
    | Crash _ => True
    end) s.
Proof.
  intros Hi. unfold lookupSecret. wp_step. eapply wp_mono; [by apply loadDB_wp|]. intros [[]|e|c] s1 (Hi1 & _ & Hs1); [|by split|done].
  wp_step. eapply wp_mono; [by apply getNameAndID_wp|]. intros [[n i]|e|c] s2 [Hi2 Hs2]; [|done..]. destruct Hs2 as [Hs2 Hn].
  wp_step. eapply wp_mono; [by apply lookupAll_wp|]. intros [m|e|c] s3 (Hi3 & Hsame & Hs3); [|by split|done].
  destruct (Hsame Hs2) as [Em _]. destruct Hs3 as [Hs3 ->]. rewrite Em. destruct (good_id _ _ _ (inv_db _ Hi2) Hn) as (sec & E & <- & Ht).
  rewrite E. apply wp_ret. split_and!; try done. by rewrite Em.
Qed.

Lemma substring_short n s : (String.length s ≤ n)%nat → String.substring 0 n s = s.
Proof. revert n. induction s as [|c s IH]; intros [|n] Hn; simpl in *; try done; [lia|]. rewrite IH by lia. done. Qed.

(** Writing the database leaves a whole file, or one that cannot be read. *)
Lemma write_db_wp s : inv s → wp write_db (λ _ s', inv s') s.
Proof.
  intros Hi. unfold write_db, get_db, get_path, or_fail. wp_steps; [|done]. rewrite (inv_path _ Hi). rename s0 into data.
  assert (∀ n d, Unmarshal_db (String.substring 0 n data) = inl d → good d) as Hcut.
  { intros n d Hu. destruct (decide (n < String.length data)%nat) as [Hn|Hn].
    - destruct (db_cut _ _ _ Heqs0 Hn) as [e E]. congruence.
    - rewrite substring_short in Hu by lia. rewrite (db_roundtrip _ _ (inv_db _ Hi) Heqs0) in Hu. injection Hu as <-. apply good_json, Hi. }
  assert (∀ l n, steady (set_faults l s.1.1) → inv ((put_file false p (String.substring 0 n data) (set_faults l s.1.1), s.1.2), s.2)) as Hput.
  { intros l n Hl. destruct Hi. split; simpl; try done. intros x d. rewrite lookup_insert_eq. intros [= <-]. apply Hcut. }
  assert (∀ l, steady (set_faults l s.1.1) → inv ((put_file false p data (set_faults l s.1.1), s.1.2), s.2)) as Hwhole.
  { intros l Hl. specialize (Hput l (String.length data) Hl). by rewrite substring_short in Hput. }
  unfold on_table, on_world. apply wp_zoom, wp_zoom. unfold wp, os_WriteFile, pop_fault, mbind, M_bind.
  pose proof (inv_steady _ Hi) as Hst. unfold steady in Hst. destruct (w_faults s.1.1) as [|f l] eqn:Ef.
  - specialize (Hwhole []). destruct s as [[w t] m]. destruct w. simpl in *. subst. apply Hwhole. by constructor.
  - apply Forall_cons in Hst as [Hf Hl]. destruct f; try done; simpl; [by apply Hwhole|by apply Hput|by apply inv_faults].
Qed.

Lemma store_wp entry s :
  inv s → synced s → secret_text entry → gomap_get (IDToName (m_db s.2)) (ID entry) = None → wp (store_ entry) (λ _ s', inv s') s.
Proof.
  intros Hi Hs Ht Hf. unfold store_. wp_step. eapply wp_mono; [by apply loadDB_wp|]. intros [[]|e|c] s1 (Hi1 & Hsame & _); [|done..].
  destruct (Hsame Hs) as [Em _]. rewrite <- Em in Hf. pose proof (inv_db _ Hi1) as (S & N & I & ES & EN & EI & Hc & Htx).
  unfold get_db, put_db. rewrite EI in Hf. simpl in Hf.
  repeat (wp_step; simpl). rewrite ES. simpl. repeat (wp_step; simpl). rewrite EN. simpl. repeat (wp_step; simpl). rewrite EI. simpl. repeat (wp_step; simpl).
  apply write_db_wp. destruct Hi1. split; simpl; try done. eexists _, _, _. split_and!; [done..|by apply consistent_insert|].
  by apply map_Forall_insert_2.
Qed.

Lemma delete_wp x s : inv s → wp (delete_ x) (λ _ s', inv s') s.
Proof.
  intros Hi. unfold delete_. wp_step. eapply wp_mono; [by apply getNameAndID_wp|]. intros [[n i]|e|c] s1 [Hi1 Hs1]; [|done..]. destruct Hs1 as [Hs1 Hn].
  wp_step. eapply wp_mono; [by apply loadDB_wp|]. intros [[]|e|c] s2 (Hi2 & Hsame & _); [|done..]. destruct (Hsame Hs1) as [Em _]. rewrite <- Em in Hn.
  pose proof (inv_db _ Hi2) as (S & N & I & ES & EN & EI & Hc & Htx). rewrite EI in Hn. simpl in Hn.
  unfold get_db, put_db. repeat (wp_step; simpl). apply write_db_wp. destruct Hi2. split; simpl; try done. rewrite ES, EN, EI. simpl.
  eexists _, _, _. split_and!; [done..|by apply consistent_delete|]. intros id sec [_ E]%lookup_delete_Some. by apply (Htx _ _ E).
Qed.

Lemma generate_wp s : inv s →
  wp (on_table (on_world (generateID fuel))) (λ o s', inv s' ∧ match o with Ret id => ∀ k, utf8 (String.substring 0 k id) = true | _ => True end) s.
Proof.
  intros Hi. unfold on_table, on_world. apply wp_zoom, wp_zoom. unfold wp. pose proof (apart_generateID p fuel s.1.1) as Ha.
  pose proof (λ k, generated_utf8 fuel k s.1.1) as Hu. destruct (generateID fuel s.1.1) as [w o]. simpl in *.
  destruct (inv_table s (w, s.1.2) Hi Ha (inv_locks _ Hi)) as [Hi1 _]. split; [done|]. destruct o; [|done..]. intros k. by eapply Hu.
Qed.

Lemma newID_wp rounds s : inv s →
  wp (newID fuel rounds) (λ o s', inv s' ∧
    match o with Ret id => synced s' ∧ gomap_get (IDToName (m_db s'.2)) id = None ∧ utf8 id = true | _ => True end) s.
Proof.
  revert s. induction rounds as [|rounds IH]; intros s Hi; [done|]. cbn [newID]. wp_step. eapply wp_mono; [by apply generate_wp|].
  intros [x|e|c] s1 [Hi1 Hu]; [|done..].
  wp_step. wp_step. eapply wp_mono; [by apply lookupSecret_wp|]. intros [sec|e|c] s2 [Hi2 Hs2]; [by apply IH| |done].
  destruct (decide (e = ErrNoSuchSecret)) as [He|He]; [|by apply wp_fail]. apply wp_ret. split; [done|]. destruct (Hs2 He) as [? ?].
  split_and!; [done..|]. apply Hu.
Qed.

Lemma locked_inv {A} (m : M St A) s :
  (∀ s, inv s → wp m (λ _ s', inv s') s) → inv s → wp (locked m) (λ _ s', inv s') s.
Proof.
  intros Hm Hi. unfold locked. wp_steps. apply wp_table; [apply apart_on_lock, apart_Lock|done|]. intros [[]|e|c] t Ht _; [|done..].
  wp_step. eapply wp_mono; [by apply Hm|]. intros o s1 Hi1.
  assert (∀ Ψ : outcome unit → St → Prop, (∀ o s', inv s' → Ψ o s') → wp (on_table (on_lock (lockfile s.2) Unlock)) Ψ s1) as Hu.
  { intros Ψ HΨ. apply wp_table; [apply apart_on_lock, apart_Unlock|done|]. intros o' t' Ht' _. by apply HΨ. }
  destruct o; [apply Hu|apply Hu|done]; by intros [] ?.
Qed.

Lemma wp_getDriver name opts Φ s :
  inv s → (∀ d t, inv (t, s.2) → (synced s → synced (t, s.2)) → quiet p d → Φ (Ret d) (t, s.2)) → (∀ e t, inv (t, s.2) → Φ (Err e) (t, s.2)) →
  (∀ c t, inv (t, s.2) → Φ (Crash c) (t, s.2)) → wp (on_table (getDriver fuel name opts)) Φ s.
Proof.
  intros Hi Hr He Hc. unfold on_table. apply wp_zoom. unfold wp.
  destruct (getDriver_quiet p Hp commands_apart fuel name opts s.1 (inv_locks _ Hi)) as (Ha & Ho & Hq).
  destruct (inv_table s _ Hi Ha Ho) as [Hi1 Hs1]. destruct (getDriver fuel name opts s.1) as [t [d|e|c]]; [by apply Hr; auto|by apply He|by apply Hc].
Qed.

Lemma drop_replaced_wp d id s : quiet p d → inv s → wp (drop_replaced d id) (λ _ s', inv s') s.
Proof.
  intros (_ & _ & Hd) Hi. unfold drop_replaced. wp_step. wp_step. apply wp_table; [apply Hd|done|]. intros [[]|e|c] t Ht _; simpl.
  - wp_step. wp_step. eapply wp_mono; [by apply delete_wp|]. intros [[]|e|c] s' ?; wp_steps; done.
  - wp_steps; done.
  - done.
Qed.

Definition options_text (o : StoreOptions) : Prop := map_text (DriverOpts o) ∧ map_text (o_Metadata o) ∧ map_text (o_Labels o).

Lemma map_text_ensure m : map_text m → map_text (gomap_ensure m).
Proof. by destruct m. Qed.

Lemma store_secret_wp secr data driverType options s :
  utf8 (Name secr) = true → utf8 driverType = true → options_text options → inv s → wp (store_secret fuel secr data driverType options) (λ _ s', inv s') s.
Proof.
  intros Hn Hd (Ho1 & Ho2 & Ho3) Hi. unfold store_secret. cbv zeta. wp_step. apply wp_getDriver; [done| |done|done]. intros d t Hi1 _ Hq.
  wp_step. apply wp_mono with (Φ := λ _ s', inv s').
  { destruct (Replace options); [by apply drop_replaced_wp|by apply wp_ret]. }
  intros [[]|e|c] s2 Hi2; [|done..]. wp_step. eapply wp_mono; [by apply newID_wp|]. intros [id|e|c] s3 [Hi3 Hid]; [|done..]. destruct Hid as (Hs3 & Hf & Hu).
  wp_step. apply wp_table; [apply Hq|done|]. intros [[]|e|c] t4 Hi4 Hs4; [|done..]. wp_step.
  eapply wp_mono; [apply store_wp; [done|by apply Hs4| |done]|]; [|by intros [] s5 ?; try apply wp_ret].
  split_and!; simpl; auto using map_text_ensure.
Qed.

Lemma Store_inv name data driverType options s :
  utf8 name = true → utf8 driverType = true → options_text options → inv s → wp (Store fuel name data driverType options) (λ _ s', inv s') s.
Proof.
  intros Hn Hd Ho Hi. unfold Store. wp_step; [by apply wp_fail|]. wp_step; [by apply wp_fail|]. wp_step; [by apply wp_fail|].
  apply locked_inv; [|done]. clear s Hi. intros s Hi. unfold exactSecretExists.
  assert (∀ s, inv s → wp (on_table (on_world time_Now)) (λ _ s', inv s') s) as Hnow.
  { intros s' Hs. apply wp_table; [apply apart_on_world, apart_time_Now|done|]. by intros o t Ht _. }
  wp_step. wp_step. wp_step. eapply wp_mono; [by apply getExact_wp|]. intros [[n' i]|e|c] s1 [Hi1 _]; [| |done].
  - wp_step. wp_step; [by apply wp_fail|]. wp_step. eapply wp_mono; [by apply lookupSecret_wp|]. intros [sec|e|c] s2 [Hi2 Hs2]; [|done..].
    wp_step; [by apply wp_ret|]. wp_step. eapply wp_mono; [by apply Hnow|]. intros [now|e|c] s3 Hi3; [|done..]. by apply store_secret_wp; [apply Hs2| | |].
  - wp_step; [|by apply wp_fail]. wp_step. wp_step. eapply wp_mono; [by apply Hnow|]. intros [now|e'|c] s3 Hi3; [|done..]. by apply store_secret_wp.
Qed.

Lemma Delete_inv x s : inv s → wp (Delete fuel x) (λ _ s', inv s') s.
Proof.
  intros Hi. apply locked_inv; [|done]. clear s Hi. intros s Hi. wp_step. eapply wp_mono; [by apply lookupSecret_wp|]. intros [sec|e|c] s1 [Hi1 _]; [|done..].
  wp_step. apply wp_getDriver; [done| |done|done]. intros d t Hi2 _ (_ & _ & Hq). wp_step. apply wp_table; [apply Hq|done|]. intros [[]|e|c] t3 Hi3 _; [|done..].
  wp_step. eapply wp_mono; [by apply delete_wp|]. by intros [[]|e|c] s4 ?.
Qed.

Lemma LookupSecretData_inv x s : inv s → wp (LookupSecretData fuel x) (λ _ s', inv s') s.
Proof.
  intros Hi. apply locked_inv; [|done]. clear s Hi. intros s Hi. wp_step. eapply wp_mono; [by apply lookupSecret_wp|]. intros [sec|e|c] s1 [Hi1 _]; [|done..].
  wp_step. apply wp_getDriver; [done| |done|done]. intros d t Hi2 _ (Hq & _). wp_step. apply wp_table; [apply Hq|done|]. by intros [?|e|c] t3 Hi3 _.
Qed.

Lemma Lookup_inv x s : inv s → wp (Lookup x) (λ _ s', inv s') s.
Proof. intros Hi. apply locked_inv; [|done]. intros s' Hs. eapply wp_mono; [by apply lookupSecret_wp|]. by intros o s2 [? _]. Qed.

Lemma List_inv s : inv s → wp List_ (λ _ s', inv s') s.
Proof. intros Hi. apply locked_inv; [|done]. intros s' Hs. wp_step. eapply wp_mono; [by apply lookupAll_wp|]. by intros [m|e|c] s2 [? _]. Qed.
End Invariant.
End SecretsFacts.
