(* ===== verification/SecretsTheorems.v ===== *)
(** * Secrets: sequences of operations, and a codec to run them

    The invariant over every sequence of operations and of writes by other
    processes, and what the code does wrong on concrete inputs. *)

From S2P Require Import Prelude World Strconv StringId StoreUtil LockFile Json Codec ConfigFile SecretsBase FileDriver PassDriver ShellDriver Secrets SecretsFacts.
Local Open Scope string_scope.

Module SecretsTheorems.
Import ConfigFile Secrets.Secrets SecretsFacts.SecretsFacts.

(** ** A codec for the database *)

(** Text with an end, so that a part of it is not a text. *)
Fixpoint unseal (s : string) : option string :=
  match s with
  | String k s =>
      if Ascii.eqb k "." then match s with "" => Some "" | _ => None end
      else match s with "" => None | String c s => String c <$> unseal s end
  | "" => None
  end.
Definition seal (t : string) : string := esc t "".

Lemma unseal_seal t : unseal (seal t) = Some t.
Proof. unfold seal. induction t as [|c t IH]; [done|]. simpl. by rewrite IH. Qed.

Lemma unseal_cut t n : (n < String.length (seal t))%nat → unseal (String.substring 0 n (seal t)) = None.
Proof.
  unfold seal. revert n. induction t as [|c t IH]; intros n Hn; simpl in Hn.
  - by replace n with 0%nat by lia.
  - destruct n as [|[|n]]; [done|done|]. simpl. by rewrite IH by lia.
Qed.

Definition secret_tuple (s : Secret) := (Name s, ID s, Labels s, Metadata s, (CreatedAt s, UpdatedAt s, Driver s, DriverOptions s)).
Definition tuple_secret (x : string * string * option (gmap string string) * option (gmap string string) *
    (Z * Z * string * option (gmap string string))) : Secret :=
  let '(n, i, l, m, (c, u, d, o)) := x in mkSecret n i l m c u d o.
#[local] Instance secret_codec : Codec Secret := codec_via secret_tuple tuple_secret.
#[local] Instance secret_codec_law : CodecLaw Secret.
Proof. apply codec_via_law. by intros []. Qed.

Notation tables := (option (gmap string Secret) * (option (gmap string string) * option (gmap string string)))%type.
Definition json_end : error := ErrOther "unexpected end of JSON input".
Definition read_sealed {A} `{Codec A} (data : string) : A + error :=
  match unseal data with
  | None => inr json_end
  | Some t => match unesc id t with
              | Some l => match dec l with Some (a, _) => inl a | None => inr json_end end
              | None => inr json_end
              end
  end.
Definition write_sealed {A} `{Codec A} (a : A) : string := seal (text (enc a)).

Lemma read_write {A} `{CodecLaw A} (a : A) : read_sealed (write_sealed a) = inl a.
Proof.
  unfold read_sealed, write_sealed. rewrite unseal_seal, unesc_text. pose proof (dec_enc a []) as E. rewrite app_nil_r in E. by rewrite E.
Qed.

#[export] Instance demo_json : SecretsJSON := {
  MarshalIndent_db d := let d := json_db d in inl (write_sealed (A := tables) (Secrets d, (NameToID d, IDToName d)));
  Unmarshal_db data := match read_sealed (A := tables) data with
                       | inl (s, (n, i)) => inl (mkDb s n i zero_time)
                       | inr e => inr json_end
                       end;
  MarshalIndent_data m := inl (write_sealed (A := option (gmap string string)) m);
  Unmarshal_data data := read_sealed (A := option (gmap string string)) data
}.

#[export] Instance demo_json_law : SecretsJSONLaw.
Proof.
  split.
  - intros d data _ [= <-]. cbn [Unmarshal_db demo_json]. by rewrite read_write.
  - intros d data n [= <-] Hn. exists json_end. cbn [Unmarshal_db demo_json]. unfold read_sealed, write_sealed in *. by rewrite unseal_cut.
  - intros data e. cbn [Unmarshal_db demo_json]. destruct (read_sealed data) as [[s [n i]]|]; [done|]. by intros [= <-].
  - intros m data _ [= <-]. cbn [Unmarshal_data demo_json]. apply read_write.
Qed.

(** A host without commands. *)
#[export] Instance demo_commands : Commands := {
  run_command _ := fail (ErrOther "exec: command not found");
  Geteuid := 0; GetRootlessUID := 0; GetRootlessGID := 0; Getwd := "/"; UserHomeDir := inl "/root"
}.

(** ** Sequences of operations *)

Inductive op :=
  | OStore (name data driverType : string) (options : StoreOptions)
  | ODelete (nameOrID : string)
  | OLookup (nameOrID : string)
  | OLookupSecretData (nameOrID : string)
  | OList
  | OForeign (data : string).          (* another process writes the file *)

Section Sequences.
Context `{SecretsJSON} `{!SecretsJSONLaw} `{Commands} `{MapRange} `{!MapRangeSpec} (fuel : nat).

Definition run_op (o : op) : M St unit :=
  match o with
  | OStore name data driverType options => try (Store fuel name data driverType options);; mret tt
  | ODelete x => try (Delete fuel x);; mret tt
  | OLookup x => try (Lookup x);; mret tt
  | OLookupSecretData x => try (LookupSecretData fuel x);; mret tt
  | OList => try List_;; mret tt
  | OForeign data => p ← get_path; on_table (on_world (modify (put_file false p data)))
  end.

(** What callers and other processes write is text, and databases that were
    written whole are good. *)
Definition op_ok (o : op) : Prop :=
  match o with
  | OStore name _ driverType options => utf8 name = true ∧ utf8 driverType = true ∧ options_text options
  | OForeign data => ∀ d, Unmarshal_db data = inl d → good d
  | _ => True
  end.

Lemma run_op_wp p (Hp : base p = Some secretsFile) (Hc : ∀ c, moves (apart p) (run_command c)) o s :
  op_ok o → inv p s → wp (run_op o) (λ _ s', inv p s') s.
Proof.
  intros Ho Hi.
  assert (∀ A (m : M St A), wp m (λ _ s', inv p s') s → wp (try m;; mret tt) (λ _ s', inv p s') s) as Ht.
  { intros A m Hm. wp_step. wp_step. eapply wp_mono; [exact Hm|]. by intros [] s' ?. }
  destruct o as [name data driverType options|x|x|x| |data]; cbn [run_op].
  - destruct Ho as (? & ? & ?). by apply Ht, Store_inv.
  - by apply Ht, Delete_inv.
  - by apply Ht, Lookup_inv.
  - by apply Ht, LookupSecretData_inv.
  - by apply Ht, List_inv.
  - unfold get_path. wp_steps. unfold on_table, on_world. apply wp_zoom, wp_zoom, wp_modify. destruct Hi as [Ep ? ? ? ?]. rewrite Ep. split; simpl; try done.
    intros data' d. rewrite lookup_insert_eq. intros [= <-]. apply Ho.
Qed.

(** C17: A manager of secrets keeps its three maps consistent, in memory and on
    disk: every record is filed under its own identifier, both maps of
    identifiers have the same keys, and a name leads to a record of that name.
    This holds after any sequence of [Store], [Delete], [Lookup],
    [LookupSecretData] and [List], with any driver, from a database file that is
    consistent if it can be decoded, and also when a write of the file is cut off
    or the process is killed in it, as long as no system call is refused, names
    and options are in UTF-8, the commands of drivers and the lock files leave
    the file of the database alone, and what other processes write to it in
    between is consistent if it can be decoded. *)
Theorem secrets_invariant root ops (t t' : LockTable) m :
  let p := filepath_Join [root; secretsFile] in
  (∀ c, moves (apart p) (run_command c)) → own_locks p t → steady t.1 →
  (∀ data d, w_files t.1 !! p = Some data → Unmarshal_db data = inl d → good d) →
  Forall op_ok ops → NewManager root t = (t', Ret m) →
  let s := (forM ops run_op (t', m)).1 in
  good (m_db s.2) ∧ ∀ data d, w_files s.1.1 !! p = Some data → Unmarshal_db data = inl d → good d.
Proof.
  intros p Hc Ho Hs Hf Hops Hnew. assert (base p = Some secretsFile) as Hp by (by apply base_Join).
  assert (inv p (t', m)) as Hi.
  { unfold NewManager in Hnew. destruct (negb (rooted root)); [done|]. apply run_bind_ret in Hnew as (t1 & [] & E1 & Hnew).
    apply run_bind_ret in Hnew as (t2 & l & E2 & [= <- <-]).
    destruct (apart_on_world p _ (apart_MkdirAll p root) t Ho) as [Ha1 Ho1]. rewrite E1 in Ha1, Ho1.
    destruct (apart_get_lock p (filepath_Join [root; "secrets.lock"]) (key_ne p _ root "secrets.lock" Hp eq_refl ltac:(done)) t1 Ho1) as [Ha2 Ho2].
    rewrite E2 in Ha2, Ho2. cbn [fst snd] in Ha1, Ha2, Ho1, Ho2. destruct (transitivity Ha1 Ha2) as (Ef & _ & _ & Hst & _). split; simpl; auto.
    - exists ∅, ∅, ∅. split_and!; [done..|apply consistent_empty|apply map_Forall_empty].
    - intros data d. rewrite Ef. apply Hf. }
  assert (wp (forM ops run_op) (λ _ s, inv p s) (t', m)) as Hw.
  { apply wp_forM with (I := λ l s, Forall op_ok l ∧ inv p s); [done| |by intros s' [_ ?]].
    intros o l s' [[Hoo Hl]%Forall_cons Hi']. eapply wp_mono; [by apply run_op_wp|]. by intros [] s2 ?. }
  destruct Hw. by split.
Qed.
End Sequences.

(** ** Runs without failures *)

Definition idle (k : string) (t : LockTable) : Prop :=
  ∃ l, t.2 !! k = Some l ∧ file l = k ∧ ro l = false ∧ lf_is MFree 0 false None l.
Definition held (k : string) (t : LockTable) : Prop :=
  ∃ l, t.2 !! k = Some l ∧ file l = k ∧ ro l = false ∧ lf_is MWriter 1 true (Some WriteLock) l.

(** The directories that [os.MkdirAll] creates. *)
Definition made (d : string) : gset string := {[d]} ∪ list_to_set (ancestors d).

(** Only directories of [D] are new. *)
Definition grows (D : gset string) (w w' : World) : Prop := w_dirs w' ⊆ D ∪ w_dirs w.
#[local] Instance grows_preorder D : PreOrder (grows D).
Proof. split; [intros w; unfold grows; set_solver|]. unfold grows. intros w1 w2 w3. set_solver. Qed.

Lemma grows_syscall {A} D (m : M World A) : moves (grows D) m → moves (grows D) (syscall m).
Proof.
  intros Hm. unfold syscall. assert (moves (grows D) pop_fault) as Hp; [|moves_steps].
  intros w. unfold pop_fault, grows. destruct (w_faults w) as [|[] l]; simpl; set_solver.
Qed.

Lemma openLock_grows k : moves (grows (made (filepath_Dir k))) (openLock k).
Proof.
  intros w. unfold openLock. generalize (S (S (length (w_faults w)))). intros n. revert w. change (moves (grows (made (filepath_Dir k))) (openLock_from n k)).
  assert (moves (grows (made (filepath_Dir k))) (OpenLock k)) as H1'.
  { apply grows_syscall. moves_steps. intros w. unfold grows. simpl. destruct (w_files w !! k); simpl; set_solver. }
  assert (moves (grows (made (filepath_Dir k))) (os_MkdirAll (filepath_Dir k))) as H2'.
  { apply grows_syscall. intros w. unfold grows, made. simpl. set_solver. }
  induction n as [|n IH]; cbn [openLock_from]; moves_steps.
Qed.

Lemma lock_grows ty w l w' l' o : lock ty (w, l) = ((w', l'), o) → grows (made (filepath_Dir (file l))) w w'.
Proof.
  unfold lock, lock_begin, lock_finish, getL, gets, modL, modify, onWorld, zoom, try, LockFileHandle, mbind, M_bind. simpl.
  destruct (match ty with ReadLock => _ | WriteLock => _ end) as [m'|]; simpl; [|by intros [= <- _ _]]. case_decide; simpl; [|by intros [= <- _ _]].
  pose proof (openLock_grows (file l) w) as Hg. destruct (openLock (file l) w) as [w1 [[]|e|c]]; simpl in *; [|by intros [= <- _ _]..].
  destruct (lockHandle_retry (w_faults w1)) as [fl []]; simpl; by intros [= <- _ _].
Qed.

Lemma lock_run k t :
  w_faults t.1 = [] → idle k t →
  ∃ w l, on_lock k Lock t = ((w, <[k := l]> t.2), Ret tt) ∧ held k (w, <[k := l]> t.2) ∧ (∀ q, k ≠ q → apart q t.1 w) ∧ grows (made (filepath_Dir k)) t.1 w.
Proof.
  intros Hf (l & El & Hk & Hro & Hi). unfold on_lock, gets, mbind, M_bind. simpl. rewrite El. unfold zoom. simpl. rewrite El. simpl.
  unfold Lock, getL, gets, mbind, M_bind. simpl. rewrite Hro. destruct (lock_ok WriteLock t.1 l Hf Hi) as (w & l' & E & _ & Hl' & Hfl & Hr).
  pose proof (λ q, apart_Lock q (t.1, l)) as Ha. unfold Lock, getL, gets, mbind, M_bind in Ha. simpl in Ha. rewrite Hro in Ha.
  rewrite E in *. exists w, l'. split; [done|]. split; [|split].
  - exists l'. simpl. rewrite lookup_insert_eq. split; [done|]. split; [congruence|]. split; [congruence|exact Hl'].
  - intros q Hq. apply Ha. simpl. congruence.
  - rewrite <- Hk. by eapply lock_grows.
Qed.

Lemma unlock_run k t : held k t → ∃ l, on_lock k Unlock t = ((t.1, <[k := l]> t.2), Ret tt) ∧ idle k (t.1, <[k := l]> t.2).
Proof.
  intros (l & El & Hk & Hro & Hm & Hc & Hl & Ht). simpl in Ht. unfold on_lock, gets, mbind, M_bind. simpl. rewrite El. unfold zoom. simpl. rewrite El. simpl.
  rewrite Unlock_run, Hc, Ht, Hm by (done || lia). simpl. eexists. split; [done|]. eexists. simpl. rewrite lookup_insert_eq. by split_and!.
Qed.

Lemma held_insert k k' l t : k' ≠ k → held k t → held k (t.1, <[k' := l]> t.2).
Proof. intros Hn (l0 & El & ?). exists l0. simpl. by rewrite lookup_insert_ne. Qed.
Lemma idle_insert k k' l t : k' ≠ k → idle k t → idle k (t.1, <[k' := l]> t.2).
Proof. intros Hn (l0 & El & ?). exists l0. simpl. by rewrite lookup_insert_ne. Qed.

Lemma on_world_run {A} (m : M World A) t w o : m t.1 = (w, o) → on_world m t = ((w, t.2), o).
Proof. intros E. unfold on_world, zoom. by rewrite E. Qed.

Lemma Open_run q w x : w_faults w = [] → w_files w !! q = Some x → os_Open q w = (w, Ret tt).
Proof. intros Hw Hx. unfold os_Open. rewrite syscall_ok by done. unfold gets, mbind, M_bind. simpl. rewrite decide_True; [done|]. left. by exists x. Qed.
Lemma ReadAll_run q w x : w_faults w = [] → w_files w !! q = Some x → ReadAll q w = (w, Ret x).
Proof. intros Hw Hx. unfold ReadAll. rewrite syscall_ok by done. unfold gets, mbind, M_bind. by rewrite Hx. Qed.
Lemma WriteFile_run q w data : w_faults w = [] → os_WriteFile q data w = (put_file false q data w, Ret tt).
Proof. intros Hw. unfold os_WriteFile, pop_fault, mbind, M_bind. by rewrite Hw. Qed.

Section Runs.
Context `{SecretsJSON} `{!SecretsJSONLaw} `{Commands} `{MapRange} `{!MapRangeSpec} (fuel : nat).

(** The data of the file driver. *)
Definition data_in (q : string) (w : World) (dm : gmap string string) : Prop :=
  ∃ x, w_files w !! q = Some x ∧ Unmarshal_data x = inl (Some dm).

(** The data of a driver that may not have stored anything yet. *)
Definition data_at (q : string) (w : World) (dm : gmap string string) : Prop :=
  data_in q w dm ∨ dm = ∅ ∧ w_files w !! q = None ∧ q ∉ w_dirs w.

Lemma data_at_apart q D w w' dm : apart q w w' → grows D w w' → q ∉ D → data_at q w dm → data_at q w' dm.
Proof.
  intros [Ef _] Hg Hq [(x & Hx & Hu)|(-> & Hn & Hd)]; [left; exists x; by rewrite Ef|right]. split; [done|]. split; [by rewrite Ef|].
  unfold grows in Hg. set_solver.
Qed.

Lemma getAllData_run d t dm :
  w_faults t.1 = [] → data_at (FileDriver.secretsDataFilePath d) t.1 dm → FileDriver.getAllData d t = (t, Ret (Some dm)).
Proof.
  intros Hw [(x & Hx & Hu)|(-> & Hn & Hd)].
  2: { destruct t as [w tb]. unfold FileDriver.getAllData, fileutils_Exists. rewrite run_try. rewrite (on_world_run _ _ w (Err (ErrOS ENOENT))); [done|].
       unfold os_Open. rewrite syscall_ok by done. unfold gets, mbind, M_bind. simpl in *. rewrite decide_False; [done|]. intros [[? E]|?]; [congruence|done]. }
  destruct t as [w tb]. unfold FileDriver.getAllData, fileutils_Exists. rewrite run_try.
  rewrite (on_world_run _ _ w (Ret tt)) by (by eapply Open_run). unfold mbind, M_bind.
  rewrite (on_world_run _ _ w (Ret tt)) by (by eapply Open_run). rewrite (on_world_run _ _ w (Ret x)) by (by eapply ReadAll_run). by rewrite Hu.
Qed.

(** A method of the file driver: the lock is taken and given back around it. *)
Lemma with_lock_run {A} k (m : M LockTable A) (f : World → World) t a :
  w_faults t.1 = [] → idle k t →
  (∀ w tb, w_faults w = [] → (∀ q, k ≠ q → apart q t.1 w) → grows (made (filepath_Dir k)) t.1 w → m (w, tb) = ((f w, tb), Ret a)) →
  ∃ w l, with_lock k m t = ((f w, <[k := l]> t.2), Ret a) ∧ idle k (f w, <[k := l]> t.2) ∧ (∀ q, k ≠ q → apart q t.1 w) ∧ w_faults w = [].
Proof.
  intros Hw Hi Hm. destruct (lock_run k t Hw Hi) as (w & l & El & Hh & Ha & Hgr).
  assert (w_faults w = []) as Hw1.
  { destruct (Ha (k +:+ "x")) as (_ & _ & _ & _ & Hf); [|by apply Hf]. intros E. apply (f_equal String.length) in E. rewrite string_length_app in E. simpl in E. lia. }
  destruct (unlock_run k (f w, <[k := l]> t.2)) as (l' & Eu & Hu); [exact Hh|]. cbn [fst snd] in Eu, Hu. rewrite insert_insert_eq in Eu, Hu.
  exists w, l'. split; [|done]. unfold with_lock, mbind, M_bind. rewrite El. unfold finally. rewrite (Hm w _ Hw1 Ha Hgr). by rewrite Eu.
Qed.

Hypothesis marshal_data : ∀ m, ∃ data, MarshalIndent_data m = inl data.

Definition data_keys (dm : gmap string string) : Prop := gomap_all (λ k _, utf8 k) (Some dm) = true.

Lemma data_keys_insert dm k v : data_keys dm → utf8 k = true → data_keys (<[k := v]> dm).
Proof.
  unfold data_keys, gomap_all. simpl. rewrite !forallb_forall. intros Hd Hk [k' v'] Hin. apply list_elem_of_In, elem_of_map_to_list in Hin.
  apply lookup_insert_Some in Hin as [[<- _]|[_ Hin]]; [done|]. apply (Hd (k', v')). by apply list_elem_of_In, elem_of_map_to_list.
Qed.

(** What a run of the driver changes: its lock and its data. *)
Lemma file_Store_run d t dm id data :
  FileDriver.lockfile d ≠ FileDriver.secretsDataFilePath d →
  FileDriver.secretsDataFilePath d ∉ made (filepath_Dir (FileDriver.lockfile d)) →
  w_faults t.1 = [] → idle (FileDriver.lockfile d) t → data_at (FileDriver.secretsDataFilePath d) t.1 dm → dm !! id = None → data_keys dm → utf8 id = true →
  ∃ w l, FileDriver.Store d id data t = ((w, <[FileDriver.lockfile d := l]> t.2), Ret tt) ∧ idle (FileDriver.lockfile d) (w, <[FileDriver.lockfile d := l]> t.2) ∧
    data_in (FileDriver.secretsDataFilePath d) w (<[id := data]> dm) ∧
    ∀ q, FileDriver.lockfile d ≠ q → FileDriver.secretsDataFilePath d ≠ q → apart q t.1 w.
Proof.
  intros Hd Hmade Hw Hi Hin Hid Hkeys Hu. destruct (marshal_data (Some (<[id := data]> dm))) as [y Ey].
  assert (∀ w, (∀ q, FileDriver.lockfile d ≠ q → apart q t.1 w) → grows (made (filepath_Dir (FileDriver.lockfile d))) t.1 w →
               data_at (FileDriver.secretsDataFilePath d) w dm) as Hsame by (intros w Ha Hgr; eapply data_at_apart; [by apply Ha|done..]).
  destruct (with_lock_run (FileDriver.lockfile d)
    (secretData ← FileDriver.getAllData d;
     match gomap_get secretData id with
     | Some _ => fail ErrSecretIDExists
     | None => secretData ← gomap_set secretData id data; marshalled ← or_fail (MarshalIndent_data secretData);
               on_world (os_WriteFile (FileDriver.secretsDataFilePath d) marshalled)
     end) (put_file false (FileDriver.secretsDataFilePath d) y) t tt Hw Hi) as (w & l & E & Hl & Ha & Hw').
  { intros w tb Hw' Ha Hgr. unfold mbind at 1, M_bind at 1. rewrite (getAllData_run d (w, tb) dm Hw') by (by apply Hsame). simpl. rewrite Hid.
    unfold mbind, M_bind. simpl. rewrite Ey. simpl. by apply (on_world_run _ (w, tb)), WriteFile_run. }
  exists (put_file false (FileDriver.secretsDataFilePath d) y w), l. split; [exact E|]. split; [done|]. split.
  - exists y. simpl. rewrite lookup_insert_eq. split; [done|]. eapply data_roundtrip; [|done]. by apply data_keys_insert.
  - intros q Hq1 Hq2. etrans; [by apply Ha|]. by apply apart_put_file.
Qed.

Lemma file_Lookup_run d t dm id data :
  FileDriver.lockfile d ≠ FileDriver.secretsDataFilePath d →
  w_faults t.1 = [] → idle (FileDriver.lockfile d) t → data_in (FileDriver.secretsDataFilePath d) t.1 dm → dm !! id = Some data →
  ∃ t', FileDriver.Lookup d id t = (t', Ret data) ∧ ∀ k, k ≠ FileDriver.lockfile d → t'.2 !! k = t.2 !! k.
Proof.
  intros Hd Hw Hi (x & Hx & Hu) Hid.
  destruct (with_lock_run (FileDriver.lockfile d)
    (secretData ← FileDriver.getAllData d; match gomap_get secretData id with Some data => mret data | None => fail ErrNoSuchSecret end)
    (λ w, w) t data Hw Hi) as (w & l & E & _).
  { intros w tb Hw' Ha _. unfold mbind at 1, M_bind at 1. destruct (Ha _ Hd) as [Ex _].
    rewrite (getAllData_run d (w, tb) dm Hw') by (left; exists x; simpl; by rewrite Ex). simpl. by rewrite Hid. }
  eexists. split; [exact E|]. intros k Hk. simpl. by rewrite lookup_insert_ne.
Qed.

Lemma get_lock_run q t :
  w_faults t.1 = [] → (is_Some (t.2 !! filepath_Clean q) → idle (filepath_Clean q) t) →
  ∃ t', get_lock q t = (t', Ret (filepath_Clean q)) ∧ idle (filepath_Clean q) t' ∧ (∀ k, k ≠ filepath_Clean q → t'.2 !! k = t.2 !! k) ∧
    (∀ f, filepath_Clean q ≠ f → apart f t.1 t'.1) ∧ grows (made (filepath_Dir (filepath_Clean q))) t.1 t'.1.
Proof.
  intros Hw Hfree. destruct t as [w tb]. unfold get_lock, GetLockFile, getLockfile, gets, mbind, M_bind. cbn [fst snd] in *.
  destruct (tb !! filepath_Clean q) as [l|] eqn:El.
  - destruct (Hfree ltac:(by eexists)) as (l' & El' & Hk & Hro & Hl). cbn [snd] in El'. assert (l' = l) as -> by congruence.
    unfold IsReadWrite. rewrite Hro. cbn [negb andb]. exists (w, tb). split; [done|]. split; [by exists l|]. split; [done|]. split; [intros f _|]; reflexivity.
  - unfold zoom. cbn [fst snd]. unfold createLockFileForPath, mbind, M_bind. destruct (openLock_ok (filepath_Clean q) w Hw) as (w' & Eo & _).
    pose proof (λ f Hf, apart_openLock f (filepath_Clean q) Hf w) as Ha. pose proof (openLock_grows (filepath_Clean q) w) as Hgr.
    rewrite Eo in *. rewrite newLastWrite_run. eexists. split; [done|]. cbn [fst snd] in *. split; [|split; [|split; [|exact Hgr]]].
    + eexists. cbn [snd]. rewrite lookup_insert_eq. by split_and!.
    + intros k Hk. by rewrite lookup_insert_ne.
    + intros f Hf. etrans; [by apply Ha|]. pose proof (apart_newLastWrite f w') as Hn. by rewrite newLastWrite_run in Hn.
Qed.

Definition file_lock (path : string) : string := filepath_Clean (filepath_Join [path; "secretsdata.lock"]).
Definition file_data (path : string) : string := filepath_Join [path; FileDriver.secretsDataFile].

Lemma NewDriver_run path t :
  w_faults t.1 = [] → (is_Some (t.2 !! file_lock path) → idle (file_lock path) t) →
  ∃ t', FileDriver.NewDriver path t = (t', Ret (FileDriver.mkDriver (file_data path) (file_lock path))) ∧ idle (file_lock path) t' ∧
    (∀ k, k ≠ file_lock path → t'.2 !! k = t.2 !! k) ∧ (∀ f, file_lock path ≠ f → apart f t.1 t'.1) ∧
    grows (made path ∪ made (filepath_Dir (file_lock path))) t.1 t'.1.
Proof.
  intros Hw Hfree. unfold FileDriver.NewDriver. unfold mbind at 1, M_bind at 1.
  rewrite (on_world_run _ _ (set_dirs ({[path]} ∪ list_to_set (ancestors path) ∪ w_dirs t.1) t.1) (Ret tt)) by (unfold os_MkdirAll; by rewrite syscall_ok).
  destruct (get_lock_run (filepath_Join [path; "secretsdata.lock"]) (set_dirs ({[path]} ∪ list_to_set (ancestors path) ∪ w_dirs t.1) t.1, t.2)) as (t' & E & Hi & Hk & Ha & Hgr); [done|done|].
  exists t'. unfold mbind, M_bind. rewrite E. split; [done|]. split; [done|]. split; [done|]. split; [done|].
  fold (file_lock path) in Hgr. unfold grows in *. simpl in Hgr. unfold made in *. set_solver.
Qed.

(** ** The database in runs without failures *)

Context (p : string).

(** The database that the next operation works on. *)
Definition current (s : St) : option db :=
  match w_files s.1.1 !! p with
  | None => Some (m_db s.2)
  | Some data =>
      let t := default 0%Z (m_mtimes (w_meta s.1.1) !! p) in
      if decide (lastModified (m_db s.2) = t) then Some (m_db s.2)
      else match Unmarshal_db data with inl u => Some (mkDb (Secrets u) (NameToID u) (IDToName u) t) | inr _ => None end
  end.

Definition ready (s : St) : Prop := secretsDBPath s.2 = p ∧ w_faults s.1.1 = [].
Definition loaded (s : St) : Prop := ready s ∧ current s = Some (m_db s.2).

Lemma on_table_world_run {A} (m : M World A) (s : St) w o : m s.1.1 = (w, o) → on_table (on_world m) s = (((w, s.1.2), s.2), o).
Proof. intros E. unfold on_table, on_world, zoom. by rewrite E. Qed.

Lemma loadDB_run s d :
  ready s → current s = Some d → loadDB s = ((s.1, set_db d s.2), Ret tt) ∧ loaded (s.1, set_db d s.2).
Proof.
  intros [Hp Hw] Hc. destruct s as [[w tb] m]. cbn [fst snd] in *. assert (set_db (m_db m) m = m) as Hm by (by destruct m).
  unfold loadDB, get_path, gets, mbind, M_bind. unfold try. cbn [fst snd]. rewrite Hp.
  unfold current in Hc. cbn [fst snd] in Hc. destruct (w_files w !! p) as [data|] eqn:Ex.
  - rewrite (on_table_world_run _ _ w (Ret (default 0%Z (m_mtimes (w_meta w) !! p)))).
    2: { unfold os_Stat. rewrite syscall_ok by done. unfold gets, mbind, M_bind. simpl. by rewrite Ex. }
    cbn [fst snd]. unfold get_db, gets. cbn [fst snd]. destruct (decide (lastModified (m_db m) = _)) as [Et|Et].
    + injection Hc as <-. rewrite Hm. split; [done|]. split; [done|]. unfold current. cbn [fst snd]. rewrite Ex. by rewrite decide_True.
    + rewrite (on_table_world_run _ _ w (Ret tt)) by (by eapply Open_run). rewrite (on_table_world_run _ _ w (Ret data)) by (by eapply ReadAll_run).
      destruct (Unmarshal_db data) as [u|]; [|done]. injection Hc as <-. split; [done|]. split; [done|]. unfold current. cbn [fst snd]. rewrite Ex. by rewrite decide_True.
  - rewrite (on_table_world_run _ _ w (Err (ErrOS ENOENT))).
    2: { unfold os_Stat. rewrite syscall_ok by done. unfold gets, mbind, M_bind. simpl. by rewrite Ex. }
    injection Hc as <-. rewrite Hm. split; [done|]. split; [done|]. unfold current. cbn [fst snd]. by rewrite Ex.
Qed.

Lemma loaded_run s : loaded s → loadDB s = (s, Ret tt).
Proof. intros [Hr Hc]. destruct (loadDB_run s _ Hr Hc) as [E _]. rewrite E. by destruct s as [t []]. Qed.

Lemma loaded_table s t : loaded s → apart p s.1.1 t.1 → loaded (t, s.2).
Proof.
  intros [[Hp Hw] Hc] (Ef & Em & _ & _ & Hf). split; [split; [done|by apply Hf]|]. unfold current in *. simpl. by rewrite Ef, Em.
Qed.

Definition exact (d : db) (x : string) : outcome (string * string) :=
  match gomap_get (IDToName d) x with
  | Some n => Ret (n, x)
  | None => match gomap_get (NameToID d) x with Some i => Ret (x, i) | None => Err ErrNoSuchSecret end
  end.

Lemma getExact_run s x : loaded s → getExactNameAndID x s = (s, exact (m_db s.2) x).
Proof.
  intros Hl. unfold getExactNameAndID, get_db, gets, mbind, M_bind. rewrite loaded_run by done. unfold exact. cbn [fst snd].
  destruct (gomap_get (IDToName _) x); [done|]. by destruct (gomap_get (NameToID _) x).
Qed.

(** Neither a name nor the beginning of an identifier. *)
Definition absent (d : db) (x : string) : Prop :=
  exact d x = Err ErrNoSuchSecret ∧ ∀ i n, gomap_get (IDToName d) i = Some n → String.prefix x i = false.

Lemma lookupSecret_absent s x : loaded s → absent (m_db s.2) x → lookupSecret x s = (s, Err ErrNoSuchSecret).
Proof.
  intros Hl [He Hx]. unfold lookupSecret. unfold mbind at 1, M_bind at 1. rewrite loaded_run by done. unfold mbind at 1, M_bind at 1, getNameAndID.
  rewrite run_try, getExact_run, He by done. rewrite decide_False by (intros Hn; by apply Hn).
  destruct (decide (secretIDLength < String.length x)%nat); [done|]. unfold get_db, gets, mbind, M_bind, or_fail. cbn [fst snd].
  rewrite find_prefix_spec. destruct (filter _ _) as [|[i n'] l] eqn:E; [done|]. exfalso.
  assert ((i, n') ∈ filter (λ x0 : string * string, String.prefix x x0.1 = true) (range_map (default ∅ (IDToName (m_db s.2))))) as Hin by (rewrite E; by left).
  apply list_elem_of_filter in Hin as [Hpre Hin]. rewrite range_map_perm in Hin. apply elem_of_map_to_list in Hin. simpl in Hpre.
  rewrite (Hx i n') in Hpre; [done|]. by destruct (IDToName (m_db s.2)).
Qed.

Lemma exactSecretExists_run s x : loaded s → exact (m_db s.2) x = Err ErrNoSuchSecret → exactSecretExists x s = (s, Ret false).
Proof. intros Hl He. unfold exactSecretExists. by rewrite run_try, getExact_run, He by done. Qed.

Lemma lookupSecret_found s x n i sec :
  ready s → current s = Some sec.1 → exact sec.1 x = Ret (n, i) → gomap_get (Secrets sec.1) i = Some sec.2 →
  lookupSecret x s = ((s.1, set_db sec.1 s.2), Ret sec.2).
Proof.
  intros Hr Hc He Hs. destruct (loadDB_run s _ Hr Hc) as [E Hl]. set (s1 := (s.1, set_db sec.1 s.2)) in *.
  assert (m_db s1.2 = sec.1) as Hd by done. unfold lookupSecret. unfold mbind at 1, M_bind at 1. rewrite E. unfold mbind at 1, M_bind at 1, getNameAndID.
  rewrite run_try, getExact_run, Hd, He by done. unfold lookupAll, get_db, gets, mbind, M_bind. cbn [mret M_ret].
  rewrite loaded_run by done. unfold mret, M_ret. change (m_db s1.2) with sec.1. by rewrite Hs.
Qed.

(** Every identifier the random source may yield is new. *)
Definition fresh_source (d : db) (dm : gmap string string) (r : nat → ascii) : Prop :=
  ∀ pos, let x := hex_encode (rand_bytes r pos 32) in let id := String.substring 0 secretIDLength x in
    numeric x = false ∧ absent d id ∧ dm !! id = None.

Lemma newID_run s dm :
  loaded s → (0 < fuel)%nat → fresh_source (m_db s.2) dm (w_rand s.1.1) →
  ∃ pos id, newID fuel fuel s = (((set_randpos pos s.1.1, s.1.2), s.2), Ret id) ∧ absent (m_db s.2) id ∧ dm !! id = None ∧ utf8 id = true.
Proof.
  intros Hl Hf Hr. destruct (Hr (w_randpos s.1.1 + 32 * 0)%nat) as (Hn & Ha & Hd).
  assert (generateID fuel s.1.1 = (set_randpos (w_randpos s.1.1 + 32 * 1) s.1.1, Ret (draw s.1.1 0))) as Eg by (by apply generateID_ret; [|done|lia]).
  eexists _, _. split; [|split_and!; [exact Ha|exact Hd|by eapply (generated_utf8 fuel)]].
  destruct fuel as [|n] eqn:Efuel; [lia|]. rewrite <- Efuel in *. rewrite Efuel at 2. cbn [newID]. unfold mbind at 1, M_bind at 1.
  rewrite (on_table_world_run _ _ _ _ Eg). rewrite run_try. rewrite lookupSecret_absent; [done| |exact Ha].
  apply (loaded_table s (set_randpos (w_randpos s.1.1 + 32 * 1) s.1.1, s.1.2)); [done|]. by split_and!.
Qed.

Hypothesis marshal_db : ∀ d, good d → ∃ data, MarshalIndent_db d = inl data.

(** What is found under the name and the identifier of a new record. *)
Definition finds (s : St) (entry : Secret) : Prop :=
  ∃ d sec, current s = Some d ∧ exact d (ID entry) = Ret (Name entry, ID entry) ∧ (∃ n, exact d (Name entry) = Ret (n, ID entry)) ∧
    gomap_get (Secrets d) (ID entry) = Some sec ∧ (sec = entry ∨ sec = json_secret entry).

Lemma store_run s entry :
  loaded s → good (m_db s.2) → secret_text entry → exact (m_db s.2) (ID entry) = Err ErrNoSuchSecret → exact (m_db s.2) (Name entry) = Err ErrNoSuchSecret →
  ∃ data d, store_ entry s = (((put_file false p data s.1.1, s.1.2), set_db d s.2), Ret tt) ∧
    finds ((put_file false p data s.1.1, s.1.2), set_db d s.2) entry.
Proof.
  intros Hl (S & N & I & ES & EN & EI & Hc & Ht) Hte Hid Hname.
  set (d := mkDb (Some (<[ID entry := entry]> S)) (Some (<[Name entry := ID entry]> N)) (Some (<[ID entry := Name entry]> I)) (lastModified (m_db s.2))).
  unfold exact in Hid, Hname. rewrite EI, EN in Hid, Hname. simpl in Hid, Hname.
  destruct (I !! ID entry) eqn:Ei; [done|]. destruct (I !! Name entry) eqn:En; [done|].
  assert (good d) as Hg.
  { eexists _, _, _. split_and!; [done..|by apply consistent_insert|]. by apply map_Forall_insert_2. }
  destruct (marshal_db d Hg) as [data Ed]. exists data, d. split.
  - unfold store_, get_db, put_db, write_db, get_path, get_db, gets, modify, mbind, M_bind. rewrite loaded_run by done. cbn [fst snd]. rewrite ES.
    cbn [gomap_set]. unfold mret, M_ret. cbn [fst snd set_db m_db NameToID Secrets IDToName lastModified]. rewrite EN. cbn [gomap_set]. unfold mret, M_ret.
    cbn [fst snd set_db m_db NameToID Secrets IDToName lastModified]. rewrite EI. cbn [gomap_set]. unfold mret, M_ret.
    cbn [fst snd set_db m_db NameToID Secrets IDToName lastModified]. fold d. rewrite Ed. cbn [or_fail]. unfold mret, M_ret. cbn [secretsDBPath fst snd].
    destruct Hl as [[Hp Hw] _]. unfold set_db at 1 2 3. cbn [secretsDBPath]. rewrite Hp. by apply (on_table_world_run _ (s.1, set_db d s.2)), WriteFile_run.
  - assert (∀ d' sec, gomap_get (IDToName d') (ID entry) = Some (Name entry) → (∀ x, x ≠ ID entry → gomap_get (IDToName d') x = I !! x) →
       gomap_get (NameToID d') (Name entry) = Some (ID entry) → gomap_get (Secrets d') (ID entry) = Some sec → (sec = entry ∨ sec = json_secret entry) →
       current ((put_file false p data s.1.1, s.1.2), set_db d s.2) = Some d' → finds ((put_file false p data s.1.1, s.1.2), set_db d s.2) entry) as Hfinds.
    { intros d' sec H1' H2' H3' H4' H5' H6'. exists d', sec. split_and!; [done| | |done|done]; unfold exact.
      - by rewrite H1'.
      - destruct (decide (Name entry = ID entry)) as [E|E]; [rewrite E, H1'; by eexists|]. rewrite H2', En, H3' by done. by eexists. }
    assert (∀ x, x ≠ ID entry → <[ID entry := Name entry]> I !! x = I !! x) as Hne by (intros x Hx; by rewrite lookup_insert_ne).
    destruct (decide (lastModified (m_db s.2) = default 0%Z (<[p := hd 0%Z (m_stamps (w_meta s.1.1))]> (m_mtimes (w_meta s.1.1)) !! p))) as [Et|Et].
    + apply (Hfinds d entry); simpl; rewrite ?lookup_insert_eq; auto. unfold current. simpl. rewrite lookup_insert_eq. by rewrite decide_True.
    + apply (Hfinds (mkDb (Secrets (json_db d)) (NameToID d) (IDToName d) (default 0%Z (<[p := hd 0%Z (m_stamps (w_meta s.1.1))]> (m_mtimes (w_meta s.1.1)) !! p))) (json_secret entry));
        simpl; rewrite ?lookup_fmap, ?lookup_insert_eq; auto. unfold current. simpl. rewrite lookup_insert_eq in *. rewrite decide_False by done.
      rewrite (db_roundtrip _ _ Hg Ed). by rewrite lookup_insert_eq.
Qed.

(** The lock of the manager is free, the lock of the driver is free or not in
    use yet, and the data of the driver can be read, or there is none yet. *)
Record rest (path : string) (dm : gmap string string) (s : St) : Prop := {
  rest_ready : ready s;
  rest_lock : idle (lockfile s.2) s.1;
  rest_driver : is_Some (s.1.2 !! file_lock path) → idle (file_lock path) s.1;
  rest_data : data_at (file_data path) s.1.1 dm
}.

(** The three files have different names, and the data of the driver is not
    where the directories of the driver and of the lock files are. *)
Definition apart_paths (path k : string) : Prop :=
  base p = Some secretsFile ∧ base k = Some "secrets.lock" ∧
  file_data path ∉ made path ∪ made (filepath_Dir (file_lock path)) ∪ made (filepath_Dir k).

Lemma key_paths path k : apart_paths path k →
  k ≠ p ∧ k ≠ file_data path ∧ k ≠ file_lock path ∧ file_lock path ≠ p ∧ file_lock path ≠ file_data path ∧ file_data path ≠ p.
Proof.
  intros (Hp & Hk & _). assert (base (file_lock path) = Some "secretsdata.lock") as Hl by (by apply base_key).
  assert (base (file_data path) = Some FileDriver.secretsDataFile) as Hd by (by apply base_Join).
  unfold secretsFile, FileDriver.secretsDataFile in *. split_and!; intros E; congruence.
Qed.

(** The beginning of a locked operation. *)
Lemma begin_run path dm s d :
  apart_paths path (lockfile s.2) → rest path dm s → current s = Some d →
  ∃ w l, on_table (on_lock (lockfile s.2) Lock) s = (((w, <[lockfile s.2 := l]> s.1.2), s.2), Ret tt) ∧
    let s1 : St := ((w, <[lockfile s.2 := l]> s.1.2), s.2) in
    ready s1 ∧ current s1 = Some d ∧ held (lockfile s.2) s1.1 ∧ (is_Some (s1.1.2 !! file_lock path) → idle (file_lock path) s1.1) ∧
    data_at (file_data path) w dm ∧ w_rand w = w_rand s.1.1.
Proof.
  intros Hpaths [[Hsp Hw] Hi Hf Hdata] Hc. destruct (key_paths _ _ Hpaths) as (H1' & H2' & H3' & _).
  destruct (lock_run _ _ Hw Hi) as (w & l & E & Hh & Ha & Hgr). exists w, l. unfold on_table, zoom. rewrite E. split; [done|].
  destruct (Ha p H1') as (Ef & Em & Er & _ & Hw'). cbn [fst snd].
  split; [split; [done|by apply Hw']|]. split; [|split; [done|split; [|split; [|done]]]].
  - unfold current in *. cbn [fst snd]. by rewrite Ef, Em.
  - intros Hs. apply (idle_insert _ _ _ (w, s.1.2)); [done|]. rewrite lookup_insert_ne in Hs by done. destruct (Hf Hs) as (l0 & ?). by exists l0.
  - eapply data_at_apart; [by apply Ha|exact Hgr| |done]. destruct Hpaths as (_ & _ & Hm). set_solver.
Qed.

(** A secret of the file driver that is in the database is found. *)
Lemma LookupSecretData_run path dm s x entry d sec data n opts :
  apart_paths path (lockfile s.2) → rest path dm s → current s = Some d → exact d x = Ret (n, ID entry) →
  gomap_get (Secrets d) (ID entry) = Some sec → ID sec = ID entry → Driver sec = "file" → DriverOptions sec = opts → gomap_get opts "path" = Some path →
  dm !! ID entry = Some data →
  ∃ s', LookupSecretData fuel x s = (s', Ret (sec, data)).
Proof.
  intros Hpaths Hrest Hc He Hs Hid Hdr Hopts Hpath Hdata. destruct (key_paths _ _ Hpaths) as (H1' & H2' & H3' & H4' & H5' & H6').
  destruct (begin_run _ _ _ _ Hpaths Hrest Hc) as (w & l & E & Hr1 & Hc1 & Hh & Hfree & Hd1 & _).
  set (s1 := ((w, <[lockfile s.2 := l]> s.1.2), s.2) : St) in *.
  destruct (NewDriver_run path s1.1) as (t2 & E2 & Hi2 & Hk2 & Ha2 & _); [apply Hr1|done|].
  assert (data_in (file_data path) t2.1 dm) as Hd2.
  { destruct Hd1 as [(y & Hy & ?)|(-> & _)]; [|by rewrite lookup_empty in Hdata]. exists y. split; [|done]. destruct (Ha2 _ H5') as [-> _]. done. }
  destruct (file_Lookup_run (FileDriver.mkDriver (file_data path) (file_lock path)) t2 dm (ID entry) data) as (t3 & E3 & Hk3); [done| |done..|].
  { destruct (Ha2 p H4') as (_ & _ & _ & _ & Hw). apply Hw, Hr1. }
  destruct (unlock_run (lockfile s.2) t3) as (l4 & E4 & _).
  { destruct Hh as (lh & Elh & ?). exists lh. rewrite Hk3, Hk2 by done. done. }
  eexists. unfold LookupSecretData, locked, gets, mbind, M_bind. rewrite E. fold s1. unfold finally.
  rewrite (lookupSecret_found s1 x n (ID entry) (d, sec)) by done. cbn [fst snd]. rewrite Hdr, Hopts, Hid.
  unfold on_table at 1, zoom at 1. unfold getDriver. rewrite decide_True by done. rewrite Hpath. unfold mbind, M_bind. cbn [fst snd]. rewrite E2. cbn [fst snd].
  unfold on_table at 1, zoom at 1. cbn [d_Lookup file_driver fst snd mret M_ret]. rewrite E3. cbn [fst snd mret M_ret].
  unfold on_table, zoom. cbn [fst snd]. rewrite E4. done.
Qed.

Lemma exact_first s d x :
  ready s → current s = Some d → exact d x = Err ErrNoSuchSecret → exactSecretExists x s = ((s.1, set_db d s.2), Ret false).
Proof.
  intros Hr Hc He. destruct (loadDB_run s d Hr Hc) as [E _]. unfold exactSecretExists. rewrite run_try.
  unfold getExactNameAndID, get_db, gets, mbind, M_bind. rewrite E. cbn [fst snd set_db m_db]. unfold exact in He.
  destruct (gomap_get (IDToName d) x); [done|]. by destruct (gomap_get (NameToID d) x).
Qed.

(** What [Store] does after it found no secret of the name. *)
Lemma store_secret_run path dm s name now data options opts :
  apart_paths path (lockfile s.2) → loaded s → good (m_db s.2) → held (lockfile s.2) s.1 → (is_Some (s.1.2 !! file_lock path) → idle (file_lock path) s.1) →
  data_at (file_data path) s.1.1 dm → data_keys dm → exact (m_db s.2) name = Err ErrNoSuchSecret → (0 < fuel)%nat → fresh_source (m_db s.2) dm (w_rand s.1.1) →
  utf8 name = true → Replace options = false → options_text options → DriverOpts options = Some opts → opts !! "path" = Some path →
  ∃ s' id entry, store_secret fuel (mkSecret name "" None None now now "" None) data "file" options s = (s', Ret id) ∧
    lockfile s'.2 = lockfile s.2 ∧ ready s' ∧ held (lockfile s.2) s'.1 ∧ idle (file_lock path) s'.1 ∧ data_in (file_data path) s'.1.1 (<[id := data]> dm) ∧
    finds s' entry ∧ ID entry = id ∧ Name entry = name ∧ Driver entry = "file" ∧ DriverOptions entry = Some opts.
Proof.
  intros Hpaths Hl Hg Hh Hfree Hd Hkeys He Hfuel Hfresh Hn Hrep (Ho1 & Ho2 & Ho3) Hopts Hpath.
  destruct (key_paths _ _ Hpaths) as (H1' & H2' & H3' & H4' & H5' & H6').
  destruct (NewDriver_run path s.1) as (t2 & E2 & Hi2 & Hk2 & Ha2 & Hg2); [apply Hl|done|].
  assert (loaded (t2, s.2)) as Hl2 by (by apply loaded_table, Ha2). destruct (Ha2 p H4') as (_ & _ & Er2 & _ & _).
  destruct Hpaths as (_ & _ & Hmade).
  assert (data_at (file_data path) t2.1 dm) as Hd2 by (eapply data_at_apart; [by apply Ha2|exact Hg2|set_solver|done]).
  destruct (newID_run (t2, s.2) dm Hl2 Hfuel) as (pos & id & E3 & Hab & Hnew & Hu); [cbn [fst snd]; by rewrite Er2|]. cbn [fst snd] in E3, Hab.
  set (t3 := (set_randpos pos t2.1, t2.2) : LockTable) in *. assert (loaded (t3, s.2)) as Hl3 by (apply (loaded_table (t2, s.2)); [done|by split_and!]).
  destruct (file_Store_run (FileDriver.mkDriver (file_data path) (file_lock path)) t3 dm id data) as (w4 & l4 & E4 & Hi4 & Hd4 & Ha4);
    [done|simpl; set_solver|apply Hl3|exact Hi2|exact Hd2|done..|]. cbn [FileDriver.lockfile FileDriver.secretsDataFilePath] in *.
  set (t4 := (w4, <[file_lock path := l4]> t3.2) : LockTable) in *.
  assert (loaded (t4, s.2)) as Hl4 by (apply (loaded_table (t3, s.2)); [done|by apply Ha4]).
  set (entry := mkSecret name id (gomap_ensure (o_Labels options)) (gomap_ensure (o_Metadata options)) now now "file" (Some opts)).
  destruct (store_run (t4, s.2) entry Hl4 Hg) as (y & d & E5 & Hf5); [|apply Hab|done|].
  { split_and!; simpl; try done; [by apply map_text_ensure..|by rewrite <- Hopts]. }
  cbn [fst snd] in E5, Hf5. exists ((put_file false p y t4.1, t4.2), set_db d s.2), id, entry.
  split; [|split; [done|split; [|split; [|split; [|split; [|done]]]]]].
  - unfold store_secret. rewrite Hrep, Hopts. cbn [gomap_ensure]. unfold mbind at 1, M_bind at 1. unfold on_table at 1, zoom at 1, getDriver. rewrite decide_True by done.
    cbn [gomap_get mbind option_bind]. rewrite Hpath. unfold mbind, M_bind. rewrite E2. cbn [fst snd mret M_ret]. rewrite E3.
    unfold on_table at 1, zoom at 1. cbn [d_Store file_driver fst snd]. fold t3. rewrite E4. cbn [fst snd]. fold t4. unfold set_ID. cbn [Name ID Labels Metadata CreatedAt UpdatedAt Driver DriverOptions].
    fold entry. by rewrite E5.
  - split; apply Hl4.
  - destruct Hh as (lh & Elh & ?). exists lh. cbn [fst snd]. unfold t4, t3. cbn [fst snd]. rewrite lookup_insert_ne by done. by rewrite Hk2.
  - destruct Hi4 as (li & Eli & ?). by exists li.
  - destruct Hd4 as (z & Hz & ?). exists z. cbn [fst snd]. split; [|done]. simpl. by rewrite lookup_insert_ne.
Qed.

(** C23: A secret that [Store] puts into the file driver is found again.  Suppose
    no system call fails, the locks are free, the database is consistent and is
    the current one, the data file of the driver can be decoded or is not there
    yet, the paths of the three files and of the directories are different, and
    every identifier that the random source can yield is new.  Then for a new,
    valid name in UTF-8, data that is neither empty nor too long and options in
    UTF-8 with the path of the driver and without [Replace], [Store] returns an
    identifier, and [LookupSecretData] returns the data and the record of that
    name for both the name and the identifier, whether the file of the database
    has a new modification time by then or not. *)
Theorem Store_LookupSecretData path dm s name data options d opts :
  apart_paths path (lockfile s.2) → rest path dm s → current s = Some d → good d → data_keys dm → exact d name = Err ErrNoSuchSecret →
  (0 < fuel)%nat → fresh_source d dm (w_rand s.1.1) →
  validateSecretName name = None → data ≠ "" → (Z.of_nat (String.length data) < maxSecretSize)%Z → utf8 name = true →
  Replace options = false → options_text options → DriverOpts options = Some opts → opts !! "path" = Some path →
  ∃ s' id, Store fuel name data "file" options s = (s', Ret id) ∧
    ∀ x, x = name ∨ x = id → ∃ s'' sec, LookupSecretData fuel x s' = (s'', Ret (sec, data)) ∧ Name sec = name ∧ ID sec = id.
Proof.
  intros Hpaths Hrest Hc Hg Hkeys He Hfuel Hfresh Hv Hne Hsize Hn Hrep Htext Hopts Hpath. pose proof (key_paths _ _ Hpaths) as (_ & _ & H3' & _).
  destruct (begin_run _ _ _ _ Hpaths Hrest Hc) as (w & l & E & Hr1 & Hc1 & Hh & Hfree & Hd1 & Hrand).
  set (s1 := ((w, <[lockfile s.2 := l]> s.1.2), s.2) : St) in *. destruct (loadDB_run s1 d Hr1 Hc1) as [_ Hl1].
  destruct (time_Now w) as [w2 onow] eqn:Enow. assert (∃ now, onow = Ret now) as [now ->].
  { unfold time_Now in Enow. destruct (w_clock w); injection Enow as _ <-; by eexists. }
  pose proof (λ q, apart_time_Now q w) as Ha. rewrite Enow in Ha. cbn [fst] in Ha.
  set (s2 := ((w2, s1.1.2), set_db d s1.2) : St). assert (loaded s2) as Hl2 by (apply (loaded_table (s1.1, set_db d s1.2) (w2, s1.1.2)); [done|apply Ha]).
  destruct (store_secret_run path dm s2 name now data options opts) as (s3 & id & entry & E3 & Hlk & Hr3 & Hh3 & Hi3 & Hd3 & Hf3 & <- & <- & Hdr & Hdo); try done.
  { destruct (Ha (file_data path)) as [E' _]. destruct Hd1 as [(y & Hy & ?)|(-> & Hn1 & Hd1)]; [left; exists y; cbn [fst snd s2]; by rewrite E'|right].
    split; [done|]. cbn [fst snd s2]. split; [by rewrite E'|]. unfold time_Now in Enow. destruct (w_clock w); injection Enow as <- _; exact Hd1. }
  { cbn [fst snd s2 m_db set_db]. destruct (Ha p) as (_ & _ & -> & _). cbn [s1 fst snd]. by rewrite Hrand. }
  destruct (unlock_run (lockfile s.2) s3.1 Hh3) as (l4 & E4 & Hi4). set (s4 := ((s3.1.1, <[lockfile s.2 := l4]> s3.1.2), s3.2) : St).
  exists s4, (ID entry). split.
  - unfold Store. rewrite Hv. rewrite decide_False by (intros [?|?]; [done|lia]). rewrite Hrep, andb_false_r. unfold locked, gets, mbind, M_bind.
    rewrite E. unfold finally. rewrite (exact_first s1 d) by done. rewrite (on_table_world_run time_Now (s1.1, set_db d s1.2) w2 (Ret now) Enow). cbn [fst snd].
    fold s2. rewrite E3. unfold on_table, zoom. rewrite E4. done.
  - assert (lockfile s4.2 = lockfile s.2) as Hk4 by exact Hlk. assert (rest path (<[ID entry := data]> dm) s4) as Hrest4.
    { split; [exact Hr3|by rewrite Hk4|intros _; by apply (idle_insert _ _ _ s3.1)|left; exact Hd3]. }
    destruct Hf3 as (d' & sec & Hc4 & Hex1 & [n Hex2] & Hsec & Hor).
    assert (ID sec = ID entry ∧ Name sec = Name entry ∧ Driver sec = "file" ∧ DriverOptions sec = Some opts) as (Hsid & Hsn & Hsd & Hso) by (by destruct Hor as [-> | ->]).
    assert (∀ x n, exact d' x = Ret (n, ID entry) → ∃ s'' sec, LookupSecretData fuel x s4 = (s'', Ret (sec, data)) ∧ Name sec = Name entry ∧ ID sec = ID entry) as Hlook.
    { intros x n' Hx. destruct (LookupSecretData_run path (<[ID entry := data]> dm) s4 x entry d' sec data n' (Some opts)) as (s5 & E5); try done.
      - by rewrite Hk4.
      - by rewrite lookup_insert_eq.
      - by exists s5, sec. }
    intros x [-> | ->]; by eapply Hlook.
Qed.
End Runs.

(** ** Instances *)

(** A random source that always yields the same byte. *)
Definition demo_rand (_ : nat) : ascii := ascii_of_nat 171.

Lemma demo_bytes n pos : rand_bytes demo_rand pos n = rand_bytes demo_rand 0 n.
Proof. revert pos. induction n as [|n IH]; intros pos; [done|]. cbn [rand_bytes]. f_equal. by rewrite IH, (IH 1%nat). Qed.

Definition demo_world (r : nat → ascii) (faults : list fault) (stamps : list Z) (files : gmap string string) : World :=
  mkWorld files {["/"; "/s"; "/d"; "/e"]} faults r 0 [5; 6; 7; 8]%Z 1 0 (mkMeta ∅ stamps ∅ ∅ ∅).
Definition no_secrets : string := write_sealed (A := option (gmap string string)) (Some ∅).
Definition empty_db : db := mkDb (Some ∅) (Some ∅) (Some ∅) zero_time.
Definition free_lock (k : string) : LockFile := mkLockFile k false MFree 0 (mkLastWrite None) WriteLock false.
Definition demo_state (w : World) : St := ((w, {["/s/secrets.lock" := free_lock "/s/secrets.lock"]}), mkSecretsManager "/s/secrets.json" "/s/secrets.lock" empty_db).
Definition in_dir (path : string) (replace : bool) : StoreOptions := mkStoreOptions (Some {["path" := path]}) None None replace false.

(** The first secret of the file driver: its data file is not there yet. *)
Lemma Store_LookupSecretData_witness :
  let s := demo_state (demo_world demo_rand [] [1; 2; 3]%Z ∅) in
  ∃ s' id, Store 2 "password" "hunter2" "file" (in_dir "/d" false) s = (s', Ret id) ∧
    ∀ x, x = "password" ∨ x = id → ∃ s'' sec, LookupSecretData 2 x s' = (s'', Ret (sec, "hunter2")) ∧ Name sec = "password" ∧ ID sec = id.
Proof.
  apply (Store_LookupSecretData 2) with (p := "/s/secrets.json") (path := "/d") (dm := ∅) (d := empty_db) (opts := {["path" := "/d"]}).
  - intros m. by eexists.
  - intros d _. by eexists.
  - split; [done|]. split; [done|]. apply (bool_decide_unpack _). by vm_compute.
  - split; [done| | |].
    + eexists. by split_and!.
    + by intros [? ?].
    + right. split; [done|]. split; [done|]. apply (bool_decide_unpack _). by vm_compute.
  - done.
  - exists ∅, ∅, ∅. split_and!; [done..|apply consistent_empty|apply map_Forall_empty].
  - done.
  - done.
  - lia.
  - intros pos x id. subst id x. cbn [demo_state demo_world fst w_rand]. rewrite demo_bytes. split; [by vm_compute|]. split; [|done]. split; [by vm_compute|]. by intros i n ?.
  - done.
  - done.
  - by vm_compute.
  - done.
  - done.
  - by vm_compute.
  - done.
  - done.
Defined.

Lemma secrets_invariant_witness :
  let t := (demo_world demo_rand [NoFault; NoFault; NoFault; Short 3] [1; 2; 3]%Z ∅, ∅) in
  let m := mkSecretsManager "/s/secrets.json" "/s/secrets.lock" empty_db in
  let t' := (NewManager "/s" t).1 in
  NewManager "/s" t = (t', Ret m) ∧
  let s := (forM [OStore "a" "x" "file" (in_dir "/d" false); OLookup "a"; ODelete "a"; OList] (run_op 2) (t', m)).1 in
  good (m_db s.2) ∧ ∀ data d, w_files s.1.1 !! filepath_Join ["/s"; secretsFile] = Some data → Unmarshal_db data = inl d → good d.
Proof.
  intros t m t'. assert (NewManager "/s" t = (t', Ret m)) as E by (subst t t' m; vm_compute; reflexivity). split; [exact E|].
  apply (secrets_invariant 2 "/s" _ t t' m).
  - intros c w'. reflexivity.
  - apply map_Forall_empty.
  - by repeat constructor.
  - intros data d Hd. by vm_compute in Hd.
  - by repeat constructor.
  - exact E.
Defined.

(** ** What the code does wrong *)

(** A random source that counts. *)
Definition step_rand (n : nat) : ascii := ascii_of_nat (160 + Nat.div n 8).
Definition returns {A} (o : outcome A) : bool := match o with Ret _ => true | _ => false end.
Definition one_secret : St := (Store 5 "one" "x" "file" (in_dir "/d" false) (demo_state (demo_world step_rand [] [1; 2; 3; 4; 5; 6]%Z {["/d/secretsdata.json" := no_secrets]}))).1.
(** Another manager, which has not read the file yet. *)
Definition new_manager (s : St) : St := (s.1, set_db empty_db s.2).

(** When the file of the database cannot be examined, [loadDB] takes it for
    missing, although its comment only speaks of a missing file: [Store] then
    replaces the file with one that has nothing but the new secret. *)
Theorem Store_loses_secrets :
  let r := FailWith EIO in
  let refused := set_faults [NoFault; NoFault; r; NoFault; r; r; NoFault; NoFault; NoFault; NoFault; NoFault; NoFault; r] one_secret.1.1 in
  let '(s, o) := Store 5 "two" "y" "file" (in_dir "/d" false) (new_manager ((refused, one_secret.1.2), one_secret.2)) in
  returns (Lookup "one" (new_manager one_secret)).2 = true ∧ returns o = true ∧ (Lookup "one" (new_manager s)).2 = Err ErrNoSuchSecret.
Proof. vm_compute. split_and!; reflexivity. Qed.

(** Replacing a secret by one that another driver keeps leaves the old record
    behind: there are two secrets of the name, and deleting the old one by its
    identifier takes the name away from the new one. *)
Theorem Store_replace_keeps_old :
  let '(s, o) := Store 5 "one" "y" "file" (in_dir "/e" true) one_secret in
  match (Lookup "one" one_secret).2 with
  | Ret old =>
      returns o = true ∧ (match (List_ s).2 with Ret l => Name <$> l | _ => [] end) = ["one"; "one"] ∧ returns (Delete 5 (ID old) s).2 = true ∧
      (Lookup "one" (Delete 5 (ID old) s).1).2 = Err ErrNoSuchSecret
  | _ => False
  end.
Proof. vm_compute. split_and!; reflexivity. Qed.

(** A [.gpg-id] that exists but cannot be read, here a directory, keeps
    [findGpgID] in its loop: it goes on without a step to the parent. *)
Theorem findGpgID_diverges fuel cfg w :
  w_faults w = [] → (1 < String.length (PassDriver.Root cfg))%nat →
  filepath_Join [PassDriver.Root cfg; ".gpg-id"] ∈ w_dirs w → w_files w !! filepath_Join [PassDriver.Root cfg; ".gpg-id"] = None →
  PassDriver.findGpgID fuel cfg w = (w, Crash NoFuel).
Proof.
  intros Hw Hl Hd Hf. unfold PassDriver.findGpgID. assert (os_Open (filepath_Join [PassDriver.Root cfg; ".gpg-id"]) w = (w, Ret tt)) as Ho.
  { unfold os_Open. rewrite syscall_ok by done. unfold gets, mbind, M_bind. cbn [id]. rewrite decide_True; [done|by right]. }
  assert (ReadAll (filepath_Join [PassDriver.Root cfg; ".gpg-id"]) w = (w, Err (ErrOther "is a directory"))) as Hr.
  { unfold ReadAll. rewrite syscall_ok by done. unfold gets, mbind, M_bind. by rewrite Hf. }
  induction fuel as [|fuel IH]; [done|]. cbn [PassDriver.findGpgID_from]. rewrite decide_False by lia.
  rewrite run_try. unfold fileutils_Exists. rewrite Ho, run_try. unfold PassDriver.ReadFile, mbind, M_bind. by rewrite Ho, Hr.
Qed.

(** The driver for password managers cannot list a directory with a file whose
    name is shorter than the suffix. *)
Theorem pass_List_panics d w name l :
  w_faults w = [] → dir_entries (PassDriver.Root d) w = name :: l → (String.length name.1 < 4)%nat →
  PassDriver.List_ d w = (w, Crash (Panic "slice bounds out of range")).
Proof.
  intros Hw He Hn. unfold PassDriver.List_. unfold mbind at 1, M_bind at 1.
  assert (os_ReadDir (PassDriver.Root d) w = (w, Ret (name :: l))) as ->.
  { unfold os_ReadDir. rewrite syscall_ok by done. unfold gets, mbind, M_bind. rewrite He. by rewrite decide_True by (by right). }
  unfold mbind, M_bind. cbn [foldM]. unfold mbind, M_bind, PassDriver.without_suffix. by rewrite decide_True.
Qed.

(** An identifier can lead out of the directory into one whose name begins with
    that of the directory. *)
Theorem getPath_sibling :
  PassDriver.getPath (PassDriver.mkDriverConfig "/home/store" "" "" "gpg" false) "../store-old/key" = inl "/home/store-old/key.gpg".
Proof. reflexivity. Qed.
End SecretsTheorems.
