(* ===== verification/Capabilities.v ===== *)
(** * Linux capabilities: [common/pkg/capabilities]

    The capabilities of a container from those of the image, the ones to add and
    the ones to drop.  What the kernel supports and the bounding set of the
    process are a parameter; both are read once and do not change. *)

From stdpp Require Import sorting.
From S2P Require Import Prelude.
Local Open Scope string_scope.

Module Capabilities.

(** The capabilities the kernel supports and those in the bounding set of the
    process, as [capability.Cap.String] names them. *)
Class Kernel := {
  ListSupported : list string + error;
  Bounding : (string → bool) + error;     (* NewPid2 and Load *)
  ToUpper : string → string               (* strings.ToUpper *)
}.

Definition ErrUnknownCapability := ErrOther "unknown capability".
Definition errAddAndDropAll := ErrOther "adding all caps and removing all caps not allowed".
Definition errAddAndDrop := ErrOther "cannot be dropped and added".

Definition All := "ALL".

(** [slices.Sort] *)
Definition slices_Sort (l : list string) : list string := merge_sort String.le l.

Section Capabilities.
Context `{Kernel}.

Definition capName (c : string) : string := "CAP_" +:+ ToUpper c.

Definition capStrList : list string + error :=
  match ListSupported with inl l => inl (slices_Sort (capName <$> l)) | inr err => inr err end.

Definition AllCapabilities : list string := match capStrList with inl l => l | inr _ => [] end.

Definition BoundingSet : list string + error :=
  match Bounding with
  | inr err => inr err
  | inl has =>
      match ListSupported with
      | inr err => inr err
      | inl l => inl (slices_Sort (capName <$> filter (λ c, has c = true) l))
      end
  end.

Definition with_prefix (c : string) : string := if String.prefix "CAP_" c then c else "CAP_" +:+ c.

(** The loop of [NormalizeCapabilities]. *)
Fixpoint normalize_all (all : list string) (caps : list string) : list string + error :=
  match caps with
  | [] => inl []
  | c :: caps =>
      let c := ToUpper c in
      let rest := normalize_all all caps in
      if decide (c = All) then match rest with inl l => inl (c :: l) | inr e => inr e end
      else
        let c := with_prefix c in
        if decide (c ∉ all) then inr ErrUnknownCapability
        else match rest with inl l => inl (c :: l) | inr e => inr e end
  end.

Definition NormalizeCapabilities (caps : list string) : list string + error :=
  match capStrList with
  | inr err => inr err
  | inl all => match normalize_all all caps with inl normalized => inl (slices_Sort normalized) | inr err => inr err end
  end.

Definition ValidateCapabilities (caps : list string) : option error :=
  match capStrList with
  | inr err => Some err
  | inl all => if decide (Forall (.∈ all) caps) then None else Some ErrUnknownCapability
  end.

(** What is left of [base] and what is new. *)
Definition merged (base capAdd capDrop : list string) : list string :=
  slices_Sort (filter (.∉ capDrop) base ++ filter (.∉ base) capAdd).

Definition MergeCapabilities (base adds drops : list string) : list string + error :=
  match NormalizeCapabilities base with
  | inr err => inr err
  | inl base =>
      if decide (adds = [] ∧ drops = []) then inl base
      else
        match NormalizeCapabilities drops with
        | inr err => inr err
        | inl capDrop =>
            match NormalizeCapabilities adds with
            | inr err => inr err
            | inl capAdd =>
                if decide (All ∈ capDrop) then
                  if decide (All ∈ capAdd) then inr errAddAndDropAll else inl (slices_Sort capAdd)
                else if decide (All ∈ capAdd) then
                  match BoundingSet with
                  | inr err => inr err
                  | inl base => inl (merged base [] capDrop)
                  end
                else if decide (Exists (.∈ capDrop) capAdd) then inr errAddAndDrop
                else if decide (Exists (.∈ capAdd) capDrop) then inr errAddAndDrop
                else inl (merged base capAdd capDrop)
            end
        end
  end.

(** ** Facts *)

Lemma elem_of_Sort l x : x ∈ slices_Sort l ↔ x ∈ l.
Proof. unfold slices_Sort. by rewrite merge_sort_Permutation. Qed.

Lemma Sort_sorted l : StronglySorted String.le (slices_Sort l).
Proof. apply StronglySorted_merge_sort; apply _. Qed.

(** What a list of names stands for, entry by entry. *)
Definition meaning (c : string) : string := let c := ToUpper c in if decide (c = All) then All else with_prefix c.

Lemma normalize_all_spec all caps :
  normalize_all all caps =
  if decide (Forall (λ c, meaning c = All ∨ meaning c ∈ all) caps) then inl (meaning <$> caps) else inr ErrUnknownCapability.
Proof.
  assert (∀ c, ToUpper c ≠ All → meaning c ≠ All) as Hne.
  { intros c Hc. unfold meaning. rewrite decide_False by done. unfold with_prefix. destruct (String.prefix "CAP_" (ToUpper c)) eqn:E; [|done]. done. }
  induction caps as [|c caps IH]; [done|]. cbn [normalize_all fmap list_fmap]. rewrite IH.
  destruct (decide (Forall _ caps)) as [Hf|Hf].
  - destruct (decide (ToUpper c = All)) as [Hc|Hc].
    + assert (meaning c = All) as Hm by (unfold meaning; by rewrite decide_True). rewrite decide_True by (constructor; auto). by rewrite Hm, Hc.
    + assert (meaning c = with_prefix (ToUpper c)) as Hm by (unfold meaning; by rewrite decide_False). rewrite <- Hm.
      destruct (decide (meaning c ∉ all)) as [Hn|Hn].
      * rewrite decide_False; [done|]. intros [[?|?] _]%Forall_cons; [by apply (Hne c)|done].
      * apply dec_stable in Hn. by rewrite decide_True by (constructor; auto).
  - assert (¬ Forall (λ c, meaning c = All ∨ meaning c ∈ all) (c :: caps)) as Hn by (by intros [_ ?]%Forall_cons). rewrite (decide_False (P := Forall _ (c :: caps))) by done.
    destruct (decide (ToUpper c = All)); [done|]. by destruct (decide (_ ∉ all)).
Qed.

(** The normal form of a list has the meanings of its entries, all of them
    known to the kernel, in order; a list with an unknown one has none. *)
Lemma Normalize_spec all caps :
  capStrList = inl all →
  NormalizeCapabilities caps =
  if decide (Forall (λ c, meaning c = All ∨ meaning c ∈ all) caps) then inl (slices_Sort (meaning <$> caps)) else inr ErrUnknownCapability.
Proof. intros Ha. unfold NormalizeCapabilities. rewrite Ha, normalize_all_spec. by destruct (decide _). Qed.

Lemma elem_of_merged base capAdd capDrop x :
  x ∈ merged base capAdd capDrop ↔ (x ∈ base ∧ x ∉ capDrop) ∨ (x ∈ capAdd ∧ x ∉ base).
Proof. unfold merged. rewrite elem_of_Sort, elem_of_app, !list_elem_of_filter. tauto. Qed.

(** Which capabilities are asked for: a name stands for itself. *)
Definition named (c : string) (l : list string) : Prop := ∃ x, x ∈ l ∧ meaning x = c.

#[local] Instance named_dec c l : Decision (named c l).
Proof.
  refine (cast_if (decide (Exists (λ x, meaning x = c) l))); unfold named; by rewrite <- Exists_exists.
Defined.

Definition known (all l : list string) : Prop := Forall (λ c, meaning c = All ∨ meaning c ∈ all) l.

(** What a container gets unless everything is added: with everything dropped,
    what is added; else [base] and what is added, without what is dropped. *)
Definition granted (base adds drops : list string) (c : string) : Prop :=
  if decide (named All drops) then named c adds else ¬ named c drops ∧ (named c base ∨ named c adds).

Lemma named_normal l x : x ∈ slices_Sort (meaning <$> l) ↔ named x l.
Proof. rewrite elem_of_Sort, list_elem_of_fmap. unfold named. naive_solver. Qed.

(** C24: Unless everything is added, [MergeCapabilities] returns exactly the
    capabilities that are granted, sorted: those that are added if everything is
    dropped, else those of [base] and the added ones without the dropped ones.
    It fails exactly when a name is unknown to the kernel or when, without
    everything being dropped, one capability is both added and dropped. *)
Theorem MergeCapabilities_spec all base adds drops :
  capStrList = inl all → ¬ named All adds →
  match MergeCapabilities base adds drops with
  | inl caps =>
      known all base ∧ known all adds ∧ known all drops ∧ StronglySorted String.le caps ∧
      (named All drops ∨ ∀ c, named c adds → ¬ named c drops) ∧
      ∀ c, c ∈ caps ↔ granted base adds drops c
  | inr e =>
      (e = ErrUnknownCapability ∧ ¬ (known all base ∧ known all adds ∧ known all drops)) ∨
      (e = errAddAndDrop ∧ ¬ named All drops ∧ ∃ c, named c adds ∧ named c drops)
  end.
Proof.
  intros Ha HAA. unfold MergeCapabilities. rewrite !(Normalize_spec all) by done. fold (known all base) (known all adds) (known all drops).
  destruct (decide (known all base)) as [Kb|Kb]; [|left; tauto].
  destruct (decide (adds = [] ∧ drops = [])) as [[-> ->]|Hne].
  { assert (∀ c, ¬ named c []) as Hn by (intros c (x & Hx & _); by apply not_elem_of_nil in Hx).
    split_and!; [done|by constructor..|apply Sort_sorted|naive_solver|]. intros c. rewrite named_normal. unfold granted.
    rewrite !decide_False by apply Hn. naive_solver. }
  destruct (decide (known all drops)) as [Kd|Kd]; [|left; tauto]. destruct (decide (known all adds)) as [Ka|Ka]; [|left; tauto].
  set (A := slices_Sort (meaning <$> adds)). set (D := slices_Sort (meaning <$> drops)).
  assert (∀ x, x ∈ A ↔ named x adds) as HA by apply named_normal. assert (∀ x, x ∈ D ↔ named x drops) as HD by apply named_normal.
  rewrite !(decide_False (P := All ∈ A)) by (by rewrite HA).
  destruct (decide (All ∈ D)) as [HDA|HDA]; rewrite HD in HDA.
  { split_and!; [done..|apply Sort_sorted|tauto|]. intros c. unfold granted. rewrite elem_of_Sort, HA. by rewrite decide_True. }
  assert (∀ l l' : list string, Exists (.∈ l) l' ↔ ∃ c, c ∈ l' ∧ c ∈ l) as Hex by (intros l l'; apply Exists_exists).
  destruct (decide (Exists (.∈ D) A)) as [E|E].
  { apply Hex in E as (c & Hc & Hd). right. rewrite HA in Hc. rewrite HD in Hd. by eauto 10. }
  destruct (decide (Exists (.∈ A) D)) as [E'|_].
  { apply Hex in E' as (c & Hc & Hd). right. rewrite HD in Hc. rewrite HA in Hd. by eauto 10. }
  assert (∀ c, named c adds → ¬ named c drops) as Hdis by (intros c ? ?; apply E, Hex; exists c; by rewrite HA, HD).
  split_and!; [done..|apply Sort_sorted|tauto|]. intros c. unfold granted. rewrite elem_of_merged, HD, HA, named_normal.
  rewrite decide_False by done. specialize (Hdis c). destruct (decide (named c base)); tauto.
Qed.

(** With everything added, the comment speaks of the known capabilities; the
    code returns the bounding set of the process without what is dropped. *)
Theorem MergeCapabilities_all all bounding base adds drops :
  capStrList = inl all → BoundingSet = inl bounding → known all base → known all adds → known all drops → named All adds →
  match MergeCapabilities base adds drops with
  | inl caps => ¬ named All drops ∧ ∀ c, c ∈ caps ↔ c ∈ bounding ∧ ¬ named c drops
  | inr e => e = errAddAndDropAll ∧ named All drops
  end.
Proof.
  intros Ha Hb Kb Ka Kd HAA. unfold MergeCapabilities. rewrite !(Normalize_spec all) by done.
  rewrite !(decide_True (P := Forall _ _)) by done. rewrite decide_False by (intros [-> _]; destruct HAA as (x & Hx & _); by apply not_elem_of_nil in Hx).
  rewrite !(decide_True (P := All ∈ slices_Sort (meaning <$> adds))) by (by apply named_normal). rewrite Hb.
  case_decide as HDA; rewrite named_normal in HDA; [done|]. split; [done|]. intros c. rewrite elem_of_merged, named_normal. set_solver.
Qed.
End Capabilities.

(** ** A kernel *)

Definition upper (c : ascii) : ascii :=
  let n := nat_of_ascii c in if Nat.leb 97 n && Nat.leb n 122 then ascii_of_nat (n - 32) else c.
Fixpoint ascii_upper (s : string) : string := match s with "" => "" | String c s => String (upper c) (ascii_upper s) end.

Definition demo_kernel : Kernel := {|
  ListSupported := inl ["chown"; "kill"; "net_raw"; "sys_admin"];
  Bounding := inl (λ c, negb (String.eqb c "sys_admin"));
  ToUpper := ascii_upper
|}.

Lemma MergeCapabilities_spec_witness :
  let K := demo_kernel in
  MergeCapabilities ["CAP_KILL"; "chown"] ["net_raw"] ["Kill"] = inl ["CAP_CHOWN"; "CAP_NET_RAW"] ∧
  ∀ c, c ∈ ["CAP_CHOWN"; "CAP_NET_RAW"] ↔ granted ["CAP_KILL"; "chown"] ["net_raw"] ["Kill"] c.
Proof.
  intros K. assert (MergeCapabilities ["CAP_KILL"; "chown"] ["net_raw"] ["Kill"] = inl ["CAP_CHOWN"; "CAP_NET_RAW"]) as E by (vm_compute; reflexivity).
  split; [exact E|].
  pose proof (MergeCapabilities_spec (H := K) ["CAP_CHOWN"; "CAP_KILL"; "CAP_NET_RAW"; "CAP_SYS_ADMIN"]
    ["CAP_KILL"; "chown"] ["net_raw"] ["Kill"] ltac:(vm_compute; reflexivity)) as Hs.
  rewrite E in Hs. apply Hs. intros (x & ->%list_elem_of_singleton & Hx). vm_compute in Hx. discriminate Hx.
Defined.

Lemma MergeCapabilities_all_witness :
  let K := demo_kernel in
  MergeCapabilities [] ["all"] ["Kill"] = inl ["CAP_CHOWN"; "CAP_NET_RAW"] ∧ "CAP_SYS_ADMIN" ∉ ["CAP_CHOWN"; "CAP_NET_RAW"].
Proof.
  intros K. assert (MergeCapabilities [] ["all"] ["Kill"] = inl ["CAP_CHOWN"; "CAP_NET_RAW"]) as E by (vm_compute; reflexivity). split; [exact E|].
  pose proof (MergeCapabilities_all (H := K) ["CAP_CHOWN"; "CAP_KILL"; "CAP_NET_RAW"; "CAP_SYS_ADMIN"] ["CAP_CHOWN"; "CAP_KILL"; "CAP_NET_RAW"]
    [] ["all"] ["Kill"] ltac:(vm_compute; reflexivity) ltac:(vm_compute; reflexivity)) as Hs.
  rewrite E in Hs. destruct Hs as [_ Hs]; [constructor|by repeat constructor|repeat constructor; right; vm_compute; set_solver|by exists "all"; split; [left|]|].
  rewrite Hs. intros [Hin _]. revert Hin. set_solver.
Defined.

(** With everything dropped, a capability that is dropped by its name too can
    still be added; and a capability that is added twice is there twice. *)
Lemma MergeCapabilities_corners :
  let K := demo_kernel in
  MergeCapabilities [] ["kill"] ["all"; "kill"] = inl ["CAP_KILL"] ∧ MergeCapabilities [] ["kill"; "CAP_KILL"] [] = inl ["CAP_KILL"; "CAP_KILL"].
Proof. vm_compute. by split. Qed.
End Capabilities.
