(* ===== verification/Ipam.v ===== *)
(** * Addresses of containers: [common/libnetwork/netavark/ipam.go]

    The addresses that the containers of a network have, kept in a key-value
    database with a bucket per subnet, with the calculations on addresses of
    [libnetwork/util].  The database ([bbolt]) and the texts of addresses are
    parameters. *)

From S2P Require Import Prelude StoreUtil.
Local Open Scope string_scope.

Module Ipam.

(** ** Addresses: package [net] *)

(** The bytes of an address, 4 or 16 of them; [nil] is [None] where the code
    tests for it. *)
Notation IP := string.

Definition byteval (c : ascii) : Z := Z.of_nat (nat_of_ascii c).
Definition byte (z : Z) : ascii := ascii_of_nat (Z.to_nat (z mod 256)).

Definition v4InV6Prefix : string :=
  String "000" (String "000" (String "000" (String "000" (String "000" (String "000" (String "000" (String "000" (String "000" (String "000"
    (String "255" (String "255" ""))))))))))).

Definition To4 (ip : IP) : option IP :=
  if decide (String.length ip = 4)%nat then Some ip
  else if decide (String.length ip = 16)%nat then
    if String.prefix v4InV6Prefix ip then Some (String.substring 12 4 ip) else None
  else None.

Definition To16 (ip : IP) : option IP :=
  if decide (String.length ip = 4)%nat then Some (v4InV6Prefix +:+ ip)
  else if decide (String.length ip = 16)%nat then Some ip
  else None.

Record IPNet := mkIPNet { n_IP : IP; n_Mask : string }.

(** [networkNumberAndMask] *)
Definition networkNumberAndMask (n : IPNet) : option (IP * string) :=
  let ip := match To4 (n_IP n) with
            | Some ip => Some ip
            | None => if decide (String.length (n_IP n) = 16)%nat then Some (n_IP n) else None
            end in
  match ip with
  | None => None
  | Some ip =>
      let m := n_Mask n in
      if decide (String.length m = 4)%nat then if decide (String.length ip = 4)%nat then Some (ip, m) else None
      else if decide (String.length m = 16)%nat then
        Some (ip, if decide (String.length ip = 4)%nat then String.substring 12 4 m else m)
      else None
  end.

Fixpoint bytewise (f : Z → Z → Z) (a b : string) : string :=
  match a, b with
  | String x a, String y b => String (byte (f (byteval x) (byteval y))) (bytewise f a b)
  | _, _ => ""
  end.

Definition Contains (n : IPNet) (ip : IP) : bool :=
  match networkNumberAndMask n with
  | None => false
  | Some (nn, m) =>
      let ip := default ip (To4 ip) in
      bool_decide (String.length ip = String.length nn) && bool_decide (bytewise Z.land nn m = bytewise Z.land ip m)
  end.

(** A mask of ones followed by zeros. *)
Fixpoint zero_mask (m : string) : bool := match m with "" => true | String c m => bool_decide (byteval c = 0)%Z && zero_mask m end.
Fixpoint simpleMask (m : string) : bool :=
  match m with
  | "" => true
  | String c m => if decide (byteval c = 255)%Z then simpleMask m
                  else bool_decide (byteval c ∈ [0; 128; 192; 224; 240; 248; 252; 254]%Z) && zero_mask m
  end.

(** [net.ParseCIDR(n.String())]: the network itself; there is no text for a
    mask that has holes. *)
Definition reparse (n : IPNet) : IPNet + error :=
  match networkNumberAndMask n with
  | Some (nn, m) => if simpleMask m then inl (mkIPNet (bytewise Z.land nn m) m) else inr (ErrOther "invalid CIDR address")
  | None => inr (ErrOther "invalid CIDR address")
  end.

(** [IP.Equal] *)
Definition Equal (a b : IP) : bool :=
  bool_decide (a = b) || bool_decide (To16 a = To16 b ∧ To16 a ≠ None).

(** ** libnetwork/util *)

Fixpoint be (s : string) : Z :=
  match s with "" => 0 | String c s => byteval c * 256 ^ Z.of_nat (String.length s) + be s end.

(** [big.Int.Bytes]: the digits of the absolute value, without leading zeros. *)
Fixpoint digits (n : nat) (z : Z) : string :=
  match n with 0 => "" | S n => String (byte (z / 256 ^ Z.of_nat n)) (digits n z) end.
Definition byte_length (z : Z) : nat := if decide (z = 0)%Z then 0 else Z.to_nat (Z.log2 z / 8 + 1).
Definition Bytes (z : Z) : string := digits (byte_length (Z.abs z)) (Z.abs z).

Definition ipToInt (ip : IP) : Z :=
  match To4 ip with Some v => be v | None => be (default "" (To16 ip)) end.
Definition intToIP (i : Z) : IP := Bytes i.

Definition NextIP (ip : IP) : IP := intToIP (ipToInt ip + 1).
Definition PrevIP (ip : IP) : IP := intToIP (ipToInt ip - 1).
Definition Cmp (a b : IP) : comparison := (ipToInt a ?= ipToInt b)%Z.

Definition IsIPv6 (ip : option IP) : bool := match ip with Some ip => bool_decide (To4 ip = None) | None => false end.
Definition IsIPv4 (ip : option IP) : bool := match ip with Some ip => bool_decide (To4 ip ≠ None) | None => false end.

(** [cidr.IP[i] |= ^cidr.Mask[i]] *)
Definition LastIPInSubnet (addr : IPNet) : IP + error :=
  match reparse addr with
  | inr err => inr err
  | inl cidr => inl (bytewise (λ x m, Z.lor x (255 - m)) (n_IP cidr) (n_Mask cidr))
  end.

Fixpoint inc_last (ip : IP) : IP :=
  match ip with
  | "" => ""
  | String c "" => String (byte (byteval c + 1)) ""
  | String c ip => String c (inc_last ip)
  end.
Fixpoint all_ones (m : string) : bool := match m with "" => true | String c m => bool_decide (byteval c = 255)%Z && all_ones m end.
Definition FirstIPInSubnet (addr : IPNet) : IP + error :=
  match reparse addr with
  | inr err => inr err
  | inl cidr => inl (if all_ones (n_Mask cidr) then n_IP cidr else inc_last (n_IP cidr))
  end.

Definition NormalizeIP (ip : IP) : IP := default ip (To4 ip).

(** ** libnetwork/types and internal/util *)

Record LeaseRange := mkLeaseRange { StartIP : option IP; EndIP : option IP }.
Record Subnet := mkSubnet { Subnet_ : IPNet; Gateway : option IP; s_LeaseRange : option LeaseRange }.
Record Network := mkNetwork { net_Name : string; Subnets : list Subnet; IPv6Enabled : bool; IPAMOptions : gomap string }.

Definition networkIntersect (n1 n2 : IPNet) : bool := Contains n2 (n_IP n1) || Contains n1 (n_IP n2).
Definition NetworkIntersectsWithNetworks (n : IPNet) (networklist : list IPNet) : bool := existsb (networkIntersect n) networklist.

Definition check_in (n : IPNet) (ip : option IP) (msg : string) : option IP + error :=
  match ip with
  | None => inl None
  | Some ip => if Contains n ip then inl (Some (NormalizeIP ip)) else inr (ErrOther msg)
  end.

(** The lease range after its addresses were checked. *)
Definition check_range (n : IPNet) (r : option LeaseRange) : option LeaseRange + error :=
  match r with
  | None => inl None
  | Some r =>
      match check_in n (StartIP r) "lease range start ip not in subnet" with
      | inr err => inr err
      | inl start =>
          match check_in n (EndIP r) "lease range end ip not in subnet" with
          | inr err => inr err
          | inl end_ => inl (Some (mkLeaseRange start end_))
          end
      end
  end.

(** The new contents of [*s], or the error; [s.Subnet.IP] is not nil. *)
Definition ValidateSubnet (s : Subnet) (addGateway : bool) (usedNetworks : list IPNet) : Subnet + error :=
  match reparse (Subnet_ s) with
  | inr err => inr err
  | inl n =>
      if NetworkIntersectsWithNetworks n usedNetworks then inr (ErrOther "subnet is already used on the host or by another config")
      else
        let gw := match Gateway s with
                  | Some _ => check_in n (Gateway s) "gateway not in subnet"
                  | None => if addGateway then match FirstIPInSubnet n with inl ip => inl (Some ip) | inr err => inr err end else inl None
                  end in
        match gw with
        | inr err => inr err
        | inl gw => match check_range n (s_LeaseRange s) with inr err => inr err | inl r => inl (mkSubnet n gw r) end
        end
  end.

(** Whether one of the later subnets is the same or overlaps. *)
Fixpoint overlaps (text : IPNet → string) (s : IPNet) (later : list Subnet) : option error :=
  match later with
  | [] => None
  | s' :: later =>
      if decide (text s = text (Subnet_ s')) then Some (ErrOther "duplicate subnets detected")
      else if networkIntersect s (Subnet_ s') then Some (ErrOther "overlapping subnets detected")
      else overlaps text s later
  end.

Fixpoint ValidateSubnets (text : IPNet → string) (subnets : list Subnet) (addGateway : bool) (usedNetworks : list IPNet) : list Subnet * bool + error :=
  match subnets with
  | [] => inl ([], false)
  | s :: later =>
      match overlaps text (Subnet_ s) later with
      | Some err => inr err
      | None =>
          match ValidateSubnet s addGateway usedNetworks with
          | inr err => inr err
          | inl s =>
              match ValidateSubnets text later addGateway usedNetworks with
              | inr err => inr err
              | inl (l, ipv6) => inl (s :: l, IsIPv6 (Some (n_IP (Subnet_ s))) || ipv6)
              end
          end
      end
  end.

(** ** The database *)

(** A transaction of [bbolt]: nested buckets, named by their path. *)
Class Bolt (Tx : Type) := {
  Bucket : Tx → list string → bool;                          (* the bucket exists *)
  CreateBucketIfNotExists : Tx → list string → Tx + error;
  DeleteBucket : Tx → list string → Tx + error;
  Get : Tx → list string → string → option string;
  Put : Tx → list string → string → string → Tx + error;
  Delete : Tx → list string → string → Tx + error
}.

Class NetText := {
  IPNet_String : IPNet → string;
  MarshalIPs : list IP → string + error;
  UnmarshalIPs : string → list IP + error
}.

Definition ErrBucketNotFound := ErrOther "bucket not found".

(** [newIPAMError] *)
Definition ipam_error (msg : string) : error := ErrOther msg.

Definition idBucket := "ids".
Definition lastIPKey := "lastIP".

(** *** getFreeIPFromBucket *)

Section GetFree.
(** The entries of the bucket of the subnet. *)
Context (get : string → option string).

(** The loop; the rounds it may take are limited by [fuel]. *)
Fixpoint free_loop (fuel : nat) (gateway : option IP) (rangeStart rangeEnd startIP curIP : IP) : outcome IP :=
  match fuel with
  | 0 => Crash NoFuel
  | S fuel =>
      if (match gateway with Some g => bool_decide (Cmp curIP g = Eq) | None => false end)
      then free_loop fuel gateway rangeStart rangeEnd startIP (NextIP curIP)
      else if decide (Cmp curIP rangeEnd = Gt) then
        if decide (Cmp rangeStart startIP = Eq) then Err (ipam_error "failed to find free IP in range")
        else free_loop fuel gateway rangeStart rangeEnd startIP rangeStart
      else if decide (get curIP = None) then Ret curIP
      else
        let curIP := NextIP curIP in
        if decide (Cmp curIP startIP = Eq) then Err (ipam_error "failed to find free IP in range")
        else free_loop fuel gateway rangeStart rangeEnd startIP curIP
  end.

(** The first and the last address to try. *)
Definition range_start (s : Subnet) : IP :=
  match s_LeaseRange s ≫= StartIP with
  | None => NextIP (n_IP (Subnet_ s))
  | Some start => if decide (Cmp start (n_IP (Subnet_ s)) = Eq) then NextIP start else start
  end.
Definition range_end (s : Subnet) (lastIP : IP) : IP :=
  let rangeEnd := default lastIP (s_LeaseRange s ≫= EndIP) in
  if IsIPv4 (Some rangeEnd) && bool_decide (Cmp rangeEnd lastIP = Eq) then PrevIP rangeEnd else rangeEnd.

Definition getFreeIPFromBucket (fuel : nat) (s : Subnet) : outcome IP :=
  match LastIPInSubnet (Subnet_ s) with
  | inr err => Err err
  | inl lastIP =>
      let rangeStart := range_start s in
      let rangeEnd := range_end s lastIP in
      let curIP := match get lastIPKey with None => rangeStart | Some l => NextIP l end in
      free_loop fuel (Gateway s) rangeStart rangeEnd curIP curIP
  end.
End GetFree.

(** ** Operations *)

Record PerNetworkOptions := mkPerNetworkOptions { StaticIPs : list IP }.
Record NamedPerNetworkOptions := mkNamed { no_Name : string; no_Options : PerNetworkOptions }.
Record NetworkOptions := mkNetworkOptions { ContainerID : string; Networks : list NamedPerNetworkOptions }.

Section Operations.
Context {Tx : Type} `{Bolt Tx} `{NetText}.
Context (fuel : nat).
(** [n.networks] *)
Context (networks : gmap string Network).

Definition HostLocalIPAMDriver := "host-local".

Definition requiresIPAMAlloc (network : Network) : bool :=
  match default "" (gomap_get (IPAMOptions network) "driver") with
  | "" | "host-local" => negb (bool_decide (Subnets network = []))
  | _ => false
  end.

(** A transaction of the database that runs code of the manager. *)
Definition try_tx {A} (r : A + error) : M Tx A := match r with inl a => mret a | inr e => fail e end.
Definition tx_do (f : Tx → Tx + error) : M Tx unit := λ tx, match f tx with inl tx => (tx, Ret tt) | inr e => (tx, Err e) end.

(** [db.Update]: what was done is kept only without an error. *)
Definition Update {A} (m : M Tx A) : M Tx A := λ tx,
  match m tx with (tx', Ret a) => (tx', Ret a) | (_, o) => (tx, o) end.

(** The static addresses of one subnet. *)
Definition alloc_static (bkt : list string) (subnet : Subnet) (id : string) (acc : list IP * bool) (staticIP : IP) : M Tx (list IP * bool) :=
  if Contains (Subnet_ subnet) staticIP then
    let staticIP := NormalizeIP staticIP in
    if (match Gateway subnet with Some g => Equal staticIP g | None => false end)
    then fail (ipam_error "address already in use: requested static IP matches the subnet gateway")
    else
      owner ← gets (λ tx, Get tx bkt staticIP);
      match owner with
      | Some _ => fail (ipam_error "requested ip address is already allocated")
      | None =>
          tx_do (λ tx, Put tx bkt staticIP id);;
          mret ((acc.1 ++ [staticIP])%list, true)
      end
  else mret acc.

(** The addresses of one subnet, added to the list. *)
Definition alloc_subnet (net : string) (staticIPs : list IP) (id : string) (requestIPs : list IP) (subnet : Subnet) : M Tx (list IP) :=
  let bkt := [net; IPNet_String (Subnet_ subnet)] in
  tx_do (λ tx, CreateBucketIfNotExists tx bkt);;
  '(requestIPs, hasSubnetStaticIP) ← foldM (alloc_static bkt subnet id) (requestIPs, false) staticIPs;
  if (hasSubnetStaticIP : bool) then mret requestIPs
  else
    ip ← (λ tx, (tx, getFreeIPFromBucket (Get tx bkt) fuel subnet));
    tx_do (λ tx, Put tx bkt lastIPKey ip);;
    tx_do (λ tx, Put tx bkt ip id);;
    mret (requestIPs ++ [ip])%list.

Definition alloc_network (id : string) (namedNet : NamedPerNetworkOptions) : M Tx NamedPerNetworkOptions :=
  match networks !! no_Name namedNet with
  | None => fail (ipam_error "could not find network")
  | Some network =>
      if negb (requiresIPAMAlloc network) then mret namedNet
      else
        tx_do (λ tx, CreateBucketIfNotExists tx [no_Name namedNet]);;
        requestIPs ← foldM (alloc_subnet (no_Name namedNet) (StaticIPs (no_Options namedNet)) id) [] (Subnets network);
        tx_do (λ tx, CreateBucketIfNotExists tx [no_Name namedNet; idBucket]);;
        ipsBytes ← try_tx (MarshalIPs requestIPs);
        tx_do (λ tx, Put tx [no_Name namedNet; idBucket] id ipsBytes);;
        mret (mkNamed (no_Name namedNet) (mkPerNetworkOptions requestIPs))
  end.

(** The options with the addresses filled in. *)
Definition allocIPs (opts : NetworkOptions) : M Tx NetworkOptions :=
  Update (nets ← foldM (λ acc n, n ← alloc_network (ContainerID opts) n; mret (acc ++ [n])%list) [] (Networks opts);
          mret (mkNetworkOptions (ContainerID opts) nets)).

Definition assigned_network (id : string) (namedNet : NamedPerNetworkOptions) : M Tx NamedPerNetworkOptions :=
  match networks !! no_Name namedNet with
  | None => fail (ipam_error "could not find network")
  | Some network =>
      if negb (requiresIPAMAlloc network) then mret namedNet
      else
        tx ← gets (λ tx, tx);
        if negb (Bucket tx [no_Name namedNet]) then fail (ipam_error "failed to get network bucket")
        else if negb (Bucket tx [no_Name namedNet; idBucket]) then fail (ipam_error "failed to get id bucket")
        else
          match Get tx [no_Name namedNet; idBucket] id with
          | None => fail (ipam_error "failed to get ips for container ID")
          | Some ipJSON =>
              assignedIPs ← try_tx (UnmarshalIPs ipJSON);
              mret (mkNamed (no_Name namedNet) (mkPerNetworkOptions (NormalizeIP <$> assignedIPs)))
          end
  end.

Definition getAssignedIPs (opts : NetworkOptions) : M Tx NetworkOptions :=
  nets ← foldM (λ acc n, n ← assigned_network (ContainerID opts) n; mret (acc ++ [n])%list) [] (Networks opts);
  mret (mkNetworkOptions (ContainerID opts) nets).

Definition dealloc_static (bkt : list string) (subnet : Subnet) (removed : bool) (assignedIP : IP) : M Tx bool :=
  if Contains (Subnet_ subnet) assignedIP then tx_do (λ tx, Delete tx bkt (NormalizeIP assignedIP));; mret true
  else mret removed.

Definition dealloc_subnet (net : string) (staticIPs : list IP) (subnet : Subnet) : M Tx unit :=
  let bkt := [net; IPNet_String (Subnet_ subnet)] in
  tx ← gets (λ tx, tx);
  if negb (Bucket tx bkt) then fail (ipam_error "failed to get subnet bucket")
  else
    removed ← foldM (dealloc_static bkt subnet) false staticIPs;
    if (removed : bool) then mret tt else fail (ipam_error "failed to find ip for subnet").

Definition dealloc_network (id : string) (namedNet : NamedPerNetworkOptions) : M Tx unit :=
  match networks !! no_Name namedNet with
  | None => fail (ipam_error "could not find network")
  | Some network =>
      if negb (requiresIPAMAlloc network) then mret tt
      else
        tx ← gets (λ tx, tx);
        if negb (Bucket tx [no_Name namedNet]) then fail (ipam_error "failed to get network bucket")
        else
          forM (Subnets network) (dealloc_subnet (no_Name namedNet) (StaticIPs (no_Options namedNet)));;
          tx ← gets (λ tx, tx);
          if negb (Bucket tx [no_Name namedNet; idBucket]) then fail (ipam_error "failed to get id bucket")
          else tx_do (λ tx, Delete tx [no_Name namedNet; idBucket] id)
  end.

Definition deallocIPs (opts : NetworkOptions) : M Tx unit := Update (forM (Networks opts) (dealloc_network (ContainerID opts))).

Definition removeNetworkIPAMBucket (network : Network) : M Tx unit :=
  if negb (requiresIPAMAlloc network) then mret tt
  else Update (λ tx, match DeleteBucket tx [net_Name network] with
                     | inl tx => (tx, Ret tt)
                     | inr e => if decide (e = ErrBucketNotFound) then (tx, Ret tt) else (tx, Err e)
                     end).
End Operations.
End Ipam.
