(* ===== verification/IpamFacts.v ===== *)
(** * Theorems about the addresses of containers

    Addresses as numbers, and the search for a free one. *)

From S2P Require Import Prelude StoreUtil Codec Ipam.
Local Open Scope string_scope.
Local Open Scope Z_scope.

Module IpamFacts.
Import Ipam.Ipam.

(** ** Bytes and numbers *)

Lemma byteval_bound c : 0 ≤ byteval c < 256.
Proof. unfold byteval. pose proof (nat_ascii_bounded c). lia. Qed.

Lemma byteval_byte z : byteval (byte z) = z mod 256.
Proof.
  unfold byteval, byte. pose proof (Z.mod_pos_bound z 256 ltac:(lia)). rewrite nat_ascii_embedding by lia. lia.
Qed.

Lemma byteval_inj c c' : byteval c = byteval c' → c = c'.
Proof. unfold byteval. intros E%Nat2Z.inj. rewrite <- (ascii_nat_embedding c), <- (ascii_nat_embedding c'). by rewrite E. Qed.

Lemma pow_pos n : 0 < 256 ^ Z.of_nat n.
Proof. apply Z.pow_pos_nonneg; lia. Qed.

Lemma pow_S n : 256 ^ Z.of_nat (S n) = 256 * 256 ^ Z.of_nat n.
Proof. rewrite Nat2Z.inj_succ. apply Z.pow_succ_r. lia. Qed.

Lemma be_bound s : 0 ≤ be s < 256 ^ Z.of_nat (String.length s).
Proof.
  induction s as [|c s IH]; [done|]. cbn [be String.length]. rewrite pow_S. pose proof (byteval_bound c). nia.
Qed.

Lemma be_inj a b : String.length a = String.length b → be a = be b → a = b.
Proof.
  revert b. induction a as [|c a IH]; intros [|c' b] Hl E; try done. injection Hl as Hl. cbn [be] in E. rewrite Hl in E.
  pose proof (be_bound a) as Ha. pose proof (be_bound b) as Hb. rewrite Hl in Ha. pose proof (pow_pos (String.length b)).
  assert (byteval c = byteval c') as Hc by nia. f_equal; [by apply byteval_inj|]. apply IH; [done|]. nia.
Qed.

Lemma length_digits n z : String.length (digits n z) = n.
Proof. induction n as [|n IH]; [done|]. cbn [digits String.length]. by rewrite IH. Qed.

Lemma be_digits n z : be (digits n z) = z mod 256 ^ Z.of_nat n.
Proof.
  induction n as [|n IH]; [by rewrite Z.mod_1_r|]. cbn [digits be]. rewrite byteval_byte, length_digits, IH, pow_S.
  pose proof (pow_pos n). rewrite (Z.mul_comm 256), Z.rem_mul_r by lia. lia.
Qed.

(** An address of [n] bytes, with no zero at its front. *)
Definition width (n : nat) (z : Z) : Prop := (n = 4 ∨ n = 16)%nat ∧ 256 ^ (Z.of_nat n - 1) ≤ z < 256 ^ Z.of_nat n.

Lemma byte_length_width n z : width n z → byte_length z = n.
Proof.
  intros [Hn [Hl Hu]]. unfold byte_length. assert (0 < 256 ^ (Z.of_nat n - 1)) by (apply Z.pow_pos_nonneg; lia).
  rewrite decide_False by lia. change 256 with (2 ^ 8) in Hl, Hu. rewrite <- !Z.pow_mul_r in * by lia.
  assert (8 * (Z.of_nat n - 1) ≤ Z.log2 z) by (apply Z.log2_le_pow2; lia).
  assert (Z.log2 z < 8 * Z.of_nat n) by (apply Z.log2_lt_pow2; lia).
  assert (Z.log2 z / 8 = Z.of_nat n - 1) as -> by (symmetry; apply Z.div_unique with (r := Z.log2 z - 8 * (Z.of_nat n - 1)); lia). lia.
Qed.

Lemma width_pos n z : width n z → 0 < z.
Proof. intros [Hn [Hl Hu]]. assert (0 < 256 ^ (Z.of_nat n - 1)) by (apply Z.pow_pos_nonneg; lia). lia. Qed.

Lemma intToIP_length n z : width n z → String.length (intToIP z) = n.
Proof.
  intros Hw. pose proof (width_pos _ _ Hw). unfold intToIP, Bytes. rewrite Z.abs_eq by lia. rewrite length_digits. by apply byte_length_width.
Qed.

Lemma be_intToIP n z : width n z → be (intToIP z) = z.
Proof.
  intros Hw. pose proof (width_pos _ _ Hw). unfold intToIP, Bytes. rewrite Z.abs_eq by lia. rewrite be_digits, (byte_length_width n) by done.
  destruct Hw as [_ ?]. apply Z.mod_small. lia.
Qed.

Lemma ipToInt_be n ip : width n (be ip) → String.length ip = n → ipToInt ip = be ip.
Proof.
  intros [[->| ->] Hb] Hl; unfold ipToInt, To4; rewrite Hl; [done|]. cbn [decide]. rewrite decide_False, decide_True by lia.
  destruct (String.prefix v4InV6Prefix ip) eqn:Ep.
  - exfalso. unfold v4InV6Prefix in Ep. destruct ip as [|c ip]; [done|]. cbn [String.prefix] in Ep. destruct (ascii_dec "000" c) as [<-|]; [|done].
    cbn [be] in Hb. injection Hl as Hl. pose proof (be_bound ip) as Hb'. rewrite Hl in Hb, Hb'. change (byteval "000") with 0 in Hb. lia.
  - unfold To16. rewrite Hl. by rewrite decide_False, decide_True by lia.
Qed.

Lemma ipToInt_intToIP n z : width n z → ipToInt (intToIP z) = z.
Proof.
  intros Hw. pose proof (be_intToIP _ _ Hw) as E. rewrite (ipToInt_be n); [done|by rewrite E|by apply intToIP_length].
Qed.

(** An address is the bytes of its number. *)
Lemma intToIP_ipToInt n ip : String.length ip = n → width n (be ip) → intToIP (ipToInt ip) = ip.
Proof.
  intros Hl Hw. rewrite (ipToInt_be n) by done. apply be_inj; [|by apply (be_intToIP n)]. rewrite (intToIP_length n) by done. done.
Qed.

(** ** The search for a free address *)

Section Search.
Context (get : string → option string) (n : nat) (gateway : option string) (rangeEnd : string) (lo hi : Z).
Context (Hlo : 256 ^ (Z.of_nat n - 1) ≤ lo) (Hhi : Z.max lo hi + 2 < 256 ^ Z.of_nat n) (Hn : (n = 4 ∨ n = 16)%nat) (Hend : ipToInt rangeEnd = hi).

Definition is_gateway (z : Z) : Prop := from_option (λ g, ipToInt g = z) False gateway.
#[local] Instance is_gateway_dec z : Decision (is_gateway z).
Proof. unfold is_gateway. destruct gateway; simpl; apply _. Defined.

(** An address that cannot be given to a container. *)
Definition taken (z : Z) : Prop := is_gateway z ∨ get (intToIP z) ≠ None.

Definition in_reach (z : Z) : Prop := lo ≤ z ≤ Z.max lo hi + 2.

Lemma width_reach z : in_reach z → width n z.
Proof. intros Hz. split; [done|]. unfold in_reach in Hz. lia. Qed.

Lemma ipToInt_reach z : in_reach z → ipToInt (intToIP z) = z.
Proof. intros Hz. by apply (ipToInt_intToIP n), width_reach. Qed.

Definition all_taken : error := ipam_error "failed to find free IP in range".

(** One round of the loop, on numbers. *)
Lemma free_loop_step fuel st z :
  in_reach st → in_reach z →
  free_loop get (S fuel) gateway (intToIP lo) rangeEnd (intToIP st) (intToIP z) =
  let go z := free_loop get fuel gateway (intToIP lo) rangeEnd (intToIP st) (intToIP z) in
  if decide (is_gateway z) then go (z + 1)
  else if decide (hi < z) then if decide (lo = st) then Err all_taken else go lo
  else if decide (get (intToIP z) = None) then Ret (intToIP z)
  else if decide (ipToInt (intToIP (z + 1)) = st) then Err all_taken else go (z + 1).
Proof.
  intros Hst Hz. assert (in_reach lo) as Hl by (unfold in_reach in *; lia). cbn [free_loop]. unfold Cmp, NextIP. rewrite Hend, !ipToInt_reach by done. cbv zeta.
  assert ((match gateway with Some g => bool_decide ((z ?= ipToInt g) = Eq) | None => false end) = true ↔ is_gateway z) as Hgw.
  { unfold is_gateway. destruct gateway as [g|]; [|done]. rewrite bool_decide_eq_true, Z.compare_eq_iff. simpl. naive_solver. }
  destruct (decide (is_gateway z)) as [Hg|Hg]; [by rewrite (proj2 Hgw Hg)|].
  destruct (match gateway with Some g => bool_decide _ | None => false end); [by destruct Hg; apply Hgw|]. clear Hgw.
  destruct (decide (hi < z)) as [Hh|Hh].
  - rewrite decide_True by (by apply Z.compare_gt_iff). destruct (decide (lo = st)) as [->|Hne]; [by rewrite decide_True by (by apply Z.compare_eq_iff)|].
    by rewrite decide_False by (by rewrite Z.compare_eq_iff).
  - rewrite decide_False by (by rewrite Z.compare_gt_iff). destruct (decide (get _ = None)); [done|].
    destruct (decide (ipToInt (intToIP (z + 1)) = st)) as [E|E]; [by rewrite decide_True by (by rewrite Z.compare_eq_iff)|].
    by rewrite decide_False by (by rewrite Z.compare_eq_iff).
Qed.

(** What the search returns: a free address of the range, or there is none. *)
Definition search_result (o : outcome string) : Prop :=
  match o with
  | Ret ip => ∃ z, ip = intToIP z ∧ lo ≤ z ≤ hi ∧ ¬ taken z
  | Err e => e = all_taken ∧ ∀ z, lo ≤ z ≤ hi → taken z
  | Crash _ => False
  end.

(** From the start of the range to its end. *)
Lemma loop_fresh fuel z :
  in_reach z → (z = Z.max lo hi + 2 → ¬ is_gateway z) → (∀ y, lo ≤ y < z → taken y) → Z.max lo hi + 3 - z ≤ Z.of_nat fuel →
  search_result (free_loop get fuel gateway (intToIP lo) rangeEnd (intToIP lo) (intToIP z)).
Proof.
  revert z. induction fuel as [|fuel IH]; intros z Hz Hg Ht Hf; [unfold in_reach in Hz; lia|].
  assert (in_reach lo) as Hl by (unfold in_reach in *; lia). rewrite free_loop_step by done. cbv zeta.
  assert (taken z → z ≠ Z.max lo hi + 2 → (z + 1 = Z.max lo hi + 2 → ¬ is_gateway (z + 1)) →
    search_result (free_loop get fuel gateway (intToIP lo) rangeEnd (intToIP lo) (intToIP (z + 1)))) as Hgo.
  { intros Htz Hne Hg'. apply IH; [unfold in_reach in *; lia|done| |lia]. intros y Hy. destruct (decide (y = z)) as [->|]; [done|]. apply Ht. lia. }
  destruct (decide (is_gateway z)) as [Hgz|Hgz].
  { apply Hgo; [by left|intros E; by apply Hg|]. intros _. unfold is_gateway in *. destruct gateway; simpl in *; lia. }
  destruct (decide (hi < z)) as [Hh|Hh].
  { rewrite decide_True by done. split; [done|]. intros y Hy. apply Ht. lia. }
  destruct (decide (get (intToIP z) = None)) as [Hgt|Hgt].
  { exists z. unfold in_reach in Hz. split_and!; [done|lia..|]. intros [?|?]; done. }
  rewrite ipToInt_reach by (unfold in_reach in *; lia). rewrite decide_False by (unfold in_reach in *; lia).
  apply Hgo; [by right|lia|lia].
Qed.

Context (st : Z) (Hst : lo < st ≤ hi + 1) (Hgate : ¬ is_gateway (st - 1)).

(** From the start of the range to where the search began. *)
Lemma loop_wrapped fuel z :
  lo ≤ z < st → (∀ y, lo ≤ y < z ∨ st ≤ y ≤ hi → taken y) → st - z ≤ Z.of_nat fuel →
  search_result (free_loop get fuel gateway (intToIP lo) rangeEnd (intToIP st) (intToIP z)).
Proof.
  revert z. induction fuel as [|fuel IH]; intros z Hz Ht Hf; [lia|].
  rewrite free_loop_step by (unfold in_reach; lia). cbv zeta.
  assert (taken z → z + 1 ≠ st → search_result (free_loop get fuel gateway (intToIP lo) rangeEnd (intToIP st) (intToIP (z + 1)))) as Hgo.
  { intros Htz Hne. apply IH; [lia| |lia]. intros y Hy. destruct (decide (y = z)) as [->|]; [done|]. apply Ht. lia. }
  destruct (decide (is_gateway z)) as [Hgz|Hgz].
  { apply Hgo; [by left|]. intros E. apply Hgate. by replace (st - 1) with z by lia. }
  rewrite decide_False by lia. destruct (decide (get (intToIP z) = None)) as [Hgt|Hgt].
  { exists z. split_and!; [done|lia..|]. intros [?|?]; done. }
  rewrite ipToInt_reach by (unfold in_reach in *; lia). destruct (decide (z + 1 = st)) as [E|E]; [|apply Hgo; [by right|done]].
  split; [done|]. intros y Hy. destruct (decide (y = z)) as [->|]; [by right|]. apply Ht. lia.
Qed.

(** From where the search began to the end of the range. *)
Lemma loop_started fuel z :
  st ≤ z ≤ hi + 2 → (z = hi + 2 → ¬ is_gateway z) → (∀ y, st ≤ y < z → taken y) → (hi + 3 - z) + (st - lo) ≤ Z.of_nat fuel →
  search_result (free_loop get fuel gateway (intToIP lo) rangeEnd (intToIP st) (intToIP z)).
Proof.
  revert z. induction fuel as [|fuel IH]; intros z Hz Hg Ht Hf; [lia|].
  rewrite free_loop_step by (unfold in_reach; lia). cbv zeta.
  assert (taken z → z ≠ hi + 2 → (z + 1 = hi + 2 → ¬ is_gateway (z + 1)) →
    search_result (free_loop get fuel gateway (intToIP lo) rangeEnd (intToIP st) (intToIP (z + 1)))) as Hgo.
  { intros Htz Hne Hg'. apply IH; [lia|done| |lia]. intros y Hy. destruct (decide (y = z)) as [->|]; [done|]. apply Ht. lia. }
  destruct (decide (is_gateway z)) as [Hgz|Hgz].
  { apply Hgo; [by left|intros E; by apply Hg|]. intros _. unfold is_gateway in *. destruct gateway; simpl in *; lia. }
  destruct (decide (hi < z)) as [Hh|Hh].
  { rewrite decide_False by lia. apply loop_wrapped; [lia| |lia]. intros y Hy. apply Ht. lia. }
  destruct (decide (get (intToIP z) = None)) as [Hgt|Hgt].
  { exists z. split_and!; [done|lia..|]. intros [?|?]; done. }
  rewrite ipToInt_reach by (unfold in_reach in *; lia). rewrite decide_False by lia.
  apply Hgo; [by right|lia|lia].
Qed.
End Search.

(** The round never ends if the address before its start is the gateway. *)
Lemma loop_stale get n gateway rangeEnd lo hi st fuel z :
  256 ^ (Z.of_nat n - 1) ≤ lo → Z.max lo hi + 2 < 256 ^ Z.of_nat n → (n = 4 ∨ n = 16)%nat → ipToInt rangeEnd = hi →
  lo < st ≤ hi + 1 → is_gateway gateway (st - 1) → (∀ y, lo ≤ y ≤ hi → get (intToIP y) ≠ None) → lo ≤ z ≤ hi + 1 →
  free_loop get fuel gateway (intToIP lo) rangeEnd (intToIP st) (intToIP z) = Crash NoFuel.
Proof.
  intros Hlo Hhi Hn Hend Hst Hg Hall. revert z. induction fuel as [|fuel IH]; intros z Hz; [done|].
  rewrite (free_loop_step get n gateway rangeEnd lo hi) by (done || unfold in_reach; lia). cbv zeta.
  destruct (decide (is_gateway gateway z)) as [Hgz|Hgz].
  { apply IH. assert (z = st - 1) by (unfold is_gateway in *; destruct gateway; simpl in *; [congruence|done]). lia. }
  destruct (decide (hi < z)); [rewrite decide_False by lia; apply IH; lia|]. rewrite decide_False by (apply Hall; lia).
  rewrite (ipToInt_reach n lo hi) by (done || unfold in_reach; lia). rewrite decide_False; [apply IH; lia|].
  intros E. apply Hgz. by replace z with (st - 1) by lia.
Qed.

(** The address has [n] bytes and does not begin with a zero. *)
Definition proper (n : nat) (ip : string) : Prop := String.length ip = n ∧ width n (be ip).

(** C25: Suppose that the addresses have four or sixteen bytes, that the start of
    the lease range does not begin with a zero byte, that the range starts and ends
    at least two addresses below the largest address of this length, and that the
    address that was given out last, if there is one, is in the range and is not
    the gateway.  Then [getFreeIPFromBucket] comes to an end, with fuel for at
    most two rounds over the lease range and six addresses: it returns an address of the range that is
    neither the gateway nor in the database, and fails only if there is none.
    (Without the last condition the search may never end, and addresses that
    begin with a zero byte lose it: see [getFreeIP_stale_gateway] and
    [getFreeIP_drops_zero].) *)
Theorem getFreeIPFromBucket_spec get fuel s n lastIP :
  LastIPInSubnet (Subnet_ s) = inl lastIP →
  let lo := ipToInt (range_start s) in let hi := ipToInt (range_end s lastIP) in
  proper n (range_start s) → Z.max lo hi + 2 < 256 ^ Z.of_nat n →
  (∀ l, get lastIPKey = Some l → lo ≤ ipToInt l ≤ hi ∧ ¬ is_gateway (Gateway s) (ipToInt l)) →
  2 * (Z.max lo hi - lo) + 6 ≤ Z.of_nat fuel →
  search_result get (Gateway s) lo hi (getFreeIPFromBucket get fuel s).
Proof.
  intros Elast lo hi [Hl Hw] Hhi Hlast Hfuel. unfold getFreeIPFromBucket. rewrite Elast. cbv zeta.
  assert (range_start s = intToIP lo) as Es by (symmetry; by apply (intToIP_ipToInt n)).
  assert (ipToInt (range_start s) = be (range_start s)) as Eb by (by apply (ipToInt_be n)).
  destruct Hw as [Hn [Hw _]]. rewrite <- Eb in Hw. fold lo in Hw. fold hi.
  rewrite Es. destruct (get lastIPKey) as [l|].
  - destruct (Hlast l eq_refl) as [Hr Hg]. unfold NextIP. apply (loop_started get n); try done; try lia.
    + by replace (ipToInt l + 1 - 1) with (ipToInt l) by lia.
  - apply (loop_fresh get n); try done; unfold in_reach; try lia.
Qed.

(** ** Who has an address *)

(** What [bbolt] promises. *)
Class BoltLaw (Tx : Type) `{Bolt Tx} := {
  Get_Put tx b k v tx' b' k' : Put tx b k v = inl tx' → Get tx' b' k' = if decide (b' = b ∧ k' = k) then Some v else Get tx b' k';
  Get_Create tx b tx' b' k : CreateBucketIfNotExists tx b = inl tx' → Get tx' b' k = Get tx b' k
}.

Lemma free_loop_free get fuel g a b c z ip : free_loop get fuel g a b c z = Ret ip → get ip = None.
Proof.
  revert z. induction fuel as [|fuel IH]; intros z; [done|]. cbn [free_loop].
  destruct (match g with Some g => _ | None => _ end); [apply IH|]. destruct (decide (Cmp z b = Gt)); [destruct (decide _); [done|apply IH]|].
  destruct (decide (get z = None)); [by intros [= <-]|]. destruct (decide _); [done|apply IH].
Qed.

Lemma getFree_free get fuel s ip : getFreeIPFromBucket get fuel s = Ret ip → get ip = None.
Proof. unfold getFreeIPFromBucket. destruct (LastIPInSubnet _); [apply free_loop_free|done]. Qed.

Section Owners.
Context {Tx : Type} `{BoltLaw Tx} `{NetText} (fuel : nat) (networks : gmap string Network) (id : string).

(** Nobody loses an address, and new ones are those of the container. *)
Definition owners (tx tx' : Tx) : Prop :=
  ∀ net sub key, sub ≠ idBucket → key ≠ lastIPKey →
    (∀ v, Get tx [net; sub] key = Some v → Get tx' [net; sub] key = Some v) ∧
    (Get tx [net; sub] key = None → Get tx' [net; sub] key = None ∨ Get tx' [net; sub] key = Some id).

#[local] Instance owners_preorder : PreOrder owners.
Proof.
  split; [intros tx net sub key _ _; naive_solver|]. intros t1 t2 t3 H1' H2' net sub key Hs Hk.
  destruct (H1' net sub key Hs Hk) as [? ?], (H2' net sub key Hs Hk) as [? ?]. naive_solver.
Qed.

Lemma owners_create b : moves owners (tx_do (λ tx, CreateBucketIfNotExists tx b)).
Proof.
  intros tx. unfold tx_do. destruct (CreateBucketIfNotExists tx b) as [tx'|] eqn:E; [|reflexivity].
  intros net sub key _ _. simpl. rewrite !(Get_Create _ _ _ _ _ E). naive_solver.
Qed.

(** A write of the container to a free key, of the last address, or to the
    bucket of identifiers. *)
Lemma owners_put b k v tx :
  k = lastIPKey ∨ (v = id ∧ Get tx b k = None) ∨ (∃ net, b = [net; idBucket]) → owners tx (tx_do (λ tx, Put tx b k v) tx).1.
Proof.
  intros Hc. unfold tx_do. destruct (Put tx b k v) as [tx'|] eqn:E; [|reflexivity].
  intros net sub key Hs Hk. simpl. rewrite !(Get_Put _ _ _ _ _ _ _ E). destruct (decide ([net; sub] = b ∧ key = k)) as [[<- <-]|]; [|naive_solver].
  destruct Hc as [?|[[-> Hn]|[net' E']]]; [done| |congruence]. split; [intros v' E'; congruence|by right].
Qed.

Lemma owners_static b subnet acc ip : moves owners (alloc_static b subnet id acc ip).
Proof.
  unfold alloc_static. destruct (Contains _ _); [|apply moves_ret; apply _]. cbv zeta.
  destruct (match Gateway subnet with Some g => _ | None => _ end); [apply moves_fail; apply _|]. intros tx. unfold gets, mbind, M_bind. destruct (Get tx b (NormalizeIP ip)) eqn:E; [reflexivity|].
  pose proof (owners_put b (NormalizeIP ip) id tx ltac:(auto)) as Hp. by destruct (tx_do _ tx) as [tx' [[]|e|c]].
Qed.

Lemma owners_free b subnet ips :
  moves owners (ip ← (λ tx, (tx, getFreeIPFromBucket (Get tx b) fuel subnet));
                tx_do (λ tx, Put tx b lastIPKey ip);; tx_do (λ tx, Put tx b ip id);; mret (ips ++ [ip])%list).
Proof.
  intros tx. unfold mbind, M_bind. destruct (getFreeIPFromBucket (Get tx b) fuel subnet) as [ip|e|c] eqn:E; [|reflexivity..].
  pose proof (owners_put b lastIPKey ip tx ltac:(auto)) as Hp. unfold tx_do in *. destruct (Put tx b lastIPKey ip) as [tx1|] eqn:E1; [|done].
  cbn [fst] in Hp. etrans; [exact Hp|]. clear Hp.
  assert (ip = lastIPKey ∨ (id = id ∧ Get tx1 b ip = None) ∨ ∃ net, b = [net; idBucket]) as Hc.
  { destruct (decide (ip = lastIPKey)) as [|Hne]; [by left|]. right. left. split; [done|]. rewrite (Get_Put _ _ _ _ _ _ _ E1).
    rewrite decide_False by naive_solver. by eapply getFree_free. }
  pose proof (owners_put b ip id tx1 Hc) as Hp. unfold tx_do in Hp. by destruct (Put tx1 b ip id).
Qed.

Lemma owners_subnet net ips req subnet : moves owners (alloc_subnet fuel net ips id req subnet).
Proof.
  unfold alloc_subnet. apply moves_bind; [apply _|apply owners_create|intros _]. apply moves_bind; [apply _| |].
  - apply moves_foldM; [apply _|]. intros acc ip. apply owners_static.
  - intros [req' []]; [apply moves_ret; apply _|apply owners_free].
Qed.

Lemma owners_network n : moves owners (alloc_network fuel networks id n).
Proof.
  unfold alloc_network. assert (∀ A (r : A + error), moves owners (try_tx r)) as Ht by (intros A [a|e] tx; reflexivity).
  pose proof owners_create as Hc. assert (∀ net v, moves owners (tx_do (λ tx, Put tx [net; idBucket] id v))) as Hi.
  { intros net v tx. apply owners_put. right. right. by eexists. }
  pose proof owners_subnet as Hs. moves_steps.
Qed.

(** C20: [allocIPs] never takes an address from a container: whatever addresses
    are asked for and however it ends, every entry of an address in the buckets
    of the subnets stays, every new one is of the container itself, and after an
    error nothing in the database has changed.  The key of the address that was
    given out last and the bucket of identifiers are no entries of addresses. *)
Theorem allocIPs_owners opts tx :
  ContainerID opts = id →
  owners tx (allocIPs fuel networks opts tx).1 ∧
  (∀ e, (allocIPs fuel networks opts tx).2 = Err e → (allocIPs fuel networks opts tx).1 = tx).
Proof.
  intros Hid. unfold allocIPs, Update. rewrite Hid.
  assert (moves owners (nets ← foldM (λ acc n, n ← alloc_network fuel networks id n; mret (acc ++ [n])%list) [] (Networks opts);
                        mret (mkNetworkOptions id nets))) as Hm.
  { pose proof owners_network. moves_steps. }
  specialize (Hm tx). destruct ((foldM _ _ _ ≫= _) tx) as [tx' [o|e|c]]; [done|by split|by split].
Qed.
End Owners.

(** ** Instances *)

Notation demo_tx := (gmap (list string) (gmap string string)).

#[export] Instance demo_bolt : Bolt demo_tx := {
  Bucket tx b := bool_decide (is_Some (tx !! b));
  CreateBucketIfNotExists tx b := inl (match tx !! b with Some _ => tx | None => <[b := ∅]> tx end);
  DeleteBucket tx b := if decide (is_Some (tx !! b)) then inl (filter (λ x, ¬ (b `prefix_of` x.1)) tx) else inr ErrBucketNotFound;
  Get tx b k := (tx !! b) ≫= (λ m, m !! k);
  Put tx b k v := match tx !! b with
                  | Some m => if decide (k = "") then inr (ErrOther "key required") else inl (<[b := <[k := v]> m]> tx)
                  | None => inr ErrBucketNotFound
                  end;
  Delete tx b k := match tx !! b with Some m => inl (<[b := delete k m]> tx) | None => inr ErrBucketNotFound end
}.

#[export] Instance demo_bolt_law : BoltLaw demo_tx.
Proof.
  split.
  - intros tx b k v tx' b' k'. cbn [Put Get demo_bolt]. destruct (tx !! b) as [m|] eqn:E; [|done]. destruct (decide (k = "")); [done|]. intros [= <-].
    destruct (decide (b' = b ∧ k' = k)) as [[-> ->]|Hn]; [rewrite lookup_insert_eq; simpl; by rewrite lookup_insert_eq|].
    destruct (decide (b' = b)) as [->|Hb]; [|by rewrite lookup_insert_ne]. rewrite lookup_insert_eq, E. simpl. apply lookup_insert_ne. naive_solver.
  - intros tx b tx' b' k. cbn [CreateBucketIfNotExists Get demo_bolt]. intros [= <-]. destruct (tx !! b) eqn:E; [done|].
    destruct (decide (b' = b)) as [->|Hb]; [by rewrite lookup_insert_eq, E|by rewrite lookup_insert_ne].
Qed.

#[export] Instance demo_text : NetText := {
  IPNet_String n := n_IP n +:+ "/" +:+ n_Mask n;
  MarshalIPs l := inl (marshal l);
  UnmarshalIPs d := match unmarshal d with Some l => inl ((λ ip, default ip (To16 ip)) <$> l) | None => inr (ErrOther "invalid JSON") end
}.

Definition ip4 (a b c d : Z) : string := String (byte a) (String (byte b) (String (byte c) (String (byte d) ""))).

(** 10.88.0.0/29 with the gateway 10.88.0.1. *)
Definition demo_subnet : Subnet := mkSubnet (mkIPNet (ip4 10 88 0 0) (ip4 255 255 255 248)) (Some (ip4 10 88 0 1)) None.
Definition demo_bucket (k : string) : option string :=
  if decide (k = lastIPKey) then Some (ip4 10 88 0 6)
  else if decide (k ∈ [ip4 10 88 0 2; ip4 10 88 0 6]) then Some "c1" else None.

Lemma getFreeIPFromBucket_spec_witness :
  getFreeIPFromBucket demo_bucket 20 demo_subnet = Ret (ip4 10 88 0 3) ∧
  search_result demo_bucket (Some (ip4 10 88 0 1)) (ipToInt (ip4 10 88 0 1)) (ipToInt (ip4 10 88 0 6)) (getFreeIPFromBucket demo_bucket 20 demo_subnet).
Proof.
  split; [vm_compute; reflexivity|]. apply (getFreeIPFromBucket_spec demo_bucket 20 demo_subnet 4 (ip4 10 88 0 7)).
  - vm_compute. reflexivity.
  - split; [vm_compute; reflexivity|]. split; [by left|]. vm_compute. split; congruence.
  - vm_compute. reflexivity.
  - change (demo_bucket lastIPKey) with (Some (ip4 10 88 0 6)). intros l [= <-]. vm_compute. split; [split; congruence|congruence].
  - vm_compute. congruence.
Defined.

Definition demo_networks : gmap string Network := {["podman" := mkNetwork "podman" [demo_subnet] false None]}.

Lemma allocIPs_owners_witness :
  let opts := mkNetworkOptions "c2" [mkNamed "podman" (mkPerNetworkOptions [])] in
  (allocIPs 20 demo_networks opts (∅ : demo_tx)).2 = Ret (mkNetworkOptions "c2" [mkNamed "podman" (mkPerNetworkOptions [ip4 10 88 0 2])]) ∧
  owners "c2" (∅ : demo_tx) (allocIPs 20 demo_networks opts ∅).1.
Proof.
  intros opts. split; [vm_compute; reflexivity|]. destruct (allocIPs_owners 20 demo_networks "c2" opts (∅ : demo_tx)) as [Ho _]; [reflexivity|]. exact Ho.
Defined.

(** ** What the code does wrong *)

Fixpoint zeros (n : nat) : string := match n with 0%nat => "" | S n => String (byte 0) (zeros n) end.
Fixpoint ones (n : nat) : string := match n with 0%nat => "" | S n => String (byte 255) (ones n) end.
(** 64:ff9b::/96 *)
Definition nat64 : Subnet :=
  mkSubnet (mkIPNet (String (byte 0) (String (byte 100) (String (byte 255) (String (byte 155) (zeros 12))))) (ones 12 +:+ zeros 4)) None None.

(** In a subnet whose addresses begin with a zero byte, the next address loses
    that byte: what is found and given to the container has 15 bytes. *)
Theorem getFreeIP_drops_zero :
  ∃ ip, getFreeIPFromBucket (λ _, None) 20 nat64 = Ret ip ∧ String.length ip = 15%nat ∧ Contains (Subnet_ nat64) ip = false.
Proof. eexists. split; [vm_compute; reflexivity|]. split; vm_compute; reflexivity. Qed.

(** When the gateway of a network has become the address that was given out
    last, the search in a full subnet never ends: the check for the end of the
    round is only made after an address that is in use, not after the gateway. *)
Theorem getFreeIP_stale_gateway get fuel s n lastIP l :
  LastIPInSubnet (Subnet_ s) = inl lastIP →
  let lo := ipToInt (range_start s) in let hi := ipToInt (range_end s lastIP) in
  proper n (range_start s) → Z.max lo hi + 2 < 256 ^ Z.of_nat n →
  get lastIPKey = Some l → lo ≤ ipToInt l ≤ hi → is_gateway (Gateway s) (ipToInt l) → (∀ z, lo ≤ z ≤ hi → get (intToIP z) ≠ None) →
  getFreeIPFromBucket get fuel s = Crash NoFuel.
Proof.
  intros Elast lo hi [Hl Hw] Hhi El Hr Hg Hall. unfold getFreeIPFromBucket. rewrite Elast, El. cbv zeta.
  assert (range_start s = intToIP lo) as Es by (symmetry; by apply (intToIP_ipToInt n)).
  assert (ipToInt (range_start s) = be (range_start s)) as Eb by (by apply (ipToInt_be n)).
  destruct Hw as [Hn [Hw _]]. rewrite <- Eb in Hw. fold lo in Hw. rewrite Es. unfold NextIP.
  apply (loop_stale get n _ _ lo hi); try done; try lia. by replace (ipToInt l + 1 - 1) with (ipToInt l) by lia.
Qed.

Lemma getFreeIP_stale_gateway_witness :
  let used (k : string) := if decide (k = lastIPKey) then Some (ip4 10 88 0 1) else Some "c1" in
  getFreeIPFromBucket used 1000 demo_subnet = Crash NoFuel.
Proof.
  intros used. apply (getFreeIP_stale_gateway used 1000 demo_subnet 4 (ip4 10 88 0 7) (ip4 10 88 0 1)).
  - vm_compute. reflexivity.
  - split; [vm_compute; reflexivity|]. split; [by left|]. vm_compute. split; congruence.
  - vm_compute. reflexivity.
  - reflexivity.
  - vm_compute. split; congruence.
  - vm_compute. reflexivity.
  - intros z _. unfold used. by destruct (decide _).
Defined.
End IpamFacts.
