(* ===== verification/BlobInfoCache.v ===== *)
(** * The cache of blob locations

    [image/pkg/blobinfocache/memory] with [internal/prioritize] and
    [image/internal/blobinfocache]: what is known about digests (the digest of
    the uncompressed data, the compression) and about the places where a blob
    was seen, and which blobs are offered in place of one that is wanted.

    Every method of the cache runs from beginning to end with its mutex held, so
    a run of several goroutines is a sequence of methods. *)

From stdpp Require Import sorting.
From S2P Require Import Prelude World StoreUtil ManifestList.
Local Open Scope string_scope.

Module BlobInfoCache.
Import ManifestList.

(** ** Compression *)

(** [types.LayerCompression]; the last constructor is any other integer. *)
Inductive LayerCompression := PreserveOriginal | Decompress | Compress | otherLayerCompression (n : Z).
#[global] Instance LayerCompression_eq_dec : EqDecision LayerCompression.
Proof. solve_decision. Defined.

Definition Bzip2AlgorithmName := "bzip2".
Definition XzAlgorithmName := "Xz".
Definition Gzip : Algorithm := NewAlgorithm GzipAlgorithmName "".
Definition Bzip2 : Algorithm := NewAlgorithm Bzip2AlgorithmName "".
Definition Xz : Algorithm := NewAlgorithm XzAlgorithmName "".
Definition Zstd : Algorithm := NewAlgorithm ZstdAlgorithmName "".
Definition ZstdChunked : Algorithm := NewAlgorithm ZstdChunkedAlgorithmName ZstdAlgorithmName.
Definition compressionAlgorithms : gmap string Algorithm :=
  list_to_map ((λ a, (Name a, a)) <$> [Gzip; Bzip2; Xz; Zstd; ZstdChunked]).
Definition AlgorithmByName (name : string) : Algorithm + error :=
  match compressionAlgorithms !! name with Some a => inl a | None => inr (ErrOther "cannot find compressor") end.

Definition Uncompressed := "uncompressed".
Definition UnknownCompression := "unknown".

Record DigestCompressorData := mkData {
  BaseVariantCompressor : string;
  SpecificVariantCompressor : string;
  SpecificVariantAnnotations : gomap string
}.
Record CandidateLocations2Options := mkOptions {
  CanSubstitute : bool;
  o_PossibleManifestFormats : option (list string);
  o_RequiredCompression : option Algorithm
}.

(** ** Candidates

    A location and a scope are structs of one string, [Opaque]; they stand for
    it. *)

Record BICReplacementCandidate := mkV1 { v_Digest : string; v_Location : string }.
Record BICReplacementCandidate2 := mkCandidate2 {
  c_Digest : string;
  CompressionOperation : LayerCompression;
  CompressionAlgorithm : option Algorithm;
  CompressionAnnotations : gomap string;
  UnknownLocation : bool;
  Location : string
}.

(** [blobinfocache.CandidateLocationsFromV2] *)
Definition CandidateLocationsFromV2 (v2candidates : list BICReplacementCandidate2) : list BICReplacementCandidate :=
  (λ c, mkV1 (c_Digest c) (Location c)) <$> v2candidates.

Record CandidateTemplate := mkTemplate {
  digest : string;
  compressionOperation : LayerCompression;
  compressionAlgorithm : option Algorithm;
  compressionAnnotations : gomap string
}.

Definition conditions (o : CandidateLocations2Options) : ReuseConditions :=
  mkConditions (o_PossibleManifestFormats o) (o_RequiredCompression o).

(** A template for one of the two variants of a compressed blob, if its
    algorithm is known and acceptable. *)
Definition variant_template (o : CandidateLocations2Options) (d : string) (name : string) (annotations : gomap string)
  : option CandidateTemplate :=
  match AlgorithmByName name with
  | inr _ => None
  | inl algo =>
      if CandidateCompressionMatchesReuseConditions (conditions o) (Some algo)
      then Some (mkTemplate d Compress (Some algo) annotations) else None
  end.

Definition CandidateTemplateWithCompression (v2Options : option CandidateLocations2Options) (d : string) (data : DigestCompressorData)
  : option CandidateTemplate :=
  match v2Options with
  | None => Some (mkTemplate d PreserveOriginal None None)
  | Some o =>
      if decide (BaseVariantCompressor data = Uncompressed) then
        if CandidateCompressionMatchesReuseConditions (conditions o) None then Some (mkTemplate d Decompress None None) else None
      else if decide (BaseVariantCompressor data = UnknownCompression) then None
      else
        match (if decide (SpecificVariantCompressor data = UnknownCompression) then None
               else variant_template o d (SpecificVariantCompressor data) (SpecificVariantAnnotations data)) with
        | Some t => Some t
        | None => variant_template o d (BaseVariantCompressor data) None
        end
  end.

Record CandidateWithTime := mkWithTime { candidate : BICReplacementCandidate2; lastSeen : Z }.

(** [time.Time{}], the first of January of the year 1, in nanoseconds. *)
Definition zero_time : Z := (-62135596800 * 10 ^ 9)%Z.

Definition CandidateWithLocation (t : CandidateTemplate) (location : string) (seen : Z) : CandidateWithTime :=
  mkWithTime (mkCandidate2 (digest t) (compressionOperation t) (compressionAlgorithm t) (compressionAnnotations t) false location) seen.
Definition CandidateWithUnknownLocation (t : CandidateTemplate) : CandidateWithTime :=
  mkWithTime (mkCandidate2 (digest t) (compressionOperation t) (compressionAlgorithm t) (compressionAnnotations t) true "") zero_time.

(** ** Priorities *)

Record candidateSortState := mkSortState { primaryDigest : string; uncompressedDigest : string }.

(** [Lt], [Eq] and [Gt] are the results -1, 0 and 1. *)
Definition compare (css : candidateSortState) (xi xj : CandidateWithTime) : comparison :=
  let di := c_Digest (candidate xi) in
  let dj := c_Digest (candidate xj) in
  let time := (lastSeen xi ?= lastSeen xj)%Z in
  let others := match time with Eq => String.compare di dj | c => CompOpp c end in
  if decide (di ≠ dj) then
    if decide (di = primaryDigest css) then Lt
    else if decide (dj = primaryDigest css) then Gt
    else if decide (uncompressedDigest css ≠ "") then
      if decide (di = uncompressedDigest css) then Gt
      else if decide (dj = uncompressedDigest css) then Lt
      else others
    else others
  else if decide (di = primaryDigest css ∨ (uncompressedDigest css ≠ "" ∧ di = uncompressedDigest css)) then CompOpp time
  else others.

(** [slices.SortFunc]: a permutation, sorted if the comparison is a strict weak
    order.  The order of equal elements is not specified. *)
Class SortFunc := sort_func : ∀ {A : Type}, (A → A → comparison) → list A → list A.
Record weak_order {A} (cmp : A → A → comparison) : Prop := {
  weak_opp x y : cmp y x = CompOpp (cmp x y);
  weak_trans x y z : cmp x y ≠ Gt → cmp y z ≠ Gt → cmp x z ≠ Gt
}.
Class SortFuncSpec `{SortFunc} := {
  sort_func_perm {A} (cmp : A → A → comparison) l : sort_func cmp l ≡ₚ l;
  sort_func_sorted {A} (cmp : A → A → comparison) l : weak_order cmp → StronglySorted (λ x y, cmp x y ≠ Gt) (sort_func cmp l)
}.

Section Cache.
Context `{MapRange} `{SortFunc}.

Definition replacementAttempts : nat := 5.
Definition replacementUnknownLocationAttempts : nat := 2.

Definition destructivelyPrioritizeReplacementCandidatesWithMax
  (cs : list CandidateWithTime) (primary uncompressed : string) (totalLimit noLocationLimit : nat) : list BICReplacementCandidate2 :=
  let cs := sort_func (compare (mkSortState primary uncompressed)) cs in
  let unknownLocationCandidates := filter (λ c, UnknownLocation (candidate c) = true) cs in
  let knownLocationCandidates := filter (λ c, UnknownLocation (candidate c) = false) cs in
  let knownLocationCandidatesUsed := Nat.min (length knownLocationCandidates) totalLimit in
  let remainingCapacity := (totalLimit - knownLocationCandidatesUsed)%nat in
  let unknownLocationCandidatesUsed := Nat.min (Nat.min noLocationLimit remainingCapacity) (length unknownLocationCandidates) in
  ((candidate <$> take knownLocationCandidatesUsed knownLocationCandidates) ++
   (candidate <$> take unknownLocationCandidatesUsed unknownLocationCandidates))%list.

Definition DestructivelyPrioritizeReplacementCandidates (cs : list CandidateWithTime) (primary uncompressed : string)
  : list BICReplacementCandidate2 :=
  destructivelyPrioritizeReplacementCandidatesWithMax cs primary uncompressed replacementAttempts replacementUnknownLocationAttempts.

(** ** The cache in memory *)

(** [set.Set]: a map to nothing. *)
Notation Set_ := (gmap string unit).

Definition locationKey : Type := string * string * string.

Record cache := mkCache {
  uncompressedDigests : gmap string string;
  uncompressedDigestsByTOC : gmap string string;
  digestsByUncompressed : gmap string Set_;
  knownLocations : gmap locationKey (gmap string Z);
  compressors : gmap string DigestCompressorData
}.

Definition new2 : cache := mkCache ∅ ∅ ∅ ∅ ∅.

Definition uncompressedDigestLocked (mem : cache) (anyDigest : string) : string :=
  match uncompressedDigests mem !! anyDigest with
  | Some d => d
  | None =>
      match digestsByUncompressed mem !! anyDigest with
      | Some s => if decide (size s ≠ 0)%nat then anyDigest else ""
      | None => ""
      end
  end.
Definition UncompressedDigest := uncompressedDigestLocked.

Definition RecordDigestUncompressedPair (anyDigest uncompressed : string) (mem : cache) : cache :=
  let anyDigestSet := default ∅ (digestsByUncompressed mem !! uncompressed) in
  mkCache (<[anyDigest := uncompressed]> (uncompressedDigests mem)) (uncompressedDigestsByTOC mem)
    (<[uncompressed := <[anyDigest := tt]> anyDigestSet]> (digestsByUncompressed mem)) (knownLocations mem) (compressors mem).

Definition UncompressedDigestForTOC (mem : cache) (tocDigest : string) : string :=
  default "" (uncompressedDigestsByTOC mem !! tocDigest).

Definition RecordTOCUncompressedPair (tocDigest uncompressed : string) (mem : cache) : cache :=
  mkCache (uncompressedDigests mem) (<[tocDigest := uncompressed]> (uncompressedDigestsByTOC mem)) (digestsByUncompressed mem)
    (knownLocations mem) (compressors mem).

Definition RecordKnownLocation (transport scope blobDigest location : string) : M (World * cache) unit := λ s,
  let key := (transport, scope, blobDigest) in
  let '(w, mem) := s in
  let locationScope := default ∅ (knownLocations mem !! key) in
  match time_Now w with
  | (w, Ret now) =>
      ((w, mkCache (uncompressedDigests mem) (uncompressedDigestsByTOC mem) (digestsByUncompressed mem)
             (<[key := <[location := now]> locationScope]> (knownLocations mem)) (compressors mem)), Ret tt)
  | (w, Err e) => ((w, mem), Err e)
  | (w, Crash c) => ((w, mem), Crash c)
  end.

(** The data to be recorded, with what is known of the specific variant. *)
Definition preserve_specific (previous : option DigestCompressorData) (data : DigestCompressorData) : DigestCompressorData :=
  match previous with
  | Some previous =>
      if decide (BaseVariantCompressor data ≠ UnknownCompression ∧ SpecificVariantCompressor data = UnknownCompression ∧
                 SpecificVariantCompressor previous ≠ UnknownCompression)
      then mkData (BaseVariantCompressor data) (SpecificVariantCompressor previous) (SpecificVariantAnnotations previous)
      else data
  | None => data
  end.

Definition RecordDigestCompressorData (anyDigest : string) (data : DigestCompressorData) (mem : cache) : cache :=
  let data := preserve_specific (compressors mem !! anyDigest) data in
  mkCache (uncompressedDigests mem) (uncompressedDigestsByTOC mem) (digestsByUncompressed mem) (knownLocations mem)
    (if decide (BaseVariantCompressor data = UnknownCompression) then delete anyDigest (compressors mem)
     else <[anyDigest := data]> (compressors mem)).

Definition compression_of (mem : cache) (d : string) : DigestCompressorData :=
  default (mkData UnknownCompression UnknownCompression None) (compressors mem !! d).

Definition appendReplacementCandidates (mem : cache) (candidates : list CandidateWithTime) (transport scope d : string)
  (v2Options : option CandidateLocations2Options) : list CandidateWithTime :=
  match CandidateTemplateWithCompression v2Options d (compression_of mem d) with
  | None => candidates
  | Some template =>
      let locations := default ∅ (knownLocations mem !! (transport, scope, d)) in
      if decide (0 < size locations)%nat then
        (candidates ++ ((λ l, CandidateWithLocation template l.1 l.2) <$> range_map locations))%list
      else match v2Options with
           | Some _ => (candidates ++ [CandidateWithUnknownLocation template])%list
           | None => candidates
           end
  end.

(** The candidates, not yet in order, and the digest of the uncompressed blob. *)
Definition collect (mem : cache) (transport scope primary : string) (canSubstitute : bool) (v2Options : option CandidateLocations2Options)
  : list CandidateWithTime * string :=
  let append := λ res d, appendReplacementCandidates mem res transport scope d v2Options in
  let res := append [] primary in
  if canSubstitute then
    let uncompressed := uncompressedDigestLocked mem primary in
    if decide (uncompressed = "") then (res, uncompressed)
    else
      let res :=
        match digestsByUncompressed mem !! uncompressed with
        | Some otherDigests =>
            foldl (λ res d, if decide (d.1 ≠ primary ∧ d.1 ≠ uncompressed) then append res d.1 else res) res (range_map otherDigests)
        | None => res
        end in
      (if decide (uncompressed ≠ primary) then append res uncompressed else res, uncompressed)
  else (res, "").

Definition candidateLocations (mem : cache) (transport scope primary : string) (canSubstitute : bool)
  (v2Options : option CandidateLocations2Options) : list BICReplacementCandidate2 :=
  let '(res, uncompressed) := collect mem transport scope primary canSubstitute v2Options in
  DestructivelyPrioritizeReplacementCandidates res primary uncompressed.

Definition CandidateLocations (mem : cache) (transport scope primary : string) (canSubstitute : bool) : list BICReplacementCandidate :=
  CandidateLocationsFromV2 (candidateLocations mem transport scope primary canSubstitute None).

Definition CandidateLocations2 (mem : cache) (transport scope primary : string) (options : CandidateLocations2Options)
  : list BICReplacementCandidate2 :=
  candidateLocations mem transport scope primary (CanSubstitute options) (Some options).
End Cache.
End BlobInfoCache.
