(* ===== verification/BlobInfoCacheFacts.v ===== *)
(** * Theorems about the cache of blob locations

    The order of candidates, which candidates are offered and which of them are
    returned, and that all of them go back to something that was recorded. *)

From stdpp Require Import sorting.
From S2P Require Import Prelude World StoreUtil ManifestList BlobInfoCache.
Local Open Scope string_scope.

Module BlobInfoCacheFacts.
Import ManifestList BlobInfoCache.

(** ** Orders *)

Lemma weak_strict {A} (cmp : A → A → comparison) x y z :
  weak_order cmp → cmp x y ≠ Gt → cmp y z ≠ Gt → cmp x z = Eq → cmp x y = Eq ∧ cmp y z = Eq.
Proof.
  intros [Ho Ht] Hxy Hyz Hxz.
  assert (cmp z x ≠ Gt) as Hzx by (rewrite Ho, Hxz; done).
  pose proof (Ht _ _ _ Hyz Hzx) as Hyx. pose proof (Ht _ _ _ Hzx Hxy) as Hzy. rewrite Ho in Hyx, Hzy.
  split; [destruct (cmp x y)|destruct (cmp y z)]; done.
Qed.

Lemma weak_refl {A} (cmp : A → A → comparison) x : weak_order cmp → cmp x x = Eq.
Proof. intros [Ho _]. specialize (Ho x x). by destruct (cmp x x). Qed.

(** First by one order and then by the other. *)
Definition lex (a b : comparison) : comparison := match a with Eq => b | _ => a end.

Lemma weak_order_lex {A} (f g : A → A → comparison) : weak_order f → weak_order g → weak_order (λ x y, lex (f x y) (g x y)).
Proof.
  intros Hf Hg. split.
  - intros x y. rewrite (weak_opp _ Hf), (weak_opp _ Hg). by destruct (f x y).
  - intros x y z Hxy Hyz. pose proof (weak_trans _ Hf x y z) as Ht. pose proof (weak_trans _ Hg x y z) as Hu.
    pose proof (weak_strict f x y z Hf) as Hs. unfold lex in *.
    destruct (f x y), (f y z), (f x z); naive_solver.
Qed.

Lemma weak_order_on {A B} (h : A → B) (f : B → B → comparison) : weak_order f → weak_order (λ x y, f (h x) (h y)).
Proof. intros [Ho Ht]. split; eauto. Qed.

Lemma weak_order_flip {A} (f : A → A → comparison) : weak_order f → weak_order (λ x y, f y x).
Proof. intros [Ho Ht]. split; eauto. Qed.

Lemma Nat_weak : weak_order Nat.compare.
Proof. split; intros; [by rewrite Nat.compare_antisym|]. rewrite Nat.compare_le_iff in *. lia. Qed.
Lemma Z_weak : weak_order Z.compare.
Proof. split; intros; [by rewrite Z.compare_antisym|]. rewrite Z.compare_le_iff in *. lia. Qed.

Lemma String_le_compare x y : String.compare x y ≠ Gt ↔ String.le x y.
Proof. unfold String.le, String.leb. by destruct (String.compare x y). Qed.
Lemma String_weak : weak_order String.compare.
Proof.
  split; intros x y; [by rewrite String.compare_antisym|]. intros z. rewrite !String_le_compare. by intros ?; etrans.
Qed.

(** ** The order of candidates *)

Section Order.
Context (css : candidateSortState).

(** The digest that was asked for comes first and the uncompressed one last. *)
Definition rank (x : CandidateWithTime) : nat :=
  if decide (c_Digest (candidate x) = primaryDigest css) then 0
  else if decide (uncompressedDigest css ≠ "" ∧ c_Digest (candidate x) = uncompressedDigest css) then 2 else 1.

Lemma compare_rank x y :
  compare css x y =
  lex (Nat.compare (rank x) (rank y))
    (lex (Z.compare (lastSeen y) (lastSeen x)) (String.compare (c_Digest (candidate x)) (c_Digest (candidate y)))).
Proof.
  unfold compare, rank. rewrite (Z.compare_antisym (lastSeen x) (lastSeen y)).
  assert (∀ d, String.compare d d = Eq) as Hrefl by (intros d; pose proof (String.compare_antisym d d) as E; by destruct (String.compare d d)).
  generalize (c_Digest (candidate x)) as a, (c_Digest (candidate y)) as b, (primaryDigest css) as p, (uncompressedDigest css) as u. intros.
  destruct (decide (a = b)) as [<-|Hab]; [rewrite (decide_False (P := a ≠ a)), Hrefl by tauto|rewrite (decide_True (P := a ≠ b)) by done];
    repeat (case_decide; cbn [lex Nat.compare]); try (exfalso; intuition congruence); try done; by destruct (lastSeen x ?= lastSeen y)%Z.
Qed.

Lemma compare_weak : weak_order (compare css).
Proof.
  assert (weak_order (λ x y, lex (Nat.compare (rank x) (rank y))
    (lex (Z.compare (lastSeen y) (lastSeen x)) (String.compare (c_Digest (candidate x)) (c_Digest (candidate y)))))) as H.
  { apply weak_order_lex; [apply (weak_order_on rank), Nat_weak|].
    apply weak_order_lex; [|apply (weak_order_on (λ x, c_Digest (candidate x))), String_weak].
    apply (weak_order_flip (λ x y, Z.compare (lastSeen x) (lastSeen y))), (weak_order_on lastSeen), Z_weak. }
  split; intros; rewrite ?compare_rank in *; [apply (weak_opp _ H)|by eapply (weak_trans _ H)].
Qed.

(** [x] may stand before [y]: the wanted digest before the others and these
    before the uncompressed one, then what was seen later, then the smaller
    digest. *)
Definition no_later (x y : CandidateWithTime) : Prop :=
  (rank x < rank y)%nat ∨ rank x = rank y ∧
    ((lastSeen y < lastSeen x)%Z ∨ lastSeen x = lastSeen y ∧ String.le (c_Digest (candidate x)) (c_Digest (candidate y))).

Lemma compare_no_later x y : compare css x y ≠ Gt ↔ no_later x y.
Proof.
  rewrite compare_rank. unfold no_later. rewrite <- String_le_compare. unfold lex.
  destruct (Nat.compare_spec (rank x) (rank y)), (Z.compare_spec (lastSeen y) (lastSeen x)); split; intros Hc; try done; try lia; try (by auto);
    try (right; split; [done|]; by auto); destruct Hc as [?|[? [?|[? ?]]]]; try lia; done.
Qed.
End Order.

#[export] Instance merge_sort_func : SortFunc := λ A cmp l, merge_sort (λ x y, cmp x y ≠ Gt) l.
#[export] Instance merge_sort_func_spec : SortFuncSpec.
Proof.
  split; intros A cmp l; [apply merge_sort_Permutation|]. intros [Ho Ht].
  apply StronglySorted_merge_sort; [intros x y z; apply Ht|].
  intros x y. rewrite (Ho x y). destruct (cmp x y); auto.
Qed.

(** ** Choosing among candidates *)

Lemma take_best {A} (R : A → A → Prop) l n x :
  StronglySorted R l → x ∈ l → x ∈ take n l ∨ length (take n l) = n ∧ ∀ y, y ∈ take n l → R y x.
Proof.
  intros Hs. revert n. induction Hs as [|a l Hs IH Ha]; intros n Hx; [by apply elem_of_nil in Hx|].
  destruct n as [|n]; [right; split; [done|]; by intros y ?%elem_of_nil|]. cbn [take length].
  apply elem_of_cons in Hx as [->|Hx]; [left; left|]. destruct (IH n Hx) as [Hin|[Hlen Hall]]; [left; by right|].
  right. split; [by rewrite Hlen|]. intros y [->|Hy]%elem_of_cons; [|by apply Hall]. by eapply Forall_forall in Ha.
Qed.

Lemma StronglySorted_weaken {A} (R R' : A → A → Prop) l : (∀ x y, R x y → R' x y) → StronglySorted R l → StronglySorted R' l.
Proof. intros HR. induction 1 as [|a l Hs IH Ha]; constructor; [done|]. eapply Forall_impl; [exact Ha|]. intros y. apply HR. Qed.

Lemma StronglySorted_filter {A} (R : A → A → Prop) (P : A → Prop) `{∀ x, Decision (P x)} l :
  StronglySorted R l → StronglySorted R (filter P l).
Proof.
  induction 1 as [|a l Hs IH Ha]; [constructor|]. rewrite filter_cons. case_decide; [|done].
  constructor; [done|]. apply Forall_forall. intros y [_ Hy]%list_elem_of_filter. by eapply Forall_forall in Ha.
Qed.

Lemma StronglySorted_take {A} (R : A → A → Prop) l n : StronglySorted R l → StronglySorted R (take n l).
Proof.
  intros Hs. revert n. induction Hs as [|a l Hs IH Ha]; intros [|n]; cbn [take]; constructor; [apply IH|].
  apply Forall_forall. intros y Hy%elem_of_take. destruct Hy as (i & Hy & _). eapply Forall_lookup_1 in Ha; done.
Qed.

(** The candidates with a known location come before the others; of both kinds
    the best are taken, in order, as far as the limits allow. *)
Definition prioritized (css : candidateSortState) (total unknown : nat) (cs : list CandidateWithTime) (K U : list CandidateWithTime) : Prop :=
  let no_worse (l : list CandidateWithTime) x := ∀ y, y ∈ l → no_later css y x in
  (K ++ U)%list ⊆+ cs ∧
  Forall (λ c, UnknownLocation (candidate c) = false) K ∧ Forall (λ c, UnknownLocation (candidate c) = true) U ∧
  StronglySorted (no_later css) K ∧ StronglySorted (no_later css) U ∧
  (length (K ++ U) ≤ total ∧ length U ≤ unknown)%nat ∧
  (∀ x, x ∈ cs → UnknownLocation (candidate x) = false → x ∈ K ∨ length K = total ∧ no_worse K x) ∧
  (∀ x, x ∈ cs → UnknownLocation (candidate x) = true → x ∈ U ∨ (length (K ++ U) = total ∨ length U = unknown) ∧ no_worse U x).

Section Facts.
Context `{MapRangeSpec} `{SortFuncSpec}.

Lemma prioritize_max css cs total unknown :
  ∃ K U, prioritized css total unknown cs K U ∧
    destructivelyPrioritizeReplacementCandidatesWithMax cs (primaryDigest css) (uncompressedDigest css) total unknown = candidate <$> (K ++ U)%list.
Proof.
  destruct css as [p u]. set (css := mkSortState p u). unfold destructivelyPrioritizeReplacementCandidatesWithMax. cbn [primaryDigest uncompressedDigest].
  fold css. pose proof (sort_func_perm (compare css) cs) as Hp. pose proof (sort_func_sorted (compare css) cs (compare_weak css)) as Hs.
  set (l := sort_func (compare css) cs) in *.
  assert (StronglySorted (no_later css) l) as Hs' by (eapply StronglySorted_weaken; [|exact Hs]; intros x y; apply compare_no_later). clear Hs. rename Hs' into Hs.
  set (ks := filter (λ c, UnknownLocation (candidate c) = false) l).
  set (us := filter (λ c, UnknownLocation (candidate c) = true) l). set (nk := Nat.min (length ks) total).
  set (nu := Nat.min (Nat.min unknown (total - nk)) (length us)).
  exists (take nk ks), (take nu us). split; [|by rewrite fmap_app].
  assert (length (take nk ks) = nk ∧ length (take nu us) = nu) as [Lk Lu] by (rewrite !length_take; lia).
  assert (ks ++ us ≡ₚ l)%list as Hsplit.
  { unfold ks, us. clear. induction l as [|x l IH]; [done|]. rewrite !filter_cons. destruct (UnknownLocation (candidate x)) eqn:E.
    - rewrite decide_False, decide_True by done. by rewrite <- Permutation_middle, IH.
    - rewrite decide_True, decide_False by done. cbn. by rewrite IH. }
  unfold prioritized. rewrite length_app, Lk, Lu. split_and!.
  - rewrite <- Hp, <- Hsplit. apply submseteq_app; apply sublist_submseteq, sublist_take.
  - apply Forall_take, Forall_forall. by intros y [Hy _]%list_elem_of_filter.
  - apply Forall_take, Forall_forall. by intros y [Hy _]%list_elem_of_filter.
  - by apply StronglySorted_take, StronglySorted_filter.
  - by apply StronglySorted_take, StronglySorted_filter.
  - lia.
  - lia.
  - intros x Hx Hk. assert (x ∈ ks) as Hin by (apply list_elem_of_filter; split; [done|by rewrite Hp]).
    destruct (decide (length ks ≤ total)%nat); [left; unfold nk; rewrite Nat.min_l, take_ge by lia; done|].
    destruct (take_best (no_later css) ks nk x) as [?|[_ ?]]; [by apply StronglySorted_filter|done|by left|right; split; [lia|done]].
  - intros x Hx Hk. assert (x ∈ us) as Hin by (apply list_elem_of_filter; split; [done|by rewrite Hp]).
    destruct (decide (length us ≤ nu)%nat); [left; rewrite take_ge by lia; done|].
    destruct (take_best (no_later css) us nu x) as [?|[_ ?]]; [by apply StronglySorted_filter|done|by left|right; split; [lia|done]].
Qed.

(** ** The candidates that are offered *)

Definition located (mem : cache) (transport scope d : string) : gmap string Z := default ∅ (knownLocations mem !! (transport, scope, d)).

(** [x] stands for the blob with digest [d]: at one of its locations, or for a
    caller that allows it at none if none is known. *)
Definition offers (mem : cache) (transport scope : string) (o : option CandidateLocations2Options) (d : string) (x : CandidateWithTime) : Prop :=
  ∃ t, CandidateTemplateWithCompression o d (compression_of mem d) = Some t ∧
    ((∃ l seen, located mem transport scope d !! l = Some seen ∧ x = CandidateWithLocation t l seen) ∨
     (located mem transport scope d = ∅ ∧ is_Some o ∧ x = CandidateWithUnknownLocation t)).

(** The digests that may stand for [primary]. *)
Definition stands_for (mem : cache) (canSubstitute : bool) (primary d : string) : Prop :=
  d = primary ∨
  canSubstitute = true ∧ ∃ u, u = uncompressedDigestLocked mem primary ∧ u ≠ "" ∧
    (d = u ∨ ∃ s, digestsByUncompressed mem !! u = Some s ∧ is_Some (s !! d)).

(** The part of [appendReplacementCandidates] that is appended. *)
Definition candidates_for (mem : cache) (transport scope : string) (o : option CandidateLocations2Options) (d : string) : list CandidateWithTime :=
  appendReplacementCandidates mem [] transport scope d o.

Lemma append_candidates mem res transport scope d o :
  appendReplacementCandidates mem res transport scope d o = (res ++ candidates_for mem transport scope o d)%list.
Proof.
  unfold candidates_for, appendReplacementCandidates. destruct (CandidateTemplateWithCompression _ _ _); [|by rewrite app_nil_r].
  case_decide; [done|]. destruct o; [done|by rewrite app_nil_r].
Qed.

Lemma range_map_elem {V} (m : gmap string V) k v : (k, v) ∈ range_map m ↔ m !! k = Some v.
Proof. rewrite range_map_perm. apply elem_of_map_to_list. Qed.

Lemma candidates_for_spec mem transport scope o d x : x ∈ candidates_for mem transport scope o d ↔ offers mem transport scope o d x.
Proof.
  unfold candidates_for, appendReplacementCandidates, offers. fold (located mem transport scope d).
  destruct (CandidateTemplateWithCompression _ _ _) as [t|]; [|rewrite elem_of_nil; naive_solver].
  case_decide as Hsz; cbn [app].
  - assert (located mem transport scope d ≠ ∅) as Hne by (intros E; rewrite E, map_size_empty in Hsz; lia).
    rewrite list_elem_of_fmap. split.
    + intros ([l seen] & -> & Hl%range_map_elem). eauto 10.
    + intros (t' & [= <-] & [(l & seen & Hl & ->)|(E & _)]); [|done]. exists (l, seen). by rewrite range_map_elem.
  - assert (located mem transport scope d = ∅) as -> by (apply map_size_empty_inv; lia).
    destruct o as [o|]; [rewrite list_elem_of_singleton|rewrite elem_of_nil]; split.
    + intros ->. exists t. split; [done|]. right. eauto.
    + intros (t' & [= <-] & [(l & seen & Hl & ->)|(_ & _ & ->)]); [|done]. by rewrite lookup_empty in Hl.
    + done.
    + intros (t' & [= <-] & [(l & seen & Hl & ->)|(_ & [? ?] & _)]); [|done]. by rewrite lookup_empty in Hl.
Qed.

Lemma template_digest o d data t : CandidateTemplateWithCompression o d data = Some t → digest t = d.
Proof.
  unfold CandidateTemplateWithCompression, variant_template. destruct o as [o|]; [|by intros [= <-]].
  repeat case_decide; repeat case_match; intros; simplify_eq; done.
Qed.

Lemma offers_digest mem transport scope o d x : offers mem transport scope o d x → c_Digest (candidate x) = d.
Proof. intros (t & Ht%template_digest & [(l & seen & _ & ->)|(_ & _ & ->)]); exact Ht. Qed.

(** Digest and location: no two candidates have both in common. *)
Definition place (x : CandidateWithTime) : string * string := (c_Digest (candidate x), Location (candidate x)).

Lemma candidates_for_NoDup mem transport scope o d : NoDup (place <$> candidates_for mem transport scope o d).
Proof.
  unfold candidates_for, appendReplacementCandidates. destruct (CandidateTemplateWithCompression _ _ _) as [t|]; [|constructor].
  case_decide; cbn [app].
  - rewrite <- list_fmap_compose.
    replace (place ∘ _) with ((pair (digest t)) ∘ (fst : string * Z → string)) by done.
    rewrite list_fmap_compose. apply NoDup_fmap_2; [by intros ?? [= ?]|]. rewrite range_map_perm. apply NoDup_fst_map_to_list.
  - destruct o; [|constructor]. apply NoDup_singleton.
Qed.

(** The digests that [collect] goes through, in its order. *)
Definition digests_of (mem : cache) (canSubstitute : bool) (primary : string) : list string :=
  primary ::
  (if canSubstitute then
     let u := uncompressedDigestLocked mem primary in
     if decide (u = "") then []
     else filter (λ d, d ≠ primary ∧ d ≠ u) (fst <$> range_map (default ∅ (digestsByUncompressed mem !! u))) ++
          (if decide (u ≠ primary) then [u] else [])
   else [])%list.

Lemma collect_digests mem transport scope primary canSubstitute o :
  (collect mem transport scope primary canSubstitute o).1 = digests_of mem canSubstitute primary ≫= candidates_for mem transport scope o.
Proof.
  unfold collect, digests_of. rewrite !append_candidates. cbn [mbind list_bind app].
  destruct canSubstitute; [|by rewrite app_nil_r]. case_decide as Hu; cbn [fst]; [by rewrite app_nil_r|].
  set (u := uncompressedDigestLocked mem primary) in *.
  assert (∀ res s, foldl (λ res (d : string * unit), if decide (d.1 ≠ primary ∧ d.1 ≠ u) then appendReplacementCandidates mem res transport scope d.1 o else res) res s =
                   res ++ (filter (λ d, d ≠ primary ∧ d ≠ u) (fst <$> s) ≫= candidates_for mem transport scope o))%list as Hfold.
  { intros res s. revert res. induction s as [|[d []] s IH]; intros res; cbn [foldl fmap list_fmap fst]; [by rewrite app_nil_r|].
    rewrite IH, filter_cons. case_decide; [|done]. by rewrite append_candidates, <- app_assoc. }
  rewrite bind_app. destruct (digestsByUncompressed mem !! u) as [s|]; cbn [default].
  - rewrite Hfold. case_decide; rewrite <- ?app_assoc; cbn; by rewrite ?app_nil_r.
  - assert (range_map (∅ : gmap string unit) = []) as Hr by (apply Permutation_nil_r; by rewrite range_map_perm, map_to_list_empty).
    rewrite Hr. cbn. case_decide; cbn; by rewrite ?app_nil_r.
Qed.

Lemma digests_of_NoDup mem canSubstitute primary : NoDup (digests_of mem canSubstitute primary).
Proof.
  unfold digests_of. destruct canSubstitute; [|apply NoDup_singleton]. case_decide; [apply NoDup_singleton|].
  set (u := uncompressedDigestLocked mem primary) in *. constructor.
  - rewrite elem_of_app, list_elem_of_filter. case_decide; set_solver.
  - apply NoDup_app. split_and!; [apply NoDup_filter; rewrite range_map_perm; apply NoDup_fst_map_to_list| |].
    + intros d [[_ Hd] _]%list_elem_of_filter. case_decide; set_solver.
    + case_decide; [apply NoDup_singleton|constructor].
Qed.

Lemma digests_of_spec mem canSubstitute primary d : d ∈ digests_of mem canSubstitute primary ↔ stands_for mem canSubstitute primary d.
Proof.
  unfold digests_of, stands_for. rewrite elem_of_cons. destruct canSubstitute; [|rewrite elem_of_nil; naive_solver].
  set (u := uncompressedDigestLocked mem primary) in *. case_decide as Hu; [rewrite elem_of_nil; naive_solver|].
  rewrite elem_of_app, list_elem_of_filter, list_elem_of_fmap.
  assert ((∃ y : string * unit, d = y.1 ∧ y ∈ range_map (default ∅ (digestsByUncompressed mem !! u))) ↔
          ∃ s, digestsByUncompressed mem !! u = Some s ∧ is_Some (s !! d)) as ->.
  { split.
    - intros ([? v] & -> & Hy%range_map_elem). destruct (digestsByUncompressed mem !! u) as [ds|]; cbn in Hy; [by eauto|by apply lookup_empty_Some in Hy].
    - intros (ds & E & [v Hv]). exists (d, v). rewrite range_map_elem. by rewrite E. }
  destruct (decide (d = primary)) as [->|Hp]; [naive_solver|]. destruct (decide (d = u)) as [->|Hdu].
  - split; [naive_solver|]. intros _. right. right. rewrite decide_True by done. by left.
  - split; [intros [?|[(_ & Hs)|Hin]]; [done|by eauto 10|case_decide; set_solver]|]. intros [?|(_ & ? & -> & _ & [?|Hs])]; [done..|]. right. left. done.
Qed.

Lemma collect_spec mem transport scope primary canSubstitute o x :
  x ∈ (collect mem transport scope primary canSubstitute o).1 ↔
  stands_for mem canSubstitute primary (c_Digest (candidate x)) ∧ offers mem transport scope o (c_Digest (candidate x)) x.
Proof.
  rewrite collect_digests, list_elem_of_bind. setoid_rewrite candidates_for_spec. setoid_rewrite digests_of_spec. split.
  - intros (d & Hx & Hd). by rewrite (offers_digest _ _ _ _ _ _ Hx).
  - intros [Hd Hx]. eauto.
Qed.

Lemma collect_NoDup mem transport scope primary canSubstitute o : NoDup (place <$> (collect mem transport scope primary canSubstitute o).1).
Proof.
  rewrite collect_digests. pose proof (digests_of_NoDup mem canSubstitute primary) as Hn.
  induction Hn as [|d l Hd Hn IH]; [constructor|]. cbn [mbind list_bind]. rewrite fmap_app. apply NoDup_app.
  split_and!; [apply candidates_for_NoDup| |done]. intros q (x & -> & Hx)%list_elem_of_fmap (y & E & Hy)%list_elem_of_fmap.
  apply list_elem_of_bind in Hy as (d' & Hy & Hd'). apply candidates_for_spec, offers_digest in Hx, Hy.
  injection E as E _. congruence.
Qed.

Lemma CandidateLocations2_chosen mem transport scope primary options :
  let css := mkSortState primary (if CanSubstitute options then uncompressedDigestLocked mem primary else "") in
  ∃ offered K U,
    (∀ x, x ∈ offered ↔ stands_for mem (CanSubstitute options) primary (c_Digest (candidate x)) ∧
                         offers mem transport scope (Some options) (c_Digest (candidate x)) x) ∧
    prioritized css 5 2 offered K U ∧ NoDup (place <$> (K ++ U)%list) ∧
    CandidateLocations2 mem transport scope primary options = candidate <$> (K ++ U)%list.
Proof.
  intros css. unfold CandidateLocations2, candidateLocations. pose proof (collect_spec mem transport scope primary (CanSubstitute options) (Some options)) as Hs.
  pose proof (collect_NoDup mem transport scope primary (CanSubstitute options) (Some options)) as Hn.
  assert ((collect mem transport scope primary (CanSubstitute options) (Some options)).2 = uncompressedDigest css) as Eu.
  { unfold collect, css. destruct (CanSubstitute options); [|done]. by case_decide. }
  destruct (collect _ _ _ _ _ _) as [res u]; cbn [fst snd] in *. subst u.
  destruct (prioritize_max css res 5 2) as (K & U & Hp & E). exists res, K, U. split_and!; [done|done| |exact E].
  destruct Hp as [Hsub _]. apply submseteq_Permutation in Hsub as [k Hk]. rewrite Hk, fmap_app in Hn.
  by apply NoDup_app in Hn as [Hn _].
Qed.

(** C26: [CandidateLocations2] offers blobs that may stand for the one that is
    wanted, no place twice: at most five, at most two of them without a
    location and these at the end.  Among those with a location, and among those
    without one, the wanted digest comes first and the uncompressed one last; in
    between and among equals the one seen last comes first, and for the same
    time the smaller digest.  A candidate that is left out is no better in this
    order than the returned ones of its kind, and there was no room for it. *)
Theorem CandidateLocations2_best mem transport scope primary options :
  let css := mkSortState primary (if CanSubstitute options then uncompressedDigestLocked mem primary else "") in
  ∃ offered K U,
    (∀ x, x ∈ offered ↔ stands_for mem (CanSubstitute options) primary (c_Digest (candidate x)) ∧
                         offers mem transport scope (Some options) (c_Digest (candidate x)) x) ∧
    prioritized css 5 2 offered K U ∧ NoDup (place <$> (K ++ U)%list) ∧
    CandidateLocations2 mem transport scope primary options = candidate <$> (K ++ U)%list.
Proof. apply CandidateLocations2_chosen. Qed.

(** ** What the cache knows *)

Inductive op :=
  | OPair (anyDigest uncompressed : string)
  | OTOC (tocDigest uncompressed : string)
  | OLocation (transport scope blobDigest location : string)
  | OData (anyDigest : string) (data : DigestCompressorData).

Definition run_op (o : op) : M (World * cache) unit :=
  match o with
  | OPair a u => modify (λ s, (s.1, RecordDigestUncompressedPair a u s.2))
  | OTOC t u => modify (λ s, (s.1, RecordTOCUncompressedPair t u s.2))
  | OLocation t s d l => RecordKnownLocation t s d l
  | OData d data => modify (λ s, (s.1, RecordDigestCompressorData d data s.2))
  end.

Definition pair_of (a : string) (o : op) : option string :=
  match o with OPair a' u => if decide (a' = a) then Some u else None | _ => None end.
Definition toc_of (t : string) (o : op) : option string :=
  match o with OTOC t' u => if decide (t' = t) then Some u else None | _ => None end.
Definition base_of (d : string) (o : op) : option string :=
  match o with OData d' data => if decide (d' = d) then Some (BaseVariantCompressor data) else None | _ => None end.
Definition latest (f : op → option string) (default_ : string) (ops : list op) : string := default default_ (last (omap f ops)).

(** The cache as a function of the log of what was recorded. *)
Record reflects (ops : list op) (mem : cache) : Prop := {
  r_last a : uncompressedDigests mem !! a = last (omap (pair_of a) ops);
  r_toc t : uncompressedDigestsByTOC mem !! t = last (omap (toc_of t) ops);
  r_pairs a u : (∃ s, digestsByUncompressed mem !! u = Some s ∧ is_Some (s !! a)) ↔ OPair a u ∈ ops;
  r_nonempty u s : digestsByUncompressed mem !! u = Some s → s ≠ ∅;
  r_loc t s d l : is_Some (located mem t s d !! l) ↔ OLocation t s d l ∈ ops;
  r_base d : BaseVariantCompressor (compression_of mem d) = latest (base_of d) UnknownCompression ops;
  r_data d data : compressors mem !! d = Some data → BaseVariantCompressor data ≠ UnknownCompression;
  r_specific d : SpecificVariantCompressor (compression_of mem d) = UnknownCompression ∨
    ∃ data, OData d data ∈ ops ∧ SpecificVariantCompressor data = SpecificVariantCompressor (compression_of mem d) ∧
            SpecificVariantAnnotations data = SpecificVariantAnnotations (compression_of mem d)
}.

Lemma last_omap_snoc (f : op → option string) ops o :
  last (omap f (ops ++ [o])%list) = match f o with Some x => Some x | None => last (omap f ops) end.
Proof. rewrite omap_app. cbn. destruct (f o); [by rewrite last_snoc|by rewrite app_nil_r]. Qed.

Lemma latest_snoc f x ops o : latest f x (ops ++ [o])%list = match f o with Some y => y | None => latest f x ops end.
Proof. unfold latest. rewrite last_omap_snoc. by destruct (f o). Qed.

Lemma elem_of_snoc {A} (x y : A) l : x ∈ (l ++ [y])%list ↔ x ∈ l ∨ x = y.
Proof. by rewrite elem_of_app, list_elem_of_singleton. Qed.

Lemma reflects_new : reflects [] new2.
Proof.
  split; intros; cbn; try done.
  - split; [intros (s & Hs & _); by apply lookup_empty_Some in Hs|by intros ?%elem_of_nil].
  - unfold located, new2. cbn. rewrite lookup_empty. cbn. split; [intros [? Hs]; by apply lookup_empty_Some in Hs|by intros ?%elem_of_nil].
  - by left.
Qed.

(** One lemma for each method; the fields it does not touch carry over. *)
Ltac carry R := destruct R as [Hlast Htoc Hpairs Hne Hloc Hbase Hdata Hspec]; split; intros *;
  cbn [uncompressedDigests uncompressedDigestsByTOC digestsByUncompressed knownLocations compressors];
  rewrite ?last_omap_snoc, ?latest_snoc, ?elem_of_snoc; cbn [pair_of toc_of base_of].

Lemma specific_snoc ops o d mem :
  SpecificVariantCompressor (compression_of mem d) = UnknownCompression ∨
    (∃ data, OData d data ∈ ops ∧ SpecificVariantCompressor data = SpecificVariantCompressor (compression_of mem d) ∧
            SpecificVariantAnnotations data = SpecificVariantAnnotations (compression_of mem d)) →
  SpecificVariantCompressor (compression_of mem d) = UnknownCompression ∨
    (∃ data, OData d data ∈ (ops ++ [o])%list ∧ SpecificVariantCompressor data = SpecificVariantCompressor (compression_of mem d) ∧
            SpecificVariantAnnotations data = SpecificVariantAnnotations (compression_of mem d)).
Proof. intros [?|(data & ? & ?)]; [by left|right]. exists data. rewrite elem_of_snoc. auto. Qed.

Lemma reflects_pair ops mem a u : reflects ops mem → reflects (ops ++ [OPair a u])%list (RecordDigestUncompressedPair a u mem).
Proof.
  intros R. unfold RecordDigestUncompressedPair. carry R.
  - case_decide as E; [subst; by rewrite lookup_insert_eq|by rewrite lookup_insert_ne].
  - apply Htoc.
  - rewrite <- Hpairs. destruct (decide (u = u0)) as [<-|Hu].
    + rewrite lookup_insert_eq. destruct (decide (a = a0)) as [<-|Ha].
      * split; [auto|]. intros _. eexists. split; [done|]. rewrite lookup_insert_eq. eauto.
      * split.
        -- intros (s & [= <-] & Hs). rewrite lookup_insert_ne in Hs by done. left. destruct (digestsByUncompressed mem !! u); [eauto|].
           destruct Hs as [? Hs]. cbn in Hs. by apply lookup_empty_Some in Hs.
        -- intros [(s & Es & Hs)|[= <-]]; [|done]. eexists. split; [done|]. rewrite lookup_insert_ne by done. by rewrite Es.
    + rewrite lookup_insert_ne by done. naive_solver.
  - destruct (decide (u = u0)) as [<-|Hu]; [rewrite lookup_insert_eq; intros [= <-]; apply insert_non_empty|rewrite lookup_insert_ne by done; apply Hne].
  - setoid_rewrite <- Hloc. naive_solver.
  - apply Hbase.
  - apply Hdata.
  - apply specific_snoc, Hspec.
Qed.

Lemma reflects_toc ops mem t u : reflects ops mem → reflects (ops ++ [OTOC t u])%list (RecordTOCUncompressedPair t u mem).
Proof.
  intros R. unfold RecordTOCUncompressedPair. carry R; [apply Hlast| |rewrite Hpairs; naive_solver|apply Hne|rewrite <- Hloc; naive_solver|apply Hbase|apply Hdata|apply specific_snoc, Hspec].
  case_decide as E; [subst; by rewrite lookup_insert_eq|rewrite lookup_insert_ne by done; apply Htoc].
Qed.

Lemma reflects_location ops mem t s d l now :
  reflects ops mem →
  reflects (ops ++ [OLocation t s d l])%list
    (mkCache (uncompressedDigests mem) (uncompressedDigestsByTOC mem) (digestsByUncompressed mem)
       (<[(t, s, d) := <[l := now]> (located mem t s d)]> (knownLocations mem)) (compressors mem)).
Proof.
  intros R. carry R; [apply Hlast|apply Htoc|rewrite Hpairs; naive_solver|apply Hne| |apply Hbase|apply Hdata|apply specific_snoc, Hspec].
  rewrite <- Hloc. unfold located at 1. cbn [knownLocations]. destruct (decide ((t, s, d) = (t0, s0, d0))) as [[= <- <- <-]|Hk].
  - rewrite lookup_insert_eq. cbn. destruct (decide (l = l0)) as [<-|Hl]; [rewrite lookup_insert_eq|rewrite lookup_insert_ne by done]; naive_solver.
  - rewrite lookup_insert_ne by done. fold (located mem t0 s0 d0). naive_solver.
Qed.

Lemma preserve_base previous data : BaseVariantCompressor (preserve_specific previous data) = BaseVariantCompressor data.
Proof. unfold preserve_specific. destruct previous; [|done]. by case_decide. Qed.

Lemma reflects_data ops mem d data : reflects ops mem → reflects (ops ++ [OData d data])%list (RecordDigestCompressorData d data mem).
Proof.
  intros R. unfold RecordDigestCompressorData. rewrite preserve_base. carry R; [apply Hlast|apply Htoc|rewrite Hpairs; naive_solver|apply Hne|rewrite <- Hloc; naive_solver|..].
  - unfold compression_of. cbn [compressors]. destruct (decide (d = d0)) as [<-|Hd].
    + case_decide as E; [by rewrite lookup_delete_eq|rewrite lookup_insert_eq; apply preserve_base].
    + rewrite <- Hbase. unfold compression_of. case_decide; [by rewrite lookup_delete_ne|by rewrite lookup_insert_ne].
  - destruct (decide (d = d0)) as [<-|Hd]; case_decide as E; simplify_map_eq; intros; simplify_eq; eauto. by rewrite preserve_base.
  - unfold compression_of at 1 2 3. cbn [compressors]. destruct (decide (d = d0)) as [<-|Hd].
    + case_decide as E; [rewrite lookup_delete_eq; by left|]. rewrite lookup_insert_eq. cbn [default].
      specialize (Hspec d). unfold compression_of in Hspec. unfold preserve_specific.
      destruct (compressors mem !! d) as [prev|]; [cbn [default] in Hspec; case_decide as Hc|]; cbn [SpecificVariantCompressor SpecificVariantAnnotations].
      * destruct Hspec as [?|(x & Hx & ?)]; [by left|]. right. exists x. rewrite elem_of_snoc. auto.
      * right. exists data. rewrite elem_of_snoc. auto.
      * right. exists data. rewrite elem_of_snoc. auto.
    + specialize (Hspec d0). unfold compression_of in Hspec. case_decide; [rewrite lookup_delete_ne by done|rewrite lookup_insert_ne by done];
        (destruct Hspec as [?|(x & Hx & ?)]; [by left|right; exists x; rewrite elem_of_snoc; auto]).
Qed.

Lemma reflects_op ops o w mem s r : reflects ops mem → run_op o (w, mem) = (s, r) → reflects (ops ++ [o])%list s.2 ∧ r = Ret tt.
Proof.
  intros R. destruct o as [a u|t u|t sc d l|d data]; cbn [run_op]; unfold modify.
  - intros [= <- <-]. split; [by apply reflects_pair|done].
  - intros [= <- <-]. split; [by apply reflects_toc|done].
  - unfold RecordKnownLocation, time_Now. destruct (w_clock w) as [|now clock]; intros [= <- <-]; (split; [by apply reflects_location|done]).
  - intros [= <- <-]. split; [by apply reflects_data|done].
Qed.

Lemma reflects_run before ops w mem s r :
  reflects before mem → forM ops run_op (w, mem) = (s, r) → reflects (before ++ ops)%list s.2 ∧ r = Ret tt.
Proof.
  revert before w mem. induction ops as [|o ops IH]; intros before w mem R; cbn [forM].
  - intros [= <- <-]. by rewrite app_nil_r.
  - unfold mbind, M_bind. destruct (run_op o (w, mem)) as [[w1 mem1] o1] eqn:E.
    apply (reflects_op _ _ _ _ _ _ R) in E as [R1 ->]. intros Hr. rewrite (cons_middle o). rewrite app_assoc. by eapply IH.
Qed.

Lemma AlgorithmByName_Name name a : AlgorithmByName name = inl a → Name a = name.
Proof.
  unfold AlgorithmByName, compressionAlgorithms. destruct (list_to_map _ !! name) as [b|] eqn:E; [|done]. intros [= <-].
  apply elem_of_list_to_map_2, list_elem_of_fmap in E as (x & [= -> ->] & _). done.
Qed.

(** How a template says that the blob is compressed, given what is known. *)
Definition compression_fits (o : CandidateLocations2Options) (data : DigestCompressorData) (op : LayerCompression) (algo : option Algorithm) : Prop :=
  CandidateCompressionMatchesReuseConditions (conditions o) algo = true ∧
  match algo with
  | None => op = Decompress ∧ BaseVariantCompressor data = Uncompressed
  | Some a => op = Compress ∧ BaseVariantCompressor data ∉ [Uncompressed; UnknownCompression] ∧
              (Name a = BaseVariantCompressor data ∨ SpecificVariantCompressor data ≠ UnknownCompression ∧ Name a = SpecificVariantCompressor data)
  end.

Lemma template_fits o d data t :
  CandidateTemplateWithCompression (Some o) d data = Some t → compression_fits o data (compressionOperation t) (compressionAlgorithm t).
Proof.
  unfold CandidateTemplateWithCompression, variant_template, compression_fits.
  destruct (decide (BaseVariantCompressor data = Uncompressed)) as [Eb|Eb].
  { destruct (CandidateCompressionMatchesReuseConditions _ _) eqn:Ec; [|done]. intros [= <-]. split; [exact Ec|done]. }
  destruct (decide (BaseVariantCompressor data = UnknownCompression)) as [Eu|Eu]; [done|].
  assert (BaseVariantCompressor data ∉ [Uncompressed; UnknownCompression]) as Hb by set_solver.
  assert (∀ name ann t', match AlgorithmByName name with
                         | inr _ => None
                         | inl algo => if CandidateCompressionMatchesReuseConditions (conditions o) (Some algo) then Some (mkTemplate d Compress (Some algo) ann) else None
                         end = Some t' →
          ∃ a, t' = mkTemplate d Compress (Some a) ann ∧ Name a = name ∧ CandidateCompressionMatchesReuseConditions (conditions o) (Some a) = true) as Hv.
  { intros name ann t'. destruct (AlgorithmByName name) as [a|] eqn:Ea; [|done]. apply AlgorithmByName_Name in Ea.
    destruct (CandidateCompressionMatchesReuseConditions _ _) eqn:Ec; [|done]. intros [= <-]. eauto. }
  destruct (decide (SpecificVariantCompressor data = UnknownCompression)) as [Es|Es]; [intros Ht|].
  - apply Hv in Ht as (a & -> & Ha & Hc). cbn. auto.
  - destruct (match AlgorithmByName (SpecificVariantCompressor data) with inl _ => _ | inr _ => _ end) as [t'|] eqn:E1.
    + intros [= <-]. apply Hv in E1 as (a & -> & Ha & Hc). cbn. auto 6.
    + intros Ht. apply Hv in Ht as (a & -> & Ha & Hc). cbn. auto.
Qed.

Lemma prioritized_elem css n m cs K U x : prioritized css n m cs K U → x ∈ (K ++ U)%list → x ∈ cs.
Proof. intros [Hs _] Hx. by eapply elem_of_submseteq. Qed.

(** C21: Whatever was recorded, in whatever order, a candidate of
    [CandidateLocations2] goes back to it.  Its digest is the wanted one or, if
    substitution is allowed, was recorded with the same uncompressed digest.
    Its location was recorded for this digest, transport and scope; without a
    location none was.  Its compression is the one recorded last, or a variant
    that was recorded, and meets the conditions of the caller. *)
Theorem CandidateLocations2_recorded ops w s r transport scope primary options c :
  forM ops run_op (w, new2) = (s, r) → c ∈ CandidateLocations2 s.2 transport scope primary options →
  let d := c_Digest c in let base := latest (base_of d) UnknownCompression ops in
  r = Ret tt ∧
  (d = primary ∨ CanSubstitute options = true ∧
     ∃ u, u ≠ "" ∧ (OPair primary u ∈ ops ∨ u = primary ∧ ∃ a, OPair a u ∈ ops) ∧ (d = u ∨ OPair d u ∈ ops)) ∧
  (if UnknownLocation c then ∀ l, OLocation transport scope d l ∉ ops else OLocation transport scope d (Location c) ∈ ops) ∧
  CandidateCompressionMatchesReuseConditions (conditions options) (CompressionAlgorithm c) = true ∧
  match CompressionAlgorithm c with
  | None => CompressionOperation c = Decompress ∧ base = Uncompressed
  | Some a => CompressionOperation c = Compress ∧ base ∉ [Uncompressed; UnknownCompression] ∧
              (Name a = base ∨ ∃ data, OData d data ∈ ops ∧ SpecificVariantCompressor data = Name a)
  end.
Proof.
  intros Hrun Hc d base. apply (reflects_run [] _ _ _ _ _ reflects_new) in Hrun as [R ->]. cbn [app] in R. set (mem := s.2) in *.
  destruct (CandidateLocations2_chosen mem transport scope primary options) as (offered & K & U & Hoff & Hp & _ & E).
  rewrite E in Hc. apply list_elem_of_fmap in Hc as (x & -> & Hx). apply (prioritized_elem _ _ _ _ _ _ _ Hp), Hoff in Hx as [Hstands Hoffers].
  fold d in Hstands, Hoffers. clear E Hp Hoff. split; [done|]. split; [|split].
  - destruct Hstands as [->|(Hsub & u & Eu & Hu & Hd)]; [by left|]. right. split; [done|]. exists u. split; [done|]. split.
    + unfold uncompressedDigestLocked in Eu. rewrite (r_last _ _ R) in Eu. destruct (last (omap (pair_of primary) ops)) as [v|] eqn:El.
      * left. subst v. apply last_Some_elem_of, list_elem_of_omap in El as (o & Ho & Hp). destruct o; cbn in Hp; try done.
        case_decide; [|done]. by simplify_eq.
      * destruct (digestsByUncompressed mem !! primary) as [ds|] eqn:Ed; [|done]. case_decide as Hsz; [|done]. subst u. right. split; [done|].
        destruct (map_choose ds) as (a & v & Ha); [by intros ->|]. exists a. apply (r_pairs _ _ R). eauto.
    + destruct Hd as [->|Hd]; [by left|right]. by apply (r_pairs _ _ R).
  - destruct Hoffers as (t & _ & [(l & seen & Hl & ->)|(Hl & _ & ->)]); cbn.
    + apply (r_loc _ _ R). eauto.
    + intros l Hin%(r_loc _ _ R). change (is_Some (located mem transport scope d !! l)) in Hin. rewrite Hl in Hin. destruct Hin as [? Hin]. by apply lookup_empty_Some in Hin.
  - assert (compression_fits options (compression_of mem d) (CompressionOperation (candidate x)) (CompressionAlgorithm (candidate x))) as [Hm Hf].
    { destruct Hoffers as (t & Ht%template_fits & [(l & seen & _ & ->)|(_ & _ & ->)]); exact Ht. }
    split; [done|]. unfold base. rewrite <- (r_base _ _ R). destruct (CompressionAlgorithm (candidate x)) as [a|]; [|done].
    destruct Hf as (? & ? & [?|[Hne Hs]]); split_and!; auto. right. destruct (r_specific _ _ R d) as [?|(data & ? & Hd & _)]; [done|].
    exists data. by rewrite Hd.
Qed.

(** A place that was just recorded is the first candidate, if the clock went on
    since the others. *)
Theorem RecordKnownLocation_first w now clock mem transport scope d l s r canSubstitute :
  w_clock w = now :: clock → (∀ l' seen, located mem transport scope d !! l' = Some seen → (seen < now)%Z) →
  RecordKnownLocation transport scope d l (w, mem) = (s, r) →
  head (CandidateLocations s.2 transport scope d canSubstitute) = Some (mkV1 d l).
Proof.
  intros Hw Hold. unfold RecordKnownLocation, time_Now. rewrite Hw. intros [= <- <-]. cbn [snd].
  set (mem' := mkCache _ _ _ _ _). unfold CandidateLocations, candidateLocations.
  pose proof (collect_spec mem' transport scope d canSubstitute None) as Hs.
  destruct (collect mem' transport scope d canSubstitute None) as [res u]. cbn [fst] in Hs.
  destruct (prioritize_max (mkSortState d u) res 5 2) as (K & U & Hp & E). unfold DestructivelyPrioritizeReplacementCandidates, replacementAttempts, replacementUnknownLocationAttempts. cbn [primaryDigest uncompressedDigest] in E. rewrite E.
  set (t := mkTemplate d PreserveOriginal None None). set (x := CandidateWithLocation t l now).
  assert (located mem' transport scope d = <[l := now]> (located mem transport scope d)) as El.
  { unfold located, mem'. cbn. by rewrite lookup_insert_eq. }
  assert (x ∈ res) as Hx.
  { apply Hs. split; [by left|]. exists t. split; [done|]. left. exists l, now. change (c_Digest (candidate x)) with d. rewrite El, lookup_insert_eq. done. }
  assert (∀ y, y ∈ res → no_later (mkSortState d u) y x → y = x) as Hbest.
  { intros y [_ (ty & Et & Hy)]%Hs. rewrite <- compare_no_later, compare_rank. destruct Hy as [(l' & seen & Hl & ->)|(_ & [? [=]] & _)]. cbn in Et.
    injection Et as <-. unfold rank. cbn in *. rewrite (decide_True (P := d = d)) by done. case_decide as Ed; [|by case_decide]. cbn [Nat.compare lex].
    rewrite Ed in *. rewrite El in Hl. destruct (decide (l' = l)) as [->|Hl']; [rewrite lookup_insert_eq in Hl; by simplify_eq|].
    rewrite lookup_insert_ne in Hl by done. apply Hold in Hl. destruct (Z.compare_spec now seen); [lia|lia|done]. }
  assert (∀ y, y ∈ K → y ∈ res) as HK by (intros y Hy; eapply prioritized_elem; [done|apply elem_of_app; by left]).
  destruct Hp as (_ & _ & _ & HsK & _ & _ & Hknown & _).
  destruct K as [|y K']; [by destruct (Hknown x Hx eq_refl) as [?%elem_of_nil|[? _]]|].
  rewrite (Hbest y); [done|apply HK; by left|]. destruct (Hknown x Hx eq_refl) as [Hin|[_ Hn]]; [|apply Hn; by left].
  apply elem_of_cons in Hin as [->|Hin]; [rewrite <- compare_no_later, (weak_refl _ _ (compare_weak _)); done|].
  apply StronglySorted_inv in HsK as [_ Hall]. by eapply Forall_forall in Hall.
Qed.
End Facts.

(** ** Runs *)

Definition demo_ops : list op :=
  [OPair "sha256:gz" "sha256:tar"; OPair "sha256:zst" "sha256:tar"; OLocation "docker" "quay.io" "sha256:gz" "quay.io/a";
   OLocation "docker" "quay.io" "sha256:gz" "quay.io/b"; OData "sha256:gz" (mkData "gzip" UnknownCompression None);
   OData "sha256:zst" (mkData "zstd" "zstd:chunked" (Some ∅)); OData "sha256:zst" (mkData "zstd" UnknownCompression None)].
Definition demo_world : World := mkWorld ∅ ∅ [] (λ _, "a"%char) 0 [10%Z; 20%Z] 1 0 noMeta.
Definition demo_cache : cache := (forM demo_ops run_op (demo_world, new2)).1.2.
Definition demo_candidate : BICReplacementCandidate2 := mkCandidate2 "sha256:gz" Compress (Some Gzip) None false "quay.io/b".

Example demo_candidates :
  CandidateLocations2 demo_cache "docker" "quay.io" "sha256:tar" (mkOptions true None None) =
  [demo_candidate; mkCandidate2 "sha256:gz" Compress (Some Gzip) None false "quay.io/a";
   mkCandidate2 "sha256:zst" Compress (Some ZstdChunked) (Some ∅) true ""].
Proof. vm_compute. reflexivity. Qed.

Lemma CandidateLocations2_best_witness :
  ∃ offered K U, prioritized (mkSortState "sha256:tar" "sha256:tar") 5 2 offered K U ∧
    candidate <$> (K ++ U)%list =
    [demo_candidate; mkCandidate2 "sha256:gz" Compress (Some Gzip) None false "quay.io/a";
     mkCandidate2 "sha256:zst" Compress (Some ZstdChunked) (Some ∅) true ""].
Proof.
  destruct (CandidateLocations2_best demo_cache "docker" "quay.io" "sha256:tar" (mkOptions true None None)) as (offered & K & U & _ & Hp & _ & E).
  exists offered, K, U. split; [exact Hp|]. rewrite <- E. apply demo_candidates.
Defined.

Lemma CandidateLocations2_recorded_witness :
  OLocation "docker" "quay.io" "sha256:gz" "quay.io/b" ∈ demo_ops.
Proof.
  pose proof (CandidateLocations2_recorded demo_ops demo_world (forM demo_ops run_op (demo_world, new2)).1 (forM demo_ops run_op (demo_world, new2)).2
    "docker" "quay.io" "sha256:tar" (mkOptions true None None) demo_candidate) as H.
  apply H; [by destruct (forM _ _ _)|]. change (demo_candidate ∈ CandidateLocations2 demo_cache "docker" "quay.io" "sha256:tar" (mkOptions true None None)).
  rewrite demo_candidates. by left.
Defined.

(** A blob that was taken for one in the format zstd:chunked and turns out to be
    compressed with gzip is offered as zstd:chunked: the variant that was
    recorded is kept although the base variant has changed. *)
Theorem variant_of_another_base :
  let record base variant := RecordDigestCompressorData "sha256:a" (mkData base variant None) in
  let mem := record "gzip" UnknownCompression (record "zstd" "zstd:chunked" new2) in
  CandidateLocations2 mem "docker" "quay.io" "sha256:a" (mkOptions false None None) =
  [mkCandidate2 "sha256:a" Compress (Some ZstdChunked) None true ""].
Proof. vm_compute. reflexivity. Qed.
End BlobInfoCacheFacts.
