(* ===== verification/ImageManifest.v ===== *)
(** * Manifests of single images

    [image/manifest]: the three formats of manifests with their layers, the
    MIME types of layers under compression and encryption ([common.go], [oci.go],
    [docker_schema2.go]) and the chain of histories of the oldest format
    ([docker_schema1.go]). *)

From S2P Require Import Prelude StoreUtil GoJson GoRegexp DockerReference Signatures ManifestList BlobInfoCache.
Local Open Scope string_scope.

Module ImageManifest.
Import ManifestList BlobInfoCache.

(** ** Types of layers *)

(** [imgspecv1] *)
Definition MediaTypeDescriptor := "application/vnd.oci.descriptor.v1+json".
Definition MediaTypeLayoutHeader := "application/vnd.oci.layout.header.v1+json".
Definition MediaTypeImageLayer := "application/vnd.oci.image.layer.v1.tar".
Definition MediaTypeImageLayerGzip := "application/vnd.oci.image.layer.v1.tar+gzip".
Definition MediaTypeImageLayerZstd := "application/vnd.oci.image.layer.v1.tar+zstd".
Definition MediaTypeImageLayerNonDistributable := "application/vnd.oci.image.layer.nondistributable.v1.tar".
Definition MediaTypeImageLayerNonDistributableGzip := "application/vnd.oci.image.layer.nondistributable.v1.tar+gzip".
Definition MediaTypeImageLayerNonDistributableZstd := "application/vnd.oci.image.layer.nondistributable.v1.tar+zstd".
(** [ociencspec] *)
Definition MediaTypeLayerEnc := "application/vnd.oci.image.layer.v1.tar+encrypted".
Definition MediaTypeLayerGzipEnc := "application/vnd.oci.image.layer.v1.tar+gzip+encrypted".

Definition DockerV2Schema2LayerMediaType := "application/vnd.docker.image.rootfs.diff.tar.gzip".
Definition DockerV2SchemaLayerMediaTypeUncompressed := "application/vnd.docker.image.rootfs.diff.tar".
Definition DockerV2SchemaLayerMediaTypeZstd := "application/vnd.docker.image.rootfs.diff.tar.zstd".
Definition DockerV2Schema2ForeignLayerMediaType := "application/vnd.docker.image.rootfs.foreign.diff.tar".
Definition DockerV2Schema2ForeignLayerMediaTypeGzip := "application/vnd.docker.image.rootfs.foreign.diff.tar.gzip".

Definition SupportedSchema2MediaType (m : string) : option error :=
  if decide (m ∈ [Signatures.DockerV2ListMediaType; Signatures.DockerV2Schema1MediaType; Signatures.DockerV2Schema1SignedMediaType;
                  Signatures.DockerV2Schema2ConfigMediaType; DockerV2Schema2ForeignLayerMediaType; DockerV2Schema2ForeignLayerMediaTypeGzip;
                  DockerV2Schema2LayerMediaType; Signatures.DockerV2Schema2MediaType; DockerV2SchemaLayerMediaTypeUncompressed;
                  DockerV2SchemaLayerMediaTypeZstd])
  then None else Some (ErrOther "unsupported docker v2s2 media type").

Definition SupportedOCI1MediaType (m : string) : option error :=
  if decide (m ∈ [MediaTypeDescriptor; Signatures.MediaTypeImageConfig; MediaTypeImageLayer; MediaTypeImageLayerGzip; MediaTypeImageLayerZstd;
                  MediaTypeImageLayerNonDistributable; MediaTypeImageLayerNonDistributableGzip; MediaTypeImageLayerNonDistributableZstd;
                  Signatures.MediaTypeImageManifest; MediaTypeLayoutHeader; MediaTypeLayerEnc; MediaTypeLayerGzipEnc])
  then None else Some (ErrOther "unsupported OCIv1 media type").

Definition DefaultRequestedManifestMIMETypes : list string :=
  [Signatures.MediaTypeImageManifest; Signatures.DockerV2Schema2MediaType; Signatures.DockerV2Schema1SignedMediaType;
   Signatures.DockerV2Schema1MediaType; Signatures.DockerV2ListMediaType; Signatures.MediaTypeImageIndex].
Definition MIMETypeIsMultiImage (mimeType : string) : bool :=
  bool_decide (mimeType = Signatures.DockerV2ListMediaType ∨ mimeType = Signatures.MediaTypeImageIndex).
Definition MIMETypeSupportsEncryption (mimeType : string) : bool := bool_decide (mimeType = Signatures.MediaTypeImageManifest).

(** ** Blobs *)

(** [types.LayerCrypto]; the last constructor is any other integer. *)
Inductive LayerCrypto := PreserveOriginalCrypto | Encrypt | Decrypt | otherLayerCrypto (n : Z).
#[global] Instance LayerCrypto_eq_dec : EqDecision LayerCrypto.
Proof. solve_decision. Defined.

Record BlobInfo := mkBlobInfo {
  b_Digest : string;
  b_Size : Z;
  b_URLs : option (list string);
  b_Annotations : gomap string;
  b_MediaType : string;
  b_CompressionOperation : LayerCompression;
  b_CompressionAlgorithm : option Algorithm;
  b_CryptoOperation : LayerCrypto
}.
Definition emptyBlobInfo : BlobInfo := mkBlobInfo "" 0 None None "" PreserveOriginal None PreserveOriginalCrypto.
Record LayerInfo := mkLayerInfo { l_BlobInfo : BlobInfo; EmptyLayer : bool }.

Definition layerInfosToStrings (infos : list LayerInfo) : list string := (λ i, b_Digest (l_BlobInfo i)) <$> infos.

Record ImageInspectLayer := mkInspectLayer { MIMEType : string; il_Digest : string; il_Size : Z; il_Annotations : gomap string }.
Definition imgInspectLayersFromLayerInfos (infos : list LayerInfo) : list ImageInspectLayer :=
  (λ i, mkInspectLayer (b_MediaType (l_BlobInfo i)) (b_Digest (l_BlobInfo i)) (b_Size (l_BlobInfo i)) (b_Annotations (l_BlobInfo i))) <$> infos.

(** ** Compression and MIME types *)

Definition compressionMIMETypeSet := gmap string string.
Definition mtsUncompressed := "".
Definition mtsUnsupportedMIMEType := "".

(** The error type that callers look for. *)
Definition ManifestLayerCompressionIncompatibilityError : error := ErrOther "ManifestLayerCompressionIncompatibilityError".

Fixpoint findCompressionMIMETypeSet (variantTable : list compressionMIMETypeSet) (mimeType : string) : option compressionMIMETypeSet :=
  match variantTable with
  | [] => None
  | variants :: variantTable =>
      if decide (Exists (λ kv : string * string, kv.2 = mimeType) (map_to_list (variants : gmap string string))) then Some variants
      else findCompressionMIMETypeSet variantTable mimeType
  end.

Definition compressionVariantMIMEType (variantTable : list compressionMIMETypeSet) (mimeType : string) (algorithm : option Algorithm)
  : string + error :=
  if decide (mimeType = mtsUnsupportedMIMEType) then inr (ErrOther "cannot update unknown MIME type")
  else match findCompressionMIMETypeSet variantTable mimeType with
       | Some variants =>
           let name := match algorithm with Some a => BaseVariantName a | None => mtsUncompressed end in
           match (variants : gmap string string) !! name with
           | Some res =>
               if decide (res ≠ mtsUnsupportedMIMEType) then inl res else inr ManifestLayerCompressionIncompatibilityError
           | None => inr ManifestLayerCompressionIncompatibilityError
           end
       | None =>
           match algorithm with
           | Some _ => inr (ErrOther "unsupported MIME type for compression")
           | None => inr (ErrOther "unsupported MIME type for decompression")
           end
       end.

Definition updatedMIMEType (variantTable : list compressionMIMETypeSet) (mimeType : string) (updated : BlobInfo) : string + error :=
  match b_CompressionOperation updated with
  | PreserveOriginal =>
      match b_CompressionAlgorithm updated with
      | Some a => compressionVariantMIMEType variantTable mimeType (Some a)
      | None => inl mimeType
      end
  | Decompress => compressionVariantMIMEType variantTable mimeType None
  | Compress =>
      match b_CompressionAlgorithm updated with
      | None => inl mimeType
      | Some a => compressionVariantMIMEType variantTable mimeType (Some a)
      end
  | otherLayerCompression _ => inr (ErrOther "unknown compression operation")
  end.

Definition compressionVariantsRecognizeMIMEType (variantTable : list compressionMIMETypeSet) (mimeType : string) : bool :=
  if decide (mimeType = mtsUnsupportedMIMEType) then false
  else bool_decide (is_Some (findCompressionMIMETypeSet variantTable mimeType)).

(** ** OCI manifests *)

(** [imgspecv1.Manifest] *)
Record OCI1 := mkOCI1 {
  o_SchemaVersion : Z;
  o_MediaType : string;
  o_ArtifactType : string;
  Config : Descriptor;
  Layers : list Descriptor;
  o_Subject : option Descriptor;
  o_Annotations : gomap string
}.
Definition set_Layers (l : list Descriptor) (m : OCI1) : OCI1 :=
  mkOCI1 (o_SchemaVersion m) (o_MediaType m) (o_ArtifactType m) (Config m) l (o_Subject m) (o_Annotations m).
Definition emptyDescriptor : Descriptor := mkDescriptor "" "" 0 None None None None "".

Definition BlobInfoFromOCI1Descriptor (desc : Descriptor) : BlobInfo :=
  mkBlobInfo (Digest desc) (Size desc) (URLs desc) (Annotations desc) (MediaType desc) PreserveOriginal None PreserveOriginalCrypto.

Definition OCI1FromComponents (config : Descriptor) (layers : list Descriptor) : OCI1 :=
  mkOCI1 2 Signatures.MediaTypeImageManifest "" config layers None None.

Definition ConfigInfo (m : OCI1) : BlobInfo := BlobInfoFromOCI1Descriptor (Config m).
Definition LayerInfos (m : OCI1) : list LayerInfo := (λ layer, mkLayerInfo (BlobInfoFromOCI1Descriptor layer) false) <$> Layers m.

Definition oci1CompressionMIMETypeSets : list compressionMIMETypeSet :=
  [ {[ mtsUncompressed := MediaTypeImageLayerNonDistributable; GzipAlgorithmName := MediaTypeImageLayerNonDistributableGzip;
       ZstdAlgorithmName := MediaTypeImageLayerNonDistributableZstd ]};
    {[ mtsUncompressed := MediaTypeImageLayer; GzipAlgorithmName := MediaTypeImageLayerGzip; ZstdAlgorithmName := MediaTypeImageLayerZstd ]} ].

(** [strings.Split] at a plus sign: the first part and the others. *)
Fixpoint split_plus (s : string) : string * list string :=
  match s with
  | EmptyString => ("", [])
  | String c s =>
      let '(p, ps) := split_plus s in
      if decide (c = "+"%char) then ("", p :: ps) else (String c p, ps)
  end.

Definition getEncryptedMediaType (mediatype : string) : string + error :=
  let '(unsuffixedMediatype, parts) := split_plus mediatype in
  if decide ("encrypted" ∈ parts) then inr (ErrOther "unsupported mediaType: already encrypted")
  else if decide (unsuffixedMediatype ∈ [DockerV2Schema2LayerMediaType; MediaTypeImageLayer; MediaTypeImageLayerNonDistributable])
       then inl (mediatype +:+ "+encrypted")
       else inr (ErrOther "unsupported mediaType to encrypt").

Definition getDecryptedMediaType (mediatype : string) : string + error :=
  match DockerTransport.CutSuffix mediatype "+encrypted" with
  | (res, true) => inl res
  | (_, false) => inr (ErrOther "unsupported mediaType to decrypt")
  end.

(** The MIME type of a layer after the edits of [info]. *)
Definition oci_mime (mimeType : string) (info : BlobInfo) : string + error :=
  match (if decide (b_CryptoOperation info = Decrypt) then
           match getDecryptedMediaType mimeType with
           | inl m => inl m
           | inr _ => inr (ErrOther "decryption specified but original mediatype is not encrypted")
           end
         else inl mimeType) with
  | inr e => inr e
  | inl mimeType =>
      match updatedMIMEType oci1CompressionMIMETypeSets mimeType info with
      | inr e => inr e
      | inl mimeType =>
          if decide (b_CryptoOperation info = Encrypt) then
            match getEncryptedMediaType mimeType with
            | inl m => inl m
            | inr _ => inr (ErrOther "encryption specified but no counterpart for mediatype")
            end
          else inl mimeType
      end
  end.

(** [m.Layers[i]] is assigned. *)
Definition set_layer (i : nat) (d : Descriptor) : M OCI1 unit := modify (λ m, set_Layers (<[i := d]> (Layers m)) m).

Definition update_layer (x : nat * (Descriptor * BlobInfo)) : M OCI1 unit :=
  let '(i, (original, info)) := x in
  match oci_mime (MediaType original) info with
  | inr e => fail e
  | inl mimeType =>
      set_layer i (mkDescriptor mimeType (b_Digest info) (b_Size info) (b_URLs info) (b_Annotations info) None None "")
  end.

Definition UpdateLayerInfos (layerInfos : list BlobInfo) : M OCI1 unit :=
  original ← gets Layers;
  if decide (length original ≠ length layerInfos) then fail (ErrOther "Error preparing updated manifest: layer count changed")
  else
    modify (set_Layers (replicate (length layerInfos) emptyDescriptor));;
    forM (imap pair (zip original layerInfos)) update_layer.

(** [manifest.NewNonImageArtifactError] *)
Definition NewNonImageArtifactError (m : OCI1) : error :=
  ErrOther ("NonImageArtifactError: " +:+ (if decide (o_ArtifactType m = "") then MediaType (Config m) else o_ArtifactType m)).

Definition CanChangeLayerCompression (m : OCI1) (mimeType : string) : bool :=
  if decide (MediaType (Config m) ≠ Signatures.MediaTypeImageConfig) then false
  else compressionVariantsRecognizeMIMEType oci1CompressionMIMETypeSets mimeType.

(** ** Docker manifests, schema 2 *)

Record Schema2Descriptor := mkSchema2Descriptor { sd_MediaType : string; sd_Size : Z; sd_Digest : string; sd_URLs : option (list string) }.
Record Schema2 := mkSchema2Manifest {
  s2_SchemaVersion : Z;
  s2_MediaType : string;
  ConfigDescriptor : Schema2Descriptor;
  LayersDescriptors : list Schema2Descriptor
}.
Definition set_LayersDescriptors (l : list Schema2Descriptor) (m : Schema2) : Schema2 :=
  mkSchema2Manifest (s2_SchemaVersion m) (s2_MediaType m) (ConfigDescriptor m) l.
Definition emptySchema2Descriptor : Schema2Descriptor := mkSchema2Descriptor "" 0 "" None.

Definition BlobInfoFromSchema2Descriptor (desc : Schema2Descriptor) : BlobInfo :=
  mkBlobInfo (sd_Digest desc) (sd_Size desc) (sd_URLs desc) None (sd_MediaType desc) PreserveOriginal None PreserveOriginalCrypto.

Definition Schema2FromComponents (config : Schema2Descriptor) (layers : list Schema2Descriptor) : Schema2 :=
  mkSchema2Manifest 2 Signatures.DockerV2Schema2MediaType config layers.

Definition s2_ConfigInfo (m : Schema2) : BlobInfo := BlobInfoFromSchema2Descriptor (ConfigDescriptor m).
Definition s2_LayerInfos (m : Schema2) : list LayerInfo := (λ layer, mkLayerInfo (BlobInfoFromSchema2Descriptor layer) false) <$> LayersDescriptors m.

Definition schema2CompressionMIMETypeSets : list compressionMIMETypeSet :=
  [ {[ mtsUncompressed := DockerV2Schema2ForeignLayerMediaType; GzipAlgorithmName := DockerV2Schema2ForeignLayerMediaTypeGzip;
       ZstdAlgorithmName := mtsUnsupportedMIMEType ]};
    {[ mtsUncompressed := DockerV2SchemaLayerMediaTypeUncompressed; GzipAlgorithmName := DockerV2Schema2LayerMediaType;
       ZstdAlgorithmName := mtsUnsupportedMIMEType ]} ].

Definition s2_mime (mimeType : string) (info : BlobInfo) : string + error :=
  match SupportedSchema2MediaType mimeType with
  | Some _ => inr (ErrOther "Error preparing updated manifest: unknown media type of original layer")
  | None => updatedMIMEType schema2CompressionMIMETypeSets mimeType info
  end.

Definition s2_set_layer (i : nat) (d : Schema2Descriptor) : M Schema2 unit :=
  modify (λ m, set_LayersDescriptors (<[i := d]> (LayersDescriptors m)) m).

Definition s2_update_layer (x : nat * (Schema2Descriptor * BlobInfo)) : M Schema2 unit :=
  let '(i, (original, info)) := x in
  match s2_mime (sd_MediaType original) info with
  | inr e => fail e
  | inl mimeType =>
      s2_set_layer i (mkSchema2Descriptor mimeType (b_Size info) (b_Digest info) (b_URLs info));;
      if decide (b_CryptoOperation info ≠ PreserveOriginalCrypto)
      then fail (ErrOther "encryption change is not supported in schema2 manifests") else mret tt
  end.

Definition s2_UpdateLayerInfos (layerInfos : list BlobInfo) : M Schema2 unit :=
  original ← gets LayersDescriptors;
  if decide (length original ≠ length layerInfos) then fail (ErrOther "Error preparing updated manifest: layer count changed")
  else
    modify (set_LayersDescriptors (replicate (length layerInfos) emptySchema2Descriptor));;
    forM (imap pair (zip original layerInfos)) s2_update_layer.

Definition s2_CanChangeLayerCompression (mimeType : string) : bool :=
  compressionVariantsRecognizeMIMEType schema2CompressionMIMETypeSets mimeType.

(** ** Docker manifests, schema 1 *)

(** The fields of [Schema1V1Compatibility]; [cc_Cmd] is that of its
    [ContainerConfig]. *)
Record Schema1V1Compatibility := mkCompat {
  ID : string;
  Parent : string;
  Comment : string;
  Created : Z;
  cc_Cmd : option (list string);
  Author : string;
  ThrowAway : bool
}.
(** An entry of [FSLayers] is a struct of one digest, one of [History] a struct
    of one text. *)
Record Schema1 := mkSchema1 {
  s1_Name : string;
  s1_Tag : string;
  s1_Architecture : string;
  FSLayers : list string;
  History : list string;
  ExtractedV1Compatibility : list Schema1V1Compatibility;
  s1_SchemaVersion : Z
}.
Definition set_FSLayers (l : list string) (m : Schema1) : Schema1 :=
  mkSchema1 (s1_Name m) (s1_Tag m) (s1_Architecture m) l (History m) (ExtractedV1Compatibility m) (s1_SchemaVersion m).
Definition set_History (l : list string) (m : Schema1) : Schema1 :=
  mkSchema1 (s1_Name m) (s1_Tag m) (s1_Architecture m) (FSLayers m) l (ExtractedV1Compatibility m) (s1_SchemaVersion m).
Definition set_Extracted (l : list Schema1V1Compatibility) (m : Schema1) : Schema1 :=
  mkSchema1 (s1_Name m) (s1_Tag m) (s1_Architecture m) (FSLayers m) (History m) l (s1_SchemaVersion m).

(** The fields that are used of [imgspecv1.Image] and of [Schema2V1Image],
    [None] being a nil configuration of the latter; the rest of a
    [Schema2V1Image] only passes through its JSON form. *)
Record v1Config := mkV1Config { Labels : gomap string; Env : option (list string) }.
Record v1Image := mkV1Image {
  v_Created : option Z;
  v_DockerVersion : string;
  v_Architecture : string;
  v_Variant : string;
  v_OS : string;
  v_Author : string;
  v_Config : option v1Config;
  v_rest : string
}.
Record Schema2History := mkSchema2History { h_Created : Z; h_Author : string; CreatedBy : string; h_Comment : string; h_EmptyLayer : bool }.
Record Schema2RootFS := mkRootFS { Type_ : string; DiffIDs : list string }.

(** [encoding/json] for the structs of this package, [versions.LessThan] of
    moby, and [Digest.Encoded] of [go-digest]. *)
Class ManifestJSON := {
  Unmarshal_OCI1 : string → OCI1 + error;
  Unmarshal_Schema2 : string → Schema2 + error;
  Unmarshal_Schema1 : string → Schema1 + error;
  Unmarshal_V1Compatibility : string → Schema1V1Compatibility + error;
  Unmarshal_OCIImage : string → v1Image + error;
  Unmarshal_V1Image : string → v1Image + error;
  Unmarshal_raw : string → gmap string (option string) + error;
  Marshal_OCI1 : OCI1 → string + error;
  Marshal_Schema2 : Schema2 → string + error;
  Marshal_V1Image : v1Image → string + error;
  Marshal_rootfs : Schema2RootFS → string + error;
  Marshal_history : list Schema2History → string + error;
  Marshal_raw : gmap string (option string) → string + error;
  LessThan : string → string → bool;
  Encoded : string → string
}.

Section Schema1.
Context `{GoJson.JSON} `{ManifestJSON} `{Digests}.

(** The loop of [initialize]: an entry that cannot be read ends it; the entries
    after it stay empty. *)
Definition emptyCompat : Schema1V1Compatibility := mkCompat "" "" "" zero_time None "" false.
Definition extract_one (x : nat * string) : M Schema1 unit :=
  match Unmarshal_V1Compatibility x.2 with
  | inl c => modify (λ m, set_Extracted (<[x.1 := c]> (ExtractedV1Compatibility m)) m)
  | inr e => fail e
  end.

Definition initialize : M Schema1 unit :=
  m ← gets id;
  if decide (length (FSLayers m) ≠ length (History m)) then fail (ErrOther "length of history not equal to number of layers")
  else if decide (length (FSLayers m) = 0)%nat then fail (ErrOther "no FSLayers in manifest")
  else
    modify (set_Extracted (replicate (length (History m)) emptyCompat));;
    forM (imap pair (History m)) extract_one.

Definition validHex : Regexp.regexp := Regexp.Capture 1 (Regexp.Times 64 (Regexp.Class_ (Regexp.either (Regexp.between "a" "f") Regexp.digits))).
Definition validateV1ID (id : string) : option error :=
  if Regexp.MatchString validHex id then None else Some (ErrOther "image ID is invalid").

(** Whether an identifier comes back after another one. *)
Fixpoint repeats (idmap : gset string) (lastID : string) (l : list Schema1V1Compatibility) : bool :=
  match l with
  | [] => false
  | img :: l =>
      if decide (ID img ≠ lastID ∧ ID img ∈ idmap) then true
      else repeats ({[ID img]} ∪ idmap) (ID img) l
  end.

(** [slices.Delete(l, i, i+1)] *)
Definition slices_Delete {A S} (i : nat) (l : list A) : M S (list A) :=
  if decide (i < length l)%nat then mret (delete i l) else stop (Panic "slice bounds out of range").

Definition delete_entry (i : nat) : M Schema1 unit :=
  m ← gets id; l ← slices_Delete i (FSLayers m); modify (set_FSLayers l);;
  m ← gets id; l ← slices_Delete i (History m); modify (set_History l);;
  m ← gets id; l ← slices_Delete i (ExtractedV1Compatibility m); modify (set_Extracted l).

(** The loop from entry [n - 1] down to the first. *)
Fixpoint fix_loop (n : nat) : M Schema1 unit :=
  match n with
  | 0 => mret tt
  | S i =>
      m ← gets id;
      match ExtractedV1Compatibility m !! i, ExtractedV1Compatibility m !! S i with
      | Some a, Some b =>
          if decide (ID a = ID b) then delete_entry i;; fix_loop i
          else if decide (Parent a ≠ ID b) then fail (ErrOther "Invalid parent ID")
          else fix_loop i
      | _, _ => out_of_range
      end
  end.

Definition fixManifestLayers : M Schema1 unit :=
  m ← gets id;
  let compats := ExtractedV1Compatibility m in
  if decide (Exists (λ c, validateV1ID (ID c) ≠ None) compats) then fail (ErrOther "image ID is invalid")
  else
    match last compats with
    | None => out_of_range
    | Some base =>
        if decide (Parent base ≠ "") then fail (ErrOther "Invalid parent ID in the base layer of the image")
        else if repeats ∅ "" compats then fail (ErrOther "ID appears multiple times in manifest")
        else fix_loop (length compats - 1)
    end.

Definition Schema1FromManifest (manifestBlob : string) : outcome Schema1 :=
  match Unmarshal_Schema1 manifestBlob with
  | inr e => Err e
  | inl s1 =>
      if decide (s1_SchemaVersion s1 ≠ 1%Z) then Err (ErrOther "unsupported schema version")
      else match ValidateUnambiguousManifestFormat manifestBlob (Z.lor AllowedFieldFSLayers AllowedFieldHistory) with
           | Some e => Err e
           | None =>
               match (initialize;; fixManifestLayers) s1 with
               | (s1, Ret _) => Ret s1
               | (_, Err e) => Err e
               | (_, Crash c) => Crash c
               end
           end
  end.

Definition Schema1FromComponents (ref : option DockerReference.Named) (fsLayers history : list string) (architecture : string) : outcome Schema1 :=
  let name := match ref with Some r => DockerReference.Path r | None => "" end in
  let tag := match ref with Some r => default "" (DockerReference.Tag r) | None => "" end in
  match initialize (mkSchema1 name tag architecture fsLayers history [] 1) with
  | (s1, Ret _) => Ret s1
  | (_, Err e) => Err e
  | (_, Crash c) => Crash c
  end.

Definition s1_ConfigInfo (m : Schema1) : BlobInfo := emptyBlobInfo.

(** The layers from the base to the top; the entries of the manifest are in the
    opposite order.  An entry without its extracted history panics. *)
Definition s1_layer (m : Schema1) (x : nat * string) : option LayerInfo :=
  (λ c, mkLayerInfo (mkBlobInfo x.2 (-1) None None "" PreserveOriginal None PreserveOriginalCrypto) (ThrowAway c)) <$>
  (ExtractedV1Compatibility m !! x.1).
Definition s1_LayerInfos (m : Schema1) : outcome (list LayerInfo) :=
  match mapM (s1_layer m) (reverse (imap pair (FSLayers m))) with Some l => Ret l | None => Crash (Panic "index out of range") end.

Definition fakeSchema1MIMEType := DockerV2Schema2LayerMediaType.
Definition schema1CompressionMIMETypeSets : list compressionMIMETypeSet :=
  [ <[mtsUncompressed := fakeSchema1MIMEType]> (<[GzipAlgorithmName := fakeSchema1MIMEType]> {[ZstdAlgorithmName := mtsUnsupportedMIMEType]}) ].

Definition s1_update_layer (n : nat) (x : nat * BlobInfo) : M Schema1 unit :=
  let '(i, info) := x in
  match updatedMIMEType schema1CompressionMIMETypeSets fakeSchema1MIMEType info with
  | inr e => fail e
  | inl _ =>
      modify (λ m, set_FSLayers (<[(n - 1 - i)%nat := b_Digest info]> (FSLayers m)) m);;
      if decide (b_CryptoOperation info ≠ PreserveOriginalCrypto)
      then fail (ErrOther "encryption change is not supported in schema1 manifests") else mret tt
  end.

Definition s1_UpdateLayerInfos (layerInfos : list BlobInfo) : M Schema1 unit :=
  m ← gets id;
  if decide (length (FSLayers m) ≠ length layerInfos) then fail (ErrOther "Error preparing updated manifest: layer count changed")
  else
    modify (set_FSLayers (replicate (length layerInfos) ""));;
    forM (imap pair layerInfos) (s1_update_layer (length layerInfos)).

(** ** Reading and describing *)

Definition OCI1FromManifest (manifestBlob : string) : OCI1 + error :=
  match Unmarshal_OCI1 manifestBlob with
  | inr e => inr e
  | inl m => unambiguous manifestBlob (Z.lor AllowedFieldConfig AllowedFieldLayers) m
  end.

Definition Schema2FromManifest (manifestBlob : string) : Schema2 + error :=
  match Unmarshal_Schema2 manifestBlob with
  | inr e => inr e
  | inl s2 =>
      match ValidateUnambiguousManifestFormat manifestBlob (Z.lor AllowedFieldConfig AllowedFieldLayers) with
      | Some e => inr e
      | None =>
          match SupportedSchema2MediaType (s2_MediaType s2) with
          | Some e => inr e
          | None =>
              if decide (Exists (λ l, SupportedSchema2MediaType (sd_MediaType l) ≠ None) (LayersDescriptors s2))
              then inr (ErrOther "unsupported docker v2s2 media type") else inl s2
          end
      end
  end.

(** The interface [Manifest]. *)
Inductive Manifest := MOCI1 (m : OCI1) | MSchema2 (m : Schema2) | MSchema1 (m : Schema1).

Definition FromBlob (manblob mt : string) : outcome Manifest :=
  let nmt := Signatures.NormalizedMIMEType mt in
  if decide (nmt = Signatures.DockerV2Schema1MediaType ∨ nmt = Signatures.DockerV2Schema1SignedMediaType) then MSchema1 <$> Schema1FromManifest manblob
  else if decide (nmt = Signatures.MediaTypeImageManifest) then
    match OCI1FromManifest manblob with inl m => Ret (MOCI1 m) | inr e => Err e end
  else if decide (nmt = Signatures.DockerV2Schema2MediaType) then
    match Schema2FromManifest manblob with inl m => Ret (MSchema2 m) | inr e => Err e end
  else if decide (nmt = Signatures.DockerV2ListMediaType ∨ nmt = Signatures.MediaTypeImageIndex)
  then Err (ErrOther "Treating manifest lists as individual manifests is not implemented")
  else Err (ErrOther "Unimplemented manifest MIME type").

Definition o_Serialize (m : OCI1) : string + error := Marshal_OCI1 m.
Definition s2_Serialize (m : Schema2) : string + error := Marshal_Schema2 m.

Definition validated_ID (digest : string) : string + error :=
  match ValidateDigest digest with Some e => inr e | None => inl (Encoded digest) end.
Definition ImageID (m : OCI1) : string + error :=
  if decide (MediaType (Config m) ≠ Signatures.MediaTypeImageConfig) then inr (NewNonImageArtifactError m) else validated_ID (Digest (Config m)).
Definition s2_ImageID (m : Schema2) : string + error := validated_ID (sd_Digest (ConfigDescriptor m)).

Record ImageInspectInfo := mkInspect {
  i_Tag : string;
  i_Created : option Z;
  i_DockerVersion : string;
  i_Labels : gomap string;
  i_Architecture : string;
  i_Variant : string;
  i_Os : string;
  i_Layers : list string;
  i_LayersData : list ImageInspectLayer;
  i_Env : option (list string);
  i_Author : string
}.
Definition inspected (tag : string) (v : v1Image) (dockerVersion : string) (layerInfos : list LayerInfo) : ImageInspectInfo :=
  mkInspect tag (v_Created v) dockerVersion (match v_Config v with Some c => Labels c | None => None end) (v_Architecture v) (v_Variant v) (v_OS v)
    (layerInfosToStrings layerInfos) (imgInspectLayersFromLayerInfos layerInfos) (match v_Config v with Some c => Env c | None => None end) (v_Author v).

Definition Inspect (m : OCI1) (configGetter : BlobInfo → string + error) : ImageInspectInfo + error :=
  if decide (MediaType (Config m) ≠ Signatures.MediaTypeImageConfig) then inr (NewNonImageArtifactError m)
  else match configGetter (ConfigInfo m) with
       | inr e => inr e
       | inl config =>
           match Unmarshal_OCIImage config with
           | inr e => inr e
           | inl v1 =>
               match Unmarshal_V1Image config with
               | inr e => inr e
               | inl d1 => inl (inspected "" v1 (v_DockerVersion d1) (LayerInfos m))
               end
           end
       end.

Definition s2_Inspect (m : Schema2) (configGetter : BlobInfo → string + error) : ImageInspectInfo + error :=
  match configGetter (s2_ConfigInfo m) with
  | inr e => inr e
  | inl config =>
      match Unmarshal_V1Image config with
      | inr e => inr e
      | inl s2 => inl (inspected "" s2 (v_DockerVersion s2) (s2_LayerInfos m))
      end
  end.

Definition s1_Inspect (m : Schema1) : outcome ImageInspectInfo :=
  match History m with
  | [] => Crash (Panic "index out of range")
  | h :: _ =>
      match Unmarshal_V1Image h with
      | inr e => Err e
      | inl s1 => (λ layerInfos, inspected (s1_Tag m) s1 (v_DockerVersion s1) layerInfos) <$> s1_LayerInfos m
      end
  end.

(** *** Conversion of a configuration *)

Definition converted_history (m : Schema1) : list Schema2History :=
  (λ c, mkSchema2History (Created c) (Author c) (String.concat " " (default [] (cc_Cmd c))) (Comment c) (ThrowAway c)) <$>
  reverse (ExtractedV1Compatibility m).

Definition dropped_fields : list string := ["id"; "parent"; "parent_id"; "layer_id"; "throwaway"; "Size"].
Definition edit_raw (raw : gmap string (option string)) (rootfs history : string) : gmap string (option string) :=
  <["history" := Some history]> (<["rootfs" := Some rootfs]> (foldl (λ m k, delete k m) raw dropped_fields)).

Definition and_then {A B} (x : A + error) (f : A → B + error) : B + error := match x with inl a => f a | inr e => inr e end.

Definition ToSchema2Config (m : Schema1) (diffIDs : list string) : string + error :=
  match History m with
  | [] => inr (ErrOther "image has no layers")
  | config :: _ =>
      and_then (Unmarshal_V1Image config) (λ s1,
      and_then (if bool_decide (v_DockerVersion s1 ≠ "") && LessThan (v_DockerVersion s1) "1.8.3" then Marshal_V1Image s1 else inl config) (λ config,
      and_then (Unmarshal_raw config) (λ raw,
      and_then (Marshal_rootfs (mkRootFS "layers" diffIDs)) (λ rootfs,
      and_then (Marshal_history (converted_history m)) (λ history,
      Marshal_raw (edit_raw raw rootfs history))))))
  end.

Definition s1_ImageID (m : Schema1) (diffIDs : list string) : string + error :=
  and_then (ToSchema2Config m diffIDs) (λ image, inl (Encoded (FromBytes image))).
End Schema1.
End ImageManifest.
