(* ===== verification/ImageManifestFacts.v ===== *)
(** * Theorems about manifests of single images

    What an update of the layers does to a manifest, that edits of MIME types
    compose and can be undone, and the chain of histories of the oldest
    format. *)

From S2P Require Import Prelude StoreUtil GoJson GoRegexp DockerReference Signatures ManifestList BlobInfoCache ImageManifest ReferenceFacts ReferenceGrammar.
Local Open Scope string_scope.

Module ImageManifestFacts.
Import ManifestList BlobInfoCache ImageManifest.

(** ** Loops that fill a list

    The loops of this package make a list of empty entries and then assign one
    after the other; an entry gives what to assign, if anything, and whether to
    go on. *)

Section Fill.
Context {S A B : Type} (get : S → list B) (set : list B → S → S) (f : A → option B * option error) (z : B) (n : nat).
Context (body : nat * A → M S unit).
Hypothesis get_set : ∀ l s, get (set l s) = l.
Hypothesis set_set : ∀ l l' s, set l (set l' s) = set l s.
Hypothesis set_get : ∀ s, set (get s) s = s.
Hypothesis body_spec : ∀ i x s, length (get s) = n → (i < n)%nat →
  body (i, x) s = (match (f x).1 with Some b => set (<[i := b]> (get s)) s | None => s end,
                   match (f x).2 with None => Ret tt | Some e => Err e end).

Fixpoint filled (xs : list A) : list B * option error :=
  match xs with
  | [] => ([], None)
  | x :: xs =>
      match (f x).2 with
      | Some e => (default z (f x).1 :: replicate (length xs) z, Some e)
      | None => (default z (f x).1 :: (filled xs).1, (filled xs).2)
      end
  end.

Lemma insert_middle (pre l : list B) b c : <[length pre := b]> (pre ++ c :: l)%list = (pre ++ b :: l)%list.
Proof. rewrite insert_app_r_alt by lia. by rewrite Nat.sub_diag. Qed.

Lemma forM_fill xs k pre s :
  length pre = k → get s = (pre ++ replicate (length xs) z)%list → length (get s) = n →
  forM (imap (λ i, pair (k + i)%nat) xs) body s =
  (set (pre ++ (filled xs).1)%list s, match (filled xs).2 with None => Ret tt | Some e => Err e end).
Proof.
  revert k pre s. induction xs as [|x xs IH]; intros k pre s Hk Hg Hn; cbn [imap forM filled].
  { cbn in Hg. unfold mret, M_ret. cbn. by rewrite <- Hg, set_get. }
  unfold mbind at 1, M_bind at 1. cbn [length replicate] in Hg.
  rewrite Nat.add_0_r, body_spec by (done || (rewrite Hg, length_app in Hn; cbn in Hn; lia)).
  set (s1 := match (f x).1 with Some b => _ | None => _ end).
  assert (s1 = set (pre ++ default z (f x).1 :: replicate (length xs) z)%list s) as Es.
  { unfold s1. destruct (f x).1 as [b|]; cbn [default]; [by rewrite Hg, <- Hk, insert_middle|by rewrite <- Hg, set_get]. }
  clearbody s1. subst s1. destruct (f x).2 as [e|]; [done|]. cbn [fst snd].
  pose proof (IH (Datatypes.S k) (pre ++ [default z (f x).1])%list (set (pre ++ default z (f x).1 :: replicate (length xs) z)%list s)) as IH1.
  rewrite set_set, get_set, <- app_assoc in IH1. cbn [app] in IH1.
  erewrite (imap_ext _ (λ i, pair (Datatypes.S k + i)%nat)) by (intros; cbn; f_equal; lia). rewrite IH1; [by rewrite <- app_assoc|..].
  - rewrite length_app. cbn. lia.
  - done.
  - rewrite Hg in Hn. rewrite <- Hn, !length_app. done.
Qed.

(** The entries up to the first error are assigned, and the others empty. *)
Lemma filled_ok xs : (filled xs).2 = None →
  length (filled xs).1 = length xs ∧ ∀ i x, xs !! i = Some x → (f x).2 = None ∧ (filled xs).1 !! i = Some (default z (f x).1).
Proof.
  induction xs as [|x xs IH]; cbn [filled]; [done|]. destruct (f x).2 eqn:E; [done|]. cbn [fst snd]. intros [Hl Hi]%IH.
  split; [cbn; by rewrite Hl|]. intros [|i] y Hy; cbn in *; [by simplify_eq|by apply Hi].
Qed.

Lemma filled_err xs e : (filled xs).2 = Some e →
  length (filled xs).1 = length xs ∧
  ∃ k x, xs !! k = Some x ∧ (f x).2 = Some e ∧ (filled xs).1 !! k = Some (default z (f x).1) ∧
    (∀ i y, (i < k)%nat → xs !! i = Some y → (f y).2 = None ∧ (filled xs).1 !! i = Some (default z (f y).1)) ∧
    ∀ i, (k < i < length xs)%nat → (filled xs).1 !! i = Some z.
Proof.
  induction xs as [|x xs IH]; cbn [filled]; [done|]. destruct (f x).2 as [e'|] eqn:E; cbn [fst snd].
  - intros [= ->]. split; [cbn; by rewrite length_replicate|]. exists 0%nat, x. split_and!; try done; [intros; lia|].
    intros [|i] Hi; [lia|]. cbn in Hi. apply lookup_replicate_2. lia.
  - intros (Hl & k & y & Hy & Ee & Hk & Hlt & Hgt)%IH. split; [cbn; by rewrite Hl|]. exists (Datatypes.S k), y. split_and!; try done.
    + intros [|i] v Hi Hv; cbn in *; [by simplify_eq|apply Hlt; [lia|done]].
    + intros [|i] Hi; cbn in *; [lia|apply Hgt; lia].
Qed.
End Fill.

(** ** Updating layers *)

(** The entry that [info] makes of [old]. *)
Definition oci_entry (x : Descriptor * BlobInfo) : option Descriptor * option error :=
  match oci_mime (MediaType x.1) x.2 with
  | inl mime => (Some (mkDescriptor mime (b_Digest x.2) (b_Size x.2) (b_URLs x.2) (b_Annotations x.2) None None ""), None)
  | inr e => (None, Some e)
  end.
Definition s2_entry (x : Schema2Descriptor * BlobInfo) : option Schema2Descriptor * option error :=
  match s2_mime (sd_MediaType x.1) x.2 with
  | inl mime => (Some (mkSchema2Descriptor mime (b_Size x.2) (b_Digest x.2) (b_URLs x.2)),
                 if decide (b_CryptoOperation x.2 ≠ PreserveOriginalCrypto) then Some (ErrOther "encryption change is not supported in schema2 manifests") else None)
  | inr e => (None, Some e)
  end.

Lemma imap_pair {A} (l : list A) : imap pair l = imap (λ i, pair (0 + i)%nat) l.
Proof. done. Qed.

Lemma UpdateLayerInfos_filled infos m :
  length (Layers m) = length infos →
  UpdateLayerInfos infos m =
  (set_Layers (filled oci_entry emptyDescriptor (zip (Layers m) infos)).1 m,
   match (filled oci_entry emptyDescriptor (zip (Layers m) infos)).2 with None => Ret tt | Some e => Err e end).
Proof.
  intros Hl. unfold UpdateLayerInfos, gets, mbind, M_bind. rewrite decide_False by (intros ?; done). unfold modify at 1. rewrite imap_pair.
  erewrite (forM_fill Layers set_Layers oci_entry emptyDescriptor (length infos) update_layer) with (pre := []); [done|..]; try done; try by destruct m.
  - by intros [].
  - intros i [old info] s _ _. unfold update_layer, oci_entry, set_layer, modify, fail. cbn [fst snd]. by destruct (oci_mime _ _).
  - cbn. by rewrite length_zip_with, Hl, Nat.min_id.
  - cbn. by rewrite length_replicate.
Qed.

Lemma s2_UpdateLayerInfos_filled infos m :
  length (LayersDescriptors m) = length infos →
  s2_UpdateLayerInfos infos m =
  (set_LayersDescriptors (filled s2_entry emptySchema2Descriptor (zip (LayersDescriptors m) infos)).1 m,
   match (filled s2_entry emptySchema2Descriptor (zip (LayersDescriptors m) infos)).2 with None => Ret tt | Some e => Err e end).
Proof.
  intros Hl. unfold s2_UpdateLayerInfos, gets, mbind, M_bind. rewrite decide_False by (intros ?; done). unfold modify at 1. rewrite imap_pair.
  erewrite (forM_fill LayersDescriptors set_LayersDescriptors s2_entry emptySchema2Descriptor (length infos) s2_update_layer) with (pre := []); [done|..]; try done; try by destruct m.
  - by intros [].
  - intros i [old info] s _ _. unfold s2_update_layer, s2_entry, s2_set_layer, modify, fail, mbind, M_bind. cbn [fst snd].
    destruct (s2_mime _ _); cbn [fst snd]; [by case_decide|done].
  - cbn. by rewrite length_zip_with, Hl, Nat.min_id.
  - cbn. by rewrite length_replicate.
Qed.

(** The descriptor of a layer after an edit: nothing of the old one but its MIME
    type matters. *)
Definition edited (mime : string) (info : BlobInfo) : Descriptor :=
  mkDescriptor mime (b_Digest info) (b_Size info) (b_URLs info) (b_Annotations info) None None "".

Lemma oci_entry_ok x : (oci_entry x).2 = None → ∃ mime, oci_mime (MediaType x.1) x.2 = inl mime ∧ (oci_entry x).1 = Some (edited mime x.2).
Proof. unfold oci_entry. destruct (oci_mime _ _); [by eauto|done]. Qed.
Lemma oci_entry_err x e : (oci_entry x).2 = Some e → oci_mime (MediaType x.1) x.2 = inr e ∧ (oci_entry x).1 = None.
Proof. unfold oci_entry. destruct (oci_mime _ _); [done|]. by intros [= ->]. Qed.

Lemma zip_lookup {A B} (l : list A) (k : list B) i a b : l !! i = Some a → k !! i = Some b → zip l k !! i = Some (a, b).
Proof. intros H1 H2. apply lookup_zip_with_Some. eauto. Qed.

(** [UpdateLayerInfos] replaces the layers and nothing else, as far as the MIME
    types can be changed. *)
Lemma UpdateLayerInfos_mimes infos m :
  let '(m', r) := UpdateLayerInfos infos m in
  let updated i := ∃ old info mime, Layers m !! i = Some old ∧ infos !! i = Some info ∧ oci_mime (MediaType old) info = inl mime ∧
                                    Layers m' !! i = Some (edited mime info) in
  set_Layers [] m' = set_Layers [] m ∧
  match r with
  | Ret _ => length (Layers m) = length infos ∧ length (Layers m') = length infos ∧ ∀ i, (i < length infos)%nat → updated i
  | Err e =>
      (length (Layers m) ≠ length infos ∧ m' = m) ∨
      ∃ k old info, length (Layers m) = length infos ∧ length (Layers m') = length infos ∧ Layers m !! k = Some old ∧ infos !! k = Some info ∧ oci_mime (MediaType old) info = inr e ∧
        (∀ i, (i < k)%nat → updated i) ∧ ∀ i, (k ≤ i < length infos)%nat → Layers m' !! i = Some emptyDescriptor
  | Crash _ => False
  end.
Proof.
  destruct (decide (length (Layers m) = length infos)) as [Hl|Hl].
  2:{ unfold UpdateLayerInfos, gets, mbind, M_bind. rewrite decide_True by done. cbn. auto. }
  rewrite UpdateLayerInfos_filled by done. set (xs := zip (Layers m) infos).
  assert (length xs = length infos) as Hx by (unfold xs; rewrite length_zip_with; lia).
  assert (∀ i, (i < length infos)%nat → ∃ old info, Layers m !! i = Some old ∧ infos !! i = Some info ∧ xs !! i = Some (old, info)) as Hin.
  { intros i Hi. destruct (lookup_lt_is_Some_2 (Layers m) i) as [old Ho]; [lia|]. destruct (lookup_lt_is_Some_2 infos i) as [info Hi']; [lia|].
    exists old, info. split_and!; [done..|]. by apply zip_lookup. }
  split; [done|]. destruct (filled oci_entry emptyDescriptor xs).2 as [e|] eqn:E; cbn [Layers set_Layers].
  - apply filled_err in E as (El & k & [old info] & Hk & [Em E1]%oci_entry_err & Ez & Hlt & Hgt). right. exists k, old, info.
    assert (Hko := Hk). apply lookup_zip_with_Some in Hko as (? & ? & [= <- <-] & Hko & Hki). split_and!; try done; [lia| |].
    + intros i Hi. destruct (Hin i) as (o & f & Ho & Hf & Hi'); [apply lookup_lt_Some in Hki; lia|].
      destruct (Hlt i _ Hi Hi') as [(mime & Hm & E2)%oci_entry_ok Hf']. exists o, f, mime. by rewrite Hf', E2.
    + intros i Hi. destruct (decide (i = k)) as [->|Hne]; [by rewrite Ez, E1|]. apply Hgt. lia.
  - apply filled_ok in E as [El Hi]. split_and!; [done|lia|]. intros i Hl'. destruct (Hin i Hl') as (o & f & Ho & Hf & Hi').
    destruct (Hi i _ Hi') as [(mime & Hm & E2)%oci_entry_ok Hf']. exists o, f, mime. by rewrite Hf', E2.
Qed.

(** *** What the MIME types mean *)

(** The layers of the OCI specification: distributable or not, packed in one of
    three ways, encrypted or not. *)
Inductive packing := Tar | TarGzip | TarZstd.
Record layer_kind := mkKind { k_distributable : bool; k_packing : packing; k_encrypted : bool }.

Definition kind_text (k : layer_kind) : string :=
  "application/vnd.oci.image.layer." +:+ (if k_distributable k then "" else "nondistributable.") +:+ "v1.tar" +:+
  (match k_packing k with Tar => "" | TarGzip => "+gzip" | TarZstd => "+zstd" end) +:+ (if k_encrypted k then "+encrypted" else "").

#[global] Instance Algorithm_eq_dec : EqDecision Algorithm.
Proof. solve_decision. Defined.

(** How a layer is packed when an edit is done: as before, in some way, or in a
    way that there is no type for. *)
Inductive request := Keep | Pack (p : packing) | NoSuchType.
Definition requested (info : BlobInfo) : request :=
  match b_CompressionOperation info, b_CompressionAlgorithm info with
  | Decompress, _ => Pack Tar
  | otherLayerCompression _, _ => NoSuchType
  | _, None => Keep
  | _, Some a => if decide (a = Gzip) then Pack TarGzip else if decide (a = Zstd ∨ a = ZstdChunked) then Pack TarZstd else NoSuchType
  end.

(** The edits in their order: decrypt, pack, encrypt.  What is not encrypted
    cannot be decrypted, what is encrypted can neither be packed in another way
    nor encrypted. *)
Definition decrypt (info : BlobInfo) (k : layer_kind) : option layer_kind :=
  if decide (b_CryptoOperation info = Decrypt) then
    if k_encrypted k then Some (mkKind (k_distributable k) (k_packing k) false) else None
  else Some k.
Definition repack (info : BlobInfo) (k : layer_kind) : option layer_kind :=
  match requested info with
  | Keep => Some k
  | Pack p => if k_encrypted k then None else Some (mkKind (k_distributable k) p false)
  | NoSuchType => None
  end.
Definition encrypt (info : BlobInfo) (k : layer_kind) : option layer_kind :=
  if decide (b_CryptoOperation info = Encrypt) then
    if k_encrypted k then None else Some (mkKind (k_distributable k) (k_packing k) true)
  else Some k.
Definition edit_kind (k : layer_kind) (info : BlobInfo) : option layer_kind :=
  match decrypt info k with
  | Some k => match repack info k with Some k => encrypt info k | None => None end
  | None => None
  end.

Definition known_algorithm (info : BlobInfo) : Prop :=
  from_option (λ a, a ∈ [Gzip; Bzip2; Xz; Zstd; ZstdChunked]) True (b_CompressionAlgorithm info).

Lemma oci_mime_kind k info : known_algorithm info →
  match edit_kind k info with
  | Some k' => oci_mime (kind_text k) info = inl (kind_text k')
  | None => ∃ e, oci_mime (kind_text k) info = inr e
  end.
Proof.
  destruct info as [dg sz urls ann mt op algo crypto]. unfold known_algorithm. cbn [b_CompressionAlgorithm]. intros Ha.
  assert (algo ∈ [None; Some Gzip; Some Bzip2; Some Xz; Some Zstd; Some ZstdChunked]) as Halgo by (destruct algo; simpl in Ha; set_solver). clear Ha.
  destruct k as [[] [] []], op, crypto;
    repeat (apply elem_of_cons in Halgo as [->|Halgo]; [vm_compute; (reflexivity || (eexists; reflexivity))|]); by apply elem_of_nil in Halgo.
Qed.
(** C28: For an OCI manifest whose layers have the MIME types of the OCI
    specification, encrypted or not, and edits with one of the five algorithms:
    [UpdateLayerInfos] replaces the layers and nothing else.  If it succeeds, the
    layers are those asked for, in order, each with the type that decryption,
    then packing and then encryption make of the old one.  It fails if the
    number of layers changes, and then changes nothing, or if the edit of one of
    the layers is not possible: then those before the first such layer are
    updated, and this one and those after it are empty. *)
Theorem UpdateLayerInfos_layers infos m kinds :
  MediaType <$> Layers m = kind_text <$> kinds → Forall known_algorithm infos →
  let '(m', r) := UpdateLayerInfos infos m in
  let updated i := ∃ k info k', kinds !! i = Some k ∧ infos !! i = Some info ∧ edit_kind k info = Some k' ∧
                                Layers m' !! i = Some (edited (kind_text k') info) in
  set_Layers [] m' = set_Layers [] m ∧
  match r with
  | Ret _ => length (Layers m) = length infos ∧ length (Layers m') = length infos ∧ ∀ i, (i < length infos)%nat → updated i
  | Err _ =>
      (length (Layers m) ≠ length infos ∧ m' = m) ∨
      ∃ j k info, length (Layers m) = length infos ∧ length (Layers m') = length infos ∧
        kinds !! j = Some k ∧ infos !! j = Some info ∧ edit_kind k info = None ∧
        (∀ i, (i < j)%nat → updated i) ∧ ∀ i, (j ≤ i < length infos)%nat → Layers m' !! i = Some emptyDescriptor
  | Crash _ => False
  end.
Proof.
  intros Hk Ha. pose proof (UpdateLayerInfos_mimes infos m) as Hu. destruct (UpdateLayerInfos infos m) as [m' r]. destruct Hu as [Hs Hu]. split; [exact Hs|].
  assert (∀ i old, Layers m !! i = Some old → ∃ k, kinds !! i = Some k ∧ MediaType old = kind_text k) as Hkind.
  { intros i old Ho. assert ((MediaType <$> Layers m) !! i = Some (MediaType old)) as E by (by rewrite list_lookup_fmap, Ho).
    rewrite Hk in E. apply list_lookup_fmap_Some in E as (k & E & ?). by eauto. }
  rewrite Forall_lookup in Ha.
  assert (∀ i, (∃ old info mime, Layers m !! i = Some old ∧ infos !! i = Some info ∧ oci_mime (MediaType old) info = inl mime ∧
                                 Layers m' !! i = Some (edited mime info)) →
               ∃ k info k', kinds !! i = Some k ∧ infos !! i = Some info ∧ edit_kind k info = Some k' ∧
                            Layers m' !! i = Some (edited (kind_text k') info)) as Hup.
  { intros i (old & info & mime & (k & Hki & Em)%Hkind & Hi & Ho & Hl). pose proof (oci_mime_kind k info (Ha _ _ Hi)) as Ho'. rewrite Em in Ho.
    destruct (edit_kind k info) as [k'|] eqn:Ee; [|destruct Ho'; congruence]. rewrite Ho in Ho'. injection Ho' as ->. by exists k, info, k'. }
  destruct r as [u|e|c]; [|destruct Hu as [Hu|(j & old & info & Hlen & Hl & Ho & Hi & He & Hb & Hz)]; [by left|right]|done].
  - destruct Hu as (? & ? & Hi). split_and!; [done..|]. intros i Hlt. by apply Hup, Hi.
  - destruct (Hkind j old Ho) as (k & Hkj & Em). exists j, k, info. pose proof (oci_mime_kind k info (Ha _ _ Hi)) as Ho'. rewrite Em in He.
    split_and!; [done..| |intros i Hlt; by apply Hup, Hb|done]. destruct (edit_kind k info); [congruence|done].
Qed.

(** ** Edits of MIME types *)

(** A MIME type belongs to one set of variants only. *)
Definition tidy (T : list compressionMIMETypeSet) : Prop :=
  Forall (λ v : gmap string string, Forall (λ kv : string * string, kv.2 = "" ∨ findCompressionMIMETypeSet T kv.2 = Some v) (map_to_list v)) T.

#[global] Instance set_eq_dec : EqDecision compressionMIMETypeSet := gmap_eq_dec _.

Lemma tables_tidy : tidy oci1CompressionMIMETypeSets ∧ tidy schema2CompressionMIMETypeSets ∧ tidy schema1CompressionMIMETypeSets.
Proof. unfold tidy. split_and!; apply (bool_decide_unpack _); vm_compute; exact I. Qed.

Lemma find_in T mime v : findCompressionMIMETypeSet T mime = Some v → v ∈ T.
Proof.
  induction T as [|w T IH]; cbn [findCompressionMIMETypeSet]; [done|]. case_decide; [intros [= ->]; by left|intros; right; auto].
Qed.

(** The variants of a variant are those of the MIME type it comes from. *)
Lemma variant_compose T mime algo mime' : tidy T → compressionVariantMIMEType T mime algo = inl mime' →
  ∀ algo', compressionVariantMIMEType T mime' algo' = compressionVariantMIMEType T mime algo'.
Proof.
  intros Ht. unfold compressionVariantMIMEType. case_decide as Hm; [done|].
  destruct (findCompressionMIMETypeSet T mime) as [v|] eqn:E; [|by destruct algo].
  destruct ((v : gmap string string) !! _) as [res|] eqn:El; [|done]. case_decide as Hr; [|done]. intros [= <-] algo'.
  rewrite decide_False by done. apply find_in in E. unfold tidy in Ht. rewrite Forall_forall in Ht. specialize (Ht v E).
  rewrite Forall_forall in Ht. apply elem_of_map_to_list in El. destruct (Ht _ El) as [?|Hf]; [done|]. cbn in Hf. by rewrite Hf.
Qed.

(** [info] says how the layer is compressed, whatever it was before. *)
Definition determined (info : BlobInfo) : Prop :=
  b_CompressionOperation info = Decompress ∨
  (b_CompressionOperation info = Compress ∨ b_CompressionOperation info = PreserveOriginal) ∧ is_Some (b_CompressionAlgorithm info).

Lemma updated_compose T mime info mime' info' :
  tidy T → updatedMIMEType T mime info = inl mime' → determined info' → updatedMIMEType T mime' info' = updatedMIMEType T mime info'.
Proof.
  intros Ht. unfold updatedMIMEType.
  assert (mime' = mime ∨ (∃ a, compressionVariantMIMEType T mime a = inl mime') →
          determined info' → updatedMIMEType T mime' info' = updatedMIMEType T mime info') as Hgo.
  { unfold updatedMIMEType. intros [->|[a Ha]]; [done|]. pose proof (variant_compose T mime a mime' Ht Ha) as Hc.
    intros [->|[[-> | ->] [b ->]]]; by rewrite Hc. }
  unfold updatedMIMEType in Hgo. intros Hu. apply Hgo.
  destruct (b_CompressionOperation info); [destruct (b_CompressionAlgorithm info)| |destruct (b_CompressionAlgorithm info)|done];
    first [by eauto|by simplify_eq; left].
Qed.

Lemma filled_ext {A A' B} (f : A → option B * option error) (g : A' → option B * option error) z xs ys :
  Forall2 (λ x y, f x = g y) xs ys → filled f z xs = filled g z ys.
Proof. induction 1 as [|x y xs ys E H IH]; [done|]. cbn [filled]. by rewrite E, IH, (Forall2_length _ _ _ H). Qed.

(** The last update counts: one that says how each layer is compressed has
    the same result, success or error, after another update as without it, as
    long as nothing is encrypted or decrypted. *)
Theorem UpdateLayerInfos_twice infos infos' m m1 :
  Forall (λ i, b_CryptoOperation i = PreserveOriginalCrypto) (infos ++ infos')%list → Forall determined infos' → length infos' = length infos →
  UpdateLayerInfos infos m = (m1, Ret tt) → UpdateLayerInfos infos' m1 = UpdateLayerInfos infos' m.
Proof.
  intros [Hc Hc']%Forall_app Hd Hlen H1. pose proof (UpdateLayerInfos_mimes infos m) as H. rewrite H1 in H. destruct H as (Es & El & El' & Hi).
  rewrite !UpdateLayerInfos_filled by congruence.
  assert (∀ l, set_Layers l m1 = set_Layers l m) as Hs.
  { intros l. destruct m, m1. unfold set_Layers in *. cbn in *. injection Es. intros. by subst. }
  erewrite filled_ext, Hs; [done|]. apply Forall2_same_length_lookup_2; [rewrite !length_zip_with; lia|].
  intros i [o1 f1] [o f] (? & ? & [= <- <-] & Ho1 & Hf1)%lookup_zip_with_Some (? & ? & [= <- <-] & Ho & Hf)%lookup_zip_with_Some.
  rewrite Hf in Hf1. injection Hf1 as <-. destruct (Hi i) as (o' & g & mime & Ho' & Hg & Hm & E1); [rewrite <- Hlen; by eapply lookup_lt_Some|].
  rewrite Ho in Ho'. injection Ho' as <-. rewrite E1 in Ho1. injection Ho1 as <-. rewrite Forall_lookup in Hc, Hc', Hd. unfold oci_entry. cbn [fst snd].
  assert (oci_mime mime f = oci_mime (MediaType o) f) as Hmime; [|cbn [edited MediaType]; by rewrite Hmime].
  unfold oci_mime in Hm |- *. rewrite (Hc _ _ Hg) in Hm. rewrite (Hc' _ _ Hf). clear Hi. rewrite !decide_False in Hm by done. rewrite !decide_False by done.
  destruct (updatedMIMEType _ (MediaType o) g) eqn:Eu; [|done].
  rewrite decide_False in Hm by done. injection Hm as ->. by rewrite (updated_compose _ _ _ _ _ (proj1 tables_tidy) Eu (Hd _ _ Hf)).
Qed.

(** What is encrypted can be decrypted. *)
Theorem encryption_roundtrip mime mime' : getEncryptedMediaType mime = inl mime' → getDecryptedMediaType mime' = inl mime.
Proof.
  unfold getEncryptedMediaType, getDecryptedMediaType. destruct (split_plus mime). repeat case_decide; try done. intros [= <-].
  by rewrite ReferenceFacts.CutSuffix_of_app.
Qed.

(** ** The chain of histories *)

Section Chain.
Context `{GoJson.JSON} `{ManifestJSON}.

Definition compat_entry (h : string) : option Schema1V1Compatibility * option error :=
  match Unmarshal_V1Compatibility h with inl c => (Some c, None) | inr e => (None, Some e) end.

Lemma initialize_spec m :
  let '(m', r) := initialize m in
  match r with
  | Ret _ => ∃ compats, m' = set_Extracted compats m ∧ Forall2 (λ h c, Unmarshal_V1Compatibility h = inl c) (History m) compats ∧
                        length (FSLayers m) = length (History m) ∧ length (FSLayers m) ≠ 0%nat
  | Err _ => True
  | Crash _ => False
  end.
Proof.
  unfold initialize, gets, mbind, M_bind. cbn [id]. case_decide as Hl; [done|]. case_decide as H0'; [done|]. unfold modify at 1.
  rewrite imap_pair.
  erewrite (forM_fill ExtractedV1Compatibility set_Extracted compat_entry emptyCompat (length (History m)) extract_one) with (pre := []); try done.
  - destruct (filled _ _ _).2 eqn:E; [done|]. apply filled_ok in E as [El Hi]. eexists. split; [done|]. split_and!; [|done|done].
    apply Forall2_same_length_lookup_2; [cbn [app]; by rewrite El|]. intros i h c Hh Hc. destruct (Hi i h Hh) as [E1 E2]. cbn [app] in Hc. rewrite E2 in Hc.
    unfold compat_entry in E1, Hc. destruct (Unmarshal_V1Compatibility h); [by simplify_eq/=|done].
  - by intros [].
  - intros i h s _ _. unfold extract_one, compat_entry, modify, fail. cbn [fst snd]. by destruct (Unmarshal_V1Compatibility h).
  - cbn. by rewrite length_replicate.
Qed.

(** An entry of the manifest: a layer with its history, as text and decoded. *)
Notation entry := (string * string * Schema1V1Compatibility)%type.
Definition entries (m : Schema1) : list entry := zip (zip (FSLayers m) (History m)) (ExtractedV1Compatibility m).

(** Of consecutive entries with one identifier the last, which is the one
    closest to the base. *)
Definition add_entry (e : entry) (l : list entry) : list entry :=
  match l with b :: _ => if decide (ID e.2 = ID b.2) then l else e :: l | [] => [e] end.
Definition one_per_ID (l : list entry) : list entry := foldr add_entry [] l.

(** Each entry names the next one as its parent. *)
Fixpoint linked (l : list entry) : Prop :=
  match l with
  | a :: ((b :: _) as l') => Parent a.2 = ID b.2 ∧ linked l'
  | _ => True
  end.

Definition aligned (m : Schema1) (l : list entry) : Prop :=
  FSLayers m = (λ e, e.1.1) <$> l ∧ History m = (λ e, e.1.2) <$> l ∧ ExtractedV1Compatibility m = snd <$> l.

Lemma aligned_entries m l : aligned m l → entries m = l.
Proof.
  intros (E1 & E2 & E3). unfold entries. rewrite E1, E2, E3. clear. induction l as [|[[f h] c] l IH]; [done|]. cbn in *. by rewrite IH.
Qed.

(** The manifest with the entries [l]. *)
Definition with_entries (l : list entry) (m : Schema1) : Schema1 :=
  mkSchema1 (s1_Name m) (s1_Tag m) (s1_Architecture m) ((λ e, e.1.1) <$> l) ((λ e, e.1.2) <$> l) (snd <$> l) (s1_SchemaVersion m).

Lemma delete_entry_spec pre a l m :
  delete_entry (length pre) (with_entries (pre ++ a :: l)%list m) = (with_entries (pre ++ l)%list m, Ret tt).
Proof.
  assert (∀ B (f : entry → B), (length pre < length (f <$> (pre ++ a :: l)%list))%nat) as Hlt by (intros; rewrite length_fmap, length_app; cbn; lia).
  unfold delete_entry, gets, mbind, M_bind, slices_Delete, modify, mret, M_ret. cbn [id].
  rewrite decide_True by apply Hlt. rewrite decide_True by apply Hlt. rewrite decide_True by apply Hlt.
  unfold set_Extracted, set_History, set_FSLayers, with_entries. cbn [FSLayers History ExtractedV1Compatibility s1_Name s1_Tag s1_Architecture s1_SchemaVersion].
  by rewrite <- !list_fmap_delete, !delete_middle.
Qed.

Lemma fix_loop_spec m pre a l :
  linked (a :: l) →
  let '(m', r) := fix_loop (length pre) (with_entries (pre ++ a :: l)%list m) in
  match r with
  | Ret _ => m' = with_entries (foldr add_entry (a :: l) pre) m ∧ linked (foldr add_entry (a :: l) pre)
  | Err _ => True
  | Crash _ => False
  end.
Proof.
  revert a l. induction pre as [|x pre IH] using rev_ind; intros a l Hl; [done|].
  rewrite length_app, Nat.add_1_r. cbn [fix_loop]. unfold gets at 1, mbind at 1, M_bind at 1. cbn [id]. rewrite <- app_assoc. cbn [app].
  assert (ExtractedV1Compatibility (with_entries (pre ++ x :: a :: l)%list m) !! length pre = Some x.2) as ->.
  { cbn. rewrite list_lookup_fmap, lookup_app_r, Nat.sub_diag by lia. done. }
  assert (ExtractedV1Compatibility (with_entries (pre ++ x :: a :: l)%list m) !! S (length pre) = Some a.2) as ->.
  { cbn [with_entries ExtractedV1Compatibility]. rewrite list_lookup_fmap, lookup_app_r by lia. by replace (S (length pre) - length pre)%nat with 1%nat by lia. }
  rewrite foldr_app. cbn [foldr add_entry]. case_decide as Eid.
  - unfold mbind, M_bind. rewrite delete_entry_spec. by apply IH.
  - case_decide as Hp; [done|]. apply IH. cbn. split; [done|exact Hl].
Qed.

(** The first of some entries and those of [one_per_ID] have one identifier. *)
Lemma one_per_ID_head e l : ∃ b l', one_per_ID (e :: l) = b :: l' ∧ ID b.2 = ID e.2.
Proof.
  unfold one_per_ID. cbn [foldr]. destruct (foldr add_entry [] l) as [|b l']; cbn [add_entry]; [eauto|]. case_decide as E; [|eauto].
  exists b, l'. by rewrite E.
Qed.

Lemma repeats_NoDup seen lastID l :
  repeats seen lastID (snd <$> l) = false →
  NoDup ((λ e : entry, ID e.2) <$> one_per_ID l) ∧
  ∀ k e, one_per_ID l !! k = Some e → ID e.2 ∈ seen → k = 0%nat ∧ ID e.2 = lastID.
Proof.
  revert seen lastID. induction l as [|a l IH]; intros seen lastID; [intros _; split; [constructor|done]|].
  cbn [fmap list_fmap repeats]. case_decide as Hc; [done|]. intros Hr. destruct (IH _ _ Hr) as [Hn Hk].
  unfold one_per_ID in *. cbn [foldr]. destruct (foldr add_entry [] l) as [|b l'] eqn:E; cbn [add_entry].
  - split; [apply NoDup_singleton|]. intros [|k] e He Hs; [|done]. cbn in He. simplify_eq. split; [done|]. apply dec_stable. tauto.
  - case_decide as Eid.
    + split; [done|]. intros k e He Hs. destruct (Hk k e He) as [-> Ek]; [set_solver|]. split; [done|]. rewrite Ek. apply dec_stable. rewrite Ek in Hs. tauto.
    + split.
      * rewrite fmap_cons. constructor; [|done]. intros (e & Ee & He)%list_elem_of_fmap. apply list_elem_of_lookup in He as [k He].
        destruct (Hk k e He) as [-> Ek]; [rewrite <- Ee; set_solver|]. cbn in He. simplify_eq.
      * intros [|k] e He Hs; cbn in He; [simplify_eq; split; [done|apply dec_stable; tauto]|].
        destruct (Hk k e He) as [-> Ek]; [set_solver|]. cbn in He. simplify_eq.
Qed.

Lemma last_one_per_ID l : last (snd <$> one_per_ID l) = last (snd <$> l).
Proof.
  induction l as [|a l IH]; [done|]. destruct l as [|b l]; [done|]. destruct (one_per_ID_head b l) as (c & l' & E & _).
  change (one_per_ID (a :: b :: l)) with (add_entry a (one_per_ID (b :: l))). rewrite E in *. cbn [add_entry].
  case_decide; [rewrite IH; by rewrite !fmap_cons, last_cons_cons|]. by rewrite !fmap_cons, !last_cons_cons, <- !fmap_cons.
Qed.

Lemma one_per_ID_sublist l : one_per_ID l `sublist_of` l.
Proof.
  induction l as [|a l IH]; [constructor|]. unfold one_per_ID in *. cbn [foldr]. destruct (foldr add_entry [] l) as [|b l']; cbn [add_entry].
  - apply sublist_skip. done.
  - case_decide; [by apply sublist_cons|by apply sublist_skip].
Qed.

Lemma validateV1ID_hex id : validateV1ID id = None → String.length id = 64 ∧ ReferenceFacts.all_chars ReferenceGrammar.hex_digit id.
Proof.
  unfold validateV1ID, Regexp.MatchString, validHex. case_bool_decide as Hm; [|done]. intros _. destruct Hm as [c Hm%Regexp.Find_sound].
  apply ReferenceFacts.matches_capture in Hm as [_ Hm]; [|done]. apply (ReferenceGrammar.in_times_class _ 64 id) in Hm as [Hc Hl]. split; [done|].
  revert Hc. apply ReferenceGrammar.all_chars_impl. intros x. rewrite ReferenceGrammar.either_iff, ReferenceGrammar.digits_iff. unfold ReferenceGrammar.hex_digit.
  intros [Hx|?]; [right|by left]. unfold Regexp.between, in_range in Hx. by rewrite andb_true_iff, !Nat.leb_le in Hx.
Qed.

(** The identifiers stay. *)
Lemma one_per_ID_all l e : e ∈ l → ∃ e', e' ∈ one_per_ID l ∧ ID e'.2 = ID e.2.
Proof.
  induction l as [|a l IH]; [by intros ?%elem_of_nil|]. destruct (one_per_ID_head a l) as (b & l' & Eh & Hb).
  intros [->|He]%elem_of_cons; [exists b; rewrite Eh; split; [left|done]|]. destruct (IH He) as (e' & He' & E). exists e'. split; [|done].
  unfold one_per_ID in *. cbn [foldr]. destruct (foldr add_entry [] l) as [|c l'']; [by apply elem_of_nil in He'|]. cbn [add_entry]. case_decide; [done|by right].
Qed.

Lemma zip3_parts (F H' : list string) (C : list Schema1V1Compatibility) : length F = length H' → length H' = length C →
  (λ e : entry, e.1.1) <$> zip (zip F H') C = F ∧ (λ e : entry, e.1.2) <$> zip (zip F H') C = H' ∧ snd <$> zip (zip F H') C = C.
Proof.
  revert H' C. induction F as [|f F IH]; intros [|h H'] [|c C]; try done. intros [= E1] [= E2]. cbn. by destruct (IH H' C E1 E2) as (-> & -> & ->).
Qed.

(** C27: [Schema1FromManifest] never panics.  In a manifest that it returns the
    lists of layers, of histories and of decoded histories belong together and
    are not empty, the identifiers are different texts of 64 lowercase
    hexadecimal digits, each entry names the next one as its parent, and the last
    one has none.  The entries are some of those of the text, in their order,
    each history with its layer, and every identifier of the text is among
    them. *)
Theorem Schema1FromManifest_chain blob :
  match Schema1FromManifest blob with
  | Ret m =>
      ∃ m0 compats, Unmarshal_Schema1 blob = inl m0 ∧ Forall2 (λ h c, Unmarshal_V1Compatibility h = inl c) (History m0) compats ∧
        let text := entries (set_Extracted compats m0) in
        aligned m (entries m) ∧ entries m `sublist_of` text ∧ (∀ e, e ∈ text → ∃ e', e' ∈ entries m ∧ ID e'.2 = ID e.2) ∧ entries m ≠ [] ∧
        Forall (λ e, String.length (ID e.2) = 64 ∧ ReferenceFacts.all_chars ReferenceGrammar.hex_digit (ID e.2)) (entries m) ∧
        NoDup ((λ e, ID e.2) <$> entries m) ∧
        linked (entries m) ∧ (Parent <$> last (snd <$> entries m)) = Some ""
  | Err _ => True
  | Crash _ => False
  end.
Proof.
  unfold Schema1FromManifest. destruct (Unmarshal_Schema1 blob) as [m0|] eqn:Eu; [|done]. case_decide; [done|].
  destruct (ValidateUnambiguousManifestFormat _ _); [done|]. unfold mbind, M_bind.
  pose proof (initialize_spec m0) as Hi. destruct (initialize m0) as [m1 [u|e|c]]; [|done..].
  destruct Hi as (compats & -> & HF & Hl & Hne). set (m1 := set_Extracted compats m0). remember (entries m1) as l eqn:El.
  pose proof (Forall2_length _ _ _ HF) as Hlc.
  assert (m1 = with_entries l m1) as E1.
  { destruct (zip3_parts (FSLayers m0) (History m0) compats) as (P1 & P2 & P3); [done|congruence|].
    rewrite El. unfold with_entries, entries, m1. cbn. by rewrite P1, P2, P3. }
  assert (ExtractedV1Compatibility m1 = snd <$> l) as E3 by (by rewrite E1).
  unfold fixManifestLayers, gets, mbind, M_bind. cbn [id]. rewrite E3. case_decide as Hv; [done|].
  destruct (last (snd <$> l)) as [base|] eqn:Elast.
  2:{ apply last_None, fmap_nil_inv in Elast. exfalso. apply Hne. apply (f_equal length) in E3. rewrite Elast in E3. cbn in E3. lia. }
  case_decide as Hb; [done|]. destruct (repeats ∅ "" (snd <$> l)) eqn:Er; [done|]. rewrite length_fmap.
  destruct l as [|a0 l0 _] using rev_ind; [done|].
  rewrite length_app. cbn [length]. rewrite Nat.add_sub, E1.
  pose proof (fix_loop_spec m1 l0 a0 [] I) as Hfix. destruct (fix_loop _ _) as [m2 [u'|e|c]]; [|done..]. destruct Hfix as [-> Hlink].
  set (l := (l0 ++ [a0])%list) in *. assert (foldr add_entry [a0] l0 = one_per_ID l) as Eone by (unfold one_per_ID, l; by rewrite foldr_app).
  rewrite Eone in *. assert (entries (with_entries (one_per_ID l) m1) = one_per_ID l) as Ee by (by apply aligned_entries).
  exists m0, compats. rewrite Ee. fold m1. cbv zeta. rewrite <- El. split_and!; try done.
  - apply one_per_ID_sublist.
  - intros e. apply one_per_ID_all.
  - intros E0. pose proof (last_one_per_ID l) as Hlast. rewrite E0, Elast in Hlast. done.
  - apply Forall_forall. intros e He. eapply elem_of_submseteq in He; [|apply sublist_submseteq, one_per_ID_sublist]. apply validateV1ID_hex, dec_stable. intros Hbad. apply Hv.
    rewrite Exists_exists. exists e.2. split; [by apply list_elem_of_fmap_2|done].
  - by eapply repeats_NoDup.
  - rewrite last_one_per_ID, Elast. cbn. congruence.
Qed.

(** ** Layers of the oldest format *)

Definition s1_entry (info : BlobInfo) : option string * option error :=
  match updatedMIMEType schema1CompressionMIMETypeSets fakeSchema1MIMEType info with
  | inl _ => (Some (b_Digest info),
              if decide (b_CryptoOperation info ≠ PreserveOriginalCrypto) then Some (ErrOther "encryption change is not supported in schema1 manifests") else None)
  | inr e => (None, Some e)
  end.

Lemma reverse_insert {A} (l : list A) n i x : length l = n → (i < n)%nat → reverse (<[(n - 1 - i)%nat := x]> l) = <[i := x]> (reverse l).
Proof.
  intros Hl Hi. apply list_eq_same_length with n; [by rewrite length_insert, length_reverse|by rewrite length_reverse, length_insert|].
  intros j a b Hj Ha Hb. rewrite reverse_lookup in Ha by (rewrite length_insert; lia). rewrite length_insert in Ha.
  destruct (decide (i = j)) as [->|Hne].
  - rewrite list_lookup_insert_eq in Hb by (rewrite length_reverse; lia). replace (length l - S j)%nat with (n - 1 - j)%nat in Ha by lia.
    rewrite list_lookup_insert_eq in Ha by lia. congruence.
  - rewrite list_lookup_insert_ne in Hb by done. rewrite reverse_lookup in Hb by lia. rewrite list_lookup_insert_ne in Ha by lia. congruence.
Qed.

Lemma s1_UpdateLayerInfos_filled infos m :
  length (FSLayers m) = length infos →
  s1_UpdateLayerInfos infos m =
  (set_FSLayers (reverse (filled s1_entry "" infos).1) m, match (filled s1_entry "" infos).2 with None => Ret tt | Some e => Err e end).
Proof.
  intros Hl. unfold s1_UpdateLayerInfos, gets, mbind, M_bind. cbn [id]. rewrite decide_False by (intros ?; done). unfold modify at 1. rewrite imap_pair.
  erewrite (forM_fill (λ m, reverse (FSLayers m)) (λ l, set_FSLayers (reverse l)) s1_entry "" (length infos) (s1_update_layer (length infos)))
    with (pre := []); [done|..]; try done.
  - intros l s. apply reverse_involutive.
  - intros s. rewrite reverse_involutive. by destruct s.
  - intros i info s Hs Hi. unfold s1_update_layer, s1_entry, modify, fail, mbind, M_bind. rewrite length_reverse in Hs. cbn beta.
    destruct (updatedMIMEType _ _ _); cbn [fst snd]; [|done]. rewrite <- (reverse_insert (FSLayers s) (length infos)), reverse_involutive by done.
    by case_decide.
  - cbn [set_FSLayers FSLayers app]. by rewrite reverse_replicate.
  - cbn [set_FSLayers FSLayers]. by rewrite length_reverse, length_replicate.
Qed.

(** The layers of a manifest of the oldest format, where they are stored in the
    opposite order, are after an update those that were asked for. *)
Theorem s1_UpdateLayerInfos_LayerInfos infos m m' :
  length (ExtractedV1Compatibility m) = length (FSLayers m) → s1_UpdateLayerInfos infos m = (m', Ret tt) →
  ∃ l, s1_LayerInfos m' = Ret l ∧ layerInfosToStrings l = b_Digest <$> infos.
Proof.
  intros Hc Hu. destruct (decide (length (FSLayers m) = length infos)) as [Hl|Hl].
  2:{ unfold s1_UpdateLayerInfos, gets, mbind, M_bind in Hu. cbn [id] in Hu. by rewrite decide_True in Hu. }
  rewrite s1_UpdateLayerInfos_filled in Hu by done. destruct (filled s1_entry "" infos).2 eqn:E; [done|]. injection Hu as <-.
  apply filled_ok in E as [El Hi]. assert ((filled s1_entry "" infos).1 = b_Digest <$> infos) as ->.
  { apply list_eq_same_length with (length infos); [by rewrite length_fmap|done|]. intros i a b Hlt Ha Hb.
    apply list_lookup_fmap_Some in Hb as (info & -> & Hb). destruct (Hi i info Hb) as [E1 E2]. rewrite E2 in Ha. revert E1 Ha. unfold s1_entry.
    destruct (updatedMIMEType _ _ _); [|done]. cbn. congruence. }
  assert (∀ x, x ∈ reverse (imap pair (FSLayers (set_FSLayers (reverse (b_Digest <$> infos)) m))) →
               is_Some (s1_layer (set_FSLayers (reverse (b_Digest <$> infos)) m) x)) as Hx.
  { intros [i d] Hin. rewrite elem_of_reverse in Hin. apply list_elem_of_lookup in Hin as [j Hj]. apply list_lookup_imap_Some in Hj as (d' & Hj & [= <- <-]).
    apply lookup_lt_Some in Hj. cbn in Hj. rewrite length_reverse, length_fmap in Hj. unfold s1_layer. apply fmap_is_Some, lookup_lt_is_Some_2. cbn. lia. }
  unfold s1_LayerInfos. set (f := s1_layer _) in *. set (xs := reverse (imap pair _)) in *.
  assert (∃ l, mapM f xs = Some l) as [l Hm] by (apply mapM_is_Some_2, Forall_forall; exact Hx).
  rewrite Hm. exists l. split; [done|]. apply mapM_Some in Hm.
  transitivity (snd <$> xs); [|unfold xs; rewrite fmap_reverse, fmap_imap; cbn [compose snd]; etrans; [apply f_equal, imap_const|]; cbn [set_FSLayers FSLayers]; by rewrite list_fmap_id, reverse_involutive].
  clear -Hm. induction Hm as [|[i d] y xs l E Hm IH]; [done|].
  change (b_Digest (l_BlobInfo y) :: layerInfosToStrings l = d :: (snd <$> xs)). rewrite IH. f_equal.
  unfold f, s1_layer in E. apply fmap_Some in E as (c & _ & ->). done.
Qed.
End Chain.

(** ** Runs *)

Definition demo_descriptor (mime : string) : Descriptor := mkDescriptor mime "sha256:a" 10 None None None None "".
Definition demo_manifest : OCI1 := OCI1FromComponents (demo_descriptor Signatures.MediaTypeImageConfig) [demo_descriptor MediaTypeImageLayerGzip].
Definition demo_info (op : LayerCompression) (algo : option Algorithm) : BlobInfo :=
  mkBlobInfo "sha256:b" 20 None None "" op algo PreserveOriginalCrypto.

Example demo_update :
  UpdateLayerInfos [demo_info Compress (Some ZstdChunked)] demo_manifest =
  (set_Layers [edited MediaTypeImageLayerZstd (demo_info Compress (Some ZstdChunked))] demo_manifest, Ret tt).
Proof. vm_compute. reflexivity. Qed.

(** A gzipped layer is packed with zstd and encrypted, the second one stays as it
    is. *)
Lemma UpdateLayerInfos_layers_witness :
  let m := OCI1FromComponents (demo_descriptor Signatures.MediaTypeImageConfig) [demo_descriptor MediaTypeImageLayerGzip; demo_descriptor MediaTypeImageLayer] in
  let infos := [mkBlobInfo "sha256:b" 20 None None "" Compress (Some ZstdChunked) Encrypt; demo_info PreserveOriginal None] in
  snd (UpdateLayerInfos infos m) = Ret tt ∧
  MediaType <$> Layers (fst (UpdateLayerInfos infos m)) = ["application/vnd.oci.image.layer.v1.tar+zstd+encrypted"; "application/vnd.oci.image.layer.v1.tar"] ∧
  ∃ k' : layer_kind, edit_kind (mkKind true TarGzip false) (mkBlobInfo "sha256:b" 20 None None "" Compress (Some ZstdChunked) Encrypt) = Some k'.
Proof.
  intros m infos. assert (snd (UpdateLayerInfos infos m) = Ret tt) as E by (vm_compute; reflexivity). split; [exact E|]. split; [vm_compute; reflexivity|].
  pose proof (UpdateLayerInfos_layers infos m [mkKind true TarGzip false; mkKind true Tar false]) as Hu.
  destruct (UpdateLayerInfos infos m) as [m' r]. simpl in E. subst r. destruct Hu as (_ & _ & _ & Hi).
  - vm_compute. reflexivity.
  - repeat constructor.
  - destruct (Hi 0) as (k & info & k' & Hk & Hinfo & He & _); [simpl; lia|]. injection Hk as <-. injection Hinfo as <-. by exists k'.
Defined.

Lemma UpdateLayerInfos_twice_witness :
  UpdateLayerInfos [demo_info Decompress None] (set_Layers [edited MediaTypeImageLayerZstd (demo_info Compress (Some ZstdChunked))] demo_manifest) =
  UpdateLayerInfos [demo_info Decompress None] demo_manifest.
Proof.
  apply (UpdateLayerInfos_twice [demo_info Compress (Some ZstdChunked)]); [|repeat constructor|reflexivity|apply demo_update].
  repeat constructor.
Defined.

(** Of two entries with one identifier [fixManifestLayers] removes the one on
    top, which is the newer one, and not, as its comment says, the older one. *)
Theorem fixManifestLayers_keeps_older :
  let a := "aaaaaaaaaaaaaaaaaaaaaaaaaaaaaaaaaaaaaaaaaaaaaaaaaaaaaaaaaaaaaaaa" in
  let compat := mkCompat a "" "" 0 None "" false in
  fixManifestLayers (mkSchema1 "" "" "" ["newer"; "older"] ["1"; "0"] [compat; compat] 1) =
  (mkSchema1 "" "" "" ["older"] ["0"] [compat] 1, Ret tt).
Proof. vm_compute. reflexivity. Qed.

(** A change of compression that fails leaves a manifest without its layer. *)
Theorem UpdateLayerInfos_error_empties :
  let bad := demo_info Compress (Some Bzip2) in
  UpdateLayerInfos [bad] demo_manifest =
  (set_Layers [emptyDescriptor] demo_manifest, Err ManifestLayerCompressionIncompatibilityError).
Proof. vm_compute. reflexivity. Qed.
End ImageManifestFacts.
